(* ===== verification/_CoqProject ===== *)
-Q . S2P
Prelude.v
Types.v
Quorum.v
Driver.v
Statements.v
Ballot.v
Nomination.v
Slot.v
Scp.v
Network.v
Promotion.v
NominationFacts.v
NominationSafety.v
BallotFacts.v
BallotSafety.v
BallotEmission.v
SlotFacts.v
SlotSafety.v
ScpSafety.v
Amounts.v
Exchange.v
Pool.v
Bucket.v
BucketMerge.v
BucketList.v
BucketListFacts.v
BucketListRefinement.v
BucketListIter.v
BucketListRestart.v
Ledger.v
Snapshot.v
SnapshotFacts.v
Delta.v
DeltaFacts.v
DeltaRefinement.v
DeltaFees.v
CloseState.v
CloseStateFacts.v
Lists.v
BitSet.v
Resource.v
Envelope.v
TxSetBuilder.v
TxSetConflicts.v
TxSetStage.v
TxSetAdd.v
TxSetBuild.v
FeeThreshold.v
TxSetCheck.v
TxSetPhase.v
TxSetXdr.v
TxSetTotals.v
TxSetSafety.v
SurgePricing.v
SurgePricingFacts.v
SurgePricingEvict.v
SurgePricingPop.v
TxQueueStore.v
TxQueue.v
TxQueueHeld.v
TxQueueStoreFacts.v
TxQueueFits.v
TxQueueAccounts.v
TxQueuePasses.v
TxQueueAdmission.v
TxQueueAdd.v
TxQueueOps.v
TxQueueClose.v
TxQueueRun.v
TxQueueLedger.v
TxQueueSafety.v
TxSetTrim.v
TxSelection.v
TxSelectionFacts.v
TxNomination.v
TxNominationSafety.v
