(* ===== verification/Prelude.v ===== *)
(** * Verification of the consensus core of henyey

    henyey is a Stellar validator written in Rust. This library models the parts that
    decide what the network agrees on and what it does to the ledger, and proves them
    correct: the consensus protocol SCP (crate scp); the transaction queue, the sets
    made from it and their checks (crates herder, tx, common and the ledger close of
    app); the changes of a ledger close and the snapshots they are made over (crate
    ledger); the bucket list that stores the ledger (crate bucket); and the arithmetic
    of balances, offers and pools (crates common and tx). All paths below are under
    src/crates/.

    ** How the parts interact

    A node offers the transactions it receives to its queue; for every ledger it selects
    from the queue, trims what is not valid, lays out a transaction set and nominates
    its value. SCP nominates, ballots and externalizes a value per slot. The ledger is
    then closed: the set is applied over a snapshot, the changes of entries collect in a
    delta, the deltas of parallel clusters are merged into it, and the delta is drained
    into a batch of the bucket list. At last the queue is updated with what was applied
    and with the limits of the new header, and the next ledger begins.

    The theorems follow this cycle. [TxQueueSafety.admission_within_limits] and
    [TxQueueSafety.ledger_close_updates_queue] are about the two ends of it in the queue;
    [TxNominationSafety.nominated_set_accepted] composes the queue, the selection, the
    builder and the checks of the receiver; [SlotSafety.slot_decides_once] the nomination
    and the ballot protocol; [CloseStateFacts.ledger_closes_refine] the delta, the state
    of the close and the bucket list, over [BucketListRefinement.bucket_list_refines_ledger].

    ** Conventions

    - An integer of the source is a [Z] with its range ([u32_max], [is_i64], ...), its
      wrapping, saturating or checked operations written out; a value of [usize] that
      only indexes or counts is a [nat] where it cannot overflow. The release profile
      has no overflow checks and no debug assertions, and neither has the model: plain
      operators wrap or are shown not to, checked sums followed by [expect] panic.
    - Fallible code returns a [result] with its error type; a panic (a failed [expect],
      [assert!], index or [panic!]) is an error of its own, the type [Panic], and the
      theorems show that it does not occur. The code of SCP is written in the monad [M]
      of state, log of driver calls, panics and exhausted fuel; its laws and the weakest
      preconditions [wp] are below.
    - A [BTreeMap] is a sorted list, a [HashMap] a [gmap]. Where the source iterates over
      a [HashMap] in an order that could be seen, the order is an argument, the class
      [HashIteration]; the theorems hold for all orders.
    - What is not in the repository is an argument: the XDR types of stellar_xdr beyond
      the fields that are read ([XdrTypes], [LedgerTypes], [EnvelopeTypes]), XDR encoding
      and hashes ([EnvelopeXdr], [XdrHash]), signatures and the driver ([SCPDriver]).

    ** The files

    Consensus (scp/src). Types: lib.rs, the data and the trait of driver.rs. Quorum:
    quorum.rs. Driver: the node weights of driver.rs. Statements: compare.rs,
    ballot/statements.rs and the federated voting of ballot/state_machine.rs. Ballot:
    ballot/mod.rs, state_machine.rs, envelope.rs. Nomination: nomination.rs. Slot:
    slot.rs. Scp: scp.rs. The state of each is the record of the name it has in the
    source, every method a function of the same name. Network shows that operations only
    append to the log; Promotion, NominationFacts, BallotFacts and SlotFacts hold the
    invariants; NominationSafety, BallotSafety, BallotEmission, SlotSafety and ScpSafety
    the theorems: invariants of all reachable states whatever the peers send, progress
    in one direction, one decision per slot which is reported once and rests on a quorum,
    statements sent in order, termination of all operations, exactness of the quorum
    predicates and of the election of leaders, bounds on the number of slots.

    Transaction sets. Resource: common/src/resource.rs and the facts on vectors of
    resources. Envelope: tx/src/envelope_utils.rs, fees.rs, frame.rs. BitSet,
    TxSetBuilder: herder/src/parallel_tx_set_builder.rs, tx/src/tx_set_xdr.rs. TxSetCheck:
    the checks of herder/src/tx_queue/tx_set.rs and tx_set_utils.rs. TxSetConflicts,
    TxSetStage, TxSetAdd, TxSetBuild, FeeThreshold, TxSetPhase, TxSetXdr, TxSetFootprints
    and TxSetTotals hold the invariants and lemmas, TxSetSafety the theorems: conflicts are
    found exactly, the greedy pass keeps a partition within all limits and never panics,
    the choice of the number of stages is the best within the tolerance of the fee, the
    XDR form is canonical, and what is built passes every check of a received set.

    The queue. SurgePricing: herder/src/surge_pricing.rs, with SurgePricingFacts, -Evict
    and -Pop. TxQueueStore, TxQueue: herder/src/tx_queue/mod.rs and flood_queue.rs, with
    TxQueueHeld, -StoreFacts, -Fits, -Accounts, -Passes, -Collect, -Admission, -Add, -Ops,
    -Shift. TxQueueClose: the update after a ledger in app/src/app/ledger_close.rs.
    TxQueueRun: everything that happens to a queue as events, and the states it reaches.
    TxQueueLedger and TxQueueSafety: what holds in them. The invariant [txqueue_ok] ties
    the store, the eviction queues, the accounts and the bans together, and every event
    keeps it. The theorems: no event panics; the accounts are those of the transactions;
    admission is all or nothing and leaves the limits respected; what stays after a
    ledger is known exactly; pending transactions leave in time; bans last.

    Nomination of a set. TxSetTrim: the trimming of tx_set_utils.rs, serial and on
    several threads. TxSelection: herder/src/tx_queue/selection.rs, with TxSelectionFacts
    and TxNomination. TxNominationSafety: the trimming is exact, the selection greedy and
    maximal within the limits, and the set that is built is accepted by every node.

    Buckets. Bucket: bucket/src/entry.rs, bucket.rs, merge.rs. BucketList: bucket_list.rs,
    live_iterator.rs. BucketMerge, BucketListFacts, -Refinement, -Iter, -Restart: merges
    implement reading one bucket over another, the list the map of the ledger through all
    spills and background merges, the iterator yields each live entry once, and a list
    restored from its saved hashes is the one that was saved.

    Ledger. Ledger: the keys of entries, common/src/types.rs. Snapshot: ledger/src/
    snapshot.rs. Delta: ledger/src/delta.rs. CloseState: ledger/src/close_state.rs and the
    batch of manager.rs. SnapshotFacts, DeltaFacts, DeltaRefinement, DeltaMeta, DeltaFees,
    CloseStateFacts: caches are never seen, a delta is a finite change of a map, merging
    composes and does not depend on the order of clusters, metadata replays, fees are
    charged up to the balance, errors occur exactly when stated.

    Amounts. Amounts: common/src/math.rs, checked_types.rs, asset.rs. Exchange: tx/src/
    operations/execute/offer_exchange.rs, offer_utils.rs, manage_offer.rs. Pool:
    liquidity_pool.rs, path_payment.rs. Rounding, limits and failure of every operation
    are characterized; the value of a pool share never drops.

    Lists holds lemmas on lists and fallible folds, this file the notations, the machine
    integers, orders, the two monads, maps and sorting that all files share.

    ** Fuel and bounds

    A loop that is not structural has fuel, and a theorem says that the fuel is enough:
    [advance_slot] is nested at most 50 deep, which the message level of the source
    enforces; the loop that skips ballot counters runs at most 2^34 steps, more than there
    are counters of 32 bits; [emit_nomination] is given four times the votes plus one,
    which a measure of the values still to be voted for or accepted bounds; the search
    for leaders stops after 1000 rounds as in the source; [square_root_loop] halves an
    interval of 64 bits in 65 steps; [pop_fuel], [select_fuel] and the fuel of evictions
    exceed the entries of a queue, of which each pass removes one or closes a lane;
    [live_collect] is given a number of passes computed from the buckets; [chunks_from]
    the length of its list.

    The theorems assume what the surroundings guarantee, by name. Laws of parameters:
    [SCPDriverLaws] and [ExtractLaws] state what the trait documents, encodings of
    different keys differ ([EnvelopeXdr]), a queued transaction with the hash of an
    applied one has its account and sequence number ([applied_ok]), the callbacks of a
    snapshot answer for one ledger ([faithful]). Ranges: ledger numbers up to 2^32 - 1
    less 2^19, the largest half of a level; protocol 12 or later in the bucket list, the
    shadows of the merges before it being definitions without a theorem of the list; at most [MAX_QUEUED] transactions in a queue; the products
    of instructions and clusters of a ledger within 64 bits. Checked elsewhere in the
    node: a transaction that passed its validation alone has the fees, operations and
    sizes of [env_ok] and [checks_fees]; the limits of a header are those of
    [header_ok]; the queue [follows] the configuration of the ledger when it nominates.
    Every theorem with such hypotheses is applied to a concrete input beside it.

    The locks of the herder and of the coordinator are held for a whole method, so a
    method is one step, and all interleavings of methods are the sequences of steps the
    theorems quantify over. Clock, seeds of tie-breaking, balances and the outcome of the
    validation of a transaction are arguments of a step.

    ** Not modelled

    - Input and output: files, indexes and caches of buckets, the database, history
      archives, the overlay, RPC, work scheduling, simulation. Buckets are their entries,
      a background merge is the result it ends with, and the map that shares merges
      between levels is left out.
    - The validation and the application of single transactions: signatures, sequence
      numbers, the operations beyond the crossing of offers and the pool arithmetic, the
      Soroban host (a dependency). Legacy transaction sets, upgrades, eviction scans and
      the window of state sizes.
    - Of the queue: broadcasting with its damping, statistics, and the limiter of
      tx_queue_limiter.rs. Of resources: scaling by floating-point factors. Of snapshots:
      the market stream, headers and builders.
    - JSON views, metrics, traces, configuration, and code compiled only for tests. *)

From stdpp Require Export prelude gmap list sorting.
From Stdlib Require Export ZArith Lia.
#[global] Open Scope Z_scope.

(** ** Machine integers

    Rust's [u32], [u64] and [usize] are integers of [Z] with the ranges below;
    the release profile of the repository ([Cargo.toml]) does not enable
    overflow checks, so [+] wraps. *)

Definition u32_max : Z := 2 ^ 32 - 1.
Definition u64_max : Z := 2 ^ 64 - 1.
Definition usize_max : Z := u64_max.

Definition is_u32 (n : Z) : Prop := 0 <= n <= u32_max.
Definition is_u64 (n : Z) : Prop := 0 <= n <= u64_max.

Definition u32_wrapping_add (a b : Z) : Z := (a + b) mod 2 ^ 32.
Definition u32_saturating_add (a b : Z) : Z := Z.min u32_max (a + b).
Definition u32_saturating_sub (a b : Z) : Z := Z.max 0 (a - b).
Definition usize_saturating_add (a b : Z) : Z := Z.min usize_max (a + b).
Definition usize_saturating_sub (a b : Z) : Z := Z.max 0 (a - b).

(** Signed integers and the 128-bit intermediate results: a cast [x as i64] keeps
    the low bits, the plain operators wrap, [saturating_*] clamp and [checked_*]
    answer [None] out of range. *)

Definition i32_max : Z := 2 ^ 31 - 1.
Definition i32_min : Z := - 2 ^ 31.
Definition i64_max : Z := 2 ^ 63 - 1.
Definition i64_min : Z := - 2 ^ 63.
Definition i128_max : Z := 2 ^ 127 - 1.
Definition i128_min : Z := - 2 ^ 127.
Definition u128_max : Z := 2 ^ 128 - 1.

Definition is_i32 (n : Z) : Prop := i32_min <= n <= i32_max.
Definition is_i64 (n : Z) : Prop := i64_min <= n <= i64_max.
Definition is_u128 (n : Z) : Prop := 0 <= n <= u128_max.

(** An [i64] that is an amount, and the [i32] parts of a price. *)
Definition amount64 (n : Z) : Prop := 0 <= n <= i64_max.
Definition positive32 (n : Z) : Prop := 0 < n <= i32_max.

Definition as_signed (bits : Z) (n : Z) : Z := (n + 2 ^ (bits - 1)) mod 2 ^ bits - 2 ^ (bits - 1).
Definition as_i64 : Z -> Z := as_signed 64.
Definition as_i128 : Z -> Z := as_signed 128.
Definition as_u32 (n : Z) : Z := n mod 2 ^ 32.
Definition as_u64 (n : Z) : Z := n mod 2 ^ 64.
Definition as_u128 (n : Z) : Z := n mod 2 ^ 128.

Definition saturating (lo hi n : Z) : Z := Z.max lo (Z.min hi n).
Definition checked (lo hi n : Z) : option Z := if (lo <=? n) && (n <=? hi) then Some n else None.
Definition checked_i64 : Z -> option Z := checked i64_min i64_max.

Lemma as_signed_id bits n (Hbits : 0 < bits) (Hn : - 2 ^ (bits - 1) <= n < 2 ^ (bits - 1)) :
  as_signed bits n = n.
Proof.
  unfold as_signed. replace (2 ^ bits) with (2 * 2 ^ (bits - 1)).
  - rewrite Z.mod_small; lia.
  - rewrite <- Z.pow_succ_r by lia. f_equal. lia.
Qed.

Lemma as_i64_id n : is_i64 n -> as_i64 n = n.
Proof. intros Hn. apply as_signed_id; [done|]. unfold is_i64, i64_min, i64_max in Hn. lia. Qed.

Lemma as_i128_id n : i128_min <= n <= i128_max -> as_i128 n = n.
Proof. intros Hn. apply as_signed_id; [done|]. unfold i128_min, i128_max in Hn. lia. Qed.

Lemma as_u128_id n : is_u128 n -> as_u128 n = n.
Proof. intros Hn. apply Z.mod_small. unfold is_u128, u128_max in Hn. lia. Qed.

Lemma as_u64_id n : is_u64 n -> as_u64 n = n.
Proof. intros Hn. apply Z.mod_small. unfold is_u64, u64_max in Hn. lia. Qed.

Lemma checked_i64_some n m : checked_i64 n = Some m <-> m = n /\ is_i64 n.
Proof.
  unfold checked_i64, checked, is_i64.
  destruct (Z.leb_spec i64_min n), (Z.leb_spec n i64_max); simpl; split; try lia; try done.
  - by intros [= <-].
  - by intros [-> _].
Qed.

(** Two integers of 63 bits multiply within 128 bits. *)
Lemma amounts_mul_bound a b : amount64 a -> amount64 b -> 0 <= a * b <= i64_max * i64_max.
Proof. unfold amount64. intros ??. split; [nia|]. apply Z.mul_le_mono_nonneg; lia. Qed.

(** Rounded quotients, by their defining inequalities. *)
Lemma floor_spec n d : 0 < d -> n / d * d <= n < n / d * d + d.
Proof. intros Hd. pose proof (Z.div_mod n d). pose proof (Z.mod_pos_bound n d). nia. Qed.

Lemma floor_unique n d q : 0 < d -> q * d <= n < q * d + d -> n / d = q.
Proof. intros Hd ?. symmetry. apply (Z.div_unique n d q (n - q * d)); lia. Qed.

Lemma ceil_spec n d : 0 < d -> n <= (n + d - 1) / d * d < n + d.
Proof. intros Hd. pose proof (floor_spec (n + d - 1) d Hd). lia. Qed.

Lemma ceil_unique n d q : 0 < d -> n <= q * d < n + d -> (n + d - 1) / d = q.
Proof. intros Hd ?. apply floor_unique; lia. Qed.

(** [Vec::len] as an integer. *)
Definition len {A} (l : list A) : Z := Z.of_nat (length l).
Arguments len {A} l : simpl never.

Lemma len_nil {A} : len (@nil A) = 0.
Proof. done. Qed.

Lemma len_cons {A} (x : A) l : len (x :: l) = 1 + len l.
Proof. unfold len. rewrite length_cons. lia. Qed.

Lemma len_app {A} (l k : list A) : len (l ++ k) = len l + len k.
Proof. unfold len. rewrite length_app. lia. Qed.

Lemma len_nonneg {A} (l : list A) : 0 <= len l.
Proof. unfold len. lia. Qed.

Lemma len_fmap {A B} (f : A -> B) (l : list A) : len (f <$> l) = len l.
Proof. unfold len. by rewrite length_fmap. Qed.

Lemma len_perm {A} (l k : list A) : Permutation l k -> len l = len k.
Proof. unfold len. by intros ->. Qed.

(** ** Lawful comparison functions

    [Ord::cmp] and the comparators given to [sort_by] are functions to
    [comparison]; [LawfulCompare] states that one of them is a total order whose
    [Eq] is equality, which makes sorting with it canonical. *)

Class LawfulCompare {A} (cmp : A -> A -> comparison) : Prop := {
  compare_eq : forall a b, cmp a b = Eq -> a = b;
  compare_antisym : forall a b, cmp b a = CompOpp (cmp a b);
  compare_lt_trans : forall a b c, cmp a b = Lt -> cmp b c = Lt -> cmp a c = Lt
}.
Arguments compare_eq {A} cmp {_} a b.
Arguments compare_antisym {A} cmp {_} a b.
Arguments compare_lt_trans {A} cmp {_} a b c.

(** [a <= b] for a comparator: what [sort_by] puts in order. *)
Definition cmp_le {A} (cmp : A -> A -> comparison) (a b : A) : Prop := cmp a b <> Gt.

#[global] Instance cmp_le_dec {A} (cmp : A -> A -> comparison) a b :
  Decision (cmp_le cmp a b).
Proof. unfold cmp_le. apply _. Defined.

Section lawful.
Context {A} (cmp : A -> A -> comparison) `{!LawfulCompare cmp}.

Lemma compare_refl a : cmp a a = Eq.
Proof. pose proof (compare_antisym cmp a a) as E. by destruct (cmp a a). Qed.

Lemma compare_eq_iff a b : cmp a b = Eq <-> a = b.
Proof. split; [apply (compare_eq cmp) | intros ->; apply compare_refl]. Qed.

Lemma compare_gt_lt a b : cmp a b = Gt <-> cmp b a = Lt.
Proof. rewrite (compare_antisym cmp a b). by destruct (cmp a b). Qed.

Lemma compare_lt_ne a b : cmp a b = Lt -> a <> b.
Proof. intros E ->. by rewrite compare_refl in E. Qed.

#[global] Instance cmp_le_trans : Transitive (cmp_le cmp).
Proof.
  intros a b c Hab Hbc. unfold cmp_le in *.
  destruct (cmp a b) eqn:Eab; [| | done].
  - apply (compare_eq cmp) in Eab as ->. done.
  - destruct (cmp b c) eqn:Ebc; [| | done].
    + apply (compare_eq cmp) in Ebc as ->. by rewrite Eab.
    + by rewrite (compare_lt_trans cmp _ _ _ Eab Ebc).
Qed.

#[global] Instance cmp_le_total : Total (cmp_le cmp).
Proof.
  intros a b. unfold cmp_le. rewrite (compare_antisym cmp a b).
  destruct (cmp a b); simpl; auto.
Qed.

#[global] Instance cmp_le_antisymm : AntiSymm (=) (cmp_le cmp).
Proof.
  intros a b. unfold cmp_le. rewrite (compare_antisym cmp a b).
  destruct (cmp a b) eqn:E; simpl; try done. intros _ _. by apply (compare_eq cmp).
Qed.

#[global] Instance cmp_le_refl : Reflexive (cmp_le cmp).
Proof. intros a. unfold cmp_le. by rewrite compare_refl. Qed.

Lemma cmp_le_lt_eq a b : cmp_le cmp a b <-> cmp a b = Lt \/ a = b.
Proof.
  unfold cmp_le. rewrite <- compare_eq_iff. destruct (cmp a b); intuition congruence.
Qed.

(** Sorting with a lawful comparator forgets the order of its input. *)
Lemma merge_sort_perm l k :
  Permutation l k -> merge_sort (cmp_le cmp) l = merge_sort (cmp_le cmp) k.
Proof.
  intros H. apply (Sorted_unique (cmp_le cmp)).
  - apply (Sorted_merge_sort _).
  - apply (Sorted_merge_sort _).
  - rewrite !merge_sort_Permutation. done.
Qed.

Lemma merge_sort_sorted_id l :
  Sorted (cmp_le cmp) l -> merge_sort (cmp_le cmp) l = l.
Proof.
  intros H. apply (Sorted_unique (cmp_le cmp)); [apply (Sorted_merge_sort _) | done |].
  apply merge_sort_Permutation.
Qed.
End lawful.

#[global] Instance Z_compare_lawful : LawfulCompare Z.compare.
Proof.
  split.
  - apply Z.compare_eq.
  - intros. apply Z.compare_antisym.
  - intros a b c. rewrite !Z.compare_lt_iff. lia.
Qed.

(** Lexicographic comparison of two lists, the derived [Ord] of [Vec<T>]. *)
Definition list_compare {A} (cmp : A -> A -> comparison) : list A -> list A -> comparison :=
  fix go l1 l2 :=
    match l1, l2 with
    | [], [] => Eq
    | [], _ :: _ => Lt
    | _ :: _, [] => Gt
    | x :: l1', y :: l2' =>
        match cmp x y with
        | Eq => go l1' l2'
        | o => o
        end
    end.

(** The comparison of the first [min] elements of two lists:
    [for (a, b) in l1.iter().zip(l2.iter())] with an early return. *)
Definition zip_compare {A} (cmp : A -> A -> comparison) : list A -> list A -> comparison :=
  fix go l1 l2 :=
    match l1, l2 with
    | x :: l1', y :: l2' =>
        match cmp x y with
        | Eq => go l1' l2'
        | o => o
        end
    | _, _ => Eq
    end.

(** The order laws of [list_compare], from laws of the elements of the first
    list only: nested types prove them by induction on the first argument. *)
Lemma list_compare_eq_local {A} (cmp : A -> A -> comparison) l1 l2 :
  Forall (fun x => forall y, cmp x y = Eq -> x = y) l1 ->
  list_compare cmp l1 l2 = Eq -> l1 = l2.
Proof.
  intros H. revert l2. induction H as [|x l1 Hx _ IH]; intros [|y l2]; simpl; try done.
  destruct (cmp x y) eqn:E; try done. intros. f_equal; auto.
Qed.

Lemma list_compare_antisym_local {A} (cmp : A -> A -> comparison) l1 l2 :
  Forall (fun x => forall y, cmp y x = CompOpp (cmp x y)) l1 ->
  list_compare cmp l2 l1 = CompOpp (list_compare cmp l1 l2).
Proof.
  intros H. revert l2. induction H as [|x l1 Hx _ IH]; intros [|y l2]; simpl; try done.
  rewrite Hx. destruct (cmp x y); simpl; auto.
Qed.

Lemma list_compare_trans_local {A} (cmp : A -> A -> comparison) l1 l2 l3 :
  (forall x y, cmp x y = Eq -> x = y) ->
  (forall x, cmp x x = Eq) ->
  Forall (fun x => forall y z, cmp x y = Lt -> cmp y z = Lt -> cmp x z = Lt) l1 ->
  list_compare cmp l1 l2 = Lt -> list_compare cmp l2 l3 = Lt -> list_compare cmp l1 l3 = Lt.
Proof.
  intros Heq Hrefl H. revert l2 l3.
  induction H as [|x l1 Hx _ IH]; intros [|y l2] [|z l3]; simpl; try done.
  destruct (cmp x y) eqn:Exy; [| |done].
  - apply Heq in Exy as ->. destruct (cmp y z); eauto.
  - destruct (cmp y z) eqn:Eyz; [| |done].
    + apply Heq in Eyz as ->. by rewrite Exy.
    + by rewrite (Hx _ _ Exy Eyz).
Qed.

#[global] Instance list_compare_lawful {A} (cmp : A -> A -> comparison)
  `{!LawfulCompare cmp} : LawfulCompare (list_compare cmp).
Proof.
  split; intros.
  - eapply list_compare_eq_local; [|done]. apply Forall_true. intros; by apply (compare_eq cmp).
  - apply list_compare_antisym_local. apply Forall_true. intros; apply (compare_antisym cmp).
  - eapply (list_compare_trans_local cmp); eauto.
    + apply (compare_eq cmp).
    + by apply compare_refl.
    + apply Forall_true. intros ???. by apply (compare_lt_trans cmp).
Qed.

(** Comparing the common prefix and then the lengths is lexicographic order. *)
Lemma zip_then_length_compare {A} (cmp : A -> A -> comparison) l1 l2 :
  list_compare cmp l1 l2 =
  match zip_compare cmp l1 l2 with
  | Eq => Z.compare (len l1) (len l2)
  | o => o
  end.
Proof.
  revert l2. induction l1 as [|x l1 IH]; intros [|y l2]; [done..|].
  simpl list_compare. simpl zip_compare. rewrite !len_cons.
  destruct (cmp x y); [|done..]. rewrite IH.
  destruct (zip_compare cmp l1 l2); [|done..].
  destruct (Z.compare_spec (len l1) (len l2)); symmetry;
    [apply Z.compare_eq_iff | apply Z.compare_lt_iff | apply Z.compare_gt_iff]; lia.
Qed.

(** ** A state, log and error monad

    An operation of a component reads and replaces the state [S] of the
    component, appends the callbacks it makes to a log of events [E], and may
    panic.  [NoFuel] marks a model recursion that was given too little fuel; no
    Rust behaviour corresponds to it, and the components prove it away. *)

Inductive outcome (A : Type) : Type :=
| Done (a : A)
| Panicked
| NoFuel.
Arguments Done {A} a.
Arguments Panicked {A}.
Arguments NoFuel {A}.

Definition M (E S A : Type) : Type := S -> list E -> outcome (A * S * list E).

Definition ret {E S A} (a : A) : M E S A := fun s l => Done (a, s, l).
Definition bind {E S A B} (m : M E S A) (k : A -> M E S B) : M E S B :=
  fun s l =>
    match m s l with
    | Done (a, s', l') => k a s' l'
    | Panicked => Panicked
    | NoFuel => NoFuel
    end.
Definition get {E S} : M E S S := fun s l => Done (s, s, l).
Definition modify {E S} (f : S -> S) : M E S unit := fun s l => Done (tt, f s, l).
Definition tell {E S} (e : E) : M E S unit := fun s l => Done (tt, s, l ++ [e]).
Definition panic {E S A} : M E S A := fun _ _ => Panicked.
Definition no_fuel {E S A} : M E S A := fun _ _ => NoFuel.

(** Running an operation of a part of the state: the call of a method of a field. *)
Definition zoom {E S T A} (proj : S -> T) (upd : T -> S -> S) (m : M E T A) : M E S A :=
  fun s l =>
    match m (proj s) l with
    | Done (a, t, l') => Done (a, upd t s, l')
    | Panicked => Panicked
    | NoFuel => NoFuel
    end.

Declare Scope henyey_scope.
Delimit Scope henyey_scope with henyey.
Notation "x <- m ;; k" := (bind m (fun x => k))
  (at level 100, m at next level, right associativity) : henyey_scope.
Notation "m ;; k" := (bind m (fun _ => k))
  (at level 100, right associativity) : henyey_scope.
#[global] Open Scope henyey_scope.

(** [when c m]: an [if] without an [else]. *)
Definition when {E S} (c : bool) (m : M E S unit) : M E S unit :=
  if c then m else ret tt.

(** Runs [body] until it answers [false], at most [2 ^ n] times: whether every
    one of the [2 ^ n] runs answered [true].  The exponent keeps the bound on the
    turns of a [loop] small enough to evaluate. *)
Fixpoint repeat_pow {E S} (n : nat) (body : M E S bool) : M E S bool :=
  match n with
  | O => body
  | S n => b <- repeat_pow n body ;; if b : bool then repeat_pow n body else ret false
  end.

(** Weakest precondition of an operation: the run ends in a state that satisfies
    [Q], or in a panic of the source, and never for lack of fuel. *)
Definition wp {E S A} (m : M E S A) (Q : A -> S -> list E -> Prop) (s : S) (l : list E) : Prop :=
  match m s l with
  | Done (a, s', l') => Q a s' l'
  | Panicked => True
  | NoFuel => False
  end.

Section wp.
Context {E S : Type}.

Lemma wp_ret {A} (a : A) (Q : A -> S -> list E -> Prop) s l :
  Q a s l -> wp (ret a) Q s l.
Proof. done. Qed.

Lemma wp_bind {A B} (m : M E S A) (k : A -> M E S B) Q s l :
  wp m (fun a s' l' => wp (k a) Q s' l') s l -> wp (bind m k) Q s l.
Proof. unfold wp, bind. destruct (m s l) as [[[a s'] l']| |]; done. Qed.

Lemma wp_mono {A} (m : M E S A) (P Q : A -> S -> list E -> Prop) s l :
  wp m P s l -> (forall a s' l', P a s' l' -> Q a s' l') -> wp m Q s l.
Proof. unfold wp. destruct (m s l) as [[[a s'] l']| |]; eauto. Qed.

Lemma wp_get (Q : S -> S -> list E -> Prop) s l : Q s s l -> wp get Q s l.
Proof. done. Qed.

Lemma wp_modify f (Q : unit -> S -> list E -> Prop) s l : Q tt (f s) l -> wp (modify f) Q s l.
Proof. done. Qed.

Lemma wp_tell e (Q : unit -> S -> list E -> Prop) s l : Q tt s (l ++ [e]) -> wp (tell e) Q s l.
Proof. done. Qed.

Lemma wp_panic {A} (Q : A -> S -> list E -> Prop) s l : wp panic Q s l.
Proof. done. Qed.

Lemma wp_zoom {T A} (proj : S -> T) upd (m : M E T A) Q s l :
  wp m (fun a t l' => Q a (upd t s) l') (proj s) l -> wp (zoom proj upd m) Q s l.
Proof. unfold wp, zoom. destruct (m (proj s) l) as [[[a t] l']| |]; done. Qed.

(** What [wp] says about a run that returns. *)
Lemma wp_done {A} (m : M E S A) (Q : A -> S -> list E -> Prop) s l a s' l' :
  wp m Q s l -> m s l = Done (a, s', l') -> Q a s' l'.
Proof. unfold wp. intros H E0. by rewrite E0 in H. Qed.

Lemma wp_not_no_fuel {A} (m : M E S A) Q s l : wp m Q s l -> m s l <> NoFuel.
Proof. unfold wp. by destruct (m s l). Qed.

(** A loop whose body keeps [I] and decreases [m] when it answers [true]. *)
Lemma wp_repeat_pow n (body : M E S bool) (I : S -> list E -> Prop) (m : S -> Z) s l :
  (forall s l, I s l -> wp body (fun b s' l' => I s' l' /\ (b = true -> m s' < m s)) s l) ->
  I s l ->
  wp (repeat_pow n body) (fun b s' l' => I s' l' /\ (b = true -> m s' + 2 ^ Z.of_nat n <= m s)) s l.
Proof.
  intros Hb. revert s l. induction n as [|n IH]; intros s l Hs; simpl repeat_pow.
  - eapply wp_mono; [by apply Hb|]. intros b s' l' [? Hm]. split; [done|]. intros Hbt.
    specialize (Hm Hbt). lia.
  - apply wp_bind. eapply wp_mono; [by apply IH|]. intros [] s1 l1 [I1 Hm1]; [|by apply wp_ret].
    eapply wp_mono; [by apply IH|]. intros b s2 l2 [I2 Hm2]. split; [done|]. intros Hbt.
    specialize (Hm1 eq_refl). specialize (Hm2 Hbt).
    rewrite Nat2Z.inj_succ, Z.pow_succ_r by lia. lia.
Qed.
End wp.

(** ** Preserved assertions

    [preserves P m]: when the operation [m] returns from a state and log that
    satisfy [P], the new ones satisfy [P] again; whether it returns is proved
    apart.  The lemmas follow the structure of an operation; the tactic [walk]
    applies them with those of the hint database [walk] to the operations
    called. *)

Definition preserves {E S A} (P : S -> list E -> Prop) (m : M E S A) : Prop :=
  forall s l a s' l', P s l -> m s l = Done (a, s', l') -> P s' l'.

Section preserves.
Context {E S : Type} (P : S -> list E -> Prop).

Lemma preserves_wp {A} (m : M E S A) :
  (forall s l, P s l -> wp m (fun _ s' l' => P s' l') s l) -> preserves P m.
Proof. intros Hm s l a s' l' HP Hr. by apply (wp_done _ _ _ _ _ _ _ (Hm s l HP) Hr). Qed.

Lemma preserves_ret {A} (a : A) : preserves P (ret a).
Proof. by apply preserves_wp. Qed.

Lemma preserves_panic {A} : preserves P (panic (A:=A)).
Proof. by apply preserves_wp. Qed.

Lemma preserves_no_fuel {A} : preserves P (no_fuel (A:=A)).
Proof. by intros s l a s' l'. Qed.

Lemma preserves_get : preserves P get.
Proof. by apply preserves_wp. Qed.

Lemma preserves_bind {A B} (m : M E S A) (k : A -> M E S B) :
  preserves P m -> (forall a, preserves P (k a)) -> preserves P (bind m k).
Proof.
  intros Hm Hk s l b s' l' HP. unfold bind. destruct (m s l) as [[[a s1] l1]| |] eqn:E1; [|done|done].
  apply Hk. by eapply Hm.
Qed.

(** What a run guarantees together with what it preserves. *)
Lemma wp_preserves {A} (m : M E S A) (Q : A -> S -> list E -> Prop) s l :
  wp m Q s l -> preserves P m -> P s l -> wp m (fun a s' l' => Q a s' l' /\ P s' l') s l.
Proof.
  unfold wp. intros Hw Hp HP. destruct (m s l) as [[[a s'] l']| |] eqn:E1; [|done|done].
  split; [done|]. by eapply Hp.
Qed.

(** The state just read is the current one. *)
Lemma preserves_get_bind {B} (k : S -> M E S B) :
  (forall s l a s' l', P s l -> k s s l = Done (a, s', l') -> P s' l') -> preserves P (bind get k).
Proof. intros Hk s l b s' l' HP. apply Hk, HP. Qed.

Lemma preserves_when c (m : M E S unit) : preserves P m -> preserves P (when c m).
Proof. intros Hm. destruct c; [done|apply preserves_ret]. Qed.

Lemma preserves_repeat_pow n (body : M E S bool) : preserves P body -> preserves P (repeat_pow n body).
Proof.
  intros Hb. induction n as [|n IH]; simpl; [done|].
  apply preserves_bind; [done|]. intros []; [done|apply preserves_ret].
Qed.
End preserves.

(** ** The log is only written

    [uniform m]: what [m] does and what it appends do not depend on the log it is
    given.  Every operation of the program is built from pieces that are. *)

Definition uniform {E S A} (m : M E S A) : Prop :=
  forall s,
  match m s [] with
  | Done (a, s', evs) => forall l, m s l = Done (a, s', l ++ evs)
  | Panicked => forall l, m s l = Panicked
  | NoFuel => forall l, m s l = NoFuel
  end.

Section uniform.
Context {E S : Type}.

Lemma uniform_run {A} (m : M E S A) s l a s' l' :
  uniform m -> m s l = Done (a, s', l') ->
  exists evs, l' = l ++ evs /\ forall k, m s k = Done (a, s', k ++ evs).
Proof.
  intros Hm Hr. specialize (Hm s). destruct (m s []) as [[[a0 s0] evs]| |]; rewrite Hm in Hr; [|done|done].
  injection Hr as <- <- <-. by exists evs.
Qed.

Lemma uniform_ret {A} (a : A) : uniform (ret (E:=E) (S:=S) a).
Proof. intros s l. unfold ret. by rewrite app_nil_r. Qed.

Lemma uniform_get : uniform (get (E:=E) (S:=S)).
Proof. intros s l. unfold get. by rewrite app_nil_r. Qed.

Lemma uniform_modify (f : S -> S) : uniform (modify (E:=E) f).
Proof. intros s l. unfold modify. by rewrite app_nil_r. Qed.

Lemma uniform_tell (e : E) : uniform (tell (S:=S) e).
Proof. by intros s l. Qed.

Lemma uniform_panic {A} : uniform (panic (E:=E) (S:=S) (A:=A)).
Proof. by intros s l. Qed.

Lemma uniform_no_fuel {A} : uniform (no_fuel (E:=E) (S:=S) (A:=A)).
Proof. by intros s l. Qed.

Lemma uniform_bind {A B} (m : M E S A) (k : A -> M E S B) :
  uniform m -> (forall a, uniform (k a)) -> uniform (bind m k).
Proof.
  intros Hm Hk s. unfold bind. specialize (Hm s). destruct (m s []) as [[[a s1] e1]| |].
  - specialize (Hk a s1). destruct (k a s1 []) as [[[b s2] e2]| |] eqn:E2.
    + rewrite Hk. intros l. by rewrite Hm, Hk, app_assoc.
    + rewrite Hk. intros l. by rewrite Hm, Hk.
    + rewrite Hk. intros l. by rewrite Hm, Hk.
  - intros l. by rewrite Hm.
  - intros l. by rewrite Hm.
Qed.

Lemma uniform_when c (m : M E S unit) : uniform m -> uniform (when c m).
Proof. intros Hm. destruct c; [done|apply uniform_ret]. Qed.

Lemma uniform_repeat_pow n (body : M E S bool) : uniform body -> uniform (repeat_pow n body).
Proof.
  intros Hb. induction n as [|n IH]; simpl; [done|].
  apply uniform_bind; [done|]. intros []; [done|apply uniform_ret].
Qed.

Lemma uniform_zoom {T A} (proj : S -> T) upd (m : M E T A) : uniform m -> uniform (zoom proj upd m).
Proof.
  intros Hm s. unfold zoom. specialize (Hm (proj s)).
  destruct (m (proj s) []) as [[[a t] evs]| |]; intros l; by rewrite Hm.
Qed.
End uniform.

Create HintDb walk discriminated.
Create HintDb uniform discriminated.

(** One symbolic step of an operation. *)
Ltac wp_step :=
  match goal with
  | |- wp (bind _ _) _ _ _ => apply wp_bind
  | |- wp (ret _) _ _ _ => apply wp_ret
  | |- wp get _ _ _ => apply wp_get
  | |- wp (modify _) _ _ _ => apply wp_modify
  | |- wp (tell _) _ _ _ => apply wp_tell
  | |- wp panic _ _ _ => apply wp_panic
  | |- wp (zoom _ _ _) _ _ _ => apply wp_zoom
  end.
Ltac wp_steps := repeat (wp_step; cbv beta).

(** Following an operation that preserves an assertion. *)
Ltac walk_step :=
  match goal with
  | |- preserves _ (bind _ _) => apply preserves_bind; [|intros ?]
  | |- preserves _ (ret _) => apply preserves_ret
  | |- preserves _ get => apply preserves_get
  | |- preserves _ panic => apply preserves_panic
  | |- preserves _ no_fuel => apply preserves_no_fuel
  | |- preserves _ (when _ _) => apply preserves_when
  | |- preserves _ (repeat_pow _ _) => apply preserves_repeat_pow
  | |- preserves _ _ => solve [auto with walk]
  | |- preserves _ (let '(_, _) := ?x in _) => destruct x
  | |- preserves _ (match ?x with _ => _ end) => destruct x
  | |- preserves _ (let _ := _ in _) => cbv zeta
  end.
Ltac walk := repeat walk_step.

(** The same for [uniform]. *)
Ltac uniform_step :=
  match goal with
  | |- uniform (bind _ _) => apply uniform_bind; [|intros ?]
  | |- uniform (ret _) => apply uniform_ret
  | |- uniform get => apply uniform_get
  | |- uniform (modify _) => apply uniform_modify
  | |- uniform (tell _) => apply uniform_tell
  | |- uniform panic => apply uniform_panic
  | |- uniform no_fuel => apply uniform_no_fuel
  | |- uniform (when _ _) => apply uniform_when
  | |- uniform (repeat_pow _ _) => apply uniform_repeat_pow
  | |- uniform (zoom _ _ _) => apply uniform_zoom
  | |- uniform _ => solve [auto with uniform]
  | |- uniform (let '(_, _) := ?x in _) => destruct x
  | |- uniform (match ?x with _ => _ end) => destruct x
  | |- uniform (let _ := _ in _) => cbv zeta
  end.
Ltac uniform_walk := repeat uniform_step.

(** ** Results and loops *)

(** [Result<A, E>]. *)
Inductive result (A E : Type) : Type :=
| Ok (a : A)
| Err (e : E).
Arguments Ok {A E} a.
Arguments Err {A E} e.

Definition is_ok {A E} (r : result A E) : bool :=
  match r with Ok _ => true | Err _ => false end.

(** The operator [?] and [map_err], [ok_or]. *)
Definition result_bind {A B E} (r : result A E) (k : A -> result B E) : result B E :=
  match r with Ok a => k a | Err e => Err e end.
Definition map_err {A E F} (f : E -> F) (r : result A E) : result A F :=
  match r with Ok a => Ok a | Err e => Err (f e) end.
Definition ok_or {A E} (e : E) (o : option A) : result A E :=
  match o with Some a => Ok a | None => Err e end.

Notation "'let?' x := r 'in' k" := (result_bind r (fun x => k))
  (at level 200, x pattern, r at level 100, k at level 200, right associativity).

(** [o.as_ref().map(f).unwrap_or(d)]. *)
Definition map_or {A B} (d : B) (f : A -> B) (o : option A) : B :=
  match o with Some a => f a | None => d end.

(** A [for] loop over a list whose body may leave the function with [?]. *)
Definition try_fold {S A E} (f : S -> A -> result S E) : list A -> S -> result S E :=
  fix go l s :=
    match l with
    | [] => Ok s
    | x :: l' =>
        match f s x with
        | Ok s' => go l' s'
        | Err e => Err e
        end
    end.

(** [iter().map(..).collect::<Result<Vec<_>, _>>()]. *)
Definition try_map {A B E} (f : A -> result B E) : list A -> result (list B) E :=
  fix go l :=
    match l with
    | [] => Ok []
    | x :: l' =>
        match f x with
        | Ok y => match go l' with Ok ys => Ok (y :: ys) | Err e => Err e end
        | Err e => Err e
        end
    end.

Lemma try_map_ok {A B E} (f : A -> result B E) (g : A -> B) l :
  (forall x, x ∈ l -> f x = Ok (g x)) -> try_map f l = Ok (g <$> l).
Proof.
  induction l as [|x l IH]; intros H; simpl; [done|].
  rewrite H by left. rewrite IH; [done|]. intros y Hy. apply H. by right.
Qed.

Lemma try_map_forall2 {A B E} (f : A -> result B E) l k :
  try_map f l = Ok k <-> Forall2 (fun x y => f x = Ok y) l k.
Proof.
  revert k. induction l as [|x l IH]; intros k; simpl.
  - split; [by intros [= <-]|]. by intros ->%Forall2_nil_inv_l.
  - split.
    + destruct (f x) eqn:Ex; [|done]. destruct (try_map f l) as [ys|] eqn:El; [|done].
      intros [= <-]. constructor; [done|]. by apply IH.
    + intros (y & k' & Hy & Hk & ->)%Forall2_cons_inv_l. rewrite Hy. apply IH in Hk. by rewrite Hk.
Qed.

(** The invariant rule of a loop that never fails. *)
Lemma try_fold_invariant {S A E} (f : S -> A -> result S E) (P : list A -> S -> Prop) l s :
  P [] s ->
  (forall before x after s, l = before ++ x :: after -> P before s -> exists s', f s x = Ok s' /\ P (before ++ [x]) s') ->
  exists s', try_fold f l s = Ok s' /\ P l s'.
Proof.
  intros H0 Hstep.
  assert (forall after before s, l = before ++ after -> P before s ->
    exists s', try_fold f after s = Ok s' /\ P l s') as H; [|by apply (H l [])].
  induction after as [|x after IH]; intros before t Hl HP; simpl.
  - exists t. rewrite app_nil_r in Hl. by subst.
  - destruct (Hstep before x after t Hl HP) as (t' & -> & HP').
    apply (IH (before ++ [x]) t'); [|done]. by rewrite <- app_assoc.
Qed.

(** A counting loop: [for x in l { if p(x) { count += 1 } }]. *)
Definition count_if {A} (p : A -> bool) : list A -> Z :=
  fix go l :=
    match l with
    | [] => 0
    | x :: l' => (if p x then 1 else 0) + go l'
    end.

(** The same loop with [if count >= threshold { return true; }] after each
    increment: whether it left early, and the counter. *)
Definition count_until {A} (threshold : Z) (p : A -> bool) : list A -> Z -> bool * Z :=
  fix go l count :=
    match l with
    | [] => (false, count)
    | x :: l' =>
        if p x then
          if threshold <=? count + 1 then (true, count + 1) else go l' (count + 1)
        else go l' count
    end.

Lemma count_if_cons {A} (p : A -> bool) x l :
  count_if p (x :: l) = (if p x then 1 else 0) + count_if p l.
Proof. done. Qed.

Lemma count_if_nonneg {A} (p : A -> bool) l : 0 <= count_if p l.
Proof. induction l as [|x l IH]; simpl; [done|]. destruct (p x); lia. Qed.

Lemma count_if_le_len {A} (p : A -> bool) l : count_if p l <= len l.
Proof.
  induction l as [|x l IH]; [done|]. simpl count_if. rewrite len_cons.
  destruct (p x); lia.
Qed.

Lemma count_if_app {A} (p : A -> bool) l k : count_if p (l ++ k) = count_if p l + count_if p k.
Proof. induction l as [|x l IH]; [done|]. simpl. rewrite IH. lia. Qed.

Lemma count_if_perm {A} (p : A -> bool) l k : Permutation l k -> count_if p l = count_if p k.
Proof. induction 1; simpl; lia. Qed.

Lemma count_if_mono {A} (p r : A -> bool) l :
  Forall (fun x => p x = true -> r x = true) l -> count_if p l <= count_if r l.
Proof.
  induction 1 as [|x l Hx _ IH]; simpl; [done|].
  destruct (p x); [rewrite Hx by done; lia|]. destruct (r x); lia.
Qed.

Lemma count_if_ext {A} (p r : A -> bool) l :
  Forall (fun x => p x = r x) l -> count_if p l = count_if r l.
Proof. induction 1 as [|x l Hx _ IH]; simpl; [done|]. rewrite Hx. lia. Qed.

Lemma count_if_negb {A} (p : A -> bool) l : count_if (fun x => negb (p x)) l = len l - count_if p l.
Proof.
  induction l as [|x l IH]; [done|]. simpl count_if. rewrite len_cons.
  destruct (p x); simpl; lia.
Qed.

Lemma count_if_fmap {A B} (p : B -> bool) (f : A -> B) l :
  count_if p (f <$> l) = count_if (fun x => p (f x)) l.
Proof. induction l as [|x l IH]; [done|]. csimpl. by rewrite IH. Qed.

Lemma count_until_spec {A} threshold (p : A -> bool) l c :
  match count_until threshold p l c with
  | (true, _) => threshold <= c + count_if p l
  | (false, c') => c' = c + count_if p l
  end.
Proof.
  revert c. induction l as [|x l IH]; intros c; simpl; [lia|].
  destruct (p x).
  - destruct (Z.leb_spec threshold (c + 1)).
    + pose proof (count_if_nonneg p l). lia.
    + specialize (IH (c + 1)). destruct (count_until threshold p l (c + 1)) as [[] ?]; lia.
  - specialize (IH c). destruct (count_until threshold p l c) as [[] ?]; lia.
Qed.

Lemma filter_length_eq {A} (P : A -> Prop) `{!forall x, Decision (P x)} l :
  length (filter P l) = length l -> filter P l = l.
Proof.
  induction l as [|x l IH]; [done|]. rewrite filter_cons. case_decide; simpl.
  - intros [= ?]. f_equal. auto.
  - pose proof (length_filter P l). lia.
Qed.

(** ** More lawful comparisons *)

Definition pair_compare {A B} (ca : A -> A -> comparison) (cb : B -> B -> comparison)
    (x y : A * B) : comparison :=
  match ca x.1 y.1 with
  | Eq => cb x.2 y.2
  | o => o
  end.

Definition option_compare {A} (ca : A -> A -> comparison) (x y : option A) : comparison :=
  match x, y with
  | None, None => Eq
  | None, Some _ => Lt
  | Some _, None => Gt
  | Some x, Some y => ca x y
  end.

#[global] Instance pair_compare_lawful {A B} (ca : A -> A -> comparison)
  (cb : B -> B -> comparison) `{!LawfulCompare ca, !LawfulCompare cb} :
  LawfulCompare (pair_compare ca cb).
Proof.
  unfold pair_compare. split.
  - intros [a1 b1] [a2 b2]; simpl. destruct (ca a1 a2) eqn:E; try done.
    apply (compare_eq ca) in E as ->. by intros ->%(compare_eq cb).
  - intros [a1 b1] [a2 b2]; simpl. rewrite (compare_antisym ca a1 a2).
    destruct (ca a1 a2); simpl; try done. apply (compare_antisym cb).
  - intros [a1 b1] [a2 b2] [a3 b3]; simpl.
    destruct (ca a1 a2) eqn:E1; [| |done].
    + apply (compare_eq ca) in E1 as ->. destruct (ca a2 a3); try done.
      apply (compare_lt_trans cb).
    + intros _. destruct (ca a2 a3) eqn:E2; [| |done].
      * apply (compare_eq ca) in E2 as ->. by rewrite E1.
      * by rewrite (compare_lt_trans ca _ _ _ E1 E2).
Qed.

#[global] Instance option_compare_lawful {A} (ca : A -> A -> comparison) `{!LawfulCompare ca} :
  LawfulCompare (option_compare ca).
Proof.
  split.
  - intros [a|] [b|]; simpl; try done. by intros ->%(compare_eq ca).
  - intros [a|] [b|]; simpl; try done. apply (compare_antisym ca).
  - intros [a|] [b|] [c|]; simpl; try done. apply (compare_lt_trans ca).
Qed.

(** The derived [Ord] of an enum: the earlier variant is less. *)
Definition sum_compare {A B} (ca : A -> A -> comparison) (cb : B -> B -> comparison)
    (x y : A + B) : comparison :=
  match x, y with
  | inl x, inl y => ca x y
  | inl _, inr _ => Lt
  | inr _, inl _ => Gt
  | inr x, inr y => cb x y
  end.

#[global] Instance sum_compare_lawful {A B} (ca : A -> A -> comparison)
  (cb : B -> B -> comparison) `{!LawfulCompare ca, !LawfulCompare cb} :
  LawfulCompare (sum_compare ca cb).
Proof.
  split.
  - intros [a|a] [b|b]; simpl; try done; [by intros ->%(compare_eq ca)|by intros ->%(compare_eq cb)].
  - intros [a|a] [b|b]; simpl; try done; [apply (compare_antisym ca)|apply (compare_antisym cb)].
  - intros [a|a] [b|b] [c|c]; simpl; try done; [apply (compare_lt_trans ca)|apply (compare_lt_trans cb)].
Qed.

(** A comparison through an injective key is lawful. *)
Lemma key_compare_lawful {A B} (f : A -> B) (cb : B -> B -> comparison) `{!Inj (=) (=) f}
  `{!LawfulCompare cb} : LawfulCompare (fun x y => cb (f x) (f y)).
Proof.
  split; intros.
  - by apply (inj f), (compare_eq cb).
  - apply (compare_antisym cb).
  - by eapply (compare_lt_trans cb).
Qed.

Lemma StronglySorted_reverse {A} (R : A -> A -> Prop) l :
  StronglySorted R l -> StronglySorted (fun a b => R b a) (reverse l).
Proof.
  induction 1 as [|x l Hs IH Hx]; [constructor|]. rewrite reverse_cons.
  apply StronglySorted_app. rewrite Forall_forall in Hx. split_and!; [|done|repeat constructor].
  intros a b Ha ->%list_elem_of_singleton. apply Hx. by apply elem_of_reverse.
Qed.

Lemma StronglySorted_weaken {A} (R S : A -> A -> Prop) l :
  (forall a b, R a b -> S a b) -> StronglySorted R l -> StronglySorted S l.
Proof.
  intros HRS. induction 1 as [|x l Hs IH Hx]; constructor; [done|].
  eapply Forall_impl; [exact Hx|]. auto.
Qed.

(** Extending a chain of a transitive relation that ends below the new element. *)
Lemma StronglySorted_snoc {A} (R : A -> A -> Prop) (l : list A) n :
  (forall a b c, R a b -> R b c -> R a c) ->
  StronglySorted R l -> (forall m, list.last l = Some m -> R m n) -> StronglySorted R (l ++ [n]).
Proof.
  intros Htrans Hs Hlast. apply StronglySorted_app. split_and!; [|done|repeat constructor].
  intros a b Ha ->%list_elem_of_singleton. revert a Ha Hlast.
  induction Hs as [|x l Hs IH Hx]; intros a Ha Hlast; [by apply elem_of_nil in Ha|].
  destruct l as [|y l].
  { apply list_elem_of_singleton in Ha as ->. by apply Hlast. }
  apply elem_of_cons in Ha as [->|Ha]; [|apply IH; [done|]; intros m Hm; by apply Hlast].
  apply (Htrans x y n); [by apply Forall_inv in Hx|].
  apply IH; [by left|]. intros m Hm. by apply Hlast.
Qed.

(** ** Sums over lists *)

Fixpoint zsum {A} (f : A -> Z) (l : list A) : Z :=
  match l with [] => 0 | x :: l => f x + zsum f l end.

Lemma zsum_app {A} (f : A -> Z) l k : zsum f (l ++ k) = zsum f l + zsum f k.
Proof. induction l as [|x l IH]; simpl; [done|]. lia. Qed.

Lemma zsum_perm {A} (f : A -> Z) l k : l ≡ₚ k -> zsum f l = zsum f k.
Proof. induction 1; simpl; lia. Qed.

#[global] Instance zsum_proper {A} (f : A -> Z) : Proper ((≡ₚ) ==> (=)) (zsum f).
Proof. intros l k. apply zsum_perm. Qed.

#[global] Instance existsb_proper {A} (f : A -> bool) : Proper ((≡ₚ) ==> (=)) (existsb f).
Proof. induction 1; simpl; try congruence. by rewrite !orb_assoc, (orb_comm (f _)). Qed.

Lemma zsum_nonneg {A} (f : A -> Z) l : (forall x, 0 <= f x) -> 0 <= zsum f l.
Proof. intros Hf. induction l as [|x l IH]; simpl; [done|]. specialize (Hf x). lia. Qed.

Lemma zsum_concat {A} (f : A -> Z) ls : zsum f (concat ls) = zsum (zsum f) ls.
Proof. induction ls as [|l ls IH]; simpl; [done|]. by rewrite zsum_app, IH. Qed.

Lemma zsum_fmap {A B} (f : B -> Z) (g : A -> B) l : zsum f (g <$> l) = zsum (fun x => f (g x)) l.
Proof. induction l as [|x l IH]; csimpl; [done|]. by rewrite IH. Qed.

Lemma zsum_ext_in {A} (f g : A -> Z) l : (forall x, x ∈ l -> f x = g x) -> zsum f l = zsum g l.
Proof.
  induction l as [|x l IH]; intros H; simpl; [done|].
  rewrite H by left. rewrite IH; [done|]. intros y Hy. apply H. by right.
Qed.

Lemma zsum_le_mono {A} (f g : A -> Z) l : (forall x, f x <= g x) -> zsum f l <= zsum g l.
Proof. intros H. induction l as [|x l IH]; simpl; [done|]. specialize (H x). lia. Qed.

Lemma zsum_bound {A} (f : A -> Z) l c : (forall x, x ∈ l -> f x <= c) -> zsum f l <= c * len l.
Proof.
  induction l as [|x l IH]; intros H; simpl; [by rewrite Z.mul_0_r|]. rewrite len_cons.
  assert (f x <= c) by (apply H; left). assert (zsum f l <= c * len l) by (apply IH; intros; apply H; by right). lia.
Qed.

Lemma concat_perm {A} (l k : list (list A)) : l ≡ₚ k -> concat l ≡ₚ concat k.
Proof.
  induction 1; simpl; [done|by f_equiv| |by etrans]. by rewrite !app_assoc, (Permutation_app_comm y x).
Qed.

(** The order in which a [HashMap] is iterated is not specified. *)
Class HashIteration := {
  iterate : forall {K : Type} `{Countable K} {V : Type}, gmap K V -> list (K * V);
  iterate_perm : forall {K : Type} `{Countable K} {V : Type} (m : gmap K V), iterate m ≡ₚ map_to_list m
}.

Lemma elem_of_iterate `{HashIteration} `{Countable K} {V} (m : gmap K V) k v : (k, v) ∈ iterate m <-> m !! k = Some v.
Proof. by rewrite (iterate_perm m), elem_of_map_to_list. Qed.
