(* ===== verification/Types.v ===== *)
(** * Data of the consensus protocol

    The XDR data the consensus crate works on (crate [stellar_xdr], whose shape
    is the Stellar protocol's), the enumerations of [crates/scp/src/lib.rs] and
    [crates/scp/src/driver.rs], and the [SCPDriver] trait as a type class.  The
    callbacks of the trait that return nothing are the events of the log. *)

From S2P Require Import Prelude.

(** A node is named by its ed25519 public key.  The 32 bytes are read as one
    big-endian number, whose order is the byte-wise order of the keys. *)
Abbreviation NodeId := Z (only parsing).
(** [Value] is an XDR [opaque<>]: bytes ordered lexicographically. *)
Abbreviation Value := (list Z) (only parsing).
Abbreviation Hash256 := Z (only parsing).
Abbreviation Signature := (list Z) (only parsing).

Definition value_compare : Value -> Value -> comparison := list_compare Z.compare.

#[global] Instance value_compare_lawful : LawfulCompare value_compare.
Proof. apply list_compare_lawful, _. Qed.

(** ** Quorum sets *)

#[warnings="-register-all"]
Inductive ScpQuorumSet : Type :=
| QuorumSet (threshold : Z) (validators : list NodeId) (inner_sets : list ScpQuorumSet).

Definition threshold (q : ScpQuorumSet) : Z := let 'QuorumSet t _ _ := q in t.
Definition validators (q : ScpQuorumSet) : list NodeId := let 'QuorumSet _ v _ := q in v.
Definition inner_sets (q : ScpQuorumSet) : list ScpQuorumSet := let 'QuorumSet _ _ i := q in i.

(** Induction with a hypothesis for every inner set. *)
Definition quorum_set_ind (P : ScpQuorumSet -> Prop)
    (H : forall t vs iss, Forall P iss -> P (QuorumSet t vs iss)) :
    forall q, P q :=
  fix go q :=
    match q with
    | QuorumSet t vs iss =>
        H t vs iss
          ((fix go_list l : Forall P l :=
              match l with
              | [] => Forall_nil_2 P
              | i :: l' => Forall_cons_2 P i l' (go i) (go_list l')
              end) iss)
    end.

#[global] Instance ScpQuorumSet_eq_dec : EqDecision ScpQuorumSet.
Proof.
  unfold EqDecision. fix go 1. intros [t1 vs1 is1] [t2 vs2 is2].
  refine (
    match decide (t1 = t2), decide (vs1 = vs2), @list_eq_dec _ go is1 is2 with
    | left _, left _, left _ => left _
    | _, _, _ => right _
    end); congruence.
Defined.

(** ** Ballots, statements and envelopes *)

Record ScpBallot : Type := Ballot { counter : Z; value : Value }.

Record ScpNomination : Type := Nomination {
  nom_quorum_set_hash : Hash256;
  nom_votes : list Value;
  nom_accepted : list Value
}.

Record ScpStatementPrepare : Type := Prep {
  prep_quorum_set_hash : Hash256;
  prep_ballot : ScpBallot;
  prep_prepared : option ScpBallot;
  prep_prepared_prime : option ScpBallot;
  prep_n_c : Z;
  prep_n_h : Z
}.

Record ScpStatementConfirm : Type := Conf {
  conf_ballot : ScpBallot;
  conf_n_prepared : Z;
  conf_n_commit : Z;
  conf_n_h : Z;
  conf_quorum_set_hash : Hash256
}.

Record ScpStatementExternalize : Type := Ext {
  ext_commit : ScpBallot;
  ext_n_h : Z;
  ext_commit_quorum_set_hash : Hash256
}.

Inductive ScpStatementPledges : Type :=
| Nominate (n : ScpNomination)
| Prepare (p : ScpStatementPrepare)
| Confirm (c : ScpStatementConfirm)
| Externalize (e : ScpStatementExternalize).

Record ScpStatement : Type := Statement {
  node_id : NodeId;
  slot_index : Z;
  pledges : ScpStatementPledges
}.

Record ScpEnvelope : Type := Envelope {
  statement : ScpStatement;
  signature : Signature
}.

#[global] Instance ScpBallot_eq_dec : EqDecision ScpBallot.
Proof. solve_decision. Defined.
#[global] Instance ScpNomination_eq_dec : EqDecision ScpNomination.
Proof. solve_decision. Defined.
#[global] Instance ScpStatementPrepare_eq_dec : EqDecision ScpStatementPrepare.
Proof. solve_decision. Defined.
#[global] Instance ScpStatementConfirm_eq_dec : EqDecision ScpStatementConfirm.
Proof. solve_decision. Defined.
#[global] Instance ScpStatementExternalize_eq_dec : EqDecision ScpStatementExternalize.
Proof. solve_decision. Defined.
#[global] Instance ScpStatementPledges_eq_dec : EqDecision ScpStatementPledges.
Proof. solve_decision. Defined.
#[global] Instance ScpStatement_eq_dec : EqDecision ScpStatement.
Proof. solve_decision. Defined.
#[global] Instance ScpEnvelope_eq_dec : EqDecision ScpEnvelope.
Proof. solve_decision. Defined.

(** ** Enumerations of the crate *)

Inductive EnvelopeState : Type := EnvInvalid | EnvValid | EnvValidNew.
Inductive ValidationLevel : Type :=
| Invalid | MaybeValid | MaybeValidDeferred | FullyValidated.
Inductive SCPTimerType : Type := NominationTimer | BallotTimer.
Inductive BallotPhase : Type := PhasePrepare | PhaseConfirm | PhaseExternalize.

#[global] Instance EnvelopeState_eq_dec : EqDecision EnvelopeState.
Proof. solve_decision. Defined.
#[global] Instance ValidationLevel_eq_dec : EqDecision ValidationLevel.
Proof. solve_decision. Defined.
#[global] Instance SCPTimerType_eq_dec : EqDecision SCPTimerType.
Proof. solve_decision. Defined.
#[global] Instance BallotPhase_eq_dec : EqDecision BallotPhase.
Proof. solve_decision. Defined.

(** [EnvelopeState::is_valid] and [is_new]. *)
Definition is_valid (e : EnvelopeState) : bool :=
  match e with EnvValid | EnvValidNew => true | EnvInvalid => false end.
Definition is_new (e : EnvelopeState) : bool :=
  match e with EnvValidNew => true | _ => false end.

(** [ValidationLevel::clears_fully_validated]. *)
Definition clears_fully_validated (v : ValidationLevel) : bool :=
  match v with MaybeValid | MaybeValidDeferred => true | _ => false end.

(** How a node is reported ([QuorumInfoNodeState], [ReportingNodeState]). *)
Inductive QuorumInfoNodeState : Type :=
| NodeMissing | NodeNominating | NodePreparing | NodeConfirming | NodeExternalized.
Inductive ReportingNodeState : Type :=
| ReportNoInfo | ReportAgree | ReportDelayed | ReportDisagree | ReportMissing.

#[global] Instance QuorumInfoNodeState_eq_dec : EqDecision QuorumInfoNodeState.
Proof. solve_decision. Defined.
#[global] Instance ReportingNodeState_eq_dec : EqDecision ReportingNodeState.
Proof. solve_decision. Defined.

Definition from_pledges (p : ScpStatementPledges) : QuorumInfoNodeState :=
  match p with
  | Nominate _ => NodeNominating
  | Prepare _ => NodePreparing
  | Confirm _ => NodeConfirming
  | Externalize _ => NodeExternalized
  end.

(** [is_in_ballot] and [QuorumInfoNodeState::is_externalized]. *)
Definition is_in_ballot (s : QuorumInfoNodeState) : bool :=
  match s with NodePreparing | NodeConfirming | NodeExternalized => true | _ => false end.
Definition node_is_externalized (s : QuorumInfoNodeState) : bool :=
  match s with NodeExternalized => true | _ => false end.

Definition NUM_TIMEOUTS_THRESHOLD_FOR_REPORTING : Z := 2.
Definition NUM_SLOTS_TO_CHECK_FOR_REPORTING : Z := 2.

(** [process_envelopes_current_state]: the callback [f] threads a state of its
    own and stops the visit by answering [false]. *)
Fixpoint visit_envelopes {T} (f : ScpEnvelope -> T -> bool * T) (local : NodeId)
    (fully_validated force_self : bool) (entries : list (NodeId * ScpEnvelope)) (t : T) : bool * T :=
  match entries with
  | [] => (true, t)
  | (node, envelope) :: rest =>
      if negb force_self && bool_decide (node = local) && negb fully_validated
      then visit_envelopes f local fully_validated force_self rest t
      else
        let '(continue, t) := f envelope t in
        if continue then visit_envelopes f local fully_validated force_self rest t else (false, t)
  end.

Definition entry_compare (a b : NodeId * ScpEnvelope) : comparison := Z.compare a.1 b.1.

Definition process_envelopes_current_state {T} (envelopes : gmap NodeId ScpEnvelope)
    (f : ScpEnvelope -> T -> bool * T) (local : NodeId) (fully_validated force_self : bool) (t : T)
    : bool * T :=
  visit_envelopes f local fully_validated force_self
    (merge_sort (cmp_le entry_compare) (map_to_list envelopes)) t.

(** ** The driver

    SHA-256 over the XDR encoding of a quorum set is library code: a parameter. *)
Class XdrHash : Type := { hash_quorum_set : ScpQuorumSet -> Hash256 }.

(** The answers the application gives to the protocol.  The timeouts are
    durations in milliseconds. *)
Class SCPDriver : Type := {
  validate_value : Z -> Value -> bool -> ValidationLevel;
  combine_candidates : Z -> list Value -> option Value;
  extract_valid_value : Z -> Value -> option Value;
  get_quorum_set : NodeId -> option ScpQuorumSet;
  get_quorum_set_by_hash : Hash256 -> option ScpQuorumSet;
  compute_hash_node : Z -> Value -> bool -> Z -> NodeId -> Z;
  compute_value_hash : Z -> Value -> Z -> Value -> Z;
  compute_timeout : Z -> bool -> Z;
  sign_envelope : ScpEnvelope -> ScpEnvelope;
  get_node_weight : NodeId -> ScpQuorumSet -> bool -> Z;
  has_upgrades : Value -> bool;
  strip_all_upgrades : Value -> option Value;
  get_upgrade_nomination_timeout_limit : Z
}.

(** What the trait documents of [sign_envelope]: it computes the signature over
    the statement and sets it on the envelope. *)
Class SCPDriverLaws `{SCPDriver} : Prop :=
  sign_envelope_statement e : statement (sign_envelope e) = statement e.

(** What the trait documents of [extract_valid_value]: it returns the valid
    portion of a value, so extracting from what it returned changes nothing. *)
Class ExtractLaws `{SCPDriver} : Prop :=
  extract_valid_value_stable slot v w u :
    extract_valid_value slot v = Some w -> extract_valid_value slot w = Some u -> u = w.

(** The calls of the protocol to the driver that return nothing. *)
Inductive DriverEvent : Type :=
| EmitEnvelope (e : ScpEnvelope)
| NominatingValue (slot : Z) (v : Value)
| ValueExternalized (slot : Z) (v : Value)
| BallotDidPrepare (slot : Z) (b : ScpBallot)
| BallotDidConfirm (slot : Z) (b : ScpBallot)
| BallotDidHearFromQuorum (slot : Z) (b : ScpBallot)
| AcceptedCommit (slot : Z) (b : ScpBallot)
| StartedBallotProtocol (slot : Z) (b : ScpBallot)
| UpdatedCandidateValue (slot : Z) (v : Value)
| SetupTimer (slot : Z) (t : SCPTimerType) (timeout : Z)
| StopTimer (slot : Z) (t : SCPTimerType)
| TimerExpired (slot : Z) (t : SCPTimerType).

(** [SlotContext]: what nearly every operation of a slot is given besides the
    driver, which is the type class above. *)
Record SlotContext : Type := Ctx {
  local_node_id : NodeId;
  local_quorum_set : ScpQuorumSet;
  ctx_slot_index : Z
}.
