(* ===== verification/Quorum.v ===== *)
(** * Quorum sets

    Models [crates/scp/src/quorum.rs]: slices, quorums, v-blocking sets, sanity
    of a quorum set, the closest v-blocking set and normalization. *)

From S2P Require Import Prelude Types.

(** ** Definitions *)

(** [MAXIMUM_QUORUM_NESTING_LEVEL] and [MAXIMUM_QUORUM_NODES]. *)
Definition MAXIMUM_QUORUM_NESTING_LEVEL : Z := 4.
Definition MAXIMUM_QUORUM_NODES : Z := 1000.

(** [is_quorum_slice].  The Rust parameter [_get_quorum_set] is unused. *)
Fixpoint is_quorum_slice (q : ScpQuorumSet) (nodes : gset NodeId) : bool :=
  match q with
  | QuorumSet threshold validators inner_sets =>
      if threshold =? 0 then false
      else
        let '(found, count) :=
          count_until threshold (fun v => bool_decide (v ∈ nodes)) validators 0 in
        if found then true
        else
          let '(found, count) :=
            count_until threshold (fun i => is_quorum_slice i nodes) inner_sets count in
          if found then true else threshold <=? count
  end.

(** One round of the loop of [is_quorum]: [remaining.retain(..)]. *)
Definition retain_satisfied (get_quorum_set : NodeId -> option ScpQuorumSet)
    (remaining : list NodeId) : list NodeId :=
  let remaining_set : gset NodeId := list_to_set remaining in
  filter (fun node_id =>
            match get_quorum_set node_id with
            | Some qs => is_quorum_slice qs remaining_set
            | None => false
            end = true) remaining.

(** The loop of [is_quorum].  Every round that does not stop it drops a node. *)
Fixpoint prune (fuel : nat) (get_quorum_set : NodeId -> option ScpQuorumSet)
    (remaining : list NodeId) : list NodeId :=
  match fuel with
  | O => remaining
  | S fuel =>
      let remaining' := retain_satisfied get_quorum_set remaining in
      if bool_decide (length remaining' = length remaining) then remaining'
      else prune fuel get_quorum_set remaining'
  end.

Definition is_quorum (q : ScpQuorumSet) (nodes : gset NodeId)
    (get_quorum_set : NodeId -> option ScpQuorumSet) : bool :=
  let remaining := prune (S (size nodes)) get_quorum_set (elements nodes) in
  is_quorum_slice q (list_to_set remaining).

Fixpoint is_v_blocking (q : ScpQuorumSet) (nodes : gset NodeId) : bool :=
  match q with
  | QuorumSet threshold validators inner_sets =>
      let total := len validators + len inner_sets in
      if threshold =? 0 then false
      else
        let blocking_threshold := usize_saturating_sub total threshold + 1 in
        let count := count_if (fun v => bool_decide (v ∈ nodes)) validators in
        let count := count + count_if (fun i => is_v_blocking i nodes) inner_sets in
        blocking_threshold <=? count
  end.

(** The error messages of the sanity check. *)
Inductive SanityError : Type :=
| NestingLevelExceeded
| ThresholdZero
| ThresholdExceedsEntries
| ThresholdBelowVBlocking
| DuplicateNode
| NodeCountOutOfRange.

(** [QuorumSetSanityChecker]: the nodes seen so far and their count.  The field
    [extra_checks] never changes and is a parameter. *)
Record SanityChecker : Type := Checker { known_nodes : gset NodeId; node_count : Z }.

(** The loop over the validators. *)
Definition insert_known (c : SanityChecker) (node : NodeId) : result SanityChecker SanityError :=
  if bool_decide (node ∈ known_nodes c) then Err DuplicateNode
  else Ok (Checker ({[node]} ∪ known_nodes c) (node_count c)).

Fixpoint check_sanity (extra_checks : bool) (c : SanityChecker) (depth : Z) (q : ScpQuorumSet)
    : result SanityChecker SanityError :=
  match q with
  | QuorumSet threshold validators inner_sets =>
      if MAXIMUM_QUORUM_NESTING_LEVEL <? depth then Err NestingLevelExceeded
      else if threshold <? 1 then Err ThresholdZero
      else
        let total := len validators + len inner_sets in
        if total <? threshold then Err ThresholdExceedsEntries
        else
          let v_blocking_size := usize_saturating_sub total threshold + 1 in
          if extra_checks && (threshold <? v_blocking_size) then Err ThresholdBelowVBlocking
          else
            let c := Checker (known_nodes c) (usize_saturating_add (node_count c) (len validators)) in
            match try_fold insert_known validators c with
            | Err e => Err e
            | Ok c =>
                try_fold (fun c inner => check_sanity extra_checks c (depth + 1) inner) inner_sets c
            end
  end.

Definition is_quorum_set_sane (q : ScpQuorumSet) (extra_checks : bool) : result unit SanityError :=
  match check_sanity extra_checks (Checker ∅ 0) 0 q with
  | Err e => Err e
  | Ok c =>
      if (node_count c <? 1) || (MAXIMUM_QUORUM_NODES <? node_count c)
      then Err NodeCountOutOfRange
      else Ok tt
  end.

(** The loop of [find_closest_v_blocking] over the validators: [None] when it
    leaves the function with an empty result. *)
Fixpoint closest_validators (nodes : gset NodeId) (excluded : option NodeId)
    (validators : list NodeId) (left_till_block : Z) (res : list NodeId)
    : option (Z * list NodeId) :=
  match validators with
  | [] => Some (left_till_block, res)
  | v :: validators' =>
      if bool_decide (excluded = Some v) then
        closest_validators nodes excluded validators' left_till_block res
      else if bool_decide (v ∈ nodes) then
        closest_validators nodes excluded validators' left_till_block (res ++ [v])
      else if left_till_block - 1 =? 0 then None
      else closest_validators nodes excluded validators' (left_till_block - 1) res
  end.

(** The loop over the inner sets, with the recursive call [rec] and the index of
    the next inner set. *)
Definition closest_inner (rec : ScpQuorumSet -> list NodeId) :
    list ScpQuorumSet -> Z -> Z -> list (Z * Z * list NodeId) ->
    option (Z * list (Z * Z * list NodeId)) :=
  fix go inner_sets index left_till_block res_internals :=
    match inner_sets with
    | [] => Some (left_till_block, res_internals)
    | inner :: inner_sets' =>
        match rec inner with
        | [] =>
            if left_till_block - 1 =? 0 then None
            else go inner_sets' (index + 1) (left_till_block - 1) res_internals
        | v => go inner_sets' (index + 1) left_till_block (res_internals ++ [(len v, index, v)])
        end
    end.

(** The comparator of [res_internals]: by length, then by index. *)
Definition internals_compare (a b : Z * Z * list NodeId) : comparison :=
  match Z.compare a.1.1 b.1.1 with
  | Eq => Z.compare a.1.2 b.1.2
  | o => o
  end.

(** The final [while] loop. *)
Fixpoint take_internals (left_till_block : Z) (res_internals : list (Z * Z * list NodeId))
    (res : list NodeId) : list NodeId :=
  match res_internals with
  | [] => res
  | x :: rest =>
      if left_till_block =? 0 then res
      else take_internals (left_till_block - 1) rest (res ++ x.2)
  end.

Fixpoint find_closest_v_blocking (q : ScpQuorumSet) (nodes : gset NodeId)
    (excluded : option NodeId) : list NodeId :=
  match q with
  | QuorumSet threshold validators inner_sets =>
      let left_till_block := 1 + len validators + len inner_sets - threshold in
      if left_till_block <=? 0 then []
      else
        match closest_validators nodes excluded validators left_till_block [] with
        | None => []
        | Some (left_till_block, res) =>
            match closest_inner (fun inner => find_closest_v_blocking inner nodes excluded)
                    inner_sets 0 left_till_block [] with
            | None => []
            | Some (left_till_block, res_internals) =>
                let res :=
                  if left_till_block <? len res
                  then take (Z.to_nat left_till_block) res else res in
                let left_till_block := left_till_block - len res in
                take_internals left_till_block
                  (merge_sort (cmp_le internals_compare) res_internals) res
            end
        end
  end.

(** [quorum_set_cmp]: validators, then inner sets, then the threshold. *)
Fixpoint quorum_set_cmp (a b : ScpQuorumSet) : comparison :=
  match a, b with
  | QuorumSet ta va ia, QuorumSet tb vb ib =>
      match zip_compare Z.compare va vb with
      | Eq =>
          match Z.compare (len va) (len vb) with
          | Eq =>
              match zip_compare quorum_set_cmp ia ib with
              | Eq =>
                  match Z.compare (len ia) (len ib) with
                  | Eq => Z.compare ta tb
                  | o => o
                  end
              | o => o
              end
          | o => o
          end
      | o => o
      end
  end.

Fixpoint normalize_quorum_set_reorder (q : ScpQuorumSet) : ScpQuorumSet :=
  match q with
  | QuorumSet threshold validators inner_sets =>
      QuorumSet threshold
        (merge_sort (cmp_le Z.compare) validators)
        (merge_sort (cmp_le quorum_set_cmp) (map normalize_quorum_set_reorder inner_sets))
  end.

(** A [1]-of-[1] set without inner sets. *)
Definition is_singleton (q : ScpQuorumSet) : bool :=
  match q with
  | QuorumSet threshold validators inner_sets =>
      (threshold =? 1) && (len validators =? 1) && bool_decide (inner_sets = [])
  end.

(** One round of the [while] loop of [normalize_quorum_set_simplify] on an inner
    set that has been simplified: merge a singleton, keep anything else. *)
Definition merge_singleton (acc : list NodeId * list ScpQuorumSet) (inner : ScpQuorumSet)
    : list NodeId * list ScpQuorumSet :=
  if is_singleton inner then (acc.1 ++ validators inner, acc.2)
  else (acc.1, acc.2 ++ [inner]).

(** The last step: a [1]-of-[1] set that holds one inner set is that inner set. *)
Definition collapse (q : ScpQuorumSet) : ScpQuorumSet :=
  match q with
  | QuorumSet threshold [] [inner] => if threshold =? 1 then inner else q
  | _ => q
  end.

Fixpoint normalize_quorum_set_simplify (id_to_remove : option NodeId) (q : ScpQuorumSet)
    : ScpQuorumSet :=
  match q with
  | QuorumSet threshold validators inner_sets =>
      let '(threshold, merged_validators) :=
        match id_to_remove with
        | Some id =>
            let kept := filter (fun n => n <> id) validators in
            (u32_saturating_sub threshold (len validators - len kept), kept)
        | None => (threshold, validators)
        end in
      let '(merged_validators, inner_sets) :=
        fold_left merge_singleton (map (normalize_quorum_set_simplify id_to_remove) inner_sets)
          (merged_validators, []) in
      collapse (QuorumSet threshold merged_validators inner_sets)
  end.

Definition normalize_quorum_set_with_remove (id_to_remove : option NodeId) (q : ScpQuorumSet)
    : ScpQuorumSet :=
  normalize_quorum_set_reorder (normalize_quorum_set_simplify id_to_remove q).

Definition normalize_quorum_set (q : ScpQuorumSet) : ScpQuorumSet :=
  normalize_quorum_set_with_remove None q.

Fixpoint is_valid_quorum_set (q : ScpQuorumSet) : bool :=
  match q with
  | QuorumSet threshold validators inner_sets =>
      if len validators + len inner_sets <? threshold then false
      else forallb is_valid_quorum_set inner_sets
  end.

(** [collect_nodes] and [get_all_nodes]. *)
Fixpoint collect_nodes (q : ScpQuorumSet) (nodes : gset NodeId) : gset NodeId :=
  match q with
  | QuorumSet _ validators inner_sets =>
      let nodes := fold_left (fun nodes v => {[v]} ∪ nodes) validators nodes in
      fold_left (fun nodes inner => collect_nodes inner nodes) inner_sets nodes
  end.

Definition get_all_nodes (q : ScpQuorumSet) : gset NodeId := collect_nodes q ∅.

Definition simple_quorum_set (threshold : Z) (validators : list NodeId) : ScpQuorumSet :=
  QuorumSet threshold validators [].

Definition singleton_quorum_set (node_id : NodeId) : ScpQuorumSet :=
  simple_quorum_set 1 [node_id].

(** [SingletonQuorumSetCache::get_or_create] and [clear]: the answer and the
    cache afterwards. *)
Definition cache_get_or_create (cache : gmap NodeId ScpQuorumSet) (node_id : NodeId)
    : ScpQuorumSet * gmap NodeId ScpQuorumSet :=
  match cache !! node_id with
  | Some qs => (qs, cache)
  | None =>
      let qs := singleton_quorum_set node_id in
      (qs, <[node_id := qs]> cache)
  end.
Definition cache_clear (cache : gmap NodeId ScpQuorumSet) : gmap NodeId ScpQuorumSet := ∅.

(** ** Slices *)

Lemma is_quorum_slice_eq t vs iss U :
  is_quorum_slice (QuorumSet t vs iss) U =
  negb (t =? 0) &&
  (t <=? count_if (fun v => bool_decide (v ∈ U)) vs
         + count_if (fun i => is_quorum_slice i U) iss).
Proof.
  simpl. destruct (Z.eqb_spec t 0) as [->|Ht]; [done|]. simpl.
  pose proof (count_until_spec t (fun v => bool_decide (v ∈ U)) vs 0) as H1.
  destruct (count_until t _ vs 0) as [[] c].
  - pose proof (count_if_nonneg (fun i => is_quorum_slice i U) iss).
    symmetry. apply Z.leb_le. lia.
  - subst c. pose proof (count_until_spec t (fun i => is_quorum_slice i U) iss
      (0 + count_if (fun v => bool_decide (v ∈ U)) vs)) as H2.
    destruct (count_until t _ iss _) as [[] c].
    + symmetry. apply Z.leb_le. lia.
    + by subst c.
Qed.

Lemma is_quorum_slice_mono q U V :
  U ⊆ V -> is_quorum_slice q U = true -> is_quorum_slice q V = true.
Proof.
  intros HUV. induction q as [t vs iss IH] using quorum_set_ind.
  rewrite !is_quorum_slice_eq, !andb_true_iff, !Z.leb_le. intros [Ht Hc].
  split; [done|]. etrans; [exact Hc|]. apply Z.add_le_mono.
  - apply count_if_mono, Forall_true. intros v. rewrite !bool_decide_eq_true. set_solver.
  - by apply count_if_mono.
Qed.

Lemma is_quorum_slice_ext q (U V : gset NodeId) :
  (forall n, n ∈ U <-> n ∈ V) -> is_quorum_slice q U = is_quorum_slice q V.
Proof. intros H. assert (U = V) as -> by (by apply set_eq). done. Qed.

(** ** Quorums *)

(** A set of nodes each of which has a slice inside the set. *)
Definition quorum_closed (get_quorum_set : NodeId -> option ScpQuorumSet) (U : gset NodeId) : Prop :=
  forall n, n ∈ U -> exists qs, get_quorum_set n = Some qs /\ is_quorum_slice qs U = true.

Section quorum.
Context (get_qs : NodeId -> option ScpQuorumSet).

Lemma elem_of_retain_satisfied n l :
  n ∈ retain_satisfied get_qs l <->
  n ∈ l /\ exists qs, get_qs n = Some qs /\ is_quorum_slice qs (list_to_set l) = true.
Proof.
  unfold retain_satisfied. rewrite list_elem_of_filter.
  destruct (get_qs n) as [qs|]; naive_solver.
Qed.

Lemma retain_satisfied_length l : (length (retain_satisfied get_qs l) <= length l)%nat.
Proof. apply length_filter. Qed.

Lemma retain_satisfied_stable l :
  length (retain_satisfied get_qs l) = length l -> retain_satisfied get_qs l = l.
Proof. apply filter_length_eq. Qed.

(** With as much fuel as there are nodes the loop reaches its fixed point. *)
Lemma prune_stable fuel l :
  (length l < fuel)%nat -> retain_satisfied get_qs (prune fuel get_qs l) = prune fuel get_qs l.
Proof.
  revert l. induction fuel as [|fuel IH]; intros l Hl; [lia|]. simpl.
  pose proof (retain_satisfied_length l).
  case_bool_decide as Hlen.
  - by rewrite !(retain_satisfied_stable l Hlen).
  - apply IH. lia.
Qed.

Lemma prune_subset fuel l n : n ∈ prune fuel get_qs l -> n ∈ l.
Proof.
  revert l. induction fuel as [|fuel IH]; intros l; simpl; [done|].
  case_bool_decide; [|intros Hn%IH]; rewrite elem_of_retain_satisfied in *; naive_solver.
Qed.

Lemma prune_greatest fuel l U :
  quorum_closed get_qs U -> (forall n, n ∈ U -> n ∈ l) ->
  forall n, n ∈ U -> n ∈ prune fuel get_qs l.
Proof.
  intros HU. revert l. induction fuel as [|fuel IH]; intros l Hl; simpl; [done|].
  assert (forall n, n ∈ U -> n ∈ retain_satisfied get_qs l) as Hr.
  { intros n Hn. rewrite elem_of_retain_satisfied. split; [auto|].
    destruct (HU n Hn) as (qs & ? & Hs). exists qs. split; [done|].
    eapply is_quorum_slice_mono; [|exact Hs]. intros m Hm. apply elem_of_list_to_set. auto. }
  case_bool_decide; auto.
Qed.

(** The surviving nodes do not depend on the order of the visit. *)
Lemma prune_perm l k f g n :
  Permutation l k -> (length l < f)%nat -> (length k < g)%nat ->
  n ∈ prune f get_qs l <-> n ∈ prune g get_qs k.
Proof.
  intros Hp Hf Hg.
  assert (forall l k f g, Permutation l k -> (length l < f)%nat ->
    n ∈ prune f get_qs l -> n ∈ prune g get_qs k) as H; [|split; apply H; done || by symmetry].
  clear. intros l k f g Hp Hf Hn.
  apply (prune_greatest g k (list_to_set (prune f get_qs l))).
  - intros m Hm%elem_of_list_to_set. rewrite <- (prune_stable f l Hf) in Hm.
    by apply elem_of_retain_satisfied in Hm as [_ ?].
  - intros m Hm%elem_of_list_to_set%prune_subset. by rewrite <- Hp.
  - by apply elem_of_list_to_set.
Qed.

Lemma is_quorum_spec q nodes :
  is_quorum q nodes get_qs = true <->
  exists U, U ⊆ nodes /\ quorum_closed get_qs U /\ is_quorum_slice q U = true.
Proof.
  unfold is_quorum. set (l := prune _ _ _).
  assert (retain_satisfied get_qs l = l) as Hst by (apply prune_stable; unfold size, set_size; simpl; lia).
  split.
  - intros Hq. exists (list_to_set l). split; [|split; [|done]].
    + intros n Hn%elem_of_list_to_set. apply prune_subset in Hn. by apply elem_of_elements.
    + intros n Hn%elem_of_list_to_set. rewrite <- Hst in Hn.
      by apply elem_of_retain_satisfied in Hn as [_ ?].
  - intros (U & HU & Hcl & Hs). eapply is_quorum_slice_mono; [|exact Hs].
    intros n Hn. apply elem_of_list_to_set. eapply prune_greatest; eauto.
    intros m Hm. apply elem_of_elements. auto.
Qed.

Lemma is_quorum_mono q N1 N2 :
  N1 ⊆ N2 -> is_quorum q N1 get_qs = true -> is_quorum q N2 get_qs = true.
Proof. rewrite !is_quorum_spec. intros ? (U & ? & ?). exists U. set_solver. Qed.
End quorum.

(** ** The nodes of a quorum set *)

(** Every validator mentioned, with repetitions, in the order of the checks. *)
Fixpoint all_validators (q : ScpQuorumSet) : list NodeId :=
  match q with
  | QuorumSet _ validators inner_sets => validators ++ concat (map all_validators inner_sets)
  end.

Lemma elem_of_all_validators n t vs iss :
  n ∈ all_validators (QuorumSet t vs iss) <-> n ∈ vs \/ exists i, i ∈ iss /\ n ∈ all_validators i.
Proof.
  simpl. rewrite elem_of_app, (list_elem_of_In (concat _)), in_concat.
  setoid_rewrite in_map_iff. setoid_rewrite list_elem_of_In. naive_solver.
Qed.

Lemma fold_insert_elem vs (acc : gset NodeId) n :
  n ∈ fold_left (fun nodes v => {[v]} ∪ nodes) vs acc <-> n ∈ acc \/ n ∈ vs.
Proof.
  revert acc. induction vs as [|v vs IH]; intros acc; simpl; [set_solver|].
  rewrite IH. set_solver.
Qed.

Lemma elem_of_collect_nodes n q acc :
  n ∈ collect_nodes q acc <-> n ∈ acc \/ n ∈ all_validators q.
Proof.
  revert acc. induction q as [t vs iss IH] using quorum_set_ind. intros acc.
  rewrite elem_of_all_validators. simpl.
  assert (forall acc', n ∈ fold_left (fun nodes inner => collect_nodes inner nodes) iss acc' <->
    n ∈ acc' \/ exists i, i ∈ iss /\ n ∈ all_validators i) as ->.
  { induction IH as [|i iss Hi _ IHl]; intros acc'; simpl; [set_solver|].
    rewrite IHl, Hi. set_solver. }
  rewrite fold_insert_elem. tauto.
Qed.

Lemma elem_of_get_all_nodes n q : n ∈ get_all_nodes q <-> n ∈ all_validators q.
Proof. unfold get_all_nodes. rewrite elem_of_collect_nodes. set_solver. Qed.

(** ** Blocking sets

    Thresholds in range at every level, as the sanity check demands. *)
Inductive thresholds_ok : ScpQuorumSet -> Prop :=
| thresholds_ok_intro t vs iss :
    1 <= t <= len vs + len iss -> Forall thresholds_ok iss ->
    thresholds_ok (QuorumSet t vs iss).

Lemma is_v_blocking_eq t vs iss B :
  is_v_blocking (QuorumSet t vs iss) B =
  negb (t =? 0) &&
  (usize_saturating_sub (len vs + len iss) t + 1 <=?
     count_if (fun v => bool_decide (v ∈ B)) vs + count_if (fun i => is_v_blocking i B) iss).
Proof. simpl. by destruct (t =? 0). Qed.

(** Blocking is the dual of containing a slice: [B] blocks [q] exactly when the
    other nodes contain no slice of [q]. *)
Lemma is_v_blocking_dual q A B :
  thresholds_ok q -> (forall n, n ∈ all_validators q -> n ∈ A) ->
  is_v_blocking q B = negb (is_quorum_slice q (A ∖ B)).
Proof.
  induction q as [t vs iss IH] using quorum_set_ind. intros Hok HA.
  inversion Hok as [? ? ? Ht Hiss]; subst.
  rewrite is_v_blocking_eq, is_quorum_slice_eq.
  rewrite (proj2 (Z.eqb_neq t 0)) by lia. simpl negb. rewrite !andb_true_l.
  setoid_rewrite elem_of_all_validators in HA.
  assert (count_if (fun v => bool_decide (v ∈ A ∖ B)) vs
          = len vs - count_if (fun v => bool_decide (v ∈ B)) vs) as ->.
  { rewrite <- count_if_negb. apply count_if_ext, Forall_forall. intros v Hv.
    rewrite <- bool_decide_not. apply bool_decide_ext. set_solver. }
  assert (count_if (fun i => is_quorum_slice i (A ∖ B)) iss
          = len iss - count_if (fun i => is_v_blocking i B) iss) as ->.
  { rewrite <- count_if_negb. apply count_if_ext, Forall_forall. intros i Hi.
    rewrite Forall_forall in IH, Hiss. rewrite (IH i Hi); [by rewrite negb_involutive|auto|].
    intros n Hn. apply HA. eauto. }
  unfold usize_saturating_sub.
  set (a := count_if _ vs). set (b := count_if _ iss).
  destruct (Z.leb_spec (Z.max 0 (len vs + len iss - t) + 1) (a + b)),
    (Z.leb_spec t (len vs - a + (len iss - b))); simpl; lia.
Qed.

Lemma is_v_blocking_mono q B C :
  B ⊆ C -> is_v_blocking q B = true -> is_v_blocking q C = true.
Proof.
  intros HBC. induction q as [t vs iss IH] using quorum_set_ind.
  rewrite !is_v_blocking_eq, !andb_true_iff, !Z.leb_le. intros [Ht Hc].
  split; [done|]. etrans; [exact Hc|]. apply Z.add_le_mono.
  - apply count_if_mono, Forall_true. intros v. rewrite !bool_decide_eq_true. set_solver.
  - by apply count_if_mono.
Qed.

(** ** Sanity *)

(** What the recursive check demands of the levels of a quorum set. *)
Inductive sane_shape (extra_checks : bool) : Z -> ScpQuorumSet -> Prop :=
| sane_shape_intro depth t vs iss :
    depth <= MAXIMUM_QUORUM_NESTING_LEVEL ->
    1 <= t <= len vs + len iss ->
    (extra_checks = true -> len vs + len iss - t + 1 <= t) ->
    Forall (sane_shape extra_checks (depth + 1)) iss ->
    sane_shape extra_checks depth (QuorumSet t vs iss).

Lemma sane_shape_thresholds_ok extra depth q : sane_shape extra depth q -> thresholds_ok q.
Proof.
  revert depth. induction q as [t vs iss IH] using quorum_set_ind. intros depth Hs.
  inversion Hs; subst. constructor; [done|].
  rewrite Forall_forall in *. eauto.
Qed.

(** [c] has seen exactly the nodes of [l] more than [c0]. *)
Definition seen_more (c0 : SanityChecker) (l : list NodeId) (c : SanityChecker) : Prop :=
  NoDup l /\ (forall n, n ∈ l -> n ∉ known_nodes c0) /\
  known_nodes c = list_to_set l ∪ known_nodes c0.

Lemma seen_more_app c0 l1 c1 l2 c2 :
  seen_more c0 l1 c1 -> seen_more c1 l2 c2 -> seen_more c0 (l1 ++ l2) c2.
Proof.
  intros (Hd1 & Hf1 & Hk1) (Hd2 & Hf2 & Hk2). unfold seen_more. rewrite Hk1 in Hf2, Hk2.
  split; [|split].
  - apply NoDup_app. set_solver.
  - set_solver.
  - rewrite Hk2. set_solver.
Qed.

Lemma seen_more_split c0 l1 l2 c2 n :
  seen_more c0 (l1 ++ l2) c2 ->
  let c1 := Checker (list_to_set l1 ∪ known_nodes c0) n in
  seen_more c0 l1 c1 /\ seen_more c1 l2 c2.
Proof.
  intros (Hd & Hf & Hk). apply NoDup_app in Hd as (Hd1 & Hdis & Hd2).
  setoid_rewrite elem_of_app in Hf. unfold seen_more. simpl. split.
  - split_and!; auto.
  - split_and!; [done| |].
    + intros m Hm. rewrite elem_of_union, elem_of_list_to_set. naive_solver.
    + rewrite Hk, list_to_set_app_L. clear. set_solver.
Qed.

Lemma insert_known_fold vs c c' :
  try_fold insert_known vs c = Ok c' <-> seen_more c vs c' /\ node_count c' = node_count c.
Proof.
  revert c. induction vs as [|v vs IH]; intros c; simpl.
  - unfold seen_more. split.
    + intros [= ->]. split; [|done]. split; [constructor|]. set_solver.
    + intros [(_ & _ & Hk) Hc]. destruct c, c'; simpl in *. f_equal. subst. f_equal. set_solver.
  - unfold insert_known at 1. case_bool_decide as Hin.
    + split; [done|]. intros [(_ & Hf & _) _]. exfalso. apply (Hf v); set_solver.
    + rewrite IH. unfold seen_more. simpl. rewrite NoDup_cons. split.
      * intros [(? & Hf & ->) ->]. split; [|done]. split_and!; [|done|set_solver|set_solver].
        intros Hv. apply Hf in Hv. set_solver.
      * intros [([? ?] & Hf & ->) ->]. split; [|done]. split_and!; [done|set_solver|set_solver].
Qed.

Lemma check_sanity_inner extra d iss c c' :
  Forall (fun q => forall c c' d, is_u64 (node_count c) ->
    check_sanity extra c d q = Ok c' <->
    sane_shape extra d q /\ seen_more c (all_validators q) c' /\
    node_count c' = usize_saturating_add (node_count c) (len (all_validators q))) iss ->
  is_u64 (node_count c) ->
  try_fold (fun c inner => check_sanity extra c (d + 1) inner) iss c = Ok c' <->
  Forall (sane_shape extra (d + 1)) iss /\
  seen_more c (concat (map all_validators iss)) c' /\
  node_count c' = usize_saturating_add (node_count c) (len (concat (map all_validators iss))).
Proof.
  intros H. revert c. induction H as [|i iss Hi _ IH]; intros c Hc; simpl.
  - unfold seen_more, usize_saturating_add, usize_max, is_u64, len in *. simpl. split.
    + intros [= ->]. split_and!; [done|constructor|set_solver|set_solver|lia].
    + intros (_ & (_ & _ & Hk) & Hn). destruct c, c'; simpl in *. f_equal. subst.
      f_equal; [set_solver|lia].
  - rewrite Forall_cons, len_app.
    assert (forall n m, is_u64 n -> 0 <= m -> is_u64 (usize_saturating_add n m)) as Hadd.
    { unfold is_u64, usize_saturating_add, usize_max. lia. }
    pose proof (len_nonneg (all_validators i)).
    split.
    + destruct (check_sanity extra c (d + 1) i) as [c1|] eqn:Ei; [|done].
      apply Hi in Ei as (Hs & Hm & Hn); [|done].
      intros (Hs' & Hm' & Hn')%IH; [|rewrite Hn; auto].
      split_and!; [done|done|by eapply seen_more_app|].
      rewrite Hn', Hn. unfold usize_saturating_add.
      pose proof (len_nonneg (concat (map all_validators iss))). lia.
    + intros ([Hs Hs'] & Hm & Hn).
      apply (seen_more_split _ _ _ _ (usize_saturating_add (node_count c) (len (all_validators i))))
        in Hm as [Hm1 Hm2].
      set (c1 := Checker _ _) in *.
      assert (check_sanity extra c (d + 1) i = Ok c1) as -> by (by apply Hi).
      apply IH; [apply Hadd; done|]. split_and!; [done|done|].
      rewrite Hn. unfold c1, usize_saturating_add. simpl.
      pose proof (len_nonneg (concat (map all_validators iss))). lia.
Qed.

Lemma check_sanity_spec extra c c' d q :
  is_u64 (node_count c) ->
  check_sanity extra c d q = Ok c' <->
  sane_shape extra d q /\ seen_more c (all_validators q) c' /\
  node_count c' = usize_saturating_add (node_count c) (len (all_validators q)).
Proof.
  revert c c' d. induction q as [t vs iss IH] using quorum_set_ind. intros c c' d Hc.
  pose proof (len_nonneg vs). pose proof (len_nonneg iss).
  change (all_validators (QuorumSet t vs iss)) with (vs ++ concat (map all_validators iss)).
  transitivity (
    (d <= MAXIMUM_QUORUM_NESTING_LEVEL /\ 1 <= t <= len vs + len iss /\
     (extra = true -> len vs + len iss - t + 1 <= t)) /\
    exists c1,
      try_fold insert_known vs
        (Checker (known_nodes c) (usize_saturating_add (node_count c) (len vs))) = Ok c1 /\
      try_fold (fun c inner => check_sanity extra c (d + 1) inner) iss c1 = Ok c').
  { simpl. destruct (Z.ltb_spec MAXIMUM_QUORUM_NESTING_LEVEL d); [split; [done|lia]|].
    destruct (Z.ltb_spec t 1); [split; [done|lia]|].
    destruct (Z.ltb_spec (len vs + len iss) t); [split; [done|lia]|].
    unfold usize_saturating_sub.
    destruct extra; simpl; [destruct (Z.ltb_spec t (Z.max 0 (len vs + len iss - t) + 1)); simpl;
      [split; [done|lia]|]|].
    all: destruct (try_fold insert_known vs _) as [c1|]; split; try done.
    all: match goal with
      | |- _ -> _ /\ _ => intros ?; split; [split_and!; [lia|lia|lia|(by intros ?) || (intros _; lia)]|by exists c1]
      | |- _ => intros [_ (? & E & ?)]; by simplify_eq
      end. }
  assert (is_u64 (usize_saturating_add (node_count c) (len vs))).
  { unfold is_u64, usize_saturating_add, usize_max in *. lia. }
  setoid_rewrite insert_known_fold. simpl node_count.
  split.
  - intros [(? & ? & ?) (c1 & [Hm1 Hn1] & Hf)].
    apply check_sanity_inner in Hf as (Hs & Hm2 & Hn2); [|done|by rewrite Hn1].
    split_and!; [by constructor|by eapply seen_more_app|].
    rewrite Hn2, Hn1, len_app. unfold usize_saturating_add.
    pose proof (len_nonneg (concat (map all_validators iss))). lia.
  - intros (Hs & Hm & Hn). inversion Hs; subst. split; [done|].
    apply (seen_more_split _ _ _ _ (usize_saturating_add (node_count c) (len vs))) in Hm as [Hm1 Hm2].
    set (c1 := Checker _ _) in *. exists c1. split; [done|].
    apply check_sanity_inner; [done|done|]. split_and!; [done|done|].
    rewrite Hn, len_app. unfold c1, usize_saturating_add. simpl.
    pose proof (len_nonneg (concat (map all_validators iss))). lia.
Qed.

(** ** Normalization *)

Lemma quorum_set_cmp_eq ta va ia tb vb ib :
  quorum_set_cmp (QuorumSet ta va ia) (QuorumSet tb vb ib) =
  match list_compare Z.compare va vb with
  | Eq =>
      match list_compare quorum_set_cmp ia ib with
      | Eq => Z.compare ta tb
      | o => o
      end
  | o => o
  end.
Proof.
  rewrite !zip_then_length_compare. simpl.
  destruct (zip_compare Z.compare va vb); [|done..].
  destruct (len va ?= len vb); [|done..].
  by destruct (zip_compare quorum_set_cmp ia ib).
Qed.

Lemma quorum_set_cmp_Eq a b : quorum_set_cmp a b = Eq -> a = b.
Proof.
  revert b. induction a as [ta va ia IH] using quorum_set_ind. intros [tb vb ib].
  rewrite quorum_set_cmp_eq.
  destruct (list_compare Z.compare va vb) eqn:Ev; [|done..].
  destruct (list_compare quorum_set_cmp ia ib) eqn:Ei; [|done..].
  intros Et%Z.compare_eq. apply (compare_eq _) in Ev. apply list_compare_eq_local in Ei; congruence.
Qed.

Lemma quorum_set_cmp_antisym a b : quorum_set_cmp b a = CompOpp (quorum_set_cmp a b).
Proof.
  revert b. induction a as [ta va ia IH] using quorum_set_ind. intros [tb vb ib].
  rewrite !quorum_set_cmp_eq, (compare_antisym (list_compare Z.compare) va vb).
  rewrite (list_compare_antisym_local _ ia ib IH), (Z.compare_antisym ta tb).
  destruct (list_compare Z.compare va vb); try done.
  by destruct (list_compare quorum_set_cmp ia ib).
Qed.

#[global] Instance quorum_set_cmp_lawful : LawfulCompare quorum_set_cmp.
Proof.
  split; [apply quorum_set_cmp_Eq | apply quorum_set_cmp_antisym |].
  assert (forall x, quorum_set_cmp x x = Eq) as Hrefl.
  { intros x. pose proof (quorum_set_cmp_antisym x x). by destruct (quorum_set_cmp x x). }
  induction a as [ta va ia IH] using quorum_set_ind. intros [tb vb ib] [tc vc ic].
  rewrite !quorum_set_cmp_eq.
  destruct (list_compare Z.compare va vb) eqn:E1; [| |done].
  - apply (compare_eq _) in E1 as ->. destruct (list_compare Z.compare vb vc); [|done..].
    destruct (list_compare quorum_set_cmp ia ib) eqn:E2; [| |done].
    + apply (list_compare_eq_local _) in E2 as ->; [|apply Forall_true; intros; by apply quorum_set_cmp_Eq].
      destruct (list_compare quorum_set_cmp ib ic); [|done..].
      apply (compare_lt_trans Z.compare).
    + intros _. destruct (list_compare quorum_set_cmp ib ic) eqn:E3; [| |done].
      * apply (list_compare_eq_local _) in E3 as ->; [by rewrite E2|].
        apply Forall_true; intros; by apply quorum_set_cmp_Eq.
      * by rewrite (list_compare_trans_local _ ia ib ic quorum_set_cmp_Eq Hrefl IH E2 E3).
  - intros _. destruct (list_compare Z.compare vb vc) eqn:E2; [| |done].
    + apply (compare_eq _) in E2 as ->. by rewrite E1.
    + by rewrite (compare_lt_trans (list_compare Z.compare) _ _ _ E1 E2).
Qed.

#[local] Arguments collapse q : simpl never.

(** The merging loop, in closed form. *)
Lemma fold_merge_singleton l mv kept :
  fold_left merge_singleton l (mv, kept) =
  (mv ++ concat (map validators (filter (fun q => is_singleton q = true) l)),
   kept ++ filter (fun q => is_singleton q <> true) l).
Proof.
  revert mv kept. induction l as [|q l IH]; intros mv kept; [by rewrite !app_nil_r|].
  simpl. rewrite !filter_cons. unfold merge_singleton at 2. simpl.
  destruct (is_singleton q); rewrite IH.
  - rewrite decide_True, decide_False by congruence. simpl. by rewrite <- app_assoc.
  - rewrite decide_False, decide_True by congruence. by rewrite <- app_assoc.
Qed.

Lemma is_singleton_true q : is_singleton q = true -> exists v, q = QuorumSet 1 [v] [].
Proof.
  destruct q as [t vs iss]. simpl. rewrite !andb_true_iff, bool_decide_eq_true.
  intros [[->%Z.eqb_eq Hl%Z.eqb_eq] ->]. destruct vs as [|v [|v' vs]].
  - done.
  - by exists v.
  - rewrite !len_cons in Hl. pose proof (len_nonneg vs). lia.
Qed.

(** Merging singletons does not change how many entries a set of nodes satisfies. *)
Lemma count_merged l U :
  count_if (fun v => bool_decide (v ∈ U))
    (concat (map validators (filter (fun q => is_singleton q = true) l))) +
  count_if (fun i => is_quorum_slice i U) (filter (fun q => is_singleton q <> true) l) =
  count_if (fun i => is_quorum_slice i U) l.
Proof.
  induction l as [|q l IH]; [done|]. rewrite !filter_cons.
  destruct (is_singleton q) eqn:Hq.
  - rewrite decide_True, decide_False by congruence.
    apply is_singleton_true in Hq as [v ->].
    rewrite (count_if_cons _ (QuorumSet _ _ _)), is_quorum_slice_eq, <- IH. simpl.
    case_bool_decide; simpl; lia.
  - rewrite decide_False, decide_True by congruence. simpl. lia.
Qed.

Lemma is_quorum_slice_collapse q U : is_quorum_slice (collapse q) U = is_quorum_slice q U.
Proof.
  destruct q as [t [|v vs] [|i [|i' iss]]]; try done. unfold collapse.
  destruct (Z.eqb_spec t 1) as [->|]; [|done].
  rewrite is_quorum_slice_eq. simpl. by destruct (is_quorum_slice i U).
Qed.

Lemma simplify_preserves_slices q U :
  is_quorum_slice (normalize_quorum_set_simplify None q) U = is_quorum_slice q U.
Proof.
  induction q as [t vs iss IH] using quorum_set_ind. simpl normalize_quorum_set_simplify.
  rewrite fold_merge_singleton. cbv beta iota zeta.
  rewrite is_quorum_slice_collapse, !is_quorum_slice_eq.
  f_equal. f_equal. rewrite app_nil_l, count_if_app, <- Z.add_assoc, count_merged.
  f_equal. change (map ?f iss) with (f <$> iss). rewrite count_if_fmap. by apply count_if_ext.
Qed.

Lemma reorder_preserves_slices q U :
  is_quorum_slice (normalize_quorum_set_reorder q) U = is_quorum_slice q U.
Proof.
  induction q as [t vs iss IH] using quorum_set_ind. simpl normalize_quorum_set_reorder.
  rewrite !is_quorum_slice_eq. f_equal. f_equal. f_equal.
  - apply count_if_perm, merge_sort_Permutation.
  - rewrite (count_if_perm _ _ _ (merge_sort_Permutation _ _)).
    change (map ?f iss) with (f <$> iss). rewrite count_if_fmap. by apply count_if_ext.
Qed.

(** Two quorum sets that differ only in the order of their entries, at any level. *)
Inductive qset_perm : ScpQuorumSet -> ScpQuorumSet -> Prop :=
| qset_perm_intro t vs vs' iss iss1 iss' :
    Permutation vs vs' -> Forall2 qset_perm iss iss1 -> Permutation iss1 iss' ->
    qset_perm (QuorumSet t vs iss) (QuorumSet t vs' iss').

Lemma qset_perm_reorder q q' :
  qset_perm q q' -> normalize_quorum_set_reorder q = normalize_quorum_set_reorder q'.
Proof.
  revert q'. induction q as [t vs iss IH] using quorum_set_ind. intros q' Hq.
  inversion Hq as [? ? vs' ? iss1 iss' Hvs Hiss Hp]; subst. simpl. f_equal.
  - by apply merge_sort_perm; [apply _|].
  - apply merge_sort_perm; [apply _|]. rewrite <- Hp. apply reflexive_eq.
    clear Hq Hp. induction Hiss; [done|]. inversion IH; subst. simpl. f_equal; auto.
Qed.

Lemma qset_perm_singleton q q' :
  qset_perm q q' -> is_singleton q = is_singleton q' /\ Permutation (validators q) (validators q').
Proof.
  intros Hq. inversion Hq as [t vs vs' iss iss1 iss' Hvs Hiss Hp]; subst. split; [|done]. simpl.
  rewrite (len_perm _ _ Hvs). f_equal. apply bool_decide_ext. split.
  - intros ->. inversion Hiss; subst. by apply Permutation_nil_l in Hp.
  - intros ->. apply Permutation_nil_r in Hp as ->. by inversion Hiss.
Qed.

Lemma qset_perm_collapse q q' : qset_perm q q' -> qset_perm (collapse q) (collapse q').
Proof.
  intros Hq. inversion Hq as [t vs vs' iss iss1 iss' Hvs Hiss Hp]; subst.
  destruct vs as [|v vs].
  - apply Permutation_nil_l in Hvs as <-.
    destruct Hiss as [|i i1 iss iss1 Hi Hiss]; [by apply Permutation_nil_l in Hp as <-|].
    destruct Hiss as [|j j1 iss iss1 Hj Hiss].
    + apply Permutation_singleton_l in Hp as <-. unfold collapse. by destruct (t =? 1).
    + pose proof (Permutation_length Hp). destruct iss' as [|? [|? ?]]; done.
  - destruct vs'; [by apply Permutation_nil_r in Hvs|]. done.
Qed.

Lemma qset_perm_simplify r q q' :
  qset_perm q q' -> qset_perm (normalize_quorum_set_simplify r q) (normalize_quorum_set_simplify r q').
Proof.
  revert q'. induction q as [t vs iss IH] using quorum_set_ind. intros q' Hq.
  inversion Hq as [? ? vs' ? iss1 iss' Hvs Hiss Hp]; subst. simpl.
  assert (Forall2 qset_perm (map (normalize_quorum_set_simplify r) iss)
    (map (normalize_quorum_set_simplify r) iss1)) as Hm.
  { clear Hq Hp. induction Hiss; [done|]. inversion IH; subst. simpl. constructor; auto. }
  assert (Permutation (map (normalize_quorum_set_simplify r) iss1)
    (map (normalize_quorum_set_simplify r) iss')) as Hpm by (by rewrite Hp).
  revert Hm Hpm. generalize (map (normalize_quorum_set_simplify r) iss) as l,
    (map (normalize_quorum_set_simplify r) iss1) as l1, (map (normalize_quorum_set_simplify r) iss') as l'.
  intros l l1 l' Hm Hpm.
  assert (exists k1,
    Permutation (concat (map validators (filter (fun q => is_singleton q = true) l)))
                (concat (map validators (filter (fun q => is_singleton q = true) l'))) /\
    Forall2 qset_perm (filter (fun q => is_singleton q <> true) l) k1 /\
    Permutation k1 (filter (fun q => is_singleton q <> true) l')) as (k1 & Hc & Hk & Hk').
  { exists (filter (fun q => is_singleton q <> true) l1). split; [|split; [|by rewrite Hpm]].
    - transitivity (concat (map validators (filter (fun q => is_singleton q = true) l1))).
      + clear Hpm. induction Hm as [|x y l l1 Hxy Hm IHm]; [done|]. rewrite !filter_cons.
        destruct (qset_perm_singleton _ _ Hxy) as [-> Hv].
        case_decide; [|done]. simpl. by rewrite Hv, IHm.
      + clear Hm. rewrite <- !flat_map_concat_map. apply Permutation_flat_map. by rewrite Hpm.
    - clear Hpm. induction Hm as [|x y l l1 Hxy Hm IHm]; [done|]. rewrite !filter_cons.
      destruct (qset_perm_singleton _ _ Hxy) as [-> _]. case_decide; [by constructor|done]. }
  destruct r as [id|].
  - rewrite (len_perm _ _ Hvs).
    assert (Permutation (filter (fun n => n <> id) vs) (filter (fun n => n <> id) vs')) as Hf by (by rewrite Hvs).
    rewrite (len_perm _ _ Hf). rewrite !fold_merge_singleton. apply qset_perm_collapse.
    econstructor; [by rewrite Hf, Hc|exact Hk|exact Hk'].
  - rewrite !fold_merge_singleton. apply qset_perm_collapse.
    econstructor; [by rewrite Hvs, Hc|exact Hk|exact Hk'].
Qed.

(** ** The closest v-blocking set *)

Lemma closest_validators_spec nodes vs left res :
  0 < left ->
  closest_validators nodes None vs left res =
  if left <=? count_if (fun v => negb (bool_decide (v ∈ nodes))) vs then None
  else Some (left - count_if (fun v => negb (bool_decide (v ∈ nodes))) vs,
             res ++ filter (fun v => v ∈ nodes) vs).
Proof.
  revert left res. induction vs as [|v vs IH]; intros left res Hl.
  { simpl. rewrite (proj2 (Z.leb_gt left 0)), app_nil_r, Z.sub_0_r by lia. done. }
  rewrite count_if_cons, filter_cons. simpl closest_validators.
  set (out := count_if _ vs) in *. assert (0 <= out) by apply count_if_nonneg.
  destruct (decide (v ∈ nodes)) as [Hv|Hv].
  - rewrite bool_decide_eq_true_2 by done. simpl. rewrite IH, <- app_assoc by done. done.
  - rewrite (bool_decide_eq_false_2 (v ∈ nodes)) by done. simpl.
    destruct (Z.eqb_spec (left - 1) 0).
    + by rewrite (proj2 (Z.leb_le _ _)) by lia.
    + rewrite IH by lia. fold out.
      destruct (Z.leb_spec (left - 1) out), (Z.leb_spec left (1 + out)); try lia; [done|].
      do 2 f_equal. lia.
Qed.

Lemma closest_inner_spec rec iss index left r :
  0 < left ->
  if left <=? count_if (fun i => bool_decide (rec i = [])) iss
  then closest_inner rec iss index left r = None
  else exists entries,
    closest_inner rec iss index left r =
      Some (left - count_if (fun i => bool_decide (rec i = [])) iss, r ++ entries) /\
    map snd entries = filter (fun l => l <> []) (map rec iss).
Proof.
  revert index left r. induction iss as [|i iss IH]; intros index left r Hl.
  { simpl. rewrite (proj2 (Z.leb_gt left 0)) by lia. exists []. by rewrite app_nil_r, Z.sub_0_r. }
  rewrite count_if_cons. simpl closest_inner. simpl map. rewrite filter_cons.
  assert (0 <= count_if (fun i => bool_decide (rec i = [])) iss) by apply count_if_nonneg.
  destruct (rec i) as [|x v] eqn:Ei.
  - rewrite bool_decide_eq_true_2, decide_False by auto.
    destruct (Z.eqb_spec (left - 1) 0).
    + by rewrite (proj2 (Z.leb_le _ _)) by lia.
    + specialize (IH (index + 1) (left - 1) r ltac:(lia)). revert IH.
      set (e := count_if _ iss) in *.
      destruct (Z.leb_spec (left - 1) e), (Z.leb_spec left (1 + e)); try lia; [done|].
      intros (en & -> & Hen). exists en. split; [|done]. do 2 f_equal. lia.
  - rewrite bool_decide_eq_false_2, decide_True by done. rewrite Z.add_0_l.
    specialize (IH (index + 1) left (r ++ [(len (x :: v), index, x :: v)]) Hl). revert IH.
    case_match; [done|]. intros (en & -> & Hen).
    exists ((len (x :: v), index, x :: v) :: en). rewrite <- app_assoc. split; [done|].
    simpl. by rewrite Hen.
Qed.

Lemma take_internals_spec left r res :
  0 <= left -> take_internals left r res = res ++ concat (map snd (take (Z.to_nat left) r)).
Proof.
  revert left res. induction r as [|x r IH]; intros left res Hl; simpl.
  { by rewrite take_nil, app_nil_r. }
  destruct (Z.eqb_spec left 0) as [->|].
  - simpl. by rewrite app_nil_r.
  - rewrite IH by lia. replace (Z.to_nat left) with (S (Z.to_nat (left - 1))) by lia.
    simpl. by rewrite <- app_assoc.
Qed.

(** At least [k] entries of a list satisfy a predicate that holds of the first
    [k] entries of a permutation of it. *)
Lemma count_if_take {A} (p : A -> bool) l k n :
  Permutation l k -> (n <= length l)%nat -> Forall (fun x => p x = true) (take n k) ->
  Z.of_nat n <= count_if p l.
Proof.
  intros Hp Hn HF. rewrite (count_if_perm p _ _ Hp), <- (take_drop n k), count_if_app.
  pose proof (count_if_nonneg p (drop n k)).
  assert (count_if p (take n k) = len (take n k)) as ->.
  { clear -HF. induction HF as [|x l Hx _ IH]; [done|]. by rewrite count_if_cons, len_cons, Hx, IH. }
  unfold len. rewrite length_take. apply Permutation_length in Hp. lia.
Qed.

Lemma count_if_filter {A} (p : A -> bool) (P : A -> Prop) `{!forall x, Decision (P x)} l :
  count_if p (filter P l) = count_if (fun x => p x && bool_decide (P x)) l.
Proof.
  induction l as [|x l IH]; [done|]. rewrite filter_cons, count_if_cons.
  case_decide as HP.
  - by rewrite count_if_cons, IH, (bool_decide_eq_true_2 _ HP), andb_true_r.
  - by rewrite IH, (bool_decide_eq_false_2 _ HP), andb_false_r.
Qed.

Lemma len_filter {A} (P : A -> Prop) `{!forall x, Decision (P x)} l :
  len (filter P l) = count_if (fun x => bool_decide (P x)) l.
Proof.
  induction l as [|x l IH]; [done|]. rewrite filter_cons, count_if_cons, <- IH.
  case_decide as HP; [rewrite (bool_decide_eq_true_2 _ HP), len_cons|
    rewrite (bool_decide_eq_false_2 _ HP)]; lia.
Qed.

Lemma count_if_split {A} (p r : A -> bool) l :
  count_if p l = count_if (fun x => p x && r x) l + count_if (fun x => p x && negb (r x)) l.
Proof.
  induction l as [|x l IH]; [done|]. rewrite !count_if_cons, IH.
  destruct (p x), (r x); simpl; lia.
Qed.

Lemma find_closest_blocks q (nodes X : gset NodeId) :
  thresholds_ok q ->
  (forall n, n ∈ all_validators q -> n ∉ nodes -> n ∈ X) ->
  (forall n, n ∈ find_closest_v_blocking q nodes None -> n ∈ X) ->
  is_v_blocking q X = true.
Proof.
  induction q as [t vs iss IH] using quorum_set_ind. intros Hok HA HX.
  inversion Hok as [? ? ? Ht Hiss]; subst.
  setoid_rewrite elem_of_all_validators in HA.
  rewrite is_v_blocking_eq, (proj2 (Z.eqb_neq t 0)), andb_true_l by lia. apply Z.leb_le.
  unfold usize_saturating_sub.
  set (rec := fun inner => find_closest_v_blocking inner nodes None) in *.
  set (out := count_if (fun v => negb (bool_decide (v ∈ nodes))) vs).
  set (e := count_if (fun i => bool_decide (rec i = [])) iss).
  (* an inner set whose own answer is inside [X] is blocked *)
  assert (forall i, i ∈ iss -> (forall n, n ∈ rec i -> n ∈ X) -> is_v_blocking i X = true) as Hin.
  { rewrite Forall_forall in IH, Hiss. intros i Hi Hr. apply IH; [done|auto| |done].
    intros n Hn ?. apply HA; eauto. }
  assert (forall i, i ∈ iss -> rec i = [] -> is_v_blocking i X = true) as Hempty.
  { intros i Hi Hr. apply Hin; [done|]. rewrite Hr. set_solver. }
  assert (out <= count_if (fun v => bool_decide (v ∈ X) && negb (bool_decide (v ∈ nodes))) vs) as Hout.
  { apply count_if_mono, Forall_forall. intros v Hv. rewrite negb_true_iff, bool_decide_eq_false.
    intros Hn. rewrite (bool_decide_eq_true_2 (v ∈ X)), (bool_decide_eq_false_2 (v ∈ nodes)) by auto. done. }
  assert (e <= count_if (fun i => is_v_blocking i X && bool_decide (rec i = [])) iss) as He.
  { apply count_if_mono, Forall_forall. intros i Hi. rewrite bool_decide_eq_true. intros Hr.
    by rewrite (Hempty i Hi Hr), bool_decide_eq_true_2. }
  rewrite (count_if_split (fun v => bool_decide (v ∈ X)) (fun v => bool_decide (v ∈ nodes)) vs).
  rewrite (count_if_split (fun i => is_v_blocking i X) (fun i => bool_decide (rec i = [])) iss).
  set (vin := count_if (fun v => bool_decide (v ∈ X) && bool_decide (v ∈ nodes)) vs).
  set (iin := count_if (fun i => is_v_blocking i X && negb (bool_decide (rec i = []))) iss).
  assert (0 <= out) by apply count_if_nonneg. assert (0 <= e) by apply count_if_nonneg.
  assert (0 <= vin) by apply count_if_nonneg. assert (0 <= iin) by apply count_if_nonneg.
  revert HX. simpl find_closest_v_blocking. fold rec.
  rewrite (proj2 (Z.leb_gt _ 0)) by lia.
  rewrite closest_validators_spec by lia. fold out.
  destruct (Z.leb_spec (1 + len vs + len iss - t) out) as [|Hlo]; [intros _; lia|].
  pose proof (closest_inner_spec rec iss 0 (1 + len vs + len iss - t - out) [] ltac:(lia)) as Hci.
  fold e in Hci. revert Hci.
  destruct (Z.leb_spec (1 + len vs + len iss - t - out) e) as [|Hle]; [intros -> _; lia|].
  intros (entries & -> & Hen). rewrite !app_nil_l.
  set (left2 := 1 + len vs + len iss - t - out - e) in *.
  set (res := if left2 <? len (filter (fun v => v ∈ nodes) vs) then _ else _).
  assert (exists n, res = take n (filter (fun v => v ∈ nodes) vs) /\ len res <= left2 /\
    (n = length (filter (fun v => v ∈ nodes) vs) \/ len res = left2) /\
    (n <= length (filter (fun v => v ∈ nodes) vs))%nat /\ Z.of_nat n = len res) as (n & Hres & Hlr & Hn & Hn' & Hnl).
  { unfold res, len. destruct (Z.ltb_spec left2 (Z.of_nat (length (filter (fun v => v ∈ nodes) vs)))).
    - exists (Z.to_nat left2). rewrite length_take. split; [done|]. lia.
    - exists (length (filter (fun v => v ∈ nodes) vs)). rewrite firstn_all. split; [done|]. lia. }
  rewrite take_internals_spec by lia. set (k := Z.to_nat (left2 - len res)). intros HX.
  (* the chosen validators are in [X] *)
  assert (Z.of_nat n <= vin) as Hv.
  { unfold vin. rewrite <- count_if_filter. apply (count_if_take _ _ (filter (fun v => v ∈ nodes) vs)); [done|done|].
    apply Forall_forall. intros v Hvn. apply bool_decide_eq_true, HX, elem_of_app. left.
    by rewrite Hres. }
  (* every node is accounted for, so there are inner sets enough *)
  assert (len (filter (fun v => v ∈ nodes) vs) = len vs - out) as Hlf.
  { unfold out. rewrite len_filter, count_if_negb. lia. }
  assert (len entries = len iss - e) as Hle2.
  { transitivity (len (map snd entries)); [unfold len; by rewrite length_map|].
    rewrite Hen, len_filter. change (map rec iss) with (rec <$> iss). rewrite count_if_fmap.
    unfold e. rewrite <- count_if_negb. apply count_if_ext, Forall_true. intros i.
    apply bool_decide_not. }
  assert (Z.of_nat k <= iin) as Hi.
  { transitivity (count_if (fun l => bool_decide (Forall (fun n => n ∈ X) l)) (map snd entries)).
    - apply (count_if_take _ _ (map snd (merge_sort (cmp_le internals_compare) entries))).
      + by rewrite merge_sort_Permutation.
      + rewrite length_map. unfold len in *. lia.
      + apply Forall_forall. intros l Hl. apply bool_decide_eq_true, Forall_forall. intros m Hm.
        apply HX, elem_of_app. right. apply list_elem_of_In, in_concat. exists l.
        rewrite <- !list_elem_of_In. split; [|done]. change (map snd ?x) with (snd <$> x) in *.
        by rewrite fmap_take.
    - rewrite Hen, count_if_filter. unfold iin. change (map rec iss) with (rec <$> iss).
      rewrite count_if_fmap. apply count_if_mono, Forall_forall. intros i Hii.
      rewrite !andb_true_iff, !bool_decide_eq_true, negb_true_iff, bool_decide_eq_false.
      intros [HF ?]. split; [|done]. apply Hin; [done|]. by rewrite Forall_forall in HF. }
  lia.
Qed.

Lemma find_closest_subset q nodes n : n ∈ find_closest_v_blocking q nodes None -> n ∈ nodes.
Proof.
  induction q as [t vs iss IH] using quorum_set_ind. simpl.
  set (rec := fun inner => find_closest_v_blocking inner nodes None).
  destruct (Z.leb_spec (1 + len vs + len iss - t) 0); [set_solver|].
  rewrite closest_validators_spec by lia.
  destruct (Z.leb_spec (1 + len vs + len iss - t) (count_if (fun v => negb (bool_decide (v ∈ nodes))) vs))
    as [Hout|Hout]; [set_solver|]. set (left1 := _ - count_if _ vs) in *.
  pose proof (closest_inner_spec rec iss 0 left1 [] ltac:(lia)) as Hci. revert Hci.
  destruct (Z.leb_spec left1 (count_if (fun i => bool_decide (rec i = [])) iss)); [intros ->; set_solver|].
  intros (entries & -> & Hen). set (left2 := left1 - _) in *. rewrite !app_nil_l.
  set (res := if left2 <? _ then _ else _).
  assert (forall m, m ∈ res -> m ∈ nodes) as Hres.
  { intros m. unfold res. case_match; [intros Hm%elem_of_take|intros Hm]; [destruct Hm as (? & Hm%list_elem_of_lookup_2 & _)|];
      by apply list_elem_of_filter in Hm as [? _]. }
  assert (len res <= left2) as Hl.
  { unfold res, len. case_match eqn:E; [rewrite length_take; lia|]. apply Z.ltb_ge in E. done. }
  rewrite take_internals_spec, elem_of_app by lia. intros [?|Hn]; [auto|].
  apply list_elem_of_In, in_concat in Hn as (l & Hl' & Hnl).
  apply list_elem_of_In in Hl'. apply list_elem_of_In in Hnl.
  assert (l ∈ map rec iss) as Hlm.
  { eapply (proj1 (list_elem_of_filter (fun l => l <> []) (map rec iss) l)). rewrite <- Hen.
    revert Hl'. rewrite !list_elem_of_In, !in_map_iff. intros (x & ? & Hx). exists x. split; [done|].
    rewrite <- list_elem_of_In in Hx |- *. apply elem_of_take in Hx as (? & Hx%list_elem_of_lookup_2 & _).
    by rewrite merge_sort_Permutation in Hx. }
  apply list_elem_of_In, in_map_iff in Hlm as (i & <- & Hi). apply list_elem_of_In in Hi.
  rewrite Forall_forall in IH. by apply (IH i).
Qed.

(** When the nodes outside [nodes] already block, the answer is empty. *)
Lemma find_closest_empty q (nodes X : gset NodeId) :
  thresholds_ok q -> (forall n, n ∈ X -> n ∉ nodes) ->
  is_v_blocking q X = true -> find_closest_v_blocking q nodes None = [].
Proof.
  intros Hok HX. revert Hok. induction q as [t vs iss IH] using quorum_set_ind. intros Hok.
  inversion Hok as [? ? ? Ht Hiss]; subst.
  rewrite is_v_blocking_eq, (proj2 (Z.eqb_neq t 0)), andb_true_l by lia. rewrite Z.leb_le.
  unfold usize_saturating_sub. intros Hc. simpl.
  set (rec := fun inner => find_closest_v_blocking inner nodes None).
  assert (count_if (fun v => bool_decide (v ∈ X)) vs
    <= count_if (fun v => negb (bool_decide (v ∈ nodes))) vs).
  { apply count_if_mono, Forall_true. intros v. rewrite negb_true_iff, bool_decide_eq_true, bool_decide_eq_false. auto. }
  assert (count_if (fun i => is_v_blocking i X) iss <= count_if (fun i => bool_decide (rec i = [])) iss).
  { apply count_if_mono, Forall_forall. intros i Hi Hb. apply bool_decide_eq_true.
    rewrite Forall_forall in IH, Hiss. by apply IH; auto. }
  rewrite (proj2 (Z.leb_gt _ 0)) by lia. rewrite closest_validators_spec by lia.
  destruct (Z.leb_spec (1 + len vs + len iss - t) (count_if (fun v => negb (bool_decide (v ∈ nodes))) vs))
    as [Hout|Hout]; [done|]. set (left1 := _ - count_if _ vs) in *.
  pose proof (closest_inner_spec rec iss 0 left1 [] ltac:(lia)) as Hci. revert Hci.
  destruct (Z.leb_spec left1 (count_if (fun i => bool_decide (rec i = [])) iss)); [by intros ->|lia].
Qed.

(** ** Properties *)

(** C34: [is_quorum] answers whether the given nodes contain a quorum that
    satisfies the local quorum set: a set of them each of whose members has a
    slice inside the set, and which contains a local slice.  The answer does not
    depend on the order in which the hash set of nodes is visited. *)
Theorem is_quorum_correct (q : ScpQuorumSet) (nodes : gset NodeId)
    (get_qs : NodeId -> option ScpQuorumSet) :
  (is_quorum q nodes get_qs = true <->
   exists U, U ⊆ nodes /\ quorum_closed get_qs U /\ is_quorum_slice q U = true) /\
  (forall order, Permutation order (elements nodes) ->
   is_quorum_slice q (list_to_set (prune (S (length order)) get_qs order)) = is_quorum q nodes get_qs).
Proof.
  split; [apply is_quorum_spec|]. intros order Hp.
  apply is_quorum_slice_ext. intros n. rewrite !elem_of_list_to_set.
  apply prune_perm; [done|lia|]. apply Permutation_length in Hp.
  unfold size, set_size. simpl. lia.
Qed.

(** With thresholds in range, a set of nodes is v-blocking exactly when it
    meets every slice of the quorum set. *)
Theorem is_v_blocking_meets_every_slice (q : ScpQuorumSet) (B : gset NodeId)
    (Hok : thresholds_ok q) :
  is_v_blocking q B = true <->
  (forall U, is_quorum_slice q U = true -> exists n, n ∈ U /\ n ∈ B).
Proof.
  split.
  - intros Hb U HU. destruct (decide (U ∩ B = ∅)) as [He|He]; [|by apply set_choose_L in He as [n ?%elem_of_intersection]; exists n].
    exfalso. rewrite (is_v_blocking_dual q (get_all_nodes q ∪ U) B Hok) in Hb
      by (intros n; rewrite <- elem_of_get_all_nodes; set_solver).
    rewrite (is_quorum_slice_mono q U) in Hb; [done|set_solver|done].
  - intros HB. rewrite (is_v_blocking_dual q (get_all_nodes q) B Hok)
      by (intros n; by rewrite elem_of_get_all_nodes).
    apply negb_true_iff, not_true_iff_false. intros (n & ? & ?)%HB. set_solver.
Qed.

Definition two_of_three : ScpQuorumSet := QuorumSet 2 [1; 2; 3] [].
Lemma two_of_three_ok : thresholds_ok two_of_three.
Proof. constructor; [vm_compute; split; discriminate | constructor]. Qed.

Lemma is_v_blocking_meets_every_slice_witness :
  is_v_blocking two_of_three {[1; 2]} = true <->
  (forall U, is_quorum_slice two_of_three U = true -> exists n, n ∈ U /\ n ∈ ({[1; 2]} : gset Z)).
Proof.
  apply (is_v_blocking_meets_every_slice two_of_three {[1; 2]}). exact two_of_three_ok.
Defined.

(** The sanity check succeeds exactly on the quorum sets of depth at most 4
    whose thresholds are in range (and a majority, with the extra checks), whose
    validators are distinct across all levels and number between 1 and 1000. *)
Theorem is_quorum_set_sane_iff (q : ScpQuorumSet) (extra_checks : bool) :
  is_quorum_set_sane q extra_checks = Ok tt <->
  sane_shape extra_checks 0 q /\ NoDup (all_validators q) /\
  1 <= len (all_validators q) <= MAXIMUM_QUORUM_NODES.
Proof.
  unfold is_quorum_set_sane.
  pose proof (fun c' => check_sanity_spec extra_checks (Checker ∅ 0) c' 0 q ltac:(done)) as Hspec.
  pose proof (len_nonneg (all_validators q)).
  assert (forall m, usize_saturating_add 0 m = Z.min usize_max m) as Hadd by done.
  split.
  - destruct (check_sanity _ _ _ _) as [c|]; [|done].
    destruct (proj1 (Hspec c) eq_refl) as (Hs & (Hd & _) & Hn). rewrite Hn, Hadd.
    destruct (Z.ltb_spec (Z.min usize_max (len (all_validators q))) 1); [done|].
    destruct (Z.ltb_spec MAXIMUM_QUORUM_NODES (Z.min usize_max (len (all_validators q)))); [done|].
    unfold usize_max, u64_max, MAXIMUM_QUORUM_NODES in *. intros _. split_and!; [done|done|lia|lia].
  - intros (Hs & Hd & Hn).
    set (c := Checker (list_to_set (all_validators q)) (usize_saturating_add 0 (len (all_validators q)))).
    assert (check_sanity extra_checks (Checker ∅ 0) 0 q = Ok c) as ->.
    { apply Hspec. split_and!; [done| |done]. unfold seen_more, c. simpl.
      split_and!; [done|set_solver|set_solver]. }
    simpl. rewrite Hadd. unfold usize_max, u64_max, MAXIMUM_QUORUM_NODES in *.
    destruct (Z.ltb_spec (Z.min (2 ^ 64 - 1) (len (all_validators q))) 1); [lia|].
    destruct (Z.ltb_spec 1000 (Z.min (2 ^ 64 - 1) (len (all_validators q)))); [lia|done].
Qed.

(** Normalization forgets the order of validators and inner sets at every
    level, with and without the removal of a node: quorum sets that differ only
    in order have the same normal form (and so the same hash). *)
Theorem normalize_quorum_set_canonical (r : option NodeId) (q q' : ScpQuorumSet)
    (Hp : qset_perm q q') :
  normalize_quorum_set_with_remove r q = normalize_quorum_set_with_remove r q'.
Proof. by apply qset_perm_reorder, qset_perm_simplify. Qed.

Lemma normalize_quorum_set_canonical_witness :
  normalize_quorum_set_with_remove (Some 1) (QuorumSet 2 [2; 1] [QuorumSet 1 [3] []]) =
  normalize_quorum_set_with_remove (Some 1) (QuorumSet 2 [1; 2] [QuorumSet 1 [3] []]).
Proof.
  apply (normalize_quorum_set_canonical (Some 1)).
  apply (qset_perm_intro 2 [2; 1] [1; 2] _ [QuorumSet 1 [3] []]).
  - apply perm_swap.
  - constructor; [|constructor].
    apply (qset_perm_intro 1 [3] [3] [] [] []); [reflexivity|constructor|reflexivity].
  - reflexivity.
Defined.

(** Normalization without removal keeps the meaning of a quorum set: the
    same sets of nodes satisfy it. *)
Theorem normalize_quorum_set_same_slices (q : ScpQuorumSet) (U : gset NodeId) :
  is_quorum_slice (normalize_quorum_set q) U = is_quorum_slice q U.
Proof.
  unfold normalize_quorum_set, normalize_quorum_set_with_remove.
  by rewrite reorder_preserves_slices, simplify_preserves_slices.
Qed.

(** The closest v-blocking set is made of the given nodes, blocks the quorum
    set together with the nodes that are not among them, and is empty exactly
    when those already block. *)
Theorem find_closest_v_blocking_correct (q : ScpQuorumSet) (nodes : gset NodeId)
    (Hok : thresholds_ok q) :
  let r := find_closest_v_blocking q nodes None in
  let others := get_all_nodes q ∖ nodes in
  list_to_set r ⊆ nodes /\
  is_v_blocking q (others ∪ list_to_set r) = true /\
  (r = [] <-> is_v_blocking q others = true).
Proof.
  intros r others.
  assert (is_v_blocking q (others ∪ list_to_set r) = true) as Hb.
  { apply (find_closest_blocks q nodes); [done| |set_solver].
    intros n Hn%elem_of_get_all_nodes ?. set_solver. }
  split_and!; [|done|split].
  - intros n Hn%elem_of_list_to_set. by eapply find_closest_subset.
  - intros Hr. rewrite Hr in Hb. eapply is_v_blocking_mono; [|exact Hb]. set_solver.
  - apply find_closest_empty; [done|]. set_solver.
Qed.

Lemma find_closest_v_blocking_correct_witness :
  find_closest_v_blocking two_of_three {[1; 2; 3]} None = [1; 2] /\
  is_v_blocking two_of_three
    (get_all_nodes two_of_three ∖ {[1; 2; 3]} ∪
     list_to_set (find_closest_v_blocking two_of_three {[1; 2; 3]} None)) = true.
Proof.
  split; [reflexivity|].
  exact (proj1 (proj2 (find_closest_v_blocking_correct two_of_three {[1; 2; 3]} two_of_three_ok))).
Defined.
