(* ===== verification/Driver.v ===== *)
(** * Node weights

    The default [SCPDriver::get_node_weight] of [crates/scp/src/driver.rs], which
    round leader election weighs nodes with: fractions of [u64::MAX] computed in
    128-bit arithmetic. *)

From S2P Require Import Prelude Types Quorum.

(** [u128::div_ceil]. *)
Definition div_ceil (n d : Z) : Z := if n mod d =? 0 then n / d else n / d + 1.

Definition compute_weight (m total threshold : Z) : Z :=
  if (threshold =? 0) || (total =? 0) then 0
  else
    let numerator := m * threshold in
    let denominator := total in
    as_u64 (div_ceil numerator denominator).

(** The loop over the inner sets: the first positive weight counts. *)
Definition first_inner_weight (weight : ScpQuorumSet -> Z) (total threshold : Z)
    : list ScpQuorumSet -> Z :=
  fix go inner_sets :=
    match inner_sets with
    | [] => 0
    | inner :: rest =>
        let leaf_w := weight inner in
        if 0 <? leaf_w then compute_weight leaf_w total threshold else go rest
    end.

Fixpoint base_get_node_weight (node_id : NodeId) (q : ScpQuorumSet) (is_local_node : bool) : Z :=
  match q with
  | QuorumSet threshold validators inner_sets =>
      if is_local_node then u64_max
      else
        let total := len validators + len inner_sets in
        if (threshold =? 0) || (total =? 0) then 0
        else if bool_decide (node_id ∈ validators) then compute_weight u64_max total threshold
        else
          first_inner_weight (fun inner => base_get_node_weight node_id inner is_local_node)
            total threshold inner_sets
  end.

(** ** Properties *)

Lemma div_ceil_spec n d : 0 <= n -> 0 < d -> n <= div_ceil n d * d < n + d.
Proof.
  intros Hn Hd. unfold div_ceil. pose proof (Z.div_mod n d ltac:(lia)) as E.
  pose proof (Z.mod_pos_bound n d Hd). destruct (Z.eqb_spec (n mod d) 0); nia.
Qed.

(** The weight of a member: the exact ceiling, no bits lost. *)
Lemma compute_weight_spec m total threshold :
  0 <= m <= u64_max -> 1 <= threshold <= total ->
  let w := compute_weight m total threshold in
  m * threshold <= w * total < m * threshold + total /\ 0 <= w <= m.
Proof.
  intros Hm Ht. unfold compute_weight.
  rewrite (proj2 (Z.eqb_neq threshold 0)), (proj2 (Z.eqb_neq total 0)) by lia. simpl.
  pose proof (div_ceil_spec (m * threshold) total ltac:(nia) ltac:(lia)) as [Hlo Hhi].
  set (w := div_ceil (m * threshold) total) in *.
  assert (0 <= w <= m) as Hw by nia.
  unfold as_u64. rewrite Z.mod_small by (unfold u64_max in Hm; lia). split; [done|lia].
Qed.

Lemma compute_weight_pos m total threshold :
  0 < m <= u64_max -> 1 <= threshold <= total -> 0 < compute_weight m total threshold.
Proof.
  intros Hm Ht. pose proof (compute_weight_spec m total threshold ltac:(lia) Ht) as [[? ?] ?]. nia.
Qed.

Lemma base_get_node_weight_bounds node q :
  thresholds_ok q ->
  0 <= base_get_node_weight node q false <= u64_max /\
  (0 < base_get_node_weight node q false <-> node ∈ all_validators q).
Proof.
  induction q as [t vs iss IH] using quorum_set_ind. intros Hok. inversion Hok as [? ? ? Ht Hiss]; subst.
  rewrite elem_of_all_validators. simpl.
  rewrite (proj2 (Z.eqb_neq t 0)), (proj2 (Z.eqb_neq (len vs + len iss) 0)) by lia. simpl.
  assert (0 < u64_max <= u64_max) as Hmax by (unfold u64_max; lia).
  case_bool_decide as Hin.
  - pose proof (compute_weight_spec u64_max (len vs + len iss) t ltac:(lia) Ht) as [_ ?].
    pose proof (compute_weight_pos u64_max (len vs + len iss) t Hmax Ht). split; [lia|]. tauto.
  - set (total := len vs + len iss) in *. clearbody total. clear Hok. revert Ht Hiss.
    induction IH as [|i iss Hi _ IHl]; intros Ht Hiss; simpl.
    { split; [unfold u64_max; lia|]. split; [lia|]. intros [?|(i & Hi & _)]; [done|]. set_solver. }
    inversion Hiss as [|? ? Hok_i Hok_iss]; subst. destruct (Hi Hok_i) as [Hb Hiff].
    destruct (Z.ltb_spec 0 (base_get_node_weight node i false)) as [Hpos|Hneg].
    + pose proof (compute_weight_spec (base_get_node_weight node i false) total t ltac:(lia) Ht) as [_ ?].
      pose proof (compute_weight_pos (base_get_node_weight node i false) total t ltac:(lia) Ht).
      split; [lia|]. split; [|lia]. intros _. right. exists i. split; [set_solver|]. by apply Hiff.
    + destruct (IHl Ht Hok_iss) as [Hb' Hiff']. split; [done|]. rewrite Hiff'. split.
      * intros [?|(j & ? & ?)]; [by left|]. right. exists j. set_solver.
      * intros [?|(j & [->|?]%elem_of_cons & Hj)]; [by left| |].
        -- apply Hiff in Hj. lia.
        -- right. eauto.
Qed.

(** In a quorum set whose thresholds are in range at every level the local
    node weighs [u64::MAX], another node weighs more than nothing exactly when
    the set mentions it, and a validator of the top level weighs the ceiling of
    [u64::MAX * threshold / total], computed without losing bits. *)
Theorem base_get_node_weight_correct (node : NodeId) (q : ScpQuorumSet) (Hok : thresholds_ok q) :
  base_get_node_weight node q true = u64_max /\
  0 <= base_get_node_weight node q false <= u64_max /\
  (0 < base_get_node_weight node q false <-> node ∈ get_all_nodes q) /\
  (node ∈ validators q ->
   let total := len (validators q) + len (inner_sets q) in
   u64_max * threshold q <= base_get_node_weight node q false * total < u64_max * threshold q + total).
Proof.
  destruct (base_get_node_weight_bounds node q Hok) as [Hb Hiff].
  rewrite elem_of_get_all_nodes. destruct Hok as [t vs iss Ht Hiss].
  split_and!; try done; try lia. simpl. intros Hin.
  rewrite (proj2 (Z.eqb_neq t 0)), (proj2 (Z.eqb_neq (len vs + len iss) 0)) by lia. simpl.
  rewrite bool_decide_eq_true_2 by done.
  apply compute_weight_spec; [unfold u64_max; lia|done].
Qed.

Lemma base_get_node_weight_correct_witness :
  let q := QuorumSet 2 [1; 2] [QuorumSet 1 [3; 4] []] in
  base_get_node_weight 3 q false = 6148914691236517206 /\
  0 <= base_get_node_weight 3 q false <= u64_max.
Proof.
  intros q. split; [vm_compute; reflexivity|].
  refine (proj1 (proj2 (base_get_node_weight_correct 3 q _))).
  repeat constructor; vm_compute; discriminate.
Defined.
