(* ===== verification/Statements.v ===== *)
(** * Statements: order, sanity and federated voting

    Models [crates/scp/src/compare.rs], [crates/scp/src/ballot/statements.rs]
    and the functions of [ballot/mod.rs] and [ballot/state_machine.rs] that only
    read the latest envelopes.  The latest envelopes are a finite map from nodes
    to envelopes; where the Rust code visits the hash map to build a set, the
    model takes the domain of a filtered map.  The [debug_assert!]s are compiled
    out of the release build and are not modelled. *)

From S2P Require Import Prelude Types Quorum.

Abbreviation Envelopes := (gmap NodeId ScpEnvelope) (only parsing).

(** ** Ballots *)

Definition ballot_compare (a b : ScpBallot) : comparison :=
  match Z.compare (counter a) (counter b) with
  | Eq => value_compare (value a) (value b)
  | other => other
  end.

(** [None < Some]. *)
Definition cmp_opt_ballot (a b : option ScpBallot) : comparison :=
  match a, b with
  | None, None => Eq
  | None, Some _ => Lt
  | Some _, None => Gt
  | Some a, Some b => ballot_compare a b
  end.

Definition ballot_compatible (a b : ScpBallot) : bool := bool_decide (value a = value b).

Definition are_ballots_less_and_compatible (a b : ScpBallot) : bool :=
  bool_decide (ballot_compare a b <> Gt) && ballot_compatible a b.

Definition are_ballots_less_and_incompatible (a b : ScpBallot) : bool :=
  bool_decide (ballot_compare a b <> Gt) && negb (ballot_compatible a b).

(** ** The order of statements *)

Definition ballot_summary_of (p : ScpStatementPledges) : option (BallotPhase * Z) :=
  match p with
  | Prepare p => Some (PhasePrepare, counter (prep_ballot p))
  | Confirm c => Some (PhaseConfirm, counter (conf_ballot c))
  | Externalize e => Some (PhaseExternalize, counter (ext_commit e))
  | Nominate _ => None
  end.

Definition is_newer_nominate (old new : ScpNomination) : bool :=
  let old_votes : gset (list Z) := list_to_set (nom_votes old) in
  let old_accepted : gset (list Z) := list_to_set (nom_accepted old) in
  let new_votes : gset (list Z) := list_to_set (nom_votes new) in
  let new_accepted : gset (list Z) := list_to_set (nom_accepted new) in
  if negb (bool_decide (old_votes ⊆ new_votes)) || negb (bool_decide (old_accepted ⊆ new_accepted))
  then false
  else bool_decide (size old_votes < size new_votes)%nat
       || bool_decide (size old_accepted < size new_accepted)%nat.

Definition is_newer_prepare (old new : ScpStatementPrepare) : bool :=
  match ballot_compare (prep_ballot old) (prep_ballot new) with
  | Lt => true
  | Gt => false
  | Eq =>
      match cmp_opt_ballot (prep_prepared old) (prep_prepared new) with
      | Lt => true
      | Gt => false
      | Eq =>
          match cmp_opt_ballot (prep_prepared_prime old) (prep_prepared_prime new) with
          | Lt => true
          | Gt => false
          | Eq => prep_n_h old <? prep_n_h new
          end
      end
  end.

Definition is_newer_confirm (old new : ScpStatementConfirm) : bool :=
  match ballot_compare (conf_ballot old) (conf_ballot new) with
  | Lt => true
  | Gt => false
  | Eq =>
      match Z.compare (conf_n_prepared new) (conf_n_prepared old) with
      | Gt => true
      | Lt => false
      | Eq => conf_n_h old <? conf_n_h new
      end
  end.

Definition ballot_rank (p : ScpStatementPledges) : Z :=
  match p with
  | Prepare _ => 0
  | Confirm _ => 1
  | Externalize _ => 2
  | Nominate _ => 0
  end.

Definition is_newer_ballot_st (old_st new_st : ScpStatement) : bool :=
  let old_rank := ballot_rank (pledges old_st) in
  let new_rank := ballot_rank (pledges new_st) in
  if negb (old_rank =? new_rank) then old_rank <? new_rank
  else
    match pledges old_st, pledges new_st with
    | Prepare old, Prepare new => is_newer_prepare old new
    | Confirm old, Confirm new => is_newer_confirm old new
    | Externalize _, Externalize _ => false
    | _, _ => false
    end.

Definition is_nomination (p : ScpStatementPledges) : bool :=
  match p with Nominate _ => true | _ => false end.

Definition is_newer_nomination_or_ballot_st (old_st new_st : ScpStatement) : bool :=
  if negb (bool_decide (node_id old_st = node_id new_st))
     || negb (bool_decide (slot_index old_st = slot_index new_st))
  then false
  else if negb (Bool.eqb (is_nomination (pledges old_st)) (is_nomination (pledges new_st)))
  then false
  else
    match pledges old_st, pledges new_st with
    | Nominate old, Nominate new => is_newer_nominate old new
    | _, _ => is_newer_ballot_st old_st new_st
    end.

(** [BallotProtocol::is_newer_statement]. *)
Definition is_newer_statement (envs : Envelopes) (node : NodeId) (st : ScpStatement) : bool :=
  match envs !! node with
  | None => true
  | Some existing => is_newer_ballot_st (statement existing) st
  end.

(** ** Values of a statement *)

(** [Vec::dedup]: drop an element equal to the one before it. *)
Fixpoint dedup {A} `{EqDecision A} (l : list A) : list A :=
  match l with
  | x :: (y :: _) as l' => if decide (x = y) then dedup l' else x :: dedup l'
  | _ => l
  end.

(** [values.sort(); values.dedup()]. *)
Definition sort_dedup_values (l : list Value) : list Value :=
  dedup (merge_sort (cmp_le value_compare) l).

Definition opt_value (b : option ScpBallot) : list Value :=
  match b with Some b => [value b] | None => [] end.

(** [Slot::get_statement_values]. *)
Definition get_statement_values (st : ScpStatement) : list Value :=
  sort_dedup_values
    match pledges st with
    | Nominate nom => nom_votes nom ++ nom_accepted nom
    | Prepare prep =>
        (if counter (prep_ballot prep) =? 0 then [] else [value (prep_ballot prep)])
          ++ opt_value (prep_prepared prep) ++ opt_value (prep_prepared_prime prep)
    | Confirm conf => [value (conf_ballot conf)]
    | Externalize ext => [value (ext_commit ext)]
    end.

Definition min_validation_level (left right : ValidationLevel) : ValidationLevel :=
  match left, right with
  | Invalid, _ | _, Invalid => Invalid
  | MaybeValid, _ | _, MaybeValid => MaybeValid
  | MaybeValidDeferred, _ | _, MaybeValidDeferred => MaybeValidDeferred
  | FullyValidated, FullyValidated => FullyValidated
  end.

Section driver.
Context `{XdrHash} `{SCPDriver}.

(** The loop of [validate_statement_values], which stops at [Invalid]. *)
Fixpoint validate_values (slot : Z) (values : list Value) (level : ValidationLevel)
    : ValidationLevel :=
  match values with
  | [] => level
  | v :: values' =>
      let level := min_validation_level level (validate_value slot v false) in
      if bool_decide (level = Invalid) then level else validate_values slot values' level
  end.

Definition validate_statement_values (st : ScpStatement) (slot : Z) : ValidationLevel :=
  match get_statement_values st with
  | [] => Invalid
  | values => validate_values slot values FullyValidated
  end.

(** ** Quorum sets of statements *)

Definition resolve_quorum_set (provided : Hash256) (node : NodeId) (ctx : SlotContext)
    : option ScpQuorumSet :=
  if bool_decide (node = local_node_id ctx)
     && bool_decide (hash_quorum_set (local_quorum_set ctx) = provided)
  then Some (local_quorum_set ctx)
  else
    match get_quorum_set_by_hash provided with
    | Some qset => Some qset
    | None =>
        match get_quorum_set node with
        | Some qset => if bool_decide (hash_quorum_set qset = provided) then Some qset else None
        | None => None
        end
    end.

Definition statement_quorum_set (st : ScpStatement) (ctx : SlotContext) : option ScpQuorumSet :=
  match pledges st with
  | Externalize _ => Some (simple_quorum_set 1 [node_id st])
  | Prepare prep => resolve_quorum_set (prep_quorum_set_hash prep) (node_id st) ctx
  | Confirm conf => resolve_quorum_set (conf_quorum_set_hash conf) (node_id st) ctx
  | Nominate _ => None
  end.

Definition statement_quorum_set_map (envs : Envelopes) (ctx : SlotContext)
    : gmap NodeId ScpQuorumSet :=
  let map := omap (fun env => statement_quorum_set (statement env) ctx) envs in
  match map !! local_node_id ctx with
  | Some _ => map
  | None => <[local_node_id ctx := local_quorum_set ctx]> map
  end.

(** ** Sanity *)

Definition is_prepare_sane (is_self : bool) (prep : ScpStatementPrepare) : bool :=
  if negb is_self && (counter (prep_ballot prep) =? 0) then false
  else if
    match prep_prepared_prime prep, prep_prepared prep with
    | Some prepared_prime, Some prepared =>
        negb (bool_decide (ballot_compare prepared_prime prepared = Lt))
        || ballot_compatible prepared_prime prepared
    | _, _ => false
    end then false
  else if
    negb (prep_n_h prep =? 0) &&
    match prep_prepared prep with
    | Some prepared => counter prepared <? prep_n_h prep
    | None => true
    end then false
  else if negb (prep_n_c prep =? 0) && (prep_n_h prep =? 0) then false
  else if
    negb (prep_n_c prep =? 0) &&
    ((counter (prep_ballot prep) <? prep_n_h prep) || (prep_n_h prep <? prep_n_c prep)) then false
  else true.

Definition is_statement_sane (st : ScpStatement) (ctx : SlotContext) : bool :=
  match statement_quorum_set st ctx with
  | None => false
  | Some qset =>
      if negb (is_ok (is_quorum_set_sane qset false)) then false
      else
        match pledges st with
        | Prepare prep => is_prepare_sane (bool_decide (node_id st = local_node_id ctx)) prep
        | Confirm conf =>
            if counter (conf_ballot conf) =? 0 then false
            else if counter (conf_ballot conf) <? conf_n_h conf then false
            else if conf_n_h conf <? conf_n_commit conf then false
            else true
        | Externalize ext =>
            if counter (ext_commit ext) =? 0 then false
            else if ext_n_h ext <? counter (ext_commit ext) then false
            else true
        | Nominate _ => false
        end
  end.

(** ** Federated voting *)

(** The nodes whose latest statement satisfies a predicate. *)
Definition nodes_where (p : ScpStatement -> bool) (envs : Envelopes) : gset NodeId :=
  dom (filter (fun kv => p (statement kv.2) = true) envs).

Definition federated_accept (voted accepted : ScpStatement -> bool) (envs : Envelopes)
    (ctx : SlotContext) : bool :=
  let accepted_nodes := nodes_where accepted envs in
  let supporters := nodes_where (fun st => accepted st || voted st) envs in
  if is_v_blocking (local_quorum_set ctx) accepted_nodes then true
  else
    let qsets := statement_quorum_set_map envs ctx in
    is_quorum (local_quorum_set ctx) supporters (fun n => qsets !! n).

Definition federated_ratify (voted : ScpStatement -> bool) (envs : Envelopes)
    (ctx : SlotContext) : bool :=
  let supporters := nodes_where voted envs in
  let qsets := statement_quorum_set_map envs ctx in
  is_quorum (local_quorum_set ctx) supporters (fun n => qsets !! n).
End driver.

(** ** What a statement says about a ballot *)

Definition statement_votes_for_ballot (ballot : ScpBallot) (st : ScpStatement) : bool :=
  match pledges st with
  | Prepare prep => are_ballots_less_and_compatible ballot (prep_ballot prep)
  | Confirm conf => ballot_compatible ballot (conf_ballot conf)
  | Externalize ext => ballot_compatible ballot (ext_commit ext)
  | Nominate _ => false
  end.

Definition has_prepared_ballot (ballot : ScpBallot) (st : ScpStatement) : bool :=
  match pledges st with
  | Prepare prep =>
      match prep_prepared prep with
      | Some p => are_ballots_less_and_compatible ballot p
      | None => false
      end ||
      match prep_prepared_prime prep with
      | Some p => are_ballots_less_and_compatible ballot p
      | None => false
      end
  | Confirm conf =>
      let prepared := Ballot (conf_n_prepared conf) (value (conf_ballot conf)) in
      are_ballots_less_and_compatible ballot prepared
  | Externalize ext => ballot_compatible ballot (ext_commit ext)
  | Nominate _ => false
  end.

Definition statement_votes_commit (ballot : ScpBallot) (interval : Z * Z) (st : ScpStatement) : bool :=
  match pledges st with
  | Prepare prep =>
      if ballot_compatible ballot (prep_ballot prep) && negb (prep_n_c prep =? 0)
      then (prep_n_c prep <=? interval.1) && (interval.2 <=? prep_n_h prep)
      else false
  | Confirm conf =>
      ballot_compatible ballot (conf_ballot conf) && (conf_n_commit conf <=? interval.1)
  | Externalize ext =>
      ballot_compatible ballot (ext_commit ext) && (counter (ext_commit ext) <=? interval.1)
  | Nominate _ => false
  end.

Definition commit_predicate (ballot : ScpBallot) (interval : Z * Z) (st : ScpStatement) : bool :=
  match pledges st with
  | Confirm conf =>
      if ballot_compatible ballot (conf_ballot conf)
      then (conf_n_commit conf <=? interval.1) && (interval.2 <=? conf_n_h conf)
      else false
  | Externalize ext =>
      if ballot_compatible ballot (ext_commit ext)
      then counter (ext_commit ext) <=? interval.1
      else false
  | _ => false
  end.

Definition statement_ballot_counter (st : ScpStatement) : Z :=
  match pledges st with
  | Prepare prep => counter (prep_ballot prep)
  | Confirm conf => counter (conf_ballot conf)
  | Externalize _ => u32_max
  | Nominate _ => 0
  end.

Definition has_vblocking_subset_strictly_ahead_of (n : Z) (envs : Envelopes) (ctx : SlotContext)
    : bool :=
  is_v_blocking (local_quorum_set ctx) (nodes_where (fun st => n <? statement_ballot_counter st) envs).

Definition get_working_ballot (st : ScpStatement) : option ScpBallot :=
  match pledges st with
  | Prepare prep => Some (prep_ballot prep)
  | Confirm conf => Some (Ballot (conf_n_commit conf) (value (conf_ballot conf)))
  | Externalize ext => Some (Ballot u32_max (value (ext_commit ext)))
  | Nominate _ => None
  end.

Definition get_companion_quorum_set_hash (st : ScpStatement) : option Hash256 :=
  match pledges st with
  | Prepare prep => Some (prep_quorum_set_hash prep)
  | Confirm conf => Some (conf_quorum_set_hash conf)
  | Externalize ext => Some (ext_commit_quorum_set_hash ext)
  | Nominate _ => None
  end.

(** ** Candidates for prepared ballots *)

Definition collect_hint_ballots (hint : ScpStatement) : list ScpBallot :=
  match pledges hint with
  | Prepare prep =>
      [prep_ballot prep] ++ option_list (prep_prepared prep) ++ option_list (prep_prepared_prime prep)
  | Confirm conf =>
      [Ballot (conf_n_prepared conf) (value (conf_ballot conf));
       Ballot u32_max (value (conf_ballot conf))]
  | Externalize ext => [Ballot u32_max (value (ext_commit ext))]
  | Nominate _ => []
  end.

(** [push_candidate]: the hash set [seen] holds the ballots already pushed. *)
Definition push_candidate (candidates : list ScpBallot) (ballot : ScpBallot) : list ScpBallot :=
  if bool_decide (ballot ∈ candidates) then candidates else candidates ++ [ballot].

(** The ballots one envelope proposes under a top vote, in the order of the pushes. *)
Definition envelope_candidates (top_vote : ScpBallot) (st : ScpStatement) : list ScpBallot :=
  match pledges st with
  | Prepare prep =>
      (if are_ballots_less_and_compatible (prep_ballot prep) top_vote then [prep_ballot prep] else [])
      ++ match prep_prepared prep with
         | Some p => if are_ballots_less_and_compatible p top_vote then [p] else []
         | None => []
         end
      ++ match prep_prepared_prime prep with
         | Some p => if are_ballots_less_and_compatible p top_vote then [p] else []
         | None => []
         end
  | Confirm conf =>
      if ballot_compatible top_vote (conf_ballot conf) then
        top_vote ::
        (if conf_n_prepared conf <? counter top_vote
         then [Ballot (conf_n_prepared conf) (value top_vote)] else [])
      else []
  | Externalize ext => if ballot_compatible top_vote (ext_commit ext) then [top_vote] else []
  | Nominate _ => []
  end.

(** [get_prepare_candidates], for the statements of the latest envelopes in some
    order of visit. *)
Definition prepare_candidates (sts : list ScpStatement) (hint : ScpStatement) : list ScpBallot :=
  let hint_ballots := merge_sort (cmp_le ballot_compare) (collect_hint_ballots hint) in
  let candidates :=
    fold_left (fun candidates top_vote =>
      fold_left (fun candidates st =>
        fold_left push_candidate (envelope_candidates top_vote st) candidates)
        sts candidates)
      (reverse hint_ballots) [] in
  merge_sort (cmp_le ballot_compare) candidates.

Definition statements_of (envs : Envelopes) : list ScpStatement :=
  map (fun kv => statement kv.2) (map_to_list envs).

Definition get_prepare_candidates (envs : Envelopes) (hint : ScpStatement) : list ScpBallot :=
  prepare_candidates (statements_of envs) hint.

(** ** Commit intervals *)

(** The counters one statement adds to the boundaries. *)
Definition statement_boundaries (ballot : ScpBallot) (st : ScpStatement) : list Z :=
  match pledges st with
  | Prepare prep =>
      if ballot_compatible ballot (prep_ballot prep) && negb (prep_n_c prep =? 0)
      then [prep_n_c prep; prep_n_h prep] else []
  | Confirm conf =>
      if ballot_compatible ballot (conf_ballot conf)
      then [conf_n_commit conf; conf_n_h conf] else []
  | Externalize ext =>
      if ballot_compatible ballot (ext_commit ext)
      then [counter (ext_commit ext); ext_n_h ext; u32_max] else []
  | Nominate _ => []
  end.

(** The ascending elements of a [BTreeSet<u32>]. *)
Definition btree_elements (s : gset Z) : list Z := merge_sort (cmp_le Z.compare) (elements s).

Definition get_commit_boundaries_from_statements (ballot : ScpBallot) (envs : Envelopes) : gset Z :=
  list_to_set (concat (map (statement_boundaries ballot) (statements_of envs))).

(** The loop of [find_extended_interval] over descending boundaries. *)
Fixpoint extend_interval (pred : Z * Z -> bool) (candidate : Z * Z) (boundaries : list Z) : Z * Z :=
  match boundaries with
  | [] => candidate
  | boundary :: boundaries' =>
      if candidate.1 =? 0 then
        if pred (boundary, boundary) then extend_interval pred (boundary, boundary) boundaries'
        else extend_interval pred candidate boundaries'
      else if candidate.2 <? boundary then extend_interval pred candidate boundaries'
      else if pred (boundary, candidate.2)
      then extend_interval pred (boundary, candidate.2) boundaries'
      else candidate
  end.

Definition find_extended_interval (initial : Z * Z) (boundaries : gset Z) (pred : Z * Z -> bool)
    : Z * Z :=
  extend_interval pred initial (reverse (btree_elements boundaries)).

Definition hint_ballot_for_commit (hint : ScpStatement) : option ScpBallot :=
  match pledges hint with
  | Prepare prep =>
      if negb (prep_n_c prep =? 0) then Some (Ballot (prep_n_h prep) (value (prep_ballot prep)))
      else None
  | Confirm conf => Some (Ballot (conf_n_h conf) (value (conf_ballot conf)))
  | Externalize ext => Some (Ballot (ext_n_h ext) (value (ext_commit ext)))
  | Nominate _ => None
  end.

(** ** Ballots are totally ordered *)

#[global] Instance ballot_compare_lawful : LawfulCompare ballot_compare.
Proof.
  assert (Inj (=) (=) (fun b => (counter b, value b))) by (intros [] [] [=]; by subst).
  apply (key_compare_lawful (fun b => (counter b, value b)) (pair_compare Z.compare value_compare)).
Qed.

#[global] Instance cmp_opt_ballot_lawful : LawfulCompare cmp_opt_ballot.
Proof. apply (option_compare_lawful ballot_compare). Qed.

(** [a <=~ b]: the counters are ordered and the values equal. *)
Lemma ballot_compare_same_value a b :
  value a = value b -> ballot_compare a b = Z.compare (counter a) (counter b).
Proof.
  intros E. unfold ballot_compare. rewrite E, (compare_refl value_compare).
  by destruct (counter a ?= counter b).
Qed.

Lemma less_compatible_iff a b :
  are_ballots_less_and_compatible a b = true <-> counter a <= counter b /\ value a = value b.
Proof.
  unfold are_ballots_less_and_compatible, ballot_compatible.
  rewrite andb_true_iff, !bool_decide_eq_true. split; intros [H E]; (split; [|done]).
  - rewrite ballot_compare_same_value in H by done. by apply Z.compare_le_iff.
  - rewrite ballot_compare_same_value by done. by apply Z.compare_le_iff.
Qed.

Lemma less_incompatible_iff a b :
  are_ballots_less_and_incompatible a b = true <-> ballot_compare a b = Lt /\ value a <> value b.
Proof.
  unfold are_ballots_less_and_incompatible, ballot_compatible.
  rewrite andb_true_iff, negb_true_iff, bool_decide_eq_true, bool_decide_eq_false.
  split; intros [H E]; (split; [|done]).
  - destruct (ballot_compare a b) eqn:Ec; try done. apply (compare_eq ballot_compare) in Ec. congruence.
  - by rewrite H.
Qed.

Lemma ballot_compatible_iff a b : ballot_compatible a b = true <-> value a = value b.
Proof. apply bool_decide_eq_true. Qed.

Lemma ballot_compare_lt_counter a b : ballot_compare a b = Lt -> counter a <= counter b.
Proof.
  unfold ballot_compare. destruct (counter a ?= counter b) eqn:E; try done; intros _.
  - apply Z.compare_eq in E. lia.
  - rewrite Z.compare_lt_iff in E. lia.
Qed.

(** ** The order of statements is strict *)

Definition prepare_key (p : ScpStatementPrepare) : ScpBallot * (option ScpBallot * (option ScpBallot * Z)) :=
  (prep_ballot p, (prep_prepared p, (prep_prepared_prime p, prep_n_h p))).
Definition confirm_key (c : ScpStatementConfirm) : ScpBallot * (Z * Z) :=
  (conf_ballot c, (conf_n_prepared c, conf_n_h c)).
Definition prepare_key_compare :=
  pair_compare ballot_compare (pair_compare cmp_opt_ballot (pair_compare cmp_opt_ballot Z.compare)).
Definition confirm_key_compare := pair_compare ballot_compare (pair_compare Z.compare Z.compare).

#[local] Instance prepare_key_compare_lawful : LawfulCompare prepare_key_compare.
Proof. unfold prepare_key_compare. apply _. Qed.
#[local] Instance confirm_key_compare_lawful : LawfulCompare confirm_key_compare.
Proof. unfold confirm_key_compare. apply _. Qed.

Lemma is_newer_prepare_key old new :
  is_newer_prepare old new = true <->
  prepare_key_compare (prepare_key old) (prepare_key new) = Lt.
Proof.
  unfold is_newer_prepare, prepare_key_compare, prepare_key, pair_compare; simpl.
  destruct (ballot_compare _ _); try done. destruct (cmp_opt_ballot _ _); try done.
  destruct (cmp_opt_ballot _ _); try done. by rewrite Z.ltb_lt, Z.compare_lt_iff.
Qed.

Lemma is_newer_confirm_key old new :
  is_newer_confirm old new = true <->
  confirm_key_compare (confirm_key old) (confirm_key new) = Lt.
Proof.
  unfold is_newer_confirm, confirm_key_compare, confirm_key, pair_compare; simpl.
  destruct (ballot_compare _ _); try done. rewrite (Z.compare_antisym (conf_n_prepared old)).
  destruct (conf_n_prepared old ?= conf_n_prepared new); simpl; try done.
  by rewrite Z.ltb_lt, Z.compare_lt_iff.
Qed.

Lemma is_newer_nominate_iff old new :
  is_newer_nominate old new = true <->
  list_to_set (C:=gset (list Z)) (nom_votes old) ⊆ list_to_set (nom_votes new) /\
  list_to_set (C:=gset (list Z)) (nom_accepted old) ⊆ list_to_set (nom_accepted new) /\
  (list_to_set (C:=gset (list Z)) (nom_votes old) <> list_to_set (nom_votes new) \/
   list_to_set (C:=gset (list Z)) (nom_accepted old) <> list_to_set (nom_accepted new)).
Proof.
  assert (forall (a b : gset (list Z)), a ⊆ b -> (size a < size b)%nat <-> a <> b) as Hsz.
  { intros a b Hab. split; [intros ? ->; lia|]. intros Hne. apply subset_size.
    split; [done|]. intros Hba. apply Hne. by apply (anti_symm (⊆)). }
  unfold is_newer_nominate.
  set (ov := list_to_set (nom_votes old)). set (nv := list_to_set (nom_votes new)).
  set (oa := list_to_set (nom_accepted old)). set (na := list_to_set (nom_accepted new)).
  destruct (decide (ov ⊆ nv)) as [Hv|Hv]; [|rewrite (bool_decide_eq_false_2 _ Hv); naive_solver].
  destruct (decide (oa ⊆ na)) as [Ha|Ha];
    [|rewrite (bool_decide_eq_false_2 _ Ha), orb_true_r; naive_solver].
  rewrite (bool_decide_eq_true_2 _ Hv), (bool_decide_eq_true_2 _ Ha). simpl.
  rewrite orb_true_iff, !bool_decide_eq_true, !Hsz by done. tauto.
Qed.

Lemma is_newer_ballot_st_cases old new :
  is_newer_ballot_st old new = true <->
  ballot_rank (pledges old) < ballot_rank (pledges new) \/
  match pledges old, pledges new with
  | Prepare o, Prepare n => prepare_key_compare (prepare_key o) (prepare_key n) = Lt
  | Confirm o, Confirm n => confirm_key_compare (confirm_key o) (confirm_key n) = Lt
  | _, _ => False
  end.
Proof.
  unfold is_newer_ballot_st.
  destruct (pledges old), (pledges new); simpl; rewrite ?is_newer_prepare_key, ?is_newer_confirm_key;
    (split; [intros|intros [?|?]]); auto; try done; try lia.
Qed.

Lemma is_newer_ballot_st_trans a b c :
  is_newer_ballot_st a b = true -> is_newer_ballot_st b c = true -> is_newer_ballot_st a c = true.
Proof.
  rewrite !is_newer_ballot_st_cases.
  destruct (pledges a), (pledges b), (pledges c); simpl; intros [?|?] [?|?];
    try done; try (exfalso; lia); try (left; lia).
  - right. by eapply (compare_lt_trans prepare_key_compare).
  - right. by eapply (compare_lt_trans confirm_key_compare).
Qed.

Lemma is_newer_ballot_st_irrefl a : is_newer_ballot_st a a = false.
Proof.
  apply not_true_iff_false. rewrite is_newer_ballot_st_cases. intros [?|H]; [lia|].
  destruct (pledges a); try done.
  - by rewrite (compare_refl prepare_key_compare) in H.
  - by rewrite (compare_refl confirm_key_compare) in H.
Qed.

(** ** Candidates *)

Lemma push_all_elem l acc x :
  x ∈ fold_left push_candidate l acc <-> x ∈ acc \/ x ∈ l.
Proof.
  revert acc. induction l as [|y l IH]; intros acc; simpl; [set_solver|].
  rewrite IH. unfold push_candidate. case_bool_decide; set_solver.
Qed.

Lemma push_all_NoDup l acc : NoDup acc -> NoDup (fold_left push_candidate l acc).
Proof.
  revert acc. induction l as [|y l IH]; intros acc Hacc; simpl; [done|].
  apply IH. unfold push_candidate. case_bool_decide; [done|].
  apply NoDup_app. split_and!; [done|set_solver|apply NoDup_singleton].
Qed.

(** The nested loops push the candidates of every top vote and statement. *)
Lemma push_loops_elem (tvs : list ScpBallot) (sts : list ScpStatement) acc x :
  x ∈ fold_left (fun candidates top_vote =>
        fold_left (fun candidates st =>
          fold_left push_candidate (envelope_candidates top_vote st) candidates) sts candidates)
        tvs acc <->
  x ∈ acc \/ exists tv st, tv ∈ tvs /\ st ∈ sts /\ x ∈ envelope_candidates tv st.
Proof.
  assert (forall tv acc, x ∈ fold_left (fun candidates st =>
      fold_left push_candidate (envelope_candidates tv st) candidates) sts acc <->
    x ∈ acc \/ exists st, st ∈ sts /\ x ∈ envelope_candidates tv st) as Hin.
  { intros tv. induction sts as [|st sts IH]; intros acc'; simpl; [set_solver|].
    rewrite IH, push_all_elem. set_solver. }
  revert acc. induction tvs as [|tv tvs IH]; intros acc; simpl; [set_solver|].
  rewrite IH, Hin. set_solver.
Qed.

Lemma push_loops_NoDup (tvs : list ScpBallot) (sts : list ScpStatement) acc :
  NoDup acc ->
  NoDup (fold_left (fun candidates top_vote =>
        fold_left (fun candidates st =>
          fold_left push_candidate (envelope_candidates top_vote st) candidates) sts candidates)
        tvs acc).
Proof.
  revert acc. induction tvs as [|tv tvs IH]; intros acc Hacc; simpl; [done|].
  apply IH. clear IH. revert acc Hacc. induction sts as [|st sts IHs]; intros acc Hacc; simpl; [done|].
  apply IHs. by apply push_all_NoDup.
Qed.

Lemma elem_of_prepare_candidates sts hint x :
  x ∈ prepare_candidates sts hint <->
  exists tv st, tv ∈ collect_hint_ballots hint /\ st ∈ sts /\ x ∈ envelope_candidates tv st.
Proof.
  unfold prepare_candidates. rewrite merge_sort_Permutation, push_loops_elem.
  setoid_rewrite elem_of_reverse. setoid_rewrite merge_sort_Permutation. set_solver.
Qed.

Lemma prepare_candidates_perm sts sts' hint :
  Permutation sts sts' -> prepare_candidates sts hint = prepare_candidates sts' hint.
Proof.
  intros Hp. apply (merge_sort_perm ballot_compare). apply NoDup_Permutation.
  - apply push_loops_NoDup, NoDup_nil_2.
  - apply push_loops_NoDup, NoDup_nil_2.
  - intros x. rewrite !push_loops_elem. setoid_rewrite Hp. done.
Qed.

(** A sorted list without repetitions is strictly ascending. *)
Lemma sorted_NoDup_strict {A} (cmp : A -> A -> comparison) `{!LawfulCompare cmp} l :
  Sorted (cmp_le cmp) l -> NoDup l -> StronglySorted (fun a b => cmp a b = Lt) l.
Proof.
  intros Hs%(Sorted_StronglySorted (cmp_le cmp)) Hd.
  induction Hs as [|a l Hs IH Ha]; [constructor|]. apply NoDup_cons in Hd as [Hn Hd].
  constructor; [auto|]. rewrite Forall_forall in Ha |- *. intros x Hx.
  destruct (proj1 (cmp_le_lt_eq cmp a x) (Ha x Hx)) as [?| ->]; done.
Qed.

Lemma prepare_candidates_strict sts hint :
  StronglySorted (fun a b => ballot_compare a b = Lt) (prepare_candidates sts hint).
Proof.
  apply (sorted_NoDup_strict ballot_compare); [apply (Sorted_merge_sort _)|].
  unfold prepare_candidates. rewrite merge_sort_Permutation. apply push_loops_NoDup, NoDup_nil_2.
Qed.

Lemma envelope_candidate_below tv st x :
  x ∈ envelope_candidates tv st -> are_ballots_less_and_compatible x tv = true.
Proof.
  unfold envelope_candidates. destruct (pledges st) as [|p|c|e]; [set_solver| | |].
  - rewrite !elem_of_app. intros [Hx|[Hx|Hx]]; repeat case_match; set_solver.
  - destruct (ballot_compatible tv (conf_ballot c)); [|set_solver].
    rewrite elem_of_cons, less_compatible_iff. intros [->|Hx]; [split; [lia|done]|].
    destruct (Z.ltb_spec (conf_n_prepared c) (counter tv)); [|set_solver].
    apply list_elem_of_singleton in Hx as ->. simpl. split; [lia|done].
  - case_match; [|set_solver]. intros ->%list_elem_of_singleton.
    rewrite less_compatible_iff. split; [lia|done].
Qed.

(** ** Federated voting *)

Lemma elem_of_nodes_where p envs n :
  n ∈ nodes_where p envs <-> exists env, envs !! n = Some env /\ p (statement env) = true.
Proof.
  unfold nodes_where. rewrite elem_of_dom. split.
  - intros [env [? ?]%map_lookup_filter_Some]. eauto.
  - intros (env & ? & ?). exists env. by apply map_lookup_filter_Some.
Qed.

Lemma nodes_where_mono (p r : ScpStatement -> bool) envs :
  (forall st, p st = true -> r st = true) -> nodes_where p envs ⊆ nodes_where r envs.
Proof. intros Hpr n. rewrite !elem_of_nodes_where. intros (env & ? & ?). eauto. Qed.

Lemma nodes_where_ext (p r : ScpStatement -> bool) envs :
  (forall st, p st = r st) -> nodes_where p envs = nodes_where r envs.
Proof.
  intros Hpr. apply (anti_symm (⊆)); apply nodes_where_mono; intros st; by rewrite Hpr.
Qed.

(** ** Commit intervals *)

Lemma elem_of_btree_elements s n : n ∈ btree_elements s <-> n ∈ s.
Proof. unfold btree_elements. rewrite merge_sort_Permutation. apply elem_of_elements. Qed.


Lemma btree_descending s : StronglySorted (fun a b => b < a) (reverse (btree_elements s)).
Proof.
  apply (StronglySorted_reverse Z.lt).
  apply (StronglySorted_weaken (fun a b => Z.compare a b = Lt)); [intros a b; apply Z.compare_lt_iff|].
  apply (sorted_NoDup_strict Z.compare); [apply (Sorted_merge_sort _)|].
  unfold btree_elements. rewrite merge_sort_Permutation. apply NoDup_elements.
Qed.

(** From an interval that is set, the loop extends it downwards without gaps. *)
Lemma extend_interval_started pred lo hi l :
  0 < lo -> lo <= hi -> pred (lo, hi) = true ->
  StronglySorted (fun a b => b < a) l -> (forall b, b ∈ l -> 0 <= b < lo) ->
  let r := extend_interval pred (lo, hi) l in
  r.2 = hi /\ r.1 <= lo /\ (r.1 = lo \/ r.1 ∈ l) /\ pred r = true /\
  (forall b, b ∈ l -> r.1 <= b -> pred (b, hi) = true) /\
  (forall b, b ∈ l -> b < r.1 -> exists b0, b0 ∈ l /\ b <= b0 < r.1 /\ pred (b0, hi) = false).
Proof.
  revert lo. induction l as [|b l IH]; intros lo Hlo Hle Hp Hs Hb; simpl.
  { split_and!; try done; [by left|set_solver|set_solver]. }
  apply StronglySorted_cons in Hs as [Hbl Hs].
  pose proof (Hb b ltac:(set_solver)) as Hb0. rewrite Forall_forall in Hbl.
  rewrite (proj2 (Z.eqb_neq lo 0)), (proj2 (Z.ltb_ge hi b)) by lia.
  destruct (pred (b, hi)) eqn:Hpb.
  - destruct (decide (b = 0)) as [->|Hb1].
    + (* zero is the last boundary *)
      assert (l = []) as ->.
      { destruct l as [|c l]; [done|]. specialize (Hbl c ltac:(set_solver)).
        specialize (Hb c ltac:(set_solver)). lia. }
      simpl. split_and!; [done|lia|right; set_solver|done| |].
      * intros b ->%list_elem_of_singleton. done.
      * intros b ->%list_elem_of_singleton. lia.
    + destruct (IH b) as (H1 & H2 & H3 & H4 & H5 & H6); [lia|lia|done|done| |].
      { intros c Hc. specialize (Hbl c Hc). specialize (Hb c ltac:(set_solver)). lia. }
      cbv zeta in *. split_and!; [done|lia|set_solver|done| |].
      * intros c [->|Hc]%elem_of_cons; auto.
      * intros c [->|Hc]%elem_of_cons Hlt; [lia|]. destruct (H6 c Hc Hlt) as (b0 & ? & ?).
        exists b0. set_solver.
  - simpl. split_and!; [done|lia|by left|done| |].
    + intros c Hc. specialize (Hb c Hc). lia.
    + intros c Hc _. exists b. split; [set_solver|]. split; [|done].
      apply elem_of_cons in Hc as [->|Hc]; [lia|]. specialize (Hbl c Hc). lia.
Qed.

(** What the search returns on descending, non-negative boundaries. *)
Definition extended_interval_spec (pred : Z * Z -> bool) (bs : list Z) (r : Z * Z) : Prop :=
  (forall b, b ∈ bs -> r.2 < b -> pred (b, b) = false) /\
  (r.1 <> 0 ->
   r.1 <= r.2 /\ r.1 ∈ bs /\ r.2 ∈ bs /\ pred r = true /\
   (forall b, b ∈ bs -> r.1 <= b <= r.2 -> pred (b, r.2) = true) /\
   (forall b, b ∈ bs -> b < r.1 ->
    exists b0, b0 ∈ bs /\ b <= b0 < r.1 /\ pred (b0, r.2) = false)) /\
  (r.1 = 0 -> r = (0, 0) \/ 0 ∈ bs /\ pred r = true).

Lemma extend_interval_spec pred l :
  StronglySorted (fun a b => b < a) l -> (forall b, b ∈ l -> 0 <= b) ->
  extended_interval_spec pred l (extend_interval pred (0, 0) l).
Proof.
  induction l as [|b l IH]; intros Hs Hb.
  { unfold extended_interval_spec. simpl. split_and!; [set_solver|done|by left]. }
  apply StronglySorted_cons in Hs as [Hbl Hs]. rewrite Forall_forall in Hbl.
  pose proof (Hb b ltac:(set_solver)) as Hb0. simpl. destruct (pred (b, b)) eqn:Hp.
  - destruct (decide (b = 0)) as [->|Hb1].
    + assert (l = []) as ->.
      { destruct l as [|c l]; [done|]. specialize (Hbl c ltac:(set_solver)).
        specialize (Hb c ltac:(set_solver)). lia. }
      unfold extended_interval_spec. simpl. split_and!; [|done|by left].
      intros b ->%list_elem_of_singleton. lia.
    + destruct (extend_interval_started pred b b l) as (H1 & H2 & H3 & H4 & H5 & H6);
        [lia|lia|done|done| |].
      { intros c Hc. specialize (Hbl c Hc). specialize (Hb c ltac:(set_solver)). lia. }
      revert H1 H2 H3 H4 H5 H6. set (r := extend_interval pred (b, b) l). clearbody r.
      destruct r as [lo hi]. simpl. intros -> Hle Hlo Hpr Hall Hmax.
      unfold extended_interval_spec. simpl. split_and!.
      * intros c [->|Hc]%elem_of_cons Hlt; [lia|]. specialize (Hbl c Hc). lia.
      * intros _. split_and!; [done|set_solver|set_solver|done| |].
        -- intros c [->|Hc]%elem_of_cons [? ?]; auto.
        -- intros c [->|Hc]%elem_of_cons Hlt; [lia|]. destruct (Hmax c Hc Hlt) as (b0 & ? & ?).
           exists b0. set_solver.
      * intros ->. right. split; [|done]. destruct Hlo as [?|?]; [lia|set_solver].
  - destruct IH as (H1 & H2 & H3); [done|set_solver|].
    unfold extended_interval_spec. split_and!.
    + intros c [->|Hc]%elem_of_cons Hlt; auto.
    + intros Hne. destruct (H2 Hne) as (Hle & Hlo & Hhi & Hpr & Hall & Hmax).
      assert ((extend_interval pred (0, 0) l).2 < b) by auto.
      split_and!; [done|set_solver|set_solver|done| |].
      * intros c [->|Hc]%elem_of_cons [? ?]; [lia|auto].
      * intros c [->|Hc]%elem_of_cons Hlt; [lia|]. destruct (Hmax c Hc Hlt) as (b0 & ? & ?).
        exists b0. set_solver.
    + intros Hz. destruct (H3 Hz) as [?|[? ?]]; [by left|right]. set_solver.
Qed.

Lemma find_extended_interval_spec bs pred :
  (forall b, b ∈ bs -> 0 <= b) ->
  extended_interval_spec pred (reverse (btree_elements bs)) (find_extended_interval (0, 0) bs pred).
Proof.
  intros Hb. apply extend_interval_spec; [apply btree_descending|].
  intros b. rewrite elem_of_reverse, elem_of_btree_elements. apply Hb.
Qed.

(** ** Properties *)

(** "newer than" is a strict order on the statements of a node for a slot,
    nominations and ballots alike: no statement is newer than itself and the
    relation is transitive, so a sequence of accepted statements never repeats. *)
Theorem newer_statement_strict_order :
  (forall st, is_newer_nomination_or_ballot_st st st = false) /\
  (forall a b c,
    is_newer_nomination_or_ballot_st a b = true ->
    is_newer_nomination_or_ballot_st b c = true ->
    is_newer_nomination_or_ballot_st a c = true).
Proof.
  unfold is_newer_nomination_or_ballot_st. split.
  - intros st. rewrite !bool_decide_eq_true_2, eqb_reflx by done. simpl.
    destruct (pledges st) as [n|p|c|e] eqn:E; [|apply is_newer_ballot_st_irrefl..].
    apply not_true_iff_false. rewrite is_newer_nominate_iff. naive_solver.
  - intros a b c.
    do 2 (case_bool_decide; simpl; [|done]).
    do 2 (case_bool_decide; simpl; [|by intros _]).
    rewrite (bool_decide_eq_true_2 (node_id a = node_id c)),
      (bool_decide_eq_true_2 (slot_index a = slot_index c)) by congruence. simpl.
    pose proof (is_newer_ballot_st_trans a b c) as Htrans.
    destruct (pledges a) as [na|?|?|?], (pledges b) as [nb|?|?|?], (pledges c) as [nc|?|?|?];
      simpl; try done.
    rewrite !is_newer_nominate_iff. clear. intros (H1 & H2 & H3) (H4 & H5 & H6).
    split_and!; [by etrans|by etrans|].
    destruct H3 as [H3|H3]; [left|right]; intros E; apply H3; apply (anti_symm (⊆)); try done;
      by rewrite E.
Qed.

(** The candidates for prepared ballots are exactly those the latest
    statements propose under the ballots of the hint, each at most the hint's
    ballot it is compatible with, in strictly ascending order, and they do not
    depend on the order in which the hash map of envelopes is visited. *)
Theorem get_prepare_candidates_correct (envs : Envelopes) (hint : ScpStatement) :
  StronglySorted (fun a b => ballot_compare a b = Lt) (get_prepare_candidates envs hint) /\
  (forall x, x ∈ get_prepare_candidates envs hint <->
   exists top_vote n env, top_vote ∈ collect_hint_ballots hint /\ envs !! n = Some env /\
     x ∈ envelope_candidates top_vote (statement env) /\
     are_ballots_less_and_compatible x top_vote = true) /\
  (forall visit, Permutation visit (statements_of envs) ->
   prepare_candidates visit hint = get_prepare_candidates envs hint).
Proof.
  split_and!.
  - apply prepare_candidates_strict.
  - intros x. unfold get_prepare_candidates. rewrite elem_of_prepare_candidates.
    split.
    + intros (tv & st & Htv & Hst & Hx). unfold statements_of in Hst.
      apply list_elem_of_In, in_map_iff in Hst as ([n env] & <- & Hin).
      apply list_elem_of_In, elem_of_map_to_list in Hin.
      exists tv, n, env. split_and!; try done. by eapply envelope_candidate_below.
    + intros (tv & n & env & Htv & Hn & Hx & _). exists tv, (statement env). split_and!; try done.
      apply list_elem_of_In, in_map_iff. exists (n, env). split; [done|].
      by apply list_elem_of_In, elem_of_map_to_list.
  - intros visit Hp. by apply prepare_candidates_perm.
Qed.

(** A statement is ratified exactly when some set of nodes whose latest
    statements support it contains a local slice and a slice of each of its
    members, by the quorum sets their statements name; it is accepted exactly
    when the nodes that accept it are v-blocking or such a set votes for or
    accepts it; and what a quorum accepts is accepted. *)
Theorem federated_voting_correct `{XdrHash} `{SCPDriver} (voted accepted : ScpStatement -> bool)
    (envs : Envelopes) (ctx : SlotContext) :
  let quorum_for p := exists U : gset NodeId,
    (forall n, n ∈ U -> exists env qs, envs !! n = Some env /\ p (statement env) = true /\
       statement_quorum_set_map envs ctx !! n = Some qs /\ is_quorum_slice qs U = true) /\
    is_quorum_slice (local_quorum_set ctx) U = true in
  (federated_ratify voted envs ctx = true <-> quorum_for voted) /\
  (federated_accept voted accepted envs ctx = true <->
     is_v_blocking (local_quorum_set ctx) (nodes_where accepted envs) = true \/
     quorum_for (fun st => accepted st || voted st)) /\
  (federated_ratify accepted envs ctx = true -> federated_accept voted accepted envs ctx = true).
Proof.
  intros quorum_for.
  assert (forall p, is_quorum (local_quorum_set ctx) (nodes_where p envs)
    (fun n => statement_quorum_set_map envs ctx !! n) = true <-> quorum_for p) as Hq.
  { intros p. rewrite is_quorum_spec. unfold quorum_for, quorum_closed. split.
    - intros (U & HU & Hc & Hs). exists U. split; [|done]. intros n Hn.
      destruct (Hc n Hn) as (qs & ? & ?). apply HU, elem_of_nodes_where in Hn as (env & ? & ?). eauto 10.
    - intros (U & HU & Hs). exists U. split_and!; [| |done].
      + intros n (env & qs & ? & ? & ? & ?)%HU. apply elem_of_nodes_where. eauto.
      + intros n (env & qs & ? & ? & ? & ?)%HU. eauto. }
  unfold federated_ratify, federated_accept. split_and!.
  - apply Hq.
  - rewrite <- Hq. destruct (is_v_blocking _ _); naive_solver.
  - intros Hr. case_match; [done|]. eapply is_quorum_mono; [|exact Hr].
    apply nodes_where_mono. by intros st ->.
Qed.

(** The search for a commit interval returns the highest boundary that the
    predicate accepts on its own as upper end, extended downwards through every
    boundary as long as the predicate holds, stopping at the first failure. *)
Theorem find_extended_interval_correct (bs : gset Z) (pred : Z * Z -> bool)
    (Hbs : forall b, b ∈ bs -> 0 <= b) :
  let r := find_extended_interval (0, 0) bs pred in
  (forall b, b ∈ bs -> r.2 < b -> pred (b, b) = false) /\
  (r.1 <> 0 ->
   r.1 <= r.2 /\ r.1 ∈ bs /\ r.2 ∈ bs /\
   (forall b, b ∈ bs -> r.1 <= b <= r.2 -> pred (b, r.2) = true) /\
   (forall b, b ∈ bs -> b < r.1 ->
    exists b0, b0 ∈ bs /\ b <= b0 < r.1 /\ pred (b0, r.2) = false)) /\
  (r.1 = 0 -> r = (0, 0) \/ 0 ∈ bs /\ pred r = true).
Proof.
  intros r. destruct (find_extended_interval_spec bs pred Hbs) as (H1 & H2 & H3). fold r in H1, H2, H3.
  setoid_rewrite elem_of_reverse in H1. setoid_rewrite elem_of_reverse in H2.
  setoid_rewrite elem_of_reverse in H3. setoid_rewrite elem_of_btree_elements in H1.
  setoid_rewrite elem_of_btree_elements in H2. setoid_rewrite elem_of_btree_elements in H3.
  split_and!; [done| |done]. intros Hne. by destruct (H2 Hne) as (? & ? & ? & _ & ? & ?).
Qed.

Lemma find_extended_interval_correct_witness :
  let pred (i : Z * Z) := (2 <=? i.1) && (i.2 <=? 5) in
  find_extended_interval (0, 0) {[1; 2; 5; 9]} pred = (2, 5) /\
  (forall b, b ∈ ({[1; 2; 5; 9]} : gset Z) ->
   (find_extended_interval (0, 0) {[1; 2; 5; 9]} pred).2 < b -> pred (b, b) = false).
Proof.
  intros pred. split; [vm_compute; reflexivity|].
  refine (proj1 (find_extended_interval_correct {[1; 2; 5; 9]} pred _)). set_solver by lia.
Defined.
