(* ===== verification/Ballot.v ===== *)
(** * The ballot protocol

    Models [crates/scp/src/ballot/mod.rs], [ballot/state_machine.rs] and
    [ballot/envelope.rs]: the state of the protocol for one slot and every
    operation that changes it.  [emit_current_state] processes the node's own
    statement by calling [advance_slot] again, which is why the transition
    functions below take the emission as an argument [emit]; [advance_slot]
    closes the recursion, which the message level bounds.  Events are the driver callbacks in the order of the calls. *)

From S2P Require Import Prelude Types Quorum Statements.

(** [MAX_PROTOCOL_TRANSITIONS]. *)
Definition MAX_PROTOCOL_TRANSITIONS : Z := 50.

Record BallotProtocol : Type := BP {
  current_ballot : option ScpBallot;
  prepared : option ScpBallot;
  prepared_prime : option ScpBallot;
  high_ballot : option ScpBallot;
  commit : option ScpBallot;
  phase : BallotPhase;
  latest_envelopes : gmap NodeId ScpEnvelope;
  value_override : option Value;
  composite_candidate : option Value;
  heard_from_quorum : bool;
  current_message_level : Z;
  last_envelope : option ScpEnvelope;
  last_envelope_emit : option ScpEnvelope;
  fully_validated : bool;
  needs_stop_nomination : bool;
  needs_clear_slot_validation : bool;
  timer_exp_count : Z
}.

(** Assignments to one field. *)
Definition put_current_ballot (x : option ScpBallot) (s : BallotProtocol) : BallotProtocol :=
  BP x (prepared s) (prepared_prime s) (high_ballot s) (commit s) (phase s) (latest_envelopes s) (value_override s) (composite_candidate s) (heard_from_quorum s) (current_message_level s) (last_envelope s) (last_envelope_emit s) (fully_validated s) (needs_stop_nomination s) (needs_clear_slot_validation s) (timer_exp_count s).
Definition put_prepared (x : option ScpBallot) (s : BallotProtocol) : BallotProtocol :=
  BP (current_ballot s) x (prepared_prime s) (high_ballot s) (commit s) (phase s) (latest_envelopes s) (value_override s) (composite_candidate s) (heard_from_quorum s) (current_message_level s) (last_envelope s) (last_envelope_emit s) (fully_validated s) (needs_stop_nomination s) (needs_clear_slot_validation s) (timer_exp_count s).
Definition put_prepared_prime (x : option ScpBallot) (s : BallotProtocol) : BallotProtocol :=
  BP (current_ballot s) (prepared s) x (high_ballot s) (commit s) (phase s) (latest_envelopes s) (value_override s) (composite_candidate s) (heard_from_quorum s) (current_message_level s) (last_envelope s) (last_envelope_emit s) (fully_validated s) (needs_stop_nomination s) (needs_clear_slot_validation s) (timer_exp_count s).
Definition put_high_ballot (x : option ScpBallot) (s : BallotProtocol) : BallotProtocol :=
  BP (current_ballot s) (prepared s) (prepared_prime s) x (commit s) (phase s) (latest_envelopes s) (value_override s) (composite_candidate s) (heard_from_quorum s) (current_message_level s) (last_envelope s) (last_envelope_emit s) (fully_validated s) (needs_stop_nomination s) (needs_clear_slot_validation s) (timer_exp_count s).
Definition put_commit (x : option ScpBallot) (s : BallotProtocol) : BallotProtocol :=
  BP (current_ballot s) (prepared s) (prepared_prime s) (high_ballot s) x (phase s) (latest_envelopes s) (value_override s) (composite_candidate s) (heard_from_quorum s) (current_message_level s) (last_envelope s) (last_envelope_emit s) (fully_validated s) (needs_stop_nomination s) (needs_clear_slot_validation s) (timer_exp_count s).
Definition put_phase (x : BallotPhase) (s : BallotProtocol) : BallotProtocol :=
  BP (current_ballot s) (prepared s) (prepared_prime s) (high_ballot s) (commit s) x (latest_envelopes s) (value_override s) (composite_candidate s) (heard_from_quorum s) (current_message_level s) (last_envelope s) (last_envelope_emit s) (fully_validated s) (needs_stop_nomination s) (needs_clear_slot_validation s) (timer_exp_count s).
Definition put_latest_envelopes (x : gmap NodeId ScpEnvelope) (s : BallotProtocol) : BallotProtocol :=
  BP (current_ballot s) (prepared s) (prepared_prime s) (high_ballot s) (commit s) (phase s) x (value_override s) (composite_candidate s) (heard_from_quorum s) (current_message_level s) (last_envelope s) (last_envelope_emit s) (fully_validated s) (needs_stop_nomination s) (needs_clear_slot_validation s) (timer_exp_count s).
Definition put_value_override (x : option Value) (s : BallotProtocol) : BallotProtocol :=
  BP (current_ballot s) (prepared s) (prepared_prime s) (high_ballot s) (commit s) (phase s) (latest_envelopes s) x (composite_candidate s) (heard_from_quorum s) (current_message_level s) (last_envelope s) (last_envelope_emit s) (fully_validated s) (needs_stop_nomination s) (needs_clear_slot_validation s) (timer_exp_count s).
Definition put_composite_candidate (x : option Value) (s : BallotProtocol) : BallotProtocol :=
  BP (current_ballot s) (prepared s) (prepared_prime s) (high_ballot s) (commit s) (phase s) (latest_envelopes s) (value_override s) x (heard_from_quorum s) (current_message_level s) (last_envelope s) (last_envelope_emit s) (fully_validated s) (needs_stop_nomination s) (needs_clear_slot_validation s) (timer_exp_count s).
Definition put_heard_from_quorum (x : bool) (s : BallotProtocol) : BallotProtocol :=
  BP (current_ballot s) (prepared s) (prepared_prime s) (high_ballot s) (commit s) (phase s) (latest_envelopes s) (value_override s) (composite_candidate s) x (current_message_level s) (last_envelope s) (last_envelope_emit s) (fully_validated s) (needs_stop_nomination s) (needs_clear_slot_validation s) (timer_exp_count s).
Definition put_current_message_level (x : Z) (s : BallotProtocol) : BallotProtocol :=
  BP (current_ballot s) (prepared s) (prepared_prime s) (high_ballot s) (commit s) (phase s) (latest_envelopes s) (value_override s) (composite_candidate s) (heard_from_quorum s) x (last_envelope s) (last_envelope_emit s) (fully_validated s) (needs_stop_nomination s) (needs_clear_slot_validation s) (timer_exp_count s).
Definition put_last_envelope (x : option ScpEnvelope) (s : BallotProtocol) : BallotProtocol :=
  BP (current_ballot s) (prepared s) (prepared_prime s) (high_ballot s) (commit s) (phase s) (latest_envelopes s) (value_override s) (composite_candidate s) (heard_from_quorum s) (current_message_level s) x (last_envelope_emit s) (fully_validated s) (needs_stop_nomination s) (needs_clear_slot_validation s) (timer_exp_count s).
Definition put_last_envelope_emit (x : option ScpEnvelope) (s : BallotProtocol) : BallotProtocol :=
  BP (current_ballot s) (prepared s) (prepared_prime s) (high_ballot s) (commit s) (phase s) (latest_envelopes s) (value_override s) (composite_candidate s) (heard_from_quorum s) (current_message_level s) (last_envelope s) x (fully_validated s) (needs_stop_nomination s) (needs_clear_slot_validation s) (timer_exp_count s).
Definition put_fully_validated (x : bool) (s : BallotProtocol) : BallotProtocol :=
  BP (current_ballot s) (prepared s) (prepared_prime s) (high_ballot s) (commit s) (phase s) (latest_envelopes s) (value_override s) (composite_candidate s) (heard_from_quorum s) (current_message_level s) (last_envelope s) (last_envelope_emit s) x (needs_stop_nomination s) (needs_clear_slot_validation s) (timer_exp_count s).
Definition put_needs_stop_nomination (x : bool) (s : BallotProtocol) : BallotProtocol :=
  BP (current_ballot s) (prepared s) (prepared_prime s) (high_ballot s) (commit s) (phase s) (latest_envelopes s) (value_override s) (composite_candidate s) (heard_from_quorum s) (current_message_level s) (last_envelope s) (last_envelope_emit s) (fully_validated s) x (needs_clear_slot_validation s) (timer_exp_count s).
Definition put_needs_clear_slot_validation (x : bool) (s : BallotProtocol) : BallotProtocol :=
  BP (current_ballot s) (prepared s) (prepared_prime s) (high_ballot s) (commit s) (phase s) (latest_envelopes s) (value_override s) (composite_candidate s) (heard_from_quorum s) (current_message_level s) (last_envelope s) (last_envelope_emit s) (fully_validated s) (needs_stop_nomination s) x (timer_exp_count s).
Definition put_timer_exp_count (x : Z) (s : BallotProtocol) : BallotProtocol :=
  BP (current_ballot s) (prepared s) (prepared_prime s) (high_ballot s) (commit s) (phase s) (latest_envelopes s) (value_override s) (composite_candidate s) (heard_from_quorum s) (current_message_level s) (last_envelope s) (last_envelope_emit s) (fully_validated s) (needs_stop_nomination s) (needs_clear_slot_validation s) x.

Definition BallotProtocol_new : BallotProtocol :=
  BP None None None None None PhasePrepare ∅ None None false 0 None None true false false 0.

Abbreviation BM := (M DriverEvent BallotProtocol).

(** ** Readers *)

(** [is_externalized]. *)
Definition is_externalized (s : BallotProtocol) : bool := bool_decide (phase s = PhaseExternalize).

Definition get_externalized_value (s : BallotProtocol) : option Value :=
  if bool_decide (phase s = PhaseExternalize)
  then match current_ballot s with Some b => Some (value b) | None => None end
  else None.

(** The broken invariants [check_invariants] reports. *)
Inductive InvariantError : Type :=
| RequiresCurrentBallot | RequiresPrepared | RequiresCommit | RequiresHighBallot
| CounterZero | PreparedPrimeNotBelow | HighWithoutCurrent | HighNotBelowCurrent
| CommitWithoutHigh | CommitWithoutCurrent | CommitNotBelowHigh.

Definition check_phase (s : BallotProtocol) : result unit InvariantError :=
  match phase s with
  | PhasePrepare => Ok tt
  | PhaseConfirm | PhaseExternalize =>
      match current_ballot s, prepared s, commit s, high_ballot s with
      | None, _, _, _ => Err RequiresCurrentBallot
      | _, None, _, _ => Err RequiresPrepared
      | _, _, None, _ => Err RequiresCommit
      | _, _, _, None => Err RequiresHighBallot
      | _, _, _, _ => Ok tt
      end
  end.

Definition check_counter (s : BallotProtocol) : result unit InvariantError :=
  match current_ballot s with
  | Some cb => if counter cb =? 0 then Err CounterZero else Ok tt
  | None => Ok tt
  end.

Definition check_prepared (s : BallotProtocol) : result unit InvariantError :=
  match prepared s, prepared_prime s with
  | Some p, Some pp =>
      if are_ballots_less_and_incompatible pp p then Ok tt else Err PreparedPrimeNotBelow
  | _, _ => Ok tt
  end.

Definition check_high (s : BallotProtocol) : result unit InvariantError :=
  match high_ballot s with
  | None => Ok tt
  | Some high =>
      match current_ballot s with
      | None => Err HighWithoutCurrent
      | Some cb => if are_ballots_less_and_compatible high cb then Ok tt else Err HighNotBelowCurrent
      end
  end.

Definition check_commit (s : BallotProtocol) : result unit InvariantError :=
  match commit s with
  | None => Ok tt
  | Some c =>
      match high_ballot s with
      | None => Err CommitWithoutHigh
      | Some high =>
          match current_ballot s with
          | None => Err CommitWithoutCurrent
          | Some cb =>
              if negb (are_ballots_less_and_compatible c high) then Err CommitNotBelowHigh
              else if negb (are_ballots_less_and_compatible high cb) then Err HighNotBelowCurrent
              else Ok tt
          end
      end
  end.

(** [r1 ?; r2]. *)
Definition and_then {E} (r1 r2 : result unit E) : result unit E :=
  match r1 with Ok _ => r2 | Err e => Err e end.

Definition check_invariants (s : BallotProtocol) : result unit InvariantError :=
  and_then (check_phase s)
    (and_then (check_counter s)
      (and_then (check_prepared s) (and_then (check_high s) (check_commit s)))).

Definition statement_value_matches_commit (s : BallotProtocol) (st : ScpStatement) : bool :=
  match commit s with
  | None => false
  | Some c =>
      match pledges st with
      | Prepare prep => bool_decide (value c = value (prep_ballot prep))
      | Confirm conf => bool_decide (value c = value (conf_ballot conf))
      | Externalize ext => bool_decide (value c = value (ext_commit ext))
      | Nominate _ => false
      end
  end.

Definition is_ballot_pledge (p : ScpStatementPledges) : bool := negb (is_nomination p).

Definition is_stale_ballot_statement (s : BallotProtocol) (st : ScpStatement) : bool :=
  if negb (is_ballot_pledge (pledges st)) then true
  else negb (is_newer_statement (latest_envelopes s) (node_id st) st).

Definition stored_ballot_summary (s : BallotProtocol) (node : NodeId) : option (BallotPhase * Z) :=
  match latest_envelopes s !! node with
  | Some env => ballot_summary_of (pledges (statement env))
  | None => None
  end.

(** [get_externalizing_state], in the order of the map. *)
Definition get_externalizing_state (s : BallotProtocol) (local : NodeId) (full : bool)
    : list ScpEnvelope :=
  if negb (is_externalized s) then []
  else
    match commit s with
    | None => []
    | Some c =>
        omap (fun kv : NodeId * ScpEnvelope =>
          if negb (bool_decide (kv.1 = local)) then
            match get_working_ballot (statement kv.2) with
            | Some working => if ballot_compatible working c then Some kv.2 else None
            | None => None
            end
          else if full then Some kv.2 else None)
          (map_to_list (latest_envelopes s))
    end.

Definition counter_or_zero (b : option ScpBallot) : Z :=
  match b with Some b => counter b | None => 0 end.

Section operations.
Context `{XdrHash} `{SCPDriver} (ctx : SlotContext).

(** ** Emission *)

Definition send_latest_envelope : BM unit :=
  s <- get ;;
  if negb (current_message_level s =? 0) then ret tt
  else if negb (fully_validated s) then ret tt
  else
    match last_envelope s with
    | None => ret tt
    | Some envelope =>
        if bool_decide (last_envelope_emit s = Some envelope) then ret tt
        else modify (put_last_envelope_emit (Some envelope)) ;; tell (EmitEnvelope envelope)
    end.

Definition create_signed_envelope (p : ScpStatementPledges) : ScpStatement * ScpEnvelope :=
  let st := Statement (local_node_id ctx) (ctx_slot_index ctx) p in
  (st, sign_envelope (Envelope st [])).

(** A statement, its envelope and whether it may be sent to the network. *)
Definition emit_prepare (s : BallotProtocol) : option (ScpStatement * ScpEnvelope * bool) :=
  let can_emit := match current_ballot s with Some _ => true | None => false end in
  let ballot := match current_ballot s with Some b => b | None => Ballot 0 [] end in
  let prep := Prep (hash_quorum_set (local_quorum_set ctx)) ballot (prepared s) (prepared_prime s)
    (counter_or_zero (commit s)) (counter_or_zero (high_ballot s)) in
  Some (create_signed_envelope (Prepare prep), can_emit).

Definition emit_confirm (s : BallotProtocol) : option (ScpStatement * ScpEnvelope * bool) :=
  match current_ballot s with
  | None => None
  | Some ballot =>
      let conf := Conf ballot (counter_or_zero (prepared s)) (counter_or_zero (commit s))
        (counter_or_zero (high_ballot s)) (hash_quorum_set (local_quorum_set ctx)) in
      Some (create_signed_envelope (Confirm conf), true)
  end.

Definition emit_externalize (s : BallotProtocol) : option (ScpStatement * ScpEnvelope * bool) :=
  match commit s with
  | None => None
  | Some c =>
      let ext := Ext c (counter_or_zero (high_ballot s)) (hash_quorum_set (local_quorum_set ctx)) in
      Some (create_signed_envelope (Externalize ext), true)
  end.

(** Recording the node's own envelope. *)
Definition record_self (envelope : ScpEnvelope) (can_emit : bool) : BM unit :=
  modify (fun s => put_latest_envelopes
    (<[local_node_id ctx := envelope]> (latest_envelopes s)) s) ;;
  when can_emit (modify (put_last_envelope (Some envelope))).

Definition emit_current_state (advance_slot : ScpStatement -> BM EnvelopeState) : BM unit :=
  s <- get ;;
  match
    match phase s with
    | PhasePrepare => emit_prepare s
    | PhaseConfirm => emit_confirm s
    | PhaseExternalize => emit_externalize s
    end
  with
  | None => ret tt
  | Some (st, envelope, can_emit) =>
      if negb (is_statement_sane st ctx) then ret tt
      else if negb (is_newer_statement (latest_envelopes s) (local_node_id ctx) st) then ret tt
      else
        let validation := validate_statement_values st (ctx_slot_index ctx) in
        if bool_decide (validation = Invalid) then ret tt
        else if negb (bool_decide (phase s = PhaseExternalize)) then
          when (clears_fully_validated validation)
            (modify (put_fully_validated false) ;; modify (put_needs_clear_slot_validation true)) ;;
          record_self envelope can_emit ;;
          advance_slot st ;;
          send_latest_envelope
        else if negb (statement_value_matches_commit s st) then ret tt
        else
          record_self envelope can_emit ;;
          send_latest_envelope
  end.

(** ** Ballot updates *)

Definition bump_to_ballot (ballot : ScpBallot) (check : bool) : BM bool :=
  s <- get ;;
  if check && match current_ballot s with
              | Some current => negb (bool_decide (ballot_compare ballot current = Gt))
              | None => false
              end
  then ret false
  else
    let got_bumped :=
      match current_ballot s with
      | None => true
      | Some current => negb (counter current =? counter ballot)
      end in
    when (bool_decide (current_ballot s = None))
      (tell (StartedBallotProtocol (ctx_slot_index ctx) ballot)) ;;
    modify (put_current_ballot (Some ballot)) ;;
    when (match high_ballot s with
          | Some high => negb (ballot_compatible ballot high)
          | None => false
          end)
      (modify (put_high_ballot None) ;; modify (put_commit None)) ;;
    when got_bumped (modify (put_heard_from_quorum false)) ;;
    ret true.

Definition update_current_if_needed (ballot : ScpBallot) : BM bool :=
  s <- get ;;
  if match current_ballot s with
     | Some b => bool_decide (ballot_compare b ballot = Lt)
     | None => true
     end
  then bump_to_ballot ballot true
  else ret false.

Definition update_current_value (ballot : ScpBallot) : BM bool :=
  s <- get ;;
  if negb (bool_decide (phase s = PhasePrepare)) && negb (bool_decide (phase s = PhaseConfirm))
  then ret false
  else
    match current_ballot s with
    | None => bump_to_ballot ballot true ;; ret true
    | Some current =>
        if match commit s with Some c => negb (ballot_compatible c ballot) | None => false end
        then ret false
        else
          match ballot_compare current ballot with
          | Lt => bump_to_ballot ballot true
          | _ => ret false
          end
    end.

Definition check_heard_from_quorum : BM unit :=
  s <- get ;;
  match current_ballot s with
  | None => ret tt
  | Some current =>
      let include st :=
        match pledges st with
        | Prepare prep => counter current <=? counter (prep_ballot prep)
        | Confirm _ | Externalize _ => true
        | Nominate _ => false
        end in
      let nodes := nodes_where include (latest_envelopes s) in
      let get_qs n :=
        match latest_envelopes s !! n with
        | Some env => if include (statement env) then statement_quorum_set (statement env) ctx else None
        | None => None
        end in
      if is_quorum (local_quorum_set ctx) nodes get_qs then
        let old := heard_from_quorum s in
        modify (put_heard_from_quorum true) ;;
        when (negb old)
          (tell (BallotDidHearFromQuorum (ctx_slot_index ctx) current) ;;
           when (negb (is_externalized s))
             (tell (SetupTimer (ctx_slot_index ctx) BallotTimer
                      (compute_timeout (counter current) false)))) ;;
        when (is_externalized s) (tell (StopTimer (ctx_slot_index ctx) BallotTimer))
      else
        modify (put_heard_from_quorum false) ;;
        tell (StopTimer (ctx_slot_index ctx) BallotTimer)
  end.

(** ** The transitions

    [emit] is [emit_current_state]. *)
Section transitions.
Context (emit : BM unit).

Definition set_prepared (ballot : ScpBallot) : BM bool :=
  s <- get ;;
  match prepared s with
  | Some current_prepared =>
      match ballot_compare current_prepared ballot with
      | Lt =>
          when (negb (ballot_compatible current_prepared ballot))
            (modify (put_prepared_prime (Some current_prepared))) ;;
          tell (BallotDidPrepare (ctx_slot_index ctx) ballot) ;;
          modify (put_prepared (Some ballot)) ;;
          ret true
      | Gt =>
          let should_update_prime :=
            match prepared_prime s with
            | None => true
            | Some prime =>
                bool_decide (ballot_compare prime ballot = Lt)
                && negb (ballot_compatible current_prepared ballot)
            end in
          if should_update_prime then
            tell (BallotDidPrepare (ctx_slot_index ctx) ballot) ;;
            modify (put_prepared_prime (Some ballot)) ;;
            ret true
          else ret false
      | Eq => ret false
      end
  | None =>
      tell (BallotDidPrepare (ctx_slot_index ctx) ballot) ;;
      modify (put_prepared (Some ballot)) ;;
      ret true
  end.

Definition set_accept_prepared (ballot : ScpBallot) : BM bool :=
  did_work <- set_prepared ballot ;;
  s <- get ;;
  match commit s, high_ballot s with
  | Some _, None => ret did_work
  | Some _, Some high =>
      let incompatible :=
        map_or false (are_ballots_less_and_incompatible high) (prepared s)
        || map_or false (are_ballots_less_and_incompatible high) (prepared_prime s) in
      when incompatible (modify (put_commit None)) ;;
      let did_work := did_work || incompatible in
      when did_work emit ;;
      ret did_work
  | None, _ =>
      when did_work emit ;;
      ret did_work
  end.

(** The tests of the loop of [attempt_accept_prepared] that skip a candidate. *)
Definition skip_candidate (s : BallotProtocol) (ballot : ScpBallot) : bool :=
  (bool_decide (phase s = PhaseConfirm)
   && map_or false (fun p => negb (are_ballots_less_and_compatible p ballot)) (prepared s))
  || map_or false (fun pp => negb (bool_decide (ballot_compare ballot pp = Gt))) (prepared_prime s)
  || map_or false (are_ballots_less_and_compatible ballot) (prepared s).

(** The loop of [attempt_accept_prepared]. *)
Fixpoint accept_prepared_loop (candidates : list ScpBallot) : BM bool :=
  match candidates with
  | [] => ret false
  | ballot :: rest =>
      s <- get ;;
      if skip_candidate s ballot then accept_prepared_loop rest
      else if federated_accept (statement_votes_for_ballot ballot)
                (has_prepared_ballot ballot) (latest_envelopes s) ctx
      then
        accepted <- set_accept_prepared ballot ;;
        if accepted : bool then ret true else accept_prepared_loop rest
      else accept_prepared_loop rest
  end.

Definition attempt_accept_prepared (hint : ScpStatement) : BM bool :=
  s <- get ;;
  if is_externalized s then ret false
  else accept_prepared_loop (reverse (get_prepare_candidates (latest_envelopes s) hint)).

(** The loop of [find_highest_confirmed_prepared], from the last candidate
    down; the index of a candidate is the number of those below it. *)
Fixpoint highest_confirmed (s : BallotProtocol) (rev_candidates : list ScpBallot)
    : option (ScpBallot * nat) :=
  match rev_candidates with
  | [] => None
  | ballot :: rest =>
      if map_or false (fun high => negb (bool_decide (ballot_compare high ballot = Lt))) (high_ballot s)
      then None
      else if federated_ratify (has_prepared_ballot ballot) (latest_envelopes s) ctx
      then Some (ballot, length rest)
      else highest_confirmed s rest
  end.

Definition find_highest_confirmed_prepared (s : BallotProtocol) (candidates : list ScpBallot)
    : option (ScpBallot * nat) :=
  highest_confirmed s (reverse candidates).

(** The loop of [find_lowest_commit_ballot]. *)
Fixpoint lowest_commit (s : BallotProtocol) (current new_h new_c : ScpBallot)
    (rev_candidates : list ScpBallot) : ScpBallot :=
  match rev_candidates with
  | [] => new_c
  | ballot :: rest =>
      if bool_decide (ballot_compare ballot current = Lt) then new_c
      else if negb (are_ballots_less_and_compatible ballot new_h)
      then lowest_commit s current new_h new_c rest
      else if federated_ratify (has_prepared_ballot ballot) (latest_envelopes s) ctx
      then lowest_commit s current new_h ballot rest
      else new_c
  end.

Definition find_lowest_commit_ballot (s : BallotProtocol) (candidates : list ScpBallot)
    (new_h_ballot : ScpBallot) (new_h_index : nat) : ScpBallot :=
  let new_c := Ballot 0 (value new_h_ballot) in
  let current :=
    match current_ballot s with Some b => b | None => Ballot 0 (value new_h_ballot) end in
  let can_set_commit :=
    bool_decide (commit s = None)
    && map_or true (fun p => negb (are_ballots_less_and_incompatible new_h_ballot p)) (prepared s)
    && map_or true (fun p => negb (are_ballots_less_and_incompatible new_h_ballot p)) (prepared_prime s) in
  if can_set_commit
  then lowest_commit s current new_h_ballot new_c (reverse (take (S new_h_index) candidates))
  else new_c.

(** The block of [set_confirm_prepared] under compatible ballots: whether it
    raised the high ballot or set the commit ballot. *)
Definition raise_high_and_commit (new_c new_h : ScpBallot) : BM bool :=
  s <- get ;;
  let raise_h :=
    map_or true (fun b => bool_decide (ballot_compare new_h b = Gt)) (high_ballot s) in
  when raise_h (modify (put_high_ballot (Some new_h))) ;;
  let set_c := negb (counter new_c =? 0) && bool_decide (commit s = None) in
  when set_c (modify (put_commit (Some new_c))) ;;
  when (raise_h || set_c) (tell (BallotDidConfirm (ctx_slot_index ctx) new_h)) ;;
  ret (raise_h || set_c).

Definition set_confirm_prepared (new_c new_h : ScpBallot) : BM bool :=
  modify (put_value_override (Some (value new_h))) ;;
  s <- get ;;
  did_work <-
    (if map_or true (fun b => ballot_compatible b new_h) (current_ballot s)
     then raise_high_and_commit new_c new_h
     else ret false) ;;
  updated <- update_current_if_needed new_h ;;
  let did_work := updated || did_work in
  when did_work emit ;;
  ret did_work.

Definition attempt_confirm_prepared (hint : ScpStatement) : BM bool :=
  s <- get ;;
  if negb (bool_decide (phase s = PhasePrepare)) then ret false
  else if bool_decide (prepared s = None) then ret false
  else
    let candidates := get_prepare_candidates (latest_envelopes s) hint in
    match find_highest_confirmed_prepared s candidates with
    | None => ret false
    | Some (new_h, new_h_index) =>
        let new_c := find_lowest_commit_ballot s candidates new_h new_h_index in
        set_confirm_prepared new_c new_h
    end.

(** The block of [set_accept_commit] that leaves the prepare phase. *)
Definition enter_confirm (h : ScpBallot) : BM unit :=
  s <- get ;;
  modify (put_phase PhaseConfirm) ;;
  when (map_or false (fun current => negb (are_ballots_less_and_compatible h current))
          (current_ballot s))
    (bump_to_ballot h false ;; ret tt) ;;
  modify (put_prepared_prime None).

Definition set_accept_commit (c h : ScpBallot) : BM bool :=
  modify (put_value_override (Some (value h))) ;;
  s <- get ;;
  let changed :=
    map_or true (fun b => negb (bool_decide (ballot_compare b h = Eq))) (high_ballot s)
    || map_or true (fun b => negb (bool_decide (ballot_compare b c = Eq))) (commit s) in
  when changed (modify (put_commit (Some c)) ;; modify (put_high_ballot (Some h))) ;;
  let enters_confirm := bool_decide (phase s = PhasePrepare) in
  when enters_confirm (enter_confirm h) ;;
  let did_work := changed || enters_confirm in
  when did_work
    (update_current_if_needed h ;;
     tell (AcceptedCommit (ctx_slot_index ctx) h) ;;
     emit) ;;
  ret did_work.

Definition attempt_accept_commit (hint : ScpStatement) : BM bool :=
  s <- get ;;
  if is_externalized s then ret false
  else
    match hint_ballot_for_commit hint with
    | None => ret false
    | Some ballot =>
        if bool_decide (phase s = PhaseConfirm)
           && map_or false (fun high => negb (ballot_compatible ballot high)) (high_ballot s)
        then ret false
        else
          let boundaries := get_commit_boundaries_from_statements ballot (latest_envelopes s) in
          if bool_decide (boundaries = ∅) then ret false
          else
            let candidate := find_extended_interval (0, 0) boundaries (fun interval =>
              federated_accept (statement_votes_commit ballot interval)
                (commit_predicate ballot interval) (latest_envelopes s) ctx) in
            if candidate.1 =? 0 then ret false
            else if negb (bool_decide (phase s = PhaseConfirm))
                    || (counter_or_zero (high_ballot s) <? candidate.2)
            then set_accept_commit (Ballot candidate.1 (value ballot))
                   (Ballot candidate.2 (value ballot))
            else ret false
    end.

Definition set_confirm_commit (c h : ScpBallot) : BM bool :=
  update_current_if_needed h ;;
  modify (put_commit (Some c)) ;;
  modify (put_high_ballot (Some h)) ;;
  modify (put_phase PhaseExternalize) ;;
  emit ;;
  modify (put_needs_stop_nomination true) ;;
  s <- get ;;
  match commit s with
  | Some c => tell (ValueExternalized (ctx_slot_index ctx) (value c)) ;; ret true
  | None => panic
  end.

Definition attempt_confirm_commit (hint : ScpStatement) : BM bool :=
  s <- get ;;
  if negb (bool_decide (phase s = PhaseConfirm)) then ret false
  else
    match high_ballot s, commit s with
    | Some _, Some c0 =>
        if match pledges hint with Prepare _ => true | _ => false end then ret false
        else
          match hint_ballot_for_commit hint with
          | None => ret false
          | Some ballot =>
              if negb (ballot_compatible ballot c0) then ret false
              else
                let boundaries :=
                  get_commit_boundaries_from_statements ballot (latest_envelopes s) in
                let candidate := find_extended_interval (0, 0) boundaries (fun interval =>
                  federated_ratify (commit_predicate ballot interval) (latest_envelopes s) ctx) in
                if candidate.1 =? 0 then ret false
                else set_confirm_commit (Ballot candidate.1 (value ballot))
                       (Ballot candidate.2 (value ballot))
          end
    | _, _ => ret false
    end.

Definition bump_state (v : Value) (n : Z) : BM bool :=
  s <- get ;;
  if negb (bool_decide (phase s = PhasePrepare)) && negb (bool_decide (phase s = PhaseConfirm))
  then ret false
  else
    let effective_value := match value_override s with Some o => o | None => v end in
    updated <- update_current_value (Ballot n effective_value) ;;
    if updated : bool then
      emit ;;
      check_heard_from_quorum ;;
      ret true
    else ret false.

Definition abandon_ballot (n : Z) : BM bool :=
  s <- get ;;
  let v :=
    match composite_candidate s with
    | Some ((_ :: _) as v) => Some v
    | _ => value <$> current_ballot s
    end in
  match v with
  | Some v =>
      if n =? 0 then
        bump_state v (map_or 1 (fun b => u32_wrapping_add (counter b) 1) (current_ballot s))
      else bump_state v n
  | None => ret false
  end.

Definition attempt_bump : BM bool :=
  s <- get ;;
  if is_externalized s then ret false
  else
    let local_counter := counter_or_zero (current_ballot s) in
    if negb (has_vblocking_subset_strictly_ahead_of local_counter (latest_envelopes s) ctx)
    then ret false
    else
      let counters : gset Z :=
        list_to_set (filter (fun n => local_counter < n)
          (map statement_ballot_counter (statements_of (latest_envelopes s)))) in
      match
        List.find (fun n => negb (has_vblocking_subset_strictly_ahead_of n (latest_envelopes s) ctx))
          (btree_elements counters)
      with
      | Some n => abandon_ballot n
      | None => ret false
      end.

(** The loop of [advance_slot]: whether some turn bumped.  Every turn that
    bumps leaves a phase or raises the counter, so [1 + 2 ^ 34] turns are
    more than there can be. *)
Definition bump_loop : BM bool :=
  bumped <- attempt_bump ;;
  if bumped : bool then
    more <- repeat_pow 34 attempt_bump ;;
    if more : bool then no_fuel else ret true
  else ret false.
End transitions.

(** [advance_slot] and the nested calls it makes while the node processes its
    own statements, [fuel] deep. *)
Fixpoint advance_slot_depth (fuel : nat) (hint : ScpStatement) : BM EnvelopeState :=
  match fuel with
  | O => no_fuel
  | S fuel =>
      let emit := emit_current_state (advance_slot_depth fuel) in
      modify (fun s => put_current_message_level
        (u32_saturating_add (current_message_level s) 1) s) ;;
      s <- get ;;
      if MAX_PROTOCOL_TRANSITIONS <=? current_message_level s then panic
      else
        w1 <- attempt_accept_prepared emit hint ;;
        w2 <- attempt_confirm_prepared emit hint ;;
        w3 <- attempt_accept_commit emit hint ;;
        w4 <- attempt_confirm_commit emit hint ;;
        s <- get ;;
        w5 <- (if current_message_level s =? 1 then
                 bumped <- bump_loop emit ;;
                 check_heard_from_quorum ;;
                 ret bumped
               else ret false) ;;
        modify (fun s => put_current_message_level
          (u32_saturating_sub (current_message_level s) 1) s) ;;
        if w1 || w2 || w3 || w4 || w5 then
          send_latest_envelope ;;
          ret EnvValidNew
        else ret EnvValid
  end.

(** The message level bounds the depth. *)
Definition advance_slot : ScpStatement -> BM EnvelopeState :=
  advance_slot_depth (Z.to_nat MAX_PROTOCOL_TRANSITIONS).

(** ** Entry points *)

Definition emit_state : BM unit := emit_current_state advance_slot.

(** [bump]: starts the protocol with a value from nomination. *)
Definition bump (v : Value) (force : bool) : BM bool :=
  s <- get ;;
  if negb force && negb (bool_decide (current_ballot s = None)) then ret false
  else
    bump_state emit_state v
      (map_or 1 (fun current => u32_wrapping_add (counter current) 1) (current_ballot s)).

Definition bump_timeout (composite : option Value) : BM bool :=
  modify (fun s => put_timer_exp_count (u32_saturating_add (timer_exp_count s) 1) s) ;;
  modify (put_composite_candidate composite) ;;
  abandon_ballot emit_state 0.

Definition process_envelope (envelope : ScpEnvelope) (validation : ValidationLevel)
    : BM EnvelopeState :=
  let node := node_id (statement envelope) in
  if negb (is_ballot_pledge (pledges (statement envelope))) then ret EnvInvalid
  else
    s <- get ;;
    if negb (is_newer_statement (latest_envelopes s) node (statement envelope))
    then ret EnvInvalid
    else if is_externalized s then
      if statement_value_matches_commit s (statement envelope) then
        modify (fun s => put_latest_envelopes (<[node := envelope]> (latest_envelopes s)) s) ;;
        ret EnvValid
      else ret EnvInvalid
    else
      when (clears_fully_validated validation) (modify (put_fully_validated false)) ;;
      modify (fun s => put_latest_envelopes (<[node := envelope]> (latest_envelopes s)) s) ;;
      advance_slot (statement envelope).

(** [set_state_from_envelope]: restores the state after a crash. *)
Definition set_state_from_envelope (envelope : ScpEnvelope) : BM (result unit unit) :=
  s <- get ;;
  if negb (bool_decide (current_ballot s = None)) then ret (Err tt)
  else
    match pledges (statement envelope) with
    | Prepare prep =>
        let v := value (prep_ballot prep) in
        bump_to_ballot (prep_ballot prep) true ;;
        modify (put_prepared (prep_prepared prep)) ;;
        modify (put_prepared_prime (prep_prepared_prime prep)) ;;
        when (negb (prep_n_c prep =? 0)) (modify (put_commit (Some (Ballot (prep_n_c prep) v)))) ;;
        when (negb (prep_n_h prep =? 0)) (modify (put_high_ballot (Some (Ballot (prep_n_h prep) v)))) ;;
        modify (put_phase PhasePrepare)
    | Confirm conf =>
        let v := value (conf_ballot conf) in
        bump_to_ballot (conf_ballot conf) true ;;
        modify (put_prepared (Some (Ballot (conf_n_prepared conf) v))) ;;
        modify (put_prepared_prime None) ;;
        modify (put_commit (Some (Ballot (conf_n_commit conf) v))) ;;
        modify (put_high_ballot (Some (Ballot (conf_n_h conf) v))) ;;
        modify (put_phase PhaseConfirm)
    | Externalize ext =>
        let v := value (ext_commit ext) in
        modify (put_commit (Some (ext_commit ext))) ;;
        modify (put_high_ballot (Some (Ballot (ext_n_h ext) v))) ;;
        bump_to_ballot (Ballot u32_max v) true ;;
        modify (put_prepared (Some (Ballot u32_max v))) ;;
        modify (put_phase PhaseExternalize)
    | Nominate _ => panic
    end ;;
    modify (fun s => put_latest_envelopes
      (<[node_id (statement envelope) := envelope]> (latest_envelopes s)) s) ;;
    modify (put_last_envelope (Some envelope)) ;;
    modify (put_last_envelope_emit (Some envelope)) ;;
    ret (Ok tt).
End operations.

(** [force_externalize]: fast-forwarding to a value the network has externalized. *)
Definition force_externalize (v : Value) : BM unit :=
  let ballot := Ballot u32_max v in
  modify (put_commit (Some ballot)) ;;
  modify (put_high_ballot (Some ballot)) ;;
  modify (put_current_ballot (Some ballot)) ;;
  modify (put_phase PhaseExternalize).

Definition take_needs_stop_nomination : BM bool :=
  s <- get ;;
  modify (put_needs_stop_nomination false) ;;
  ret (needs_stop_nomination s).

Definition take_needs_clear_slot_validation : BM bool :=
  s <- get ;;
  modify (put_needs_clear_slot_validation false) ;;
  ret (needs_clear_slot_validation s).

Definition set_composite_candidate (v : option Value) : BM unit :=
  modify (put_composite_candidate v).

Definition set_fully_validated (b : bool) : BM unit := modify (put_fully_validated b).

(** ** Reports *)

Definition process_current_state {T} (s : BallotProtocol) (f : ScpEnvelope -> T -> bool * T)
    (local : NodeId) (fully_validated force_self : bool) (t : T) : bool * T :=
  process_envelopes_current_state (latest_envelopes s) f local fully_validated force_self t.

Definition get_node_state (s : BallotProtocol) (node : NodeId) : QuorumInfoNodeState :=
  match latest_envelopes s !! node with
  | Some envelope => from_pledges (pledges (statement envelope))
  | None => NodeMissing
  end.

Definition get_reporting_state (s : BallotProtocol) (node local : NodeId)
    (self_already_moved_on : bool) : ReportingNodeState :=
  if bool_decide (node = local) then ReportAgree
  else
    match latest_envelopes s !! node with
    | None =>
        if (NUM_TIMEOUTS_THRESHOLD_FOR_REPORTING <=? timer_exp_count s) || self_already_moved_on
        then ReportMissing else ReportNoInfo
    | Some env =>
        match last_envelope_emit s with
        | None => ReportAgree
        | Some last_emit =>
            let p := pledges (statement env) in
            let externalized := match p with Externalize _ => true | _ => false end in
            let confirmed_commit :=
              match p with Confirm c => counter (conf_ballot c) =? u32_max | _ => false end in
            let state :=
              if is_externalized s && (negb externalized || negb confirmed_commit)
                 && self_already_moved_on
              then ReportDelayed else ReportAgree in
            let self_accepted_confirm :=
              bool_decide (phase s = PhaseConfirm) || is_externalized s in
            let other_accepted_confirm :=
              match p with Confirm _ | Externalize _ => true | _ => false end in
            if self_accepted_confirm && other_accepted_confirm then
              match get_working_ballot (statement env), get_working_ballot (statement last_emit) with
              | Some other_b, Some self_b =>
                  if negb (ballot_compatible other_b self_b) then ReportDisagree else state
              | _, _ => state
              end
            else state
        end
    end.
