(* ===== verification/Nomination.v ===== *)
(** * The nomination protocol

    Models [crates/scp/src/nomination.rs]: the values voted for, accepted and
    confirmed in one slot, the election of the round leaders, and the processing
    of the nominations of the peers and of the node itself.  Processing its own
    nomination may change the node's state and emit again: [emit_nomination]
    recurses, to a depth the number of votes bounds. *)

From S2P Require Import Prelude Types Quorum Statements.

Record NominationProtocol : Type := NP {
  round : Z;
  votes : list Value;
  accepted : list Value;
  candidates : gset (list Z);
  started : bool;
  stopped : bool;
  latest_composite : option Value;
  previous_value : option Value;
  timer_exp_count : Z;
  latest_nominations : gmap NodeId ScpEnvelope;
  round_leaders : gset NodeId;
  last_envelope : option ScpEnvelope;
  last_envelope_emit : option ScpEnvelope;
  fully_validated : bool
}.

(** Assignments to one field. *)
Definition put_round (x : Z) (s : NominationProtocol) : NominationProtocol :=
  NP x (votes s) (accepted s) (candidates s) (started s) (stopped s) (latest_composite s) (previous_value s) (timer_exp_count s) (latest_nominations s) (round_leaders s) (last_envelope s) (last_envelope_emit s) (fully_validated s).
Definition put_votes (x : list Value) (s : NominationProtocol) : NominationProtocol :=
  NP (round s) x (accepted s) (candidates s) (started s) (stopped s) (latest_composite s) (previous_value s) (timer_exp_count s) (latest_nominations s) (round_leaders s) (last_envelope s) (last_envelope_emit s) (fully_validated s).
Definition put_accepted (x : list Value) (s : NominationProtocol) : NominationProtocol :=
  NP (round s) (votes s) x (candidates s) (started s) (stopped s) (latest_composite s) (previous_value s) (timer_exp_count s) (latest_nominations s) (round_leaders s) (last_envelope s) (last_envelope_emit s) (fully_validated s).
Definition put_candidates (x : gset (list Z)) (s : NominationProtocol) : NominationProtocol :=
  NP (round s) (votes s) (accepted s) x (started s) (stopped s) (latest_composite s) (previous_value s) (timer_exp_count s) (latest_nominations s) (round_leaders s) (last_envelope s) (last_envelope_emit s) (fully_validated s).
Definition put_started (x : bool) (s : NominationProtocol) : NominationProtocol :=
  NP (round s) (votes s) (accepted s) (candidates s) x (stopped s) (latest_composite s) (previous_value s) (timer_exp_count s) (latest_nominations s) (round_leaders s) (last_envelope s) (last_envelope_emit s) (fully_validated s).
Definition put_stopped (x : bool) (s : NominationProtocol) : NominationProtocol :=
  NP (round s) (votes s) (accepted s) (candidates s) (started s) x (latest_composite s) (previous_value s) (timer_exp_count s) (latest_nominations s) (round_leaders s) (last_envelope s) (last_envelope_emit s) (fully_validated s).
Definition put_latest_composite (x : option Value) (s : NominationProtocol) : NominationProtocol :=
  NP (round s) (votes s) (accepted s) (candidates s) (started s) (stopped s) x (previous_value s) (timer_exp_count s) (latest_nominations s) (round_leaders s) (last_envelope s) (last_envelope_emit s) (fully_validated s).
Definition put_previous_value (x : option Value) (s : NominationProtocol) : NominationProtocol :=
  NP (round s) (votes s) (accepted s) (candidates s) (started s) (stopped s) (latest_composite s) x (timer_exp_count s) (latest_nominations s) (round_leaders s) (last_envelope s) (last_envelope_emit s) (fully_validated s).
Definition put_timer_exp_count (x : Z) (s : NominationProtocol) : NominationProtocol :=
  NP (round s) (votes s) (accepted s) (candidates s) (started s) (stopped s) (latest_composite s) (previous_value s) x (latest_nominations s) (round_leaders s) (last_envelope s) (last_envelope_emit s) (fully_validated s).
Definition put_latest_nominations (x : gmap NodeId ScpEnvelope) (s : NominationProtocol) : NominationProtocol :=
  NP (round s) (votes s) (accepted s) (candidates s) (started s) (stopped s) (latest_composite s) (previous_value s) (timer_exp_count s) x (round_leaders s) (last_envelope s) (last_envelope_emit s) (fully_validated s).
Definition put_round_leaders (x : gset NodeId) (s : NominationProtocol) : NominationProtocol :=
  NP (round s) (votes s) (accepted s) (candidates s) (started s) (stopped s) (latest_composite s) (previous_value s) (timer_exp_count s) (latest_nominations s) x (last_envelope s) (last_envelope_emit s) (fully_validated s).
Definition put_last_envelope (x : option ScpEnvelope) (s : NominationProtocol) : NominationProtocol :=
  NP (round s) (votes s) (accepted s) (candidates s) (started s) (stopped s) (latest_composite s) (previous_value s) (timer_exp_count s) (latest_nominations s) (round_leaders s) x (last_envelope_emit s) (fully_validated s).
Definition put_last_envelope_emit (x : option ScpEnvelope) (s : NominationProtocol) : NominationProtocol :=
  NP (round s) (votes s) (accepted s) (candidates s) (started s) (stopped s) (latest_composite s) (previous_value s) (timer_exp_count s) (latest_nominations s) (round_leaders s) (last_envelope s) x (fully_validated s).
Definition put_fully_validated (x : bool) (s : NominationProtocol) : NominationProtocol :=
  NP (round s) (votes s) (accepted s) (candidates s) (started s) (stopped s) (latest_composite s) (previous_value s) (timer_exp_count s) (latest_nominations s) (round_leaders s) (last_envelope s) (last_envelope_emit s) x.

Definition NominationProtocol_new : NominationProtocol :=
  NP 0 [] [] ∅ false false None None 0 ∅ ∅ None None true.

Abbreviation NM := (M DriverEvent NominationProtocol).

(** ** Values *)

(** The ascending elements of a [BTreeSet<Value>]. *)
Definition btree_values (s : gset (list Z)) : list Value :=
  merge_sort (cmp_le value_compare) (elements s).

Definition value_set (values : list Value) : gset (list Z) := list_to_set values.

Definition is_newer_nomination (old_nom new_nom : ScpNomination) : bool :=
  let old_votes := value_set (nom_votes old_nom) in
  let old_accepted := value_set (nom_accepted old_nom) in
  let new_votes := value_set (nom_votes new_nom) in
  let new_accepted := value_set (nom_accepted new_nom) in
  let votes_grew :=
    bool_decide (old_votes ⊆ new_votes) && bool_decide (size old_votes < size new_votes)%nat in
  let accepted_grew :=
    bool_decide (old_accepted ⊆ new_accepted)
    && bool_decide (size old_accepted < size new_accepted)%nat in
  (bool_decide (old_votes ⊆ new_votes) && bool_decide (old_accepted ⊆ new_accepted))
  && (votes_grew || accepted_grew).

(** [values.windows(2).all(|w| w[0] < w[1])]. *)
Fixpoint is_sorted_unique (values : list Value) : bool :=
  match values with
  | x :: (y :: _) as rest => bool_decide (value_compare x y = Lt) && is_sorted_unique rest
  | _ => true
  end.

Definition is_sane_statement (nomination : ScpNomination) : bool :=
  if bool_decide (nom_votes nomination = []) && bool_decide (nom_accepted nomination = [])
  then false
  else is_sorted_unique (nom_votes nomination) && is_sorted_unique (nom_accepted nomination).

(** [sorted_values] is the same sort and [dedup] as for ballot statements. *)
Definition sorted_values (values : list Value) : list Value := sort_dedup_values values.

Definition insert_unique (values : list Value) (v : Value) : bool * list Value :=
  if bool_decide (v ∈ values) then (false, values) else (true, values ++ [v]).

(** Inserting into the votes or the accepted values of the state. *)
Definition insert_vote (v : Value) : NM bool :=
  s <- get ;;
  let '(inserted, votes) := insert_unique (votes s) v in
  modify (put_votes votes) ;;
  ret inserted.
Definition insert_accepted (v : Value) : NM bool :=
  s <- get ;;
  let '(inserted, accepted) := insert_unique (accepted s) v in
  modify (put_accepted accepted) ;;
  ret inserted.

(** ** The latest nominations *)

(** [is_newer_nomination_internal]. *)
Definition is_newer_nomination_internal (s : NominationProtocol) (node : NodeId)
    (nomination : ScpNomination) : bool :=
  match latest_nominations s !! node with
  | None => true
  | Some existing =>
      match pledges (statement existing) with
      | Nominate existing_nom => is_newer_nomination existing_nom nomination
      | _ => true
      end
  end.

Definition is_newer_statement (s : NominationProtocol) (node : NodeId) (st : ScpStatement) : bool :=
  match pledges st with
  | Nominate nomination => is_newer_nomination_internal s node nomination
  | _ => false
  end.

(** [get_nodes_with_value]. *)
Definition names_value (v : Value) (field : ScpNomination -> list Value) (st : ScpStatement) : bool :=
  match pledges st with
  | Nominate nom => bool_decide (v ∈ field nom)
  | _ => false
  end.
Definition get_nodes_with_value (s : NominationProtocol) (v : Value)
    (field : ScpNomination -> list Value) : gset NodeId :=
  nodes_where (names_value v field) (latest_nominations s).

(** [for_all_nodes]: [f] on every validator, level by level. *)
Fixpoint for_all_nodes {T} (f : NodeId -> T -> T) (q : ScpQuorumSet) (t : T) : T :=
  match q with
  | QuorumSet _ validators inner_sets =>
      let t := fold_left (fun t node => f node t) validators t in
      fold_left (fun t inner => for_all_nodes f inner t) inner_sets t
  end.

Section operations.
Context `{XdrHash} `{SCPDriver} (ctx : SlotContext).

(** ** Federated voting on values *)

Definition nomination_quorum_set (node : NodeId) (st : ScpStatement) : option ScpQuorumSet :=
  match pledges st with
  | Nominate nom =>
      match get_quorum_set_by_hash (nom_quorum_set_hash nom) with
      | Some qs => Some qs
      | None =>
          match get_quorum_set node with
          | Some qs =>
              if bool_decide (hash_quorum_set qs = nom_quorum_set_hash nom) then Some qs else None
          | None => None
          end
      end
  | _ => None
  end.

Definition nomination_quorum_set_map (s : NominationProtocol) : gmap NodeId ScpQuorumSet :=
  let map :=
    map_imap (fun node envelope => nomination_quorum_set node (statement envelope))
      (latest_nominations s) in
  match map !! local_node_id ctx with
  | Some _ => map
  | None => <[local_node_id ctx := local_quorum_set ctx]> map
  end.

Definition should_accept_value (s : NominationProtocol) (v : Value) : bool :=
  let voters := get_nodes_with_value s v nom_votes in
  let acceptors := get_nodes_with_value s v nom_accepted in
  let supporters := voters ∪ acceptors in
  let qsets := nomination_quorum_set_map s in
  is_v_blocking (local_quorum_set ctx) acceptors
  || is_quorum (local_quorum_set ctx) supporters (fun n => qsets !! n).

Definition should_ratify_value (s : NominationProtocol) (v : Value) : bool :=
  let acceptors := get_nodes_with_value s v nom_accepted in
  let qsets := nomination_quorum_set_map s in
  is_quorum (local_quorum_set ctx) acceptors (fun n => qsets !! n).

(** ** Choosing a value *)

Definition hash_value (s : NominationProtocol) (v : Value) : Z :=
  let prev := match previous_value s with Some p => p | None => v end in
  compute_value_hash (ctx_slot_index ctx) prev (round s) v.

(** What can be voted for instead of [v]: itself when fully valid. *)
Definition valid_candidate (v : Value) : option Value :=
  match validate_value (ctx_slot_index ctx) v true with
  | FullyValidated => Some v
  | _ => extract_valid_value (ctx_slot_index ctx) v
  end.

(** The closure [consider_value] on [(found_valid, best)]. *)
Definition consider_value (s : NominationProtocol) (acc : bool * option (Z * Value)) (v : Value)
    : bool * option (Z * Value) :=
  let '(found_valid, best) := acc in
  match valid_candidate v with
  | None => acc
  | Some candidate =>
      if bool_decide (candidate ∈ votes s) then (true, best)
      else
        let hash := hash_value s candidate in
        match best with
        | None => (true, Some (hash, candidate))
        | Some (best_hash, _) =>
            if best_hash <=? hash then (true, Some (hash, candidate)) else (true, best)
        end
  end.

Definition get_new_value_from_nomination (s : NominationProtocol) (nomination : ScpNomination)
    : option Value :=
  let acc := fold_left (consider_value s) (nom_accepted nomination) (false, None) in
  let acc := if acc.1 then acc else fold_left (consider_value s) (nom_votes nomination) acc in
  snd <$> acc.2.

(** ** Round leaders *)

Definition get_node_priority (s : NominationProtocol) (q : ScpQuorumSet) (prev_value : Value)
    (node : NodeId) : Z :=
  let is_local := bool_decide (node = local_node_id ctx) in
  let weight := get_node_weight node q is_local in
  if weight =? 0 then 0
  else
    let hash := compute_hash_node (ctx_slot_index ctx) prev_value false (round s) node in
    if hash <=? weight then compute_hash_node (ctx_slot_index ctx) prev_value true (round s) node
    else 0.

(** The closure over [(top_priority, new_leaders)]. *)
Definition consider_leader (priority : NodeId -> Z) (node : NodeId) (acc : Z * gset NodeId)
    : Z * gset NodeId :=
  let '(top_priority, new_leaders) := acc in
  let p := priority node in
  let '(top_priority, new_leaders) :=
    if top_priority <? p then (p, ∅) else (top_priority, new_leaders) in
  if (p =? top_priority) && (0 <? p) then (top_priority, {[node]} ∪ new_leaders)
  else (top_priority, new_leaders).

(** The leaders of one round of the loop. *)
Definition new_leaders (s : NominationProtocol) (q : ScpQuorumSet) (prev_value : Value)
    : gset NodeId :=
  let priority := get_node_priority s q prev_value in
  let '(top_priority, leaders) :=
    for_all_nodes (consider_leader priority) q
      (priority (local_node_id ctx), {[local_node_id ctx]}) in
  if top_priority =? 0 then ∅ else leaders.

Definition max_leader_count (q : ScpQuorumSet) : Z :=
  let count := if 0 <? get_node_weight (local_node_id ctx) q true then 1 else 0 in
  for_all_nodes (fun node count => if 0 <? get_node_weight node q false then count + 1 else count)
    q count.

(** The [while] loop; [iterations_remaining] counts down to the panic. *)
Fixpoint leaders_loop (q : ScpQuorumSet) (prev_value : Value) (max_count : Z)
    (iterations_remaining : nat) : NM unit :=
  s <- get ;;
  if Z.of_nat (size (round_leaders s)) <? max_count then
    let old_size := size (round_leaders s) in
    let leaders := round_leaders s ∪ new_leaders s q prev_value in
    modify (put_round_leaders leaders) ;;
    if negb (bool_decide (size leaders = old_size)) then ret tt
    else
      modify (fun s => put_round (u32_saturating_add (round s) 1) s) ;;
      match iterations_remaining with
      | O | S O => panic
      | S iterations_remaining => leaders_loop q prev_value max_count iterations_remaining
      end
  else ret tt.

Definition update_round_leaders (prev_value : Value) : NM unit :=
  let q := normalize_quorum_set_with_remove (Some (local_node_id ctx)) (local_quorum_set ctx) in
  leaders_loop q prev_value (max_leader_count q) 1000.

(** ** Promotion *)

(** The first loop of [attempt_promote]: whether votes or accepted values changed. *)
Fixpoint promote_votes (values : list Value) : NM bool :=
  match values with
  | [] => ret false
  | v :: rest =>
      s <- get ;;
      modified <-
        (if bool_decide (v ∈ accepted s) then ret false
         else if negb (should_accept_value s v) then ret false
         else
           match validate_value (ctx_slot_index ctx) v true with
           | FullyValidated =>
               inserted <- insert_accepted v ;;
               if inserted : bool then insert_vote v ;; ret true else ret false
           | _ =>
               match extract_valid_value (ctx_slot_index ctx) v with
               | Some extracted => insert_vote extracted
               | None => ret false
               end
           end) ;;
      more <- promote_votes rest ;;
      ret (modified || more)
  end.

(** The second loop: whether there are new candidates. *)
Fixpoint promote_accepted (values : list Value) : NM bool :=
  match values with
  | [] => ret false
  | v :: rest =>
      s <- get ;;
      inserted <-
        (if bool_decide (v ∈ candidates s) then ret false
         else if should_ratify_value s v then
           modify (put_candidates ({[v]} ∪ candidates s)) ;;
           tell (StopTimer (ctx_slot_index ctx) NominationTimer) ;;
           ret true
         else ret false) ;;
      more <- promote_accepted rest ;;
      ret (inserted || more)
  end.

Definition attempt_promote (votes_to_check : list Value) : NM (bool * bool) :=
  modified <- promote_votes votes_to_check ;;
  s <- get ;;
  new_candidates <- promote_accepted (accepted s) ;;
  ret (modified, new_candidates).

Definition update_composite : NM unit :=
  s <- get ;;
  if bool_decide (candidates s = ∅) then ret tt
  else
    match combine_candidates (ctx_slot_index ctx) (btree_values (candidates s)) with
    | Some composite =>
        if bool_decide (latest_composite s = Some composite) then ret tt
        else
          tell (UpdatedCandidateValue (ctx_slot_index ctx) composite) ;;
          modify (put_latest_composite (Some composite))
    | None => ret tt
    end.

(** ** Emission *)

(** The node's nomination and its signed envelope. *)
Definition own_nomination (s : NominationProtocol) : ScpNomination :=
  Nomination (hash_quorum_set (local_quorum_set ctx)) (sorted_values (votes s))
    (sorted_values (accepted s)).
Definition own_envelope (nomination : ScpNomination) : ScpEnvelope :=
  sign_envelope
    (Envelope (Statement (local_node_id ctx) (ctx_slot_index ctx) (Nominate nomination)) []).

Definition record_local_nomination (nomination : ScpNomination) (envelope : ScpEnvelope) : NM bool :=
  s <- get ;;
  if negb (is_newer_nomination_internal s (local_node_id ctx) nomination) then ret false
  else
    modify (put_latest_nominations (<[local_node_id ctx := envelope]> (latest_nominations s))) ;;
    ret true.

(** The last step of [emit_nomination]. *)
Definition send_if_newer (nomination : ScpNomination) (envelope : ScpEnvelope) : NM unit :=
  s <- get ;;
  let is_newer :=
    match last_envelope s with
    | None => true
    | Some last =>
        match pledges (statement last) with
        | Nominate last_nom => is_newer_nomination last_nom nomination
        | _ => true
        end
    end in
  when is_newer
    (modify (put_last_envelope (Some envelope)) ;;
     s <- get ;;
     when (fully_validated s && negb (bool_decide (last_envelope_emit s = Some envelope)))
       (modify (put_last_envelope_emit (Some envelope)) ;;
        tell (EmitEnvelope envelope))).

(** [emit_nomination] and the emissions nested in it, [fuel] deep. *)
Fixpoint emit_nomination_depth (fuel : nat) : NM unit :=
  match fuel with
  | O => no_fuel
  | S fuel =>
      s <- get ;;
      let nomination := own_nomination s in
      let envelope := own_envelope nomination in
      if negb (is_newer_nomination_internal s (local_node_id ctx) nomination) then ret tt
      else if negb (is_sane_statement nomination) then ret tt
      else
        recorded <- record_local_nomination nomination envelope ;;
        if negb recorded then ret tt
        else
          s <- get ;;
          when (started s)
            (promoted <- attempt_promote (nom_votes nomination) ;;
             when promoted.1 (emit_nomination_depth fuel) ;;
             when promoted.2 update_composite) ;;
          send_if_newer nomination envelope
  end.

(** Every nested emission follows a new vote or accepted value, and all come
    from the votes and the values extracted from them. *)
Definition emit_nomination : NM unit :=
  s <- get ;;
  emit_nomination_depth (S (4 * length (votes s))).

Definition emit_deferred : NM unit :=
  s <- get ;;
  if negb (fully_validated s) then ret tt
  else
    match last_envelope s with
    | Some env =>
        if bool_decide (last_envelope_emit s = Some env) then ret tt
        else modify (put_last_envelope_emit (Some env)) ;; tell (EmitEnvelope env)
    | None => ret tt
    end.

(** ** Entry points *)

(** Votes for [v] and tells the driver, if it is new. *)
Definition vote_new (v : Value) : NM bool :=
  inserted <- insert_vote v ;;
  when inserted (tell (NominatingValue (ctx_slot_index ctx) v)) ;;
  ret inserted.

(** The loop of [adopt_leader_values]. *)
Fixpoint adopt_values (leaders : list NodeId) : NM bool :=
  match leaders with
  | [] => ret false
  | leader :: rest =>
      s <- get ;;
      updated <-
        match latest_nominations s !! leader with
        | Some env =>
            match pledges (statement env) with
            | Nominate nom =>
                match get_new_value_from_nomination s nom with
                | Some new_vote => vote_new new_vote
                | None => ret false
                end
            | _ => ret false
            end
        | None => ret false
        end ;;
      more <- adopt_values rest ;;
      ret (updated || more)
  end.

Definition adopt_leader_values : NM bool :=
  s <- get ;;
  adopt_values (btree_elements (round_leaders s)).

Definition vote_as_leader (v : Value) : NM bool :=
  s <- get ;;
  if negb (bool_decide (local_node_id ctx ∈ round_leaders s)) then ret false
  else
    let over_upgrade_timeout_limit := get_upgrade_nomination_timeout_limit <=? timer_exp_count s in
    let all_votes_have_upgrades := forallb has_upgrades (votes s) in
    let '(should_vote_for_value, vote_value) :=
      if over_upgrade_timeout_limit && all_votes_have_upgrades then
        (true, match strip_all_upgrades v with Some stripped => stripped | None => v end)
      else (bool_decide (votes s = []), v) in
    if should_vote_for_value then
      if bool_decide (validate_value (ctx_slot_index ctx) vote_value true = Invalid)
      then ret false
      else vote_new vote_value
    else ret false.

Definition nominate (v prev_value : Value) (timedout : bool) : NM bool :=
  s <- get ;;
  if stopped s then ret false
  else if negb (bool_decide (candidates s = ∅)) then ret false
  else
    when timedout
      (modify (fun s => put_timer_exp_count (u32_saturating_add (timer_exp_count s) 1) s)) ;;
    if timedout && negb (started s) then ret false
    else
      modify (put_started true) ;;
      modify (put_previous_value (Some prev_value)) ;;
      modify (fun s => put_round (u32_saturating_add (round s) 1) s) ;;
      update_round_leaders prev_value ;;
      adopted <- adopt_leader_values ;;
      voted <- vote_as_leader v ;;
      let updated := voted || adopted in
      when updated emit_nomination ;;
      ret updated.

(** Taking a vote of a round leader while there is no candidate. *)
Definition take_leader_vote (node : NodeId) (nomination : ScpNomination) : NM bool :=
  s <- get ;;
  if bool_decide (candidates s = ∅) && bool_decide (node ∈ round_leaders s) then
    match get_new_value_from_nomination s nomination with
    | Some new_vote => vote_new new_vote
    | None => ret false
    end
  else ret false.

Definition process_envelope (envelope : ScpEnvelope) : NM EnvelopeState :=
  let node := node_id (statement envelope) in
  match pledges (statement envelope) with
  | Nominate nomination =>
      s <- get ;;
      if negb (is_newer_nomination_internal s node nomination) then ret EnvInvalid
      else if negb (is_sane_statement nomination) then ret EnvInvalid
      else
        modify (fun s => put_latest_nominations (<[node := envelope]> (latest_nominations s)) s) ;;
        if started s then
          promoted <- attempt_promote (nom_votes nomination) ;;
          taken <- take_leader_vote node nomination ;;
          let modified := promoted.1 || taken in
          when modified emit_nomination ;;
          when promoted.2 update_composite ;;
          ret (if modified || promoted.2 then EnvValidNew else EnvValid)
        else ret EnvValid
  | _ => ret EnvInvalid
  end.

Definition set_state_from_envelope (envelope : ScpEnvelope) : NM bool :=
  s <- get ;;
  if started s then ret false
  else
    match pledges (statement envelope) with
    | Nominate nomination =>
        modify (put_votes (nom_votes nomination)) ;;
        modify (put_accepted (nom_accepted nomination)) ;;
        modify (put_latest_nominations
          (<[node_id (statement envelope) := envelope]> (latest_nominations s))) ;;
        modify (put_last_envelope (Some envelope)) ;;
        ret true
    | _ => ret false
    end.
End operations.

Definition stop : NM unit := modify (put_stopped true) ;; modify (put_started false).

Definition set_fully_validated (b : bool) : NM unit := modify (put_fully_validated b).

(** ** Reports *)

Definition get_node_state (s : NominationProtocol) (node : NodeId) : QuorumInfoNodeState :=
  match latest_nominations s !! node with Some _ => NodeNominating | None => NodeMissing end.

Definition get_reporting_state (s : NominationProtocol) (node local : NodeId)
    (self_already_moved_on : bool) : ReportingNodeState :=
  if bool_decide (node = local) then ReportAgree
  else
    let enough_time :=
      (NUM_TIMEOUTS_THRESHOLD_FOR_REPORTING <=? timer_exp_count s) || self_already_moved_on in
    match latest_nominations s !! node with
    | None => if enough_time then ReportMissing else ReportNoInfo
    | Some other_env =>
        match last_envelope s with
        | Some last_env =>
            if negb enough_time then ReportAgree
            else
              match pledges (statement other_env), pledges (statement last_env) with
              | Nominate other, Nominate mine =>
                  let is_subset :=
                    forallb (fun v => bool_decide (v ∈ nom_accepted mine)) (nom_accepted other) in
                  let not_equal := negb (len (nom_accepted other) =? len (nom_accepted mine)) in
                  if is_subset then if not_equal then ReportDelayed else ReportAgree
                  else ReportDisagree
              | _, _ => ReportAgree
              end
        | None => ReportAgree
        end
    end.

Definition process_current_state {T} (s : NominationProtocol) (f : ScpEnvelope -> T -> bool * T)
    (local : NodeId) (fully_validated force_self : bool) (t : T) : bool * T :=
  process_envelopes_current_state (latest_nominations s) f local fully_validated force_self t.
