(* ===== verification/Slot.v ===== *)
(** * Slots

    Models [crates/scp/src/slot.rs]: one slot holds a nomination protocol and a
    ballot protocol, routes envelopes and calls to them, moves from the one to
    the other and keeps the flags they share.  The calls of a method of a field
    are [zoom]ed operations of that field. *)

From S2P Require Import Prelude Types Quorum Statements.
From S2P Require Nomination Ballot.

Abbreviation NominationProtocol := Nomination.NominationProtocol.
Abbreviation BallotProtocol := Ballot.BallotProtocol.

(** The first field stands for [slot_index], [local_node_id] and
    [local_quorum_set], which never change: what [slot_ctx!] passes down. *)
Record Slot : Type := MkSlot {
  slot_ctx : SlotContext;
  is_validator : bool;
  nomination : NominationProtocol;
  ballot : BallotProtocol;
  envelopes : gmap NodeId (list ScpEnvelope);
  externalized_value : option Value;
  nomination_started : bool;
  slot_fully_validated : bool;
  got_v_blocking : bool
}.

(** Assignments to one field. *)
Definition put_slot_ctx (x : SlotContext) (s : Slot) : Slot :=
  MkSlot x (is_validator s) (nomination s) (ballot s) (envelopes s) (externalized_value s) (nomination_started s) (slot_fully_validated s) (got_v_blocking s).
Definition put_is_validator (x : bool) (s : Slot) : Slot :=
  MkSlot (slot_ctx s) x (nomination s) (ballot s) (envelopes s) (externalized_value s) (nomination_started s) (slot_fully_validated s) (got_v_blocking s).
Definition put_nomination (x : NominationProtocol) (s : Slot) : Slot :=
  MkSlot (slot_ctx s) (is_validator s) x (ballot s) (envelopes s) (externalized_value s) (nomination_started s) (slot_fully_validated s) (got_v_blocking s).
Definition put_ballot (x : BallotProtocol) (s : Slot) : Slot :=
  MkSlot (slot_ctx s) (is_validator s) (nomination s) x (envelopes s) (externalized_value s) (nomination_started s) (slot_fully_validated s) (got_v_blocking s).
Definition put_envelopes (x : gmap NodeId (list ScpEnvelope)) (s : Slot) : Slot :=
  MkSlot (slot_ctx s) (is_validator s) (nomination s) (ballot s) x (externalized_value s) (nomination_started s) (slot_fully_validated s) (got_v_blocking s).
Definition put_externalized_value (x : option Value) (s : Slot) : Slot :=
  MkSlot (slot_ctx s) (is_validator s) (nomination s) (ballot s) (envelopes s) x (nomination_started s) (slot_fully_validated s) (got_v_blocking s).
Definition put_nomination_started (x : bool) (s : Slot) : Slot :=
  MkSlot (slot_ctx s) (is_validator s) (nomination s) (ballot s) (envelopes s) (externalized_value s) x (slot_fully_validated s) (got_v_blocking s).
Definition put_slot_fully_validated (x : bool) (s : Slot) : Slot :=
  MkSlot (slot_ctx s) (is_validator s) (nomination s) (ballot s) (envelopes s) (externalized_value s) (nomination_started s) x (got_v_blocking s).
Definition put_got_v_blocking (x : bool) (s : Slot) : Slot :=
  MkSlot (slot_ctx s) (is_validator s) (nomination s) (ballot s) (envelopes s) (externalized_value s) (nomination_started s) (slot_fully_validated s) x.

Definition Slot_new (ctx : SlotContext) (validator : bool) : Slot :=
  MkSlot ctx validator
    (Nomination.put_fully_validated validator Nomination.NominationProtocol_new)
    (Ballot.put_fully_validated validator Ballot.BallotProtocol_new)
    ∅ None false validator false.

Abbreviation SM := (M DriverEvent Slot).

(** Calls of the two protocols. *)
Definition on_nomination {A} (m : M DriverEvent NominationProtocol A) : SM A :=
  zoom nomination put_nomination m.
Definition on_ballot {A} (m : M DriverEvent BallotProtocol A) : SM A := zoom ballot put_ballot m.

(** ** Readers *)

Definition slot_is_externalized (s : Slot) : bool :=
  match externalized_value s with Some _ => true | None => false end.

Definition has_latest_message_from (s : Slot) (node : NodeId) : bool :=
  bool_decide (is_Some (Ballot.latest_envelopes (ballot s) !! node))
  || bool_decide (is_Some (Nomination.latest_nominations (nomination s) !! node)).

Definition has_active_ballot (s : Slot) : bool :=
  match Ballot.current_ballot (ballot s) with Some _ => true | None => false end.

Definition is_nominating (s : Slot) : bool :=
  nomination_started s && negb (Nomination.stopped (nomination s)).

Definition get_statement_count (s : Slot) : Z :=
  foldr Z.add 0 (map (fun kv => len kv.2) (map_to_list (envelopes s))).

Definition get_latest_envelope (s : Slot) (node : NodeId) : option ScpEnvelope :=
  match Ballot.latest_envelopes (ballot s) !! node with
  | Some env => Some env
  | None => Nomination.latest_nominations (nomination s) !! node
  end.

Definition get_latest_messages_send (s : Slot) : list ScpEnvelope :=
  if negb (slot_fully_validated s) then []
  else option_list (Nomination.last_envelope (nomination s))
       ++ option_list (Ballot.last_envelope (ballot s)).

Definition get_externalizing_state (s : Slot) : list ScpEnvelope :=
  Ballot.get_externalizing_state (ballot s) (local_node_id (slot_ctx s)) (slot_fully_validated s).

Definition process_current_state {T} (s : Slot) (f : ScpEnvelope -> T -> bool * T)
    (force_self : bool) (t : T) : bool * T :=
  let local := local_node_id (slot_ctx s) in
  let '(continue, t) :=
    Nomination.process_current_state (nomination s) f local (slot_fully_validated s) force_self t in
  if continue
  then Ballot.process_current_state (ballot s) f local (slot_fully_validated s) force_self t
  else (false, t).

Definition get_node_state (s : Slot) (node : NodeId) : QuorumInfoNodeState :=
  let ballot_state := Ballot.get_node_state (ballot s) node in
  if negb (bool_decide (ballot_state = NodeMissing)) then ballot_state
  else Nomination.get_node_state (nomination s) node.

Definition get_reporting_state (s : Slot) (node local : NodeId) (self_already_moved_on : bool)
    : ReportingNodeState :=
  let b := Ballot.get_reporting_state (ballot s) node local self_already_moved_on in
  if negb (bool_decide (b = ReportNoInfo)) then b
  else Nomination.get_reporting_state (nomination s) node local self_already_moved_on.

Definition get_all_node_states (s : Slot) : gmap NodeId QuorumInfoNodeState :=
  set_to_map (fun node => (node, get_node_state s node))
    (get_all_nodes (local_quorum_set (slot_ctx s))).

(** The quorum flags of [get_quorum_info]. *)
Definition responding_nodes (s : Slot) : gset NodeId :=
  dom (filter (fun kv : NodeId * QuorumInfoNodeState => kv.2 <> NodeMissing) (get_all_node_states s)).
Definition quorum_reached (s : Slot) : bool :=
  is_quorum_slice (local_quorum_set (slot_ctx s)) (responding_nodes s).
Definition v_blocking_reached (s : Slot) : bool :=
  is_v_blocking (local_quorum_set (slot_ctx s)) (responding_nodes s).

(** ** Bookkeeping *)

Definition set_fully_validated (validated : bool) : SM unit :=
  modify (put_slot_fully_validated validated) ;;
  on_nomination (Nomination.set_fully_validated validated) ;;
  on_ballot (Ballot.set_fully_validated validated).

Definition propagate_ballot_clear_slot_validation : SM unit :=
  needs_clear <- on_ballot Ballot.take_needs_clear_slot_validation ;;
  s <- get ;;
  when (needs_clear && bool_decide (externalized_value s = None))
    (modify (put_slot_fully_validated false) ;;
     on_nomination (Nomination.set_fully_validated false)).

Definition sync_externalized_value_from_ballot : SM unit :=
  s <- get ;;
  if negb (Ballot.is_externalized (ballot s)) then ret tt
  else
    match Ballot.get_externalized_value (ballot s) with
    | Some v => modify (put_externalized_value (Some v))
    | None => ret tt
    end.

Definition maybe_record_externalization : SM unit :=
  s <- get ;;
  if negb (Ballot.is_externalized (ballot s)) || slot_is_externalized s then ret tt
  else
    match Ballot.get_externalized_value (ballot s) with
    | Some _ =>
        sync_externalized_value_from_ballot ;;
        tell (StopTimer (ctx_slot_index (slot_ctx s)) NominationTimer) ;;
        tell (StopTimer (ctx_slot_index (slot_ctx s)) BallotTimer)
    | None => ret tt
    end.

Definition maybe_set_got_v_blocking : SM unit :=
  s <- get ;;
  if got_v_blocking s then ret tt
  else
    let all_nodes := get_all_nodes (local_quorum_set (slot_ctx s)) in
    let heard_nodes := filter (fun n => has_latest_message_from s n = true) all_nodes in
    modify (put_got_v_blocking (is_v_blocking (local_quorum_set (slot_ctx s)) heard_nodes)).

Definition run_post_emit_bookkeeping : SM unit :=
  propagate_ballot_clear_slot_validation ;;
  needs_stop <- on_ballot Ballot.take_needs_stop_nomination ;;
  s <- get ;;
  when needs_stop
    (on_nomination Nomination.stop ;;
     tell (StopTimer (ctx_slot_index (slot_ctx s)) NominationTimer)) ;;
  maybe_record_externalization ;;
  maybe_set_got_v_blocking.

Definition sync_composite_candidate : SM unit :=
  s <- get ;;
  on_ballot (Ballot.set_composite_candidate (Nomination.latest_composite (nomination s))).

Definition stop_nomination : SM unit :=
  s <- get ;;
  on_nomination Nomination.stop ;;
  tell (StopTimer (ctx_slot_index (slot_ctx s)) NominationTimer).

Definition force_externalize (v : Value) : SM unit :=
  modify (put_externalized_value (Some v)) ;;
  set_fully_validated true ;;
  on_nomination Nomination.stop ;;
  on_ballot (Ballot.force_externalize v).

Section operations.
Context `{XdrHash} `{SCPDriver}.

Definition restore_fully_validated : SM unit :=
  s <- get ;;
  if slot_fully_validated s then ret tt
  else
    set_fully_validated true ;;
    on_ballot Ballot.send_latest_envelope ;;
    on_nomination Nomination.emit_deferred.

Definition check_nomination_to_ballot : SM unit :=
  s <- get ;;
  if has_active_ballot s then ret tt
  else
    match Nomination.latest_composite (nomination s) with
    | Some composite =>
        tell (StopTimer (ctx_slot_index (slot_ctx s)) NominationTimer) ;;
        on_ballot (Ballot.bump (slot_ctx s) composite false) ;;
        ret tt
    | None => ret tt
    end.

Definition process_nomination_envelope (envelope : ScpEnvelope) : SM EnvelopeState :=
  s <- get ;;
  on_nomination (Nomination.process_envelope (slot_ctx s) envelope).

Definition process_ballot_envelope (envelope : ScpEnvelope) : SM EnvelopeState :=
  s <- get ;;
  let ctx := slot_ctx s in
  if negb (is_statement_sane (statement envelope) ctx) then ret EnvInvalid
  else if Ballot.is_stale_ballot_statement (ballot s) (statement envelope) then ret EnvInvalid
  else
    let validation := validate_statement_values (statement envelope) (ctx_slot_index ctx) in
    if bool_decide (validation = Invalid) then ret EnvInvalid
    else
      sync_composite_candidate ;;
      result <- on_ballot (Ballot.process_envelope ctx envelope validation) ;;
      s <- get ;;
      when (negb (bool_decide (result = EnvInvalid)) && clears_fully_validated validation
            && bool_decide (externalized_value s = None))
        (set_fully_validated false) ;;
      ret result.

Definition process_envelope (envelope : ScpEnvelope) : SM EnvelopeState :=
  let node := node_id (statement envelope) in
  result <-
    match pledges (statement envelope) with
    | Nominate _ => process_nomination_envelope envelope
    | _ => process_ballot_envelope envelope
    end ;;
  when (is_valid result)
    (modify (fun s => put_envelopes
      (<[node := default [] (envelopes s !! node) ++ [envelope]]> (envelopes s)) s)) ;;
  check_nomination_to_ballot ;;
  run_post_emit_bookkeeping ;;
  ret result.

Definition nominate (v prev_value : Value) (timedout : bool) : SM bool :=
  s <- get ;;
  if negb (is_validator s) then ret false
  else if slot_is_externalized s then ret false
  else
    modify (put_nomination_started true) ;;
    result <- on_nomination (Nomination.nominate (slot_ctx s) v prev_value timedout) ;;
    check_nomination_to_ballot ;;
    run_post_emit_bookkeeping ;;
    s <- get ;;
    let n := nomination s in
    when (Nomination.started n && negb (Nomination.stopped n)
          && bool_decide (Nomination.candidates n = ∅))
      (tell (SetupTimer (ctx_slot_index (slot_ctx s)) NominationTimer
               (compute_timeout (Nomination.round n) true))) ;;
    ret result.

Definition bump_ballot_on_timeout : SM bool :=
  s <- get ;;
  if negb (is_validator s) then ret false
  else
    tell (TimerExpired (ctx_slot_index (slot_ctx s)) BallotTimer) ;;
    result <- on_ballot (Ballot.bump_timeout (slot_ctx s) (Nomination.latest_composite (nomination s))) ;;
    run_post_emit_bookkeeping ;;
    ret result.

Definition set_state_from_envelope (envelope : ScpEnvelope) : SM bool :=
  s <- get ;;
  let st := statement envelope in
  if negb (bool_decide (node_id st = local_node_id (slot_ctx s)))
     || negb (bool_decide (slot_index st = ctx_slot_index (slot_ctx s)))
  then ret false
  else
    let prev := has_latest_message_from s (node_id st) in
    result <-
      match pledges st with
      | Nominate _ => on_nomination (Nomination.set_state_from_envelope envelope)
      | _ =>
          restored <- on_ballot (Ballot.set_state_from_envelope (slot_ctx s) envelope) ;;
          match restored with
          | Ok _ => sync_externalized_value_from_ballot ;; ret true
          | Err _ => panic
          end
      end ;;
    when (result && negb prev) maybe_set_got_v_blocking ;;
    ret result.

Definition abandon_ballot (n : Z) : SM bool :=
  sync_composite_candidate ;;
  s <- get ;;
  result <- on_ballot (Ballot.abandon_ballot (slot_ctx s) (Ballot.emit_state (slot_ctx s)) n) ;;
  run_post_emit_bookkeeping ;;
  ret result.

Definition bump_state (v : Value) (n : Z) : SM bool :=
  s <- get ;;
  result <- on_ballot (Ballot.bump_state (slot_ctx s) (Ballot.emit_state (slot_ctx s)) v n) ;;
  run_post_emit_bookkeeping ;;
  ret result.

Definition force_bump_state (v : Value) : SM bool :=
  s <- get ;;
  result <- on_ballot (Ballot.bump (slot_ctx s) v true) ;;
  run_post_emit_bookkeeping ;;
  ret result.
End operations.
