(* ===== verification/Scp.v ===== *)
(** * The coordinator of the slots

    Models [crates/scp/src/scp.rs]: the map of slots, keyed by their index, with
    one operation per call of the application.  The lock around the map is left
    out: every operation holds it from its start to its end, so that operations
    are atomic.  [HashMap] iterations whose order matters sort the keys first;
    the others are given some order here, which the results do not depend on. *)

From S2P Require Import Prelude Types Quorum Statements.
From S2P Require Nomination Ballot Slot.

Abbreviation Slot := Slot.Slot.

Definition DEFAULT_MAX_SLOTS : Z := 100.

Record SCP : Type := MkSCP {
  scp_local_node_id : NodeId;
  scp_is_validator : bool;
  scp_quorum_set : ScpQuorumSet;
  slots : gmap Z Slot;
  max_slots : Z
}.

Definition put_slots (x : gmap Z Slot) (s : SCP) : SCP :=
  MkSCP (scp_local_node_id s) (scp_is_validator s) (scp_quorum_set s) x (max_slots s).
Definition put_scp_quorum_set (x : ScpQuorumSet) (s : SCP) : SCP :=
  MkSCP (scp_local_node_id s) (scp_is_validator s) x (slots s) (max_slots s).

(** [SCP::new]. *)
Definition SCP_new (node : NodeId) (validator : bool) (q : ScpQuorumSet) : SCP :=
  MkSCP node validator (normalize_quorum_set q) ∅ DEFAULT_MAX_SLOTS.

Abbreviation CM := (M DriverEvent SCP).

Definition set_local_quorum_set (q : ScpQuorumSet) : CM unit := modify (put_scp_quorum_set q).

(** ** Slots *)

(** The slot [get_or_create_slot] inserts when there is none. *)
Definition fresh_slot (s : SCP) (i : Z) : Slot :=
  Slot.Slot_new (Ctx (scp_local_node_id s) (scp_quorum_set s) i) (scp_is_validator s).

Definition get_or_create_slot (s : SCP) (i : Z) : Slot := default (fresh_slot s i) (slots s !! i).

(** Calling a method of the slot, created when there is none. *)
Definition on_slot {A} (i : Z) (m : M DriverEvent Slot A) : CM A :=
  zoom (fun s => get_or_create_slot s i) (fun slot s => put_slots (<[i := slot]> (slots s)) s) m.

(** [if let Some(slot) = slots.get_mut(..) { .. } else { d }]. *)
Definition on_existing_slot {A} (i : Z) (d : A) (m : M DriverEvent Slot A) : CM A :=
  s <- get ;;
  match slots s !! i with
  | Some _ => on_slot i m
  | None => ret d
  end.

Definition sorted_keys (m : gmap Z Slot) : list Z := btree_elements (dom m).

Definition cleanup_old_slots : CM unit :=
  s <- get ;;
  if Z.of_nat (size (slots s)) <=? max_slots s then ret tt
  else
    let indices := sorted_keys (slots s) in
    let to_remove := len indices - max_slots s in
    modify (put_slots
      (fold_left (fun m i => delete i m) (take (Z.to_nat to_remove) indices) (slots s))).

(** The closure of [purge_slots]. *)
Definition retained (min_slot max_slot slot_to_keep : option Z) (i : Z) : bool :=
  if bool_decide (slot_to_keep = Some i) then true
  else if map_or false (fun min => i <? min) min_slot then false
  else if map_or false (fun max => max <? i) max_slot then false
  else true.

Definition purge_slots (min_slot max_slot slot_to_keep : option Z) : CM unit :=
  if bool_decide (min_slot = None) && bool_decide (max_slot = None) then ret tt
  else
    modify (fun s => put_slots
      (filter (fun kv : Z * Slot => retained min_slot max_slot slot_to_keep kv.1 = true) (slots s)) s).

Section operations.
Context `{XdrHash} `{SCPDriver}.

(** ** Operations *)

Definition receive_envelope (envelope : ScpEnvelope) : CM EnvelopeState :=
  result <- on_slot (slot_index (statement envelope)) (Slot.process_envelope envelope) ;;
  s <- get ;;
  when (max_slots s <? Z.of_nat (size (slots s))) cleanup_old_slots ;;
  ret result.

Definition nominate (i : Z) (v prev_value : Value) : CM bool :=
  s <- get ;;
  if negb (scp_is_validator s) then ret false
  else on_slot i (Slot.nominate v prev_value false).

Definition nominate_timeout (i : Z) (v prev_value : Value) : CM bool :=
  s <- get ;;
  if negb (scp_is_validator s) then ret false
  else on_existing_slot i false (Slot.nominate v prev_value true).

Definition stop_nomination (i : Z) : CM unit := on_existing_slot i tt Slot.stop_nomination.

Definition bump_ballot (i : Z) : CM bool := on_existing_slot i false Slot.bump_ballot_on_timeout.

Definition force_externalize (i : Z) (v : Value) : CM unit := on_slot i (Slot.force_externalize v).

Definition restore_slot_fully_validated (i : Z) : CM unit :=
  on_existing_slot i tt Slot.restore_fully_validated.

Definition set_state_from_envelope (envelope : ScpEnvelope) : CM bool :=
  on_slot (slot_index (statement envelope)) (Slot.set_state_from_envelope envelope).

Definition abandon_ballot (i n : Z) : CM bool := on_existing_slot i false (Slot.abandon_ballot n).

Definition bump_state (i : Z) (v : Value) (n : Z) : CM bool := on_slot i (Slot.bump_state v n).

Definition force_bump_state (i : Z) (v : Value) : CM bool := on_slot i (Slot.force_bump_state v).
End operations.

(** ** Readers *)

Definition empty (s : SCP) : bool := bool_decide (slots s = ∅).
Definition slot_count (s : SCP) : Z := Z.of_nat (size (slots s)).
Definition has_slot (s : SCP) (i : Z) : bool := bool_decide (is_Some (slots s !! i)).

(** [iter().max()]. *)
Definition max_index (l : list Z) : option Z :=
  fold_left (fun acc i => Some (map_or i (Z.max i) acc)) l None.

Definition active_slots (s : SCP) : list Z := map fst (map_to_list (slots s)).
Definition get_highest_known_slot (s : SCP) : option Z := max_index (active_slots s).
Definition highest_externalized_slot (s : SCP) : option Z :=
  max_index (map fst (List.filter (fun kv => Slot.slot_is_externalized kv.2) (map_to_list (slots s)))).

Definition get_externalized_value (s : SCP) (i : Z) : option Value :=
  slots s !! i ≫= Slot.externalized_value.
Definition is_slot_externalized (s : SCP) (i : Z) : bool :=
  map_or false Slot.slot_is_externalized (slots s !! i).
Definition is_slot_fully_validated (s : SCP) (i : Z) : bool :=
  map_or false Slot.slot_fully_validated (slots s !! i).
Definition got_v_blocking (s : SCP) (i : Z) : bool :=
  map_or false Slot.got_v_blocking (slots s !! i).
Definition get_nomination_leaders (s : SCP) (i : Z) : gset NodeId :=
  map_or ∅ (fun slot => Nomination.round_leaders (Slot.nomination slot)) (slots s !! i).
Definition get_latest_composite_candidate (s : SCP) (i : Z) : option Value :=
  slots s !! i ≫= fun slot => Nomination.latest_composite (Slot.nomination slot).
Definition get_latest_messages_send (s : SCP) (i : Z) : list ScpEnvelope :=
  map_or [] Slot.get_latest_messages_send (slots s !! i).
Definition get_externalizing_state (s : SCP) (i : Z) : list ScpEnvelope :=
  map_or [] Slot.get_externalizing_state (slots s !! i).
Definition get_slot_envelopes (s : SCP) (i : Z) : list ScpEnvelope :=
  map_or [] (fun slot => concat (map snd (map_to_list (Slot.envelopes slot)))) (slots s !! i).
Definition get_cumulative_statement_count (s : SCP) : Z :=
  foldr Z.add 0 (map (fun kv => Slot.get_statement_count kv.2) (map_to_list (slots s))).

Definition get_slot_ballot_phase (s : SCP) (i : Z) : Z :=
  match slots s !! i with
  | None => 0
  | Some slot =>
      if Slot.slot_is_externalized slot then 3
      else
        match Ballot.phase (Slot.ballot slot) with
        | PhaseExternalize => 3
        | PhaseConfirm => 2
        | PhasePrepare => if Slot.has_active_ballot slot then 1 else 0
        end
  end.

(** [SlotState]. *)
Record SlotState : Type := MkSlotState {
  st_slot_index : Z;
  st_is_externalized : bool;
  st_is_nominating : bool;
  st_heard_from_quorum : bool;
  st_ballot_phase : BallotPhase;
  st_nomination_round : Z;
  st_ballot_round : option Z;
  st_fully_validated : option bool
}.
Definition get_slot_state (s : SCP) (i : Z) : option SlotState :=
  (fun slot => MkSlotState i (Slot.slot_is_externalized slot) (Slot.is_nominating slot)
     (Ballot.heard_from_quorum (Slot.ballot slot)) (Ballot.phase (Slot.ballot slot))
     (Nomination.round (Slot.nomination slot)) (counter <$> Ballot.current_ballot (Slot.ballot slot))
     (Some (Slot.slot_fully_validated slot))) <$> slots s !! i.

(** Collecting the envelopes of a slot: the callback of [get_scp_state]. *)
Definition push_envelope (env : ScpEnvelope) (envelopes : list ScpEnvelope)
    : bool * list ScpEnvelope :=
  (true, envelopes ++ [env]).

Definition current_state (s : SCP) (i : Z) (force_self : bool) (envelopes : list ScpEnvelope)
    : list ScpEnvelope :=
  match slots s !! i with
  | Some slot => (Slot.process_current_state slot push_envelope force_self envelopes).2
  | None => envelopes
  end.

Definition get_current_state_for_slot (s : SCP) (i : Z) : list ScpEnvelope :=
  current_state s i false [].
Definition get_entire_current_state (s : SCP) (i : Z) : list ScpEnvelope :=
  current_state s i true [].

Definition get_scp_state (s : SCP) (from_slot : Z) : list ScpEnvelope :=
  fold_left (fun envelopes i => current_state s i false envelopes)
    (List.filter (fun i => from_slot <=? i) (sorted_keys (slots s))) [].

(** Visiting slots: [f] threads a state of its own and stops by answering [false]. *)
Fixpoint visit_slots {T} (f : Z -> T -> bool * T) (indices : list Z) (t : T) : bool * T :=
  match indices with
  | [] => (true, t)
  | i :: rest =>
      let '(continue, t) := f i t in
      if continue then visit_slots f rest t else (false, t)
  end.

Definition process_slots_ascending_from {T} (s : SCP) (from_slot : Z) (f : Z -> T -> bool * T) (t : T)
    : bool * T :=
  visit_slots f (List.filter (fun i => from_slot <=? i) (sorted_keys (slots s))) t.

Definition process_slots_descending_from {T} (s : SCP) (from_slot : Z) (f : Z -> T -> bool * T) (t : T)
    : bool * T :=
  visit_slots f (reverse (List.filter (fun i => i <=? from_slot) (sorted_keys (slots s)))) t.

(** The loop of [get_latest_message]. *)
Definition later_message (node : NodeId) (latest : option (Z * ScpEnvelope)) (kv : Z * Slot)
    : option (Z * ScpEnvelope) :=
  match Slot.get_latest_envelope kv.2 node with
  | Some env => if map_or true (fun l => l.1 <? kv.1) latest then Some (kv.1, env) else latest
  | None => latest
  end.
Definition get_latest_message (s : SCP) (node : NodeId) : option ScpEnvelope :=
  snd <$> fold_left (later_message node) (map_to_list (slots s)) None.

Definition is_newer_statement (s : SCP) (i : Z) (st : ScpStatement) : bool :=
  match slots s !! i with
  | Some slot =>
      match pledges st with
      | Nominate _ => Nomination.is_newer_statement (Slot.nomination slot) (node_id st) st
      | _ => Statements.is_newer_statement (Ballot.latest_envelopes (Slot.ballot slot)) (node_id st) st
      end
  | None => true
  end.

(** ** Reports *)

(** The loop of [get_reporting_state_with_lock] from [k] on. *)
Fixpoint report_from (s : SCP) (node : NodeId) (i k : Z) (remaining : nat) : ReportingNodeState :=
  match remaining with
  | O => ReportMissing
  | S remaining =>
      if i <=? k then ReportMissing
      else
        match slots s !! (i - k) with
        | Some slot =>
            let r := Slot.get_reporting_state slot node (scp_local_node_id s) (0 <? k) in
            if bool_decide (r = ReportNoInfo) then report_from s node i (k + 1) remaining else r
        | None => report_from s node i (k + 1) remaining
        end
  end.
Definition get_reporting_state_with_lock (s : SCP) (node : NodeId) (i : Z) : ReportingNodeState :=
  report_from s node i 0 (Z.to_nat NUM_SLOTS_TO_CHECK_FOR_REPORTING).

Definition get_missing_nodes (s : SCP) (i : Z) : gset NodeId :=
  match slots s !! i with
  | None => ∅
  | Some _ =>
      filter (fun n => get_reporting_state_with_lock s n i = ReportMissing)
        (get_all_nodes (scp_quorum_set s))
  end.

(** [ReportingSummary]. *)
Record ReportingSummary : Type := Summary {
  agree : Z;
  missing : Z;
  disagree : Z;
  delayed : Z;
  agreeing_nodes : gset NodeId
}.

Definition count_report (s : SCP) (i : Z) (r : ReportingSummary) (node : NodeId) : ReportingSummary :=
  match get_reporting_state_with_lock s node i with
  | ReportAgree => Summary (agree r + 1) (missing r) (disagree r) (delayed r) ({[node]} ∪ agreeing_nodes r)
  | ReportDelayed => Summary (agree r) (missing r) (disagree r) (delayed r + 1) ({[node]} ∪ agreeing_nodes r)
  | ReportDisagree => Summary (agree r) (missing r) (disagree r + 1) (delayed r) (agreeing_nodes r)
  | ReportMissing | ReportNoInfo =>
      Summary (agree r) (missing r + 1) (disagree r) (delayed r) (agreeing_nodes r)
  end.

Definition get_reporting_summary (s : SCP) (i : Z) : option ReportingSummary :=
  match slots s !! i with
  | None => None
  | Some _ =>
      Some (fold_left (count_report s i) (elements (get_all_nodes (scp_quorum_set s)))
        (Summary 0 0 0 0 ∅))
  end.
