(* ===== verification/Network.v ===== *)
(** * Operations only append to the log

    Every operation of the protocols and of the slots is [uniform]: it neither
    reads the log nor changes what is in it.  This lets a theorem about the runs
    of one slot be applied to a slot whose log is shared with others. At the end a small
    network, on which the theorems are tried. *)


From S2P Require Nomination Slot.
From S2P Require Import Prelude Types Quorum Statements Ballot.

Section ballot.
Context `{XdrHash} `{SCPDriver} (ctx : SlotContext).

Lemma send_latest_envelope_uniform : uniform send_latest_envelope.
Proof. unfold send_latest_envelope. uniform_walk. Qed.
Hint Resolve send_latest_envelope_uniform : uniform.

Lemma record_self_uniform env b : uniform (record_self ctx env b).
Proof. unfold record_self. uniform_walk. Qed.
Hint Resolve record_self_uniform : uniform.

Lemma emit_current_state_uniform adv :
  (forall st, uniform (adv st)) -> uniform (emit_current_state ctx adv).
Proof. intros Hadv. unfold emit_current_state. uniform_walk. Qed.

Lemma bump_to_ballot_uniform ballot check : uniform (bump_to_ballot ctx ballot check).
Proof. unfold bump_to_ballot. uniform_walk. Qed.
Hint Resolve bump_to_ballot_uniform : uniform.

Lemma update_current_if_needed_uniform ballot : uniform (update_current_if_needed ctx ballot).
Proof. unfold update_current_if_needed. uniform_walk. Qed.
Hint Resolve update_current_if_needed_uniform : uniform.

Lemma check_heard_from_quorum_uniform : uniform (check_heard_from_quorum ctx).
Proof. unfold check_heard_from_quorum. uniform_walk. Qed.
Hint Resolve check_heard_from_quorum_uniform : uniform.

Section transitions.
Context (emit : BM unit) (Hemit : uniform emit).
Hint Resolve Hemit : uniform.

Lemma set_accept_prepared_uniform ballot : uniform (set_accept_prepared ctx emit ballot).
Proof. unfold set_accept_prepared, set_prepared. uniform_walk. Qed.
Hint Resolve set_accept_prepared_uniform : uniform.

Lemma accept_prepared_loop_uniform l : uniform (accept_prepared_loop ctx emit l).
Proof. induction l; simpl; uniform_walk. Qed.
Hint Resolve accept_prepared_loop_uniform : uniform.

Lemma attempt_accept_prepared_uniform hint : uniform (attempt_accept_prepared ctx emit hint).
Proof. unfold attempt_accept_prepared. uniform_walk. Qed.

Lemma attempt_confirm_prepared_uniform hint : uniform (attempt_confirm_prepared ctx emit hint).
Proof. unfold attempt_confirm_prepared, set_confirm_prepared, raise_high_and_commit. uniform_walk. Qed.

Lemma attempt_accept_commit_uniform hint : uniform (attempt_accept_commit ctx emit hint).
Proof. unfold attempt_accept_commit, set_accept_commit, enter_confirm. uniform_walk. Qed.

Lemma attempt_confirm_commit_uniform hint : uniform (attempt_confirm_commit ctx emit hint).
Proof. unfold attempt_confirm_commit, set_confirm_commit. uniform_walk. Qed.

Lemma bump_state_uniform v n : uniform (bump_state ctx emit v n).
Proof. unfold bump_state, update_current_value. uniform_walk. Qed.
Hint Resolve bump_state_uniform : uniform.

Lemma abandon_ballot_uniform n : uniform (abandon_ballot ctx emit n).
Proof. unfold abandon_ballot. uniform_walk. Qed.
Hint Resolve abandon_ballot_uniform : uniform.

Lemma attempt_bump_uniform : uniform (attempt_bump ctx emit).
Proof. unfold attempt_bump. uniform_walk. Qed.
Hint Resolve attempt_bump_uniform : uniform.

Lemma bump_loop_uniform : uniform (bump_loop ctx emit).
Proof. unfold bump_loop. uniform_walk. Qed.
End transitions.

Lemma advance_slot_depth_uniform fuel hint : uniform (advance_slot_depth ctx fuel hint).
Proof.
  revert hint. induction fuel as [|fuel IH]; intros hint; simpl; [apply uniform_no_fuel|].
  pose proof (emit_current_state_uniform _ IH) as Hemit.
  pose proof (attempt_accept_prepared_uniform _ Hemit).
  pose proof (attempt_confirm_prepared_uniform _ Hemit).
  pose proof (attempt_accept_commit_uniform _ Hemit).
  pose proof (attempt_confirm_commit_uniform _ Hemit).
  pose proof (bump_loop_uniform _ Hemit). uniform_walk.
Qed.

Lemma advance_slot_uniform hint : uniform (advance_slot ctx hint).
Proof. apply advance_slot_depth_uniform. Qed.
Hint Resolve advance_slot_uniform : uniform.

Lemma emit_state_uniform : uniform (emit_state ctx).
Proof. apply emit_current_state_uniform, advance_slot_uniform. Qed.
Hint Resolve emit_state_uniform bump_state_uniform abandon_ballot_uniform : uniform.

Lemma bump_uniform v force : uniform (bump ctx v force).
Proof. unfold bump. uniform_walk. Qed.

Lemma bump_timeout_uniform composite : uniform (bump_timeout ctx composite).
Proof. unfold bump_timeout. uniform_walk. Qed.

Lemma process_ballot_uniform env validation : uniform (process_envelope ctx env validation).
Proof. unfold process_envelope. uniform_walk. Qed.

Lemma set_ballot_state_uniform env : uniform (set_state_from_envelope ctx env).
Proof. unfold set_state_from_envelope. uniform_walk. Qed.
End ballot.

Section nomination.
Context `{XdrHash} `{SCPDriver} (ctx : SlotContext).
Import Nomination.

Lemma insert_vote_uniform v : uniform (insert_vote v).
Proof. unfold insert_vote. uniform_walk. Qed.
Hint Resolve insert_vote_uniform : uniform.

Lemma vote_new_uniform v : uniform (vote_new ctx v).
Proof. unfold vote_new. uniform_walk. Qed.
Hint Resolve vote_new_uniform : uniform.

Lemma promote_votes_uniform values : uniform (promote_votes ctx values).
Proof. induction values; simpl; unfold insert_accepted; uniform_walk. Qed.

Lemma promote_accepted_uniform values : uniform (promote_accepted ctx values).
Proof. induction values; simpl; uniform_walk. Qed.
Hint Resolve promote_votes_uniform promote_accepted_uniform : uniform.

Lemma attempt_promote_uniform values : uniform (attempt_promote ctx values).
Proof. unfold attempt_promote. uniform_walk. Qed.

Lemma update_composite_uniform : uniform (update_composite ctx).
Proof. unfold update_composite. uniform_walk. Qed.
Hint Resolve attempt_promote_uniform update_composite_uniform : uniform.

Lemma emit_nomination_depth_uniform fuel : uniform (emit_nomination_depth ctx fuel).
Proof. induction fuel; simpl; unfold record_local_nomination, send_if_newer; uniform_walk. Qed.
Hint Resolve emit_nomination_depth_uniform : uniform.

Lemma emit_nomination_uniform : uniform (emit_nomination ctx).
Proof. unfold emit_nomination. uniform_walk. Qed.

Lemma adopt_values_uniform leaders : uniform (adopt_values ctx leaders).
Proof. induction leaders; simpl; uniform_walk. Qed.

Lemma leaders_loop_uniform q prev n fuel : uniform (leaders_loop ctx q prev n fuel).
Proof. induction fuel; simpl; uniform_walk. Qed.
Hint Resolve emit_nomination_uniform adopt_values_uniform leaders_loop_uniform : uniform.

Lemma nominate_uniform v prev timedout : uniform (nominate ctx v prev timedout).
Proof. unfold nominate, update_round_leaders, adopt_leader_values, vote_as_leader. uniform_walk. Qed.

Lemma process_nomination_uniform env : uniform (Nomination.process_envelope ctx env).
Proof. unfold Nomination.process_envelope, take_leader_vote. uniform_walk. Qed.

Lemma emit_deferred_uniform : uniform emit_deferred.
Proof. unfold emit_deferred. uniform_walk. Qed.

Lemma stop_uniform : uniform stop.
Proof. unfold stop. uniform_walk. Qed.

Lemma set_nomination_state_uniform env : uniform (Nomination.set_state_from_envelope env).
Proof. unfold Nomination.set_state_from_envelope. uniform_walk. Qed.
End nomination.

#[export] Hint Resolve send_latest_envelope_uniform bump_uniform bump_timeout_uniform
  process_ballot_uniform set_ballot_state_uniform abandon_ballot_uniform bump_state_uniform
  emit_state_uniform nominate_uniform process_nomination_uniform emit_deferred_uniform stop_uniform
  set_nomination_state_uniform : uniform.

Section slot.
Context `{XdrHash} `{SCPDriver}.
Import Slot.

Lemma bookkeeping_uniform : uniform run_post_emit_bookkeeping.
Proof.
  unfold run_post_emit_bookkeeping, propagate_ballot_clear_slot_validation, maybe_record_externalization,
    sync_externalized_value_from_ballot, maybe_set_got_v_blocking, on_ballot, on_nomination,
    take_needs_clear_slot_validation, take_needs_stop_nomination, Nomination.set_fully_validated.
  uniform_walk.
Qed.

Lemma slot_flag_uniform b : uniform (Slot.set_fully_validated b).
Proof.
  unfold Slot.set_fully_validated, on_ballot, on_nomination, Nomination.set_fully_validated,
    Ballot.set_fully_validated. uniform_walk.
Qed.

Lemma check_nomination_to_ballot_uniform : uniform check_nomination_to_ballot.
Proof. unfold check_nomination_to_ballot, on_ballot. uniform_walk. Qed.

Lemma sync_composite_uniform : uniform sync_composite_candidate.
Proof. unfold sync_composite_candidate, on_ballot, set_composite_candidate. uniform_walk. Qed.
Hint Resolve bookkeeping_uniform slot_flag_uniform check_nomination_to_ballot_uniform
  sync_composite_uniform : uniform.

Lemma slot_process_envelope_uniform env : uniform (Slot.process_envelope env).
Proof.
  unfold Slot.process_envelope, process_nomination_envelope, process_ballot_envelope, on_ballot, on_nomination.
  uniform_walk.
Qed.

Lemma slot_nominate_uniform v prev timedout : uniform (Slot.nominate v prev timedout).
Proof. unfold Slot.nominate, on_nomination. uniform_walk. Qed.

Lemma slot_bump_ballot_uniform : uniform bump_ballot_on_timeout.
Proof. unfold bump_ballot_on_timeout, on_ballot. uniform_walk. Qed.

Lemma slot_stop_nomination_uniform : uniform stop_nomination.
Proof. unfold stop_nomination, on_nomination. uniform_walk. Qed.

Lemma slot_abandon_uniform n : uniform (Slot.abandon_ballot n).
Proof. unfold Slot.abandon_ballot, on_ballot. uniform_walk. Qed.

Lemma slot_bump_state_uniform v n : uniform (Slot.bump_state v n).
Proof. unfold Slot.bump_state, on_ballot. uniform_walk. Qed.

Lemma slot_force_bump_uniform v : uniform (force_bump_state v).
Proof. unfold force_bump_state, on_ballot. uniform_walk. Qed.

Lemma slot_restore_uniform : uniform restore_fully_validated.
Proof. unfold restore_fully_validated, on_ballot, on_nomination. uniform_walk. Qed.
End slot.

#[export] Hint Resolve slot_process_envelope_uniform slot_nominate_uniform slot_bump_ballot_uniform
  slot_stop_nomination_uniform slot_abandon_uniform slot_bump_state_uniform slot_force_bump_uniform
  slot_restore_uniform : uniform.

(** ** A small network

    A concrete driver and messages for the examples: three nodes, any two of
    which are a quorum, a driver that accepts every value and knows the nodes'
    quorum set, and the statements a peer sends on the way to a decision. *)

Definition net_quorum_set : ScpQuorumSet := simple_quorum_set 2 [1; 2; 3].

(** Not a hash of anything but enough to tell the sets of the examples apart. *)
Definition net_hash : XdrHash := {|
  hash_quorum_set q := threshold q + 100 * len (validators q) + 10000 * len (inner_sets q)
|}.
#[global] Existing Instance net_hash.

Definition net_driver : SCPDriver := {|
  validate_value _ _ _ := FullyValidated;
  combine_candidates _ l := List.hd_error l;
  extract_valid_value _ v := match v with [] => None | x :: _ => Some [x] end;
  get_quorum_set _ := Some net_quorum_set;
  get_quorum_set_by_hash h := if h =? 302 then Some net_quorum_set else None;
  compute_hash_node _ _ prio round n := if prio then Z.abs (round * 7 + n * 5) else Z.abs n;
  compute_value_hash _ _ round v := round + len v;
  compute_timeout n nomination := if nomination then 1000 * n else 1000 * (n + 1);
  sign_envelope e := Envelope (statement e) [node_id (statement e)];
  get_node_weight _ _ _ := u64_max;
  has_upgrades _ := false;
  strip_all_upgrades v := Some v;
  get_upgrade_nomination_timeout_limit := 10
|}.
#[global] Existing Instance net_driver.

#[global] Instance net_driver_laws : SCPDriverLaws.
Proof. by intros e. Qed.

#[global] Instance net_extract_laws : ExtractLaws.
Proof. intros slot [|x v] w u; simpl; [done|]. by intros [= <-] [= <-]. Qed.

Definition net_ctx : SlotContext := Ctx 1 net_quorum_set 7.

Definition net_value : Value := [42].
Definition net_ballot (n : Z) : ScpBallot := Ballot n net_value.

Definition net_env (node : NodeId) (p : ScpStatementPledges) : ScpEnvelope :=
  sign_envelope (Envelope (Statement node 7 p) []).

(** Peer 2 votes to prepare, accepts it, votes to commit, and accepts the commit. *)
Definition peer_votes : ScpEnvelope :=
  net_env 2 (Prepare (Prep 302 (net_ballot 1) None None 0 0)).
Definition peer_accepts : ScpEnvelope :=
  net_env 2 (Prepare (Prep 302 (net_ballot 1) (Some (net_ballot 1)) None 0 0)).
Definition peer_commits : ScpEnvelope :=
  net_env 2 (Prepare (Prep 302 (net_ballot 1) (Some (net_ballot 1)) None 1 1)).
Definition peer_confirms : ScpEnvelope := net_env 2 (Confirm (Conf (net_ballot 1) 1 1 1 302)).

Definition net_run : BM unit :=
  bump net_ctx net_value false ;;
  process_envelope net_ctx peer_votes FullyValidated ;;
  process_envelope net_ctx peer_accepts FullyValidated ;;
  process_envelope net_ctx peer_commits FullyValidated ;;
  process_envelope net_ctx peer_confirms FullyValidated ;;
  ret tt.

(** Nomination: node 3 leads the first round and proposes the value; its second
    nomination accepts it. *)
Definition leader_votes : ScpEnvelope :=
  net_env 3 (Nominate (Nomination 302 [net_value] [])).
Definition leader_accepts : ScpEnvelope :=
  net_env 3 (Nominate (Nomination 302 [net_value] [net_value])).
