(* ===== verification/Promotion.v ===== *)
(** * Values and promotion in the nomination protocol

    The order on nominations, the sorted values of a statement, and what one
    [attempt_promote] does: exactly which values it accepts, votes for and
    confirms. *)

From S2P Require Import Prelude Types Quorum Statements Nomination.

(** ** Values *)

Lemma elem_of_value_set v l : v ∈ value_set l <-> v ∈ l.
Proof. unfold value_set. apply elem_of_list_to_set. Qed.

Lemma elem_of_btree_values v s : v ∈ btree_values s <-> v ∈ s.
Proof. unfold btree_values. by rewrite merge_sort_Permutation, elem_of_elements. Qed.

Lemma is_sorted_unique_iff l :
  is_sorted_unique l = true <-> Sorted (fun a b => value_compare a b = Lt) l.
Proof.
  induction l as [|x [|y l] IH].
  - split; constructor.
  - split; repeat constructor.
  - change (is_sorted_unique (x :: y :: l)) with
      (bool_decide (value_compare x y = Lt) && is_sorted_unique (y :: l)).
    rewrite andb_true_iff, bool_decide_eq_true, IH. split.
    + intros [? ?]. by constructor; [|constructor].
    + intros Hs. inversion Hs as [|? ? Ht Hh]; subst. inversion Hh; subst. done.
Qed.

Lemma elem_of_dedup (l : list Value) v : v ∈ dedup l <-> v ∈ l.
Proof.
  induction l as [|x [|y l] IH]; [done|done|].
  change (dedup (x :: y :: l)) with
    (if decide (x = y) then dedup (y :: l) else x :: dedup (y :: l)).
  destruct (decide (x = y)) as [->|]; rewrite ?elem_of_cons, IH; set_solver.
Qed.

Lemma dedup_strict (l : list Value) :
  StronglySorted (cmp_le value_compare) l ->
  StronglySorted (fun a b => value_compare a b = Lt) (dedup l).
Proof.
  induction l as [|x [|y l] IH]; intros Hs; [constructor|repeat constructor|].
  change (dedup (x :: y :: l)) with
    (if decide (x = y) then dedup (y :: l) else x :: dedup (y :: l)).
  inversion Hs as [|? ? Hs' Hx]; subst. destruct (decide (x = y)); [by apply IH|].
  constructor; [by apply IH|]. apply Forall_forall. intros z Hz.
  rewrite elem_of_dedup in Hz. rewrite Forall_forall in Hx. specialize (Hx z Hz).
  apply (cmp_le_lt_eq value_compare) in Hx as [?|<-]; [done|]. exfalso.
  apply elem_of_cons in Hz as [?|Hz]; [done|]. inversion Hs' as [|? ? _ Hy]; subst.
  rewrite Forall_forall in Hy. specialize (Hy x Hz).
  assert (cmp_le value_compare x y) as Hxy.
  { inversion Hs as [|? ? _ Hx']; subst. by inversion Hx'. }
  by apply n, (anti_symm (cmp_le value_compare)).
Qed.

Lemma sorted_values_elem l v : v ∈ sorted_values l <-> v ∈ l.
Proof.
  unfold sorted_values, sort_dedup_values. by rewrite elem_of_dedup, merge_sort_Permutation.
Qed.

Lemma sorted_values_sorted l : is_sorted_unique (sorted_values l) = true.
Proof.
  apply is_sorted_unique_iff, StronglySorted_Sorted, dedup_strict.
  apply (StronglySorted_merge_sort _).
Qed.

(** ** The order on nominations *)

Definition nom_below (a b : ScpNomination) : Prop :=
  value_set (nom_votes a) ⊆ value_set (nom_votes b) /\
  value_set (nom_accepted a) ⊆ value_set (nom_accepted b).

#[global] Instance nom_below_preorder : PreOrder nom_below.
Proof. split; unfold nom_below; [done|]. intros a b c [] []. split; by etrans. Qed.

Lemma is_newer_nomination_iff a b :
  is_newer_nomination a b = true <-> nom_below a b /\ ~ nom_below b a.
Proof.
  unfold is_newer_nomination, nom_below.
  set (Va := value_set (nom_votes a)). set (Vb := value_set (nom_votes b)).
  set (Aa := value_set (nom_accepted a)). set (Ab := value_set (nom_accepted b)).
  assert (forall X Y : gset (list Z), X ⊆ Y -> ((size X < size Y)%nat <-> ~ Y ⊆ X)) as Hsize.
  { intros X Y HXY. split.
    - intros Hlt HYX. apply subseteq_size in HYX. lia.
    - intros HYX. by apply subset_size. }
  rewrite !andb_true_iff, orb_true_iff, !andb_true_iff, !bool_decide_eq_true. split.
  - intros [[HV HA] [[_ Hs]|[_ Hs]]]; (split; [done|]); apply Hsize in Hs; tauto.
  - intros [[HV HA] Hn]. split; [done|].
    destruct (decide (Vb ⊆ Va)) as [?|HnV]; [|left; split; [done|by apply Hsize]].
    right. split; [done|]. apply Hsize; tauto.
Qed.

Lemma is_newer_nomination_trans a b c :
  is_newer_nomination a b = true -> is_newer_nomination b c = true ->
  is_newer_nomination a c = true.
Proof.
  rewrite !is_newer_nomination_iff. intros [Hab _] [Hbc Hcb]. split; [by etrans|].
  intros Hca. apply Hcb. by etrans.
Qed.

Lemma is_newer_nomination_irrefl a : is_newer_nomination a a = false.
Proof. apply not_true_iff_false. rewrite is_newer_nomination_iff. by intros [? []]. Qed.

(** ** Promotion *)

Definition fully_valid `{SCPDriver} (ctx : SlotContext) (v : Value) : Prop :=
  validate_value (ctx_slot_index ctx) v true = FullyValidated.

#[global] Instance fully_valid_dec `{SCPDriver} ctx v : Decision (fully_valid ctx v).
Proof. unfold fully_valid. apply _. Defined.

(** The frame of an operation that changes votes and accepted values only. *)
Definition values_frame (s s' : NominationProtocol) : Prop :=
  s' = put_accepted (accepted s') (put_votes (votes s') s).

Lemma values_frame_trans s1 s2 s3 :
  values_frame s1 s2 -> values_frame s2 s3 -> values_frame s1 s3.
Proof. unfold values_frame. destruct s1, s2, s3. simpl. intros [= ] [= ]. by subst. Qed.

Lemma values_frame_latest s s' : values_frame s s' -> latest_nominations s' = latest_nominations s.
Proof. intros ->. done. Qed.

Section promotion.
Context `{XdrHash} `{SCPDriver} (ctx : SlotContext).

Lemma should_accept_value_ext s s' v :
  latest_nominations s' = latest_nominations s ->
  should_accept_value ctx s' v = should_accept_value ctx s v.
Proof.
  intros E. unfold should_accept_value, nomination_quorum_set_map, get_nodes_with_value. by rewrite E.
Qed.

Lemma should_ratify_value_ext s s' v :
  latest_nominations s' = latest_nominations s ->
  should_ratify_value ctx s' v = should_ratify_value ctx s v.
Proof.
  intros E. unfold should_ratify_value, nomination_quorum_set_map, get_nodes_with_value. by rewrite E.
Qed.

(** Which values [promote_votes] accepts and which it votes for. *)
Definition newly_accepted (values : list Value) (s : NominationProtocol) (v : Value) : Prop :=
  v ∉ accepted s /\ v ∈ values /\ should_accept_value ctx s v = true /\ fully_valid ctx v.
Definition newly_extracted (values : list Value) (s : NominationProtocol) (w : Value) : Prop :=
  exists v, v ∈ values /\ v ∉ accepted s /\ should_accept_value ctx s v = true /\
    ~ fully_valid ctx v /\ extract_valid_value (ctx_slot_index ctx) v = Some w.

Record promoted (values : list Value) (s s' : NominationProtocol) (na nv : list Value) : Prop := {
  pv_frame : values_frame s s';
  pv_accepted : accepted s' = accepted s ++ na;
  pv_votes : votes s' = votes s ++ nv;
  pv_na_nodup : NoDup na;
  pv_nv_nodup : NoDup nv;
  pv_na : forall v, v ∈ na <-> newly_accepted values s v;
  pv_nv : forall w, w ∈ nv <-> w ∉ votes s /\ (w ∈ na \/ newly_extracted values s w)
}.

Lemma promoted_nil s : promoted [] s s [] [].
Proof.
  split; rewrite ?app_nil_r; try done; try apply NoDup_nil_2.
  - unfold values_frame. by destruct s.
  - unfold newly_accepted. set_solver.
  - unfold newly_extracted. set_solver.
Qed.

Lemma promoted_app k1 k2 s1 s2 s3 na1 nv1 na2 nv2 :
  promoted k1 s1 s2 na1 nv1 -> promoted k2 s2 s3 na2 nv2 ->
  promoted (k1 ++ k2) s1 s3 (na1 ++ na2) (nv1 ++ nv2).
Proof.
  intros [F1 A1 V1 DA1 DV1 IA1 IV1] [F2 A2 V2 DA2 DV2 IA2 IV2].
  assert (forall v, should_accept_value ctx s2 v = should_accept_value ctx s1 v) as Hacc.
  { intros. by apply should_accept_value_ext, values_frame_latest. }
  assert (forall v, v ∈ na1 ++ na2 <-> newly_accepted (k1 ++ k2) s1 v) as Hna.
  { intros v. rewrite elem_of_app, IA1, IA2. unfold newly_accepted.
    rewrite A1, Hacc, !elem_of_app, IA1. unfold newly_accepted.
    destruct (decide (v ∈ k1)), (decide (fully_valid ctx v)),
      (should_accept_value ctx s1 v); intuition congruence. }
  split; try done.
  - by eapply values_frame_trans.
  - by rewrite A2, A1, app_assoc.
  - by rewrite V2, V1, app_assoc.
  - apply NoDup_app. split_and!; try done. intros v Hv1 (Hn & _)%IA2. apply Hn. rewrite A1. set_solver.
  - apply NoDup_app. split_and!; try done. intros v Hv1 (Hn & _)%IV2. apply Hn. rewrite V1. set_solver.
  - intros w. rewrite elem_of_app, IV2, V1, !elem_of_app. pose proof (IV1 w) as IVw.
    assert (newly_extracted k2 s2 w -> newly_extracted k2 s1 w) as H21.
    { intros (v & ? & Hn & Ha & ? & ?). rewrite A1 in Hn. rewrite Hacc in Ha. exists v. set_solver. }
    assert (newly_extracted k2 s1 w -> newly_extracted k2 s2 w) as H12.
    { intros (v & ? & Hn & Ha & Hnv & ?). exists v. rewrite Hacc, A1, elem_of_app, IA1.
      split_and!; try done. intros [?|(_ & _ & _ & ?)]; done. }
    assert (newly_extracted (k1 ++ k2) s1 w <-> newly_extracted k1 s1 w \/ newly_extracted k2 s1 w) as Hx.
    { unfold newly_extracted. setoid_rewrite elem_of_app. split.
      - intros (v & [?|?] & Hv); [left|right]; by exists v.
      - intros [(v & ? & Hv)|(v & ? & Hv)]; exists v; by auto. }
    rewrite Hx. destruct (decide (w ∈ nv1)); tauto.
Qed.

(** The test of one value by the first loop of [attempt_promote]. *)
Lemma promote_one s l v :
  wp (if bool_decide (v ∈ accepted s) then ret false
      else if negb (should_accept_value ctx s v) then ret false
      else
        match validate_value (ctx_slot_index ctx) v true with
        | FullyValidated =>
            inserted <- insert_accepted v ;;
            if inserted : bool then insert_vote v ;; ret true else ret false
        | _ =>
            match extract_valid_value (ctx_slot_index ctx) v with
            | Some extracted => insert_vote extracted
            | None => ret false
            end
        end)
    (fun r s' l' => l' = l /\ exists na nv, promoted [v] s s' na nv /\
       (r = true <-> na <> [] \/ nv <> [])) s l.
Proof.
  assert ((forall u, ~ newly_accepted [v] s u) -> (forall w, newly_extracted [v] s w -> w ∈ votes s) ->
    l = l /\ exists na nv, promoted [v] s s na nv /\ (false = true <-> na <> [] \/ nv <> [])) as Hnone.
  { intros Ha Hx. split; [done|]. exists [], []. split; [|intuition done].
    split; rewrite ?app_nil_r; try done; try apply NoDup_nil_2.
    - by destruct s.
    - set_solver.
    - set_solver. }
  case_bool_decide as Hacc.
  { apply Hnone; [intros u (?&?%list_elem_of_singleton&_); congruence|].
    intros w (u & ->%list_elem_of_singleton & ? & _). done. }
  destruct (should_accept_value ctx s v) eqn:Hsup; simpl.
  2:{ apply Hnone; [intros u (?&->%list_elem_of_singleton&?&_); congruence|].
      intros w (u & ->%list_elem_of_singleton & _ & ? & _). congruence. }
  destruct (decide (fully_valid ctx v)) as [Hv|Hv].
  - unfold fully_valid in Hv. rewrite Hv. unfold insert_accepted, insert_unique.
    apply wp_bind, wp_bind, wp_get. rewrite bool_decide_eq_false_2 by done.
    apply wp_bind, wp_modify, wp_ret. unfold insert_vote, insert_unique.
    apply wp_bind, wp_bind, wp_get. simpl. case_bool_decide as Hvote;
      apply wp_bind, wp_modify, wp_ret, wp_ret; (split; [done|]).
    + exists [v], []. split; [|naive_solver]. split; simpl; rewrite ?app_nil_r; try done;
        try apply NoDup_nil_2; try apply NoDup_singleton.
      * intros u. rewrite list_elem_of_singleton. unfold newly_accepted. split; [intros ->|intros (_&?&_)]; set_solver.
      * intros w. split; [set_solver|]. intros (Hn & [->%list_elem_of_singleton|(u & ->%list_elem_of_singleton & _ & _ & ? & _)]); done.
    + exists [v], [v]. split; [|naive_solver]. split; simpl; try done; try apply NoDup_singleton.
      * intros u. rewrite list_elem_of_singleton. unfold newly_accepted. split; [intros ->|intros (_&?&_)]; set_solver.
      * intros w. rewrite list_elem_of_singleton. split; [intros ->; split; [done|by left]|].
        intros (Hn & [?|(u & ->%list_elem_of_singleton & _ & _ & ? & _)]); done.
  - assert (forall u, ~ newly_accepted [v] s u) as Hna.
    { intros u (_ & ->%list_elem_of_singleton & _ & ?). done. }
    assert (match validate_value (ctx_slot_index ctx) v true with
            | FullyValidated => True | _ => True end) by by case_match.
    assert (wp (match extract_valid_value (ctx_slot_index ctx) v with
            | Some extracted => insert_vote extracted
            | None => ret false
            end) (fun r s' l' => l' = l /\ exists na nv, promoted [v] s s' na nv /\
              (r = true <-> na <> [] \/ nv <> [])) s l) as Hx.
    { destruct (extract_valid_value _ v) as [w|] eqn:Ew.
      2:{ apply Hnone; [done|]. intros w (u & ->%list_elem_of_singleton & _ & _ & _ & ?). congruence. }
      assert (newly_extracted [v] s w) as Hxw by (exists v; split_and!; [set_solver|done..]).
      assert (forall w', newly_extracted [v] s w' -> w' = w) as Hun.
      { intros w' (u & ->%list_elem_of_singleton & _ & _ & _ & ?). congruence. }
      unfold insert_vote, insert_unique. apply wp_bind, wp_get. case_bool_decide as Hvote;
        apply wp_bind, wp_modify, wp_ret.
      - replace (put_votes (votes s) s) with s by by destruct s. apply Hnone; [done|]. by intros w' ->%Hun.
      - split; [done|]. exists [], [w]. split; [|naive_solver].
        split; simpl; rewrite ?app_nil_r; try done; try apply NoDup_nil_2; try apply NoDup_singleton.
        + intros u. split; [set_solver|]. by intros ?%Hna.
        + intros w'. rewrite list_elem_of_singleton. split; [intros ->; by auto|].
          intros (_ & [?|?%Hun]); [set_solver|done]. }
    unfold fully_valid in Hv. by destruct (validate_value _ v true).
Qed.

Lemma promote_votes_wp values s l :
  wp (promote_votes ctx values) (fun r s' l' =>
    l' = l /\ exists na nv, promoted values s s' na nv /\ (r = true <-> na <> [] \/ nv <> [])) s l.
Proof.
  revert s l. induction values as [|v rest IH]; intros s l; simpl promote_votes.
  { split; [done|]. exists [], []. split; [apply promoted_nil|naive_solver]. }
  apply wp_bind, wp_get, wp_bind. eapply wp_mono; [apply promote_one|].
  intros r1 s1 l1 (-> & na1 & nv1 & P1 & R1). apply wp_bind. eapply wp_mono; [apply IH|].
  intros r2 s2 l2 (-> & na2 & nv2 & P2 & R2). apply wp_ret. split; [done|].
  exists (na1 ++ na2), (nv1 ++ nv2). split; [by apply (promoted_app [v] rest s s1 s2)|].
  rewrite orb_true_iff, R1, R2. destruct na1, nv1; simpl; intuition done.
Qed.

Lemma promote_accepted_wp values s l :
  wp (promote_accepted ctx values) (fun r s' l' =>
    (exists evs, l' = l ++ evs /\
       Forall (fun e => e = StopTimer (ctx_slot_index ctx) NominationTimer) evs) /\
    s' = put_candidates (candidates s') s /\
    (forall v, v ∈ candidates s' <->
       v ∈ candidates s \/ (v ∈ values /\ should_ratify_value ctx s v = true)) /\
    (r = true <-> candidates s' <> candidates s)) s l.
Proof.
  revert s l. induction values as [|v rest IH]; intros s l; simpl promote_accepted.
  { split_and!; [exists []; by rewrite app_nil_r|by destruct s|set_solver|naive_solver]. }
  apply wp_bind, wp_get, wp_bind.
  assert (forall s1 evs1 (r1 : bool), Forall (fun e => e = StopTimer (ctx_slot_index ctx) NominationTimer) evs1 ->
    s1 = put_candidates (candidates s1) s ->
    (forall u, u ∈ candidates s1 <-> u ∈ candidates s \/ (u = v /\ should_ratify_value ctx s v = true)) ->
    (r1 = true <-> candidates s1 <> candidates s) ->
    wp (more <- promote_accepted ctx rest ;; ret (r1 || more)) (fun r s' l' =>
      (exists evs, l' = l ++ evs /\
         Forall (fun e => e = StopTimer (ctx_slot_index ctx) NominationTimer) evs) /\
      s' = put_candidates (candidates s') s /\
      (forall u, u ∈ candidates s' <->
         u ∈ candidates s \/ (u ∈ v :: rest /\ should_ratify_value ctx s u = true)) /\
      (r = true <-> candidates s' <> candidates s)) s1 (l ++ evs1)) as Hrest.
  { intros s1 evs1 r1 Hev1 F1 C1 R1. apply wp_bind. eapply wp_mono; [apply IH|].
    intros r2 s2 l2 ((evs2 & -> & Hev2) & F2 & C2 & R2). apply wp_ret.
    assert (forall u, should_ratify_value ctx s1 u = should_ratify_value ctx s u) as Hext.
    { intros u. apply should_ratify_value_ext. by rewrite F1. }
    split_and!.
    - exists (evs1 ++ evs2). rewrite app_assoc. split; [done|]. by apply Forall_app.
    - rewrite F1 in F2. exact F2.
    - intros u. rewrite C2, C1, Hext, elem_of_cons. split; [|intros [?|[[->|?] ?]]; auto].
      intros [[?|[-> ?]]|[? ?]]; auto.
    - rewrite orb_true_iff, R1, R2. split.
      + assert (candidates s ⊆ candidates s1) by (intros u Hu; apply C1; by left).
        assert (candidates s1 ⊆ candidates s2) as H12 by (intros u Hu; apply C2; by left).
        intros [Hn|Hn] Heq; rewrite Heq in H12; apply Hn, (anti_symm (⊆)); by rewrite ?Heq.
      + intros Hn. destruct (decide (candidates s1 = candidates s)) as [E|]; [|by left].
        right. by rewrite E. }
  case_bool_decide as Hc; [|destruct (should_ratify_value ctx s v) eqn:Hr].
  - apply wp_ret. specialize (Hrest s [] false). rewrite app_nil_r in Hrest.
    apply Hrest; [constructor|by destruct s| |split; [done|by intros []]].
    intros u. split; [by auto|intros [?|[-> ?]]; [done|congruence || done]].
  - apply wp_bind, wp_modify, wp_bind, wp_tell, wp_ret. apply Hrest; [by repeat constructor|reflexivity| |].
    + intros u. simpl. rewrite elem_of_union, elem_of_singleton.
      split; [intros [->|?]; auto|intros [?|[-> _]]; auto].
    + split; [|done]. simpl. intros _ E. apply Hc. rewrite <- E.
      by apply elem_of_union_l, elem_of_singleton.
  - apply wp_ret. specialize (Hrest s [] false). rewrite app_nil_r in Hrest.
    apply Hrest; [constructor|by destruct s| |split; [done|by intros []]].
    intros u. split; [by auto|intros [?|[-> ?]]; [done|congruence || done]].
Qed.

Lemma attempt_promote_wp values s l :
  wp (attempt_promote ctx values) (fun r s' l' =>
    (exists evs, l' = l ++ evs /\
       Forall (fun e => e = StopTimer (ctx_slot_index ctx) NominationTimer) evs) /\
    exists s1 na nv, promoted values s s1 na nv /\ (r.1 = true <-> na <> [] \/ nv <> []) /\
      s' = put_candidates (candidates s') s1 /\
      (forall v, v ∈ candidates s' <->
         v ∈ candidates s \/ (v ∈ accepted s' /\ should_ratify_value ctx s v = true)) /\
      (r.2 = true <-> candidates s' <> candidates s)) s l.
Proof.
  unfold attempt_promote. apply wp_bind. eapply wp_mono; [apply promote_votes_wp|].
  intros r1 s1 l1 (-> & na & nv & P1 & R1). apply wp_bind, wp_get, wp_bind.
  eapply wp_mono; [apply promote_accepted_wp|]. intros r2 s2 l2 (Hev & F2 & C2 & R2).
  apply wp_ret. split; [done|]. exists s1, na, nv.
  assert (candidates s1 = candidates s) as Ec by by rewrite (pv_frame _ _ _ _ _ P1).
  assert (accepted s2 = accepted s1) as Ea by by rewrite F2.
  rewrite Ec in C2, R2. split_and!; try done. intros v. rewrite C2, Ea.
  by rewrite (should_ratify_value_ext s s1) by apply (values_frame_latest _ _ (pv_frame _ _ _ _ _ P1)).
Qed.
End promotion.
