(* ===== verification/NominationFacts.v ===== *)
(** * Invariants of the nomination protocol

    [nom_inv] is what holds of the state of a node that has only nominated and
    processed envelopes, [acts] how an operation may change the state and the
    log.  Both are proved for every operation of Nomination.v, the recursion of
    [emit_nomination] by induction on a measure of the values that may still be
    voted for or accepted. *)

From S2P Require Import Prelude Types Quorum Statements Nomination Promotion.

(** ** The invariant *)

Definition nomination_of (env : ScpEnvelope) : option ScpNomination :=
  match pledges (statement env) with Nominate n => Some n | _ => None end.

(** The nominations handed to [emit_envelope]. *)
Definition emitted_nominations (l : list DriverEvent) : list ScpNomination :=
  omap (fun e => match e with EmitEnvelope env => nomination_of env | _ => None end) l.

Lemma emitted_nominations_app l k :
  emitted_nominations (l ++ k) = emitted_nominations l ++ emitted_nominations k.
Proof. apply omap_app. Qed.

(** The callbacks the nomination protocol makes. *)
Definition nomination_event (e : DriverEvent) : bool :=
  match e with
  | EmitEnvelope env => is_nomination (pledges (statement env))
  | NominatingValue _ _ | UpdatedCandidateValue _ _ | StopTimer _ NominationTimer => true
  | _ => false
  end.

(** [b] is the envelope [a] or a newer nomination. *)
Definition nomination_env_le (a b : ScpEnvelope) : Prop :=
  b = a \/ exists n n', nomination_of a = Some n /\ nomination_of b = Some n' /\
    is_newer_nomination n n' = true.

Definition nominations_newer (m m' : gmap NodeId ScpEnvelope) : Prop :=
  forall n e, m !! n = Some e -> exists e', m' !! n = Some e' /\ nomination_env_le e e'.

#[global] Instance nomination_env_le_preorder : PreOrder nomination_env_le.
Proof.
  split; [by left|]. intros a b c [->|(n1 & n2 & E1 & E2 & N12)] [->|(n2' & n3 & E2' & E3 & N23)].
  - by left.
  - right. eauto 10.
  - right. eauto 10.
  - right. exists n1, n3. split_and!; try done. rewrite E2 in E2'. injection E2' as ->.
    by eapply is_newer_nomination_trans.
Qed.

#[global] Instance nominations_newer_preorder : PreOrder nominations_newer.
Proof.
  split; [by intros m n e He; exists e|]. intros m1 m2 m3 H1 H2 n e He.
  destruct (H1 n e He) as (e' & He' & ?). destruct (H2 n e' He') as (e'' & ? & ?).
  exists e''. split; [done|]. by etrans.
Qed.

Section invariant.
Context `{XdrHash} `{SCPDriver} (ctx : SlotContext).

(** A sane nomination of this node for this slot. *)
Definition own_nominate (env : ScpEnvelope) (n : ScpNomination) : Prop :=
  statement env = Statement (local_node_id ctx) (ctx_slot_index ctx) (Nominate n) /\
  is_sane_statement n = true.

(** The nomination says no more than the state. *)
Definition nomination_within (n : ScpNomination) (s : NominationProtocol) : Prop :=
  (forall v, v ∈ nom_votes n -> v ∈ votes s) /\ (forall v, v ∈ nom_accepted n -> v ∈ accepted s).

Record nom_inv (s : NominationProtocol) (l : list DriverEvent) : Prop := {
  ni_round : is_u32 (round s);
  ni_timer : is_u32 (timer_exp_count s);
  ni_votes_nodup : NoDup (votes s);
  ni_accepted_nodup : NoDup (accepted s);
  ni_accepted_votes : forall v, v ∈ accepted s -> v ∈ votes s;
  ni_candidates : forall v, v ∈ candidates s -> v ∈ accepted s;
  ni_valid : forall v, v ∈ accepted s -> fully_valid ctx v;
  ni_stopped : stopped s = true -> started s = false;
  ni_entries : forall n e, latest_nominations s !! n = Some e -> node_id (statement e) = n /\
    exists nom, nomination_of e = Some nom /\ is_sane_statement nom = true;
  ni_last : match last_envelope s with
            | Some e => exists n, own_nominate e n /\ nomination_within n s
            | None => last_envelope_emit s = None
            end;
  ni_emit : forall e', last_envelope_emit s = Some e' ->
    exists e, last_envelope s = Some e /\ nomination_env_le e' e;
  ni_log : StronglySorted (fun a b => is_newer_nomination a b = true) (emitted_nominations l);
  ni_log_last : list.last (emitted_nominations l) = last_envelope_emit s ≫= nomination_of;
  ni_own : forall env n, EmitEnvelope env ∈ l -> nomination_of env = Some n ->
    own_nominate env n /\ nomination_within n s
}.

(** ** How the state grows *)

Record nom_grows (s s' : NominationProtocol) : Prop := {
  ng_votes : votes s `prefix_of` votes s';
  ng_accepted : accepted s `prefix_of` accepted s';
  ng_candidates : candidates s ⊆ candidates s';
  ng_round : round s <= round s';
  ng_timer : timer_exp_count s <= timer_exp_count s';
  ng_leaders : round_leaders s ⊆ round_leaders s';
  ng_latest : nominations_newer (latest_nominations s) (latest_nominations s')
}.

#[global] Instance nom_grows_preorder : PreOrder nom_grows.
Proof.
  split.
  - intros s. by split.
  - intros s1 s2 s3 [] []. split; try (by etrans); lia.
Qed.

Definition flags (s : NominationProtocol) : bool * bool * bool :=
  (started s, stopped s, fully_validated s).

(** The composite value is the combination of the candidates. *)
Definition composite_current (s : NominationProtocol) : Prop :=
  candidates s <> ∅ -> forall c,
  combine_candidates (ctx_slot_index ctx) (btree_values (candidates s)) = Some c ->
  latest_composite s = Some c.

Definition composite_kept (s s' : NominationProtocol) : Prop :=
  composite_current s' \/ (candidates s' = candidates s /\ latest_composite s' = latest_composite s).

#[global] Instance composite_kept_preorder : PreOrder composite_kept.
Proof.
  split; [by right|]. intros s1 s2 s3 H12 [?|[Ec El]]; [by left|].
  destruct H12 as [Hc|[? ?]]; [|right; split; congruence].
  left. unfold composite_current in *. by rewrite Ec, El.
Qed.

Definition appends (l l' : list DriverEvent) : Prop :=
  exists evs, l' = l ++ evs /\ Forall (fun e => nomination_event e = true) evs.

#[global] Instance appends_preorder : PreOrder appends.
Proof.
  split; [exists []; by rewrite app_nil_r|].
  intros l1 l2 l3 (e1 & -> & F1) (e2 & -> & F2). exists (e1 ++ e2).
  rewrite app_assoc. split; [done|]. by apply Forall_app.
Qed.

Lemma appends_tell l l' e : appends l l' -> nomination_event e = true -> appends l (l' ++ [e]).
Proof. intros Ha He. etrans; [exact Ha|]. exists [e]. split; [done|by repeat constructor]. Qed.

(** An operation of a nomination that is running. *)
Record acts (s : NominationProtocol) (l : list DriverEvent) (s' : NominationProtocol)
    (l' : list DriverEvent) : Prop := {
  ac_grows : nom_grows s s';
  ac_flags : flags s' = flags s;
  ac_composite : composite_kept s s';
  ac_log : appends l l'
}.

Lemma acts_refl s l : acts s l s l.
Proof. by split. Qed.

Lemma acts_trans s1 l1 s2 l2 s3 l3 : acts s1 l1 s2 l2 -> acts s2 l2 s3 l3 -> acts s1 l1 s3 l3.
Proof. intros [] []. split; try (by etrans); congruence. Qed.

Definition keeps {A} (m : NM A) (s : NominationProtocol) (l : list DriverEvent) : Prop :=
  wp m (fun _ s' l' => nom_inv s' l' /\ acts s l s' l') s l.

Lemma nom_keeps_bind {A B} (m : NM A) (k : A -> NM B) s l :
  keeps m s l -> (forall a s' l', nom_inv s' l' -> acts s l s' l' -> keeps (k a) s' l') ->
  keeps (bind m k) s l.
Proof.
  intros Hm Hk. apply wp_bind. eapply wp_mono; [exact Hm|]. intros a s1 l1 [I1 A1].
  eapply wp_mono; [by apply Hk|]. intros b s2 l2 [I2 A2]. split; [done|]. by eapply acts_trans.
Qed.

Lemma nom_keeps_ret {A} (a : A) s l : nom_inv s l -> keeps (ret a) s l.
Proof. intros I. split; [done|apply acts_refl]. Qed.

Lemma wp_acts {A} (m : NM A) s l s1 l1 :
  acts s l s1 l1 -> keeps m s1 l1 ->
  wp m (fun _ s' l' => nom_inv s' l' /\ acts s l s' l') s1 l1.
Proof.
  intros E K. eapply wp_mono; [exact K|]. intros a s2 l2 [I2 A2]. split; [done|]. by eapply acts_trans.
Qed.

(** Appending a callback that is not an emission. *)
Lemma nom_inv_tell s l e :
  emitted_nominations [e] = [] -> (forall env, e <> EmitEnvelope env) ->
  nom_inv s l -> nom_inv s (l ++ [e]).
Proof.
  intros He Hne []. split; rewrite ?emitted_nominations_app, ?He, ?app_nil_r; try done.
  intros env n [Hin|Heq%list_elem_of_singleton]%elem_of_app; [by apply ni_own0|]. by destruct (Hne env).
Qed.

Lemma nom_inv_tell_all s l evs :
  Forall (fun e => emitted_nominations [e] = [] /\ forall env, e <> EmitEnvelope env) evs ->
  nom_inv s l -> nom_inv s (l ++ evs).
Proof.
  intros Hevs. revert l. induction Hevs as [|e evs [He Hne] _ IH]; intros l I; [by rewrite app_nil_r|].
  rewrite (cons_middle e l evs), app_assoc. apply IH. by apply nom_inv_tell.
Qed.

Lemma nomination_within_grows n s s' :
  votes s `prefix_of` votes s' -> accepted s `prefix_of` accepted s' ->
  nomination_within n s -> nomination_within n s'.
Proof.
  intros [kv Ev] [ka Ea] [Hv Ha]. split; intros v Hin; rewrite ?Ev, ?Ea; apply elem_of_app; auto.
Qed.

(** ** Votes *)

Lemma grow_votes s l v :
  v ∉ votes s -> nom_inv s l ->
  nom_inv (put_votes (votes s ++ [v]) s) l /\ acts s l (put_votes (votes s ++ [v]) s) l.
Proof.
  intros Hv I. assert (forall n, nomination_within n s -> nomination_within n (put_votes (votes s ++ [v]) s)) as Hw.
  { intros n. apply nomination_within_grows; simpl; [by eexists|done]. }
  split.
  - destruct I. split; simpl; try done.
    + apply NoDup_app. split_and!; [done| |apply NoDup_singleton]. intros w Hw' ->%list_elem_of_singleton. done.
    + intros w Hin. apply elem_of_app. auto.
    + destruct (last_envelope s); [|done]. destruct ni_last0 as (n & ? & ?). eauto.
    + intros env n Hin Hn. destruct (ni_own0 env n Hin Hn). auto.
  - split; [|done|by right|done]. split; simpl; try done. by eexists.
Qed.

Lemma insert_vote_keeps v s l :
  nom_inv s l ->
  wp (insert_vote v) (fun r s' l' => (nom_inv s' l' /\ acts s l s' l') /\ l' = l) s l.
Proof.
  intros I. unfold insert_vote, insert_unique. apply wp_bind, wp_get.
  case_bool_decide; apply wp_bind, wp_modify, wp_ret.
  - replace (put_votes (votes s) s) with s by by destruct s. split; [|done].
    split; [done|apply acts_refl].
  - split; [by apply grow_votes|done].
Qed.

Lemma vote_new_keeps v s l : nom_inv s l -> keeps (vote_new ctx v) s l.
Proof.
  intros I. unfold vote_new, when, keeps. apply wp_bind.
  eapply wp_mono; [by apply insert_vote_keeps|]. intros r s1 l1 [[I1 A1] ->].
  apply wp_bind. destruct r; [apply wp_tell|]; apply wp_ret.
  - split; [by apply nom_inv_tell|]. eapply acts_trans; [exact A1|].
    split; try done. by apply appends_tell.
  - done.
Qed.

Lemma adopt_values_keeps leaders s l : nom_inv s l -> keeps (adopt_values ctx leaders) s l.
Proof.
  revert s l. induction leaders as [|leader rest IH]; intros s l I; simpl adopt_values;
    [by apply nom_keeps_ret|].
  apply wp_bind, wp_get. apply nom_keeps_bind.
  - repeat (case_match; try by apply nom_keeps_ret). by apply vote_new_keeps.
  - intros r s1 l1 I1 _. apply nom_keeps_bind; [by apply IH|]. intros. by apply nom_keeps_ret.
Qed.

Lemma adopt_leader_values_keeps s l : nom_inv s l -> keeps (adopt_leader_values ctx) s l.
Proof. intros I. apply wp_bind, wp_get. by apply adopt_values_keeps. Qed.

Lemma vote_as_leader_keeps v s l : nom_inv s l -> keeps (vote_as_leader ctx v) s l.
Proof.
  intros I. unfold vote_as_leader. apply wp_bind, wp_get.
  case_match; [by apply nom_keeps_ret|]. cbv zeta.
  match goal with |- context [let '(_, _) := ?x in _] => destruct x as [[] w] end;
    [|by apply nom_keeps_ret].
  case_match; [by apply nom_keeps_ret|by apply vote_new_keeps].
Qed.

Lemma take_leader_vote_keeps node n s l : nom_inv s l -> keeps (take_leader_vote ctx node n) s l.
Proof.
  intros I. unfold take_leader_vote. apply wp_bind, wp_get.
  repeat (case_match; try by apply nom_keeps_ret). by apply vote_new_keeps.
Qed.

(** ** Round leaders *)

Lemma u32_saturating_add_1 n : is_u32 n -> is_u32 (u32_saturating_add n 1) /\ n <= u32_saturating_add n 1.
Proof. unfold is_u32, u32_saturating_add. lia. Qed.

Lemma put_leaders_keeps x s l :
  nom_inv s l -> round_leaders s ⊆ x ->
  nom_inv (put_round_leaders x s) l /\ acts s l (put_round_leaders x s) l.
Proof. intros [] Hx. split; [by split|]. split; [by split|done|by right|done]. Qed.

Lemma bump_round_keeps s l :
  nom_inv s l ->
  nom_inv (put_round (u32_saturating_add (round s) 1) s) l /\
  acts s l (put_round (u32_saturating_add (round s) 1) s) l.
Proof.
  intros I. destruct (u32_saturating_add_1 (round s)) as [? ?]; [apply I|].
  destruct I. split; [by split|]. split; [by split|done|by right|done].
Qed.

Lemma leaders_loop_keeps q prev max_count fuel s l :
  nom_inv s l -> keeps (leaders_loop ctx q prev max_count fuel) s l.
Proof.
  revert s l. induction fuel as [|fuel IH]; intros s l I; simpl leaders_loop; apply wp_bind, wp_get;
    (case_match; [|by apply nom_keeps_ret]); apply wp_bind, wp_modify;
    destruct (put_leaders_keeps (round_leaders s ∪ new_leaders ctx s q prev) s l) as [I1 A1];
    try done; try apply union_subseteq_l; (case_match; [by apply wp_ret|]).
  - by apply wp_bind, wp_modify.
  - apply wp_bind, wp_modify. destruct (bump_round_keeps _ l I1) as [I2 A2].
    destruct fuel; [done|]. eapply wp_acts; [by eapply acts_trans|]. by apply IH.
Qed.

(** ** Candidates *)

Lemma update_composite_keeps s l :
  nom_inv s l ->
  wp (update_composite ctx) (fun _ s' l' =>
    (nom_inv s' l' /\ acts s l s' l') /\ composite_current s') s l.
Proof.
  intros I. unfold update_composite. apply wp_bind, wp_get. case_bool_decide as Hc.
  { apply wp_ret. split; [split; [done|apply acts_refl]|]. intros Hne. done. }
  destruct (combine_candidates _ _) as [c|] eqn:Ec.
  - case_bool_decide as Hl.
    + apply wp_ret. split; [split; [done|apply acts_refl]|]. intros _ c'. congruence.
    + apply wp_bind, wp_tell, wp_modify.
      assert (composite_current (put_latest_composite (Some c) s)) as Hcur.
      { intros _ c'. simpl. congruence. }
      split; [split|done].
      * apply nom_inv_tell; [done|done|]. by destruct I.
      * split; [by split|done|by left|by apply appends_tell].
  - apply wp_ret. split; [split; [done|apply acts_refl]|]. intros _ c'. congruence.
Qed.
End invariant.

(** ** Promotion *)

(** Values that may still be voted for or accepted, among those of [U]. *)
Definition pending (U : gset (list Z)) (s : NominationProtocol) : nat :=
  size (U ∖ value_set (votes s)) + size (U ∖ value_set (accepted s)).

Definition votes_within (U : gset (list Z)) (s : NominationProtocol) : Prop :=
  forall v, v ∈ votes s -> v ∈ U.

Lemma difference_size_le (U X Y : gset (list Z)) : X ⊆ Y -> (size (U ∖ Y) <= size (U ∖ X))%nat.
Proof. intros HXY. apply subseteq_size. set_solver. Qed.

Lemma difference_size_lt (U X Y : gset (list Z)) v :
  X ⊆ Y -> v ∈ U -> v ∉ X -> v ∈ Y -> (size (U ∖ Y) < size (U ∖ X))%nat.
Proof. intros HXY ? ? ?. apply subset_size. set_solver. Qed.

Lemma value_set_app l k : value_set (l ++ k) = value_set l ∪ value_set k.
Proof. unfold value_set. apply list_to_set_app_L. Qed.

Section emission.
Context `{XdrHash} `{SCPDriver} `{!SCPDriverLaws} (ctx : SlotContext).

Definition extracts_closed (U : gset (list Z)) : Prop :=
  forall v w, v ∈ U -> extract_valid_value (ctx_slot_index ctx) v = Some w -> w ∈ U.

Lemma promoted_pending values s s' na nv U :
  promoted ctx values s s' na nv -> extracts_closed U -> (forall v, v ∈ values -> v ∈ U) ->
  votes_within U s ->
  votes_within U s' /\ (pending U s' <= pending U s)%nat /\
  (na <> [] \/ nv <> [] -> (pending U s' < pending U s)%nat).
Proof.
  intros P HU Hval Hs. destruct P as [_ Ea Ev _ _ Ina Inv].
  assert (forall v, v ∈ na -> v ∈ U /\ v ∉ accepted s) as Hna.
  { intros v (? & ? & _)%Ina. split; [by apply Hval|done]. }
  assert (forall v, v ∈ nv -> v ∈ U /\ v ∉ votes s) as Hnv.
  { intros v (Hn & [?%Hna|(u & ? & _ & _ & _ & ?)])%Inv; [tauto|]. split; [|done].
    eapply HU; [by apply Hval|done]. }
  unfold pending. rewrite Ea, Ev, !value_set_app.
  pose proof (difference_size_le U (value_set (votes s)) (value_set (votes s) ∪ value_set nv)) as Lv.
  pose proof (difference_size_le U (value_set (accepted s)) (value_set (accepted s) ∪ value_set na)) as La.
  specialize (Lv ltac:(apply union_subseteq_l)). specialize (La ltac:(apply union_subseteq_l)).
  split_and!; [|lia|].
  - intros v. rewrite Ev, elem_of_app. intros [?|?%Hnv]; [by apply Hs|tauto].
  - intros Hne. destruct Hne as [Hne|Hne].
    + destruct na as [|v na]; [done|]. destruct (Hna v) as [? ?]; [by left|].
      pose proof (difference_size_lt U (value_set (accepted s))
        (value_set (accepted s) ∪ value_set (v :: na)) v) as Lt.
      rewrite !elem_of_union, !elem_of_value_set in Lt.
      specialize (Lt ltac:(apply union_subseteq_l) ltac:(done) ltac:(done) ltac:(right; by left)). lia.
    + destruct nv as [|v nv]; [done|]. destruct (Hnv v) as [? ?]; [by left|].
      pose proof (difference_size_lt U (value_set (votes s))
        (value_set (votes s) ∪ value_set (v :: nv)) v) as Lt.
      rewrite !elem_of_union, !elem_of_value_set in Lt.
      specialize (Lt ltac:(apply union_subseteq_l) ltac:(done) ltac:(done) ltac:(right; by left)). lia.
Qed.

Lemma promoted_inv values s s' na nv l :
  promoted ctx values s s' na nv -> nom_inv ctx s l -> nom_inv ctx s' l /\ acts ctx s l s' l.
Proof.
  intros [F Ea Ev Dna Dnv Ina Inv] I.
  assert (nom_grows s s') as G.
  { split; try (rewrite F; simpl; done); [rewrite Ev|rewrite Ea]; by eexists. }
  assert (forall n, nomination_within n s -> nomination_within n s') as Hw.
  { intros n. apply nomination_within_grows; apply G. }
  assert (NoDup (votes s')) as Dv.
  { rewrite Ev. apply NoDup_app. split_and!; [apply I| |done]. intros v ? (? & _)%Inv. done. }
  assert (NoDup (accepted s')) as Da.
  { rewrite Ea. apply NoDup_app. split_and!; [apply I| |done]. intros v ? (? & _)%Ina. done. }
  assert (forall v, v ∈ accepted s' -> v ∈ votes s') as Hav.
  { intros v. rewrite Ea, Ev, !elem_of_app. intros [?|Hna]; [left; by eapply ni_accepted_votes|].
    destruct (decide (v ∈ votes s)); [by left|]. right. apply Inv. by auto. }
  assert (forall v, v ∈ accepted s' -> fully_valid ctx v) as Hfv.
  { intros v. rewrite Ea, elem_of_app. intros [?|(_ & _ & _ & ?)%Ina]; [by eapply ni_valid|done]. }
  assert (forall v, v ∈ accepted s -> v ∈ accepted s') as Haa.
  { intros v. rewrite Ea, elem_of_app. by left. }
  split; [|split; [done|by rewrite F|right; by rewrite F|done]].
  revert Dv Da Hav Hfv Haa Hw. rewrite F. intros. destruct I. split; simpl in *; try done.
  - auto.
  - destruct (last_envelope s); [|done]. destruct ni_last0 as (n & ? & ?). eauto.
  - intros env n Hin Hn. destruct (ni_own0 env n Hin Hn). auto.
Qed.

Lemma put_candidates_inv s s' l :
  s' = put_candidates (candidates s') s -> candidates s ⊆ candidates s' ->
  (forall v, v ∈ candidates s' -> v ∈ accepted s) ->
  nom_inv ctx s l -> nom_inv ctx s' l /\ nom_grows s s'.
Proof.
  intros F Hsub Hc I. revert Hc Hsub. rewrite F. intros. simpl in *.
  destruct I. split; by split.
Qed.

Lemma stop_timers_inv s l evs :
  Forall (fun e => e = StopTimer (ctx_slot_index ctx) NominationTimer) evs ->
  nom_inv ctx s l -> nom_inv ctx s (l ++ evs) /\ appends l (l ++ evs).
Proof.
  intros Hevs I. split.
  - apply nom_inv_tell_all; [|done]. eapply Forall_impl; [exact Hevs|]. by intros e ->.
  - exists evs. split; [done|]. eapply Forall_impl; [exact Hevs|]. by intros e ->.
Qed.

(** What the callers of [attempt_promote] need. *)
Record promotes (U : gset (list Z)) (s : NominationProtocol) (l : list DriverEvent) (r : bool * bool)
    (s' : NominationProtocol) (l' : list DriverEvent) : Prop := {
  pr_inv : nom_inv ctx s' l';
  pr_grows : nom_grows s s';
  pr_flags : flags s' = flags s;
  pr_log : appends l l';
  pr_composite : latest_composite s' = latest_composite s;
  pr_candidates : r.2 = false -> candidates s' = candidates s;
  pr_votes : votes_within U s';
  pr_pending : (pending U s' <= pending U s)%nat;
  pr_progress : r.1 = true -> (pending U s' < pending U s)%nat
}.

Lemma attempt_promote_keeps values U s l :
  nom_inv ctx s l -> extracts_closed U -> (forall v, v ∈ values -> v ∈ U) -> votes_within U s ->
  wp (attempt_promote ctx values) (promotes U s l) s l.
Proof.
  intros I HU Hval Hs. eapply wp_mono; [apply attempt_promote_wp|].
  intros r s' l' ((evs & -> & Hevs) & s1 & na & nv & P & R1 & F & C & R2).
  destruct (promoted_pending _ _ _ _ _ _ P HU Hval Hs) as (Hv & Hp & Hlt).
  destruct (promoted_inv _ _ _ _ _ _ P I) as [I1 [G1 Fl1 _ _]].
  assert (candidates s1 = candidates s) as Ec by by rewrite (pv_frame _ _ _ _ _ _ P).
  assert (latest_composite s1 = latest_composite s) as El by by rewrite (pv_frame _ _ _ _ _ _ P).
  destruct (put_candidates_inv s1 s' l F) as [I2 G2]; [| |done|].
  { intros v Hin. apply C. left. by rewrite <- Ec. }
  { intros v [Hin|[Hin _]]%C; [apply (ni_candidates _ _ _ I1); by rewrite Ec|]. by rewrite F in Hin. }
  destruct (stop_timers_inv s' l evs Hevs I2) as [I3 L3].
  split; try done.
  - by etrans.
  - by rewrite F.
  - by rewrite F.
  - intros Hr. destruct (decide (candidates s' = candidates s)); [done|].
    assert (r.2 = true) by by apply R2. congruence.
  - rewrite F. exact Hv.
  - rewrite F. exact Hp.
  - intros Hr. rewrite F. by apply Hlt, R1.
Qed.

(** ** Recording and sending *)

Lemma record_keeps node env nom s l :
  node_id (statement env) = node -> nomination_of env = Some nom -> is_sane_statement nom = true ->
  is_newer_nomination_internal s node nom = true -> nom_inv ctx s l ->
  nom_inv ctx (put_latest_nominations (<[node := env]> (latest_nominations s)) s) l /\
  acts ctx s l (put_latest_nominations (<[node := env]> (latest_nominations s)) s) l.
Proof.
  intros Hid Hnom Hsane Hnew I. split.
  - destruct I. split; simpl; try done. intros n e. rewrite lookup_insert_Some.
    intros [[<- <-]|[_ ?]]; [|by apply ni_entries0]. split; [done|]. by exists nom.
  - split; [|done|by right|done]. split; simpl; try done.
    intros n e He. destruct (decide (node = n)) as [<-|Hne].
    + exists env. rewrite lookup_insert_eq. split; [done|]. right.
      unfold is_newer_nomination_internal in Hnew. rewrite He in Hnew.
      destruct (ni_entries _ _ _ I _ _ He) as (_ & old & Hold & _).
      exists old, nom. split_and!; try done. unfold nomination_of in Hold.
      by destruct (pledges (statement e)); simplify_eq.
    + exists e. rewrite lookup_insert_ne by done. done.
Qed.

(** Handing the last envelope to the network. *)
Lemma emit_last_keeps env s l :
  last_envelope s = Some env -> last_envelope_emit s <> Some env -> nom_inv ctx s l ->
  nom_inv ctx (put_last_envelope_emit (Some env) s) (l ++ [EmitEnvelope env]) /\
  acts ctx s l (put_last_envelope_emit (Some env) s) (l ++ [EmitEnvelope env]).
Proof.
  intros Hl Hne I. pose proof (ni_last _ _ _ I) as Hown. rewrite Hl in Hown.
  destruct Hown as (n & [Hst Hsane] & Hw).
  assert (nomination_of env = Some n) as Hn by (unfold nomination_of; by rewrite Hst).
  split.
  - destruct I. split; simpl; try done.
    + rewrite Hl. by exists n.
    + intros e' [= <-]. exists env. split; [done|]. by left.
    + rewrite emitted_nominations_app. unfold emitted_nominations at 2. simpl. rewrite Hn.
      apply StronglySorted_snoc; [intros ???; apply is_newer_nomination_trans|done|]. intros m. rewrite ni_log_last0.
      destruct (last_envelope_emit s) as [old|] eqn:Eold; [simpl|done]. intros Hm.
      destruct (ni_emit0 old eq_refl) as (e & He & [->|(a & b & Ha & Hb & Hab)]); [congruence|].
      rewrite Hl in He. injection He as <-. congruence.
    + rewrite emitted_nominations_app. unfold emitted_nominations at 2. simpl. rewrite Hn.
      by rewrite last_snoc.
    + intros e m. rewrite elem_of_app, list_elem_of_singleton. intros [?|[= ->]] Hm; [by apply ni_own0|].
      rewrite Hn in Hm. by injection Hm as <-.
  - split; [by split|done|by right|]. apply appends_tell; [done|]. simpl. by rewrite Hst.
Qed.

Lemma send_if_newer_keeps nom env s l :
  own_nominate ctx env nom -> nomination_within nom s -> nom_inv ctx s l ->
  keeps ctx (send_if_newer nom env) s l.
Proof.
  intros [Hst Hsane] Hw I. unfold send_if_newer, when. apply wp_bind, wp_get. cbv zeta.
  assert (nomination_of env = Some nom) as Hn by (unfold nomination_of; by rewrite Hst).
  destruct (match last_envelope s with Some _ => _ | None => true end) eqn:Hnew; [|by apply nom_keeps_ret].
  assert (forall e', last_envelope_emit s = Some e' -> nomination_env_le e' env) as Hemit.
  { intros e' He'. destruct (ni_emit _ _ _ I e' He') as (e & He & Hle). rewrite He in Hnew.
    etrans; [exact Hle|]. pose proof (ni_last _ _ _ I) as Hown. rewrite He in Hown.
    destruct Hown as (m & [Hm _] & _). rewrite Hm in Hnew. simpl in Hnew.
    right. exists m, nom. unfold nomination_of. by rewrite Hm, Hst. }
  apply wp_bind, wp_modify, wp_bind, wp_get.
  assert (nom_inv ctx (put_last_envelope (Some env) s) l /\
          acts ctx s l (put_last_envelope (Some env) s) l) as [I1 A1].
  { split; [|split; [by split|done|by right|done]].
    destruct I. split; simpl; try done.
    - by exists nom.
    - intros e' He'. exists env. auto. }
  cbv beta. match goal with |- wp (if ?b then _ else _) _ _ _ => destruct b eqn:Hsend end;
    [|by apply wp_ret].
  apply andb_prop in Hsend as [_ Hne]. simpl in Hne.
  apply negb_true_iff, bool_decide_eq_false in Hne.
  apply wp_bind, wp_modify, wp_tell.
  destruct (emit_last_keeps env (put_last_envelope (Some env) s) l) as [I2 A2]; [done..|].
  split; [done|]. by eapply acts_trans.
Qed.

Lemma own_envelope_own s :
  is_sane_statement (own_nomination ctx s) = true ->
  own_nominate ctx (own_envelope ctx (own_nomination ctx s)) (own_nomination ctx s).
Proof. intros Hs. split; [|done]. unfold own_envelope. apply sign_envelope_statement. Qed.

Lemma own_nomination_within s : nomination_within (own_nomination ctx s) s.
Proof. split; intros v; simpl; by rewrite sorted_values_elem. Qed.

Lemma emit_nomination_depth_keeps fuel U s l :
  nom_inv ctx s l -> extracts_closed U -> votes_within U s -> (pending U s < fuel)%nat ->
  keeps ctx (emit_nomination_depth ctx fuel) s l.
Proof.
  revert s l. induction fuel as [|fuel IH]; intros s l I HU Hs Hf; [lia|].
  simpl emit_nomination_depth. apply wp_bind, wp_get. cbv zeta.
  set (nom := own_nomination ctx s). set (env := own_envelope ctx nom).
  destruct (is_newer_nomination_internal s _ nom) eqn:Hnew; simpl; [|by apply nom_keeps_ret].
  destruct (is_sane_statement nom) eqn:Hsane; simpl; [|by apply nom_keeps_ret].
  pose proof (own_envelope_own s Hsane) as Hown. fold nom in Hown. fold env in Hown.
  assert (nomination_of env = Some nom) as Hn by (unfold nomination_of; by rewrite (proj1 Hown)).
  unfold record_local_nomination. apply wp_bind, wp_bind, wp_get. rewrite Hnew. simpl.
  apply wp_bind, wp_modify, wp_ret, wp_bind, wp_get. simpl.
  destruct (record_keeps (local_node_id ctx) env nom s l) as [I1 A1]; try done.
  { by rewrite (proj1 Hown). }
  set (s1 := put_latest_nominations _ s) in *.
  assert (nomination_within nom s1) as Hw1 by apply (own_nomination_within s).
  assert (keeps ctx (when (started s)
    (promoted <- attempt_promote ctx (nom_votes nom) ;;
     when promoted.1 (emit_nomination_depth ctx fuel) ;;
     when promoted.2 (update_composite ctx))) s1 l) as Hmid.
  { unfold when at 1. destruct (started s); [|by apply nom_keeps_ret]. apply wp_bind.
    eapply wp_mono; [apply (attempt_promote_keeps _ U); try done|].
    { intros v Hv. apply Hs. by apply (own_nomination_within s). }
    intros r s2 l2 []. apply wp_bind.
    assert (wp (when r.1 (emit_nomination_depth ctx fuel))
      (fun _ s' l' => nom_inv ctx s' l' /\ acts ctx s2 l2 s' l') s2 l2) as Hrec.
    { destruct (r.1) eqn:Er; simpl; [|by apply nom_keeps_ret].
      apply IH; try done. specialize (pr_progress0 eq_refl). change (pending U s1) with (pending U s) in *. lia. }
    eapply wp_mono; [exact Hrec|]. intros _ s3 l3 [I3 [G3 F3 C3 L3]].
    destruct (r.2) eqn:Er2; simpl.
    - eapply wp_mono; [by apply update_composite_keeps|]. intros _ s4 l4 [[I4 [G4 F4 C4 L4]] Hcur].
      split; [done|]. split; [by do 2 (etrans; [done|])|congruence|by left|by do 2 (etrans; [done|])].
    - split; [done|]. split; [by etrans|congruence| |by etrans]. etrans; [|exact C3].
      right. by auto. }
  apply wp_bind. eapply wp_mono; [exact Hmid|]. intros _ s2 l2 [I2 A2].
  eapply wp_acts; [by eapply acts_trans|]. apply send_if_newer_keeps; try done.
  eapply nomination_within_grows; [..|exact Hw1]; apply A2.
Qed.
End emission.

(** ** Entry points *)

(** What [stop] freezes. *)
Definition values_of (s : NominationProtocol) :=
  (votes s, accepted s, candidates s, latest_composite s, round_leaders s, last_envelope s).

Section calls.
Context `{XdrHash} `{SCPDriver} `{!SCPDriverLaws} `{!ExtractLaws} (ctx : SlotContext).

Record nom_evolves (s : NominationProtocol) (l : list DriverEvent) (s' : NominationProtocol)
    (l' : list DriverEvent) : Prop := {
  ne_grows : nom_grows s s';
  ne_log : appends l l';
  ne_composite : composite_kept ctx s s';
  ne_stopped : stopped s = true -> stopped s' = true /\ values_of s' = values_of s
}.

Lemma nom_evolves_refl s l : nom_evolves s l s l.
Proof. by split. Qed.

Lemma nom_evolves_trans s1 l1 s2 l2 s3 l3 :
  nom_evolves s1 l1 s2 l2 -> nom_evolves s2 l2 s3 l3 -> nom_evolves s1 l1 s3 l3.
Proof.
  intros [G1 L1 C1 S1] [G2 L2 C2 S2]. split; try by etrans.
  intros Hs. destruct (S1 Hs) as [Hs2 E1]. destruct (S2 Hs2) as [Hs3 E2]. split; congruence.
Qed.

Lemma acts_evolves s l s' l' : acts ctx s l s' l' -> stopped s = false -> nom_evolves s l s' l'.
Proof. intros []. split; try done. congruence. Qed.

(** The votes that may come out of promoting the values [k]. *)
Definition closure (k : list Value) : gset (list Z) :=
  value_set (k ++ omap (extract_valid_value (ctx_slot_index ctx)) k).

Lemma closure_closed k : extracts_closed ctx (closure k).
Proof.
  intros v w. unfold closure. rewrite !elem_of_value_set, !elem_of_app, !list_elem_of_omap.
  intros [Hv|(u & Hu & Huv)] Hw; right; [by exists v|].
  exists u. split; [done|]. by rewrite (extract_valid_value_stable _ _ _ _ Huv Hw).
Qed.

Lemma closure_subset k v : v ∈ k -> v ∈ closure k.
Proof. intros ?. unfold closure. rewrite elem_of_value_set, elem_of_app. by left. Qed.

Lemma omap_length_le {A B} (f : A -> option B) l : (length (omap f l) <= length l)%nat.
Proof. induction l as [|x l IH]; [done|]. csimpl. destruct (f x); simpl; lia. Qed.

Lemma value_set_size k : (size (value_set k) <= length k)%nat.
Proof.
  induction k as [|x k IH]; [done|].
  pose proof (size_union_alt ({[x]} : gset (list Z)) (value_set k)) as E.
  change (value_set (x :: k)) with ({[x]} ∪ value_set k). rewrite E, size_singleton. simpl.
  pose proof (subseteq_size (value_set k ∖ {[x]}) (value_set k)). set_solver by lia.
Qed.

(** The fuel [emit_nomination] is given covers the values pending. *)
Lemma closure_pending s : (pending (closure (votes s)) s <= 3 * length (votes s))%nat.
Proof.
  set (k := omap (extract_valid_value (ctx_slot_index ctx)) (votes s)).
  assert (length k <= length (votes s))%nat as Hk by apply omap_length_le.
  pose proof (value_set_size (votes s ++ k)) as Hu. rewrite length_app in Hu.
  pose proof (value_set_size k) as Hk'.
  assert (size (closure (votes s) ∖ value_set (votes s)) <= size (value_set k))%nat as H1'.
  { apply subseteq_size. unfold closure. rewrite value_set_app. fold k. set_solver. }
  assert (size (closure (votes s) ∖ value_set (accepted s)) <= size (closure (votes s)))%nat as H2'.
  { apply subseteq_size. set_solver. }
  unfold pending, closure in *. fold k in H1', H2' |- *. lia.
Qed.

Lemma emit_nomination_keeps s l : nom_inv ctx s l -> keeps ctx (emit_nomination ctx) s l.
Proof.
  intros I. unfold emit_nomination. apply wp_bind, wp_get.
  apply (emit_nomination_depth_keeps ctx _ (closure (votes s))); [done|apply closure_closed| |].
  - intros v. apply closure_subset.
  - pose proof (closure_pending s). lia.
Qed.

(** An entry point keeps the invariant and evolves the state. *)
Definition serves {A} (m : NM A) : Prop := forall s l, nom_inv ctx s l ->
  wp m (fun _ s' l' => nom_inv ctx s' l' /\ nom_evolves s l s' l') s l.

Lemma evolved {A} (m : NM A) s l s1 l1 :
  nom_evolves s l s1 l1 -> stopped s1 = false -> keeps ctx m s1 l1 ->
  wp m (fun _ s' l' => nom_inv ctx s' l' /\ nom_evolves s l s' l') s1 l1.
Proof.
  intros E Hs K. eapply wp_mono; [exact K|]. intros a s2 l2 [I2 A2]. split; [done|].
  eapply nom_evolves_trans; [exact E|]. by apply acts_evolves.
Qed.

Lemma nominate_serves v prev timedout : serves (nominate ctx v prev timedout).
Proof.
  intros s l I. unfold nominate. apply wp_bind, wp_get.
  destruct (stopped s) eqn:Hstop; [by split; [|apply nom_evolves_refl]|].
  case_match; [by split; [|apply nom_evolves_refl]|].
  set (timer := if timedout then u32_saturating_add (timer_exp_count s) 1 else timer_exp_count s).
  assert (nom_inv ctx (put_timer_exp_count timer s) l /\
          acts ctx s l (put_timer_exp_count timer s) l) as [I1 A1].
  { assert (is_u32 timer /\ timer_exp_count s <= timer) as [? ?].
    { pose proof (ni_timer _ _ _ I). unfold timer. destruct timedout; [|done].
      by apply u32_saturating_add_1. }
    destruct I. split; [by split|]. split; [by split|done|by right|done]. }
  apply wp_bind. replace (wp (when timedout _) _ s l) with
    (wp (ret (E:=DriverEvent) tt) (fun _ s' l' => wp (if timedout && negb (started s) then ret false
      else
        modify (put_started true) ;;
        modify (put_previous_value (Some prev)) ;;
        modify (fun s => put_round (u32_saturating_add (round s) 1) s) ;;
        update_round_leaders ctx prev ;;
        adopted <- adopt_leader_values ctx ;;
        voted <- vote_as_leader ctx v ;;
        let updated := voted || adopted in
        when updated (emit_nomination ctx) ;;
        ret updated) (fun _ s' l' => nom_inv ctx s' l' /\ nom_evolves s l s' l') s' l')
      (put_timer_exp_count timer s) l).
  2:{ unfold timer, when. destruct timedout; [done|]. by destruct s. }
  apply wp_ret. case_match.
  { split; [done|]. by apply acts_evolves. }
  apply wp_bind, wp_modify, wp_bind, wp_modify, wp_bind, wp_modify.
  match goal with |- wp _ _ ?s3 _ => set (s2 := s3) end.
  assert (nom_inv ctx s2 l /\ nom_evolves s l s2 l) as [I2 E2].
  { pose proof (u32_saturating_add_1 _ (ni_round _ _ _ I1)) as [? ?]. destruct A1 as [[] F C L].
    split.
    - destruct I1. split; try done. simpl. congruence.
    - split; [by split|done|by right|simpl; congruence]. }
  apply evolved; [done|done|]. apply nom_keeps_bind; [by apply leaders_loop_keeps|].
  intros _ s3 l3 I3 _. apply nom_keeps_bind; [by apply adopt_leader_values_keeps|].
  intros adopted s4 l4 I4 _. apply nom_keeps_bind; [by apply vote_as_leader_keeps|].
  intros voted s5 l5 I5 _. cbv zeta. apply nom_keeps_bind; [|intros; by apply nom_keeps_ret].
  unfold when. case_match; [by apply emit_nomination_keeps|by apply nom_keeps_ret].
Qed.

Lemma process_envelope_serves env : serves (process_envelope ctx env).
Proof.
  intros s l I. unfold process_envelope. cbv zeta.
  destruct (pledges (statement env)) as [nom| | |] eqn:Hp;
    try by (split; [|apply nom_evolves_refl]).
  assert (nomination_of env = Some nom) as Hn by (unfold nomination_of; by rewrite Hp).
  apply wp_bind, wp_get.
  destruct (is_newer_nomination_internal s _ nom) eqn:Hnew; simpl;
    [|by split; [|apply nom_evolves_refl]].
  destruct (is_sane_statement nom) eqn:Hsane; simpl; [|by split; [|apply nom_evolves_refl]].
  apply wp_bind, wp_modify.
  destruct (record_keeps ctx (node_id (statement env)) env nom s l) as [I1 A1]; try done.
  set (s1 := put_latest_nominations _ s) in *.
  assert (nom_evolves s l s1 l) as E1 by (destruct A1; by split).
  destruct (started s) eqn:Hst; [|by apply wp_ret].
  assert (stopped s1 = false) as Hs1.
  { destruct (stopped s) eqn:Hs; [|done]. apply (ni_stopped _ _ _ I) in Hs. congruence. }
  apply evolved; [done|done|].
  set (U := closure (nom_votes nom ++ votes s1)). apply wp_bind.
  eapply wp_mono; [apply (attempt_promote_keeps ctx (nom_votes nom) U); [done|apply closure_closed|..]|].
  { intros v Hv. apply closure_subset, elem_of_app. by left. }
  { intros v Hv. apply closure_subset, elem_of_app. by right. }
  intros r s2 l2 []. apply wp_bind. eapply wp_mono; [by apply take_leader_vote_keeps|].
  intros taken s3 l3 [I3 [G3 F3 C3 L3]]. apply wp_bind.
  assert (wp (when (r.1 || taken) (emit_nomination ctx))
    (fun _ s' l' => nom_inv ctx s' l' /\ acts ctx s3 l3 s' l') s3 l3) as Hem.
  { unfold when. case_match; [by apply emit_nomination_keeps|by apply nom_keeps_ret]. }
  eapply wp_mono; [exact Hem|]. intros _ s4 l4 [I4 [G4 F4 C4 L4]]. apply wp_bind.
  destruct (r.2) eqn:Er2; simpl.
  - eapply wp_mono; [by apply update_composite_keeps|]. intros _ s5 l5 [[I5 [G5 F5 C5 L5]] Hcur].
    apply wp_ret. split; [done|].
    split; [by do 3 (etrans; [done|])|congruence|by left|by do 3 (etrans; [done|])].
  - do 2 apply wp_ret. split; [done|]. split; [by do 2 (etrans; [done|])|congruence| |by do 2 (etrans; [done|])].
    do 2 (etrans; [|done]). right. by auto.
Qed.

Lemma emit_deferred_serves : serves emit_deferred.
Proof.
  intros s l I. unfold emit_deferred. apply wp_bind, wp_get.
  case_match; [by split; [|apply nom_evolves_refl]|].
  destruct (last_envelope s) as [env|] eqn:Hl; [|by split; [|apply nom_evolves_refl]].
  case_bool_decide; [by split; [|apply nom_evolves_refl]|].
  apply wp_bind, wp_modify, wp_tell.
  destruct (emit_last_keeps ctx env s l) as [I1 []]; [done..|].
  split; [done|by split].
Qed.

Lemma stop_serves : serves stop.
Proof.
  intros s l I. apply wp_bind, wp_modify, wp_modify. split; [by destruct I|].
  split; [by split|done|by right|done].
Qed.

Lemma set_fully_validated_serves b : serves (set_fully_validated b).
Proof.
  intros s l I. apply wp_modify. split; [by destruct I|]. split; [by split|done|by right|done].
Qed.

(** ** Runs of the protocol *)

Inductive nomination_call : forall A, NM A -> Prop :=
| call_nominate v prev timedout : nomination_call _ (nominate ctx v prev timedout)
| call_nomination env : nomination_call _ (process_envelope ctx env)
| call_deferred : nomination_call _ emit_deferred
| call_stop : nomination_call _ stop
| call_nomination_validated b : nomination_call _ (set_fully_validated b).

Inductive nomination_steps :
    NominationProtocol -> list DriverEvent -> NominationProtocol -> list DriverEvent -> Prop :=
| nom_steps_refl s l : nomination_steps s l s l
| nom_steps_call {A} (m : NM A) s1 l1 a s2 l2 s3 l3 :
    nomination_call A m -> m s1 l1 = Done (a, s2, l2) -> nomination_steps s2 l2 s3 l3 ->
    nomination_steps s1 l1 s3 l3.

Lemma nomination_call_serves A (m : NM A) : nomination_call A m -> serves m.
Proof.
  intros [].
  - apply nominate_serves.
  - apply process_envelope_serves.
  - apply emit_deferred_serves.
  - apply stop_serves.
  - apply set_fully_validated_serves.
Qed.

Lemma nomination_steps_evolve s l s' l' :
  nomination_steps s l s' l' -> nom_inv ctx s l -> nom_inv ctx s' l' /\ nom_evolves s l s' l'.
Proof.
  intros Hs. induction Hs as [|A m s1 l1 a s2 l2 s3 l3 Hm Hr _ IH]; intros I.
  { split; [done|apply nom_evolves_refl]. }
  destruct (wp_done _ _ _ _ _ _ _ (nomination_call_serves A m Hm s1 l1 I) Hr) as [I2 E2].
  destruct (IH I2) as [I3 E3]. split; [done|]. by eapply nom_evolves_trans.
Qed.

Lemma NominationProtocol_new_inv l : emitted_nominations l = [] ->
  (forall env, EmitEnvelope env ∈ l -> nomination_of env = None) -> nom_inv ctx NominationProtocol_new l.
Proof.
  intros He Hn. split; simpl; rewrite ?He; try done; try apply NoDup_nil_2; try constructor;
    try set_solver; unfold u32_max; lia.
Qed.
End calls.
