(* ===== verification/NominationSafety.v ===== *)
(** * Properties of the nomination protocol

    What every run of nominations guarantees, what one promotion does, who the
    leaders of a round are and which value of a leader is voted for. *)

From S2P Require Import Prelude Types Quorum Statements Nomination Network Promotion NominationFacts.

(** ** Leaders *)

Lemma for_all_nodes_fold {T} (f : NodeId -> T -> T) q t :
  for_all_nodes f q t = fold_left (fun t n => f n t) (all_validators q) t.
Proof.
  revert t. induction q as [th vs iss IH] using quorum_set_ind. intros t. simpl.
  rewrite fold_left_app. generalize (fold_left (fun t n => f n t) vs t). clear t vs.
  induction IH as [|i iss Hi _ IHl]; intros t; [done|]. simpl. by rewrite Hi, IHl, fold_left_app.
Qed.

(** The accumulator after considering the nodes [seen]. *)
Definition leaders_acc (priority : NodeId -> Z) (seen : NodeId -> Prop) (acc : Z * gset NodeId) : Prop :=
  (forall m, seen m -> priority m <= acc.1) /\
  (exists m, seen m /\ priority m = acc.1) /\
  (0 < acc.1 -> forall n, n ∈ acc.2 <-> seen n /\ priority n = acc.1).

Lemma consider_leader_acc priority seen acc n :
  0 <= acc.1 -> leaders_acc priority seen acc ->
  leaders_acc priority (fun m => m = n \/ seen m) (consider_leader priority n acc) /\
  0 <= (consider_leader priority n acc).1.
Proof.
  destruct acc as [top leaders]. intros Htop (Hle & (m0 & Hm0 & Em0) & Hin). simpl in *.
  unfold leaders_acc, consider_leader. destruct (Z.ltb_spec top (priority n)) as [Hlt|Hge].
  - rewrite Z.eqb_refl. destruct (Z.ltb_spec 0 (priority n)); [simpl|lia]. split; [|lia]. split_and!.
    + intros m [->|Hm]; [done|]. specialize (Hle m Hm). lia.
    + exists n. auto.
    + intros _ k. rewrite elem_of_union, elem_of_singleton. split; [|intros [[?|Hk] E]; [by left|]].
      * intros [->|?%elem_of_empty]; [auto|done].
      * specialize (Hle k Hk). lia.
  - destruct (Z.eqb_spec (priority n) top) as [He|He]; simpl.
    + destruct (Z.ltb_spec 0 (priority n)); simpl; (split; [|lia]); split_and!; try lia.
      * intros m [->|Hm]; [lia|auto].
      * exists m0. auto.
      * intros Hp k. rewrite elem_of_union, elem_of_singleton, Hin by lia. naive_solver.
      * intros m [->|Hm]; [lia|auto].
      * exists m0. auto.
    + split; [|lia]. split_and!.
      * intros m [->|Hm]; [lia|auto].
      * exists m0. auto.
      * intros Hp k. rewrite Hin by lia. split; [intros []; auto|]. intros [[->|?] ?]; [done|auto].
Qed.

Lemma leaders_fold priority l seen acc :
  0 <= acc.1 -> leaders_acc priority seen acc ->
  leaders_acc priority (fun m => m ∈ l \/ seen m)
    (fold_left (fun t n => consider_leader priority n t) l acc).
Proof.
  revert seen acc. induction l as [|n l IH]; intros seen acc Hp Hacc; simpl.
  - destruct Hacc as (H1 & (m & ? & ?) & H3). split_and!.
    + intros k [?%elem_of_nil|?]; [done|auto].
    + exists m. auto.
    + intros Hpos k. rewrite (H3 Hpos). split; [intros []; auto|]. intros [[?%elem_of_nil|?] ?]; done.
  - destruct (consider_leader_acc priority seen acc n Hp Hacc) as [Hacc' Hp'].
    destruct (IH _ _ Hp' Hacc') as (H1 & (m & Hm & ?) & H3). split_and!.
    + intros k [Hk|Hk]; apply H1; [apply elem_of_cons in Hk as [->|?]; auto|auto].
    + exists m. split; [|done]. rewrite elem_of_cons. tauto.
    + intros Hpos k. rewrite (H3 Hpos), elem_of_cons. tauto.
Qed.

(** ** The value taken from a leader *)

Section values.
Context `{XdrHash} `{SCPDriver} (ctx : SlotContext).

(** The values offered by the first field of a nomination that has any. *)
Definition offered (nomination : ScpNomination) : list Value :=
  let from_accepted := omap (valid_candidate ctx) (nom_accepted nomination) in
  if bool_decide (from_accepted = []) then omap (valid_candidate ctx) (nom_votes nomination)
  else from_accepted.

Definition best_of (s : NominationProtocol) (cands : list Value) (best : option (Z * Value)) : Prop :=
  match best with
  | None => forall c, c ∈ cands -> c ∈ votes s
  | Some (h, c) => h = hash_value ctx s c /\ c ∈ cands /\ c ∉ votes s /\
      forall c', c' ∈ cands -> c' ∉ votes s -> hash_value ctx s c' <= h
  end.

Definition considered (s : NominationProtocol) (cands : list Value)
    (acc : bool * option (Z * Value)) : Prop :=
  (acc.1 = true <-> cands <> []) /\ best_of s cands acc.2.

Lemma consider_one s v cands acc :
  considered s cands acc ->
  considered s (cands ++ option_list (valid_candidate ctx v)) (consider_value ctx s acc v).
Proof.
  destruct acc as [fv best]. intros [Hf Hb]. unfold consider_value.
  destruct (valid_candidate ctx v) as [c|]; simpl option_list; [|by rewrite app_nil_r].
  assert (true = true <-> cands ++ [c] <> []) as Hne by by destruct cands.
  assert (forall P : Value -> Prop, (forall c', c' ∈ cands -> P c') -> P c -> forall c', c' ∈ cands ++ [c] -> P c')
    as Hall by (intros P ? ? c' [?| ->%list_elem_of_singleton]%elem_of_app; auto).
  assert (c ∈ cands ++ [c]) as Hcin by (apply elem_of_app; right; by apply list_elem_of_singleton).
  simpl in Hb. case_bool_decide as Hv.
  { split; [done|]. destruct best as [[h b]|]; simpl in *.
    - destruct Hb as (? & ? & ? & Hmax). split_and!; try done; [apply elem_of_app; by left|].
      by apply (Hall (fun c' => c' ∉ votes s -> hash_value ctx s c' <= h)).
    - by apply (Hall (fun c' => c' ∈ votes s)). }
  cbv zeta. destruct best as [[h b]|]; simpl in Hb.
  - destruct Hb as (-> & Hbc & Hbv & Hmax).
    destruct (Z.leb_spec (hash_value ctx s b) (hash_value ctx s c)) as [Hle|Hlt];
      (split; [done|]); simpl; split_and!; try done.
    + apply (Hall (fun c' => c' ∉ votes s -> hash_value ctx s c' <= hash_value ctx s c)); [|done].
      intros c' ? ?. etrans; [by apply Hmax|done].
    + apply elem_of_app. by left.
    + apply (Hall (fun c' => c' ∉ votes s -> hash_value ctx s c' <= hash_value ctx s b)); [done|lia].
  - split; [done|]. simpl. split_and!; try done.
    apply (Hall (fun c' => c' ∉ votes s -> hash_value ctx s c' <= hash_value ctx s c)); [|done].
    intros c' Hin%Hb. done.
Qed.

Lemma consider_fold s l cands acc :
  considered s cands acc ->
  considered s (cands ++ omap (valid_candidate ctx) l) (fold_left (consider_value ctx s) l acc).
Proof.
  revert cands acc. induction l as [|v l IH]; intros cands acc Hacc; [by rewrite app_nil_r|].
  simpl fold_left. apply (consider_one s v), IH in Hacc.
  rewrite <- app_assoc in Hacc. simpl omap. by destruct (valid_candidate ctx v).
Qed.
End values.

(** ** Properties *)

(** A run of the example network. *)
Definition net_nomination : NM EnvelopeState :=
  nominate net_ctx net_value [9] false ;;
  process_envelope net_ctx leader_votes ;;
  process_envelope net_ctx leader_accepts.

Definition net_nominated : NominationProtocol * list DriverEvent :=
  match net_nomination NominationProtocol_new [] with
  | Done (_, s, l) => (s, l)
  | _ => (NominationProtocol_new, [])
  end.

Lemma net_nomination_steps :
  nomination_steps net_ctx NominationProtocol_new [] net_nominated.1 net_nominated.2.
Proof.
  eapply nom_steps_call; [apply (call_nominate _ net_value [9] false)|vm_compute; reflexivity|].
  eapply nom_steps_call; [apply (call_nomination _ leader_votes)|vm_compute; reflexivity|].
  eapply nom_steps_call; [apply (call_nomination _ leader_accepts)|vm_compute; reflexivity|].
  match goal with |- nomination_steps _ ?s ?l _ _ =>
    replace net_nominated with (s, l) by (vm_compute; reflexivity) end.
  apply nom_steps_refl.
Qed.

Section safety.
Context `{XdrHash} `{SCPDriver} `{!SCPDriverLaws} `{!ExtractLaws} (ctx : SlotContext).

Lemma reachable_inv s l :
  nomination_steps ctx NominationProtocol_new [] s l ->
  nom_inv ctx s l /\ nom_evolves ctx NominationProtocol_new [] s l.
Proof.
  intros Hrun. apply (nomination_steps_evolve ctx _ _ _ _ Hrun).
  apply NominationProtocol_new_inv; [done|]. intros env Hin. by apply elem_of_nil in Hin.
Qed.

(** C26: in every state a node reaches by nominating and processing envelopes,
    the confirmed candidates are among the accepted values and those among the
    votes, nothing is listed twice, every accepted value was fully validated,
    and the composite value is the combination of all candidates whenever the
    driver can combine them. *)
Theorem nomination_invariants_reachable s l
    (Hrun : nomination_steps ctx NominationProtocol_new [] s l) :
  NoDup (votes s) /\ NoDup (accepted s) /\
  (forall v, v ∈ candidates s -> v ∈ accepted s) /\
  (forall v, v ∈ accepted s -> v ∈ votes s /\
     validate_value (ctx_slot_index ctx) v true = FullyValidated) /\
  (candidates s <> ∅ -> forall c,
     combine_candidates (ctx_slot_index ctx) (btree_values (candidates s)) = Some c ->
     latest_composite s = Some c).
Proof.
  destruct (reachable_inv s l Hrun) as [I E]. split_and!; try apply I.
  - intros v Hv. split; [by apply (ni_accepted_votes _ _ _ I)|by apply (ni_valid _ _ _ I)].
  - destruct (ne_composite _ _ _ _ _ E) as [Hc|[Hc _]]; [exact Hc|]. rewrite Hc. done.
Qed.

(** Between any two points of a run votes, accepted values and candidates
    are only added, at the end of their lists, rounds, timeouts and leaders only
    grow, the nomination kept for a node is only replaced by a newer one, and
    once nomination is stopped none of the values changes. *)
Theorem nomination_progress_monotone s1 l1 s2 l2
    (Hinit : nomination_steps ctx NominationProtocol_new [] s1 l1)
    (Hrun : nomination_steps ctx s1 l1 s2 l2) :
  (votes s1 `prefix_of` votes s2 /\ accepted s1 `prefix_of` accepted s2 /\
   candidates s1 ⊆ candidates s2) /\
  round s1 <= round s2 /\ timer_exp_count s1 <= timer_exp_count s2 /\
  round_leaders s1 ⊆ round_leaders s2 /\
  (forall n e, latest_nominations s1 !! n = Some e ->
   exists e', latest_nominations s2 !! n = Some e' /\ nomination_env_le e e') /\
  (stopped s1 = true -> stopped s2 = true /\ values_of s2 = values_of s1).
Proof.
  destruct (reachable_inv s1 l1 Hinit) as [I1 _].
  destruct (nomination_steps_evolve ctx _ _ _ _ Hrun I1) as [_ [[] L C S]]. by split_and!.
Qed.

(** The nominations a node hands to the network are sane statements of this
    node for this slot, each names only values the node still votes for and
    accepts, and each is strictly newer than every one before it. *)
Theorem nominations_emitted_in_order s l
    (Hrun : nomination_steps ctx NominationProtocol_new [] s l) :
  StronglySorted (fun a b => is_newer_nomination a b = true) (emitted_nominations l) /\
  (forall env n, EmitEnvelope env ∈ l -> nomination_of env = Some n ->
   statement env = Statement (local_node_id ctx) (ctx_slot_index ctx) (Nominate n) /\
   is_sane_statement n = true /\
   (forall v, v ∈ nom_votes n -> v ∈ votes s) /\
   (forall v, v ∈ nom_accepted n -> v ∈ accepted s)).
Proof.
  destruct (reachable_inv s l Hrun) as [I _]. split; [apply I|].
  intros env n Hin Hn. destruct (ni_own _ _ _ I env n Hin Hn) as [[? ?] [? ?]]. by split_and!.
Qed.

(** From a reachable state every call of the nomination protocol returns,
    in a state from which the same holds again, or hits the panic of the loop
    that looks for new leaders: the recursion of [emit_nomination] always ends. *)
Theorem nomination_calls_terminate s l A (m : NM A)
    (Hrun : nomination_steps ctx NominationProtocol_new [] s l) (Hcall : nomination_call ctx A m) :
  m s l = Panicked \/
  exists a s' l', m s l = Done (a, s', l') /\ nomination_steps ctx NominationProtocol_new [] s' l'.
Proof.
  destruct (reachable_inv s l Hrun) as [I _].
  pose proof (nomination_call_serves ctx A m Hcall s l I) as Hk.
  apply wp_not_no_fuel in Hk. destruct (m s l) as [[[a s'] l']| |] eqn:Hm; [|by left|done].
  right. exists a, s', l'. split; [done|]. clear -Hrun Hcall Hm.
  induction Hrun as [s l|B m1 s1 l1 b s2 l2 s3 l3 Hc1 Hr1 _ IH].
  - eapply nom_steps_call; [exact Hcall|exact Hm|constructor].
  - eapply nom_steps_call; [exact Hc1|exact Hr1|]. by apply IH.
Qed.
End safety.

Section promotion.
Context `{XdrHash} `{SCPDriver} (ctx : SlotContext).

(** One promotion accepts exactly the fully valid values, among those
    checked, that the latest nominations allow to accept, votes for them and
    for what the driver extracts from the others that could be accepted, and
    then confirms exactly the accepted values that a quorum accepts; it answers
    whether it added a vote or accepted value and whether it added a candidate. *)
Theorem attempt_promote_correct values s l r s' l'
    (Hrun : attempt_promote ctx values s l = Done (r, s', l')) :
  let allowed v := v ∈ values /\ v ∉ accepted s /\ should_accept_value ctx s v = true in
  (forall v, v ∈ accepted s' <-> v ∈ accepted s \/ allowed v /\ fully_valid ctx v) /\
  (forall w, w ∈ votes s' <-> w ∈ votes s \/ allowed w /\ fully_valid ctx w \/
     exists v, allowed v /\ ~ fully_valid ctx v /\
       extract_valid_value (ctx_slot_index ctx) v = Some w) /\
  (forall v, v ∈ candidates s' <->
     v ∈ candidates s \/ v ∈ accepted s' /\ should_ratify_value ctx s v = true) /\
  (r.1 = true <-> votes s' <> votes s \/ accepted s' <> accepted s) /\
  (r.2 = true <-> candidates s' <> candidates s).
Proof.
  intros allowed. pose proof (wp_done _ _ _ _ _ _ _ (attempt_promote_wp ctx values s l) Hrun)
    as (_ & s1 & na & nv & [F Ea Ev Dna Dnv Ina Inv] & R1 & F2 & C & R2).
  assert (accepted s' = accepted s ++ na) as Ea' by (rewrite F2; exact Ea).
  assert (votes s' = votes s ++ nv) as Ev' by (rewrite F2; exact Ev).
  assert (forall v, v ∈ na <-> allowed v /\ fully_valid ctx v) as Hna.
  { intros v. rewrite Ina. unfold newly_accepted, allowed. tauto. }
  assert (forall w, newly_extracted ctx values s w <-> exists v, allowed v /\ ~ fully_valid ctx v /\
    extract_valid_value (ctx_slot_index ctx) v = Some w) as Hx.
  { intros w. unfold newly_extracted, allowed. naive_solver. }
  split_and!; try done.
  - intros v. by rewrite Ea', elem_of_app, Hna.
  - intros w. rewrite Ev', elem_of_app, Inv, Hna, <- Hx. destruct (decide (w ∈ votes s)); tauto.
  - rewrite R1, Ea', Ev'. assert (forall (a b : list Value), a ++ b = a <-> b = []) as Happ.
    { intros a b. split; [|intros ->; apply app_nil_r]. intros E. apply (app_inv_head a). by rewrite app_nil_r. }
    rewrite !Happ. tauto.
Qed.
End promotion.

Section election.
Context `{XdrHash} `{SCPDriver} (ctx : SlotContext).

(** With hashes that are not negative, the leaders of a round are exactly
    the nodes of the highest priority among this node and the nodes of the
    quorum set, provided that priority is positive. *)
Theorem new_leaders_correct s q prev n
    (Hpos : forall slot v prio round node, 0 <= compute_hash_node slot v prio round node) :
  let electorate m := m = local_node_id ctx \/ m ∈ get_all_nodes q in
  let priority := get_node_priority ctx s q prev in
  n ∈ new_leaders ctx s q prev <->
  electorate n /\ 0 < priority n /\ forall m, electorate m -> priority m <= priority n.
Proof.
  intros electorate priority.
  assert (forall m, 0 <= priority m) as Hp.
  { intros m. unfold priority, get_node_priority. cbv zeta. do 2 (case_match; [done || apply Hpos|]); lia. }
  unfold new_leaders. fold priority. rewrite for_all_nodes_fold. cbv zeta.
  pose proof (leaders_fold priority (all_validators q) (fun m => m = local_node_id ctx)
    (priority (local_node_id ctx), {[local_node_id ctx]})) as Hfold.
  destruct (fold_left _ _ _) as [top leaders]. destruct Hfold as (Hle & (m0 & Hm0 & Em0) & Hin); [apply Hp| |].
  { split_and!; simpl.
    - by intros m ->.
    - by eexists.
    - intros _ m. rewrite elem_of_singleton. naive_solver. }
  simpl in *. assert (forall m, electorate m <-> m ∈ all_validators q \/ m = local_node_id ctx) as Hel.
  { intros m. unfold electorate. rewrite elem_of_get_all_nodes. tauto. }
  setoid_rewrite Hel. pose proof (Hp m0) as Hp0. destruct (Z.eqb_spec top 0) as [->|Hne].
  - split; [by intros ?%elem_of_empty|]. intros (Hn & ? & _). specialize (Hle n Hn). lia.
  - rewrite Hin by lia. split.
    + intros [Hn E]. split_and!; [done|lia|]. rewrite E. exact Hle.
    + intros (Hn & _ & Hmax). split; [done|]. specialize (Hle n Hn). specialize (Hmax m0 Hm0). lia.
Qed.

(** What the search for leaders achieves. *)
Definition leaders_found (q : ScpQuorumSet) (prev : Value) (max_count : Z)
    (s s' : NominationProtocol) : Prop :=
  s' = put_round (round s') (put_round_leaders (round_leaders s') s) /\
  round_leaders s ⊆ round_leaders s' /\
  (max_count <= Z.of_nat (size (round_leaders s')) \/
   exists n, n ∉ round_leaders s /\ n ∈ round_leaders s' /\ n ∈ new_leaders ctx s' q prev).

Lemma leaders_loop_wp q prev max_count fuel s l :
  wp (leaders_loop ctx q prev max_count fuel) (fun _ s' l' => l' = l /\ leaders_found q prev max_count s s') s l.
Proof.
  revert s l. induction fuel as [|fuel IH]; intros s l; simpl leaders_loop; apply wp_bind, wp_get;
    (destruct (Z.ltb_spec (Z.of_nat (size (round_leaders s))) max_count) as [Hlt|Hge];
     [|apply wp_ret; split; [done|]; split_and!; [by destruct s|done|by left]]);
    apply wp_bind, wp_modify; set (leaders := round_leaders s ∪ new_leaders ctx s q prev).
  all: case_bool_decide as Hsize; simpl negb; cbv iota.
  2, 4: apply wp_ret; split; [done|]; split_and!; [by destruct s|apply union_subseteq_l|right];
    destruct (decide (new_leaders ctx s q prev ∖ round_leaders s = ∅)) as [He|He];
    [destruct Hsize; f_equal; unfold leaders; apply (anti_symm (⊆)); [set_solver|apply union_subseteq_l]|];
    apply set_choose_L in He as [n [Hn Hno]%elem_of_difference]; exists n;
    split_and!; [done|apply elem_of_union; by right|exact Hn].
  - by apply wp_bind, wp_modify.
  - apply wp_bind, wp_modify. destruct fuel as [|fuel]; [done|].
    eapply wp_mono; [apply IH|]. intros _ s' l' (-> & F & Hsub & Hf). split; [done|].
    simpl in Hsub, Hf. split_and!.
    + rewrite F. by destruct s.
    + etrans; [|exact Hsub]. apply union_subseteq_l.
    + destruct Hf as [?|(n & Hn & ? & ?)]; [by left|right]. exists n. split_and!; [|done..].
      intros ?. apply Hn, elem_of_union. by left.
Qed.

(** The search for leaders changes only the leaders, which it keeps, and
    the round; when it returns there are as many leaders as the quorum set can
    have, or a new one was found, of the highest priority in the last round. *)
Theorem update_round_leaders_correct prev s l s' l'
    (Hrun : update_round_leaders ctx prev s l = Done (tt, s', l')) :
  let q := normalize_quorum_set_with_remove (Some (local_node_id ctx)) (local_quorum_set ctx) in
  s' = put_round (round s') (put_round_leaders (round_leaders s') s) /\ l' = l /\
  round_leaders s ⊆ round_leaders s' /\
  (max_leader_count ctx q <= Z.of_nat (size (round_leaders s')) \/
   exists n, n ∉ round_leaders s /\ n ∈ round_leaders s' /\ n ∈ new_leaders ctx s' q prev).
Proof.
  intros q. pose proof (wp_done _ _ _ _ _ _ _ (leaders_loop_wp q prev _ _ s l) Hrun) as (-> & F & ? & ?).
  by split_and!.
Qed.

(** A value to vote for is taken from a nomination exactly when one of the
    values it offers is not voted for yet: those of its accepted values that are
    valid or contain a valid value, or of its votes when there are none, and it
    is one of the highest hash among them. *)
Theorem get_new_value_from_nomination_correct s nomination :
  match get_new_value_from_nomination ctx s nomination with
  | Some c => c ∈ offered ctx nomination /\ c ∉ votes s /\
      forall c', c' ∈ offered ctx nomination -> c' ∉ votes s ->
      hash_value ctx s c' <= hash_value ctx s c
  | None => forall c, c ∈ offered ctx nomination -> c ∈ votes s
  end.
Proof.
  unfold get_new_value_from_nomination. cbv zeta.
  assert (considered ctx s [] (false, None)) as H0' by (split; [done|]; intros c ?%elem_of_nil; done).
  pose proof (consider_fold ctx s (nom_accepted nomination) [] _ H0') as Hacc. simpl in Hacc.
  destruct (fold_left _ _ _) as [fv best].
  assert (forall best, best_of ctx s (offered ctx nomination) best ->
    match snd <$> best with
    | Some c => c ∈ offered ctx nomination /\ c ∉ votes s /\
        forall c', c' ∈ offered ctx nomination -> c' ∉ votes s ->
        hash_value ctx s c' <= hash_value ctx s c
    | None => forall c, c ∈ offered ctx nomination -> c ∈ votes s
    end) as Hbest.
  { intros [[h c]|]; simpl; [|done]. intros (-> & ? & ? & ?). by split_and!. }
  destruct Hacc as [Hf Hb]. simpl in Hf, Hb. unfold offered in Hbest |- *. cbv zeta in *.
  case_bool_decide as He.
  - rewrite He in Hf, Hb. destruct fv; [by destruct Hf as [Hf _]; specialize (Hf eq_refl)|]. simpl.
    apply Hbest. apply (consider_fold ctx s (nom_votes nomination) [] (false, best)). by split.
  - destruct fv; [|by apply Hf in He]. by apply Hbest.
Qed.

(** A value can be confirmed exactly when some set of nodes that accept it
    in their latest nominations contains a local slice and a slice of each of
    its members, by the quorum sets their nominations name; it can be accepted
    exactly when the nodes that accept it are v-blocking or such a set votes for
    or accepts it; and what can be confirmed can be accepted. *)
Theorem nomination_voting_correct s v :
  let names field n := exists env nom, latest_nominations s !! n = Some env /\
    nomination_of env = Some nom /\ v ∈ field nom in
  let quorum_for (p : NodeId -> Prop) := exists U : gset NodeId,
    (forall n, n ∈ U -> p n /\ exists qs,
       nomination_quorum_set_map ctx s !! n = Some qs /\ is_quorum_slice qs U = true) /\
    is_quorum_slice (local_quorum_set ctx) U = true in
  (should_ratify_value ctx s v = true <-> quorum_for (names nom_accepted)) /\
  (should_accept_value ctx s v = true <->
     is_v_blocking (local_quorum_set ctx) (get_nodes_with_value s v nom_accepted) = true \/
     quorum_for (fun n => names nom_votes n \/ names nom_accepted n)) /\
  (should_ratify_value ctx s v = true -> should_accept_value ctx s v = true).
Proof.
  intros names quorum_for.
  assert (forall field n, n ∈ get_nodes_with_value s v field <-> names field n) as Hn.
  { intros field n. unfold get_nodes_with_value. rewrite elem_of_nodes_where. unfold names, names_value, nomination_of.
    split.
    - intros (env & He & Hp). exists env. destruct (pledges (statement env)) as [nom| | |]; try done.
      exists nom. by apply bool_decide_eq_true in Hp.
    - intros (env & nom & He & Hp & Hv). exists env. split; [done|].
      destruct (pledges (statement env)); simplify_eq. by apply bool_decide_eq_true. }
  assert (forall (N : gset NodeId) (p : NodeId -> Prop), (forall n, n ∈ N <-> p n) ->
    is_quorum (local_quorum_set ctx) N (fun n => nomination_quorum_set_map ctx s !! n) = true <->
    quorum_for p) as Hq.
  { intros N p HN. rewrite is_quorum_spec. unfold quorum_for, quorum_closed. split.
    - intros (U & HU & Hc & Hs). exists U. split; [|done]. intros n HnU. split; [by apply HN, HU|auto].
    - intros (U & HU & Hs). exists U. split_and!; [| |done].
      + intros n (Hp & _)%HU. by apply HN.
      + intros n (_ & ?)%HU. done. }
  unfold should_ratify_value, should_accept_value. cbv zeta. split_and!.
  - apply Hq, Hn.
  - rewrite orb_true_iff, (Hq _ (fun n => names nom_votes n \/ names nom_accepted n)); [done|].
    intros n. rewrite elem_of_union, !Hn. done.
  - intros Hr. apply orb_true_iff. right. eapply is_quorum_mono; [|exact Hr]. apply union_subseteq_r.
Qed.

(** The two comparisons of nominations of the crate, that of the
    nomination protocol and that of statements, agree. *)
Theorem is_newer_nomination_agrees old new :
  is_newer_nomination old new = is_newer_nominate old new.
Proof.
  apply eq_true_iff_eq. rewrite is_newer_nomination_iff, is_newer_nominate_iff.
  unfold nom_below. fold (value_set (nom_votes old)) (value_set (nom_votes new))
    (value_set (nom_accepted old)) (value_set (nom_accepted new)).
  split.
  - intros [[Hv Ha] Hn]. split_and!; [done..|].
    destruct (decide (value_set (nom_votes old) = value_set (nom_votes new))) as [E|]; [|by left].
    right. intros E'. apply Hn. by rewrite E, E'.
  - intros (Hv & Ha & Hne). split; [done|]. intros [Hv' Ha'].
    destruct Hne as [Hne|Hne]; apply Hne; by apply (anti_symm (⊆)).
Qed.
End election.

(** ** The theorems on the example network *)

Lemma nomination_invariants_reachable_witness :
  candidates net_nominated.1 = {[net_value]} /\ NoDup (votes net_nominated.1).
Proof.
  split; [vm_compute; reflexivity|].
  exact (proj1 (nomination_invariants_reachable net_ctx _ _ net_nomination_steps)).
Defined.

Lemma nomination_progress_monotone_witness :
  votes NominationProtocol_new `prefix_of` votes net_nominated.1.
Proof.
  exact (proj1 (proj1 (nomination_progress_monotone net_ctx _ _ _ _ (nom_steps_refl _ _ _)
    net_nomination_steps))).
Defined.

Lemma nominations_emitted_in_order_witness :
  emitted_nominations net_nominated.2 = [Nomination 302 [net_value] [net_value]] /\
  StronglySorted (fun a b => is_newer_nomination a b = true) (emitted_nominations net_nominated.2).
Proof.
  split; [vm_compute; reflexivity|].
  exact (proj1 (nominations_emitted_in_order net_ctx _ _ net_nomination_steps)).
Defined.

Lemma nomination_calls_terminate_witness :
  nominate net_ctx net_value [9] true net_nominated.1 net_nominated.2 = Panicked \/
  exists a s' l', nominate net_ctx net_value [9] true net_nominated.1 net_nominated.2 = Done (a, s', l') /\
    nomination_steps net_ctx NominationProtocol_new [] s' l'.
Proof.
  exact (nomination_calls_terminate net_ctx _ _ _ _ net_nomination_steps (call_nominate net_ctx net_value [9] true)).
Defined.

(** A node that heard both other nodes vote. *)
Definition net_heard : NominationProtocol :=
  put_latest_nominations (<[3 := leader_accepts]> (<[2 := net_env 2 (pledges (statement leader_accepts))]> ∅))
    NominationProtocol_new.

Lemma attempt_promote_correct_witness :
  exists s' l', attempt_promote net_ctx [net_value] net_heard [] = Done ((true, true), s', l') /\
    (net_value ∈ candidates s' <->
     net_value ∈ candidates net_heard \/
     net_value ∈ accepted s' /\ should_ratify_value net_ctx net_heard net_value = true).
Proof.
  eexists _, _. split; [vm_compute; reflexivity|].
  refine (proj1 (proj2 (proj2 (attempt_promote_correct net_ctx [net_value] net_heard [] (true, true) _ _ _))) net_value).
  vm_compute; reflexivity.
Defined.

Lemma new_leaders_correct_witness :
  3 ∈ new_leaders net_ctx NominationProtocol_new net_quorum_set [9] <->
  (3 = 1 \/ 3 ∈ get_all_nodes net_quorum_set) /\
  0 < get_node_priority net_ctx NominationProtocol_new net_quorum_set [9] 3 /\
  forall m, m = 1 \/ m ∈ get_all_nodes net_quorum_set ->
    get_node_priority net_ctx NominationProtocol_new net_quorum_set [9] m
    <= get_node_priority net_ctx NominationProtocol_new net_quorum_set [9] 3.
Proof.
  refine (new_leaders_correct net_ctx NominationProtocol_new net_quorum_set [9] 3 _).
  intros. simpl. destruct prio; apply Z.abs_nonneg.
Defined.

Lemma update_round_leaders_correct_witness :
  exists s', update_round_leaders net_ctx [9] NominationProtocol_new [] = Done (tt, s', []) /\
    round_leaders NominationProtocol_new ⊆ round_leaders s'.
Proof.
  eexists. split; [vm_compute; reflexivity|].
  refine (proj1 (proj2 (proj2 (update_round_leaders_correct net_ctx [9] NominationProtocol_new [] _ [] _)))).
  vm_compute; reflexivity.
Defined.
