(* ===== verification/BallotFacts.v ===== *)
(** * Invariants of the ballot protocol

    [ballot_inv] is the part of [check_invariants] that holds whatever the peers
    send, [evolves] the relation between the states before and after an
    operation.  Both are proved for every transition of Ballot.v from the same
    facts about the emission it is given, and then for [advance_slot] by
    induction on its depth. *)

From S2P Require Import Prelude Types Quorum Statements Ballot.

(** ** Well-formed data: the integers are in the range of their type *)

Definition wf_ballot (b : ScpBallot) : Prop := is_u32 (counter b).
Definition wf_opt (b : option ScpBallot) : Prop := match b with Some b => wf_ballot b | None => True end.

Definition wf_pledges (p : ScpStatementPledges) : Prop :=
  match p with
  | Nominate _ => True
  | Prepare p =>
      wf_ballot (prep_ballot p) /\ wf_opt (prep_prepared p) /\ wf_opt (prep_prepared_prime p) /\
      is_u32 (prep_n_c p) /\ is_u32 (prep_n_h p)
  | Confirm c =>
      wf_ballot (conf_ballot c) /\ is_u32 (conf_n_prepared c) /\ is_u32 (conf_n_commit c) /\
      is_u32 (conf_n_h c)
  | Externalize e => wf_ballot (ext_commit e) /\ is_u32 (ext_n_h e)
  end.

Definition wf_envs (envs : gmap NodeId ScpEnvelope) : Prop :=
  forall n e, envs !! n = Some e -> wf_pledges (pledges (statement e)).

(** ** The invariant *)

(** [a <=~ b], and [b] is present when [a] is. *)
Definition opt_below (a b : option ScpBallot) : Prop :=
  match a, b with
  | Some a, Some b => value a = value b /\ counter a <= counter b
  | Some _, None => False
  | None, _ => True
  end.

(** [p'] is below and incompatible with [p]. *)
Definition prime_below (pp p : option ScpBallot) : Prop :=
  match pp, p with
  | Some pp, Some p => ballot_compare pp p = Lt /\ value pp <> value p
  | Some _, None => False
  | None, _ => True
  end.

Record ballot_inv (s : BallotProtocol) : Prop := {
  inv_current : wf_opt (current_ballot s);
  inv_prepared_wf : wf_opt (prepared s);
  inv_prime_wf : wf_opt (prepared_prime s);
  inv_high_wf : wf_opt (high_ballot s);
  inv_commit_wf : wf_opt (commit s);
  inv_prime : prime_below (prepared_prime s) (prepared s);
  inv_high : opt_below (high_ballot s) (current_ballot s);
  inv_commit : opt_below (commit s) (high_ballot s);
  inv_phase : phase s <> PhasePrepare -> high_ballot s <> None;
  inv_override : phase s = PhaseConfirm -> value_override s = value <$> high_ballot s;
  inv_externalized : phase s = PhaseExternalize -> commit s <> None;
  inv_envs : wf_envs (latest_envelopes s)
}.

(** ** How states evolve *)

Definition phase_rank (p : BallotPhase) : Z :=
  match p with PhasePrepare => 0 | PhaseConfirm => 1 | PhaseExternalize => 2 end.

Definition opt_ballot_le : option ScpBallot -> option ScpBallot -> Prop := cmp_le cmp_opt_ballot.

(** The five ballots and the phase. *)
Definition core (s : BallotProtocol) :=
  (current_ballot s, prepared s, prepared_prime s, high_ballot s, commit s, phase s).

Definition envs_newer (m m' : gmap NodeId ScpEnvelope) : Prop :=
  forall n e, m !! n = Some e -> exists e', m' !! n = Some e' /\
    (e' = e \/ is_newer_ballot_st (statement e) (statement e') = true).

(** The values handed to [value_externalized]. *)
Definition externalized_values (l : list DriverEvent) : list Value :=
  omap (fun e => match e with ValueExternalized _ v => Some v | _ => None end) l.

(** The value an operation has to report: the commit value if it externalized. *)
Definition newly_externalized (s s' : BallotProtocol) : list Value :=
  if negb (is_externalized s) && is_externalized s'
  then option_list (value <$> commit s') else [].

Record evolves_state (s s' : BallotProtocol) : Prop := {
  ev_level : current_message_level s' = current_message_level s;
  ev_phase : phase_rank (phase s) <= phase_rank (phase s');
  ev_current : phase s = phase s' -> opt_ballot_le (current_ballot s) (current_ballot s');
  ev_prepared : opt_ballot_le (prepared s) (prepared s');
  ev_value : phase s <> PhasePrepare -> value <$> high_ballot s' = value <$> high_ballot s;
  ev_frozen : phase s = PhaseExternalize -> core s' = core s;
  ev_envs : envs_newer (latest_envelopes s) (latest_envelopes s')
}.

Definition evolves (s : BallotProtocol) (l : list DriverEvent) (s' : BallotProtocol)
    (l' : list DriverEvent) : Prop :=
  evolves_state s s' /\
  exists evs, l' = l ++ evs /\ externalized_values evs = newly_externalized s s'.

#[global] Instance envs_newer_preorder : PreOrder envs_newer.
Proof.
  split.
  - intros m n e He. eauto.
  - intros m1 m2 m3 H1 H2 n e He.
    destruct (H1 n e He) as (e' & He' & Hn'). destruct (H2 n e' He') as (e'' & He'' & Hn'').
    exists e''. split; [done|]. destruct Hn' as [->|Hn'], Hn'' as [->|Hn'']; eauto.
    right. by eapply is_newer_ballot_st_trans.
Qed.

#[global] Instance opt_ballot_le_preorder : PreOrder opt_ballot_le.
Proof. split; unfold opt_ballot_le; apply _. Qed.

Lemma phase_rank_inj p q : phase_rank p = phase_rank q -> p = q.
Proof. by destruct p, q. Qed.

#[global] Instance evolves_state_preorder : PreOrder evolves_state.
Proof.
  split.
  - intros s. by split.
  - intros s1 s2 s3 [] []. split; try congruence; try lia.
    + intros E. assert (phase s1 = phase s2) as E12.
      { apply phase_rank_inj. rewrite E in *. lia. }
      transitivity (current_ballot s2); [by apply ev_current0|]. apply ev_current1. congruence.
    + by etrans.
    + intros Hp. rewrite ev_value1; [by apply ev_value0|].
      intros E. rewrite E in *. by destruct (phase s1).
    + intros E. rewrite <- ev_frozen0 by done. apply ev_frozen1.
      specialize (ev_frozen0 E). unfold core in *. congruence.
    + by etrans.
Qed.

Lemma is_externalized_spec s : is_externalized s = true <-> phase s = PhaseExternalize.
Proof. apply bool_decide_eq_true. Qed.

Lemma externalized_values_app l k :
  externalized_values (l ++ k) = externalized_values l ++ externalized_values k.
Proof. apply omap_app. Qed.

Lemma newly_externalized_frozen s s' : phase s = PhaseExternalize -> newly_externalized s s' = [].
Proof. intros E. unfold newly_externalized. by rewrite (proj2 (is_externalized_spec s)). Qed.

Lemma newly_externalized_app s1 s2 s3 :
  evolves_state s1 s2 -> evolves_state s2 s3 ->
  newly_externalized s1 s2 ++ newly_externalized s2 s3 = newly_externalized s1 s3.
Proof.
  intros E12 E23. unfold newly_externalized.
  destruct (is_externalized s2) eqn:X2.
  - apply is_externalized_spec in X2. pose proof (ev_frozen _ _ E23 X2) as F.
    assert (phase s3 = PhaseExternalize) as X3 by (unfold core in F; congruence).
    rewrite (proj2 (is_externalized_spec s3)) by done. simpl. rewrite app_nil_r, !andb_true_r.
    destruct (is_externalized s1); simpl; [done|]. unfold core in F. congruence.
  - rewrite andb_false_r. simpl. destruct (is_externalized s1) eqn:X1; [|done].
    apply is_externalized_spec in X1. pose proof (ev_frozen _ _ E12 X1) as F.
    assert (is_externalized s2 = true) by (apply is_externalized_spec; unfold core in F; congruence).
    congruence.
Qed.

Lemma evolves_refl s l : evolves s l s l.
Proof.
  split; [done|]. exists []. split; [by rewrite app_nil_r|].
  unfold newly_externalized. by destruct (is_externalized s).
Qed.

Lemma evolves_trans s1 l1 s2 l2 s3 l3 :
  evolves s1 l1 s2 l2 -> evolves s2 l2 s3 l3 -> evolves s1 l1 s3 l3.
Proof.
  intros (E1 & k1 & -> & V1) (E2 & k2 & -> & V2). split; [by etrans|].
  exists (k1 ++ k2). split; [by rewrite app_assoc|].
  rewrite externalized_values_app, V1, V2. by apply newly_externalized_app.
Qed.

(** Callbacks other than [value_externalized] may be appended. *)
Lemma evolves_tell s1 l1 s2 l2 e :
  evolves s1 l1 s2 l2 -> externalized_values [e] = [] -> evolves s1 l1 s2 (l2 ++ [e]).
Proof.
  intros (E1 & k1 & -> & V1) He. split; [done|]. exists (k1 ++ [e]).
  split; [by rewrite app_assoc|]. by rewrite externalized_values_app, He, app_nil_r.
Qed.

(** ** Steps that leave the ballots alone *)

Lemma quiet_inv s s' :
  core s' = core s -> value_override s' = value_override s -> wf_envs (latest_envelopes s') ->
  ballot_inv s -> ballot_inv s'.
Proof.
  unfold core. destruct s, s'. simpl. intros [= -> -> -> -> -> ->] -> ? []. split; simpl in *; auto.
Qed.

Lemma quiet_evolves_state s s' :
  core s' = core s -> current_message_level s' = current_message_level s ->
  envs_newer (latest_envelopes s) (latest_envelopes s') -> evolves_state s s'.
Proof.
  intros E El Ee. pose proof E as [= Ec Ep _ Eh _ Eph]. split; try done; try congruence.
  - by rewrite Eph.
  - intros _. by rewrite Ec.
  - by rewrite Ep.
Qed.

(** The log part of an operation that does not externalize. *)
Lemma evolves_same_phase s l s' evs :
  evolves_state s s' -> (phase s' = PhaseExternalize -> phase s = PhaseExternalize) ->
  externalized_values evs = [] -> evolves s l s' (l ++ evs).
Proof.
  intros E Hp Hv. split; [done|]. exists evs. split; [done|]. rewrite Hv.
  unfold newly_externalized, is_externalized. repeat case_bool_decide; simpl; try done. by destruct H; auto.
Qed.

Lemma evolves_quiet s l s' evs :
  core s' = core s -> current_message_level s' = current_message_level s ->
  envs_newer (latest_envelopes s) (latest_envelopes s') ->
  externalized_values evs = [] -> evolves s l s' (l ++ evs).
Proof.
  intros E El Ee Hv. apply evolves_same_phase; [by apply quiet_evolves_state| |done].
  unfold core in E. intros. congruence.
Qed.

Lemma evolves_quiet_0 s l s' :
  core s' = core s -> current_message_level s' = current_message_level s ->
  envs_newer (latest_envelopes s) (latest_envelopes s') -> evolves s l s' l.
Proof. intros. rewrite <- (app_nil_r l) at 2. by apply evolves_quiet. Qed.

(** An operation run from [s] keeps the invariant and evolves the state. *)
Definition keeps {A} (m : BM A) (s : BallotProtocol) (l : list DriverEvent) : Prop :=
  wp m (fun _ s' l' => ballot_inv s' /\ evolves s l s' l') s l.

Lemma keeps_bind {A B} (m : BM A) (k : A -> BM B) s l :
  keeps m s l -> (forall a s' l', ballot_inv s' -> evolves s l s' l' -> keeps (k a) s' l') ->
  keeps (bind m k) s l.
Proof.
  intros Hm Hk. apply wp_bind. eapply wp_mono; [exact Hm|]. intros a s1 l1 [I1 E1].
  eapply wp_mono; [by apply Hk|]. intros b s2 l2 [I2 E2]. split; [done|]. by eapply evolves_trans.
Qed.

Lemma stay s l : ballot_inv s -> ballot_inv s /\ evolves s l s l.
Proof. split; [done|apply evolves_refl]. Qed.

Lemma keeps_ret {A} (a : A) s l : ballot_inv s -> keeps (ret a) s l.
Proof. intros I. split; [done|apply evolves_refl]. Qed.

(** Continuing after [evolves s l s1 l1]. *)
Lemma wp_evolves {A} (m : BM A) s l s1 l1 :
  evolves s l s1 l1 -> keeps m s1 l1 ->
  wp m (fun _ s' l' => ballot_inv s' /\ evolves s l s' l') s1 l1.
Proof.
  intros E K. eapply wp_mono; [exact K|]. intros a s2 l2 [I2 E2]. split; [done|]. by eapply evolves_trans.
Qed.

(** ** Well-formedness of what is computed from the statements *)

Lemma elem_of_statements_of envs st :
  st ∈ statements_of envs <-> exists n e, envs !! n = Some e /\ statement e = st.
Proof.
  unfold statements_of. rewrite list_elem_of_fmap. split.
  - intros ([n e] & -> & Hin%elem_of_map_to_list). eauto.
  - intros (n & e & Hn & <-). exists (n, e). split; [done|]. by apply elem_of_map_to_list.
Qed.

Lemma u32_max_u32 : is_u32 u32_max.
Proof. unfold is_u32, u32_max. lia. Qed.

Lemma hint_ballots_wf hint b :
  wf_pledges (pledges hint) -> b ∈ collect_hint_ballots hint -> wf_ballot b.
Proof.
  unfold collect_hint_ballots. pose proof u32_max_u32 as Hmax.
  destruct (pledges hint) as [|p|c|e]; simpl; [set_solver| | |].
  - destruct (prep_prepared p), (prep_prepared_prime p); simpl; set_solver.
  - set_solver.
  - set_solver.
Qed.

Lemma candidates_wf envs hint b :
  wf_envs envs -> wf_pledges (pledges hint) -> b ∈ get_prepare_candidates envs hint -> wf_ballot b.
Proof.
  intros He Hh. unfold get_prepare_candidates. rewrite elem_of_prepare_candidates.
  intros (tv & st & Htv & (n & e & Hn & <-)%elem_of_statements_of & Hb).
  apply (hint_ballots_wf _ _ Hh) in Htv. specialize (He n e Hn). revert Hb.
  unfold envelope_candidates. destruct (pledges (statement e)) as [|p|c|x]; simpl in *; [set_solver| | |].
  - destruct (prep_prepared p), (prep_prepared_prime p); rewrite ?elem_of_app; simpl in *;
      repeat case_match; set_solver.
  - repeat case_match; set_solver.
  - case_match; set_solver.
Qed.

Lemma boundaries_wf ballot envs n :
  wf_envs envs -> n ∈ get_commit_boundaries_from_statements ballot envs -> is_u32 n.
Proof.
  intros He. unfold get_commit_boundaries_from_statements. rewrite elem_of_list_to_set.
  rewrite list_elem_of_In, in_concat. intros (l & Hl & Hn).
  apply in_map_iff in Hl as (st & <- & Hst). apply list_elem_of_In, elem_of_statements_of in Hst
    as (k & e & Hk & <-). apply list_elem_of_In in Hn. specialize (He k e Hk). revert Hn.
  pose proof u32_max_u32. unfold statement_boundaries.
  destruct (pledges (statement e)) as [|p|c|x]; simpl in *; [set_solver|..]; case_match; set_solver.
Qed.

Lemma ballot_counters_wf envs st :
  wf_envs envs -> st ∈ statements_of envs -> is_u32 (statement_ballot_counter st).
Proof.
  intros He (k & e & Hk & <-)%elem_of_statements_of. specialize (He k e Hk).
  pose proof u32_max_u32. unfold statement_ballot_counter.
  destruct (pledges (statement e)) as [|p|c|x]; simpl in *; try tauto.
  unfold is_u32, u32_max. lia.
Qed.

Section facts.
Context `{XdrHash} `{SCPDriver} `{!SCPDriverLaws} (ctx : SlotContext).

Lemma send_latest_envelope_keeps s l : ballot_inv s -> keeps send_latest_envelope s l.
Proof.
  intros I. unfold send_latest_envelope, keeps. wp_steps.
  repeat (case_match; [by apply keeps_ret|]).
  destruct (last_envelope s); [|by apply keeps_ret]. case_match; [by apply keeps_ret|]. wp_steps.
  split; [by eapply quiet_inv, I; try apply I|]. by apply evolves_quiet.
Qed.

Lemma check_heard_from_quorum_keeps s l : ballot_inv s -> keeps (check_heard_from_quorum ctx) s l.
Proof.
  intros I. unfold check_heard_from_quorum, keeps, when. wp_steps.
  destruct (current_ballot s); [|by apply keeps_ret].
  repeat case_match; wp_steps; (split; [by eapply quiet_inv, I; try apply I|]);
    repeat (apply evolves_tell; [|done]); by apply evolves_quiet_0.
Qed.

(** ** Emission *)

Lemma counter_or_zero_u32 b : wf_opt b -> is_u32 (counter_or_zero b).
Proof. destruct b; simpl; [done|]. intros _. unfold is_u32, u32_max. lia. Qed.

(** What [emit_current_state] builds: a well-formed statement of this node. *)
Definition own_statement (st : ScpStatement) (env : ScpEnvelope) : Prop :=
  wf_pledges (pledges st) /\ statement env = st /\ node_id st = local_node_id ctx /\
  slot_index st = ctx_slot_index ctx.

Definition emitted (s : BallotProtocol) : option (ScpStatement * ScpEnvelope * bool) :=
  match phase s with
  | PhasePrepare => emit_prepare ctx s
  | PhaseConfirm => emit_confirm ctx s
  | PhaseExternalize => emit_externalize ctx s
  end.

Lemma emitted_own s st env b : ballot_inv s -> emitted s = Some (st, env, b) -> own_statement st env.
Proof.
  intros I. destruct I. unfold emitted, own_statement.
  pose proof (counter_or_zero_u32 (prepared s)). pose proof (counter_or_zero_u32 (high_ballot s)).
  pose proof (counter_or_zero_u32 (commit s)).
  unfold emit_prepare, emit_confirm, emit_externalize, create_signed_envelope.
  destruct (phase s), (current_ballot s), (commit s); intros [= <- <- <-];
    (split_and!; [|apply sign_envelope_statement|done|done]); simpl in *; split_and!; auto;
    unfold wf_ballot, is_u32, u32_max; simpl; lia.
Qed.

Lemma envs_newer_insert m env n :
  is_newer_statement m n (statement env) = true -> envs_newer m (<[n := env]> m).
Proof.
  intros Hn k e He. destruct (decide (n = k)) as [<-|Hne].
  - exists env. rewrite lookup_insert_eq. unfold is_newer_statement in Hn. rewrite He in Hn. auto.
  - exists e. rewrite lookup_insert_ne by done. auto.
Qed.

Lemma wf_envs_insert m env n :
  wf_envs m -> wf_pledges (pledges (statement env)) -> wf_envs (<[n := env]> m).
Proof.
  intros Hm He k e. destruct (decide (n = k)) as [<-|Hne].
  - rewrite lookup_insert_eq. by intros [= ->].
  - rewrite lookup_insert_ne by done. apply Hm.
Qed.

Lemma record_self_keeps st env b s l :
  own_statement st env ->
  is_newer_statement (latest_envelopes s) (local_node_id ctx) st = true ->
  ballot_inv s -> keeps (record_self ctx env b) s l.
Proof.
  intros (Hwf & <- & Hn & _) Hnew I. unfold record_self, keeps, when. wp_steps.
  destruct b; wp_steps; (split; [eapply quiet_inv; [| | |exact I]; try done;
    by apply wf_envs_insert; [apply I|]|]); by apply evolves_quiet_0, envs_newer_insert.
Qed.

(** [m] keeps the invariant when run at message level [L]. *)
Definition keeps_at {A} (L : Z) (m : BM A) : Prop :=
  forall s l, ballot_inv s -> current_message_level s = L -> keeps m s l.

Lemma evolves_level s l s' l' : evolves s l s' l' -> current_message_level s' = current_message_level s.
Proof. intros [E _]. apply E. Qed.

Lemma emit_current_state_keeps L adv :
  (forall st, wf_pledges (pledges st) -> keeps_at L (adv st)) ->
  keeps_at L (emit_current_state ctx adv).
Proof.
  intros Hadv s l I Hl. unfold emit_current_state, keeps. apply wp_bind, wp_get.
  change (match phase s with
          | PhasePrepare => emit_prepare ctx s
          | PhaseConfirm => emit_confirm ctx s
          | PhaseExternalize => emit_externalize ctx s end) with (emitted s).
  destruct (emitted s) as [[[st env] b]|] eqn:Hem; [|by apply keeps_ret].
  pose proof (emitted_own s st env b I Hem) as Hown.
  destruct (is_statement_sane st ctx); simpl; [|by apply keeps_ret].
  destruct (is_newer_statement _ _ st) eqn:Hnew; simpl; [|by apply keeps_ret].
  case_bool_decide; [by apply keeps_ret|]. case_bool_decide as Hp; simpl.
  - case_match; [by apply keeps_ret|]. apply keeps_bind; [by eapply record_self_keeps|].
    intros. by apply send_latest_envelope_keeps.
  - assert (forall s1, latest_envelopes s1 = latest_envelopes s -> ballot_inv s1 ->
      current_message_level s1 = L ->
      keeps (record_self ctx env b ;; adv st ;; send_latest_envelope) s1 l) as Hrec.
    { intros s1 E1 I1 L1. apply keeps_bind; [eapply record_self_keeps; by rewrite ?E1|].
      intros _ s2 l2 I2 E2. apply keeps_bind.
      - apply Hadv; [by apply Hown|done|]. by rewrite (evolves_level _ _ _ _ E2).
      - intros. by apply send_latest_envelope_keeps. }
    unfold when. apply wp_bind. destruct (clears_fully_validated _).
    + apply wp_bind, wp_modify, wp_modify. apply wp_evolves; [by apply evolves_quiet_0|]. apply Hrec; [done| |done].
      by eapply quiet_inv, I; try apply I.
    + apply wp_ret. by apply Hrec.
Qed.

(** ** Moving to a ballot *)

(** The high and commit ballots after moving to [b]: cleared when incompatible. *)
Definition high_commit_after (b : ScpBallot) (s : BallotProtocol) : option ScpBallot * option ScpBallot :=
  if map_or true (ballot_compatible b) (high_ballot s) then (high_ballot s, commit s) else (None, None).

Record bumped (b : ScpBallot) (s : BallotProtocol) (l : list DriverEvent) (s' : BallotProtocol)
    (l' : list DriverEvent) : Prop := {
  bp_core : core s' = (Some b, prepared s, prepared_prime s, (high_commit_after b s).1,
                       (high_commit_after b s).2, phase s);
  bp_level : current_message_level s' = current_message_level s;
  bp_envs : latest_envelopes s' = latest_envelopes s;
  bp_override : value_override s' = value_override s;
  bp_log : exists evs, l' = l ++ evs /\ externalized_values evs = []
}.

Lemma bump_to_ballot_wp b check s l :
  wp (bump_to_ballot ctx b check) (fun r s' l' =>
    if r then bumped b s l s' l' /\
              (check = true -> cmp_opt_ballot (current_ballot s) (Some b) = Lt)
    else s' = s /\ l' = l /\ check = true /\ opt_ballot_le (Some b) (current_ballot s)) s l.
Proof.
  unfold bump_to_ballot. apply wp_bind, wp_get.
  destruct (check && _) eqn:Hc.
  { apply andb_prop in Hc as [-> Hc]. destruct (current_ballot s) as [cur|] eqn:Ecur; [|done].
    apply negb_true_iff, bool_decide_eq_false in Hc. apply wp_ret. by split_and!. }
  assert (check = true -> cmp_opt_ballot (current_ballot s) (Some b) = Lt) as Hlt.
  { intros ->. destruct (current_ballot s) as [cur|]; simpl in *; [|done].
    apply negb_false_iff, bool_decide_eq_true in Hc. by apply (compare_gt_lt ballot_compare). }
  assert (map_or true (ballot_compatible b) (high_ballot s) =
    negb match high_ballot s with Some h => negb (ballot_compatible b h) | None => false end) as Hh.
  { destruct (high_ballot s); simpl; [by rewrite negb_involutive|done]. }
  unfold when. destruct (bool_decide (current_ballot s = None)), (match high_ballot s with
    Some _ => _ | None => false end) eqn:Ehc,
    (match current_ballot s with Some _ => _ | None => true end);
    wp_steps; (split; [|exact Hlt]); split; try done; unfold core, high_commit_after;
    rewrite ?Hh; simpl; try done;
    try (by eexists; split; [|]); by exists []; rewrite app_nil_r.
Qed.

Lemma update_current_if_needed_wp b s l :
  wp (update_current_if_needed ctx b) (fun r s' l' =>
    if r then bumped b s l s' l' /\ cmp_opt_ballot (current_ballot s) (Some b) = Lt
    else s' = s /\ l' = l /\ opt_ballot_le (Some b) (current_ballot s)) s l.
Proof.
  unfold update_current_if_needed. apply wp_bind, wp_get.
  destruct (current_ballot s) as [cur|] eqn:Ecur; [case_bool_decide as Hlt|].
  - eapply wp_mono; [apply bump_to_ballot_wp|]. rewrite Ecur. intros [] s' l'; naive_solver.
  - apply wp_ret. split_and!; try done. unfold opt_ballot_le, cmp_le. simpl.
    by rewrite (compare_gt_lt ballot_compare).
  - eapply wp_mono; [apply bump_to_ballot_wp|]. rewrite Ecur. intros [] s' l'; naive_solver.
Qed.

(** Moving up to a well-formed ballot in the prepare phase, or to one with the
    value of the high ballot, keeps the invariant. *)
Lemma bumped_ok b s l s' l' :
  bumped b s l s' l' -> cmp_opt_ballot (current_ballot s) (Some b) = Lt -> wf_ballot b ->
  (phase s = PhasePrepare \/
   phase s = PhaseConfirm /\ value <$> high_ballot s = Some (value b)) ->
  ballot_inv s -> ballot_inv s' /\ evolves s l s' l'.
Proof.
  intros [Hcore Hl He Ho (evs & -> & Hv)] Hlt Hwf Hph I.
  pose proof (inv_high s I) as Hhigh. pose proof (inv_commit s I) as Hcommit.
  assert (phase s <> PhaseExternalize) as Hne by (destruct Hph as [->|[-> _]]; done).
  assert (phase s <> PhasePrepare -> (high_commit_after b s) = (high_ballot s, commit s)) as Hsame.
  { intros Hnp. destruct Hph as [?|[_ Hval]]; [done|]. unfold high_commit_after.
    destruct (high_ballot s) as [h|]; [|done]. simpl in *. injection Hval as Hval.
    by rewrite (proj2 (ballot_compatible_iff b h)). }
  assert (opt_below (high_commit_after b s).1 (Some b) /\
          opt_below (high_commit_after b s).2 (high_commit_after b s).1 /\
          wf_opt (high_commit_after b s).1 /\ wf_opt (high_commit_after b s).2) as (Hb1 & Hb2 & Hb3 & Hb4).
  { destruct I. unfold high_commit_after. destruct (map_or _ _ _) eqn:Em; [simpl|by simpl].
    split_and!; try done. destruct (high_ballot s) as [h|]; [simpl in *|done].
    apply ballot_compatible_iff in Em. split; [done|].
    destruct (current_ballot s) as [cur|]; [|done]. destruct Hhigh as [_ ?].
    apply ballot_compare_lt_counter in Hlt. lia. }
  unfold core in Hcore. injection Hcore as Hc Hp Hpp Hh Hcm Hphs. split.
  - destruct I. split; rewrite ?Hc, ?Hp, ?Hpp, ?Hh, ?Hcm, ?Hphs, ?He, ?Ho; try done.
    + intros Hn. rewrite (Hsame Hn). by apply inv_phase0.
    + intros Hn. rewrite Hsame by (rewrite Hn; done). by apply inv_override0.
  - apply evolves_same_phase; [|by rewrite Hphs|done].
    split; rewrite ?Hc, ?Hp, ?Hpp, ?Hh, ?Hcm, ?Hphs, ?He; try done.
    + intros _. unfold opt_ballot_le, cmp_le. by rewrite Hlt.
    + intros Hn. by rewrite (Hsame Hn).
Qed.

(** ** Accepting a ballot as prepared *)

Lemma change_prepared s l s' evs p' pp' :
  core s' = (current_ballot s, p', pp', high_ballot s, commit s, phase s) ->
  current_message_level s' = current_message_level s ->
  latest_envelopes s' = latest_envelopes s -> value_override s' = value_override s ->
  phase s <> PhaseExternalize -> wf_opt p' -> wf_opt pp' -> prime_below pp' p' ->
  opt_ballot_le (prepared s) p' -> externalized_values evs = [] ->
  ballot_inv s -> ballot_inv s' /\ evolves s l s' (l ++ evs).
Proof.
  intros [= Hc Hp Hpp Hh Hcm Hphs] Hl He Ho Hne Hwp Hwpp Hbelow Hle Hv I.
  split.
  - destruct I. by split; rewrite ?Hc, ?Hp, ?Hpp, ?Hh, ?Hcm, ?Hphs, ?He, ?Ho.
  - apply evolves_same_phase; [|by rewrite Hphs|done].
    by split; rewrite ?Hc, ?Hp, ?Hpp, ?Hh, ?Hcm, ?Hphs, ?He.
Qed.

Lemma set_prepared_wp b s l :
  ballot_inv s -> phase s <> PhaseExternalize -> wf_ballot b -> skip_candidate s b = false ->
  wp (set_prepared ctx b) (fun r s' l' =>
    (ballot_inv s' /\ evolves s l s' l') /\ high_ballot s' = high_ballot s /\
    phase s' = phase s /\ (r = true -> prepared s' = Some b \/ prepared_prime s' = Some b)) s l.
Proof.
  intros I Hne Hwf Hskip. unfold skip_candidate in Hskip.
  apply orb_false_iff in Hskip as [[_ Hpp]%orb_false_iff Hp]. 
  pose proof (inv_prepared_wf s I) as Hwp. pose proof (inv_prime_wf s I) as Hwpp.
  pose proof (inv_prime s I) as Hprime.
  unfold set_prepared, when. apply wp_bind, wp_get.
  destruct (prepared s) as [p|] eqn:Ep.
  - simpl in Hp. destruct (ballot_compare p b) eqn:Hcmp.
    + apply wp_ret. split_and!; try done. apply evolves_refl.
    + assert (opt_ballot_le (prepared s) (Some b)).
      { rewrite Ep. unfold opt_ballot_le, cmp_le. simpl. by rewrite Hcmp. }
      destruct (ballot_compatible p b) eqn:Hcompat; simpl; wp_steps;
        (split; [|split_and!; [done|done|by left]]); eapply change_prepared; try done; simpl.
      * apply ballot_compatible_iff in Hcompat.
        destruct (prepared_prime s) as [pp|]; [simpl in *|done]. destruct Hprime as [Hlt Hv].
        split; [by eapply (compare_lt_trans ballot_compare)|congruence].
      * split; [done|]. intros E. apply ballot_compatible_iff in E. congruence.
    + apply (compare_gt_lt ballot_compare) in Hcmp.
      assert (value b <> value p) as Hv.
      { intros Hv. apply not_true_iff_false in Hp. apply Hp, less_compatible_iff. split; [|done].
        by apply ballot_compare_lt_counter. }
      case_match; [|by apply wp_ret; split_and!; try done; apply evolves_refl].
      wp_steps. split; [eapply (change_prepared _ _ _ _ (Some p) (Some b)); unfold core; simpl;
        rewrite ?Ep; done|split_and!; [done|done|by right]].
  - wp_steps. split; [|split_and!; [done|done|by left]].
    eapply change_prepared; try done; simpl; [by destruct (prepared_prime s)|by rewrite Ep].
Qed.

Lemma void_commit s l :
  phase s <> PhaseExternalize -> ballot_inv s ->
  ballot_inv (put_commit None s) /\ evolves s l (put_commit None s) l.
Proof.
  intros Hne I. split; [by destruct I|]. rewrite <- (app_nil_r l) at 2.
  by apply evolves_same_phase.
Qed.

(** ** Raising the high and commit ballots

    The operations set the high ballot to one with the value of [b] first and
    move the current ballot up to [b] afterwards; between the two only the
    order of the high and the current ballot may be broken. *)

Record almost_inv (b : ScpBallot) (s : BallotProtocol) : Prop := {
  ai_wf : wf_ballot b /\ wf_opt (current_ballot s) /\ wf_opt (prepared s) /\
          wf_opt (prepared_prime s) /\ wf_opt (high_ballot s) /\ wf_opt (commit s);
  ai_prime : prime_below (prepared_prime s) (prepared s);
  ai_high : match high_ballot s with
            | Some h => value h = value b /\
                (counter h <= counter b \/ counter h <= counter_or_zero (current_ballot s))
            | None => False
            end;
  ai_current : match current_ballot s with Some cur => value cur = value b | None => True end;
  ai_commit : opt_below (commit s) (high_ballot s);
  ai_override : phase s = PhaseConfirm -> value_override s = Some (value b);
  ai_phase : phase s <> PhaseExternalize;
  ai_envs : wf_envs (latest_envelopes s)
}.

Record settled (s1 : BallotProtocol) (l1 : list DriverEvent) (s2 : BallotProtocol)
    (l2 : list DriverEvent) : Prop := {
  st_core : core s2 = (current_ballot s2, prepared s1, prepared_prime s1, high_ballot s1, commit s1, phase s1);
  st_current : opt_ballot_le (current_ballot s1) (current_ballot s2);
  st_level : current_message_level s2 = current_message_level s1;
  st_envs : latest_envelopes s2 = latest_envelopes s1;
  st_log : exists evs, l2 = l1 ++ evs /\ externalized_values evs = []
}.

Lemma settle b s1 l1 :
  almost_inv b s1 ->
  wp (update_current_if_needed ctx b) (fun r s2 l2 => ballot_inv s2 /\ settled s1 l1 s2 l2) s1 l1.
Proof.
  intros []. destruct ai_wf0 as (Hb & Hcur & Hp & Hpp & Hh & Hc).
  destruct (high_ballot s1) as [h|] eqn:Eh; [|done]. destruct ai_high0 as [Hv Hle].
  eapply wp_mono; [apply update_current_if_needed_wp|]. intros [] s2 l2.
  - intros [[Hcore Hl He Ho Hlog] Hlt]. 
    assert (high_commit_after b s1 = (Some h, commit s1)) as Ehc.
    { unfold high_commit_after. rewrite Eh. simpl. by rewrite (proj2 (ballot_compatible_iff b h)). }
    rewrite Ehc in Hcore. unfold core in Hcore. simpl in Hcore.
    injection Hcore as Ec Ep Epp Eh2 Ecm Eph. split.
    + split; rewrite ?Ec, ?Ep, ?Epp, ?Eh2, ?Ecm, ?Eph, ?He, ?Ho; try done.
      * simpl. split; [done|]. destruct Hle as [?|Hle]; [done|].
        destruct (current_ballot s1) as [cur|]; simpl in *; [|unfold wf_ballot, is_u32 in *; lia].
        apply ballot_compare_lt_counter in Hlt. lia.
      * intros E. simpl. rewrite Hv. by apply ai_override0.
    + split; unfold core; rewrite ?Ec, ?Ep, ?Epp, ?Eh2, ?Ecm, ?Eph, ?Eh; try done.
      unfold opt_ballot_le, cmp_le. by rewrite Hlt.
  - intros (-> & -> & Hge). destruct (current_ballot s1) as [cur|] eqn:Ecur; [|done]. split.
    + split; rewrite ?Ecur, ?Eh; try done.
      * simpl. split; [congruence|]. destruct Hle as [Hle|Hle]; [|done].
        unfold opt_ballot_le in Hge. apply (cmp_le_lt_eq cmp_opt_ballot) in Hge as [Hlt|[= ->]]; [|done].
        apply ballot_compare_lt_counter in Hlt. lia.
      * intros E. simpl. rewrite Hv. by apply ai_override0.
    + split; rewrite ?Ecur, ?Eh; try done; [unfold core; by rewrite Ecur, Eh|].
      exists []. by rewrite app_nil_r.
Qed.

Lemma settled_evolves s l s1 evs s2 l2 :
  settled s1 (l ++ evs) s2 l2 ->
  current_message_level s1 = current_message_level s -> latest_envelopes s1 = latest_envelopes s ->
  prepared s1 = prepared s -> phase_rank (phase s) <= phase_rank (phase s1) ->
  phase s <> PhaseExternalize -> phase s1 <> PhaseExternalize ->
  (phase s = phase s1 -> opt_ballot_le (current_ballot s) (current_ballot s1)) ->
  (phase s <> PhasePrepare -> value <$> high_ballot s1 = value <$> high_ballot s) ->
  externalized_values evs = [] -> evolves s l s2 l2.
Proof.
  intros [Hcore Hcur Hl He (evs2 & -> & Hv2)] El Ee Ep Hrank Hne Hne1 Hc Hv Hevs.
  unfold core in Hcore. injection Hcore as Hp2 Hpp2 Hh2 Hc2 Hph2. rewrite <- app_assoc.
  apply evolves_same_phase; [|by rewrite Hph2|by rewrite externalized_values_app, Hevs, Hv2].
  split; rewrite ?Hp2, ?Hh2, ?Hph2, ?He, ?Ee, ?Hl, ?Ep; try done.
  intros E. etrans; [by apply Hc|done].
Qed.

(** ** Bumping *)

Lemma update_current_value_wp b s l :
  ballot_inv s -> wf_ballot b ->
  (phase s = PhaseConfirm -> value <$> high_ballot s = Some (value b)) ->
  wp (update_current_value ctx b) (fun r s' l' =>
    (ballot_inv s' /\ evolves s l s' l') /\ (r = true -> current_ballot s' = Some b)) s l.
Proof.
  intros I Hb Hv. unfold update_current_value. apply wp_bind, wp_get.
  assert (wp (ret false) (fun (r : bool) s' l' =>
    (ballot_inv s' /\ evolves s l s' l') /\ (r = true -> current_ballot s' = Some b)) s l) as Hstay
    by (split_and!; try done; apply evolves_refl).
  destruct (_ && _) eqn:Hp; [done|].
  assert (phase s = PhasePrepare \/ phase s = PhaseConfirm /\ value <$> high_ballot s = Some (value b)) as Hph.
  { destruct (phase s); [by left|by right; auto|by vm_compute in Hp]. }
  assert (cmp_opt_ballot (current_ballot s) (Some b) = Lt ->
    wp (bump_to_ballot ctx b true) (fun r s' l' => r = true /\
    (ballot_inv s' /\ evolves s l s' l') /\ current_ballot s' = Some b) s l) as Hbump.
  { intros Hlt. eapply wp_mono; [apply bump_to_ballot_wp|]. intros [] s' l'.
    - intros [B _]. split; [done|]. split; [by eapply bumped_ok|].
      destruct B as [Hcore _ _ _ _]. unfold core in Hcore. congruence.
    - intros (_ & _ & _ & Hge). by apply (compare_gt_lt cmp_opt_ballot) in Hlt. }
  destruct (current_ballot s) as [cur|] eqn:Ecur.
  - destruct (match commit s with Some c => _ | None => false end); [done|].
    destruct (ballot_compare cur b) eqn:Hcmp; [done| |done].
    eapply wp_mono; [by apply Hbump|]. intros r s' l' (_ & ? & ?). auto.
  - apply wp_bind. eapply wp_mono; [by apply Hbump|]. intros r s' l' (_ & ? & ?).
    apply wp_ret. auto.
Qed.

(** What the loop over [attempt_bump] decreases. *)
Definition bump_measure (s : BallotProtocol) : Z :=
  (2 - phase_rank (phase s)) * 2 ^ 32 + (u32_max - counter_or_zero (current_ballot s)).

Lemma bump_measure_bounds s : ballot_inv s -> 0 <= bump_measure s < 3 * 2 ^ 32.
Proof.
  intros I. pose proof (counter_or_zero_u32 _ (inv_current s I)) as Hc.
  unfold bump_measure, is_u32, u32_max in *. destruct (phase s); simpl phase_rank; lia.
Qed.

Lemma opt_ballot_le_counter a b : wf_opt b -> opt_ballot_le a b -> counter_or_zero a <= counter_or_zero b.
Proof.
  intros Hb Hle. apply (cmp_le_lt_eq cmp_opt_ballot) in Hle as [Hlt| ->]; [|done].
  destruct a, b; simpl in *; try done; [by apply ballot_compare_lt_counter|apply Hb].
Qed.

Lemma bump_measure_evolves s s' :
  ballot_inv s -> ballot_inv s' -> evolves_state s s' -> bump_measure s' <= bump_measure s.
Proof.
  intros I I' E. pose proof (ev_phase _ _ E) as Hp. unfold bump_measure.
  pose proof (counter_or_zero_u32 _ (inv_current s I)). pose proof (counter_or_zero_u32 _ (inv_current s' I')).
  unfold is_u32, u32_max in *.
  destruct (decide (phase s = phase s')) as [Heq|Hne].
  - pose proof (opt_ballot_le_counter _ _ (inv_current s' I') (ev_current _ _ E Heq)). rewrite Heq. lia.
  - assert (phase_rank (phase s) <> phase_rank (phase s')) by (intros ?%phase_rank_inj; done). lia.
Qed.

Section transitions.
Context (L : Z) (emit : BM unit) (Hemit : keeps_at L emit).

(** Running [emit] after some steps. *)
Lemma emit_after s l s1 l1 :
  current_message_level s = L -> evolves s l s1 l1 -> ballot_inv s1 ->
  wp emit (fun _ s' l' => ballot_inv s' /\ evolves s l s' l') s1 l1.
Proof.
  intros Hl E I1. apply wp_evolves; [done|]. apply Hemit; [done|].
  by rewrite (evolves_level _ _ _ _ E).
Qed.

Lemma set_accept_prepared_wp b s l :
  ballot_inv s -> current_message_level s = L -> phase s <> PhaseExternalize ->
  wf_ballot b -> skip_candidate s b = false ->
  wp (set_accept_prepared ctx emit b) (fun r s' l' =>
    (ballot_inv s' /\ evolves s l s' l') /\ (r = false -> phase s' = phase s)) s l.
Proof.
  intros I Hl Hne Hwf Hskip. unfold set_accept_prepared, when. apply wp_bind.
  eapply wp_mono; [by apply set_prepared_wp|]. intros r s1 l1 [[I1 E1] (_ & Hph & _)].
  apply wp_bind, wp_get.
  assert (forall (r : bool) s2, ballot_inv s2 -> evolves s l s2 l1 -> phase s2 = phase s1 ->
    wp ((if r then emit else ret tt) ;; ret r) (fun r s' l' =>
      (ballot_inv s' /\ evolves s l s' l') /\ (r = false -> phase s' = phase s)) s2 l1) as Hend.
  { intros r2 s2 I2 E2 Hp2. apply wp_bind. destruct r2.
    - eapply wp_mono; [by eapply emit_after|]. intros. by apply wp_ret.
    - apply wp_ret, wp_ret. split; [done|]. congruence. }
  destruct (commit s1), (high_ballot s1) as [h|]; [|by apply wp_ret|by apply (Hend r)..].
  apply wp_bind. set (inc := _ || _). destruct inc.
  - apply wp_modify. rewrite orb_true_r.
    destruct (void_commit s1 l1) as [I2 E2]; [congruence|done|].
    apply (Hend true); [done|by eapply evolves_trans|done].
  - apply wp_ret. rewrite orb_false_r. by apply (Hend r).
Qed.

Lemma accept_prepared_loop_keeps cs s l :
  Forall wf_ballot cs -> ballot_inv s -> current_message_level s = L ->
  phase s <> PhaseExternalize -> keeps (accept_prepared_loop ctx emit cs) s l.
Proof.
  intros Hcs. revert s l. induction Hcs as [|b cs Hb _ IH]; intros s l I Hl Hne; simpl.
  { by apply keeps_ret. }
  apply wp_bind, wp_get. destruct (skip_candidate s b) eqn:Hskip; [by apply IH|].
  case_match; [|by apply IH]. apply wp_bind.
  eapply wp_mono; [by apply set_accept_prepared_wp|]. intros [] s1 l1 [[I1 E1] Hph].
  - by apply wp_ret.
  - apply wp_evolves; [done|]. apply IH; [done| |by rewrite Hph].
    by rewrite (evolves_level _ _ _ _ E1).
Qed.

Lemma attempt_accept_prepared_keeps hint :
  wf_pledges (pledges hint) -> keeps_at L (attempt_accept_prepared ctx emit hint).
Proof.
  intros Hh s l I Hl. unfold attempt_accept_prepared. apply wp_bind, wp_get.
  destruct (is_externalized s) eqn:He; [by apply keeps_ret|].
  apply accept_prepared_loop_keeps; try done.
  - apply Forall_forall. intros b Hb. rewrite elem_of_reverse in Hb.
    by eapply candidates_wf; [exact (inv_envs s I)|..].
  - intros Hp%is_externalized_spec. congruence.
Qed.

(** What stays the same while the high and commit ballots are raised. *)
Definition raised (s s1 : BallotProtocol) : Prop :=
  current_ballot s1 = current_ballot s /\ prepared s1 = prepared s /\
  latest_envelopes s1 = latest_envelopes s /\ phase s1 = phase s /\
  current_message_level s1 = current_message_level s.

Lemma raise_high_and_commit_wp new_c new_h s l :
  wf_ballot new_c -> wf_ballot new_h -> value new_c = value new_h ->
  counter new_c <= counter new_h -> phase s = PhasePrepare ->
  map_or true (fun b => ballot_compatible b new_h) (current_ballot s) = true ->
  ballot_inv s ->
  wp (raise_high_and_commit ctx new_c new_h) (fun _ s1 l1 =>
    almost_inv new_h s1 /\ raised s s1 /\
    exists evs, l1 = l ++ evs /\ externalized_values evs = []) s l.
Proof.
  intros Hwc Hwh Hv Hle Hph Hcompat I. destruct I. unfold raise_high_and_commit, when.
  assert (match current_ballot s with Some cur => value cur = value new_h | None => True end) as Hcur.
  { destruct (current_ballot s); [|done]. by apply ballot_compatible_iff. }
  assert (match high_ballot s with Some h => value h = value new_h | None => True end) as Hhv.
  { destruct (high_ballot s), (current_ballot s); simpl in *; try done. naive_solver congruence. }
  assert (forall evs s1, raised s s1 -> prepared_prime s1 = prepared_prime s ->
      wf_opt (high_ballot s1) -> wf_opt (commit s1) -> opt_below (commit s1) (high_ballot s1) ->
      match high_ballot s1 with
      | Some h => value h = value new_h /\
         (counter h <= counter new_h \/ counter h <= counter_or_zero (current_ballot s))
      | None => False
      end -> externalized_values evs = [] ->
      almost_inv new_h s1 /\ raised s s1 /\
      exists evs', l ++ evs = l ++ evs' /\ externalized_values evs' = []) as Hdone.
  { intros evs s1 (E1 & E2 & E3 & E4 & E5) E6 ? ? ? ? ?. split; [|by split; eauto].
    by split; rewrite ?E1, ?E2, ?E3, ?E4, ?E6, ?Hph. }
  assert (externalized_values [BallotDidConfirm (ctx_slot_index ctx) new_h] = []) as Hev by done.
  apply wp_bind, wp_get. destruct (map_or true _ (high_ballot s)) eqn:Hr.
  - assert (opt_below (commit s) (Some new_h)) as Hc1.
    { destruct (commit s) as [c|], (high_ballot s) as [h|]; simpl in *; try done.
      apply bool_decide_eq_true, (compare_gt_lt ballot_compare), ballot_compare_lt_counter in Hr.
      destruct inv_commit0. split; [congruence|lia]. }
    destruct (_ && _) eqn:Hs; wp_steps; simpl; wp_steps; apply Hdone; try done; simpl; eauto with lia.
  - destruct (high_ballot s) as [h|] eqn:Eh; [|done]. simpl in Hr.
    apply bool_decide_eq_false in Hr.
    assert (counter new_h <= counter h).
    { destruct (ballot_compare new_h h) eqn:E; [|by apply ballot_compare_lt_counter|done].
      apply (compare_eq ballot_compare) in E as ->. lia. }
    assert (counter h <= counter_or_zero (current_ballot s)).
    { destruct (current_ballot s); simpl in *; [lia|done]. }
    destruct (_ && _) eqn:Hs; wp_steps; simpl; wp_steps.
    + apply Hdone; simpl; rewrite ?Eh; try done; [split; [congruence|lia]|by auto].
    + pose proof (Hdone [] s) as Hd. rewrite app_nil_r in Hd. apply Hd; rewrite ?Eh; try done. by auto.
Qed.

Lemma set_confirm_prepared_keeps new_c new_h s l :
  wf_ballot new_c -> wf_ballot new_h -> value new_c = value new_h ->
  counter new_c <= counter new_h -> phase s = PhasePrepare ->
  ballot_inv s -> current_message_level s = L ->
  keeps (set_confirm_prepared ctx emit new_c new_h) s l.
Proof.
  intros Hwc Hwh Hv Hle Hph I Hl. unfold set_confirm_prepared.
  apply wp_bind, wp_modify, wp_bind, wp_get.
  set (s0 := put_value_override _ s).
  assert (ballot_inv s0) as I0.
  { destruct I. split; try done. intros E. change (phase s = PhaseConfirm) in E. congruence. }
  assert (evolves s l s0 l) as E0 by by apply evolves_quiet_0.
  assert (phase s0 = PhasePrepare) as Hph0 by done.
  assert (forall (d : bool) s1 l1,
    wp (update_current_if_needed ctx new_h) (fun _ s2 l2 => ballot_inv s2 /\ evolves s l s2 l2) s1 l1 ->
    wp (updated <- update_current_if_needed ctx new_h ;; when (updated || d) emit ;; ret (updated || d))
      (fun _ s2 l2 => ballot_inv s2 /\ evolves s l s2 l2) s1 l1) as Hend.
  { intros d s1 l1 Hu. apply wp_bind. eapply wp_mono; [exact Hu|]. intros r s2 l2 [I2 E2].
    apply wp_bind. unfold when. destruct (r || d); [|by apply wp_ret, wp_ret].
    eapply wp_mono; [by eapply emit_after|]. intros. by apply wp_ret. }
  apply wp_bind. destruct (map_or true _ _) eqn:Hcompat.
  - eapply wp_mono; [apply raise_high_and_commit_wp; done|].
    intros d s1 l1 (A1 & (Ec & Ep & Ee & Eph & El) & evs & -> & Hevs). apply Hend.
    eapply wp_mono; [by apply settle|]. intros r s2 l2 [I2 S2]. split; [done|].
    eapply settled_evolves; rewrite ?Ec, ?Ep, ?Ee, ?Eph, ?Hph, ?Hph0; try done; lia.
  - apply wp_ret, Hend. eapply wp_mono; [apply update_current_if_needed_wp|].
    intros [] s2 l2; [|by intros (-> & -> & _)]. intros [B Hlt].
    edestruct bumped_ok as [I2 E2]; [exact B|exact Hlt|done|by left|done|].
    split; [done|]. by eapply evolves_trans.
Qed.

Lemma highest_confirmed_elem s cs b n :
  highest_confirmed ctx s cs = Some (b, n) -> b ∈ cs.
Proof.
  induction cs as [|c cs IH]; simpl; [done|]. case_match; [done|]. case_match; [|set_solver].
  intros [= <- _]. set_solver.
Qed.

Lemma lowest_commit_elem s cur h c cs :
  lowest_commit ctx s cur h c cs = c \/
  lowest_commit ctx s cur h c cs ∈ cs /\
  are_ballots_less_and_compatible (lowest_commit ctx s cur h c cs) h = true.
Proof.
  revert c. induction cs as [|b cs IH]; intros c; simpl; [by left|].
  case_match; [by left|]. destruct (are_ballots_less_and_compatible b h) eqn:Hb; simpl.
  - case_match; [|by left]. destruct (IH b) as [->|?]; right; set_solver.
  - destruct (IH c) as [?|?]; [by left|]. right. set_solver.
Qed.

Lemma find_lowest_commit_ballot_ok s cs h n :
  (forall b, b ∈ cs -> wf_ballot b) -> wf_ballot h ->
  wf_ballot (find_lowest_commit_ballot ctx s cs h n) /\
  value (find_lowest_commit_ballot ctx s cs h n) = value h /\
  counter (find_lowest_commit_ballot ctx s cs h n) <= counter h.
Proof.
  intros Hcs Hh. unfold find_lowest_commit_ballot.
  assert (wf_ballot (Ballot 0 (value h)) /\ 0 <= counter h) as [? ?].
  { unfold wf_ballot, is_u32, u32_max in *. simpl. lia. }
  case_match; [|by split_and!].
  destruct (lowest_commit_elem s match current_ballot s with
    Some b => b | None => Ballot 0 (value h) end h (Ballot 0 (value h)) (reverse (take (S n) cs)))
    as [->|[Hel Hle]]; [by split_and!|].
  rewrite elem_of_reverse in Hel. apply less_compatible_iff in Hle as [? ?].
  split_and!; try done. eapply Hcs, subseteq_take; done.
Qed.

Lemma attempt_confirm_prepared_keeps hint :
  wf_pledges (pledges hint) -> keeps_at L (attempt_confirm_prepared ctx emit hint).
Proof.
  intros Hh s l I Hl. unfold attempt_confirm_prepared. apply wp_bind, wp_get.
  case_bool_decide as Hp; simpl; [|by apply keeps_ret].
  case_bool_decide; [by apply keeps_ret|].
  assert (forall b, b ∈ get_prepare_candidates (latest_envelopes s) hint -> wf_ballot b) as Hcs.
  { intros b Hb. by eapply candidates_wf; [exact (inv_envs s I)|..]. }
  destruct (find_highest_confirmed_prepared ctx s _) as [[h n]|] eqn:Hf; [|by apply keeps_ret].
  apply highest_confirmed_elem in Hf. rewrite elem_of_reverse in Hf.
  destruct (find_lowest_commit_ballot_ok s _ h n Hcs (Hcs h Hf)) as (? & ? & ?).
  apply set_confirm_prepared_keeps; auto.
Qed.

(** Entering the confirm phase with the high and commit ballots already set. *)
Lemma enter_confirm_wp c h s l :
  ballot_inv s -> wf_ballot c -> wf_ballot h -> value c = value h -> counter c <= counter h ->
  forall s0, core s0 = (current_ballot s, prepared s, prepared_prime s, Some h, Some c, PhasePrepare) ->
  value_override s0 = Some (value h) -> latest_envelopes s0 = latest_envelopes s ->
  current_message_level s0 = current_message_level s ->
  wp (enter_confirm ctx h) (fun _ s1 l1 =>
    almost_inv h s1 /\ phase s1 = PhaseConfirm /\ commit s1 = Some c /\ high_ballot s1 = Some h /\
    prepared s1 = prepared s /\ latest_envelopes s1 = latest_envelopes s /\
    current_message_level s1 = current_message_level s /\
    exists evs, l1 = l ++ evs /\ externalized_values evs = []) s0 l.
Proof.
  intros I Hwc Hwh Hv Hle s0 [= Ec Ep Epp Eh Ecm Eph] Ho Ee El. destruct I.
  assert (forall s1 evs, core s1 = (current_ballot s1, prepared s, None, Some h, Some c, PhaseConfirm) ->
    value_override s1 = Some (value h) -> latest_envelopes s1 = latest_envelopes s ->
    current_message_level s1 = current_message_level s -> wf_opt (current_ballot s1) ->
    match current_ballot s1 with Some cur => value cur = value h | None => True end ->
    externalized_values evs = [] ->
    almost_inv h s1 /\ phase s1 = PhaseConfirm /\ commit s1 = Some c /\ high_ballot s1 = Some h /\
    prepared s1 = prepared s /\ latest_envelopes s1 = latest_envelopes s /\
    current_message_level s1 = current_message_level s /\
    exists evs', l ++ evs = l ++ evs' /\ externalized_values evs' = []) as Hdone.
  { intros s1 evs [= Hp1 Hpp1 Hh1 Hc1 Hph1] Ho1 He1 El1 Hw1 Hcur1 Hev. split; [|split_and!; eauto].
    split; rewrite ?Hp1, ?Hpp1, ?Hh1, ?Hc1, ?Hph1, ?He1; try done. split; [done|by left]. }
  unfold enter_confirm, when. apply wp_bind, wp_get, wp_bind, wp_modify, wp_bind.
  destruct (map_or false _ _) eqn:Hm.
  - apply wp_bind. eapply wp_mono; [apply bump_to_ballot_wp|].
    intros [] s1 l1; [|by intros (? & ? & ? & ?)].
    intros [[Hcore Hl1 He1 Ho1 (evs & -> & Hevs)] _].
    assert (high_commit_after h (put_phase PhaseConfirm s0) = (Some h, Some c)) as Ehc.
    { unfold high_commit_after. simpl. rewrite Eh, Ecm. simpl.
      by rewrite (proj2 (ballot_compatible_iff h h)). }
    rewrite Ehc in Hcore. unfold core in Hcore. simpl in Hcore.
    injection Hcore as Hc1 Hp1 Hpp1 Hh1 Hcm1 Hph1. simpl in Hl1, He1, Ho1. wp_steps.
    apply Hdone; unfold core; simpl; rewrite ?Hc1; congruence || done.
  - pose proof (Hdone (put_prepared_prime None (put_phase PhaseConfirm s0)) []) as Hd.
    rewrite app_nil_r in Hd. wp_steps.
    apply Hd; unfold core; simpl; rewrite ?Ec; try congruence; try done.
    rewrite Ec in Hm. destruct (current_ballot s) as [cur|]; [|done]. simpl in Hm.
    apply negb_false_iff, less_compatible_iff in Hm. by destruct Hm.
Qed.

Lemma set_accept_commit_keeps c h s l :
  wf_ballot c -> wf_ballot h -> value c = value h -> counter c <= counter h ->
  phase s <> PhaseExternalize ->
  (phase s = PhaseConfirm -> value <$> high_ballot s = Some (value h)) ->
  ballot_inv s -> current_message_level s = L ->
  keeps (set_accept_commit ctx emit c h) s l.
Proof.
  intros Hwc Hwh Hv Hle Hne Hconf I Hl. unfold set_accept_commit.
  apply wp_bind, wp_modify, wp_bind, wp_get.
  set (s0 := put_value_override _ s). set (changed := _ || _).
  assert (changed = false -> commit s = Some c /\ high_ballot s = Some h) as Hsame.
  { unfold changed. simpl. intros [Ha Hb]%orb_false_iff.
    destruct (high_ballot s), (commit s); simpl in *; try done.
    apply negb_false_iff, bool_decide_eq_true, (compare_eq ballot_compare) in Ha, Hb. by subst. }
  clearbody changed.
  set (s1 := if changed then put_high_ballot (Some h) (put_commit (Some c) s0) else s0).
  assert (core s1 = (current_ballot s, prepared s, prepared_prime s, Some h, Some c, phase s)) as Hcore1.
  { unfold s1. destruct changed; [done|]. destruct Hsame as [Hs1 Hs2]; [done|].
    unfold core. simpl. by rewrite Hs1, Hs2. }
  assert (value_override s1 = Some (value h) /\ latest_envelopes s1 = latest_envelopes s /\
          current_message_level s1 = current_message_level s) as (Ho1 & He1 & Hl1)
    by (unfold s1; by destruct changed).
  apply wp_bind, (wp_mono _ (fun _ s' l' => s' = s1 /\ l' = l));
    [unfold when, s1; by destruct changed|]. intros _ ? ? [-> ->].
  assert (forall s2 evs, almost_inv h s2 -> phase s2 = PhaseConfirm -> high_ballot s2 = Some h ->
    prepared s2 = prepared s -> latest_envelopes s2 = latest_envelopes s ->
    current_message_level s2 = current_message_level s -> externalized_values evs = [] ->
    (phase s = PhaseConfirm -> current_ballot s2 = current_ballot s) ->
    wp (when true (update_current_if_needed ctx h ;; tell (AcceptedCommit (ctx_slot_index ctx) h) ;; emit) ;;
        ret true)
      (fun _ s' l' => ballot_inv s' /\ evolves s l s' l') s2 (l ++ evs)) as Hend.
  { intros s2 evs A2 Hp2 Hh2 Hpr2 He2 Hl2 Hevs Hc2. apply wp_bind, wp_bind.
    eapply wp_mono; [by apply settle|]. intros _ s3 l3 [I3 S3].
    apply wp_bind, wp_tell. eapply wp_mono.
    - apply (emit_after s); [done| |done]. apply evolves_tell; [|done].
      eapply settled_evolves; rewrite ?Hl2, ?He2, ?Hpr2, ?Hp2, ?Hh2; try done.
      + destruct (phase s); done.
      + intros E. by rewrite Hc2.
      + intros ?. rewrite Hconf; [done|]. by destruct (phase s).
    - intros. by apply wp_ret. }
  unfold core in Hcore1. injection Hcore1 as Hc1 Hp1 Hpp1 Hh1 Hcm1 Hph1.
  destruct (decide (phase s = PhasePrepare)) as [Hp|Hp].
  - rewrite bool_decide_eq_true_2 by done. rewrite orb_true_r. apply wp_bind.
    eapply wp_mono; [apply (enter_confirm_wp c h s); try done; unfold core; congruence|].
    intros _ s2 l2 (A2 & ? & ? & ? & ? & ? & ? & evs & -> & ?). apply Hend; try done. congruence.
  - rewrite bool_decide_eq_false_2 by done. rewrite orb_false_r.
    assert (phase s = PhaseConfirm) as Hcf by by destruct (phase s).
    apply wp_bind, wp_ret. destruct changed.
    + specialize (Hend s1 []). rewrite app_nil_r in Hend.
      apply Hend; try done; try congruence. pose proof I as I0. destruct I0.
      split; rewrite ?Hc1, ?Hp1, ?Hpp1, ?Hh1, ?Hcm1, ?Hph1, ?He1; try done; [split; [done|by left]|].
      specialize (Hconf Hcf). destruct (high_ballot s), (current_ballot s); simpl in *; try done.
      naive_solver congruence.
    + destruct Hsame as [Hs1 Hs2]; [done|]. apply wp_bind, wp_ret, wp_ret. split.
      * eapply quiet_inv; [..|exact I]; try done; [|rewrite He1; apply I].
        rewrite Ho1. symmetry. rewrite <- (Hconf Hcf). by apply I.
      * by apply evolves_quiet_0; rewrite ?He1.
Qed.

(** The interval the search returns is made of well-formed counters. *)
Lemma extended_interval_ok ballot envs pred :
  wf_envs envs ->
  let r := find_extended_interval (0, 0) (get_commit_boundaries_from_statements ballot envs) pred in
  r.1 <> 0 -> is_u32 r.1 /\ is_u32 r.2 /\ r.1 <= r.2 /\ pred r = true.
Proof.
  intros He r Hr. pose proof (fun n => boundaries_wf ballot envs n He) as Hb.
  destruct (find_extended_interval_spec (get_commit_boundaries_from_statements ballot envs) pred)
    as (_ & Hfound & _); [intros b Hin%Hb; unfold is_u32 in Hin; lia|].
  destruct (Hfound Hr) as (Hle & K1 & K2 & Hp & _).
  rewrite elem_of_reverse, elem_of_btree_elements in K1, K2.
  by split_and!; [apply Hb|apply Hb|..].
Qed.

Lemma attempt_accept_commit_keeps hint : keeps_at L (attempt_accept_commit ctx emit hint).
Proof.
  intros s l I Hl. unfold attempt_accept_commit. apply wp_bind, wp_get.
  destruct (is_externalized s) eqn:Hx; [by apply keeps_ret|].
  destruct (hint_ballot_for_commit hint) as [b|]; [|by apply keeps_ret].
  destruct (_ && _) eqn:Hcompat; [by apply keeps_ret|].
  cbv zeta. destruct (bool_decide (get_commit_boundaries_from_statements _ _ = ∅)); [by apply keeps_ret|].
  match goal with |- context [find_extended_interval _ _ ?pred] =>
    pose proof (extended_interval_ok b (latest_envelopes s) pred (inv_envs s I)) as Hint
  end. cbv zeta in *. set (r := find_extended_interval _ _ _) in *.
  destruct (Z.eqb_spec r.1 0); [by apply keeps_ret|]. destruct Hint as (? & ? & Hle & _); [done|].
  case_match; [|by apply keeps_ret]. apply set_accept_commit_keeps; try done.
  - intros Hp%is_externalized_spec. congruence.
  - intros Hp. rewrite bool_decide_eq_true_2 in Hcompat by done. simpl in Hcompat.
    destruct (high_ballot s) as [h|] eqn:Eh.
    + simpl in *. apply negb_false_iff, ballot_compatible_iff in Hcompat. by rewrite Hcompat.
    + destruct (inv_phase s I); [by rewrite Hp|done].
Qed.

Lemma set_confirm_commit_keeps c h s l :
  wf_ballot c -> wf_ballot h -> value c = value h -> counter c <= counter h ->
  phase s = PhaseConfirm -> value <$> commit s = Some (value h) ->
  ballot_inv s -> current_message_level s = L ->
  keeps (set_confirm_commit ctx emit c h) s l.
Proof.
  intros Hwc Hwh Hv Hle Hp Hc I Hl. unfold set_confirm_commit. apply wp_bind.
  assert (value <$> high_ballot s = Some (value h)) as Hhv.
  { pose proof (inv_commit s I). destruct (commit s), (high_ballot s); simpl in *; try done.
    naive_solver congruence. }
  assert (wp (update_current_if_needed ctx h) (fun _ s1 l1 =>
    ballot_inv s1 /\ evolves s l s1 l1 /\ phase s1 = PhaseConfirm /\ opt_below (Some h) (current_ballot s1)) s l)
    as Hup.
  { eapply wp_mono; [apply update_current_if_needed_wp|]. intros [] s1 l1.
    - intros [B Hlt]. edestruct bumped_ok as [I1 E1]; [exact B|exact Hlt|done|by right|done|].
      destruct B as [Hcore _ _ _ _]. unfold core in Hcore. injection Hcore as Hc1 _ _ _ _ Hp1.
      split_and!; try done; [congruence|]. by rewrite Hc1.
    - intros (-> & -> & Hge). split_and!; try done; [apply evolves_refl|].
      pose proof (inv_high s I). destruct (high_ballot s), (current_ballot s) as [cur|]; simpl in *; try done.
      split; [naive_solver congruence|].
      apply (cmp_le_lt_eq ballot_compare) in Hge as [?%ballot_compare_lt_counter| ->]; lia. }
  eapply wp_mono; [exact Hup|]. intros _ s1 l1 (I1 & E1 & Hp1 & Hb1).
  apply wp_bind, wp_modify, wp_bind, wp_modify, wp_bind, wp_modify, wp_bind.
  set (s2 := put_phase _ _).
  assert (value <$> high_ballot s1 = Some (value h)) as Hhv1.
  { destruct E1 as [E1 _]. rewrite (ev_value _ _ E1); [done|by rewrite Hp]. }
  assert (ballot_inv s2 /\ evolves_state s1 s2) as [I2 E2].
  { destruct I1. split; split; try done; simpl; rewrite ?Hp1; try done. }
  eapply wp_mono.
  { apply Hemit; [done|]. change (current_message_level s1 = L). by rewrite (evolves_level _ _ _ _ E1). }
  intros _ s3 l3 [I3 [E3 (evs3 & -> & Hevs3)]]. pose proof (ev_frozen _ _ E3 eq_refl) as F.
  unfold core in F. injection F as _ _ _ _ Hc3 Hp3.
  apply wp_bind, wp_modify, wp_bind, wp_get. simpl. rewrite Hc3. apply wp_bind, wp_tell, wp_ret.
  destruct E1 as (E1 & evs1 & -> & Hevs1). split; [by eapply quiet_inv, I3; try apply I3|].
  assert (evolves_state s (put_needs_stop_nomination true s3)) as E4.
  { etrans; [exact E1|]. etrans; [exact E2|]. etrans; [exact E3|]. by apply quiet_evolves_state. }
  split; [done|]. exists ((evs1 ++ evs3) ++ [ValueExternalized (ctx_slot_index ctx) (value c)]).
  split; [by rewrite !app_assoc|].
  rewrite !externalized_values_app, Hevs1, Hevs3, (newly_externalized_frozen s2) by done.
  unfold newly_externalized, is_externalized. simpl. rewrite Hp, Hp1, Hp3, Hc3. done.
Qed.

Lemma attempt_confirm_commit_keeps hint : keeps_at L (attempt_confirm_commit ctx emit hint).
Proof.
  intros s l I Hl. unfold attempt_confirm_commit. apply wp_bind, wp_get.
  case_bool_decide as Hp; simpl; [|by apply keeps_ret].
  destruct (high_ballot s); [|by apply keeps_ret].
  destruct (commit s) as [c0|] eqn:Ec; [|by apply keeps_ret].
  destruct (match pledges hint with Prepare _ => true | _ => false end); [by apply keeps_ret|].
  destruct (hint_ballot_for_commit hint) as [b|]; [|by apply keeps_ret].
  destruct (ballot_compatible b c0) eqn:Hcompat; simpl; [|by apply keeps_ret].
  match goal with |- context [find_extended_interval _ _ ?pred] =>
    pose proof (extended_interval_ok b (latest_envelopes s) pred (inv_envs s I)) as Hint
  end. cbv zeta in *. set (r := find_extended_interval _ _ _) in *.
  destruct (Z.eqb_spec r.1 0); [by apply keeps_ret|]. destruct Hint as (? & ? & Hle & _); [done|].
  apply ballot_compatible_iff in Hcompat.
  apply set_confirm_commit_keeps; try done. by rewrite Ec, Hcompat.
Qed.

Lemma bump_state_wp v n s l :
  is_u32 n -> ballot_inv s -> current_message_level s = L ->
  wp (bump_state ctx emit v n) (fun r s' l' =>
    (ballot_inv s' /\ evolves s l s' l') /\
    (r = true -> counter_or_zero (current_ballot s) < n -> bump_measure s' < bump_measure s)) s l.
Proof.
  intros Hn I Hl. unfold bump_state. apply wp_bind, wp_get.
  destruct (_ && _) eqn:Hp; [by apply wp_ret; split; [by apply stay|]|].
  cbv zeta. set (v0 := match value_override s with Some o => o | None => v end). apply wp_bind.
  eapply wp_mono; [apply update_current_value_wp; [done|done|]|].
  { intros Hc. pose proof (inv_override s I Hc) as Ho. pose proof (inv_phase s I) as Hh.
    unfold v0. rewrite Ho. destruct (high_ballot s); [done|]. destruct Hh; [by rewrite Hc|done]. }
  intros [] s1 l1 [[I1 E1] Hcur]; [|by apply wp_ret]. specialize (Hcur eq_refl).
  apply wp_bind. eapply wp_mono; [apply Hemit; [done|by rewrite (evolves_level _ _ _ _ E1)]|].
  intros _ s2 l2 [I2 E2]. apply wp_bind. eapply wp_mono; [by apply check_heard_from_quorum_keeps|].
  intros _ s3 l3 [I3 E3]. apply wp_ret. split.
  { split; [done|]. eapply evolves_trans; [done|]. by eapply evolves_trans. }
  intros _ Hlt. destruct E1 as [E1 _].
  assert (bump_measure s3 <= bump_measure s1).
  { apply bump_measure_evolves; [done|done|]. destruct E2, E3. by etrans. }
  pose proof (bump_measure_evolves _ _ I I1 E1) as Hm. pose proof (ev_phase _ _ E1).
  unfold bump_measure in *. rewrite Hcur in *. simpl in *. lia.
Qed.

Lemma wrapping_add_u32 a b : is_u32 (u32_wrapping_add a b).
Proof. unfold u32_wrapping_add, is_u32, u32_max. pose proof (Z.mod_pos_bound (a + b) (2 ^ 32)). lia. Qed.

Lemma next_counter_u32 s :
  is_u32 (map_or 1 (fun b => u32_wrapping_add (counter b) 1) (current_ballot s)).
Proof.
  destruct (current_ballot s); [apply wrapping_add_u32|]. simpl. unfold is_u32, u32_max. lia.
Qed.

Lemma abandon_ballot_wp n s l :
  is_u32 n -> ballot_inv s -> current_message_level s = L ->
  wp (abandon_ballot ctx emit n) (fun r s' l' =>
    (ballot_inv s' /\ evolves s l s' l') /\
    (r = true -> counter_or_zero (current_ballot s) < n -> bump_measure s' < bump_measure s)) s l.
Proof.
  intros Hn I Hl. unfold abandon_ballot. apply wp_bind, wp_get. cbv zeta.
  destruct (match composite_candidate s with Some _ => _ | None => _ end) as [v|];
    [|by apply wp_ret; split; [by apply stay|]].
  destruct (Z.eqb_spec n 0) as [->|]; [|by apply bump_state_wp].
  eapply wp_mono; [by apply bump_state_wp; [apply next_counter_u32|..]|]. intros r s' l' [K _].
  split; [done|]. intros _ Hlt. pose proof (counter_or_zero_u32 _ (inv_current s I)) as Hc.
  unfold is_u32 in Hc. lia.
Qed.

Lemma attempt_bump_wp s l :
  ballot_inv s -> current_message_level s = L ->
  wp (attempt_bump ctx emit) (fun r s' l' =>
    (ballot_inv s' /\ evolves s l s' l') /\ (r = true -> bump_measure s' < bump_measure s)) s l.
Proof.
  intros I Hl. unfold attempt_bump. apply wp_bind, wp_get. cbv zeta.
  destruct (is_externalized s); [by apply wp_ret; split; [by apply stay|]|].
  destruct (negb _); [by apply wp_ret; split; [by apply stay|]|].
  destruct (List.find _ _) as [n|] eqn:Hf; [|by apply wp_ret; split; [by apply stay|]].
  apply List.find_some in Hf as [Hin _]. apply list_elem_of_In in Hin.
  rewrite elem_of_btree_elements, elem_of_list_to_set, list_elem_of_filter in Hin.
  destruct Hin as [Hlt Hin]. apply list_elem_of_fmap in Hin as (st & -> & Hst).
  eapply wp_mono; [apply abandon_ballot_wp; [|done..]|].
  - eapply ballot_counters_wf; [exact (inv_envs s I)|done].
  - intros r s' l' [K Hm]. split; [done|]. intros ->. by apply Hm.
Qed.

Lemma bump_loop_keeps : keeps_at L (bump_loop ctx emit).
Proof.
  intros s l I Hl. unfold bump_loop. apply wp_bind.
  eapply wp_mono; [by apply attempt_bump_wp|].
  intros [] s1 l1 [[I1 E1] _]; [|by apply wp_ret]. apply wp_bind. eapply wp_mono.
  - apply (wp_repeat_pow _ _ (fun s' l' => ballot_inv s' /\ evolves s l s' l') bump_measure); [|done].
    intros s2 l2 [I2 E2]. eapply wp_mono.
    + apply attempt_bump_wp; [done|]. by rewrite (evolves_level _ _ _ _ E2).
    + intros r s3 l3 [[I3 E3] Hm]. split; [|done]. split; [done|]. by eapply evolves_trans.
  - intros [] s2 l2 [[I2 E2] Hm]; [|by apply wp_ret]. specialize (Hm eq_refl).
    pose proof (bump_measure_bounds s1 I1). pose proof (bump_measure_bounds s2 I2). lia.
Qed.
End transitions.

(** ** [advance_slot] *)

Lemma put_level_inv n s : ballot_inv s -> ballot_inv (put_current_message_level n s).
Proof. intros I. by eapply quiet_inv, I; try apply I. Qed.

Lemma evolves_put_level n s l s' l' :
  evolves (put_current_message_level n s) l s' l' ->
  evolves s l (put_current_message_level (current_message_level s) s') l'.
Proof. intros [[] Hlog]. split; [by split|exact Hlog]. Qed.

(** A depth that is enough at message level [L]. *)
Definition enough_fuel (L : Z) (fuel : nat) : Prop :=
  (1 <= fuel)%nat /\ MAX_PROTOCOL_TRANSITIONS <= L + Z.of_nat fuel.

Lemma advance_slot_depth_keeps fuel L hint :
  0 <= L -> enough_fuel L fuel -> wf_pledges (pledges hint) ->
  keeps_at L (advance_slot_depth ctx fuel hint).
Proof.
  revert L hint. induction fuel as [|fuel IH]; intros L hint HL [Hf1 Hf2] Hh s l I Hl; [lia|].
  simpl. set (emit := emit_current_state ctx _).
  apply wp_bind, wp_modify, wp_bind, wp_get. rewrite Hl.
  set (s0 := put_current_message_level _ s).
  destruct (Z.leb_spec MAX_PROTOCOL_TRANSITIONS (current_message_level s0)) as [|Hlt]; [done|].
  unfold s0, MAX_PROTOCOL_TRANSITIONS, u32_saturating_add, u32_max in Hlt. simpl in Hlt.
  assert (u32_saturating_add L 1 = L + 1) as Hup by (unfold u32_saturating_add, u32_max; lia).
  assert (current_message_level s0 = L + 1) as Hl0 by (unfold s0; rewrite Hup; done).
  assert (keeps_at (L + 1) emit) as Hemit.
  { apply emit_current_state_keeps. intros st Hst. apply IH; try done; [lia|].
    unfold enough_fuel, MAX_PROTOCOL_TRANSITIONS in *. lia. }
  assert (ballot_inv s0) as I0 by by apply put_level_inv.
  pose proof (evolves_refl s0 l) as E0.
  assert (forall A (m : BM A) s1 l1 (k : A -> BM EnvelopeState),
    ballot_inv s1 -> evolves s0 l s1 l1 -> keeps_at (L + 1) m ->
    (forall a s2 l2, ballot_inv s2 -> evolves s0 l s2 l2 ->
      wp (k a) (fun _ s' l' => ballot_inv s' /\ evolves s l s' l') s2 l2) ->
    wp (bind m k) (fun _ s' l' => ballot_inv s' /\ evolves s l s' l') s1 l1) as Hchain.
  { intros A m s1 l1 k I1 E1 Hm Hk. apply wp_bind. eapply wp_mono.
    - apply Hm; [done|]. by rewrite (evolves_level _ _ _ _ E1).
    - intros a s2 l2 [I2 E2]. apply Hk; [done|]. by eapply evolves_trans. }
  apply Hchain; [done|done|by apply attempt_accept_prepared_keeps|]. intros w1 s1 l1 I1 E1.
  apply Hchain; [done|done|by apply attempt_confirm_prepared_keeps|]. intros w2 s2 l2 I2 E2.
  apply Hchain; [done|done|by apply attempt_accept_commit_keeps|]. intros w3 s3 l3 I3 E3.
  apply Hchain; [done|done|by apply attempt_confirm_commit_keeps|]. intros w4 s4 l4 I4 E4.
  apply wp_bind, wp_get. apply Hchain; [done|done| |].
  { intros t k It Et. case_match; [|by apply keeps_ret].
    apply keeps_bind; [by apply (bump_loop_keeps (L + 1))|].
    intros b s5 l5 I5 E5. apply keeps_bind; [by apply check_heard_from_quorum_keeps|].
    intros. by apply keeps_ret. }
  intros w5 s5 l5 I5 E5. apply wp_bind, wp_modify.
  assert (u32_saturating_sub (current_message_level s5) 1 = current_message_level s) as Hdown.
  { rewrite (evolves_level _ _ _ _ E5), Hl0, Hl. unfold u32_saturating_sub. lia. }
  rewrite Hdown. apply evolves_put_level in E5.
  assert (ballot_inv (put_current_message_level (current_message_level s) s5)) as I6 by by apply put_level_inv.
  destruct (_ || _); [|by apply wp_ret].
  apply wp_bind. eapply wp_mono; [by apply send_latest_envelope_keeps|]. intros _ s7 l7 [I7 E7].
  apply wp_ret. split; [done|]. by eapply evolves_trans.
Qed.

(** ** Entry points *)

Lemma advance_slot_keeps hint :
  wf_pledges (pledges hint) -> keeps_at 0 (advance_slot ctx hint).
Proof. intros Hh. apply advance_slot_depth_keeps; [done| |done]. by apply (conj (Nat.lt_0_succ _)). Qed.

Lemma emit_state_keeps : keeps_at 0 (emit_state ctx).
Proof. apply emit_current_state_keeps. intros st Hst. by apply advance_slot_keeps. Qed.

Lemma bump_keeps v force : keeps_at 0 (bump ctx v force).
Proof.
  intros s l I Hl. unfold bump. apply wp_bind, wp_get. case_match; [by apply keeps_ret|].
  eapply wp_mono.
  - apply (bump_state_wp 0 (emit_state ctx)); try done;
      [apply emit_state_keeps|apply next_counter_u32].
  - by intros r s' l' [? _].
Qed.

Lemma bump_timeout_keeps composite : keeps_at 0 (bump_timeout ctx composite).
Proof.
  intros s l I Hl. unfold bump_timeout. apply wp_bind, wp_modify, wp_bind, wp_modify.
  apply wp_evolves; [by apply evolves_quiet_0|]. eapply wp_mono.
  - apply (abandon_ballot_wp 0 (emit_state ctx)); try done; [apply emit_state_keeps|].
    by eapply quiet_inv, I; try apply I.
  - by intros r s' l' [? _].
Qed.

Lemma process_envelope_keeps env validation :
  wf_pledges (pledges (statement env)) ->
  keeps_at 0 (process_envelope ctx env validation).
Proof.
  intros Hwf s l I Hl. unfold process_envelope, when.
  case_match; [by apply keeps_ret|]. apply wp_bind, wp_get.
  destruct (is_newer_statement _ _ _) eqn:Hnew; simpl; [|by apply keeps_ret].
  assert (forall s1, core s1 = core s -> value_override s1 = value_override s ->
    current_message_level s1 = 0 -> latest_envelopes s1 = latest_envelopes s ->
    ballot_inv (put_latest_envelopes (<[node_id (statement env):=env]> (latest_envelopes s1)) s1) /\
    evolves s l (put_latest_envelopes (<[node_id (statement env):=env]> (latest_envelopes s1)) s1) l) as Hput.
  { intros s1 Hc Ho Hl1 He. split.
    - eapply quiet_inv; [..|exact I]; [done|done|]. simpl. rewrite He. apply wf_envs_insert; [apply I|done].
    - apply evolves_quiet_0; [done|simpl; congruence|]. simpl. rewrite He. by apply envs_newer_insert. }
  destruct (is_externalized s).
  { case_match; [|by apply keeps_ret]. wp_steps. by apply Hput. }
  apply wp_bind. destruct (clears_fully_validated validation).
  - apply wp_modify, wp_bind, wp_modify. 
    destruct (Hput (put_fully_validated false s)) as [I1 E1]; [done..|].
    apply wp_evolves; [done|]. by apply advance_slot_keeps.
  - apply wp_ret, wp_bind, wp_modify. destruct (Hput s) as [I1 E1]; [done..|].
    apply wp_evolves; [done|]. by apply advance_slot_keeps.
Qed.
End facts.

(** ** Runs of the protocol *)

Section runs.
Context `{XdrHash} `{SCPDriver} `{!SCPDriverLaws} (ctx : SlotContext).

(** One call of the slot: an envelope whose integers are in range, a bump by
    nomination, a timeout, or one of the flags the slot reads and writes. *)
Inductive ballot_call : forall A, BM A -> Prop :=
| call_envelope env validation : wf_pledges (pledges (statement env)) ->
    ballot_call _ (process_envelope ctx env validation)
| call_bump v force : ballot_call _ (bump ctx v force)
| call_timeout composite : ballot_call _ (bump_timeout ctx composite)
| call_send : ballot_call _ send_latest_envelope
| call_composite v : ballot_call _ (set_composite_candidate v)
| call_validated b : ballot_call _ (set_fully_validated b)
| call_take_stop : ballot_call _ take_needs_stop_nomination
| call_take_clear : ballot_call _ take_needs_clear_slot_validation.

Inductive ballot_steps : BallotProtocol -> list DriverEvent -> BallotProtocol -> list DriverEvent -> Prop :=
| steps_refl s l : ballot_steps s l s l
| steps_call {A} (m : BM A) s1 l1 a s2 l2 s3 l3 :
    ballot_call A m -> m s1 l1 = Done (a, s2, l2) -> ballot_steps s2 l2 s3 l3 ->
    ballot_steps s1 l1 s3 l3.

Lemma ballot_call_keeps A (m : BM A) :
  ballot_call A m -> keeps_at 0 m.
Proof.
  intros Hm. destruct Hm.
  - by apply process_envelope_keeps.
  - by apply bump_keeps.
  - by apply bump_timeout_keeps.
  - intros s l I _. by apply send_latest_envelope_keeps.
  - intros s l I _. split; [by eapply quiet_inv, I; try apply I|by apply evolves_quiet_0].
  - intros s l I _. split; [by eapply quiet_inv, I; try apply I|by apply evolves_quiet_0].
  - intros s l I _. split; [by eapply quiet_inv, I; try apply I|by apply evolves_quiet_0].
  - intros s l I _. split; [by eapply quiet_inv, I; try apply I|by apply evolves_quiet_0].
Qed.

Lemma ballot_steps_evolve s l s' l' :
  ballot_steps s l s' l' -> ballot_inv s -> current_message_level s = 0 ->
  ballot_inv s' /\ evolves s l s' l'.
Proof.
  intros Hs. induction Hs as [|A m s1 l1 a s2 l2 s3 l3 Hm Hr _ IH]; intros I Hl.
  { by apply stay. }
  destruct (wp_done _ _ _ _ _ _ _ (ballot_call_keeps A m Hm s1 l1 I Hl) Hr) as [I2 E2].
  destruct IH as [I3 E3]; [done|by rewrite (evolves_level _ _ _ _ E2)|]. split; [done|].
  by eapply evolves_trans.
Qed.

Lemma BallotProtocol_new_inv : ballot_inv BallotProtocol_new.
Proof. by split. Qed.
End runs.
