(* ===== verification/BallotSafety.v ===== *)
(** * Properties of the ballot protocol

    What every run of the protocol guarantees whatever the peers send: the
    invariants, the direction in which the state moves, the single decision,
    termination, and what a decision rests on. *)

From S2P Require Import Prelude Types Quorum Statements Ballot Network BallotFacts.



(** A run of the example network, call by call. *)
Definition net_end : BallotProtocol * list DriverEvent :=
  match net_run BallotProtocol_new [] with
  | Done (_, s, l) => (s, l)
  | _ => (BallotProtocol_new, [])
  end.

Lemma net_steps : ballot_steps net_ctx BallotProtocol_new [] net_end.1 net_end.2.
Proof.
  eapply steps_call; [apply (call_bump _ net_value false)|vm_compute; reflexivity|].
  eapply steps_call; [apply (call_envelope _ peer_votes FullyValidated)|vm_compute; reflexivity|].
  { vm_compute. intuition discriminate. }
  eapply steps_call; [apply (call_envelope _ peer_accepts FullyValidated)|vm_compute; reflexivity|].
  { vm_compute. intuition discriminate. }
  eapply steps_call; [apply (call_envelope _ peer_commits FullyValidated)|vm_compute; reflexivity|].
  { vm_compute. intuition discriminate. }
  eapply steps_call; [apply (call_envelope _ peer_confirms FullyValidated)|vm_compute; reflexivity|].
  { vm_compute. intuition discriminate. }
  match goal with |- ballot_steps _ ?s ?l _ _ => replace net_end with (s, l) by (vm_compute; reflexivity) end.
  apply steps_refl.
Qed.

Section safety.
Context `{XdrHash} `{SCPDriver} `{!SCPDriverLaws} (ctx : SlotContext).



(** C16: a run reports a value to [value_externalized] exactly when it
    externalizes, once, and the value is that of the commit ballot and the one
    [get_externalized_value] answers. *)
Theorem externalize_reports_once s l
    (Hrun : ballot_steps ctx BallotProtocol_new [] s l) :
  externalized_values l = option_list (get_externalized_value s) /\
  (is_externalized s = true -> exists c, commit s = Some c /\ externalized_values l = [value c]).
Proof.
  destruct (ballot_steps_evolve ctx _ _ _ _ Hrun BallotProtocol_new_inv eq_refl)
    as [I [E (evs & -> & Hevs)]].
  simpl. rewrite Hevs. unfold newly_externalized, get_externalized_value. simpl.
  destruct (is_externalized s) eqn:Hx.
  - apply is_externalized_spec in Hx. rewrite bool_decide_eq_true_2 by done.
    pose proof (inv_externalized s I Hx) as Hc. pose proof (inv_commit s I).
    pose proof (inv_high s I).
    destruct (commit s) as [c|], (high_ballot s), (current_ballot s); simpl in *; try done.
    split; [|by eauto]. f_equal. naive_solver congruence.
  - unfold is_externalized in Hx. by rewrite Hx.
Qed.

(** No call runs out of the bounds the model puts on its recursions: from
    a reachable state every call either returns, in a state from which the
    same holds again, or hits the panic on 50 nested transitions. *)
Theorem ballot_calls_terminate s l A (m : BM A)
    (Hrun : ballot_steps ctx BallotProtocol_new [] s l) (Hcall : ballot_call ctx A m) :
  m s l = Panicked \/
  exists a s' l', m s l = Done (a, s', l') /\ ballot_steps ctx BallotProtocol_new [] s' l'.
Proof.
  destruct (ballot_steps_evolve ctx _ _ _ _ Hrun BallotProtocol_new_inv eq_refl) as [I E].
  pose proof (ballot_call_keeps ctx A m Hcall s l I (evolves_level _ _ _ _ E)) as Hk.
  apply wp_not_no_fuel in Hk. destruct (m s l) as [[[a s'] l']| |] eqn:Hm; [|by left|done].
  right. exists a, s', l'. split; [done|]. clear -Hrun Hcall Hm.
  induction Hrun as [s l|B m1 s1 l1 b s2 l2 s3 l3 Hc1 Hr1 _ IH].
  - eapply steps_call; [exact Hcall|exact Hm|constructor].
  - eapply steps_call; [exact Hc1|exact Hr1|]. by apply IH.
Qed.

(** In the externalize phase the emission records and sends, nothing else. *)
Lemma emit_externalized adv s l :
  phase s = PhaseExternalize ->
  wp (emit_current_state ctx adv) (fun _ s' _ => core s' = core s) s l.
Proof.
  intros Hp. unfold emit_current_state. apply wp_bind, wp_get. rewrite Hp.
  destruct (emit_externalize ctx s) as [[[st env] b]|]; [|done].
  do 2 (case_match; [done|]). cbv zeta. case_bool_decide; [done|]. simpl.
  case_match; [done|]. unfold record_self, send_latest_envelope, when. wp_steps.
  destruct b; wp_steps; (repeat case_match); by wp_steps.
Qed.

(** What a positive answer of [attempt_confirm_commit] rests on. *)
Lemma attempt_confirm_commit_wp adv hint s l (I : wf_envs (latest_envelopes s)) :
  wp (attempt_confirm_commit ctx (emit_current_state ctx adv) hint) (fun r s' l' =>
    if r then
      phase s = PhaseConfirm /\ phase s' = PhaseExternalize /\
      exists c0 c h, commit s = Some c0 /\ commit s' = Some c /\ high_ballot s' = Some h /\
        value c = value c0 /\ value h = value c0 /\ 0 < counter c <= counter h /\
        federated_ratify (commit_predicate c (counter c, counter h)) (latest_envelopes s) ctx = true
    else s' = s /\ l' = l) s l.
Proof.
  unfold attempt_confirm_commit. apply wp_bind, wp_get.
  case_bool_decide as Hp; simpl; [|done].
  destruct (high_ballot s); [|done]. destruct (commit s) as [c0|] eqn:Ec; [|done].
  destruct (match pledges hint with Prepare _ => true | _ => false end); [done|].
  destruct (hint_ballot_for_commit hint) as [b|]; [|done].
  destruct (ballot_compatible b c0) eqn:Hcompat; simpl; [|done].
  apply ballot_compatible_iff in Hcompat.
  match goal with |- context [find_extended_interval _ _ ?pred] =>
    pose proof (extended_interval_ok b (latest_envelopes s) pred I) as Hint
  end. cbv zeta in *. set (r := find_extended_interval _ _ _) in *.
  destruct (Z.eqb_spec r.1 0); [done|]. destruct Hint as ([? _] & _ & Hle & Hr); [done|].
  unfold set_confirm_commit. apply wp_bind. eapply wp_mono; [apply update_current_if_needed_wp|].
  intros _ s1 l1 _. apply wp_bind, wp_modify, wp_bind, wp_modify, wp_bind, wp_modify, wp_bind.
  eapply wp_mono; [by apply emit_externalized|]. intros u s2 l2 F. unfold core in F. simpl in F.
  injection F as ? ? ? Hh2 Hc2 Hp2. apply wp_bind, wp_modify, wp_bind, wp_get. simpl. rewrite Hc2.
  apply wp_bind, wp_tell, wp_ret. simpl. split_and!; [done|done|].
  eexists c0, _, _. rewrite Hc2, Hh2. split_and!; try done; simpl; lia.
Qed.

(** C24: the node decides only in the confirm phase, on the value it had
    accepted to commit, with a counter interval such that some quorum, a set
    holding a slice of this node and one of each member by its own quorum set,
    consists of nodes whose latest statements accept to commit that value on
    the whole interval; an attempt that does not decide changes nothing. *)
Theorem attempt_confirm_commit_quorum adv hint s l r s' l'
    (Hwf : wf_envs (latest_envelopes s))
    (Hrun : attempt_confirm_commit ctx (emit_current_state ctx adv) hint s l = Done (r, s', l')) :
  if r then
    phase s = PhaseConfirm /\ phase s' = PhaseExternalize /\
    exists c0 c h, commit s = Some c0 /\ commit s' = Some c /\ high_ballot s' = Some h /\
      value c = value c0 /\ value h = value c0 /\ 0 < counter c <= counter h /\
      exists U : gset NodeId, is_quorum_slice (local_quorum_set ctx) U = true /\
        forall n, n ∈ U -> exists env qs,
          latest_envelopes s !! n = Some env /\
          commit_predicate c (counter c, counter h) (statement env) = true /\
          statement_quorum_set_map (latest_envelopes s) ctx !! n = Some qs /\
          is_quorum_slice qs U = true
  else s' = s /\ l' = l.
Proof.
  pose proof (wp_done _ _ _ _ _ _ _ (attempt_confirm_commit_wp adv hint s l Hwf) Hrun) as Hq.
  destruct r; [|done]. destruct Hq as (? & ? & c0 & c & h & ? & ? & ? & ? & ? & ? & Hr).
  split_and!; [done|done|]. exists c0, c, h. split_and!; try done; try lia.
  unfold federated_ratify in Hr. apply is_quorum_spec in Hr as (U & HU & Hcl & Hs).
  exists U. split; [done|]. intros n Hn. destruct (Hcl n Hn) as (qs & ? & ?).
  apply HU, elem_of_nodes_where in Hn as (env & ? & ?). eauto 10.
Qed.
End safety.



Lemma externalize_reports_once_witness :
  get_externalized_value net_end.1 = Some net_value /\
  externalized_values net_end.2 = option_list (get_externalized_value net_end.1).
Proof.
  split; [vm_compute; reflexivity|].
  exact (proj1 (externalize_reports_once net_ctx _ _ net_steps)).
Defined.

Lemma ballot_calls_terminate_witness :
  bump_timeout net_ctx None net_end.1 net_end.2 = Panicked \/
  exists a s' l', bump_timeout net_ctx None net_end.1 net_end.2 = Done (a, s', l') /\
    ballot_steps net_ctx BallotProtocol_new [] s' l'.
Proof. exact (ballot_calls_terminate net_ctx _ _ _ _ net_steps (call_timeout net_ctx None)). Defined.

(** The peers of the example have all accepted the commit: the hint decides. *)
Definition net_confirming : BallotProtocol :=
  put_latest_envelopes (<[2 := peer_confirms]> (<[3 := net_env 3 (pledges (statement peer_confirms))]> ∅))
    (put_phase PhaseConfirm (put_high_ballot (Some (net_ballot 1)) (put_commit (Some (net_ballot 1))
      (put_current_ballot (Some (net_ballot 1)) BallotProtocol_new)))).

Lemma attempt_confirm_commit_quorum_witness :
  exists s' l',
    attempt_confirm_commit net_ctx (emit_current_state net_ctx (advance_slot net_ctx))
      (statement peer_confirms) net_confirming [] = Done (true, s', l') /\
    phase net_confirming = PhaseConfirm.
Proof.
  eexists _, _. split; [vm_compute; reflexivity|].
  refine (proj1 (attempt_confirm_commit_quorum net_ctx (advance_slot net_ctx) (statement peer_confirms)
    net_confirming [] true _ _ _ _)); [|vm_compute; reflexivity].
  intros n e. unfold net_confirming. simpl. rewrite lookup_insert_Some. intros [[_ <-]|[_ Hn]].
  - vm_compute. intuition discriminate.
  - apply lookup_insert_Some in Hn as [[_ <-]|[_ Hn]]; [|done]. vm_compute. intuition discriminate.
Defined.
