(* ===== verification/BallotEmission.v ===== *)
(** * What the ballot protocol sends

    The statements a node hands to the network follow each other in the strict
    order of statements, and a node whose slot is not fully validated sends
    nothing.  Both are assertions on the recorded envelopes and the log that no
    transition touches except through the emission: the section [emission]
    states what such an assertion must satisfy, and walks through the protocol
    once for both. *)

From S2P Require Import Prelude Types Quorum Statements Ballot Network BallotFacts BallotSafety.

(** The part of the state the emission is about. *)
Definition emission (s : BallotProtocol) :=
  (latest_envelopes s, last_envelope s, last_envelope_emit s, fully_validated s).

Definition emitted_envelopes (l : list DriverEvent) : list ScpEnvelope :=
  omap (fun e => match e with EmitEnvelope env => Some env | _ => None end) l.

Lemma emitted_envelopes_app l k :
  emitted_envelopes (l ++ k) = emitted_envelopes l ++ emitted_envelopes k.
Proof. apply omap_app. Qed.

(** A sane ballot statement of this node for this slot. *)
Definition own_ballot_statement `{XdrHash} `{SCPDriver} (ctx : SlotContext) (st : ScpStatement) : Prop :=
  node_id st = local_node_id ctx /\ slot_index st = ctx_slot_index ctx /\
  is_nomination (pledges st) = false /\ is_statement_sane st ctx = true.

Section emission.
Context `{XdrHash} `{SCPDriver} `{!SCPDriverLaws} (ctx : SlotContext).

(** An assertion the emission respects. *)
Class EmissionAssertion (P : BallotProtocol -> list DriverEvent -> Prop) : Prop := {
  ea_quiet : forall s l s' l', emission s' = emission s ->
    emitted_envelopes l' = emitted_envelopes l -> P s l -> P s' l';
  ea_clear : forall s l, P s l -> P (put_fully_validated false s) l;
  ea_send : forall s l env, P s l -> fully_validated s = true -> last_envelope s = Some env ->
    last_envelope_emit s <> Some env ->
    P (put_last_envelope_emit (Some env) s) (l ++ [EmitEnvelope env]);
  ea_record : forall s l env, P s l -> own_ballot_statement ctx (statement env) ->
    is_newer_statement (latest_envelopes s) (local_node_id ctx) (statement env) = true ->
    let s' := put_latest_envelopes (<[local_node_id ctx := env]> (latest_envelopes s)) s in
    P s' l /\ P (put_last_envelope (Some env) s') l;
  ea_receive : forall s l env, P s l ->
    is_newer_statement (latest_envelopes s) (node_id (statement env)) (statement env) = true ->
    P (put_latest_envelopes (<[node_id (statement env) := env]> (latest_envelopes s)) s) l
}.

Context (P : BallotProtocol -> list DriverEvent -> Prop) `{!EmissionAssertion P}.

Lemma preserves_modify_quiet f : (forall s, emission (f s) = emission s) -> preserves P (modify f).
Proof. intros Hf. apply preserves_wp. intros s l HP. apply wp_modify. by eapply ea_quiet, HP. Qed.

Lemma preserves_tell_quiet e : emitted_envelopes [e] = [] -> preserves P (tell e).
Proof.
  intros He. apply preserves_wp. intros s l HP. apply wp_tell. eapply ea_quiet; [..|exact HP]; [done|].
  by rewrite emitted_envelopes_app, He, app_nil_r.
Qed.

Lemma preserves_clear : preserves P (modify (put_fully_validated false)).
Proof. apply preserves_wp. intros s l HP. apply wp_modify. by apply ea_clear. Qed.
End emission.

#[export] Hint Extern 1 (preserves _ (modify (put_fully_validated false))) =>
  eapply preserves_clear; [eassumption] : walk.
#[export] Hint Extern 2 (preserves _ (modify _)) =>
  eapply preserves_modify_quiet; [eassumption|reflexivity] : walk.
#[export] Hint Extern 1 (preserves _ (tell _)) =>
  eapply preserves_tell_quiet; [eassumption|reflexivity] : walk.

Section walks.
Context `{XdrHash} `{SCPDriver} `{!SCPDriverLaws} (ctx : SlotContext).
Context (P : BallotProtocol -> list DriverEvent -> Prop) (HP : EmissionAssertion ctx P).

Lemma send_latest_envelope_walk : preserves P send_latest_envelope.
Proof.
  apply preserves_wp. intros s l Hs. unfold send_latest_envelope. apply wp_bind, wp_get. case_match; [done|].
  destruct (fully_validated s) eqn:Hf; simpl; [|done].
  destruct (last_envelope s) as [env|] eqn:He; [|done]. case_bool_decide; [done|].
  apply wp_bind, wp_modify, wp_tell. by eapply ea_send.
Qed.
Hint Resolve send_latest_envelope_walk : walk.

Lemma bump_to_ballot_walk ballot check : preserves P (bump_to_ballot ctx ballot check).
Proof. unfold bump_to_ballot. walk. Qed.
Hint Resolve bump_to_ballot_walk : walk.

Lemma update_current_if_needed_walk ballot : preserves P (update_current_if_needed ctx ballot).
Proof. unfold update_current_if_needed. walk. Qed.
Hint Resolve update_current_if_needed_walk : walk.

Lemma check_heard_from_quorum_walk : preserves P (check_heard_from_quorum ctx).
Proof. unfold check_heard_from_quorum. walk. Qed.
Hint Resolve check_heard_from_quorum_walk : walk.

Section transitions.
Context (emit : BM unit) (Hemit : preserves P emit).
Hint Resolve Hemit : walk.

Lemma set_accept_prepared_walk ballot : preserves P (set_accept_prepared ctx emit ballot).
Proof. unfold set_accept_prepared, set_prepared. walk. Qed.
Hint Resolve set_accept_prepared_walk : walk.

Lemma attempt_accept_prepared_walk hint : preserves P (attempt_accept_prepared ctx emit hint).
Proof.
  unfold attempt_accept_prepared. walk. generalize (reverse (get_prepare_candidates (latest_envelopes a) hint)).
  intros l. induction l; simpl; walk.
Qed.

Lemma attempt_confirm_prepared_walk hint : preserves P (attempt_confirm_prepared ctx emit hint).
Proof. unfold attempt_confirm_prepared, set_confirm_prepared, raise_high_and_commit. walk. Qed.

Lemma attempt_accept_commit_walk hint : preserves P (attempt_accept_commit ctx emit hint).
Proof. unfold attempt_accept_commit, set_accept_commit, enter_confirm. walk. Qed.

Lemma attempt_confirm_commit_walk hint : preserves P (attempt_confirm_commit ctx emit hint).
Proof. unfold attempt_confirm_commit, set_confirm_commit. walk. Qed.

Lemma bump_state_walk v n : preserves P (bump_state ctx emit v n).
Proof. unfold bump_state, update_current_value. walk. Qed.
Hint Resolve bump_state_walk : walk.

Lemma abandon_ballot_walk n : preserves P (abandon_ballot ctx emit n).
Proof. unfold abandon_ballot. walk. Qed.
Hint Resolve abandon_ballot_walk : walk.

Lemma attempt_bump_walk : preserves P (attempt_bump ctx emit).
Proof. unfold attempt_bump. walk. Qed.
Hint Resolve attempt_bump_walk : walk.

Lemma bump_loop_walk : preserves P (bump_loop ctx emit).
Proof. unfold bump_loop. walk. Qed.
End transitions.

Lemma emitted_own_ballot s st env b :
  emitted ctx s = Some (st, env, b) -> is_statement_sane st ctx = true ->
  statement env = st /\ own_ballot_statement ctx st.
Proof.
  unfold emitted, own_ballot_statement, emit_prepare, emit_confirm, emit_externalize, create_signed_envelope.
  repeat case_match; intros [= <- <- <-] Hsane;
    (split; [apply sign_envelope_statement|by split_and!]).
Qed.

Lemma emit_current_state_walk adv :
  (forall st, preserves P (adv st)) -> preserves P (emit_current_state ctx adv).
Proof.
  intros Hadv. apply preserves_get_bind. intros s l a s' l' Hs.
  change (match phase s with
          | PhasePrepare => emit_prepare ctx s
          | PhaseConfirm => emit_confirm ctx s
          | PhaseExternalize => emit_externalize ctx s end) with (emitted ctx s).
  destruct (emitted ctx s) as [[[st env] b]|] eqn:Hem; [|by intros [= <- <- <-]].
  destruct (is_statement_sane st ctx) eqn:Hsane; simpl; [|by intros [= <- <- <-]].
  destruct (is_newer_statement _ _ st) eqn:Hnew; simpl; [|by intros [= <- <- <-]].
  destruct (emitted_own_ballot s st env b Hem Hsane) as [<- Hown].
  assert (forall s1 l1 r s2 l2, P s1 l1 -> latest_envelopes s1 = latest_envelopes s ->
    record_self ctx env b s1 l1 = Done (r, s2, l2) -> P s2 l2) as Hrec.
  { intros s1 l1 r s2 l2 H1' E1 Hr. rewrite <- E1 in Hnew.
    destruct (ea_record ctx s1 l1 env H1' Hown Hnew) as [Ha Hb].
    unfold record_self, when, bind, modify in Hr. destruct b; injection Hr as <- <- <-; done. }
  case_bool_decide; [by intros [= <- <- <-]|]. case_bool_decide as Hp; simpl.
  - case_match; [by intros [= <- <- <-]|]. unfold bind at 1.
    destruct (record_self ctx env b s l) as [[[r s1] l1]| |] eqn:Hr; [|done|done].
    apply send_latest_envelope_walk. by eapply Hrec.
  - unfold bind at 1. destruct (when _ _ s l) as [[[r s1] l1]| |] eqn:Hw; [|done|done].
    assert (P s1 l1 /\ latest_envelopes s1 = latest_envelopes s) as [H1' E1].
    { unfold when, bind, modify in Hw. destruct (clears_fully_validated _); injection Hw as <- <- <-; [|done].
      split; [|done]. eapply ea_quiet; [..|by apply (ea_clear ctx _ _ Hs)]; done. }
    unfold bind at 1. destruct (record_self ctx env b s1 l1) as [[[r' s2] l2]| |] eqn:Hr; [|done|done].
    apply preserves_bind; [done| |by eapply Hrec]. intros _. apply send_latest_envelope_walk.
Qed.

Lemma advance_slot_depth_walk fuel hint : preserves P (advance_slot_depth ctx fuel hint).
Proof.
  revert hint. induction fuel as [|fuel IH]; intros hint; simpl; [apply preserves_no_fuel|].
  pose proof (emit_current_state_walk _ IH) as Hemit.
  pose proof (attempt_accept_prepared_walk _ Hemit). pose proof (attempt_confirm_prepared_walk _ Hemit).
  pose proof (attempt_accept_commit_walk _ Hemit). pose proof (attempt_confirm_commit_walk _ Hemit).
  pose proof (bump_loop_walk _ Hemit). walk.
Qed.

Lemma advance_slot_walk hint : preserves P (advance_slot ctx hint).
Proof. apply advance_slot_depth_walk. Qed.
Hint Resolve advance_slot_walk : walk.

Lemma emit_state_walk : preserves P (emit_state ctx).
Proof. apply emit_current_state_walk, advance_slot_walk. Qed.
Hint Resolve emit_state_walk bump_state_walk abandon_ballot_walk : walk.

Lemma bump_walk v force : preserves P (bump ctx v force).
Proof. unfold bump. walk. Qed.

Lemma bump_timeout_walk composite : preserves P (bump_timeout ctx composite).
Proof. unfold bump_timeout. walk. Qed.

Lemma process_envelope_walk env validation : preserves P (process_envelope ctx env validation).
Proof.
  unfold process_envelope. cbv zeta. case_match; [walk|]. apply preserves_get_bind.
  intros s l a s' l' Hs.
  destruct (is_newer_statement _ _ (statement env)) eqn:Hnew; simpl; [|by intros [= <- <- <-]].
  destruct (is_externalized s).
  { case_match; [|by intros [= <- <- <-]]. unfold bind, modify. intros [= <- <- <-]. by eapply ea_receive. }
  unfold when, bind at 1. destruct (clears_fully_validated validation).
  - unfold bind, modify. apply advance_slot_walk. apply (ea_receive ctx (put_fully_validated false s) l env); [by apply (ea_clear ctx)|exact Hnew].
  - unfold ret, bind, modify. apply advance_slot_walk. by eapply ea_receive.
Qed.

(** The calls of the slot, once setting the flag of the emission is covered. *)
Lemma ballot_call_walk A (m : BM A) :
  (forall b, preserves P (set_fully_validated b)) -> ballot_call ctx A m -> preserves P m.
Proof.
  intros Hflag []; [apply process_envelope_walk|apply bump_walk|apply bump_timeout_walk
    |apply send_latest_envelope_walk| |apply Hflag| |];
    unfold set_composite_candidate, take_needs_stop_nomination, take_needs_clear_slot_validation; walk.
Qed.
End walks.

(** ** The order of what is sent *)

(** The ballot statements handed to [emit_envelope]. *)
Definition emitted_statements (l : list DriverEvent) : list ScpStatement :=
  List.filter (fun st => negb (is_nomination (pledges st))) (statement <$> emitted_envelopes l).

Lemma emitted_statements_app l k :
  emitted_statements (l ++ k) = emitted_statements l ++ emitted_statements k.
Proof. unfold emitted_statements. by rewrite emitted_envelopes_app, fmap_app, List.filter_app. Qed.

Definition statement_le (a b : ScpEnvelope) : Prop :=
  b = a \/ is_newer_ballot_st (statement a) (statement b) = true.

#[global] Instance statement_le_preorder : PreOrder statement_le.
Proof.
  split; [by left|]. intros a b c [->|Hab] [->|Hbc]; [by left|by right|by right|right].
  by eapply is_newer_ballot_st_trans.
Qed.

Section order.
Context `{XdrHash} `{SCPDriver} `{!SCPDriverLaws} (ctx : SlotContext).

Record order_inv (s : BallotProtocol) (l : list DriverEvent) : Prop := {
  oi_last : match last_envelope s with
            | Some e => own_ballot_statement ctx (statement e) /\
                exists cur, latest_envelopes s !! local_node_id ctx = Some cur /\ statement_le e cur
            | None => last_envelope_emit s = None
            end;
  oi_emit : forall e', last_envelope_emit s = Some e' ->
    exists e, last_envelope s = Some e /\ statement_le e' e;
  oi_log : StronglySorted (fun a b => is_newer_ballot_st a b = true) (emitted_statements l);
  oi_log_last : list.last (emitted_statements l) = statement <$> last_envelope_emit s;
  oi_own : Forall (own_ballot_statement ctx) (emitted_statements l)
}.

Lemma le_insert (m : gmap NodeId ScpEnvelope) n env e :
  is_newer_statement m n (statement env) = true ->
  (exists cur, m !! local_node_id ctx = Some cur /\ statement_le e cur) ->
  exists cur, <[n := env]> m !! local_node_id ctx = Some cur /\ statement_le e cur.
Proof.
  intros Hnew (cur & Hcur & Hle). destruct (decide (n = local_node_id ctx)) as [->|Hne].
  - exists env. rewrite lookup_insert_eq. split; [done|]. etrans; [exact Hle|]. right.
    unfold is_newer_statement in Hnew. by rewrite Hcur in Hnew.
  - exists cur. by rewrite lookup_insert_ne by done.
Qed.

#[global] Instance order_inv_assertion : EmissionAssertion ctx order_inv.
Proof.
  split.
  - intros s l s' l' [= He Hl Hem Hf] El I.
    assert (emitted_statements l' = emitted_statements l) as Es by (unfold emitted_statements; by rewrite El).
    destruct I. by split; rewrite ?He, ?Hl, ?Hem, ?Es.
  - intros s l []. by split.
  - intros s l env [] _ Hl Hne. rewrite Hl in oi_last0. destruct oi_last0 as [Hown Hcur].
    assert (emitted_statements [EmitEnvelope env] = [statement env]) as E1.
    { unfold emitted_statements. simpl. by rewrite (proj1 (proj2 (proj2 Hown))). }
    split; simpl; rewrite ?emitted_statements_app, ?E1.
    + by rewrite Hl.
    + intros e' [= <-]. exists env. split; [done|by left].
    + apply StronglySorted_snoc; [intros ???; apply is_newer_ballot_st_trans|done|].
      rewrite oi_log_last0. intros m Hm. destruct (last_envelope_emit s) as [old|] eqn:Eold; [|done].
      injection Hm as <-. destruct (oi_emit0 old eq_refl) as (e & He & Hle).
      rewrite Hl in He. injection He as <-. destruct Hle as [->|?]; [by destruct Hne|done].
    + by rewrite last_snoc.
    + apply Forall_app. split; [done|by apply Forall_singleton].
  - intros s l env [] Hown Hnew. cbv zeta. split; split; simpl; try done.
    + destruct (last_envelope s); [|done]. destruct oi_last0. split; [done|]. by apply le_insert.
    + split; [done|]. exists env. rewrite lookup_insert_eq. split; [done|by left].
    + intros e' He'. exists env. split; [done|]. destruct (oi_emit0 e' He') as (e & He & Hle).
      rewrite He in oi_last0. destruct oi_last0 as (_ & cur & Hcur & Hle').
      etrans; [exact Hle|]. etrans; [exact Hle'|]. right.
      unfold is_newer_statement in Hnew. by rewrite Hcur in Hnew.
  - intros s l env [] Hnew. split; simpl; try done.
    destruct (last_envelope s); [|done]. destruct oi_last0. split; [done|]. by apply le_insert.
Qed.

Lemma set_fully_validated_order b : preserves order_inv (set_fully_validated b).
Proof. apply preserves_wp. intros s l []. apply wp_modify. by split. Qed.

Lemma ballot_steps_order s l s' l' :
  ballot_steps ctx s l s' l' -> order_inv s l -> order_inv s' l'.
Proof.
  intros Hs. induction Hs as [|A m s1 l1 a s2 l2 s3 l3 Hm Hr _ IH]; [done|]. intros I. apply IH.
  eapply (ballot_call_walk ctx order_inv _ A m); [apply set_fully_validated_order|done|exact I|done].
Qed.

Lemma BallotProtocol_new_order l : emitted_statements l = [] -> order_inv BallotProtocol_new l.
Proof. intros E. split; simpl; rewrite ?E; try done; constructor. Qed.

(** C25: the ballot statements a node hands to the network are sane statements
    of this node for this slot, and each is strictly newer than every one
    before it: a node never sends two statements that peers would not accept
    in that order, whatever its peers send. *)
Theorem ballot_statements_emitted_in_order s l
    (Hrun : ballot_steps ctx BallotProtocol_new [] s l) :
  StronglySorted (fun a b => is_newer_ballot_st a b = true) (emitted_statements l) /\
  (forall st, st ∈ emitted_statements l ->
     node_id st = local_node_id ctx /\ slot_index st = ctx_slot_index ctx /\
     is_statement_sane st ctx = true).
Proof.
  destruct (ballot_steps_order _ _ _ _ Hrun) as [_ _ Hlog _ Hown]; [by apply BallotProtocol_new_order|].
  split; [done|]. rewrite Forall_forall in Hown. intros st Hst. by destruct (Hown st Hst) as (? & ? & _ & ?).
Qed.
End order.

Lemma ballot_statements_emitted_in_order_witness :
  length (emitted_statements net_end.2) = 5%nat /\
  StronglySorted (fun a b => is_newer_ballot_st a b = true) (emitted_statements net_end.2).
Proof.
  split; [vm_compute; reflexivity|].
  exact (proj1 (ballot_statements_emitted_in_order net_ctx _ _ net_steps)).
Defined.

(** ** Silence *)

Section silence.
Context `{XdrHash} `{SCPDriver} `{!SCPDriverLaws} (ctx : SlotContext).

(** Nothing was sent since the log [l0] and nothing will be. *)
Definition ballot_silent (sent : list ScpEnvelope) (s : BallotProtocol) (l : list DriverEvent) : Prop :=
  fully_validated s = false /\ emitted_envelopes l = sent.

#[global] Instance ballot_silent_assertion sent : EmissionAssertion ctx (ballot_silent sent).
Proof.
  split.
  - intros s l s' l' [= _ _ _ Hf] El []. split; congruence.
  - by intros s l [].
  - intros s l env [Hf _]. congruence.
  - by intros s l env [].
  - by intros s l env [].
Qed.
End silence.
