(* ===== verification/SlotFacts.v ===== *)
(** * Invariants of a slot

    The invariants of the two protocols lifted to the slot that holds them: the
    log is shared, the calls of one protocol append nothing the other protocol's
    invariant is about.  [slot_core] holds between any two calls to a protocol,
    [synced] at the end of every operation of the slot. *)

From S2P Require Import Prelude Types Quorum Statements Nomination Promotion NominationFacts Ballot BallotFacts BallotSafety BallotEmission Slot.
From S2P Require Nomination Ballot.

(** ** What each protocol reads of the log *)

Definition nomination_envelopes (l : list DriverEvent) : list ScpEnvelope :=
  List.filter (fun env => is_nomination (pledges (statement env))) (emitted_envelopes l).

Lemma nomination_envelopes_app l k :
  nomination_envelopes (l ++ k) = nomination_envelopes l ++ nomination_envelopes k.
Proof. unfold nomination_envelopes. by rewrite emitted_envelopes_app, List.filter_app. Qed.

Lemma elem_of_emitted env l : env ∈ emitted_envelopes l <-> EmitEnvelope env ∈ l.
Proof.
  unfold emitted_envelopes. rewrite list_elem_of_omap. split; [|by intros ?; exists (EmitEnvelope env)].
  intros ([] & Hin & He); simplify_eq. done.
Qed.

Lemma elem_of_nomination_envelopes env l :
  env ∈ nomination_envelopes l <-> EmitEnvelope env ∈ l /\ is_nomination (pledges (statement env)) = true.
Proof.
  unfold nomination_envelopes. by rewrite list_elem_of_In, filter_In, <- list_elem_of_In, elem_of_emitted.
Qed.

Lemma emitted_nominations_envelopes l :
  emitted_nominations l = omap nomination_of (nomination_envelopes l).
Proof.
  induction l as [|e l IH]; [done|]. change (e :: l) with ([e] ++ l).
  rewrite emitted_nominations_app, nomination_envelopes_app, omap_app, <- IH. f_equal.
  destruct e; try done. unfold emitted_nominations, nomination_envelopes, nomination_of. simpl.
  destruct (pledges (statement e)) eqn:Hp; simpl; by rewrite ?Hp.
Qed.

Lemma nomination_of_is env n : nomination_of env = Some n -> is_nomination (pledges (statement env)) = true.
Proof. unfold nomination_of. by destruct (pledges (statement env)). Qed.

Section logs.
Context `{XdrHash} `{SCPDriver} `{!SCPDriverLaws} (ctx : SlotContext).

Lemma nom_inv_log s l l' :
  nomination_envelopes l' = nomination_envelopes l -> nom_inv ctx s l -> nom_inv ctx s l'.
Proof.
  intros E I. pose proof (emitted_nominations_envelopes l) as En.
  pose proof (emitted_nominations_envelopes l') as En'. rewrite E, <- En in En'.
  pose proof (ni_own _ _ _ I) as Hown. destruct I. split; rewrite ?En'; try done.
  intros env n Hin Hn. apply Hown; [|done].
  apply elem_of_nomination_envelopes. rewrite <- E. apply elem_of_nomination_envelopes.
  split; [done|]. by eapply nomination_of_is.
Qed.

Lemma order_inv_log s l l' :
  emitted_statements l' = emitted_statements l -> order_inv ctx s l -> order_inv ctx s l'.
Proof. intros E []. by split; rewrite ?E. Qed.

(** The ballot protocol sends no nominations. *)
Definition only_ballots (noms : list ScpEnvelope) (s : BallotProtocol) (l : list DriverEvent) : Prop :=
  (forall e, last_envelope s = Some e -> is_nomination (pledges (statement e)) = false) /\
  nomination_envelopes l = noms.

#[global] Instance only_ballots_assertion noms : EmissionAssertion ctx (only_ballots noms).
Proof.
  split.
  - intros s l s' l' [= _ Hl _ _] El [Hb Hn]. split; [by rewrite Hl|].
    unfold nomination_envelopes in *. congruence.
  - by intros s l [].
  - intros s l env [Hb Hn] _ Hl _. split; [done|]. rewrite nomination_envelopes_app, Hn.
    unfold nomination_envelopes. simpl. by rewrite (Hb env Hl), app_nil_r.
  - intros s l env [Hb Hn] (_ & _ & Hown & _) _. cbv zeta. split; [done|]. split; [|done].
    by intros e [= <-].
  - by intros s l env [].
Qed.

Lemma appends_statements l l' : appends l l' -> emitted_statements l' = emitted_statements l.
Proof.
  intros (evs & -> & Hevs). rewrite emitted_statements_app.
  replace (emitted_statements evs) with (@nil ScpStatement); [by rewrite app_nil_r|].
  induction Hevs as [|e evs He _ IH]; [done|]. destruct e; try exact IH.
  unfold emitted_statements in *. simpl in *. by rewrite He.
Qed.

Lemma appends_evolves s l l' : appends l l' -> evolves s l s l'.
Proof.
  intros (evs & -> & Hevs). apply evolves_quiet; [done..|].
  induction Hevs as [|e evs He _ IH]; [done|]. by destruct e.
Qed.
End logs.

(** ** The invariant *)

Definition synced (s : Slot) : Prop :=
  externalized_value s = get_externalized_value (ballot s).

Section slots.
Context `{XdrHash} `{SCPDriver} `{!SCPDriverLaws} `{!ExtractLaws} (ctx : SlotContext).

Record slot_core (s : Slot) (l : list DriverEvent) : Prop := {
  sc_ctx : slot_ctx s = ctx;
  sc_nom : nom_inv ctx (nomination s) l;
  sc_ballot : ballot_inv (ballot s);
  sc_level : current_message_level (ballot s) = 0;
  sc_order : order_inv ctx (ballot s) l;
  sc_half : externalized_value s = None \/ synced s;
  sc_reported : externalized_values l = option_list (get_externalized_value (ballot s))
}.

(** How an operation of the slot changes it: a decision stays. *)
Record slot_acts (s : Slot) (l : list DriverEvent) (s' : Slot) (l' : list DriverEvent) : Prop := {
  sa_ballot : evolves (ballot s) l (ballot s') l';
  sa_value : forall v, externalized_value s = Some v -> externalized_value s' = Some v
}.

Lemma slot_acts_refl s l : slot_acts s l s l.
Proof. split; [apply evolves_refl|done]. Qed.

Lemma slot_acts_trans s1 l1 s2 l2 s3 l3 :
  slot_acts s1 l1 s2 l2 -> slot_acts s2 l2 s3 l3 -> slot_acts s1 l1 s3 l3.
Proof. intros [E1 V1] [E2 V2]. split; [by eapply evolves_trans|auto]. Qed.

Lemma get_externalized_commit s :
  ballot_inv s -> get_externalized_value s = if is_externalized s then value <$> commit s else None.
Proof.
  intros I. unfold get_externalized_value, is_externalized. case_bool_decide as Hp; [|done].
  pose proof (inv_externalized s I Hp). pose proof (inv_commit s I). pose proof (inv_high s I).
  destruct (commit s), (high_ballot s), (current_ballot s); simpl in *; try done. f_equal. naive_solver congruence.
Qed.

Lemma evolves_decided s l s' l' :
  evolves s l s' l' -> is_externalized s = true -> get_externalized_value s' = get_externalized_value s.
Proof.
  intros [E _] Hx. apply is_externalized_spec in Hx. pose proof (ev_frozen _ _ E Hx) as F.
  unfold core in F. injection F as Hc _ _ _ _ Hp. unfold get_externalized_value. by rewrite Hc, Hp.
Qed.

Lemma get_externalized_is s v : get_externalized_value s = Some v -> is_externalized s = true.
Proof. unfold get_externalized_value, is_externalized. by case_bool_decide. Qed.

Lemma evolves_reported s l s' l' :
  ballot_inv s' -> evolves s l s' l' ->
  externalized_values l = option_list (get_externalized_value s) ->
  externalized_values l' = option_list (get_externalized_value s').
Proof.
  intros I' E Hl. pose proof (evolves_decided _ _ _ _ E) as Hdec.
  pose proof E as [_ (evs & -> & Hevs)]. rewrite externalized_values_app, Hl, Hevs.
  unfold newly_externalized. destruct (is_externalized s) eqn:Hx; simpl.
  - by rewrite Hdec, app_nil_r.
  - assert (get_externalized_value s = None) as ->.
    { destruct (get_externalized_value s) eqn:Hg; [|done]. apply get_externalized_is in Hg. congruence. }
    rewrite (get_externalized_commit s' I'). by destruct (is_externalized s').
Qed.

(** Replacing the ballot protocol by one that evolved from it. *)
Lemma put_ballot_core s l b l' :
  slot_core s l -> ballot_inv b -> evolves (ballot s) l b l' -> order_inv ctx b l' ->
  nomination_envelopes l' = nomination_envelopes l ->
  slot_core (put_ballot b s) l' /\ slot_acts s l (put_ballot b s) l'.
Proof.
  intros C Ib E Io En. split; [|by split].
  destruct C. split; simpl; try done.
  - by eapply nom_inv_log.
  - by rewrite (evolves_level _ _ _ _ E).
  - destruct sc_half0 as [?|Hs]; [by left|]. unfold synced in *. simpl.
    destruct (get_externalized_value (ballot s)) as [v|] eqn:Hg; [right|by left].
    rewrite Hs. symmetry. rewrite <- Hg. eapply evolves_decided; [exact E|by eapply get_externalized_is].
  - by eapply evolves_reported.
Qed.

Lemma put_nomination_core s l n l' :
  slot_core s l -> nom_inv ctx n l' -> appends l l' ->
  slot_core (put_nomination n s) l' /\ slot_acts s l (put_nomination n s) l'.
Proof.
  intros C In A. pose proof (appends_evolves (ballot s) l l' A) as E. split; [|by split].
  destruct C. split; simpl; try done.
  - eapply order_inv_log; [by apply appends_statements|done].
  - by eapply evolves_reported.
Qed.

Definition slot_keeps {A} (m : SM A) (s : Slot) (l : list DriverEvent) : Prop :=
  wp m (fun _ s' l' => slot_core s' l' /\ slot_acts s l s' l') s l.

Lemma slot_keeps_bind {A B} (m : SM A) (k : A -> SM B) s l :
  slot_keeps m s l ->
  (forall a s' l', slot_core s' l' -> slot_acts s l s' l' -> slot_keeps (k a) s' l') ->
  slot_keeps (bind m k) s l.
Proof.
  intros Hm Hk. apply wp_bind. eapply wp_mono; [exact Hm|]. intros a s1 l1 [C1 A1].
  eapply wp_mono; [by apply Hk|]. intros b s2 l2 [C2 A2]. split; [done|]. by eapply slot_acts_trans.
Qed.

Lemma slot_keeps_ret {A} (a : A) s l : slot_core s l -> slot_keeps (ret a) s l.
Proof. intros C. split; [done|apply slot_acts_refl]. Qed.

Lemma slot_keeps_get {B} (k : Slot -> SM B) s l : slot_keeps (k s) s l -> slot_keeps (bind get k) s l.
Proof. intros Hk. by apply wp_bind, wp_get. Qed.

Lemma slot_keeps_when c (m : SM unit) s l :
  slot_core s l -> (c = true -> slot_keeps m s l) -> slot_keeps (when c m) s l.
Proof. intros C Hm. destruct c; [by apply Hm|by apply slot_keeps_ret]. Qed.

(** Changes that neither invariant is about. *)
Lemma slot_keeps_modify f s l :
  slot_core s l -> slot_ctx (f s) = slot_ctx s -> nomination (f s) = nomination s ->
  ballot (f s) = ballot s -> externalized_value (f s) = externalized_value s ->
  slot_keeps (modify f) s l.
Proof.
  intros C Ec En Eb Ev. apply wp_modify. split.
  - destruct C. split; rewrite ?Ec, ?En, ?Eb; try done. unfold synced. by rewrite Ev, Eb.
  - split; [rewrite Eb; apply evolves_refl|by rewrite Ev].
Qed.

Lemma slot_keeps_tell e s l :
  slot_core s l -> externalized_values [e] = [] -> emitted_envelopes [e] = [] -> slot_keeps (tell e) s l.
Proof.
  intros C He Hm. apply wp_tell.
  assert (evolves (ballot s) l (ballot s) (l ++ [e])) as E by (apply evolves_tell; [apply evolves_refl|done]).
  split; [|by split]. destruct C. split; try done.
  - eapply nom_inv_log; [|done]. rewrite nomination_envelopes_app. unfold nomination_envelopes at 2.
    by rewrite Hm, app_nil_r.
  - eapply order_inv_log; [|done]. rewrite emitted_statements_app. unfold emitted_statements at 2.
    by rewrite Hm, app_nil_r.
  - by eapply evolves_reported.
Qed.

(** ** Calls of the two protocols *)

(** An operation of the ballot protocol a slot may call. *)
Record ballot_op {A} (m : M DriverEvent BallotProtocol A) : Prop := {
  bo_keeps : keeps_at 0 m;
  bo_order : preserves (order_inv ctx) m;
  bo_only : forall noms, preserves (only_ballots noms) m
}.

Lemma only_ballots_order s l : order_inv ctx s l -> only_ballots (nomination_envelopes l) s l.
Proof.
  intros I. split; [|done]. intros e He. pose proof (oi_last _ _ _ I) as Hl. rewrite He in Hl.
  by destruct Hl as [(_ & _ & ? & _) _].
Qed.

Lemma on_ballot_keeps {A} (m : M DriverEvent BallotProtocol A) s l :
  ballot_op m -> slot_core s l -> slot_keeps (on_ballot m) s l.
Proof.
  intros [Hk Ho Hb] C. apply wp_zoom.
  pose proof (Hk _ l (sc_ballot _ _ C) (sc_level _ _ C)) as Hw.
  apply (fun H => wp_preserves _ m _ _ _ H Ho (sc_order _ _ C)) in Hw.
  apply (fun H => wp_preserves _ m _ _ _ H (Hb _) (only_ballots_order _ _ (sc_order _ _ C))) in Hw.
  eapply wp_mono; [exact Hw|]. intros a b l' [[[Ib Eb] Io] [_ En]]. by apply put_ballot_core.
Qed.

Lemma on_nomination_keeps {A} (m : M DriverEvent NominationProtocol A) s l :
  serves ctx m -> slot_core s l -> slot_keeps (on_nomination m) s l.
Proof.
  intros Hm C. apply wp_zoom. eapply wp_mono; [apply (Hm _ _ (sc_nom _ _ C))|].
  intros a n l' [In En]. apply put_nomination_core; [done|done|apply En].
Qed.

Lemma ballot_call_op A (m : M DriverEvent BallotProtocol A) :
  ballot_call ctx A m -> ballot_op m.
Proof.
  intros Hm. split.
  - by apply (ballot_call_keeps ctx).
  - eapply ballot_call_walk; [apply _|apply set_fully_validated_order|exact Hm].
  - intros noms. eapply ballot_call_walk; [apply _| |exact Hm].
    intros b. apply preserves_wp. by intros s l [].
Qed.

Lemma abandon_ballot_op n : is_u32 n -> ballot_op (Ballot.abandon_ballot ctx (emit_state ctx) n).
Proof.
  intros Hn. split.
  - intros s l I Hl. eapply wp_mono; [apply (abandon_ballot_wp ctx 0); [apply emit_state_keeps|done..]|].
    by intros r s' l' [? _].
  - eapply abandon_ballot_walk; [apply _|]. eapply emit_state_walk, _.
  - intros noms. eapply abandon_ballot_walk; [apply _|]. eapply emit_state_walk, _.
Qed.

Lemma bump_state_op v n : is_u32 n -> ballot_op (Ballot.bump_state ctx (emit_state ctx) v n).
Proof.
  intros Hn. split.
  - intros s l I Hl. eapply wp_mono; [apply (bump_state_wp ctx 0); [apply emit_state_keeps|done..]|].
    by intros r s' l' [? _].
  - eapply bump_state_walk; [apply _|]. eapply emit_state_walk, _.
  - intros noms. eapply bump_state_walk; [apply _|]. eapply emit_state_walk, _.
Qed.

(** ** The operations of the slot *)

Ltac slot_step :=
  match goal with
  | |- slot_keeps (bind get _) _ _ => apply slot_keeps_get
  | |- slot_keeps (bind _ _) _ _ => apply slot_keeps_bind; [|intros ? ? ? ? ?]
  | |- slot_keeps (ret _) _ _ => by apply slot_keeps_ret
  | |- slot_keeps (when _ _) _ _ => apply slot_keeps_when; [done|intros ?]
  | |- slot_keeps (tell _) _ _ => by apply slot_keeps_tell
  | |- slot_keeps (modify _) _ _ => by apply slot_keeps_modify
  | |- slot_keeps (on_nomination Nomination.stop) _ _ => by apply on_nomination_keeps; [apply stop_serves|]
  | |- slot_keeps (on_nomination (Nomination.set_fully_validated _)) _ _ =>
      by apply on_nomination_keeps; [apply set_fully_validated_serves|]
  | |- slot_keeps (on_nomination Nomination.emit_deferred) _ _ =>
      by apply on_nomination_keeps; [apply emit_deferred_serves|]
  | |- slot_keeps (on_ballot _) _ _ => by apply on_ballot_keeps; [apply ballot_call_op; constructor|]
  end.
Ltac slot_walk := repeat slot_step.

Lemma set_fully_validated_core b s l : slot_core s l -> slot_keeps (set_fully_validated b) s l.
Proof. intros C. unfold set_fully_validated. slot_walk. Qed.

Lemma propagate_core s l : slot_core s l -> slot_keeps propagate_ballot_clear_slot_validation s l.
Proof. intros C. unfold propagate_ballot_clear_slot_validation. slot_walk. Qed.

Lemma sync_composite_core s l : slot_core s l -> slot_keeps sync_composite_candidate s l.
Proof. intros C. unfold sync_composite_candidate. slot_walk. Qed.

Lemma set_got_v_blocking_core s l : slot_core s l -> slot_keeps maybe_set_got_v_blocking s l.
Proof. intros C. unfold maybe_set_got_v_blocking. slot_walk. case_match; slot_walk. Qed.

(** Recording the decision makes the slot agree with its ballot protocol. *)
Definition slot_syncs {A} (m : SM A) (s : Slot) (l : list DriverEvent) : Prop :=
  wp m (fun _ s' l' => (slot_core s' l' /\ slot_acts s l s' l') /\ synced s') s l.

Lemma slot_syncs_bind {A B} (m : SM A) (k : A -> SM B) s l :
  slot_keeps m s l ->
  (forall a s' l', slot_core s' l' -> slot_acts s l s' l' -> slot_syncs (k a) s' l') ->
  slot_syncs (bind m k) s l.
Proof.
  intros Hm Hk. apply wp_bind. eapply wp_mono; [exact Hm|]. intros a s1 l1 [C1 A1].
  eapply wp_mono; [by apply Hk|]. intros b s2 l2 [[C2 A2] Hs]. split; [|done].
  split; [done|]. by eapply slot_acts_trans.
Qed.

Lemma record_externalization_syncs s l : slot_core s l -> slot_syncs maybe_record_externalization s l.
Proof.
  intros C. unfold maybe_record_externalization. apply wp_bind, wp_get.
  assert (synced s -> slot_syncs (ret tt) s l) as Hdone.
  { intros Hs. apply wp_ret. split; [|done]. split; [done|apply slot_acts_refl]. }
  destruct (is_externalized (ballot s)) eqn:Hx; simpl.
  2:{ apply Hdone. destruct (sc_half _ _ C) as [Hn|?]; [|done]. unfold synced. rewrite Hn.
      by rewrite (get_externalized_commit _ (sc_ballot _ _ C)), Hx. }
  unfold slot_is_externalized. destruct (externalized_value s) eqn:Hv; simpl.
  { apply Hdone. destruct (sc_half _ _ C) as [?|?]; [congruence|done]. }
  destruct (get_externalized_value (ballot s)) as [v|] eqn:Hg.
  2:{ apply Hdone. unfold synced. by rewrite Hv, Hg. }
  unfold sync_externalized_value_from_ballot. apply wp_bind, wp_bind, wp_get. rewrite Hx. simpl.
  rewrite Hg. apply wp_modify.
  assert (slot_core (put_externalized_value (Some v) s) l) as C1.
  { destruct C. split; try done. right. unfold synced. simpl. by rewrite Hg. }
  eapply wp_mono; [apply (slot_keeps_bind (tell _) (fun _ => tell _)); [by apply slot_keeps_tell|]|].
  { intros. by apply slot_keeps_tell. }
  intros _ s2 l2 [C2 A2]. split.
  - split; [done|]. eapply slot_acts_trans; [|exact A2]. split; [apply evolves_refl|]. congruence.
  - pose proof (sa_value _ _ _ _ A2 v eq_refl) as Hv2.
    destruct (sc_half _ _ C2) as [?|?]; [congruence|done].
Qed.

Lemma bookkeeping_syncs s l : slot_core s l -> slot_syncs run_post_emit_bookkeeping s l.
Proof.
  intros C. unfold run_post_emit_bookkeeping.
  apply slot_syncs_bind; [by apply propagate_core|]. intros _ s1 l1 C1 _.
  apply slot_syncs_bind; [slot_walk|]. intros needs_stop s2 l2 C2 _.
  apply wp_bind, wp_get. apply slot_syncs_bind; [slot_walk|]. intros _ s3 l3 C3 _.
  apply wp_bind. eapply wp_mono; [by apply record_externalization_syncs|].
  intros _ s4 l4 [[C4 A4] Hs4]. unfold maybe_set_got_v_blocking. apply wp_bind, wp_get.
  case_match; [by apply wp_ret|]. apply wp_modify. split; [|done]. split.
  - by destruct C4.
  - by destruct A4.
Qed.

Lemma check_nomination_to_ballot_core s l : slot_core s l -> slot_keeps check_nomination_to_ballot s l.
Proof.
  intros C. unfold check_nomination_to_ballot. apply slot_keeps_get. rewrite (sc_ctx _ _ C).
  case_match; [slot_walk|]. case_match; slot_walk.
Qed.

Lemma process_ballot_envelope_core env s l :
  wf_pledges (pledges (statement env)) -> slot_core s l -> slot_keeps (process_ballot_envelope env) s l.
Proof.
  intros Hwf C. unfold process_ballot_envelope. apply slot_keeps_get. cbv zeta. rewrite (sc_ctx _ _ C).
  case_match; [slot_walk|]. case_match; [slot_walk|]. case_match; [slot_walk|].
  apply slot_keeps_bind; [by apply sync_composite_core|]. intros _ s1 l1 C1 _.
  apply slot_keeps_bind; [by apply on_ballot_keeps; [apply ballot_call_op; constructor|]|].
  intros r s2 l2 C2 _. apply slot_keeps_get. apply slot_keeps_bind; [|intros; slot_walk].
  apply slot_keeps_when; [done|]. intros _. by apply set_fully_validated_core.
Qed.

Lemma process_envelope_syncs env s l :
  wf_pledges (pledges (statement env)) -> slot_core s l -> slot_syncs (process_envelope env) s l.
Proof.
  intros Hwf C. unfold process_envelope. cbv zeta. apply slot_syncs_bind.
  { assert (slot_keeps (process_nomination_envelope env) s l).
    { unfold process_nomination_envelope. apply slot_keeps_get. rewrite (sc_ctx _ _ C).
      apply on_nomination_keeps; [apply process_envelope_serves|done]. }
    case_match; [done|by apply process_ballot_envelope_core; rewrite ?H4..]. }
  intros r s1 l1 C1 _. apply slot_syncs_bind; [slot_walk|]. intros _ s2 l2 C2 _.
  apply slot_syncs_bind; [by apply check_nomination_to_ballot_core|]. intros _ s3 l3 C3 _.
  apply wp_bind. eapply wp_mono; [by apply bookkeeping_syncs|]. intros u s4 l4 K. by apply wp_ret.
Qed.

(** Appending a callback leaves the slot as it is. *)
Lemma syncs_then_tell {A} (r : A) c e s l :
  slot_core s l -> synced s -> externalized_values [e] = [] -> emitted_envelopes [e] = [] ->
  slot_syncs (when c (tell e) ;; ret r) s l.
Proof.
  intros C Hs He Hm. apply wp_bind. destruct c; simpl.
  - pose proof (slot_keeps_tell e s l C He Hm) as [C1 A1]. by split.
  - split; [|done]. split; [done|apply slot_acts_refl].
Qed.

Lemma nominate_syncs v prev timedout s l :
  slot_core s l -> synced s -> slot_syncs (nominate v prev timedout) s l.
Proof.
  intros C Hs. assert (slot_syncs (ret false) s l) as Hdone.
  { split; [|done]. split; [done|apply slot_acts_refl]. }
  unfold nominate. apply wp_bind, wp_get. case_match; [done|]. case_match; [done|].
  rewrite (sc_ctx _ _ C). apply slot_syncs_bind; [slot_walk|]. intros _ s1 l1 C1 _.
  apply slot_syncs_bind; [by apply on_nomination_keeps; [apply nominate_serves|]|]. intros r s2 l2 C2 _.
  apply slot_syncs_bind; [by apply check_nomination_to_ballot_core|]. intros _ s3 l3 C3 _.
  apply wp_bind. eapply wp_mono; [by apply bookkeeping_syncs|]. intros _ s4 l4 [[C4 A4] Hs4].
  apply wp_bind, wp_get. cbv zeta. eapply wp_mono; [by apply syncs_then_tell|].
  intros r' s5 l5 [[C5 A5] Hs5]. split; [|done]. split; [done|]. by eapply slot_acts_trans.
Qed.

(** A call of the ballot protocol followed by the bookkeeping. *)
Lemma ballot_then_bookkeeping (m : M DriverEvent BallotProtocol bool) s l :
  ballot_op m -> slot_core s l ->
  slot_syncs (result <- on_ballot m ;; run_post_emit_bookkeeping ;; ret result) s l.
Proof.
  intros Hm C. apply slot_syncs_bind; [by apply on_ballot_keeps|]. intros r s1 l1 C1 _.
  apply wp_bind. eapply wp_mono; [by apply bookkeeping_syncs|]. intros u s2 l2 K. by apply wp_ret.
Qed.

Lemma bump_ballot_on_timeout_syncs s l :
  slot_core s l -> synced s -> slot_syncs bump_ballot_on_timeout s l.
Proof.
  intros C Hs. unfold bump_ballot_on_timeout. apply wp_bind, wp_get. case_match.
  { split; [|done]. split; [done|apply slot_acts_refl]. }
  rewrite (sc_ctx _ _ C). apply slot_syncs_bind; [slot_walk|]. intros _ s1 l1 C1 _.
  apply ballot_then_bookkeeping; [|done]. apply ballot_call_op. constructor.
Qed.

Lemma abandon_ballot_syncs n s l : is_u32 n -> slot_core s l -> slot_syncs (abandon_ballot n) s l.
Proof.
  intros Hn C. unfold abandon_ballot. apply slot_syncs_bind; [by apply sync_composite_core|].
  intros _ s1 l1 C1 _. apply wp_bind, wp_get. rewrite (sc_ctx _ _ C1).
  by apply ballot_then_bookkeeping; [apply abandon_ballot_op|].
Qed.

Lemma bump_state_syncs v n s l : is_u32 n -> slot_core s l -> slot_syncs (bump_state v n) s l.
Proof.
  intros Hn C. unfold bump_state. apply wp_bind, wp_get. rewrite (sc_ctx _ _ C).
  by apply ballot_then_bookkeeping; [apply bump_state_op|].
Qed.

Lemma force_bump_state_syncs v s l : slot_core s l -> slot_syncs (force_bump_state v) s l.
Proof.
  intros C. unfold force_bump_state. apply wp_bind, wp_get. rewrite (sc_ctx _ _ C).
  apply ballot_then_bookkeeping; [|done]. apply ballot_call_op. constructor.
Qed.

(** Operations that leave the ballots of a synced slot alone keep it synced. *)
Lemma keeps_synced s l s' l' :
  slot_core s' l' -> slot_acts s l s' l' -> synced s ->
  get_externalized_value (ballot s') = get_externalized_value (ballot s) -> synced s'.
Proof.
  intros C A Hs E. unfold synced in *. rewrite E. destruct (get_externalized_value (ballot s)) eqn:Hg.
  - by apply (sa_value _ _ _ _ A).
  - destruct (sc_half _ _ C) as [->|Hs']; [done|]. unfold synced in Hs'. congruence.
Qed.

Lemma restore_fully_validated_syncs s l :
  slot_core s l -> synced s -> slot_syncs restore_fully_validated s l.
Proof.
  intros C Hs. unfold restore_fully_validated. apply wp_bind, wp_get. case_match.
  { split; [|done]. split; [done|apply slot_acts_refl]. }
  assert (preserves (fun s' _ => get_externalized_value (ballot s') = get_externalized_value (ballot s))
    (set_fully_validated true ;; on_ballot send_latest_envelope ;;
     on_nomination Nomination.emit_deferred)) as Hp.
  { unfold set_fully_validated. repeat (apply preserves_bind; [|intros _]); apply preserves_wp; intros s1 l1 E1.
    - by apply wp_modify.
    - by apply wp_zoom, wp_modify.
    - by apply wp_zoom, wp_modify.
    - apply wp_zoom. unfold send_latest_envelope. apply wp_bind, wp_get.
      repeat (case_match; try done).
    - apply wp_zoom. unfold wp. case_match; try done. by repeat case_match.
      unfold Nomination.emit_deferred, bind, get in *. repeat case_match; simplify_eq. }
  assert (slot_keeps (set_fully_validated true ;; on_ballot send_latest_envelope ;;
     on_nomination Nomination.emit_deferred) s l) as Hk.
  { apply slot_keeps_bind; [by apply set_fully_validated_core|]. intros. slot_walk. }
  apply (fun H => wp_preserves _ _ _ _ _ H Hp eq_refl) in Hk.
  eapply wp_mono; [exact Hk|]. intros _ s' l' [[C' A'] E]. split; [done|]. by eapply keeps_synced.
Qed.

Lemma stop_nomination_syncs s l : slot_core s l -> synced s -> slot_syncs stop_nomination s l.
Proof.
  intros C Hs. unfold stop_nomination. apply wp_bind, wp_get.
  assert (slot_keeps (on_nomination Nomination.stop ;;
    tell (StopTimer (ctx_slot_index (slot_ctx s)) NominationTimer)) s l) as [C' A'] by slot_walk.
  split; [done|exact Hs].
Qed.
End slots.
