(* ===== verification/SlotSafety.v ===== *)
(** * Properties of slots

    What holds of a slot whatever envelopes it receives and whenever its timers
    fire: its decision, what it sends, that its operations end, and that a node
    that only watches sends nothing. *)

From S2P Require Import Prelude Types Quorum Statements Nomination Promotion NominationFacts Ballot BallotFacts BallotSafety BallotEmission Slot SlotFacts Network.
From S2P Require Nomination Ballot.

(** ** Nominations are not sent while the slot is not fully validated *)

Section nomination_silence.
Context `{XdrHash} `{SCPDriver} (ctx : SlotContext) (sent : list ScpEnvelope).

Definition nomination_silent (s : NominationProtocol) (l : list DriverEvent) : Prop :=
  Nomination.fully_validated s = false /\ emitted_envelopes l = sent.

Lemma silent_modify f :
  (forall s, Nomination.fully_validated (f s) = Nomination.fully_validated s) ->
  preserves nomination_silent (modify f).
Proof. intros Hf. apply preserves_wp. intros s l [? ?]. apply wp_modify. split; [by rewrite Hf|done]. Qed.

Lemma silent_tell e : emitted_envelopes [e] = [] -> preserves nomination_silent (tell e).
Proof.
  intros He. apply preserves_wp. intros s l [? ?]. apply wp_tell. split; [done|].
  by rewrite emitted_envelopes_app, He, app_nil_r.
Qed.
Hint Extern 2 (preserves _ (modify _)) => apply silent_modify; reflexivity : walk.
Hint Extern 2 (preserves _ (tell _)) => apply silent_tell; reflexivity : walk.

Lemma insert_vote_silent v : preserves nomination_silent (insert_vote v).
Proof. unfold insert_vote. walk. Qed.
Hint Resolve insert_vote_silent : walk.

Lemma promote_votes_silent values : preserves nomination_silent (promote_votes ctx values).
Proof. unfold insert_accepted. induction values; simpl; unfold insert_accepted; walk. Qed.

Lemma promote_accepted_silent values : preserves nomination_silent (promote_accepted ctx values).
Proof. induction values; simpl; walk. Qed.
Hint Resolve promote_votes_silent promote_accepted_silent : walk.

Lemma attempt_promote_silent values : preserves nomination_silent (attempt_promote ctx values).
Proof. unfold attempt_promote. walk. Qed.

Lemma update_composite_silent : preserves nomination_silent (update_composite ctx).
Proof. unfold update_composite. walk. Qed.
Hint Resolve attempt_promote_silent update_composite_silent : walk.

Lemma send_if_newer_silent nom env : preserves nomination_silent (send_if_newer nom env).
Proof.
  unfold send_if_newer. apply preserves_bind; [walk|]. intros s. cbv zeta. apply preserves_when.
  apply preserves_bind; [walk|]. intros _. apply preserves_get_bind. intros t l a s' l' [Hf Hs].
  rewrite Hf. simpl. by intros [= <- <- <-].
Qed.
Hint Resolve send_if_newer_silent : walk.

Lemma emit_nomination_depth_silent fuel : preserves nomination_silent (emit_nomination_depth ctx fuel).
Proof. induction fuel; simpl; unfold record_local_nomination; walk. Qed.
Hint Resolve emit_nomination_depth_silent : walk.

Lemma emit_nomination_silent : preserves nomination_silent (emit_nomination ctx).
Proof. unfold emit_nomination. walk. Qed.

Lemma vote_new_silent v : preserves nomination_silent (vote_new ctx v).
Proof. unfold vote_new. walk. Qed.
Hint Resolve emit_nomination_silent vote_new_silent : walk.

Lemma adopt_values_silent leaders : preserves nomination_silent (adopt_values ctx leaders).
Proof. induction leaders; simpl; walk. Qed.

Lemma leaders_loop_silent q prev n fuel : preserves nomination_silent (leaders_loop ctx q prev n fuel).
Proof. induction fuel; simpl; walk. Qed.
Hint Resolve adopt_values_silent leaders_loop_silent : walk.

Lemma nominate_silent v prev timedout :
  preserves nomination_silent (Nomination.nominate ctx v prev timedout).
Proof. unfold Nomination.nominate, update_round_leaders, adopt_leader_values, vote_as_leader. walk. Qed.

Lemma process_nomination_silent env :
  preserves nomination_silent (Nomination.process_envelope ctx env).
Proof. unfold Nomination.process_envelope, take_leader_vote. walk. Qed.

Lemma stop_silent : preserves nomination_silent Nomination.stop.
Proof. unfold Nomination.stop. walk. Qed.
End nomination_silence.

(** ** Runs of a slot *)

Section runs.
Context `{XdrHash} `{SCPDriver} (ctx : SlotContext).

(** The operations the owner of a slot calls, but for restoring a state and
    fast-forwarding to a decision of the network; [restored] says whether the
    owner may declare the slot fully validated again. *)
Inductive slot_call (restored : bool) : forall A, SM A -> Prop :=
| call_process env : wf_pledges (pledges (statement env)) ->
    slot_call restored _ (process_envelope env)
| call_slot_nominate v prev timedout : slot_call restored _ (nominate v prev timedout)
| call_bump_timeout : slot_call restored _ bump_ballot_on_timeout
| call_stop_nomination : slot_call restored _ stop_nomination
| call_abandon n : is_u32 n -> slot_call restored _ (abandon_ballot n)
| call_bump_state v n : is_u32 n -> slot_call restored _ (bump_state v n)
| call_force_bump v : slot_call restored _ (force_bump_state v)
| call_restore : restored = true -> slot_call restored _ restore_fully_validated.

Inductive slot_steps (restored : bool) :
    Slot -> list DriverEvent -> Slot -> list DriverEvent -> Prop :=
| slot_steps_refl s l : slot_steps restored s l s l
| slot_steps_call {A} (m : SM A) s1 l1 a s2 l2 s3 l3 :
    slot_call restored A m -> m s1 l1 = Done (a, s2, l2) -> slot_steps restored s2 l2 s3 l3 ->
    slot_steps restored s1 l1 s3 l3.

Context `{!SCPDriverLaws} `{!ExtractLaws}.

Lemma slot_call_syncs restored A (m : SM A) s l :
  slot_call restored A m -> slot_core ctx s l -> synced s -> slot_syncs ctx m s l.
Proof.
  intros [] C Hs.
  - by apply process_envelope_syncs.
  - by apply nominate_syncs.
  - by apply bump_ballot_on_timeout_syncs.
  - by apply stop_nomination_syncs.
  - by apply abandon_ballot_syncs.
  - by apply bump_state_syncs.
  - by apply force_bump_state_syncs.
  - by apply restore_fully_validated_syncs.
Qed.

Lemma slot_steps_sync restored s l s' l' :
  slot_steps restored s l s' l' -> slot_core ctx s l -> synced s ->
  slot_core ctx s' l' /\ slot_acts s l s' l' /\ synced s'.
Proof.
  intros Hsteps. induction Hsteps as [|A m s1 l1 a s2 l2 s3 l3 Hm Hr _ IH]; intros C Hs.
  { split_and!; [done|apply slot_acts_refl|done]. }
  destruct (wp_done _ _ _ _ _ _ _ (slot_call_syncs restored A m s1 l1 Hm C Hs) Hr) as [[C2 A2] Hs2].
  destruct (IH C2 Hs2) as (C3 & A3 & Hs3). split_and!; [done| |done]. by eapply slot_acts_trans.
Qed.

Lemma Slot_new_core validator : slot_core ctx (Slot_new ctx validator) [] /\ synced (Slot_new ctx validator).
Proof.
  split; [|done]. split; try done.
  - pose proof (NominationProtocol_new_inv ctx [] eq_refl) as I.
    destruct I; [by intros env ?%elem_of_nil|]. by split.
  - pose proof (BallotProtocol_new_order ctx [] eq_refl) as []. by split.
  - by right.
Qed.

Lemma slot_reachable restored validator s l :
  slot_steps restored (Slot_new ctx validator) [] s l ->
  slot_core ctx s l /\ synced s.
Proof.
  intros Hrun. destruct (Slot_new_core validator) as [C Hs].
  destruct (slot_steps_sync _ _ _ _ _ Hrun C Hs) as (? & _ & ?). done.
Qed.


(** What a slot hands to the network are sane statements of this node for
    this slot, its nominations each strictly newer than those before, and so
    its ballot statements. *)
Theorem slot_emissions_in_order restored validator s l
    (Hrun : slot_steps restored (Slot_new ctx validator) [] s l) :
  StronglySorted (fun a b => is_newer_nomination a b = true) (emitted_nominations l) /\
  StronglySorted (fun a b => is_newer_ballot_st a b = true) (emitted_statements l) /\
  (forall env, EmitEnvelope env ∈ l ->
     node_id (statement env) = local_node_id ctx /\ slot_index (statement env) = ctx_slot_index ctx /\
     match nomination_of env with
     | Some n => Nomination.is_sane_statement n = true
     | None => is_statement_sane (statement env) ctx = true
     end).
Proof.
  destruct (slot_reachable restored validator s l Hrun) as [C _].
  split_and!; [apply (sc_nom _ _ _ C)|apply (sc_order _ _ _ C)|].
  intros env Hin. destruct (nomination_of env) as [n|] eqn:Hn.
  - destruct (ni_own _ _ _ (sc_nom _ _ _ C) env n Hin Hn) as [[Hst Hsane] _]. by rewrite Hst.
  - assert (statement env ∈ emitted_statements l) as Hst.
    { unfold emitted_statements. rewrite list_elem_of_In, filter_In, <- list_elem_of_In. split.
      - apply list_elem_of_fmap. exists env. split; [done|]. by apply elem_of_emitted.
      - unfold nomination_of in Hn. by destruct (pledges (statement env)). }
    pose proof (oi_own _ _ _ (sc_order _ _ _ C)) as Hown. rewrite Forall_forall in Hown.
    by destruct (Hown _ Hst) as (? & ? & _ & ?).
Qed.

(** C32: from a reachable state every operation of a slot returns, in a state
    from which the same holds again, or hits one of the panics of the two
    protocols. *)
Theorem slot_calls_terminate restored validator s l A (m : SM A)
    (Hrun : slot_steps restored (Slot_new ctx validator) [] s l) (Hcall : slot_call restored A m) :
  m s l = Panicked \/
  exists a s' l', m s l = Done (a, s', l') /\ slot_steps restored (Slot_new ctx validator) [] s' l'.
Proof.
  destruct (slot_reachable restored validator s l Hrun) as [C Hs].
  pose proof (slot_call_syncs restored A m s l Hcall C Hs) as Hk.
  apply wp_not_no_fuel in Hk. destruct (m s l) as [[[a s'] l']| |] eqn:Hm; [|by left|done].
  right. exists a, s', l'. split; [done|]. clear -Hrun Hcall Hm.
  induction Hrun as [s l|B m1 s1 l1 b s2 l2 s3 l3 Hc1 Hr1 _ IH].
  - eapply slot_steps_call; [exact Hcall|exact Hm|constructor].
  - eapply slot_steps_call; [exact Hc1|exact Hr1|]. by apply IH.
Qed.
End runs.

(** ** Watchers *)

Section watcher.
Context `{XdrHash} `{SCPDriver} `{!SCPDriverLaws} (ctx : SlotContext) (sent : list ScpEnvelope).

(** No part of the slot is fully validated, and nothing more was sent. *)
Definition slot_silent (s : Slot) (l : list DriverEvent) : Prop :=
  slot_ctx s = ctx /\ slot_fully_validated s = false /\
  nomination_silent sent (nomination s) l /\ ballot_silent sent (ballot s) l.

Lemma slot_silent_modify f :
  (forall s, slot_ctx (f s) = slot_ctx s /\ slot_fully_validated (f s) = slot_fully_validated s /\
     nomination (f s) = nomination s /\ ballot (f s) = ballot s) ->
  preserves slot_silent (modify f).
Proof.
  intros Hf. apply preserves_wp. intros s l (? & ? & ? & ?). apply wp_modify.
  destruct (Hf s) as (Ec & Ef & En & Eb). unfold slot_silent. by rewrite Ec, Ef, En, Eb.
Qed.

Lemma slot_silent_clear : preserves slot_silent (modify (put_slot_fully_validated false)).
Proof. apply preserves_wp. intros s l (? & ? & ? & ?). by apply wp_modify. Qed.

Lemma slot_silent_tell e : emitted_envelopes [e] = [] -> preserves slot_silent (tell e).
Proof.
  intros He. apply preserves_wp. intros s l (? & ? & [? ?] & [? ?]). apply wp_tell.
  unfold slot_silent, nomination_silent, ballot_silent.
  by rewrite emitted_envelopes_app, He, app_nil_r.
Qed.

Lemma on_ballot_silent {A} (m : M DriverEvent BallotProtocol A) :
  preserves (ballot_silent sent) m -> preserves slot_silent (on_ballot m).
Proof.
  intros Hm s l a s' l' (? & ? & [? ?] & Hb). unfold on_ballot, zoom.
  destruct (m (ballot s) l) as [[[a' b'] l'']| |] eqn:Hr; [|done|done]. intros [= <- <- <-].
  pose proof (Hm _ _ _ _ _ Hb Hr) as [? ?]. split_and!; by try split.
Qed.

Lemma on_nomination_silent {A} (m : M DriverEvent NominationProtocol A) :
  preserves (nomination_silent sent) m -> preserves slot_silent (on_nomination m).
Proof.
  intros Hm s l a s' l' (? & ? & Hn & [? ?]). unfold on_nomination, zoom.
  destruct (m (nomination s) l) as [[[a' n'] l'']| |] eqn:Hr; [|done|done]. intros [= <- <- <-].
  pose proof (Hm _ _ _ _ _ Hn Hr) as [? ?]. split_and!; by try split.
Qed.

(** The context the operations read is that of the slot. *)
Lemma slot_silent_get {B} (k : Slot -> SM B) :
  (forall s, slot_ctx s = ctx -> preserves slot_silent (k s)) -> preserves slot_silent (bind get k).
Proof. intros Hk. apply preserves_get_bind. intros s l a s' l' HP. apply Hk; [apply HP|exact HP]. Qed.

Lemma nomination_flag_silent : preserves (nomination_silent sent) (Nomination.set_fully_validated false).
Proof. apply preserves_wp. intros s l [? ?]. by apply wp_modify. Qed.

Lemma ballot_flag_silent : preserves (ballot_silent sent) (Ballot.set_fully_validated false).
Proof. apply preserves_wp. intros s l [? ?]. by apply wp_modify. Qed.

#[local] Hint Resolve nomination_flag_silent ballot_flag_silent stop_silent nominate_silent
  process_nomination_silent slot_silent_clear : walk.
#[local] Hint Extern 2 (preserves _ (modify _)) => apply slot_silent_modify; by intros [] : walk.
#[local] Hint Extern 2 (preserves _ (tell _)) => apply slot_silent_tell; reflexivity : walk.
#[local] Hint Extern 2 (preserves _ (on_nomination _)) =>
  apply on_nomination_silent; solve [auto with walk] : walk.
#[local] Hint Extern 2 (preserves _ (on_ballot _)) =>
  apply on_ballot_silent; solve [auto with walk] : walk.
#[local] Hint Extern 1 (preserves _ (Ballot.process_envelope _ _ _)) =>
  eapply process_envelope_walk; apply _ : walk.
#[local] Hint Extern 1 (preserves _ (bump _ _ _)) => eapply bump_walk; apply _ : walk.
#[local] Hint Extern 1 (preserves _ (bump_timeout _ _)) => eapply bump_timeout_walk; apply _ : walk.
#[local] Hint Extern 1 (preserves _ (Ballot.abandon_ballot _ _ _)) =>
  eapply abandon_ballot_walk; [apply _|eapply emit_state_walk; apply _] : walk.
#[local] Hint Extern 1 (preserves _ (Ballot.bump_state _ _ _ _)) =>
  eapply bump_state_walk; [apply _|eapply emit_state_walk; apply _] : walk.

Lemma take_flags_silent :
  preserves (ballot_silent sent) take_needs_stop_nomination /\
  preserves (ballot_silent sent) take_needs_clear_slot_validation /\
  forall v, preserves (ballot_silent sent) (set_composite_candidate v).
Proof.
  split_and!; [..|intros v]; apply preserves_wp; intros s l [? ?];
    [apply wp_bind, wp_get, wp_bind, wp_modify, wp_ret..|apply wp_modify]; by split.
Qed.

Lemma bookkeeping_silent : preserves slot_silent run_post_emit_bookkeeping.
Proof.
  destruct take_flags_silent as (Hs & Hc & _).
  unfold run_post_emit_bookkeeping, propagate_ballot_clear_slot_validation, maybe_record_externalization,
    sync_externalized_value_from_ballot, maybe_set_got_v_blocking. walk.
Qed.

Lemma set_validated_silent : preserves slot_silent (set_fully_validated false).
Proof. unfold set_fully_validated. walk. Qed.
#[local] Hint Resolve bookkeeping_silent set_validated_silent : walk.

Lemma check_nomination_to_ballot_silent : preserves slot_silent check_nomination_to_ballot.
Proof. unfold check_nomination_to_ballot. apply slot_silent_get. intros s ->. walk. Qed.
#[local] Hint Resolve check_nomination_to_ballot_silent : walk.

Lemma process_ballot_envelope_silent env : preserves slot_silent (process_ballot_envelope env).
Proof.
  destruct take_flags_silent as (_ & _ & Hv). unfold process_ballot_envelope, sync_composite_candidate.
  apply slot_silent_get. intros s ->. cbv zeta. walk.
Qed.

Lemma process_nomination_envelope_silent env : preserves slot_silent (process_nomination_envelope env).
Proof. unfold process_nomination_envelope. apply slot_silent_get. intros s ->. walk. Qed.
#[local] Hint Resolve process_ballot_envelope_silent process_nomination_envelope_silent : walk.

Lemma slot_call_silent A (m : SM A) : slot_call false A m -> preserves slot_silent m.
Proof.
  destruct take_flags_silent as (_ & _ & Hv). intros [].
  - unfold process_envelope. cbv zeta. walk.
  - unfold nominate. apply slot_silent_get. intros s ->. walk.
  - unfold bump_ballot_on_timeout. apply slot_silent_get. intros s ->. walk.
  - unfold stop_nomination. walk.
  - unfold abandon_ballot, sync_composite_candidate. apply preserves_bind; [walk|]. intros _.
    apply slot_silent_get. intros s ->. walk.
  - unfold bump_state. apply slot_silent_get. intros s ->. walk.
  - unfold force_bump_state. apply slot_silent_get. intros s ->. walk.
  - done.
Qed.

Lemma slot_steps_silent s l s' l' :
  slot_steps false s l s' l' -> slot_silent s l -> slot_silent s' l'.
Proof.
  intros Hs. induction Hs as [|A m s1 l1 a s2 l2 s3 l3 Hm Hr _ IH]; [done|]. intros HP. apply IH.
  by eapply (slot_call_silent A m Hm).
Qed.
End watcher.

(** Until it is declared fully validated, a slot of a node that only watches
    processes envelopes, follows the votes and even decides, but never hands an
    envelope to the network nor offers one to a peer that asks for its latest
    messages. *)
Theorem watcher_never_sends `{XdrHash} `{SCPDriver} `{!SCPDriverLaws} (ctx : SlotContext) s l
    (Hrun : slot_steps false (Slot_new ctx false) [] s l) :
  (forall env, EmitEnvelope env ∉ l) /\ get_latest_messages_send s = [].
Proof.
  destruct (slot_steps_silent ctx [] _ _ _ _ Hrun) as (_ & Hf & _ & [_ He]).
  { by split_and!. }
  split_and!.
  - intros env Hin%elem_of_emitted. rewrite He in Hin. by apply elem_of_nil in Hin.
  - unfold get_latest_messages_send. by rewrite Hf.
Qed.

(** ** The theorems on the example network *)

(** The node nominates, follows the leader of the round, and hears one peer
    through the ballot protocol. *)
Definition net_slot_run : SM unit :=
  nominate net_value [9] false ;;
  process_envelope leader_accepts ;;
  process_envelope peer_accepts ;;
  process_envelope peer_confirms ;;
  ret tt.

(** A watcher hears two nodes that have accepted to commit. *)
Definition other_confirms : ScpEnvelope := net_env 3 (pledges (statement peer_confirms)).
Definition net_watch_run : SM unit :=
  process_envelope peer_confirms ;;
  process_envelope other_confirms ;;
  ret tt.

Definition net_after (validator : bool) (m : SM unit) : Slot * list DriverEvent :=
  match m (Slot_new net_ctx validator) [] with
  | Done (_, s, l) => (s, l)
  | _ => (Slot_new net_ctx validator, [])
  end.
Definition net_slot := net_after true net_slot_run.
Definition net_watcher := net_after false net_watch_run.

Ltac net_slot_call c :=
  eapply slot_steps_call; [apply c; vm_compute; intuition discriminate|vm_compute; reflexivity|].

Lemma net_slot_steps : slot_steps true (Slot_new net_ctx true) [] net_slot.1 net_slot.2.
Proof.
  eapply slot_steps_call; [apply (call_slot_nominate _ net_value [9] false)|vm_compute; reflexivity|].
  net_slot_call (call_process true leader_accepts).
  net_slot_call (call_process true peer_accepts).
  net_slot_call (call_process true peer_confirms).
  match goal with |- slot_steps _ ?s ?l _ _ =>
    replace net_slot with (s, l) by (vm_compute; reflexivity) end.
  apply slot_steps_refl.
Qed.

Lemma net_watcher_steps : slot_steps false (Slot_new net_ctx false) [] net_watcher.1 net_watcher.2.
Proof.
  net_slot_call (call_process false peer_confirms).
  net_slot_call (call_process false other_confirms).
  match goal with |- slot_steps _ ?s ?l _ _ =>
    replace net_watcher with (s, l) by (vm_compute; reflexivity) end.
  apply slot_steps_refl.
Qed.


Lemma slot_emissions_in_order_witness :
  length (emitted_statements net_slot.2) = 3%nat /\
  StronglySorted (fun a b => is_newer_ballot_st a b = true) (emitted_statements net_slot.2).
Proof.
  split; [vm_compute; reflexivity|].
  exact (proj1 (proj2 (slot_emissions_in_order net_ctx true true _ _ net_slot_steps))).
Defined.

Lemma slot_calls_terminate_witness :
  force_bump_state net_value net_slot.1 net_slot.2 = Panicked \/
  exists a s' l', force_bump_state net_value net_slot.1 net_slot.2 = Done (a, s', l') /\
    slot_steps true (Slot_new net_ctx true) [] s' l'.
Proof.
  exact (slot_calls_terminate net_ctx true true _ _ _ _ net_slot_steps (call_force_bump true net_value)).
Defined.

Lemma watcher_never_sends_witness :
  externalized_value net_watcher.1 = Some net_value /\ get_latest_messages_send net_watcher.1 = [].
Proof.
  split; [vm_compute; reflexivity|].
  exact (proj2 (watcher_never_sends net_ctx _ _ net_watcher_steps)).
Defined.
