(* ===== verification/ScpSafety.v ===== *)
(** * Properties of the coordinator

    Every slot of the coordinator is in a state that a run of that slot alone
    reaches, so that the theorems on slots apply to it; decisions stay while the
    slot is kept; the number of slots is bounded by the envelopes received; and
    what peers and operators are told about the slots is what the slots hold. *)

From S2P Require Import Prelude Types Quorum Statements NominationFacts BallotFacts Slot SlotFacts SlotSafety Network Scp.
From S2P Require Nomination Ballot.

(** ** The keys of the map *)

Lemma elem_of_sorted_keys (m : gmap Z Slot) i : i ∈ sorted_keys m <-> is_Some (m !! i).
Proof. unfold sorted_keys. rewrite elem_of_btree_elements. apply elem_of_dom. Qed.

Lemma sorted_keys_strict (m : gmap Z Slot) : StronglySorted Z.lt (sorted_keys m).
Proof.
  unfold sorted_keys, btree_elements.
  apply (StronglySorted_weaken (fun a b => Z.compare a b = Lt)); [intros a b; apply Z.compare_lt_iff|].
  apply (sorted_NoDup_strict Z.compare); [apply (Sorted_merge_sort _)|].
  rewrite merge_sort_Permutation. apply NoDup_elements.
Qed.

Lemma sorted_keys_length (m : gmap Z Slot) : length (sorted_keys m) = size m.
Proof. unfold sorted_keys, btree_elements. by rewrite merge_sort_Permutation, <- size_dom. Qed.

(** ** One slot at a time *)

Lemma slot_steps_snoc `{XdrHash} `{SCPDriver} restored s l s1 l1 A (m : SM A) a s2 l2 :
  slot_steps restored s l s1 l1 -> slot_call restored A m -> m s1 l1 = Done (a, s2, l2) ->
  slot_steps restored s l s2 l2.
Proof.
  intros Hrun Hcall Hm. induction Hrun as [s l|B m1 s1 l1 b s3 l3 s4 l4 Hc1 Hr1 _ IH].
  - eapply slot_steps_call; [exact Hcall|exact Hm|constructor].
  - eapply slot_steps_call; [exact Hc1|exact Hr1|]. by apply IH.
Qed.

Lemma slot_call_uniform `{XdrHash} `{SCPDriver} restored A (m : SM A) :
  slot_call restored A m -> uniform m.
Proof. intros []; auto with uniform. Qed.

(** The configuration that does not change. *)
Definition config (s : SCP) := (scp_local_node_id s, scp_is_validator s, max_slots s).

Lemma on_slot_run {A} i (m : SM A) s l a s' l' :
  on_slot i m s l = Done (a, s', l') ->
  exists slot', m (get_or_create_slot s i) l = Done (a, slot', l') /\
    s' = put_slots (<[i := slot']> (slots s)) s.
Proof.
  unfold on_slot, zoom. destruct (m _ l) as [[[a0 slot'] l0]| |]; [|done|done].
  intros [= <- <- <-]. by exists slot'.
Qed.

Lemma strict_NoDup (l : list Z) : StronglySorted Z.lt l -> NoDup l.
Proof.
  induction 1 as [|x l Hs IH Hx]; constructor; [|done]. intros Hin.
  rewrite Forall_forall in Hx. specialize (Hx x Hin). lia.
Qed.

(** A strictly ascending list is determined by its elements. *)
Lemma strict_ext (l k : list Z) :
  StronglySorted Z.lt l -> StronglySorted Z.lt k -> (forall i, i ∈ l <-> i ∈ k) -> l = k.
Proof.
  intros Hl Hk E. apply (StronglySorted_unique_strong Z.lt); [intros; lia|done|done|].
  apply NoDup_Permutation; [by apply strict_NoDup..|done].
Qed.

(** Deleting keys one after the other. *)
Lemma delete_all_lookup (m : gmap Z Slot) l i :
  fold_left (fun m i => delete i m) l m !! i = if bool_decide (i ∈ l) then None else m !! i.
Proof.
  revert m. induction l as [|k l IH]; intros m; cbn [fold_left].
  { rewrite bool_decide_eq_false_2; [done|apply not_elem_of_nil]. }
  rewrite IH. destruct (decide (i ∈ l)) as [Hin|Hin].
  - rewrite !bool_decide_eq_true_2; [done|by right|done].
  - rewrite (bool_decide_eq_false_2 (i ∈ l)) by done. destruct (decide (i = k)) as [->|Hne].
    + rewrite lookup_delete_eq, bool_decide_eq_true_2; [done|by left].
    + rewrite lookup_delete_ne by done. rewrite bool_decide_eq_false_2; [done|].
      by intros [?|?]%elem_of_cons.
Qed.

(** What the cleanup leaves: the [max_slots] highest keys. *)
Lemma cleanup_run s l a s' l' :
  cleanup_old_slots s l = Done (a, s', l') ->
  l' = l /\ config s' = config s /\ scp_quorum_set s' = scp_quorum_set s /\
  exists dropped, sorted_keys (slots s) = dropped ++ sorted_keys (slots s') /\
    (forall i x, slots s' !! i = Some x -> slots s !! i = Some x) /\
    (0 <= max_slots s -> Z.of_nat (size (slots s')) = Z.min (max_slots s) (Z.of_nat (size (slots s)))).
Proof.
  unfold cleanup_old_slots, bind, get.
  destruct (Z.leb_spec (Z.of_nat (size (slots s))) (max_slots s)) as [Hle|Hgt].
  { intros [= _ <- <-]. split_and!; try done. exists []. split_and!; [done..|lia]. }
  unfold modify. intros [= _ <- <-]. split_and!; try done.
  set (keys := sorted_keys (slots s)). set (n := Z.to_nat (len keys - max_slots s)). simpl.
  pose proof (delete_all_lookup (slots s) (take n keys)) as Hlookup.
  set (m' := fold_left _ _ _) in *.
  assert (StronglySorted Z.lt (take n keys ++ drop n keys)) as Hs.
  { rewrite take_drop. apply sorted_keys_strict. }
  assert (sorted_keys m' = drop n keys) as Hkeys.
  { pose proof (strict_NoDup _ Hs) as Hd. apply NoDup_app in Hd as (_ & Hd & _).
    apply StronglySorted_app in Hs as (_ & _ & Hs).
    apply strict_ext; [apply sorted_keys_strict|done|]. intros i.
    rewrite elem_of_sorted_keys, Hlookup. split.
    - intros Hi. case_bool_decide as Hin; [by destruct Hi|]. apply elem_of_sorted_keys in Hi.
      fold keys in Hi. rewrite <- (take_drop n keys), elem_of_app in Hi. tauto.
    - intros Hi. case_bool_decide as Hin; [by destruct (Hd i Hin)|]. apply elem_of_sorted_keys.
      fold keys. rewrite <- (take_drop n keys), elem_of_app. by right. }
  exists (take n keys). split_and!.
  - by rewrite Hkeys, take_drop.
  - intros i x. rewrite Hlookup. by case_bool_decide.
  - intros Hmax. rewrite <- sorted_keys_length, Hkeys, length_drop. unfold n, len, keys.
    rewrite sorted_keys_length. lia.
Qed.

(** ** Runs of the coordinator *)

Section runs.
Context `{XdrHash} `{SCPDriver}.

(** The calls of the application, but for restoring a state and fast-forwarding
    to a decision of the network; [restored] as for slots. *)
Inductive scp_call (restored : bool) : forall A, CM A -> Prop :=
| call_receive env : wf_pledges (pledges (statement env)) ->
    scp_call restored _ (receive_envelope env)
| call_scp_nominate i v prev : scp_call restored _ (Scp.nominate i v prev)
| call_nominate_timeout i v prev : scp_call restored _ (nominate_timeout i v prev)
| call_scp_stop i : scp_call restored _ (Scp.stop_nomination i)
| call_bump_ballot i : scp_call restored _ (bump_ballot i)
| call_purge lo hi keep : scp_call restored _ (purge_slots lo hi keep)
| call_scp_abandon i n : is_u32 n -> scp_call restored _ (Scp.abandon_ballot i n)
| call_scp_bump_state i v n : is_u32 n -> scp_call restored _ (Scp.bump_state i v n)
| call_scp_force_bump i v : scp_call restored _ (Scp.force_bump_state i v)
| call_set_quorum_set q : scp_call restored _ (set_local_quorum_set q)
| call_scp_restore i : restored = true -> scp_call restored _ (restore_slot_fully_validated i).

Inductive scp_steps (restored : bool) : SCP -> list DriverEvent -> SCP -> list DriverEvent -> Prop :=
| scp_steps_refl s l : scp_steps restored s l s l
| scp_steps_call {A} (m : CM A) s1 l1 a s2 l2 s3 l3 :
    scp_call restored A m -> m s1 l1 = Done (a, s2, l2) -> scp_steps restored s2 l2 s3 l3 ->
    scp_steps restored s1 l1 s3 l3.

(** A slot of index [i] is what a run of that slot alone leads to. *)
Definition slot_run (restored : bool) (s : SCP) (i : Z) (slot : Slot) : Prop :=
  exists q l, slot_steps restored
    (Slot_new (Ctx (scp_local_node_id s) q i) (scp_is_validator s)) [] slot l.

(** What a call does to the slots: each is left alone, makes one step of its own,
    is new and makes one step, or is evicted. *)
Record scp_moves (restored : bool) (s s' : SCP) : Prop := {
  sm_config : config s' = config s;
  sm_slots : forall i x, slots s' !! i = Some x ->
    slots s !! i = Some x \/
    exists A (m : SM A) a l l', slot_call restored A m /\
      m (get_or_create_slot s i) l = Done (a, x, l')
}.

Lemma on_slot_moves restored A i (m : SM A) s l a s' l' :
  slot_call restored A m -> on_slot i m s l = Done (a, s', l') -> scp_moves restored s s'.
Proof.
  intros Hm (slot' & Hr & ->)%on_slot_run. split; [done|]. intros k x. simpl.
  rewrite lookup_insert_Some. intros [[<- <-]|[_ ?]]; [right|by left]. by eexists _, m, a, l, l'.
Qed.

Lemma on_existing_slot_moves restored A i (d : A) (m : SM A) s l a s' l' :
  slot_call restored A m -> on_existing_slot i d m s l = Done (a, s', l') -> scp_moves restored s s'.
Proof.
  intros Hm. unfold on_existing_slot, bind, get. destruct (slots s !! i).
  - by apply on_slot_moves.
  - intros [= _ <- _]. split; [done|by left].
Qed.

Lemma scp_moves_evict restored s s1 s' :
  scp_moves restored s s1 -> config s' = config s1 ->
  (forall i x, slots s' !! i = Some x -> slots s1 !! i = Some x) -> scp_moves restored s s'.
Proof. intros [E M] E' M'. split; [congruence|]. intros i x Hx%M'. by apply M. Qed.

Lemma scp_moves_refl restored s : scp_moves restored s s.
Proof. split; [done|by left]. Qed.

(** The two parts of [receive_envelope]. *)
Lemma receive_run env s l a s' l' :
  receive_envelope env s l = Done (a, s', l') ->
  exists s1, on_slot (slot_index (statement env)) (Slot.process_envelope env) s l = Done (a, s1, l') /\
    (s' = s1 /\ slot_count s1 <= max_slots s1 \/ cleanup_old_slots s1 l' = Done (tt, s', l')).
Proof.
  unfold receive_envelope, bind, get, when.
  destruct (on_slot _ _ s l) as [[[r s1] l1]| |]; [|done|done].
  destruct (Z.ltb_spec (max_slots s1) (Z.of_nat (size (slots s1)))).
  - destruct (cleanup_old_slots s1 l1) as [[[[] s2] l2]| |] eqn:Hc; [|done|done]. intros [= <- <- <-].
    exists s1. pose proof (cleanup_run _ _ _ _ _ Hc) as (-> & _). split; [done|by right].
  - intros [= <- <- <-]. exists s1. split; [done|]. left. by split.
Qed.

Lemma scp_call_moves restored A (m : CM A) s l a s' l' :
  scp_call restored A m -> m s l = Done (a, s', l') -> scp_moves restored s s'.
Proof.
  intros Hm. destruct Hm.
  - intros (s1 & Hs1 & Hc)%receive_run. apply (on_slot_moves restored) in Hs1; [|by constructor].
    destruct Hc as [[-> _]|Hc]; [done|].
    apply cleanup_run in Hc as (_ & E & _ & dropped & _ & Hk & _). by eapply scp_moves_evict.
  - unfold Scp.nominate, bind, get. destruct (negb _); [intros [= _ <- _]; apply scp_moves_refl|].
    apply on_slot_moves. constructor.
  - unfold nominate_timeout, bind at 1, get at 1. destruct (negb _); [intros [= _ <- _]; apply scp_moves_refl|].
    apply on_existing_slot_moves. constructor.
  - apply on_existing_slot_moves. constructor.
  - apply on_existing_slot_moves. constructor.
  - unfold purge_slots. case_match; [intros [= _ <- _]; apply scp_moves_refl|].
    intros [= _ <- _]. split; [done|]. intros i x. simpl. rewrite map_lookup_filter_Some. intros [? _]. by left.
  - by apply on_existing_slot_moves; constructor.
  - by apply on_slot_moves; constructor.
  - by apply on_slot_moves; constructor.
  - intros [= _ <- _]. split; [done|by left].
  - by apply on_existing_slot_moves; constructor.
Qed.

Lemma scp_moves_runs restored s s' :
  scp_moves restored s s' ->
  (forall i slot, slots s !! i = Some slot -> slot_run restored s i slot) ->
  forall i slot, slots s' !! i = Some slot -> slot_run restored s' i slot.
Proof.
  intros [E M] Hs i slot Hslot. injection E as En Ev Em. unfold slot_run. rewrite En, Ev.
  destruct (M i slot Hslot) as [Hold|(A & m & a & l & l' & Hcall & Hr)]; [by apply Hs|].
  pose proof (uniform_run m _ _ _ _ _ (slot_call_uniform _ _ _ Hcall) Hr) as (evs & _ & Hu).
  unfold get_or_create_slot in Hu. destruct (slots s !! i) as [old|] eqn:Hold; simpl in Hu.
  - destruct (Hs i old Hold) as (q & k & Hk). exists q, (k ++ evs). by eapply slot_steps_snoc.
  - exists (scp_quorum_set s), ([] ++ evs). by eapply slot_steps_call; [..|constructor].
Qed.

Lemma scp_steps_runs restored s l s' l' :
  scp_steps restored s l s' l' ->
  (forall i slot, slots s !! i = Some slot -> slot_run restored s i slot) ->
  config s' = config s /\ forall i slot, slots s' !! i = Some slot -> slot_run restored s' i slot.
Proof.
  intros Hrun. induction Hrun as [|A m s1 l1 a s2 l2 s3 l3 Hm Hr _ IH]; intros Hs; [done|].
  pose proof (scp_call_moves _ _ _ _ _ _ _ _ Hm Hr) as M.
  destruct IH as [E Hs3]; [by eapply scp_moves_runs|]. split; [|done]. rewrite E. apply M.
Qed.

Lemma scp_reachable_runs restored node validator q s l :
  scp_steps restored (SCP_new node validator q) [] s l ->
  forall i slot, slots s !! i = Some slot ->
  exists q' evs, slot_steps restored (Slot_new (Ctx node q' i) validator) [] slot evs.
Proof.
  intros Hrun. destruct (scp_steps_runs _ _ _ _ _ Hrun) as [E Hs].
  { intros k x Hk. simpl in Hk. by rewrite lookup_empty in Hk. }
  injection E as En Ev _. intros i slot Hslot. specialize (Hs i slot Hslot).
  unfold slot_run in Hs. by rewrite En, Ev in Hs.
Qed.

(** Whatever the application calls and in whatever order the calls for
    different slots interleave, every slot the coordinator holds is in a state
    that a run of that slot alone reaches from a fresh one, for this node and
    the index it is stored under: all theorems on slots hold of it. *)
Theorem scp_slots_reachable restored node validator q s l i slot
    (Hrun : scp_steps restored (SCP_new node validator q) [] s l)
    (Hslot : slots s !! i = Some slot) :
  exists q' evs,
    slot_steps restored (Slot_new (Ctx node q' i) validator) [] slot evs.
Proof. by apply (scp_reachable_runs _ _ _ _ _ _ Hrun). Qed.

Context `{!SCPDriverLaws} `{!ExtractLaws}.

(** A call never changes the decision of a slot: afterwards the slot has the
    same decision or is no longer kept. *)
Theorem scp_decision_final restored node validator q s l A (m : CM A) a s' l' i v
    (Hrun : scp_steps restored (SCP_new node validator q) [] s l)
    (Hcall : scp_call restored A m) (Hm : m s l = Done (a, s', l'))
    (Hv : Scp.get_externalized_value s i = Some v) :
  has_slot s' i = false \/ Scp.get_externalized_value s' i = Some v.
Proof.
  unfold has_slot, Scp.get_externalized_value in *.
  destruct (slots s' !! i) as [slot'|] eqn:Hs'; [right|left; apply bool_decide_eq_false_2; by intros []].
  destruct (slots s !! i) as [slot|] eqn:Hs; [simpl in *|done].
  pose proof (scp_call_moves _ _ _ _ _ _ _ _ Hcall Hm) as [_ M].
  destruct (M i slot' Hs') as [Hold|(B & op & b & k & k' & Hop & Hr)]; [congruence|].
  unfold get_or_create_slot in Hr. rewrite Hs in Hr. simpl in Hr.
  destruct (scp_reachable_runs _ _ _ _ _ _ Hrun i slot Hs) as (q' & evs & Hslot).
  destruct (slot_reachable _ _ _ _ _ Hslot) as [C S].
  pose proof (uniform_run op _ _ _ _ _ (slot_call_uniform _ _ _ Hop) Hr) as (new & _ & Hu).
  pose proof (slot_call_syncs _ _ _ _ _ _ Hop C S) as Hw.
  destruct (wp_done _ _ _ _ _ _ _ Hw (Hu evs)) as [[_ A2] _]. by apply (sa_value _ _ _ _ A2).
Qed.

(** After an envelope was received the coordinator keeps at most
    [max_slots] slots; those it dropped are older than all it keeps, and of
    those it keeps only the one the envelope is for was touched. *)
Theorem receive_envelope_bounds_slots env s l r s' l'
    (Hmax : 0 <= max_slots s) (Hr : receive_envelope env s l = Done (r, s', l')) :
  slot_count s' <= max_slots s /\
  (forall i x, slots s' !! i = Some x -> i <> slot_index (statement env) -> slots s !! i = Some x) /\
  (forall i j, has_slot s i = true -> has_slot s' i = false -> has_slot s' j = true -> i < j).
Proof.
  apply receive_run in Hr as (s1 & (slot' & _ & ->)%on_slot_run & Hc).
  set (i0 := slot_index (statement env)) in *. set (s1 := put_slots _ s) in *.
  assert (forall i x, slots s1 !! i = Some x -> i <> i0 -> slots s !! i = Some x) as Hother.
  { intros i x Hi Hne. simpl in Hi. by rewrite lookup_insert_ne in Hi. }
  assert (forall i, has_slot s i = true -> is_Some (slots s1 !! i)) as Hkeep.
  { intros i. unfold has_slot. rewrite bool_decide_eq_true. intros Hi. simpl.
    apply lookup_insert_is_Some'. by right. }
  destruct Hc as [[-> Hle]|Hc].
  - split_and!; [done|done|]. intros i j Hi Hi' _. apply Hkeep in Hi.
    unfold has_slot in Hi'. by apply bool_decide_eq_false in Hi'.
  - apply cleanup_run in Hc as (_ & E & _ & dropped & Hkeys & Hk & Hsize). injection E as _ _ Em.
    split_and!.
    + unfold slot_count. rewrite Hsize by done. change (max_slots s1) with (max_slots s). lia.
    + intros i x Hi. by apply Hother, Hk.
    + intros i j Hi Hi' Hj. apply Hkeep, elem_of_sorted_keys in Hi. rewrite Hkeys in Hi.
      pose proof (sorted_keys_strict (slots s1)) as Hs. rewrite Hkeys in Hs.
      apply StronglySorted_app in Hs as (Hlt & _ & _). apply Hlt.
      * apply elem_of_app in Hi as [?|Hin]; [done|]. apply elem_of_sorted_keys in Hin.
        unfold has_slot in Hi'. by apply bool_decide_eq_false in Hi'.
      * apply elem_of_sorted_keys. unfold has_slot in Hj. by apply bool_decide_eq_true in Hj.
Qed.

(** Only [receive_envelope] drops slots on its own: when fast-forwarding to
    a decision creates a slot there is one slot more, however many there are. *)
Theorem force_externalize_evicts_nothing i v s l :
  exists s', Scp.force_externalize i v s l = Done (tt, s', l) /\
    Scp.get_externalized_value s' i = Some v /\
    slot_count s' = (if has_slot s i then slot_count s else slot_count s + 1) /\
    forall j, j <> i -> slots s' !! j = slots s !! j.
Proof.
  eexists. split; [reflexivity|]. unfold Scp.get_externalized_value, slot_count, has_slot. simpl.
  split_and!.
  - by rewrite lookup_insert_eq.
  - rewrite map_size_insert. destruct (slots s !! i) eqn:E.
    + by rewrite bool_decide_eq_true_2.
    + rewrite bool_decide_eq_false_2 by (by intros []). lia.
  - intros j Hj. by rewrite lookup_insert_ne.
Qed.
End runs.

(** ** What peers are told *)

(** The envelopes of one protocol a slot shares, in the order of the nodes. *)
Definition shared_by (local : NodeId) (fully_validated force_self : bool)
    (envs : gmap NodeId ScpEnvelope) : list ScpEnvelope :=
  map snd (List.filter (fun kv => force_self || negb (bool_decide (kv.1 = local)) || fully_validated)
    (merge_sort (cmp_le entry_compare) (map_to_list envs))).

Definition slot_shares (slot : Slot) (force_self : bool) : list ScpEnvelope :=
  let local := local_node_id (slot_ctx slot) in
  let full := slot_fully_validated slot in
  shared_by local full force_self (Nomination.latest_nominations (nomination slot))
  ++ shared_by local full force_self (Ballot.latest_envelopes (ballot slot)).

Lemma visit_push local full force entries envelopes :
  visit_envelopes push_envelope local full force entries envelopes =
  (true, envelopes ++ map snd (List.filter (fun kv => force || negb (bool_decide (kv.1 = local)) || full) entries)).
Proof.
  revert envelopes. induction entries as [|[n e] rest IH]; intros envelopes; simpl; [by rewrite app_nil_r|].
  destruct force, (bool_decide (n = local)), full; simpl; rewrite IH, <- ?app_assoc; done.
Qed.

Lemma current_state_shares s i force envelopes :
  current_state s i force envelopes =
  envelopes ++ map_or [] (fun slot => slot_shares slot force) (slots s !! i).
Proof.
  unfold current_state. destruct (slots s !! i) as [slot|]; simpl; [|by rewrite app_nil_r].
  unfold Slot.process_current_state, Nomination.process_current_state, Ballot.process_current_state,
    process_envelopes_current_state. rewrite visit_push. simpl. rewrite visit_push. simpl.
  by rewrite <- app_assoc.
Qed.

Lemma filter_strict (p : Z -> bool) l : StronglySorted Z.lt l -> StronglySorted Z.lt (List.filter p l).
Proof.
  induction 1 as [|x l Hs IH Hx]; simpl; [constructor|]. destruct (p x); [|done].
  constructor; [done|]. rewrite Forall_forall in Hx |- *. intros y Hy. apply Hx.
  apply list_elem_of_In, filter_In in Hy as [? _]. by apply list_elem_of_In.
Qed.

(** Asked for the state from a slot on, the coordinator answers, for its
    slots from there on in ascending order, first the nominations and then the
    ballot statements it has last heard, each in the order of the nodes, its own
    only when the slot is fully validated. *)
Theorem get_scp_state_correct s from :
  exists indices, StronglySorted Z.lt indices /\
    (forall i, i ∈ indices <-> from <= i /\ has_slot s i = true) /\
    get_scp_state s from =
      concat (map (fun i => map_or [] (fun slot => slot_shares slot false) (slots s !! i)) indices).
Proof.
  exists (List.filter (fun i => from <=? i) (sorted_keys (slots s))). split_and!.
  - apply filter_strict, sorted_keys_strict.
  - intros i. rewrite list_elem_of_In, filter_In, <- list_elem_of_In, elem_of_sorted_keys.
    unfold has_slot. rewrite bool_decide_eq_true, Z.leb_le. tauto.
  - unfold get_scp_state. generalize (List.filter (fun i => from <=? i) (sorted_keys (slots s))).
    intros l. assert (forall acc, fold_left (fun envelopes i => current_state s i false envelopes) l acc =
      acc ++ concat (map (fun i => map_or [] (fun slot => slot_shares slot false) (slots s !! i)) l)) as Hacc;
      [|apply Hacc].
    induction l as [|i l IH]; intros acc; simpl; [by rewrite app_nil_r|].
    by rewrite IH, current_state_shares, <- app_assoc.
Qed.

(** ** Reports *)

Lemma report_from_info s node i k n : report_from s node i k n <> ReportNoInfo.
Proof.
  revert k. induction n as [|n IH]; intros k; simpl; [done|]. case_match; [done|].
  case_match; [|apply IH]. cbv zeta. case_bool_decide; [apply IH|done].
Qed.

(** What the summary counts after the nodes [l]. *)
Definition summarizes (state : NodeId -> ReportingNodeState) (l : list NodeId) (r : ReportingSummary) : Prop :=
  agree r + missing r + disagree r + delayed r = len l /\
  missing r = len (filter (fun n => state n = ReportMissing) l) /\
  agree r + delayed r = Z.of_nat (size (agreeing_nodes r)) /\
  (forall n, n ∈ agreeing_nodes r <-> n ∈ l /\ (state n = ReportAgree \/ state n = ReportDelayed)).

Lemma count_report_summarizes s i l x r :
  let state n := get_reporting_state_with_lock s n i in
  x ∉ l -> summarizes state l r -> summarizes state (l ++ [x]) (count_report s i r x).
Proof.
  intros state Hx (Hsum & Hmiss & Hwork & Hag). unfold count_report. fold (state x).
  assert (state x <> ReportNoInfo) as Hno by apply report_from_info.
  assert (forall n, n ∈ l ++ [x] <-> n = x \/ n ∈ l) as Hin.
  { intros n. rewrite elem_of_app, list_elem_of_singleton. tauto. }
  assert (size ({[x]} ∪ agreeing_nodes r) = S (size (agreeing_nodes r))) as Hsize.
  { rewrite size_union, size_singleton; [done|]. intros n ->%elem_of_singleton [? _]%Hag. done. }
  assert (len (filter (fun n => state n = ReportMissing) [x]) =
    if bool_decide (state x = ReportMissing) then 1 else 0) as Hone.
  { case_bool_decide; [by rewrite filter_cons_True|by rewrite filter_cons_False]. }
  assert (forall n, n ∈ {[x]} ∪ agreeing_nodes r <->
    n = x \/ n ∈ l /\ (state n = ReportAgree \/ state n = ReportDelayed)) as Hnew.
  { intros n. by rewrite elem_of_union, elem_of_singleton, Hag. }
  unfold summarizes. rewrite len_app, filter_app, len_app, Hone.
  change (len [x]) with 1. setoid_rewrite Hin.
  destruct (state x) eqn:Hst; cbn [agree missing disagree delayed agreeing_nodes];
    rewrite ?Hsize, <- ?Hmiss; [done|..]; (split_and!; [lia|simpl; lia|lia|]); intros n; rewrite ?Hnew, ?Hag;
    naive_solver congruence.
Qed.

(** The summary of a slot counts every node of the quorum set once; the
    missing ones are those [get_missing_nodes] names, and the working ones those
    that agree or lag behind. *)
Theorem get_reporting_summary_correct s i r (Hr : get_reporting_summary s i = Some r) :
  agree r + missing r + disagree r + delayed r = Z.of_nat (size (get_all_nodes (scp_quorum_set s))) /\
  missing r = Z.of_nat (size (get_missing_nodes s i)) /\
  agree r + delayed r = Z.of_nat (size (agreeing_nodes r)) /\
  (forall n, n ∈ agreeing_nodes r <-> n ∈ get_all_nodes (scp_quorum_set s) /\
     (get_reporting_state_with_lock s n i = ReportAgree \/
      get_reporting_state_with_lock s n i = ReportDelayed)).
Proof.
  unfold get_reporting_summary in Hr. unfold get_missing_nodes.
  destruct (slots s !! i); [|done]. injection Hr as <-.
  set (all := get_all_nodes (scp_quorum_set s)). set (state n := get_reporting_state_with_lock s n i).
  assert (forall l, NoDup l -> summarizes state l (fold_left (count_report s i) l (Summary 0 0 0 0 ∅))) as Hl.
  { intros l. induction l as [|x l IH] using rev_ind; intros Hd.
    { split_and!; [done..|]. intros n. simpl. rewrite elem_of_empty, elem_of_nil. tauto. }
    apply NoDup_app in Hd as (Hd & Hx & _). rewrite fold_left_app.
    apply count_report_summarizes; [|by apply IH]. intros Hin. apply (Hx x Hin). by left. }
  destruct (Hl (elements all) (NoDup_elements all)) as (Hsum & Hmiss & Hwork & Hag).
  split_and!; [exact Hsum| |exact Hwork|].
  - rewrite Hmiss. unfold len. f_equal.
    change (filter (fun n => get_reporting_state_with_lock s n i = ReportMissing) all) with
      (filter (fun n => state n = ReportMissing) all).
    assert (filter (fun n => state n = ReportMissing) all =
      list_to_set (filter (fun n => state n = ReportMissing) (elements all))) as ->.
    { apply set_eq. intros n. by rewrite elem_of_filter, elem_of_list_to_set, list_elem_of_filter, elem_of_elements. }
    rewrite size_list_to_set; [done|]. apply NoDup_filter, NoDup_elements.
  - intros n. by rewrite Hag, elem_of_elements.
Qed.

(** ** The theorems on the example network *)

Definition net_scp_run : CM unit :=
  Scp.nominate 7 net_value [9] ;;
  receive_envelope leader_accepts ;;
  receive_envelope peer_accepts ;;
  receive_envelope peer_confirms ;;
  ret tt.

Definition net_scp : SCP * list DriverEvent :=
  match net_scp_run (SCP_new 1 true net_quorum_set) [] with
  | Done (_, s, l) => (s, l)
  | _ => (SCP_new 1 true net_quorum_set, [])
  end.

Ltac net_scp_call c :=
  eapply scp_steps_call; [apply c; vm_compute; intuition discriminate|vm_compute; reflexivity|].

Lemma net_scp_steps : scp_steps true (SCP_new 1 true net_quorum_set) [] net_scp.1 net_scp.2.
Proof.
  eapply scp_steps_call; [apply (call_scp_nominate _ 7 net_value [9])|vm_compute; reflexivity|].
  net_scp_call (call_receive true leader_accepts).
  net_scp_call (call_receive true peer_accepts).
  net_scp_call (call_receive true peer_confirms).
  match goal with |- scp_steps _ ?s ?l _ _ =>
    replace net_scp with (s, l) by (vm_compute; reflexivity) end.
  apply scp_steps_refl.
Qed.

Lemma scp_slots_reachable_witness :
  exists slot, slots net_scp.1 !! 7 = Some slot /\
    exists q' evs, slot_steps true (Slot_new (Ctx 1 q' 7) true) [] slot evs.
Proof.
  eexists. split; [vm_compute; reflexivity|].
  refine (scp_slots_reachable true 1 true net_quorum_set net_scp.1 net_scp.2 7 _ net_scp_steps _).
  vm_compute; reflexivity.
Defined.

Lemma scp_decision_final_witness :
  exists s' l', receive_envelope peer_votes net_scp.1 net_scp.2 = Done (EnvInvalid, s', l') /\
    (has_slot s' 7 = false \/ Scp.get_externalized_value s' 7 = Some net_value).
Proof.
  eexists _, _. split; [vm_compute; reflexivity|].
  refine (scp_decision_final true 1 true net_quorum_set net_scp.1 net_scp.2 _
    (receive_envelope peer_votes) EnvInvalid _ _ 7 net_value net_scp_steps _ _ _).
  - apply call_receive. vm_compute. intuition discriminate.
  - vm_compute; reflexivity.
  - vm_compute; reflexivity.
Defined.

(** With room for one slot only, an envelope for a later slot evicts the first. *)
Definition net_small : SCP :=
  MkSCP 1 true net_quorum_set (slots net_scp.1) 1.
Definition next_votes : ScpEnvelope :=
  sign_envelope (Envelope (Statement 2 8 (pledges (statement peer_votes))) []).

Lemma receive_envelope_bounds_slots_witness :
  exists r s' l', receive_envelope next_votes net_small [] = Done (r, s', l') /\
    has_slot s' 7 = false /\ slot_count s' <= max_slots net_small.
Proof.
  eexists _, _, _. split; [vm_compute; reflexivity|]. split; [vm_compute; reflexivity|].
  refine (proj1 (receive_envelope_bounds_slots next_votes net_small [] _ _ _ _ _)); [vm_compute; discriminate|].
  vm_compute; reflexivity.
Defined.

Lemma get_reporting_summary_correct_witness :
  exists r, get_reporting_summary net_scp.1 7 = Some r /\ agree r = 3 /\ missing r = 0 /\
    missing r = Z.of_nat (size (get_missing_nodes net_scp.1 7)).
Proof.
  eexists. split; [vm_compute; reflexivity|]. split; [reflexivity|]. split; [reflexivity|].
  refine (proj1 (proj2 (get_reporting_summary_correct net_scp.1 7 _ _))). vm_compute; reflexivity.
Defined.
