(* ===== verification/Amounts.v ===== *)
(** * Amounts: wide division and checked balances (common/src/math.rs, checked_types.rs)

    The arithmetic the transaction code rests on. Quotients of products are
    computed over 128 bits; balances, reserves and liabilities change only
    through functions that check every bound. An [AccountEntry] and a
    [TrustLineEntry] keep the fields the source reads. The two conversions from
    floating point of math.rs are left out. *)

From S2P Require Import Prelude.

(** ** math.rs *)

Inductive Rounding := Down | Up.
Inductive MathError := MathOverflow | DivisionByZero | NegativeInput.

Definition u128_checked_add (a b : Z) : option Z := checked 0 u128_max (a + b).

Definition div_ceil_u128 (a b : Z) : Z := if a mod b =? 0 then a / b else a / b + 1.

Definition big_divide_unsigned (a b c : Z) (rounding : Rounding) : result Z MathError :=
  if c =? 0 then Err DivisionByZero
  else
    let product := as_u128 (a * b) in
    let? result := match rounding with
                   | Down => Ok (product / c)
                   | Up =>
                       let? adjusted := ok_or MathOverflow (u128_checked_add product (c - 1)) in
                       Ok (adjusted / c)
                   end in
    if u64_max <? result then Err MathOverflow else Ok (as_u64 result).

Definition big_divide (a b c : Z) (rounding : Rounding) : result Z MathError :=
  if (a <? 0) || (b <? 0) then Err NegativeInput
  else if c <=? 0 then Err DivisionByZero
  else
    let? result := big_divide_unsigned (as_u64 a) (as_u64 b) (as_u64 c) rounding in
    if i64_max <? result then Err MathOverflow else Ok (as_i64 result).

Definition big_divide_unsigned_128 (a b : Z) (rounding : Rounding) : result Z MathError :=
  if b =? 0 then Err DivisionByZero
  else
    let? result := match rounding with
                   | Down => Ok (a / b)
                   | Up => if u128_max - (b - 1) <? a then Err MathOverflow else Ok (div_ceil_u128 a b)
                   end in
    if u64_max <? result then Err MathOverflow else Ok (as_u64 result).

Definition big_divide_128 (a b : Z) (rounding : Rounding) : result Z MathError :=
  if b <=? 0 then Err DivisionByZero
  else
    let? result := big_divide_unsigned_128 a (as_u64 b) rounding in
    if i64_max <? result then Err MathOverflow else Ok (as_i64 result).

Definition big_multiply_unsigned (a b : Z) : Z := as_u128 (a * b).

(** The [assert!] is the [None] here. *)
Definition saturating_multiply (a b : Z) : option Z :=
  if negb ((0 <=? a) && (0 <=? b)) then None
  else if (a =? 0) || (b =? 0) then Some 0
  else if i64_max ÷ b <? a then Some i64_max
  else Some (as_i64 (a * b)).

(** ** checked_types.rs *)

Inductive BalanceError := Overflow | Underflow | LiabilityViolation | ExceedsLimit.

Record Liabilities := MkLiabilities { buying : Z; selling : Z }.

(** [ext] is [None] for [V0] and holds the liabilities of [V1]. *)
Record AccountEntry := MkAccount { account_balance : Z; num_sub_entries : Z; account_ext : option Liabilities }.
Record TrustLineEntry := MkTrustLine { tl_balance : Z; tl_limit : Z; tl_ext : option Liabilities }.

Definition account_liabilities (a : AccountEntry) : Liabilities := default (MkLiabilities 0 0) (account_ext a).
Definition trustline_liabilities (tl : TrustLineEntry) : Liabilities := default (MkLiabilities 0 0) (tl_ext tl).

(** Setting the balance of an entry. *)
Definition put_account_balance (b : Z) (a : AccountEntry) := MkAccount b (num_sub_entries a) (account_ext a).
Definition put_tl_balance (b : Z) (tl : TrustLineEntry) := MkTrustLine b (tl_limit tl) (tl_ext tl).

(** [CheckedAmount]: an [i64] with only checked and saturating operations. *)
Definition checked_add (a b : Z) : option Z := checked_i64 (a + b).
Definition checked_sub (a b : Z) : option Z := checked_i64 (a - b).
Definition checked_mul (a b : Z) : option Z := checked_i64 (a * b).
Definition checked_div (a b : Z) : option Z := if b =? 0 then None else checked_i64 (a ÷ b).
Definition saturating_add (a b : Z) : Z := saturating i64_min i64_max (a + b).
Definition saturating_sub (a b : Z) : Z := saturating i64_min i64_max (a - b).
Definition checked_abs (a : Z) : option Z := checked_i64 (Z.abs a).

Definition add_account_balance (a : AccountEntry) (delta : Z) : result AccountEntry BalanceError :=
  if delta <? 0 then Err Underflow
  else
    let? new_balance := ok_or Overflow (checked_add (account_balance a) delta) in
    let? ceiling := ok_or Overflow (checked_sub i64_max (buying (account_liabilities a))) in
    if ceiling <? new_balance then Err LiabilityViolation else Ok (put_account_balance new_balance a).

Definition add_trustline_balance (tl : TrustLineEntry) (delta : Z) : result TrustLineEntry BalanceError :=
  if delta <? 0 then Err Underflow
  else
    let? headroom := ok_or Overflow (checked_sub (tl_limit tl) (tl_balance tl)) in
    if headroom <? delta then Err ExceedsLimit
    else
      let? new_balance := ok_or Overflow (checked_add (tl_balance tl) delta) in
      let? ceiling := ok_or Overflow (checked_sub (tl_limit tl) (buying (trustline_liabilities tl))) in
      if ceiling <? new_balance then Err LiabilityViolation else Ok (put_tl_balance new_balance tl).

Definition sub_account_balance (a : AccountEntry) (amount : Z) : result AccountEntry BalanceError :=
  if amount <? 0 then Err Underflow
  else
    let? new_balance := ok_or Underflow (checked_sub (account_balance a) amount) in
    if new_balance <? 0 then Err Underflow else Ok (put_account_balance new_balance a).

Definition sub_trustline_balance (tl : TrustLineEntry) (amount : Z) : result TrustLineEntry BalanceError :=
  if amount <? 0 then Err Underflow
  else
    let? new_balance := ok_or Underflow (checked_sub (tl_balance tl) amount) in
    if new_balance <? 0 then Err Underflow else Ok (put_tl_balance new_balance tl).

Definition add_checked_i64 (value delta : Z) : result Z BalanceError :=
  let? new_val := ok_or Overflow (checked_add value delta) in
  if new_val <? 0 then Err Underflow else Ok new_val.
Definition add_pool_reserve (reserve delta : Z) : result Z BalanceError := add_checked_i64 reserve delta.
Definition add_pool_shares (shares delta : Z) : result Z BalanceError := add_checked_i64 shares delta.

(** asset.rs. An assertion that fails is an error, a sum out of range [None]. *)
Inductive AssertionFailed := AssertBalance | AssertMaxBalance.

Definition add_balance (balance delta max_balance : Z) : result (option Z) AssertionFailed :=
  if balance <? 0 then Err AssertBalance
  else if max_balance <? 0 then Err AssertMaxBalance
  else if delta =? 0 then Ok (Some balance)
  else if delta <? - balance then Ok None
  else if max_balance - balance <? delta then Ok None
  else Ok (Some (balance + delta)).

Definition try_add_account_balance (acc : AccountEntry) (delta : Z) : result (option AccountEntry) AssertionFailed :=
  let? new_balance := add_balance (account_balance acc) delta i64_max in
  Ok match new_balance with
     | None => None
     | Some new_balance =>
         if as_i64 (i64_max - buying (account_liabilities acc)) <? new_balance then None
         else Some (put_account_balance new_balance acc)
     end.

(** [None] is the panic of [expect] and [assert!]. *)
Definition inc_sub_entries (a : AccountEntry) (n : Z) : option AccountEntry :=
  (fun m => MkAccount (account_balance a) m (account_ext a)) <$> checked 0 u32_max (num_sub_entries a + n).
Definition dec_sub_entries (a : AccountEntry) (n : Z) : option AccountEntry :=
  if num_sub_entries a <? n then None
  else Some (MkAccount (account_balance a) (num_sub_entries a - n) (account_ext a)).

(** ** Division *)

(** The rounded quotient [big_divide] is to compute. *)
Definition quotient (n d : Z) (rounding : Rounding) : Z :=
  match rounding with Down => n / d | Up => (n + d - 1) / d end.

Lemma quotient_nonneg n d r : 0 <= n -> 0 < d -> 0 <= quotient n d r.
Proof. intros ??. destruct r; apply Z.div_pos; lia. Qed.

Lemma div_ceil_u128_spec a b : 0 < b -> div_ceil_u128 a b = quotient a b Up.
Proof.
  intros Hb. symmetry. simpl. unfold div_ceil_u128.
  pose proof (Z.div_mod a b). pose proof (Z.mod_pos_bound a b Hb).
  destruct (Z.eqb_spec (a mod b) 0); apply ceil_unique; nia.
Qed.

Lemma as_u64_amount n : amount64 n -> as_u64 n = n.
Proof. unfold amount64, i64_max. intros ?. apply as_u64_id. unfold is_u64, u64_max. lia. Qed.

Lemma big_divide_unsigned_spec a b c r (Ha : amount64 a) (Hb : amount64 b) (Hc : 0 < c <= i64_max) :
  big_divide_unsigned a b c r =
    (if quotient (a * b) c r <=? u64_max then Ok (quotient (a * b) c r) else Err MathOverflow).
Proof.
  pose proof (amounts_mul_bound a b Ha Hb) as Hp. unfold i64_max in *. unfold big_divide_unsigned.
  destruct (Z.eqb_spec c 0) as [->|_]; [lia|].
  rewrite as_u128_id by (unfold is_u128, u128_max; lia).
  assert (u128_checked_add (a * b) (c - 1) = Some (a * b + (c - 1))) as Hadd.
  { unfold u128_checked_add, checked, u128_max.
    destruct (Z.leb_spec 0 (a * b + (c - 1))), (Z.leb_spec (a * b + (c - 1)) (2 ^ 128 - 1)); simpl; lia || done. }
  pose proof (quotient_nonneg (a * b) c r ltac:(lia) ltac:(lia)) as Hq.
  assert (match r with
          | Down => Ok (a * b / c)
          | Up => let? adjusted := ok_or MathOverflow (u128_checked_add (a * b) (c - 1)) in Ok (adjusted / c)
          end = Ok (quotient (a * b) c r)) as ->.
  { destruct r; [done|]. rewrite Hadd. simpl. do 2 f_equal. lia. }
  simpl. destruct (Z.ltb_spec u64_max (quotient (a * b) c r)), (Z.leb_spec (quotient (a * b) c r) u64_max);
    try lia; [done|].
  by rewrite as_u64_id by (unfold is_u64; lia).
Qed.

(** C39: [big_divide] computes the quotient of the product, rounded as asked, over
    the integers: it answers it exactly when it fits in an [i64], and the 128-bit
    intermediate values never overflow; negative factors and divisors that are
    not positive are errors of their own. *)
Theorem big_divide_correct a b c r (Ha : is_i64 a) (Hb : is_i64 b) (Hc : is_i64 c) :
  big_divide a b c r =
    (if (a <? 0) || (b <? 0) then Err NegativeInput
     else if c <=? 0 then Err DivisionByZero
     else if quotient (a * b) c r <=? i64_max then Ok (quotient (a * b) c r)
     else Err MathOverflow).
Proof.
  unfold big_divide, is_i64 in *. destruct (Z.ltb_spec a 0); [done|]. destruct (Z.ltb_spec b 0); [done|].
  simpl. destruct (Z.leb_spec c 0); [done|]. rewrite !as_u64_amount by (unfold amount64; lia).
  rewrite big_divide_unsigned_spec by (unfold amount64; lia).
  pose proof (quotient_nonneg (a * b) c r ltac:(nia) ltac:(lia)) as Hq.
  unfold i64_max, u64_max in *.
  destruct (Z.leb_spec (quotient (a * b) c r) (2 ^ 64 - 1)); simpl;
    destruct (Z.leb_spec (quotient (a * b) c r) (2 ^ 63 - 1)); try lia; try done.
  - destruct (Z.ltb_spec (2 ^ 63 - 1) (quotient (a * b) c r)); [lia|].
    rewrite as_i64_id; [done|]. unfold is_i64, i64_min, i64_max. lia.
  - destruct (Z.ltb_spec (2 ^ 63 - 1) (quotient (a * b) c r)); [done|lia].
Qed.

Lemma big_divide_correct_witness : is_i64 i64_max /\ big_divide i64_max 3 7 Up = Ok 3952873730080618203.
Proof.
  split; [done|]. refine (eq_trans (big_divide_correct i64_max 3 7 Up _ _ _) _); vm_compute; done || (split; congruence).
Defined.

(** The 128-bit variant, on a numerator that is already a product. *)
Lemma big_divide_128_correct a b r (Ha : is_u128 a) (Hb : is_i64 b) :
  big_divide_128 a b r =
    (if b <=? 0 then Err DivisionByZero
     else if quotient a b r <=? i64_max then Ok (quotient a b r) else Err MathOverflow).
Proof.
  unfold big_divide_128, big_divide_unsigned_128, is_i64, is_u128, u128_max, i64_max, i64_min, u64_max in *.
  destruct (Z.leb_spec b 0) as [|Hpos]; [done|].
  rewrite as_u64_amount by (unfold amount64, i64_max; lia).
  destruct (Z.eqb_spec b 0); [lia|].
  pose proof (quotient_nonneg a b r ltac:(lia) Hpos) as Hq.
  assert (forall q, 0 <= q ->
    (let? result := (if 2 ^ 64 - 1 <? q then Err MathOverflow else Ok (as_u64 q)) in
     if 2 ^ 63 - 1 <? result then Err MathOverflow else Ok (as_i64 result))
    = (if q <=? 2 ^ 63 - 1 then Ok q else Err MathOverflow)) as Hfit.
  { intros q ?. destruct (Z.ltb_spec (2 ^ 64 - 1) q), (Z.leb_spec q (2 ^ 63 - 1)); simpl; try lia; try done;
      rewrite as_u64_id by (unfold is_u64, u64_max; lia);
      destruct (Z.ltb_spec (2 ^ 63 - 1) q); try lia; [|done].
    rewrite as_i64_id; [done|]. unfold is_i64, i64_min, i64_max. lia. }
  destruct r; simpl in *; [by apply Hfit|].
  destruct (Z.ltb_spec (2 ^ 128 - 1 - (b - 1)) a) as [Hbig|].
  - simpl. destruct (Z.leb_spec ((a + b - 1) / b) (2 ^ 63 - 1)); [|done].
    pose proof (ceil_spec a b Hpos). nia.
  - simpl. rewrite div_ceil_u128_spec by done. by apply Hfit.
Qed.

(** ** Balances *)

(** What the ledger guarantees of an entry it loads: the balance is an amount and
    leaves room for what the entry is obliged to buy. *)
Definition account_ok (a : AccountEntry) : Prop :=
  0 <= account_balance a /\ 0 <= buying (account_liabilities a) /\
  account_balance a + buying (account_liabilities a) <= i64_max.
Definition trustline_ok (tl : TrustLineEntry) : Prop :=
  0 <= tl_balance tl /\ 0 <= buying (trustline_liabilities tl) /\
  tl_balance tl + buying (trustline_liabilities tl) <= tl_limit tl <= i64_max.


Lemma checked_i64_in n : is_i64 n -> checked_i64 n = Some n.
Proof. intros ?. by apply checked_i64_some. Qed.

Lemma checked_i64_out n : ~ is_i64 n -> checked_i64 n = None.
Proof.
  intros Hn. destruct (checked_i64 n) eqn:E; [|done]. by apply checked_i64_some in E as [-> ?].
Qed.

(** Crediting an entry: refused exactly when the room left by its liabilities is
    too small. *)
Lemma add_account_balance_spec a delta (Hok : account_ok a) (Hd : amount64 delta) :
  add_account_balance a delta =
    (if account_balance a + delta <=? i64_max - buying (account_liabilities a)
     then Ok (put_account_balance (account_balance a + delta) a)
     else if account_balance a + delta <=? i64_max then Err LiabilityViolation else Err Overflow).
Proof.
  destruct Hok as (? & ? & ?). unfold amount64 in Hd. unfold add_account_balance, checked_add, checked_sub.
  destruct (Z.ltb_spec delta 0); [lia|].
  destruct (Z.leb_spec (account_balance a + delta) i64_max).
  - rewrite !checked_i64_in by (unfold is_i64, i64_min, i64_max in *; lia). simpl.
    destruct (Z.ltb_spec (i64_max - buying (account_liabilities a)) (account_balance a + delta)),
      (Z.leb_spec (account_balance a + delta) (i64_max - buying (account_liabilities a))); lia || done.
  - rewrite checked_i64_out by (unfold is_i64; lia).
    destruct (Z.leb_spec (account_balance a + delta) (i64_max - buying (account_liabilities a))); [lia|done].
Qed.

Lemma add_trustline_balance_spec tl delta (Hok : trustline_ok tl) (Hd : amount64 delta) :
  add_trustline_balance tl delta =
    (if tl_balance tl + delta <=? tl_limit tl - buying (trustline_liabilities tl)
     then Ok (put_tl_balance (tl_balance tl + delta) tl)
     else if tl_balance tl + delta <=? tl_limit tl then Err LiabilityViolation else Err ExceedsLimit).
Proof.
  destruct Hok as (? & ? & ?). unfold amount64 in Hd. unfold add_trustline_balance, checked_add, checked_sub.
  destruct (Z.ltb_spec delta 0); [lia|].
  rewrite (checked_i64_in (tl_limit tl - tl_balance tl)) by (unfold is_i64, i64_min, i64_max in *; lia). simpl.
  destruct (Z.ltb_spec (tl_limit tl - tl_balance tl) delta), (Z.leb_spec (tl_balance tl + delta) (tl_limit tl)); try lia.
  - destruct (Z.leb_spec (tl_balance tl + delta) (tl_limit tl - buying (trustline_liabilities tl))); [lia|done].
  - rewrite !checked_i64_in by (unfold is_i64, i64_min, i64_max in *; lia). simpl.
    destruct (Z.ltb_spec (tl_limit tl - buying (trustline_liabilities tl)) (tl_balance tl + delta)),
      (Z.leb_spec (tl_balance tl + delta) (tl_limit tl - buying (trustline_liabilities tl))); lia || done.
Qed.

Lemma sub_balance_spec {A} (b amount : Z) (k : Z -> A) (Hb : amount64 b) (Ha : amount64 amount) :
  (let? n := ok_or Underflow (checked_sub b amount) in if n <? 0 then Err Underflow else Ok (k n)) =
    (if amount <=? b then Ok (k (b - amount)) else Err Underflow).
Proof.
  unfold amount64 in *. unfold checked_sub. rewrite checked_i64_in by (unfold is_i64, i64_min, i64_max in *; lia).
  simpl. destruct (Z.ltb_spec (b - amount) 0), (Z.leb_spec amount b); lia || done.
Qed.

(** C40: credits and debits of accounts and trustlines succeed exactly when the
    balance stays non-negative and leaves room for the buying liabilities under
    the limit; then only the balance changes, by the amount, and the entry is
    well-formed again. *)
Theorem balance_updates_correct a tl n (Ha : account_ok a) (Htl : trustline_ok tl) (Hn : amount64 n) :
  (forall a', add_account_balance a n = Ok a' <->
     a' = put_account_balance (account_balance a + n) a /\ account_ok a') /\
  (forall a', sub_account_balance a n = Ok a' <->
     a' = put_account_balance (account_balance a - n) a /\ account_ok a') /\
  (forall tl', add_trustline_balance tl n = Ok tl' <->
     tl' = put_tl_balance (tl_balance tl + n) tl /\ trustline_ok tl') /\
  (forall tl', sub_trustline_balance tl n = Ok tl' <->
     tl' = put_tl_balance (tl_balance tl - n) tl /\ trustline_ok tl').
Proof.
  rewrite add_account_balance_spec, add_trustline_balance_spec by done.
  unfold sub_account_balance, sub_trustline_balance. unfold amount64 in Hn.
  destruct Ha as (? & ? & ?), Htl as (? & ? & ?). destruct (Z.ltb_spec n 0); [lia|].
  rewrite !(sub_balance_spec _ n) by (unfold amount64; lia).
  unfold account_ok, trustline_ok, account_liabilities, trustline_liabilities in *.
  repeat split; intros;
    repeat match goal with H : context [if ?c then _ else _] |- _ => destruct c eqn:? end;
    simplify_eq; simpl in *; try lia;
    repeat match goal with H : _ /\ _ |- _ => destruct H end; subst; simpl in *;
    repeat match goal with |- context [if ?c then _ else _] => destruct c eqn:? end; try done; lia.
Qed.

Lemma balance_updates_correct_witness :
  let a := MkAccount 40 0 (Some (MkLiabilities (i64_max - 100) 5)) in
  let tl := MkTrustLine 7 10 None in
  is_ok (add_account_balance a 60) = true /\ is_ok (add_account_balance a 61) = false /\
  is_ok (sub_trustline_balance tl 8) = false /\
  (exists a', add_account_balance a 60 = Ok a' /\ account_ok a').
Proof.
  intros a tl. do 3 (split; [reflexivity|]).
  eexists. split; [reflexivity|].
  refine (proj2 (proj1 (proj1 (balance_updates_correct a tl 60 _ _ _) _) eq_refl));
    vm_compute; repeat split; discriminate.
Defined.
