(* ===== verification/Exchange.v ===== *)
(** * Exchange: crossing one offer (tx/src/operations/execute/offer_exchange.rs, offer_utils.rs, manage_offer.rs)

    An offer sells wheat for sheep at a price of [n / d] sheep per unit of wheat.
    Given what either side can send and receive, [exchange_v10] decides how much
    changes hands, who is left with something to trade ([wheat_stays]) and hence
    in whose favour amounts are rounded. Amounts are [i64], prices [i32], products
    [i128] as in the code. *)

From S2P Require Import Prelude Amounts.

Record Price := MkPrice { price_n : Z; price_d : Z }.

Inductive RoundingType := Normal | PathPaymentStrictSend | PathPaymentStrictReceive.
#[export] Instance RoundingType_eq_dec : EqDecision RoundingType.
Proof. solve_decision. Defined.

Record ExchangeResult := MkExchange { num_wheat_received : Z; num_sheep_send : Z; wheat_stays : bool }.

Inductive ExchangeError := ExOverflow | InvalidPrice | InvalidAmount | PriceError.

(** [lhs.saturating_mul(rhs)] on [i128]. *)
Definition big_multiply (lhs rhs : Z) : Z := saturating i128_min i128_max (lhs * rhs).

Definition big_divide_or_throw (num den : Z) (round : Rounding) : result Z ExchangeError :=
  if den <=? 0 then Err InvalidPrice
  else
    let value := match round with
                 | Down => num ÷ den
                 | Up => if num =? 0 then 0 else as_i128 (num + den - 1) ÷ den
                 end in
    if i64_max <? value then Err ExOverflow else Ok (as_i64 value).

Definition calculate_offer_value (pn pd max_send max_receive : Z) : Z :=
  Z.min (big_multiply max_send pn) (big_multiply max_receive pd).

Definition check_price_error_bound (price : Price) (wheat_receive sheep_send : Z) (can_favor_wheat : bool)
    : result unit ExchangeError :=
  let? err_n := ok_or ExOverflow (checked_mul 100 (price_n price)) in
  let? err_d := ok_or ExOverflow (checked_mul 100 (price_d price)) in
  let lhs := big_multiply wheat_receive err_n in
  let rhs := big_multiply sheep_send err_d in
  if can_favor_wheat && (lhs <? rhs) then Ok tt
  else
    let abs_diff := if rhs <? lhs then as_i128 (lhs - rhs) else as_i128 (rhs - lhs) in
    let cap := big_multiply wheat_receive (price_n price) in
    if abs_diff <=? cap then Ok tt else Err PriceError.

(** The [if wheat_stays { .. } else { .. }] that picks the amounts. *)
Definition exchanged_amounts (price : Price) (wheat_value sheep_value max_sheep_send max_sheep_receive : Z)
    (round : RoundingType) : result (Z * Z) ExchangeError :=
  if sheep_value <? wheat_value then
    if decide (round = PathPaymentStrictSend) then
      let? wheat_receive := big_divide_or_throw (Z.min wheat_value sheep_value) (price_n price) Down in
      Ok (wheat_receive, Z.min max_sheep_send max_sheep_receive)
    else if bool_decide (price_d price < price_n price) || bool_decide (round = PathPaymentStrictReceive) then
      let? wheat_receive := big_divide_or_throw sheep_value (price_n price) Down in
      let? sheep_send := big_divide_or_throw (as_i128 (wheat_receive * price_n price)) (price_d price) Up in
      Ok (wheat_receive, sheep_send)
    else
      let? sheep_send := big_divide_or_throw sheep_value (price_d price) Down in
      let? wheat_receive := big_divide_or_throw (as_i128 (sheep_send * price_d price)) (price_n price) Down in
      Ok (wheat_receive, sheep_send)
  else if bool_decide (price_d price < price_n price) then
    let? wheat_receive := big_divide_or_throw wheat_value (price_n price) Down in
    let? sheep_send := big_divide_or_throw (as_i128 (wheat_receive * price_n price)) (price_d price) Down in
    Ok (wheat_receive, sheep_send)
  else
    let? sheep_send := big_divide_or_throw wheat_value (price_d price) Down in
    let? wheat_receive := big_divide_or_throw (as_i128 (sheep_send * price_d price)) (price_n price) Up in
    Ok (wheat_receive, sheep_send).

Definition exchange_v10_without_price_error_thresholds (price : Price)
    (max_wheat_send max_wheat_receive max_sheep_send max_sheep_receive : Z) (round : RoundingType)
    : result ExchangeResult ExchangeError :=
  if (price_n price <=? 0) || (price_d price <=? 0) then Err InvalidPrice
  else
    let wheat_value := calculate_offer_value (price_n price) (price_d price) max_wheat_send max_sheep_receive in
    let sheep_value := calculate_offer_value (price_d price) (price_n price) max_sheep_send max_wheat_receive in
    let? amounts :=
      exchanged_amounts price wheat_value sheep_value max_sheep_send max_sheep_receive round in
    let '(wheat_receive, sheep_send) := amounts in
    if (wheat_receive <? 0) || (Z.min max_wheat_receive max_wheat_send <? wheat_receive)
       || (sheep_send <? 0) || (Z.min max_sheep_receive max_sheep_send <? sheep_send)
    then Err InvalidAmount
    else Ok (MkExchange wheat_receive sheep_send (sheep_value <? wheat_value)).

Definition exchange_v10 (price : Price)
    (max_wheat_send max_wheat_receive max_sheep_send max_sheep_receive : Z) (round : RoundingType)
    : result ExchangeResult ExchangeError :=
  let? res := exchange_v10_without_price_error_thresholds price
                max_wheat_send max_wheat_receive max_sheep_send max_sheep_receive round in
  let '(MkExchange wheat sheep stays) := res in
  if (0 <? wheat) && (0 <? sheep) then
    let wheat_value := big_multiply wheat (price_n price) in
    let sheep_value := big_multiply sheep (price_d price) in
    if stays && (sheep_value <? wheat_value) then Err InvalidAmount
    else if negb stays && (wheat_value <? sheep_value) then Err InvalidAmount
    else if decide (round = Normal) then
      if is_ok (check_price_error_bound price wheat sheep false) then Ok res
      else Ok (MkExchange 0 0 stays)
    else
      let? _ := check_price_error_bound price wheat sheep true in Ok res
  else if decide (round = PathPaymentStrictSend) then Ok (MkExchange 0 sheep stays)
  else Ok (MkExchange 0 0 stays).

Definition adjust_offer_amount (price : Price) (max_wheat_send max_sheep_receive : Z) : result Z ExchangeError :=
  let? res := exchange_v10 price max_wheat_send i64_max i64_max max_sheep_receive Normal in
  Ok (num_wheat_received res).

(** The fields of an [OfferEntry] that matter here. *)
Record OfferEntry := MkOffer { seller_id : Z; offer_id : Z; amount : Z; price : Price }.

Definition quote_offer_strict_send (offer : OfferEntry) (max_send : Z)
    (max_wheat_send max_sheep_receive : option Z) : result ExchangeResult ExchangeError :=
  if (amount offer <=? 0) || (max_send <? 0) then Err InvalidAmount
  else
    let maker_wheat := Z.min (amount offer) (Z.max (default i64_max max_wheat_send) 0) in
    let maker_sheep := Z.max (default i64_max max_sheep_receive) 0 in
    let? adjusted := adjust_offer_amount (price offer) maker_wheat maker_sheep in
    exchange_v10 (price offer) adjusted i64_max max_send maker_sheep PathPaymentStrictSend.

(** *** offer_utils.rs and manage_offer.rs *)

(** Errors become [TxError::Internal]; they are kept as they are here. *)
Definition offer_liabilities_sell (amount : Z) (price : Price) : result (Z * Z) ExchangeError :=
  let? res := exchange_v10_without_price_error_thresholds price amount i64_max i64_max i64_max Normal in
  Ok (num_wheat_received res, num_sheep_send res).

Definition offer_liabilities_buy (buy_amount : Z) (price : Price) : result (Z * Z) ExchangeError :=
  let? res := exchange_v10_without_price_error_thresholds price i64_max i64_max i64_max buy_amount Normal in
  Ok (num_wheat_received res, num_sheep_send res).

Definition invert_price (price : Price) : Price := MkPrice (price_d price) (price_n price).

Definition compare_price (lhs rhs : Price) : comparison :=
  as_i128 (price_n lhs * price_d rhs) ?= as_i128 (price_n rhs * price_d lhs).

Inductive OfferFilterResult := Keep | StopBadPrice | StopCrossSelf.

Definition offer_filter (source : Z) (offer : OfferEntry) (passive : bool) (max_wheat_price : Price)
    : OfferFilterResult :=
  let price_cmp := compare_price (price offer) max_wheat_price in
  if (passive && negb (bool_decide (price_cmp = Lt))) || (negb passive && bool_decide (price_cmp = Gt))
  then StopBadPrice
  else if seller_id offer =? source then StopCrossSelf
  else Keep.

(** ** The arithmetic does not overflow *)

Definition valid_price (p : Price) : Prop := positive32 (price_n p) /\ positive32 (price_d p).

Lemma big_multiply_exact a b : 0 <= a <= 2 ^ 64 -> 0 <= b <= 2 ^ 40 -> big_multiply a b = a * b.
Proof.
  intros Ha Hb. unfold big_multiply, saturating, i128_min, i128_max.
  assert (a * b <= 2 ^ 64 * 2 ^ 40) by (apply Z.mul_le_mono_nonneg; lia). nia.
Qed.

Lemma big_divide_or_throw_spec num den r (Hnum : 0 <= num <= 2 ^ 120) (Hden : 0 < den <= 2 ^ 40) :
  big_divide_or_throw num den r =
    (if quotient num den r <=? i64_max then Ok (quotient num den r) else Err ExOverflow).
Proof.
  unfold big_divide_or_throw. destruct (Z.leb_spec den 0); [lia|].
  pose proof (quotient_nonneg num den r ltac:(lia) ltac:(lia)) as Hq.
  assert (match r with
          | Down => num ÷ den
          | Up => if num =? 0 then 0 else as_i128 (num + den - 1) ÷ den
          end = quotient num den r) as ->.
  { destruct r; simpl; [apply Z.quot_div_nonneg; lia|].
    destruct (Z.eqb_spec num 0) as [->|]; [symmetry; apply Z.div_small; lia|].
    rewrite as_i128_id by (unfold i128_min, i128_max; lia). apply Z.quot_div_nonneg; lia. }
  destruct (Z.ltb_spec i64_max (quotient num den r)), (Z.leb_spec (quotient num den r) i64_max); try lia; [done|].
  rewrite as_i64_id by (unfold is_i64, i64_min; lia). done.
Qed.

(** Dividing what an amount is worth never overflows when the quotient is within
    an amount. *)
Lemma big_divide_or_throw_within num den r bound (Hnum : 0 <= num <= 2 ^ 120) (Hden : 0 < den <= 2 ^ 40)
    (Hbound : num <= bound * den) (Hb : amount64 bound) :
  big_divide_or_throw num den r = Ok (quotient num den r) /\ 0 <= quotient num den r <= bound.
Proof.
  pose proof (quotient_nonneg num den r ltac:(lia) ltac:(lia)) as Hq.
  assert (quotient num den r <= bound).
  { destruct r; simpl; [pose proof (floor_spec num den)|pose proof (ceil_spec num den)]; nia. }
  rewrite big_divide_or_throw_spec by done. unfold amount64 in Hb.
  destruct (Z.leb_spec (quotient num den r) i64_max); [done|lia].
Qed.

(** ** What is exchanged, over the integers *)

(** The two values [exchange_v10] compares, in units of [1 / (n * d)]. *)
Definition wheat_value (p : Price) (max_wheat_send max_sheep_receive : Z) : Z :=
  Z.min (max_wheat_send * price_n p) (max_sheep_receive * price_d p).
Definition sheep_value (p : Price) (max_wheat_receive max_sheep_send : Z) : Z :=
  Z.min (max_sheep_send * price_d p) (max_wheat_receive * price_n p).

Definition split_amounts (p : Price) (wv sv max_sheep_send max_sheep_receive : Z) (round : RoundingType) : Z * Z :=
  if sv <? wv then
    if decide (round = PathPaymentStrictSend) then (sv / price_n p, Z.min max_sheep_send max_sheep_receive)
    else if bool_decide (price_d p < price_n p) || bool_decide (round = PathPaymentStrictReceive) then
      (sv / price_n p, quotient (sv / price_n p * price_n p) (price_d p) Up)
    else (sv / price_d p * price_d p / price_n p, sv / price_d p)
  else if bool_decide (price_d p < price_n p) then
    (wv / price_n p, wv / price_n p * price_n p / price_d p)
  else (quotient (wv / price_d p * price_d p) (price_n p) Up, wv / price_d p).

Section exchange.
Context (p : Price) (Hp : valid_price p).
Context (max_wheat_send max_wheat_receive max_sheep_send max_sheep_receive : Z).
Context (HWs : amount64 max_wheat_send) (HWr : amount64 max_wheat_receive).
Context (HSs : amount64 max_sheep_send) (HSr : amount64 max_sheep_receive).
Notation N := (price_n p).
Notation D := (price_d p).
Notation wv := (wheat_value p max_wheat_send max_sheep_receive).
Notation sv := (sheep_value p max_wheat_receive max_sheep_send).

Lemma price_bounds : 0 < N <= 2 ^ 40 /\ 0 < D <= 2 ^ 40.
Proof using Hp. destruct Hp. unfold positive32, i32_max in *. lia. Qed.

Lemma worth_bounds a b : amount64 a -> 0 < b <= 2 ^ 40 -> 0 <= a * b <= 2 ^ 104.
Proof using. unfold amount64, i64_max. intros. nia. Qed.

Lemma wheat_value_exact : calculate_offer_value N D max_wheat_send max_sheep_receive = wv.
Proof using Hp HWs HSr.
  pose proof price_bounds. unfold calculate_offer_value, amount64, i64_max in *.
  by rewrite !big_multiply_exact by lia.
Qed.

Lemma sheep_value_exact : calculate_offer_value D N max_sheep_send max_wheat_receive = sv.
Proof using Hp HSs HWr.
  pose proof price_bounds. unfold calculate_offer_value, amount64, i64_max in *.
  by rewrite !big_multiply_exact by lia.
Qed.

Lemma values_bounds :
  0 <= wv <= 2 ^ 104 /\ 0 <= sv <= 2 ^ 104 /\
  wv <= max_wheat_send * N /\ wv <= max_sheep_receive * D /\
  sv <= max_sheep_send * D /\ sv <= max_wheat_receive * N.
Proof using Hp HWs HWr HSs HSr.
  pose proof price_bounds as [HN HD].
  pose proof (worth_bounds max_wheat_send N HWs HN). pose proof (worth_bounds max_sheep_receive D HSr HD).
  pose proof (worth_bounds max_sheep_send D HSs HD). pose proof (worth_bounds max_wheat_receive N HWr HN).
  unfold wheat_value, sheep_value. lia.
Qed.

(** A rounded quotient [q] of what is at most [b] units is at most [b]. *)
Lemma below q b c v : 0 < c -> q * c < v + c -> v <= b * c -> q <= b.
Proof using. intros. nia. Qed.

Lemma exchanged_amounts_exact round :
  exchanged_amounts p wv sv max_sheep_send max_sheep_receive round =
    Ok (split_amounts p wv sv max_sheep_send max_sheep_receive round) /\
  0 <= (split_amounts p wv sv max_sheep_send max_sheep_receive round).1 <=
    Z.min max_wheat_receive max_wheat_send /\
  0 <= (split_amounts p wv sv max_sheep_send max_sheep_receive round).2 <=
    Z.min max_sheep_receive max_sheep_send.
Proof using Hp HWs HWr HSs HSr.
  pose proof price_bounds as [HN HD]. pose proof values_bounds as Hv.
  unfold exchanged_amounts, split_amounts.
  assert (forall v r c bound, 0 <= v <= 2 ^ 104 -> 0 < c <= 2 ^ 40 -> amount64 bound -> v <= bound * c ->
    big_divide_or_throw v c r = Ok (quotient v c r)) as Hdiv.
  { intros v r c bound ????. by apply (big_divide_or_throw_within v c r bound); [lia|..]. }
  assert (forall v c, 0 <= v -> 0 < c -> 0 <= v / c /\ v / c * c <= v < v / c * c + c) as Hfloor.
  { intros. split; [by apply Z.div_pos|by apply floor_spec]. }
  assert (forall v c, 0 <= v -> 0 < c ->
    0 <= quotient v c Up /\ v <= quotient v c Up * c < v + c) as Hceil.
  { intros. split; [by apply quotient_nonneg|by apply ceil_spec]. }
  destruct (Hfloor sv N) as [??], (Hfloor sv D) as [??], (Hfloor wv N) as [??], (Hfloor wv D) as [??]; try lia.
  destruct (Z.ltb_spec sv wv); [case_decide; [|destruct (_ || _)]|case_bool_decide].
  - rewrite Z.min_r by lia. rewrite (Hdiv sv Down N max_wheat_receive) by (done || lia). simpl.
    split; [done|]. repeat split; try apply Z.min_glb; unfold amount64 in *; try lia;
      eapply (below _ _ N sv); lia.
  - rewrite (Hdiv sv Down N max_wheat_receive) by (done || lia). simpl.
    rewrite as_i128_id by (unfold i128_min, i128_max; lia).
    rewrite (Hdiv _ Up D max_sheep_send) by (done || lia). simpl.
    destruct (Hceil (sv / N * N) D) as [??]; [lia..|]. split; [done|].
    repeat split; try apply Z.min_glb; try done;
      first [eapply (below _ _ N sv); lia|eapply (below _ _ D sv); simpl in *; lia].
  - rewrite (Hdiv sv Down D max_sheep_send) by (done || lia). simpl.
    rewrite as_i128_id by (unfold i128_min, i128_max; lia).
    rewrite (Hdiv _ Down N max_wheat_receive) by (done || lia). simpl.
    destruct (Hfloor (sv / D * D) N) as [??]; [lia..|]. split; [done|].
    repeat split; try apply Z.min_glb; try done;
      first [eapply (below _ _ N sv); lia|eapply (below _ _ D sv); simpl in *; lia].
  - rewrite (Hdiv wv Down N max_wheat_send) by (done || lia). simpl.
    rewrite as_i128_id by (unfold i128_min, i128_max; lia).
    rewrite (Hdiv _ Down D max_sheep_receive) by (done || lia). simpl.
    destruct (Hfloor (wv / N * N) D) as [??]; [lia..|]. split; [done|].
    repeat split; try apply Z.min_glb; try done;
      first [eapply (below _ _ N wv); lia|eapply (below _ _ D wv); simpl in *; lia].
  - rewrite (Hdiv wv Down D max_sheep_receive) by (done || lia). simpl.
    rewrite as_i128_id by (unfold i128_min, i128_max; lia).
    rewrite (Hdiv _ Up N max_wheat_send) by (done || lia). simpl.
    destruct (Hceil (wv / D * D) N) as [??]; [lia..|]. split; [done|].
    repeat split; try apply Z.min_glb; try done;
      first [eapply (below _ _ N wv); simpl in *; lia|eapply (below _ _ D wv); simpl in *; lia].
Qed.

(** Whoever is left with something to trade is not the one rounding favours the
    other over: if the wheat stays, the sheep sent are worth at least the wheat. *)
Lemma split_favours round :
  let '(w, s) := split_amounts p wv sv max_sheep_send max_sheep_receive round in
  if sv <? wv then w * N <= s * D else s * D <= w * N.
Proof using Hp HWs HWr HSs HSr.
  pose proof price_bounds as [HN HD]. pose proof values_bounds as Hv. unfold split_amounts.
  destruct (Z.ltb_spec sv wv); [case_decide; [|destruct (_ || _)]|case_bool_decide].
  - pose proof (floor_spec sv N ltac:(lia)). nia.
  - apply ceil_spec; lia.
  - apply floor_spec; lia.
  - apply floor_spec; lia.
  - apply ceil_spec; lia.
Qed.

Lemma exchange_exact round :
  let '(w, s) := split_amounts p wv sv max_sheep_send max_sheep_receive round in
  exchange_v10_without_price_error_thresholds p
    max_wheat_send max_wheat_receive max_sheep_send max_sheep_receive round =
  Ok (MkExchange w s (sv <? wv)).
Proof using Hp HWs HWr HSs HSr.
  unfold exchange_v10_without_price_error_thresholds.
  pose proof price_bounds as [HN HD].
  destruct (Z.leb_spec N 0), (Z.leb_spec D 0); try lia. cbn [orb].
  rewrite wheat_value_exact, sheep_value_exact.
  destruct (exchanged_amounts_exact round) as (-> & Hw & Hs).
  destruct (split_amounts _ _ _ _ _ _) as [w s]. simpl in *.
  destruct (Z.ltb_spec w 0), (Z.ltb_spec (Z.min max_wheat_receive max_wheat_send) w), (Z.ltb_spec s 0),
    (Z.ltb_spec (Z.min max_sheep_receive max_sheep_send) s); lia || done.
Qed.
End exchange.

(** ** Price errors *)

(** The amounts differ from the price by at most one percent of the wheat's worth. *)
Definition within_one_percent (p : Price) (w s : Z) : Prop :=
  100 * Z.abs (w * price_n p - s * price_d p) <= w * price_n p.
#[export] Instance within_one_percent_dec p w s : Decision (within_one_percent p w s).
Proof. unfold within_one_percent. apply _. Defined.

Lemma check_price_error_bound_spec p w s favor (Hp : valid_price p) (Hw : amount64 w) (Hs : amount64 s) :
  check_price_error_bound p w s favor =
    (if favor && (w * price_n p <? s * price_d p) then Ok tt
     else if decide (within_one_percent p w s) then Ok tt else Err PriceError).
Proof.
  pose proof (price_bounds p Hp) as [HN HD]. destruct Hp as [HN' HD'].
  unfold check_price_error_bound, checked_mul, within_one_percent, amount64, positive32, i64_max, i32_max in *.
  rewrite !checked_i64_in by (unfold is_i64, i64_min, i64_max; lia). simpl ok_or. cbn [result_bind].
  rewrite !big_multiply_exact by lia.
  replace (w * (100 * price_n p) <? s * (100 * price_d p)) with (w * price_n p <? s * price_d p)
    by (destruct (Z.ltb_spec (w * price_n p) (s * price_d p)),
          (Z.ltb_spec (w * (100 * price_n p)) (s * (100 * price_d p))); lia || done).
  destruct (favor && _); [done|].
  assert (0 <= w * price_n p <= 2 ^ 104 /\ 0 <= s * price_d p <= 2 ^ 104) by nia.
  match goal with |- context [if ?c then as_i128 ?x else as_i128 ?y] =>
    replace (if c then as_i128 x else as_i128 y) with (100 * Z.abs (w * price_n p - s * price_d p)) end.
  - case_decide as E; destruct (Z.leb_spec (100 * Z.abs (w * price_n p - s * price_d p)) (w * price_n p)); lia || done.
  - destruct (Z.ltb_spec (s * (100 * price_d p)) (w * (100 * price_n p)));
      rewrite as_i128_id by (unfold i128_min, i128_max; lia); lia.
Qed.

(** The whole of [exchange_v10]: the defensive checks never fire, so what is left
    of it is the price check. *)
Lemma exchange_v10_exact p Ws Wr Ss Sr round (Hp : valid_price p)
    (HWs : amount64 Ws) (HWr : amount64 Wr) (HSs : amount64 Ss) (HSr : amount64 Sr) :
  let wv := wheat_value p Ws Sr in
  let sv := sheep_value p Wr Ss in
  let '(w, s) := split_amounts p wv sv Ss Sr round in
  exchange_v10 p Ws Wr Ss Sr round =
    (if decide (0 < w /\ 0 < s) then
       if decide (within_one_percent p w s) then Ok (MkExchange w s (sv <? wv))
       else if decide (round = Normal) then Ok (MkExchange 0 0 (sv <? wv))
       else if sv <? wv then Ok (MkExchange w s true) else Err PriceError
     else if decide (round = PathPaymentStrictSend) then Ok (MkExchange 0 s (sv <? wv))
     else Ok (MkExchange 0 0 (sv <? wv))).
Proof.
  intros wv sv.
  pose proof (price_bounds p Hp) as [HN HD].
  pose proof (exchanged_amounts_exact p Hp Ws Wr Ss Sr HWs HWr HSs HSr round) as (_ & Hw & Hs).
  pose proof (split_favours p Hp Ws Wr Ss Sr HWs HWr HSs HSr round) as Hf.
  pose proof (exchange_exact p Hp Ws Wr Ss Sr HWs HWr HSs HSr round) as He.
  fold wv sv in Hw, Hs, Hf, He. unfold exchange_v10.
  destruct (split_amounts p wv sv Ss Sr round) as [w s]. simpl in Hw, Hs. rewrite He. cbn [result_bind].
  assert (amount64 w /\ amount64 s) as [Hw' Hs'] by (unfold amount64 in *; lia).
  rewrite !check_price_error_bound_spec by done.
  unfold amount64, i64_max in Hw', Hs'. rewrite !big_multiply_exact by lia.
  destruct (Z.ltb_spec 0 w), (Z.ltb_spec 0 s); cbn [andb]; destruct (decide (0 < w /\ 0 < s)); try lia; [|done..].
  assert ((sv <? wv) && (s * price_d p <? w * price_n p) = false) as ->.
  { destruct (sv <? wv); [|done]. cbn [andb]. lia. }
  assert (negb (sv <? wv) && (w * price_n p <? s * price_d p) = false) as ->.
  { destruct (sv <? wv); [done|]. cbn [negb andb]. lia. }
  destruct (decide (round = Normal)) as [->|Hr]; cbn [andb].
  - by case_decide.
  - destruct (decide (within_one_percent p w s)); [by destruct (w * price_n p <? s * price_d p)|].
    unfold within_one_percent in *.
    destruct (sv <? wv), (Z.ltb_spec (w * price_n p) (s * price_d p)); done || lia.
Qed.



(** ** Adjusted offers *)

(** [s] is what taking all [a] of an offer costs, within one percent of its price,
    and a maker who can receive [max] sheep can receive that. *)
Definition fills (p : Price) (a s max : Z) : Prop :=
  0 <= a /\ 0 <= s <= max /\ (a = 0 <-> s = 0) /\ within_one_percent p a s /\
  if bool_decide (price_d p < price_n p)
  then s = a * price_n p / price_d p /\ a * price_n p <= max * price_d p
  else a = quotient (s * price_d p) (price_n p) Up.

Section adjusted.
Context (p : Price) (Hp : valid_price p).
Notation N := (price_n p).
Notation D := (price_d p).

Lemma fills_zero max : 0 <= max -> fills p 0 0 max.
Proof using Hp.
  pose proof (price_bounds p Hp) as [HN HD]. intros ?. unfold fills, within_one_percent.
  repeat split; try done. case_bool_decide; simpl.
  - split; [by rewrite Z.div_0_l by lia|nia].
  - rewrite Z.div_small; lia.
Qed.

(** Not stopped by the taker, the amounts exchanged are the whole offer. *)
Lemma fills_split a s max sv Ss round (Hf : fills p a s max) :
  wheat_value p a max <= sv -> split_amounts p (wheat_value p a max) sv Ss max round = (a, s).
Proof using Hp.
  pose proof (price_bounds p Hp) as [HN HD]. destruct Hf as (Ha & Hs & _ & _ & Hf). intros Hv.
  unfold split_amounts. destruct (Z.ltb_spec sv (wheat_value p a max)); [lia|].
  unfold wheat_value in *. case_bool_decide.
  - destruct Hf as [-> Hmax]. rewrite Z.min_l by lia. by rewrite Z.div_mul by lia.
  - pose proof (ceil_spec (s * D) N ltac:(lia)) as Hc. simpl in Hf. rewrite <- Hf in Hc.
    assert (Z.min (a * N) (max * D) / D = s) as -> by (apply floor_unique; nia).
    simpl. by rewrite <- Hf.
Qed.

(** A taker who can pay for everything at any price does not leave wheat. *)
Lemma unlimited_taker a max (Ha : amount64 a) (Hm : amount64 max) :
  wheat_value p a max <= sheep_value p i64_max i64_max.
Proof using Hp.
  pose proof (price_bounds p Hp) as [HN HD]. unfold wheat_value, sheep_value, amount64 in *. nia.
Qed.

Lemma amount64_max : amount64 i64_max.
Proof using. unfold amount64, i64_max. lia. Qed.

Lemma adjust_fills Ws Sr (HWs : amount64 Ws) (HSr : amount64 Sr) :
  exists a s, adjust_offer_amount p Ws Sr = Ok a /\ a <= Ws /\ fills p a s Sr.
Proof using Hp.
  pose proof (price_bounds p Hp) as [HN HD]. unfold adjust_offer_amount.
  pose proof (unlimited_taker Ws Sr HWs HSr) as Hv.
  pose proof (exchange_v10_exact p Ws i64_max i64_max Sr Normal Hp HWs amount64_max amount64_max HSr) as He.
  pose proof (exchanged_amounts_exact p Hp Ws i64_max i64_max Sr HWs amount64_max amount64_max HSr Normal)
    as (_ & Hw & Hs).
  pose proof (values_bounds p Hp Ws i64_max i64_max Sr HWs amount64_max amount64_max HSr) as Hb.
  cbv zeta in He. destruct (split_amounts _ _ _ _ _ _) as [w s] eqn:Hsplit. simpl in Hw, Hs.
  rewrite He. clear He. unfold amount64 in *.
  destruct (decide (0 < w /\ 0 < s)) as [[Hw0 Hs0]|]; [case_decide as H1|]; cbn [result_bind num_wheat_received].
  2,3: exists 0, 0; split; [done|]; split; [lia|apply fills_zero; lia].
  exists w, s. split; [done|]. split; [lia|].
  unfold split_amounts in Hsplit.
  destruct (Z.ltb_spec (sheep_value p i64_max i64_max) (wheat_value p Ws Sr)); [lia|].
  unfold fills. repeat split; try lia; [done|]. case_bool_decide; simplify_eq; [|done].
  split; [done|]. pose proof (floor_spec (wheat_value p Ws Sr) N ltac:(lia)). lia.
Qed.

Lemma fills_exchange a s max Wr Ss round (Hf : fills p a s max)
    (Ha : amount64 a) (Hm : amount64 max) (HWr : amount64 Wr) (HSs : amount64 Ss) :
  if sheep_value p Wr Ss <? wheat_value p a max
  then exists w s', exchange_v10 p a Wr Ss max round = Ok (MkExchange w s' true)
  else exchange_v10 p a Wr Ss max round = Ok (MkExchange a s false).
Proof using Hp.
  pose proof (exchange_v10_exact p a Wr Ss max round Hp Ha HWr HSs Hm) as He. cbv zeta in He.
  pose proof (fills_split a s max (sheep_value p Wr Ss) Ss round Hf) as Hs.
  destruct (Z.ltb_spec (sheep_value p Wr Ss) (wheat_value p a max)) as [Hlt|Hge].
  - destruct (split_amounts _ _ _ _ _ _) as [w s']. rewrite He. destruct (Z.ltb_spec (sheep_value p Wr Ss) (wheat_value p a max)); [|lia].
    repeat case_decide; eauto.
  - rewrite (Hs Hge) in He. rewrite He. destruct (Z.ltb_spec (sheep_value p Wr Ss) (wheat_value p a max)); [lia|].
    destruct Hf as (? & ? & Hz & H1 & _).
    destruct (decide (0 < a /\ 0 < s)); [by destruct (decide (within_one_percent p a s))|].
    assert (a = 0 /\ s = 0) as [-> ->] by lia. by case_decide.
Qed.
End adjusted.

(** The amount [adjust_offer_amount] leaves in an offer exists for every valid
    price and capacity, is no more than the capacity and is not adjusted again;
    crossing such an offer never fails, whatever the taker can send and receive
    and whichever way it rounds, and if the wheat does not stay all of it is
    taken; the liabilities of the offer are then exactly what is exchanged, so
    both fit what the maker can send and receive. *)
Theorem adjusted_offer_crosses p Ws Sr (Hp : valid_price p) (HWs : amount64 Ws) (HSr : amount64 Sr) :
  exists a s, adjust_offer_amount p Ws Sr = Ok a /\ 0 <= a <= Ws /\ 0 <= s <= Sr /\
    adjust_offer_amount p a Sr = Ok a /\
    offer_liabilities_sell a p = Ok (a, s) /\
    forall Wr Ss round, amount64 Wr -> amount64 Ss ->
      exists w s' stays, exchange_v10 p a Wr Ss Sr round = Ok (MkExchange w s' stays) /\
        (stays = false -> w = a /\ s' = s).
Proof.
  destruct (adjust_fills p Hp Ws Sr HWs HSr) as (a & s & Hadj & Hle & Hf). exists a, s.
  assert (amount64 a) as Ha by (destruct Hf; unfold amount64 in *; lia).
  assert (fills p a s i64_max) as Hf'.
  { pose proof (price_bounds p Hp). destruct Hf as (? & ? & ? & ? & Hf). unfold amount64 in *.
    unfold fills. repeat split; try done; try tauto; try lia. case_bool_decide; [|done].
    destruct Hf as [? Hf]. split; [done|]. nia. }
  split; [done|]. split; [destruct Hf; lia|]. split; [by destruct Hf as (_ & ? & _)|].
  split.
  { unfold adjust_offer_amount.
    pose proof (fills_exchange p Hp a s Sr i64_max i64_max Normal Hf Ha HSr amount64_max amount64_max) as He.
    pose proof (unlimited_taker p Hp a Sr Ha HSr).
    destruct (Z.ltb_spec (sheep_value p i64_max i64_max) (wheat_value p a Sr)); [lia|]. by rewrite He. }
  split.
  { unfold offer_liabilities_sell.
    pose proof (unlimited_taker p Hp a i64_max Ha amount64_max) as Hv.
    pose proof (exchange_exact p Hp a i64_max i64_max i64_max Ha amount64_max amount64_max amount64_max Normal) as He.
    rewrite (fills_split p Hp a s i64_max _ _ _ Hf' Hv) in He. by rewrite He. }
  intros Wr Ss round HWr HSs.
  pose proof (fills_exchange p Hp a s Sr Wr Ss round Hf Ha HSr HWr HSs) as He.
  destruct (_ <? _).
  - destruct He as (w & s' & ->). exists w, s', true. by split.
  - exists a, s, false. by split.
Qed.

Lemma adjusted_offer_crosses_witness :
  adjust_offer_amount (MkPrice 1 2) 7 i64_max = Ok 6 /\
  exists a s, adjust_offer_amount (MkPrice 1 2) 7 i64_max = Ok a /\ 0 <= a <= 7 /\ 0 <= s <= i64_max /\
    adjust_offer_amount (MkPrice 1 2) a i64_max = Ok a /\ offer_liabilities_sell a (MkPrice 1 2) = Ok (a, s).
Proof.
  split; [reflexivity|].
  destruct (adjusted_offer_crosses (MkPrice 1 2) 7 i64_max) as (a & s & H1 & H2 & H3 & H4 & H5 & _);
    [vm_compute; repeat split; discriminate..|].
  exists a, s. exact (conj H1 (conj H2 (conj H3 (conj H4 H5)))).
Defined.
