(* ===== verification/Pool.v ===== *)
(** * Pool: constant-product liquidity pools (tx/src/operations/execute/liquidity_pool.rs, path_payment.rs)

    The reserves and shares of one pool and what deposits, withdrawals and path
    payments do to them. The side of the account (debiting and crediting its
    trustlines, frozen keys) is left out: what an account can pay or hold is an
    argument here. A failed [assert!] and an explicit [panic!] are the [None] of
    an outer [option]. *)

From S2P Require Import Prelude Amounts Exchange.

Record LiquidityPool := MkPool { reserve_a : Z; reserve_b : Z; total_pool_shares : Z }.

(** ** Division and square root *)

Definition pool_quotient (a b c : Z) (round : Rounding) : Z :=
  let numerator := as_i128 (a * b) in
  match round with
  | Down => numerator ÷ c
  | Up => if numerator =? 0 then 0 else as_i128 (numerator + c - 1) ÷ c
  end.

(** [big_divide] of liquidity_pool.rs answers [0] when the quotient does not fit. *)
Definition pool_big_divide (a b c : Z) (round : Rounding) : option Z :=
  if c <=? 0 then None
  else
    let result := pool_quotient a b c round in
    Some (if i64_max <? result then 0 else as_i64 result).

Definition big_divide_checked (a b c : Z) (round : Rounding) : option (option Z) :=
  if c <=? 0 then None
  else
    let result := pool_quotient a b c round in
    Some (if i64_max <? result then None else Some (as_i64 result)).

(** The [while] loop of [big_square_root]; the interval halves, so 64 rounds are
    enough for [i64]. *)
Fixpoint square_root_loop (fuel : nat) (product low high : Z) : option Z :=
  match fuel with
  | O => None
  | S fuel =>
      if low <=? high then
        let mid := (low + high) ÷ 2 in
        let sq := as_i128 (mid * mid) in
        if sq =? product then Some (as_i64 mid)
        else if sq <? product then square_root_loop fuel product (mid + 1) high
        else square_root_loop fuel product low (mid - 1)
      else Some (as_i64 (Z.max high 0))
  end.
Definition big_square_root (a b : Z) : option Z :=
  let product := as_i128 (a * b) in
  square_root_loop 65 product 0 (Z.min product i64_max).

(** ** Deposit *)

Definition is_bad_price (amount_a amount_b : Z) (min_price max_price : Price) : bool :=
  if (amount_a =? 0) || (amount_b =? 0) then true
  else (as_i128 (amount_a * price_d min_price) <? as_i128 (amount_b * price_n min_price))
       || (as_i128 (amount_b * price_n max_price) <? as_i128 (amount_a * price_d max_price)).

Inductive DepositOutcome :=
| Success (a b shares : Z)
| Underfunded
| BadPrice
| LineFull.

Definition deposit_into_empty_pool (max_amount_a max_amount_b available_a available_b
    available_pool_share_limit : Z) (min_price max_price : Price) : option DepositOutcome :=
  if (available_a <? max_amount_a) || (available_b <? max_amount_b) then Some Underfunded
  else if is_bad_price max_amount_a max_amount_b min_price max_price then Some BadPrice
  else
    shares ← big_square_root max_amount_a max_amount_b;
    Some (if available_pool_share_limit <? shares then LineFull
          else Success max_amount_a max_amount_b shares).

(** [minAmongValid]; two overflows are the panic. *)
Definition pool_shares_of (shares_a shares_b : option Z) : option Z :=
  match shares_a, shares_b with
  | Some a, Some b => Some (Z.min a b)
  | Some a, None => Some a
  | None, Some b => Some b
  | None, None => None
  end.

Definition deposit_into_non_empty_pool (max_amount_a max_amount_b available_a available_b
    available_pool_share_limit reserve_a reserve_b total_shares : Z) (min_price max_price : Price)
    : option DepositOutcome :=
  shares_a ← big_divide_checked total_shares max_amount_a reserve_a Down;
  shares_b ← big_divide_checked total_shares max_amount_b reserve_b Down;
  pool_shares ← pool_shares_of shares_a shares_b;
  amount_a ← pool_big_divide pool_shares reserve_a total_shares Up;
  amount_b ← pool_big_divide pool_shares reserve_b total_shares Up;
  Some (if (available_a <? amount_a) || (available_b <? amount_b) then Underfunded
        else if is_bad_price amount_a amount_b min_price max_price then BadPrice
        else if available_pool_share_limit <? pool_shares then LineFull
        else Success amount_a amount_b pool_shares).

Record LiquidityPoolDepositOp := MkDeposit {
  max_amount_a : Z;
  max_amount_b : Z;
  min_price : Price;
  max_price : Price
}.

Inductive DepositCode := DepMalformed | DepUnderfunded | DepBadPrice | DepLineFull | DepPoolFull | DepInternal.

(** The validation at the start of [execute_liquidity_pool_deposit]. *)
Definition deposit_malformed (op : LiquidityPoolDepositOp) : bool :=
  (max_amount_a op <=? 0) || (max_amount_b op <=? 0)
  || (price_n (min_price op) <=? 0) || (price_d (min_price op) <=? 0)
  || (price_n (max_price op) <=? 0) || (price_d (max_price op) <=? 0)
  || (as_i128 (price_d (min_price op) * price_n (max_price op))
        <? as_i128 (price_n (min_price op) * price_d (max_price op))).

(** Applying a successful deposit to the pool: the check for a full pool and the
    three updates at the end of the handler. *)
Definition apply_deposit (pool : LiquidityPool) (a b shares : Z) : result LiquidityPool DepositCode :=
  if (i64_max - reserve_a pool <? a) || (i64_max - reserve_b pool <? b)
     || (i64_max - total_pool_shares pool <? shares)
  then Err DepPoolFull
  else
    let? ra := map_err (fun _ => DepInternal) (add_pool_reserve (reserve_a pool) a) in
    let? rb := map_err (fun _ => DepInternal) (add_pool_reserve (reserve_b pool) b) in
    let? t := map_err (fun _ => DepInternal) (add_pool_shares (total_pool_shares pool) shares) in
    Ok (MkPool ra rb t).

(** [execute_liquidity_pool_deposit] on the pool; [None] is a panic. *)
Definition pool_deposit (op : LiquidityPoolDepositOp)
    (available_a available_b available_pool_share_limit : Z) (pool : LiquidityPool)
    : option (result LiquidityPool DepositCode) :=
  if deposit_malformed op then Some (Err DepMalformed)
  else
    outcome ←
      (if total_pool_shares pool =? 0 then
         deposit_into_empty_pool (max_amount_a op) (max_amount_b op) available_a available_b
           available_pool_share_limit (min_price op) (max_price op)
       else
         deposit_into_non_empty_pool (max_amount_a op) (max_amount_b op) available_a available_b
           available_pool_share_limit (reserve_a pool) (reserve_b pool) (total_pool_shares pool)
           (min_price op) (max_price op));
    Some (match outcome with
          | Success a b shares => apply_deposit pool a b shares
          | Underfunded => Err DepUnderfunded
          | BadPrice => Err DepBadPrice
          | LineFull => Err DepLineFull
          end).

(** ** Withdrawal *)

Definition get_pool_withdrawal_amount (amount total_shares reserve : Z) : option Z :=
  pool_big_divide amount reserve total_shares Down.

Record LiquidityPoolWithdrawOp := MkWithdraw { wd_amount : Z; min_amount_a : Z; min_amount_b : Z }.

Inductive WithdrawCode := WdMalformed | WdUnderfunded | WdUnderMinimum | WdLineFull | WdInternal.

(** [execute_liquidity_pool_withdraw] on the pool: what the account holds of the
    shares and whether it can be credited an amount of either asset
    ([can_credit_asset]) are arguments. *)
Definition pool_withdraw (op : LiquidityPoolWithdrawOp) (shares_available : Z)
    (can_credit_a can_credit_b : Z -> bool) (pool : LiquidityPool) : option (result LiquidityPool WithdrawCode) :=
  if (wd_amount op <=? 0) || (min_amount_a op <? 0) || (min_amount_b op <? 0)
  then Some (Err WdMalformed)
  else if shares_available <? wd_amount op then Some (Err WdUnderfunded)
  else
    withdraw_a ← get_pool_withdrawal_amount (wd_amount op) (total_pool_shares pool) (reserve_a pool);
    withdraw_b ← get_pool_withdrawal_amount (wd_amount op) (total_pool_shares pool) (reserve_b pool);
    Some (
      if withdraw_a <? min_amount_a op then Err WdUnderMinimum
      else if negb (can_credit_a withdraw_a) then Err WdLineFull
      else if withdraw_b <? min_amount_b op then Err WdUnderMinimum
      else if negb (can_credit_b withdraw_b) then Err WdLineFull
      else
        let? ra := map_err (fun _ => WdInternal) (add_pool_reserve (reserve_a pool) (- withdraw_a)) in
        let? rb := map_err (fun _ => WdInternal) (add_pool_reserve (reserve_b pool) (- withdraw_b)) in
        let? t := map_err (fun _ => WdInternal) (add_pool_shares (total_pool_shares pool) (- wd_amount op)) in
        Ok (MkPool ra rb t)).

(** ** Path payments through the pool *)

Definition MAX_BPS : Z := 10000.
Definition LIQUIDITY_POOL_FEE_V18 : Z := 30.

(** [TxError::Internal] of the three argument checks. *)
Inductive PoolError := FeeOutOfRange | NonPositiveReserves | BoundedOtherSide.

(** [exchange_with_pool]: [Ok None] is [Ok(false)], [Ok (Some (to, from))] is
    [Ok(true)] with the two out-parameters. *)
Definition exchange_with_pool (reserves_to_pool max_send_to_pool reserves_from_pool max_receive_from_pool fee_bps : Z)
    (round : RoundingType) : result (option (Z * Z)) PoolError :=
  if negb ((0 <=? fee_bps) && (fee_bps <? MAX_BPS)) then Err FeeOutOfRange
  else if (reserves_to_pool <=? 0) || (reserves_from_pool <=? 0) then Err NonPositiveReserves
  else
    match round with
    | PathPaymentStrictSend =>
        if negb (max_receive_from_pool =? i64_max) then Err BoundedOtherSide
        else if i64_max - reserves_to_pool <? max_send_to_pool then Ok None
        else
          let to_pool := max_send_to_pool in
          let c := as_u128 (MAX_BPS * reserves_to_pool + (MAX_BPS - fee_bps) * as_u64 to_pool) in
          let a := MAX_BPS - fee_bps in
          let b := as_u128 (reserves_from_pool * as_u64 to_pool) in
          if c =? 0 then Ok None
          else
            let value := as_u128 (as_u128 (a * (b / c)) + as_u128 (a * (b mod c)) / c) in
            if i64_max <? value then Ok None
            else
              let from_pool := as_i64 value in
              if (reserves_from_pool <? from_pool) || (from_pool =? 0) then Ok None
              else Ok (Some (to_pool, from_pool))
    | PathPaymentStrictReceive =>
        if negb (max_send_to_pool =? i64_max) then Err BoundedOtherSide
        else if reserves_from_pool <=? max_receive_from_pool then Ok None
        else
          let from_pool := max_receive_from_pool in
          let a := MAX_BPS in
          let b := as_u128 (reserves_to_pool * as_u64 from_pool) in
          let c := as_u128 (as_u64 (reserves_from_pool - from_pool) * (MAX_BPS - fee_bps)) in
          if c =? 0 then Ok None
          else
            let value := as_u128 (as_u128 (a * (b / c)) + div_ceil_u128 (as_u128 (a * (b mod c))) c) in
            if i64_max <? value then Ok None
            else
              let to_pool := as_i64 value in
              if to_pool <=? i64_max - reserves_to_pool then Ok (Some (to_pool, from_pool)) else Ok None
    | Normal => Ok None
    end.

(** Whether asset A or asset B of the pool is the one sent. *)
Inductive Direction := SendA | SendB.

(** [compute_pool_exchange] once the pool was found and the direction is known. *)
Definition compute_pool_exchange (dir : Direction) (pool : LiquidityPool) (max_send max_recv : Z)
    (round : RoundingType) : result (option (Z * Z)) PoolError :=
  if (reserve_a pool <=? 0) || (reserve_b pool <=? 0) then Ok None
  else
    let '(reserves_to, reserves_from) :=
      match dir with
      | SendA => (reserve_a pool, reserve_b pool)
      | SendB => (reserve_b pool, reserve_a pool)
      end in
    exchange_with_pool reserves_to max_send reserves_from max_recv LIQUIDITY_POOL_FEE_V18 round.

(** [apply_pool_exchange]; [None] is [TxError::Internal]. *)
Definition apply_pool_exchange (dir : Direction) (pool : LiquidityPool) (to_pool from_pool : Z)
    : option LiquidityPool :=
  match dir with
  | SendA =>
      ra ← checked_add (reserve_a pool) to_pool;
      rb ← checked_sub (reserve_b pool) from_pool;
      Some (MkPool ra rb (total_pool_shares pool))
  | SendB =>
      rb ← checked_add (reserve_b pool) to_pool;
      ra ← checked_sub (reserve_a pool) from_pool;
      Some (MkPool ra rb (total_pool_shares pool))
  end.

(** The choice of [convert_with_offers_and_pools] when the order book could be
    converted: the book is used when it gives the strictly better price. *)
Definition use_book (pool_send pool_recv book_send book_recv : Z) : bool :=
  as_i128 (pool_recv * book_send) <? as_i128 (pool_send * book_recv).

(** ** Arithmetic *)

Lemma as_i128_product a b : amount64 a -> amount64 b -> as_i128 (a * b) = a * b.
Proof.
  intros Ha Hb. pose proof (amounts_mul_bound a b Ha Hb). unfold i64_max in *.
  apply as_i128_id. unfold i128_min, i128_max. lia.
Qed.

Lemma as_i64_amount x : amount64 x -> as_i64 x = x.
Proof. intros ?. apply as_i64_id. unfold amount64, is_i64, i64_min, i64_max in *. lia. Qed.

(** The searched root stays in [[low, high]]; [k] bounds the halvings left. *)
Lemma square_root_loop_spec k product low high :
  0 <= low <= high + 1 -> high <= i64_max -> high - low + 1 < 2 ^ Z.of_nat k ->
  (0 < low -> (low - 1) * (low - 1) < product) -> product < (high + 1) * (high + 1) ->
  0 <= product ->
  exists s, square_root_loop (S k) product low high = Some s /\ amount64 s /\ s * s <= product < (s + 1) * (s + 1).
Proof.
  revert low high. induction k as [|k IH]; intros low high Hlow Hhigh Hsize Hl Hh Hp.
  - cbn -[Z.mul]. destruct (Z.leb_spec low high); [lia|]. assert (low = high + 1) as -> by lia.
    assert (0 < high + 1) by nia. rewrite Z.max_l by lia.
    rewrite as_i64_amount by (unfold amount64; lia). exists high. split; [done|]. unfold amount64. split; [lia|].
    specialize (Hl ltac:(lia)). replace (high + 1 - 1) with high in Hl by lia. lia.
  - cbn [square_root_loop]. destruct (Z.leb_spec low high) as [Hle|].
    + rewrite Z.quot_div_nonneg by lia. set (mid := (low + high) / 2).
      assert (low <= mid <= high) as Hmid.
      { unfold mid. pose proof (floor_spec (low + high) 2 ltac:(lia)). lia. }
      assert (2 * mid <= low + high < 2 * mid + 2) as Hm2.
      { unfold mid. pose proof (floor_spec (low + high) 2 ltac:(lia)). lia. }
      clearbody mid. rewrite as_i128_product by (unfold amount64; lia).
      rewrite Nat2Z.inj_succ, Z.pow_succ_r in Hsize by lia.
      destruct (Z.eqb_spec (mid * mid) product) as [<-|Hne].
      { rewrite as_i64_amount by (unfold amount64; lia). exists mid. split; [done|]. unfold amount64. split; [lia|nia]. }
      destruct (Z.ltb_spec (mid * mid) product).
      * apply IH; lia.
      * apply IH; lia.
    + assert (low = high + 1) as -> by lia. assert (0 < high + 1) by nia. rewrite Z.max_l by lia.
      rewrite as_i64_amount by (unfold amount64; lia). exists high. split; [done|]. unfold amount64. split; [lia|].
      specialize (Hl ltac:(lia)). replace (high + 1 - 1) with high in Hl by lia. lia.
Qed.

Lemma big_square_root_spec a b (Ha : amount64 a) (Hb : amount64 b) :
  exists s, big_square_root a b = Some s /\ amount64 s /\ s * s <= a * b < (s + 1) * (s + 1).
Proof.
  unfold big_square_root. rewrite as_i128_product by done.
  pose proof (amounts_mul_bound a b Ha Hb) as Hp. apply square_root_loop_spec; unfold i64_max in *; try lia.
Qed.

(** [big_square_root] ends and answers the integer square root of the product
    of two amounts, which always is an amount. *)
Theorem big_square_root_correct a b (Ha : amount64 a) (Hb : amount64 b) :
  big_square_root a b = Some (Z.sqrt (a * b)).
Proof.
  destruct (big_square_root_spec a b Ha Hb) as (s & -> & Hs & Hsq). f_equal.
  symmetry. apply Z.sqrt_unique. unfold amount64 in Hs. lia.
Qed.

Lemma big_square_root_correct_witness :
  amount64 i64_max /\ amount64 2 /\ big_square_root i64_max 2 = Some (Z.sqrt (i64_max * 2)).
Proof.
  assert (amount64 i64_max /\ amount64 2) as [H1 H2] by (vm_compute; repeat split; discriminate).
  split; [exact H1|]. split; [exact H2|]. exact (big_square_root_correct i64_max 2 H1 H2).
Defined.

Lemma pool_quotient_spec a b c r (Ha : amount64 a) (Hb : amount64 b) (Hc : 0 < c <= i64_max) :
  pool_quotient a b c r = quotient (a * b) c r.
Proof.
  unfold pool_quotient. rewrite as_i128_product by done.
  pose proof (amounts_mul_bound a b Ha Hb) as Hp. unfold i64_max in *.
  destruct r; simpl; [apply Z.quot_div_nonneg; lia|].
  destruct (Z.eqb_spec (a * b) 0) as [->|]; [symmetry; apply Z.div_small; lia|].
  rewrite as_i128_id by (unfold i128_min, i128_max; lia). apply Z.quot_div_nonneg; lia.
Qed.

Lemma pool_big_divide_spec a b c r (Ha : amount64 a) (Hb : amount64 b) (Hc : 0 < c <= i64_max) :
  pool_big_divide a b c r = Some (if quotient (a * b) c r <=? i64_max then quotient (a * b) c r else 0).
Proof.
  unfold pool_big_divide. destruct (Z.leb_spec c 0); [lia|]. rewrite pool_quotient_spec by done.
  pose proof (quotient_nonneg (a * b) c r ltac:(unfold amount64 in *; nia) ltac:(lia)).
  destruct (Z.ltb_spec i64_max (quotient (a * b) c r)), (Z.leb_spec (quotient (a * b) c r) i64_max); try lia; [done|].
  by rewrite as_i64_amount by (unfold amount64; lia).
Qed.

Lemma big_divide_checked_spec a b c r (Ha : amount64 a) (Hb : amount64 b) (Hc : 0 < c <= i64_max) :
  big_divide_checked a b c r =
    Some (if quotient (a * b) c r <=? i64_max then Some (quotient (a * b) c r) else None).
Proof.
  unfold big_divide_checked. destruct (Z.leb_spec c 0); [lia|]. rewrite pool_quotient_spec by done.
  pose proof (quotient_nonneg (a * b) c r ltac:(unfold amount64 in *; nia) ltac:(lia)).
  destruct (Z.ltb_spec i64_max (quotient (a * b) c r)), (Z.leb_spec (quotient (a * b) c r) i64_max); try lia; [done|].
  by rewrite as_i64_amount by (unfold amount64; lia).
Qed.

(** ** Exchanges with a pool *)

(** [A * B / C] through the quotient and the remainder of [B / C]. *)
Lemma huge_divide a b c : 0 < c -> a * (b / c) + a * (b mod c) / c = a * b / c.
Proof.
  intros Hc. pose proof (Z.div_mod b c ltac:(lia)) as Hb.
  replace (a * b) with (a * (b / c) * c + a * (b mod c)) by nia.
  by rewrite Z.div_add_l by lia.
Qed.

Lemma huge_divide_ceil a b c :
  0 < c -> a * (b / c) + quotient (a * (b mod c)) c Up = quotient (a * b) c Up.
Proof.
  intros Hc. pose proof (Z.div_mod b c ltac:(lia)) as Hb. simpl.
  replace (a * b + c - 1) with (a * (b / c) * c + (a * (b mod c) + c - 1)) by nia.
  by rewrite Z.div_add_l by lia.
Qed.

(** The side a path payment leaves open must be unbounded. *)
Lemma exchange_with_pool_open rt ms rf mr fee round r :
  exchange_with_pool rt ms rf mr fee round = Ok (Some r) ->
  match round with
  | Normal => False
  | PathPaymentStrictSend => mr = i64_max
  | PathPaymentStrictReceive => ms = i64_max
  end.
Proof.
  unfold exchange_with_pool. destruct (negb _); [done|]. destruct (_ || _); [done|].
  destruct round; [done| |].
  - destruct (Z.eqb_spec mr i64_max); [done|done].
  - destruct (Z.eqb_spec ms i64_max); [done|done].
Qed.

Section swap.
Context (rt rf : Z) (Hrt : 0 < rt <= i64_max) (Hrf : 0 < rf <= i64_max).
Notation FEE := LIQUIDITY_POOL_FEE_V18.

(** What the pool gives for [to] at its fee, and what it asks for [from]. *)
Definition given (to : Z) : Z := (MAX_BPS - FEE) * (rf * to) / (MAX_BPS * rt + (MAX_BPS - FEE) * to).
Definition asked (from : Z) : Z := quotient (MAX_BPS * (rt * from)) ((rf - from) * (MAX_BPS - FEE)) Up.

Lemma exchange_with_pool_send to (Hto : amount64 to) :
  exchange_with_pool rt to rf i64_max FEE PathPaymentStrictSend =
    (if (i64_max - rt <? to) || (given to =? 0) then Ok None else Ok (Some (to, given to))) /\
  0 <= given to < rf.
Proof using Hrt Hrf.
  unfold amount64 in Hto. unfold exchange_with_pool.
  assert (negb ((0 <=? FEE) && (FEE <? MAX_BPS)) = false) as -> by reflexivity.
  destruct (Z.leb_spec rt 0), (Z.leb_spec rf 0); try lia. cbn [orb]. rewrite Z.eqb_refl. cbn [negb].
  unfold given, FEE, MAX_BPS in *. change (10000 - 30) with 9970.
  rewrite (as_u64_amount to) by (unfold amount64; lia). unfold i64_max in *.
  assert (0 <= rf * to <= i64_max * i64_max) as Hb by (apply amounts_mul_bound; unfold amount64, i64_max; lia).
  unfold i64_max in Hb. set (c := 10000 * rt + 9970 * to).
  assert (0 < c <= 2 ^ 80) as Hc by lia.
  rewrite (as_u128_id c), (as_u128_id (rf * to)) by (unfold is_u128, u128_max; lia).
  destruct (Z.eqb_spec c 0); [lia|].
  assert (0 <= 9970 * (rf * to) / c < rf) as Hg.
  { split; [apply Z.div_pos; lia|]. apply Z.div_lt_upper_bound; unfold c; nia. }
  pose proof (huge_divide 9970 (rf * to) c ltac:(lia)) as Hd.
  assert (0 <= 9970 * (rf * to / c)) by (pose proof (Z.div_pos (rf * to) c); lia).
  assert (0 <= 9970 * ((rf * to) mod c) <= 2 ^ 100) by (pose proof (Z.mod_pos_bound (rf * to) c); lia).
  assert (0 <= 9970 * ((rf * to) mod c) / c) by (apply Z.div_pos; lia).
  rewrite (as_u128_id (9970 * ((rf * to) mod c))) by (unfold is_u128, u128_max; lia).
  rewrite (as_u128_id (9970 * (rf * to / c))) by (unfold is_u128, u128_max; lia).
  rewrite as_u128_id by (unfold is_u128, u128_max; lia). rewrite Hd. split; [|done].
  destruct (Z.ltb_spec (2 ^ 63 - 1 - rt) to); [done|]. cbn [orb].
  destruct (Z.ltb_spec (2 ^ 63 - 1) (9970 * (rf * to) / c)); [lia|].
  rewrite as_i64_amount by (unfold amount64, i64_max; lia).
  destruct (Z.ltb_spec rf (9970 * (rf * to) / c)); [lia|]. done.
Qed.

Lemma exchange_with_pool_receive from (Hfrom : amount64 from) :
  exchange_with_pool rt i64_max rf from FEE PathPaymentStrictReceive =
    (if (rf <=? from) || (i64_max - rt <? asked from) then Ok None else Ok (Some (asked from, from))) /\
  (from < rf -> 0 <= asked from).
Proof using Hrt Hrf.
  unfold amount64 in Hfrom. unfold exchange_with_pool.
  assert (negb ((0 <=? FEE) && (FEE <? MAX_BPS)) = false) as -> by reflexivity.
  destruct (Z.leb_spec rt 0), (Z.leb_spec rf 0); try lia. cbn [orb]. rewrite Z.eqb_refl. cbn [negb].
  unfold asked, FEE, MAX_BPS in *. change (10000 - 30) with 9970.
  destruct (Z.leb_spec rf from); [split; [done|lia]|]. cbn [orb].
  rewrite !as_u64_amount by (unfold amount64; lia). unfold i64_max in *.
  assert (0 <= rt * from <= i64_max * i64_max) as Hb by (apply amounts_mul_bound; unfold amount64, i64_max; lia).
  unfold i64_max in Hb. set (c := (rf - from) * 9970).
  assert (9970 <= c <= 2 ^ 80) as Hc by lia.
  rewrite (as_u128_id c), (as_u128_id (rt * from)) by (unfold is_u128, u128_max; lia).
  destruct (Z.eqb_spec c 0); [lia|].
  pose proof (huge_divide_ceil 10000 (rt * from) c ltac:(lia)) as Hd.
  pose proof (quotient_nonneg (10000 * (rt * from)) c Up ltac:(lia) ltac:(lia)) as Hq.
  assert (quotient (10000 * (rt * from)) c Up <= 2 * (rt * from) + 1) as Hq2.
  { simpl. pose proof (ceil_spec (10000 * (rt * from)) c ltac:(lia)). nia. }
  assert (0 <= 10000 * (rt * from / c)) by (pose proof (Z.div_pos (rt * from) c); lia).
  assert (0 <= 10000 * ((rt * from) mod c) <= 2 ^ 100) by (pose proof (Z.mod_pos_bound (rt * from) c); lia).
  pose proof (quotient_nonneg (10000 * ((rt * from) mod c)) c Up ltac:(lia) ltac:(lia)).
  rewrite (as_u128_id (10000 * ((rt * from) mod c))) by (unfold is_u128, u128_max; lia).
  rewrite div_ceil_u128_spec by lia.
  rewrite (as_u128_id (10000 * (rt * from / c))) by (unfold is_u128, u128_max; lia).
  rewrite as_u128_id by (unfold is_u128, u128_max; lia). rewrite Hd. split; [|done].
  destruct (Z.ltb_spec (2 ^ 63 - 1) (quotient (10000 * (rt * from)) c Up)), (Z.ltb_spec (2 ^ 63 - 1 - rt) (quotient (10000 * (rt * from)) c Up));
    try lia; try done; rewrite as_i64_amount by (unfold amount64, i64_max; lia);
    destruct (Z.leb_spec (quotient (10000 * (rt * from)) c Up) (2 ^ 63 - 1 - rt)); lia || done.
Qed.

(** The product of the reserves does not shrink. *)
Lemma given_product to : 0 <= to -> rt * rf <= (rt + to) * (rf - given to).
Proof using Hrt Hrf.
  intros Hto. unfold given, FEE, MAX_BPS. change (10000 - 30) with 9970.
  pose proof (floor_spec (9970 * (rf * to)) (10000 * rt + 9970 * to) ltac:(lia)) as Hs.
  set (g := _ / _) in *. assert (0 <= g) by (unfold g; apply Z.div_pos; nia). nia.
Qed.

Lemma asked_product from : 0 <= from < rf -> rt * rf <= (rt + asked from) * (rf - from).
Proof using Hrt Hrf.
  intros Hfrom. unfold asked, FEE, MAX_BPS. change (10000 - 30) with 9970. cbn [quotient].
  pose proof (ceil_spec (10000 * (rt * from)) ((rf - from) * 9970) ltac:(lia)) as Hs.
  set (g := _ / _) in *. nia.
Qed.
End swap.

(** ** Deposits *)

(** A pool as the ledger holds it: amounts, no more shares than the geometric mean
    of the reserves, and nothing left behind once all shares are redeemed. *)
Definition pool_ok (P : LiquidityPool) : Prop :=
  amount64 (reserve_a P) /\ amount64 (reserve_b P) /\ amount64 (total_pool_shares P) /\
  total_pool_shares P * total_pool_shares P <= reserve_a P * reserve_b P /\
  (total_pool_shares P = 0 -> reserve_a P = 0 /\ reserve_b P = 0).

(** The prices of an operation are [i32] whatever the sender wrote. *)
Definition price32 (p : Price) : Prop := is_i32 (price_n p) /\ is_i32 (price_d p).
Definition deposit_op_ok (op : LiquidityPoolDepositOp) : Prop :=
  is_i64 (max_amount_a op) /\ is_i64 (max_amount_b op) /\ price32 (min_price op) /\ price32 (max_price op).

(** The exchange rate of what is deposited is within the two prices. *)
Definition price_between (lo hi : Price) (a b : Z) : Prop :=
  0 < a /\ 0 < b /\ b * price_n lo <= a * price_d lo /\ a * price_d hi <= b * price_n hi.

Lemma is_bad_price_spec a b lo hi (Ha : amount64 a) (Hb : amount64 b) (Hlo : price32 lo) (Hhi : price32 hi) :
  is_bad_price a b lo hi = false -> price_between lo hi a b.
Proof.
  unfold price32, is_i32, amount64, i32_min, i32_max, i64_max in *. unfold is_bad_price.
  destruct (Z.eqb_spec a 0), (Z.eqb_spec b 0); try done. cbn [orb].
  assert (forall x y, 0 <= x <= 2 ^ 63 - 1 -> - 2 ^ 31 <= y <= 2 ^ 31 - 1 -> as_i128 (x * y) = x * y) as Hid.
  { intros x y ??. apply as_i128_id. unfold i128_min, i128_max. nia. }
  rewrite !Hid by lia. intros [?%Z.ltb_ge ?%Z.ltb_ge]%orb_false_iff. unfold price_between. lia.
Qed.

(** The amounts taken for [s] new shares of a pool: as little as keeps the value of
    a share, and no more than the maxima. *)
Definition fair_deposit (op : LiquidityPoolDepositOp) (P : LiquidityPool) (a b s : Z) : Prop :=
  0 <= a <= max_amount_a op /\ 0 <= b <= max_amount_b op /\ 0 <= s /\
  if total_pool_shares P =? 0 then s = Z.sqrt (a * b)
  else
    s * reserve_a P <= a * total_pool_shares P < s * reserve_a P + total_pool_shares P /\
    s * reserve_b P <= b * total_pool_shares P < s * reserve_b P + total_pool_shares P.

Lemma pool_shares_spec t ma mb ra rb (Ht : 0 < t <= i64_max) (Hra : 0 < ra <= i64_max) (Hrb : 0 < rb <= i64_max)
    (Hma : amount64 ma) (Hmb : amount64 mb) (Hroot : t * t <= ra * rb) :
  exists sa sb s, big_divide_checked t ma ra Down = Some sa /\ big_divide_checked t mb rb Down = Some sb /\
    pool_shares_of sa sb = Some s /\ amount64 s /\ s * ra <= ma * t /\ s * rb <= mb * t.
Proof.
  unfold amount64 in *. rewrite !big_divide_checked_spec by (unfold amount64; lia). cbn [quotient].
  pose proof (floor_spec (t * ma) ra ltac:(lia)) as Ha. pose proof (floor_spec (t * mb) rb ltac:(lia)) as Hb.
  assert (0 <= t * ma / ra) by (apply Z.div_pos; nia). assert (0 <= t * mb / rb) by (apply Z.div_pos; nia).
  destruct (Z.leb_spec (t * ma / ra) i64_max), (Z.leb_spec (t * mb / rb) i64_max);
    first [eexists _, _, _; do 3 (split; [reflexivity|]); split; [lia|split; nia]|exfalso].
  assert (ra < t) by nia. assert (rb < t) by nia. nia.
Qed.

Lemma amount_for_shares s r t m (Hs : amount64 s) (Hr : amount64 r) (Ht : 0 < t <= i64_max) (Hm : amount64 m)
    (Hle : s * r <= m * t) :
  exists a, pool_big_divide s r t Up = Some a /\ 0 <= a <= m /\ s * r <= a * t < s * r + t.
Proof.
  rewrite pool_big_divide_spec by done. pose proof (ceil_spec (s * r) t ltac:(lia)) as Hc.
  pose proof (quotient_nonneg (s * r) t Up ltac:(unfold amount64 in *; nia) ltac:(lia)) as Hq.
  unfold amount64 in *. cbn [quotient] in *. assert ((s * r + t - 1) / t <= m) by nia.
  destruct (Z.leb_spec ((s * r + t - 1) / t) i64_max); [|lia]. eexists. split; [done|]. lia.
Qed.

Lemma apply_deposit_spec P a b s (HP : pool_ok P) (Ha : amount64 a) (Hb : amount64 b) (Hs : amount64 s) :
  let P' := MkPool (reserve_a P + a) (reserve_b P + b) (total_pool_shares P + s) in
  (apply_deposit P a b s = Ok P' /\
    amount64 (reserve_a P') /\ amount64 (reserve_b P') /\ amount64 (total_pool_shares P')) \/
  apply_deposit P a b s = Err DepPoolFull.
Proof.
  destruct HP as (? & ? & ? & _). unfold amount64, apply_deposit in *. cbn [reserve_a reserve_b total_pool_shares].
  destruct (Z.ltb_spec (i64_max - reserve_a P) a), (Z.ltb_spec (i64_max - reserve_b P) b),
    (Z.ltb_spec (i64_max - total_pool_shares P) s); cbn [orb]; try (by right). left.
  unfold add_pool_reserve, add_pool_shares, add_checked_i64, checked_add.
  rewrite !checked_i64_in by (unfold is_i64, i64_min; lia). cbn [ok_or result_bind].
  repeat match goal with |- context [?x <? 0] => destruct (Z.ltb_spec x 0); [lia|] end.
  cbn [map_err result_bind]. split; [done|]. lia.
Qed.

Lemma deposit_outcome op P aa ab lim (HP : pool_ok P) (Hop : deposit_op_ok op) (Hm : deposit_malformed op = false) :
  exists o,
    (if total_pool_shares P =? 0 then
       deposit_into_empty_pool (max_amount_a op) (max_amount_b op) aa ab lim (min_price op) (max_price op)
     else
       deposit_into_non_empty_pool (max_amount_a op) (max_amount_b op) aa ab lim
         (reserve_a P) (reserve_b P) (total_pool_shares P) (min_price op) (max_price op)) = Some o /\
    match o with
    | Success a b s =>
        fair_deposit op P a b s /\ amount64 s /\ a <= aa /\ b <= ab /\ s <= lim /\
        price_between (min_price op) (max_price op) a b
    | _ => True
    end.
Proof.
  destruct HP as (Hra & Hrb & Ht & Hroot & _), Hop as (Hma & Hmb & Hlo & Hhi).
  unfold deposit_malformed in Hm. repeat (apply orb_false_iff in Hm as [Hm ?]). rewrite ?Z.leb_gt in *.
  assert (amount64 (max_amount_a op) /\ amount64 (max_amount_b op)) as [Ha Hb]
    by (unfold amount64, is_i64 in *; lia).
  unfold fair_deposit. destruct (Z.eqb_spec (total_pool_shares P) 0) as [Hz|Hz].
  - unfold deposit_into_empty_pool.
    destruct (Z.ltb_spec aa (max_amount_a op)), (Z.ltb_spec ab (max_amount_b op)); cbn [orb];
      try (eexists; split; [reflexivity|exact I]).
    destruct (is_bad_price _ _ _ _) eqn:Hbad; [eexists; split; [reflexivity|exact I]|]. apply is_bad_price_spec in Hbad; [|done..].
    destruct (big_square_root_spec _ _ Ha Hb) as (s & -> & Hs & Hsq). simpl.
    destruct (Z.ltb_spec lim s); [eexists; split; [reflexivity|exact I]|]. eexists. split; [done|].
    unfold amount64 in *. repeat split; try lia; try apply Hbad.
    symmetry. apply Z.sqrt_unique. lia.
  - assert (0 < total_pool_shares P <= i64_max) as Ht' by (unfold amount64 in Ht; lia).
    assert (0 < reserve_a P <= i64_max /\ 0 < reserve_b P <= i64_max) as [Hra' Hrb'] by (unfold amount64 in *; nia).
    destruct (pool_shares_spec _ _ _ _ _ Ht' Hra' Hrb' Ha Hb Hroot) as (sa & sb & s & Hsa & Hsb & Hs & Hs' & Hla & Hlb).
    unfold deposit_into_non_empty_pool. rewrite Hsa. cbn [mbind option_bind]. rewrite Hsb. cbn [mbind option_bind].
    rewrite Hs. cbn [mbind option_bind].
    destruct (amount_for_shares s (reserve_a P) _ _ Hs' Hra Ht' Ha Hla) as (a & -> & Ha1 & Ha2). cbn [mbind option_bind].
    destruct (amount_for_shares s (reserve_b P) _ _ Hs' Hrb Ht' Hb Hlb) as (b & -> & Hb1 & Hb2). cbn [mbind option_bind].
    destruct (Z.ltb_spec aa a), (Z.ltb_spec ab b); cbn [orb];
      try (eexists; split; [reflexivity|exact I]).
    destruct (is_bad_price _ _ _ _) eqn:Hbad; [eexists; split; [reflexivity|exact I]|].
    apply is_bad_price_spec in Hbad; [|unfold amount64 in *; lia..|done|done].
    destruct (Z.ltb_spec lim s); [eexists; split; [reflexivity|exact I]|]. eexists. split; [done|].
    unfold amount64 in *. repeat split; try lia; apply Hbad.
Qed.

(** C37: a deposit into a well-formed pool never panics and never fails internally;
    when it succeeds it takes at most the maxima of the operation and what the
    account has, at a rate within the two prices, and mints the integer square
    root of the product for an empty pool and otherwise as many shares as keep
    their value, each amount rounded up. *)
Theorem pool_deposit_correct op aa ab lim P (HP : pool_ok P) (Hop : deposit_op_ok op) :
  exists r, pool_deposit op aa ab lim P = Some r /\
    match r with
    | Ok P' =>
        exists a b s, P' = MkPool (reserve_a P + a) (reserve_b P + b) (total_pool_shares P + s) /\
          fair_deposit op P a b s /\ a <= aa /\ b <= ab /\ s <= lim /\
          price_between (min_price op) (max_price op) a b
    | Err e => e <> DepInternal
    end.
Proof.
  unfold pool_deposit. destruct (deposit_malformed op) eqn:Hm; [by eexists|].
  destruct (deposit_outcome op P aa ab lim HP Hop Hm) as (o & -> & Ho). cbn [mbind option_bind].
  eexists. split; [done|]. destruct o as [a b s| | |]; [|done..].
  destruct Ho as (Hf & Hs & ? & ? & ? & ?). destruct Hop as (? & ? & _).
  assert (amount64 a /\ amount64 b) as [Ha Hb] by (destruct Hf as (? & ? & _); unfold amount64, is_i64 in *; lia).
  destruct (apply_deposit_spec P a b s HP Ha Hb Hs) as [[-> _]| ->]; [|done]. by exists a, b, s.
Qed.

Lemma pool_deposit_correct_witness :
  let op := MkDeposit 50 7 (MkPrice 1 1) (MkPrice 9 1) in
  let P := MkPool 1000 200 400 in
  pool_deposit op 60 60 60 P = Some (Ok (MkPool 1035 207 414)) /\
  exists r, pool_deposit op 60 60 60 P = Some r /\ (forall e, r = Err e -> e <> DepInternal).
Proof.
  intros op P. split; [reflexivity|].
  destruct (pool_deposit_correct op 60 60 60 P) as (r & Hr & H);
    [vm_compute; repeat split; discriminate..|].
  exists r. split; [exact Hr|]. intros e ->. exact H.
Defined.

(** ** Steps of a pool *)

(** What happens to a pool: a deposit, a withdrawal or a path payment through it,
    of any operation and account, when it succeeds. *)
Inductive pool_step (P P' : LiquidityPool) : Prop :=
| StepDeposit op aa ab lim (Hop : deposit_op_ok op) (Hr : pool_deposit op aa ab lim P = Some (Ok P'))
| StepWithdraw op shares ca cb (Hop : is_i64 (wd_amount op))
    (Hr : pool_withdraw op shares ca cb P = Some (Ok P'))
| StepSwap dir max_send max_recv round to from (Hs : amount64 max_send) (Hm : amount64 max_recv)
    (Hc : compute_pool_exchange dir P max_send max_recv round = Ok (Some (to, from)))
    (Hr : apply_pool_exchange dir P to from = Some P').

(** A pool is created empty. *)
Definition empty_pool : LiquidityPool := MkPool 0 0 0.
Definition pool_reachable (P : LiquidityPool) : Prop := rtc pool_step empty_pool P.

(** The product of the reserves per share squared did not drop. *)
Definition keeps_share_value (P P' : LiquidityPool) : Prop :=
  reserve_a P * reserve_b P * (total_pool_shares P' * total_pool_shares P') <=
  reserve_a P' * reserve_b P' * (total_pool_shares P * total_pool_shares P).

Lemma share_value_of x y t x' y' t' :
  0 <= x -> 0 <= y -> 0 <= t -> 0 <= t' -> 0 <= x' -> 0 <= y' ->
  x * t' <= x' * t -> y * t' <= y' * t -> x * y * (t' * t') <= x' * y' * (t * t).
Proof.
  intros. replace (x * y * (t' * t')) with (x * t' * (y * t')) by lia.
  replace (x' * y' * (t * t)) with (x' * t * (y' * t)) by lia. apply Z.mul_le_mono_nonneg; nia.
Qed.

(** From the value per share to the bound on the shares. *)
Lemma share_bound x y t x' y' t' :
  0 < t -> 0 <= x' * y' -> t * t <= x * y -> x * y * (t' * t') <= x' * y' * (t * t) -> t' * t' <= x' * y'.
Proof. intros. assert (0 < t * t) by nia. assert (t * t * (t' * t') <= x * y * (t' * t')) by nia. nia. Qed.

Lemma deposit_step op aa ab lim P P' (HP : pool_ok P) (Hop : deposit_op_ok op)
    (Hr : pool_deposit op aa ab lim P = Some (Ok P')) :
  pool_ok P' /\ keeps_share_value P P'.
Proof.
  unfold pool_deposit in Hr. destruct (deposit_malformed op) eqn:Hm; [done|].
  destruct (deposit_outcome op P aa ab lim HP Hop Hm) as (o & Ho & Hok). rewrite Ho in Hr.
  cbn [mbind option_bind] in Hr. destruct o as [a b s| | |]; simplify_eq.
  destruct Hok as (Hf & Hs & _ & _ & _ & Hpr). pose proof Hop as (? & ? & _).
  assert (amount64 a /\ amount64 b) as [Ha Hb] by (destruct Hf as (? & ? & _); unfold amount64, is_i64 in *; lia).
  destruct (apply_deposit_spec P a b s HP Ha Hb Hs) as [(He & H1 & H2 & H3)|He]; rewrite He in Hr; [|done].
  simplify_eq. destruct HP as (Hra & Hrb & Ht & Hroot & Hempty). destruct Hf as (_ & _ & _ & Hf).
  unfold keeps_share_value, pool_ok. cbn [reserve_a reserve_b total_pool_shares] in *. unfold amount64 in *.
  destruct (Z.eqb_spec (total_pool_shares P) 0) as [Hz|Hz].
  - destruct (Hempty Hz) as [Ea Eb]. rewrite Hz, Ea, Eb. split; [|lia].
    assert (0 <= a * b) as Hab by nia. pose proof (Z.sqrt_spec (a * b) Hab) as Hsq. cbv zeta in Hsq.
    subst s. set (s := Z.sqrt (a * b)) in *. clearbody s. destruct Hpr as (? & ? & _).
    assert (1 <= a * b) by nia. assert (s <> 0) by (intros ->; lia). repeat split; lia.
  - assert (reserve_a P * reserve_b P * ((total_pool_shares P + s) * (total_pool_shares P + s)) <=
      (reserve_a P + a) * (reserve_b P + b) * (total_pool_shares P * total_pool_shares P)) as Hv
      by (apply share_value_of; lia).
    split; [|done]. repeat split; try lia. eapply share_bound; [| |exact Hroot|exact Hv]; nia.
Qed.

Lemma withdraw_step op shares ca cb P P' (HP : pool_ok P) (Hop : is_i64 (wd_amount op))
    (Hr : pool_withdraw op shares ca cb P = Some (Ok P')) :
  exists a b, P' = MkPool (reserve_a P - a) (reserve_b P - b) (total_pool_shares P - wd_amount op) /\
    0 < wd_amount op <= total_pool_shares P /\
    a = wd_amount op * reserve_a P / total_pool_shares P /\ 0 <= a <= reserve_a P /\
    b = wd_amount op * reserve_b P / total_pool_shares P /\ 0 <= b <= reserve_b P.
Proof.
  destruct HP as (Hra & Hrb & Ht & Hroot & Hempty). unfold pool_withdraw in Hr.
  destruct (Z.leb_spec (wd_amount op) 0); [done|]. destruct (_ || _); [done|].
  destruct (shares <? wd_amount op); [done|]. unfold get_pool_withdrawal_amount in Hr.
  destruct (Z.leb_spec (total_pool_shares P) 0).
  { unfold pool_big_divide in Hr. destruct (Z.leb_spec (total_pool_shares P) 0); [done|lia]. }
  assert (amount64 (wd_amount op)) as Hk by (unfold amount64, is_i64 in *; lia).
  rewrite !pool_big_divide_spec in Hr by (done || unfold amount64 in *; lia). cbn [mbind option_bind quotient] in Hr.
  set (qa := wd_amount op * reserve_a P / total_pool_shares P) in Hr.
  set (wa := if qa <=? i64_max then qa else 0) in Hr.
  set (qb := wd_amount op * reserve_b P / total_pool_shares P) in Hr.
  set (wb := if qb <=? i64_max then qb else 0) in Hr.
  destruct (wa <? _); [done|]. destruct (negb _); [done|]. destruct (wb <? _); [done|]. destruct (negb _); [done|].
  assert (wd_amount op <= total_pool_shares P /\
    P' = MkPool (reserve_a P - wa) (reserve_b P - wb) (total_pool_shares P - wd_amount op)) as [Hle ->].
  { clear -Hr Ht Hk. unfold add_pool_reserve, add_pool_shares, add_checked_i64, checked_add in Hr.
    repeat (match type of Hr with context [checked_i64 ?x] =>
      let E := fresh "E" in destruct (checked_i64 x) as [|] eqn:E; cbn [ok_or map_err result_bind] in Hr;
      [apply checked_i64_some in E as [-> _]|done] end;
      match type of Hr with context [?x <? 0] => destruct (Z.ltb_spec x 0); [done|] end;
      cbn [ok_or map_err result_bind] in Hr).
    simplify_eq. split; [lia|]. f_equal; lia. }
  assert (forall r, amount64 r ->
    (if wd_amount op * r / total_pool_shares P <=? i64_max then wd_amount op * r / total_pool_shares P else 0) =
      wd_amount op * r / total_pool_shares P /\ 0 <= wd_amount op * r / total_pool_shares P <= r) as Hw.
  { intros r Hr'. unfold amount64 in *.
    pose proof (floor_spec (wd_amount op * r) (total_pool_shares P) ltac:(lia)).
    assert (0 <= wd_amount op * r / total_pool_shares P) by (apply Z.div_pos; nia).
    assert (wd_amount op * r / total_pool_shares P <= r) by nia.
    destruct (Z.leb_spec (wd_amount op * r / total_pool_shares P) i64_max); [done|lia]. }
  destruct (Hw _ Hra) as [Ea ?], (Hw _ Hrb) as [Eb ?]. fold qa in Ea; fold qb in Eb; fold wa in Ea; fold wb in Eb.
  exists wa, wb. split; [done|]. fold qa qb. rewrite Ea, Eb. subst qa qb. repeat split; lia.
Qed.

Lemma withdraw_keeps op shares ca cb P P' (HP : pool_ok P) (Hop : is_i64 (wd_amount op))
    (Hr : pool_withdraw op shares ca cb P = Some (Ok P')) :
  pool_ok P' /\ keeps_share_value P P'.
Proof.
  destruct (withdraw_step _ _ _ _ _ _ HP Hop Hr) as (a & b & -> & Hk & Ea & Ha & Eb & Hb).
  destruct HP as (Hra & Hrb & Ht & Hroot & Hempty). unfold amount64 in *.
  pose proof (floor_spec (wd_amount op * reserve_a P) (total_pool_shares P) ltac:(lia)) as Hfa.
  pose proof (floor_spec (wd_amount op * reserve_b P) (total_pool_shares P) ltac:(lia)) as Hfb.
  rewrite <- Ea in Hfa. rewrite <- Eb in Hfb.
  assert (keeps_share_value P (MkPool (reserve_a P - a) (reserve_b P - b) (total_pool_shares P - wd_amount op))) as Hv
    by (unfold keeps_share_value; cbn [reserve_a reserve_b total_pool_shares]; apply share_value_of; lia).
  split; [|done]. unfold keeps_share_value, pool_ok, amount64 in *. cbn [reserve_a reserve_b total_pool_shares] in *.
  repeat split; try lia; try nia.
  eapply share_bound; [| |exact Hroot|exact Hv]; nia.
Qed.

(** What a path payment does to the two reserves, [rt] that of the asset it sends. *)
Lemma swap_step dir P max_send max_recv round to from P'
    (HP : pool_ok P) (Hs : amount64 max_send) (Hm : amount64 max_recv)
    (Hc : compute_pool_exchange dir P max_send max_recv round = Ok (Some (to, from)))
    (Hr : apply_pool_exchange dir P to from = Some P') :
  pool_ok P' /\ total_pool_shares P' = total_pool_shares P /\
  reserve_a P * reserve_b P <= reserve_a P' * reserve_b P'.
Proof.
  destruct HP as (Hra & Hrb & Ht & Hroot & Hempty). unfold compute_pool_exchange in Hc.
  destruct (Z.leb_spec (reserve_a P) 0), (Z.leb_spec (reserve_b P) 0); try done. cbn [orb] in Hc.
  set (rt := match dir with SendA => reserve_a P | SendB => reserve_b P end).
  set (rf := match dir with SendA => reserve_b P | SendB => reserve_a P end).
  assert (0 < rt <= i64_max /\ 0 < rf <= i64_max) as [Hrt Hrf] by (unfold amount64 in *; destruct dir; subst rt rf; lia).
  assert (rt * rf = reserve_a P * reserve_b P) as Hp by (destruct dir; subst rt rf; lia).
  assert (exchange_with_pool rt max_send rf max_recv LIQUIDITY_POOL_FEE_V18 round = Ok (Some (to, from))) as He
    by (by destruct dir).
  assert (0 <= to <= i64_max - rt /\ 0 <= from < rf /\ rt * rf <= (rt + to) * (rf - from)) as (Hto & Hfrom & Hprod).
  { pose proof (exchange_with_pool_open _ _ _ _ _ _ _ He) as Hopen. destruct round; [done|subst..].
    - destruct (exchange_with_pool_send rt rf Hrt Hrf max_send Hs) as [Heq ?]. rewrite Heq in He.
      destruct (Z.ltb_spec (i64_max - rt) max_send); [done|]. cbn [orb] in He.
      destruct (given rt rf max_send =? 0); [done|]. injection He as <- <-.
      unfold amount64 in *. split; [lia|]. split; [lia|]. apply given_product; lia.
    - destruct (exchange_with_pool_receive rt rf Hrt Hrf max_recv Hm) as [Heq ?]. rewrite Heq in He.
      destruct (Z.leb_spec rf max_recv); [done|]. cbn [orb] in He.
      destruct (Z.ltb_spec (i64_max - rt) (asked rt rf max_recv)); [done|]. injection He as <- <-.
      unfold amount64 in *. split; [lia|]. split; [lia|]. apply asked_product; lia. }
  assert (total_pool_shares P' = total_pool_shares P /\
    match dir with
    | SendA => reserve_a P' = rt + to /\ reserve_b P' = rf - from
    | SendB => reserve_b P' = rt + to /\ reserve_a P' = rf - from
    end) as [Ht' HP'].
  { unfold apply_pool_exchange, checked_add, checked_sub in Hr.
    destruct dir; subst rt rf; rewrite !checked_i64_in in Hr by (unfold is_i64, i64_min, i64_max in *; lia);
      cbn [mbind option_bind] in Hr; simplify_eq; done. }
  split; [|split; [done|destruct dir; destruct HP' as [-> ->]; lia]].
  unfold pool_ok, amount64 in *. rewrite Ht'.
  destruct dir; destruct HP' as [-> ->]; repeat split; lia.
Qed.

Lemma pool_step_ok P P' : pool_ok P -> pool_step P P' -> pool_ok P' /\ keeps_share_value P P'.
Proof.
  intros HP [op aa ab lim Hop Hr|op sh ca cb Hop Hr|dir ms mr rd to from Hs Hm Hc Hr].
  - by eapply deposit_step.
  - by eapply withdraw_keeps.
  - destruct (swap_step _ _ _ _ _ _ _ _ HP Hs Hm Hc Hr) as (HP' & Ht & Hp). split; [done|].
    unfold keeps_share_value. rewrite Ht. nia.
Qed.

Lemma pool_reachable_ok P : pool_reachable P -> pool_ok P.
Proof.
  apply (rtc_ind_r pool_ok); [by vm_compute|]. intros P1 P2 _ Hstep HP. by apply (pool_step_ok P1).
Qed.

(** C36: whatever sequence of deposits, withdrawals and path payments a pool goes
    through, its reserves and shares stay amounts, the square of the shares stays
    within the product of the reserves, nothing is left in a pool without shares,
    and no operation lowers what a share is worth. *)
Theorem pool_share_value_never_drops P P' (HP : pool_reachable P) (Hstep : pool_step P P') :
  pool_ok P /\ pool_ok P' /\ keeps_share_value P P'.
Proof.
  pose proof (pool_reachable_ok P HP) as Hok. split; [done|]. by apply pool_step_ok.
Qed.

Definition test_deposit : LiquidityPoolDepositOp := MkDeposit 1000 90 (MkPrice 1 1) (MkPrice 20 1).
Definition test_pool : LiquidityPool := MkPool 1000 90 300.

Lemma test_pool_reachable : pool_reachable test_pool.
Proof.
  apply rtc_once. refine (StepDeposit _ _ test_deposit 2000 2000 2000 _ _); [|reflexivity].
  vm_compute. repeat split; discriminate.
Defined.

Lemma pool_share_value_never_drops_witness :
  compute_pool_exchange SendA test_pool 100 i64_max PathPaymentStrictSend = Ok (Some (100, 8)) /\
  keeps_share_value test_pool (MkPool 1100 82 300).
Proof.
  split; [reflexivity|].
  refine (proj2 (proj2 (pool_share_value_never_drops test_pool (MkPool 1100 82 300) test_pool_reachable _))).
  refine (StepSwap _ _ SendA 100 i64_max PathPaymentStrictSend 100 8 _ _ _ _);
    [vm_compute; repeat split; discriminate..|reflexivity|reflexivity].
Defined.

(** The reserves of the asset sent and of the asset received. *)
Definition reserves_for (dir : Direction) (P : LiquidityPool) : Z * Z :=
  match dir with SendA => (reserve_a P, reserve_b P) | SendB => (reserve_b P, reserve_a P) end.

(** C38: through a pool with reserves, a path payment that fixes what it sends gets
    the largest amount that keeps the product of the reserves at the fee, and one
    that fixes what it receives pays the least; there is no exchange exactly when
    nothing would be received, more than the reserve is asked for or the other
    reserve would exceed an amount; the 128-bit intermediate values never
    overflow, and applying the exchange never fails. *)
Theorem pool_exchange_correct dir P x (HP : pool_ok P) (Hx : amount64 x)
    (Ha : 0 < reserve_a P) (Hb : 0 < reserve_b P) :
  let '(rt, rf) := reserves_for dir P in
  let sent := (MAX_BPS - LIQUIDITY_POOL_FEE_V18) * (rf * x) / (MAX_BPS * rt + (MAX_BPS - LIQUIDITY_POOL_FEE_V18) * x) in
  let due := quotient (MAX_BPS * (rt * x)) ((rf - x) * (MAX_BPS - LIQUIDITY_POOL_FEE_V18)) Up in
  compute_pool_exchange dir P x i64_max PathPaymentStrictSend =
    (if (i64_max - rt <? x) || (sent =? 0) then Ok None else Ok (Some (x, sent))) /\
  compute_pool_exchange dir P i64_max x PathPaymentStrictReceive =
    (if (rf <=? x) || (i64_max - rt <? due) then Ok None else Ok (Some (due, x))) /\
  (x <= i64_max - rt ->
     exists P', apply_pool_exchange dir P x sent = Some P' /\ reserves_for dir P' = (rt + x, rf - sent)) /\
  (x < rf -> due <= i64_max - rt ->
     exists P', apply_pool_exchange dir P due x = Some P' /\ reserves_for dir P' = (rt + due, rf - x)).
Proof.
  destruct (reserves_for dir P) as [rt rf] eqn:Hres. intros sent due.
  destruct HP as (Hra & Hrb & _). unfold amount64 in Hra, Hrb.
  assert (0 < rt <= i64_max /\ 0 < rf <= i64_max) as [Hrt Hrf] by (destruct dir; simplify_eq/=; lia).
  destruct (exchange_with_pool_send rt rf Hrt Hrf x Hx) as [Hsend Hsent].
  destruct (exchange_with_pool_receive rt rf Hrt Hrf x Hx) as [Hrecv Hdue].
  change (given rt rf x) with sent in Hsend, Hsent. change (asked rt rf x) with due in Hrecv, Hdue.
  assert (forall ms mr round, compute_pool_exchange dir P ms mr round =
    exchange_with_pool rt ms rf mr LIQUIDITY_POOL_FEE_V18 round) as Hc.
  { intros. unfold compute_pool_exchange. destruct (Z.leb_spec (reserve_a P) 0), (Z.leb_spec (reserve_b P) 0); try lia.
    cbn [orb]. by destruct dir; simplify_eq/=. }
  assert (forall to from, 0 <= to <= i64_max - rt -> 0 <= from <= rf ->
    exists P', apply_pool_exchange dir P to from = Some P' /\ reserves_for dir P' = (rt + to, rf - from)) as Happ.
  { intros to from ??. unfold apply_pool_exchange, checked_add, checked_sub. unfold amount64, i64_max in *.
    destruct dir; simpl in Hres; injection Hres as <- <-;
      rewrite !checked_i64_in by (unfold is_i64, i64_min, i64_max; lia); eexists; by split. }
  unfold amount64 in Hx. rewrite !Hc, Hsend, Hrecv. split; [done|]. split; [done|].
  clearbody sent due. split; intros; apply Happ; lia.
Qed.

Lemma pool_exchange_correct_witness :
  compute_pool_exchange SendB test_pool 9 i64_max PathPaymentStrictSend = Ok (Some (9, 90)) /\
  exists P', apply_pool_exchange SendB test_pool 9 90 = Some P' /\ reserves_for SendB P' = (90 + 9, 1000 - 90).
Proof.
  split; [reflexivity|].
  assert (pool_ok test_pool /\ amount64 9) as [H1 H2] by (vm_compute; repeat split; discriminate).
  exact (proj1 (proj2 (proj2 (pool_exchange_correct SendB test_pool 9 H1 H2 eq_refl eq_refl))) ltac:(vm_compute; discriminate)).
Defined.

(** The shares a deposit minted can be redeemed at once for no more than was
    deposited, and a holder of shares can always redeem them: for its part of
    either reserve, rounded down. *)
Theorem deposit_withdraw_no_gain op aa ab lim P P' lo_a lo_b held
    (HP : pool_ok P) (Hop : deposit_op_ok op) (Hd : pool_deposit op aa ab lim P = Some (Ok P')) :
  let k := total_pool_shares P' - total_pool_shares P in
  let out_a := k * reserve_a P' / total_pool_shares P' in
  let out_b := k * reserve_b P' / total_pool_shares P' in
  0 <= out_a <= reserve_a P' - reserve_a P /\ 0 <= out_b <= reserve_b P' - reserve_b P /\
  (0 < k <= held -> 0 <= lo_a <= out_a -> 0 <= lo_b <= out_b ->
   pool_withdraw (MkWithdraw k lo_a lo_b) held (fun _ => true) (fun _ => true) P' =
     Some (Ok (MkPool (reserve_a P' - out_a) (reserve_b P' - out_b) (total_pool_shares P)))).
Proof.
  pose proof (deposit_step _ _ _ _ _ _ HP Hop Hd) as [HP' _]. unfold pool_deposit in Hd.
  destruct (deposit_malformed op) eqn:Hm; [done|].
  destruct (deposit_outcome op P aa ab lim HP Hop Hm) as (o & Ho & Hok). rewrite Ho in Hd.
  cbn [mbind option_bind] in Hd. destruct o as [a b s| | |]; simplify_eq.
  destruct Hok as (Hf & Hs & _ & _ & _ & Hpr). pose proof Hop as (? & ? & _).
  assert (amount64 a /\ amount64 b) as [Ha Hb] by (destruct Hf as (? & ? & _); unfold amount64, is_i64 in *; lia).
  destruct (apply_deposit_spec P a b s HP Ha Hb Hs) as [[He _]|He]; rewrite He in Hd; [|done].
  injection Hd as <-. unfold pool_ok in HP'. cbn [reserve_a reserve_b total_pool_shares] in *.
  destruct HP as (Hra & Hrb & Ht & Hroot & Hempty), HP' as (Hra' & Hrb' & Ht' & Hroot' & Hempty').
  destruct Hf as (_ & _ & _ & Hf), Hpr as (Ha0 & Hb0 & _). unfold amount64 in *.
  replace (total_pool_shares P + s - total_pool_shares P) with s by lia.
  assert (0 < total_pool_shares P + s) as Hpos by (destruct (decide (total_pool_shares P + s = 0)); [lia|lia]).
  assert (forall r x, 0 <= r -> 0 <= x -> s * r <= x * total_pool_shares P ->
    0 <= s * (r + x) / (total_pool_shares P + s) <= x) as Hshare.
  { intros r x ???. split; [apply Z.div_pos; nia|].
    pose proof (floor_spec (s * (r + x)) (total_pool_shares P + s) Hpos). nia. }
  assert (s * reserve_a P <= a * total_pool_shares P /\ s * reserve_b P <= b * total_pool_shares P) as [Hsa Hsb].
  { destruct (Z.eqb_spec (total_pool_shares P) 0) as [Hz|]; [|lia]. destruct (Hempty Hz) as [-> ->]. lia. }
  pose proof (Hshare (reserve_a P) a ltac:(lia) ltac:(lia) Hsa) as Hoa.
  pose proof (Hshare (reserve_b P) b ltac:(lia) ltac:(lia) Hsb) as Hob.
  split; [lia|]. split; [lia|]. intros Hk Hla Hlb.
  unfold pool_withdraw. cbn [wd_amount min_amount_a min_amount_b reserve_a reserve_b total_pool_shares].
  destruct (Z.leb_spec s 0), (Z.ltb_spec lo_a 0), (Z.ltb_spec lo_b 0), (Z.ltb_spec held s); try lia. cbn [orb].
  unfold get_pool_withdrawal_amount. rewrite !pool_big_divide_spec by (unfold amount64; lia).
  cbn [quotient mbind option_bind negb].
  set (oa := s * (reserve_a P + a) / _) in *. set (ob := s * (reserve_b P + b) / _) in *. clearbody oa ob.
  destruct (Z.leb_spec oa i64_max), (Z.leb_spec ob i64_max); try lia.
  destruct (Z.ltb_spec oa lo_a), (Z.ltb_spec ob lo_b); try lia.
  unfold add_pool_reserve, add_pool_shares, add_checked_i64, checked_add.
  rewrite !checked_i64_in by (unfold is_i64, i64_min; lia). cbn [ok_or result_bind].
  repeat match goal with |- context [?x <? 0] => destruct (Z.ltb_spec x 0); [lia|] end.
  cbn [map_err result_bind]. do 3 f_equal; lia.
Qed.

Lemma deposit_withdraw_no_gain_witness :
  let op := MkDeposit 500 90 (MkPrice 1 1) (MkPrice 20 1) in
  let P' := MkPool 1500 135 450 in
  pool_deposit op 2000 2000 2000 test_pool = Some (Ok P') /\
  pool_withdraw (MkWithdraw 150 500 45) 200 (fun _ => true) (fun _ => true) P' = Some (Ok test_pool).
Proof.
  intros op P'. assert (pool_deposit op 2000 2000 2000 test_pool = Some (Ok P')) as Hd by reflexivity.
  split; [exact Hd|].
  assert (pool_ok test_pool /\ deposit_op_ok op) as [H1 H2] by (vm_compute; repeat split; discriminate).
  refine (proj2 (proj2 (deposit_withdraw_no_gain op 2000 2000 2000 test_pool P' 500 45 200 H1 H2 Hd)) _ _ _);
    vm_compute; repeat split; discriminate.
Defined.
