(* ===== verification/Bucket.v ===== *)
(** * Bucket: sorted buckets of ledger entries and their merge (bucket/src/entry.rs, bucket.rs, merge.rs)

    A bucket is a sorted file of entries: live entries, entries created within the
    merge window (init), tombstones, and at most one metadata entry in front.
    Merging lets the entries of the newer bucket shadow those of the older one.

    The ledger keys and entries are XDR types of the crate stellar_xdr; what the
    buckets need of them is the class [LedgerTypes]. Hashes, files and indexes are
    left out: of a hash the model keeps whether it is zero, which is what
    [is_empty] asks, of the index that it finds the entry with a key. The metrics
    counters and reading errors are left out. *)

From S2P Require Import Prelude.

Class LedgerTypes := {
  LedgerKey : Type;
  LedgerEntry : Type;
  ledger_key_eq_dec :: EqDecision LedgerKey;
  (** [henyey_common::entry_to_key]. *)
  entry_to_key : LedgerEntry -> LedgerKey;
  (** The derived [Ord] of [LedgerKey]. *)
  compare_keys : LedgerKey -> LedgerKey -> comparison;
  compare_keys_lawful :: LawfulCompare compare_keys
}.

(** [BucketError]: merges, corrupt input, wrong numbers of hashes, a loaded bucket
    with another hash; a panic is kept as an error of its own. *)
Inductive BucketError := MergeFailed | Corruption | Serialization | HashMismatch | BucketPanic.

Definition V11 : Z := 11.
Definition V12 : Z := 12.
Definition V23 : Z := 23.
Definition protocol_version_starts_from (version from : Z) : bool := from <=? version.

Inductive DeadEntryPolicy := KeepDead | RemoveDead.
Definition should_keep (p : DeadEntryPolicy) : bool := match p with KeepDead => true | RemoveDead => false end.

Inductive InitEntryPolicy := Preserve | NormalizeToLive.
Definition should_normalize (p : InitEntryPolicy) : bool :=
  match p with NormalizeToLive => true | Preserve => false end.

Inductive MetadataPolicy := InputDerived | CurrentProtocol.

(** [BucketMetadata]: [ext] is [true] for [V1(Live)] and [false] for [V0]. *)
Record BucketMetadata := MkMeta { ledger_version : Z; ext : bool }.

Section bucket.
Context `{LedgerTypes}.

(** ** Entries *)

Inductive BucketEntry :=
| Liveentry (e : LedgerEntry)
| Initentry (e : LedgerEntry)
| Deadentry (k : LedgerKey)
| Metaentry (m : BucketMetadata).

Definition key (b : BucketEntry) : option LedgerKey :=
  match b with
  | Liveentry e | Initentry e => Some (entry_to_key e)
  | Deadentry k => Some k
  | Metaentry _ => None
  end.
Definition is_metadata (b : BucketEntry) : bool := match b with Metaentry _ => true | _ => false end.
Definition is_dead (b : BucketEntry) : bool := match b with Deadentry _ => true | _ => false end.
Definition is_init (b : BucketEntry) : bool := match b with Initentry _ => true | _ => false end.

Definition compare_entries (a b : BucketEntry) : comparison :=
  match key a, key b with
  | Some ka, Some kb => compare_keys ka kb
  | None, Some _ => Lt
  | Some _, None => Gt
  | None, None => Eq
  end.

Fixpoint assert_sorted_no_duplicates (entries : list BucketEntry) : result unit BucketError :=
  match entries with
  | a :: ((b :: _) as rest) =>
      if bool_decide (compare_entries a b = Lt) then assert_sorted_no_duplicates rest else Err MergeFailed
  | _ => Ok tt
  end.

(** [StreamingSortedValidator]. *)
Record StreamingSortedValidator := MkValidator {
  prev_key : option LedgerKey;
  seen_keyed : bool;
  seen_metadata : bool
}.
Definition validator_new : StreamingSortedValidator := MkValidator None false false.

Definition validate_key (v : StreamingSortedValidator) (k : option LedgerKey)
    : result StreamingSortedValidator BucketError :=
  match k with
  | Some k =>
      if map_or false (fun prev => negb (bool_decide (compare_keys prev k = Lt))) (prev_key v)
      then Err Corruption
      else Ok (MkValidator (Some k) true (seen_metadata v))
  | None =>
      if seen_keyed v then Err Corruption
      else if seen_metadata v then Err Corruption
      else Ok (MkValidator (prev_key v) (seen_keyed v) true)
  end.
Definition validate (v : StreamingSortedValidator) (b : BucketEntry) : result StreamingSortedValidator BucketError :=
  validate_key v (key b).

(** ** Buckets *)

(** [zero_hash]: the hash is [Hash256::ZERO], that of buckets that were never
    hashed; [in_memory]: the bucket has entries for the merge of level 0. *)
Record Bucket := MkBucket {
  entries : list BucketEntry;
  zero_hash : bool;
  in_memory : bool
}.

Definition Bucket_empty : Bucket := MkBucket [] true true.

Definition is_empty (b : Bucket) : bool :=
  if zero_hash b then true else bool_decide (length (entries b) = 0%nat).

Definition from_sorted_entries (es : list BucketEntry) : result Bucket BucketError :=
  let? _ := assert_sorted_no_duplicates es in Ok (MkBucket es false false).

Definition from_sorted_entries_with_in_memory (es : list BucketEntry) : result Bucket BucketError :=
  let? _ := assert_sorted_no_duplicates es in Ok (MkBucket es false true).

Definition from_parts (es : list BucketEntry) : result Bucket BucketError :=
  let? _ := try_fold validate es validator_new in Ok (MkBucket es false true).

Definition fresh_in_memory_only (es : list BucketEntry) : result Bucket BucketError :=
  let? _ := assert_sorted_no_duplicates es in Ok (MkBucket es true true).

Definition clear_in_memory_entries (b : Bucket) : Bucket := MkBucket (entries b) (zero_hash b) false.

(** [get_in_memory_entries] skips the metadata in front. *)
Fixpoint skip_metadata (es : list BucketEntry) : list BucketEntry :=
  match es with
  | Metaentry _ :: es => skip_metadata es
  | _ => es
  end.
Definition get_in_memory_entries (b : Bucket) : option (list BucketEntry) :=
  if in_memory b then Some (skip_metadata (entries b)) else None.

(** The index of a bucket finds the entry with a key. *)
Fixpoint find_entry (es : list BucketEntry) (k : LedgerKey) : option BucketEntry :=
  match es with
  | [] => None
  | e :: es => if bool_decide (key e = Some k) then Some e else find_entry es k
  end.
Definition bucket_get (b : Bucket) (k : LedgerKey) : option BucketEntry := find_entry (entries b) k.

(** ** Merging two entries *)

Definition should_keep_entry (e : BucketEntry) (keep : DeadEntryPolicy) : bool :=
  match e with Deadentry _ => should_keep keep | _ => true end.
Definition normalize_entry (e : BucketEntry) : BucketEntry :=
  match e with Initentry e => Liveentry e | other => other end.
Definition maybe_normalize_entry (e : BucketEntry) (normalize : InitEntryPolicy) : BucketEntry :=
  if should_normalize normalize then normalize_entry e else e.

(** [Err BucketPanic] is the panic on malformed buckets. *)
Definition merge_entries (old new : BucketEntry) (keep : DeadEntryPolicy)
    : result (option BucketEntry) BucketError :=
  match old, new with
  | Initentry _, Deadentry _ => Ok None
  | Deadentry _, Initentry e => Ok (Some (Liveentry e))
  | Initentry _, Liveentry e => Ok (Some (Initentry e))
  | Liveentry _, Liveentry e => Ok (Some (Liveentry e))
  | Deadentry _, Liveentry e => Ok (Some (Liveentry e))
  | _, Initentry _ => Err BucketPanic
  | Liveentry _, Deadentry k => Ok (if should_keep keep then Some (Deadentry k) else None)
  | Deadentry _, Deadentry k => Ok (if should_keep keep then Some (Deadentry k) else None)
  | Metaentry _, _ | _, Metaentry _ => Ok None
  end.

(** ** The merge loop *)

Definition emit_old (e : BucketEntry) (keep : DeadEntryPolicy) (out : list BucketEntry) : list BucketEntry :=
  if should_keep_entry e keep then e :: out else out.
Definition emit_new (e : BucketEntry) (keep : DeadEntryPolicy) (normalize : InitEntryPolicy)
    (out : list BucketEntry) : list BucketEntry :=
  if should_keep_entry e keep then maybe_normalize_entry e normalize :: out else out.

(** The loop of [two_pointer_merge] on the entries that are not metadata; the
    callback [emit] gets the entries of the result in this order. *)
Fixpoint merge_loop (keep : DeadEntryPolicy) (normalize : InitEntryPolicy) (old : list BucketEntry)
    : list BucketEntry -> result (list BucketEntry) BucketError :=
  match old with
  | [] =>
      fix drain new :=
        match new with
        | [] => Ok []
        | n :: new => let? out := drain new in Ok (emit_new n keep normalize out)
        end
  | o :: old' =>
      fix inner new :=
        match new with
        | [] => let? out := merge_loop keep normalize old' [] in Ok (emit_old o keep out)
        | n :: new' =>
            match key o, key n with
            | Some ok, Some nk =>
                match compare_keys ok nk with
                | Lt => let? out := merge_loop keep normalize old' new in Ok (emit_old o keep out)
                | Gt => let? out := inner new' in Ok (emit_new n keep normalize out)
                | Eq =>
                    let? merged := merge_entries o n keep in
                    let? out := merge_loop keep normalize old' new' in
                    Ok (match merged with Some e => e :: out | None => out end)
                end
            | None, Some _ => merge_loop keep normalize old' new
            | Some _, None => inner new'
            | None, None => merge_loop keep normalize old' new'
            end
        end
  end.

Definition not_metadata (es : list BucketEntry) : list BucketEntry :=
  List.filter (fun e => negb (is_metadata e)) es.

Definition two_pointer_merge (old new : list BucketEntry) (keep : DeadEntryPolicy) (normalize : InitEntryPolicy)
    : result (list BucketEntry) BucketError :=
  merge_loop keep normalize (not_metadata old) (not_metadata new).

(** ** Metadata of the output *)

Definition metadata_entry (version : Z) : option BucketEntry :=
  if protocol_version_starts_from version V11
  then Some (Metaentry (MkMeta version (protocol_version_starts_from version V23)))
  else None.

Definition build_output_metadata (old_meta new_meta : option BucketMetadata) (max_protocol_version : Z)
    (policy : MetadataPolicy) : result (option BucketEntry) BucketError :=
  let? protocol_version :=
    match policy with
    | InputDerived =>
        let version := Z.max (Z.max 0 (map_or 0 ledger_version old_meta)) (map_or 0 ledger_version new_meta) in
        if (0 <? max_protocol_version) && (max_protocol_version <? version) then Err MergeFailed
        else Ok version
    | CurrentProtocol => Ok max_protocol_version
    end in
  Ok (metadata_entry protocol_version).

(** [advance_skip_metadata]: the last metadata in front, the first entry after it. *)
Fixpoint advance_skip_metadata (meta : option BucketMetadata) (es : list BucketEntry)
    : option BucketMetadata * list BucketEntry :=
  match es with
  | Metaentry m :: es => advance_skip_metadata (Some m) es
  | _ => (meta, es)
  end.

(** ** Shadows *)

(** A cursor is what is left of a shadow bucket. *)
Fixpoint advance_to_key_or_after (cursor : list BucketEntry) (k : LedgerKey) : bool * list BucketEntry :=
  match cursor with
  | [] => (false, [])
  | e :: rest =>
      match key e with
      | None => advance_to_key_or_after rest k
      | Some ek =>
          match compare_keys ek k with
          | Lt => advance_to_key_or_after rest k
          | Eq => (true, cursor)
          | Gt => (false, cursor)
          end
      end
  end.

Fixpoint any_shadows (k : LedgerKey) (cursors : list (list BucketEntry)) : bool * list (list BucketEntry) :=
  match cursors with
  | [] => (false, [])
  | c :: cs =>
      let '(found, c) := advance_to_key_or_after c k in
      if found then (true, c :: cs)
      else let '(found, cs) := any_shadows k cs in (found, c :: cs)
  end.
Definition is_shadowed (e : BucketEntry) (cursors : list (list BucketEntry)) : bool * list (list BucketEntry) :=
  match key e with None => (false, cursors) | Some k => any_shadows k cursors end.

Definition maybe_put (keep_lifecycle : bool) (st : list BucketEntry * list (list BucketEntry)) (e : BucketEntry)
    : list BucketEntry * list (list BucketEntry) :=
  let '(merged, cursors) := st in
  if bool_decide (length cursors = 0%nat) then (merged ++ [e], cursors)
  else if keep_lifecycle && (is_init e || is_dead e) then (merged ++ [e], cursors)
  else
    let '(shadowed, cursors) := is_shadowed e cursors in
    (if shadowed then merged else merged ++ [e], cursors).

(** ** Merging two buckets *)

Record MergeOptions := MkOptions {
  keep_dead_entries : DeadEntryPolicy;
  max_protocol_version : Z;
  normalize_init_entries : InitEntryPolicy;
  shadow_buckets : list Bucket;
  metadata_policy : MetadataPolicy
}.

Definition merge_with_shadows_impl (old_bucket new_bucket : Bucket) (shadows : list Bucket)
    (keep_lifecycle : bool) (opts : MergeOptions) : result Bucket BucketError :=
  if is_empty new_bucket && is_empty old_bucket then Ok Bucket_empty
  else
    let '(old_meta, old_rest) := advance_skip_metadata None (entries old_bucket) in
    let '(new_meta, new_rest) := advance_skip_metadata None (entries new_bucket) in
    let? output_meta := build_output_metadata old_meta new_meta (max_protocol_version opts) (metadata_policy opts) in
    let? emitted := two_pointer_merge old_rest new_rest (keep_dead_entries opts) (normalize_init_entries opts) in
    let cursors := map (fun b => not_metadata (entries b)) shadows in
    let start := match output_meta with Some m => [m] | None => [] end in
    let merged := (fold_left (maybe_put keep_lifecycle) emitted (start, cursors)).1 in
    match merged with
    | [] => match output_meta with Some m => from_sorted_entries [m] | None => Ok Bucket_empty end
    | _ => from_sorted_entries merged
    end.

Definition merge_buckets (old_bucket new_bucket : Bucket) (opts : MergeOptions) : result Bucket BucketError :=
  let effective_shadows :=
    if bool_decide (length (shadow_buckets opts) = 0%nat)
       || protocol_version_starts_from (max_protocol_version opts) V12
    then [] else shadow_buckets opts in
  let keep_shadowed_lifecycle_entries :=
    negb (bool_decide (length effective_shadows = 0%nat))
    && protocol_version_starts_from (max_protocol_version opts) V11 in
  merge_with_shadows_impl old_bucket new_bucket effective_shadows keep_shadowed_lifecycle_entries opts.

(** What [merge_buckets_to_file] writes; no entries at all make the empty bucket,
    as its callers do. *)
Definition merge_buckets_to_file (old_bucket new_bucket : Bucket) (opts : MergeOptions)
    : result (list BucketEntry) BucketError :=
  if is_empty new_bucket && is_empty old_bucket then Ok []
  else
    let '(old_meta, old_rest) := advance_skip_metadata None (entries old_bucket) in
    let '(new_meta, new_rest) := advance_skip_metadata None (entries new_bucket) in
    let? output_meta := build_output_metadata old_meta new_meta (max_protocol_version opts) (metadata_policy opts) in
    let? emitted := two_pointer_merge old_rest new_rest (keep_dead_entries opts) (normalize_init_entries opts) in
    Ok (match output_meta with Some m => m :: emitted | None => emitted end).

Definition merge_in_memory (old_bucket new_bucket : Bucket) (max_protocol_version : Z) : result Bucket BucketError :=
  match get_in_memory_entries old_bucket, get_in_memory_entries new_bucket with
  | Some old_entries, Some new_entries =>
      let? emitted := two_pointer_merge old_entries new_entries KeepDead Preserve in
      let all_entries :=
        match metadata_entry max_protocol_version with Some m => m :: emitted | None => emitted end in
      match all_entries with
      | [] => Ok Bucket_empty
      | _ => from_parts all_entries
      end
  | _, _ => Err BucketPanic
  end.

(** [merge_multiple]: the first bucket is the oldest. *)
Definition merge_multiple (buckets : list Bucket) (keep : DeadEntryPolicy) (max_protocol_version : Z)
    : result Bucket BucketError :=
  match buckets with
  | [] => Ok Bucket_empty
  | b :: bs =>
      try_fold (fun result bucket =>
        merge_buckets result bucket (MkOptions keep max_protocol_version NormalizeToLive [] InputDerived)) bs b
  end.
End bucket.
