(* ===== verification/BucketMerge.v ===== *)
(** * BucketMerge: what merging two buckets means

    A bucket read over older ones maps keys to entries ([over]). The theorems say
    that the merge of two buckets exists, is sorted, holds for every key what the
    rules of CAP-0020 give for it, and read over the buckets beneath shows the
    same entries as the two buckets it replaces. *)

From S2P Require Import Prelude Bucket.

Section merge.
Context `{LedgerTypes}.

(** ** Sorted entries *)

(** Every key of [es] is greater than [k]. *)
Definition above (k : LedgerKey) (es : list BucketEntry) : Prop :=
  Forall (fun e => exists k', key e = Some k' /\ compare_keys k k' = Lt) es.

(** The entries all have keys, strictly ascending. *)
Fixpoint keyed (es : list BucketEntry) : Prop :=
  match es with
  | [] => True
  | e :: es => (exists k, key e = Some k /\ above k es) /\ keyed es
  end.

(** A bucket file: at most one metadata entry, then the keyed entries. *)
Definition wf_entries (es : list BucketEntry) : Prop :=
  exists meta es', es = meta ++ es' /\ keyed es' /\ (meta = [] \/ exists m, meta = [Metaentry m]).

Lemma above_weaken k k' es : compare_keys k k' = Lt -> above k' es -> above k es.
Proof.
  intros Hlt Ha. eapply Forall_impl; [exact Ha|]. intros e (k2 & Hk & Hlt'). exists k2. split; [done|].
  by eapply (compare_lt_trans compare_keys).
Qed.

Lemma above_find k es : above k es -> find_entry es k = None.
Proof.
  induction 1 as [|e es (k' & Hk & Hlt) _ IH]; [done|]. simpl.
  case_bool_decide as E; [|done]. rewrite Hk in E. injection E as ->. by rewrite (compare_refl compare_keys) in Hlt.
Qed.

Lemma above_find_less k k' es : above k es -> compare_keys k' k = Lt -> find_entry es k' = None.
Proof. intros Ha Hlt. apply above_find. by eapply above_weaken. Qed.

Lemma find_entry_key es k e : find_entry es k = Some e -> key e = Some k.
Proof.
  induction es as [|x es IH]; [done|]. simpl. case_bool_decide; [|done]. by intros [= <-].
Qed.

Lemma find_entry_head e es k : key e = Some k -> find_entry (e :: es) k = Some e.
Proof. intros Hk. simpl. by rewrite bool_decide_eq_true_2. Qed.

Lemma find_entry_tail e es k k' : key e = Some k' -> k <> k' -> find_entry (e :: es) k = find_entry es k.
Proof. intros Hk Hne. simpl. case_bool_decide as E; [|done]. rewrite Hk in E. by injection E as ->. Qed.

Lemma keyed_not_metadata es : keyed es -> not_metadata es = es.
Proof.
  induction es as [|e es IH]; [done|]. intros [(k & Hk & _) Hes]. simpl.
  destruct e; simpl in *; [by rewrite IH..|done].
Qed.

Lemma wf_entries_parts es :
  wf_entries es ->
  exists meta, keyed (not_metadata es) /\
    advance_skip_metadata None es = (meta, not_metadata es) /\
    skip_metadata es = not_metadata es /\
    es = match meta with Some m => [Metaentry m] | None => [] end ++ not_metadata es.
Proof.
  intros (ms & es' & -> & Hk & Hm). pose proof (keyed_not_metadata _ Hk) as Hn.
  assert (forall m, advance_skip_metadata m es' = (m, es') /\ skip_metadata es' = es') as Hskip.
  { intros m. destruct es' as [|e es']; [done|]. destruct Hk as [(k & He & _) _]. by destruct e. }
  destruct Hm as [-> | [m ->]]; simpl.
  - exists None. rewrite Hn. destruct (Hskip None) as [-> ->]. done.
  - exists (Some m). rewrite Hn. destruct (Hskip (Some m)) as [-> ->]. done.
Qed.

Lemma find_not_metadata es k : find_entry (not_metadata es) k = find_entry es k.
Proof.
  induction es as [|e es IH]; [done|]. destruct e; simpl; try (by rewrite IH).
Qed.

(** The two run-time checks accept exactly the files this order allows. *)
Lemma sorted_check_keyed es : keyed es -> assert_sorted_no_duplicates es = Ok tt.
Proof.
  induction es as [|a es IH]; [done|]. intros [(k & Hk & Ha) Hes]. specialize (IH Hes).
  destruct es as [|b es]; [done|]. cbn [assert_sorted_no_duplicates].
  rewrite bool_decide_eq_true_2; [done|]. unfold compare_entries. rewrite Hk.
  inversion Ha as [|? ? (k' & Hb & Hlt) _]; subst. by rewrite Hb.
Qed.

Lemma wf_sorted_check es : wf_entries es -> assert_sorted_no_duplicates es = Ok tt.
Proof.
  intros (ms & es' & -> & Hk & [-> | [m ->]]); [by apply sorted_check_keyed|]. simpl.
  pose proof (sorted_check_keyed es' Hk) as He. destruct es' as [|e es']; [done|].
  rewrite bool_decide_eq_true_2; [done|]. destruct Hk as [(k & He' & _) _].
  unfold compare_entries. by rewrite He'.
Qed.

Lemma validate_keyed es v :
  keyed es -> (forall k, prev_key v = Some k -> above k es) -> is_ok (try_fold validate es v) = true.
Proof.
  revert v. induction es as [|e es IH]; [done|]. intros v [(k & Hk & Ha) Hes] Hprev. simpl.
  unfold validate, validate_key. rewrite Hk.
  assert (map_or false (fun prev => negb (bool_decide (compare_keys prev k = Lt))) (prev_key v) = false) as ->.
  { destruct (prev_key v) as [p|]; [|done]. simpl. specialize (Hprev p eq_refl).
    inversion Hprev as [|? ? (k' & Hk' & Hlt) _]; subst. rewrite Hk in Hk'. injection Hk' as <-.
    by rewrite bool_decide_eq_true_2. }
  apply IH; [done|]. by intros ? [= <-].
Qed.

Lemma wf_from_parts es : wf_entries es -> from_parts es = Ok (MkBucket es false true).
Proof.
  intros (ms & es' & -> & Hk & Hm). unfold from_parts.
  assert (is_ok (try_fold validate (ms ++ es') validator_new) = true) as Hok.
  { destruct Hm as [-> | [m ->]]; simpl; by apply validate_keyed. }
  by destruct (try_fold validate (ms ++ es') validator_new).
Qed.

(** ** The merge loop *)

Context (keep : DeadEntryPolicy) (normalize : InitEntryPolicy).

(** What the merge holds for a key, from what the two buckets hold for it. *)
Definition combined (o n : option BucketEntry) : option BucketEntry :=
  match o, n with
  | Some o, Some n => match merge_entries o n keep with Ok r => r | Err _ => None end
  | Some o, None => if should_keep_entry o keep then Some o else None
  | None, Some n => if should_keep_entry n keep then Some (maybe_normalize_entry n normalize) else None
  | None, None => None
  end.

(** No entry is created that the older bucket already has. *)
Definition compatible (old new : list BucketEntry) : Prop :=
  forall k o n, find_entry old k = Some o -> find_entry new k = Some n -> is_ok (merge_entries o n keep) = true.

Lemma normalize_key e : key (maybe_normalize_entry e normalize) = key e.
Proof. unfold maybe_normalize_entry. by destruct (should_normalize normalize), e. Qed.

Lemma merge_entries_key o n e : merge_entries o n keep = Ok (Some e) -> key e = key n.
Proof. destruct o, n; simpl; try done; try (by intros [= <-]); destruct (should_keep keep); by intros [= <-]. Qed.

Lemma compatible_tails o old n new ok nk :
  key o = Some ok -> key n = Some nk -> above ok old -> above nk new ->
  compatible (o :: old) (n :: new) ->
  (compare_keys ok nk = Lt -> compatible old (n :: new)) /\
  (compare_keys ok nk = Gt -> compatible (o :: old) new) /\
  (compare_keys ok nk = Eq -> compatible old new).
Proof.
  intros Ho Hn Hao Han Hc.
  assert (forall k e, find_entry old k = Some e -> k <> ok) as Hold.
  { intros k e He ->. by rewrite above_find in He. }
  assert (forall k e, find_entry new k = Some e -> k <> nk) as Hnew.
  { intros k e He ->. by rewrite above_find in He. }
  repeat split; intros Hcmp k x y Hx Hy; apply (Hc k x y); try done.
  - rewrite (find_entry_tail o old k ok); eauto.
  - rewrite (find_entry_tail n new k nk); eauto.
  - rewrite (find_entry_tail o old k ok); eauto.
  - rewrite (find_entry_tail n new k nk); eauto.
Qed.

(** The result of the loop. *)
Definition merged_as (old new out : list BucketEntry) : Prop :=
  keyed out /\ (forall k, above k old -> above k new -> above k out) /\
  forall k, find_entry out k = combined (find_entry old k) (find_entry new k).

(** One entry [e] for the key [k], which is below all that is left, is put in front
    of the rest of the result, or dropped. *)
Lemma merged_cons k r old new old' new' out :
  merged_as old new out -> above k old -> above k new ->
  (forall e, r = Some e -> key e = Some k) ->
  combined (find_entry old' k) (find_entry new' k) = r ->
  (forall k', k' <> k -> find_entry old' k' = find_entry old k' /\ find_entry new' k' = find_entry new k') ->
  (forall k', above k' old' -> above k' new' -> compare_keys k' k = Lt /\ above k' old /\ above k' new) ->
  merged_as old' new' (match r with Some e => e :: out | None => out end).
Proof.
  intros (Hk & Ha & Hf) Hao Han Hr Hc Ht Hab.
  assert (above k out) as Hout by by apply Ha.
  destruct r as [e|].
  - specialize (Hr e eq_refl). split; [simpl; eauto|]. split.
    + intros k' H1 H2. destruct (Hab k' H1 H2) as (? & ? & ?). constructor; [eauto|]. by apply Ha.
    + intros k'. destruct (decide (k' = k)) as [->|Hne].
      * by rewrite find_entry_head.
      * rewrite (find_entry_tail e out k' k) by done. destruct (Ht k' Hne) as [-> ->]. apply Hf.
  - split; [done|]. split.
    + intros k' H1 H2. destruct (Hab k' H1 H2) as (? & ? & ?). by apply Ha.
    + intros k'. destruct (decide (k' = k)) as [->|Hne].
      * rewrite Hc. by apply above_find.
      * destruct (Ht k' Hne) as [-> ->]. apply Hf.
Qed.

Lemma above_cons_inv k e es ke : key e = Some ke -> above k (e :: es) -> compare_keys k ke = Lt /\ above k es.
Proof. intros He Ha. inversion Ha as [|? ? (k' & Hk' & ?) ?]; subst. rewrite He in Hk'. by injection Hk' as <-. Qed.

Lemma emit_old_option e out :
  emit_old e keep out = match combined (Some e) None with Some e => e :: out | None => out end.
Proof. unfold emit_old. simpl. by destruct (should_keep_entry e keep). Qed.

Lemma emit_new_option e out :
  emit_new e keep normalize out = match combined None (Some e) with Some e => e :: out | None => out end.
Proof. unfold emit_new. simpl. by destruct (should_keep_entry e keep). Qed.

Lemma combined_key o n e k :
  (forall x, o = Some x -> key x = Some k) -> (forall x, n = Some x -> key x = Some k) ->
  combined o n = Some e -> key e = Some k.
Proof.
  intros Ho Hn. destruct o as [o|], n as [n|]; simpl; try done.
  - destruct (merge_entries o n keep) as [r|] eqn:E; [|done]. intros ->.
    rewrite (merge_entries_key _ _ _ E). by apply Hn.
  - destruct (should_keep_entry o keep); [|done]. intros [= <-]. by apply Ho.
  - destruct (should_keep_entry n keep); [|done]. intros [= <-]. rewrite normalize_key. by apply Hn.
Qed.

(** The three steps of the loop. *)
Lemma merged_old o ok old new out :
  key o = Some ok -> above ok old -> above ok new -> merged_as old new out ->
  merged_as (o :: old) new (emit_old o keep out).
Proof.
  intros Ho Hao Han Hm. rewrite emit_old_option. apply (merged_cons ok _ old new); try done.
  - intros e. apply combined_key; [by intros ? [= <-]|done].
  - rewrite (find_entry_head o old ok Ho), (above_find ok new Han). done.
  - intros k' Hne. by rewrite (find_entry_tail o old k' ok).
  - intros k' H1 H2. by destruct (above_cons_inv k' o old ok Ho H1).
Qed.

Lemma merged_new n nk old new out :
  key n = Some nk -> above nk old -> above nk new -> merged_as old new out ->
  merged_as old (n :: new) (emit_new n keep normalize out).
Proof.
  intros Hn Hao Han Hm. rewrite emit_new_option. apply (merged_cons nk _ old new); try done.
  - intros e. apply combined_key; [done|by intros ? [= <-]].
  - rewrite (find_entry_head n new nk Hn), (above_find nk old Hao). done.
  - intros k' Hne. by rewrite (find_entry_tail n new k' nk).
  - intros k' H1 H2. by destruct (above_cons_inv k' n new nk Hn H2).
Qed.

Lemma merged_both o n k old new out r :
  key o = Some k -> key n = Some k -> above k old -> above k new -> merged_as old new out ->
  merge_entries o n keep = Ok r ->
  merged_as (o :: old) (n :: new) (match r with Some e => e :: out | None => out end).
Proof.
  intros Ho Hn Hao Han Hm Hr. apply (merged_cons k _ old new); try done.
  - intros e ->. by rewrite (merge_entries_key _ _ _ Hr).
  - rewrite (find_entry_head o old k Ho), (find_entry_head n new k Hn). simpl. by rewrite Hr.
  - intros k' Hne. by rewrite (find_entry_tail o old k' k), (find_entry_tail n new k' k).
  - intros k' H1 H2. destruct (above_cons_inv k' o old k Ho H1). by destruct (above_cons_inv k' n new k Hn H2).
Qed.

Lemma merge_loop_both o n ok nk old new :
  key o = Some ok -> key n = Some nk ->
  merge_loop keep normalize (o :: old) (n :: new) =
    match compare_keys ok nk with
    | Lt => let? out := merge_loop keep normalize old (n :: new) in Ok (emit_old o keep out)
    | Gt => let? out := merge_loop keep normalize (o :: old) new in Ok (emit_new n keep normalize out)
    | Eq =>
        let? merged := merge_entries o n keep in
        let? out := merge_loop keep normalize old new in
        Ok (match merged with Some e => e :: out | None => out end)
    end.
Proof. intros Ho Hn. cbn [merge_loop]. rewrite Hn. destruct (key o) as [?|] eqn:E; [|done]. by injection Ho as ->. Qed.

Lemma merge_loop_spec old new :
  keyed old -> keyed new -> compatible old new ->
  exists out, merge_loop keep normalize old new = Ok out /\ merged_as old new out.
Proof.
  revert new. induction old as [|o old IHold]; intros new Hold Hnew Hc.
  - clear Hold. induction new as [|n new IH]; [by exists []|].
    destruct Hnew as [(nk & Hn & Ha) Hnew].
    destruct IH as (out & Hout & Hm); [done|done|]. simpl in *. rewrite Hout. cbn [result_bind].
    eexists. split; [done|]. apply (merged_new n nk); try done. constructor.
  - destruct Hold as [(ok & Ho & Hao) Hold]. induction new as [|n new IHnew].
    + destruct (IHold [] Hold I) as (out & Hout & Hm); [done|]. simpl. rewrite Hout. cbn [result_bind].
      eexists. split; [done|]. apply (merged_old o ok); try done. constructor.
    + pose proof Hnew as [(nk & Hn & Han) Hnew'].
      destruct (compatible_tails o old n new ok nk Ho Hn Hao Han Hc) as (Hlt & Hgt & Heq).
      rewrite (merge_loop_both o n ok nk) by done. destruct (compare_keys ok nk) eqn:Hcmp.
      * apply (compare_eq compare_keys) in Hcmp as <-.
        destruct (IHold new Hold Hnew' (Heq eq_refl)) as (out & Hout & Hm).
        specialize (Hc ok o n (find_entry_head _ _ _ Ho) (find_entry_head _ _ _ Hn)).
        destruct (merge_entries o n keep) as [r|] eqn:Hr; [|done]. cbn [result_bind]. rewrite Hout. cbn [result_bind].
        eexists. split; [done|]. by apply (merged_both o n ok).
      * destruct (IHold (n :: new) Hold Hnew (Hlt eq_refl)) as (out & Hout & Hm). rewrite Hout. cbn [result_bind].
        eexists. split; [done|]. apply (merged_old o ok); try done.
        constructor; [by exists nk|]. by eapply above_weaken.
      * destruct (IHnew Hnew' (Hgt eq_refl)) as (out & Hout & Hm).
        rewrite Hout. cbn [result_bind].
        eexists. split; [done|]. apply (merged_new n nk); try done.
        apply (compare_gt_lt compare_keys) in Hcmp. constructor; [by exists ok|]. by eapply above_weaken.
Qed.
End merge.

Section buckets.
Context `{LedgerTypes}.

(** ** Reading a bucket over older ones *)

(** The ledger as a map from keys to entries. *)
Definition ledger : Type := LedgerKey -> option LedgerEntry.

Definition over (es : list BucketEntry) (m : ledger) : ledger := fun k =>
  match find_entry es k with
  | Some (Liveentry e) | Some (Initentry e) => Some e
  | Some (Deadentry _) => None
  | Some (Metaentry _) | None => m k
  end.

(** Init entries are for keys that do not exist beneath. *)
Definition fresh (es : list BucketEntry) (m : ledger) : Prop :=
  forall k e, find_entry es k = Some (Initentry e) -> m k = None.

(** A tombstone may only be dropped where there is nothing beneath. *)
Definition may_drop (keep : DeadEntryPolicy) (m : ledger) : Prop :=
  keep = KeepDead \/ forall k, m k = None.

(** A bucket of the list: sorted, and hashed unless it has no entries. *)
Definition wf_bucket (b : Bucket) : Prop :=
  wf_entries (entries b) /\ (zero_hash b = true -> entries b = []).

(** The version of the metadata in front. *)
Definition version_of (es : list BucketEntry) : Z := map_or 0 ledger_version (advance_skip_metadata None es).1.

Lemma over_ext es m m' k : m k = m' k -> over es m k = over es m' k.
Proof. unfold over. by intros ->. Qed.

Lemma over_nil m : over [] m = m.
Proof. done. Qed.

Lemma over_not_metadata es m k : over (not_metadata es) m k = over es m k.
Proof. unfold over. by rewrite find_not_metadata. Qed.

Lemma find_keyed_not_meta es k m : find_entry es k <> Some (Metaentry m).
Proof. intros Hf. by apply find_entry_key in Hf. Qed.

Lemma fresh_compatible old new m keep : fresh new (over old m) -> compatible keep old new.
Proof.
  intros Hf k o n Ho Hn. destruct n as [e|e|k'|?].
  - by destruct o.
  - specialize (Hf k e Hn). unfold over in Hf. rewrite Ho in Hf.
    destruct o as [?|?|?|?]; try done. by apply find_keyed_not_meta in Ho.
  - destruct o; simpl; by destruct (should_keep keep).
  - by apply find_keyed_not_meta in Hn.
Qed.

Lemma combined_over keep normalize old new out m k :
  may_drop keep m -> fresh old m -> fresh new (over old m) ->
  find_entry out k = combined keep normalize (find_entry old k) (find_entry new k) ->
  over out m k = over new (over old m) k.
Proof.
  intros Hd Hf Hfn Ho. unfold over. rewrite Ho.
  destruct (find_entry old k) as [o|] eqn:Hold, (find_entry new k) as [n|] eqn:Hnew; simpl; [| | |done].
  - pose proof (fresh_compatible old new m keep Hfn k o n Hold Hnew) as Hc.
    assert (forall e, o = Initentry e -> m k = None) as Hm by (intros e ->; eauto).
    assert (keep = RemoveDead -> m k = None) as Hr by (intros ->; destruct Hd as [|Hd]; [done|apply Hd]).
    destruct o as [?|?|?|?], n as [?|?|?|?]; try done; simpl; try (by eapply Hm);
      try (by apply find_keyed_not_meta in Hold); try (by apply find_keyed_not_meta in Hnew);
      destruct keep; simpl; eauto.
  - destruct o as [?|?|?|?]; simpl; try done.
    destruct keep; simpl; [done|]. destruct Hd as [|Hd]; [done|apply Hd].
  - assert (maybe_normalize_entry n normalize = n \/ exists e, n = Initentry e /\
      maybe_normalize_entry n normalize = Liveentry e) as Hn.
    { unfold maybe_normalize_entry. destruct (should_normalize normalize), n; simpl; eauto. }
    destruct (should_keep_entry n keep) eqn:Hk; [by destruct Hn as [-> | (e & -> & ->)]|].
    destruct n as [?|?|?|?]; try done. destruct keep; [done|].
    destruct Hd as [|Hd]; [done|apply Hd].
Qed.

Lemma combined_fresh keep normalize old new out m :
  fresh old m -> fresh new (over old m) ->
  (forall k, find_entry out k = combined keep normalize (find_entry old k) (find_entry new k)) ->
  fresh out m.
Proof.
  intros Hfo Hfn Ho k e Hk. rewrite Ho in Hk.
  destruct (find_entry old k) as [o|] eqn:Hold, (find_entry new k) as [n|] eqn:Hnew; simpl in Hk; try done.
  - destruct o as [?|x|?|?], n as [?|?|?|?]; simpl in Hk; try done; try (by eapply Hfo);
      try (by destruct (should_keep keep)).
  - destruct (should_keep_entry o keep); [|done]. injection Hk as ->. by eapply Hfo.
  - destruct (should_keep_entry n keep); [|done].
    assert (n = Initentry e) as -> by (unfold maybe_normalize_entry in Hk; destruct (should_normalize normalize), n; simpl in Hk; congruence).
    specialize (Hfn k e Hnew). unfold over in Hfn. by rewrite Hold in Hfn.
Qed.

(** ** Merging buckets *)

Lemma two_pointer_merge_spec keep normalize old new m :
  wf_entries old -> wf_entries new -> fresh new (over old m) ->
  exists out, two_pointer_merge old new keep normalize = Ok out /\ keyed out /\
    forall k, find_entry out k = combined keep normalize (find_entry old k) (find_entry new k).
Proof.
  intros Hold Hnew Hf. unfold two_pointer_merge.
  destruct (wf_entries_parts old Hold) as (mo & Hko & _), (wf_entries_parts new Hnew) as (mn & Hkn & _).
  destruct (merge_loop_spec keep normalize (not_metadata old) (not_metadata new)) as (out & -> & Hk & _ & Hfind);
    [done|done| |].
  { intros k o n. rewrite !find_not_metadata. apply (fresh_compatible old new m keep Hf). }
  exists out. split; [done|]. split; [done|]. intros k. rewrite Hfind. by rewrite !find_not_metadata.
Qed.

Lemma metadata_prefix version out :
  keyed out ->
  let es := match metadata_entry version with Some m => m :: out | None => out end in
  wf_entries es /\ (forall k, find_entry es k = find_entry out k) /\
  (0 <= version -> 0 <= version_of es <= version).
Proof.
  intros Hk. unfold metadata_entry.
  assert (forall m, advance_skip_metadata m out = (m, out)) as Hadv.
  { intros m. destruct out as [|e out]; [done|]. destruct Hk as [(k & He & _) _]. by destruct e. }
  destruct (protocol_version_starts_from version V11); simpl.
  - split; [exists [Metaentry (MkMeta version (protocol_version_starts_from version V23))], out; eauto|].
    split; [done|]. unfold version_of. simpl. rewrite Hadv. simpl. lia.
  - split; [exists [], out; eauto|]. split; [done|]. unfold version_of. rewrite Hadv. simpl. lia.
Qed.

Lemma maybe_put_no_shadows emitted start b :
  fold_left (maybe_put b) emitted (start, []) = (start ++ emitted, []).
Proof.
  revert start. induction emitted as [|e es IH]; intros start; simpl; [by rewrite app_nil_r|].
  rewrite IH. by rewrite <- app_assoc.
Qed.

(** The result of a merge, as the buckets it came from determine it. *)
Definition merge_of (keep : DeadEntryPolicy) (normalize : InitEntryPolicy) (old new b : Bucket) : Prop :=
  wf_bucket b /\
  forall k, find_entry (entries b) k = combined keep normalize (find_entry (entries old) k) (find_entry (entries new) k).

Lemma merge_of_over keep normalize old new b m :
  merge_of keep normalize old new b -> may_drop keep m ->
  fresh (entries old) m -> fresh (entries new) (over (entries old) m) ->
  (forall k, over (entries b) m k = over (entries new) (over (entries old) m) k) /\ fresh (entries b) m.
Proof.
  intros [_ Hb] Hd Hfo Hfn. split; [|by eapply combined_fresh].
  intros k. by eapply combined_over; eauto.
Qed.

(** Whether the version check of the merge passes. *)
Definition versions_ok (old new : Bucket) (opts : MergeOptions) : Prop :=
  0 <= max_protocol_version opts /\
  (metadata_policy opts = InputDerived ->
   0 <= version_of (entries old) <= max_protocol_version opts /\
   0 <= version_of (entries new) <= max_protocol_version opts).

Lemma output_metadata_spec old new opts mo mn :
  versions_ok old new opts ->
  (advance_skip_metadata None (entries old)).1 = mo -> (advance_skip_metadata None (entries new)).1 = mn ->
  exists v, 0 <= v <= max_protocol_version opts /\
    build_output_metadata mo mn (max_protocol_version opts) (metadata_policy opts) = Ok (metadata_entry v).
Proof.
  intros [Hp Hv] Ho Hn. unfold build_output_metadata, version_of in *.
  destruct (metadata_policy opts).
  - destruct (Hv eq_refl) as [Hvo Hvn]. rewrite Ho in Hvo. rewrite Hn in Hvn.
    exists (Z.max (Z.max 0 (map_or 0 ledger_version mo)) (map_or 0 ledger_version mn)). split; [lia|].
    destruct (Z.ltb_spec (max_protocol_version opts)
      (Z.max (Z.max 0 (map_or 0 ledger_version mo)) (map_or 0 ledger_version mn))); [lia|].
    by rewrite andb_false_r.
  - by exists (max_protocol_version opts).
Qed.

Definition no_shadows (opts : MergeOptions) : Prop :=
  shadow_buckets opts = [] \/ V12 <= max_protocol_version opts.

Lemma merge_buckets_no_shadows old new opts :
  no_shadows opts -> merge_buckets old new opts = merge_with_shadows_impl old new [] false opts.
Proof.
  intros Hs. unfold merge_buckets.
  assert ((if bool_decide (length (shadow_buckets opts) = 0%nat)
     || protocol_version_starts_from (max_protocol_version opts) V12 then [] else shadow_buckets opts) = []) as ->.
  { destruct Hs as [-> | Hv]; [done|]. unfold protocol_version_starts_from.
    destruct (Z.leb_spec V12 (max_protocol_version opts)); [|lia]. by rewrite orb_true_r. }
  done.
Qed.

Lemma empty_merge_of keep normalize old new :
  wf_bucket old -> wf_bucket new -> is_empty new && is_empty old = true ->
  entries old = [] /\ entries new = [] /\ merge_of keep normalize old new Bucket_empty.
Proof.
  intros [_ Ho] [_ Hn] He. apply andb_true_iff in He as [Hen Heo].
  assert (forall b, (zero_hash b = true -> entries b = []) -> is_empty b = true -> entries b = []) as Hnil.
  { intros b Hz. unfold is_empty. destruct (zero_hash b); [by intros _; apply Hz|].
    case_bool_decide as E; [|done]. intros _. by apply length_zero_iff_nil. }
  rewrite (Hnil old Ho Heo), (Hnil new Hn Hen). split; [done|]. split; [done|].
  split; [|intros k; by rewrite (Hnil old Ho Heo), (Hnil new Hn Hen)].
  split; [|done]. exists [], []. split; [done|]. split; [done|]. by left.
Qed.

Lemma not_metadata_idem es : not_metadata (not_metadata es) = not_metadata es.
Proof. unfold not_metadata. induction es as [|e es IH]; simpl; [done|]. destruct e; simpl; by rewrite ?IH. Qed.

Lemma two_pointer_merge_not_metadata old new keep normalize :
  two_pointer_merge (not_metadata old) (not_metadata new) keep normalize = two_pointer_merge old new keep normalize.
Proof. unfold two_pointer_merge. by rewrite !not_metadata_idem. Qed.

(** For buckets that are not both empty the order of the entries is all that is needed. *)
Lemma merge_buckets_sorted old new opts m :
  wf_entries (entries old) -> wf_entries (entries new) -> is_empty new && is_empty old = false ->
  no_shadows opts -> versions_ok old new opts -> fresh (entries new) (over (entries old) m) ->
  exists b, merge_buckets old new opts = Ok b /\
    merge_of (keep_dead_entries opts) (normalize_init_entries opts) old new b /\
    0 <= version_of (entries b) <= max_protocol_version opts.
Proof.
  intros Hwo Hwn He Hs Hv Hf. rewrite merge_buckets_no_shadows by done. unfold merge_with_shadows_impl. rewrite He.
  destruct (wf_entries_parts _ Hwo) as (mo & _ & Hmo & _ & _), (wf_entries_parts _ Hwn) as (mn & _ & Hmn & _ & _).
  destruct (output_metadata_spec old new opts mo mn Hv) as (v & Hvb & Hmeta); [by rewrite Hmo|by rewrite Hmn|].
  rewrite Hmo, Hmn, Hmeta, two_pointer_merge_not_metadata. cbn [result_bind map].
  destruct (two_pointer_merge_spec (keep_dead_entries opts) (normalize_init_entries opts) _ _ m Hwo Hwn Hf)
    as (out & -> & Hk & Hfind). cbn [result_bind]. rewrite maybe_put_no_shadows. cbn [fst].
  destruct (metadata_prefix v out Hk) as (Hwf & Hfind' & Hver). cbv zeta in Hwf, Hfind', Hver.
  replace (match metadata_entry v with Some m => [m] | None => [] end ++ out)
    with (match metadata_entry v with Some m => m :: out | None => out end) by (by destruct (metadata_entry v)).
  set (es := match metadata_entry v with Some m => m :: out | None => out end) in *.
  assert (from_sorted_entries es = Ok (MkBucket es false false)) as Hes
    by (unfold from_sorted_entries; by rewrite wf_sorted_check).
  assert (merge_of (keep_dead_entries opts) (normalize_init_entries opts) old new (MkBucket es false false)) as Hm.
  { split; [by split|]. intros k. simpl. by rewrite Hfind'. }
  destruct es as [|e es'] eqn:Ees.
  - destruct (metadata_entry v); [done|]. exists Bucket_empty. split; [done|].
    split; [split; [by split|apply Hm]|]. simpl. lia.
  - exists (MkBucket (e :: es') false false). split; [done|]. split; [done|]. simpl. lia.
Qed.

Lemma merge_buckets_spec old new opts m :
  wf_bucket old -> wf_bucket new -> no_shadows opts -> versions_ok old new opts ->
  fresh (entries new) (over (entries old) m) ->
  exists b, merge_buckets old new opts = Ok b /\
    merge_of (keep_dead_entries opts) (normalize_init_entries opts) old new b /\
    0 <= version_of (entries b) <= max_protocol_version opts.
Proof.
  intros Hwo Hwn Hs Hv Hf. destruct (is_empty new && is_empty old) eqn:He.
  - rewrite merge_buckets_no_shadows by done. unfold merge_with_shadows_impl. rewrite He.
    destruct (empty_merge_of (keep_dead_entries opts) (normalize_init_entries opts) old new Hwo Hwn He) as (_ & _ & Hm).
    exists Bucket_empty. split; [done|]. split; [done|]. destruct Hv. unfold version_of. simpl. lia.
  - destruct Hwo, Hwn. by apply (merge_buckets_sorted _ _ _ m).
Qed.

Lemma merge_in_memory_spec old new P m :
  wf_entries (entries old) -> wf_entries (entries new) -> in_memory old = true -> in_memory new = true -> 0 <= P ->
  fresh (entries new) (over (entries old) m) ->
  exists b, merge_in_memory old new P = Ok b /\ in_memory b = true /\
    merge_of KeepDead Preserve old new b /\ 0 <= version_of (entries b) <= P.
Proof.
  intros Hwo Hwn Hmo Hmn HP Hf. unfold merge_in_memory, get_in_memory_entries. rewrite Hmo, Hmn.
  destruct (wf_entries_parts _ Hwo) as (? & _ & _ & -> & _), (wf_entries_parts _ Hwn) as (? & _ & _ & -> & _).
  rewrite two_pointer_merge_not_metadata.
  destruct (two_pointer_merge_spec KeepDead Preserve _ _ m Hwo Hwn Hf) as (out & -> & Hk & Hfind).
  cbn [result_bind]. destruct (metadata_prefix P out Hk) as (Hwf & Hfind' & Hver). cbv zeta in Hwf, Hfind', Hver.
  set (es := match metadata_entry P with Some m => m :: out | None => out end) in *.
  assert (merge_of KeepDead Preserve old new (MkBucket es false true)) as Hm.
  { split; [by split|]. intros k. simpl. by rewrite Hfind'. }
  specialize (Hver HP). destruct es as [|e es'] eqn:Ees.
  - exists Bucket_empty. split; [done|]. split; [done|]. split; [|done]. split; [by split|apply Hm].
  - rewrite wf_from_parts by done. by exists (MkBucket (e :: es') false true).
Qed.

(** ** Sorted entries are determined by what they hold *)

Lemma keyed_ext l1 l2 : keyed l1 -> keyed l2 -> (forall k, find_entry l1 k = find_entry l2 k) -> l1 = l2.
Proof.
  revert l2. induction l1 as [|e1 l1 IH]; intros [|e2 l2] Hk1 Hk2 Hf; [done| | |].
  - destruct Hk2 as [(k & Hk & _) _]. specialize (Hf k). by rewrite (find_entry_head e2 l2 k Hk) in Hf.
  - destruct Hk1 as [(k & Hk & _) _]. specialize (Hf k). by rewrite (find_entry_head e1 l1 k Hk) in Hf.
  - destruct Hk1 as [(k1 & Hk1 & Ha1) Hl1], Hk2 as [(k2 & Hk2 & Ha2) Hl2].
    assert (k1 = k2) as <-.
    { destruct (compare_keys k1 k2) eqn:Hc; [by apply (compare_eq compare_keys)| |].
      - pose proof (Hf k1) as Hf1. rewrite (find_entry_head e1 l1 k1 Hk1) in Hf1.
        rewrite above_find in Hf1; [done|]. constructor; [by exists k2|]. by eapply above_weaken.
      - apply (compare_gt_lt compare_keys) in Hc. pose proof (Hf k2) as Hf2.
        rewrite (find_entry_head e2 l2 k2 Hk2) in Hf2. rewrite above_find in Hf2; [done|].
        constructor; [by exists k1|]. by eapply above_weaken. }
    pose proof (Hf k1) as Hf1. rewrite (find_entry_head e1 l1 k1 Hk1), (find_entry_head e2 l2 k1 Hk2) in Hf1.
    injection Hf1 as ->. f_equal. apply IH; [done..|]. intros k. destruct (decide (k = k1)) as [->|Hne].
    + by rewrite !above_find.
    + specialize (Hf k). by rewrite (find_entry_tail e2 l1 k k1), (find_entry_tail e2 l2 k k1) in Hf.
Qed.

(** The entries of a merged bucket: metadata for the greater version, and the merged
    entries, which [combined] determines. *)
Lemma merge_buckets_entries old new opts m :
  wf_bucket old -> wf_bucket new -> no_shadows opts -> versions_ok old new opts ->
  metadata_policy opts = InputDerived ->
  fresh (entries new) (over (entries old) m) ->
  exists b out, merge_buckets old new opts = Ok b /\ wf_bucket b /\ keyed out /\
    entries b = match metadata_entry (Z.max (version_of (entries old)) (version_of (entries new))) with
                | Some e => e :: out | None => out end /\
    forall k, find_entry out k =
      combined (keep_dead_entries opts) (normalize_init_entries opts) (find_entry (entries old) k) (find_entry (entries new) k).
Proof.
  intros Hwo Hwn Hs Hv Hpol Hf. rewrite merge_buckets_no_shadows by done. unfold merge_with_shadows_impl.
  destruct (is_empty new && is_empty old) eqn:He.
  { destruct (empty_merge_of (keep_dead_entries opts) (normalize_init_entries opts) old new Hwo Hwn He) as (Eo & En & Hm).
    exists Bucket_empty, []. split; [done|]. split; [apply Hm|]. split; [done|]. rewrite Eo, En. split; [done|]. done. }
  destruct Hwo as [Hwo _], Hwn as [Hwn _]. pose proof Hv as [HP Hvers]. specialize (Hvers Hpol).
  unfold build_output_metadata, version_of in *. rewrite Hpol.
  destruct (wf_entries_parts _ Hwo) as (mo & _ & Hmo & _ & _), (wf_entries_parts _ Hwn) as (mn & _ & Hmn & _ & _).
  rewrite Hmo, Hmn in *. cbn [fst] in *. set (v := Z.max (Z.max 0 (map_or 0 ledger_version mo)) (map_or 0 ledger_version mn)).
  assert ((0 <? max_protocol_version opts) && (max_protocol_version opts <? v) = false) as ->.
  { destruct (Z.ltb_spec (max_protocol_version opts) v); [lia|]. by rewrite andb_false_r. }
  replace (Z.max (map_or 0 ledger_version mo) (map_or 0 ledger_version mn)) with v by lia.
  cbn [result_bind]. rewrite two_pointer_merge_not_metadata.
  destruct (two_pointer_merge_spec (keep_dead_entries opts) (normalize_init_entries opts) _ _ m Hwo Hwn Hf)
    as (out & -> & Hk & Hfind). cbn [result_bind map]. rewrite maybe_put_no_shadows. cbn [fst].
  destruct (metadata_prefix v out Hk) as (Hwf & _ & _). cbv zeta in Hwf.
  exists (match match metadata_entry v with Some e => e :: out | None => out end with
          | [] => Bucket_empty | es => MkBucket es false false end), out.
  unfold from_sorted_entries.
  destruct (metadata_entry v) as [e|]; cbn [app].
  - rewrite (wf_sorted_check _ Hwf). cbn [result_bind]. split; [done|]. by split; [by split|].
  - destruct out as [|e es].
    + split; [done|]. split; [|done]. split; [|done]. exists [], []. split; [done|]. split; [done|]. by left.
    + rewrite (wf_sorted_check _ Hwf). cbn [result_bind]. split; [done|]. by split; [by split|].
Qed.

Lemma entries_version out v : keyed out ->
  version_of (match metadata_entry v with Some e => e :: out | None => out end) = if V11 <=? v then v else 0.
Proof.
  intros Hk. assert (forall m, advance_skip_metadata m out = (m, out)) as Hadv.
  { intros m. destruct out as [|e out]; [done|]. destruct Hk as [(k & He & _) _]. by destruct e. }
  unfold metadata_entry, protocol_version_starts_from, version_of.
  destruct (V11 <=? v); simpl; by rewrite Hadv.
Qed.

(** ** Merging is associative *)

(** What a transaction can have done to an entry: created one that did not exist,
    updated or erased one that did. *)
Definition entry_allowed (n : option BucketEntry) (beneath : option LedgerEntry) : Prop :=
  match n with
  | Some (Initentry _) => beneath = None
  | Some (Liveentry _) | Some (Deadentry _) => beneath <> None
  | Some (Metaentry _) => False
  | None => True
  end.

Definition entry_over (n : option BucketEntry) (beneath : option LedgerEntry) : option LedgerEntry :=
  match n with
  | Some (Liveentry e) | Some (Initentry e) => Some e
  | Some (Deadentry _) => None
  | _ => beneath
  end.

Lemma combined_assoc a b c r k :
  (forall x e, x = a \/ x = b \/ x = c -> x = Some e -> key e = Some k) ->
  entry_allowed a r -> entry_allowed b (entry_over a r) -> entry_allowed c (entry_over b (entry_over a r)) ->
  combined KeepDead Preserve (combined KeepDead Preserve a b) c =
  combined KeepDead Preserve a (combined KeepDead Preserve b c).
Proof.
  intros Hk. assert (forall x d, x = a \/ x = b \/ x = c -> x = Some (Deadentry d) -> d = k) as Hd.
  { intros x d Hx E. specialize (Hk x _ Hx E). by injection Hk. }
  destruct a as [[?|?|da|?]|], b as [[?|?|db|?]|], c as [[?|?|dc|?]|]; simpl; intros Ha Hb Hc; try done;
    try (rewrite (Hd _ dc (or_intror (or_intror eq_refl)) eq_refl)); try done.
  by rewrite (Hd _ da (or_introl eq_refl) eq_refl).
Qed.

(** Every entry of a bucket is allowed over what is beneath. *)
Definition strict (es : list BucketEntry) (m : ledger) : Prop := forall k, entry_allowed (find_entry es k) (m k).

Lemma strict_fresh es m : strict es m -> fresh es m.
Proof. intros Hs k e Hk. specialize (Hs k). by rewrite Hk in Hs. Qed.

Lemma over_entry_over es m k : over es m k = entry_over (find_entry es k) (m k).
Proof. unfold over, entry_over. by destruct (find_entry es k) as [[?|?|?|?]|]. Qed.

Definition steady (P : Z) : MergeOptions := MkOptions KeepDead P Preserve [] InputDerived.

Lemma metadata_find out v k : find_entry (match metadata_entry v with Some e => e :: out | None => out end) k = find_entry out k.
Proof. unfold metadata_entry. by destruct (protocol_version_starts_from v V11). Qed.

Lemma versions_ok_steady P a b :
  0 <= P -> 0 <= version_of (entries a) <= P -> 0 <= version_of (entries b) <= P -> versions_ok a b (steady P).
Proof. intros HP Ha Hb. split; [done|]. intros _. by split. Qed.

Lemma fresh_over_ext es m m' : (forall k, m k = m' k) -> fresh es m -> fresh es m'.
Proof. intros E Hf k e Hk. rewrite <- E. by eapply Hf. Qed.

(** A merge of the steady policy, with all that determines it. *)
Lemma steady_merge P old new m :
  wf_bucket old -> wf_bucket new -> 0 <= P ->
  0 <= version_of (entries old) <= P -> 0 <= version_of (entries new) <= P ->
  fresh (entries old) m -> fresh (entries new) (over (entries old) m) ->
  exists b out, merge_buckets old new (steady P) = Ok b /\ wf_bucket b /\ keyed out /\
    entries b = match metadata_entry (Z.max (version_of (entries old)) (version_of (entries new))) with
                | Some e => e :: out | None => out end /\
    (forall k, find_entry out k = combined KeepDead Preserve (find_entry (entries old) k) (find_entry (entries new) k)) /\
    (forall k, find_entry (entries b) k = find_entry out k) /\
    fresh (entries b) m /\ (forall k, over (entries b) m k = over (entries new) (over (entries old) m) k) /\
    version_of (entries b) = (let v := Z.max (version_of (entries old)) (version_of (entries new)) in
                              if V11 <=? v then v else 0).
Proof.
  intros Hwo Hwn HP Hvo Hvn Hfo Hfn.
  destruct (merge_buckets_entries old new (steady P) m) as (b & out & Hb & Hwb & Hk & Hes & Hfind);
    [done|done|by left|by apply versions_ok_steady|done|done|].
  assert (forall k, find_entry (entries b) k = find_entry out k) as Hfb by (intros k; rewrite Hes; apply metadata_find).
  destruct (merge_of_over KeepDead Preserve old new b m) as [Ho Hfr]; [|by left|done|done|].
  { split; [done|]. intros k. by rewrite Hfb, Hfind. }
  exists b, out. repeat (split; [done|]). rewrite Hes. by apply entries_version.
Qed.

(** ** Deciding the invariants on a file *)

Definition has_key (e : BucketEntry) : bool := match key e with Some _ => true | None => false end.

(** The sorted check on keyed entries is the order of [keyed]. *)
Lemma sorted_check_complete es : forallb has_key es = true -> is_ok (assert_sorted_no_duplicates es) = true -> keyed es.
Proof.
  induction es as [|a es IH]; [done|]. intros [Ha Hes]%andb_true_iff Hok.
  unfold has_key in Ha. destruct (key a) as [ka|] eqn:Hka; [|done].
  destruct es as [|b es]; [split; [by exists ka; split; [|constructor]|done]|].
  cbn [assert_sorted_no_duplicates] in Hok. case_bool_decide as Hlt; [|done]. specialize (IH Hes Hok).
  split; [|done]. destruct IH as [(kb & Hkb & Hb) _]. unfold compare_entries in Hlt. rewrite Hka, Hkb in Hlt.
  exists ka. split; [done|]. constructor; [by exists kb|]. by eapply above_weaken.
Qed.

Definition wf_check (es : list BucketEntry) : bool :=
  let es := match es with Metaentry _ :: es => es | _ => es end in
  forallb has_key es && is_ok (assert_sorted_no_duplicates es).

Lemma wf_check_sound es : wf_check es = true -> wf_entries es.
Proof.
  intros [Hk Hs]%andb_true_iff. pose proof (sorted_check_complete _ Hk Hs) as Hkeyed.
  destruct es as [|[?|?|?|m] es].
  5: { exists [Metaentry m], es. split; [done|]. split; [done|]. right. by exists m. }
  all: exists []; eexists; split; [done|]; split; [exact Hkeyed|by left].
Qed.

Lemma find_entry_elem es k e : find_entry es k = Some e -> e ∈ es.
Proof.
  induction es as [|x es IH]; [done|]. simpl. case_bool_decide; [intros [= ->]; by left|]. intros Hf. right. by apply IH.
Qed.

Definition exists_in (m : ledger) (k : LedgerKey) : bool := match m k with Some _ => true | None => false end.

Definition strict_check (es : list BucketEntry) (m : ledger) : bool :=
  forallb (fun e => match e with
                    | Initentry x => negb (exists_in m (entry_to_key x))
                    | Liveentry x => exists_in m (entry_to_key x)
                    | Deadentry k => exists_in m k
                    | Metaentry _ => true
                    end) es.

Lemma strict_check_sound es m : strict_check es m = true -> strict es m.
Proof.
  intros Hc k. destruct (find_entry es k) as [e|] eqn:Hf; [|done].
  assert (In e es) as Hin by (apply list_elem_of_In; by eapply find_entry_elem).
  unfold strict_check in Hc. rewrite forallb_forall in Hc. specialize (Hc e Hin). apply find_entry_key in Hf.
  destruct e; simpl in Hf; try done; injection Hf as <-; simpl in *; unfold exists_in in Hc; by destruct (m _).
Qed.

(** ** Properties *)

(** C30: Merging two buckets, the older [old] and the newer [new], never fails nor
    panics when both are well formed, their versions are allowed and [new] creates
    no entry that exists beneath; the result is well formed (sorted, one entry per
    key, metadata in front) and, read over any ledger beneath over which tombstones
    may be dropped, shows exactly what reading [new] over [old] shows. *)
Theorem merge_buckets_refines_over old new opts m :
  wf_bucket old -> wf_bucket new -> no_shadows opts -> versions_ok old new opts ->
  may_drop (keep_dead_entries opts) m -> fresh (entries old) m -> fresh (entries new) (over (entries old) m) ->
  exists b, merge_buckets old new opts = Ok b /\ wf_bucket b /\ fresh (entries b) m /\
    0 <= version_of (entries b) <= max_protocol_version opts /\
    assert_sorted_no_duplicates (entries b) = Ok tt /\
    forall k, over (entries b) m k = over (entries new) (over (entries old) m) k.
Proof.
  intros Hwo Hwn Hs Hv Hd Hfo Hfn.
  destruct (merge_buckets_spec old new opts m Hwo Hwn Hs Hv Hfn) as (b & Hb & Hm & Hver).
  destruct (merge_of_over _ _ _ _ _ m Hm Hd Hfo Hfn) as [Ho Hfr].
  exists b. repeat split; try done; [apply Hm|apply Hm|apply Hver|apply Hver|]. apply wf_sorted_check, Hm.
Qed.

Lemma version_bound P v : 0 <= v <= P -> 0 <= (if V11 <=? v then v else 0) <= P.
Proof. intros Hv. destruct (V11 <=? v); lia. Qed.

Lemma metadata_entry_low v : v < V11 -> metadata_entry v = None.
Proof. unfold metadata_entry, protocol_version_starts_from. intros Hv. by destruct (Z.leb_spec V11 v); [lia|]. Qed.

Lemma metadata_entry_assoc va vb vc :
  metadata_entry (Z.max (if V11 <=? Z.max va vb then Z.max va vb else 0) vc) =
  metadata_entry (Z.max va (if V11 <=? Z.max vb vc then Z.max vb vc else 0)).
Proof.
  unfold V11. destruct (Z.leb_spec 11 (Z.max va (Z.max vb vc))).
  - f_equal. destruct (Z.leb_spec 11 (Z.max va vb)), (Z.leb_spec 11 (Z.max vb vc)); lia.
  - destruct (Z.leb_spec 11 (Z.max va vb)), (Z.leb_spec 11 (Z.max vb vc)); try lia.
    rewrite !metadata_entry_low; unfold V11; (done || lia).
Qed.

(** Merging is associative: three successive buckets whose entries create only
    what does not exist and update or erase only what does merge to the same file,
    entry for entry, whichever two are merged first. *)
Theorem merge_associative P a b c m :
  wf_bucket a -> wf_bucket b -> wf_bucket c -> 0 <= P ->
  0 <= version_of (entries a) <= P -> 0 <= version_of (entries b) <= P -> 0 <= version_of (entries c) <= P ->
  strict (entries a) m -> strict (entries b) (over (entries a) m) ->
  strict (entries c) (over (entries b) (over (entries a) m)) ->
  exists ab bc ab_c a_bc,
    merge_buckets a b (steady P) = Ok ab /\ merge_buckets ab c (steady P) = Ok ab_c /\
    merge_buckets b c (steady P) = Ok bc /\ merge_buckets a bc (steady P) = Ok a_bc /\
    entries ab_c = entries a_bc.
Proof.
  intros Ha Hb Hc HP Hva Hvb Hvc Hsa Hsb Hsc.
  destruct (steady_merge P a b m) as (ab & o1 & E1 & W1 & K1 & S1 & F1 & G1 & R1 & V1 & N1);
    [done..|by apply strict_fresh|by apply strict_fresh|].
  destruct (steady_merge P b c (over (entries a) m)) as (bc & o2 & E2 & W2 & K2 & S2 & F2 & G2 & R2 & V2 & N2);
    [done..|by apply strict_fresh|by apply strict_fresh|].
  cbv zeta in N1, N2.
  assert (0 <= version_of (entries ab) <= P) by (rewrite N1; apply version_bound; lia).
  assert (0 <= version_of (entries bc) <= P) by (rewrite N2; apply version_bound; lia).
  destruct (steady_merge P ab c m) as (ab_c & o3 & E3 & _ & K3 & S3 & F3 & _); [done..| |].
  { apply (fresh_over_ext _ (over (entries b) (over (entries a) m))); [|by apply strict_fresh]. intros k. by rewrite V1. }
  destruct (steady_merge P a bc m) as (a_bc & o4 & E4 & _ & K4 & S4 & F4 & _); [done..|by apply strict_fresh|done|].
  exists ab, bc, ab_c, a_bc. repeat (split; [done|]). rewrite S3, S4, N1, N2.
  assert (o3 = o4) as ->.
  { apply keyed_ext; [done..|]. intros k. rewrite F3, F4, G1, G2, F1, F2.
    apply (combined_assoc _ _ _ (m k) k).
    - intros x e [-> | [-> | ->]]; apply find_entry_key.
    - apply Hsa.
    - rewrite <- over_entry_over. apply Hsb.
    - rewrite <- !over_entry_over. apply Hsc. }
  by rewrite metadata_entry_assoc.
Qed.

(** The three ways to merge agree: writing the merge to a file gives the entries
    that merging in memory gives, and the fast merge of level 0 gives the entries
    of the general merge at the current protocol, unless both buckets are empty,
    where the general merge gives the empty bucket and the fast one metadata only. *)
Theorem merge_paths_agree old new P m :
  wf_entries (entries old) -> wf_entries (entries new) -> in_memory old = true -> in_memory new = true -> 0 <= P ->
  fresh (entries new) (over (entries old) m) ->
  let opts := MkOptions KeepDead P Preserve [] CurrentProtocol in
  exists written fast,
    merge_buckets_to_file old new opts = Ok written /\
    merge_buckets old new opts = Ok (match written with [] => Bucket_empty | _ => MkBucket written false false end) /\
    merge_in_memory old new P = Ok fast /\ in_memory fast = true /\
    if is_empty new && is_empty old then written = [] else entries fast = written.
Proof.
  intros Hwo Hwn Hmo Hmn HP Hf opts.
  destruct (wf_entries_parts _ Hwo) as (mo & _ & Hao & Hso & _), (wf_entries_parts _ Hwn) as (mn & _ & Han & Hsn & _).
  destruct (two_pointer_merge_spec KeepDead Preserve _ _ m Hwo Hwn Hf) as (out & Hout & Hk & _).
  destruct (metadata_prefix P out Hk) as (Hwf & _ & _). cbv zeta in Hwf.
  set (es := match metadata_entry P with Some e => e :: out | None => out end) in *.
  assert (exists fast, merge_in_memory old new P = Ok fast /\ in_memory fast = true /\ entries fast = es)
    as (fast & Hfast & Him & Hes).
  { unfold merge_in_memory, get_in_memory_entries.
    rewrite Hmo, Hmn, Hso, Hsn, two_pointer_merge_not_metadata, Hout. cbn [result_bind]. fold es.
    destruct es as [|e es'] eqn:E; [by exists Bucket_empty|]. rewrite wf_from_parts by done. by eexists. }
  assert (merge_buckets_to_file old new opts = if is_empty new && is_empty old then Ok [] else Ok es) as Hfile.
  { unfold merge_buckets_to_file, opts. destruct (is_empty new && is_empty old); [done|].
    rewrite Hao, Han. cbn [build_output_metadata metadata_policy max_protocol_version keep_dead_entries
      normalize_init_entries result_bind]. by rewrite two_pointer_merge_not_metadata, Hout. }
  exists (if is_empty new && is_empty old then [] else es), fast.
  split; [by destruct (is_empty new && is_empty old)|].
  split; [|split; [done|]; split; [done|]; by destruct (is_empty new && is_empty old)].
  rewrite merge_buckets_no_shadows by (by left). unfold merge_with_shadows_impl.
  destruct (is_empty new && is_empty old); [done|].
  rewrite Hao, Han. cbn [build_output_metadata metadata_policy max_protocol_version keep_dead_entries
    normalize_init_entries result_bind opts]. rewrite two_pointer_merge_not_metadata, Hout.
  cbn [result_bind map]. rewrite maybe_put_no_shadows. cbn [fst].
  replace (match metadata_entry P with Some m => [m] | None => [] end ++ out) with es
    by (unfold es; by destruct (metadata_entry P)).
  unfold from_sorted_entries. rewrite (wf_sorted_check _ Hwf). destruct es as [|e es'] eqn:E; [|done].
  unfold es in E. by destruct (metadata_entry P).
Qed.
End buckets.

(** ** Concrete buckets *)

(** Keys are integers, entries pairs of a key and a value. *)
Definition pair_types : LedgerTypes :=
  {| LedgerKey := Z; LedgerEntry := Z * Z; entry_to_key := fst; compare_keys := Z.compare |}.

Section witnesses.
#[local] Existing Instance pair_types.

Let bucket_a : Bucket := MkBucket [Metaentry (MkMeta 22 false); Liveentry (1, 10); Initentry (2, 20); Deadentry 3] false true.
Let bucket_b : Bucket := MkBucket [Metaentry (MkMeta 23 true); Liveentry (1, 11); Deadentry 2; Initentry (3, 30)] false true.
Let bucket_c : Bucket := MkBucket [Metaentry (MkMeta 23 true); Deadentry 1; Initentry (2, 22); Liveentry (3, 31)] false true.
Let beneath : ledger := fun k => if decide (k = 1) then Some (1, 9) else if decide (k = 3) then Some (3, 29) else None.

Lemma merge_buckets_refines_over_witness :
  exists b, merge_buckets bucket_a bucket_b (steady 23) = Ok b /\ wf_bucket b /\ fresh (entries b) beneath /\
    0 <= version_of (entries b) <= 23 /\ assert_sorted_no_duplicates (entries b) = Ok tt /\
    forall k, over (entries b) beneath k = over (entries bucket_b) (over (entries bucket_a) beneath) k.
Proof.
  apply (merge_buckets_refines_over bucket_a bucket_b (steady 23) beneath).
  - split; [by apply wf_check_sound; vm_compute|done].
  - split; [by apply wf_check_sound; vm_compute|done].
  - by left.
  - apply versions_ok_steady; vm_compute; repeat split; discriminate.
  - by left.
  - apply strict_fresh, strict_check_sound. by vm_compute.
  - apply strict_fresh, strict_check_sound. by vm_compute.
Defined.

Lemma merge_associative_witness :
  exists ab bc ab_c a_bc,
    merge_buckets bucket_a bucket_b (steady 23) = Ok ab /\ merge_buckets ab bucket_c (steady 23) = Ok ab_c /\
    merge_buckets bucket_b bucket_c (steady 23) = Ok bc /\ merge_buckets bucket_a bc (steady 23) = Ok a_bc /\
    entries ab_c = entries a_bc.
Proof.
  apply (merge_associative 23 bucket_a bucket_b bucket_c beneath);
    try (split; [by apply wf_check_sound; vm_compute|done]);
    try (apply strict_check_sound; by vm_compute); vm_compute; repeat split; discriminate.
Defined.

Lemma merge_paths_agree_witness :
  exists written fast,
    merge_buckets_to_file bucket_a bucket_b (MkOptions KeepDead 23 Preserve [] CurrentProtocol) = Ok written /\
    merge_buckets bucket_a bucket_b (MkOptions KeepDead 23 Preserve [] CurrentProtocol) =
      Ok (match written with [] => Bucket_empty | _ => MkBucket written false false end) /\
    merge_in_memory bucket_a bucket_b 23 = Ok fast /\ in_memory fast = true /\
    if is_empty bucket_b && is_empty bucket_a then written = [] else entries fast = written.
Proof.
  apply (merge_paths_agree bucket_a bucket_b 23 beneath).
  - by apply wf_check_sound; vm_compute.
  - by apply wf_check_sound; vm_compute.
  - done.
  - done.
  - vm_compute. discriminate.
  - apply strict_fresh, strict_check_sound. by vm_compute.
Defined.
End witnesses.
