(* ===== verification/BucketList.v ===== *)
(** * BucketList: the levels of buckets and the batches added to them (bucket/src/bucket_list.rs, live_iterator.rs)

    The list keeps eleven levels, each with the bucket being filled, the snapshot
    of the one before and the merge under way. Adding the changes of a ledger
    spills levels into the next ones when the ledger is a multiple of half their
    size, commits the merges prepared at the spill before and prepares new ones.

    A background merge is kept as the result it ends with, since it works on
    buckets that never change; waiting for it is reading that result. Sharing
    merges between levels (the merge map), the files buckets are kept in, the
    counters and the traces are left out. *)

From S2P Require Import Prelude Bucket.

Definition BUCKET_LIST_LEVELS : nat := 11.

(** ** Spill boundaries *)

Definition bl_round_down (value modulus : Z) : Z :=
  if modulus =? 0 then 0 else Z.land value (u32_max - (modulus - 1)).
Definition bl_level_half (level : nat) : Z := Z.shiftl 1 (2 * Z.of_nat level + 1).
Definition bl_level_size (level : nat) : Z := Z.shiftl 1 (2 * (Z.of_nat level + 1)).

Definition bl_level_should_spill (ledger_seq : Z) (level num_levels : nat) : bool :=
  if (level =? num_levels - 1)%nat then false
  else
    let half := bl_level_half level in
    let size := bl_level_size level in
    (ledger_seq mod half =? 0) || (ledger_seq mod size =? 0).

Definition bl_keep_tombstone_entries (level num_levels : nat) : bool := (level <? num_levels - 1)%nat.

(** The addition wraps as in a release build. *)
Definition bl_should_merge_with_empty_curr (ledger_seq : Z) (level num_levels : nat) : bool :=
  if (level =? 0)%nat then false
  else
    let merge_start_ledger := bl_round_down ledger_seq (bl_level_half (level - 1)) in
    let next_change_ledger := u32_wrapping_add merge_start_ledger (bl_level_half (level - 1)) in
    bl_level_should_spill next_change_ledger level num_levels.

Definition level_should_spill (ledger_seq : Z) (level : nat) : bool :=
  bl_level_should_spill ledger_seq level BUCKET_LIST_LEVELS.
Definition keep_tombstone_entries (level : nat) : DeadEntryPolicy :=
  if bl_keep_tombstone_entries level BUCKET_LIST_LEVELS then KeepDead else RemoveDead.
Definition should_merge_with_empty_curr (ledger_seq : Z) (level : nat) : bool :=
  bl_should_merge_with_empty_curr ledger_seq level BUCKET_LIST_LEVELS.

Section bucket_list.
Context `{LedgerTypes}.

(** ** Levels *)

(** Of a background merge, its two inputs and the result it ends with. *)
Inductive PendingMerge :=
| InMemory (b : Bucket)
| Async (input_curr input_snap : Bucket) (r : result Bucket BucketError).

Record BucketLevel := MkLevel {
  curr : Bucket;
  snap : Bucket;
  next : option PendingMerge;
  level : nat
}.

Definition BucketLevel_new (level : nat) : BucketLevel := MkLevel Bucket_empty Bucket_empty None level.

(** [AsyncMergeHandle::resolve]. *)
Definition resolve (p : PendingMerge) : result Bucket BucketError :=
  match p with InMemory b => Ok b | Async _ _ r => r end.

Definition commit (l : BucketLevel) : result BucketLevel BucketError :=
  match next l with
  | Some pending => let? b := resolve pending in Ok (MkLevel b (snap l) None (level l))
  | None => Ok l
  end.

(** Returns the new snapshot, which flows to the next level. *)
Definition snap_level (l : BucketLevel) : BucketLevel * Bucket :=
  (MkLevel Bucket_empty (curr l) (next l) (level l), curr l).

Definition level_clear_in_memory_entries (l : BucketLevel) : BucketLevel :=
  MkLevel (clear_in_memory_entries (curr l)) (clear_in_memory_entries (snap l)) (next l) (level l).

(** [AsyncMergeHandle::start_merge]: with a bucket directory the result is written
    to a file, and the shadows are not passed on. *)
Definition start_merge (bucket_dir : bool) (protocol_version : Z) (keep : DeadEntryPolicy)
    (normalize : InitEntryPolicy) (shadows : list Bucket) (curr_for_merge incoming : Bucket)
    : result Bucket BucketError :=
  if bucket_dir then
    let? written := merge_buckets_to_file curr_for_merge incoming
                      (MkOptions keep protocol_version normalize [] InputDerived) in
    Ok (match written with [] => Bucket_empty | _ => MkBucket written false false end)
  else merge_buckets curr_for_merge incoming (MkOptions keep protocol_version normalize shadows InputDerived).

(** Without a merge map. *)
Definition prepare_with_normalization (bucket_dir : bool) (protocol_version : Z) (incoming : Bucket)
    (shadows : list Bucket) (keep : DeadEntryPolicy) (normalize : InitEntryPolicy) (use_empty_curr : bool)
    (l : BucketLevel) : result BucketLevel BucketError :=
  match next l with
  | Some _ => Err MergeFailed
  | None =>
      let curr_for_merge := if use_empty_curr then Bucket_empty else curr l in
      if (1 <=? level l)%nat then
        Ok (MkLevel (curr l) (snap l)
             (Some (Async curr_for_merge incoming
                      (start_merge bucket_dir protocol_version keep normalize shadows curr_for_merge incoming)))
             (level l))
      else
        let? merged := merge_buckets curr_for_merge incoming
                         (MkOptions keep protocol_version normalize shadows CurrentProtocol) in
        Ok (MkLevel (curr l) (snap l) (Some (InMemory merged)) (level l))
  end.

Definition prepare_first_level (protocol_version : Z) (incoming : Bucket) (l : BucketLevel)
    : result BucketLevel BucketError :=
  if negb (level l =? 0)%nat then Err MergeFailed
  else
    match next l with
    | Some _ => Err MergeFailed
    | None =>
        let can_use_in_memory_merge := in_memory (curr l) && in_memory incoming in
        let? merged :=
          if can_use_in_memory_merge then merge_in_memory (curr l) incoming protocol_version
          else merge_buckets (curr l) incoming
                 (MkOptions KeepDead protocol_version Preserve [] CurrentProtocol) in
        let? merged :=
          if negb (in_memory merged) then from_sorted_entries_with_in_memory (entries merged) else Ok merged in
        Ok (MkLevel (curr l) (snap l) (Some (InMemory merged)) (level l))
    end.

(** ** The list *)

Record BucketList := MkBucketList {
  levels : list BucketLevel;
  ledger_seq : Z;
  bucket_dir : bool
}.

Definition BucketList_new (bucket_dir : bool) : BucketList :=
  MkBucketList (map BucketLevel_new (seq 0 BUCKET_LIST_LEVELS)) 0 bucket_dir.
Definition set_ledger_seq (seq : Z) (bl : BucketList) : BucketList := MkBucketList (levels bl) seq (bucket_dir bl).

(** ** Looking up *)

Definition found (e : BucketEntry) : option (option LedgerEntry) :=
  match e with
  | Liveentry e | Initentry e => Some (Some e)
  | Deadentry _ => Some None
  | Metaentry _ => None
  end.

(** The loop over the levels of [get]; [None] of [found] goes on with the next level. *)
Fixpoint get_in_levels (ls : list BucketLevel) (k : LedgerKey) : option LedgerEntry :=
  match ls with
  | [] => None
  | l :: ls =>
      match bucket_get (curr l) k with
      | Some e => match found e with Some r => r | None => get_in_levels ls k end
      | None =>
          match bucket_get (snap l) k with
          | Some e => match found e with Some r => r | None => get_in_levels ls k end
          | None => get_in_levels ls k
          end
      end
  end.
Definition bucket_list_get (bl : BucketList) (k : LedgerKey) : option LedgerEntry := get_in_levels (levels bl) k.
Definition contains (bl : BucketList) (k : LedgerKey) : bool :=
  match bucket_list_get bl k with Some _ => true | None => false end.

(** ** Adding a batch *)

(** The shadows of a merge into level [i], before protocol 12. *)
Definition shadow_levels (i : nat) (ls : list BucketLevel) : list Bucket :=
  concat (map (fun l => [curr l; snap l]) (take (i - 1) ls)).

(** One pass of the loop of [add_batch_internal]. *)
Definition spill_into (bucket_dir : bool) (ledger_seq protocol_version : Z) (ls : list BucketLevel) (i : nat)
    : result (list BucketLevel) BucketError :=
  if level_should_spill ledger_seq (i - 1) then
    match ls !! (i - 1)%nat, ls !! i with
    | Some below, Some this =>
        let '(below, spilling_snap) := snap_level below in
        let '(below, spilling_snap) :=
          if (i - 1 =? 0)%nat
          then (MkLevel (curr below) (clear_in_memory_entries (snap below)) (next below) (level below),
                clear_in_memory_entries spilling_snap)
          else (below, spilling_snap) in
        let ls := <[(i - 1)%nat := below]> ls in
        let? this := commit this in
        let shadows := if protocol_version_starts_from protocol_version V12 then [] else shadow_levels i ls in
        let? this := prepare_with_normalization bucket_dir protocol_version spilling_snap shadows
                       (keep_tombstone_entries i) Preserve (should_merge_with_empty_curr ledger_seq i) this in
        Ok (<[i := this]> ls)
    | _, _ => Err BucketPanic
    end
  else Ok ls.

Definition add_batch_internal (seq protocol_version : Z) (new_bucket : Bucket) (bl : BucketList)
    : result (list BucketLevel) BucketError :=
  if seq =? 0 then Err MergeFailed
  else
    let? ls := try_fold (spill_into (bucket_dir bl) seq protocol_version)
                 (rev (List.seq 1 (BUCKET_LIST_LEVELS - 1))) (levels bl) in
    match ls with
    | [] => Err BucketPanic
    | l0 :: rest =>
        let? l0 := prepare_first_level protocol_version new_bucket l0 in
        let? l0 := commit l0 in
        Ok (l0 :: rest)
    end.

(** Keeps the last entry of each key. *)
Fixpoint deduplicate_entries (es : list LedgerEntry) : list LedgerEntry :=
  match es with
  | [] => []
  | e :: es =>
      if bool_decide (entry_to_key e ∈ map entry_to_key es) then deduplicate_entries es
      else e :: deduplicate_entries es
  end.

(** Keeps the first of equal keys. *)
Fixpoint deduplicate_dead (seen ks : list LedgerKey) : list LedgerKey :=
  match ks with
  | [] => []
  | k :: ks => if bool_decide (k ∈ seen) then deduplicate_dead seen ks else k :: deduplicate_dead (k :: seen) ks
  end.

(** [sort_by_cached_key]: stable, by [Option<LedgerKey>]. *)
Definition entry_key_le (a b : BucketEntry) : Prop := compare_entries a b <> Gt.
#[global] Instance entry_key_le_dec a b : Decision (entry_key_le a b).
Proof. unfold entry_key_le. apply _. Defined.

Definition batch_entries (protocol_version : Z) (init_entries live_entries : list LedgerEntry)
    (dead_entries : list LedgerKey) (skip_dedup : bool) : list BucketEntry :=
  let use_init := protocol_version_starts_from protocol_version V11 in
  let meta := if use_init
              then [Metaentry (MkMeta protocol_version (protocol_version_starts_from protocol_version V23))]
              else [] in
  let init_entry := if use_init then Initentry else Liveentry in
  let '(inits, lives, deads) :=
    if skip_dedup then (init_entries, live_entries, dead_entries)
    else (deduplicate_entries init_entries, deduplicate_entries live_entries, deduplicate_dead [] dead_entries) in
  meta ++ map init_entry inits ++ map Liveentry lives ++ map Deadentry deads.

Definition add_batch_impl (seq protocol_version : Z) (init_entries live_entries : list LedgerEntry)
    (dead_entries : list LedgerKey) (skip_dedup : bool) (bl : BucketList) : result BucketList BucketError :=
  let entries := batch_entries protocol_version init_entries live_entries dead_entries skip_dedup in
  let? new_bucket := fresh_in_memory_only (merge_sort entry_key_le entries) in
  let? ls := add_batch_internal seq protocol_version new_bucket bl in
  Ok (MkBucketList ls seq (bucket_dir bl)).

Definition add_batch (seq protocol_version : Z) (init_entries live_entries : list LedgerEntry)
    (dead_entries : list LedgerKey) (bl : BucketList) : result BucketList BucketError :=
  add_batch_impl seq protocol_version init_entries live_entries dead_entries false bl.
Definition add_batch_unique (seq protocol_version : Z) (init_entries live_entries : list LedgerEntry)
    (dead_entries : list LedgerKey) (bl : BucketList) : result BucketList BucketError :=
  add_batch_impl seq protocol_version init_entries live_entries dead_entries true bl.

(** The ledgers [current + 1 .. target - 1] with empty batches. *)
Definition advance_to_ledger (target_ledger protocol_version : Z) (bl : BucketList) : result BucketList BucketError :=
  let current := ledger_seq bl in
  if target_ledger <=? current then Ok bl
  else try_fold (fun bl seq => add_batch seq protocol_version [] [] [] bl)
         (map (fun i => current + 1 + Z.of_nat i) (List.seq 0 (Z.to_nat (target_ledger - current - 1)))) bl.

(** ** Restarting the merges of a restored list *)

Definition bucket_protocol_version (b : Bucket) : option Z :=
  if is_empty b then None
  else
    (fix find_meta (es : list BucketEntry) : option Z :=
      match es with
      | [] => None
      | Metaentry m :: _ => Some (ledger_version m)
      | _ :: es => find_meta es
      end) (entries b).

(** The loop of [restart_merges] from level [i] on, over the levels from there;
    [prev_snap] is the snapshot of the level before. *)
Fixpoint restart_from (bucket_dir : bool) (ledger protocol_version : Z) (prev_snap : Bucket) (i : nat)
    (ls : list BucketLevel) : result (list BucketLevel) BucketError :=
  match ls with
  | [] => Ok []
  | l :: ls' =>
      match next l with
      | Some _ =>
          let? ls' := restart_from bucket_dir ledger protocol_version (snap l) (S i) ls' in Ok (l :: ls')
      | None =>
          if is_empty prev_snap then Ok ls
          else
            let merge_start_ledger := bl_round_down ledger (bl_level_half (i - 1)) in
            let merge_protocol_version := default protocol_version (bucket_protocol_version prev_snap) in
            let use_empty_curr := should_merge_with_empty_curr merge_start_ledger i in
            let? l := prepare_with_normalization bucket_dir merge_protocol_version prev_snap []
                        (keep_tombstone_entries i) Preserve use_empty_curr l in
            let? ls' := restart_from bucket_dir ledger protocol_version (snap l) (S i) ls' in
            Ok (l :: ls')
      end
  end.

Definition restart_merges (ledger protocol_version : Z) (bl : BucketList) : result BucketList BucketError :=
  let? ls :=
    match levels bl with
    | [] => Ok []
    | l0 :: ls =>
        let? ls := restart_from (bucket_dir bl) ledger protocol_version (snap l0) 1 ls in Ok (l0 :: ls)
    end in
  Ok (MkBucketList ls ledger (bucket_dir bl)).

(** ** Restoring a list from the hashes of its buckets *)

(** The hash of a bucket is zero or the SHA-256 of its file; [load_bucket] is the
    store of bucket files the caller passes. *)
Section restore.
Context {Hash : Type} `{EqDecision Hash} (ZERO : Hash) (content_hash : list BucketEntry -> Hash)
  (load_bucket : Hash -> result Bucket BucketError).

Definition bucket_hash (b : Bucket) : Hash := if zero_hash b then ZERO else content_hash (entries b).
Definition is_zero (h : Hash) : bool := bool_decide (h = ZERO).
Definition empty_hash : Hash := content_hash [].

Inductive PendingMergeState :=
| Output (output : Hash)
| Inputs (input_curr input_snap : Hash).

Definition output_state (b : Bucket) : option PendingMergeState :=
  if is_zero (bucket_hash b) then None else Some (Output (bucket_hash b)).

(** [resolved]: the background merge has ended and its result has been taken. *)
Definition pending_merge_state (resolved : bool) (l : BucketLevel) : option PendingMergeState :=
  match next l with
  | None => None
  | Some (InMemory b) => output_state b
  | Some (Async c s r) =>
      match resolved, r with
      | true, Ok b => output_state b
      | _, _ => Some (Inputs (bucket_hash c) (bucket_hash s))
      end
  end.

Definition for_sentinel_hash (h : Hash) : option Bucket :=
  if is_zero h then Some Bucket_empty
  else if bool_decide (h = empty_hash) then Some (MkBucket [] false false)
  else None.

Definition load_and_verify (h : Hash) : result Bucket BucketError :=
  let? b := load_bucket h in if bool_decide (bucket_hash b = h) then Ok b else Err HashMismatch.

Definition load_or_sentinel (h : Hash) : result Bucket BucketError :=
  match for_sentinel_hash h with Some b => Ok b | None => load_and_verify h end.

(** One level of [restore_from_has]. *)
Definition restore_level (i : nat) (hashes : Hash * Hash) (state : option PendingMergeState)
    : result BucketLevel BucketError :=
  let '(curr_hash, snap_hash) := hashes in
  let? c := load_or_sentinel curr_hash in
  let? s := load_or_sentinel snap_hash in
  let? next :=
    match state with
    | Some (Output h) => if negb (is_zero h) then let? b := load_and_verify h in Ok (Some (InMemory b)) else Ok None
    | _ => Ok None
    end in
  Ok (MkLevel c s next i).

Fixpoint restore_levels (i : nat) (hashes : list (Hash * Hash)) (states : list (option PendingMergeState))
    : result (list BucketLevel) BucketError :=
  match hashes, states with
  | h :: hashes, st :: states =>
      let? l := restore_level i h st in
      let? ls := restore_levels (S i) hashes states in
      Ok (l :: ls)
  | _, _ => Ok []
  end.

Definition restore_from_has (hashes : list (Hash * Hash)) (next_states : list (option PendingMergeState))
    : result BucketList BucketError :=
  if negb (bool_decide (length hashes = BUCKET_LIST_LEVELS)) then Err Serialization
  else if negb (bool_decide (length next_states = BUCKET_LIST_LEVELS)) then Err Serialization
  else let? ls := restore_levels 0 hashes next_states in Ok (MkBucketList ls 0 false).

Fixpoint chunk_pairs (hashes : list Hash) : list (Hash * Hash) :=
  match hashes with c :: s :: hashes => (c, s) :: chunk_pairs hashes | _ => [] end.
Definition restore_from_hashes (hashes : list Hash) : result BucketList BucketError :=
  if negb (bool_decide (length hashes = BUCKET_LIST_LEVELS * 2)%nat) then Err Serialization
  else restore_from_has (chunk_pairs hashes) (repeat None BUCKET_LIST_LEVELS).

Definition set_bucket_dir (bl : BucketList) : BucketList := MkBucketList (levels bl) (ledger_seq bl) true.

Definition perform_merge (bucket_dir : bool) (keep : DeadEntryPolicy) (protocol_version : Z)
    (input_curr input_snap : Bucket) : result Bucket BucketError :=
  let opts := MkOptions keep protocol_version Preserve [] InputDerived in
  if bucket_dir then
    let? written := merge_buckets_to_file input_curr input_snap opts in
    Ok (match written with [] => Bucket_empty | _ => MkBucket written false false end)
  else merge_buckets input_curr input_snap opts.

(** The inputs of the merges to run again, by level. *)
Definition merge_inputs (l : BucketLevel) (state : option PendingMergeState)
    : result (option (Bucket * Bucket)) BucketError :=
  match next l, state with
  | None, Some (Inputs c s) =>
      let? input_curr := load_or_sentinel c in
      let? input_snap := load_or_sentinel s in
      Ok (Some (input_curr, input_snap))
  | _, _ => Ok None
  end.

Fixpoint collect_inputs (ls : list BucketLevel) (states : list (option PendingMergeState))
    : result (list (option (Bucket * Bucket))) BucketError :=
  match ls, states with
  | l :: ls, st :: states =>
      let? w := merge_inputs l st in
      let? ws := collect_inputs ls states in
      Ok (w :: ws)
  | _, _ => Ok []
  end.

Fixpoint install_merges (bucket_dir : bool) (protocol_version : Z) (i : nat) (ls : list BucketLevel)
    (works : list (option (Bucket * Bucket))) : result (list BucketLevel) BucketError :=
  match ls, works with
  | l :: ls, Some (c, s) :: works =>
      let? merged := perform_merge bucket_dir (keep_tombstone_entries i) protocol_version c s in
      let? ls := install_merges bucket_dir protocol_version (S i) ls works in
      Ok (MkLevel (curr l) (snap l) (Some (InMemory merged)) (level l) :: ls)
  | l :: ls, None :: works =>
      let? ls := install_merges bucket_dir protocol_version (S i) ls works in Ok (l :: ls)
  | ls, _ => Ok ls
  end.

Definition restart_merges_from_has (ledger protocol_version : Z) (next_states : list (option PendingMergeState))
    (restart_structure_based : bool) (bl : BucketList) : result BucketList BucketError :=
  if negb (bool_decide (length next_states = BUCKET_LIST_LEVELS)) then Err Serialization
  else
    match levels bl with
    | [] => Err BucketPanic
    | l0 :: ls =>
        let? works := collect_inputs ls (tl next_states) in
        let? ls := install_merges (bucket_dir bl) protocol_version 1 ls works in
        let bl := MkBucketList (l0 :: ls) (ledger_seq bl) (bucket_dir bl) in
        if restart_structure_based then restart_merges ledger protocol_version bl
        else Ok (set_ledger_seq ledger bl)
    end.
End restore.

(** ** Streaming the live entries *)

(** [LiveEntriesIterator]: [rest] are the levels from the current one on, [phase]
    is 0 for [curr] and 1 for [snap], [bucket_iter] what is left of a bucket. *)
Record LiveEntriesIterator := MkIter {
  rest : list BucketLevel;
  current_phase : nat;
  bucket_iter : option (list BucketEntry);
  seen_keys : list LedgerKey;
  entries_yielded : nat;
  entries_skipped : nat
}.

Definition live_iter_new (bl : BucketList) : LiveEntriesIterator := MkIter (levels bl) 0 None [] 0 0.

(** To the next position: from [curr] to [snap], from there to the next level. *)
Definition next_position (ls : list BucketLevel) (phase : nat) : list BucketLevel * nat :=
  if (phase =? 0)%nat then (ls, 1%nat) else (tl ls, 0%nat).

(** [advance_to_next_bucket]: the first position, from this one on, with a bucket
    that is not empty. *)
Fixpoint advance_to_next_bucket (ls : list BucketLevel) (phase : nat)
    : list BucketLevel * nat * option (list BucketEntry) :=
  match ls with
  | [] => ([], phase, None)
  | l :: ls' =>
      if (phase =? 0)%nat && negb (is_empty (curr l)) then (ls, 0%nat, Some (entries (curr l)))
      else if negb (is_empty (snap l)) then (ls, 1%nat, Some (entries (snap l)))
      else advance_to_next_bucket ls' 0
  end.

(** One pass of the loop of [next]: [inr] when it returns. *)
Definition live_iter_step (it : LiveEntriesIterator)
    : LiveEntriesIterator + (LiveEntriesIterator * option LedgerEntry) :=
  let '(ls, phase, iter) :=
    match bucket_iter it with
    | Some es => (rest it, current_phase it, Some es)
    | None => advance_to_next_bucket (rest it) (current_phase it)
    end in
  match iter with
  | None => inr (MkIter ls phase None (seen_keys it) (entries_yielded it) (entries_skipped it), None)
  | Some [] =>
      let '(ls, phase) := next_position ls phase in
      inl (MkIter ls phase None (seen_keys it) (entries_yielded it) (entries_skipped it))
  | Some (entry :: es) =>
      match entry with
      | Liveentry e | Initentry e =>
          let key := entry_to_key e in
          if bool_decide (key ∈ seen_keys it)
          then inl (MkIter ls phase (Some es) (seen_keys it) (entries_yielded it) (S (entries_skipped it)))
          else inr (MkIter ls phase (Some es) (key :: seen_keys it) (S (entries_yielded it)) (entries_skipped it), Some e)
      | Deadentry key =>
          let seen := if bool_decide (key ∈ seen_keys it) then seen_keys it else key :: seen_keys it in
          inl (MkIter ls phase (Some es) seen (entries_yielded it) (entries_skipped it))
      | Metaentry _ => inl (MkIter ls phase (Some es) (seen_keys it) (entries_yielded it) (entries_skipped it))
      end
  end.

(** [Iterator::next], with fuel for its loop. *)
Fixpoint live_iter_next (fuel : nat) (it : LiveEntriesIterator) : option (LiveEntriesIterator * option LedgerEntry) :=
  match fuel with
  | O => None
  | S fuel => match live_iter_step it with inl it => live_iter_next fuel it | inr r => Some r end
  end.

(** A consumer that calls [next] until it answers [None]. *)
Fixpoint live_collect (calls fuel : nat) (it : LiveEntriesIterator) : option (list LedgerEntry) :=
  match calls with
  | O => None
  | S calls =>
      match live_iter_next fuel it with
      | Some (it, Some e) => option_map (cons e) (live_collect calls fuel it)
      | Some (_, None) => Some []
      | None => None
      end
  end.
End bucket_list.
