(* ===== verification/BucketListFacts.v ===== *)
(** * BucketListFacts: what every ledger keeps true of the bucket list

    The levels read from the top ([view]) are the ledger. Between two ledgers each
    level satisfies [level_ok] and the merge under way at it is [pending_ok]: it is
    the merge, of the snapshot above with the bucket the level will have, that the
    next spill commits. *)

From S2P Require Import Prelude Bucket BucketMerge BucketList.

(** ** Spill boundaries *)

Lemma half_value j : bl_level_half j = 2 ^ (2 * Z.of_nat j + 1).
Proof. unfold bl_level_half. by rewrite Z.shiftl_1_l. Qed.

Lemma half_pos j : 0 < bl_level_half j.
Proof. rewrite half_value. apply Z.pow_pos_nonneg; lia. Qed.

Lemma half_succ j : bl_level_half (S j) = 4 * bl_level_half j.
Proof.
  rewrite !half_value. replace (2 * Z.of_nat (S j) + 1) with (2 + (2 * Z.of_nat j + 1)) by lia.
  by rewrite Z.pow_add_r by lia.
Qed.

Lemma size_value j : bl_level_size j = 2 * bl_level_half j.
Proof.
  unfold bl_level_size. rewrite half_value, Z.shiftl_1_l.
  replace (2 * (Z.of_nat j + 1)) with (1 + (2 * Z.of_nat j + 1)) by lia. by rewrite Z.pow_add_r by lia.
Qed.

(** A level spills exactly at the multiples of its half, the last one never. *)
Lemma should_spill_value s j n :
  bl_level_should_spill s j n = negb (j =? n - 1)%nat && (s mod bl_level_half j =? 0).
Proof.
  unfold bl_level_should_spill. destruct (j =? n - 1)%nat; [done|]. simpl. rewrite size_value.
  pose proof (half_pos j).
  destruct (Z.eqb_spec (s mod bl_level_half j) 0) as [E|E]; [done|]. simpl.
  apply Z.eqb_neq. intros E'. apply E. apply Z.mod_divide in E'; [|lia]. apply Z.mod_divide; [lia|].
  destruct E' as [q ->]. exists (2 * q). lia.
Qed.

Lemma round_down_value s k : is_u32 s -> 0 <= k <= 32 -> bl_round_down s (2 ^ k) = s - s mod 2 ^ k.
Proof.
  intros Hs Hk. unfold bl_round_down. pose proof (Z.pow_pos_nonneg 2 k ltac:(lia) ltac:(lia)).
  destruct (Z.eqb_spec (2 ^ k) 0); [lia|].
  assert (u32_max - (2 ^ k - 1) = Z.shiftl (Z.ones (32 - k)) k) as ->.
  { rewrite Z.shiftl_mul_pow2, Z.ones_equiv by lia. unfold u32_max.
    rewrite <- Z.sub_1_r, Z.mul_sub_distr_r, <- Z.pow_add_r by lia. replace (32 - k + k) with 32 by lia. lia. }
  assert (s - s mod 2 ^ k = Z.shiftl (Z.shiftr s k) k) as ->.
  { rewrite Z.shiftl_mul_pow2, Z.shiftr_div_pow2 by lia. pose proof (Z.div_mod s (2 ^ k)). lia. }
  apply Z.bits_inj'. intros i Hi. rewrite Z.land_spec.
  destruct (Z.ltb_spec i k).
  - rewrite !Z.shiftl_spec_low by lia. by rewrite andb_false_r.
  - rewrite !Z.shiftl_spec, Z.shiftr_spec by lia. replace (i - k + k) with i by lia.
    destruct (Z.ltb_spec i 32).
    + rewrite Z.ones_spec_low by lia. apply andb_true_r.
    + rewrite Z.ones_spec_high by lia. rewrite andb_false_r. symmetry.
      destruct (decide (s = 0)) as [->|]; [apply Z.bits_0|].
      apply Z.bits_above_log2; [apply Hs|]. apply Z.log2_lt_pow2; [destruct Hs; lia|].
      unfold is_u32, u32_max in Hs. pose proof (Z.pow_le_mono_r 2 32 i). lia.
Qed.

Lemma half_bound j : (j < 10)%nat -> bl_level_half j <= 2 ^ 19.
Proof. intros Hj. rewrite half_value. apply Z.pow_le_mono_r; lia. Qed.

(** The flag says whether the level itself spills at the next change. *)
Lemma merge_with_empty_value s j :
  (1 <= j <= 10)%nat -> 0 <= s -> s + 2 ^ 19 <= u32_max ->
  should_merge_with_empty_curr s j =
  level_should_spill (s - s mod bl_level_half (j - 1) + bl_level_half (j - 1)) j.
Proof.
  intros Hj Hs Hb. unfold should_merge_with_empty_curr, bl_should_merge_with_empty_curr.
  destruct (Nat.eqb_spec j 0); [lia|]. pose proof (half_pos (j - 1)). pose proof (half_bound (j - 1) ltac:(lia)).
  pose proof (Z.mod_pos_bound s (bl_level_half (j - 1)) ltac:(lia)).
  assert (bl_round_down s (bl_level_half (j - 1)) = s - s mod bl_level_half (j - 1)) as ->.
  { rewrite half_value. apply round_down_value; [unfold is_u32; lia|lia]. }
  unfold u32_wrapping_add, level_should_spill. f_equal. apply Z.mod_small. unfold u32_max in Hb. 
  pose proof (Z.mod_le s (bl_level_half (j - 1)) ltac:(lia) ltac:(lia)). lia.
Qed.

Lemma flag_before_spill s j :
  (1 <= j <= 10)%nat -> 0 <= s -> s + 2 ^ 19 <= u32_max ->
  level_should_spill (s + 1) (j - 1) = true -> should_merge_with_empty_curr s j = level_should_spill (s + 1) j.
Proof.
  intros Hj Hs Hb Hsp. rewrite merge_with_empty_value by done. f_equal.
  unfold level_should_spill in Hsp. rewrite should_spill_value in Hsp. apply andb_true_iff in Hsp as [_ Hsp].
  apply Z.eqb_eq in Hsp. pose proof (half_pos (j - 1)) as Hp. set (h := bl_level_half (j - 1)) in *.
  apply Z.mod_divide in Hsp as [q Hq]; [|lia].
  assert (s mod h = h - 1) as ->; [|lia].
  symmetry. apply (Z.mod_unique s h (q - 1)); [left; lia|lia].
Qed.

Lemma flag_between_spills s j :
  (1 <= j <= 10)%nat -> 0 <= s -> s + 1 + 2 ^ 19 <= u32_max ->
  level_should_spill (s + 1) (j - 1) = false ->
  should_merge_with_empty_curr (s + 1) j = should_merge_with_empty_curr s j.
Proof.
  intros Hj Hs Hb Hsp. rewrite !merge_with_empty_value by (done || lia). f_equal.
  unfold level_should_spill in Hsp. rewrite should_spill_value in Hsp.
  assert (negb (j - 1 =? BUCKET_LIST_LEVELS - 1)%nat = true) as E.
  { unfold BUCKET_LIST_LEVELS. destruct (Nat.eqb_spec (j - 1) (11 - 1)); [lia|done]. }
  rewrite E in Hsp. cbn [andb] in Hsp. apply Z.eqb_neq in Hsp.
  pose proof (half_pos (j - 1)) as Hp. set (h := bl_level_half (j - 1)) in *.
  pose proof (Z.div_mod s h ltac:(lia)) as Hdm. pose proof (Z.mod_pos_bound s h Hp) as Hm.
  assert (s mod h + 1 < h) as Hlt.
  { destruct (decide (s mod h + 1 = h)) as [E'|]; [|lia]. exfalso. apply Hsp.
    symmetry. apply (Z.mod_unique (s + 1) h (s / h + 1)); [left; lia|lia]. }
  assert ((s + 1) mod h = s mod h + 1) as ->; [|lia].
  symmetry. apply (Z.mod_unique (s + 1) h (s / h)); [left; lia|lia].
Qed.

(** The levels that spill are the first ones. *)
Lemma spill_above s j : (j < 10)%nat -> level_should_spill s (S j) = true -> level_should_spill s j = true.
Proof.
  unfold level_should_spill. rewrite !should_spill_value, half_succ. unfold BUCKET_LIST_LEVELS.
  intros Hj [_ Hs]%andb_true_iff. apply andb_true_iff. split.
  - destruct (Nat.eqb_spec j (11 - 1)); [lia|done].
  - apply Z.eqb_eq in Hs. apply Z.eqb_eq. pose proof (half_pos j).
    apply Z.mod_divide in Hs as [q ->]; [|lia]. apply Z.mod_divide; [lia|]. exists (4 * q). lia.
Qed.

Lemma last_never_spills s : level_should_spill s 10 = false.
Proof. done. Qed.

Section facts.
Context `{LedgerTypes}.

(** ** Files and memory *)

(** Writing a merge to a file gives what merging in memory gives. *)
Lemma merge_buckets_file old new opts :
  no_shadows opts ->
  merge_buckets old new opts =
    let? written := merge_buckets_to_file old new opts in
    match written with [] => Ok Bucket_empty | _ => from_sorted_entries written end.
Proof.
  intros Hs. rewrite merge_buckets_no_shadows by done.
  unfold merge_with_shadows_impl, merge_buckets_to_file.
  destruct (is_empty new && is_empty old); [done|].
  destruct (advance_skip_metadata None (entries old)) as [mo ro], (advance_skip_metadata None (entries new)) as [mn rn].
  destruct (build_output_metadata mo mn (max_protocol_version opts) (metadata_policy opts)) as [om|]; [|done].
  cbn [result_bind]. destruct (two_pointer_merge ro rn (keep_dead_entries opts) (normalize_init_entries opts)) as [em|];
    [|done]. cbn [result_bind map]. rewrite maybe_put_no_shadows. cbn [fst].
  by destruct om, em.
Qed.

Lemma from_sorted_entries_ok es b : from_sorted_entries es = Ok b -> b = MkBucket es false false.
Proof. unfold from_sorted_entries. destruct (assert_sorted_no_duplicates es); [|done]. by intros [= <-]. Qed.

Lemma start_merge_buckets dir P keep normalize shadows old new b :
  shadows = [] \/ V12 <= P ->
  merge_buckets old new (MkOptions keep P normalize shadows InputDerived) = Ok b ->
  start_merge dir P keep normalize shadows old new = Ok b.
Proof.
  intros Hs. unfold start_merge. destruct dir; [|done].
  assert (merge_buckets old new (MkOptions keep P normalize shadows InputDerived) =
    merge_buckets old new (MkOptions keep P normalize [] InputDerived)) as ->.
  { rewrite !merge_buckets_no_shadows by (unfold no_shadows; simpl; auto). done. }
  rewrite merge_buckets_file by (by left).
  destruct (merge_buckets_to_file old new _) as [[|e es]|]; cbn [result_bind]; [done| |done].
  intros ->%from_sorted_entries_ok. done.
Qed.

(** ** The invariant *)

(** The ledger, read from the levels. *)
Fixpoint view (ls : list BucketLevel) : ledger :=
  match ls with
  | [] => fun _ => None
  | l :: ls => over (entries (curr l)) (over (entries (snap l)) (view ls))
  end.

Lemma fresh_ext es m m' : (forall k, m k = m' k) -> fresh es m -> fresh es m'.
Proof. intros E Hf k e Hk. rewrite <- E. by eapply Hf. Qed.

Lemma over_ext_all es m m' : (forall k, m k = m' k) -> forall k, over es m k = over es m' k.
Proof. intros E k. by apply over_ext. Qed.

Context (P : Z).

Definition versioned (b : Bucket) : Prop := 0 <= version_of (entries b) <= P.

Record bucket_ok (b : Bucket) (beneath : ledger) : Prop := {
  ok_wf : wf_bucket b;
  ok_fresh : fresh (entries b) beneath;
  ok_version : versioned b
}.

Definition level_ok (l : BucketLevel) (beneath : ledger) : Prop :=
  bucket_ok (snap l) beneath /\ bucket_ok (curr l) (over (entries (snap l)) beneath).

(** The bucket the merge under way at level [j] starts from, after ledger [n]. *)
Definition merge_base (n : Z) (j : nat) (l : BucketLevel) : Bucket :=
  if should_merge_with_empty_curr n j then Bucket_empty else curr l.

Definition pending_ok (n : Z) (j : nat) (above : Bucket) (l : BucketLevel) : Prop :=
  match next l with
  | None => entries above = []
  | Some p =>
      exists b, resolve p = Ok b /\ merge_of (keep_tombstone_entries j) Preserve (merge_base n j l) above b /\ versioned b
  end.

Fixpoint levels_ok (n : Z) (above : Bucket) (j : nat) (ls : list BucketLevel) : Prop :=
  match ls with
  | [] => True
  | l :: ls' =>
      level l = j /\ level_ok l (view ls') /\ pending_ok n j above l /\
      (j = 10%nat -> entries (snap l) = []) /\ levels_ok n (snap l) (S j) ls'
  end.

(** A batch can be merged into level 0: with the entries in memory, or from a bucket
    that is not empty. *)
Definition level0_mergeable (l : BucketLevel) : Prop := in_memory (curr l) = true \/ is_empty (curr l) = false.

(** The list after ledger [n]. *)
Definition list_ok (n : Z) (bl : BucketList) : Prop :=
  ledger_seq bl = n /\
  exists l0 ls, levels bl = l0 :: ls /\ length ls = 10%nat /\ level l0 = 0%nat /\ next l0 = None /\
    level0_mergeable l0 /\ level_ok l0 (view ls) /\ levels_ok n (snap l0) 1 ls.

(** ** The loop over the levels as a recursion *)

(** What snapping leaves of a level, if it spills. *)
Definition spilled (s : Z) (j : nat) (l : BucketLevel) : BucketLevel :=
  if level_should_spill s j then
    MkLevel Bucket_empty (if (j =? 0)%nat then clear_in_memory_entries (curr l) else curr l) (next l) (level l)
  else l.

(** Level [j] after the ledger; [above] is the level above before it. *)
Definition advance_level (dir : bool) (s Q : Z) (above : BucketLevel) (j : nat) (l : BucketLevel)
    : result BucketLevel BucketError :=
  let l := spilled s j l in
  if level_should_spill s (j - 1) then
    let? l := commit l in
    prepare_with_normalization dir Q (if (j - 1 =? 0)%nat then clear_in_memory_entries (curr above) else curr above)
      [] (keep_tombstone_entries j) Preserve (should_merge_with_empty_curr s j) l
  else Ok l.

Fixpoint advance_levels (dir : bool) (s Q : Z) (above : BucketLevel) (j : nat) (ls : list BucketLevel)
    : result (list BucketLevel) BucketError :=
  match ls with
  | [] => Ok []
  | l :: ls =>
      let? ls := advance_levels dir s Q l (S j) ls in
      let? l := advance_level dir s Q above j l in
      Ok (l :: ls)
  end.

Lemma try_fold_app {S A E} (f : S -> A -> result S E) l1 l2 s :
  try_fold f (l1 ++ l2) s = let? s := try_fold f l1 s in try_fold f l2 s.
Proof. revert s. induction l1 as [|x l1 IH]; intros s; simpl; [done|]. destruct (f s x); [apply IH|done]. Qed.

Lemma rev_seq_S a m : rev (seq a (S m)) = rev (seq (S a) m) ++ [a].
Proof. done. Qed.

Lemma insert_two {A} (pre suf : list A) a b x y :
  <[S (length pre) := y]> (<[length pre := x]> (pre ++ a :: b :: suf)) = pre ++ x :: y :: suf.
Proof.
  rewrite (insert_app_r_alt pre) by done. rewrite Nat.sub_diag. cbn [insert list_insert].
  rewrite (insert_app_r_alt pre) by lia. by replace (S (length pre) - length pre)%nat with 1%nat by lia.
Qed.

Lemma spill_loop dir s Q pre l suf :
  V12 <= Q -> (length pre + length suf = 10)%nat ->
  try_fold (spill_into dir s Q) (rev (seq (S (length pre)) (length suf))) (pre ++ l :: suf) =
    let? suf := advance_levels dir s Q l (S (length pre)) suf in Ok (pre ++ spilled s (length pre) l :: suf).
Proof.
  intros HQ. revert pre l. induction suf as [|l2 suf IH]; intros pre l Hlen.
  - simpl. unfold spilled. simpl in Hlen. replace (length pre) with 10%nat by lia. done.
  - cbn [length]. rewrite rev_seq_S, try_fold_app. cbn [advance_levels].
    specialize (IH (pre ++ [l]) l2). rewrite length_app in IH. cbn [length] in IH, Hlen.
    replace (length pre + 1)%nat with (S (length pre)) in IH by lia.
    rewrite <- app_assoc in IH. cbn [app] in IH. rewrite IH by lia. clear IH.
    destruct (advance_levels dir s Q l2 (S (S (length pre))) suf) as [suf'|]; [|done].
    cbn [result_bind try_fold]. rewrite <- app_assoc. cbn [app].
    unfold spill_into, advance_level. replace (S (length pre) - 1)%nat with (length pre) by lia.
    generalize (spilled s (S (length pre)) l2). intros l2'. unfold spilled.
    destruct (level_should_spill s (length pre)) eqn:Hs.
    + rewrite list_lookup_middle by done.
      assert ((pre ++ l :: l2' :: suf') !! S (length pre) = Some l2') as ->.
      { rewrite lookup_app_r by lia. by replace (S (length pre) - length pre)%nat with 1%nat by lia. }
      unfold protocol_version_starts_from. destruct (Z.leb_spec V12 Q); [|lia].
      cbn [snap_level]. destruct (length pre =? 0)%nat; cbn [curr snap next level];
        (destruct (commit l2') as [c|]; [|done]); cbn [result_bind];
        (destruct (prepare_with_normalization _ _ _ _ _ _ _ c) as [c'|]; [|done]); cbn [result_bind];
        by rewrite insert_two.
    + cbn [result_bind]. done.
Qed.

(** ** A level through a spill *)

Lemma view_ext l ls ls' : (forall k, view ls k = view ls' k) -> forall k, view (l :: ls) k = view (l :: ls') k.
Proof. intros E. simpl. apply over_ext_all, over_ext_all, E. Qed.

Lemma bucket_ok_ext b m m' : (forall k, m k = m' k) -> bucket_ok b m -> bucket_ok b m'.
Proof. intros E []. split; [done| |done]. by apply (fresh_ext _ m). Qed.

Lemma level_ok_ext l m m' : (forall k, m k = m' k) -> level_ok l m -> level_ok l m'.
Proof.
  intros E [Hs Hc]. split; [by apply (bucket_ok_ext _ m)|].
  apply (bucket_ok_ext _ (over (entries (snap l)) m)); [|done]. by apply over_ext_all.
Qed.

Lemma empty_wf : wf_bucket Bucket_empty.
Proof. split; [|done]. exists [], []. split; [done|]. split; [done|]. by left. Qed.

Lemma clear_wf b : wf_bucket b -> wf_bucket (clear_in_memory_entries b).
Proof. done. Qed.

Lemma empty_versioned : 0 <= P -> versioned Bucket_empty.
Proof. intros HP. unfold versioned, version_of. simpl. lia. Qed.

Lemma empty_ok m : 0 <= P -> bucket_ok Bucket_empty m.
Proof. intros HP. split; [apply empty_wf|done|by apply empty_versioned]. Qed.

Lemma clear_ok b m : bucket_ok b m -> bucket_ok (clear_in_memory_entries b) m.
Proof. intros [Hw Hf Hv]. split; [by apply clear_wf|done|done]. Qed.

(** Moving a bucket from [curr] to [snap] shows the same entries. *)
Lemma spilled_ok s j l ls ls' :
  0 <= P -> level_ok l (view ls) ->
  (forall k, view ls' k = if level_should_spill s j then over (entries (snap l)) (view ls) k else view ls k) ->
  level_ok (spilled s j l) (view ls') /\ forall k, view (spilled s j l :: ls') k = view (l :: ls) k.
Proof.
  intros HP [Hs Hc] Hv. unfold spilled. destruct (level_should_spill s j).
  - assert (bucket_ok (if (j =? 0)%nat then clear_in_memory_entries (curr l) else curr l) (view ls')) as Hb.
    { apply (bucket_ok_ext _ (over (entries (snap l)) (view ls))); [done|].
      destruct (j =? 0)%nat; [by apply clear_ok|done]. }
    split; [split; [done|by apply empty_ok]|]. intros k. simpl. rewrite over_nil.
    transitivity (over (entries (curr l)) (view ls') k); [by destruct (j =? 0)%nat|]. by apply over_ext.
  - split; [by apply (level_ok_ext _ (view ls))|]. apply view_ext. intros k. apply Hv.
Qed.

Lemma commit_level keep l top m :
  bucket_ok (curr l) m -> fresh (entries top) (over (entries (curr l)) m) -> may_drop keep m ->
  match next l with
  | None => entries top = []
  | Some p => exists b, resolve p = Ok b /\ merge_of keep Preserve (curr l) top b /\ versioned b
  end ->
  exists b, commit l = Ok (MkLevel b (snap l) None (level l)) /\ bucket_ok b m /\
    forall k, over (entries b) m k = over (entries top) (over (entries (curr l)) m) k.
Proof.
  intros Hc Hf Hd. unfold commit. destruct l as [c sn [p|] j]; simpl in *.
  - intros (b & -> & Hm & Hver). exists b. split; [done|].
    destruct (merge_of_over _ _ _ _ _ m Hm Hd (ok_fresh _ _ Hc) Hf) as [Ho Hfr].
    split; [|done]. split; [apply Hm|done|done].
  - intros ->. by exists c.
Qed.

Lemma prepare_level dir s j l beneath inc :
  V12 <= P -> (1 <= j)%nat -> level l = j -> next l = None -> level_ok l beneath ->
  wf_bucket inc -> versioned inc ->
  fresh (entries inc) (over (entries (curr l)) (over (entries (snap l)) beneath)) ->
  exists b, prepare_with_normalization dir P inc [] (keep_tombstone_entries j) Preserve
      (should_merge_with_empty_curr s j) l =
      Ok (MkLevel (curr l) (snap l) (Some (Async (merge_base s j l) inc (Ok b))) (level l)) /\
    merge_of (keep_tombstone_entries j) Preserve (merge_base s j l) inc b /\ versioned b.
Proof.
  intros HP Hj Hl Hn [_ Hc] Hw Hver Hf. unfold prepare_with_normalization. rewrite Hn, Hl.
  destruct (Nat.leb_spec 1 j); [|lia]. fold (merge_base s j l).
  set (opts := MkOptions (keep_tombstone_entries j) P Preserve [] InputDerived).
  assert (wf_bucket (merge_base s j l) /\ versioned (merge_base s j l) /\
    exists m, fresh (entries inc) (over (entries (merge_base s j l)) m)) as (Hwb & Hvb & m & Hfm).
  { assert (0 <= P) by (unfold V12 in HP; lia).
    unfold merge_base. destruct (should_merge_with_empty_curr s j).
    - split; [apply empty_wf|]. split; [by apply empty_versioned|]. by eexists.
    - split; [apply Hc|]. split; [apply Hc|]. by eexists. }
  destruct (merge_buckets_spec (merge_base s j l) inc opts m Hwb Hw) as (b & Hb & Hm & Hv); [by left| |done|].
  { split; [unfold opts, V12 in *; simpl; lia|]. intros _. by split. }
  exists b. split; [|done]. rewrite (start_merge_buckets _ _ _ _ _ _ _ b (or_introl eq_refl) Hb). by rewrite <- Hl.
Qed.

Lemma advance_level_ok dir n j above l ls ls' :
  V12 <= P -> (1 <= j <= 10)%nat -> 0 <= n -> n + 1 + 2 ^ 19 <= u32_max ->
  (j + length ls = 10)%nat ->
  level_ok above (view (l :: ls)) ->
  levels_ok n (snap above) j (l :: ls) ->
  (forall k, view ls' k = if level_should_spill (n + 1) j then over (entries (snap l)) (view ls) k else view ls k) ->
  exists l', advance_level dir (n + 1) P above j l = Ok l' /\
    level l' = j /\ level_ok l' (view ls') /\
    pending_ok (n + 1) j (snap (spilled (n + 1) (j - 1) above)) l' /\
    snap l' = snap (spilled (n + 1) j l) /\
    forall k, view (l' :: ls') k =
      if level_should_spill (n + 1) (j - 1) then over (entries (snap above)) (view (l :: ls)) k else view (l :: ls) k.
Proof.
  intros HP Hj Hn Hb Hlen [Has Hac] (Hlev & Hok & Hpend & Hlast & _) Hv. unfold advance_level.
  assert (0 <= P) by (unfold V12 in HP; lia).
  destruct (spilled_ok (n + 1) j l ls ls') as [Hok' Hview]; [done..|].
  assert (level (spilled (n + 1) j l) = j /\ next (spilled (n + 1) j l) = next l) as [Hlev' Hnext]
    by (unfold spilled; by destruct (level_should_spill (n + 1) j)).
  unfold spilled at 3. destruct (level_should_spill (n + 1) (j - 1)) eqn:Hsp.
  - set (l1 := spilled (n + 1) j l) in *.
    assert (merge_base n j l = curr l1) as Hbase.
    { unfold merge_base, l1, spilled. rewrite (flag_before_spill n j) by (done || lia).
      by destruct (level_should_spill (n + 1) j). }
    destruct (commit_level (keep_tombstone_entries j) l1 (snap above) (over (entries (snap l1)) (view ls')))
      as (b & Hcommit & Hbok & Hbview); [apply Hok'| | |by rewrite Hnext, <- Hbase|].
    { apply (fresh_ext _ (view (l :: ls))); [|apply Has]. intros k. symmetry. apply Hview. }
    { unfold keep_tombstone_entries, bl_keep_tombstone_entries. destruct (Nat.ltb_spec j (BUCKET_LIST_LEVELS - 1));
        [by left|right]. assert (j = 10%nat) as -> by (unfold BUCKET_LIST_LEVELS in *; lia).
      destruct ls as [|? ls]; [|simpl in Hlen; lia]. intros k.
      assert (l1 = l) as -> by (unfold l1, spilled; by rewrite last_never_spills).
      rewrite (Hlast eq_refl), over_nil, Hv. by rewrite last_never_spills. }
    rewrite Hcommit. cbn [result_bind].
    set (inc := if (j - 1 =? 0)%nat then clear_in_memory_entries (curr above) else curr above).
    assert (entries inc = entries (curr above) /\ wf_bucket inc /\ versioned inc) as (Hinc & Hwi & Hvi).
    { destruct Hac as [Hw _ Hve]. unfold inc. destruct (j - 1 =? 0)%nat; (split; [done|by split]). }
    assert (forall k, over (entries b) (over (entries (snap l1)) (view ls')) k =
      over (entries (snap above)) (view (l :: ls)) k) as Hnew.
    { intros k. rewrite Hbview. apply over_ext. apply Hview. }
    destruct (prepare_level dir (n + 1) j (MkLevel b (snap l1) None (level l1)) (view ls') inc)
      as (b' & Hprep & Hm & Hve); try done; [lia|by split; [apply Hok'|]| |].
    { rewrite Hinc. cbn [curr snap]. apply (fresh_ext _ (over (entries (snap above)) (view (l :: ls)))); [done|apply Hac]. }
    rewrite Hprep. eexists. split; [done|]. split; [done|]. split; [by split; [apply Hok'|]|].
    split; [|done]. unfold pending_ok. cbn [next snap]. exists b'. done.
  - assert (level_should_spill (n + 1) j = false) as Hsp'.
    { destruct (level_should_spill (n + 1) j) eqn:E; [|done]. replace j with (S (j - 1)) in E by lia.
      apply spill_above in E; [congruence|lia]. }
    assert (spilled (n + 1) j l = l) as E by (unfold spilled; by rewrite Hsp'). rewrite E in *.
    eexists. split; [done|]. split; [done|]. split; [done|]. split; [|done].
    unfold pending_ok, merge_base in *. by rewrite (flag_between_spills n j).
Qed.

Lemma advance_levels_ok dir n j above ls :
  V12 <= P -> (1 <= j)%nat -> 0 <= n -> n + 1 + 2 ^ 19 <= u32_max -> (j + length ls = 11)%nat ->
  level_ok above (view ls) -> levels_ok n (snap above) j ls ->
  exists ls', advance_levels dir (n + 1) P above j ls = Ok ls' /\ length ls' = length ls /\
    levels_ok (n + 1) (snap (spilled (n + 1) (j - 1) above)) j ls' /\
    forall k, view ls' k =
      if level_should_spill (n + 1) (j - 1) then over (entries (snap above)) (view ls) k else view ls k.
Proof.
  intros HP Hj Hn Hb. revert j above Hj. induction ls as [|l ls IH]; intros j above Hj Hlen Hok Hls.
  - exists []. simpl in Hlen. replace (j - 1)%nat with 10%nat by lia. rewrite last_never_spills. done.
  - cbn [length] in Hlen. pose proof Hls as (Hlev & Hlok & Hpend & Hlast & Hrest).
    destruct (IH (S j) l) as (ls' & Hadv & Hlen' & Hls' & Hv); [lia|lia|done|done|]. clear IH.
    replace (S j - 1)%nat with j in Hls', Hv by lia.
    destruct (advance_level_ok dir n j above l ls ls') as (l' & Hl' & Hlev' & Hok' & Hpend' & Hsnap' & Hv');
      [done|lia|done|done|lia|done..|].
    cbn [advance_levels]. rewrite Hadv. cbn [result_bind]. rewrite Hl'. cbn [result_bind].
    exists (l' :: ls'). split; [done|]. split; [simpl; by rewrite Hlen'|]. split; [|done].
    cbn [levels_ok]. rewrite Hsnap'. split; [done|]. split; [done|]. split; [done|]. split; [|done].
    intros ->. unfold spilled. rewrite last_never_spills. by apply Hlast.
Qed.

(** ** Level 0 *)

(** The bucket a batch makes at level 0: metadata of the protocol, merged entries. *)
Definition first_bucket (out : list BucketEntry) : Bucket :=
  MkBucket (Metaentry (MkMeta P (protocol_version_starts_from P V23)) :: out) false true.

Lemma first_level_result l inc m :
  V12 <= P -> level l = 0%nat -> next l = None -> level0_mergeable l -> in_memory inc = true ->
  wf_entries (entries (curr l)) -> wf_entries (entries inc) -> fresh (entries inc) (over (entries (curr l)) m) ->
  exists out, two_pointer_merge (entries (curr l)) (entries inc) KeepDead Preserve = Ok out /\ keyed out /\
    (forall k, find_entry out k = combined KeepDead Preserve (find_entry (entries (curr l)) k) (find_entry (entries inc) k)) /\
    (let? l := prepare_first_level P inc l in commit l) = Ok (MkLevel (first_bucket out) (snap l) None 0).
Proof.
  intros HP Hl Hn Hmc Hmi Hwc Hwi Hf.
  destruct (two_pointer_merge_spec KeepDead Preserve _ _ m Hwc Hwi Hf) as (out & Hout & Hk & Hfind).
  exists out. split; [done|]. split; [done|]. split; [done|].
  assert (metadata_entry P = Some (Metaentry (MkMeta P (protocol_version_starts_from P V23)))) as Hmeta.
  { unfold metadata_entry, protocol_version_starts_from, V11, V12 in *. destruct (Z.leb_spec 11 P); [done|lia]. }
  pose proof (metadata_prefix P out Hk) as (Hwf & _ & _). rewrite Hmeta in Hwf.
  destruct (wf_entries_parts _ Hwc) as (mo & _ & Hao & Hso & _), (wf_entries_parts _ Hwi) as (mn & _ & Han & Hsn & _).
  unfold prepare_first_level. rewrite Hl, Hn, Hmi. cbn [Nat.eqb negb].
  destruct (in_memory (curr l)) eqn:Hmcl; cbn [andb].
  - unfold merge_in_memory, get_in_memory_entries.
    rewrite Hmcl, Hmi, Hso, Hsn, two_pointer_merge_not_metadata, Hout. cbn [result_bind]. rewrite Hmeta.
    by rewrite (wf_from_parts _ Hwf).
  - destruct Hmc as [|Hmc]; [congruence|]. rewrite merge_buckets_no_shadows by (by left).
    unfold merge_with_shadows_impl. rewrite Hmc, andb_false_r, Hao, Han.
    cbn [build_output_metadata metadata_policy max_protocol_version keep_dead_entries normalize_init_entries result_bind].
    rewrite Hmeta, two_pointer_merge_not_metadata, Hout. cbn [result_bind map]. rewrite maybe_put_no_shadows. cbn [fst app].
    unfold from_sorted_entries, from_sorted_entries_with_in_memory. rewrite (wf_sorted_check _ Hwf).
    cbn [result_bind in_memory negb entries]. by rewrite (wf_sorted_check _ Hwf).
Qed.

Lemma first_bucket_version out : keyed out -> version_of (entries (first_bucket out)) = P.
Proof.
  intros Hk. unfold version_of, first_bucket. simpl. destruct out as [|e out]; [done|].
  destruct Hk as [(k & He & _) _]. by destruct e.
Qed.

Lemma prepare_commit_first_level l inc m :
  V12 <= P -> level l = 0%nat -> next l = None -> level0_mergeable l -> in_memory inc = true ->
  level_ok l m -> wf_entries (entries inc) ->
  fresh (entries inc) (over (entries (curr l)) (over (entries (snap l)) m)) ->
  exists b, (let? l := prepare_first_level P inc l in commit l) = Ok (MkLevel b (snap l) None 0) /\
    in_memory b = true /\ bucket_ok b (over (entries (snap l)) m) /\
    forall k, over (entries b) (over (entries (snap l)) m) k =
      over (entries inc) (over (entries (curr l)) (over (entries (snap l)) m)) k.
Proof.
  intros HP Hl Hn Hmc Hmi [_ [[Hwc _] Hfc _]] Hw Hf.
  destruct (first_level_result l inc (over (entries (snap l)) m)) as (out & _ & Hk & Hfind & Hr); [done..|].
  exists (first_bucket out). split; [done|]. split; [done|].
  assert (merge_of KeepDead Preserve (curr l) inc (first_bucket out)) as Hm.
  { split; [|intros k; apply Hfind]. split; [|done]. by exists [Metaentry (MkMeta P (protocol_version_starts_from P V23))], out; eauto. }
  destruct (merge_of_over _ _ _ _ _ _ Hm (or_introl eq_refl) Hfc Hf) as [Ho Hfr]. split; [|done].
  split; [apply Hm|done|]. unfold versioned. rewrite first_bucket_version by done. unfold V12 in HP. lia.
Qed.

Lemma add_batch_internal_ok n nb bl :
  V12 <= P -> 0 <= n -> n + 1 + 2 ^ 19 <= u32_max -> list_ok n bl ->
  wf_entries (entries nb) -> in_memory nb = true -> fresh (entries nb) (view (levels bl)) ->
  exists ls, add_batch_internal (n + 1) P nb bl = Ok ls /\
    list_ok (n + 1) (MkBucketList ls (n + 1) (bucket_dir bl)) /\
    forall k, view ls k = over (entries nb) (view (levels bl)) k.
Proof.
  intros HP Hn Hb (_ & l0 & ls & Hlv & Hlen & Hl0 & Hn0 & Hm0 & Hok0 & Hls) Hw Hm Hf.
  assert (0 <= P) by (unfold V12 in HP; lia).
  unfold add_batch_internal. destruct (Z.eqb_spec (n + 1) 0); [lia|]. rewrite Hlv in *.
  pose proof (spill_loop (bucket_dir bl) (n + 1) P [] l0 ls HP) as Hloop. cbn [length app] in Hloop.
  rewrite Hlen in Hloop. change (BUCKET_LIST_LEVELS - 1)%nat with 10%nat. rewrite Hloop by done.
  destruct (advance_levels_ok (bucket_dir bl) n 1 l0 ls) as (ls' & Hadv & Hlen' & Hls' & Hv); [done|lia|done|done|lia|done..|].
  rewrite Hadv. cbn [result_bind]. cbn [Nat.sub] in Hls', Hv.
  destruct (spilled_ok (n + 1) 0 l0 ls ls') as [Hok Hview]; [done..|].
  set (l1 := spilled (n + 1) 0 l0) in *.
  assert (level l1 = 0%nat /\ next l1 = None /\ level0_mergeable l1) as (Hl1 & Hn1 & Hm1)
    by (unfold l1, spilled, level0_mergeable; destruct (level_should_spill (n + 1) 0); simpl; auto).
  destruct (prepare_commit_first_level l1 nb (view ls')) as (b & Hb1 & Hmb & Hbok & Hbv); [done..| |].
  { apply (fresh_ext _ (view (l0 :: ls))); [|done]. intros k. symmetry. apply Hview. }
  destruct (prepare_first_level P nb l1) as [l2|]; [|done]. cbn [result_bind] in *. rewrite Hb1. cbn [result_bind].
  eexists. split; [done|]. split.
  - split; [done|]. exists (MkLevel b (snap l1) None 0), ls'. split; [done|]. split; [by rewrite Hlen'|].
    split; [done|]. split; [done|]. split; [by left|]. split; [by split; [apply Hok|]|done].
  - intros k. cbn [view curr snap]. rewrite Hbv. apply over_ext. apply Hview.
Qed.
End facts.
