(* ===== verification/BucketListRefinement.v ===== *)
(** * BucketListRefinement: the bucket list implements a map from keys to entries

    A ledger is a map; a batch updates it. The theorems say that the list, driven
    one ledger after the other through all the spills and merges, answers every
    lookup as that map, that the iterator over the live entries yields exactly its
    entries, and that forgetting the merges under way and restarting them is not
    seen. *)

From S2P Require Import Prelude Bucket BucketMerge BucketList BucketListFacts.

Section batches.
Context `{LedgerTypes}.

(** ** Batches *)

Record batch := MkBatch {
  protocol : Z;
  inits : list LedgerEntry;
  lives : list LedgerEntry;
  deads : list LedgerKey
}.

(** The last entry of the list with a key. *)
Fixpoint last_with (es : list LedgerEntry) (k : LedgerKey) : option LedgerEntry :=
  match es with
  | [] => None
  | e :: es =>
      match last_with es k with
      | Some x => Some x
      | None => if decide (entry_to_key e = k) then Some e else None
      end
  end.

Definition batch_update (b : batch) (m : ledger) : ledger := fun k =>
  if decide (k ∈ deads b) then None
  else
    match last_with (lives b) k, last_with (inits b) k with
    | Some e, _ => Some e
    | None, Some e => Some e
    | None, None => m k
    end.

Definition keys (es : list LedgerEntry) : list LedgerKey := map entry_to_key es.

(** No key is in two of the lists. *)
Definition disjoint_batch (b : batch) : Prop :=
  (forall k, k ∈ keys (inits b) -> k ∉ keys (lives b)) /\
  (forall k, k ∈ keys (inits b) -> k ∉ deads b) /\
  (forall k, k ∈ keys (lives b) -> k ∉ deads b).

(** Only entries that do not exist are created. *)
Definition valid_batch (b : batch) (m : ledger) : Prop :=
  disjoint_batch b /\ forall k, k ∈ keys (inits b) -> m k = None.

(** The entries of a batch that have keys. *)
Definition keyed_entries (b : batch) : list BucketEntry :=
  map Initentry (deduplicate_entries (inits b)) ++ map Liveentry (deduplicate_entries (lives b)) ++
  map Deadentry (deduplicate_dead [] (deads b)).

Lemma batch_entries_eq b :
  V12 <= protocol b ->
  batch_entries (protocol b) (inits b) (lives b) (deads b) false =
  Metaentry (MkMeta (protocol b) (protocol_version_starts_from (protocol b) V23)) :: keyed_entries b.
Proof.
  intros HP. unfold batch_entries. assert (protocol_version_starts_from (protocol b) V11 = true) as ->; [|done].
  unfold protocol_version_starts_from, V12, V11 in *. apply Z.leb_le. lia.
Qed.

Lemma dedup_keys es k : k ∈ keys (deduplicate_entries es) <-> k ∈ keys es.
Proof.
  unfold keys. induction es as [|e es IH]; [done|]. simpl. case_bool_decide as Hin.
  - rewrite IH, elem_of_cons. split; [by right|]. by intros [-> |?].
  - simpl. by rewrite !elem_of_cons, IH.
Qed.

Lemma dedup_nodup es : NoDup (keys (deduplicate_entries es)).
Proof.
  induction es as [|e es IH]; [constructor|]. simpl. case_bool_decide as Hin; [done|].
  simpl. constructor; [|done]. fold (keys (deduplicate_entries es)). by rewrite dedup_keys.
Qed.

Lemma dedup_dead_spec seen ks :
  NoDup (deduplicate_dead seen ks) /\ forall k, k ∈ deduplicate_dead seen ks <-> k ∈ ks /\ k ∉ seen.
Proof.
  revert seen. induction ks as [|x ks IH]; intros seen; simpl.
  - split; [constructor|]. intros k. rewrite elem_of_nil. tauto.
  - case_bool_decide as Hin.
    + destruct (IH seen) as [Hn Hk]. split; [done|]. intros k. rewrite Hk, elem_of_cons.
      split; [tauto|]. by intros [[-> |?] ?].
    + destruct (IH (x :: seen)) as [Hn Hk]. split.
      * constructor; [|done]. rewrite Hk, elem_of_cons. tauto.
      * intros k. rewrite elem_of_cons, Hk, !elem_of_cons. destruct (decide (k = x)) as [->|]; tauto.
Qed.

(** ** Looking up in the entries of a batch *)

Lemma find_entry_app l1 l2 k :
  find_entry (l1 ++ l2) k = match find_entry l1 k with Some e => Some e | None => find_entry l2 k end.
Proof. induction l1 as [|e l1 IH]; [done|]. simpl. by case_bool_decide. Qed.

Lemma last_with_none es k : k ∉ keys es <-> last_with es k = None.
Proof.
  unfold keys. induction es as [|e es IH]; simpl; [split; [done|intros _; apply not_elem_of_nil]|].
  rewrite not_elem_of_cons, IH. destruct (last_with es k); [split; [by intros []|done]|].
  destruct (decide (entry_to_key e = k)) as [->|Hne]; split; intros E; try done.
  by destruct E.
Qed.

Lemma find_dedup (C : LedgerEntry -> BucketEntry) es k :
  (forall e, key (C e) = Some (entry_to_key e)) ->
  find_entry (map C (deduplicate_entries es)) k = option_map C (last_with es k).
Proof.
  intros HC. induction es as [|e es IH]; [done|]. simpl. case_bool_decide as Hin.
  - rewrite IH. destruct (last_with es k) eqn:E; [done|]. case_decide as Hk; [|done]. subst k.
    by apply last_with_none in E.
  - simpl. rewrite HC. case_bool_decide as Hk.
    + injection Hk as Hk. subst k. apply last_with_none in Hin. rewrite Hin. by rewrite decide_True.
    + rewrite IH. destruct (last_with es k); [done|]. rewrite decide_False; [done|congruence].
Qed.

Lemma find_dead ks k : find_entry (map Deadentry ks) k = if decide (k ∈ ks) then Some (Deadentry k) else None.
Proof.
  induction ks as [|x ks IH]; [done|]. simpl. case_bool_decide as Hk.
  - injection Hk as ->. rewrite decide_True; [done|by left].
  - rewrite IH. destruct (decide (k ∈ ks)); [rewrite decide_True; [done|by right]|].
    rewrite decide_False; [done|]. rewrite elem_of_cons. intros [-> |?]; done.
Qed.

Lemma keyed_entries_find b k :
  find_entry (keyed_entries b) k =
  match last_with (inits b) k with
  | Some e => Some (Initentry e)
  | None =>
      match last_with (lives b) k with
      | Some e => Some (Liveentry e)
      | None => if decide (k ∈ deads b) then Some (Deadentry k) else None
      end
  end.
Proof.
  unfold keyed_entries. rewrite !find_entry_app, !find_dedup, find_dead by done.
  destruct (last_with (inits b) k), (last_with (lives b) k); try done. simpl.
  destruct (dedup_dead_spec [] (deads b)) as [_ Hd].
  destruct (decide (k ∈ deduplicate_dead [] (deads b))) as [Hin|Hin];
    rewrite Hd, elem_of_nil in Hin; [rewrite decide_True|rewrite decide_False]; tauto.
Qed.

Lemma keyed_entries_keys b :
  map key (keyed_entries b) =
  map Some (keys (deduplicate_entries (inits b)) ++ keys (deduplicate_entries (lives b)) ++
            deduplicate_dead [] (deads b)).
Proof. unfold keyed_entries, keys. by rewrite !map_app, !map_map. Qed.

Lemma keyed_entries_nodup b : NoDup (map key (keyed_entries b)) <-> disjoint_batch b.
Proof.
  rewrite keyed_entries_keys. fold (fmap (M:=list) (@Some LedgerKey)). rewrite NoDup_fmap by apply _.
  rewrite !NoDup_app. destruct (dedup_dead_spec [] (deads b)) as [Hnd Hd].
  assert (forall k, k ∈ deduplicate_dead [] (deads b) <-> k ∈ deads b) as Hd'
    by (intros k; rewrite Hd, elem_of_nil; tauto).
  pose proof (dedup_nodup (inits b)). pose proof (dedup_nodup (lives b)). unfold disjoint_batch.
  setoid_rewrite elem_of_app. setoid_rewrite Hd'. setoid_rewrite dedup_keys. split.
  - intros (_ & Hi & _ & Hl & _). split; [|split]; intros k Hk Hk'; [apply (Hi k Hk); auto..|by apply (Hl k Hk)].
  - intros (Hil & Hid & Hld). repeat split; try done. intros k Hk [?|?]; [by apply (Hil k)|by apply (Hid k)].
Qed.

(** ** Sorting the entries of a batch *)

#[local] Instance entry_key_le_trans : Transitive entry_key_le.
Proof.
  intros a b c. unfold entry_key_le, compare_entries.
  destruct (key a) as [ka|], (key b) as [kb|], (key c) as [kc|]; try done.
  apply (cmp_le_trans compare_keys).
Qed.

#[local] Instance entry_key_le_total : Total entry_key_le.
Proof.
  intros a b. unfold entry_key_le, compare_entries.
  destruct (key a) as [ka|], (key b) as [kb|]; try (by left); try (by right).
  apply (cmp_le_total compare_keys).
Qed.

Lemma entry_key_lt a b : entry_key_le a b -> key a <> key b -> compare_entries a b = Lt.
Proof.
  unfold entry_key_le. destruct (compare_entries a b) eqn:E; [|done|done]. intros _ Hne. exfalso. apply Hne.
  unfold compare_entries in E. destruct (key a), (key b); try done. f_equal. by apply (compare_eq compare_keys).
Qed.

Lemma sorted_keyed l :
  StronglySorted entry_key_le l -> NoDup (map key l) -> Forall (fun e => key e <> None) l -> keyed l.
Proof.
  induction 1 as [|e l Hs IH Ha]; [done|]. simpl. intros [Hnin Hnd]%NoDup_cons [He Hl]%Forall_cons.
  split; [|by apply IH]. destruct (key e) as [k|] eqn:Hk; [|done]. exists k. split; [done|].
  apply Forall_forall. intros x Hx. rewrite Forall_forall in Ha, Hl. specialize (Ha x Hx). specialize (Hl x Hx).
  destruct (key x) as [kx|] eqn:Hkx; [|done]. exists kx. split; [done|].
  assert (compare_entries e x = Lt) as Hlt.
  { apply entry_key_lt; [done|]. rewrite Hk. intros E. apply Hnin. rewrite E. by apply list_elem_of_fmap_2. }
  unfold compare_entries in Hlt. by rewrite Hk, Hkx in Hlt.
Qed.

Lemma sorted_wf l : StronglySorted entry_key_le l -> NoDup (map key l) -> wf_entries l.
Proof.
  intros Hs Hnd. destruct l as [|e l]; [exists [], []; by repeat split; left|].
  pose proof Hs as [Hs' Ha]%StronglySorted_inv. pose proof Hnd as [Hnin Hnd']%NoDup_cons.
  assert (Forall (fun x => key x <> None) l) as Hl.
  { apply Forall_forall. intros x Hx Hkx. rewrite Forall_forall in Ha. specialize (Ha x Hx).
    assert (compare_entries e x = Lt) as Hlt.
    { apply entry_key_lt; [done|]. intros E. apply Hnin. rewrite E. by apply list_elem_of_fmap_2. }
    unfold compare_entries in Hlt. rewrite Hkx in Hlt. by destruct (key e). }
  pose proof (sorted_keyed l Hs' Hnd' Hl) as Hkl.
  destruct (key e) as [k|] eqn:Hk.
  - exists [], (e :: l). split; [done|]. split; [|by left]. apply sorted_keyed; [done|done|].
    constructor; [by rewrite Hk|done].
  - destruct e as [?|?|?|m]; try done. exists [Metaentry m], l. split; [done|]. split; [done|]. right. by exists m.
Qed.

Lemma sorted_check_nodup l : assert_sorted_no_duplicates l = Ok tt -> StronglySorted entry_key_le l -> NoDup (map key l).
Proof.
  intros Hok Hs. induction Hs as [|e l Hs IH Ha]; [constructor|].
  destruct l as [|x l]; [simpl; by apply NoDup_singleton|].
  cbn [assert_sorted_no_duplicates] in Hok. case_bool_decide as Hlt; [|done].
  simpl. constructor; [|by apply IH]. fold (map key (x :: l)).
  change (key e ∉ key x :: map key l) with (key e ∉ map key (x :: l)).
  intros (y & Hey & Hy)%list_elem_of_fmap_1.
  assert (entry_key_le x y) as Hxy.
  { apply StronglySorted_inv in Hs as [_ Hx]. apply elem_of_cons in Hy as [->|Hy].
    - unfold entry_key_le, compare_entries. destruct (key x); [|done]. by rewrite (compare_refl compare_keys).
    - rewrite Forall_forall in Hx. by apply Hx. }
  unfold entry_key_le, compare_entries in *. rewrite <- Hey in Hxy.
  destruct (key e) as [ke|], (key x) as [kx|]; try done.
  apply (compare_gt_lt compare_keys) in Hlt. done.
Qed.

Lemma find_entry_perm l l' k : Permutation l l' -> NoDup (map key l) -> find_entry l k = find_entry l' k.
Proof.
  induction 1 as [|x l l' Hp IH|x y l|l1 l2 l3 Hp1 IH1 Hp2 IH2]; intros Hnd; [done| | |].
  - simpl. apply NoDup_cons in Hnd as [_ Hnd]. by rewrite IH.
  - simpl in *. case_bool_decide as Hx; case_bool_decide as Hy; try done.
    apply NoDup_cons in Hnd as [Hnin _]. exfalso. apply Hnin. rewrite Hx, <- Hy. by left.
  - rewrite IH1 by done. apply IH2. by rewrite <- Hp1.
Qed.

(** The bucket of a batch. *)
Definition batch_bucket (b : batch) : list BucketEntry :=
  merge_sort entry_key_le (batch_entries (protocol b) (inits b) (lives b) (deads b) false).

Lemma batch_bucket_sorted b : StronglySorted entry_key_le (batch_bucket b).
Proof. apply (StronglySorted_merge_sort _). Qed.

Lemma batch_bucket_nodup b : V12 <= protocol b -> NoDup (map key (batch_bucket b)) <-> disjoint_batch b.
Proof.
  intros HP. rewrite <- keyed_entries_nodup. unfold batch_bucket. rewrite merge_sort_Permutation, batch_entries_eq by done.
  simpl. rewrite NoDup_cons. split; [by intros []|]. split; [|done].
  rewrite keyed_entries_keys. intros (x & Hx & _)%list_elem_of_fmap_1. done.
Qed.

Lemma batch_bucket_find b k :
  V12 <= protocol b -> disjoint_batch b -> find_entry (batch_bucket b) k = find_entry (keyed_entries b) k.
Proof.
  intros HP Hd. assert (find_entry (batch_bucket b) k =
    find_entry (batch_entries (protocol b) (inits b) (lives b) (deads b) false) k) as ->.
  { apply find_entry_perm; [apply merge_sort_Permutation|by apply batch_bucket_nodup]. }
  rewrite batch_entries_eq by done. simpl. done.
Qed.

Lemma batch_bucket_over b m k :
  V12 <= protocol b -> disjoint_batch b -> over (batch_bucket b) m k = batch_update b m k.
Proof.
  intros HP Hd. unfold over, batch_update. rewrite batch_bucket_find, keyed_entries_find by done.
  destruct Hd as (Hil & Hid & Hld).
  assert (forall es, last_with es k <> None -> k ∈ keys es) as Hin.
  { intros es Hne. destruct (decide (k ∈ keys es)) as [|Hn]; [done|]. by apply last_with_none in Hn. }
  destruct (last_with (inits b) k) eqn:Ei.
  - pose proof (Hin (inits b)) as Hki. rewrite Ei in Hki. specialize (Hki ltac:(done)).
    rewrite decide_False by (by apply Hid).
    assert (last_with (lives b) k = None) as ->; [|done]. apply last_with_none. by apply Hil.
  - destruct (last_with (lives b) k) eqn:El.
    + pose proof (Hin (lives b)) as Hkl. rewrite El in Hkl. specialize (Hkl ltac:(done)).
      by rewrite decide_False by (by apply Hld).
    + by destruct (decide (k ∈ deads b)).
Qed.

Lemma batch_bucket_fresh b m : V12 <= protocol b -> valid_batch b m -> fresh (batch_bucket b) m.
Proof.
  intros HP [Hd Hi] k e. rewrite batch_bucket_find, keyed_entries_find by done.
  destruct (last_with (inits b) k) eqn:Ei; [|by destruct (last_with (lives b) k), (decide (k ∈ deads b))].
  intros _. apply Hi. destruct (decide (k ∈ keys (inits b))) as [|Hn]; [done|].
  apply last_with_none in Hn. congruence.
Qed.

Lemma batch_update_ext b m m' k : m k = m' k -> batch_update b m k = batch_update b m' k.
Proof. intros E. unfold batch_update. by rewrite E. Qed.

(** ** One ledger *)

Lemma list_ok_weaken P Q n bl : P <= Q -> list_ok P n bl -> list_ok Q n bl.
Proof.
  intros HPQ (Hseq & l0 & ls & Hlv & Hlen & Hl0 & Hn0 & Hm0 & Hok0 & Hls).
  assert (forall b, versioned P b -> versioned Q b) as Hv by (unfold versioned; lia).
  assert (forall b m, bucket_ok P b m -> bucket_ok Q b m) as Hb by (intros ? ? []; split; auto).
  assert (forall l m, level_ok P l m -> level_ok Q l m) as Hl by (intros ? ? []; split; auto).
  split; [done|]. exists l0, ls. split; [done|]. split; [done|]. split; [done|]. split; [done|]. split; [done|].
  split; [auto|]. clear Hlv Hlen Hok0 Hl0 Hn0 Hm0. revert Hls. generalize (snap l0), 1%nat.
  induction ls as [|l ls IH]; intros a j; [done|]. intros (H1 & H2 & H3 & H4 & H5).
  split; [done|]. split; [auto|]. split; [|split; auto].
  unfold pending_ok in *. destruct (next l) as [p|]; [|done].
  destruct H3 as (b & ? & ? & ?). exists b. auto.
Qed.

Lemma list_ok_levels P n bl : list_ok P n bl -> length (levels bl) = BUCKET_LIST_LEVELS.
Proof. intros (_ & l0 & ls & -> & Hl & _). simpl. by rewrite Hl. Qed.

Lemma add_batch_ok P n b bl :
  P <= protocol b -> V12 <= protocol b -> 0 <= n -> n + 1 + 2 ^ 19 <= u32_max ->
  list_ok P n bl -> valid_batch b (view (levels bl)) ->
  exists bl', add_batch (n + 1) (protocol b) (inits b) (lives b) (deads b) bl = Ok bl' /\
    list_ok (protocol b) (n + 1) bl' /\ bucket_dir bl' = bucket_dir bl /\
    forall k, view (levels bl') k = batch_update b (view (levels bl)) k.
Proof.
  intros HPQ HP Hn Hb Hok Hvalid. pose proof Hvalid as [Hd _].
  assert (wf_entries (batch_bucket b)) as Hwf.
  { apply sorted_wf; [apply batch_bucket_sorted|]. by apply batch_bucket_nodup. }
  unfold add_batch, add_batch_impl, fresh_in_memory_only. fold (batch_bucket b).
  rewrite (wf_sorted_check _ Hwf). cbn [result_bind].
  destruct (add_batch_internal_ok (protocol b) n (MkBucket (batch_bucket b) true true) bl) as (ls & Hls & Hok' & Hv);
    [done..|by apply (list_ok_weaken P)|done|done|by apply batch_bucket_fresh|].
  rewrite Hls. cbn [result_bind]. eexists. split; [done|]. split; [done|]. split; [done|].
  intros k. rewrite <- batch_bucket_over by done. apply Hv.
Qed.

Lemma bucket_get_found b k e : bucket_get b k = Some e -> exists r, found e = Some r /\ forall m, over (entries b) m k = r.
Proof.
  unfold bucket_get, over. intros He. rewrite He. apply find_entry_key in He.
  destruct e; try done; eexists; split; try done.
Qed.

Lemma get_view ls k : get_in_levels ls k = view ls k.
Proof.
  induction ls as [|l ls IH]; [done|]. cbn [get_in_levels view].
  destruct (bucket_get (curr l) k) as [e|] eqn:Hc.
  - destruct (bucket_get_found _ _ _ Hc) as (r & -> & ->). done.
  - assert (forall m, over (entries (curr l)) m k = m k) as -> by (intros m; unfold over; unfold bucket_get in Hc; by rewrite Hc).
    destruct (bucket_get (snap l) k) as [e|] eqn:Hs.
    + destruct (bucket_get_found _ _ _ Hs) as (r & -> & ->). done.
    + rewrite IH. unfold over. unfold bucket_get in Hs. by rewrite Hs.
Qed.

(** ** Histories *)

(** The batches of the ledgers 1, 2, ... *)
Definition close_ledger (bl : BucketList) (b : batch) : result BucketList BucketError :=
  add_batch (ledger_seq bl + 1) (protocol b) (inits b) (lives b) (deads b) bl.
Definition replay (dir : bool) (bs : list batch) : result BucketList BucketError :=
  try_fold close_ledger bs (BucketList_new dir).
Definition no_entries : ledger := fun _ => None.
Definition ledger_of (bs : list batch) : ledger := fold_left (fun m b => batch_update b m) bs no_entries.

(** Protocol versions never decrease, batches are valid for the ledger they change. *)
Fixpoint valid_from (P : Z) (m : ledger) (bs : list batch) : Prop :=
  match bs with
  | [] => True
  | b :: bs => P <= protocol b /\ valid_batch b m /\ valid_from (protocol b) (batch_update b m) bs
  end.
Definition valid_history (bs : list batch) : Prop :=
  valid_from V12 no_entries bs /\ len bs + 2 ^ 19 <= u32_max.

Lemma valid_from_ext P m m' bs : (forall k, m k = m' k) -> valid_from P m bs -> valid_from P m' bs.
Proof.
  revert P m m'. induction bs as [|b bs IH]; [done|]. intros P m m' E (HP & [Hd Hi] & Hv).
  split; [done|]. split; [split; [done|]; intros k Hk; rewrite <- E; by apply Hi|].
  apply (IH _ (batch_update b m)); [|done]. intros k. by apply batch_update_ext.
Qed.

Lemma new_view dir k : view (levels (BucketList_new dir)) k = None.
Proof. done. Qed.

Lemma new_list_ok dir : list_ok V12 0 (BucketList_new dir).
Proof.
  split; [done|]. exists (BucketLevel_new 0), (map BucketLevel_new (seq 1 10)).
  assert (forall m, bucket_ok V12 Bucket_empty m) as Hb by (intros m; by apply empty_ok).
  split; [done|]. split; [done|]. split; [done|]. split; [done|]. split; [by left|]. split; [by split|].
  cbn [seq map levels_ok].
  repeat (split; [done|]; split; [by split|]; split; [done|]; split; [done|]). done.
Qed.

Lemma replay_ok P n bl m bs :
  V12 <= P -> 0 <= n -> n + len bs + 2 ^ 19 <= u32_max -> list_ok P n bl ->
  (forall k, view (levels bl) k = m k) -> valid_from P m bs ->
  exists bl' Q, try_fold close_ledger bs bl = Ok bl' /\
    (P <= Q /\ forall B, P <= B -> Forall (fun b => protocol b <= B) bs -> Q <= B) /\ list_ok Q (n + len bs) bl' /\
    forall k, view (levels bl') k = fold_left (fun m b => batch_update b m) bs m k.
Proof.
  revert P n bl m. induction bs as [|b bs IH]; intros P n bl m HP Hn Hb Hok Hm Hv.
  - exists bl, P. replace (n + len []) with n by (unfold len; simpl; lia). split; [done|]. split; [|done]. split; [lia|done].
  - destruct Hv as (HPb & Hvb & Hv). rewrite len_cons in Hb. pose proof (len_nonneg bs).
    destruct (add_batch_ok P n b bl) as (bl1 & Hadd & Hok1 & _ & Hview1); [done|lia|done|lia|done| |].
    { destruct Hvb as [Hd Hi]. split; [done|]. intros k Hk. rewrite Hm. by apply Hi. }
    destruct (IH (protocol b) (n + 1) bl1 (batch_update b m)) as (bl' & Q & Hf & HQ & Hok' & Hv'); [lia|lia|lia|done| |done|].
    { intros k. rewrite Hview1. by apply batch_update_ext. }
    exists bl', Q. cbn [try_fold]. unfold close_ledger at 1. destruct Hok as [Hseq _]. rewrite Hseq, Hadd.
    split; [done|]. split; [split; [lia|]|].
    { intros B HB [Hb1 Hbs]%Forall_cons. by apply HQ. }
    rewrite len_cons. replace (n + (1 + len bs)) with (n + 1 + len bs) by lia. done.
Qed.

Lemma history_ok dir bs :
  valid_history bs ->
  exists bl P, replay dir bs = Ok bl /\
    (V12 <= P /\ forall B, V12 <= B -> Forall (fun b => protocol b <= B) bs -> P <= B) /\ list_ok P (len bs) bl /\
    forall k, view (levels bl) k = ledger_of bs k.
Proof.
  intros [Hv Hb]. destruct (replay_ok V12 0 (BucketList_new dir) no_entries bs) as (bl & P & H1 & H2 & H3 & H4); try done.
  { apply new_list_ok. }
  by exists bl, P.
Qed.

Lemma replay_snoc dir bs b bl : replay dir bs = Ok bl -> replay dir (bs ++ [b]) = close_ledger bl b.
Proof.
  unfold replay. intros Hr. rewrite try_fold_app, Hr. cbn [result_bind try_fold]. by destruct (close_ledger bl b).
Qed.

(** ** Skipped ledgers *)

Definition empty_batch (P : Z) : batch := MkBatch P [] [] [].

Lemma empty_batch_valid P m : valid_batch (empty_batch P) m.
Proof. split; [split; [|split]|]; intros k Hk; by apply elem_of_nil in Hk. Qed.

Lemma empty_batch_update P m k : batch_update (empty_batch P) m k = m k.
Proof.
  unfold batch_update. destruct (decide (k ∈ deads (empty_batch P))) as [Hk|]; [by apply elem_of_nil in Hk|done].
Qed.

Lemma empty_batches_valid P Q m c : P <= Q -> valid_from P m (repeat (empty_batch Q) c).
Proof.
  revert P m. induction c as [|c IH]; intros P m HPQ; [done|]. split; [done|]. split; [apply empty_batch_valid|].
  apply IH. simpl. lia.
Qed.

Lemma empty_batches_ledger P m c k : fold_left (fun m b => batch_update b m) (repeat (empty_batch P) c) m k = m k.
Proof. revert m. induction c as [|c IH]; intros m; [done|]. simpl. by rewrite IH, empty_batch_update. Qed.

Lemma valid_then_empty P Q m bs c :
  valid_from P m bs -> P <= Q -> Forall (fun b => protocol b <= Q) bs -> valid_from P m (bs ++ repeat (empty_batch Q) c).
Proof.
  revert P m. induction bs as [|b bs IH]; intros P m Hv HPQ Hbs; [by apply empty_batches_valid|].
  destruct Hv as (? & ? & Hv). apply Forall_cons in Hbs as [Hb Hbs]. split; [done|]. split; [done|]. by apply IH.
Qed.

(** The loop over the skipped ledgers adds one empty batch for each. *)
Lemma advance_as_batches P bl a c :
  ledger_seq bl = a ->
  try_fold (fun bl seq => add_batch seq P [] [] [] bl) (map (fun i => a + 1 + Z.of_nat i) (List.seq 0 c)) bl =
  try_fold close_ledger (repeat (empty_batch P) c) bl.
Proof.
  revert bl a. induction c as [|c IH]; intros bl a Ha; [done|]. cbn [seq map try_fold repeat].
  unfold close_ledger at 1. cbn [protocol inits lives deads empty_batch]. rewrite Ha, Z.add_0_r.
  destruct (add_batch (a + 1) P [] [] [] bl) as [bl'|] eqn:E; [|done].
  assert (ledger_seq bl' = a + 1) as Hseq.
  { unfold add_batch, add_batch_impl in E. destruct (fresh_in_memory_only _) as [nb|]; [|done]. cbn [result_bind] in E.
    destruct (add_batch_internal (a + 1) P nb bl) as [ls|]; [|done]. by injection E as <-. }
  rewrite <- (IH bl' (a + 1) Hseq). rewrite <- seq_shift, map_map. f_equal. apply map_ext. intros i. lia.
Qed.

(** ** Properties *)

(** C3: The bucket list implements a map. Driven through any history of batches,
    from the empty list on, one per ledger, with protocol versions from 12 on that
    never decrease and batches that create only entries that do not exist, every
    [add_batch] succeeds, whatever spills and background merges it takes, and the
    list answers every lookup as the map that the batches update: erased keys are
    absent, the last version of an updated or created entry is found, everything
    else is as before. *)
Theorem bucket_list_refines_ledger dir bs :
  valid_history bs ->
  exists bl, replay dir bs = Ok bl /\ ledger_seq bl = len bs /\
    forall k, bucket_list_get bl k = ledger_of bs k /\ (contains bl k = true <-> ledger_of bs k <> None).
Proof.
  intros Hv. destruct (history_ok dir bs Hv) as (bl & P & Hr & _ & [Hseq _] & Hview).
  exists bl. split; [done|]. split; [done|]. intros k.
  assert (bucket_list_get bl k = ledger_of bs k) as Hg by (rewrite <- Hview; apply get_view).
  split; [done|]. unfold contains. rewrite Hg. by destruct (ledger_of bs k).
Qed.

(** A batch that names a key in two of its three lists, and a batch for ledger
    zero, are refused with an error; a batch that names a key twice within a list is
    not, the last entry counts. *)
Theorem add_batch_refused seq b bl :
  V12 <= protocol b ->
  (~ disjoint_batch b -> add_batch seq (protocol b) (inits b) (lives b) (deads b) bl = Err MergeFailed) /\
  add_batch 0 (protocol b) (inits b) (lives b) (deads b) bl = Err MergeFailed /\
  (disjoint_batch b -> is_ok (fresh_in_memory_only (batch_bucket b)) = true).
Proof.
  intros HP. unfold add_batch, add_batch_impl, fresh_in_memory_only. fold (batch_bucket b).
  assert (forall r, assert_sorted_no_duplicates (batch_bucket b) = Err r -> r = MergeFailed) as Herr.
  { generalize (batch_bucket b). intros es r. induction es as [|x es IH]; [done|].
    destruct es as [|y es]; [done|]. cbn [assert_sorted_no_duplicates].
    case_bool_decide; [apply IH|]. by intros [= <-]. }
  destruct (assert_sorted_no_duplicates (batch_bucket b)) as [[]|r] eqn:Hs.
  - split; [|split; [done|done]]. intros Hn. exfalso. apply Hn. apply batch_bucket_nodup; [done|].
    apply sorted_check_nodup; [done|]. apply batch_bucket_sorted.
  - rewrite (Herr r eq_refl). split; [done|]. split; [done|]. intros Hd. exfalso.
    rewrite wf_sorted_check in Hs; [done|]. apply sorted_wf; [apply batch_bucket_sorted|]. by apply batch_bucket_nodup.
Qed.

(** Catching up over skipped ledgers succeeds, ends just before the target and
    changes no lookup; a target that is not ahead changes nothing. *)
Theorem advance_to_ledger_correct dir bs bl P target :
  valid_history bs -> replay dir bs = Ok bl -> Forall (fun b => protocol b <= P) bs -> V12 <= P ->
  target - 1 + 2 ^ 19 <= u32_max ->
  exists bl', advance_to_ledger target P bl = Ok bl' /\
    ledger_seq bl' = Z.max (len bs) (target - 1) /\
    (target <= len bs -> bl' = bl) /\
    forall k, bucket_list_get bl' k = bucket_list_get bl k.
Proof.
  intros Hv Hr HPs HP Ht. destruct (history_ok dir bs Hv) as (bl0 & Q & Hr' & _ & [Hseq _] & Hview).
  rewrite Hr in Hr'. injection Hr' as <-. unfold advance_to_ledger. rewrite Hseq.
  destruct (Z.leb_spec target (len bs)).
  { exists bl. split; [done|]. split; [lia|]. done. }
  rewrite (advance_as_batches P bl (len bs)) by done. set (c := Z.to_nat (target - len bs - 1)).
  assert (len (bs ++ repeat (empty_batch P) c) = target - 1) as Hlen
    by (rewrite len_app; unfold len in *; rewrite repeat_length; lia).
  destruct (history_ok dir (bs ++ repeat (empty_batch P) c)) as (bl' & Q' & Hr' & _ & [Hseq' _] & Hview').
  { split; [by apply valid_then_empty; [apply Hv| |]|]. by rewrite Hlen. }
  unfold replay in Hr, Hr'. rewrite try_fold_app, Hr in Hr'. cbn [result_bind] in Hr'.
  exists bl'. split; [done|]. split; [rewrite Hseq', Hlen; lia|]. split; [lia|]. intros k.
  unfold bucket_list_get. rewrite !get_view, Hview, Hview'. unfold ledger_of. rewrite fold_left_app.
  apply empty_batches_ledger.
Qed.
End batches.

Section witnesses.
#[local] Existing Instance pair_types.

(** Ledgers 1 to 5: creations, updates, an erasure and a creation anew. *)
Definition example_history : list batch :=
  [MkBatch 22 [(1, 10); (2, 20); (3, 30)] [] [];
   MkBatch 22 [] [(1, 11); (1, 12)] [2];
   MkBatch 23 [(2, 21)] [(3, 31)] [];
   MkBatch 23 [] [] [1; 3; 1];
   MkBatch 23 [(3, 32); (4, 40)] [(2, 22)] []].

Lemma nodup_disjoint b : bool_decide (NoDup (map key (keyed_entries b))) = true -> disjoint_batch b.
Proof. intros Hb%bool_decide_eq_true. by apply keyed_entries_nodup. Qed.

Definition creates_new (b : batch) (m : ledger) : bool := forallb (fun k => negb (exists_in m k)) (keys (inits b)).

Lemma creates_new_sound b m : creates_new b m = true -> forall k, k ∈ keys (inits b) -> m k = None.
Proof.
  unfold creates_new, exists_in. rewrite forallb_forall. intros Hb k Hk. apply list_elem_of_In in Hk.
  specialize (Hb k Hk). by destruct (m k).
Qed.

Lemma example_history_valid : valid_history example_history.
Proof.
  split; [|by vm_compute].
  repeat (split; [by vm_compute|split; [split; [apply nodup_disjoint; by vm_compute|apply creates_new_sound; by vm_compute]|]]).
  done.
Qed.

Lemma bucket_list_refines_ledger_witness :
  (exists bl, replay true example_history = Ok bl /\ ledger_seq bl = 5 /\
    forall k, bucket_list_get bl k = ledger_of example_history k /\ (contains bl k = true <-> ledger_of example_history k <> None)) /\
  map (ledger_of example_history) [1; 2; 3; 4; 5] = [None; Some (2, 22); Some (3, 32); Some (4, 40); None].
Proof. split; [exact (bucket_list_refines_ledger true example_history example_history_valid)|by vm_compute]. Defined.

Lemma add_batch_refused_witness :
  add_batch 7 23 [(1, 10)] [(2, 20); (2, 21)] [1] (BucketList_new true) = Err MergeFailed.
Proof.
  refine (proj1 (add_batch_refused 7 (MkBatch 23 [(1, 10)] [(2, 20); (2, 21)] [1]) (BucketList_new true) _) _).
  - by vm_compute.
  - intros (_ & Hd & _). apply (Hd 1); by left.
Defined.

Lemma advance_to_ledger_correct_witness :
  exists bl bl', replay false example_history = Ok bl /\ advance_to_ledger 20 23 bl = Ok bl' /\ ledger_seq bl' = 19 /\
    forall k, bucket_list_get bl' k = bucket_list_get bl k.
Proof.
  destruct (history_ok false example_history example_history_valid) as (bl & P & Hr & _).
  destruct (advance_to_ledger_correct false example_history bl 23 20 example_history_valid Hr) as (bl' & Ha & Hs & _ & Hg).
  - repeat (constructor; [by vm_compute|]). constructor.
  - by vm_compute.
  - by vm_compute.
  - exact (ex_intro _ bl (ex_intro _ bl' (conj Hr (conj Ha (conj Hs Hg))))).
Defined.
End witnesses.
