(* ===== verification/BucketListIter.v ===== *)
(** * BucketListIter: the iterator over the live entries yields the ledger

    [live_collect] drives the iterator; the theorem says that it ends, within a
    number of passes of its loop that is computed, having yielded every entry of
    the ledger exactly once and nothing else. *)

From S2P Require Import Prelude Bucket BucketMerge BucketList BucketListFacts BucketListRefinement.

Section iter.
Context `{LedgerTypes}.

(** ** The entries in the order of the iterator *)

Definition from_phase (l : BucketLevel) (phase : nat) : list BucketEntry :=
  (if (phase =? 0)%nat then entries (curr l) else []) ++ entries (snap l).

Fixpoint flat (ls : list BucketLevel) (phase : nat) : list BucketEntry :=
  match ls with [] => [] | l :: ls => from_phase l phase ++ flat ls 0 end.

(** The live entries whose key has not been met before. *)
Fixpoint stream (seen : list LedgerKey) (es : list BucketEntry) : list LedgerEntry :=
  match es with
  | [] => []
  | (Liveentry e | Initentry e) :: es =>
      if bool_decide (entry_to_key e ∈ seen) then stream seen es else e :: stream (entry_to_key e :: seen) es
  | Deadentry k :: es => stream (if bool_decide (k ∈ seen) then seen else k :: seen) es
  | Metaentry _ :: es => stream seen es
  end.

Lemma stream_nodup seen es :
  NoDup (keys (stream seen es)) /\ forall e, e ∈ stream seen es -> entry_to_key e ∉ seen.
Proof.
  unfold keys. revert seen. induction es as [|x es IH]; intros seen; simpl.
  - split; [constructor|]. intros e He. by apply elem_of_nil in He.
  - assert (forall e, (NoDup (map entry_to_key (if bool_decide (entry_to_key e ∈ seen) then stream seen es
        else e :: stream (entry_to_key e :: seen) es))) /\
      forall y, y ∈ (if bool_decide (entry_to_key e ∈ seen) then stream seen es else e :: stream (entry_to_key e :: seen) es) ->
      entry_to_key y ∉ seen) as Hlive.
    { intros e. case_bool_decide as Hin; [apply IH|]. destruct (IH (entry_to_key e :: seen)) as [Hn Hs]. split.
      - simpl. constructor; [|done]. intros (y & Hy & Hiny)%list_elem_of_fmap_1.
        apply (Hs y Hiny). rewrite <- Hy. by left.
      - intros y [-> | Hy]%elem_of_cons; [done|]. specialize (Hs y Hy). intros Hyin. apply Hs. by right. }
    destruct x as [e|e|k|m]; [apply Hlive|apply Hlive| |apply IH].
    destruct (IH (if bool_decide (k ∈ seen) then seen else k :: seen)) as [Hn Hs]. split; [done|].
    intros e He. specialize (Hs e He). case_bool_decide; [done|]. intros Hin. apply Hs. by right.
Qed.

Lemma stream_elem seen es e :
  e ∈ stream seen es <->
  entry_to_key e ∉ seen /\
  (find_entry es (entry_to_key e) = Some (Liveentry e) \/ find_entry es (entry_to_key e) = Some (Initentry e)).
Proof.
  revert seen. induction es as [|x es IH]; intros seen; simpl.
  { rewrite elem_of_nil. split; [done|]. by intros [_ [?|?]]. }
  assert (forall y C, key (C y) = Some (entry_to_key y) -> (C = Liveentry \/ C = Initentry) ->
    e ∈ (if bool_decide (entry_to_key y ∈ seen) then stream seen es else y :: stream (entry_to_key y :: seen) es) <->
    entry_to_key e ∉ seen /\
    ((if bool_decide (key (C y) = Some (entry_to_key e)) then Some (C y) else find_entry es (entry_to_key e)) = Some (Liveentry e) \/
     (if bool_decide (key (C y) = Some (entry_to_key e)) then Some (C y) else find_entry es (entry_to_key e)) = Some (Initentry e)))
    as Hlive.
  { intros y C HC HCs. rewrite HC. destruct (decide (entry_to_key y = entry_to_key e)) as [Heq|Hne].
    - rewrite (bool_decide_eq_true_2 (Some _ = Some _)) by congruence.
      assert (Some (C y) = Some (Liveentry e) \/ Some (C y) = Some (Initentry e) <-> y = e) as ->.
      { destruct HCs as [-> | ->]; split; [by intros [[= ?]|[=]]|intros ->; by left|by intros [[=]|[= ?]]|intros ->; by right]. }
      case_bool_decide as Hin.
      + rewrite IH, Heq in *. split; [by intros []|by intros []].
      + rewrite elem_of_cons, IH, elem_of_cons, <- Heq. split; [|intros [_ ->]; by left].
        intros [->|[Hn _]]; [done|]. exfalso. apply Hn. by left.
    - rewrite (bool_decide_eq_false_2 (Some _ = Some _)) by congruence.
      case_bool_decide as Hin; [apply IH|]. rewrite elem_of_cons, IH, not_elem_of_cons.
      split; [intros [->|[[_ ?] ?]]; done|]. intros [? ?]. right. split; [split; [congruence|done]|done]. }
  destruct x as [y|y|k|m]; [apply (Hlive y Liveentry); auto|apply (Hlive y Initentry); auto| |].
  - rewrite IH. simpl. destruct (decide (k = entry_to_key e)) as [->|Hne].
    + rewrite (bool_decide_eq_true_2 (Some _ = Some _)) by done. split; [|by intros [_ [[=]|[=]]]].
      intros [Hn _]. exfalso. case_bool_decide; [done|]. apply Hn. by left.
    + rewrite (bool_decide_eq_false_2 (Some k = _)) by congruence. case_bool_decide; [done|].
      rewrite not_elem_of_cons. split; [by intros [[_ ?] ?]|]. intros [? ?]. split; [split; [congruence|done]|done].
  - rewrite IH. simpl. done.
Qed.

Lemma flat_view ls k :
  view ls k = match find_entry (flat ls 0) k with Some (Liveentry e) | Some (Initentry e) => Some e | _ => None end.
Proof.
  induction ls as [|l ls IH]; [done|]. cbn [view flat]. unfold from_phase. cbn [Nat.eqb].
  rewrite !find_entry_app. unfold over. rewrite IH.
  destruct (find_entry (entries (curr l)) k) as [[?|?|?|?]|] eqn:Ec; try done;
    [by apply find_keyed_not_meta in Ec|].
  destruct (find_entry (entries (snap l)) k) as [[?|?|?|?]|] eqn:Es; try done. by apply find_keyed_not_meta in Es.
Qed.

(** ** The loop of the iterator *)

Definition after (ls : list BucketLevel) (phase : nat) : list BucketEntry :=
  let '(ls, phase) := next_position ls phase in flat ls phase.

Definition to_visit (ls : list BucketLevel) (phase : nat) (iter : option (list BucketEntry)) : list BucketEntry :=
  match iter with Some es => es ++ after ls phase | None => flat ls phase end.

Definition sound_level (l : BucketLevel) : Prop := wf_bucket (curr l) /\ wf_bucket (snap l).

Record position_ok (ls : list BucketLevel) (phase : nat) (iter : option (list BucketEntry)) : Prop := {
  pos_levels : Forall sound_level ls;
  pos_phase : (phase <= 1)%nat;
  pos_iter : is_Some iter -> ls <> []
}.

Definition iter_ok (it : LiveEntriesIterator) : Prop := position_ok (rest it) (current_phase it) (bucket_iter it).

(** What the loop still has to do at most. *)
Definition work (ls : list BucketLevel) (phase : nat) (iter : option (list BucketEntry)) : nat :=
  (length (to_visit ls phase iter) + (2 * length ls - phase))%nat.

Lemma empty_no_entries b : wf_bucket b -> is_empty b = true -> entries b = [].
Proof.
  intros [_ Hz]. unfold is_empty. destruct (zero_hash b); [by intros _; apply Hz|].
  case_bool_decide as E; [|done]. intros _. by apply length_zero_iff_nil.
Qed.

Lemma not_empty_entries b : is_empty b = false -> entries b <> [].
Proof. unfold is_empty. destruct (zero_hash b); [done|]. intros Hb E. by rewrite E in Hb. Qed.

Lemma flat_next l ls : flat (l :: ls) 1 = entries (snap l) ++ flat ls 0.
Proof. done. Qed.

Lemma advance_to_next_bucket_spec ls phase :
  position_ok ls phase None ->
  let '(ls', phase', iter) := advance_to_next_bucket ls phase in
  position_ok ls' phase' iter /\ (work ls' phase' iter <= work ls phase None)%nat /\
  to_visit ls' phase' iter = flat ls phase /\
  match iter with Some es => es <> [] | None => ls' = [] end.
Proof.
  unfold work. cbn [to_visit]. revert phase. induction ls as [|l ls IH]; intros phase [Hls Hph _].
  - simpl. split; [|done]. split; [done..|]. by intros [].
  - apply Forall_cons in Hls as [[Hc Hs] Hls]. cbn [advance_to_next_bucket].
    destruct ((phase =? 0)%nat && negb (is_empty (curr l))) eqn:E0.
    { apply andb_true_iff in E0 as [E0 Ec]. apply Nat.eqb_eq in E0 as ->. apply negb_true_iff in Ec.
      assert (to_visit (l :: ls) 0 (Some (entries (curr l))) = flat (l :: ls) 0) as Hv.
      { unfold to_visit, after. cbn [next_position Nat.eqb flat]. unfold from_phase. simpl. by rewrite <- app_assoc. }
      rewrite Hv. split; [split; [by constructor; [split|]|lia|done]|]. split; [lia|]. split; [done|]. by apply not_empty_entries. }
    assert (flat (l :: ls) phase = entries (snap l) ++ flat ls 0) as Hflat.
    { destruct phase as [|[|?]]; [|done|lia]. cbn [flat]. unfold from_phase. cbn [Nat.eqb andb] in *.
      apply negb_false_iff in E0. by rewrite (empty_no_entries _ Hc E0). }
    destruct (is_empty (snap l)) eqn:Es; cbn [negb].
    + specialize (IH 0%nat). rewrite Hflat, (empty_no_entries _ Hs Es). cbn [app].
      destruct (advance_to_next_bucket ls 0) as [[ls' phase'] iter].
      destruct IH as (Hp & Hw & Hv & Hi); [split; [done|lia|by intros []]|].
      split; [done|]. split; [cbn [length]; lia|]. done.
    + assert (to_visit (l :: ls) 1 (Some (entries (snap l))) = flat (l :: ls) phase) as Hv by (rewrite Hflat; done).
      rewrite Hv. split; [split; [by constructor; [split|]|lia|done]|]. split; [cbn [length]; lia|].
      split; [done|]. by apply not_empty_entries.
Qed.

(** One pass: from what is to visit, an entry is skipped or yielded. *)
Definition todo (it : LiveEntriesIterator) : list BucketEntry := to_visit (rest it) (current_phase it) (bucket_iter it).
Definition iter_work (it : LiveEntriesIterator) : nat := work (rest it) (current_phase it) (bucket_iter it).

Lemma live_iter_step_spec it :
  iter_ok it ->
  match live_iter_step it with
  | inl it' =>
      iter_ok it' /\ (iter_work it' < iter_work it)%nat /\
      stream (seen_keys it') (todo it') = stream (seen_keys it) (todo it) /\ entries_yielded it' = entries_yielded it
  | inr (it', Some e) =>
      iter_ok it' /\ (iter_work it' < iter_work it)%nat /\
      stream (seen_keys it) (todo it) = e :: stream (seen_keys it') (todo it') /\
      entries_yielded it' = S (entries_yielded it)
  | inr (it', None) => stream (seen_keys it) (todo it) = [] /\ entries_yielded it' = entries_yielded it
  end.
Proof.
  intros Hok. unfold live_iter_step.
  assert (let '(ls, phase, iter) := match bucket_iter it with
            | Some es => (rest it, current_phase it, Some es)
            | None => advance_to_next_bucket (rest it) (current_phase it) end in
          position_ok ls phase iter /\ (work ls phase iter <= iter_work it)%nat /\
          to_visit ls phase iter = todo it /\ match iter with Some es => True | None => ls = [] end) as Hstart.
  { unfold iter_ok, iter_work, todo in *. destruct (bucket_iter it) as [es|]; [done|].
    pose proof (advance_to_next_bucket_spec _ _ Hok) as Hadv.
    destruct (advance_to_next_bucket (rest it) (current_phase it)) as [[ls phase] iter].
    destruct Hadv as (H1 & H2 & H3 & H4). split; [done|]. split; [done|]. split; [done|]. by destruct iter. }
  destruct (match bucket_iter it with Some es => _ | None => _ end) as [[ls phase] iter].
  destruct Hstart as (Hpos & Hw & Hv & Hi). rewrite <- Hv. unfold work in Hw. rewrite Hv in Hw.
  destruct iter as [[|x es]|]; [| |by subst ls].
  - destruct Hpos as [Hls Hph Hne]. destruct ls as [|l ls]; [by destruct Hne; [by eexists|]|].
    unfold iter_ok, iter_work, todo, work in *. destruct phase as [|phase]; cbn [next_position Nat.eqb tl rest current_phase bucket_iter seen_keys entries_yielded].
    + split; [split; [done|lia|by intros []]|]. split; [|done]. rewrite <- Hv in *. cbn [to_visit after next_position Nat.eqb app] in *. cbn [length] in *. lia.
    + apply Forall_cons in Hls as [_ Hls].
      split; [split; [done|lia|by intros []]|]. split; [|done]. rewrite <- Hv in *. cbn [to_visit after next_position Nat.eqb app tl] in *. cbn [length] in *. lia.
  - assert (forall seen y sk, let it' := MkIter ls phase (Some es) seen y sk in
      iter_ok it' /\ (iter_work it' < iter_work it)%nat /\ todo it' = es ++ after ls phase) as Hnext.
    { intros seen y sk. cbv zeta. destruct Hpos as [Hls Hph Hne].
      split; [split; [done|done|intros _; by apply Hne]|]. split; [|done]. unfold iter_work at 1, work.
      cbn [rest current_phase bucket_iter]. rewrite <- Hv in Hw. cbn [to_visit app length] in *. lia. }
    cbv zeta in Hnext. cbn [to_visit app stream].
    destruct x as [e|e|k|m].
    + case_bool_decide; [destruct (Hnext (seen_keys it) (entries_yielded it) (S (entries_skipped it))) as (? & ? & ->)|
        destruct (Hnext (entry_to_key e :: seen_keys it) (S (entries_yielded it)) (entries_skipped it)) as (? & ? & ->)];
        (repeat (split; [done|]); done).
    + case_bool_decide; [destruct (Hnext (seen_keys it) (entries_yielded it) (S (entries_skipped it))) as (? & ? & ->)|
        destruct (Hnext (entry_to_key e :: seen_keys it) (S (entries_yielded it)) (entries_skipped it)) as (? & ? & ->)];
        (repeat (split; [done|]); done).
    + destruct (Hnext (if bool_decide (k ∈ seen_keys it) then seen_keys it else k :: seen_keys it) (entries_yielded it)
        (entries_skipped it)) as (? & ? & ->). done.
    + destruct (Hnext (seen_keys it) (entries_yielded it) (entries_skipped it)) as (? & ? & ->). done.
Qed.

Lemma live_iter_next_spec fuel it :
  iter_ok it -> (iter_work it < fuel)%nat ->
  exists it' o, live_iter_next fuel it = Some (it', o) /\
    match o with
    | Some e => iter_ok it' /\ (iter_work it' < iter_work it)%nat /\
        stream (seen_keys it) (todo it) = e :: stream (seen_keys it') (todo it') /\
        entries_yielded it' = S (entries_yielded it)
    | None => stream (seen_keys it) (todo it) = [] /\ entries_yielded it' = entries_yielded it
    end.
Proof.
  revert it. induction fuel as [|fuel IH]; intros it Hok Hw; [lia|]. cbn [live_iter_next].
  pose proof (live_iter_step_spec it Hok) as Hstep.
  destruct (live_iter_step it) as [it'|[it' [e|]]]; [|by exists it', (Some e)|by exists it', None].
  destruct Hstep as (Hok' & Hw' & Hs & Hy). destruct (IH it' Hok' ltac:(lia)) as (it'' & o & Hn & Ho).
  exists it'', o. split; [done|]. rewrite <- Hs, <- Hy. destruct o; [|done].
  destruct Ho as (? & ? & ? & ?). split; [done|]. split; [lia|]. done.
Qed.

Lemma live_collect_spec calls fuel it :
  iter_ok it -> (iter_work it < fuel)%nat -> (length (stream (seen_keys it) (todo it)) < calls)%nat ->
  live_collect calls fuel it = Some (stream (seen_keys it) (todo it)).
Proof.
  revert it. induction calls as [|calls IH]; intros it Hok Hw Hc; [lia|]. cbn [live_collect].
  destruct (live_iter_next_spec fuel it Hok Hw) as (it' & [e|] & -> & Ho).
  - destruct Ho as (Hok' & Hw' & Hs & _). rewrite Hs in *. cbn [length] in Hc. rewrite IH; [done|done|lia|lia].
  - destruct Ho as [-> _]. done.
Qed.

Lemma list_ok_sound P n bl : list_ok P n bl -> Forall sound_level (levels bl).
Proof.
  intros (_ & l0 & ls & -> & _ & _ & _ & _ & [Hs Hc] & Hls).
  constructor; [split; [apply Hc|apply Hs]|]. clear Hs Hc. revert Hls. generalize (snap l0), 1%nat.
  induction ls as [|l ls IH]; intros a j Hls; [constructor|]. destruct Hls as (_ & [Hs Hc] & _ & _ & Hls).
  constructor; [split; [apply Hc|apply Hs]|]. by eapply IH.
Qed.

(** C29: The iterator over the live entries ends and yields the ledger: after any
    valid history of batches, calling [next] until it answers [None] yields every
    entry of the ledger, each exactly once and nothing else, however often older
    buckets still hold shadowed versions. Each call ends within the number of
    entries of all buckets and two passes per level, and as many calls as there are
    live entries, and one more, are enough. *)
Theorem live_entries_all_yielded dir bs bl :
  valid_history bs -> replay dir bs = Ok bl ->
  exists es,
    (forall calls fuel, (length es < calls)%nat -> (length (flat (levels bl) 0) + 22 < fuel)%nat ->
      live_collect calls fuel (live_iter_new bl) = Some es) /\
    NoDup (keys es) /\
    forall k e, ledger_of bs k = Some e <-> e ∈ es /\ entry_to_key e = k.
Proof.
  intros Hv Hr. destruct (history_ok dir bs Hv) as (bl0 & P & Hr' & _ & Hok & Hview).
  rewrite Hr in Hr'. injection Hr' as <-.
  assert (iter_ok (live_iter_new bl)) as Hit.
  { split; [by eapply list_ok_sound|simpl; lia|by intros []]. }
  exists (stream [] (flat (levels bl) 0)). split; [|split; [apply stream_nodup|]].
  - intros calls fuel Hc Hf. apply (live_collect_spec calls fuel (live_iter_new bl)); [done| |done].
    unfold iter_work, work. cbn [rest current_phase bucket_iter live_iter_new to_visit].
    rewrite (list_ok_levels _ _ _ Hok). unfold BUCKET_LIST_LEVELS. lia.
  - intros k e. rewrite <- Hview, flat_view, stream_elem. split.
    + destruct (find_entry (flat (levels bl) 0) k) as [x|] eqn:Hf; [|done].
      pose proof (find_entry_key _ _ _ Hf) as Hk.
      destruct x as [y|y|?|?]; [| |done|done]; intros [= ->]; injection Hk as <-;
        (split; [split; [apply not_elem_of_nil|]|done]); [by left|by right].
    + intros [[_ [Hf|Hf]] <-]; by rewrite Hf.
Qed.
End iter.

Section witnesses.
#[local] Existing Instance pair_types.

Example example_entries_streamed :
  option_map (fun bl => live_collect 4 50 (live_iter_new bl))
    (match replay true example_history with Ok bl => Some bl | Err _ => None end) =
  Some (Some [(2, 22); (3, 32); (4, 40)]).
Proof. by vm_compute. Qed.

Lemma live_entries_all_yielded_witness :
  exists bl es, replay true example_history = Ok bl /\
    (forall calls fuel, (length es < calls)%nat -> (length (flat (levels bl) 0) + 22 < fuel)%nat ->
      live_collect calls fuel (live_iter_new bl) = Some es) /\
    NoDup (keys es) /\ (forall k e, ledger_of example_history k = Some e <-> e ∈ es /\ entry_to_key e = k).
Proof.
  destruct (history_ok true example_history example_history_valid) as (bl & P & Hr & _).
  exists bl. destruct (live_entries_all_yielded true example_history bl example_history_valid Hr) as (es & Hes).
  exists es. exact (conj Hr Hes).
Defined.
End witnesses.
