(* ===== verification/BucketListRestart.v ===== *)
(** * BucketListRestart: a restored bucket list is the one that was saved

    What a history archive keeps of a bucket list are the hashes of its buckets
    and, of the merges under way, the hash of their result or of their inputs. The
    theorems say that the merges run again after a restore are the ones that were
    under way, and that the restored list makes the same buckets ever after.

    For this the levels are [chained]: versions do not increase from one bucket to
    the next older one, and which buckets are filled and which merges are under way
    depends on the ledger only. *)

From S2P Require Import Prelude Bucket BucketMerge BucketList BucketListFacts BucketListRefinement.

Section restart.
Context `{LedgerTypes}.

(** ** Merging depends on the files only *)

(** Buckets of the same file; one may have its entries in memory, the other not. *)
Definition same_file (b b' : Bucket) : Prop := entries b = entries b' /\ zero_hash b = zero_hash b'.

#[local] Instance same_file_equivalence : Equivalence same_file.
Proof.
  split; [by intros b|by intros b b' []; split; symmetry|]. intros a b c [E1 Z1] [E2 Z2]. split; congruence.
Qed.

Lemma same_empty b b' : same_file b b' -> is_empty b = is_empty b'.
Proof. intros [E Z]. unfold is_empty. by rewrite E, Z. Qed.

Lemma same_merge old old' new new' opts :
  same_file old old' -> same_file new new' -> merge_buckets old new opts = merge_buckets old' new' opts.
Proof.
  intros Ho Hn. unfold merge_buckets, merge_with_shadows_impl.
  rewrite (same_empty _ _ Ho), (same_empty _ _ Hn). destruct Ho as [-> _], Hn as [-> _]. done.
Qed.

Lemma same_merge_file old old' new new' opts :
  same_file old old' -> same_file new new' -> merge_buckets_to_file old new opts = merge_buckets_to_file old' new' opts.
Proof.
  intros Ho Hn. unfold merge_buckets_to_file.
  rewrite (same_empty _ _ Ho), (same_empty _ _ Hn). destruct Ho as [-> _], Hn as [-> _]. done.
Qed.

Lemma same_start dir P keep normalize old old' new new' :
  same_file old old' -> same_file new new' ->
  start_merge dir P keep normalize [] old new = start_merge dir P keep normalize [] old' new'.
Proof.
  intros Ho Hn. unfold start_merge.
  by rewrite (same_merge_file old old' new new'), (same_merge old old' new new').
Qed.

(** The version a merge is started with only decides whether it is allowed. *)
Lemma output_version mo mn P Q r :
  build_output_metadata mo mn P InputDerived = Ok r ->
  Z.max (map_or 0 ledger_version mo) (map_or 0 ledger_version mn) <= Q ->
  0 <= Q -> build_output_metadata mo mn Q InputDerived = Ok r.
Proof.
  unfold build_output_metadata.
  set (v := Z.max (Z.max 0 (map_or 0 ledger_version mo)) (map_or 0 ledger_version mn)). intros Hb Hv HQ.
  destruct ((0 <? P) && (P <? v)); [done|]. destruct (Z.ltb_spec Q v); [lia|]. by rewrite andb_false_r.
Qed.

Lemma start_merge_version dir P Q keep normalize old new b :
  start_merge dir P keep normalize [] old new = Ok b ->
  Z.max (version_of (entries old)) (version_of (entries new)) <= Q -> 0 <= Q ->
  start_merge dir Q keep normalize [] old new = Ok b.
Proof.
  unfold start_merge, merge_buckets_to_file, merge_buckets, merge_with_shadows_impl, version_of.
  cbn [shadow_buckets length bool_decide max_protocol_version metadata_policy keep_dead_entries normalize_init_entries].
  rewrite !bool_decide_eq_true_2 by done. cbn [orb negb andb length].
  destruct (is_empty new && is_empty old); [by destruct dir|].
  destruct (advance_skip_metadata None (entries old)) as [mo ro], (advance_skip_metadata None (entries new)) as [mn rn].
  cbn [fst]. intros Hb Hv HQ.
  destruct (build_output_metadata mo mn P InputDerived) as [om|] eqn:E; [|by destruct dir].
  by rewrite (output_version mo mn P Q om).
Qed.

(** The version of the result, where metadata is written. *)
Lemma start_merge_head dir P keep old new b :
  start_merge dir P keep Preserve [] old new = Ok b -> is_empty new = false ->
  V11 <= Z.max (version_of (entries old)) (version_of (entries new)) ->
  wf_entries (entries b) ->
  version_of (entries b) = Z.max (version_of (entries old)) (version_of (entries new)).
Proof.
  unfold start_merge, merge_buckets_to_file, merge_buckets, merge_with_shadows_impl.
  cbn [shadow_buckets length bool_decide max_protocol_version metadata_policy keep_dead_entries normalize_init_entries].
  rewrite !bool_decide_eq_true_2 by done. cbn [orb negb andb length]. intros Hb He Hv Hwf. rewrite He in Hb. cbn [andb] in Hb.
  unfold version_of in *.
  destruct (advance_skip_metadata None (entries old)) as [mo ro], (advance_skip_metadata None (entries new)) as [mn rn].
  cbn [fst] in *. unfold build_output_metadata in Hb.
  set (v := Z.max (Z.max 0 (map_or 0 ledger_version mo)) (map_or 0 ledger_version mn)) in *.
  assert (Z.max (map_or 0 ledger_version mo) (map_or 0 ledger_version mn) = v) as Ev by (unfold V11 in *; lia).
  rewrite Ev in *. destruct ((0 <? P) && (P <? v)); [by destruct dir|]. cbn [result_bind] in Hb.
  assert (exists m es, metadata_entry v = Some (Metaentry m) /\ ledger_version m = v /\ entries b = Metaentry m :: es)
    as (m & es & _ & Hm & Hes).
  { unfold metadata_entry, protocol_version_starts_from in *. destruct (Z.leb_spec V11 v); [|lia].
    destruct (two_pointer_merge ro rn keep Preserve) as [em|]; [|by destruct dir]. cbn [result_bind map] in Hb.
    eexists _, em. split; [done|]. split; [done|]. destruct dir; [by injection Hb as <-|].
    rewrite maybe_put_no_shadows in Hb. cbn [fst app] in Hb. by apply from_sorted_entries_ok in Hb as ->. }
  rewrite Hes in *. destruct (wf_entries_parts _ Hwf) as (meta & Hk & Hadv & _ & Hparts). rewrite Hadv. cbn [fst].
  destruct meta as [m'|]; [by injection Hparts as <-|]. cbn [app] in Hparts. exfalso.
  rewrite <- Hparts in Hk. by destruct Hk as [(k & Hk & _) _].
Qed.

(** ** Chained levels *)

Context (dir : bool).

Notation ver b := (version_of (entries b)).

Definition merge_chained (n : Z) (j : nat) (above : Bucket) (l : BucketLevel) (p : PendingMerge) : Prop :=
  bl_level_half (j - 1) <= n /\ V11 <= ver above /\
  (exists b Q, resolve p = Ok b /\ ver b = ver above /\
    start_merge dir Q (keep_tombstone_entries j) Preserve [] (merge_base n j l) above = Ok b) /\
  match p with Async c s _ => same_file c (merge_base n j l) /\ same_file s above | InMemory _ => True end.

Record chained (n : Z) (j : nat) (above : Bucket) (l : BucketLevel) : Prop := {
  ch_snap : ver (snap l) <= ver (curr l);
  ch_curr : ver (curr l) <= ver above;
  ch_filled : 2 * bl_level_half (j - 1) <= n -> V11 <= ver (curr l);
  ch_pending :
    match next l with
    | None => n < bl_level_half (j - 1)
    | Some p => merge_chained n j above l p
    end
}.

Fixpoint chained_levels (n : Z) (above : Bucket) (j : nat) (ls : list BucketLevel) : Prop :=
  match ls with
  | [] => True
  | l :: ls => chained n j above l /\ chained_levels n (snap l) (S j) ls
  end.

Definition list_chained (n : Z) (bl : BucketList) : Prop :=
  bucket_dir bl = dir /\
  match levels bl with
  | [] => False
  | l0 :: ls => (1 <= n -> V11 <= ver (curr l0)) /\ ver (snap l0) <= ver (curr l0) /\ chained_levels n (snap l0) 1 ls
  end.

Lemma empty_version : ver Bucket_empty = 0.
Proof. done. Qed.

Lemma spill_positive s j : 0 <= s -> level_should_spill (s + 1) j = true -> bl_level_half j <= s + 1.
Proof.
  unfold level_should_spill. rewrite should_spill_value. intros Hs [_ E]%andb_true_iff. apply Z.eqb_eq in E.
  pose proof (half_pos j). apply Z.mod_divide in E as [q Hq]; [|lia].
  assert (1 <= q) by (destruct (Z.le_gt_cases q 0); [nia|lia]). rewrite Hq. nia.
Qed.

Lemma no_spill_ne s j : (j < 10)%nat -> level_should_spill s j = false -> forall q, s <> q * bl_level_half j.
Proof.
  unfold level_should_spill. rewrite should_spill_value. unfold BUCKET_LIST_LEVELS. intros Hj E q ->.
  rewrite Z.mod_mul in E by (pose proof (half_pos j); lia). destruct (Nat.eqb_spec j (11 - 1)); [lia|done].
Qed.

Lemma version_nonempty b : V11 <= ver b -> wf_bucket b -> is_empty b = false.
Proof.
  intros Hv Hw. destruct (is_empty b) eqn:E; [|done]. unfold is_empty in E.
  assert (entries b = []) as Hb.
  { destruct (zero_hash b) eqn:Ez; [by apply Hw|]. apply bool_decide_eq_true in E. by apply length_zero_iff_nil. }
  rewrite Hb in Hv. unfold version_of, V11 in Hv. simpl in Hv. lia.
Qed.

Lemma merge_base_cases n j l : merge_base n j l = Bucket_empty \/ merge_base n j l = curr l.
Proof. unfold merge_base. destruct (should_merge_with_empty_curr n j); auto. Qed.

Lemma advance_level_chained P n j above l ls ls' l' :
  V12 <= P -> (1 <= j <= 10)%nat -> 0 <= n -> n + 1 + 2 ^ 19 <= u32_max ->
  (j + length ls = 10)%nat ->
  level_ok P above (view (l :: ls)) -> levels_ok P n (snap above) j (l :: ls) ->
  (forall k, view ls' k = if level_should_spill (n + 1) j then over (entries (snap l)) (view ls) k else view ls k) ->
  chained n j (snap above) l ->
  ver (snap above) <= ver (curr above) ->
  (bl_level_half (j - 1) <= n + 1 -> V11 <= ver (curr above)) ->
  advance_level dir (n + 1) P above j l = Ok l' ->
  chained (n + 1) j (snap (spilled (n + 1) (j - 1) above)) l' /\ snap l' = snap (spilled (n + 1) j l).
Proof.
  intros HP Hj Hn Hb Hlen Hoka Hls Hview [Hcs Hcc Hcf Hcp] Hva Hfa Hadv.
  destruct (advance_level_ok P dir n j above l ls ls') as (l2 & Hl2 & Hlev' & Hok' & Hpend' & Hsnap' & _); [done..|].
  rewrite Hadv in Hl2. injection Hl2 as <-. split; [|done].
  destruct Hls as (Hlev & Hok & Hpend & _). pose proof (half_pos (j - 1)) as Hhalf.
  assert (0 <= ver (curr l)) as Hpos by apply Hok.
  unfold advance_level in Hadv. unfold spilled at 1. unfold spilled at 1 in Hpend'.
  destruct (level_should_spill (n + 1) (j - 1)) eqn:Hsp.
  - pose proof (spill_positive n (j - 1) Hn Hsp) as Hge. specialize (Hfa Hge).
    set (inc := if (j - 1 =? 0)%nat then clear_in_memory_entries (curr above) else curr above) in *.
    cbn [snap] in *. assert (ver inc = ver (curr above)) as Hinc by (unfold inc; by destruct (j - 1 =? 0)%nat).
    assert (level_should_spill (n + 1) j = true -> bl_level_half j <= n + 1) as Hge'
      by (intros E; by apply spill_positive).
    replace (bl_level_half j) with (4 * bl_level_half (j - 1)) in Hge'
      by (rewrite <- half_succ; f_equal; lia).
    (* what the commit leaves *)
    assert (exists c, commit (spilled (n + 1) j l) = Ok (MkLevel c (snap (spilled (n + 1) j l)) None j) /\
      ver (snap (spilled (n + 1) j l)) <= ver c /\ ver c <= ver (curr above) /\
      (2 * bl_level_half (j - 1) <= n + 1 -> V11 <= ver c)) as (c & Hcommit & Hc1 & Hc2 & Hc3).
    { unfold commit. destruct (next l) as [p|] eqn:Hnx.
      - destruct Hcp as (Hge1 & Hv11 & (b & Q & Hres & Hvb & _) & _). exists b.
        assert (next (spilled (n + 1) j l) = Some p /\ level (spilled (n + 1) j l) = j) as [-> ->]
          by (unfold spilled; by destruct (level_should_spill (n + 1) j)).
        rewrite Hres. cbn [result_bind]. split; [done|]. rewrite Hvb.
        split; [|split; [lia|done]]. unfold spilled. destruct (level_should_spill (n + 1) j); cbn [snap]; [|lia].
        destruct (j =? 0)%nat; cbn [clear_in_memory_entries entries]; lia.
      - destruct (level_should_spill (n + 1) j) eqn:Hsj; [specialize (Hge' eq_refl); lia|].
        assert (spilled (n + 1) j l = l) as -> by (unfold spilled; by rewrite Hsj). rewrite Hnx.
        exists (curr l). destruct l as [cu sn nx lv]; simpl in *; subst. split; [done|]. split; [done|]. split; [lia|].
        intros. lia. }
    rewrite Hcommit in Hadv. cbn [result_bind] in Hadv. unfold prepare_with_normalization in Hadv. cbn [next level curr snap] in Hadv.
    destruct (Nat.leb_spec 1 j); [|lia]. injection Hadv as <-. cbn [snap curr next] in *.
    destruct Hpend' as (b' & Hres' & [Hwb' _] & Hvb'). cbn [resolve] in Hres'.
    assert (is_empty inc = false) as Hne.
    { apply version_nonempty; [by rewrite Hinc|]. destruct Hoka as [_ [Hw _ _]]. unfold inc. by destruct (j - 1 =? 0)%nat. }
    set (base := if should_merge_with_empty_curr (n + 1) j then Bucket_empty else c) in *.
    assert (ver base <= ver inc) as Hbase.
    { unfold base. destruct (should_merge_with_empty_curr (n + 1) j); [|by rewrite Hinc].
      rewrite empty_version, Hinc. unfold V11 in Hfa. lia. }
    assert (ver b' = ver inc) as Hvb.
    { rewrite (start_merge_head dir P (keep_tombstone_entries j) base inc b' Hres' Hne); [lia|rewrite Hinc; lia|apply Hwb']. }
    split; cbn [snap curr next]; [done|by rewrite Hinc|done|].
    split; [lia|]. split; [by rewrite Hinc|]. split; [|done]. exists b', P. done.
  - injection Hadv as <-.
    assert (level_should_spill (n + 1) j = false) as Hsp'.
    { destruct (level_should_spill (n + 1) j) eqn:E; [|done]. replace j with (S (j - 1)) in E by lia.
      apply spill_above in E; [congruence|lia]. }
    assert (spilled (n + 1) j l = l) as -> by (unfold spilled; by rewrite Hsp').
    pose proof (no_spill_ne (n + 1) (j - 1) ltac:(lia) Hsp) as Hne.
    pose proof (Hne 1) as Hne1. pose proof (Hne 2) as Hne2.
    split; [done|done|intros; apply Hcf; lia|].
    destruct (next l) as [p|]; [|lia]. destruct Hcp as (Hge & Hv11 & Hb' & Hp).
    assert (merge_base (n + 1) j l = merge_base n j l) as Hmb by (unfold merge_base; by rewrite (flag_between_spills n j)).
    unfold merge_chained. rewrite Hmb. split; [lia|]. done.
Qed.

Lemma advance_levels_chained P n j above ls ls' :
  V12 <= P -> (1 <= j)%nat -> 0 <= n -> n + 1 + 2 ^ 19 <= u32_max -> (j + length ls = 11)%nat ->
  level_ok P above (view ls) -> levels_ok P n (snap above) j ls -> chained_levels n (snap above) j ls ->
  ver (snap above) <= ver (curr above) ->
  (bl_level_half (j - 1) <= n + 1 -> V11 <= ver (curr above)) ->
  advance_levels dir (n + 1) P above j ls = Ok ls' ->
  chained_levels (n + 1) (snap (spilled (n + 1) (j - 1) above)) j ls'.
Proof.
  intros HP Hj Hn Hb. revert j above ls' Hj. induction ls as [|l ls IH]; intros j above ls' Hj Hlen Hoka Hls Hch Hva Hfa Hadv.
  - by injection Hadv as <-.
  - cbn [length] in Hlen. cbn [advance_levels] in Hadv. pose proof Hls as (_ & Hok & _ & _ & Hrest).
    destruct Hch as [Hc Hcrest].
    destruct (advance_levels_ok P dir n (S j) l ls) as (ls2 & Hadv2 & _ & _ & Hv); [done|lia|done|done|lia|done|done|].
    replace (S j - 1)%nat with j in Hv by lia.
    rewrite Hadv2 in Hadv. cbn [result_bind] in Hadv.
    destruct (advance_level dir (n + 1) P above j l) as [l'|] eqn:Hl'; [|done]. injection Hadv as <-.
    destruct (advance_level_chained P n j above l ls ls2 l') as [Hc' Hsnap]; [done|lia|done|done|lia|done..|].
    split; [done|]. rewrite Hsnap. replace j with (S j - 1)%nat at 1 by lia.
    apply (IH (S j) l); [lia|lia|done|done|done|apply Hc| |done].
    replace (S j - 1)%nat with j by lia. intros Hge. apply Hc.
    assert (bl_level_half j = 4 * bl_level_half (j - 1)) as Hh by (rewrite <- half_succ; f_equal; lia).
    pose proof (half_pos (j - 1)). lia.
Qed.

Lemma add_batch_internal_chained P n nb bl ls' :
  V12 <= P -> 0 <= n -> n + 1 + 2 ^ 19 <= u32_max -> list_ok P n bl -> list_chained n bl ->
  wf_entries (entries nb) -> in_memory nb = true -> fresh (entries nb) (view (levels bl)) ->
  add_batch_internal (n + 1) P nb bl = Ok ls' ->
  list_chained (n + 1) (MkBucketList ls' (n + 1) (bucket_dir bl)).
Proof.
  intros HP Hn Hb Hok [Hdir Hch] Hw Hm Hf Hadd.
  destruct (add_batch_internal_ok P n nb bl) as (ls2 & Hadd2 & Hok2 & _); [done..|].
  rewrite Hadd in Hadd2. injection Hadd2 as <-. split; [done|].
  destruct Hok as (_ & l0 & ls & Hlv & Hlen & Hl0 & Hn0 & Hm0 & Hok0 & Hls).
  rewrite Hlv in Hch. destruct Hch as (H1 & Hs0 & Hrest). unfold add_batch_internal in Hadd.
  destruct (Z.eqb_spec (n + 1) 0); [lia|]. rewrite Hlv in Hadd.
  pose proof (spill_loop (bucket_dir bl) (n + 1) P [] l0 ls HP) as Hloop. cbn [length app] in Hloop.
  rewrite Hlen in Hloop. change (BUCKET_LIST_LEVELS - 1)%nat with 10%nat in Hadd. rewrite Hloop in Hadd by done.
  rewrite Hdir in Hadd.
  destruct (advance_levels dir (n + 1) P l0 1 ls) as [ls1|] eqn:Hadv; [|done]. cbn [result_bind] in Hadd.
  pose proof (advance_levels_chained P n 1 l0 ls ls1 HP (le_n 1) Hn Hb ltac:(lia) Hok0 Hls Hrest Hs0) as Hch1.
  cbn [Nat.sub] in Hch1. change (bl_level_half 0) with 2 in Hch1. specialize (Hch1 ltac:(intros Hh; apply H1; lia) Hadv).
  set (l1 := spilled (n + 1) 0 l0) in *.
  assert (level l1 = 0%nat /\ next l1 = None /\ level0_mergeable l1 /\ ver (snap l1) <= P) as (Hl1 & Hn1 & Hm1 & Hv1).
  { assert (0 <= ver (snap l0) <= P /\ 0 <= ver (curr l0) <= P) as [? ?] by (split; apply Hok0).
    unfold l1, spilled, level0_mergeable. destruct (level_should_spill (n + 1) 0);
      cbn [level next curr snap Nat.eqb clear_in_memory_entries entries]; (split; [done|]); (split; [done|]);
      (split; [auto|lia]). }
  destruct (advance_levels_ok P dir n 1 l0 ls) as (ls1' & Hadv' & _ & _ & Hv); [done|lia|done|done|lia|done|done|].
  rewrite Hadv in Hadv'. injection Hadv' as <-. cbn [Nat.sub] in Hv.
  destruct (spilled_ok P (n + 1) 0 l0 ls ls1) as [Hok1 Hview]; [unfold V12 in HP; lia|done|done|].
  destruct (first_level_result P l1 nb (over (entries (snap l1)) (view ls1))) as (out & _ & Hk & _ & Hr);
    [done..|apply Hok1|done| |].
  { apply (fresh_ext _ (view (l0 :: ls))); [|by rewrite Hlv in Hf]. intros k. symmetry. apply Hview. }
  destruct (prepare_first_level P nb l1) as [l2|]; [|done]. cbn [result_bind] in Hadd, Hr. rewrite Hr in Hadd.
  cbn [result_bind] in Hadd. injection Hadd as <-. cbn [levels curr snap].
  rewrite first_bucket_version by done. split; [unfold V11, V12 in *; lia|]. by split.
Qed.

Lemma new_chained : list_chained 0 (BucketList_new dir).
Proof.
  split; [done|]. cbn [levels BucketList_new BUCKET_LIST_LEVELS seq map].
  split; [lia|]. split; [done|]. cbn [chained_levels].
  assert (forall j, chained 0 j Bucket_empty (BucketLevel_new j)) as Hc.
  { intros j. pose proof (half_pos (j - 1)). split; [done|done|lia|done]. }
  repeat (split; [apply Hc|]). done.
Qed.

Lemma close_chained P n b bl bl' :
  P <= protocol b -> V12 <= protocol b -> 0 <= n -> n + 1 + 2 ^ 19 <= u32_max ->
  list_ok P n bl -> valid_batch b (view (levels bl)) -> list_chained n bl ->
  close_ledger bl b = Ok bl' -> list_chained (n + 1) bl'.
Proof.
  intros HPQ HP Hn Hb Hok Hvalid Hch Hadd. pose proof Hok as [Hseq _]. pose proof Hvalid as [Hd _].
  unfold close_ledger, add_batch, add_batch_impl, fresh_in_memory_only in Hadd. fold (batch_bucket b) in Hadd.
  assert (wf_entries (batch_bucket b)) as Hwf.
  { apply sorted_wf; [apply batch_bucket_sorted|]. by apply batch_bucket_nodup. }
  rewrite (wf_sorted_check _ Hwf), Hseq in Hadd. cbn [result_bind] in Hadd.
  destruct (add_batch_internal (n + 1) (protocol b) _ bl) as [ls|] eqn:Hls; [|done]. cbn [result_bind] in Hadd.
  injection Hadd as <-. eapply add_batch_internal_chained; [..|exact Hls]; try done.
  - by apply (list_ok_weaken P).
  - by apply batch_bucket_fresh.
Qed.

Lemma replay_chained P n bl m bs bl' :
  V12 <= P -> 0 <= n -> n + len bs + 2 ^ 19 <= u32_max -> list_ok P n bl -> list_chained n bl ->
  (forall k, view (levels bl) k = m k) -> valid_from P m bs -> try_fold close_ledger bs bl = Ok bl' ->
  list_chained (n + len bs) bl'.
Proof.
  revert P n bl m. induction bs as [|b bs IH]; intros P n bl m HP Hn Hb Hok Hch Hm Hv Hf.
  - injection Hf as <-. by replace (n + len []) with n by (unfold len; simpl; lia).
  - destruct Hv as (HPb & Hvb & Hv). rewrite len_cons in *. pose proof (len_nonneg bs).
    assert (valid_batch b (view (levels bl))) as Hvb'.
    { destruct Hvb as [Hd Hi]. split; [done|]. intros k Hk. rewrite Hm. by apply Hi. }
    destruct (add_batch_ok P n b bl) as (bl1 & Hadd & Hok1 & _ & Hview1); [done|lia|done|lia|done|done|].
    cbn [try_fold] in Hf. assert (close_ledger bl b = Ok bl1) as Hcl.
    { unfold close_ledger. destruct Hok as [Hseq _]. by rewrite Hseq. }
    rewrite Hcl in Hf. replace (n + (1 + len bs)) with (n + 1 + len bs) in * by lia.
    apply (IH (protocol b) (n + 1) bl1 (batch_update b m)); try done; try lia.
    + by apply (close_chained P n b bl); try lia.
    + intros k. rewrite Hview1. by apply batch_update_ext.
Qed.

(** ** Levels that are the same but for where their entries are *)

Definition same_result (r r' : result Bucket BucketError) : Prop :=
  match r, r' with Ok b, Ok b' => same_file b b' | Err e, Err e' => e = e' | _, _ => False end.

Definition same_pending (o o' : option PendingMerge) : Prop :=
  match o, o' with
  | None, None => True
  | Some p, Some p' => same_result (resolve p) (resolve p')
  | _, _ => False
  end.

Record same_buckets (l l' : BucketLevel) : Prop := {
  same_index : level l = level l';
  same_curr : same_file (curr l) (curr l');
  same_snap : same_file (snap l) (snap l')
}.

Record same_level (l l' : BucketLevel) : Prop := {
  same_both : same_buckets l l';
  same_next : same_pending (next l) (next l')
}.

(** The merge under way may have been forgotten. *)
Record weak_level (l l' : BucketLevel) : Prop := {
  weak_buckets : same_buckets l l';
  weak_next : next l' = None \/ same_pending (next l) (next l')
}.

Lemma same_result_refl r : same_result r r.
Proof. destruct r; simpl; done. Qed.

(** ** Restarting *)

Lemma round_down_half n j : 0 <= n -> n <= u32_max -> (j < 10)%nat ->
  bl_round_down n (bl_level_half j) = n - n mod bl_level_half j.
Proof. intros Hn Hb Hj. rewrite half_value. apply round_down_value; [done|lia]. Qed.

Lemma flag_at_start n j :
  (1 <= j <= 10)%nat -> 0 <= n -> n + 2 ^ 19 <= u32_max ->
  should_merge_with_empty_curr (bl_round_down n (bl_level_half (j - 1))) j = should_merge_with_empty_curr n j.
Proof.
  intros Hj Hn Hb. rewrite round_down_half by lia. pose proof (half_pos (j - 1)) as Hh.
  pose proof (Z.mod_pos_bound n (bl_level_half (j - 1)) Hh). pose proof (Z.mod_le n (bl_level_half (j - 1)) Hn Hh).
  rewrite !merge_with_empty_value by (done || lia). f_equal.
  assert ((n - n mod bl_level_half (j - 1)) mod bl_level_half (j - 1) = 0) as ->; [|lia].
  rewrite Zminus_mod_idemp_r. replace (n - n) with 0 by lia. done.
Qed.

Lemma bucket_protocol_version_value b : wf_bucket b -> V11 <= ver b -> bucket_protocol_version b = Some (ver b).
Proof.
  intros Hw Hv. unfold bucket_protocol_version. rewrite (version_nonempty b Hv Hw).
  destruct Hw as [Hw _]. destruct (wf_entries_parts _ Hw) as (meta & _ & Hadv & _ & Hparts).
  unfold version_of in *. rewrite Hadv in *. cbn [fst] in *. destruct meta as [m|]; [|unfold V11 in Hv; simpl in Hv; lia].
  rewrite Hparts. done.
Qed.

Lemma chained_all_clear n j above ls :
  (1 <= j)%nat -> n < bl_level_half (j - 1) -> chained_levels n above j ls -> Forall (fun l => next l = None) ls.
Proof.
  revert j above. induction ls as [|l ls IH]; intros j above Hj Hn; [constructor|]. intros [Hc Hr].
  constructor.
  - destruct (next l) as [p|] eqn:E; [|done]. pose proof (ch_pending _ _ _ _ Hc) as Hp. rewrite E in Hp.
    destruct Hp as [Hge _]. lia.
  - apply (IH (S j) (snap l)); [lia| |done]. replace (S j - 1)%nat with (S (j - 1)) by lia.
    rewrite half_succ. pose proof (half_pos (j - 1)). lia.
Qed.

Lemma weak_clear_same ls ls' :
  Forall (fun l => next l = None) ls -> Forall2 weak_level ls ls' -> Forall2 same_level ls ls'.
Proof.
  intros Hc Hw. induction Hw as [|l l' ls ls' [Hb Hn] Hw IH]; [constructor|].
  apply Forall_cons in Hc as [Hl Hc]. constructor; [|by apply IH]. split; [done|].
  rewrite Hl in *. destruct Hn as [-> | Hn]; [done|]. done.
Qed.

Lemma restart_from_spec P n Q j above above' ls ls' :
  (1 <= j)%nat -> (j + length ls = 11)%nat -> 0 <= n -> n + 2 ^ 19 <= u32_max ->
  wf_bucket above -> levels_ok P n above j ls -> chained_levels n above j ls ->
  same_file above above' -> Forall2 weak_level ls ls' ->
  exists ls'', restart_from dir n Q above' j ls' = Ok ls'' /\ Forall2 same_level ls ls''.
Proof.
  intros Hj Hlen Hn Hb. revert j above above' ls' Hj Hlen.
  induction ls as [|l ls IH]; intros j above above' ls' Hj Hlen Hwa Hok Hch Hsa Hw.
  { inversion Hw; subst. by exists []. }
  inversion Hw as [|? l' ? ls2 [[Hli Hlc Hls] Hln] Hw2]; subst. cbn [length] in Hlen.
  destruct Hok as (Hlev & [Hoks Hokc] & Hpend & _ & Hrest), Hch as [Hc Hcr].
  destruct (IH (S j) (snap l) (snap l') ls2) as (ls3 & Hr3 & Hs3); [lia|lia|apply Hoks|done|done|done|done|].
  cbn [restart_from]. destruct (next l') as [p'|] eqn:Hn'.
  { rewrite Hr3. cbn [result_bind]. exists (l' :: ls3). split; [done|]. constructor; [|done].
    split; [done|]. rewrite Hn'. by destruct Hln as [|Hln]. }
  pose proof (ch_pending _ _ _ _ Hc) as Hp. destruct (next l) as [p|] eqn:Hnl.
  - destruct Hp as (Hge & Hv11 & (b & Q0 & Hres & Hvb & Hstart) & _).
    assert (is_empty above' = false) as Hne.
    { rewrite <- (same_empty _ _ Hsa). by apply version_nonempty. }
    assert (wf_bucket above' /\ ver above' = ver above) as [Hwa' Hva'].
    { destruct Hsa as [E Z]. unfold wf_bucket. rewrite <- E, <- Z. done. }
    rewrite Hne, (bucket_protocol_version_value above') by (done || lia). cbn [default].
    rewrite (flag_at_start n j) by lia.
    unfold prepare_with_normalization. rewrite Hn', <- Hli, Hlev.
    destruct (Nat.leb_spec 1 j); [|lia]. cbn [result_bind snap]. rewrite Hr3. cbn [result_bind].
    eexists. split; [done|]. constructor; [|done]. split; [by split; [|done|done]|]. rewrite Hnl. cbn [next same_pending].
    rewrite Hres. cbn [resolve].
    assert (same_file (merge_base n j l) (if should_merge_with_empty_curr n j then Bucket_empty else curr l')) as Hsb
      by (unfold merge_base; by destruct (should_merge_with_empty_curr n j)).
    rewrite <- (same_start dir _ (keep_tombstone_entries j) Preserve _ _ _ _ Hsb Hsa).
    rewrite (start_merge_version dir Q0 _ _ _ _ _ b Hstart); [by apply same_result_refl| |].
    + rewrite Hva'. cbn [default id]. pose proof (ch_curr _ _ _ _ Hc).
      destruct (merge_base_cases n j l) as [-> | ->]; [rewrite empty_version; unfold V11 in Hv11|]; lia.
    + rewrite Hva'. cbn [default id]. unfold V11 in Hv11. lia.
  - assert (is_empty above' = true) as ->.
    { unfold pending_ok in Hpend. rewrite Hnl in Hpend. destruct Hsa as [E Z]. unfold is_empty. rewrite <- E, Hpend.
      by destruct (zero_hash above'). }
    exists (l' :: ls2). split; [done|]. constructor; [split; [done|by rewrite Hnl, Hn']|].
    apply weak_clear_same; [|done]. eapply (chained_all_clear n (S j) (snap l)); [lia| |done].
    replace (S j - 1)%nat with (S (j - 1)) by lia. rewrite half_succ. pose proof (half_pos (j - 1)). lia.
Qed.

(** ** The same levels go on the same way *)

Lemma same_spilled s j l l' : same_buckets l l' -> same_buckets (spilled s j l) (spilled s j l').
Proof.
  intros [Hi Hc Hs]. unfold spilled. destruct (level_should_spill s j); [|done].
  split; [done|done|]. cbn [snap]. by destruct (j =? 0)%nat.
Qed.

Lemma same_commit l l' :
  same_level l l' ->
  match commit l, commit l' with
  | Ok m, Ok m' => same_level m m'
  | Err e, Err e' => e = e'
  | _, _ => False
  end.
Proof.
  intros [[Hi Hc Hs] Hn]. unfold commit. destruct (next l) as [p|] eqn:E, (next l') as [p'|] eqn:E'; try done.
  - simpl in Hn. destruct (resolve p), (resolve p'); simpl in *; try done.
  - split; [done|]. by rewrite E, E'.
Qed.

Lemma advance_level_same s Q j above above' l l' m :
  (1 <= j)%nat -> same_buckets above above' -> same_level l l' -> level l = j ->
  advance_level dir s Q above j l = Ok m ->
  exists m', advance_level dir s Q above' j l' = Ok m' /\ same_level m m'.
Proof.
  intros Hj Ha [Hb Hn] Hlev. unfold advance_level.
  assert (same_level (spilled s j l) (spilled s j l')) as Hsp.
  { split; [by apply same_spilled|]. unfold spilled. by destruct (level_should_spill s j). }
  destruct (level_should_spill s (j - 1)); [|intros [= <-]; by eexists].
  pose proof (same_commit _ _ Hsp) as Hcm.
  destruct (commit (spilled s j l)) as [c|] eqn:Hc; [|done].
  destruct (commit (spilled s j l')) as [c'|]; [|done]. cbn [result_bind].
  assert (level c = j) as Hlc.
  { unfold commit in Hc. assert (level (spilled s j l) = j) as Hls by (unfold spilled; by destruct (level_should_spill s j)).
    destruct (next (spilled s j l)); [|injection Hc as <-; done].
    destruct (resolve _); [|done]. injection Hc as <-. done. }
  destruct Hcm as [[Hi Hcc Hcs] Hcn]. unfold prepare_with_normalization.
  destruct (next c), (next c'); try done.
  rewrite <- Hi, Hlc. destruct (Nat.leb_spec 1 j); [|lia]. intros [= <-]. eexists. split; [done|].
  split; [done|]. cbn [next same_pending resolve].
  assert (same_file (if (j - 1 =? 0)%nat then clear_in_memory_entries (curr above) else curr above)
    (if (j - 1 =? 0)%nat then clear_in_memory_entries (curr above') else curr above')) as Hinc
    by (destruct Ha as [_ Hac _]; by destruct (j - 1 =? 0)%nat).
  assert (same_file (if should_merge_with_empty_curr s j then Bucket_empty else curr c)
    (if should_merge_with_empty_curr s j then Bucket_empty else curr c')) as Hbase
    by (by destruct (should_merge_with_empty_curr s j)).
  rewrite (same_start dir Q _ _ _ _ _ _ Hbase Hinc). apply same_result_refl.
Qed.

Lemma advance_levels_same s Q j above above' ls ls' ms :
  (1 <= j)%nat -> same_buckets above above' -> Forall2 same_level ls ls' ->
  (forall i l, ls !! i = Some l -> level l = (j + i)%nat) ->
  advance_levels dir s Q above j ls = Ok ms ->
  exists ms', advance_levels dir s Q above' j ls' = Ok ms' /\ Forall2 same_level ms ms'.
Proof.
  intros Hj Ha Hls. revert j above above' ms Hj Ha.
  induction Hls as [|l l' ls ls' Hl Hls IH]; intros j above above' ms Hj Ha Hidx Hadv.
  - injection Hadv as <-. by exists [].
  - cbn [advance_levels] in *. destruct (advance_levels dir s Q l (S j) ls) as [ms1|] eqn:E; [|done].
    destruct (IH (S j) l l' ms1) as (ms1' & -> & Hm1); [lia|apply Hl| |done|].
    { intros i x Hx. specialize (Hidx (S i) x Hx). lia. }
    cbn [result_bind] in *. destruct (advance_level dir s Q above j l) as [m|] eqn:El; [|done]. injection Hadv as <-.
    destruct (advance_level_same s Q j above above' l l' m) as (m' & -> & Hm); [done|done|done| |done|].
    { specialize (Hidx 0%nat l eq_refl). lia. }
    cbn [result_bind]. eexists. split; [done|]. by constructor.
Qed.

Lemma levels_ok_index P n above j ls i l : levels_ok P n above j ls -> ls !! i = Some l -> level l = (j + i)%nat.
Proof.
  revert above j i. induction ls as [|x ls IH]; intros above j i Hok Hi; [done|].
  destruct Hok as (Hlev & _ & _ & _ & Hrest). destruct i as [|i]; [injection Hi as <-; lia|].
  rewrite (IH (snap x) (S j) i Hrest Hi). lia.
Qed.

(** Lists of the same buckets, at the same ledger, whose first level takes batches. *)
Record same_list (bl bl' : BucketList) : Prop := {
  same_seq : ledger_seq bl = ledger_seq bl';
  same_dir : bucket_dir bl = bucket_dir bl';
  same_levels : Forall2 same_level (levels bl) (levels bl');
  same_first : match levels bl' with l :: _ => level0_mergeable l | [] => False end
}.

Lemma add_batch_internal_same P n nb bl bl' ms :
  V12 <= P -> 0 <= n -> n + 1 + 2 ^ 19 <= u32_max -> list_ok P n bl -> bucket_dir bl = dir -> same_list bl bl' ->
  wf_entries (entries nb) -> in_memory nb = true -> fresh (entries nb) (view (levels bl)) ->
  add_batch_internal (n + 1) P nb bl = Ok ms ->
  exists ms', add_batch_internal (n + 1) P nb bl' = Ok ms' /\
    same_list (MkBucketList ms (n + 1) (bucket_dir bl)) (MkBucketList ms' (n + 1) (bucket_dir bl')).
Proof.
  intros HP Hn Hb Hok Hdir [Hseq Hsd Hsl Hsf] Hw Hm Hf Hadd.
  destruct Hok as (_ & l0 & ls & Hlv & Hlen & Hl0 & Hn0 & Hm0 & Hok0 & Hls). rewrite Hlv in *.
  apply Forall2_cons_inv_l in Hsl as (l0' & ls' & Hs0 & Hss & Hlv'). rewrite Hlv' in Hsf.
  unfold add_batch_internal in *. destruct (Z.eqb_spec (n + 1) 0); [lia|]. rewrite Hlv'. rewrite Hlv in Hadd.
  rewrite <- Hsd, Hdir in *.
  pose proof (spill_loop dir (n + 1) P [] l0 ls HP) as Hloop. cbn [length app] in Hloop.
  pose proof (spill_loop dir (n + 1) P [] l0' ls' HP) as Hloop'. cbn [length app] in Hloop'.
  assert (length ls' = 10%nat) as Hlen' by (rewrite <- Hlen; symmetry; by eapply Forall2_length).
  rewrite Hlen in Hloop. rewrite Hlen' in Hloop'. change (BUCKET_LIST_LEVELS - 1)%nat with 10%nat in *.
  rewrite Hloop in Hadd by done. rewrite Hloop' by done. clear Hloop Hloop'.
  destruct (advance_levels_ok P dir n 1 l0 ls) as (ls1 & Hadv & _ & _ & Hv); [done|lia|done|done|lia|done|done|].
  rewrite Hadv in Hadd. cbn [result_bind Nat.sub] in Hadd, Hv.
  destruct (advance_levels_same (n + 1) P 1 l0 l0' ls ls' ls1 (le_n 1) (same_both _ _ Hs0) Hss) as (ls1' & Hadv' & Hs1);
    [intros i l; by apply (levels_ok_index P n (snap l0))|done|].
  rewrite Hadv'. cbn [result_bind].
  destruct (spilled_ok P (n + 1) 0 l0 ls ls1) as [Hok1 Hview]; [unfold V12 in HP; lia|done|done|].
  pose proof (same_spilled (n + 1) 0 l0 l0' (same_both _ _ Hs0)) as [Hi1 Hc1 Hsn1].
  set (l1 := spilled (n + 1) 0 l0) in *. set (l1' := spilled (n + 1) 0 l0') in *.
  assert (level l1 = 0%nat /\ next l1 = None /\ level0_mergeable l1) as (Hl1 & Hn1 & Hm1).
  { unfold l1, spilled, level0_mergeable. destruct (level_should_spill (n + 1) 0); simpl; auto. }
  assert (next l1' = None /\ level0_mergeable l1') as (Hn1' & Hm1').
  { pose proof (same_next _ _ Hs0) as Hn0'. rewrite Hn0 in Hn0'.
    unfold l1', spilled, level0_mergeable. destruct (level_should_spill (n + 1) 0); simpl; (split; [by destruct (next l0')|auto]). }
  assert (fresh (entries nb) (over (entries (curr l1)) (over (entries (snap l1)) (view ls1)))) as Hf1.
  { apply (fresh_ext _ (view (l0 :: ls))); [|done]. intros k. symmetry. apply Hview. }
  assert (wf_entries (entries (curr l1))) as Hwc by apply Hok1.
  destruct (first_level_result P l1 nb (over (entries (snap l1)) (view ls1))) as (out & Hout & _ & _ & Hr); [done..|].
  destruct Hc1 as [Hce Hcz]. rewrite Hce in *.
  destruct (first_level_result P l1' nb (over (entries (snap l1)) (view ls1))) as (out' & Hout' & _ & _ & Hr');
    [done|by rewrite <- Hi1|done..|].
  rewrite Hout in Hout'. injection Hout' as <-.
  destruct (prepare_first_level P nb l1) as [l2|]; [|done]. cbn [result_bind] in Hadd, Hr. rewrite Hr in Hadd.
  cbn [result_bind] in Hadd. injection Hadd as <-.
  destruct (prepare_first_level P nb l1') as [l2'|]; [|done]. cbn [result_bind] in *. rewrite Hr'. cbn [result_bind].
  eexists. split; [done|]. split; cbn [ledger_seq bucket_dir levels]; [done|done| |by left].
  constructor; [|done]. split; [by split|done].
Qed.

Lemma close_same P n b bl bl' r :
  P <= protocol b -> V12 <= protocol b -> 0 <= n -> n + 1 + 2 ^ 19 <= u32_max ->
  list_ok P n bl -> valid_batch b (view (levels bl)) -> bucket_dir bl = dir -> same_list bl bl' ->
  close_ledger bl b = Ok r -> exists r', close_ledger bl' b = Ok r' /\ same_list r r'.
Proof.
  intros HPQ HP Hn Hb Hok Hvalid Hdir Hsame Hadd. pose proof Hok as [Hseq _]. pose proof Hvalid as [Hd _].
  unfold close_ledger, add_batch, add_batch_impl, fresh_in_memory_only in *. fold (batch_bucket b) in *.
  assert (wf_entries (batch_bucket b)) as Hwf.
  { apply sorted_wf; [apply batch_bucket_sorted|]. by apply batch_bucket_nodup. }
  rewrite (wf_sorted_check _ Hwf) in *. cbn [result_bind] in *. rewrite <- (same_seq _ _ Hsame). rewrite Hseq in *.
  destruct (add_batch_internal (n + 1) (protocol b) _ bl) as [ls|] eqn:Hls; [|done]. cbn [result_bind] in Hadd.
  injection Hadd as <-.
  destruct (add_batch_internal_same (protocol b) n (MkBucket (batch_bucket b) true true) bl bl' ls) as (ls' & Hls' & Hs);
    [done..|by apply (list_ok_weaken P)|done|done|done|done|by apply batch_bucket_fresh|done|].
  rewrite Hls'. cbn [result_bind]. eexists. by split.
Qed.

Lemma replay_same P n bl bl' m bs :
  V12 <= P -> 0 <= n -> n + len bs + 2 ^ 19 <= u32_max -> list_ok P n bl -> bucket_dir bl = dir -> same_list bl bl' ->
  (forall k, view (levels bl) k = m k) -> valid_from P m bs ->
  exists r r', try_fold close_ledger bs bl = Ok r /\ try_fold close_ledger bs bl' = Ok r' /\ same_list r r' /\
    forall k, view (levels r) k = fold_left (fun m b => batch_update b m) bs m k.
Proof.
  revert P n bl bl' m. induction bs as [|b bs IH]; intros P n bl bl' m HP Hn Hb Hok Hdir Hs Hm Hv; [by exists bl, bl'|].
  destruct Hv as (HPb & Hvb & Hv). rewrite len_cons in *. pose proof (len_nonneg bs).
  assert (valid_batch b (view (levels bl))) as Hvb'.
  { destruct Hvb as [Hd Hi]. split; [done|]. intros k Hk. rewrite Hm. by apply Hi. }
  destruct (add_batch_ok P n b bl) as (bl1 & Hadd & Hok1 & Hdir1 & Hview1); [done|lia|done|lia|done|done|].
  assert (close_ledger bl b = Ok bl1) as Hcl by (unfold close_ledger; destruct Hok as [Hseq _]; by rewrite Hseq).
  destruct (close_same P n b bl bl' bl1) as (bl1' & Hcl' & Hs1); [done|lia|done|lia|done..|].
  cbn [try_fold]. rewrite Hcl, Hcl'.
  apply (IH (protocol b) (n + 1) bl1 bl1' (batch_update b m)); try done; try lia; [congruence|].
  intros k. rewrite Hview1. by apply batch_update_ext.
Qed.

(** ** The archive *)

Context {Hash : Type} `{EqDecision Hash} (ZERO : Hash) (content_hash : list BucketEntry -> Hash)
  (load_bucket : Hash -> result Bucket BucketError).

(** No file hashes to zero, and none but the empty one to the hash of the empty file. *)
Hypothesis content_hash_nonzero : forall es, content_hash es <> ZERO.
Hypothesis empty_file_hash : forall es, content_hash es = content_hash [] -> es = [].

Notation hash := (bucket_hash ZERO content_hash).

(** The store has the file of the bucket under its hash. *)
Definition stored (b : Bucket) : Prop :=
  zero_hash b = false -> entries b <> [] -> exists b', load_bucket (hash b) = Ok b' /\ same_file b b'.

Definition pending_stored (p : PendingMerge) : Prop :=
  match p with
  | InMemory b => stored b
  | Async c s r => stored c /\ stored s /\ match r with Ok b => stored b | Err _ => True end
  end.

Definition level_stored (l : BucketLevel) : Prop :=
  stored (curr l) /\ stored (snap l) /\ match next l with Some p => pending_stored p | None => True end.

(** What an archive keeps of the list; [resolved] says which merges have ended. *)
Definition hashes_of (bl : BucketList) : list (Hash * Hash) := map (fun l => (hash (curr l), hash (snap l))) (levels bl).
Definition states_from (resolved : nat -> bool) (i : nat) (ls : list BucketLevel) : list (option PendingMergeState) :=
  imap (fun k l => pending_merge_state ZERO content_hash (resolved (i + k)%nat) l) ls.
Definition states_of (resolved : nat -> bool) (bl : BucketList) : list (option PendingMergeState) :=
  states_from resolved 0 (levels bl).

Lemma states_from_cons resolved i l ls :
  states_from resolved i (l :: ls) =
  pending_merge_state ZERO content_hash (resolved i) l :: states_from resolved (S i) ls.
Proof.
  unfold states_from. rewrite imap_cons. f_equal; [by rewrite Nat.add_0_r|]. apply imap_ext. intros k x _. simpl.
  by rewrite Nat.add_succ_r.
Qed.

Lemma same_hash b b' : same_file b b' -> hash b = hash b'.
Proof. intros [E Z]. unfold bucket_hash. by rewrite E, Z. Qed.

Lemma load_and_verify_spec b :
  stored b -> zero_hash b = false -> entries b <> [] ->
  exists b', load_and_verify ZERO content_hash load_bucket (hash b) = Ok b' /\ same_file b b'.
Proof.
  intros Hs Hz He. destruct (Hs Hz He) as (b' & Hl & Hsame). exists b'. split; [|done].
  unfold load_and_verify. rewrite Hl. cbn [result_bind].
  rewrite bool_decide_eq_true_2; [done|]. symmetry. by apply same_hash.
Qed.

Lemma load_or_sentinel_spec b :
  wf_bucket b -> stored b ->
  exists b', load_or_sentinel ZERO content_hash load_bucket (hash b) = Ok b' /\ same_file b b'.
Proof.
  intros [_ Hz] Hs. unfold load_or_sentinel, for_sentinel_hash, is_zero, empty_hash.
  destruct (zero_hash b) eqn:E.
  - exists Bucket_empty. unfold bucket_hash. rewrite E, bool_decide_eq_true_2 by done. split; [done|].
    split; [by apply Hz|done].
  - assert (hash b = content_hash (entries b)) as Hh by (unfold bucket_hash; by rewrite E).
    rewrite (bool_decide_eq_false_2 (hash b = ZERO)) by (rewrite Hh; apply content_hash_nonzero).
    case_bool_decide as Hempty.
    + rewrite Hh in Hempty. apply empty_file_hash in Hempty. exists (MkBucket [] false false). done.
    + apply load_and_verify_spec; [done|done|]. intros Hb. apply Hempty. by rewrite Hh, Hb.
Qed.

Lemma nonempty_not_zero b : wf_bucket b -> V11 <= ver b -> zero_hash b = false /\ entries b <> [].
Proof.
  intros [_ Hz] Hv. assert (entries b <> []) as He.
  { intros E. unfold version_of in Hv. rewrite E in Hv. unfold V11 in Hv. simpl in Hv. lia. }
  split; [|done]. destruct (zero_hash b); [|done]. by destruct He; apply Hz.
Qed.

(** A restored level: the merge under way is restored, or kept for later with the
    hashes of its inputs. *)
Definition restored (st : option PendingMergeState) (l l' : BucketLevel) : Prop :=
  weak_level l l' /\
  (next l' = None ->
   (next l = None /\ st = None) \/
   exists c s r, next l = Some (Async c s r) /\ st = Some (Inputs (hash c) (hash s))).

Lemma restore_level_spec resolved i l :
  level l = i -> wf_bucket (curr l) -> wf_bucket (snap l) -> level_stored l ->
  (forall p, next l = Some p -> exists b, resolve p = Ok b /\ wf_bucket b /\ V11 <= ver b) ->
  let st := pending_merge_state ZERO content_hash resolved l in
  exists l', restore_level ZERO content_hash load_bucket i (hash (curr l), hash (snap l)) st = Ok l' /\ restored st l l'.
Proof.
  intros Hi Hwc Hws (Hsc & Hss & Hsp) Hp st. unfold restore_level.
  destruct (load_or_sentinel_spec _ Hwc Hsc) as (c & -> & Hc). cbn [result_bind].
  destruct (load_or_sentinel_spec _ Hws Hss) as (s & -> & Hs). cbn [result_bind].
  assert (forall nx, weak_level l (MkLevel c s nx i) <-> nx = None \/ same_pending (next l) nx) as Hweak.
  { intros nx. split; [by intros [_ Hw]|]. intros Hw. split; [by split|done]. }
  assert (forall b, stored b -> wf_bucket b -> V11 <= ver b -> exists b',
    output_state ZERO content_hash b = Some (Output (hash b)) /\ is_zero ZERO (hash b) = false /\
    load_and_verify ZERO content_hash load_bucket (hash b) = Ok b' /\ same_file b b') as Hout.
  { intros b Hst Hwb Hvb. destruct (nonempty_not_zero b Hwb Hvb) as [Hz Hne].
    destruct (load_and_verify_spec b Hst Hz Hne) as (b' & Hl & Hsame).
    assert (is_zero ZERO (hash b) = false) as Hz'.
    { unfold is_zero, bucket_hash. rewrite Hz. apply bool_decide_eq_false_2, content_hash_nonzero. }
    exists b'. unfold output_state. by rewrite Hz'. }
  unfold st, pending_merge_state in *. destruct (next l) as [p|] eqn:Hn.
  - destruct (Hp p eq_refl) as (b & Hres & Hwb & Hvb).
    assert (stored b -> output_state ZERO content_hash b = Some (Output (hash b)) /\ exists l',
      (let? next := (if negb (is_zero ZERO (hash b))
                     then let? b := load_and_verify ZERO content_hash load_bucket (hash b) in Ok (Some (InMemory b))
                     else Ok None) in Ok (MkLevel c s next i)) = Ok l' /\ restored (Some (Output (hash b))) l l') as Hdone.
    { intros Hst. destruct (Hout b Hst Hwb Hvb) as (b' & Ho & Hz & Hl & Hsame). split; [done|]. rewrite Hz, Hl.
      eexists. split; [done|]. split; [|done]. apply Hweak. right. simpl. rewrite Hres. done. }
    destruct p as [b0|ci si r]; simpl in Hsp, Hres.
    + injection Hres as ->. destruct (Hdone Hsp) as [-> Hl]. done.
    + subst r. destruct Hsp as (_ & _ & Hsb). destruct resolved.
      * destruct (Hdone Hsb) as [-> Hl]. done.
      * eexists. split; [done|]. split; [apply Hweak; by left|]. intros _. right. by exists ci, si, (Ok b).
  - eexists. split; [done|]. split; [apply Hweak; by left|]. intros _. by left.
Qed.

Lemma pending_result P n j above l p :
  chained n j above l -> pending_ok P n j above l -> next l = Some p ->
  exists b, resolve p = Ok b /\ wf_bucket b /\ V11 <= ver b.
Proof.
  intros Hc Hp Hn. pose proof (ch_pending _ _ _ _ Hc) as Hcp. unfold pending_ok in Hp. rewrite Hn in *.
  destruct Hcp as (_ & Hv & (b & Q & Hres & Hvb & _) & _), Hp as (b' & Hres' & [Hwb _] & _).
  rewrite Hres in Hres'. injection Hres' as <-. exists b. rewrite Hvb. done.
Qed.

Lemma restore_levels_spec P n resolved j above ls :
  levels_ok P n above j ls -> chained_levels n above j ls -> Forall level_stored ls ->
  exists ls', restore_levels ZERO content_hash load_bucket j (map (fun l => (hash (curr l), hash (snap l))) ls)
      (states_from resolved j ls) = Ok ls' /\
    Forall2 weak_level ls ls' /\ Forall2 (fun st ll => restored st ll.1 ll.2) (states_from resolved j ls) (zip ls ls').
Proof.
  revert j above. induction ls as [|l ls IH]; intros j above Hok Hch Hst; [by exists []|].
  rewrite states_from_cons. cbn [map restore_levels].
  destruct Hok as (Hlev & [Hoks Hokc] & Hpend & _ & Hrest), Hch as [Hc Hcr]. apply Forall_cons in Hst as [Hsl Hst].
  destruct (restore_level_spec (resolved j) j l) as (l' & Hl' & Hr); [done|apply Hokc|apply Hoks|done| |].
  { intros p. by apply (pending_result P n j above l p). }
  rewrite Hl'. cbn [result_bind]. destruct (IH (S j) (snap l) Hrest Hcr Hst) as (ls' & -> & Hw & Hrs).
  cbn [result_bind]. eexists. split; [done|]. split; constructor; try done. apply Hr.
Qed.

(** Running again the merges that were saved with their inputs. *)
Lemma install_spec P n Q j above ls ls' sts :
  (1 <= j)%nat -> P <= Q -> 0 <= Q -> wf_bucket above -> levels_ok P n above j ls -> chained_levels n above j ls ->
  Forall level_stored ls -> Forall2 weak_level ls ls' -> Forall2 (fun st ll => restored st ll.1 ll.2) sts (zip ls ls') ->
  versioned P above ->
  exists works ls'', collect_inputs ZERO content_hash load_bucket ls' sts = Ok works /\
    install_merges dir Q j ls' works = Ok ls'' /\ Forall2 same_level ls ls''.
Proof.
  intros Hj HPQ HQ. revert j above ls' sts Hj. induction ls as [|l ls IH]; intros j above ls' sts Hj Hwa Hok Hch Hst Hw Hr Hva.
  { inversion Hw; subst. exists [], []. by destruct sts. }
  apply Forall2_cons_inv_l in Hw as (l' & ls2 & Hwl & Hw & ->). cbn [zip zip_with] in Hr.
  apply Forall2_cons_inv_r in Hr as (st & sts2 & Hrl & Hr & ->).
  destruct Hok as (Hlev & [Hoks Hokc] & Hpend & _ & Hrest), Hch as [Hc Hcr]. apply Forall_cons in Hst as [Hsl Hst].
  destruct (IH (S j) (snap l) ls2 sts2) as (works & ls3 & Hcol & Hins & Hsame);
    [lia|apply Hoks|done|done|done|done|done|apply Hoks|].
  destruct Hwl as [Hb Hn]. destruct Hrl as [_ Hrl]. cbn [fst snd] in Hrl. cbn [collect_inputs merge_inputs]. unfold merge_inputs.
  destruct (next l') as [p'|] eqn:Hn'.
  { cbn [result_bind]. rewrite Hcol. cbn [result_bind install_merges]. eexists _, (l' :: ls3). split; [done|].
    cbn [install_merges]. rewrite Hins. split; [done|]. constructor; [|done]. split; [done|]. rewrite Hn'.
    by destruct Hn as [|Hn]. }
  destruct (Hrl eq_refl) as [[Hnl ->] | (c & s & r & Hnl & ->)].
  { cbn [result_bind]. rewrite Hcol. cbn [result_bind]. eexists _, (l' :: ls3). split; [done|].
    cbn [install_merges]. rewrite Hins. split; [done|]. constructor; [|done]. split; [done|]. by rewrite Hn', Hnl. }
  pose proof (ch_pending _ _ _ _ Hc) as Hcp. rewrite Hnl in Hcp.
  destruct Hcp as (_ & Hv11 & (b & Q0 & Hres & Hvb & Hstart) & Hsc & Hss).
  assert (forall x y, same_file x y -> wf_bucket y -> wf_bucket x) as Hwf
    by (intros x y [E Z]; unfold wf_bucket; by rewrite E, Z).
  assert (wf_bucket (merge_base n j l)) as Hwb by (destruct (merge_base_cases n j l) as [-> | ->]; [apply empty_wf|apply Hokc]).
  destruct Hsl as (_ & _ & Hsp). rewrite Hnl in Hsp. destruct Hsp as (Hstc & Hsts & _).
  destruct (load_or_sentinel_spec c) as (c' & -> & Hc'); [by apply (Hwf _ _ Hsc)|done|]. cbn [result_bind].
  destruct (load_or_sentinel_spec s) as (s' & -> & Hs'); [by apply (Hwf _ _ Hss)|done|]. cbn [result_bind].
  rewrite Hcol. cbn [result_bind]. eexists _, _. split; [done|]. cbn [install_merges].
  assert (perform_merge dir (keep_tombstone_entries j) Q c' s' = Ok b) as ->.
  { change (perform_merge dir (keep_tombstone_entries j) Q c' s') with
      (start_merge dir Q (keep_tombstone_entries j) Preserve [] c' s').
    rewrite (same_start dir Q _ _ c' (merge_base n j l) s' above); [|by etransitivity; [symmetry|]..].
    apply (start_merge_version dir Q0); [done| |done].
    destruct Hva. assert (ver (merge_base n j l) <= Q); [|lia].
    destruct (merge_base_cases n j l) as [-> | ->]; [by rewrite empty_version|]. destruct (ok_version _ _ _ Hokc). lia. }
  cbn [result_bind]. rewrite Hins. cbn [result_bind]. split; [done|]. constructor; [|done].
  split; [by destruct Hb|]. rewrite Hnl. cbn [next same_pending]. rewrite Hres. done.
Qed.

Definition list_stored (bl : BucketList) : Prop := Forall level_stored (levels bl).

(** A list with the levels of [bl], some merges perhaps forgotten, restarts as [bl]. *)
Lemma restart_merges_spec P n Q seq bl ls' :
  1 <= n -> n + 2 ^ 19 <= u32_max -> list_ok P n bl -> list_chained n bl -> Forall2 weak_level (levels bl) ls' ->
  exists bl', restart_merges n Q (MkBucketList ls' seq dir) = Ok bl' /\ same_list bl bl'.
Proof.
  intros Hn Hb (Hseq & l0 & ls & Hlv & Hlen & _ & Hn0 & _ & [Hoks Hokc] & Hls) [Hdir Hch] Hw. rewrite Hlv in *.
  destruct Hch as (Hv0 & _ & Hcr). apply Forall2_cons_inv_l in Hw as (l0' & ls2 & [Hb0 Hnx0] & Hw & ->).
  destruct (restart_from_spec P n Q 1 (snap l0) (snap l0') ls ls2) as (ls3 & Hr & Hs);
    [lia|lia|lia|done|apply Hoks|done|done|apply Hb0|done|].
  unfold restart_merges. cbn [levels bucket_dir]. rewrite Hr. cbn [result_bind].
  eexists. split; [done|]. split; cbn [ledger_seq bucket_dir levels]; [done|done| |].
  - rewrite Hlv. constructor; [|done]. split; [done|]. rewrite Hn0 in *. by destruct Hnx0 as [-> | ?].
  - right. rewrite <- (same_empty _ _ (same_curr _ _ Hb0)). apply version_nonempty; [by apply Hv0|apply Hokc].
Qed.

Lemma same_hashes bl bl' : same_list bl bl' -> hashes_of bl = hashes_of bl'.
Proof.
  intros [_ _ Hs _]. unfold hashes_of. induction Hs as [|l l' ls ls' [[_ Hc Hsn] _] _ IH]; [done|]. simpl.
  by rewrite (same_hash _ _ Hc), (same_hash _ _ Hsn), IH.
Qed.

Lemma history_list bs bl :
  valid_history bs -> bs <> [] -> replay dir bs = Ok bl ->
  exists P, V12 <= P /\ (forall B, V12 <= B -> Forall (fun b => protocol b <= B) bs -> P <= B) /\
    list_ok P (len bs) bl /\ list_chained (len bs) bl /\ 1 <= len bs /\ len bs + 2 ^ 19 <= u32_max /\
    forall k, view (levels bl) k = ledger_of bs k.
Proof.
  intros Hv Hne Hr. destruct (history_ok dir bs Hv) as (bl0 & P & Hr' & [HP HB] & Hok & Hview).
  rewrite Hr in Hr'. injection Hr' as <-. exists P. split; [done|]. split; [done|]. split; [done|].
  destruct Hv as [Hv Hlen]. split; [|split; [|done]].
  - change (len bs) with (0 + len bs).
    apply (replay_chained V12 0 (BucketList_new dir) no_entries bs bl); (done || apply new_list_ok || apply new_chained).
  - destruct bs as [|b bs]; [done|]. rewrite len_cons. pose proof (len_nonneg bs). lia.
Qed.

(** The state a history leaves, as its continuations need it. *)
Lemma replay_prefix bs bs' P m bl0 n bl :
  V12 <= P -> 0 <= n -> n + len bs + 2 ^ 19 <= u32_max -> list_ok P n bl0 -> (forall k, view (levels bl0) k = m k) ->
  valid_from P m (bs ++ bs') -> try_fold close_ledger bs bl0 = Ok bl ->
  exists Q, V12 <= Q /\ list_ok Q (n + len bs) bl /\ valid_from Q (fold_left (fun m b => batch_update b m) bs m) bs'.
Proof.
  revert P m bl0 n. induction bs as [|b bs IH]; intros P m bl0 n HP Hn Hb Hok Hm Hv Hf.
  - injection Hf as <-. exists P. by replace (n + len []) with n by (unfold len; simpl; lia).
  - destruct Hv as (HPb & Hvb & Hv). rewrite len_cons in *. pose proof (len_nonneg bs).
    destruct (add_batch_ok P n b bl0) as (bl1 & Hadd & Hok1 & _ & Hview1); [done|lia|done|lia|done| |].
    { destruct Hvb as [Hd Hi]. split; [done|]. intros k Hk. rewrite Hm. by apply Hi. }
    cbn [try_fold] in Hf. unfold close_ledger at 1 in Hf. destruct Hok as [Hseq _]. rewrite Hseq, Hadd in Hf.
    replace (n + (1 + len bs)) with (n + 1 + len bs) in * by lia.
    apply (IH (protocol b) (batch_update b m) bl1 (n + 1)); try done; try lia.
    intros k. rewrite Hview1. by apply batch_update_ext.
Qed.

(** Two lists that are the same make the same buckets from any further batches. *)
Lemma same_ever_after bs bl bl' :
  valid_history bs -> bs <> [] -> replay dir bs = Ok bl -> same_list bl bl' ->
  forall bs', valid_history (bs ++ bs') -> exists r r',
    try_fold close_ledger bs' bl = Ok r /\ try_fold close_ledger bs' bl' = Ok r' /\ hashes_of r = hashes_of r' /\
    ledger_seq r' = len (bs ++ bs') /\ forall k, bucket_list_get r' k = ledger_of (bs ++ bs') k.
Proof.
  intros Hv Hne Hr Hs bs' [Hvf Hlen]. destruct (history_list bs bl Hv Hne Hr) as (P & HP & _ & Hok & Hch & Hn & _ & Hview).
  assert (valid_from V12 no_entries bs) as Hvb by apply Hv.
  destruct (replay_prefix bs bs' V12 no_entries (BucketList_new dir) 0 bl) as (Q & HQ & HokQ & HvQ);
    (done || apply new_list_ok || apply Hv || idtac).
  rewrite len_app in Hlen. pose proof (len_nonneg bs).
  destruct (replay_same Q (len bs) bl bl' (ledger_of bs) bs') as (r & r' & Hf & Hf' & Hs' & Hview'); try done; [by apply Hch|].
  exists r, r'. split; [done|]. split; [done|]. split; [by apply same_hashes|].
  destruct (history_ok dir (bs ++ bs')) as (r2 & P2 & Hr2 & _ & [Hseq2 _] & Hview2); [split; [done|by rewrite len_app]|].
  unfold replay in Hr, Hr2. rewrite try_fold_app, Hr in Hr2. cbn [result_bind] in Hr2. rewrite Hf in Hr2. injection Hr2 as <-.
  split; [by rewrite <- (same_seq _ _ Hs')|]. intros k. unfold bucket_list_get. rewrite get_view, <- Hview2.
  assert (forall ls ls', Forall2 same_level ls ls' -> view ls' k = view ls k) as Hvs.
  { clear. induction 1 as [|l l' ls ls' [[_ [Hc _] [Hsn _]] _] _ IH]; [done|]. cbn [view]. rewrite <- Hc, <- Hsn.
    by apply over_ext, over_ext. }
  apply Hvs, Hs'.
Qed.

(** C22: Saving and restoring a bucket list is not seen. Saving the hashes of the
    buckets and, of every merge under way, the hash of its result or of its inputs,
    whichever merges have ended by then, restoring the list from what a store has
    under these hashes and running the saved merges again gives a list with the same
    hashes, that answers the same lookups, and makes the same buckets with the same
    hashes from any further batches as the list that was never saved. *)
Theorem restore_from_has_round_trip bs bl Q resolved structure :
  valid_history bs -> bs <> [] -> replay dir bs = Ok bl -> list_stored bl ->
  V12 <= Q -> Forall (fun b => protocol b <= Q) bs ->
  exists bl0 bl',
    restore_from_has ZERO content_hash load_bucket (hashes_of bl) (states_of resolved bl) = Ok bl0 /\
    restart_merges_from_has ZERO content_hash load_bucket (len bs) Q (states_of resolved bl) structure
      (if dir then set_bucket_dir bl0 else bl0) = Ok bl' /\
    hashes_of bl' = hashes_of bl /\
    forall bs', valid_history (bs ++ bs') -> exists r r',
      try_fold close_ledger bs' bl = Ok r /\ try_fold close_ledger bs' bl' = Ok r' /\ hashes_of r = hashes_of r' /\
      ledger_seq r' = len (bs ++ bs') /\ forall k, bucket_list_get r' k = ledger_of (bs ++ bs') k.
Proof.
  intros Hv Hne Hr Hst HQ HQs. destruct (history_list bs bl Hv Hne Hr) as (P & HP & HB & Hok & Hch & Hn & Hb & Hview).
  specialize (HB Q HQ HQs). pose proof Hok as (Hseq & l0 & ls & Hlv & Hlen & Hl0 & Hn0 & Hm0 & [Hoks Hokc] & Hls).
  pose proof Hch as [Hdir Hch']. unfold list_stored in Hst. rewrite Hlv in Hst, Hch'. destruct Hch' as (Hv0 & _ & Hcr).
  apply Forall_cons in Hst as [Hst0 Hst].
  destruct (restore_level_spec (resolved 0%nat) 0 l0) as (l0' & Hl0' & Hr0); [done|apply Hokc|apply Hoks|done|by rewrite Hn0|].
  destruct (restore_levels_spec P (len bs) resolved 1 (snap l0) ls Hls Hcr Hst) as (ls' & Hls' & Hw & Hrs).
  destruct (install_spec P (len bs) Q 1 (snap l0) ls ls' (states_from resolved 1 ls)) as (works & ls2 & Hcol & Hins & Hsame);
    [lia|done|unfold V12 in HQ; lia|apply Hoks|done|done|done|done|done|apply Hoks|].
  assert (length (hashes_of bl) = BUCKET_LIST_LEVELS /\ length (states_of resolved bl) = BUCKET_LIST_LEVELS) as [Hlh Hlst].
  { unfold hashes_of, states_of, states_from. rewrite length_map, length_imap, Hlv. simpl. by rewrite Hlen. }
  exists (MkBucketList (l0' :: ls') 0 false).
  assert (Forall2 weak_level (levels bl) (l0' :: ls2)) as Hweak.
  { rewrite Hlv. constructor; [apply Hr0|]. eapply Forall2_impl; [exact Hsame|]. intros l l' [? ?]. split; auto. }
  destruct (restart_merges_spec P (len bs) Q 0 bl (l0' :: ls2) Hn Hb Hok Hch Hweak) as (bl1 & Hbl1 & Hs1).
  assert (next l0' = None) as Hn0'.
  { destruct Hr0 as [[_ [?|Hp]] _]; [done|]. rewrite Hn0 in Hp. by destruct (next l0'). }
  exists (if structure then bl1 else MkBucketList (l0' :: ls2) (len bs) dir).
  assert (same_list bl (if structure then bl1 else MkBucketList (l0' :: ls2) (len bs) dir)) as Hs.
  { destruct structure; [done|]. destruct Hr0 as [[Hb0 _] _].
    split; cbn [ledger_seq bucket_dir levels]; [done|done| |].
    - rewrite Hlv. constructor; [|done]. split; [done|]. by rewrite Hn0, Hn0'.
    - right. rewrite <- (same_empty _ _ (same_curr _ _ Hb0)). apply version_nonempty; [by apply Hv0|apply Hokc]. }
  split; [|split; [|split; [symmetry; by apply same_hashes|by apply same_ever_after]]].
  - unfold restore_from_has. rewrite Hlh, Hlst, !bool_decide_eq_true_2 by done. cbn [negb].
    unfold hashes_of, states_of. rewrite Hlv, states_from_cons. cbn [map restore_levels].
    rewrite Hl0'. cbn [result_bind]. by rewrite Hls'.
  - unfold restart_merges_from_has. rewrite Hlst, bool_decide_eq_true_2 by done. cbn [negb].
    assert (levels (if dir then set_bucket_dir (MkBucketList (l0' :: ls') 0 false) else MkBucketList (l0' :: ls') 0 false)
      = l0' :: ls' /\ bucket_dir (if dir then set_bucket_dir (MkBucketList (l0' :: ls') 0 false)
      else MkBucketList (l0' :: ls') 0 false) = dir /\ ledger_seq (if dir then set_bucket_dir
      (MkBucketList (l0' :: ls') 0 false) else MkBucketList (l0' :: ls') 0 false) = 0) as (-> & -> & ->) by (by destruct dir).
    unfold states_of. rewrite Hlv, states_from_cons. cbn [tl]. rewrite Hcol. cbn [result_bind]. rewrite Hins.
    cbn [result_bind]. by destruct structure.
Qed.

Lemma chunk_flat ls :
  chunk_pairs (concat (map (fun l => [hash (curr l); hash (snap l)]) ls)) = map (fun l => (hash (curr l), hash (snap l))) ls.
Proof. induction ls as [|l ls IH]; [done|]. simpl. by rewrite IH. Qed.

Lemma flat_length ls :
  length (concat (map (fun l => [hash (curr l); hash (snap l)]) ls)) = (length ls * 2)%nat.
Proof. induction ls as [|l ls IH]; [done|]. cbn [map concat length app]. by rewrite IH. Qed.

Lemma restore_clear_spec P n j ls (above : Bucket) :
  levels_ok P n above j ls -> Forall level_stored ls ->
  exists ls', restore_levels ZERO content_hash load_bucket j (map (fun l => (hash (curr l), hash (snap l))) ls)
      (repeat None (length ls)) = Ok ls' /\ Forall2 weak_level ls ls'.
Proof.
  revert j above. induction ls as [|l ls IH]; intros j above Hok Hst; [by exists []|].
  destruct Hok as (Hlev & [Hoks Hokc] & _ & _ & Hrest). apply Forall_cons in Hst as [(Hsc & Hss & _) Hst].
  cbn [map repeat length restore_levels]. unfold restore_level.
  destruct (load_or_sentinel_spec _ (ok_wf _ _ _ Hokc) Hsc) as (c & -> & Hc). cbn [result_bind].
  destruct (load_or_sentinel_spec _ (ok_wf _ _ _ Hoks) Hss) as (s & -> & Hs). cbn [result_bind].
  destruct (IH (S j) (snap l) Hrest Hst) as (ls' & -> & Hw). cbn [result_bind]. eexists. split; [done|].
  constructor; [|done]. split; [by split|by left].
Qed.

(** The merges under way can be worked out again. Restoring a bucket list from the
    hashes of its buckets alone and restarting the merges that its ledger says must
    be under way gives a list that makes the same buckets with the same hashes from
    any further batches as the original. *)
Theorem restart_merges_rebuilds bs bl Q :
  valid_history bs -> bs <> [] -> replay dir bs = Ok bl -> list_stored bl ->
  exists bl0 bl',
    restore_from_hashes ZERO content_hash load_bucket
      (concat (map (fun l => [hash (curr l); hash (snap l)]) (levels bl))) = Ok bl0 /\
    restart_merges (len bs) Q (if dir then set_bucket_dir bl0 else bl0) = Ok bl' /\
    hashes_of bl' = hashes_of bl /\
    forall bs', valid_history (bs ++ bs') -> exists r r',
      try_fold close_ledger bs' bl = Ok r /\ try_fold close_ledger bs' bl' = Ok r' /\ hashes_of r = hashes_of r' /\
      ledger_seq r' = len (bs ++ bs') /\ forall k, bucket_list_get r' k = ledger_of (bs ++ bs') k.
Proof.
  intros Hv Hne Hr Hst. destruct (history_list bs bl Hv Hne Hr) as (P & HP & _ & Hok & Hch & Hn & Hb & _).
  pose proof (list_ok_levels P (len bs) bl Hok) as Hlen.
  assert (exists ls', restore_levels ZERO content_hash load_bucket 0 (map (fun l => (hash (curr l), hash (snap l))) (levels bl))
    (repeat None BUCKET_LIST_LEVELS) = Ok ls' /\ Forall2 weak_level (levels bl) ls') as (ls' & Hls' & Hw).
  { rewrite <- Hlen. destruct Hok as (_ & l0 & ls & Hlv & _ & Hl0 & Hn0 & _ & Hok0 & Hls).
    unfold list_stored in Hst. rewrite Hlv in *. apply Forall_cons in Hst as [(Hsc & Hss & _) Hst].
    destruct (restore_clear_spec P (len bs) 1 ls (snap l0) Hls Hst) as (ls2 & Hls2 & Hw2).
    cbn [map repeat length restore_levels]. unfold restore_level. destruct Hok0 as [Hoks Hokc].
    destruct (load_or_sentinel_spec _ (ok_wf _ _ _ Hokc) Hsc) as (c & -> & Hc). cbn [result_bind].
    destruct (load_or_sentinel_spec _ (ok_wf _ _ _ Hoks) Hss) as (s & -> & Hs). cbn [result_bind].
    rewrite Hls2. cbn [result_bind]. eexists. split; [done|]. constructor; [|done]. split; [by split|by left]. }
  exists (MkBucketList ls' 0 false).
  destruct (restart_merges_spec P (len bs) Q 0 bl ls' Hn Hb Hok Hch Hw) as (bl1 & Hbl1 & Hs1).
  exists bl1. split; [|split; [|split; [symmetry; by apply same_hashes|by apply same_ever_after]]].
  - unfold restore_from_hashes, restore_from_has. rewrite chunk_flat.
    assert (length (concat (map (fun l => [hash (curr l); hash (snap l)]) (levels bl))) = (BUCKET_LIST_LEVELS * 2)%nat) as ->.
    { rewrite flat_length. by rewrite Hlen. }
    rewrite bool_decide_eq_true_2 by done. cbn [negb]. rewrite length_map, Hlen, repeat_length.
    rewrite !bool_decide_eq_true_2 by done. cbn [negb]. by rewrite Hls'.
  - destruct dir; exact Hbl1.
Qed.
End restart.

Section witnesses.
#[local] Existing Instance pair_types.

#[local] Instance pair_entry_eq_dec : EqDecision LedgerEntry.
Proof. change (EqDecision (Z * Z)). apply _. Defined.
#[local] Instance pair_key_eq_dec : EqDecision LedgerKey.
Proof. change (EqDecision Z). apply _. Defined.
#[local] Instance BucketMetadata_eq_dec : EqDecision BucketMetadata.
Proof. solve_decision. Defined.
#[local] Instance BucketEntry_eq_dec : EqDecision BucketEntry.
Proof. solve_decision. Defined.

(** A store under perfect hashes: a file is its own hash. *)
Definition file_hash (es : list BucketEntry) : option (list BucketEntry) := Some es.
Definition file_store (h : option (list BucketEntry)) : result Bucket BucketError :=
  match h with Some es => Ok (MkBucket es false false) | None => Err HashMismatch end.

Lemma file_store_has b : stored None file_hash file_store b.
Proof. intros Hz _. exists (MkBucket (entries b) false false). unfold bucket_hash, file_hash. by rewrite Hz. Qed.

Lemma file_store_has_list bl : list_stored None file_hash file_store bl.
Proof.
  apply Forall_forall. intros l _. split; [apply file_store_has|]. split; [apply file_store_has|].
  destruct (next l) as [[b|c s [b|]]|]; simpl; repeat split; apply file_store_has.
Qed.

Lemma restore_from_has_round_trip_witness :
  exists bl bl0 bl', replay true example_history = Ok bl /\
    restore_from_has None file_hash file_store (hashes_of None file_hash bl)
      (states_of None file_hash Nat.even bl) = Ok bl0 /\
    restart_merges_from_has None file_hash file_store 5 23 (states_of None file_hash Nat.even bl) true
      (set_bucket_dir bl0) = Ok bl' /\
    hashes_of None file_hash bl' = hashes_of None file_hash bl.
Proof.
  destruct (history_ok true example_history example_history_valid) as (bl & P & Hr & _). exists bl.
  assert (Forall (fun b => protocol b <= 23) example_history) as HQs by (repeat (constructor; [by vm_compute|]); constructor).
  destruct (restore_from_has_round_trip true None file_hash file_store (fun _ E => ltac:(discriminate E))
    (fun es E => ltac:(by injection E)) example_history bl 23 Nat.even true
    example_history_valid ltac:(discriminate) Hr (file_store_has_list bl) ltac:(by vm_compute) HQs)
    as (bl0 & bl' & H1 & H2 & H3 & _).
  exists bl0, bl'. exact (conj Hr (conj H1 (conj H2 H3))).
Defined.

Lemma restart_merges_rebuilds_witness :
  exists bl bl0 bl', replay false example_history = Ok bl /\
    restore_from_hashes None file_hash file_store
      (concat (map (fun l => [bucket_hash None file_hash (curr l); bucket_hash None file_hash (snap l)]) (levels bl))) = Ok bl0 /\
    restart_merges 5 23 bl0 = Ok bl' /\ hashes_of None file_hash bl' = hashes_of None file_hash bl.
Proof.
  destruct (history_ok false example_history example_history_valid) as (bl & P & Hr & _). exists bl.
  destruct (restart_merges_rebuilds false None file_hash file_store (fun _ E => ltac:(discriminate E))
    (fun es E => ltac:(by injection E)) example_history bl 23
    example_history_valid ltac:(discriminate) Hr (file_store_has_list bl)) as (bl0 & bl' & H1 & H2 & H3 & _).
  exists bl0, bl'. exact (conj Hr (conj H1 (conj H2 H3))).
Defined.
End witnesses.
