(* ===== verification/Ledger.v ===== *)
(** * Ledger: ledger entries and their keys (common/src/types.rs)

    The XDR types [LedgerEntry] and [LedgerKey] of the crate stellar_xdr, with the
    variants and the fields that [entry_to_key] and the ledger code read; what else
    an entry holds is its payload. The identifiers inside keys are opaque XDR values
    with decidable equality, hashing and the derived [Ord]. Together they are an
    instance of what the buckets need of entries and keys. *)

From S2P Require Import Prelude Amounts Bucket.

(** ** Opaque XDR values *)

Structure xdr := Xdr {
  carrier :> Type;
  xdr_eq_dec : EqDecision carrier;
  xdr_countable : Countable carrier;
  xdr_compare : carrier -> carrier -> comparison;
  xdr_compare_lawful : LawfulCompare xdr_compare
}.
Arguments xdr_compare {_} _ _.
#[global] Existing Instances xdr_eq_dec xdr_countable xdr_compare_lawful.

Class XdrTypes := {
  AccountId : xdr;
  TrustLineAsset : xdr;
  DataName : xdr;
  ClaimableBalanceId : xdr;
  PoolId : xdr;
  ScAddress : xdr;
  ScVal : xdr;
  Hash : xdr;
  (** The fields no ledger code reads. *)
  Payload : Type;
  payload_eq_dec :: EqDecision Payload;
  (** [TrustLineAsset::PoolShare(_)]. *)
  is_pool_share : TrustLineAsset -> bool
}.

#[global] Instance Liabilities_eq_dec : EqDecision Liabilities.
Proof. solve_decision. Defined.
#[global] Instance AccountEntry_eq_dec : EqDecision AccountEntry.
Proof. solve_decision. Defined.

Section ledger.
Context `{XdrTypes}.

(** ** Keys and entries *)

(** Numbers of [ConfigSettingId] and of the durabilities of contract data are
    integers, like the offer numbers. *)
Inductive LedgerKey :=
| KeyAccount (account_id : AccountId)
| KeyTrustline (account_id : AccountId) (asset : TrustLineAsset)
| KeyOffer (seller_id : AccountId) (offer_id : Z)
| KeyData (account_id : AccountId) (data_name : DataName)
| KeyClaimableBalance (balance_id : ClaimableBalanceId)
| KeyLiquidityPool (liquidity_pool_id : PoolId)
| KeyContractData (contract : ScAddress) (k : ScVal) (durability : Z)
| KeyContractCode (hash : Hash)
| KeyConfigSetting (config_setting_id : Z)
| KeyTtl (key_hash : Hash).

Inductive LedgerEntryData :=
| Account (account_id : AccountId) (acc : AccountEntry) (rest : Payload)
| Trustline (account_id : AccountId) (asset : TrustLineAsset) (rest : Payload)
| Offer (seller_id : AccountId) (offer_id : Z) (rest : Payload)
| Data (account_id : AccountId) (data_name : DataName) (rest : Payload)
| ClaimableBalance (balance_id : ClaimableBalanceId) (rest : Payload)
| LiquidityPool (liquidity_pool_id : PoolId) (rest : Payload)
| ContractData (contract : ScAddress) (k : ScVal) (durability : Z) (rest : Payload)
| ContractCode (hash : Hash) (rest : Payload)
| ConfigSetting (discriminant : Z) (rest : Payload)
| Ttl (key_hash : Hash) (live_until_ledger_seq : Z).

Record LedgerEntry := MkEntry {
  last_modified_ledger_seq : Z;
  data : LedgerEntryData;
  entry_ext : Payload
}.

Definition entry_to_key (entry : LedgerEntry) : LedgerKey :=
  match data entry with
  | Account id _ _ => KeyAccount id
  | Trustline id asset _ => KeyTrustline id asset
  | Offer seller id _ => KeyOffer seller id
  | Data id name _ => KeyData id name
  | ClaimableBalance id _ => KeyClaimableBalance id
  | LiquidityPool id _ => KeyLiquidityPool id
  | ContractData contract k durability _ => KeyContractData contract k durability
  | ContractCode hash _ => KeyContractCode hash
  | ConfigSetting id _ => KeyConfigSetting id
  | Ttl hash _ => KeyTtl hash
  end.

(** ** Equality, hashing and order of keys *)

#[global] Instance LedgerEntryData_eq_dec : EqDecision LedgerEntryData.
Proof. solve_decision. Defined.
#[global] Instance LedgerEntry_eq_dec : EqDecision LedgerEntry.
Proof. solve_decision. Defined.

(** The variants in order of declaration, each with its fields. *)
Definition key_fields (k : LedgerKey) :
    AccountId + (AccountId * TrustLineAsset + (AccountId * Z + (AccountId * DataName +
    (ClaimableBalanceId + (PoolId + (ScAddress * (ScVal * Z) + (Hash + (Z + Hash)))))))) :=
  match k with
  | KeyAccount a => inl a
  | KeyTrustline a x => inr (inl (a, x))
  | KeyOffer a x => inr (inr (inl (a, x)))
  | KeyData a x => inr (inr (inr (inl (a, x))))
  | KeyClaimableBalance x => inr (inr (inr (inr (inl x))))
  | KeyLiquidityPool x => inr (inr (inr (inr (inr (inl x)))))
  | KeyContractData c v d => inr (inr (inr (inr (inr (inr (inl (c, (v, d))))))))
  | KeyContractCode x => inr (inr (inr (inr (inr (inr (inr (inl x)))))))
  | KeyConfigSetting x => inr (inr (inr (inr (inr (inr (inr (inr (inl x))))))))
  | KeyTtl x => inr (inr (inr (inr (inr (inr (inr (inr (inr x))))))))
  end.

#[global] Instance key_fields_inj : Inj (=) (=) key_fields.
Proof. intros [] []; simpl; congruence. Qed.

#[global] Instance LedgerKey_eq_dec : EqDecision LedgerKey.
Proof. solve_decision. Defined.

Definition key_of_fields x : LedgerKey :=
  match x with
  | inl a => KeyAccount a
  | inr (inl (a, x)) => KeyTrustline a x
  | inr (inr (inl (a, x))) => KeyOffer a x
  | inr (inr (inr (inl (a, x)))) => KeyData a x
  | inr (inr (inr (inr (inl x)))) => KeyClaimableBalance x
  | inr (inr (inr (inr (inr (inl x))))) => KeyLiquidityPool x
  | inr (inr (inr (inr (inr (inr (inl (c, (v, d)))))))) => KeyContractData c v d
  | inr (inr (inr (inr (inr (inr (inr (inl x))))))) => KeyContractCode x
  | inr (inr (inr (inr (inr (inr (inr (inr (inl x)))))))) => KeyConfigSetting x
  | inr (inr (inr (inr (inr (inr (inr (inr (inr x)))))))) => KeyTtl x
  end.

#[global] Instance LedgerKey_countable : Countable LedgerKey.
Proof. refine (inj_countable' key_fields key_of_fields _). by intros []. Defined.

(** The derived [Ord] of [LedgerKey]. *)
Definition ledger_key_compare (k1 k2 : LedgerKey) : comparison :=
  sum_compare xdr_compare (sum_compare (pair_compare xdr_compare xdr_compare)
  (sum_compare (pair_compare xdr_compare Z.compare) (sum_compare (pair_compare xdr_compare xdr_compare)
  (sum_compare xdr_compare (sum_compare xdr_compare
  (sum_compare (pair_compare xdr_compare (pair_compare xdr_compare Z.compare))
  (sum_compare xdr_compare (sum_compare Z.compare xdr_compare))))))))
  (key_fields k1) (key_fields k2).

#[global] Instance ledger_key_compare_lawful : LawfulCompare ledger_key_compare.
Proof. unfold ledger_key_compare. apply key_compare_lawful; apply _. Qed.

(** The entries and keys of the buckets. *)
#[global] Instance xdr_ledger : LedgerTypes :=
  {| Bucket.LedgerKey := LedgerKey; Bucket.LedgerEntry := LedgerEntry;
     Bucket.entry_to_key := entry_to_key; compare_keys := ledger_key_compare |}.

(** The entries of a ledger, as a map. *)
Definition ledger_map : Type := LedgerKey -> option LedgerEntry.
Definition keyed_ledger (m : ledger_map) : Prop := forall k e, m k = Some e -> entry_to_key e = k.

(** ** Parts of entries *)

Definition put_last_modified (seq : Z) (e : LedgerEntry) : LedgerEntry := MkEntry seq (data e) (entry_ext e).
(** A write through [LedgerEntryData::Account(ref mut acc)]. *)
Definition put_account (acc : AccountEntry) (e : LedgerEntry) : LedgerEntry :=
  match data e with
  | Account id _ rest => MkEntry (last_modified_ledger_seq e) (Account id acc rest) (entry_ext e)
  | _ => e
  end.

Definition as_account (e : LedgerEntry) : option AccountEntry :=
  match data e with Account _ acc _ => Some acc | _ => None end.
Definition as_ttl (e : LedgerEntry) : option Z :=
  match data e with Ttl _ live_until => Some live_until | _ => None end.
Definition is_ttl_key (k : LedgerKey) : bool := match k with KeyTtl _ => true | _ => false end.
Definition is_offer_key (k : LedgerKey) : bool := match k with KeyOffer _ _ => true | _ => false end.
Definition is_config_setting (e : LedgerEntry) : bool :=
  match data e with ConfigSetting _ _ => true | _ => false end.

Lemma put_last_modified_key seq e : entry_to_key (put_last_modified seq e) = entry_to_key e.
Proof. done. Qed.

Lemma put_account_key acc e : entry_to_key (put_account acc e) = entry_to_key e.
Proof. destruct e as [s d x]. by destruct d. Qed.

Lemma as_put_account acc e a : as_account e = Some a -> as_account (put_account acc e) = Some acc.
Proof. destruct e as [s d x]. by destruct d. Qed.

Lemma ttl_key_iff e : is_ttl_key (entry_to_key e) = true <-> is_Some (as_ttl e).
Proof.
  destruct e as [s d x]. unfold entry_to_key, as_ttl. simpl.
  by destruct d; simpl; split; try done; intros [? ?].
Qed.

Lemma account_key_account e id : entry_to_key e = KeyAccount id -> is_Some (as_account e).
Proof. destruct e as [s d x]. unfold entry_to_key, as_account. simpl. by destruct d. Qed.
End ledger.

(** Every opaque value an integer. *)
Definition z_xdr : xdr := Xdr Z _ _ Z.compare _.
Definition demo_types : XdrTypes :=
  {| AccountId := z_xdr; TrustLineAsset := z_xdr; DataName := z_xdr; ClaimableBalanceId := z_xdr;
     PoolId := z_xdr; ScAddress := z_xdr; ScVal := z_xdr; Hash := z_xdr; Payload := Z;
     is_pool_share := fun asset => bool_decide (asset = 7) |}.
