(* ===== verification/Snapshot.v ===== *)
(** * Snapshot: point-in-time reads of the ledger (ledger/src/snapshot.rs)

    A [SnapshotHandle] answers lookups from its overrides, the entries it was built
    with, a cache it fills as it goes, and at last the callbacks into the bucket list.
    The callbacks are closures over an immutable snapshot: functions of the key or
    keys, kept in the handle. The clones of a handle share one cache, which is the
    cache of the model. Lookup counters are left out; the iteration order of a
    [HashMap] is that of [map_to_list]. *)

From S2P Require Import Prelude Amounts Bucket Ledger.

(** [LedgerError]; a panic is kept as an error of its own. *)
Inductive LedgerError := Internal | InvalidEntry | SnapshotError | BucketFailed (e : BucketError) | LedgerPanic.

Record PrefetchStats := MkPrefetchStats { requested : Z; loaded : Z }.

Section snapshot.
Context `{XdrTypes}.

Record SnapshotHandle := MkSnapshot {
  inner : gmap LedgerKey LedgerEntry;
  lookup_fn : option (LedgerKey -> result (option LedgerEntry) LedgerError);
  entries_fn : option (result (list LedgerEntry) LedgerError);
  frozen_offer_entries_fn : option (result (list LedgerEntry) LedgerError);
  batch_lookup_fn : option (list LedgerKey -> result (list LedgerEntry) LedgerError);
  prefetch_cache : gmap LedgerKey LedgerEntry;
  lookups_released : bool;
  overrides : gmap LedgerKey (option LedgerEntry)
}.

Definition SnapshotHandle_new (entries : gmap LedgerKey LedgerEntry) : SnapshotHandle :=
  MkSnapshot entries None None None None ∅ false ∅.

Definition with_lookups_and_entries (entries : gmap LedgerKey LedgerEntry)
    (lookup : LedgerKey -> result (option LedgerEntry) LedgerError)
    (all : result (list LedgerEntry) LedgerError) : SnapshotHandle :=
  MkSnapshot entries (Some lookup) (Some all) None None ∅ false ∅.

Definition set_batch_lookup (f : list LedgerKey -> result (list LedgerEntry) LedgerError) (s : SnapshotHandle) :=
  MkSnapshot (inner s) (lookup_fn s) (entries_fn s) (frozen_offer_entries_fn s) (Some f) (prefetch_cache s)
    (lookups_released s) (overrides s).

Definition release_lookups (s : SnapshotHandle) : SnapshotHandle :=
  MkSnapshot (inner s) None (entries_fn s) None None (prefetch_cache s) true (overrides s).

(** [combined_overrides.extend(overrides)]: the new ones win. *)
Definition with_overrides (o : gmap LedgerKey (option LedgerEntry)) (s : SnapshotHandle) : SnapshotHandle :=
  MkSnapshot (inner s) (lookup_fn s) (entries_fn s) (frozen_offer_entries_fn s) (batch_lookup_fn s) ∅
    (lookups_released s) (o ∪ overrides s).

Definition put_cache (c : gmap LedgerKey LedgerEntry) (s : SnapshotHandle) : SnapshotHandle :=
  MkSnapshot (inner s) (lookup_fn s) (entries_fn s) (frozen_offer_entries_fn s) (batch_lookup_fn s) c
    (lookups_released s) (overrides s).

(** ** Point lookups *)

Definition get_entry (k : LedgerKey) (s : SnapshotHandle) : result (option LedgerEntry * SnapshotHandle) LedgerError :=
  match overrides s !! k with
  | Some o => Ok (o, s)
  | None =>
      match inner s !! k with
      | Some e => Ok (Some e, s)
      | None =>
          match prefetch_cache s !! k with
          | Some e => Ok (Some e, s)
          | None =>
              match lookup_fn s with
              | Some lookup =>
                  let? r := lookup k in
                  Ok (r, match r with Some e => put_cache (<[k := e]> (prefetch_cache s)) s | None => s end)
              | None => if lookups_released s then Err Internal else Ok (None, s)
              end
          end
      end
  end.

Definition get_account (id : AccountId) (s : SnapshotHandle) : result (option AccountEntry * SnapshotHandle) LedgerError :=
  let? (o, s) := get_entry (KeyAccount id) s in
  Ok (match o with Some e => as_account e | None => None end, s).

(** [for key in keys { if let Some(entry) = lookup_fn(key)? { loaded.push(entry) } }]. *)
Definition lookup_each (lookup : LedgerKey -> result (option LedgerEntry) LedgerError) (keys : list LedgerKey)
    : result (list LedgerEntry) LedgerError :=
  try_fold (fun loaded k => let? o := lookup k in
                            Ok (match o with Some e => loaded ++ [e] | None => loaded end)) keys [].

Definition cache_entries (es : list LedgerEntry) (c : gmap LedgerKey LedgerEntry) : gmap LedgerKey LedgerEntry :=
  fold_left (fun c e => <[entry_to_key e := e]> c) es c.

(** What is found without the callbacks, and the keys that are not. *)
Definition load_step (s : SnapshotHandle) (acc : list LedgerEntry * list LedgerKey) (k : LedgerKey)
    : list LedgerEntry * list LedgerKey :=
  let '(result, remaining) := acc in
  match overrides s !! k with
  | Some (Some e) => (result ++ [e], remaining)
  | Some None => (result, remaining)
  | None =>
      match inner s !! k with
      | Some e => (result ++ [e], remaining)
      | None =>
          match prefetch_cache s !! k with
          | Some e => (result ++ [e], remaining)
          | None => (result, remaining ++ [k])
          end
      end
  end.
Definition load_local (s : SnapshotHandle) (keys : list LedgerKey) : list LedgerEntry * list LedgerKey :=
  fold_left (load_step s) keys ([], []).

Definition load_entries (keys : list LedgerKey) (s : SnapshotHandle)
    : result (list LedgerEntry * SnapshotHandle) LedgerError :=
  let '(res, remaining) := load_local s keys in
  if bool_decide (remaining = []) then Ok (res, s)
  else
    let? loaded :=
      match batch_lookup_fn s, lookup_fn s with
      | Some batch, _ => batch remaining
      | None, Some lookup => lookup_each lookup remaining
      | None, None => if lookups_released s then Err Internal else Ok []
      end in
    Ok (res ++ loaded, put_cache (cache_entries loaded (prefetch_cache s)) s).

(** A key that neither an override nor the entries nor the cache know. *)
Definition needs_loading (s : SnapshotHandle) (k : LedgerKey) : bool :=
  match overrides s !! k, inner s !! k, prefetch_cache s !! k with
  | None, None, None => true
  | _, _, _ => false
  end.

Definition prefetch (keys : list LedgerKey) (s : SnapshotHandle) : result (PrefetchStats * SnapshotHandle) LedgerError :=
  let needed := base.filter (fun k => needs_loading s k = true) keys in
  if bool_decide (needed = []) then Ok (MkPrefetchStats 0 0, s)
  else
    let done es := Ok (MkPrefetchStats (len needed) (len es), put_cache (cache_entries es (prefetch_cache s)) s) in
    match batch_lookup_fn s, lookup_fn s with
    | Some batch, _ => let? es := batch needed in done es
    | None, Some lookup => let? es := lookup_each lookup needed in done es
    | None, None => if lookups_released s then Err Internal else Ok (MkPrefetchStats (len needed) 0, s)
    end.

(** ** Enumerations *)

Definition all_entries (s : SnapshotHandle) : result (list LedgerEntry) LedgerError :=
  let? entries :=
    match entries_fn s with
    | Some r => r
    | None => Ok (map snd (map_to_list (inner s)))
    end in
  if bool_decide (overrides s = ∅) then Ok entries
  else Ok (base.filter (fun e => overrides s !! entry_to_key e = None) entries ++
           omap snd (map_to_list (overrides s))).

Definition is_offer (e : LedgerEntry) : bool := match data e with Offer _ _ _ => true | _ => false end.

(** The values of a [BTreeMap], in the order of the keys. *)
Definition offer_le (a b : LedgerKey * LedgerEntry) : Prop := cmp_le ledger_key_compare a.1 b.1.
#[global] Instance offer_le_dec a b : Decision (offer_le a b).
Proof. unfold offer_le. apply _. Defined.

Definition apply_offer_overrides (s : SnapshotHandle) (entries : list LedgerEntry) : gmap LedgerKey LedgerEntry :=
  fold_left (fun offers '(k, o) =>
    if negb (is_offer_key k) then offers
    else
      match o with
      | Some e => if is_offer e then <[k := e]> offers else delete k offers
      | None => delete k offers
      end)
    (map_to_list (overrides s))
    (fold_left (fun offers e => if is_offer e then <[entry_to_key e := e]> offers else offers) entries ∅).

Definition frozen_offer_entries (s : SnapshotHandle) : result (list LedgerEntry) LedgerError :=
  let? entries :=
    match frozen_offer_entries_fn s with
    | Some r => r
    | None =>
        if lookups_released s then Err Internal
        else Ok (base.filter (fun e => is_offer e = true) (map snd (map_to_list (inner s))))
    end in
  Ok (map snd (merge_sort offer_le (map_to_list (apply_offer_overrides s entries)))).
End snapshot.
