(* ===== verification/SnapshotFacts.v ===== *)
(** * SnapshotFacts: a snapshot reads as the ledger it was taken of

    The caches of a handle are never seen: whatever is read, loaded or prefetched,
    every answer is that of the map the handle stands for. *)

From S2P Require Import Prelude Amounts Ledger Snapshot.

Section facts.
Context `{XdrTypes}.
Implicit Types (s : SnapshotHandle) (m : ledger_map) (k : LedgerKey) (e : LedgerEntry).

(** The keys that only the callbacks know. *)
Definition beneath_caches s k : Prop := overrides s !! k = None /\ inner s !! k = None.

(** Es are the entries of the keys [ks]. *)
Definition entries_of m (ks : list LedgerKey) (es : list LedgerEntry) : Prop :=
  forall e, e ∈ es <-> exists k, k ∈ ks /\ m k = Some e.

(** The handle stands for the map: each layer agrees with it where it is consulted,
    and the callbacks answer for the same ledger. *)
Record faithful s m : Prop := {
  f_keyed : keyed_ledger m;
  f_overrides k o : overrides s !! k = Some o -> m k = o;
  f_inner k e : overrides s !! k = None -> inner s !! k = Some e -> m k = Some e;
  f_cache k e : beneath_caches s k -> prefetch_cache s !! k = Some e -> m k = Some e;
  f_lookup lookup k : lookup_fn s = Some lookup -> beneath_caches s k -> lookup k = Ok (m k);
  f_batch batch ks : batch_lookup_fn s = Some batch -> Forall (beneath_caches s) ks ->
    exists es, batch ks = Ok es /\ entries_of m ks es;
  f_none k : lookup_fn s = None -> lookups_released s = false -> beneath_caches s k -> m k = None
}.

(** ** The cache *)

Lemma cache_entries_lookup es c k e :
  cache_entries es c !! k = Some e -> c !! k = Some e \/ (e ∈ es /\ entry_to_key e = k).
Proof.
  revert c. induction es as [|x es IH]; intros c; [by left|]. cbn [cache_entries fold_left].
  intros [Hc|[Hin Hk]]%IH; [|right; by split; [right|]].
  apply lookup_insert_Some in Hc as [[Hk ->]|[_ Hc]]; [|by left].
  right. split; [by left|done].
Qed.

Lemma cache_entries_mono es c k : is_Some (c !! k) -> is_Some (cache_entries es c !! k).
Proof.
  revert c. induction es as [|x es IH]; intros c Hc; [done|]. cbn [cache_entries fold_left]. apply IH.
  apply lookup_insert_is_Some'. by right.
Qed.

Lemma cache_entries_in es c e : e ∈ es -> is_Some (cache_entries es c !! entry_to_key e).
Proof.
  revert c. induction es as [|x es IH]; intros c; [by intros ?%elem_of_nil|].
  intros [-> |Hin]%elem_of_cons; cbn [cache_entries fold_left]; [|by apply IH].
  apply (cache_entries_mono es). by apply lookup_insert_is_Some'; left.
Qed.

Lemma faithful_cache s m c :
  faithful s m -> (forall k e, c !! k = Some e -> beneath_caches s k -> m k = Some e) -> faithful (put_cache c s) m.
Proof. intros [] Hc. split; try done. intros k e Hb Hk. by apply Hc. Qed.

Lemma faithful_loaded s m ks es :
  faithful s m -> entries_of m ks es -> faithful (put_cache (cache_entries es (prefetch_cache s)) s) m.
Proof.
  intros Hf Hes. apply faithful_cache; [done|].
  intros k e [Hc|[Hin Hk]]%cache_entries_lookup Hb; [by eapply f_cache|].
  apply Hes in Hin as (k' & _ & Hm). assert (k' = k) as <-; [|done].
  rewrite <- Hk. symmetry. by apply (f_keyed _ _ Hf).
Qed.

Lemma get_entry_faithful s m k :
  faithful s m -> lookups_released s = false ->
  exists s', get_entry k s = Ok (m k, s') /\ faithful s' m /\ lookups_released s' = false.
Proof.
  intros Hf Hr. unfold get_entry. destruct (overrides s !! k) as [o|] eqn:Ho.
  { rewrite (f_overrides _ _ Hf _ _ Ho). by exists s. }
  destruct (inner s !! k) as [e|] eqn:Hi.
  { rewrite (f_inner _ _ Hf _ _ Ho Hi). by exists s. }
  assert (beneath_caches s k) as Hb by done.
  destruct (prefetch_cache s !! k) as [e|] eqn:Hc.
  { rewrite (f_cache _ _ Hf _ _ Hb Hc). by exists s. }
  destruct (lookup_fn s) as [lookup|] eqn:Hl.
  - rewrite (f_lookup _ _ Hf _ _ Hl Hb). cbn [result_bind]. eexists. split; [done|].
    destruct (m k) as [e|] eqn:Hm; [|done]. split; [|done]. apply faithful_cache; [done|].
    intros k' e' [[-> <-]|[_ ?]]%lookup_insert_Some Hb'; [done|by eapply f_cache].
  - rewrite Hr. exists s. by rewrite (f_none _ _ Hf _ Hl Hr Hb).
Qed.

(** A handle whose callbacks are gone answers right or fails. *)
Lemma get_entry_released s m k :
  faithful s m -> lookup_fn s = None ->
  (exists o, get_entry k s = Ok (o, s) /\ m k = o) \/ (get_entry k s = Err Internal /\ lookups_released s = true).
Proof.
  intros Hf Hl. unfold get_entry. rewrite Hl. destruct (overrides s !! k) as [o|] eqn:Ho.
  { left. exists o. by rewrite (f_overrides _ _ Hf _ _ Ho). }
  destruct (inner s !! k) as [e|] eqn:Hi.
  { left. eexists. split; [done|]. by rewrite (f_inner _ _ Hf _ _ Ho Hi). }
  assert (beneath_caches s k) as Hb by done.
  destruct (prefetch_cache s !! k) as [e|] eqn:Hc.
  { left. eexists. split; [done|]. by rewrite (f_cache _ _ Hf _ _ Hb Hc). }
  destruct (lookups_released s) eqn:Hr; [by right|]. left. exists None. split; [done|]. by apply (f_none _ _ Hf).
Qed.

(** ** Loading many keys *)

Lemma lookup_each_faithful s m lookup ks acc :
  faithful s m -> lookup_fn s = Some lookup -> Forall (beneath_caches s) ks ->
  try_fold (fun loaded k => let? o := lookup k in Ok (match o with Some e => loaded ++ [e] | None => loaded end)) ks acc =
  Ok (acc ++ omap m ks).
Proof.
  intros Hf Hl. revert acc. induction ks as [|k ks IH]; intros acc Hks; [by rewrite app_nil_r|].
  apply Forall_cons in Hks as [Hk Hks]. cbn [try_fold]. rewrite (f_lookup _ _ Hf _ _ Hl Hk). cbn [result_bind].
  rewrite IH by done. cbn. destruct (m k); [by rewrite <- app_assoc|done].
Qed.

Lemma omap_entries_of m ks : entries_of m ks (omap m ks).
Proof. intros e. by rewrite list_elem_of_omap. Qed.

(** What the callbacks load. *)
Definition fetch s (ks : list LedgerKey) : result (list LedgerEntry) LedgerError :=
  match batch_lookup_fn s, lookup_fn s with
  | Some batch, _ => batch ks
  | None, Some lookup => lookup_each lookup ks
  | None, None => if lookups_released s then Err Internal else Ok []
  end.

Lemma fetch_faithful s m ks :
  faithful s m -> lookups_released s = false -> Forall (beneath_caches s) ks ->
  exists es, fetch s ks = Ok es /\ entries_of m ks es.
Proof.
  intros Hf Hr Hks. unfold fetch. destruct (batch_lookup_fn s) as [batch|] eqn:Hb.
  { by apply (f_batch _ _ Hf). }
  destruct (lookup_fn s) as [lookup|] eqn:Hl.
  { exists (omap m ks). split; [|apply omap_entries_of]. unfold lookup_each. by rewrite (lookup_each_faithful s m). }
  rewrite Hr. exists []. split; [done|]. intros e. split; [by intros ?%elem_of_nil|]. intros (k & Hin & Hm).
  rewrite Forall_forall in Hks. by rewrite (f_none _ _ Hf k Hl Hr (Hks k Hin)) in Hm.
Qed.

(** The entries [known] is answered by, one more key looked up. *)
Lemma entries_of_snoc m known k es :
  entries_of m known es -> entries_of m (known ++ [k]) (match m k with Some e => es ++ [e] | None => es end).
Proof.
  intros Hes e. setoid_rewrite elem_of_app. setoid_rewrite list_elem_of_singleton.
  destruct (m k) as [x|] eqn:Hk; [rewrite elem_of_app, list_elem_of_singleton|]; rewrite (Hes e); split.
  - intros [(k' & ? & ?)| ->]; [exists k'; tauto|exists k; tauto].
  - intros (k' & [?| ->] & ?); [left; by exists k'|right; congruence].
  - intros (k' & ? & ?). exists k'. tauto.
  - intros (k' & [?| ->] & ?); [by exists k'|congruence].
Qed.

Lemma entries_of_app m ks ks' es es' :
  entries_of m ks es -> entries_of m ks' es' -> entries_of m (ks ++ ks') (es ++ es').
Proof.
  intros Hes Hes' e. rewrite elem_of_app, (Hes e), (Hes' e). setoid_rewrite elem_of_app. split.
  - intros [(k & ? & ?)|(k & ? & ?)]; exists k; tauto.
  - intros (k & [?|?] & ?); [left|right]; by exists k.
Qed.

Lemma entries_of_same m ks ks' es : (forall k, k ∈ ks <-> k ∈ ks') -> entries_of m ks es -> entries_of m ks' es.
Proof. intros Hks Hes e. rewrite (Hes e). by setoid_rewrite Hks. Qed.

(** One key is either answered or kept. *)
Lemma load_step_faithful s m k res remaining :
  faithful s m ->
  load_step s (res, remaining) k = (match m k with Some e => res ++ [e] | None => res end, remaining) \/
  load_step s (res, remaining) k = (res, remaining ++ [k]) /\ beneath_caches s k.
Proof.
  intros Hf. unfold load_step. destruct (overrides s !! k) as [o|] eqn:Ho.
  { left. rewrite (f_overrides _ _ Hf _ _ Ho). by destruct o. }
  destruct (inner s !! k) as [e|] eqn:Hi; [left; by rewrite (f_inner _ _ Hf _ _ Ho Hi)|].
  destruct (prefetch_cache s !! k) as [e|] eqn:Hc; [left; by rewrite (f_cache _ _ Hf _ _ (conj Ho Hi) Hc)|].
  by right.
Qed.

(** The loop over the keys finds what the layers know and keeps the others. *)
Lemma load_local_faithful s m ks res remaining :
  faithful s m -> load_local s ks = (res, remaining) ->
  Forall (beneath_caches s) remaining /\
  exists known, entries_of m known res /\ forall k, k ∈ known ++ remaining <-> k ∈ ks.
Proof.
  intros Hf. unfold load_local. revert res remaining.
  induction ks as [|k ks IH] using rev_ind; intros res remaining Hl.
  { injection Hl as <- <-. split; [constructor|]. exists []. split; [|done].
    intros e. split; [by intros ?%elem_of_nil|]. by intros (k & ?%elem_of_nil & _). }
  rewrite fold_left_app in Hl. destruct (fold_left (load_step s) ks ([], [])) as [res0 rem0].
  destruct (IH _ _ eq_refl) as (Hrem & known & Hknown & Hks). cbn [fold_left] in Hl.
  destruct (load_step_faithful s m k res0 rem0 Hf) as [Hs|[Hs Hb]]; rewrite Hs in Hl; injection Hl as <- <-.
  - split; [done|]. exists (known ++ [k]). split; [by apply entries_of_snoc|]. intros k'. specialize (Hks k').
    rewrite !elem_of_app in *. tauto.
  - split; [apply Forall_app; split; [done|by apply Forall_singleton]|]. exists known. split; [done|]. intros k'. specialize (Hks k').
    rewrite !elem_of_app in *. tauto.
Qed.

Lemma load_entries_faithful s m ks :
  faithful s m -> lookups_released s = false ->
  exists es s', load_entries ks s = Ok (es, s') /\ entries_of m ks es /\ faithful s' m /\ lookups_released s' = false.
Proof.
  intros Hf Hr. unfold load_entries. destruct (load_local s ks) as [res remaining] eqn:Hl.
  destruct (load_local_faithful s m ks _ _ Hf Hl) as (Hrem & known & Hknown & Hks).
  case_bool_decide as Hnil.
  { exists res, s. subst. split; [done|]. split; [|done]. rewrite app_nil_r in Hks.
    by apply (entries_of_same _ known). }
  destruct (fetch_faithful s m remaining Hf Hr Hrem) as (es & Hes & Hent). unfold fetch in Hes. rewrite Hes.
  cbn [result_bind]. eexists _, _. split; [done|]. split; [|split; [by eapply faithful_loaded|done]].
  apply (entries_of_same _ (known ++ remaining)); [done|]. by apply entries_of_app.
Qed.

Lemma prefetch_faithful s m ks :
  faithful s m -> lookups_released s = false ->
  exists stats s', prefetch ks s = Ok (stats, s') /\ faithful s' m /\ lookups_released s' = false /\
    forall k e, lookup_fn s <> None \/ batch_lookup_fn s <> None -> k ∈ ks -> m k = Some e ->
      needs_loading s' k = false.
Proof.
  intros Hf Hr. unfold prefetch. set (needed := base.filter _ ks).
  assert (Forall (beneath_caches s) needed) as Hneeded.
  { apply Forall_forall. intros k [Hk _]%list_elem_of_filter. unfold needs_loading in Hk.
    unfold beneath_caches. destruct (overrides s !! k), (inner s !! k), (prefetch_cache s !! k); done. }
  case_bool_decide as Hnil.
  { eexists _, s. split; [done|]. split; [done|]. split; [done|]. intros k e _ Hk _.
    destruct (needs_loading s k) eqn:Hn; [|done]. assert (k ∈ needed) as Hin by by apply list_elem_of_filter.
    rewrite Hnil in Hin. by apply elem_of_nil in Hin. }
  destruct (fetch_faithful s m needed Hf Hr Hneeded) as (es & Hes & Hent). unfold fetch in Hes.
  set (s' := put_cache (cache_entries es (prefetch_cache s)) s).
  assert (faithful s' m /\ lookups_released s' = false /\
    forall k e, lookup_fn s <> None \/ batch_lookup_fn s <> None -> k ∈ ks -> m k = Some e ->
      needs_loading s' k = false) as Hdone.
  { split; [by eapply faithful_loaded|]. split; [done|].
    intros k e _ Hk Hm. unfold needs_loading. simpl.
    destruct (overrides s !! k) eqn:Ho; [done|]. destruct (inner s !! k) eqn:Hi; [done|].
    assert (is_Some (cache_entries es (prefetch_cache s) !! k)) as [x ->]; [|done].
    destruct (prefetch_cache s !! k) eqn:Hc; [apply cache_entries_mono; by rewrite Hc|].
    rewrite <- (f_keyed _ _ Hf _ _ Hm). apply cache_entries_in. apply Hent. exists k. split; [|done].
    apply list_elem_of_filter. split; [|done]. unfold needs_loading. by rewrite Ho, Hi, Hc. }
  destruct (batch_lookup_fn s) as [batch|] eqn:Hb.
  { rewrite Hes. cbn [result_bind]. eexists _, s'. split; [done|exact Hdone]. }
  destruct (lookup_fn s) as [lookup|] eqn:Hl.
  { rewrite Hes. cbn [result_bind]. eexists _, s'. split; [done|exact Hdone]. }
  rewrite Hr. eexists _, s. split; [done|]. split; [done|]. split; [done|]. by intros k e [?|?].
Qed.

(** ** Overrides and the release of the callbacks *)

Definition overridden m (o : gmap LedgerKey (option LedgerEntry)) : ledger_map := fun k =>
  match o !! k with Some v => v | None => m k end.

Lemma with_overrides_faithful s m o :
  faithful s m -> (forall k e, o !! k = Some (Some e) -> entry_to_key e = k) ->
  faithful (with_overrides o s) (overridden m o).
Proof.
  intros Hf Ho.
  assert (forall k, (o ∪ overrides s) !! k = None -> overrides s !! k = None /\ overridden m o k = m k) as Hnone.
  { intros k [Hok Hsk]%lookup_union_None. split; [done|]. unfold overridden. by rewrite Hok. }
  split; simpl.
  - intros k e. unfold overridden. destruct (o !! k) as [v|] eqn:Hk; [intros ->; by apply Ho|apply (f_keyed _ _ Hf)].
  - intros k v [Hk|[Hk Hs]]%lookup_union_Some_raw; unfold overridden; rewrite Hk; [done|by apply (f_overrides _ _ Hf)].
  - intros k e [Hs ->]%Hnone Hi. by apply (f_inner _ _ Hf).
  - intros k e _ Hc. by rewrite lookup_empty in Hc.
  - intros lookup k Hl [[Hs ->]%Hnone Hi]. by apply (f_lookup _ _ Hf).
  - intros batch ks Hb Hks. destruct (f_batch _ _ Hf batch ks Hb) as (es & Hes & Hent).
    { eapply Forall_impl; [done|]. by intros k [[Hs _]%Hnone Hi]. }
    exists es. split; [done|]. intros e. rewrite (Hent e). rewrite Forall_forall in Hks.
    split; intros (k & Hin & Hm); exists k; (split; [done|]); destruct (Hks k Hin) as [[_ E]%Hnone _]; congruence.
  - intros k Hl Hr [[Hs ->]%Hnone Hi]. by apply (f_none _ _ Hf).
Qed.

Lemma release_lookups_faithful s m : faithful s m -> faithful (release_lookups s) m.
Proof. intros []. by split. Qed.

Lemma new_faithful (entries : gmap LedgerKey LedgerEntry) m lookup all :
  keyed_ledger m -> (forall k e, entries !! k = Some e -> m k = Some e) -> (forall k, lookup k = Ok (m k)) ->
  faithful (with_lookups_and_entries entries lookup all) m.
Proof.
  intros Hm He Hl. split; simpl; try done.
  - intros k e _. apply He.
  - intros lookup' k [= <-] _. apply Hl.
Qed.

(** What was prefetched is found without the callbacks. *)
Lemma get_entry_cached s m k :
  faithful s m -> needs_loading s k = false -> get_entry k s = Ok (m k, s).
Proof.
  intros Hf. unfold needs_loading, get_entry. destruct (overrides s !! k) as [o|] eqn:Ho.
  { intros _. by rewrite (f_overrides _ _ Hf _ _ Ho). }
  destruct (inner s !! k) as [e|] eqn:Hi; [intros _; by rewrite (f_inner _ _ Hf _ _ Ho Hi)|].
  destruct (prefetch_cache s !! k) as [e|] eqn:Hc; [|done].
  intros _. by rewrite (f_cache _ _ Hf _ _ (conj Ho Hi) Hc).
Qed.

(** ** Property *)

(** C31: A handle reads as the ledger it stands for, and goes on doing so: a lookup
    answers the entry of the key or its absence, loading many keys returns exactly
    their entries, prefetching changes no answer and keeps the entries it loaded for
    the time when the callbacks are gone, when a lookup answers right or fails;
    overrides replace the answers of their keys and of no others. *)
Theorem snapshot_reads_faithful s m k ks o :
  faithful s m -> lookups_released s = false -> (forall k e, o !! k = Some (Some e) -> entry_to_key e = k) ->
  (exists s', get_entry k s = Ok (m k, s') /\ faithful s' m /\ lookups_released s' = false) /\
  (exists es s', load_entries ks s = Ok (es, s') /\ (forall e, e ∈ es <-> exists k, k ∈ ks /\ m k = Some e) /\
    faithful s' m /\ lookups_released s' = false) /\
  (exists stats s', prefetch ks s = Ok (stats, s') /\ faithful s' m /\ lookups_released s' = false /\
    (lookup_fn s <> None -> k ∈ ks -> m k <> None ->
      get_entry k (release_lookups s') = Ok (m k, release_lookups s'))) /\
  (get_entry k (release_lookups s) = Ok (m k, release_lookups s) \/ get_entry k (release_lookups s) = Err Internal) /\
  faithful (with_overrides o s) (overridden m o).
Proof.
  intros Hf Hr Ho. split; [by apply get_entry_faithful|]. split; [by apply load_entries_faithful|].
  split; [|split; [|by apply with_overrides_faithful]].
  - destruct (prefetch_faithful s m ks Hf Hr) as (stats & s' & Hp & Hf' & Hr' & Hc). exists stats, s'.
    split; [done|]. split; [done|]. split; [done|]. intros Hl Hk Hm. destruct (m k) as [e|] eqn:Hmk; [|done].
    rewrite <- Hmk. apply get_entry_cached; [by apply release_lookups_faithful|]. apply (Hc k e); [by left|done|done].
  - destruct (get_entry_released (release_lookups s) m k) as [(v & Hv & ->)|[Hv _]]; [|done|by left|by right].
    by apply release_lookups_faithful.
Qed.
End facts.

Section witnesses.
#[local] Existing Instance demo_types.

Definition demo_account (id balance seq : Z) : LedgerEntry := MkEntry seq (Account (id : AccountId) (MkAccount balance 0 None) (0 : Payload)) (0 : Payload).
Definition id1 : AccountId := 1.
Definition demo_ledger : ledger_map := fun k =>
  match k with
  | KeyAccount id => if bool_decide ((id : Z) = 1) then Some (demo_account 1 100 5)
                     else if bool_decide ((id : Z) = 2) then Some (demo_account 2 50 3) else None
  | _ => None
  end.

Lemma demo_ledger_keyed : keyed_ledger demo_ledger.
Proof.
  intros [id| | | | | | | | | ] e; simpl; try done.
  case_bool_decide as H1; [intros [= <-]; by rewrite H1|]. case_bool_decide as H2; [intros [= <-]; by rewrite H2|done].
Qed.

Definition demo_snapshot : SnapshotHandle :=
  with_lookups_and_entries ∅ (fun k => Ok (demo_ledger k)) (Ok [demo_account 1 100 5; demo_account 2 50 3]).

Lemma demo_snapshot_faithful : faithful demo_snapshot demo_ledger.
Proof. apply new_faithful; [apply demo_ledger_keyed| |done]. intros k e Hk. by rewrite lookup_empty in Hk. Qed.

Lemma snapshot_reads_faithful_witness :
  exists s', get_entry (KeyAccount id1) demo_snapshot = Ok (Some (demo_account 1 100 5), s') /\ faithful s' demo_ledger /\
    lookups_released s' = false.
Proof.
  refine (proj1 (snapshot_reads_faithful demo_snapshot demo_ledger (KeyAccount id1) [] ∅ demo_snapshot_faithful _ _)).
  - done.
  - intros k e Hk. by rewrite lookup_empty in Hk.
Defined.
End witnesses.
