(* ===== verification/Delta.v ===== *)
(** * Delta: the changes of one ledger close (ledger/src/delta.rs)

    A [LedgerDelta] coalesces the changes to ledger entries: at most one change is
    kept per key, with the entry before the close and the entry now, in the order in
    which the keys were first changed. At the end the delta is drained into the three
    lists of a bucket list batch. Checkpoints turn the changes of a part of the close
    into metadata.

    An operation that fails leaves the function with an error; the delta it leaves
    behind is not kept, as its callers give up the close. *)

From S2P Require Import Prelude Amounts Ledger Snapshot.

Section delta.
Context `{XdrTypes}.

Inductive EntryChange :=
| Created (entry : LedgerEntry)
| Updated (previous current : LedgerEntry)
| Deleted (previous : LedgerEntry).

Definition change_key (c : EntryChange) : LedgerKey :=
  match c with
  | Created entry => entry_to_key entry
  | Updated _ current => entry_to_key current
  | Deleted previous => entry_to_key previous
  end.

Definition current_entry (c : EntryChange) : option LedgerEntry :=
  match c with
  | Created entry => Some entry
  | Updated _ current => Some current
  | Deleted _ => None
  end.

Definition previous_entry (c : EntryChange) : option LedgerEntry :=
  match c with
  | Created _ => None
  | Updated previous _ => Some previous
  | Deleted previous => Some previous
  end.

Definition is_created (c : EntryChange) : bool := match c with Created _ => true | _ => false end.
Definition is_updated (c : EntryChange) : bool := match c with Updated _ _ => true | _ => false end.
Definition is_deleted (c : EntryChange) : bool := match c with Deleted _ => true | _ => false end.

(** Of two updates of a lifetime the longer one counts. *)
Definition merge_ttl_current (k : LedgerKey) (existing_current incoming_current : LedgerEntry)
    : result LedgerEntry LedgerError :=
  if negb (is_ttl_key k) then Ok incoming_current
  else
    match as_ttl existing_current, as_ttl incoming_current with
    | Some existing_ttl, Some incoming_ttl =>
        if existing_ttl <? incoming_ttl then Ok incoming_current else Ok existing_current
    | _, _ => Err Internal
    end.

Record LedgerDelta := MkDelta {
  ledger_seq : Z;
  changes : gmap LedgerKey EntryChange;
  change_order : list LedgerKey;
  fee_pool_delta : Z;
  total_coins_delta : Z
}.

Definition LedgerDelta_new (seq : Z) : LedgerDelta := MkDelta seq ∅ [] 0 0.

(** [self.changes.insert]; with [self.change_order.push]; [remove] with [retain]. *)
Definition insert_change (k : LedgerKey) (c : EntryChange) (d : LedgerDelta) : LedgerDelta :=
  MkDelta (ledger_seq d) (<[k := c]> (changes d)) (change_order d) (fee_pool_delta d) (total_coins_delta d).
Definition push_change (k : LedgerKey) (c : EntryChange) (d : LedgerDelta) : LedgerDelta :=
  MkDelta (ledger_seq d) (<[k := c]> (changes d)) (change_order d ++ [k]) (fee_pool_delta d) (total_coins_delta d).
Definition remove_change (k : LedgerKey) (d : LedgerDelta) : LedgerDelta :=
  MkDelta (ledger_seq d) (delete k (changes d)) (base.filter (fun k' => k' <> k) (change_order d))
    (fee_pool_delta d) (total_coins_delta d).

(** ** Recording changes *)

Definition record_create (entry : LedgerEntry) (d : LedgerDelta) : result LedgerDelta LedgerError :=
  let k := entry_to_key entry in
  Ok match changes d !! k with
     | Some (Created _) => insert_change k (Created entry) d
     | Some (Updated previous _) => insert_change k (Updated previous entry) d
     | Some (Deleted previous) => insert_change k (Updated previous entry) d
     | None => push_change k (Created entry) d
     end.

Definition record_update (previous current : LedgerEntry) (d : LedgerDelta) : result LedgerDelta LedgerError :=
  let k := entry_to_key current in
  match changes d !! k with
  | Some (Created _) => Ok (insert_change k (Created current) d)
  | Some (Updated orig existing_current) =>
      let? merged := merge_ttl_current k existing_current current in
      Ok (insert_change k (Updated orig merged) d)
  | Some (Deleted orig) => Ok (insert_change k (Updated orig current) d)
  | None => Ok (push_change k (Updated previous current) d)
  end.

Definition record_delete (entry : LedgerEntry) (d : LedgerDelta) : result LedgerDelta LedgerError :=
  if is_config_setting entry then Err InvalidEntry
  else
    let k := entry_to_key entry in
    Ok match changes d !! k with
       | Some (Created _) => remove_change k d
       | Some (Updated previous _) => insert_change k (Deleted previous) d
       | Some (Deleted _) => d
       | None => push_change k (Deleted entry) d
       end.

(** [+=] on an [i64] wraps. *)
Definition record_fee_pool_delta (delta : Z) (d : LedgerDelta) : LedgerDelta :=
  MkDelta (ledger_seq d) (changes d) (change_order d) (as_i64 (fee_pool_delta d + delta)) (total_coins_delta d).
Definition record_total_coins_delta (delta : Z) (d : LedgerDelta) : LedgerDelta :=
  MkDelta (ledger_seq d) (changes d) (change_order d) (fee_pool_delta d) (as_i64 (total_coins_delta d + delta)).

Definition get_change (k : LedgerKey) (d : LedgerDelta) : option EntryChange := changes d !! k.
Definition get_current_entry (k : LedgerKey) (d : LedgerDelta) : option LedgerEntry :=
  match changes d !! k with Some c => current_entry c | None => None end.

(** [changes()]: the changes in the order they were first recorded. *)
Definition changes_in_order (d : LedgerDelta) : list EntryChange := omap (fun k => changes d !! k) (change_order d).
Definition num_changes (d : LedgerDelta) : Z := Z.of_nat (size (changes d)).

Definition init_entries (d : LedgerDelta) : list LedgerEntry :=
  omap current_entry (base.filter (fun c => is_created c = true) (changes_in_order d)).
Definition live_entries (d : LedgerDelta) : list LedgerEntry :=
  omap current_entry (base.filter (fun c => is_updated c = true) (changes_in_order d)).
Definition current_entries (d : LedgerDelta) : list LedgerEntry := omap current_entry (changes_in_order d).
Definition dead_entries (d : LedgerDelta) : list LedgerKey :=
  map change_key (base.filter (fun c => is_deleted c = true) (changes_in_order d)).

(** ** Merging *)

(** One iteration of the loop over the changes of the other delta. *)
Definition merge_change (other : LedgerDelta) (d : LedgerDelta) (k : LedgerKey) : result LedgerDelta LedgerError :=
  match changes other !! k with
  | None => Ok d
  | Some (Created entry) =>
      match changes d !! k with
      | Some (Deleted previous) => Ok (insert_change k (Updated previous entry) d)
      | Some (Created _) => Ok (insert_change k (Created entry) d)
      | Some (Updated _ _) => Err Internal
      | None => Ok (push_change k (Created entry) d)
      end
  | Some (Updated previous current) =>
      match changes d !! k with
      | Some (Created _) => Ok (insert_change k (Created current) d)
      | Some (Updated orig existing_current) =>
          let? merged := merge_ttl_current k existing_current current in
          Ok (insert_change k (Updated orig merged) d)
      | Some (Deleted _) => Err Internal
      | None => Ok (push_change k (Updated previous current) d)
      end
  | Some (Deleted previous) =>
      match changes d !! k with
      | Some (Created _) => Ok (remove_change k d)
      | Some (Updated orig _) => Ok (insert_change k (Deleted orig) d)
      | Some (Deleted _) => Ok d
      | None => Ok (push_change k (Deleted previous) d)
      end
  end.

Definition merge (d other : LedgerDelta) : result LedgerDelta LedgerError :=
  let? d := try_fold (merge_change other) (change_order other) d in
  Ok (record_total_coins_delta (total_coins_delta other) (record_fee_pool_delta (fee_pool_delta other) d)).

Definition clear (d : LedgerDelta) : LedgerDelta := MkDelta (ledger_seq d) ∅ [] 0 0.

(** ** Draining *)

Record DeltaCategorization := MkCategorization {
  cat_init_entries : list LedgerEntry;
  cat_live_entries : list LedgerEntry;
  cat_dead_keys : list LedgerKey;
  created_count : Z;
  updated_count : Z;
  deleted_count : Z;
  has_offers : bool;
  has_pool_share_trustlines : bool;
  offer_pool_changes : list EntryChange
}.

(** The entries that are not deleted are stamped with the ledger. *)
Definition stamp_change (seq : Z) (c : EntryChange) : EntryChange :=
  match c with
  | Created e => Created (put_last_modified seq e)
  | Updated previous current => Updated previous (put_last_modified seq current)
  | Deleted previous => Deleted previous
  end.

Definition entry_ref (c : EntryChange) : LedgerEntry :=
  match c with
  | Created e | Deleted e => e
  | Updated _ current => current
  end.

(** Whether there are offers and pool share trustlines now, whether the change is collected. *)
Definition commit_flags (collect_liquidity_pools : bool) (cat : DeltaCategorization) (c : EntryChange) : bool * bool * bool :=
  match data (entry_ref c) with
  | Offer _ _ _ => (true, has_pool_share_trustlines cat, true)
  | Trustline _ asset _ =>
      if is_pool_share asset then (has_offers cat, true, true)
      else (has_offers cat, has_pool_share_trustlines cat, false)
  | LiquidityPool _ _ => (has_offers cat, has_pool_share_trustlines cat, collect_liquidity_pools)
  | _ => (has_offers cat, has_pool_share_trustlines cat, false)
  end.

Definition categorize_change (collect_liquidity_pools : bool) (seq : Z) (cat : DeltaCategorization) (c : EntryChange)
    : DeltaCategorization :=
  let c := stamp_change seq c in
  let '(offer, pool_share, collect_for_commit) := commit_flags collect_liquidity_pools cat c in
  let collected := if collect_for_commit then offer_pool_changes cat ++ [c] else offer_pool_changes cat in
  match c with
  | Created e =>
      MkCategorization (cat_init_entries cat ++ [e]) (cat_live_entries cat) (cat_dead_keys cat)
        (created_count cat + 1) (updated_count cat) (deleted_count cat) offer pool_share collected
  | Updated _ current =>
      MkCategorization (cat_init_entries cat) (cat_live_entries cat ++ [current]) (cat_dead_keys cat)
        (created_count cat) (updated_count cat + 1) (deleted_count cat) offer pool_share collected
  | Deleted previous =>
      MkCategorization (cat_init_entries cat) (cat_live_entries cat) (cat_dead_keys cat ++ [entry_to_key previous])
        (created_count cat) (updated_count cat) (deleted_count cat + 1) offer pool_share collected
  end.

Definition categorize_changes (cs : list EntryChange) (collect_liquidity_pools : bool) (seq : Z) : DeltaCategorization :=
  fold_left (categorize_change collect_liquidity_pools seq) cs (MkCategorization [] [] [] 0 0 0 false false []).

(** [order.into_iter().filter_map(|key| self.changes.remove(&key))]. *)
Definition drain_step (acc : list EntryChange * gmap LedgerKey EntryChange) (k : LedgerKey) :=
  let '(cs, m) := acc in
  match m !! k with
  | Some c => (cs ++ [c], delete k m)
  | None => (cs, m)
  end.

Definition drain_categorization_for_bucket_update (collect_liquidity_pools : bool) (d : LedgerDelta)
    : DeltaCategorization * LedgerDelta :=
  let '(cs, rest) := fold_left drain_step (change_order d) ([], changes d) in
  (categorize_changes cs collect_liquidity_pools (ledger_seq d),
   MkDelta (ledger_seq d) rest [] (fee_pool_delta d) (total_coins_delta d)).

(** ** Metadata *)

Inductive LedgerEntryChange :=
| ChangeState (e : LedgerEntry)
| ChangeCreated (e : LedgerEntry)
| ChangeUpdated (e : LedgerEntry)
| ChangeRemoved (k : LedgerKey).

Record ChangeCheckpoint := MkCheckpoint {
  cp_entries : gmap LedgerKey EntryChange;
  key_order : list LedgerKey
}.

Definition checkpoint (d : LedgerDelta) : ChangeCheckpoint := MkCheckpoint (changes d) (change_order d).

Definition visible_entry (c : EntryChange) : option LedgerEntry :=
  match c with
  | Created entry => Some entry
  | Updated _ current => Some current
  | Deleted _ => None
  end.

Definition emit_diff (k : LedgerKey) (before after : option LedgerEntry) : list LedgerEntryChange :=
  match before, after with
  | Some v1, Some v2 => if bool_decide (v1 <> v2) then [ChangeState v1; ChangeUpdated v2] else []
  | Some v1, None => [ChangeState v1; ChangeRemoved k]
  | None, Some v2 => [ChangeCreated v2]
  | None, None => []
  end.

Definition emit_new_entry (c : EntryChange) : list LedgerEntryChange :=
  match c with
  | Created entry => [ChangeCreated entry]
  | Updated previous current => [ChangeState previous; ChangeUpdated current]
  | Deleted previous => [ChangeState previous; ChangeRemoved (entry_to_key previous)]
  end.

(** Phase 1: the keys of the delta; phase 2: those that disappeared from it. *)
Definition phase1 (cp : ChangeCheckpoint) (d : LedgerDelta) (k : LedgerKey) : list LedgerEntryChange :=
  match changes d !! k with
  | None => []
  | Some current_change =>
      match cp_entries cp !! k with
      | Some cp_change => emit_diff k (visible_entry cp_change) (visible_entry current_change)
      | None => emit_new_entry current_change
      end
  end.

Definition phase2 (cp : ChangeCheckpoint) (d : LedgerDelta) (k : LedgerKey) : list LedgerEntryChange :=
  match changes d !! k, cp_entries cp !! k with
  | None, Some cp_change =>
      match visible_entry cp_change with
      | Some v1 => [ChangeState v1; ChangeRemoved (entry_to_key v1)]
      | None => []
      end
  | _, _ => []
  end.

(** [LedgerEntryChanges] is a [VecM] of at most [u32::MAX] elements:
    [try_into().unwrap_or_default()]. *)
Definition changes_since (cp : ChangeCheckpoint) (d : LedgerDelta) : list LedgerEntryChange :=
  let xs := flat_map (phase1 cp d) (change_order d) ++ flat_map (phase2 cp d) (key_order cp) in
  if len xs <=? u32_max then xs else [].

(** ** Fees *)

(** [expect]. *)
Definition expect {A E} (r : result A E) : result A LedgerError := map_err (fun _ => LedgerPanic) r.

(** The fee charged and the metadata, with the snapshot whose cache the lookup fills. *)
Definition deduct_fee_from_account (account_id : AccountId) (fee : Z) (snapshot : SnapshotHandle) (seq : Z)
    (d : LedgerDelta) : result (Z * list LedgerEntryChange * SnapshotHandle * LedgerDelta) LedgerError :=
  let k := KeyAccount account_id in
  let deduct entry is_new snapshot :=
    match as_account entry with
    | None => Ok (0, [], snapshot, d)
    | Some acc =>
        let state_entry := entry in
        let charged_fee := Z.min (account_balance acc) fee in
        let? acc := expect (sub_account_balance acc charged_fee) in
        let entry := put_account acc entry in
        let entry := if 0 <? charged_fee then put_last_modified seq entry else entry in
        let fee_changes := if 0 <? charged_fee then [ChangeState state_entry; ChangeUpdated entry] else [] in
        if is_new : bool then Ok (charged_fee, fee_changes, snapshot, push_change k (Updated state_entry entry) d)
        else
          match changes d !! k with
          | Some (Created e) =>
              let? _ := match as_account e with
                        | Some acc => expect (sub_account_balance acc charged_fee)
                        | None => Ok acc
                        end in
              Ok (charged_fee, fee_changes, snapshot, insert_change k (Created entry) d)
          | Some (Updated previous _) =>
              Ok (charged_fee, fee_changes, snapshot, insert_change k (Updated previous entry) d)
          | Some (Deleted _) | None => Ok (charged_fee, fee_changes, snapshot, d)
          end
    end in
  match changes d !! k with
  | Some change =>
      match current_entry change with
      | Some current => deduct current false snapshot
      | None => Ok (0, [], snapshot, d)
      end
  | None =>
      let? (o, snapshot) := map_err (fun _ => Internal) (get_entry k snapshot) in
      match o with
      | Some entry => deduct entry true snapshot
      | None => Ok (0, [], snapshot, d)
      end
  end.

(** Whether the refund was applied, and the entry with it. *)
Definition refund_entry (refund : Z) (e : LedgerEntry) : result (option LedgerEntry) LedgerError :=
  match as_account e with
  | Some acc =>
      let? r := expect (try_add_account_balance acc refund) in
      Ok ((fun acc => put_account acc e) <$> r)
  | None => Ok None
  end.

Definition apply_refund_to_account (account_id : AccountId) (refund : Z) (d : LedgerDelta)
    : result (bool * LedgerDelta) LedgerError :=
  let k := KeyAccount account_id in
  match changes d !! k with
  | Some (Created e) =>
      let? r := refund_entry refund e in
      Ok match r with Some e => (true, insert_change k (Created e) d) | None => (false, d) end
  | Some (Updated previous current) =>
      let? r := refund_entry refund current in
      Ok match r with Some e => (true, insert_change k (Updated previous e) d) | None => (false, d) end
  | Some (Deleted _) | None => Ok (false, d)
  end.
End delta.
