(* ===== verification/DeltaFacts.v ===== *)
(** * DeltaFacts: a delta is a finite change of a ledger

    Over a ledger, a delta shows a ledger. Recording a change in the delta changes
    what it shows as the change says; merging a delta into the one it was built on
    composes the two; merging the deltas of parallel clusters does not depend on
    their order; draining yields the batch that makes the same change. *)

From S2P Require Import Prelude Amounts Ledger Snapshot Delta.

Section facts.
Context `{XdrTypes}.
Implicit Types (d : LedgerDelta) (m : ledger_map) (k : LedgerKey) (e : LedgerEntry) (c : EntryChange).

(** ** Well-formed deltas *)

Definition change_ok k c : Prop :=
  forall e, current_entry c = Some e \/ previous_entry c = Some e -> entry_to_key e = k.

Record delta_ok d : Prop := {
  ok_nodup : NoDup (change_order d);
  ok_order k : k ∈ change_order d <-> is_Some (changes d !! k);
  ok_keyed k c : changes d !! k = Some c -> change_ok k c
}.

(** What a delta shows over a ledger, and that it was made over that ledger. *)
Definition overlay d m : ledger_map := fun k =>
  match changes d !! k with Some c => current_entry c | None => m k end.
Definition consistent d m : Prop := forall k c, changes d !! k = Some c -> previous_entry c = m k.

Lemma new_ok seq : delta_ok (LedgerDelta_new seq).
Proof.
  split; simpl; [constructor| |].
  - intros k. rewrite elem_of_nil, lookup_empty. by split; [|intros [? ?]].
  - intros k c. by rewrite lookup_empty.
Qed.

Lemma new_consistent seq m : consistent (LedgerDelta_new seq) m.
Proof. intros k c. simpl. by rewrite lookup_empty. Qed.

Lemma new_overlay seq m k : overlay (LedgerDelta_new seq) m k = m k.
Proof. unfold overlay. simpl. by rewrite lookup_empty. Qed.

Lemma overlay_keyed d m : delta_ok d -> keyed_ledger m -> keyed_ledger (overlay d m).
Proof.
  intros Hd Hm k e. unfold overlay. destruct (changes d !! k) as [c|] eqn:Hc; [|apply Hm].
  intros He. apply (ok_keyed _ Hd _ _ Hc). by left.
Qed.

(** ** Setting one change *)

(** Every operation sets or removes the change of one key. *)
Definition set_change k (oc : option EntryChange) d : LedgerDelta :=
  match oc with
  | Some c => match changes d !! k with Some _ => insert_change k c d | None => push_change k c d end
  | None => remove_change k d
  end.

Lemma set_change_changes k oc d k' :
  changes (set_change k oc d) !! k' = if decide (k' = k) then oc else changes d !! k'.
Proof.
  unfold set_change. destruct oc as [c|]; [destruct (changes d !! k); simpl|simpl]; case_decide as Hk; subst;
    (apply lookup_insert_eq || apply lookup_delete_eq || by apply lookup_insert_ne || by apply lookup_delete_ne).
Qed.

Lemma set_change_same k c d : changes d !! k = Some c -> set_change k (Some c) d = d.
Proof.
  intros Hc. unfold set_change, insert_change. rewrite Hc, insert_id by done. by destruct d.
Qed.

Lemma set_change_ok k oc d : delta_ok d -> (forall c, oc = Some c -> change_ok k c) -> delta_ok (set_change k oc d).
Proof.
  intros Hd Hc. assert (forall k' c, changes (set_change k oc d) !! k' = Some c -> change_ok k' c) as Hkeyed.
  { intros k' c. rewrite set_change_changes. case_decide as E; [subst; apply Hc|apply (ok_keyed _ Hd)]. }
  assert (NoDup (change_order (set_change k oc d)) /\
    forall k', k' ∈ change_order (set_change k oc d) <-> (k' = k /\ is_Some oc) \/ (k' <> k /\ k' ∈ change_order d)) as [Hnd Ho].
  { unfold set_change. destruct oc as [c|]; [destruct (changes d !! k) as [c0|] eqn:Hk|]; simpl.
    - assert (k ∈ change_order d) as Hin by (apply (ok_order _ Hd); by eexists). split; [apply (ok_nodup _ Hd)|].
      intros k'. destruct (decide (k' = k)) as [-> |]; [|tauto]. split; [by left|done].
    - assert (k ∉ change_order d) as Hin by (rewrite (ok_order _ Hd), Hk; by intros [? ?]). split.
      + apply NoDup_app. split; [apply (ok_nodup _ Hd)|]. split; [|apply NoDup_singleton].
        by intros x Hx ->%list_elem_of_singleton.
      + intros k'. rewrite elem_of_app, list_elem_of_singleton. destruct (decide (k' = k)) as [-> |]; [|tauto].
        split; [by left|by right].
    - split; [apply NoDup_filter, (ok_nodup _ Hd)|]. intros k'. rewrite list_elem_of_filter.
      split; [tauto|]. by intros [[_ [? ?]]|?]. }
  split; [done| |done]. intros k'. rewrite Ho, set_change_changes, (ok_order _ Hd). case_decide; tauto.
Qed.

Lemma set_change_consistent k oc d m :
  consistent d m -> (forall c, oc = Some c -> previous_entry c = m k) -> consistent (set_change k oc d) m.
Proof.
  intros Hd Hc k' c. rewrite set_change_changes. case_decide as E; [subst; apply Hc|apply Hd].
Qed.

Lemma set_change_overlay k oc d m k' :
  overlay (set_change k oc d) m k' =
  if decide (k' = k) then match oc with Some c => current_entry c | None => m k end else overlay d m k'.
Proof. unfold overlay. rewrite set_change_changes. case_decide; [by subst|done]. Qed.

(** ** Lifetimes *)

(** The one of two versions that counts: the longer lifetime, else the later one. *)
Definition later_version e e' : LedgerEntry :=
  match as_ttl e, as_ttl e' with
  | Some a, Some b => if a <? b then e' else e
  | _, _ => e'
  end.

Lemma merge_ttl_spec k e e' :
  entry_to_key e = k -> entry_to_key e' = k -> merge_ttl_current k e e' = Ok (later_version e e').
Proof.
  intros He He'. unfold merge_ttl_current, later_version. destruct (is_ttl_key k) eqn:Hk; simpl.
  - rewrite <- He in Hk. pose proof Hk as [a Ha]%ttl_key_iff. rewrite He, <- He' in Hk.
    apply ttl_key_iff in Hk as [b Hb]. rewrite Ha, Hb. by case_match.
  - destruct (as_ttl e) as [a|] eqn:Ha; [|done].
    assert (is_ttl_key (entry_to_key e) = true) as Ht by (apply ttl_key_iff; by eexists). congruence.
Qed.

Lemma later_version_key k e e' : entry_to_key e = k -> entry_to_key e' = k -> entry_to_key (later_version e e') = k.
Proof. unfold later_version. intros. by repeat case_match. Qed.

(** A new version that outlives the old one, or is the same. *)
Definition extends e e' : Prop :=
  forall a b, as_ttl e = Some a -> as_ttl e' = Some b -> a < b \/ e = e'.

Lemma extends_later e e' : extends e e' -> later_version e e' = e'.
Proof.
  intros Hx. unfold later_version. destruct (as_ttl e) as [a|] eqn:Ha, (as_ttl e') as [b|] eqn:Hb; try done.
  destruct (Hx a b Ha Hb) as [Hlt|<-]; [by apply Z.ltb_lt in Hlt as ->|by case_match].
Qed.

(** ** The operations, per key *)

Definition create_change e (o : option EntryChange) : option EntryChange :=
  match o with
  | Some (Updated p _) | Some (Deleted p) => Some (Updated p e)
  | Some (Created _) | None => Some (Created e)
  end.

Definition update_change p e (o : option EntryChange) : option EntryChange :=
  match o with
  | Some (Created _) => Some (Created e)
  | Some (Updated orig cur) => Some (Updated orig (later_version cur e))
  | Some (Deleted orig) => Some (Updated orig e)
  | None => Some (Updated p e)
  end.

Definition delete_change e (o : option EntryChange) : option EntryChange :=
  match o with
  | Some (Created _) => None
  | Some (Updated p _) | Some (Deleted p) => Some (Deleted p)
  | None => Some (Deleted e)
  end.

Lemma record_create_eq e d :
  record_create e d = Ok (set_change (entry_to_key e) (create_change e (changes d !! entry_to_key e)) d).
Proof.
  unfold record_create, set_change, create_change. by destruct (changes d !! entry_to_key e) as [[]|].
Qed.

Lemma record_update_eq p e d :
  delta_ok d ->
  record_update p e d = Ok (set_change (entry_to_key e) (update_change p e (changes d !! entry_to_key e)) d).
Proof.
  intros Hd. unfold record_update, set_change, update_change.
  destruct (changes d !! entry_to_key e) as [[]|] eqn:Hc; try done.
  rewrite merge_ttl_spec; [done| |done]. apply (ok_keyed _ Hd _ _ Hc). by left.
Qed.

Lemma record_delete_eq e d :
  record_delete e d =
  if is_config_setting e then Err InvalidEntry
  else Ok (set_change (entry_to_key e) (delete_change e (changes d !! entry_to_key e)) d).
Proof.
  unfold record_delete, delete_change. case_match; [done|]. f_equal.
  destruct (changes d !! entry_to_key e) as [[]|] eqn:Hc; [done| |by rewrite set_change_same|];
    by unfold set_change; rewrite Hc.
Qed.

(** ** Recording a sequence of changes *)

Inductive change_op :=
| CreateOp e
| UpdateOp (previous e : LedgerEntry)
| DeleteOp e.

Definition run_op d (op : change_op) : result LedgerDelta LedgerError :=
  match op with
  | CreateOp e => record_create e d
  | UpdateOp p e => record_update p e d
  | DeleteOp e => record_delete e d
  end.

Definition op_key (op : change_op) : LedgerKey :=
  match op with CreateOp e | UpdateOp _ e | DeleteOp e => entry_to_key e end.
Definition op_entry (op : change_op) : option LedgerEntry :=
  match op with CreateOp e | UpdateOp _ e => Some e | DeleteOp _ => None end.

(** The change of the ledger that an operation means. *)
Definition apply_op m (op : change_op) : ledger_map := fun k =>
  if decide (k = op_key op) then op_entry op else m k.

(** Creations are of entries that do not exist, updates and deletions of the entry
    there is; lifetimes are only extended and settings never deleted. *)
Definition op_valid m (op : change_op) : Prop :=
  match op with
  | CreateOp e => m (entry_to_key e) = None
  | UpdateOp p e => m (entry_to_key e) = Some p /\ extends p e
  | DeleteOp e => m (entry_to_key e) = Some e /\ is_config_setting e = false
  end.

Fixpoint ops_valid m (ops : list change_op) : Prop :=
  match ops with
  | [] => True
  | op :: ops => op_valid m op /\ ops_valid (apply_op m op) ops
  end.

Lemma op_valid_ext m m' op : (forall k, m k = m' k) -> op_valid m op -> op_valid m' op.
Proof. intros E. destruct op; simpl; by rewrite E. Qed.

Lemma apply_op_ext m m' op k : (forall k, m k = m' k) -> apply_op m op k = apply_op m' op k.
Proof. intros E. unfold apply_op. case_decide; [done|apply E]. Qed.

Lemma ops_valid_ext m m' ops : (forall k, m k = m' k) -> ops_valid m ops -> ops_valid m' ops.
Proof.
  revert m m'. induction ops as [|op ops IH]; [done|]. intros m m' E [Hv Hvs].
  split; [by eapply op_valid_ext|]. eapply IH; [|done]. intros k. by apply apply_op_ext.
Qed.

Lemma apply_ops_ext m m' ops k : (forall k, m k = m' k) -> fold_left apply_op ops m k = fold_left apply_op ops m' k.
Proof.
  revert m m'. induction ops as [|op ops IH]; intros m m' E; [apply E|]. simpl. apply IH.
  intros k'. by apply apply_op_ext.
Qed.

(** The deltas of a ledger. *)
Definition delta_of d m : Prop := delta_ok d /\ consistent d m.

(** The change that an operation leaves for its key. *)
Definition op_change (op : change_op) (o : option EntryChange) : option EntryChange :=
  match op with
  | CreateOp e => create_change e o
  | UpdateOp p e => update_change p e o
  | DeleteOp e => delete_change e o
  end.

Lemma run_op_eq d m op :
  delta_ok d -> op_valid m op ->
  run_op d op = Ok (set_change (op_key op) (op_change op (changes d !! op_key op)) d).
Proof.
  intros Hd. destruct op as [e|p e|e]; simpl.
  - intros _. apply record_create_eq.
  - intros _. by apply record_update_eq.
  - intros [_ Hc]. by rewrite record_delete_eq, Hc.
Qed.

(** The change left has the entry before the close and the entry of the operation. *)
Lemma op_change_spec d m op :
  keyed_ledger m -> delta_of d m -> op_valid (overlay d m) op ->
  let oc := op_change op (changes d !! op_key op) in
  match oc with Some c => current_entry c | None => m (op_key op) end = op_entry op /\
  forall c, oc = Some c -> previous_entry c = m (op_key op) /\ change_ok (op_key op) c.
Proof.
  intros Hm [Hd Hcon] Hv.
  assert (forall p, m (op_key op) = Some p -> entry_to_key p = op_key op) as Hkey by (intros p; apply Hm).
  assert (forall e, op_entry op = Some e -> entry_to_key e = op_key op) as Hkey' by (destruct op; by intros ? [= <-]).
  destruct (changes d !! op_key op) as [c|] eqn:Hc.
  - specialize (Hcon _ _ Hc). pose proof (ok_keyed _ Hd _ _ Hc) as Hok.
    destruct op as [e|p e|e]; simpl in *; unfold overlay in Hv; rewrite Hc in Hv; [|destruct Hv as [Hv Hx]..];
      destruct c as [x|p0 x|p0]; simpl in *; simplify_eq; rewrite ?extends_later by done; (split; [done|]);
      intros ? [= <-]; simpl; (split; [done|]); intros e' [E|E]; simplify_eq/=; auto.
  - destruct op as [e|p e|e]; simpl in *; unfold overlay in Hv; rewrite Hc in Hv; [|destruct Hv as [Hv Hx]..];
      (split; [done|]); intros ? [= <-]; simpl; (split; [done|]); intros e' [E|E]; simplify_eq/=; auto.
Qed.

Lemma run_op_refines d m op :
  keyed_ledger m -> delta_of d m -> op_valid (overlay d m) op ->
  exists d', run_op d op = Ok d' /\ delta_of d' m /\ ledger_seq d' = ledger_seq d /\
    forall k, overlay d' m k = apply_op (overlay d m) op k.
Proof.
  intros Hm Hdm Hv. pose proof Hdm as [Hd Hcon].
  destruct (op_change_spec d m op Hm Hdm Hv) as [Hcur Hprev].
  eexists. split; [by eapply run_op_eq|]. split; [split|split].
  - apply set_change_ok; [done|]. intros c Hc. by apply Hprev.
  - apply set_change_consistent; [done|]. intros c Hc. by apply Hprev.
  - unfold set_change. by repeat case_match.
  - intros k. rewrite set_change_overlay. unfold apply_op. case_decide; [done|done].
Qed.

Lemma run_ops_refines d m ops :
  keyed_ledger m -> delta_of d m -> ops_valid (overlay d m) ops ->
  exists d', try_fold run_op ops d = Ok d' /\ delta_of d' m /\ ledger_seq d' = ledger_seq d /\
    forall k, overlay d' m k = fold_left apply_op ops (overlay d m) k.
Proof.
  intros Hm. revert d. induction ops as [|op ops IH]; intros d Hd Hv; [by exists d|]. destruct Hv as [Hv Hvs].
  destruct (run_op_refines d m op Hm Hd Hv) as (d1 & Hr & Hd1 & Hs1 & Hov1).
  destruct (IH d1 Hd1) as (d' & Hf & Hd' & Hs' & Hov').
  { eapply ops_valid_ext; [|done]. intros k. by rewrite Hov1. }
  exists d'. cbn [try_fold]. rewrite Hr. split; [done|]. split; [done|]. split; [congruence|].
  intros k. rewrite Hov'. simpl. by apply apply_ops_ext.
Qed.

(** ** Merging, per key *)

Definition combine (incoming : EntryChange) (existing : option EntryChange) : result (option EntryChange) LedgerError :=
  match incoming, existing with
  | Created e, Some (Deleted p) => Ok (Some (Updated p e))
  | Created e, (Some (Created _) | None) => Ok (Some (Created e))
  | Created _, Some (Updated _ _) => Err Internal
  | Updated _ e, Some (Created _) => Ok (Some (Created e))
  | Updated _ e, Some (Updated p x) => Ok (Some (Updated p (later_version x e)))
  | Updated _ _, Some (Deleted _) => Err Internal
  | Updated p e, None => Ok (Some (Updated p e))
  | Deleted _, Some (Created _) => Ok None
  | Deleted _, Some (Updated p _) => Ok (Some (Deleted p))
  | Deleted _, Some (Deleted p) => Ok (Some (Deleted p))
  | Deleted p, None => Ok (Some (Deleted p))
  end.

Definition combine_at other d k : result (option EntryChange) LedgerError :=
  match changes other !! k with
  | Some incoming => combine incoming (changes d !! k)
  | None => Ok (changes d !! k)
  end.

Lemma combine_ok k c o c' :
  change_ok k c -> (forall c0, o = Some c0 -> change_ok k c0) -> combine c o = Ok (Some c') -> change_ok k c'.
Proof.
  intros Hc Ho Hr e He.
  assert (forall x, current_entry c = Some x \/ previous_entry c = Some x -> entry_to_key x = k) as Hck by done.
  assert (forall c0 x, o = Some c0 -> current_entry c0 = Some x \/ previous_entry c0 = Some x -> entry_to_key x = k) as Hok
    by (intros c0 x Hc0; by apply Ho).
  destruct c as [x|p x|p], o as [[y|q y|q]|]; simplify_eq/=; destruct He as [He|He]; simplify_eq/=; eauto.
  apply later_version_key; eauto.
Qed.

Lemma merge_change_eq other d k c :
  delta_ok d -> delta_ok other -> changes other !! k = Some c ->
  merge_change other d k = let? oc := combine c (changes d !! k) in Ok (set_change k oc d).
Proof.
  intros Hd Ho Hc. unfold merge_change. rewrite Hc. pose proof (ok_keyed _ Ho _ _ Hc) as Hk.
  unfold set_change. destruct (changes d !! k) as [c0|] eqn:Hc0; [|by destruct c].
  pose proof (ok_keyed _ Hd _ _ Hc0) as Hk0. destruct c as [x|p x|p], c0 as [y|q y|q]; try done; cbn [combine result_bind].
  - rewrite merge_ttl_spec; [done|apply Hk0; by left|apply Hk; by left].
  - unfold insert_change. rewrite insert_id by done. by destruct d.
Qed.

Definition same_totals d d' : Prop :=
  ledger_seq d' = ledger_seq d /\ fee_pool_delta d' = fee_pool_delta d /\ total_coins_delta d' = total_coins_delta d.

Lemma set_change_totals k oc d : same_totals d (set_change k oc d).
Proof. unfold set_change. by repeat case_match. Qed.

Lemma same_totals_trans d1 d2 d3 : same_totals d1 d2 -> same_totals d2 d3 -> same_totals d1 d3.
Proof. unfold same_totals. intros (? & ? & ?) (? & ? & ?). split; [|split]; congruence. Qed.

Lemma merge_fold other ks d :
  delta_ok d -> delta_ok other -> NoDup ks -> Forall (fun k => is_Some (changes other !! k)) ks ->
  match try_fold (merge_change other) ks d with
  | Ok d' => delta_ok d' /\ same_totals d d' /\
      forall k, if decide (k ∈ ks) then combine_at other d k = Ok (changes d' !! k) else changes d' !! k = changes d !! k
  | Err x => x = Internal /\ exists k, k ∈ ks /\ combine_at other d k = Err Internal
  end.
Proof.
  intros Hd Ho. revert d Hd. induction ks as [|k ks IH]; intros d Hd Hnd Hks.
  { split; [done|]. split; [done|]. intros k. rewrite decide_False by apply not_elem_of_nil. done. }
  apply NoDup_cons in Hnd as [Hnin Hnd]. apply Forall_cons in Hks as [[c Hc] Hks]. cbn [try_fold].
  rewrite (merge_change_eq other d k c) by done. destruct (combine c (changes d !! k)) as [oc|x] eqn:Hcomb; cbn [result_bind].
  - assert (delta_ok (set_change k oc d)) as Hd1.
    { apply set_change_ok; [done|]. intros c' ->. apply (combine_ok k c (changes d !! k)); [by apply (ok_keyed _ Ho)| |done].
      intros c0. apply (ok_keyed _ Hd). }
    specialize (IH _ Hd1 Hnd Hks). destruct (try_fold _ ks _) as [d'|x].
    + destruct IH as (Hd' & Ht & Hk). split; [done|].
      split; [by apply (same_totals_trans _ (set_change k oc d)); [apply set_change_totals|]|].
      intros k'. specialize (Hk k'). unfold combine_at in *. rewrite set_change_changes in Hk.
      destruct (decide (k' = k)) as [-> |Hne].
      * rewrite decide_False in Hk by done. rewrite decide_True by by left. by rewrite Hc, Hk.
      * destruct (decide (k' ∈ ks)); [rewrite decide_True by by right|rewrite decide_False]; [done|done|].
        by intros [?|?]%elem_of_cons.
    + destruct IH as (-> & k' & Hin & Hk'). split; [done|]. exists k'. split; [by right|].
      unfold combine_at in *. rewrite set_change_changes, decide_False in Hk'; [done|]. by intros ->.
  - assert (x = Internal) as -> by (destruct c, (changes d !! k) as [[]|]; by simplify_eq/=).
    split; [done|]. exists k. split; [by left|]. unfold combine_at. by rewrite Hc.
Qed.

(** A merge combines the changes of every key, or fails when those of some key do not combine. *)
Lemma merge_spec d other :
  delta_ok d -> delta_ok other ->
  match merge d other with
  | Ok d' => delta_ok d' /\ ledger_seq d' = ledger_seq d /\
      fee_pool_delta d' = as_i64 (fee_pool_delta d + fee_pool_delta other) /\
      total_coins_delta d' = as_i64 (total_coins_delta d + total_coins_delta other) /\
      forall k, combine_at other d k = Ok (changes d' !! k)
  | Err x => x = Internal /\ exists k, combine_at other d k = Err Internal
  end.
Proof.
  intros Hd Ho. unfold merge.
  assert (Forall (fun k => is_Some (changes other !! k)) (change_order other)) as Hks
    by (apply Forall_forall; intros k; apply (ok_order _ Ho)).
  pose proof (merge_fold other (change_order other) d Hd Ho (ok_nodup _ Ho) Hks) as Hm.
  destruct (try_fold _ _ d) as [d1|x]; [|destruct Hm as (? & k & _ & Hk); split; [done|by exists k]].
  destruct Hm as ([Hnd Hord Hkeyed] & (Hs & Hf & Ht) & Hk). cbn [result_bind].
  split; [by split|]. simpl. rewrite Hs, Hf, Ht. split; [done|]. split; [done|]. split; [done|].
  intros k. specialize (Hk k). destruct (decide (k ∈ change_order other)) as [|Hnin]; [done|].
  unfold combine_at. rewrite Hk. destruct (changes other !! k) eqn:E; [|done].
  exfalso. apply Hnin, (ok_order _ Ho). by eexists.
Qed.
End facts.
