(* ===== verification/DeltaRefinement.v ===== *)
(** * DeltaRefinement: merging, metadata and draining of deltas

    The properties of the delta over the ledger it is made on: what is recorded is
    what it shows, merges compose, those of parallel clusters commute, metadata
    replays. *)


From S2P Require Import Prelude Amounts Ledger Snapshot SnapshotFacts Delta DeltaFacts.

Section refinement.
Context `{XdrTypes}.
Implicit Types (d : LedgerDelta) (m : ledger_map) (k : LedgerKey) (e : LedgerEntry) (c : EntryChange).

(** ** Merging a delta into the one it was made on *)

Definition extends_all d : Prop := forall k p e, changes d !! k = Some (Updated p e) -> extends p e.

Lemma combine_composes d other m k :
  delta_of d m -> delta_of other (overlay d m) -> extends_all other ->
  exists oc, combine_at other d k = Ok oc /\
    match oc with Some c => current_entry c | None => m k end = overlay other (overlay d m) k /\
    forall c, oc = Some c -> previous_entry c = m k.
Proof.
  intros [Hd Hdc] [Ho Hoc] Hx. unfold combine_at. pose proof (Hoc k) as Hk. pose proof (Hdc k) as Hk0.
  unfold overlay in *. destruct (changes other !! k) as [c|] eqn:Hc.
  - specialize (Hk c eq_refl). destruct (changes d !! k) as [c0|] eqn:Hc0; [specialize (Hk0 c0 eq_refl)|].
    + destruct c as [x|p x|p], c0 as [y|q y|q]; simplify_eq/=; eexists; (split; [done|]); simpl;
        rewrite ?(extends_later _ _ (Hx _ _ _ Hc)); (split; [done|]); by intros ? [= <-].
    + exists (Some c). split; [by destruct c|]. split; [done|]. by intros ? [= <-].
  - exists (changes d !! k). split; [done|]. by destruct (changes d !! k).
Qed.

(** ** Merging the deltas of parallel clusters *)

(** Two clusters may both extend a lifetime or both delete an entry. Lifetimes of
    the same length are the same. *)
Definition both_may c c' : Prop :=
  match c, c' with
  | Deleted _, Deleted _ => True
  | Updated _ e, Updated _ e' => is_Some (as_ttl e) /\ is_Some (as_ttl e') /\ (as_ttl e = as_ttl e' -> e = e')
  | _, _ => False
  end.
Definition parallel d d' : Prop :=
  forall k c c', changes d !! k = Some c -> changes d' !! k = Some c' -> both_may c c'.

(** Deltas with the same changes, apart from their order. *)
Definition same_changes d d' : Prop :=
  changes d = changes d' /\ ledger_seq d = ledger_seq d' /\ fee_pool_delta d = fee_pool_delta d' /\
  total_coins_delta d = total_coins_delta d'.

Lemma later_version_max e e' a b :
  as_ttl e = Some a -> as_ttl e' = Some b -> as_ttl (later_version e e') = Some (Z.max a b).
Proof.
  intros Ha Hb. unfold later_version. rewrite Ha, Hb. destruct (Z.ltb_spec a b); rewrite ?Ha, ?Hb; f_equal; lia.
Qed.

Lemma later_version_or e e' : later_version e e' = e \/ later_version e e' = e'.
Proof. unfold later_version. repeat case_match; auto. Qed.

Lemma later_version_comm x e e' :
  is_Some (as_ttl x) -> is_Some (as_ttl e) -> is_Some (as_ttl e') -> (as_ttl e = as_ttl e' -> e = e') ->
  later_version (later_version x e) e' = later_version (later_version x e') e.
Proof.
  intros [a Ha] [b Hb] [c Hc] Heq. rewrite Hb, Hc in Heq. unfold later_version. rewrite Ha, Hb, Hc.
  destruct (Z.ltb_spec a b), (Z.ltb_spec a c); rewrite ?Ha, ?Hb, ?Hc;
    repeat match goal with |- context [?u <? ?v] => destruct (Z.ltb_spec u v) end; try lia; try done;
    first [apply Heq; f_equal; lia|symmetry; apply Heq; f_equal; lia].
Qed.

Lemma later_version_swap e e' :
  is_Some (as_ttl e) -> is_Some (as_ttl e') -> (as_ttl e = as_ttl e' -> e = e') -> later_version e e' = later_version e' e.
Proof.
  intros [b Hb] [c Hc] Heq. rewrite Hb, Hc in Heq. unfold later_version. rewrite Hb, Hc.
  destruct (Z.ltb_spec b c), (Z.ltb_spec c b); try lia; try done. apply Heq. f_equal. lia.
Qed.

(** The changes of parallel deltas of one ledger always combine. *)
Lemma combine_parallel c o m k :
  previous_entry c = m k -> (forall c0, o = Some c0 -> previous_entry c0 = m k /\ both_may c0 c) ->
  exists c', combine c o = Ok (Some c') /\ previous_entry c' = m k /\
    forall c1, both_may c c1 -> (forall c0, o = Some c0 -> both_may c0 c1) -> both_may c' c1.
Proof.
  intros Hc Ho. destruct o as [c0|].
  - destruct (Ho c0 eq_refl) as [Hp Hm]. destruct c as [x|p x|p], c0 as [y|q y|q]; try done; simplify_eq/=;
      eexists; (split; [done|]); (split; [done|]); intros c1 H1 H0; [|by apply H0].
    specialize (H0 _ eq_refl). destruct (later_version_or y x) as [-> | ->]; done.
  - exists c. split; [by destruct c|]. split; [done|]. by intros c1 H1 _.
Qed.

(** Merging a delta parallel to two others. *)
Lemma merge_parallel d other m :
  delta_of d m -> delta_of other m -> parallel d other ->
  exists d', merge d other = Ok d' /\ delta_of d' m /\
    (forall k, combine_at other d k = Ok (changes d' !! k)) /\
    forall d1, parallel d d1 -> parallel other d1 -> parallel d' d1.
Proof.
  intros [Hd Hdc] [Ho Hoc] Hpar. pose proof (merge_spec d other Hd Ho) as Hm.
  assert (forall k c, changes other !! k = Some c -> exists c', combine_at other d k = Ok (Some c') /\ previous_entry c' = m k /\
    forall c1, both_may c c1 -> (forall c0, changes d !! k = Some c0 -> both_may c0 c1) -> both_may c' c1) as Hcomb.
  { intros k c Hc. unfold combine_at. rewrite Hc. apply combine_parallel; [by apply Hoc|].
    intros c0 Hc0. split; [by apply Hdc|]. by apply (Hpar k). }
  destruct (merge d other) as [d'|x].
  - destruct Hm as (Hd' & _ & _ & _ & Hk). exists d'. split; [done|]. split; [split; [done|]|split; [done|]].
    + intros k c Hc. specialize (Hk k). rewrite Hc in Hk. destruct (changes other !! k) as [c0|] eqn:Hc0.
      * destruct (Hcomb k c0 Hc0) as (c' & E & Hp & _). rewrite E in Hk. by injection Hk as ->.
      * unfold combine_at in Hk. rewrite Hc0 in Hk. apply Hdc. by injection Hk.
    + intros d1 H1 H2 k c c1 Hc Hc1. specialize (Hk k). rewrite Hc in Hk. destruct (changes other !! k) as [c0|] eqn:Hc0.
      * destruct (Hcomb k c0 Hc0) as (c' & E & _ & Hmay). rewrite E in Hk. injection Hk as ->.
        apply Hmay; [by apply (H2 k)|]. intros c2 Hc2. by apply (H1 k).
      * unfold combine_at in Hk. rewrite Hc0 in Hk. apply (H1 k); [by injection Hk|done].
  - destruct Hm as (_ & k & Hk). destruct (changes other !! k) as [c0|] eqn:Hc0.
    + destruct (Hcomb k c0 Hc0) as (c' & E & _). by rewrite E in Hk.
    + unfold combine_at in Hk. by rewrite Hc0 in Hk.
Qed.

(** *** Any order *)

Definition merge_all d (ds : list LedgerDelta) : result LedgerDelta LedgerError := try_fold merge ds d.

Lemma both_may_sym c c' : both_may c c' -> both_may c' c.
Proof. destruct c, c'; try done. simpl. intros (? & ? & Heq). split; [done|]. split; [done|]. intros E. symmetry. by apply Heq. Qed.

Lemma parallel_sym d d' : parallel d d' -> parallel d' d.
Proof. intros Hp k c c' Hc Hc'. apply both_may_sym. by apply (Hp k). Qed.

Fixpoint pairwise_parallel (ds : list LedgerDelta) : Prop :=
  match ds with
  | [] => True
  | d :: ds => Forall (parallel d) ds /\ pairwise_parallel ds
  end.

Lemma pairwise_parallel_perm ds ds' : Permutation ds ds' -> pairwise_parallel ds -> pairwise_parallel ds'.
Proof.
  induction 1 as [|d ds ds' Hp IH|d d' ds|]; [done| | |by auto].
  - intros [Hd Hds]. split; [by rewrite <- Hp|by apply IH].
  - intros [[Hdd Hd]%Forall_cons [Hd' Hds]]. split; [apply Forall_cons; split; [by apply parallel_sym|done]|by split].
Qed.

Lemma as_i64_add a b : as_i64 (as_i64 a + b) = as_i64 (a + b).
Proof.
  unfold as_i64, as_signed. set (p := 2 ^ 64). set (h := 2 ^ (64 - 1)). f_equal.
  replace ((a + h) mod p - h + b + h) with ((a + h) mod p + b) by lia.
  rewrite Zplus_mod_idemp_l. f_equal. lia.
Qed.

Lemma combine_at_same other d d' k : changes d = changes d' -> combine_at other d k = combine_at other d' k.
Proof. intros E. unfold combine_at. by rewrite E. Qed.

(** The totals of a merge. *)
Lemma merge_totals d other d' :
  delta_ok d -> delta_ok other -> merge d other = Ok d' ->
  ledger_seq d' = ledger_seq d /\ fee_pool_delta d' = as_i64 (fee_pool_delta d + fee_pool_delta other) /\
  total_coins_delta d' = as_i64 (total_coins_delta d + total_coins_delta other).
Proof. intros Hd Ho Hm. pose proof (merge_spec d other Hd Ho) as Hs. rewrite Hm in Hs. tauto. Qed.

(** One merge, from deltas with the same changes. *)
Lemma merge_same d1 d2 other m :
  delta_of d1 m -> delta_of d2 m -> same_changes d1 d2 -> delta_of other m -> parallel d1 other ->
  exists r1 r2, merge d1 other = Ok r1 /\ merge d2 other = Ok r2 /\ delta_of r1 m /\ delta_of r2 m /\ same_changes r1 r2 /\
    forall d, parallel d1 d -> parallel other d -> parallel r1 d.
Proof.
  intros H1 H2 (Hc & Hs & Hf & Ht) Ho Hp.
  assert (parallel d2 other) as Hp2 by (unfold parallel; by rewrite <- Hc).
  destruct (merge_parallel d1 other m H1 Ho Hp) as (r1 & Hr1 & Hm1 & Hk1 & Hq).
  destruct (merge_parallel d2 other m H2 Ho Hp2) as (r2 & Hr2 & Hm2 & Hk2 & _).
  exists r1, r2. do 4 (split; [done|]). split; [|done].
  destruct (merge_totals d1 other r1) as (Hs1 & Hf1 & Ht1); [apply H1|apply Ho|done|].
  destruct (merge_totals d2 other r2) as (Hs2 & Hf2 & Ht2); [apply H2|apply Ho|done|].
  split; [|by rewrite Hs1, Hs2, Hf1, Hf2, Ht1, Ht2, Hs, Hf, Ht].
  apply map_eq. intros k. specialize (Hk1 k). specialize (Hk2 k). rewrite (combine_at_same other d1 d2) in Hk1 by done.
  congruence.
Qed.

(** Two merges in either order. *)
Lemma combine_swap d a b ra rb rab rba m k :
  delta_of d m -> delta_of a m -> delta_of b m -> parallel d a -> parallel d b -> parallel a b ->
  combine_at a d k = Ok (changes ra !! k) -> combine_at b ra k = Ok (changes rab !! k) ->
  combine_at b d k = Ok (changes rb !! k) -> combine_at a rb k = Ok (changes rba !! k) ->
  changes rab !! k = changes rba !! k.
Proof.
  intros [_ Hd] [_ Ha] [_ Hb] Hda Hdb Hab. unfold combine_at.
  specialize (Hd k). specialize (Ha k). specialize (Hb k). specialize (Hda k). specialize (Hdb k). specialize (Hab k).
  destruct (changes a !! k) as [ca|] eqn:Eca, (changes b !! k) as [cb|] eqn:Ecb; try congruence.
  specialize (Ha ca eq_refl). specialize (Hb cb eq_refl). specialize (Hab ca cb eq_refl eq_refl).
  destruct (changes d !! k) as [c|] eqn:Ec.
  - specialize (Hd c eq_refl). specialize (Hda c ca eq_refl eq_refl). specialize (Hdb c cb eq_refl eq_refl).
    destruct c as [x|p x|p], ca as [xa|pa xa|pa], cb as [xb|pb xb|pb]; try done; simpl in *.
    + intros [= E1] E2 [= E3] E4. rewrite <- E1 in E2. rewrite <- E3 in E4. injection E2 as <-. injection E4 as <-.
      f_equal. f_equal. destruct Hda as (? & ? & _), Hab as (? & ? & ?). by apply later_version_comm.
    + intros [= E1] E2 [= E3] E4. rewrite <- E1 in E2. rewrite <- E3 in E4. congruence.
  - destruct ca as [xa|pa xa|pa], cb as [xb|pb xb|pb]; try done; simpl in *;
      intros [= E1] E2 [= E3] E4; rewrite <- E1 in E2; rewrite <- E3 in E4; injection E2 as <-; injection E4 as <-.
    + f_equal. f_equal; [congruence|]. destruct Hab as (? & ? & ?). by apply later_version_swap.
    + congruence.
Qed.

Lemma merge_swap d a b m :
  delta_of d m -> delta_of a m -> delta_of b m -> parallel d a -> parallel d b -> parallel a b ->
  exists ra rb rab rba, merge d a = Ok ra /\ merge ra b = Ok rab /\ merge d b = Ok rb /\ merge rb a = Ok rba /\
    delta_of rab m /\ delta_of rba m /\ same_changes rab rba /\
    forall x, parallel d x -> parallel a x -> parallel b x -> parallel rab x.
Proof.
  intros Hd Ha Hb Hda Hdb Hab.
  destruct (merge_parallel d a m Hd Ha Hda) as (ra & Hra & Hma & Hka & Hqa).
  destruct (merge_parallel ra b m Hma Hb (Hqa b Hdb Hab)) as (rab & Hrab & Hmab & Hkab & Hqab).
  destruct (merge_parallel d b m Hd Hb Hdb) as (rb & Hrb & Hmb & Hkb & Hqb).
  destruct (merge_parallel rb a m Hmb Ha (Hqb a Hda (parallel_sym a b Hab))) as (rba & Hrba & Hmba & Hkba & Hqba).
  exists ra, rb, rab, rba. do 6 (split; [done|]). split; [split|intros x ???; apply Hqab; [by apply Hqa|done]].
  - apply map_eq. intros k. by apply (combine_swap d a b ra rb rab rba m).
  - destruct (merge_totals d a ra) as (Hs1 & Hf1 & Ht1); [apply Hd|apply Ha|done|].
    destruct (merge_totals ra b rab) as (Hs2 & Hf2 & Ht2); [apply Hma|apply Hb|done|].
    destruct (merge_totals d b rb) as (Hs3 & Hf3 & Ht3); [apply Hd|apply Hb|done|].
    destruct (merge_totals rb a rba) as (Hs4 & Hf4 & Ht4); [apply Hmb|apply Ha|done|].
    rewrite Hs2, Hs4, Hs1, Hs3, Hf2, Hf4, Hf1, Hf3, Ht2, Ht4, Ht1, Ht3, !as_i64_add.
    split; [done|]. split; f_equal; lia.
Qed.

Lemma merge_all_same ds d1 d2 m :
  delta_of d1 m -> delta_of d2 m -> same_changes d1 d2 -> Forall (fun d => delta_of d m) ds ->
  pairwise_parallel (d1 :: ds) ->
  exists r1 r2, merge_all d1 ds = Ok r1 /\ merge_all d2 ds = Ok r2 /\ delta_of r1 m /\ delta_of r2 m /\ same_changes r1 r2.
Proof.
  revert d1 d2. induction ds as [|x ds IH]; intros d1 d2 H1 H2 Hs Hds Hp; [by exists d1, d2|].
  destruct Hp as [[Hx Hd1]%Forall_cons [Hxds Hpw]]. apply Forall_cons in Hds as [Hxm Hds].
  destruct (merge_same d1 d2 x m H1 H2 Hs Hxm Hx) as (a1 & a2 & Ha1 & Ha2 & Hm1 & Hm2 & Hsa & Hq).
  destruct (IH a1 a2 Hm1 Hm2 Hsa Hds) as (r1 & r2 & Hr1 & Hr2 & Hrest).
  { split; [|done]. rewrite Forall_forall in *. auto. }
  exists r1, r2. unfold merge_all in *. cbn [try_fold]. rewrite Ha1, Ha2. done.
Qed.

Lemma same_changes_refl d : same_changes d d.
Proof. done. Qed.

Lemma same_changes_trans d1 d2 d3 : same_changes d1 d2 -> same_changes d2 d3 -> same_changes d1 d3.
Proof. intros (? & ? & ? & ?) (? & ? & ? & ?). split; [congruence|]. split; [congruence|]. split; congruence. Qed.

Lemma merge_all_perm ds ds' m :
  Permutation ds ds' ->
  forall d, delta_of d m -> Forall (fun d => delta_of d m) ds -> pairwise_parallel (d :: ds) ->
  exists r1 r2, merge_all d ds = Ok r1 /\ merge_all d ds' = Ok r2 /\ delta_of r1 m /\ delta_of r2 m /\ same_changes r1 r2.
Proof.
  induction 1 as [|x ds ds' Hp IH|x y ds|ds1 ds2 ds3 Hp1 IH1 Hp2 IH2]; intros d Hd Hds Hpar.
  - by exists d, d.
  - destruct Hpar as [[Hx Hdp]%Forall_cons [Hxds Hpw]]. apply Forall_cons in Hds as [Hxm Hds].
    destruct (merge_parallel d x m Hd Hxm Hx) as (a & Ha & Hma & _ & Hq).
    destruct (IH a Hma Hds) as (r1 & r2 & Hr).
    { split; [|done]. rewrite Forall_forall in *. auto. }
    exists r1, r2. unfold merge_all in *. cbn [try_fold]. by rewrite Ha.
  - destruct Hpar as [[Hy [Hx Hdp]%Forall_cons]%Forall_cons [[Hyx Hyds]%Forall_cons [Hxds Hpw]]].
    apply Forall_cons in Hds as [Hym [Hxm Hds]%Forall_cons].
    destruct (merge_swap d y x m Hd Hym Hxm Hy Hx Hyx) as (ry & rx & ryx & rxy & E1 & E2 & E3 & E4 & Hm1 & Hm2 & Hs & Hq).
    destruct (merge_all_same ds ryx rxy m Hm1 Hm2 Hs Hds) as (r1 & r2 & Hr).
    { split; [|done]. rewrite Forall_forall in *. auto. }
    exists r1, r2. unfold merge_all in *. cbn [try_fold]. by rewrite E1, E2, E3, E4.
  - destruct (IH1 d Hd Hds Hpar) as (r1 & r2 & H1 & H2 & Hm1 & Hm2 & Hs12).
    destruct (IH2 d Hd) as (r2' & r3 & H2' & H3 & _ & Hm3 & Hs23); [by rewrite <- Hp1| |].
    { apply (pairwise_parallel_perm (d :: ds1)); [by apply Permutation_skip|done]. }
    exists r1, r3. rewrite H2 in H2'. injection H2' as <-. do 4 (split; [done|]). by apply (same_changes_trans _ r2).
Qed.

(** *** What is left *)

Definition lifetime e : Z := default 0 (as_ttl e).

(** The change is at least as late as the other. *)
Definition outlives c c' : Prop :=
  match current_entry c, current_entry c' with
  | Some e, Some e' => lifetime e' <= lifetime e
  | None, None => True
  | _, _ => False
  end.

(** The change of a key is one of those of the deltas, the latest of them. *)
Definition latest_of (ds : list LedgerDelta) k (oc : option EntryChange) : Prop :=
  match oc with
  | Some c =>
      (exists d c', d ∈ ds /\ changes d !! k = Some c' /\ current_entry c' = current_entry c) /\
      forall d c', d ∈ ds -> changes d !! k = Some c' -> outlives c c'
  | None => forall d, d ∈ ds -> changes d !! k = None
  end.

Lemma outlives_refl c : outlives c c.
Proof. unfold outlives. destruct (current_entry c); [lia|done]. Qed.

Lemma outlives_trans c c' c'' : outlives c c' -> outlives c' c'' -> outlives c c''.
Proof. unfold outlives. destruct (current_entry c), (current_entry c'), (current_entry c''); try done. lia. Qed.

(** Two parallel changes combine to the later. *)
Lemma combine_latest c c0 c' :
  both_may c0 c -> combine c (Some c0) = Ok (Some c') ->
  (current_entry c' = current_entry c \/ current_entry c' = current_entry c0) /\ outlives c' c /\ outlives c' c0.
Proof.
  destruct c as [x|p x|p], c0 as [y|q y|q]; try done; simpl.
  - intros ([a Ha] & [b Hb] & _) [= <-]. unfold outlives. simpl.
    split; [destruct (later_version_or y x) as [-> | ->]; auto|].
    unfold lifetime. rewrite (later_version_max _ _ _ _ Ha Hb), Ha, Hb. simpl. lia.
  - intros _ [= <-]. by split; [left|].
Qed.

(** One merge keeps the latest. *)
Lemma merge_latest d x a ds k oc :
  (forall cd cx, changes d !! k = Some cd -> changes x !! k = Some cx -> both_may cd cx) ->
  combine_at x d k = Ok (changes a !! k) -> latest_of (a :: ds) k oc -> latest_of (d :: x :: ds) k oc.
Proof.
  intros Hmay Hka Hlat. unfold latest_of in *.
  (* what [a] has is that of [d] or [x], and as late as both *)
  assert ((changes a !! k = None -> changes d !! k = None /\ changes x !! k = None) /\
    forall ca, changes a !! k = Some ca ->
      (exists d' c', d' ∈ [d; x] /\ changes d' !! k = Some c' /\ current_entry c' = current_entry ca) /\
      forall d' c', d' ∈ [d; x] -> changes d' !! k = Some c' -> outlives ca c') as [Hnone Hsome].
  { unfold combine_at in Hka.
    destruct (changes x !! k) as [cx|] eqn:Hx; [destruct (changes d !! k) as [cd|] eqn:Hd|].
    - specialize (Hmay cd cx eq_refl eq_refl). split; [intros Hn; rewrite Hn in Hka; by destruct cx, cd|].
      intros ca Hca. rewrite Hca in Hka. destruct (combine_latest _ _ _ Hmay Hka) as (Hcur & Ho1 & Ho2). split.
      + destruct Hcur as [E|E]; [exists x, cx|exists d, cd]; (split; [set_solver|]); by split.
      + intros d' c' Hin. rewrite elem_of_cons, list_elem_of_singleton in Hin.
        destruct Hin as [-> | ->]; rewrite ?Hx, ?Hd; by intros [= <-].
    - assert (changes a !! k = Some cx) as Hca by (destruct cx; simpl in Hka; by injection Hka).
      rewrite Hca. split; [done|]. intros ca [= <-]. split; [exists x, cx; split; [set_solver|done]|].
      intros d' c' Hin. rewrite elem_of_cons, list_elem_of_singleton in Hin.
      destruct Hin as [-> | ->]; rewrite ?Hx, ?Hd; [done|]. intros [= <-]. apply outlives_refl.
    - injection Hka as Hka. rewrite <- Hka. split; [done|]. intros ca Hca. split; [exists d, ca; split; [set_solver|done]|].
      intros d' c' Hin. rewrite elem_of_cons, list_elem_of_singleton in Hin.
      destruct Hin as [-> | ->]; rewrite ?Hx, ?Hca; [|done]. intros [= <-]. apply outlives_refl. }
  assert (forall d', d' ∈ d :: x :: ds <-> d' ∈ [d; x] \/ d' ∈ ds) as Hin by (intros d'; set_solver).
  destruct oc as [c|].
  - destruct Hlat as [(d' & c' & Hin' & Hc' & Hcc) Hlat]. split.
    + apply elem_of_cons in Hin' as [-> |Hin']; [|exists d', c'; split; [set_solver|done]].
      destruct (Hsome c' Hc') as [(d'' & c'' & Hin'' & Hc'' & E) _]. exists d'', c''.
      split; [apply Hin; by left|]. split; [done|congruence].
    + intros d'' c'' [Hin''|Hin'']%Hin Hc''; [|by apply (Hlat d''); [right|]].
      destruct (changes a !! k) as [ca|] eqn:Hca.
      * apply (outlives_trans _ ca); [by apply (Hlat a); [left|]|]. by eapply Hsome.
      * destruct (Hnone eq_refl) as [E1 E2]. rewrite elem_of_cons, list_elem_of_singleton in Hin''.
        destruct Hin'' as [-> | ->]; congruence.
  - intros d'' [Hin''|Hin'']%Hin; [|apply Hlat; by right].
    destruct (Hnone (Hlat a (list_elem_of_here _ _))) as [E1 E2].
    rewrite elem_of_cons, list_elem_of_singleton in Hin''. by destruct Hin'' as [-> | ->].
Qed.

Lemma merge_all_latest ds d m :
  delta_of d m -> Forall (fun d => delta_of d m) ds -> pairwise_parallel (d :: ds) ->
  exists r, merge_all d ds = Ok r /\ delta_of r m /\ forall k, latest_of (d :: ds) k (changes r !! k).
Proof.
  revert d. induction ds as [|x ds IH]; intros d Hd Hds Hp.
  { exists d. split; [done|]. split; [done|]. intros k. unfold latest_of. destruct (changes d !! k) as [c|] eqn:Hc.
    - split; [exists d, c; split; [by left|done]|]. intros d' c' ->%list_elem_of_singleton Hc'. rewrite Hc in Hc'.
      injection Hc' as <-. apply outlives_refl.
    - by intros d' ->%list_elem_of_singleton. }
  destruct Hp as [[Hx Hdp]%Forall_cons [Hxds Hpw]]. apply Forall_cons in Hds as [Hxm Hds].
  destruct (merge_parallel d x m Hd Hxm Hx) as (a & Ha & Hma & Hka & Hq).
  destruct (IH a Hma Hds) as (r & Hr & Hmr & Hlat).
  { split; [|done]. rewrite Forall_forall in *. auto. }
  exists r. unfold merge_all in *. cbn [try_fold]. rewrite Ha. split; [done|]. split; [done|].
  intros k. apply (merge_latest d x a); [apply Hx|apply Hka|apply Hlat].
Qed.

(** ** Validity by evaluation *)

Definition extends_b e e' : bool :=
  match as_ttl e, as_ttl e' with Some a, Some b => (a <? b) || bool_decide (e = e') | _, _ => true end.

Lemma extends_b_sound e e' : extends_b e e' = true -> extends e e'.
Proof.
  unfold extends_b. intros Hb a b Ha Hb'. rewrite Ha, Hb' in Hb.
  apply orb_true_iff in Hb as [?%Z.ltb_lt|?%bool_decide_eq_true]; [by left|by right].
Qed.

Definition op_valid_b m (op : change_op) : bool :=
  match op with
  | CreateOp e => bool_decide (m (entry_to_key e) = None)
  | UpdateOp p e => bool_decide (m (entry_to_key e) = Some p) && extends_b p e
  | DeleteOp e => bool_decide (m (entry_to_key e) = Some e) && negb (is_config_setting e)
  end.
Fixpoint ops_valid_b m (ops : list change_op) : bool :=
  match ops with
  | [] => true
  | op :: ops => op_valid_b m op && ops_valid_b (apply_op m op) ops
  end.

Lemma ops_valid_check m ops : ops_valid_b m ops = true -> ops_valid m ops.
Proof.
  revert m. induction ops as [|op ops IH]; [done|]. intros m. simpl. intros [Hv Hvs]%andb_true_iff. split; [|by apply IH].
  destruct op as [e|p e|e]; simpl in *.
  - by apply bool_decide_eq_true in Hv.
  - apply andb_true_iff in Hv as [Hv%bool_decide_eq_true Hx]. split; [done|by apply extends_b_sound].
  - apply andb_true_iff in Hv as [Hv%bool_decide_eq_true Hx]. split; [done|by apply negb_true_iff].
Qed.

(** ** Properties *)

(** C27: A delta is the difference between two ledgers. Whatever sequence of creations,
    updates and deletions is recorded, each valid for the ledger as the earlier ones
    left it, recording succeeds and leaves at most one change per key, in a list
    without repetition, whose previous entry is that of the ledger before and whose
    current entry is that of the ledger after; keys without a change, among them
    those created and deleted again, have the same entry in both. *)
Theorem record_changes_correct seq m ops :
  keyed_ledger m -> ops_valid m ops ->
  exists d, try_fold run_op ops (LedgerDelta_new seq) = Ok d /\ NoDup (change_order d) /\
    (forall k, k ∈ change_order d <-> is_Some (changes d !! k)) /\
    (forall k c, changes d !! k = Some c -> change_key c = k /\ previous_entry c = m k /\ current_entry c = fold_left apply_op ops m k) /\
    (forall k, changes d !! k = None -> fold_left apply_op ops m k = m k).
Proof.
  intros Hm Hv. destruct (run_ops_refines (LedgerDelta_new seq) m ops Hm) as (d & Hr & [Hd Hdc] & _ & Hov).
  { split; [apply new_ok|apply new_consistent]. }
  { eapply ops_valid_ext; [|done]. intros k. by rewrite new_overlay. }
  assert (forall k, overlay d m k = fold_left apply_op ops m k) as Hov'.
  { intros k. rewrite Hov. apply apply_ops_ext. intros k'. apply new_overlay. }
  exists d. split; [done|]. split; [apply (ok_nodup _ Hd)|]. split; [apply (ok_order _ Hd)|].
  split; intros k; specialize (Hov' k); unfold overlay in Hov'.
  - intros c Hc. rewrite Hc in Hov'. split; [|split; [by apply Hdc|done]].
    destruct c; apply (ok_keyed _ Hd _ _ Hc); (by left) || (by right).
  - intros Hc. by rewrite Hc in Hov'.
Qed.

(** Merging the delta of a later stage, made over what the earlier one shows, always
    succeeds and composes the two: the merged delta is one of the first ledger and
    shows what the later delta shows; the totals add up. *)
Theorem merge_composes d other m :
  delta_of d m -> delta_of other (overlay d m) -> extends_all other ->
  exists d', merge d other = Ok d' /\ delta_of d' m /\
    (forall k, overlay d' m k = overlay other (overlay d m) k) /\
    fee_pool_delta d' = as_i64 (fee_pool_delta d + fee_pool_delta other) /\
    total_coins_delta d' = as_i64 (total_coins_delta d + total_coins_delta other).
Proof.
  intros Hdm Hom Hx. pose proof (merge_spec d other (proj1 Hdm) (proj1 Hom)) as Hs.
  destruct (merge d other) as [d'|x].
  - destruct Hs as (Hd' & _ & Hf & Ht & Hk). exists d'. split; [done|].
    assert (forall k, overlay d' m k = overlay other (overlay d m) k /\ forall c, changes d' !! k = Some c -> previous_entry c = m k) as Hboth.
    { intros k. destruct (combine_composes d other m k Hdm Hom Hx) as (oc & E & Hcur & Hprev).
      rewrite Hk in E. injection E as <-. split; [done|]. intros c Hc. by apply Hprev. }
    split; [split; [done|]|split; [|done]].
    + intros k c. by apply Hboth.
    + intros k. by apply Hboth.
  - destruct Hs as (_ & k & Hk). destruct (combine_composes d other m k Hdm Hom Hx) as (oc & E & _). by rewrite E in Hk.
Qed.

(** C21: The deltas of clusters that ran in parallel over the same ledger, which only ever
    both extend a lifetime or both delete an entry, merge in any order to the same
    changes and totals; every change left is one of theirs, with the longest of the
    lifetimes, and none is lost. *)
Theorem parallel_merge_order_irrelevant d ds ds' m :
  delta_of d m -> Forall (fun d => delta_of d m) ds -> pairwise_parallel (d :: ds) -> Permutation ds ds' ->
  exists r r', merge_all d ds = Ok r /\ merge_all d ds' = Ok r' /\ same_changes r r' /\ delta_of r m /\
    forall k, latest_of (d :: ds) k (changes r !! k).
Proof.
  intros Hd Hds Hp Hperm. destruct (merge_all_perm ds ds' m Hperm d Hd Hds Hp) as (r & r' & Hr & Hr' & Hm & _ & Hs).
  destruct (merge_all_latest ds d m Hd Hds Hp) as (r0 & Hr0 & _ & Hl). rewrite Hr in Hr0. injection Hr0 as <-.
  by exists r, r'.
Qed.

(** The changes of a key that do not merge: a creation over an update, an update over
    a deletion. *)
Definition conflict d other k : Prop :=
  match changes d !! k, changes other !! k with
  | Some (Updated _ _), Some (Created _) => True
  | Some (Deleted _), Some (Updated _ _) => True
  | _, _ => False
  end.

(** C33: Recording into a well-formed delta never fails, except for the deletion of a
    setting, which is refused; merging two well-formed deltas fails exactly when some
    key was updated before and is created, or deleted before and is updated. *)
Theorem delta_errors_exact d other p e :
  delta_ok d -> delta_ok other ->
  is_ok (record_create e d) = true /\ is_ok (record_update p e d) = true /\
  (record_delete e d = Err InvalidEntry <-> is_config_setting e = true) /\
  (is_config_setting e = false -> is_ok (record_delete e d) = true) /\
  (merge d other = Err Internal <-> exists k, conflict d other k) /\
  ((forall k, ~ conflict d other k) -> is_ok (merge d other) = true).
Proof.
  intros Hd Ho. rewrite record_create_eq, record_update_eq, record_delete_eq by done.
  split; [done|]. split; [done|]. split; [by destruct (is_config_setting e)|]. split; [by intros ->|].
  assert (forall k, combine_at other d k = Err Internal <-> conflict d other k) as Hconf.
  { intros k. unfold combine_at, conflict. by destruct (changes other !! k) as [[]|], (changes d !! k) as [[]|]. }
  pose proof (merge_spec d other Hd Ho) as Hs. destruct (merge d other) as [d'|x].
  - destruct Hs as (_ & _ & _ & _ & Hk). split; [|done]. split; [done|]. intros (k & Hc%Hconf). by rewrite Hk in Hc.
  - destruct Hs as (-> & k & Hk%Hconf). split; [split; [intros _; by exists k|done]|]. intros Hn. by destruct (Hn k).
Qed.
End refinement.

Section witnesses.
#[local] Existing Instance demo_types.

(** A ledger of two accounts and a lifetime, and changes of it. *)
Definition demo_ttl (h live_until : Z) : LedgerEntry := MkEntry 5 (Ttl (h : Hash) live_until) (0 : Payload).
Definition ttl_ledger : ledger_map := fun k =>
  match k with
  | KeyTtl h => if bool_decide ((h : Z) = 9) then Some (demo_ttl 9 50) else None
  | _ => demo_ledger k
  end.

Lemma ttl_ledger_keyed : keyed_ledger ttl_ledger.
Proof.
  intros [id| | | | | | | | |h] e Hk; [exact (demo_ledger_keyed _ _ Hk)..|].
  simpl in Hk. case_bool_decide as E; [|done]. injection Hk as <-. by rewrite E.
Qed.

(** Account 3 is created, updated and deleted; account 1 updated twice; 2 deleted and
    created again; the lifetime extended. *)
Definition demo_ops : list change_op :=
  [CreateOp (demo_account 3 7 6); UpdateOp (demo_account 1 100 5) (demo_account 1 90 6);
   UpdateOp (demo_account 3 7 6) (demo_account 3 8 6); DeleteOp (demo_account 2 50 3);
   UpdateOp (demo_account 1 90 6) (demo_account 1 80 6); DeleteOp (demo_account 3 8 6);
   CreateOp (demo_account 2 60 6); UpdateOp (demo_ttl 9 50) (demo_ttl 9 70)].

Lemma demo_ops_valid : ops_valid ttl_ledger demo_ops.
Proof. apply ops_valid_check. by vm_compute. Qed.

Lemma record_changes_correct_witness :
  exists d, try_fold run_op demo_ops (LedgerDelta_new 6) = Ok d /\ NoDup (change_order d) /\
    (forall k, k ∈ change_order d <-> is_Some (changes d !! k)) /\
    (forall k c, changes d !! k = Some c -> change_key c = k /\ previous_entry c = ttl_ledger k /\
      current_entry c = fold_left apply_op demo_ops ttl_ledger k) /\
    (forall k, changes d !! k = None -> fold_left apply_op demo_ops ttl_ledger k = ttl_ledger k).
Proof. exact (record_changes_correct 6 ttl_ledger demo_ops ttl_ledger_keyed demo_ops_valid). Defined.

(** The delta that operations leave, in ledger 6. *)
Definition delta_after (ops : list change_op) : LedgerDelta :=
  match try_fold run_op ops (LedgerDelta_new 6) with Ok d => d | Err _ => LedgerDelta_new 6 end.

Lemma delta_after_of m ops : keyed_ledger m -> ops_valid m ops -> delta_of (delta_after ops) m.
Proof.
  intros Hm Hv. destruct (run_ops_refines (LedgerDelta_new 6) m ops Hm) as (d & Hr & Hd & _).
  { split; [apply new_ok|apply new_consistent]. }
  { eapply ops_valid_ext; [|done]. intros k. by rewrite new_overlay. }
  unfold delta_after. by rewrite Hr.
Qed.

Definition both_may_b c c' : bool :=
  match c, c' with
  | Deleted _, Deleted _ => true
  | Updated _ e, Updated _ e' =>
      match as_ttl e, as_ttl e' with Some a, Some b => negb (a =? b) || bool_decide (e = e') | _, _ => false end
  | _, _ => false
  end.

Lemma both_may_b_sound c c' : both_may_b c c' = true -> both_may c c'.
Proof.
  destruct c as [x|p x|p], c' as [y|q y|q]; try done. simpl.
  destruct (as_ttl x) as [a|], (as_ttl y) as [b|]; try done. intros Hb. split; [by eexists|]. split; [by eexists|].
  intros [= ->]. rewrite Z.eqb_refl in Hb. by apply bool_decide_eq_true in Hb.
Qed.

Lemma extends_check d :
  forallb (fun kc => match kc.2 with Updated p e => extends_b p e | _ => true end) (map_to_list (changes d)) = true -> extends_all d.
Proof.
  rewrite forallb_forall. intros Hf k p e Hk. apply extends_b_sound, (Hf (k, Updated p e)).
  by apply list_elem_of_In, elem_of_map_to_list.
Qed.

Lemma parallel_check d d' :
  forallb (fun kc => match changes d' !! kc.1 with Some c' => both_may_b kc.2 c' | None => true end)
    (map_to_list (changes d)) = true ->
  parallel d d'.
Proof.
  rewrite forallb_forall. intros Hf k c c' Hc Hc'. specialize (Hf (k, c)). simpl in Hf. rewrite Hc' in Hf.
  by apply both_may_b_sound, Hf, list_elem_of_In, elem_of_map_to_list.
Qed.

Let later_ops : list change_op :=
  [UpdateOp (demo_ttl 9 70) (demo_ttl 9 90); DeleteOp (demo_account 1 80 6); CreateOp (demo_account 4 5 6)].

Lemma later_ops_of : delta_of (delta_after later_ops) (overlay (delta_after demo_ops) ttl_ledger).
Proof.
  apply delta_after_of.
  - apply overlay_keyed; [|apply ttl_ledger_keyed]. by apply (delta_after_of _ _ ttl_ledger_keyed demo_ops_valid).
  - apply ops_valid_check. by vm_compute.
Qed.

Lemma merge_composes_witness :
  exists d', merge (delta_after demo_ops) (delta_after later_ops) = Ok d' /\ delta_of d' ttl_ledger /\
    (forall k, overlay d' ttl_ledger k = overlay (delta_after later_ops) (overlay (delta_after demo_ops) ttl_ledger) k) /\
    fee_pool_delta d' = 0 /\ total_coins_delta d' = 0.
Proof.
  apply (merge_composes (delta_after demo_ops) (delta_after later_ops) ttl_ledger).
  - exact (delta_after_of _ _ ttl_ledger_keyed demo_ops_valid).
  - exact later_ops_of.
  - apply extends_check. by vm_compute.
Defined.

(** Three clusters that extend one lifetime, two of which delete account 2. *)
Let cluster1 : list change_op := [UpdateOp (demo_ttl 9 50) (demo_ttl 9 60); UpdateOp (demo_account 1 100 5) (demo_account 1 90 6)].
Let cluster2 : list change_op := [DeleteOp (demo_account 2 50 3); UpdateOp (demo_ttl 9 50) (demo_ttl 9 80)].
Let cluster3 : list change_op := [UpdateOp (demo_ttl 9 50) (demo_ttl 9 70); DeleteOp (demo_account 2 50 3); CreateOp (demo_account 3 1 6)].

Lemma clusters_valid : ops_valid ttl_ledger cluster1 /\ ops_valid ttl_ledger cluster2 /\ ops_valid ttl_ledger cluster3.
Proof. split; [|split]; apply ops_valid_check; by vm_compute. Qed.

Lemma parallel_merge_order_irrelevant_witness :
  exists r r', merge_all (delta_after cluster1) [delta_after cluster2; delta_after cluster3] = Ok r /\
    merge_all (delta_after cluster1) [delta_after cluster3; delta_after cluster2] = Ok r' /\ same_changes r r' /\
    delta_of r ttl_ledger /\
    forall k, latest_of [delta_after cluster1; delta_after cluster2; delta_after cluster3] k (changes r !! k).
Proof.
  destruct clusters_valid as (H1 & H2 & H3).
  apply (parallel_merge_order_irrelevant (delta_after cluster1) [delta_after cluster2; delta_after cluster3]
    [delta_after cluster3; delta_after cluster2] ttl_ledger).
  - exact (delta_after_of _ _ ttl_ledger_keyed H1).
  - apply Forall_cons. split; [exact (delta_after_of _ _ ttl_ledger_keyed H2)|].
    apply Forall_singleton. exact (delta_after_of _ _ ttl_ledger_keyed H3).
  - split; [apply Forall_cons; split; [|apply Forall_singleton]|split; [apply Forall_singleton|by split]];
      apply parallel_check; by vm_compute.
  - apply perm_swap.
Defined.

Lemma delta_errors_exact_witness :
  merge (delta_after cluster1) (delta_after [CreateOp (demo_account 1 7 6)]) = Err Internal.
Proof.
  destruct clusters_valid as (H1 & _ & _).
  refine (proj2 (proj1 (proj2 (proj2 (proj2 (proj2 (delta_errors_exact (delta_after cluster1)
    (delta_after [CreateOp (demo_account 1 7 6)]) (demo_account 1 7 6) (demo_account 1 7 6) _ _)))))) _).
  - exact (proj1 (delta_after_of _ _ ttl_ledger_keyed H1)).
  - refine (proj1 (delta_after_of (fun _ => None) _ _ _)); [by intros k e|by vm_compute].
  - exists (KeyAccount id1). by vm_compute.
Defined.
End witnesses.

(** ** metadata that replays, drained deltas

    The metadata taken between a checkpoint and later leads from the ledger the delta
    showed then to the one it shows now, each entry stated before it is changed.
    Draining a delta lists every change once, stamped with the ledger. *)

Section meta.
Context `{XdrTypes}.
Implicit Types (d : LedgerDelta) (m w : ledger_map) (k : LedgerKey) (e : LedgerEntry) (c : EntryChange).

(** ** Replaying metadata *)

Definition put_entry k (o : option LedgerEntry) w : ledger_map := fun k' => if decide (k' = k) then o else w k'.

(** Metadata is checked against the ledger it is replayed on. *)
Definition replay_change w (x : LedgerEntryChange) : option ledger_map :=
  match x with
  | ChangeState e => if decide (w (entry_to_key e) = Some e) then Some w else None
  | ChangeCreated e => if decide (w (entry_to_key e) = None) then Some (put_entry (entry_to_key e) (Some e) w) else None
  | ChangeUpdated e => if decide (w (entry_to_key e) = None) then None else Some (put_entry (entry_to_key e) (Some e) w)
  | ChangeRemoved k => if decide (w k = None) then None else Some (put_entry k None w)
  end.

Fixpoint replay_changes (xs : list LedgerEntryChange) w : option ledger_map :=
  match xs with
  | [] => Some w
  | x :: xs => replay_change w x ≫= replay_changes xs
  end.

Lemma replay_changes_app xs ys w : replay_changes (xs ++ ys) w = replay_changes xs w ≫= replay_changes ys.
Proof.
  revert w. induction xs as [|x xs IH]; [done|]. intros w. simpl. destruct (replay_change w x) as [w1|]; [apply IH|done].
Qed.

(** A piece of metadata that leads the entry of one key from one state to another. *)
Definition leads k (before after : option LedgerEntry) (xs : list LedgerEntryChange) : Prop :=
  forall w, w k = before ->
    exists w', replay_changes xs w = Some w' /\ w' k = after /\ forall k', k' <> k -> w' k' = w k'.

Lemma leads_nil k o : leads k o o [].
Proof. intros w Hw. by exists w. Qed.

(** [put_entry] at the end of a piece. *)
Lemma put_entry_leads k o w : put_entry k o w k = o /\ forall k', k' <> k -> put_entry k o w k' = w k'.
Proof. unfold put_entry. split; [by rewrite decide_True|]. intros k' Hk. by rewrite decide_False. Qed.

Lemma leads_created k e : entry_to_key e = k -> leads k None (Some e) [ChangeCreated e].
Proof.
  intros <- w Hw. eexists. simpl. rewrite decide_True by done. split; [done|]. apply put_entry_leads.
Qed.

Lemma leads_updated k e e' :
  entry_to_key e = k -> entry_to_key e' = k -> leads k (Some e) (Some e') [ChangeState e; ChangeUpdated e'].
Proof.
  intros He He' w Hw. eexists. simpl. rewrite He, decide_True by done. simpl.
  rewrite He', decide_False by (by rewrite Hw). split; [done|]. apply put_entry_leads.
Qed.

Lemma leads_removed k e : entry_to_key e = k -> leads k (Some e) None [ChangeState e; ChangeRemoved k].
Proof.
  intros He w Hw. eexists. simpl. rewrite He, decide_True by done. simpl. rewrite decide_False by (by rewrite Hw).
  split; [done|]. apply put_entry_leads.
Qed.

Lemma emit_diff_leads k o o' :
  (forall e, o = Some e \/ o' = Some e -> entry_to_key e = k) -> leads k o o' (emit_diff k o o').
Proof.
  intros Hk. destruct o as [e|], o' as [e'|]; simpl.
  - case_bool_decide as Hne; [apply leads_updated; auto|]. rewrite Hne. apply leads_nil.
  - apply leads_removed. auto.
  - apply leads_created. auto.
  - apply leads_nil.
Qed.

Lemma emit_new_leads k c : change_ok k c -> leads k (previous_entry c) (current_entry c) (emit_new_entry c).
Proof.
  intros Hc. destruct c as [e|p e|p]; simpl.
  - apply leads_created. apply Hc. by left.
  - apply leads_updated; apply Hc; [by right|by left].
  - assert (entry_to_key p = k) as Hp by (apply Hc; by right). rewrite Hp. by apply leads_removed.
Qed.

(** A sequence of pieces, one for each of some keys. *)
Lemma replay_flat_map (f : LedgerKey -> list LedgerEntryChange) (before after : ledger_map) ks w :
  NoDup ks -> (forall k, k ∈ ks -> leads k (before k) (after k) (f k)) -> (forall k, k ∈ ks -> w k = before k) ->
  exists w', replay_changes (flat_map f ks) w = Some w' /\ (forall k, k ∈ ks -> w' k = after k) /\
    forall k, k ∉ ks -> w' k = w k.
Proof.
  revert w. induction ks as [|k ks IH]; intros w Hnd Hf Hw.
  { exists w. split; [done|]. split; [|done]. by intros k ?%elem_of_nil. }
  apply NoDup_cons in Hnd as [Hnin Hnd].
  destruct (Hf k (list_elem_of_here _ _) w) as (w1 & Hr1 & Hk1 & Ho1); [by apply Hw; left|].
  destruct (IH w1 Hnd) as (w' & Hr & Hin & Hout).
  { intros k' Hk'. apply Hf. by right. }
  { intros k' Hk'. rewrite Ho1 by (by intros ->). apply Hw. by right. }
  exists w'. simpl. rewrite replay_changes_app, Hr1. split; [done|]. split.
  - intros k' [-> |Hk']%elem_of_cons; [by rewrite Hout|by apply Hin].
  - intros k' [Hne Hk']%not_elem_of_cons. rewrite Hout by done. by apply Ho1.
Qed.

(** ** Changes since a checkpoint *)

(** A delta that goes on from another one: only creations are dropped. *)
Definition goes_on d d' : Prop :=
  forall k c, changes d !! k = Some c -> changes d' !! k = None -> previous_entry c = None.

Lemma phase_size (f : LedgerKey -> list LedgerEntryChange) ks :
  (forall k, (length (f k) <= 2)%nat) -> len (flat_map f ks) <= 2 * len ks.
Proof.
  intros Hf. induction ks as [|k ks IH]; [done|]. simpl. rewrite len_app, len_cons. specialize (Hf k). unfold len in *. lia.
Qed.

Lemma phase1_size cp d k : (length (phase1 cp d k) <= 2)%nat.
Proof.
  unfold phase1, emit_diff, emit_new_entry. repeat (case_match; simpl; try lia).
Qed.

Lemma phase2_size cp d k : (length (phase2 cp d k) <= 2)%nat.
Proof. unfold phase2. repeat (case_match; simpl; try lia). Qed.

Lemma phase1_leads d d' m k :
  delta_of d m -> delta_of d' m -> is_Some (changes d' !! k) ->
  leads k (overlay d m k) (overlay d' m k) (phase1 (checkpoint d) d' k).
Proof.
  intros [Hd Hdc] [Hd' Hdc'] [c Hc]. unfold phase1, overlay. simpl. rewrite Hc. pose proof (ok_keyed _ Hd' _ _ Hc) as Hk.
  destruct (changes d !! k) as [c0|] eqn:Hc0; [|rewrite <- (Hdc' _ _ Hc); by apply emit_new_leads].
  apply emit_diff_leads. pose proof (ok_keyed _ Hd _ _ Hc0) as Hk0.
  intros e [E|E]; [apply Hk0|apply Hk]; by left.
Qed.

Lemma phase2_leads d d' m k :
  delta_of d m -> delta_of d' m -> goes_on d d' -> is_Some (changes d !! k) ->
  leads k (match changes d' !! k with Some _ => overlay d' m k | None => overlay d m k end) (overlay d' m k)
    (phase2 (checkpoint d) d' k).
Proof.
  intros [Hd Hdc] [Hd' Hdc'] Hgo [c0 Hc0]. unfold phase2. simpl.
  destruct (changes d' !! k) as [c|] eqn:Hc; [apply leads_nil|]. unfold overlay. rewrite Hc0, Hc. change (visible_entry c0) with (current_entry c0).
  rewrite <- (Hdc _ _ Hc0). rewrite (Hgo _ _ Hc0 Hc). destruct (current_entry c0) as [e|] eqn:He; [|apply leads_nil].
  assert (entry_to_key e = k) as Hke by (apply (ok_keyed _ Hd _ _ Hc0); by left).
  rewrite Hke. by apply leads_removed.
Qed.

Lemma not_in_order d k : delta_ok d -> k ∉ change_order d -> changes d !! k = None.
Proof. intros Hd Hk. apply eq_None_not_Some. by rewrite <- (ok_order _ Hd). Qed.

Lemma changes_since_leads d d' m :
  delta_of d m -> delta_of d' m -> goes_on d d' ->
  2 * (len (change_order d') + len (change_order d)) <= u32_max ->
  exists w, replay_changes (changes_since (checkpoint d) d') (overlay d m) = Some w /\ forall k, w k = overlay d' m k.
Proof.
  intros Hdm Hdm' Hgo Hlen. pose proof Hdm as [Hd _]. pose proof Hdm' as [Hd' _].
  pose proof (phase_size _ (change_order d') (phase1_size (checkpoint d) d')).
  pose proof (phase_size _ (change_order d) (phase2_size (checkpoint d) d')).
  unfold changes_since. cbn [key_order checkpoint].
  rewrite (proj2 (Z.leb_le _ _)) by (rewrite len_app; lia). rewrite replay_changes_app.
  destruct (replay_flat_map (phase1 (checkpoint d) d') (overlay d m) (overlay d' m) (change_order d') (overlay d m))
    as (w1 & Hr1 & Hin1 & Hout1); [apply (ok_nodup _ Hd')| |done|].
  { intros k Hk. apply phase1_leads; [done|done|]. by apply (ok_order _ Hd'). }
  rewrite Hr1. simpl.
  destruct (replay_flat_map (phase2 (checkpoint d) d')
    (fun k => match changes d' !! k with Some _ => overlay d' m k | None => overlay d m k end)
    (overlay d' m) (change_order d) w1) as (w & Hr & Hin & Hout); [apply (ok_nodup _ Hd)| | |].
  { intros k Hk. apply phase2_leads; [done..|]. by apply (ok_order _ Hd). }
  { intros k _. destruct (changes d' !! k) eqn:Hc; [apply Hin1, (ok_order _ Hd'); by eexists|].
    apply Hout1. rewrite (ok_order _ Hd'), Hc. by intros [? ?]. }
  exists w. split; [done|]. intros k. destruct (decide (k ∈ change_order d)) as [Hk|Hk]; [by apply Hin|].
  rewrite Hout by done. destruct (decide (k ∈ change_order d')) as [Hk'|Hk']; [by apply Hin1|].
  rewrite Hout1 by done. unfold overlay. by rewrite !not_in_order by done.
Qed.

(** An operation that leaves no change is one on an entry of this close. *)
Lemma op_drops d m op :
  keyed_ledger m -> delta_of d m -> op_valid (overlay d m) op ->
  op_change op (changes d !! op_key op) = None -> m (op_key op) = None.
Proof.
  intros Hm Hd Hv Hn. destruct (op_change_spec d m op Hm Hd Hv) as [Hcur _]. rewrite Hn in Hcur. rewrite Hcur.
  clear -Hn. by destruct op as [e|p e|e], (changes d !! _) as [[]|]; simpl in *.
Qed.

(** Recorded operations go on from where they start. *)
Lemma run_ops_go_on d0 d m ops d' :
  keyed_ledger m -> delta_of d0 m -> delta_of d m -> goes_on d0 d -> ops_valid (overlay d m) ops ->
  try_fold run_op ops d = Ok d' -> goes_on d0 d'.
Proof.
  intros Hm Hd0. revert d. induction ops as [|op ops IH]; intros d Hd Hgo Hv; [by intros [= <-]|].
  destruct Hv as [Hv Hvs]. cbn [try_fold]. rewrite (run_op_eq d (overlay d m)) by (done || apply Hd).
  destruct (run_op_refines d m op Hm Hd Hv) as (d1 & Hr & Hd1 & _ & Hov1).
  rewrite (run_op_eq d (overlay d m)) in Hr by (done || apply Hd). injection Hr as <-. apply IH; [done| |].
  - intros k c Hc Hn. rewrite set_change_changes in Hn. case_decide as Hk; [subst k|by apply (Hgo k)].
    destruct Hd0 as [_ Hdc0]. rewrite (Hdc0 _ _ Hc). by apply (op_drops d).
  - eapply ops_valid_ext; [|done]. intros k. by rewrite Hov1.
Qed.

(** ** Draining *)

Lemma omap_ext_in {A B} (f g : A -> option B) (l : list A) :
  (forall x, x ∈ l -> f x = g x) -> omap f l = omap g l.
Proof.
  induction l as [|x l IH]; intros Hfg; [done|]. cbn. rewrite (Hfg x) by by left.
  assert (omap f l = omap g l) as E by (apply IH; intros y Hy; apply Hfg; by right). cbn in E. by rewrite E.
Qed.

Lemma drain_fold ks cs (mp : gmap LedgerKey EntryChange) :
  NoDup ks ->
  fold_left drain_step ks (cs, mp) = (cs ++ omap (fun k => mp !! k) ks, base.filter (fun kc => kc.1 ∉ ks) mp).
Proof.
  revert cs mp. induction ks as [|k ks IH]; intros cs mp Hnd; simpl.
  { rewrite app_nil_r. f_equal. symmetry. apply map_filter_id. intros k c _. apply not_elem_of_nil. }
  apply NoDup_cons in Hnd as [Hnin Hnd].
  assert (forall mp', (forall k', k' <> k -> mp' !! k' = mp !! k') -> mp' !! k = None ->
    base.filter (fun kc : LedgerKey * EntryChange => kc.1 ∉ ks) mp' = base.filter (fun kc => kc.1 ∉ k :: ks) mp /\
    omap (fun k => mp' !! k) ks = omap (fun k => mp !! k) ks) as Hsame.
  { intros mp' Hmp' Hk. split.
    - apply map_eq. intros k'. apply option_eq. intros c. rewrite !map_lookup_filter_Some. simpl. rewrite not_elem_of_cons.
      destruct (decide (k' = k)) as [-> |Hne]; [rewrite Hk; split; [by intros []|by intros (_ & ? & _)]|].
      rewrite Hmp' by done. tauto.
    - apply omap_ext_in. intros k' Hk'. apply Hmp'. by intros ->. }
  destruct (mp !! k) as [c|] eqn:Hc.
  - rewrite IH by done. destruct (Hsame (delete k mp)) as [-> ->].
    + intros k' Hne. by apply lookup_delete_ne.
    + apply lookup_delete_eq.
    + by rewrite <- app_assoc.
  - rewrite IH by done. by destruct (Hsame mp) as [-> _].
Qed.

Lemma drain_all d :
  delta_ok d -> fold_left drain_step (change_order d) ([], changes d) = (changes_in_order d, ∅).
Proof.
  intros Hd. rewrite drain_fold by apply (ok_nodup _ Hd). f_equal. apply map_empty. intros k.
  apply map_lookup_filter_None. destruct (changes d !! k) as [c|] eqn:Hc; [|by left]. right. intros c' [= <-] Hn. simpl in Hn.
  apply Hn, (ok_order _ Hd). by eexists.
Qed.

Lemma categorize_spec cs b seq :
  let cat := categorize_changes cs b seq in
  cat_init_entries cat = omap (fun c => match c with Created e => Some (put_last_modified seq e) | _ => None end) cs /\
  cat_live_entries cat = omap (fun c => match c with Updated _ e => Some (put_last_modified seq e) | _ => None end) cs /\
  cat_dead_keys cat = omap (fun c => match c with Deleted p => Some (entry_to_key p) | _ => None end) cs /\
  created_count cat = len (cat_init_entries cat) /\ updated_count cat = len (cat_live_entries cat) /\
  deleted_count cat = len (cat_dead_keys cat).
Proof.
  simpl. unfold categorize_changes. induction cs as [|c cs IH] using rev_ind; [done|].
  rewrite fold_left_app, !omap_app. destruct IH as (H1 & H2 & H3 & H4 & H5 & H6).
  rewrite <- H1, <- H2, <- H3. generalize dependent (fold_left (categorize_change b seq) cs (MkCategorization [] [] [] 0 0 0 false false [])).
  intros cat _ _ _ H4 H5 H6. simpl. unfold categorize_change.
  destruct (commit_flags b cat (stamp_change seq c)) as [[x y] z].
  destruct c as [e|p e|p]; simpl; rewrite ?app_nil_r, ?len_app, H4, H5, H6; done.
Qed.
End meta.
