(* ===== verification/DeltaFees.v ===== *)
(** * DeltaFees: fees and refunds in a delta

    A fee is charged up to the balance of the account, wherever the account is found;
    a refund of what was charged always fits. *)

From S2P Require Import Prelude Amounts Ledger Snapshot SnapshotFacts Delta DeltaFacts DeltaRefinement.

Section fees.
Context `{XdrTypes}.
Implicit Types (d : LedgerDelta) (s : SnapshotHandle) (m : ledger_map) (k : LedgerKey) (e : LedgerEntry) (c : EntryChange).

Lemma put_account_same acc e : as_account e = Some acc -> put_account acc e = e.
Proof. destruct e as [q x y]. destruct x; try done. simpl. by intros [= ->]. Qed.

Lemma sub_account_balance_ok acc amount :
  is_i64 (account_balance acc) -> 0 <= amount <= account_balance acc ->
  sub_account_balance acc amount = Ok (put_account_balance (account_balance acc - amount) acc).
Proof.
  intros Hb Ha. unfold sub_account_balance. destruct (Z.ltb_spec amount 0); [lia|].
  unfold checked_sub. rewrite checked_i64_in by (unfold is_i64, i64_min in *; lia). cbn [ok_or result_bind].
  by destruct (Z.ltb_spec (account_balance acc - amount) 0); [lia|].
Qed.

(** The entry after a fee of [charged]. *)
Definition charge (charged seq : Z) (acc : AccountEntry) e : LedgerEntry :=
  let e' := put_account (put_account_balance (account_balance acc - charged) acc) e in
  if 0 <? charged then put_last_modified seq e' else e'.

Lemma charge_key charged seq acc e : entry_to_key (charge charged seq acc e) = entry_to_key e.
Proof. unfold charge. case_match; [rewrite put_last_modified_key|]; apply put_account_key. Qed.

Lemma charge_account charged seq acc e :
  as_account e = Some acc ->
  as_account (charge charged seq acc e) = Some (put_account_balance (account_balance acc - charged) acc).
Proof. intros Ha. unfold charge. case_match; by apply (as_put_account _ _ acc). Qed.

Lemma charge_nothing seq acc e : as_account e = Some acc -> charge 0 seq acc e = e.
Proof.
  intros Ha. unfold charge. rewrite Z.sub_0_r. simpl.
  assert (put_account_balance (account_balance acc) acc = acc) as -> by (by destruct acc). by apply put_account_same.
Qed.

(** The delta after a fee, whether the account was in it or not. *)
Lemma deduct_outcome d s m id fee seq e acc :
  delta_of d m -> faithful s m -> lookups_released s = false -> keyed_ledger m ->
  overlay d m (KeyAccount id) = Some e -> as_account e = Some acc -> amount64 (account_balance acc) -> 0 <= fee ->
  let charged := Z.min (account_balance acc) fee in
  exists s' c, deduct_fee_from_account id fee s seq d =
      Ok (charged, if 0 <? charged then [ChangeState e; ChangeUpdated (charge charged seq acc e)] else [], s',
          set_change (KeyAccount id) (Some c) d) /\
    faithful s' m /\ current_entry c = Some (charge charged seq acc e) /\ previous_entry c = m (KeyAccount id).
Proof.
  intros [Hd Hdc] Hs Hr Hm Hov Hacc Hb Hfee charged. unfold amount64 in Hb.
  assert (is_i64 (account_balance acc)) as Hb64 by (unfold is_i64, i64_min in *; lia).
  assert (sub_account_balance acc charged = Ok (put_account_balance (account_balance acc - charged) acc)) as Hsub
    by (apply sub_account_balance_ok; [done|unfold charged; lia]).
  unfold deduct_fee_from_account, set_change. unfold overlay in Hov.
  destruct (changes d !! KeyAccount id) as [c|] eqn:Hc.
  - pose proof (Hdc _ _ Hc) as Hp. rewrite Hov, Hacc. fold charged. rewrite Hsub. cbn [expect map_err result_bind].
    destruct c as [x|p x|p]; simplify_eq/=.
    + rewrite Hacc, Hsub. cbn [expect map_err result_bind]. by eexists s, (Created _).
    + by eexists s, (Updated p _).
  - destruct (get_entry_faithful s m (KeyAccount id) Hs Hr) as (s' & Hg & Hs' & _). rewrite Hg, Hov.
    cbn [expect map_err result_bind]. rewrite Hacc. fold charged. rewrite Hsub. cbn [expect map_err result_bind].
    by eexists s', (Updated e _).
Qed.

(** A change of the current entry of a key, in a delta of a ledger. *)
Lemma set_current_delta_of d m k c e :
  delta_of d m -> keyed_ledger m -> entry_to_key e = k -> current_entry c = Some e -> previous_entry c = m k ->
  delta_of (set_change k (Some c) d) m /\ forall k', overlay (set_change k (Some c) d) m k' = put_entry k (Some e) (overlay d m) k'.
Proof.
  intros [Hd Hdc] Hm He Hc Hp. split; [split|].
  - apply set_change_ok; [done|]. intros c' [= <-] e' [E|E]; [congruence|]. apply Hm. congruence.
  - apply set_change_consistent; [done|]. by intros c' [= <-].
  - intros k'. rewrite set_change_overlay. unfold put_entry. by case_decide.
Qed.

(** The metadata of a fee. *)
Lemma charge_leads charged seq acc e w :
  0 <= charged -> as_account e = Some acc -> w (entry_to_key e) = Some e ->
  exists w', replay_changes (if 0 <? charged then [ChangeState e; ChangeUpdated (charge charged seq acc e)] else []) w = Some w' /\
    forall k, w' k = put_entry (entry_to_key e) (Some (charge charged seq acc e)) w k.
Proof.
  intros Hc Hacc Hw. destruct (Z.ltb_spec 0 charged) as [Hpos|Hzero].
  - destruct (leads_updated (entry_to_key e) e (charge charged seq acc e) eq_refl (charge_key _ _ _ _) w Hw) as (w' & Hr & Hk & Ho).
    exists w'. split; [done|]. intros k. unfold put_entry. case_decide; [by subst|by apply Ho].
  - assert (charged = 0) as -> by lia. exists w. split; [done|]. intros k. rewrite charge_nothing by done.
    unfold put_entry. case_decide; [by subst|done].
Qed.

(** ** Refunds *)

Lemma try_add_account_balance_spec acc n :
  account_ok acc -> amount64 n ->
  try_add_account_balance acc n =
  Ok (if account_balance acc + n + buying (account_liabilities acc) <=? i64_max
      then Some (put_account_balance (account_balance acc + n) acc) else None).
Proof.
  intros (Hb & Hbuy & Hmax) Hn. unfold amount64 in Hn. unfold try_add_account_balance, add_balance.
  assert (0 < i64_max) as Hpos by done.
  assert (as_i64 (i64_max - buying (account_liabilities acc)) = i64_max - buying (account_liabilities acc)) as ->
    by (apply as_i64_id; unfold is_i64, i64_min in *; lia).
  destruct (Z.ltb_spec (account_balance acc) 0); [lia|]. destruct (Z.ltb_spec i64_max 0); [lia|].
  destruct (Z.eqb_spec n 0) as [-> |]; cbn [result_bind].
  - rewrite Z.add_0_r. destruct (Z.ltb_spec (i64_max - buying (account_liabilities acc)) (account_balance acc)); [lia|].
    destruct (Z.leb_spec (account_balance acc + buying (account_liabilities acc)) i64_max); [done|lia].
  - destruct (Z.ltb_spec n (- account_balance acc)); [lia|].
    destruct (Z.ltb_spec (i64_max - account_balance acc) n); cbn [result_bind].
    + destruct (Z.leb_spec (account_balance acc + n + buying (account_liabilities acc)) i64_max); [lia|done].
    + destruct (Z.ltb_spec (i64_max - buying (account_liabilities acc)) (account_balance acc + n)),
        (Z.leb_spec (account_balance acc + n + buying (account_liabilities acc)) i64_max); done || lia.
Qed.

(** A refund changes the account in the delta, or nothing. *)
Lemma refund_outcome d m id refund c e acc :
  delta_of d m -> keyed_ledger m -> changes d !! KeyAccount id = Some c -> current_entry c = Some e ->
  as_account e = Some acc -> account_ok acc -> amount64 refund ->
  let e' := put_account (put_account_balance (account_balance acc + refund) acc) e in
  if account_balance acc + refund + buying (account_liabilities acc) <=? i64_max
  then exists d', apply_refund_to_account id refund d = Ok (true, d') /\ delta_of d' m /\
         forall k, overlay d' m k = put_entry (KeyAccount id) (Some e') (overlay d m) k
  else apply_refund_to_account id refund d = Ok (false, d).
Proof.
  intros Hd Hm Hc He Hacc Hok Hn e'. pose proof Hd as [Hdok Hdc].
  assert (entry_to_key e' = KeyAccount id) as Hk'.
  { unfold e'. rewrite put_account_key. apply (ok_keyed _ Hdok _ _ Hc). by left. }
  assert (refund_entry refund e = Ok (if account_balance acc + refund + buying (account_liabilities acc) <=? i64_max
                                      then Some e' else None)) as Hr.
  { unfold refund_entry. rewrite Hacc, try_add_account_balance_spec by done. cbn [expect map_err result_bind].
    by destruct (_ <=? _). }
  assert (forall c', current_entry c' = Some e' -> previous_entry c' = m (KeyAccount id) ->
    delta_of (insert_change (KeyAccount id) c' d) m /\
    forall k, overlay (insert_change (KeyAccount id) c' d) m k = put_entry (KeyAccount id) (Some e') (overlay d m) k) as Hset.
  { intros c' Hcur Hprev. destruct (set_current_delta_of d m (KeyAccount id) c' e') as [H1 H2]; [done..|].
    unfold set_change in H1, H2. by rewrite Hc in H1, H2. }
  pose proof (Hdc _ _ Hc) as Hp. unfold apply_refund_to_account. rewrite Hc.
  destruct c as [x|p x|p]; simplify_eq/=; rewrite Hr; destruct (_ <=? _); cbn [result_bind]; try done; eexists; (split; [done|]);
    by apply Hset.
Qed.

(** ** Properties *)

(** C28: A fee is charged in full or up to the balance, never failing: the account loses
    exactly what is charged, nothing else changes, whether the account was already in
    the delta or is loaded from the snapshot; the metadata returned leads from the
    ledger before to the ledger after. An account that does not exist, or was deleted
    in this close, is charged nothing. *)
Theorem deduct_fee_correct d s m id fee seq :
  delta_of d m -> faithful s m -> lookups_released s = false -> keyed_ledger m ->
  (forall e acc, overlay d m (KeyAccount id) = Some e -> as_account e = Some acc -> amount64 (account_balance acc)) ->
  0 <= fee ->
  exists charged meta s' d' w, deduct_fee_from_account id fee s seq d = Ok (charged, meta, s', d') /\
    faithful s' m /\ delta_of d' m /\
    match overlay d m (KeyAccount id) with
    | None => charged = 0 /\ d' = d
    | Some e => exists acc e', as_account e = Some acc /\ charged = Z.min (account_balance acc) fee /\
        as_account e' = Some (put_account_balance (account_balance acc - charged) acc) /\
        forall k, overlay d' m k = put_entry (KeyAccount id) (Some e') (overlay d m) k
    end /\
    replay_changes meta (overlay d m) = Some w /\ forall k, w k = overlay d' m k.
Proof.
  intros Hd Hs Hr Hm Hb Hfee. destruct (overlay d m (KeyAccount id)) as [e|] eqn:Hov.
  - assert (entry_to_key e = KeyAccount id) as He by (by apply (overlay_keyed d m); [apply Hd|..]).
    destruct (account_key_account e id He) as [acc Hacc]. specialize (Hb e acc eq_refl Hacc).
    destruct (deduct_outcome d s m id fee seq e acc) as (s' & c & Hded & Hs' & Hcur & Hprev); [done..|].
    destruct (set_current_delta_of d m (KeyAccount id) c (charge (Z.min (account_balance acc) fee) seq acc e))
      as [Hd' Hov']; [done..|by rewrite charge_key|done|done|].
    destruct (charge_leads (Z.min (account_balance acc) fee) seq acc e (overlay d m)) as (w & Hw & Hwk);
      [unfold amount64 in Hb; lia|done|by rewrite He|].
    eexists _, _, s', _, w. split; [done|]. split; [done|]. split; [done|]. split; [|split; [done|]].
    + exists acc, (charge (Z.min (account_balance acc) fee) seq acc e). split; [done|]. split; [done|].
      split; [by apply charge_account|done].
    + intros k. by rewrite Hwk, Hov', He.
  - unfold deduct_fee_from_account. unfold overlay in Hov. destruct (changes d !! KeyAccount id) as [c|] eqn:Hc.
    + rewrite Hov. exists 0, [], s, d, (overlay d m). by repeat (split; [done|]).
    + destruct (get_entry_faithful s m (KeyAccount id) Hs Hr) as (s' & -> & Hs' & _). rewrite Hov. cbn [map_err result_bind].
      exists 0, [], s', d, (overlay d m). by repeat (split; [done|]).
Qed.

(** What was charged can be refunded, in full or in part: after a fee, a refund of no
    more than was charged succeeds and leaves the account with what it had, less the
    difference, and every other entry as it was; a refund to an account that is not
    in the delta, or was deleted, changes nothing. *)
Theorem fee_refund_round_trip d s m id fee seq refund e acc :
  delta_of d m -> faithful s m -> lookups_released s = false -> keyed_ledger m ->
  overlay d m (KeyAccount id) = Some e -> as_account e = Some acc -> account_ok acc -> 0 <= fee ->
  0 <= refund <= Z.min (account_balance acc) fee ->
  exists meta s' d' d'' e'', deduct_fee_from_account id fee s seq d = Ok (Z.min (account_balance acc) fee, meta, s', d') /\
    apply_refund_to_account id refund d' = Ok (true, d'') /\ delta_of d'' m /\
    as_account e'' = Some (put_account_balance (account_balance acc - Z.min (account_balance acc) fee + refund) acc) /\
    (forall k, overlay d'' m k = put_entry (KeyAccount id) (Some e'') (overlay d m) k) /\
    forall id' d0 n, get_current_entry (KeyAccount id') d0 = None -> apply_refund_to_account id' n d0 = Ok (false, d0).
Proof.
  intros Hd Hs Hr Hm Hov Hacc (Hb & Hbuy & Hmax) Hfee Hn.
  destruct (deduct_outcome d s m id fee seq e acc) as (s' & c & Hded & Hs' & Hcur & Hprev);
    [done..|unfold amount64; lia|done|].
  set (charged := Z.min (account_balance acc) fee) in *.
  assert (entry_to_key e = KeyAccount id) as He by (by apply (overlay_keyed d m); [apply Hd|..]).
  destruct (set_current_delta_of d m (KeyAccount id) c (charge charged seq acc e)) as [Hd' Hov'];
    [done..|by rewrite charge_key|done|done|].
  pose proof (charge_account charged seq acc e Hacc) as Hacc'.
  assert (changes (set_change (KeyAccount id) (Some c) d) !! KeyAccount id = Some c) as Hc'
    by (rewrite set_change_changes; by rewrite decide_True).
  pose proof (refund_outcome _ m id refund c _ _ Hd' Hm Hc' Hcur Hacc') as Hro. unfold account_ok, account_liabilities in *. simpl in *.
  destruct (Z.leb_spec (account_balance acc - charged + refund + buying (default (MkLiabilities 0 0) (account_ext acc))) i64_max);
    [|unfold charged in *; lia].
  destruct Hro as (d'' & Hre & Hd'' & Hov''); [unfold charged in *; lia|unfold amount64, charged in *; lia|].
  eexists _, s', _, d'', _. split; [done|]. split; [done|]. split; [done|]. split; [by eapply as_put_account|]. split.
  - intros k. rewrite Hov''. unfold put_entry. case_decide; [done|]. rewrite Hov'. unfold put_entry. by rewrite decide_False.
  - intros id' d0 n Hg. unfold get_current_entry in Hg. unfold apply_refund_to_account.
    destruct (changes d0 !! KeyAccount id') as [[]|]; done.
Qed.
End fees.

Section witnesses.
#[local] Existing Instance demo_types.

Lemma deduct_fee_correct_witness :
  exists charged meta s' d' w, deduct_fee_from_account id1 30 demo_snapshot 6 (LedgerDelta_new 6) = Ok (charged, meta, s', d') /\
    faithful s' demo_ledger /\ delta_of d' demo_ledger /\
    match overlay (LedgerDelta_new 6) demo_ledger (KeyAccount id1) with
    | None => charged = 0 /\ d' = LedgerDelta_new 6
    | Some e => exists acc e', as_account e = Some acc /\ charged = Z.min (account_balance acc) 30 /\
        as_account e' = Some (put_account_balance (account_balance acc - charged) acc) /\
        forall k, overlay d' demo_ledger k = put_entry (KeyAccount id1) (Some e') (overlay (LedgerDelta_new 6) demo_ledger) k
    end /\
    replay_changes meta (overlay (LedgerDelta_new 6) demo_ledger) = Some w /\ forall k, w k = overlay d' demo_ledger k.
Proof.
  apply (deduct_fee_correct (LedgerDelta_new 6) demo_snapshot demo_ledger id1 30 6).
  - split; [apply new_ok|apply new_consistent].
  - apply demo_snapshot_faithful.
  - done.
  - apply demo_ledger_keyed.
  - intros e acc He Hacc. vm_compute in He. injection He as <-. injection Hacc as <-. by vm_compute.
  - by vm_compute.
Defined.

Lemma fee_refund_round_trip_witness :
  exists meta s' d' d'' e'', deduct_fee_from_account id1 130 demo_snapshot 6 (LedgerDelta_new 6) = Ok (100, meta, s', d') /\
    apply_refund_to_account id1 70 d' = Ok (true, d'') /\ delta_of d'' demo_ledger /\
    as_account e'' = Some (MkAccount 70 0 None) /\
    (forall k, overlay d'' demo_ledger k = put_entry (KeyAccount id1) (Some e'') (overlay (LedgerDelta_new 6) demo_ledger) k) /\
    forall id' d0 n, get_current_entry (KeyAccount id') d0 = None -> apply_refund_to_account id' n d0 = Ok (false, d0).
Proof.
  apply (fee_refund_round_trip (LedgerDelta_new 6) demo_snapshot demo_ledger id1 130 6 70 (demo_account 1 100 5) (MkAccount 100 0 None)).
  - split; [apply new_ok|apply new_consistent].
  - apply demo_snapshot_faithful.
  - done.
  - apply demo_ledger_keyed.
  - done.
  - done.
  - by vm_compute.
  - by vm_compute.
  - by vm_compute.
Defined.
End witnesses.
