(* ===== verification/CloseState.v ===== *)
(** * CloseState: reads and writes during a ledger close (ledger/src/close_state.rs, manager.rs)

    A [CloseLedgerState] reads through the changes of the close to the snapshot of
    the ledger before, and collects what is written. At the end its changes are
    drained into the batch that the bucket list takes. Of the header the state keeps
    the protocol version. *)

From S2P Require Import Prelude Amounts Bucket BucketList Ledger Snapshot Delta.

Section close.
Context `{XdrTypes}.

Record CloseLedgerState := MkClose {
  snapshot : SnapshotHandle;
  current : LedgerDelta;
  close_protocol_version : Z;
  close_ledger_seq : Z
}.

Definition begin (snapshot : SnapshotHandle) (protocol_version seq : Z) : CloseLedgerState :=
  MkClose snapshot (LedgerDelta_new seq) protocol_version seq.

Definition put_snapshot (s : SnapshotHandle) (st : CloseLedgerState) : CloseLedgerState :=
  MkClose s (current st) (close_protocol_version st) (close_ledger_seq st).
Definition put_current (d : LedgerDelta) (st : CloseLedgerState) : CloseLedgerState :=
  MkClose (snapshot st) d (close_protocol_version st) (close_ledger_seq st).

(** ** Reads *)

Definition close_get_entry (k : LedgerKey) (st : CloseLedgerState)
    : result (option LedgerEntry * CloseLedgerState) LedgerError :=
  match get_change k (current st) with
  | Some change => Ok (current_entry change, st)
  | None =>
      let? (o, s) := get_entry k (snapshot st) in
      Ok (o, put_snapshot s st)
  end.

Definition close_get_account (id : AccountId) (st : CloseLedgerState)
    : result (option AccountEntry * CloseLedgerState) LedgerError :=
  let? (o, st) := close_get_entry (KeyAccount id) st in
  Ok (match o with Some e => as_account e | None => None end, st).

(** [all_offers]: the snapshot's offers under the changes of offers. *)
Definition offer_overrides (cs : list EntryChange) : gmap LedgerKey (option LedgerEntry) :=
  fold_left (fun o c => if is_offer_key (change_key c) then <[change_key c := current_entry c]> o else o) cs ∅.

Definition override_step (acc : list LedgerEntry * gmap LedgerKey (option LedgerEntry)) (e : LedgerEntry)
    : list LedgerEntry * gmap LedgerKey (option LedgerEntry) :=
  let '(res, o) := acc in
  match o !! entry_to_key e with
  | Some (Some live_entry) => (res ++ [live_entry], delete (entry_to_key e) o)
  | Some None => (res, delete (entry_to_key e) o)
  | None => (res ++ [e], o)
  end.

Definition all_offers (st : CloseLedgerState) : result (list LedgerEntry) LedgerError :=
  let? snapshot_entries := all_entries (snapshot st) in
  let o := offer_overrides (changes_in_order (current st)) in
  if bool_decide (o = ∅) then Ok snapshot_entries
  else
    let '(res, rest) := fold_left override_step snapshot_entries ([], o) in
    Ok (res ++ omap snd (map_to_list rest)).

(** ** Writes *)

Definition close_record_create (e : LedgerEntry) (st : CloseLedgerState) : result CloseLedgerState LedgerError :=
  let? d := record_create e (current st) in Ok (put_current d st).
Definition close_record_update (previous e : LedgerEntry) (st : CloseLedgerState) : result CloseLedgerState LedgerError :=
  let? d := record_update previous e (current st) in Ok (put_current d st).
Definition close_record_delete (e : LedgerEntry) (st : CloseLedgerState) : result CloseLedgerState LedgerError :=
  let? d := record_delete e (current st) in Ok (put_current d st).
Definition close_record_fee_pool_delta (amount : Z) (st : CloseLedgerState) : CloseLedgerState :=
  put_current (record_fee_pool_delta amount (current st)) st.

Definition change_checkpoint (st : CloseLedgerState) : ChangeCheckpoint := checkpoint (current st).
Definition entry_changes_since (cp : ChangeCheckpoint) (st : CloseLedgerState) : list LedgerEntryChange :=
  changes_since cp (current st).

Definition capture_entry_changes {T} (f : CloseLedgerState -> result (T * CloseLedgerState) LedgerError)
    (st : CloseLedgerState) : result (T * list LedgerEntryChange * CloseLedgerState) LedgerError :=
  let cp := change_checkpoint st in
  let? (res, st) := f st in
  Ok (res, entry_changes_since cp st, st).

(** ** The end of the close *)

Definition drain_for_bucket_update (collect_liquidity_pools : bool) (st : CloseLedgerState)
    : DeltaCategorization * CloseLedgerState :=
  let '(cat, d) := drain_categorization_for_bucket_update collect_liquidity_pools (current st) in
  (cat, put_current d st).
Definition release_snapshot_lookups (st : CloseLedgerState) : CloseLedgerState :=
  put_snapshot (release_lookups (snapshot st)) st.

(** What [commit] hands to the bucket list when neither an eviction nor the window of
    state sizes adds to it. *)
Definition commit_batch (seq protocol_version : Z) (cat : DeltaCategorization) (bl : BucketList)
    : result BucketList LedgerError :=
  map_err BucketFailed
    (add_batch_unique seq protocol_version (cat_init_entries cat) (cat_live_entries cat) (cat_dead_keys cat) bl).
End close.
