(* ===== verification/CloseStateFacts.v ===== *)
(** * CloseStateFacts: closing ledgers, from recorded changes to the bucket list

    The state of a close reads as the ledger it changes; its drained changes are a
    valid batch whose update is what the state showed, stamped; so closing ledger
    after ledger the bucket list is the map that the recorded changes make. *)

From S2P Require Import Prelude Amounts Bucket BucketMerge BucketList BucketListFacts BucketListRefinement Ledger Snapshot SnapshotFacts Delta DeltaFacts DeltaRefinement CloseState.

(** ** Unique entries need no deduplication *)

Section unique.
Context `{LedgerTypes}.

Lemma dedup_unique (es : list Bucket.LedgerEntry) : NoDup (keys es) -> deduplicate_entries es = es.
Proof.
  induction es as [|e es IH]; [done|]. unfold keys. simpl. intros [Hnin Hnd]%NoDup_cons.
  rewrite bool_decide_eq_false_2 by done. by rewrite IH.
Qed.

Lemma dedup_dead_unique (ks seen : list Bucket.LedgerKey) :
  NoDup ks -> Forall (fun k => k ∉ seen) ks -> deduplicate_dead seen ks = ks.
Proof.
  revert seen. induction ks as [|k ks IH]; intros seen; [done|]. intros [Hnin Hnd]%NoDup_cons [Hk Hks]%Forall_cons. simpl.
  rewrite bool_decide_eq_false_2 by done. rewrite IH; [done|done|]. rewrite Forall_forall in *. intros x Hx.
  apply not_elem_of_cons. split; [by intros ->|by apply Hks].
Qed.

End unique.

Section facts.
Context `{XdrTypes}.
Implicit Types (d : LedgerDelta) (m : ledger_map) (k : LedgerKey) (e : LedgerEntry) (c : EntryChange).

(** ** Lists of entries with their keys *)

Lemma omap_keys {A B} (f : A -> option B) (kappa : B -> A) (l : list A) :
  (forall x y, x ∈ l -> f x = Some y -> kappa y = x) ->
  map kappa (omap f l) = base.filter (fun x => is_Some (f x)) l.
Proof.
  induction l as [|x l IH]; intros Hf; [done|].
  assert (map kappa (omap f l) = base.filter (fun x => is_Some (f x)) l) as IH'
    by (apply IH; intros y z Hy; apply Hf; by right).
  rewrite filter_cons. destruct (decide (is_Some (f x))) as [[y Hy]|Hn]; cbn in *.
  - rewrite Hy. simpl. rewrite IH', (Hf x y); [done|by left|done].
  - destruct (f x) as [y|]; [|done]. exfalso. apply Hn. by eexists.
Qed.

Lemma omap_omap {A B C} (g : A -> option B) (f : B -> option C) (l : list A) :
  omap f (omap g l) = omap (fun x => g x ≫= f) l.
Proof. induction l as [|x l IH]; [done|]. cbn in *. destruct (g x) as [y|]; [|done]. cbn. destruct (f y); by rewrite IH. Qed.

Lemma omap_ext_all {A B} (f g : A -> option B) (l : list A) : (forall x, f x = g x) -> omap f l = omap g l.
Proof. intros Hfg. by apply omap_ext_in. Qed.

(** ** What is drained *)

Definition init_at d k : option LedgerEntry :=
  match changes d !! k with Some (Created e) => Some (put_last_modified (ledger_seq d) e) | _ => None end.
Definition live_at d k : option LedgerEntry :=
  match changes d !! k with Some (Updated _ e) => Some (put_last_modified (ledger_seq d) e) | _ => None end.
Definition dead_at d k : option LedgerKey :=
  match changes d !! k with Some (Deleted p) => Some (entry_to_key p) | _ => None end.

(** What the delta shows, stamped with its ledger. *)
Definition stamped d m : ledger_map := fun k =>
  match changes d !! k with
  | Some c => put_last_modified (ledger_seq d) <$> current_entry c
  | None => m k
  end.

Lemma drain_eq b d :
  delta_ok d ->
  drain_categorization_for_bucket_update b d =
  (categorize_changes (changes_in_order d) b (ledger_seq d),
   MkDelta (ledger_seq d) ∅ [] (fee_pool_delta d) (total_coins_delta d)).
Proof. intros Hd. unfold drain_categorization_for_bucket_update. by rewrite drain_all. Qed.

Lemma drained_lists b d :
  let cat := categorize_changes (changes_in_order d) b (ledger_seq d) in
  cat_init_entries cat = omap (init_at d) (change_order d) /\
  cat_live_entries cat = omap (live_at d) (change_order d) /\
  cat_dead_keys cat = omap (dead_at d) (change_order d).
Proof.
  simpl. destruct (categorize_spec (changes_in_order d) b (ledger_seq d)) as (-> & -> & -> & _).
  unfold changes_in_order. rewrite !omap_omap. unfold init_at, live_at, dead_at.
  split; [|split]; apply omap_ext_all; intros k; by destruct (changes d !! k) as [[]|].
Qed.

Lemma at_keys d k :
  delta_ok d ->
  (forall e, init_at d k = Some e -> entry_to_key e = k) /\ (forall e, live_at d k = Some e -> entry_to_key e = k) /\
  (forall k', dead_at d k = Some k' -> k' = k).
Proof.
  intros Hd. unfold init_at, live_at, dead_at. destruct (changes d !! k) as [c|] eqn:Hc; [|done].
  pose proof (ok_keyed _ Hd _ _ Hc) as Hk.
  destruct c as [x|p x|p]; (split; [|split]); try done; intros ? [= <-]; rewrite ?put_last_modified_key;
    apply Hk; (by left) || (by right).
Qed.

(** The keys of the three lists are in order those with a change of that kind. *)
Lemma drained_keys d :
  delta_ok d ->
  map entry_to_key (omap (init_at d) (change_order d)) = base.filter (fun k => is_Some (init_at d k)) (change_order d) /\
  map entry_to_key (omap (live_at d) (change_order d)) = base.filter (fun k => is_Some (live_at d k)) (change_order d) /\
  omap (dead_at d) (change_order d) = base.filter (fun k => is_Some (dead_at d k)) (change_order d).
Proof.
  intros Hd. split; [|split].
  - apply omap_keys. intros k e _. by apply at_keys.
  - apply omap_keys. intros k e _. by apply at_keys.
  - rewrite <- (omap_keys (dead_at d) id); [by rewrite map_id|]. intros k k' _. by apply at_keys.
Qed.

Lemma in_kind {A} d (f : LedgerKey -> option A) k :
  delta_ok d -> (changes d !! k = None -> f k = None) ->
  k ∈ base.filter (fun k => is_Some (f k)) (change_order d) <-> is_Some (f k).
Proof.
  intros Hd Hf. rewrite list_elem_of_filter. split; [by intros [? _]|]. intros Hs. split; [done|].
  apply (ok_order _ Hd). destruct (changes d !! k) eqn:Hc; [by eexists|]. rewrite Hf in Hs by done. by destruct Hs.
Qed.

Lemma option_eta {A} (o : option A) : match o with Some x => Some x | None => None end = o.
Proof. by destruct o. Qed.

(** The last entry with a key, where it is the only one. *)
Lemma last_with_omap d (f : LedgerKey -> option LedgerEntry) k :
  delta_ok d -> (forall k e, f k = Some e -> entry_to_key e = k) -> (changes d !! k = None -> f k = None) ->
  last_with (omap f (change_order d)) k = f k.
Proof.
  intros Hd Hf Hn.
  assert (forall l, last_with (omap f l) k = if decide (k ∈ l) then f k else None) as Hl.
  { induction l as [|x l IH]; [by rewrite decide_False by apply not_elem_of_nil|].
    destruct (decide (k = x)) as [<-|Hne].
    - rewrite decide_True by by left. cbn. destruct (f k) as [e|] eqn:He.
      + cbn in *. rewrite IH. destruct (decide (k ∈ l)); [done|]. by rewrite decide_True by by apply Hf.
      + cbn in *. rewrite IH. by case_decide.
    - assert (last_with (omap f (x :: l)) k = last_with (omap f l) k) as ->.
      { cbn. destruct (f x) as [e|] eqn:He; [|done]. cbn. rewrite decide_False; [exact (option_eta _)|].
        intros E. apply Hne. rewrite <- (Hf x e He). exact (eq_sym E). }
      rewrite IH. destruct (decide (k ∈ l)); [rewrite decide_True by by right|rewrite decide_False]; [done|done|].
      by intros [?|?]%elem_of_cons. }
  rewrite Hl. case_decide as Hk; [done|]. symmetry. apply Hn. by apply not_in_order.
Qed.

(** The batch of a close. *)
Definition batch_of (P : Z) d : batch :=
  MkBatch P (omap (init_at d) (change_order d)) (omap (live_at d) (change_order d)) (omap (dead_at d) (change_order d)).

Lemma batch_of_keys P d k :
  delta_ok d ->
  (k ∈ keys (inits (batch_of P d)) <-> is_Some (init_at d k)) /\
  (k ∈ keys (lives (batch_of P d)) <-> is_Some (live_at d k)) /\
  (k ∈ deads (batch_of P d) <-> is_Some (dead_at d k)).
Proof.
  intros Hd. destruct (drained_keys d Hd) as (Hi & Hl & He).
  assert (k ∈ map entry_to_key (omap (init_at d) (change_order d)) <-> is_Some (init_at d k)) as Hi'
    by (rewrite Hi; apply in_kind; [done|]; unfold init_at; by intros ->).
  assert (k ∈ map entry_to_key (omap (live_at d) (change_order d)) <-> is_Some (live_at d k)) as Hl'
    by (rewrite Hl; apply in_kind; [done|]; unfold live_at; by intros ->).
  assert (k ∈ omap (dead_at d) (change_order d) <-> is_Some (dead_at d k)) as He'
    by (rewrite He; apply in_kind; [done|]; unfold dead_at; by intros ->).
  exact (conj Hi' (conj Hl' He')).
Qed.

Lemma batch_of_valid P d m : delta_of d m -> valid_batch (batch_of P d) m.
Proof.
  intros [Hd Hdc].
  assert (forall k, ~ (is_Some (init_at d k) /\ is_Some (live_at d k)) /\ ~ (is_Some (init_at d k) /\ is_Some (dead_at d k)) /\
    ~ (is_Some (live_at d k) /\ is_Some (dead_at d k))) as Hone.
  { intros k. unfold init_at, live_at, dead_at. destruct (changes d !! k) as [[]|]; split_and!; intros [[? ?] [? ?]]; done. }
  assert (forall k, is_Some (init_at d k) -> m k = None) as Hnew.
  { intros k [e He]. unfold init_at in He. destruct (changes d !! k) as [[x|p x|p]|] eqn:Hc; try done.
    by rewrite <- (Hdc _ _ Hc). }
  split; [split; [|split]|]; intros k; destruct (batch_of_keys P d k Hd) as (Ki & Kl & Kd);
    destruct (Hone k) as (H1 & H2 & H3).
  - intros Hi%Ki Hl%Kl. by apply H1.
  - intros Hi%Ki Hl%Kd. by apply H2.
  - intros Hi%Kl Hl%Kd. by apply H3.
  - intros Hi%Ki. by apply Hnew.
Qed.

Lemma batch_of_update P d m k : delta_of d m -> batch_update (batch_of P d) m k = stamped d m k.
Proof.
  intros [Hd Hdc]. pose proof (proj2 (proj2 (batch_of_keys P d k Hd))) as Hdead.
  unfold batch_update. simpl inits. simpl lives.
  rewrite !last_with_omap; [|done| | |done| |].
  - unfold stamped. case_decide as Hk; rewrite Hdead in Hk;
      unfold dead_at, live_at, init_at in *; destruct (changes d !! k) as [[x|p x|p]|]; simpl in *; done || (by destruct Hk) || (destruct Hk; by eexists).
  - intros k' e. by apply at_keys.
  - unfold init_at. by intros ->.
  - intros k' e. by apply at_keys.
  - unfold live_at. by intros ->.
Qed.

Lemma add_unique_eq P seq d bl :
  delta_ok d ->
  add_batch_unique seq P (inits (batch_of P d)) (lives (batch_of P d)) (deads (batch_of P d)) bl =
  add_batch seq P (inits (batch_of P d)) (lives (batch_of P d)) (deads (batch_of P d)) bl.
Proof.
  intros Hd. destruct (drained_keys d Hd) as (Hi & Hl & He). pose proof (ok_nodup _ Hd) as Hnd.
  unfold add_batch_unique, add_batch, add_batch_impl, batch_entries.
  rewrite !dedup_unique, dedup_dead_unique; [done| | | |]; simpl.
  - rewrite He. by apply NoDup_filter.
  - apply Forall_forall. intros k _. apply not_elem_of_nil.
  - change (NoDup (map entry_to_key (omap (live_at d) (change_order d)))). rewrite Hl. by apply NoDup_filter.
  - change (NoDup (map entry_to_key (omap (init_at d) (change_order d)))). rewrite Hi. by apply NoDup_filter.
Qed.

(** ** The state of a close *)

(** The state reads and writes over the ledger [m]. *)
Record close_of (st : CloseLedgerState) m : Prop := {
  c_keyed : keyed_ledger m;
  c_snapshot : faithful (snapshot st) m;
  c_released : lookups_released (snapshot st) = false;
  c_delta : delta_of (current st) m
}.
Definition shown (st : CloseLedgerState) m : ledger_map := overlay (current st) m.

Lemma begin_of s P seq m :
  keyed_ledger m -> faithful s m -> lookups_released s = false -> close_of (begin s P seq) m.
Proof. intros. by split; [| | |split; [apply new_ok|apply new_consistent]]. Qed.

Lemma close_get_entry_of st m k :
  close_of st m ->
  exists st', close_get_entry k st = Ok (shown st m k, st') /\ close_of st' m /\ current st' = current st.
Proof.
  intros [Hm Hs Hr Hd]. unfold close_get_entry, get_change, shown, overlay.
  destruct (changes (current st) !! k) as [c|]; [by exists st|].
  destruct (get_entry_faithful (snapshot st) m k Hs Hr) as (s' & -> & Hs' & Hr'). cbn [result_bind].
  eexists. split; [done|]. by split.
Qed.

Definition run_close_op (st : CloseLedgerState) (op : change_op) : result CloseLedgerState LedgerError :=
  match op with
  | CreateOp e => close_record_create e st
  | UpdateOp p e => close_record_update p e st
  | DeleteOp e => close_record_delete e st
  end.

Lemma run_close_ops_eq st ops :
  try_fold run_close_op ops st = let? d := try_fold run_op ops (current st) in Ok (put_current d st).
Proof.
  revert st. induction ops as [|op ops IH]; intros st; [by destruct st|]. cbn [try_fold].
  assert (run_close_op st op = let? d := run_op (current st) op in Ok (put_current d st)) as -> by (by destruct op).
  destruct (run_op (current st) op) as [d|x]; cbn [result_bind]; [|done]. by rewrite IH.
Qed.

Lemma run_close_ops_of st m ops :
  close_of st m -> ops_valid (shown st m) ops ->
  exists st', try_fold run_close_op ops st = Ok st' /\ close_of st' m /\
    snapshot st' = snapshot st /\ Delta.ledger_seq (current st') = Delta.ledger_seq (current st) /\
    forall k, shown st' m k = fold_left apply_op ops (shown st m) k.
Proof.
  intros [Hm Hs Hr Hd] Hv. destruct (run_ops_refines (current st) m ops Hm Hd Hv) as (d & Hrun & Hd' & Hseq & Hov).
  rewrite run_close_ops_eq, Hrun. eexists. split; [done|]. split; [by split|]. split; [done|]. by split.
Qed.

(** ** One ledger *)

(** A ledger closed: its protocol version and what is recorded. *)
Record ledger_close := MkLedgerClose { protocol_of : Z; ops_of : list change_op }.

(** The snapshot of a bucket list. *)
Definition list_snapshot (bl : BucketList) : SnapshotHandle :=
  with_lookups_and_entries ∅ (fun k => Ok (bucket_list_get bl k)) (Err SnapshotError).

Definition run_ledger_close (bl : BucketList) (lc : ledger_close) : result BucketList LedgerError :=
  let seq := BucketList.ledger_seq bl + 1 in
  let? st := try_fold run_close_op (ops_of lc) (begin (list_snapshot bl) (protocol_of lc) seq) in
  let '(cat, st) := drain_for_bucket_update true st in
  commit_batch seq (protocol_of lc) cat bl.

(** What a close means: the entries whose keys it names are as recorded, stamped with
    the ledger; the others stay. *)
Definition close_update (seq : Z) (lc : ledger_close) m : ledger_map := fun k =>
  if decide (k ∈ map op_key (ops_of lc)) then put_last_modified seq <$> fold_left apply_op (ops_of lc) m k else m k.

Lemma close_update_keyed seq lc m :
  keyed_ledger m -> ops_valid m (ops_of lc) -> keyed_ledger (close_update seq lc m).
Proof.
  intros Hm Hv.
  assert (forall ops m, keyed_ledger m -> keyed_ledger (fold_left apply_op ops m)) as Hf.
  { clear. induction ops as [|op ops IH]; intros m Hm; [done|]. simpl. apply IH. intros k e. unfold apply_op.
    case_decide as Hk; [|apply Hm]. subst k. by destruct op; intros [= <-]. }
  intros k e. unfold close_update. case_decide; [|apply Hm].
  intros (e0 & He & ->)%fmap_Some. rewrite put_last_modified_key. by apply (Hf (ops_of lc) m Hm).
Qed.

(** The keys a run changes are those of its operations. *)
Lemma run_ops_untouched d m ops d' k :
  keyed_ledger m -> delta_of d m -> ops_valid (overlay d m) ops -> try_fold run_op ops d = Ok d' ->
  k ∉ map op_key ops -> changes d' !! k = changes d !! k.
Proof.
  intros Hm. revert d. induction ops as [|op ops IH]; intros d Hd; [by intros _ [= <-]|]. intros [Hv Hvs]. cbn [try_fold].
  destruct (run_op_refines d m op Hm Hd Hv) as (d1 & Hr & Hd1 & _ & Hov1). rewrite Hr.
  intros Hf [Hne Hk]%not_elem_of_cons. rewrite (IH d1); [|done| |done|done].
  - rewrite (run_op_eq d (overlay d m)) in Hr by (done || apply Hd). injection Hr as <-.
    rewrite set_change_changes. by rewrite decide_False.
  - eapply ops_valid_ext; [|done]. intros k'. by rewrite Hov1.
Qed.

(** A key that was touched and has no change did not exist. *)
Lemma run_ops_touched d m ops d' k :
  keyed_ledger m -> delta_of d m -> ops_valid (overlay d m) ops -> try_fold run_op ops d = Ok d' ->
  k ∈ map op_key ops \/ is_Some (changes d !! k) \/ m k = None -> changes d' !! k = None -> m k = None.
Proof.
  intros Hm. revert d. induction ops as [|op ops IH]; intros d Hd.
  { intros _ [= <-] [Hk|[[c Hc]|]] Hn; [by apply elem_of_nil in Hk|congruence|done]. }
  intros [Hv Hvs]. cbn [try_fold]. destruct (run_op_refines d m op Hm Hd Hv) as (d1 & Hr & Hd1 & _ & Hov1). rewrite Hr.
  intros Hf Hk. apply (IH d1); [done| |done|].
  { eapply ops_valid_ext; [|done]. intros k'. by rewrite Hov1. }
  rewrite (run_op_eq d (overlay d m)) in Hr by (done || apply Hd). injection Hr as <-.
  rewrite set_change_changes. destruct (decide (k = op_key op)) as [-> |Hne].
  - destruct (op_change op _) eqn:Hoc; [right; left; by eexists|]. right. right. by apply (op_drops d).
  - destruct Hk as [[?|?]%elem_of_cons|?]; [done|by left|by right].
Qed.

(** The changes of a close, stamped, make the ledger the close means. *)
Lemma stamped_update m seq ops d :
  keyed_ledger m -> ops_valid m ops -> try_fold run_op ops (LedgerDelta_new seq) = Ok d -> delta_of d m ->
  Delta.ledger_seq d = seq -> (forall k, overlay d m k = fold_left apply_op ops m k) ->
  forall P k, stamped d m k = close_update seq (MkLedgerClose P ops) m k.
Proof.
  intros Hm Hv Hrun [Hd Hdc] Hseq Hov P k. unfold stamped, close_update. simpl. specialize (Hov k). unfold overlay in Hov.
  destruct (decide (k ∈ map op_key ops)) as [Hk|Hk].
  - destruct (changes d !! k) as [c|] eqn:Hc; [by rewrite Hov, Hseq|].
    assert (m k = None) as Hn.
    { apply (run_ops_touched (LedgerDelta_new seq) m ops d); [done| | |done|by left|done].
      - split; [apply new_ok|apply new_consistent].
      - eapply ops_valid_ext; [|done]. intros k'. by rewrite new_overlay. }
    by rewrite <- Hov, Hn.
  - rewrite (run_ops_untouched (LedgerDelta_new seq) m ops d k); [|done| | |done|done].
    + unfold LedgerDelta_new; simpl; by rewrite lookup_empty.
    + split; [apply new_ok|apply new_consistent].
    + eapply ops_valid_ext; [|done]. intros k'. by rewrite new_overlay.
Qed.

Lemma list_snapshot_faithful bl : keyed_ledger (bucket_list_get bl) -> faithful (list_snapshot bl) (bucket_list_get bl).
Proof. intros Hm. apply new_faithful; [done| |done]. intros k e Hk. by rewrite lookup_empty in Hk. Qed.

(** The drained batch of a state, in the bucket list. *)
Lemma commit_drained P seq d bl st :
  delta_ok d -> current st = d -> Delta.ledger_seq d = seq ->
  (let '(cat, st) := drain_for_bucket_update true st in commit_batch seq P cat bl) =
  map_err BucketFailed (add_batch seq P (inits (batch_of P d)) (lives (batch_of P d)) (deads (batch_of P d)) bl).
Proof.
  intros Hd Hst Hseq. unfold drain_for_bucket_update. rewrite Hst, drain_eq by done. unfold commit_batch.
  destruct (drained_lists true d) as (Hi & Hl & He). rewrite Hi, Hl, He, <- (add_unique_eq P) by done. done.
Qed.

Lemma run_ledger_close_ok P n bl lc :
  list_ok P n bl -> P <= protocol_of lc -> V12 <= protocol_of lc -> 0 <= n -> n + 1 + 2 ^ 19 <= u32_max ->
  keyed_ledger (bucket_list_get bl) -> ops_valid (bucket_list_get bl) (ops_of lc) ->
  exists bl', run_ledger_close bl lc = Ok bl' /\ list_ok (protocol_of lc) (n + 1) bl' /\
    forall k, bucket_list_get bl' k = close_update (n + 1) lc (bucket_list_get bl) k.
Proof.
  intros Hok HP HV Hn Hb Hm Hv. pose proof Hok as [Hseq _]. unfold run_ledger_close. rewrite Hseq.
  set (m := bucket_list_get bl : ledger_map) in *.
  assert (close_of (begin (list_snapshot bl) (protocol_of lc) (n + 1)) m) as Hst
    by (apply begin_of; [done|by apply list_snapshot_faithful|done]).
  assert (forall k, shown (begin (list_snapshot bl) (protocol_of lc) (n + 1)) m k = m k) as Hsh by (intros k; apply new_overlay).
  destruct (run_close_ops_of _ m (ops_of lc) Hst) as (st & Hrun & Hst' & _ & Hds & Hov).
  { eapply ops_valid_ext; [|done]. intros k. symmetry; apply Hsh. }
  rewrite Hrun. cbn [result_bind]. pose proof (c_delta _ _ Hst') as Hd.
  rewrite (commit_drained _ _ (current st)) by (done || apply Hd).
  destruct (add_batch_ok P n (batch_of (protocol_of lc) (current st)) bl) as (bl' & Hadd & Hok' & _ & Hview); [done..| |].
  { destruct (batch_of_valid (protocol_of lc) (current st) m Hd) as [Hdis Hnew]. split; [done|]. intros k Hk.
    rewrite <- get_view. by apply Hnew. }
  exists bl'. change (protocol (batch_of (protocol_of lc) (current st))) with (protocol_of lc) in Hadd. rewrite Hadd.
  split; [done|]. split; [done|]. intros k. unfold bucket_list_get. rewrite get_view, Hview.
  transitivity (batch_update (batch_of (protocol_of lc) (current st)) m k);
    [apply batch_update_ext; symmetry; apply get_view|]. rewrite batch_of_update by done.
  rewrite run_close_ops_eq in Hrun. destruct (try_fold run_op (ops_of lc) _) as [d|] eqn:Hr; [|done]. injection Hrun as <-.
  destruct lc as [Q ops]. apply (stamped_update m (n + 1) ops d); done.
Qed.

(** ** Enumerating the offers *)

Lemma offer_overrides_lookup d k :
  delta_ok d ->
  offer_overrides (changes_in_order d) !! k = if is_offer_key k then current_entry <$> changes d !! k else None.
Proof.
  intros Hd. unfold offer_overrides.
  assert (forall (cs : list EntryChange) (o : gmap LedgerKey (option LedgerEntry)), (forall c, c ∈ cs -> changes d !! change_key c = Some c) ->
    fold_left (fun o c => if is_offer_key (change_key c) then <[change_key c := current_entry c]> o else o) cs o !! k =
    if decide (k ∈ map change_key cs) then (if is_offer_key k then current_entry <$> changes d !! k else o !! k) else o !! k) as Hfold.
  { induction cs as [|c cs IH]; intros o Hcs; [done|]. cbn [fold_left map]. rewrite IH by (intros c' Hc'; apply Hcs; by right).
    specialize (Hcs c (list_elem_of_here _ _)). destruct (decide (k = change_key c)) as [-> |Hne].
    - rewrite (decide_True (P := change_key c ∈ change_key c :: _)) by by left.
      destruct (is_offer_key (change_key c)) eqn:Ho; [|by case_decide].
      rewrite lookup_insert_eq, Hcs. by case_decide.
    - assert ((if is_offer_key (change_key c) then <[change_key c:=current_entry c]> o else o) !! k = o !! k) as ->.
      { destruct (is_offer_key (change_key c)); [|done]. by apply lookup_insert_ne. }
      destruct (decide (k ∈ map change_key cs)) as [Hin|Hin]; [rewrite decide_True by by right|rewrite decide_False]; [done|done|].
      by intros [?|?]%elem_of_cons. }
  assert (forall c, c ∈ changes_in_order d -> changes d !! change_key c = Some c) as Hcs.
  { intros c (k' & _ & Hc)%list_elem_of_omap. assert (change_key c = k') as ->; [|done].
    destruct c; apply (ok_keyed _ Hd _ _ Hc); (by left) || (by right). }
  rewrite Hfold by done. rewrite lookup_empty. destruct (decide (k ∈ map change_key (changes_in_order d))) as [|Hk]; [done|].
  destruct (changes d !! k) as [c|] eqn:Hc; [|by destruct (is_offer_key k)]. exfalso. apply Hk.
  assert (change_key c = k) as <- by (destruct c; apply (ok_keyed _ Hd _ _ Hc); (by left) || (by right)).
  apply list_elem_of_fmap_2, list_elem_of_omap. exists (change_key c). split; [|done]. apply (ok_order _ Hd). by eexists.
Qed.

(** What the overrides make of an entry of the snapshot. *)
Definition overridden_entry (o : gmap LedgerKey (option LedgerEntry)) e : option LedgerEntry :=
  match o !! entry_to_key e with Some oe => oe | None => Some e end.

Lemma override_fold es res (o : gmap LedgerKey (option LedgerEntry)) :
  NoDup (map entry_to_key es) ->
  exists rest, fold_left override_step es (res, o) = (res ++ omap (overridden_entry o) es, rest) /\
    forall k, rest !! k = if decide (k ∈ map entry_to_key es) then None else o !! k.
Proof.
  revert res o. induction es as [|e es IH]; intros res o Hnd.
  { exists o. split; [by rewrite app_nil_r|done]. }
  cbn [map] in Hnd. apply NoDup_cons in Hnd as [Hnin Hnd].
  assert (forall o', (forall k, k <> entry_to_key e -> o' !! k = o !! k) ->
    omap (overridden_entry o') es = omap (overridden_entry o) es) as Hsame.
  { intros o' Ho'. apply omap_ext_in. intros x Hx. unfold overridden_entry. rewrite Ho'; [done|].
    intros E. apply Hnin. rewrite <- E. by apply list_elem_of_fmap_2. }
  assert (forall res' o', override_step (res, o) e = (res', o') -> (forall k, k <> entry_to_key e -> o' !! k = o !! k) ->
    o' !! entry_to_key e = None -> res' = res ++ omap (overridden_entry o) [e] ->
    exists rest, fold_left override_step (e :: es) (res, o) = (res ++ omap (overridden_entry o) (e :: es), rest) /\
    forall k, rest !! k = if decide (k ∈ map entry_to_key (e :: es)) then None else o !! k) as Hstep.
  { intros res' o' Hs Ho' Hn ->. cbn [fold_left]. rewrite Hs.
    destruct (IH (res ++ omap (overridden_entry o) [e]) o' Hnd) as (rest & Hf & Hrest).
    assert (omap (overridden_entry o) (e :: es) = omap (overridden_entry o) [e] ++ omap (overridden_entry o) es) as ->
      by (apply (omap_app (overridden_entry o) [e] es)).
    exists rest. rewrite Hf, (Hsame o'), app_assoc by done. split; [done|].
    intros k. rewrite Hrest. cbn [map]. destruct (decide (k = entry_to_key e)) as [-> |Hne].
    - rewrite (decide_True (P := _ ∈ _ :: _)) by by left. by case_decide.
    - rewrite Ho' by done. destruct (decide (k ∈ map entry_to_key es)) as [Hin|Hin];
        [rewrite decide_True by by right|rewrite decide_False]; [done|done|]. by intros [?|?]%elem_of_cons. }
  unfold override_step in Hstep. destruct (o !! entry_to_key e) as [[x|]|] eqn:Ho.
  - eapply Hstep; [done|by intros k Hk; apply lookup_delete_ne|apply lookup_delete_eq|]. cbn. unfold overridden_entry. by rewrite Ho.
  - eapply Hstep; [done|by intros k Hk; apply lookup_delete_ne|apply lookup_delete_eq|]. cbn. unfold overridden_entry. rewrite Ho.
    by rewrite app_nil_r.
  - eapply Hstep; [done|done|done|]. cbn. unfold overridden_entry. by rewrite Ho.
Qed.

Lemma overrides_shown d m k :
  delta_ok d -> is_offer_key k = true ->
  overlay d m k = match offer_overrides (changes_in_order d) !! k with Some oe => oe | None => m k end.
Proof.
  intros Hd Hk. rewrite offer_overrides_lookup, Hk by done. unfold overlay. by destruct (changes d !! k).
Qed.

Lemma overrides_key d k e :
  delta_ok d -> offer_overrides (changes_in_order d) !! k = Some (Some e) -> entry_to_key e = k /\ is_offer_key k = true.
Proof.
  intros Hd. rewrite offer_overrides_lookup by done. destruct (is_offer_key k); [|done].
  intros (c & Hc & He)%fmap_Some. split; [|done]. apply (ok_keyed _ Hd _ _ Hc). by left.
Qed.

Lemma omap_nodup {A B K} (ka : A -> K) (kb : B -> K) (f : A -> option B) (l : list A) :
  NoDup (map ka l) -> (forall x y, x ∈ l -> f x = Some y -> kb y = ka x) ->
  NoDup (map kb (omap f l)) /\ forall x, x ∈ map kb (omap f l) -> x ∈ map ka l.
Proof.
  induction l as [|x l IH]; [done|]. cbn [map]. intros [Hnin Hnd]%NoDup_cons Hf.
  destruct IH as [IH1 IH2]; [done|intros y z Hy; apply Hf; by right|]. cbn in *. destruct (f x) as [y|] eqn:Hx; simpl.
  - rewrite (Hf x y) by (done || by left). split; [apply NoDup_cons; split; [|done]; intros Hin; by apply Hnin, IH2|].
    intros k [-> |Hk]%elem_of_cons; [by left|right; by apply IH2].
  - split; [done|]. intros k Hk. right. by apply IH2.
Qed.

(** The offers of the snapshot, changed. *)
Lemma kept_offers d m es :
  delta_ok d -> NoDup (map entry_to_key es) ->
  (forall e, e ∈ es <-> is_offer_key (entry_to_key e) = true /\ m (entry_to_key e) = Some e) ->
  let kept := omap (overridden_entry (offer_overrides (changes_in_order d))) es in
  NoDup (map entry_to_key kept) /\ (forall k, k ∈ map entry_to_key kept -> k ∈ map entry_to_key es) /\
  forall e, e ∈ kept <->
    entry_to_key e ∈ map entry_to_key es /\ is_offer_key (entry_to_key e) = true /\ overlay d m (entry_to_key e) = Some e.
Proof.
  intros Hd Hnd Hoff. simpl. set (o := offer_overrides (changes_in_order d)).
  assert (forall x e, x ∈ es -> overridden_entry o x = Some e -> entry_to_key e = entry_to_key x) as Hkey.
  { intros x e _. unfold overridden_entry. destruct (o !! entry_to_key x) as [oe|] eqn:Ho; [|by intros [= ->]].
    intros ->. by apply (overrides_key d _ _ Hd Ho). }
  destruct (omap_nodup entry_to_key entry_to_key (overridden_entry o) es Hnd Hkey) as [H1 H2].
  split; [done|]. split; [done|]. intros e. rewrite list_elem_of_omap. split.
  - intros (x & Hx & He). rewrite (Hkey x e Hx He). split; [by apply list_elem_of_fmap_2|].
    apply Hoff in Hx as [Hx1 Hx2]. split; [done|]. rewrite overrides_shown by done. fold o. unfold overridden_entry in He.
    destruct (o !! entry_to_key x); [done|congruence].
  - intros ((x & E & Hx)%list_elem_of_fmap & He & Hov). exists x. split; [done|]. rewrite overrides_shown in Hov by done.
    fold o in Hov. unfold overridden_entry. rewrite <- E. apply Hoff in Hx as [_ Hx]. rewrite <- E in Hx.
    destruct (o !! entry_to_key e); [done|congruence].
Qed.

(** The offers that the snapshot does not have. *)
Lemma added_offers d m es (rest : gmap LedgerKey (option LedgerEntry)) :
  delta_ok d ->
  (forall k, rest !! k = if decide (k ∈ map entry_to_key es) then None else offer_overrides (changes_in_order d) !! k) ->
  (forall e, e ∈ es <-> is_offer_key (entry_to_key e) = true /\ m (entry_to_key e) = Some e) ->
  let added := omap snd (map_to_list rest) in
  NoDup (map entry_to_key added) /\
  forall e, e ∈ added <->
    entry_to_key e ∉ map entry_to_key es /\ is_offer_key (entry_to_key e) = true /\ overlay d m (entry_to_key e) = Some e.
Proof.
  intros Hd Hrest Hoff. simpl.
  assert (forall k e, rest !! k = Some (Some e) ->
    k ∉ map entry_to_key es /\ offer_overrides (changes_in_order d) !! k = Some (Some e) /\ entry_to_key e = k /\ is_offer_key k = true) as Hkey.
  { intros k e. rewrite Hrest. case_decide; [done|]. intros Ho. destruct (overrides_key d k e Hd Ho). done. }
  split.
  - apply (omap_nodup fst entry_to_key snd); [apply NoDup_fst_map_to_list|].
    intros [k oe] e Hin. simpl. intros ->. by apply elem_of_map_to_list, Hkey in Hin as (_ & _ & ? & _).
  - intros e. rewrite list_elem_of_omap. split.
    + intros ([k oe] & Hin & He). simpl in He. subst oe. apply elem_of_map_to_list, Hkey in Hin as (Hk & Ho & -> & Hoff').
      split; [done|]. split; [done|]. rewrite overrides_shown by done. by rewrite Ho.
    + intros (Hnin & Hk & Hov). exists (entry_to_key e, Some e). split; [|done]. apply elem_of_map_to_list.
      rewrite Hrest, decide_False by done. rewrite overrides_shown in Hov by done.
      destruct (offer_overrides (changes_in_order d) !! entry_to_key e) as [oe|]; [by rewrite Hov|].
      exfalso. apply Hnin. apply list_elem_of_fmap_2. by apply Hoff.
Qed.

(** ** Properties *)

(** The ledger after closes from [seq] on. *)
Fixpoint ledger_after (seq : Z) m (lcs : list ledger_close) : ledger_map :=
  match lcs with
  | [] => m
  | lc :: lcs => ledger_after (seq + 1) (close_update seq lc m) lcs
  end.
Fixpoint closes_valid (P seq : Z) m (lcs : list ledger_close) : Prop :=
  match lcs with
  | [] => True
  | lc :: lcs => P <= protocol_of lc /\ ops_valid m (ops_of lc) /\ closes_valid (protocol_of lc) (seq + 1) (close_update seq lc m) lcs
  end.

Lemma close_update_ext seq lc m m' k : (forall k, m k = m' k) -> close_update seq lc m k = close_update seq lc m' k.
Proof. intros E. unfold close_update. case_decide; [|apply E]. f_equal. by apply apply_ops_ext. Qed.

Lemma closes_ok lcs P n bl m :
  list_ok P n bl -> V12 <= P -> 0 <= n -> n + len lcs + 2 ^ 19 <= u32_max -> keyed_ledger m ->
  (forall k, bucket_list_get bl k = m k) -> closes_valid P (n + 1) m lcs ->
  exists bl' Q, try_fold run_ledger_close lcs bl = Ok bl' /\ list_ok Q (n + len lcs) bl' /\
    keyed_ledger (ledger_after (n + 1) m lcs) /\ forall k, bucket_list_get bl' k = ledger_after (n + 1) m lcs k.
Proof.
  revert P n bl m. induction lcs as [|lc lcs IH]; intros P n bl m Hok HP Hn Hb Hm Heq Hv.
  { exists bl, P. replace (n + len []) with n by (unfold len; simpl; lia). done. }
  destruct Hv as (HPlc & Hops & Hv). rewrite len_cons in Hb |- *. pose proof (len_nonneg lcs).
  assert (keyed_ledger (bucket_list_get bl)) as Hm' by (intros k e He; apply Hm; by rewrite <- Heq).
  destruct (run_ledger_close_ok P n bl lc) as (bl1 & Hr & Hok1 & Hg1); [done|done|lia|done|lia|done| |].
  { eapply ops_valid_ext; [|done]. intros k. by rewrite Heq. }
  destruct (IH (protocol_of lc) (n + 1) bl1 (close_update (n + 1) lc m)) as (bl' & Q & Hf & Hok' & Hk' & Hg'); [done|lia|lia|lia| | |done|].
  { by apply close_update_keyed. }
  { intros k. rewrite Hg1. by apply close_update_ext. }
  exists bl', Q. cbn [try_fold]. rewrite Hr. split; [done|]. replace (n + (1 + len lcs)) with (n + 1 + len lcs) by lia. done.
Qed.

(** C2: Closing ledgers builds the ledger that was recorded. From the empty bucket list
    on, every ledger is closed over a snapshot of the list: the changes are recorded
    one by one in the state of the close, coalesced, drained and stamped, and the
    batch goes unchecked for duplicates into the list. However long the history,
    every step succeeds, and a lookup in the list, like a read in the state of the
    next close, answers the entry as it was last recorded, stamped with the ledger
    that changed it last, or its absence. *)
Theorem ledger_closes_refine dir lcs k P :
  closes_valid V12 1 (fun _ => None) lcs -> len lcs + 2 ^ 19 <= u32_max ->
  exists bl st, try_fold run_ledger_close lcs (BucketList_new dir) = Ok bl /\ BucketList.ledger_seq bl = len lcs /\
    bucket_list_get bl k = ledger_after 1 (fun _ => None) lcs k /\
    close_get_entry k (begin (list_snapshot bl) P (len lcs + 1)) = Ok (ledger_after 1 (fun _ => None) lcs k, st).
Proof.
  intros Hv Hb. destruct (closes_ok lcs V12 0 (BucketList_new dir) (fun _ => None)) as (bl & Q & Hr & [Hseq _] & Hk & Hg); try done.
  { apply new_list_ok. }
  assert (keyed_ledger (bucket_list_get bl)) as Hm by (intros k' e He; apply Hk; by rewrite <- Hg).
  destruct (close_get_entry_of (begin (list_snapshot bl) P (len lcs + 1)) (bucket_list_get bl) k) as (st & Hst & _).
  { apply begin_of; [done|by apply list_snapshot_faithful|done]. }
  exists bl, st. split; [done|]. split; [done|]. split; [apply Hg|]. rewrite Hst. unfold shown. simpl.
  rewrite new_overlay. by rewrite Hg.
Qed.

(** Recording a change adds at most one key. *)
Lemma set_change_len k oc d : len (change_order (set_change k oc d)) <= len (change_order d) + 1.
Proof.
  unfold set_change. destruct oc as [c|]; [destruct (changes d !! k)|]; simpl; try lia.
  - rewrite len_app, len_cons, len_nil. lia.
  - unfold len. pose proof (length_filter (fun k' => k' <> k) (change_order d)). lia.
Qed.

Lemma run_ops_len d m ops d' :
  keyed_ledger m -> delta_of d m -> ops_valid (overlay d m) ops -> try_fold run_op ops d = Ok d' ->
  len (change_order d') <= len (change_order d) + len ops.
Proof.
  intros Hm. revert d. induction ops as [|op ops IH]; intros d Hd.
  { intros _ [= <-]. rewrite len_nil. lia. }
  intros [Hv Hvs]. cbn [try_fold]. destruct (run_op_refines d m op Hm Hd Hv) as (d1 & Hr & Hd1 & _ & Hov1). rewrite Hr. intros Hf.
  specialize (IH d1 Hd1). rewrite (run_op_eq d (overlay d m)) in Hr by (done || apply Hd). injection Hr as <-.
  pose proof (set_change_len (op_key op) (op_change op (changes d !! op_key op)) d). rewrite len_cons.
  assert (ops_valid (overlay (set_change (op_key op) (op_change op (changes d !! op_key op)) d) m) ops) as Hvs'.
  { eapply ops_valid_ext; [|done]. intros k'. by rewrite Hov1. }
  specialize (IH Hvs' Hf). lia.
Qed.

(** C23: The metadata captured around a part of a close, an upgrade for example, is exactly
    what that part did: replayed on the ledger the state showed before, every stated
    entry is found as stated, and the ledger the state shows after comes out, however
    the part's changes were coalesced with those before it. *)
Theorem captured_changes_replay st m ops :
  close_of st m -> ops_valid (shown st m) ops ->
  4 * len (change_order (current st)) + 2 * len ops <= u32_max ->
  exists meta st' w,
    capture_entry_changes (fun st => let? st := try_fold run_close_op ops st in Ok (tt, st)) st = Ok (tt, meta, st') /\
    close_of st' m /\ (forall k, shown st' m k = fold_left apply_op ops (shown st m) k) /\
    replay_changes meta (shown st m) = Some w /\ forall k, w k = shown st' m k.
Proof.
  intros Hst Hv Hlen. destruct (run_close_ops_of st m ops Hst Hv) as (st' & Hrun & Hst' & _ & _ & Hov).
  pose proof (c_delta _ _ Hst) as Hd. pose proof (c_delta _ _ Hst') as Hd'. pose proof (c_keyed _ _ Hst) as Hm.
  rewrite run_close_ops_eq in Hrun. destruct (try_fold run_op ops (current st)) as [d|] eqn:Hr; [|done].
  assert (current st' = d) as Hcur by (by injection Hrun as <-).
  pose proof (run_ops_len (current st) m ops d Hm Hd Hv Hr) as Hl.
  destruct (changes_since_leads (current st) d m) as (w & Hw & Hwk); [done|by rewrite <- Hcur| |lia|].
  { apply (run_ops_go_on (current st) (current st) m ops); try done. intros k c Hc Hn. congruence. }
  exists (changes_since (checkpoint (current st)) d), st', w. unfold capture_entry_changes.
  rewrite run_close_ops_eq, Hr. cbn [result_bind] in *. injection Hrun as <-. done.
Qed.

(** All offers of a close: when the snapshot enumerates the offers of the ledger, each
    once, the state enumerates those it shows, each once: the ones of the ledger as
    changed, without the deleted, with the new. *)
Theorem all_offers_correct st m es :
  close_of st m -> overrides (snapshot st) = ∅ -> entries_fn (snapshot st) = Some (Ok es) ->
  NoDup (map entry_to_key es) -> (forall e, e ∈ es <-> is_offer_key (entry_to_key e) = true /\ m (entry_to_key e) = Some e) ->
  exists res, all_offers st = Ok res /\ NoDup (map entry_to_key res) /\
    forall e, e ∈ res <-> is_offer_key (entry_to_key e) = true /\ shown st m (entry_to_key e) = Some e.
Proof.
  intros [Hm Hs Hr [Hd Hdc]] Hno Hes Hnd Hoff. unfold all_offers, all_entries. rewrite Hes. cbn [result_bind].
  rewrite bool_decide_eq_true_2 by done. cbn [result_bind]. unfold shown. case_bool_decide as Hempty.
  { exists es. split; [done|]. split; [done|]. intros e. rewrite Hoff. split; intros [H1 H2]; (split; [done|]).
    - rewrite overrides_shown by done. by rewrite Hempty, lookup_empty.
    - rewrite overrides_shown in H2 by done. by rewrite Hempty, lookup_empty in H2. }
  destruct (override_fold es [] (offer_overrides (changes_in_order (current st))) Hnd) as (rest & Hf & Hrest). rewrite Hf. simpl. eexists. split; [done|].
  destruct (kept_offers _ m es Hd Hnd Hoff) as (Hnd1 & Hsub & Hin1).
  destruct (added_offers _ m es rest Hd Hrest Hoff) as (Hnd2 & Hin2). split.
  - rewrite map_app. apply NoDup_app. split; [done|]. split; [|done].
    intros k Hk (e & -> & He)%list_elem_of_fmap. apply Hin2 in He as [He _]. by apply He, Hsub.
  - intros e. rewrite elem_of_app, Hin1, Hin2. destruct (decide (entry_to_key e ∈ map entry_to_key es)); tauto.
Qed.
End facts.

Section witnesses.
#[local] Existing Instance demo_types.

(** Four ledgers: two accounts created, one charged and an offer made, the offer
    changed and the other account erased in a ledger that also creates and erases a
    third, the second account created anew. *)
Definition demo_offer (seller id amount : Z) : LedgerEntry :=
  MkEntry 0 (Offer (seller : AccountId) id (amount : Payload)) (0 : Payload).

Definition demo_closes : list ledger_close :=
  [MkLedgerClose 22 [CreateOp (demo_account 1 100 0); CreateOp (demo_account 2 50 0)];
   MkLedgerClose 23 [UpdateOp (demo_account 1 100 1) (demo_account 1 90 0); CreateOp (demo_offer 1 4 10)];
   MkLedgerClose 23 [UpdateOp (put_last_modified 2 (demo_offer 1 4 10)) (demo_offer 1 4 7); CreateOp (demo_account 3 5 0);
     DeleteOp (demo_account 2 50 1); DeleteOp (demo_account 3 5 0)];
   MkLedgerClose 23 [CreateOp (demo_account 2 60 0)]].

Definition closes_valid_b (P seq : Z) (m : ledger_map) (lcs : list ledger_close) : bool :=
  (fix go P seq m lcs :=
    match lcs with
    | [] => true
    | lc :: lcs => (P <=? protocol_of lc) && ops_valid_b m (ops_of lc) && go (protocol_of lc) (seq + 1) (close_update seq lc m) lcs
    end) P seq m lcs.

Lemma closes_valid_check P seq m lcs : closes_valid_b P seq m lcs = true -> closes_valid P seq m lcs.
Proof.
  revert P seq m. induction lcs as [|lc lcs IH]; intros P seq m; [done|]. simpl.
  intros [[HP%Z.leb_le Hv]%andb_true_iff Hvs]%andb_true_iff. split; [done|]. split; [by apply ops_valid_check|by apply IH].
Qed.

Lemma ledger_closes_refine_witness :
  exists bl st, try_fold run_ledger_close demo_closes (BucketList_new true) = Ok bl /\ BucketList.ledger_seq bl = 4 /\
    bucket_list_get bl (KeyOffer id1 4) = Some (put_last_modified 3 (demo_offer 1 4 7)) /\
    close_get_entry (KeyOffer id1 4) (begin (list_snapshot bl) 23 5) = Ok (Some (put_last_modified 3 (demo_offer 1 4 7)), st).
Proof.
  apply (ledger_closes_refine true demo_closes (KeyOffer id1 4) 23).
  - apply closes_valid_check. by vm_compute.
  - by vm_compute.
Defined.

Definition demo_state : CloseLedgerState := begin demo_snapshot 23 6.

Lemma demo_state_of : close_of demo_state demo_ledger.
Proof. apply begin_of; [apply demo_ledger_keyed|apply demo_snapshot_faithful|done]. Qed.

Let upgrade : list change_op := [UpdateOp (demo_account 1 100 5) (demo_account 1 70 6); CreateOp (demo_account 3 1 6)].

Lemma captured_changes_replay_witness :
  exists meta st' w,
    capture_entry_changes (fun st => let? st := try_fold run_close_op upgrade st in Ok (tt, st)) demo_state = Ok (tt, meta, st') /\
    close_of st' demo_ledger /\ (forall k, shown st' demo_ledger k = fold_left apply_op upgrade (shown demo_state demo_ledger) k) /\
    replay_changes meta (shown demo_state demo_ledger) = Some w /\ forall k, w k = shown st' demo_ledger k.
Proof.
  apply (captured_changes_replay demo_state demo_ledger upgrade demo_state_of).
  - apply ops_valid_check. by vm_compute.
  - by vm_compute.
Defined.

Lemma all_offers_correct_witness :
  exists res, all_offers (begin (with_lookups_and_entries ∅ (fun k => Ok (demo_ledger k)) (Ok [])) 23 6) = Ok res /\
    NoDup (map entry_to_key res) /\
    forall e, e ∈ res <-> is_offer_key (entry_to_key e) = true /\
      shown (begin (with_lookups_and_entries ∅ (fun k => Ok (demo_ledger k)) (Ok [])) 23 6) demo_ledger (entry_to_key e) = Some e.
Proof.
  apply (all_offers_correct _ demo_ledger []).
  - apply begin_of; [apply demo_ledger_keyed| |done]. apply new_faithful; [apply demo_ledger_keyed| |done].
    intros k e Hk. by rewrite lookup_empty in Hk.
  - done.
  - done.
  - constructor.
  - intros e. split; [by intros ?%elem_of_nil|]. intros [H1 H2]. by destruct (entry_to_key e).
Defined.
End witnesses.
