(* ===== verification/Lists.v ===== *)
(** * Lists: lemmas on lists, lists of lists and fallible folds

    Shared by the files on transaction sets and on the transaction queue; also stable
    sorting, total preorders, and sorting with a comparison that may panic. *)


From S2P Require Import Prelude.

Lemma StronglySorted_sym_perm {A} (R : A -> A -> Prop) l k :
  (forall x y, R x y -> R y x) -> l ≡ₚ k -> StronglySorted R l -> StronglySorted R k.
Proof.
  intros Hsym. induction 1 as [|x l k Hp IH|x y l|l1 l2 l3 _ IH1 _ IH2]; intros Hs; [done| | |auto].
  - apply StronglySorted_inv in Hs as [Hs Hx]. constructor; [auto|]. by rewrite <- Hp.
  - apply StronglySorted_inv in Hs as [Hs Hy]. apply StronglySorted_inv in Hs as [Hs Hx].
    apply Forall_cons in Hy as [Hyx Hy]. constructor; [by constructor|]. constructor; [by apply Hsym|done].
Qed.

Lemma StronglySorted_filter_list {A} (R : A -> A -> Prop) (P : A -> Prop) `{!forall x, Decision (P x)} l :
  StronglySorted R l -> StronglySorted R (filter P l).
Proof.
  induction 1 as [|x l Hs IH Hx]; [constructor|]. rewrite filter_cons. case_decide; [|done].
  constructor; [done|]. rewrite Forall_forall in Hx |- *. intros y [_ Hy]%list_elem_of_filter. by apply Hx.
Qed.

Lemma concat_filter_nonempty {A} (ls : list (list A)) : concat (filter (fun l => l <> []) ls) = concat ls.
Proof.
  induction ls as [|l ls IH]; [done|]. rewrite filter_cons. destruct l as [|x l].
  - rewrite decide_False by auto. done.
  - rewrite decide_True by done. simpl. by rewrite IH.
Qed.

Lemma elem_of_concat {A} (ls : list (list A)) x : x ∈ concat ls <-> exists l, l ∈ ls /\ x ∈ l.
Proof.
  rewrite list_elem_of_In, in_concat. setoid_rewrite <- list_elem_of_In. done.
Qed.

Lemma NoDup_concat_disjoint {A} (ls : list (list A)) :
  Forall NoDup ls -> StronglySorted (fun l k => forall x, x ∈ l -> x ∉ k) ls -> NoDup (concat ls).
Proof.
  intros Hnd Hs. induction Hs as [|l ls Hs IH Hl]; [constructor|]. apply Forall_cons in Hnd as [Hnl Hnd].
  simpl. apply NoDup_app. split; [done|]. split; [|by apply IH].
  intros x Hx (k & Hk & Hxk)%elem_of_concat. rewrite Forall_forall in Hl. by apply (Hl k Hk x).
Qed.

Lemma forall2_elem {A B} (R : A -> B -> Prop) l k y : Forall2 R l k -> y ∈ k -> exists x, x ∈ l /\ R x y.
Proof.
  intros Hf Hy. apply list_elem_of_lookup in Hy as [i Hi]. destruct (Forall2_lookup_r _ _ _ _ _ Hf Hi) as (x & Hx & HR).
  exists x. split; [by apply list_elem_of_lookup_2 in Hx|done].
Qed.

Lemma elem_of_concat_map {A} (ls : list (list A)) l x : l ∈ ls -> x ∈ l -> x ∈ concat ls.
Proof. intros Hl Hx. apply elem_of_concat. by exists l. Qed.

Lemma forall2_len {A B} (R : A -> B -> Prop) l k : Forall2 R l k -> len l = len k.
Proof. intros Hf. unfold len. by rewrite (Forall2_length _ _ _ Hf). Qed.

(** The transactions of the schedule are those of the partition. *)
Lemma forall2_concat {A B} (R : A -> B -> Prop) ls ks : Forall2 (Forall2 R) ls ks -> Forall2 R (concat ls) (concat ks).
Proof. induction 1 as [|l k ls ks Hl _ IH]; simpl; [constructor|]. by apply Forall2_app. Qed.

Lemma try_map_id {A E} (f : A -> result A E) l : (forall x, x ∈ l -> f x = Ok x) -> try_map f l = Ok l.
Proof. intros Hf. rewrite (try_map_ok f (fun x => x)) by done. by rewrite list_fmap_id. Qed.

Lemma elem_concat_len {A} (ls : list (list A)) l : l ∈ ls -> len l <= len (concat ls).
Proof.
  intros Hl. apply elem_of_Permutation in Hl as (rest & Hr). rewrite (len_perm _ _ (concat_perm _ _ Hr)). simpl.
  rewrite len_app. pose proof (len_nonneg (concat rest)). lia.
Qed.

Lemma concat_fmap {A B} (f : A -> B) (ls : list (list A)) : concat (fmap (M:=list) f <$> ls) = f <$> concat ls.
Proof. induction ls as [|l ls IH]; csimpl; [done|]. by rewrite IH, fmap_app. Qed.

Lemma try_fold_unit {A E} (f : unit -> A -> result unit E) l : (forall x, x ∈ l -> f tt x = Ok tt) -> try_fold f l tt = Ok tt.
Proof.
  induction l as [|x l IH]; intros Hf; [done|]. simpl. rewrite Hf by left. apply IH. intros y Hy. apply Hf. by right.
Qed.

Lemma filter_all {A} (P : A -> Prop) `{!forall x, Decision (P x)} (l : list A) : (forall x, x ∈ l -> P x) -> filter P l = l.
Proof.
  induction l as [|x l IH]; intros Hall; [done|]. rewrite filter_cons, decide_True by (apply Hall; left).
  f_equal. apply IH. intros y Hy. apply Hall. by right.
Qed.

Lemma NoDup_fmap_inj_on {A B} (f : A -> B) l a b : NoDup (f <$> l) -> a ∈ l -> b ∈ l -> f a = f b -> a = b.
Proof.
  intros Hnd Ha Hb E. apply list_elem_of_lookup in Ha as [i Hi]. apply list_elem_of_lookup in Hb as [j Hj].
  assert (i = j) as ->; [|congruence]. eapply NoDup_lookup; [exact Hnd| |];
    rewrite list_lookup_fmap; [rewrite Hi|rewrite Hj]; simpl; [done|by rewrite E].
Qed.

Lemma fmap_submseteq_of {A B} (f : A -> B) (l k : list A) : l ⊆+ k -> f <$> l ⊆+ f <$> k.
Proof. intros (r & Hp)%submseteq_Permutation. rewrite Hp, fmap_app. by apply submseteq_inserts_r. Qed.

Lemma NoDup_submseteq_down {A} (l k : list A) : l ⊆+ k -> NoDup k -> NoDup l.
Proof. intros (r & Hp)%submseteq_Permutation. rewrite Hp. by intros [? _]%NoDup_app. Qed.

Lemma submseteq_len {A} (l k : list A) : l ⊆+ k -> len l <= len k.
Proof. intros Hs%submseteq_length. unfold len. lia. Qed.

Lemma zip_with_ext_at {A B C} (f g : A -> B -> C) l k :
  (forall i a b, l !! i = Some a -> k !! i = Some b -> f a b = g a b) -> zip_with f l k = zip_with g l k.
Proof.
  revert k. induction l as [|a l IH]; intros [|b k] Hfg; try done. simpl. f_equal; [by apply (Hfg 0%nat)|].
  apply IH. intros i. apply (Hfg (S i)).
Qed.

Lemma zsum_nonneg_in {A} (f : A -> Z) l : (forall x, x ∈ l -> 0 <= f x) -> 0 <= zsum f l.
Proof.
  induction l as [|x l IH]; intros Hf; simpl; [done|]. assert (0 <= f x) by (apply Hf; left).
  assert (0 <= zsum f l); [|lia]. apply IH. intros y Hy. apply Hf. by right.
Qed.

Lemma zsum_le_concat {A} (f : A -> Z) (ls : list (list A)) l : l ∈ ls -> (forall x, x ∈ concat ls -> 0 <= f x) -> zsum f l <= zsum f (concat ls).
Proof.
  intros Hl Hf. apply elem_of_Permutation in Hl as (rest & Hr). pose proof (concat_perm _ _ Hr) as Hp. rewrite Hp. simpl.
  rewrite zsum_app. assert (0 <= zsum f (concat rest)); [|lia]. apply zsum_nonneg_in. intros x Hx. apply Hf.
  rewrite Hp. simpl. apply elem_of_app. by right.
Qed.

Lemma zsum_filter {A} (f : A -> Z) (P : A -> Prop) `{!forall x, Decision (P x)} l :
  zsum f l = zsum f (filter P l) + zsum f (filter (fun x => ~ P x) l).
Proof.
  induction l as [|x l IH]; [done|]. rewrite !filter_cons. destruct (decide (P x)).
  - rewrite (decide_False (P := ~ P x)) by tauto. simpl. lia.
  - rewrite (decide_True (P := ~ P x)) by done. simpl. lia.
Qed.

Lemma concat_filter {A} (P : A -> Prop) `{!forall x, Decision (P x)} ls : concat (filter P <$> ls) = filter P (concat ls).
Proof. induction ls as [|l ls IH]; csimpl; [done|]. by rewrite filter_app, IH. Qed.

Lemma filter_fmap {A B} (f : A -> B) (P : B -> Prop) `{!forall x, Decision (P x)} (l : list A) : filter P (f <$> l) = f <$> filter (fun x => P (f x)) l.
Proof. induction l as [|x l IH]; csimpl; [done|]. rewrite !filter_cons. destruct (decide (P (f x))); csimpl; by rewrite IH. Qed.

Lemma filter_none {A} (P : A -> Prop) `{!forall x, Decision (P x)} (l : list A) : (forall x, x ∈ l -> ~ P x) -> filter P l = [].
Proof.
  induction l as [|x l IH]; intros Hn; [done|]. rewrite filter_cons, decide_False by (apply Hn; left). apply IH. intros y Hy. apply Hn. by right.
Qed.

(** When the elements of each list are marked with its place, marking picks the list. *)
Lemma filter_place {A} (place : A -> nat -> bool) ls : forall k,
  (forall x i j, place x i = true -> place x j = true -> i = j) -> (forall j l x, ls !! j = Some l -> x ∈ l -> place x (k + j)%nat = true) ->
  forall j, filter (fun x => place x (k + j)%nat = true) (concat ls) = default [] (ls !! j).
Proof.
  induction ls as [|l ls IH]; intros k Hfun Hpl j; [done|]. simpl. rewrite filter_app.
  assert (forall j l x, ls !! j = Some l -> x ∈ l -> place x (S k + j)%nat = true) as Hpl'.
  { intros j' l' x Hl' Hx. replace (S k + j')%nat with (k + S j')%nat by lia. by apply (Hpl (S j') l'). }
  destruct j as [|j]; simpl.
  - rewrite filter_all by (intros x Hx; by apply (Hpl 0%nat l)). rewrite filter_none; [apply app_nil_r|].
    intros x (m & Hm & Hx)%elem_of_concat Hp. apply list_elem_of_lookup in Hm as [i Hi]. pose proof (Hfun _ _ _ Hp (Hpl' i m x Hi Hx)). lia.
  - rewrite filter_none.
    + simpl. replace (k + S j)%nat with (S k + j)%nat by lia. by apply IH.
    + intros x Hx Hp. pose proof (Hfun _ _ _ Hp (Hpl 0%nat l x eq_refl Hx)). lia.
Qed.

(** ** stable sorting with a comparator ([slice::sort_by], [slice::sort_by_key])

    The standard library's [sort_by] is stable, so for a comparator that is a total
    preorder its result is determined: it is the result of inserting the elements
    from the last to the first, each before the elements it is not above. A
    comparator that may panic makes the sort panic. *)

(** [cmp] orders its arguments up to ties. *)
Class PreorderCompare {A} (cmp : A -> A -> comparison) : Prop := {
  preorder_antisym : forall a b, cmp b a = CompOpp (cmp a b);
  preorder_trans : Transitive (cmp_le cmp)
}.

#[global] Instance lawful_preorder {A} (cmp : A -> A -> comparison) `{!LawfulCompare cmp} : PreorderCompare cmp.
Proof. split; [intros; by apply (compare_antisym cmp)|apply _]. Qed.

(** Comparing keys. *)
#[global] Instance key_preorder {A B} (f : A -> B) (cmp : B -> B -> comparison) `{!PreorderCompare cmp} :
  PreorderCompare (fun a b => cmp (f a) (f b)).
Proof.
  split; [intros; by apply preorder_antisym|].
  intros a b c. exact (preorder_trans (f a) (f b) (f c)).
Qed.

Section sort.
Context {A : Type} (cmp : A -> A -> comparison).

Fixpoint insert_by (x : A) (l : list A) : list A :=
  match l with
  | [] => [x]
  | y :: k => match cmp x y with Gt => y :: insert_by x k | _ => x :: y :: k end
  end.

Definition sort_by (l : list A) : list A := foldr insert_by [] l.

Lemma insert_by_perm x l : insert_by x l ≡ₚ x :: l.
Proof.
  induction l as [|y l IH]; simpl; [done|].
  destruct (cmp x y); try done. rewrite IH. apply Permutation_swap.
Qed.

Lemma sort_by_perm l : sort_by l ≡ₚ l.
Proof. induction l as [|x l IH]; simpl; [done|]. by rewrite insert_by_perm, IH. Qed.

Lemma length_sort_by l : length (sort_by l) = length l.
Proof. by rewrite sort_by_perm. Qed.

Lemma elem_of_sort_by x l : x ∈ sort_by l <-> x ∈ l.
Proof. by rewrite sort_by_perm. Qed.

Context `{!PreorderCompare cmp}.

Lemma insert_by_sorted x l : StronglySorted (cmp_le cmp) l -> StronglySorted (cmp_le cmp) (insert_by x l).
Proof.
  induction 1 as [|y l Hs IH Hy]; simpl; [repeat constructor|].
  assert (forall o, cmp x y = o -> o <> Gt -> StronglySorted (cmp_le cmp) (x :: y :: l)) as Hle.
  { intros o Ho Hgt. constructor; [by constructor|].
    assert (cmp_le cmp x y) as Hxy by (unfold cmp_le; congruence).
    constructor; [done|]. eapply Forall_impl; [exact Hy|]. intros z Hz. exact (preorder_trans _ _ _ Hxy Hz). }
  destruct (cmp x y) eqn:E; [by apply (Hle Eq)|by apply (Hle Lt)|].
  constructor; [done|]. rewrite insert_by_perm. constructor; [|done].
  unfold cmp_le. rewrite preorder_antisym, E. done.
Qed.

Lemma sort_by_sorted l : StronglySorted (cmp_le cmp) (sort_by l).
Proof. induction l as [|x l IH]; simpl; [constructor|]. by apply insert_by_sorted. Qed.

Lemma insert_by_below x l : Forall (cmp_le cmp x) l -> insert_by x l = x :: l.
Proof.
  destruct l as [|y l]; [done|]. intros H. simpl. apply Forall_inv in H. unfold cmp_le in H.
  by destruct (cmp x y).
Qed.

(** Sorting a sorted list changes nothing. *)
Lemma sort_by_id l : StronglySorted (cmp_le cmp) l -> sort_by l = l.
Proof.
  induction 1 as [|x l Hs IH Hx]; simpl; [done|]. rewrite IH. by apply insert_by_below.
Qed.

(** Two sorted lists of the same elements, no two of which tie, are equal. *)
Lemma strongly_sorted_unique l k :
  StronglySorted (cmp_le cmp) l -> StronglySorted (cmp_le cmp) k -> l ≡ₚ k ->
  (forall a b, a ∈ l -> b ∈ l -> cmp a b = Eq -> a = b) -> l = k.
Proof.
  intros Hl. revert k. induction Hl as [|x l Hs IH Hx]; intros k Hk Hp Htie.
  - symmetry in Hp. by apply Permutation_nil_r in Hp.
  - destruct k as [|y k]; [by symmetry in Hp; apply Permutation_nil_cons in Hp|].
    assert (x = y) as ->.
    { apply StronglySorted_inv in Hk as [_ Hy].
      assert (y ∈ x :: l) as Hyl by (rewrite Hp; left).
      assert (x ∈ y :: k) as Hxk by (rewrite <- Hp; left).
      apply elem_of_cons in Hyl as [->|Hyl]; [done|].
      apply elem_of_cons in Hxk as [->|Hxk]; [done|].
      rewrite Forall_forall in Hx, Hy. specialize (Hx y Hyl). specialize (Hy x Hxk).
      apply Htie; [left|by right|]. unfold cmp_le in *. rewrite preorder_antisym in Hy.
      by destruct (cmp x y). }
    f_equal. apply Permutation_cons_inv in Hp. apply StronglySorted_inv in Hk as [Hk _].
    apply IH; [done..|]. intros a b Ha Hb. apply Htie; by right.
Qed.

(** Sorting forgets the order of elements that do not tie. *)
Lemma sort_by_perm_eq l k :
  l ≡ₚ k -> (forall a b, a ∈ l -> b ∈ l -> cmp a b = Eq -> a = b) -> sort_by l = sort_by k.
Proof.
  intros Hp Htie. apply strongly_sorted_unique; [apply sort_by_sorted..| |].
  - by rewrite !sort_by_perm.
  - intros a b. rewrite !elem_of_sort_by. apply Htie.
Qed.
End sort.

Lemma sort_by_ext_in {A} (cmp cmp' : A -> A -> comparison) l :
  (forall a b, a ∈ l -> b ∈ l -> cmp a b = cmp' a b) -> sort_by cmp l = sort_by cmp' l.
Proof.
  intros Hext. induction l as [|x l IH]; [done|]. simpl.
  rewrite IH by (intros; apply Hext; by right).
  assert (forall y, y ∈ sort_by cmp' l -> cmp x y = cmp' x y) as Hx.
  { intros y. rewrite elem_of_sort_by. intros Hy. apply Hext; [left|by right]. }
  clear -Hx. induction (sort_by cmp' l) as [|y k IH]; [done|]. simpl.
  rewrite Hx by left. rewrite IH; [done|]. intros z Hz. apply Hx. by right.
Qed.

Definition sort_by_key {A B} (cmp : B -> B -> comparison) (f : A -> B) : list A -> list A :=
  sort_by (fun a b => cmp (f a) (f b)).

Lemma sort_by_fmap {A B} (cmp : B -> B -> comparison) (f : A -> B) l :
  sort_by cmp (f <$> l) = f <$> sort_by_key cmp f l.
Proof.
  unfold sort_by_key. induction l as [|x l IH]; [done|]. csimpl. rewrite IH. clear IH.
  induction (sort_by _ l) as [|y k IHk]; [done|]. csimpl. destruct (cmp (f x) (f y)); csimpl; try done.
  by rewrite IHk.
Qed.

(** ** Comparators that may panic *)

Section try_sort.
Context {A E : Type} (cmp : A -> A -> result comparison E).

Fixpoint try_insert_by (x : A) (l : list A) : result (list A) E :=
  match l with
  | [] => Ok [x]
  | y :: k =>
      let? o := cmp x y in
      match o with
      | Gt => let? k' := try_insert_by x k in Ok (y :: k')
      | _ => Ok (x :: y :: k)
      end
  end.

Fixpoint try_sort_by (l : list A) : result (list A) E :=
  match l with
  | [] => Ok []
  | x :: l => let? k := try_sort_by l in try_insert_by x k
  end.

Lemma try_insert_by_ok (c : A -> A -> comparison) x l :
  (forall y, y ∈ l -> cmp x y = Ok (c x y)) -> try_insert_by x l = Ok (insert_by c x l).
Proof.
  induction l as [|y l IH]; intros H; simpl; [done|].
  rewrite H by left. simpl. destruct (c x y); try done.
  rewrite IH; [done|]. intros z Hz. apply H. by right.
Qed.

(** When no comparison of two elements panics the sort is [sort_by]. *)
Lemma try_sort_by_ok (c : A -> A -> comparison) l :
  (forall x y, x ∈ l -> y ∈ l -> cmp x y = Ok (c x y)) -> try_sort_by l = Ok (sort_by c l).
Proof.
  induction l as [|x l IH]; intros H; simpl; [done|].
  rewrite IH by (intros; apply H; by right). simpl. apply try_insert_by_ok.
  intros y. rewrite elem_of_sort_by. intros Hy. apply H; [left|by right].
Qed.
End try_sort.

Example sort_by_stable :
  sort_by (fun a b => Z.compare (a.1) (b.1)) [(2, 1); (1, 2); (2, 3); (1, 4); (0, 5)]
  = [(0, 5); (1, 2); (1, 4); (2, 1); (2, 3)].
Proof. reflexivity. Qed.
