(* ===== verification/BitSet.v ===== *)
(** * BitSet: a growable set of indices (herder/src/parallel_tx_set_builder.rs)

    The words are [u64]s. Bits are numbered from the least significant bit of the
    first word; indices are natural numbers, as a vector of the source has fewer
    than [usize::MAX] words. *)

From S2P Require Import Prelude.

#[local] Arguments Nat.div : simpl never.
#[local] Arguments Nat.modulo : simpl never.

Record BitSet := MkBitSet { words : list Z }.

Definition BitSet_default : BitSet := MkBitSet [].

(** [vec![0u64; bits.div_ceil(64)]]. *)
Definition with_capacity (bits : nat) : BitSet := MkBitSet (replicate ((bits + 63) / 64)%nat 0).

Definition bit_mask (idx : nat) : Z := Z.shiftl 1 (Z.of_nat (idx mod 64)).

Definition set (idx : nat) (s : BitSet) : BitSet :=
  let word := (idx / 64)%nat in
  let ws := if (length (words s) <=? word)%nat then resize (word + 1) 0 (words s) else words s in
  MkBitSet (alter (fun w => Z.lor w (bit_mask idx)) word ws).

Definition get_bit (s : BitSet) (idx : nat) : bool :=
  match words s !! (idx / 64)%nat with
  | None => false
  | Some w => negb (Z.land w (bit_mask idx) =? 0)
  end.

(** Combining the words two vectors have in common; the others of the first stay. *)
Fixpoint zip_words (f : Z -> Z -> Z) (ws os : list Z) : list Z :=
  match ws, os with
  | w :: ws, o :: os => f w o :: zip_words f ws os
  | _, _ => ws
  end.

Fixpoint any_common (ws os : list Z) : bool :=
  match ws, os with
  | a :: ws, b :: os => negb (Z.land a b =? 0) || any_common ws os
  | _, _ => false
  end.

Definition intersects (s other : BitSet) : bool := any_common (words s) (words other).

Definition union_with (other s : BitSet) : BitSet :=
  let ws := if (length (words s) <? length (words other))%nat
            then resize (length (words other)) 0 (words s) else words s in
  MkBitSet (zip_words Z.lor ws (words other)).

(** [!o] of a [u64]. *)
Definition u64_not (o : Z) : Z := Z.lnot o mod 2 ^ 64.

Definition difference_with (other s : BitSet) : BitSet :=
  MkBitSet (zip_words (fun w o => Z.land w (u64_not o)) (words s) (words other)).

Definition word_ones (base : nat) (word : Z) : list nat :=
  omap (fun bit => if negb (Z.land word (Z.shiftl 1 (Z.of_nat bit)) =? 0) then Some (base + bit)%nat else None)
    (seq 0 64).

Definition iter_ones (s : BitSet) : list nat :=
  concat (imap (fun word_idx word => word_ones (word_idx * 64) word) (words s)).

(** ** Words and bits *)

(** The words are in the range of their type. *)
Definition bitset_ok (s : BitSet) : Prop := Forall is_u64 (words s).

Lemma mask_testbit w n : 0 <= n -> negb (Z.land w (Z.shiftl 1 n) =? 0) = Z.testbit w n.
Proof.
  intros Hn. rewrite Z.shiftl_1_l. destruct (Z.testbit w n) eqn:E.
  - apply negb_true_iff, Z.eqb_neq. intros H0.
    assert (Z.testbit (Z.land w (2 ^ n)) n = true) as Ht.
    { by rewrite Z.land_spec, E, Z.pow2_bits_true. }
    rewrite H0, Z.testbit_0_l in Ht. done.
  - apply negb_false_iff, Z.eqb_eq, Z.bits_inj'. intros m Hm.
    rewrite Z.land_spec, Z.pow2_bits_eqb, Z.testbit_0_l by done.
    destruct (Z.eqb_spec n m) as [->|]; [by rewrite E|apply andb_false_r].
Qed.

(** A bit of the set, by its word and its place in the word. *)
Lemma get_bit_testbit s idx :
  get_bit s idx = Z.testbit (default 0 (words s !! (idx / 64)%nat)) (Z.of_nat (idx mod 64)).
Proof.
  unfold get_bit, bit_mask. destruct (words s !! _) as [w|]; simpl; [|by rewrite Z.testbit_0_l].
  apply mask_testbit. lia.
Qed.

Lemma u64_testbit_high w n : is_u64 w -> 64 <= n -> Z.testbit w n = false.
Proof.
  intros Hw Hn. unfold is_u64, u64_max in Hw. rewrite <- (Z.mod_small w (2 ^ 64)) by lia.
  by apply Z.mod_pow2_bits_high.
Qed.

Lemma u64_from_bits w : 0 <= w -> (forall n, 64 <= n -> Z.testbit w n = false) -> is_u64 w.
Proof.
  intros Hw Hb. replace w with (w mod 2 ^ 64).
  - unfold is_u64, u64_max. pose proof (Z.mod_pos_bound w (2 ^ 64)). lia.
  - apply Z.bits_inj'. intros n Hn. destruct (Z.le_gt_cases 64 n) as [Hle|Hgt].
    + rewrite Z.mod_pow2_bits_high by done. by rewrite Hb.
    + by rewrite Z.mod_pow2_bits_low.
Qed.

Lemma u64_lor a b : is_u64 a -> is_u64 b -> is_u64 (Z.lor a b).
Proof.
  intros Ha Hb. apply u64_from_bits.
  - apply Z.lor_nonneg. unfold is_u64 in *. lia.
  - intros n Hn. by rewrite Z.lor_spec, !u64_testbit_high.
Qed.

Lemma u64_land a b : is_u64 a -> is_u64 b -> is_u64 (Z.land a b).
Proof.
  intros Ha Hb. apply u64_from_bits.
  - apply Z.land_nonneg. unfold is_u64 in *. lia.
  - intros n Hn. by rewrite Z.land_spec, !u64_testbit_high.
Qed.

Lemma u64_not_ok o : is_u64 (u64_not o).
Proof. unfold is_u64, u64_max, u64_not. pose proof (Z.mod_pos_bound (Z.lnot o) (2 ^ 64)). lia. Qed.

Lemma u64_not_testbit o n : 0 <= n < 64 -> Z.testbit (u64_not o) n = negb (Z.testbit o n).
Proof. intros Hn. unfold u64_not. rewrite Z.mod_pow2_bits_low by lia. apply Z.lnot_spec. lia. Qed.

Lemma bit_mask_ok idx : is_u64 (bit_mask idx).
Proof.
  pose proof (Nat.mod_upper_bound idx 64) as Hm. unfold bit_mask. rewrite Z.shiftl_1_l.
  unfold is_u64, u64_max. pose proof (Z.pow_nonneg 2 (Z.of_nat (idx mod 64))).
  pose proof (Z.pow_le_mono_r 2 (Z.of_nat (idx mod 64)) 63). lia.
Qed.

(** Two indices are equal when their words and places are. *)
Lemma index_eq i j : (i = j <-> i / 64 = j / 64 /\ i mod 64 = j mod 64)%nat.
Proof.
  split; [by intros ->|]. intros [Hd Hm].
  rewrite (Nat.div_mod i 64), (Nat.div_mod j 64) by lia. by rewrite Hd, Hm.
Qed.

Lemma resize_default n ws k : default 0 (resize n 0 ws !! k) = if (k <? n)%nat then default 0 (ws !! k) else 0.
Proof.
  destruct (Nat.ltb_spec k n) as [Hlt|Hge].
  - destruct (decide (k < length ws)%nat).
    + by rewrite lookup_resize.
    + rewrite lookup_resize_new by lia. rewrite lookup_ge_None_2 by lia. done.
  - by rewrite lookup_resize_old.
Qed.

Lemma zip_words_lookup f ws os k :
  zip_words f ws os !! k =
  match ws !! k, os !! k with
  | Some w, Some o => Some (f w o)
  | r, _ => r
  end.
Proof.
  revert os k. induction ws as [|w ws IH]; intros [|o os] [|k]; simpl; try done.
  by destruct (ws !! k).
Qed.

(** ** The operations as operations on sets *)

Lemma get_default idx : get_bit BitSet_default idx = false.
Proof. done. Qed.

Lemma get_with_capacity n idx : get_bit (with_capacity n) idx = false.
Proof.
  rewrite get_bit_testbit. simpl. destruct (replicate _ 0 !! _) as [w|] eqn:E; simpl; [|apply Z.testbit_0_l].
  apply lookup_replicate in E as [-> _]. apply Z.testbit_0_l.
Qed.

Lemma set_word idx s k :
  default 0 (words (set idx s) !! k) =
  if decide (k = idx / 64)%nat then Z.lor (default 0 (words s !! k)) (bit_mask idx) else default 0 (words s !! k).
Proof.
  unfold set. simpl.
  set (ws := if (length (words s) <=? idx / 64)%nat then resize (idx / 64 + 1) 0 (words s) else words s).
  assert ((idx / 64 < length ws)%nat /\ forall k, default 0 (ws !! k) = default 0 (words s !! k)) as [Hlen Hws].
  { subst ws. destruct (Nat.leb_spec (length (words s)) (idx / 64)); [|done].
    rewrite length_resize. split; [lia|]. intros j. rewrite resize_default.
    destruct (Nat.ltb_spec j (idx / 64 + 1)); [done|]. by rewrite lookup_ge_None_2 by lia. }
  clearbody ws. case_decide as Hk.
  - subst k. rewrite list_lookup_alter_eq, <- Hws. apply lookup_lt_is_Some in Hlen as [w Hw]. by rewrite Hw.
  - by rewrite list_lookup_alter_ne by done.
Qed.

Lemma get_set idx s j : get_bit (set idx s) j = (idx =? j)%nat || get_bit s j.
Proof.
  rewrite !get_bit_testbit, set_word. destruct (Nat.eqb_spec idx j) as [->|Hne]; simpl.
  - rewrite decide_True by done. rewrite Z.lor_spec. unfold bit_mask.
    rewrite Z.shiftl_1_l, Z.pow2_bits_true by lia. apply orb_true_r.
  - case_decide as Hw; [|done]. rewrite Z.lor_spec. unfold bit_mask.
    rewrite Z.shiftl_1_l, Z.pow2_bits_eqb by lia.
    destruct (Z.eqb_spec (Z.of_nat (idx mod 64)) (Z.of_nat (j mod 64))) as [Hm|]; [|apply orb_false_r].
    exfalso. apply Hne, index_eq. split; [done|]. lia.
Qed.

Lemma union_word other s k :
  default 0 (words (union_with other s) !! k) = Z.lor (default 0 (words s !! k)) (default 0 (words other !! k)).
Proof.
  unfold union_with. simpl. rewrite zip_words_lookup.
  destruct (Nat.ltb_spec (length (words s)) (length (words other))) as [Hlt|Hge].
  - destruct (words other !! k) as [o|] eqn:Eo.
    + apply lookup_lt_Some in Eo as Hk. pose proof (resize_default (length (words other)) (words s) k) as Hd.
      destruct (Nat.ltb_spec k (length (words other))); [|lia]. rewrite <- Hd.
      assert (is_Some (resize (length (words other)) 0 (words s) !! k)) as [w Hw].
      { apply lookup_lt_is_Some. by rewrite length_resize. }
      by rewrite Hw.
    + apply lookup_ge_None in Eo as Hk. rewrite lookup_resize_old by done. simpl.
      by rewrite lookup_ge_None_2 by lia.
  - destruct (words s !! k) as [w|] eqn:E; simpl.
    + destruct (words other !! k); simpl; [done|]. by rewrite Z.lor_0_r.
    + apply lookup_ge_None in E. rewrite lookup_ge_None_2 by lia. done.
Qed.

Lemma get_union other s j : get_bit (union_with other s) j = get_bit s j || get_bit other j.
Proof. by rewrite !get_bit_testbit, union_word, Z.lor_spec. Qed.

Lemma get_difference other s j : get_bit (difference_with other s) j = get_bit s j && negb (get_bit other j).
Proof.
  rewrite !get_bit_testbit. unfold difference_with. simpl. rewrite zip_words_lookup.
  destruct (words s !! _) as [w|]; simpl; [|by rewrite Z.testbit_0_l].
  destruct (words other !! _) as [o|]; simpl.
  - rewrite Z.land_spec, u64_not_testbit; [done|]. pose proof (Nat.mod_upper_bound j 64). lia.
  - by rewrite Z.testbit_0_l, andb_true_r.
Qed.

(** The words stay in range. *)
Lemma word_default_ok s k : bitset_ok s -> is_u64 (default 0 (words s !! k)).
Proof.
  intros Hs. destruct (words s !! k) as [w|] eqn:E; simpl; [|done].
  by apply (Forall_lookup_1 _ _ _ _ Hs E).
Qed.

Lemma bitset_ok_words s : bitset_ok s <-> forall k, is_u64 (default 0 (words s !! k)).
Proof.
  split; [intros Hs k; by apply word_default_ok|]. intros H. apply Forall_lookup_2. intros k w E.
  specialize (H k). by rewrite E in H.
Qed.

Lemma bitset_ok_default : bitset_ok BitSet_default.
Proof. constructor. Qed.

Lemma bitset_ok_with_capacity n : bitset_ok (with_capacity n).
Proof. apply Forall_replicate. done. Qed.

Lemma bitset_ok_set idx s : bitset_ok s -> bitset_ok (set idx s).
Proof.
  rewrite !bitset_ok_words. intros H k. rewrite set_word.
  case_decide; [|done]. apply u64_lor; [done|apply bit_mask_ok].
Qed.

Lemma bitset_ok_union other s : bitset_ok other -> bitset_ok s -> bitset_ok (union_with other s).
Proof. rewrite !bitset_ok_words. intros Ho Hs k. rewrite union_word. by apply u64_lor. Qed.

Lemma bitset_ok_difference other s : bitset_ok s -> bitset_ok (difference_with other s).
Proof.
  rewrite !bitset_ok_words. intros Hs k. unfold difference_with. simpl. rewrite zip_words_lookup.
  specialize (Hs k). destruct (words s !! k), (words other !! k); simpl in *; try done.
  apply u64_land; [done|apply u64_not_ok].
Qed.

#[export] Hint Resolve bitset_ok_default bitset_ok_with_capacity bitset_ok_set bitset_ok_union bitset_ok_difference
  : bitset.

(** A word that is not zero has a bit below 64. *)
Lemma u64_has_bit w : is_u64 w -> w <> 0 -> exists n, (n < 64)%nat /\ Z.testbit w (Z.of_nat n) = true.
Proof.
  intros Hw H0. exists (Z.to_nat (Z.log2 w)). pose proof (Z.log2_nonneg w).
  rewrite Z2Nat.id by done. unfold is_u64, u64_max in Hw. split.
  - apply Nat2Z.inj_lt. rewrite Z2Nat.id by done. apply Z.log2_lt_pow2; lia.
  - apply Z.bit_log2. lia.
Qed.

Lemma any_common_spec ws os :
  any_common ws os = true <-> exists k w o, ws !! k = Some w /\ os !! k = Some o /\ Z.land w o <> 0.
Proof.
  revert os. induction ws as [|w ws IH]; intros [|o os]; cbn [any_common].
  1-3: split; [done|intros (k & ? & ? & ? & ? & ?); by destruct k].
  rewrite orb_true_iff, IH, negb_true_iff, Z.eqb_neq. split.
  - intros [H|(k & w' & o' & H)]; [by exists 0%nat, w, o|by exists (S k), w', o'].
  - intros ([|k] & w' & o' & Hw & Ho & H); [left; by simplify_eq/=|right; by exists k, w', o'].
Qed.

Lemma index_word k n : (n < 64)%nat -> ((k * 64 + n) / 64 = k /\ (k * 64 + n) mod 64 = n)%nat.
Proof.
  intros Hn. split.
  - rewrite Nat.add_comm, Nat.div_add by lia. rewrite Nat.div_small by done. done.
  - rewrite Nat.add_comm, Nat.Div0.mod_add. by apply Nat.mod_small.
Qed.

(** Two sets intersect when they have an element in common. *)
Lemma intersects_spec s t : bitset_ok s ->
  intersects s t = true <-> exists i, get_bit s i = true /\ get_bit t i = true.
Proof.
  intros Hs. unfold intersects. rewrite any_common_spec. split.
  - intros (k & w & o & Hw & Ho & H). assert (is_u64 w) as Hww by by apply (Forall_lookup_1 _ _ _ _ Hs Hw).
    destruct (u64_has_bit (Z.land w o)) as (n & Hn & Hb); [|done|].
    { apply u64_from_bits; [apply Z.land_nonneg; unfold is_u64 in Hww; lia|].
      intros n Hn. by rewrite Z.land_spec, u64_testbit_high. }
    exists (k * 64 + n)%nat. destruct (index_word k n Hn) as [Hd Hm].
    rewrite !get_bit_testbit, Hd, Hm, Hw, Ho. simpl.
    rewrite Z.land_spec in Hb. by apply andb_true_iff in Hb.
  - intros (i & Hi & Hj). rewrite !get_bit_testbit in *.
    destruct (words s !! (i / 64)%nat) as [w|] eqn:Ew; simpl in Hi; [|by rewrite Z.testbit_0_l in Hi].
    destruct (words t !! (i / 64)%nat) as [o|] eqn:Eo; simpl in Hj; [|by rewrite Z.testbit_0_l in Hj].
    exists (i / 64)%nat, w, o. split; [done|]. split; [done|]. intros H0.
    assert (Z.testbit (Z.land w o) (Z.of_nat (i mod 64)) = true) as Ht by (by rewrite Z.land_spec, Hi, Hj).
    by rewrite H0, Z.testbit_0_l in Ht.
Qed.

(** ** The elements in order *)

Lemma elem_of_word_ones base w i :
  i ∈ word_ones base w <-> exists n, (n < 64)%nat /\ i = (base + n)%nat /\ Z.testbit w (Z.of_nat n) = true.
Proof.
  unfold word_ones. rewrite list_elem_of_omap. split.
  - intros (n & Hn & E). apply elem_of_seq in Hn. rewrite mask_testbit in E by lia.
    destruct (Z.testbit w (Z.of_nat n)) eqn:Eb; [|done]. injection E as <-. exists n. split; [lia|done].
  - intros (n & Hn & -> & Eb). exists n. rewrite elem_of_seq, mask_testbit, Eb by lia. split; [lia|done].
Qed.

Lemma elem_of_imap_ones ws b i :
  i ∈ concat (imap (fun k w => word_ones ((b + k) * 64) w) ws) <->
  exists k w, ws !! k = Some w /\ i ∈ word_ones ((b + k) * 64) w.
Proof.
  revert b. induction ws as [|w ws IH]; intros b.
  - simpl. split; [by intros ?%elem_of_nil|intros (k & ? & ? & _); by destruct k].
  - cbn [imap]. rewrite imap_ext with (g := fun k w => word_ones ((S b + k) * 64) w).
    2:{ intros k w' _. unfold compose. rewrite Nat.add_succ_r. reflexivity. }
    change (concat (word_ones ((b + 0) * 64) w :: imap (fun k w => word_ones ((S b + k) * 64) w) ws))
      with (word_ones ((b + 0) * 64) w ++ concat (imap (fun k w => word_ones ((S b + k) * 64) w) ws)).
    rewrite elem_of_app, IH. split.
    + intros [H|(k & w' & Hk & H)]; [by exists 0%nat, w|]. exists (S k), w'. split; [done|].
      by replace (b + S k)%nat with (S b + k)%nat by lia.
    + intros ([|k] & w' & Hk & H); [left; by simplify_eq/=|]. right. exists k, w'. split; [done|].
      by replace (S b + k)%nat with (b + S k)%nat by lia.
Qed.

(** [iter_ones] yields the elements of the set ... *)
Lemma elem_of_iter_ones s i : i ∈ iter_ones s <-> get_bit s i = true.
Proof.
  unfold iter_ones. rewrite (elem_of_imap_ones (words s) 0). rewrite get_bit_testbit. split.
  - intros (k & w & Hk & Hi). apply elem_of_word_ones in Hi as (n & Hn & -> & Hb).
    destruct (index_word k n Hn) as [Hd Hm]. simpl. by rewrite Hd, Hm, Hk.
  - intros Hb. destruct (words s !! (i / 64)%nat) as [w|] eqn:Ew; simpl in Hb; [|by rewrite Z.testbit_0_l in Hb].
    exists (i / 64)%nat, w. split; [done|]. apply elem_of_word_ones. exists (i mod 64)%nat.
    pose proof (Nat.mod_upper_bound i 64). pose proof (Nat.div_mod i 64). split; [lia|]. split; [lia|done].
Qed.

Lemma word_ones_sorted base w : StronglySorted lt (word_ones base w).
Proof.
  unfold word_ones. assert (forall n k, StronglySorted lt (seq n k)) as Hseq.
  { intros n k. revert n. induction k as [|k IH]; intros n; [constructor|]. simpl. constructor; [done|].
    apply Forall_forall. intros m Hm%elem_of_seq. lia. }
  specialize (Hseq 0%nat 64%nat). induction Hseq as [|x l Hs IH Hx]; [constructor|].
  cbn [omap list_omap]. destruct (negb _); [|done]. constructor; [done|]. apply Forall_forall.
  intros y (z & Hz & E)%list_elem_of_omap. rewrite Forall_forall in Hx. specialize (Hx z Hz).
  destruct (negb _); [|done]. injection E as <-. lia.
Qed.

(** ... in increasing order, hence each once. *)
Lemma iter_ones_sorted s : StronglySorted lt (iter_ones s).
Proof.
  unfold iter_ones. generalize (words s) as ws.
  assert (forall ws b, StronglySorted lt (concat (imap (fun k w => word_ones ((b + k) * 64) w) ws))) as H;
    [|intros ws; exact (H ws 0%nat)].
  induction ws as [|w ws IH]; intros b; [constructor|].
  cbn [imap]. rewrite imap_ext with (g := fun k w => word_ones ((S b + k) * 64) w).
  2:{ intros k w' _. unfold compose. rewrite Nat.add_succ_r. reflexivity. }
  apply StronglySorted_app. split_and!; [|apply word_ones_sorted|apply IH].
  intros i j (n & Hn & -> & _)%elem_of_word_ones (k & w' & _ & Hj)%elem_of_imap_ones.
  apply elem_of_word_ones in Hj as (m & Hm & -> & _). lia.
Qed.

Lemma iter_ones_NoDup s : NoDup (iter_ones s).
Proof.
  pose proof (iter_ones_sorted s) as Hs. induction Hs as [|x l Hs IH Hx]; constructor; [|done].
  intros Hin. rewrite Forall_forall in Hx. specialize (Hx x Hin). lia.
Qed.

#[export] Hint Rewrite get_set get_union get_difference get_default get_with_capacity : bitset.

Example bitset_demo :
  let s := set 70 (set 3 (with_capacity 10)) in
  (iter_ones s, iter_ones (difference_with (set 3 BitSet_default) s), intersects s (set 70 BitSet_default), get_bit s 71)
  = ([3; 70]%nat, [70]%nat, true, false).
Proof. vm_compute. done. Qed.
