(* ===== verification/Resource.v ===== *)
(** * Resource: vectors of resource usage (common/src/resource.rs)

    A vector of [i64]s of 1, 2 or 7 dimensions. The operators the source calls
    without a [Result] panic when the sizes differ or a dimension leaves its range:
    here a panic is the error of a [result]. The facts at the end read the operators one
    dimension at a time. *)


From S2P Require Import Prelude Lists.

(** A failed [assert!], [expect] or index. *)
Inductive Panic := Panicking.

Definition assert (c : bool) : result unit Panic := if c then Ok tt else Err Panicking.
Definition expect {A} (o : option A) : result A Panic := ok_or Panicking o.
Notation "'let!' c 'in' k" := (result_bind (assert c) (fun _ => k))
  (at level 200, c at level 100, k at level 200, right associativity).

Inductive ResourceError :=
| SizeMismatch (lhs rhs : nat)
| Overflow (dimension : nat)
| Underflow (dimension : nat).

Definition NUM_CLASSIC_TX_RESOURCES : nat := 1.
Definition NUM_CLASSIC_TX_BYTES_RESOURCES : nat := 2.
Definition NUM_SOROBAN_TX_RESOURCES : nat := 7.

Inductive ResourceType :=
| Operations | Instructions | TxByteSize | DiskReadBytes | WriteBytes | ReadLedgerEntries | WriteLedgerEntries.

(** [ty as usize]. *)
Definition type_index (ty : ResourceType) : nat :=
  match ty with
  | Operations => 0 | Instructions => 1 | TxByteSize => 2 | DiskReadBytes => 3
  | WriteBytes => 4 | ReadLedgerEntries => 5 | WriteLedgerEntries => 6
  end.

Record Resource := MkResource { values : list Z }.

#[global] Instance Resource_eq_dec : EqDecision Resource.
Proof. solve_decision. Defined.

Definition resource_size (r : Resource) : nat := length (values r).

Definition Resource_new (vs : list Z) : result Resource Panic :=
  let! (length vs =? NUM_CLASSIC_TX_RESOURCES)%nat || (length vs =? NUM_CLASSIC_TX_BYTES_RESOURCES)%nat
       || (length vs =? NUM_SOROBAN_TX_RESOURCES)%nat in
  Ok (MkResource vs).

Definition make_empty (count : nat) : result Resource Panic := Resource_new (replicate count 0).
Definition make_empty_soroban : result Resource Panic := make_empty NUM_SOROBAN_TX_RESOURCES.

Definition is_zero (r : Resource) : bool := forallb (fun v => v =? 0) (values r).
Definition any_positive (r : Resource) : bool := existsb (fun v => 0 <? v) (values r).

Definition try_get_val (ty : ResourceType) (r : Resource) : option Z := values r !! type_index ty.
Definition get_val (ty : ResourceType) (r : Resource) : result Z Panic := expect (values r !! type_index ty).
Definition set_val (ty : ResourceType) (v : Z) (r : Resource) : result Resource Panic :=
  let! (type_index ty <? length (values r))%nat in Ok (MkResource (<[type_index ty := v]> (values r))).

Definition soroban_ledger_limits (tx_count instructions tx_size_bytes read_bytes write_bytes
    read_ledger_entries write_ledger_entries : Z) : result Resource Panic :=
  let? r := make_empty_soroban in
  let? r := set_val Operations tx_count r in
  let? r := set_val Instructions instructions r in
  let? r := set_val TxByteSize tx_size_bytes r in
  let? r := set_val DiskReadBytes read_bytes r in
  let? r := set_val WriteBytes write_bytes r in
  let? r := set_val ReadLedgerEntries read_ledger_entries r in
  set_val WriteLedgerEntries write_ledger_entries r.

(** ** Comparing and adding *)

(** [iter().zip(..).all(..)] and [.any(..)]. *)
Fixpoint zip_all (p : Z -> Z -> bool) (l k : list Z) : bool :=
  match l, k with
  | a :: l, b :: k => p a b && zip_all p l k
  | _, _ => true
  end.
Fixpoint zip_any (p : Z -> Z -> bool) (l k : list Z) : bool :=
  match l, k with
  | a :: l, b :: k => p a b || zip_any p l k
  | _, _ => false
  end.

Definition same_size (r s : Resource) : bool := (length (values r) =? length (values s))%nat.

Definition can_add (r other : Resource) : result bool Panic :=
  let! same_size r other in
  Ok (zip_all (fun a b => bool_decide (is_Some (checked_i64 (a + b)))) (values r) (values other)).

Definition leq (r other : Resource) : result bool Panic :=
  let! same_size r other in Ok (zip_all Z.leb (values r) (values other)).

Fixpoint checked_add_from (i : nat) (l k : list Z) : result (list Z) ResourceError :=
  match l, k with
  | a :: l, b :: k =>
      let? v := ok_or (Overflow i) (checked_i64 (a + b)) in
      let? vs := checked_add_from (S i) l k in
      Ok (v :: vs)
  | _, _ => Ok []
  end.

Definition resource_checked_add (r other : Resource) : result Resource ResourceError :=
  if negb (same_size r other) then Err (SizeMismatch (length (values r)) (length (values other)))
  else let? vs := checked_add_from 0 (values r) (values other) in Ok (MkResource vs).

Fixpoint checked_sub_from (i : nat) (l k : list Z) : result (list Z) ResourceError :=
  match l, k with
  | a :: l, b :: k =>
      if a <? b then Err (Underflow i)
      else let? vs := checked_sub_from (S i) l k in Ok (as_i64 (a - b) :: vs)
  | _, _ => Ok []
  end.

Definition resource_checked_sub (r other : Resource) : result Resource ResourceError :=
  if negb (same_size r other) then Err (SizeMismatch (length (values r)) (length (values other)))
  else let? vs := checked_sub_from 0 (values r) (values other) in Ok (MkResource vs).

(** [+=] and [+]. *)
Definition resource_add (r other : Resource) : result Resource Panic :=
  let? fits := can_add r other in
  let! fits in
  Ok (MkResource (zip_with Z.add (values r) (values other))).

(** [-=] and [-]. *)
Definition resource_sub (r other : Resource) : result Resource Panic :=
  let! same_size r other in
  let! zip_all Z.geb (values r) (values other) in
  Ok (MkResource (zip_with (fun a b => as_i64 (a - b)) (values r) (values other))).

Definition resource_partial_cmp (r other : Resource) : result (option comparison) Panic :=
  if negb (same_size r other) then Ok None
  else
    let? all_le := leq r other in
    let? all_ge := leq other r in
    Ok (if all_le && all_ge then Some Eq
        else if all_le then Some Lt
        else if all_ge then Some Gt
        else None).

Definition any_greater (lhs rhs : Resource) : result bool Panic :=
  let! same_size lhs rhs in Ok (zip_any Z.gtb (values lhs) (values rhs)).

Definition subtract_non_negative (lhs rhs : Resource) : result Resource Panic :=
  let! same_size lhs rhs in
  Resource_new (zip_with (fun a b => Z.max (as_i64 (a - b)) 0) (values lhs) (values rhs)).

(** ** Facts *)

(** A vector of [i64]s of a permitted number of dimensions. *)
Definition resource_ok (n : nat) (r : Resource) : Prop :=
  length (values r) = n /\ Forall is_i64 (values r).

Definition dims_ok (n : nat) : Prop := n = 1%nat \/ n = 2%nat \/ n = 7%nat.

Lemma zip_all_forall2 p l k : length l = length k -> zip_all p l k = true <-> Forall2 (fun a b => p a b = true) l k.
Proof.
  revert k. induction l as [|a l IH]; intros [|b k] Hlen; try done; simpl.
  rewrite andb_true_iff, IH by (simpl in Hlen; lia). by rewrite Forall2_cons.
Qed.

Lemma zip_any_not_all p l k : zip_any p l k = negb (zip_all (fun a b => negb (p a b)) l k).
Proof.
  revert k. induction l as [|a l IH]; intros [|b k]; simpl; try done.
  rewrite IH, negb_andb, negb_involutive. done.
Qed.

Lemma same_size_ok n r s : resource_ok n r -> resource_ok n s -> same_size r s = true.
Proof. intros [Hr _] [Hs _]. unfold same_size. apply Nat.eqb_eq. lia. Qed.

(** The pointwise order, and what it is not to exceed a limit. *)
Definition within (r limit : Resource) : Prop := Forall2 Z.le (values r) (values limit).

Lemma leq_spec n r s : resource_ok n r -> resource_ok n s -> exists b, leq r s = Ok b /\ (b = true <-> within r s).
Proof.
  intros Hr Hs. unfold leq. rewrite (same_size_ok n) by done. eexists. split; [done|].
  rewrite zip_all_forall2 by (destruct Hr as [-> _], Hs as [-> _]; done).
  unfold within. split; intros H; eapply Forall2_impl; try exact H; simpl; intros; lia.
Qed.

Lemma any_greater_spec n r s : resource_ok n r -> resource_ok n s ->
  exists b, any_greater r s = Ok b /\ (b = false <-> within r s).
Proof.
  intros Hr Hs. unfold any_greater. rewrite (same_size_ok n) by done. eexists. split; [done|].
  rewrite zip_any_not_all, negb_false_iff.
  rewrite zip_all_forall2 by (destruct Hr as [-> _], Hs as [-> _]; done).
  unfold within. split; intros H; eapply Forall2_impl; try exact H; simpl; intros a b; rewrite Z.gtb_ltb, negb_true_iff;
    intros; lia.
Qed.

(** ** vectors of resources, dimension by dimension

    On vectors of [n] non-negative [i64]s the operations of [Resource] do not panic when
    their results are in range, and act on each dimension apart. *)

Definition dim (r : Resource) (i : nat) : Z := default 0 (values r !! i).

(** [n] non-negative [i64]s. *)
Definition vec_ok (n : nat) (r : Resource) : Prop :=
  length (values r) = n /\ forall i, 0 <= dim r i <= i64_max.

Definition radd (r s : Resource) : Resource := MkResource (zip_with Z.add (values r) (values s)).
Definition rsub (r s : Resource) : Resource := MkResource (zip_with Z.sub (values r) (values s)).
(** The difference, zero where it is negative. *)
Definition rmonus (r s : Resource) : Resource := MkResource (zip_with (fun a b => Z.max (a - b) 0) (values r) (values s)).
Definition rzero (n : nat) : Resource := MkResource (replicate n 0).

Definition le_dims (r s : Resource) : Prop := forall i, dim r i <= dim s i.

Section dims.
Context (n : nat).

Lemma dim_out r i : length (values r) = n -> (n <= i)%nat -> dim r i = 0.
Proof. intros Hl Hi. unfold dim. by rewrite lookup_ge_None_2 by lia. Qed.

Lemma dim_zip f r s i : f 0 0 = 0 -> length (values r) = n -> length (values s) = n ->
  dim (MkResource (zip_with f (values r) (values s))) i = f (dim r i) (dim s i).
Proof.
  intros Hf Hr Hs. unfold dim. simpl. destruct (decide (i < n)%nat) as [Hi|Hi].
  - destruct (lookup_lt_is_Some_2 (values r) i) as [a Ha]; [lia|]. destruct (lookup_lt_is_Some_2 (values s) i) as [b Hb]; [lia|].
    rewrite lookup_zip_with, Ha, Hb. done.
  - rewrite !lookup_ge_None_2; [done|lia|lia|]. rewrite length_zip_with. lia.
Qed.

Lemma dim_radd r s i : length (values r) = n -> length (values s) = n -> dim (radd r s) i = dim r i + dim s i.
Proof. intros Hr Hs. by apply (dim_zip Z.add). Qed.

Lemma dim_rsub r s i : length (values r) = n -> length (values s) = n -> dim (rsub r s) i = dim r i - dim s i.
Proof. intros Hr Hs. by apply (dim_zip Z.sub). Qed.

Lemma dim_rmonus r s i : length (values r) = n -> length (values s) = n -> dim (rmonus r s) i = Z.max (dim r i - dim s i) 0.
Proof. intros Hr Hs. by apply (dim_zip (fun a b => Z.max (a - b) 0)). Qed.

Lemma dim_rzero i : dim (rzero n) i = 0.
Proof.
  unfold dim, rzero. simpl. destruct (replicate n 0 !! i) eqn:E; [|done]. by apply lookup_replicate in E as [-> _].
Qed.

Lemma rzero_ok : vec_ok n (rzero n).
Proof. split; [apply length_replicate|]. intros i. rewrite dim_rzero. unfold i64_max. lia. Qed.

Lemma vec_ok_in r i v : vec_ok n r -> values r !! i = Some v -> 0 <= v <= i64_max.
Proof. intros [_ Hr] Hv. specialize (Hr i). unfold dim in Hr. by rewrite Hv in Hr. Qed.

Lemma vec_ok_resource r : vec_ok n r -> resource_ok n r.
Proof.
  intros Hr. split; [apply Hr|]. apply Forall_lookup. intros i v Hv. pose proof (vec_ok_in r i v Hr Hv).
  unfold is_i64, i64_min, i64_max in *. lia.
Qed.

Lemma dims_eq r s : length (values r) = n -> length (values s) = n -> (forall i, dim r i = dim s i) -> r = s.
Proof.
  destruct r as [r], s as [s]. simpl. intros Hr Hs Hd. f_equal. apply list_eq_same_length with n; [done|done|].
  intros i a b Hi Ha Hb. specialize (Hd i). unfold dim in Hd. simpl in Hd. by rewrite Ha, Hb in Hd.
Qed.

Lemma within_dims r s : length (values r) = n -> length (values s) = n -> within r s <-> le_dims r s.
Proof.
  intros Hr Hs. unfold within, le_dims, dim. rewrite Forall2_same_length_lookup. split.
  - intros [_ Hw] i. destruct (values r !! i) as [a|] eqn:Ea.
    + destruct (lookup_lt_is_Some_2 (values s) i) as [b Hb]; [apply lookup_lt_Some in Ea; lia|]. rewrite Hb. by apply (Hw i a b).
    + apply lookup_ge_None_1 in Ea. by rewrite lookup_ge_None_2 by lia.
  - intros Hle. split; [lia|]. intros i a b Ha Hb. specialize (Hle i). by rewrite Ha, Hb in Hle.
Qed.

(** ** The operations *)

Lemma same_size_true r s : length (values r) = n -> length (values s) = n -> same_size r s = true.
Proof. intros Hr Hs. unfold same_size. apply Nat.eqb_eq. lia. Qed.

Lemma leq_dims r s : vec_ok n r -> vec_ok n s -> exists b, leq r s = Ok b /\ (b = true <-> le_dims r s).
Proof.
  intros Hr Hs. destruct (leq_spec n r s) as (b & E & Hb); [by apply vec_ok_resource..|]. exists b. split; [done|].
  rewrite Hb. by apply within_dims; [apply Hr|apply Hs].
Qed.

Lemma any_greater_dims r s : vec_ok n r -> vec_ok n s -> exists b, any_greater r s = Ok b /\ (b = false <-> le_dims r s).
Proof.
  intros Hr Hs. destruct (any_greater_spec n r s) as (b & E & Hb); [by apply vec_ok_resource..|]. exists b. split; [done|].
  rewrite Hb. by apply within_dims; [apply Hr|apply Hs].
Qed.

Lemma any_positive_dims r : vec_ok n r -> any_positive r = false <-> forall i, dim r i = 0.
Proof.
  intros Hr. unfold any_positive. rewrite <- not_true_iff_false, existsb_exists. split.
  - intros Hno i. destruct Hr as [_ Hr]. specialize (Hr i). unfold dim in *. destruct (values r !! i) as [v|] eqn:E; [|done]. simpl in *.
    destruct (decide (v = 0)); [done|]. exfalso. apply Hno. exists v. split; [apply list_elem_of_In; by apply list_elem_of_lookup_2 in E|lia].
  - intros Hz (v & Hv%list_elem_of_In & Hpos). apply list_elem_of_lookup in Hv as [i Hi]. specialize (Hz i). unfold dim in Hz.
    rewrite Hi in Hz. simpl in Hz. lia.
Qed.

Lemma can_add_dims r s : vec_ok n r -> vec_ok n s ->
  exists b, can_add r s = Ok b /\ (b = true <-> forall i, dim r i + dim s i <= i64_max).
Proof.
  intros Hr Hs. unfold can_add. rewrite same_size_true by (apply Hr || apply Hs). simpl. eexists. split; [done|].
  rewrite zip_all_forall2 by (destruct Hr as [-> _], Hs as [-> _]; done). rewrite Forall2_same_length_lookup. split.
  - intros [_ Hf] i. destruct (values r !! i) as [a|] eqn:Ea; [destruct (values s !! i) as [b|] eqn:Eb|].
    + specialize (Hf i a b Ea Eb). apply bool_decide_eq_true in Hf as [v Hv]. unfold checked_i64, checked in Hv. unfold dim.
      rewrite Ea, Eb. simpl. destruct (Z.leb_spec (a + b) i64_max); [done|]. by rewrite andb_false_r in Hv.
    + apply lookup_ge_None_1 in Eb. apply lookup_lt_Some in Ea. destruct Hr as [Hlr _], Hs as [Hls _]. lia.
    + apply lookup_ge_None_1 in Ea. rewrite !dim_out; [unfold i64_max; lia|apply Hs|destruct Hr; lia|apply Hr|destruct Hr; lia].
  - intros Hle. split; [destruct Hr, Hs; lia|]. intros i a b Ha Hb. apply bool_decide_eq_true. specialize (Hle i).
    pose proof (vec_ok_in r i a Hr Ha). pose proof (vec_ok_in s i b Hs Hb). unfold dim in Hle. rewrite Ha, Hb in Hle. simpl in Hle.
    unfold checked_i64, checked. destruct (Z.leb_spec i64_min (a + b)); [|unfold i64_min in *; lia].
    destruct (Z.leb_spec (a + b) i64_max); [|lia]. by eexists.
Qed.

Lemma radd_ok r s : vec_ok n r -> vec_ok n s -> (forall i, dim r i + dim s i <= i64_max) -> vec_ok n (radd r s).
Proof.
  intros [Hr Hr2] [Hs Hs2] Hle. split; [simpl; rewrite length_zip_with; lia|]. intros i. rewrite dim_radd by done.
  specialize (Hr2 i). specialize (Hs2 i). specialize (Hle i). lia.
Qed.

Lemma resource_add_dims r s : vec_ok n r -> vec_ok n s -> (forall i, dim r i + dim s i <= i64_max) -> resource_add r s = Ok (radd r s).
Proof.
  intros Hr Hs Hle. unfold resource_add. destruct (can_add_dims r s Hr Hs) as (b & -> & Hb). simpl.
  by rewrite (proj2 Hb Hle).
Qed.

Lemma rsub_ok r s : vec_ok n r -> vec_ok n s -> le_dims s r -> vec_ok n (rsub r s).
Proof.
  intros [Hr Hr2] [Hs Hs2] Hle. split; [simpl; rewrite length_zip_with; lia|]. intros i. rewrite dim_rsub by done.
  specialize (Hr2 i). specialize (Hs2 i). specialize (Hle i). lia.
Qed.

Lemma resource_sub_dims r s : vec_ok n r -> vec_ok n s -> le_dims s r -> resource_sub r s = Ok (rsub r s).
Proof.
  intros Hr Hs Hle. unfold resource_sub. rewrite same_size_true by (apply Hr || apply Hs). simpl.
  rewrite (proj2 (zip_all_forall2 Z.geb (values r) (values s) ltac:(destruct Hr as [-> _], Hs as [-> _]; done))).
  - simpl. unfold rsub. do 2 f_equal. apply zip_with_ext_at.
    intros i a b Ha Hb. pose proof (vec_ok_in r i a Hr Ha). pose proof (vec_ok_in s i b Hs Hb). apply as_i64_id.
    unfold is_i64, i64_min, i64_max in *. lia.
  - rewrite Forall2_same_length_lookup. split; [destruct Hr as [-> _], Hs as [-> _]; done|].
    intros i a b Ha Hb. specialize (Hle i). unfold dim in Hle. rewrite Ha, Hb in Hle. simpl in Hle. by apply Z.geb_le.
Qed.

Lemma rmonus_ok r s : vec_ok n r -> vec_ok n s -> vec_ok n (rmonus r s).
Proof.
  intros [Hr Hr2] [Hs Hs2]. split; [simpl; rewrite length_zip_with; lia|]. intros i. rewrite dim_rmonus by done.
  specialize (Hr2 i). specialize (Hs2 i). lia.
Qed.

Lemma resource_new_ok vs : dims_ok n -> length vs = n -> Resource_new vs = Ok (MkResource vs).
Proof. intros Hd Hl. unfold Resource_new. rewrite Hl. by destruct Hd as [->|[->| ->]]. Qed.

Lemma make_empty_ok : dims_ok n -> make_empty n = Ok (rzero n).
Proof. intros Hd. apply resource_new_ok; [done|apply length_replicate]. Qed.

Lemma subtract_dims r s : dims_ok n -> vec_ok n r -> vec_ok n s -> subtract_non_negative r s = Ok (rmonus r s).
Proof.
  intros Hd Hr Hs. unfold subtract_non_negative. rewrite same_size_true by (apply Hr || apply Hs). simpl.
  rewrite resource_new_ok; [|done|rewrite length_zip_with; destruct Hr, Hs; lia].
  unfold rmonus. do 2 f_equal. apply zip_with_ext_at.
  intros i a b Ha Hb. pose proof (vec_ok_in r i a Hr Ha). pose proof (vec_ok_in s i b Hs Hb). f_equal. apply as_i64_id.
  unfold is_i64, i64_min, i64_max in *. lia.
Qed.

(** ** Sums of vectors *)

Definition rsum (l : list Resource) : Resource := foldr radd (rzero n) l.

Lemma rsum_length l : (forall r, r ∈ l -> length (values r) = n) -> length (values (rsum l)) = n.
Proof.
  induction l as [|r l IH]; intros Hl; simpl; [apply length_replicate|]. rewrite length_zip_with.
  rewrite IH by (intros s Hs; apply Hl; by right). rewrite Hl by left. lia.
Qed.

Lemma dim_rsum l i : (forall r, r ∈ l -> length (values r) = n) -> dim (rsum l) i = zsum (fun r => dim r i) l.
Proof.
  induction l as [|r l IH]; intros Hl; simpl; [apply dim_rzero|].
  rewrite dim_radd; [rewrite IH; [done|]|apply Hl; left|apply rsum_length]; intros s Hs; apply Hl; by right.
Qed.

Lemma try_fold_add l : forall acc, vec_ok n acc -> (forall r, r ∈ l -> vec_ok n r) ->
  (forall i, dim acc i + zsum (fun r => dim r i) l <= i64_max) ->
  exists total, try_fold resource_add l acc = Ok total /\ vec_ok n total /\ forall i, dim total i = dim acc i + zsum (fun r => dim r i) l.
Proof.
  induction l as [|r l IH]; intros acc Hacc Hl Hle.
  { exists acc. split; [done|]. split; [done|]. intros i. simpl. lia. }
  assert (vec_ok n r) as Hr by (apply Hl; left).
  assert (forall i, 0 <= zsum (fun r => dim r i) l) as Hpos.
  { intros i. apply zsum_nonneg_in. intros s Hs. apply (Hl s). by right. }
  assert (forall i, dim acc i + dim r i <= i64_max) as Hadd by (intros i; specialize (Hle i); specialize (Hpos i); simpl in Hle; lia).
  simpl. rewrite resource_add_dims by done.
  destruct (IH (radd acc r)) as (total & E & Ht & Hd).
  - by apply radd_ok.
  - intros s Hs. apply Hl. by right.
  - intros i. rewrite dim_radd by (apply Hacc || apply Hr). specialize (Hle i). simpl in Hle. lia.
  - exists total. split; [exact E|]. split; [done|]. intros i. rewrite Hd, dim_radd by (apply Hacc || apply Hr). simpl. lia.
Qed.
End dims.
