(* ===== verification/Envelope.v ===== *)
(** * Envelope: transaction envelopes and their fees (tx/src/envelope_utils.rs, fees.rs)

    The XDR type [TransactionEnvelope] of the crate stellar_xdr with the fields the
    herder reads (fees, operations, the Soroban data, the source account); what else
    an envelope holds is its payload. Fees are [i64]s, sums of fees saturate. *)

From S2P Require Import Prelude Amounts Bucket Ledger Lists Resource.

Class EnvelopeTypes `{XdrTypes} := { Uint256 : xdr }.

(** [MuxedAccount]. *)
Inductive MuxedAccount {K : Type} :=
| Ed25519 (key : K)
| MuxedEd25519 (id : Z) (ed25519 : K).
Arguments MuxedAccount : clear implicits.

Definition muxed_to_ed25519 {K} (muxed : MuxedAccount K) : K :=
  match muxed with Ed25519 key => key | MuxedEd25519 _ key => key end.

(** [OperationBody]: the variants, without their fields. *)
Inductive OperationBody :=
| CreateAccount | Payment | PathPaymentStrictReceive | ManageSellOffer | CreatePassiveSellOffer
| SetOptions | ChangeTrust | AllowTrust | AccountMerge | Inflation | ManageData | BumpSequence
| ManageBuyOffer | PathPaymentStrictSend | CreateClaimableBalance | ClaimClaimableBalance
| BeginSponsoringFutureReserves | EndSponsoringFutureReserves | RevokeSponsorship | Clawback
| ClawbackClaimableBalance | SetTrustLineFlags | LiquidityPoolDeposit | LiquidityPoolWithdraw
| InvokeHostFunction | ExtendFootprintTtl | RestoreFootprint.

#[global] Instance OperationBody_eq_dec : EqDecision OperationBody.
Proof. solve_decision. Defined.

(** ** Fees (tx/src/fees.rs) *)

Definition i64_saturating_add (a b : Z) : Z := saturating i64_min i64_max (a + b).
Definition i64_saturating_sub (a b : Z) : Z := saturating i64_min i64_max (a - b).
Definition i64_saturating_mul (a b : Z) : Z := saturating i64_min i64_max (a * b).

(** [TotalFee], [InclusionFee] and [ResourceFee] wrap an [i64]. *)
Definition TotalFee : Type := Z.
Definition InclusionFee : Type := Z.
Definition ResourceFee : Type := Z.

Definition saturating_sub_resource (total : TotalFee) (resource : ResourceFee) : InclusionFee :=
  i64_saturating_sub total resource.
Definition wrapping_sub_resource (total : TotalFee) (resource : ResourceFee) : InclusionFee :=
  as_i64 (total - resource).
Definition saturating_sub_inclusion (total : TotalFee) (inclusion : InclusionFee) : ResourceFee :=
  i64_saturating_sub total inclusion.
Definition saturating_add_resource (inclusion : InclusionFee) (resource : ResourceFee) : TotalFee :=
  i64_saturating_add inclusion resource.
Definition ResourceFee_checked (value : Z) : option ResourceFee :=
  if 0 <=? value then Some value else None.

Record FeeRate := MkFeeRate { inclusion_fee : InclusionFee; op_count : Z }.

#[global] Instance FeeRate_eq_dec : EqDecision FeeRate.
Proof. solve_decision. Defined.

(** The comparison of the cross products, which fit in [i128]. *)
Definition rate_compare (a b : FeeRate) : comparison :=
  Z.compare (inclusion_fee a * op_count b) (inclusion_fee b * op_count a).

Definition cmp_rate (a b : FeeRate) : result comparison Panic :=
  let! 0 <=? inclusion_fee a in
  let! 0 <=? inclusion_fee b in
  Ok (rate_compare a b).

Section envelope.
Context `{EnvelopeTypes}.

Record Operation := MkOperation { body : OperationBody; op_rest : Payload }.

Record LedgerFootprint := MkFootprint { read_only : list LedgerKey; read_write : list LedgerKey }.

Record SorobanResources := MkSorobanResources {
  footprint : LedgerFootprint;
  instructions : Z;
  disk_read_bytes : Z;
  write_bytes : Z
}.

Inductive SorobanTransactionDataExt :=
| DataExtV0
| DataExtV1 (archived_soroban_entries : list Z).

Record SorobanTransactionData := MkSorobanData {
  soroban_ext : SorobanTransactionDataExt;
  resources : SorobanResources;
  resource_fee : Z
}.

Inductive TransactionExt := TransactionExtV0 | TransactionExtV1 (soroban_data : SorobanTransactionData).

Record TransactionV0 := MkTransactionV0 {
  source_account_ed25519_v0 : Uint256;
  fee_v0 : Z;
  seq_num_v0 : Z;
  operations_v0 : list Operation;
  rest_v0 : Payload
}.

Record Transaction := MkTransaction {
  source_account : MuxedAccount Uint256;
  fee : Z;
  seq_num : Z;
  operations : list Operation;
  ext : TransactionExt;
  rest : Payload
}.

(** [inner_tx] is the only variant of [FeeBumpTransactionInnerTx] with its signatures. *)
Record FeeBumpTransaction := MkFeeBump {
  fee_source : MuxedAccount Uint256;
  bump_fee : Z;
  inner_tx : Transaction;
  inner_signatures : Payload;
  bump_rest : Payload
}.

Inductive TransactionEnvelope :=
| TxV0 (tx : TransactionV0) (signatures : Payload)
| Tx (tx : Transaction) (signatures : Payload)
| TxFeeBump (tx : FeeBumpTransaction) (signatures : Payload).

(** ** Classification (tx/src/envelope_utils.rs) *)

Definition envelope_operations (env : TransactionEnvelope) : list Operation :=
  match env with
  | TxV0 e _ => operations_v0 e
  | Tx e _ => operations e
  | TxFeeBump e _ => operations (inner_tx e)
  end.

Definition is_soroban_envelope (env : TransactionEnvelope) : bool :=
  existsb (fun op => match body op with
                     | InvokeHostFunction | ExtendFootprintTtl | RestoreFootprint => true
                     | _ => false
                     end) (envelope_operations env).

Definition has_dex_operations_envelope (env : TransactionEnvelope) : bool :=
  existsb (fun op => match body op with
                     | ManageSellOffer | ManageBuyOffer | CreatePassiveSellOffer
                     | PathPaymentStrictSend | PathPaymentStrictReceive => true
                     | _ => false
                     end) (envelope_operations env).

Definition is_fee_bump_envelope (env : TransactionEnvelope) : bool :=
  match env with TxFeeBump _ _ => true | _ => false end.

Definition envelope_soroban_data (env : TransactionEnvelope) : option SorobanTransactionData :=
  match env with
  | TxV0 _ _ => None
  | Tx e _ => match ext e with TransactionExtV1 data => Some data | _ => None end
  | TxFeeBump e _ => match ext (inner_tx e) with TransactionExtV1 data => Some data | _ => None end
  end.

Definition envelope_soroban_resources (env : TransactionEnvelope) : option SorobanResources :=
  resources <$> envelope_soroban_data env.

Definition envelope_operation_count (env : TransactionEnvelope) : Z :=
  let ops := len (envelope_operations env) in
  if is_fee_bump_envelope env then ops + 1 else ops.

(** ** Fees of envelopes (herder/src/tx_set_utils.rs) *)

Definition envelope_fee (env : TransactionEnvelope) : TotalFee :=
  match env with
  | TxV0 e _ => fee_v0 e
  | Tx e _ => fee e
  | TxFeeBump e _ => bump_fee e
  end.

Definition ext_resource_fee (x : TransactionExt) : ResourceFee :=
  match x with TransactionExtV0 => 0 | TransactionExtV1 data => resource_fee data end.

Definition envelope_inclusion_fee (env : TransactionEnvelope) : InclusionFee :=
  let resource_fee :=
    match env with
    | TxV0 _ _ => 0
    | Tx e _ => ext_resource_fee (ext e)
    | TxFeeBump e _ => ext_resource_fee (ext (inner_tx e))
    end in
  saturating_sub_resource (envelope_fee env) resource_fee.

Definition source_account_ed25519 (env : TransactionEnvelope) : Uint256 :=
  match env with
  | TxV0 e _ => source_account_ed25519_v0 e
  | Tx e _ => muxed_to_ed25519 (source_account e)
  | TxFeeBump e _ => muxed_to_ed25519 (source_account (inner_tx e))
  end.

(** tx/src/frame.rs *)
Definition envelope_sequence_number (env : TransactionEnvelope) : Z :=
  match env with
  | TxV0 e _ => seq_num_v0 e
  | Tx e _ => seq_num e
  | TxFeeBump e _ => seq_num (inner_tx e)
  end.

(** ** XDR encodings and hashes

    Encodings, their lengths and SHA-256 hashes of encodings are computed by crates:
    a hash is a list of bytes. Encodings of different keys differ. *)

Class EnvelopeXdr := {
  hash_xdr : TransactionEnvelope -> list Z;
  xdr_encoded_len_u32 : TransactionEnvelope -> Z;
  ledger_key_bytes : LedgerKey -> list Z;
  ledger_key_bytes_inj :: Inj (=) (=) ledger_key_bytes
}.

(** ** Resources of an envelope *)

Definition is_soroban_key (key : LedgerKey) : bool :=
  match key with KeyContractData _ _ _ | KeyContractCode _ => true | _ => false end.

Definition soroban_disk_read_entries (r : SorobanResources) (x : option SorobanTransactionDataExt)
    (is_restore_footprint : bool) (ledger_version : Z) : Z :=
  if is_restore_footprint then len (read_write (footprint r))
  else if negb (protocol_version_starts_from ledger_version V23) then
    len (read_only (footprint r)) + len (read_write (footprint r))
  else
    let count := count_if (fun key => negb (is_soroban_key key)) (read_only (footprint r)) in
    let count := count + count_if (fun key => negb (is_soroban_key key)) (read_write (footprint r)) in
    match x with
    | Some (DataExtV1 archived) => count + len archived
    | _ => count
    end.

Context `{!EnvelopeXdr}.

Definition envelope_tx_size_bytes (env : TransactionEnvelope) : Z :=
  match env with
  | TxFeeBump e _ => xdr_encoded_len_u32 (Tx (inner_tx e) (inner_signatures e))
  | _ => xdr_encoded_len_u32 env
  end.

Definition fallback_resources : SorobanResources := MkSorobanResources (MkFootprint [] []) 0 0 0.

Definition resources_from_envelope (env : TransactionEnvelope) (use_byte_limit_in_classic : bool)
    (ledger_version : Z) : result Resource Panic :=
  let tx_size := envelope_tx_size_bytes env in
  if is_soroban_envelope env then
    let data := envelope_soroban_data env in
    let r := default fallback_resources (resources <$> data) in
    let op_count := if is_fee_bump_envelope env then envelope_operation_count env else 1 in
    let is_restore := existsb (fun op => bool_decide (body op = RestoreFootprint)) (envelope_operations env) in
    let disk_read_entries := soroban_disk_read_entries r (soroban_ext <$> data) is_restore ledger_version in
    let write_entries := len (read_write (footprint r)) in
    Resource_new [op_count; instructions r; tx_size; disk_read_bytes r; write_bytes r; disk_read_entries; write_entries]
  else if use_byte_limit_in_classic then Resource_new [envelope_operation_count env; tx_size]
  else Resource_new [envelope_operation_count env].

(** ** Hashed transactions (herder/src/tx_set_utils.rs)

    The hash is computed once, when the envelope enters the queue. *)

Record HashedTx := MkHashedTx { tx_hash : list Z; envelope : TransactionEnvelope }.

Definition HashedTx_new (env : TransactionEnvelope) : HashedTx := MkHashedTx (hash_xdr env) env.

(** The invariant of the type: its fields are private. *)
Definition hashed_ok (htx : HashedTx) : Prop := tx_hash htx = hash_xdr (envelope htx).

(** [[u8; 32]] is ordered lexicographically. *)
Definition hash_compare : list Z -> list Z -> comparison := list_compare Z.compare.
End envelope.

#[global] Instance hash_compare_lawful : LawfulCompare hash_compare.
Proof. unfold hash_compare. apply _. Qed.

(** ** Comparing rates

    Between rates of at least one operation the comparison is a total preorder. *)

Lemma rate_compare_antisym a b : rate_compare b a = CompOpp (rate_compare a b).
Proof. unfold rate_compare. apply Z.compare_antisym. Qed.

Lemma rate_le_iff a b : cmp_le rate_compare a b <-> inclusion_fee a * op_count b <= inclusion_fee b * op_count a.
Proof. unfold cmp_le, rate_compare. by rewrite <- Z.compare_le_iff. Qed.

Lemma rate_le_trans a b c : 0 < op_count a -> 0 < op_count b -> 0 < op_count c ->
  cmp_le rate_compare a b -> cmp_le rate_compare b c -> cmp_le rate_compare a c.
Proof.
  rewrite !rate_le_iff. destruct a as [fa oa], b as [fb ob], c as [fc oc]; simpl. intros ??? Hab Hbc.
  apply (Zmult_le_reg_r _ _ ob); [lia|].
  transitivity (fb * oa * oc); [|nia]. replace (fa * oc * ob) with (fa * ob * oc) by lia. nia.
Qed.
