(* ===== verification/TxSetBuilder.v ===== *)
(** * TxSetBuilder: partitioning Soroban transactions for parallel execution
      (herder/src/parallel_tx_set_builder.rs, tx/src/tx_set_xdr.rs)

    Transactions are put greedily, by descending fee rate, into the first stage they
    fit in. In a stage, transactions whose footprints conflict are merged into one
    cluster; clusters are packed into bins, the threads of a stage. Indices are
    natural numbers, instruction counts [u64]s, and a failed assertion, [expect] or
    index is the error [Panicking]. Debug assertions are not part of a release
    build and left out. *)

From Stdlib Require Import SpecFloat.
From S2P Require Import Prelude Bucket Ledger Lists BitSet Resource Envelope.

(** ** Conflicts *)

(** [iter().enumerate()]. *)
Definition enumerate {A} (l : list A) : list (nat * A) := imap pair l.

(** [m.entry(kb).or_default().push(tx_id)]. *)
Definition push_key (tx_id : nat) (kb : list Z) (m : gmap (list Z) (list nat)) : gmap (list Z) (list nat) :=
  <[kb := default [] (m !! kb) ++ [tx_id]]> m.

(** [conflicts[a].set(b); conflicts[b].set(a)]: the indices are of transactions, of
    which [conflicts] has one set each. *)
Definition mark (a b : nat) (conflicts : list BitSet) : list BitSet :=
  alter (set a) b (alter (set b) a conflicts).

Section detect.
Context `{EnvelopeXdr} `{HashIteration}.

Definition key_maps : Type := gmap (list Z) (list nat) * gmap (list Z) (list nat).

(** The keys one transaction reads and writes. *)
Definition add_footprint (ms : key_maps) (x : nat * HashedTx) : key_maps :=
  match envelope_soroban_data (envelope x.2) with
  | None => ms
  | Some data =>
      let fp := footprint (resources data) in
      (foldl (fun m key => push_key x.1 (ledger_key_bytes key) m) ms.1 (read_only fp),
       foldl (fun m key => push_key x.1 (ledger_key_bytes key) m) ms.2 (read_write fp))
  end.

Definition index_footprints (txs : list HashedTx) : key_maps := foldl add_footprint (∅, ∅) (enumerate txs).

(** [for i in 0..n { for j in (i + 1)..n { .. } }]. *)
Fixpoint mark_pairs (rw_txs : list nat) (conflicts : list BitSet) : list BitSet :=
  match rw_txs with
  | [] => conflicts
  | a :: rest => mark_pairs rest (foldl (fun cs b => mark a b cs) conflicts rest)
  end.

Definition mark_readers (ro_txs rw_txs : list nat) (conflicts : list BitSet) : list BitSet :=
  foldl (fun cs ro_tx =>
    foldl (fun cs rw_tx => if (ro_tx =? rw_tx)%nat then cs else mark ro_tx rw_tx cs) cs rw_txs) conflicts ro_txs.

Definition detect_conflicts (txs : list HashedTx) : list BitSet :=
  let n := length txs in
  let '(ro_key_txs, rw_key_txs) := index_footprints txs in
  let conflicts := replicate n (with_capacity n) in
  let conflicts := foldl (fun cs rw_txs => mark_pairs rw_txs cs) conflicts (iterate rw_key_txs).*2 in
  foldl (fun cs (p : list Z * list nat) =>
    match ro_key_txs !! p.1 with
    | Some ro_txs => mark_readers ro_txs p.2 cs
    | None => cs
    end) conflicts (iterate rw_key_txs).
End detect.

(** ** Clusters *)

Definition checked_u64 : Z -> option Z := checked 0 u64_max.

Record BuilderTx := MkBuilderTx { id : nat; tx_instructions : Z; conflicts : BitSet }.

Record Cluster := MkCluster { cluster_instructions : Z; cluster_conflicts : BitSet; tx_ids : BitSet }.

Definition Cluster_from_tx (tx : BuilderTx) : Cluster :=
  MkCluster (tx_instructions tx) (conflicts tx) (set (id tx) BitSet_default).

Definition Cluster_merge (other c : Cluster) : result Cluster Panic :=
  let? sum := expect (checked_u64 (cluster_instructions c + cluster_instructions other)) in
  Ok (MkCluster sum (union_with (cluster_conflicts other) (cluster_conflicts c))
        (union_with (tx_ids other) (tx_ids c))).

(** ** The limits of a stage *)

Record ParallelPartitionConfig := MkConfig { clusters_per_stage : Z; instructions_per_cluster : Z }.

Definition ParallelPartitionConfig_new (stage_count ledger_max_instructions ledger_max_dependent_tx_clusters : Z) :
    result ParallelPartitionConfig Panic :=
  let! 0 <=? ledger_max_instructions in
  let instructions_per_cluster :=
    if 0 <? stage_count then ledger_max_instructions / stage_count else ledger_max_instructions in
  Ok (MkConfig ledger_max_dependent_tx_clusters instructions_per_cluster).

Definition instructions_per_stage (c : ParallelPartitionConfig) : result Z Panic :=
  expect (checked_u64 (instructions_per_cluster c * clusters_per_stage c)).

Record Stage := MkStage {
  clusters : list Cluster;
  bin_packing : list BitSet;
  bin_instructions : list Z;
  total_instructions : Z;
  config : ParallelPartitionConfig;
  tried_compacting_bin_packing : bool
}.

Definition n_bins (c : ParallelPartitionConfig) : nat := Z.to_nat (clusters_per_stage c).

Definition Stage_new (c : ParallelPartitionConfig) : Stage :=
  MkStage [] (replicate (n_bins c) BitSet_default) (replicate (n_bins c) 0) 0 c false.

Definition put_bins (bins : list BitSet) (insns : list Z) (s : Stage) : Stage :=
  MkStage (clusters s) bins insns (total_instructions s) (config s) (tried_compacting_bin_packing s).
Definition put_added (new_clusters : list Cluster) (total : Z) (s : Stage) : Stage :=
  MkStage new_clusters (bin_packing s) (bin_instructions s) total (config s) (tried_compacting_bin_packing s).
Definition put_tried (s : Stage) : Stage :=
  MkStage (clusters s) (bin_packing s) (bin_instructions s) (total_instructions s) (config s) true.

(** ** Packing clusters into bins *)

(** The first of the bins [bin_id..] with room for [instructions]. *)
Fixpoint first_fit (limit instructions : Z) (bin_ids : list nat) (insns : list Z) : result (option nat) Panic :=
  match bin_ids with
  | [] => Ok None
  | bin_id :: rest =>
      let? used := expect (insns !! bin_id) in
      match checked_u64 (used + instructions) with
      | Some sum => if sum <=? limit then Ok (Some bin_id) else first_fit limit instructions rest insns
      | None => first_fit limit instructions rest insns
      end
  end.

(** A cluster put in a bin, and taken out of it. *)
Definition place (bin_id : nat) (insns : Z) (ids : BitSet) (b : list BitSet * list Z) : result (list BitSet * list Z) Panic :=
  let? used := expect (b.2 !! bin_id) in
  let? sum := expect (checked_u64 (used + insns)) in
  let? bin := expect (b.1 !! bin_id) in
  Ok (<[bin_id := union_with ids bin]> b.1, <[bin_id := sum]> b.2).

Definition take_out (bin_id : nat) (c : Cluster) (b : list BitSet * list Z) : result (list BitSet * list Z) Panic :=
  let? used := expect (b.2 !! bin_id) in
  let? remaining := expect (checked_u64 (used - cluster_instructions c)) in
  let? bin := expect (b.1 !! bin_id) in
  Ok (<[bin_id := difference_with (tx_ids c) bin]> b.1, <[bin_id := remaining]> b.2).

(** One cluster of [bin_pack_clusters]: [None] when it fits in no bin. *)
Definition pack_cluster (n : nat) (limit : Z) (b : option (list BitSet * list Z)) (c : Cluster) :
    result (option (list BitSet * list Z)) Panic :=
  match b with
  | None => Ok None
  | Some b =>
      let? bin := first_fit limit (cluster_instructions c) (seq 0 n) b.2 in
      match bin with
      | None => Ok None
      | Some bin_id => let? b := place bin_id (cluster_instructions c) (tx_ids c) b in Ok (Some b)
      end
  end.

(** The sort of the indices by descending instructions is the sort of the clusters. *)
Definition sort_clusters (cs : list Cluster) : list Cluster :=
  sort_by (fun a b => Z.compare (cluster_instructions b) (cluster_instructions a)) cs.

Definition bin_pack_clusters (cs : list Cluster) (max_bins max_instructions_per_bin : Z) :
    result (option (list BitSet * list Z)) Panic :=
  let n := Z.to_nat max_bins in
  try_fold (pack_cluster n max_instructions_per_bin) (sort_clusters cs)
    (Some (replicate n BitSet_default, replicate n 0)).

(** ** Adding a transaction to a stage *)

Definition indices_where {A} (p : A -> bool) (l : list A) : list nat :=
  omap (fun x => if p x.2 then Some x.1 else None) (enumerate l).

Definition conflicting_indices (tx : BuilderTx) (s : Stage) : list nat :=
  indices_where (fun c => get_bit (cluster_conflicts c) (id tx)) (clusters s).

Definition merge_at (s : Stage) (merged : Cluster) (idx : nat) : result Cluster Panic :=
  let? c := expect (clusters s !! idx) in Cluster_merge c merged.

Definition create_new_clusters (tx : BuilderTx) (conflicting : list nat) (s : Stage) :
    result (option (list Cluster)) Panic :=
  let? merged := try_fold (merge_at s) conflicting (Cluster_from_tx tx) in
  if instructions_per_cluster (config s) <? cluster_instructions merged then Ok None
  else
    let others := omap (fun x => if bool_decide (x.1 ∈ conflicting) then None else Some x.2) (enumerate (clusters s)) in
    Ok (Some (others ++ [merged])).

(** The clusters taken out of their bins: bin, instructions and transactions. *)
Definition removed_list : Type := list (nat * Z * BitSet).

Definition remove_cluster (s : Stage) (acc : removed_list * (list BitSet * list Z)) (idx : nat) :
    result (removed_list * (list BitSet * list Z)) Panic :=
  let? c := expect (clusters s !! idx) in
  let matching_bins := indices_where (fun bin => intersects bin (tx_ids c)) acc.2.1 in
  let! (length matching_bins =? 1)%nat in
  let? bin_id := expect (matching_bins !! 0%nat) in
  let? b := take_out bin_id c acc.2 in
  Ok (acc.1 ++ [(bin_id, cluster_instructions c, tx_ids c)], b).

Definition revert_removal (b : list BitSet * list Z) (r : nat * Z * BitSet) : result (list BitSet * list Z) Panic :=
  place r.1.1 r.1.2 r.2 b.

Definition try_in_place_bin_packing (new_cluster : Cluster) (conflicting : list nat) (s : Stage) :
    result (bool * Stage) Panic :=
  let? (removed, b) := try_fold (remove_cluster s) conflicting ([], (bin_packing s, bin_instructions s)) in
  let? bin := first_fit (instructions_per_cluster (config s)) (cluster_instructions new_cluster)
                (seq 0 (n_bins (config s))) b.2 in
  match bin with
  | Some bin_id =>
      let? b := place bin_id (cluster_instructions new_cluster) (tx_ids new_cluster) b in
      Ok (true, put_bins b.1 b.2 s)
  | None =>
      let? b := try_fold revert_removal removed b in
      Ok (false, put_bins b.1 b.2 s)
  end.

Definition exceeds_stage (tx : BuilderTx) (s : Stage) : result bool Panic :=
  match checked_u64 (total_instructions s + tx_instructions tx) with
  | None => Ok true
  | Some sum => let? limit := instructions_per_stage (config s) in Ok (limit <? sum)
  end.

(** Recomputing the packing of all clusters. *)
Definition repack (tx : BuilderTx) (no_conflicts : bool) (new_clusters : list Cluster) (s : Stage) :
    result (bool * Stage) Panic :=
  let? packing := bin_pack_clusters new_clusters (clusters_per_stage (config s)) (instructions_per_cluster (config s)) in
  match packing with
  | Some (bins, insns) =>
      let? total := expect (checked_u64 (total_instructions s + tx_instructions tx)) in
      Ok (true, put_added new_clusters total (put_bins bins insns s))
  | None => Ok (false, if no_conflicts then put_tried s else s)
  end.

Definition try_add (tx : BuilderTx) (s : Stage) : result (bool * Stage) Panic :=
  let? exceeds := exceeds_stage tx s in
  if exceeds then Ok (false, s)
  else
    let conflicting := conflicting_indices tx s in
    let? new_clusters := create_new_clusters tx conflicting s in
    match new_clusters with
    | None => Ok (false, s)
    | Some new_clusters =>
        let? merged_cluster := expect (list.last new_clusters) in
        let? (fits, s) := try_in_place_bin_packing merged_cluster conflicting s in
        if fits then
          let? total := expect (checked_u64 (total_instructions s + tx_instructions tx)) in
          Ok (true, put_added new_clusters total s)
        else if bool_decide (conflicting = []) && tried_compacting_bin_packing s then Ok (false, s)
        else repack tx (bool_decide (conflicting = [])) new_clusters s
    end.

(** [for stage in stages.iter_mut() { if stage.try_add(tx) { added = true; break } }]. *)
Fixpoint add_to_stages (tx : BuilderTx) (stages : list Stage) : result (bool * list Stage) Panic :=
  match stages with
  | [] => Ok (false, [])
  | s :: rest =>
      let? (added, s) := try_add tx s in
      if added then Ok (true, s :: rest)
      else let? (added, rest) := add_to_stages tx rest in Ok (added, s :: rest)
  end.

(** ** A fixed number of stages *)

Section build.
Context `{EnvelopeXdr} `{HashIteration}.

Definition tx_inclusion_fee (env : TransactionEnvelope) : Z := envelope_inclusion_fee env.

(** [envelope_num_ops(..) as u32], at least one. *)
Definition tx_fee_rate (htx : HashedTx) : FeeRate :=
  MkFeeRate (tx_inclusion_fee (envelope htx)) (Z.max (as_u32 (envelope_operation_count (envelope htx))) 1).

(** Descending fee rate, then ascending hash. *)
Definition build_order (a b : nat * HashedTx) : result comparison Panic :=
  let? o := cmp_rate (tx_fee_rate b.2) (tx_fee_rate a.2) in
  Ok match o with
     | Eq => hash_compare (tx_hash a.2) (tx_hash b.2)
     | other => other
     end.

Definition envelope_instructions (env : TransactionEnvelope) : Z :=
  match envelope_soroban_data env with
  | Some d => instructions (resources d)
  | None => 0
  end.

Definition make_builder_tx (conflicts : list BitSet) (x : nat * HashedTx) : result BuilderTx Panic :=
  let? c := expect (conflicts !! x.1) in
  Ok (MkBuilderTx x.1 (envelope_instructions (envelope x.2)) c).

(** One transaction of the greedy loop: its index and itself. *)
Definition build_step (builder_txs : list BuilderTx) (acc : list Stage * Z) (x : nat * HashedTx) :
    result (list Stage * Z) Panic :=
  let? tx_ref := expect (builder_txs !! x.1) in
  let? (added, stages) := add_to_stages tx_ref acc.1 in
  Ok (stages, if added then i64_saturating_add acc.2 (tx_inclusion_fee (envelope x.2)) else acc.2).

(** The bins of a stage that are not empty. *)
Definition stage_bins (s : Stage) : list (list nat) :=
  filter (fun bin => bin <> []) (iter_ones <$> bin_packing s).

Definition result_stages (stages : list Stage) : list (list (list nat)) :=
  filter (fun stage => stage <> []) (stage_bins <$> stages).

Definition build_with_stage_count (txs : list HashedTx)
    (ledger_max_instructions ledger_max_dependent_tx_clusters stage_count : Z) :
    result (list (list (list nat)) * Z) Panic :=
  let conflicts := detect_conflicts txs in
  let? builder_txs := try_map (make_builder_tx conflicts) (enumerate txs) in
  let? sorted := try_sort_by build_order (enumerate txs) in
  let? stages := try_map (fun _ =>
      let? c := ParallelPartitionConfig_new stage_count ledger_max_instructions ledger_max_dependent_tx_clusters in
      Ok (Stage_new c)) (seqZ 0 stage_count) in
  let? (stages, total_inclusion_fee) := try_fold (build_step builder_txs) sorted (stages, 0) in
  Ok (result_stages stages, total_inclusion_fee).

(** ** Choosing the number of stages *)

(** [x as f64], and [x as i64] of an [f64], which truncates and saturates. *)
Definition i64_to_f64 (x : Z) : spec_float := binary_normalize 53 1024 x 0 false.
Definition f64_to_i64 (f : spec_float) : Z :=
  match f with
  | S754_zero _ | S754_nan => 0
  | S754_infinity s => if s then i64_min else i64_max
  | S754_finite s m e =>
      let magnitude := if 0 <=? e then Z.pos m * 2 ^ e else Z.pos m / 2 ^ (- e) in
      saturating i64_min i64_max (if s then - magnitude else magnitude)
  end.

(** The [f64] nearest to 0.999. *)
Definition MAX_INCLUSION_FEE_TOLERANCE : spec_float := S754_finite false 8998192055486251 (-53).

Definition fee_threshold (max_fee : Z) : Z :=
  f64_to_i64 (SFmul 53 1024 (i64_to_f64 max_fee) MAX_INCLUSION_FEE_TOLERANCE).

(** [iter().max()]. *)
Fixpoint max_of (l : list Z) : option Z :=
  match l with
  | [] => None
  | x :: l => Some match max_of l with Some m => Z.max x m | None => x end
  end.

Definition choose_best (threshold : Z) (best : option (list (list (list nat)))) (r : list (list (list nat)) * Z) :
    option (list (list (list nat))) :=
  if threshold <=? r.2 then
    match best with
    | None => Some r.1
    | Some b => if (length r.1 <? length b)%nat then Some r.1 else best
    end
  else best.

(** [slots[id].take().expect("tx taken twice")], in the order of the stages. *)
Definition take_slot (acc : list HashedTx * list (option HashedTx)) (i : nat) :
    result (list HashedTx * list (option HashedTx)) Panic :=
  let? slot := expect (acc.2 !! i) in
  let? htx := expect slot in
  Ok (acc.1 ++ [htx], <[i := None]> acc.2).

Definition take_cluster (acc : list (list HashedTx) * list (option HashedTx)) (cluster : list nat) :
    result (list (list HashedTx) * list (option HashedTx)) Panic :=
  let? (c, slots) := try_fold take_slot cluster ([], acc.2) in
  Ok (acc.1 ++ [c], slots).

Definition take_stage (acc : list (list (list HashedTx)) * list (option HashedTx)) (stage : list (list nat)) :
    result (list (list (list HashedTx)) * list (option HashedTx)) Panic :=
  let? (s, slots) := try_fold take_cluster stage ([], acc.2) in
  Ok (acc.1 ++ [s], slots).

Definition surviving_count (stages : list (list (list nat))) : Z := len (concat (concat stages)).

Definition build_parallel_soroban_phase (soroban_txs : list HashedTx)
    (ledger_max_instructions ledger_max_dependent_tx_clusters min_stage_count max_stage_count : Z) :
    result (list (list (list HashedTx)) * bool) Panic :=
  if bool_decide (soroban_txs = []) then Ok ([], false)
  else if ledger_max_dependent_tx_clusters =? 0 then Ok ([[soroban_txs]], false)
  else
    let? results := try_map (build_with_stage_count soroban_txs ledger_max_instructions ledger_max_dependent_tx_clusters)
                      (seqZ min_stage_count (max_stage_count + 1 - min_stage_count)) in
    let max_fee := default 0 (max_of results.*2) in
    let best := foldl (choose_best (fee_threshold max_fee)) None results in
    let best_ids := default [] best in
    let had_tx_not_fitting := surviving_count best_ids <? len soroban_txs in
    let? (stages, _) := try_fold take_stage best_ids ([], Some <$> soroban_txs) in
    Ok (stages, had_tx_not_fitting).

(** ** The phase as XDR *)

Record TxSetComponent := MkComponent { comp_base_fee : option Z; comp_txs : list TransactionEnvelope }.

Record ParallelTxsComponent := MkParallel {
  base_fee : option Z;
  execution_stages : list (list (list TransactionEnvelope))
}.

Inductive TransactionPhase := PhaseV0 (components : list TxSetComponent) | PhaseV1 (parallel : ParallelTxsComponent).

Record GeneralizedTransactionSet := MkTxSet { previous_ledger_hash : list Z; phases : list TransactionPhase }.

(** [Vec] to [VecM], of at most [u32::MAX] elements. *)
Definition vecm {A} (l : list A) : result (list A) Panic := let! len l <=? u32_max in Ok l.

Definition new_parallel_txs_component (fee : option Z) (stages : list (list (list TransactionEnvelope))) :
    result ParallelTxsComponent Panic :=
  let! negb (bool_decide (stages = [])) || bool_decide (fee = None) in Ok (MkParallel fee stages).

Definition empty_soroban_phase : result TransactionPhase Panic :=
  let? p := new_parallel_txs_component None [] in Ok (PhaseV1 p).

Definition soroban_phase_with_stages (fee : option Z) (stages : list (list (list TransactionEnvelope))) :
    result TransactionPhase Panic :=
  let! negb (bool_decide (stages = [])) in
  let? p := new_parallel_txs_component fee stages in Ok (PhaseV1 p).

(** Strips empty clusters, then empty stages. *)
Definition canonicalize_stages {T} (stages : list (list (list T))) : list (list (list T)) :=
  filter (fun stage => stage <> []) ((fun stage => filter (fun cluster => cluster <> []) stage) <$> stages).

Definition cluster_hash (cluster : list HashedTx) : result (list Z) Panic :=
  let? htx := expect (cluster !! 0%nat) in Ok (tx_hash htx).
Definition stage_hash (stage : list (list HashedTx)) : result (list Z) Panic :=
  let? cluster := expect (stage !! 0%nat) in cluster_hash cluster.

(** [sort_by_key] with a key that may panic. *)
Definition by_key {A} (key : A -> result (list Z) Panic) (a b : A) : result comparison Panic :=
  let? ka := key a in let? kb := key b in Ok (hash_compare ka kb).

Definition sort_cluster (cluster : list HashedTx) : list HashedTx := sort_by_key hash_compare tx_hash cluster.
Definition sort_stage (stage : list (list HashedTx)) : result (list (list HashedTx)) Panic :=
  try_sort_by (by_key cluster_hash) (sort_cluster <$> stage).
Definition sort_stages (stages : list (list (list HashedTx))) : result (list (list (list HashedTx))) Panic :=
  let? stages := try_map sort_stage stages in try_sort_by (by_key stage_hash) stages.

Definition vecm_stage (stage : list (list TransactionEnvelope)) : result (list (list TransactionEnvelope)) Panic :=
  let? clusters := try_map vecm stage in vecm clusters.
Definition vecm_stages (stages : list (list (list TransactionEnvelope))) :
    result (list (list (list TransactionEnvelope))) Panic :=
  let? stages := try_map vecm_stage stages in vecm stages.

Definition stages_to_xdr_phase (stages : list (list (list HashedTx))) (fee : option Z) : result TransactionPhase Panic :=
  let stages := canonicalize_stages stages in
  if bool_decide (stages = []) then empty_soroban_phase
  else
    let? sorted_stages := sort_stages stages in
    let? stages := vecm_stages (fmap (M:=list) (fmap (M:=list) (fmap (M:=list) envelope)) sorted_stages) in
    soroban_phase_with_stages fee stages.

Definition stages_to_xdr_phase_unsorted (stages : list (list (list TransactionEnvelope))) (fee : option Z) :
    result TransactionPhase Panic :=
  let stages := canonicalize_stages stages in
  if bool_decide (stages = []) then empty_soroban_phase
  else let? stages := vecm_stages stages in soroban_phase_with_stages fee stages.

(** ** The two-phase set of the simulation harness *)

(** Transaction [i] goes to cluster [i % num_clusters]. *)
Fixpoint round_robin (i num_clusters : nat) (txs : list TransactionEnvelope) (cs : list (list TransactionEnvelope)) :
    list (list TransactionEnvelope) :=
  match txs with
  | [] => cs
  | tx :: txs => round_robin (S i) num_clusters txs (alter (fun c => c ++ [tx]) (i mod num_clusters)%nat cs)
  end.

Definition build_two_phase_tx_set (classic_txs soroban_txs : list TransactionEnvelope) (previous : list Z)
    (soroban_base_fee : option Z) (ledger_max_dependent_tx_clusters : Z) : result GeneralizedTransactionSet Panic :=
  let? classic_phase :=
    if bool_decide (classic_txs = []) then Ok (PhaseV0 [])
    else let? txs := vecm classic_txs in Ok (PhaseV0 [MkComponent None txs]) in
  let? soroban_phase :=
    if bool_decide (soroban_txs = []) then empty_soroban_phase
    else
      let num_clusters := Z.to_nat (Z.max ledger_max_dependent_tx_clusters 1) in
      let cluster_txs := round_robin 0 num_clusters soroban_txs (replicate num_clusters []) in
      stages_to_xdr_phase_unsorted [filter (fun c => c <> []) cluster_txs] soroban_base_fee in
  Ok (MkTxSet previous [classic_phase; soroban_phase]).
End build.
