(* ===== verification/TxSetConflicts.v ===== *)
(** * TxSetConflicts: conflict detection is exact

    The set [detect_conflicts] computes for a transaction holds the others whose
    footprint overlaps with its own on a key that one of the two writes, whatever
    the order in which the maps of keys are iterated. *)

From S2P Require Import Prelude Bucket Ledger Lists BitSet Resource Envelope TxSetBuilder.

(** ** Marking pairs *)

(** The bit of transaction [j] in the set of transaction [i]. *)
Definition conflict_bit (cs : list BitSet) (i j : nat) : bool :=
  match cs !! i with Some s => get_bit s j | None => false end.

Lemma conflict_bit_alter cs a b i j :
  conflict_bit (alter (set b) a cs) i j =
  conflict_bit cs i j || ((i =? a)%nat && (j =? b)%nat && (i <? length cs)%nat).
Proof.
  unfold conflict_bit. destruct (Nat.eqb_spec i a) as [->|Hne]; simpl.
  - rewrite list_lookup_alter_eq. destruct (cs !! a) as [s|] eqn:E; simpl.
    + rewrite get_set. apply lookup_lt_Some in E. destruct (Nat.ltb_spec a (length cs)); [|lia].
      rewrite andb_true_r, orb_comm. f_equal. apply Nat.eqb_sym.
    + apply lookup_ge_None in E. destruct (Nat.ltb_spec a (length cs)); [lia|]. by rewrite andb_false_r.
  - rewrite list_lookup_alter_ne by done. by rewrite orb_false_r.
Qed.

Lemma length_mark a b cs : length (mark a b cs) = length cs.
Proof. unfold mark. by rewrite !length_alter. Qed.

(** A pair in either order. *)
Definition is_pair (i j : nat) (p : nat * nat) : bool :=
  ((i =? p.1)%nat && (j =? p.2)%nat) || ((i =? p.2)%nat && (j =? p.1)%nat).

Lemma is_pair_iff i j p : is_pair i j p = true <-> p = (i, j) \/ p = (j, i).
Proof.
  destruct p as [a b]. unfold is_pair. rewrite orb_true_iff, !andb_true_iff, !Nat.eqb_eq. simpl.
  split; [intros [[-> ->]|[-> ->]]; auto|intros [[= -> ->]|[= -> ->]]; auto].
Qed.

Lemma conflict_bit_mark cs a b i j :
  conflict_bit (mark a b cs) i j = conflict_bit cs i j || (is_pair i j (a, b) && (i <? length cs)%nat).
Proof.
  unfold mark, is_pair. rewrite !conflict_bit_alter, length_alter. simpl.
  destruct (conflict_bit cs i j), (i =? a)%nat, (j =? b)%nat, (i =? b)%nat, (j =? a)%nat, (i <? length cs)%nat; done.
Qed.

Definition mark_all (ps : list (nat * nat)) (cs : list BitSet) : list BitSet :=
  foldl (fun cs p => mark p.1 p.2 cs) cs ps.

Lemma length_mark_all ps cs : length (mark_all ps cs) = length cs.
Proof. revert cs. induction ps as [|p ps IH]; intros cs; [done|]. simpl. by rewrite IH, length_mark. Qed.

Lemma mark_all_app ps qs cs : mark_all (ps ++ qs) cs = mark_all qs (mark_all ps cs).
Proof. apply foldl_app. Qed.

Lemma conflict_bit_mark_all ps cs i j :
  conflict_bit (mark_all ps cs) i j = conflict_bit cs i j || (existsb (is_pair i j) ps && (i <? length cs)%nat).
Proof.
  revert cs. induction ps as [|[a b] ps IH]; intros cs; simpl; [by rewrite orb_false_r|].
  rewrite IH, conflict_bit_mark, length_mark.
  destruct (conflict_bit cs i j), (is_pair i j (a, b)), (existsb _ ps), (i <? length cs)%nat; done.
Qed.

Lemma mark_all_ok ps cs : Forall bitset_ok cs -> Forall bitset_ok (mark_all ps cs).
Proof.
  revert cs. induction ps as [|p ps IH]; intros cs Hcs; [done|]. simpl. apply IH. unfold mark.
  apply Forall_alter; [apply Forall_alter; [done|]|]; intros; by apply bitset_ok_set.
Qed.

(** ** The pairs the loops mark *)

Fixpoint pairs_of (l : list nat) : list (nat * nat) :=
  match l with
  | [] => []
  | a :: rest => (pair a <$> rest) ++ pairs_of rest
  end.

Lemma mark_all_from a l cs : mark_all (pair a <$> l) cs = foldl (fun cs b => mark a b cs) cs l.
Proof. revert cs. induction l as [|b l IH]; intros cs; [done|]. csimpl. apply IH. Qed.

Lemma mark_pairs_all l cs : mark_pairs l cs = mark_all (pairs_of l) cs.
Proof.
  revert cs. induction l as [|a l IH]; intros cs; [done|]. simpl. by rewrite mark_all_app, IH, mark_all_from.
Qed.

Lemma elem_of_pairs_of l i j : i <> j -> ((i, j) ∈ pairs_of l \/ (j, i) ∈ pairs_of l) <-> i ∈ l /\ j ∈ l.
Proof.
  intros Hne. induction l as [|a l IH]; simpl.
  - split; [intros [H|H]; by apply elem_of_nil in H|intros [H _]; by apply elem_of_nil in H].
  - rewrite !elem_of_app, !elem_of_cons, !list_elem_of_fmap. split.
    + intros [[(? & [= -> ->] & ?)|?]|[(? & [= -> ->] & ?)|?]]; tauto.
    + intros [[->|Hi] [->|Hj]]; [done| | |tauto].
      * left. left. by exists j.
      * right. left. by exists i.
Qed.

Definition reader_pairs (ro_txs rw_txs : list nat) : list (nat * nat) :=
  ro ← ro_txs; rw ← rw_txs; if (ro =? rw)%nat then [] else [(ro, rw)].

Lemma mark_readers_all ro rw cs : mark_readers ro rw cs = mark_all (reader_pairs ro rw) cs.
Proof.
  unfold mark_readers, reader_pairs. revert cs. induction ro as [|r ro IH]; intros cs; [done|]. csimpl.
  rewrite mark_all_app, IH. f_equal. clear IH ro.
  revert cs. induction rw as [|w rw IH]; intros cs; [done|]. csimpl. rewrite mark_all_app, IH. f_equal.
  by destruct (r =? w)%nat.
Qed.

Lemma elem_of_reader_pairs ro rw i j : i <> j -> (i, j) ∈ reader_pairs ro rw <-> i ∈ ro /\ j ∈ rw.
Proof.
  intros Hne. unfold reader_pairs. rewrite list_elem_of_bind. split.
  - intros (a & H & Ha). apply list_elem_of_bind in H as (b & H & Hb).
    destruct (Nat.eqb_spec a b); [by apply elem_of_nil in H|]. apply list_elem_of_singleton in H as [= -> ->]. done.
  - intros [Hi Hj]. exists i. split; [|done]. apply list_elem_of_bind. exists j. split; [|done].
    destruct (Nat.eqb_spec i j); [done|]. by left.
Qed.

(** ** The keys of the footprints *)

Section facts.
Context `{EnvelopeXdr} `{HashIteration}.

Definition tx_reads (htx : HashedTx) : list LedgerKey :=
  match envelope_soroban_data (envelope htx) with
  | Some data => read_only (footprint (resources data))
  | None => []
  end.
Definition tx_writes (htx : HashedTx) : list LedgerKey :=
  match envelope_soroban_data (envelope htx) with
  | Some data => read_write (footprint (resources data))
  | None => []
  end.

(** Both write a key, or one reads what the other writes. *)
Definition txs_conflict (t u : HashedTx) : Prop :=
  exists k, (k ∈ tx_writes t /\ k ∈ tx_writes u) \/ (k ∈ tx_reads t /\ k ∈ tx_writes u)
            \/ (k ∈ tx_writes t /\ k ∈ tx_reads u).

Lemma txs_conflict_sym t u : txs_conflict t u -> txs_conflict u t.
Proof. intros (k & Hk). exists k. tauto. Qed.

(** The transactions a map lists under a key. *)
Definition listed (m : gmap (list Z) (list nat)) (kb : list Z) : list nat := default [] (m !! kb).

Lemma listed_push_keys i (keys : list LedgerKey) m kb j :
  j ∈ listed (foldl (fun m key => push_key i (ledger_key_bytes key) m) m keys) kb <->
  j ∈ listed m kb \/ (j = i /\ exists k, k ∈ keys /\ kb = ledger_key_bytes k).
Proof.
  revert m. induction keys as [|key keys IH]; intros m; simpl.
  - split; [auto|]. intros [?|(-> & k & Hk & _)]; [done|by apply elem_of_nil in Hk].
  - rewrite IH. clear IH. unfold push_key, listed at 1. destruct (decide (kb = ledger_key_bytes key)) as [->|Hkb].
    + rewrite lookup_insert_eq. simpl. rewrite elem_of_app, list_elem_of_singleton. split.
      * intros [[?| ->]|(-> & k & Hk & Hkb)]; [by left|right|right].
        -- split; [done|]. exists key. split; [left|done].
        -- split; [done|]. exists k. split; [by right|done].
      * intros [?|(-> & k & Hk & Hkb)]; [left; by left|]. left. by right.
    + rewrite lookup_insert_ne by done. change (default [] (m !! kb)) with (listed m kb). split.
      * intros [?|(-> & k & Hk & Hkk)]; [by left|]. right. split; [done|]. exists k. split; [by right|done].
      * intros [?|(-> & k & Hk & Hkk)]; [by left|]. apply elem_of_cons in Hk as [->|Hk]; [done|].
        right. split; [done|]. by exists k.
Qed.

Lemma listed_add_footprint ms i htx kb j :
  (j ∈ listed (add_footprint ms (i, htx)).1 kb <->
     j ∈ listed ms.1 kb \/ (j = i /\ exists k, k ∈ tx_reads htx /\ kb = ledger_key_bytes k)) /\
  (j ∈ listed (add_footprint ms (i, htx)).2 kb <->
     j ∈ listed ms.2 kb \/ (j = i /\ exists k, k ∈ tx_writes htx /\ kb = ledger_key_bytes k)).
Proof.
  unfold add_footprint, tx_reads, tx_writes. simpl.
  destruct (envelope_soroban_data (envelope htx)) as [data|]; simpl; [split; apply listed_push_keys|].
  split; (split; [auto|]; intros [?|(-> & k & Hk & _)]; [done|by apply elem_of_nil in Hk]).
Qed.

Lemma lookup_enumerate {A} (l : list A) i : enumerate l !! i = pair i <$> l !! i.
Proof. unfold enumerate. rewrite list_lookup_imap. done. Qed.

Lemma enumerate_snoc {A} (l : list A) x : enumerate (l ++ [x]) = enumerate l ++ [(length l, x)].
Proof. unfold enumerate. rewrite imap_app. simpl. by rewrite Nat.add_0_r. Qed.

Lemma fst_enumerate {A} (l : list A) : (enumerate l).*1 = seq 0 (length l).
Proof.
  induction l as [|x l IH] using rev_ind; [done|].
  by rewrite enumerate_snoc, fmap_app, IH, length_app, Nat.add_1_r, seq_S.
Qed.

Lemma length_enumerate {A} (l : list A) : length (enumerate l) = length l.
Proof. apply length_imap. Qed.

Lemma elem_of_enumerate {A} (l : list A) i x : (i, x) ∈ enumerate l <-> l !! i = Some x.
Proof.
  rewrite list_elem_of_lookup. split.
  - intros (j & Hj). rewrite lookup_enumerate in Hj. destruct (l !! j) as [y|] eqn:E; [|done]. by simplify_eq/=.
  - intros Hx. exists i. by rewrite lookup_enumerate, Hx.
Qed.

(** The maps list, under the bytes of a key, the transactions that read or write it. *)
Lemma index_footprints_spec txs kb j :
  (j ∈ listed (index_footprints txs).1 kb <->
     exists t k, txs !! j = Some t /\ k ∈ tx_reads t /\ kb = ledger_key_bytes k) /\
  (j ∈ listed (index_footprints txs).2 kb <->
     exists t k, txs !! j = Some t /\ k ∈ tx_writes t /\ kb = ledger_key_bytes k).
Proof.
  unfold index_footprints. induction txs as [|x txs [IHr IHw]] using rev_ind.
  { simpl. unfold listed. rewrite lookup_empty. simpl.
    split; (split; [intros Hj; by apply elem_of_nil in Hj|intros (t & k & Ht & _); by rewrite lookup_nil in Ht]). }
  rewrite enumerate_snoc, foldl_app. simpl.
  destruct (listed_add_footprint (foldl add_footprint (∅, ∅) (enumerate txs)) (length txs) x kb j) as [-> ->].
  rewrite IHr, IHw. clear IHr IHw.
  assert (forall (P : HashedTx -> LedgerKey -> Prop),
    ((exists t k, txs !! j = Some t /\ P t k /\ kb = ledger_key_bytes k) \/
     (j = length txs /\ exists k, P x k /\ kb = ledger_key_bytes k)) <->
    exists t k, (txs ++ [x]) !! j = Some t /\ P t k /\ kb = ledger_key_bytes k) as Hsnoc.
  { intros P. split.
    - intros [(t & k & Ht & Hk)|(-> & k & Hk)].
      + exists t, k. split; [by apply lookup_app_l_Some|done].
      + exists x, k. split; [|done]. by rewrite lookup_app_r, Nat.sub_diag by lia.
    - intros (t & k & Ht & Hk). apply lookup_app_Some in Ht as [Ht|[Hle Ht]]; [left; by exists t, k|right].
      apply list_lookup_singleton_Some in Ht as [Hj ->]. split; [lia|]. by exists k. }
  split; [apply (Hsnoc (fun t k => k ∈ tx_reads t))|apply (Hsnoc (fun t k => k ∈ tx_writes t))].
Qed.

Lemma foldl_mark_all {X} (f : X -> list (nat * nat)) (step : list BitSet -> X -> list BitSet) (xs : list X) cs :
  (forall cs x, step cs x = mark_all (f x) cs) -> foldl step cs xs = mark_all (xs ≫= f) cs.
Proof.
  intros Hs. revert cs. induction xs as [|x xs IH]; intros cs; [done|]. csimpl. by rewrite IH, Hs, mark_all_app.
Qed.

(** All the pairs the function marks. *)
Definition all_pairs (txs : list HashedTx) : list (nat * nat) :=
  let ms := index_footprints txs in
  ((iterate ms.2).*2 ≫= pairs_of)
  ++ (iterate ms.2 ≫= fun p => match ms.1 !! p.1 with Some ro => reader_pairs ro p.2 | None => [] end).

Lemma detect_conflicts_marks txs :
  detect_conflicts txs = mark_all (all_pairs txs) (replicate (length txs) (with_capacity (length txs))).
Proof.
  unfold detect_conflicts, all_pairs. destruct (index_footprints txs) as [ro rw]. simpl.
  rewrite mark_all_app. rewrite <- (foldl_mark_all pairs_of (fun cs rw_txs => mark_pairs rw_txs cs))
    by (intros; apply mark_pairs_all).
  apply foldl_mark_all. intros cs p. destruct (ro !! p.1); [apply mark_readers_all|done].
Qed.

Lemma length_detect_conflicts txs : length (detect_conflicts txs) = length txs.
Proof. by rewrite detect_conflicts_marks, length_mark_all, length_replicate. Qed.

Lemma detect_conflicts_ok txs : Forall bitset_ok (detect_conflicts txs).
Proof. rewrite detect_conflicts_marks. apply mark_all_ok, Forall_replicate, bitset_ok_with_capacity. Qed.

Lemma listed_some m kb j : j ∈ listed m kb <-> exists l, m !! kb = Some l /\ j ∈ l.
Proof.
  unfold listed. destruct (m !! kb) as [l|]; simpl; split; [eauto|by intros (l' & [= <-] & ?)| |by intros (? & ? & ?)].
  intros Hj. by apply elem_of_nil in Hj.
Qed.

(** A pair is marked when the transactions conflict. *)
Lemma all_pairs_spec txs i j : i <> j ->
  existsb (is_pair i j) (all_pairs txs) = true <->
  exists t u, txs !! i = Some t /\ txs !! j = Some u /\ txs_conflict t u.
Proof.
  intros Hne. rewrite existsb_exists. unfold all_pairs. split.
  - intros (p & Hp & Hij). apply is_pair_iff in Hij. apply list_elem_of_In in Hp.
    apply elem_of_app in Hp as [Hp|Hp]; apply list_elem_of_bind in Hp as (x & Hp & Hx).
    + apply list_elem_of_fmap in Hx as ([kb l] & -> & Hl). apply elem_of_iterate in Hl. simpl in Hp.
      assert (i ∈ l /\ j ∈ l) as [Hi Hj] by (apply elem_of_pairs_of; [done|destruct Hij as [-> | ->]; auto]).
      assert (i ∈ listed (index_footprints txs).2 kb) as Hi' by (apply listed_some; eauto).
      assert (j ∈ listed (index_footprints txs).2 kb) as Hj' by (apply listed_some; eauto).
      apply (index_footprints_spec txs kb i) in Hi' as (t & k & Ht & Hk & ->).
      apply (index_footprints_spec txs _ j) in Hj' as (u & k' & Hu & Hk' & E%(inj ledger_key_bytes)).
      subst k'. exists t, u. split; [done|]. split; [done|]. exists k. tauto.
    + destruct x as [kb rw]. apply elem_of_iterate in Hx. simpl in Hp.
      destruct ((index_footprints txs).1 !! kb) as [ro|] eqn:Ero; [|by apply elem_of_nil in Hp].
      assert (exists a b, a <> b /\ (a, b) ∈ reader_pairs ro rw /\ ((a = i /\ b = j) \/ (a = j /\ b = i)))
        as (a & b & Hab & Hin & Hcase) by (destruct Hij as [-> | ->]; [exists i, j|exists j, i]; auto).
      apply elem_of_reader_pairs in Hin as [Ha Hb]; [|done].
      assert (a ∈ listed (index_footprints txs).1 kb) as Ha' by (apply listed_some; eauto).
      assert (b ∈ listed (index_footprints txs).2 kb) as Hb' by (apply listed_some; eauto).
      apply (index_footprints_spec txs kb a) in Ha' as (t & k & Ht & Hk & ->).
      apply (index_footprints_spec txs _ b) in Hb' as (u & k' & Hu & Hk' & E%(inj ledger_key_bytes)).
      subst k'. destruct Hcase as [[-> ->]|[-> ->]].
      * exists t, u. split; [done|]. split; [done|]. exists k. tauto.
      * exists u, t. split; [done|]. split; [done|]. exists k. tauto.
  - intros (t & u & Ht & Hu & k & Hk).
    assert (forall a v, txs !! a = Some v -> k ∈ tx_reads v ->
      exists l, (index_footprints txs).1 !! ledger_key_bytes k = Some l /\ a ∈ l) as Hro.
    { intros a v Ha Hv. apply listed_some, index_footprints_spec. by exists v, k. }
    assert (forall a v, txs !! a = Some v -> k ∈ tx_writes v ->
      exists l, (index_footprints txs).2 !! ledger_key_bytes k = Some l /\ a ∈ l) as Hrw.
    { intros a v Ha Hv. apply listed_some, index_footprints_spec. by exists v, k. }
    assert (forall a b v w, txs !! a = Some v -> txs !! b = Some w -> a <> b -> k ∈ tx_reads v -> k ∈ tx_writes w ->
      (a, b) ∈ (iterate (index_footprints txs).2 ≫=
         fun p => match (index_footprints txs).1 !! p.1 with Some ro => reader_pairs ro p.2 | None => [] end)) as Hmix.
    { intros a b v w Ha Hb Hab Hr Hw. destruct (Hro a v Ha Hr) as (ro & Ero & Har).
      destruct (Hrw b w Hb Hw) as (rw & Erw & Hbw). apply list_elem_of_bind. exists (ledger_key_bytes k, rw).
      split; [|by apply elem_of_iterate]. simpl. rewrite Ero. by apply elem_of_reader_pairs. }
    destruct Hk as [[Hkt Hku]|[[Hkt Hku]|[Hkt Hku]]].
    + destruct (Hrw i t Ht Hkt) as (l & El & Hil). destruct (Hrw j u Hu Hku) as (l' & El' & Hjl).
      rewrite El in El'. injection El' as <-.
      assert ((i, j) ∈ pairs_of l \/ (j, i) ∈ pairs_of l) as Hp by by apply elem_of_pairs_of.
      assert (forall p, p ∈ pairs_of l -> p ∈ (iterate (index_footprints txs).2).*2 ≫= pairs_of) as Hbind.
      { intros p Hpl. apply list_elem_of_bind. exists l. split; [done|]. apply list_elem_of_fmap.
        exists (ledger_key_bytes k, l). split; [done|]. by apply elem_of_iterate. }
      destruct Hp as [Hp|Hp]; [exists (i, j)|exists (j, i)]; rewrite is_pair_iff; (split; [|auto]);
        apply list_elem_of_In, elem_of_app; left; by apply Hbind.
    + exists (i, j). rewrite is_pair_iff. split; [|auto]. apply list_elem_of_In, elem_of_app. right. by apply (Hmix i j t u).
    + exists (j, i). rewrite is_pair_iff. split; [|auto]. apply list_elem_of_In, elem_of_app. right. by apply (Hmix j i u t).
Qed.

Lemma conflict_bit_fresh n i j : conflict_bit (replicate n (with_capacity n)) i j = false.
Proof.
  unfold conflict_bit. destruct (_ !! i) as [s|] eqn:E; [|done].
  apply lookup_replicate in E as [-> _]. apply get_with_capacity.
Qed.

(** The sets of two different transactions name each other exactly when the
    footprints conflict. *)
Lemma detect_conflicts_spec txs i j : i <> j ->
  conflict_bit (detect_conflicts txs) i j = true <->
  exists t u, txs !! i = Some t /\ txs !! j = Some u /\ txs_conflict t u.
Proof.
  intros Hne. rewrite detect_conflicts_marks, conflict_bit_mark_all, conflict_bit_fresh. simpl.
  rewrite andb_true_iff, all_pairs_spec, length_replicate by done. split; [by intros [? _]|].
  intros Hex. split; [done|]. destruct Hex as (t & u & Ht & _). apply lookup_lt_Some in Ht.
  by apply Nat.ltb_lt.
Qed.

Lemma detect_conflicts_sym txs i j : i <> j ->
  conflict_bit (detect_conflicts txs) i j = conflict_bit (detect_conflicts txs) j i.
Proof.
  intros Hne. apply eq_true_iff_eq. rewrite !detect_conflicts_spec by done.
  split; intros (t & u & Ht & Hu & Hc%txs_conflict_sym); by exists u, t.
Qed.
End facts.
