(* ===== verification/TxSetStage.v ===== *)
(** * TxSetStage: what adding transactions to a stage preserves

    The clusters of a stage partition its transactions into classes closed under
    conflicts, the bins hold the clusters they were packed with, no bin exceeds the
    instructions of a cluster, and no assertion of [try_add] fails; first what bins,
    first fit and packing from scratch do. *)


From S2P Require Import Prelude Bucket Ledger Lists BitSet Resource Envelope TxSetBuilder TxSetConflicts.

(** ** Enumerations *)

Lemma elem_of_indices_where {A} (p : A -> bool) (l : list A) i :
  i ∈ indices_where p l <-> exists x, l !! i = Some x /\ p x = true.
Proof.
  unfold indices_where. rewrite list_elem_of_omap. split.
  - intros ([j x] & Hx & E). apply elem_of_enumerate in Hx. simpl in E.
    destruct (p x) eqn:Ep; [|done]. injection E as ->. by exists x.
  - intros (x & Hx & Hp). exists (i, x). rewrite elem_of_enumerate. simpl. by rewrite Hp.
Qed.

Lemma indices_where_snoc {A} (p : A -> bool) (l : list A) x :
  indices_where p (l ++ [x]) = indices_where p l ++ (if p x then [length l] else []).
Proof. unfold indices_where. rewrite enumerate_snoc, omap_app. f_equal. simpl. by destruct (p x). Qed.

Lemma indices_where_NoDup {A} (p : A -> bool) (l : list A) : NoDup (indices_where p l).
Proof.
  induction l as [|x l IH] using rev_ind; [constructor|]. rewrite indices_where_snoc.
  apply NoDup_app. split; [done|]. destruct (p x); (split; [|repeat constructor]).
  - intros i (y & Hy & _)%elem_of_indices_where Hi%list_elem_of_singleton. apply lookup_lt_Some in Hy. lia.
  - intros Hi. by apply elem_of_nil in Hi.
  - by intros i _ Hi%elem_of_nil.
Qed.

(** A single index: the place of the only element with the property. *)
Lemma indices_where_single {A} (p : A -> bool) (l : list A) i x :
  l !! i = Some x -> p x = true -> (forall j y, l !! j = Some y -> p y = true -> j = i) -> indices_where p l = [i].
Proof.
  intros Hx Hp Huniq. apply Permutation_singleton_r, NoDup_Permutation; [apply indices_where_NoDup|repeat constructor|].
  - intros H. by apply elem_of_nil in H.
  - intros j. rewrite elem_of_indices_where, list_elem_of_singleton. split.
    + intros (y & Hy & Hpy). by apply (Huniq j y).
    + intros ->. by exists x.
Qed.

(** The clusters that are not merged: those at the other indices. *)
Lemma omap_not_where {A} (p : A -> bool) (l : list A) :
  omap (fun x => if bool_decide (x.1 ∈ indices_where p l) then None else Some x.2) (enumerate l)
  = filter (fun x => p x = false) l.
Proof.
  assert (forall k, (forall i x, k !! i = Some x -> (i ∈ indices_where p l <-> p x = true)) ->
    omap (fun x => if bool_decide (x.1 ∈ indices_where p l) then None else Some x.2) (enumerate k)
    = filter (fun x => p x = false) k) as H; [|apply H].
  { induction k as [|x k IH] using rev_ind; intros Hk; [done|].
    rewrite enumerate_snoc, omap_app, filter_app, IH; [f_equal|].
    - simpl. assert ((length k) ∈ indices_where p l <-> p x = true) as Hx.
      { apply Hk. by rewrite lookup_app_r, Nat.sub_diag by lia. }
      rewrite filter_cons. destruct (p x) eqn:Ep.
      + rewrite bool_decide_true by by apply Hx. done.
      + rewrite bool_decide_false by (intros Hin; by apply Hx in Hin). done.
    - intros i y Hy. apply Hk. by apply lookup_app_l_Some. }
  intros i x Hx. rewrite elem_of_indices_where. split; [intros (y & Hy & Hp); by simplify_eq|by exists x].
Qed.

Lemma lookup_indices_where {A} (p : A -> bool) (l : list A) :
  omap (fun i => l !! i) (indices_where p l) = filter (fun x => p x = true) l.
Proof.
  assert (forall k, k `prefix_of` l -> omap (fun i => l !! i) (indices_where p k) = filter (fun x => p x = true) k) as H;
    [|by apply H].
  induction k as [|x k IH] using rev_ind; intros Hk; [done|].
  assert (l !! length k = Some x) as Hx.
  { destruct Hk as [k' ->]. rewrite <- app_assoc. by rewrite lookup_app_r, Nat.sub_diag by lia. }
  rewrite indices_where_snoc, omap_app, filter_app, IH; [f_equal|].
  - rewrite filter_cons. destruct (p x) eqn:Ep; simpl; [by rewrite Hx|done].
  - etrans; [|exact Hk]. by apply prefix_app_r.
Qed.

(** ** Clusters and their transactions *)

Definition members (c : Cluster) : list nat := iter_ones (tx_ids c).

Lemma elem_of_members c i : i ∈ members c <-> get_bit (tx_ids c) i = true.
Proof. apply elem_of_iter_ones. Qed.

Lemma iter_ones_set_default i : iter_ones (set i BitSet_default) = [i].
Proof.
  apply Permutation_singleton_r, NoDup_Permutation; [apply iter_ones_NoDup|repeat constructor|].
  - intros H. by apply elem_of_nil in H.
  - intros j. rewrite elem_of_iter_ones, get_set, get_default, orb_false_r, Nat.eqb_eq, list_elem_of_singleton. done.
Qed.

Lemma iter_ones_union s t :
  (forall i, i ∈ iter_ones s -> i ∉ iter_ones t) -> iter_ones (union_with t s) ≡ₚ iter_ones s ++ iter_ones t.
Proof.
  intros Hdisj. apply NoDup_Permutation.
  - apply iter_ones_NoDup.
  - apply NoDup_app. split; [apply iter_ones_NoDup|]. split; [done|apply iter_ones_NoDup].
  - intros i. rewrite elem_of_app, !elem_of_iter_ones, get_union, orb_true_iff. done.
Qed.

Section stage.
(** The instructions of the transactions and which of them conflict. *)
Context (instr : nat -> Z) (confl : nat -> nat -> bool).
Context (instr_nonneg : forall i, 0 <= instr i).
Context (confl_sym : forall i j, i <> j -> confl i j = confl j i).

Definition good_tx (tx : BuilderTx) : Prop :=
  tx_instructions tx = instr (id tx) /\ (forall j, get_bit (conflicts tx) j = confl (id tx) j).

Record cluster_ok (c : Cluster) : Prop := {
  cluster_words : bitset_ok (tx_ids c);
  cluster_inhabited : members c <> [];
  cluster_sum : cluster_instructions c = zsum instr (members c);
  cluster_conflict : forall j, get_bit (cluster_conflicts c) j = existsb (fun i => confl i j) (members c)
}.

Lemma cluster_nonneg c : cluster_ok c -> 0 <= cluster_instructions c.
Proof. intros Hc. rewrite (cluster_sum c Hc). by apply zsum_nonneg. Qed.

Lemma cluster_from_tx_ok tx : good_tx tx -> cluster_ok (Cluster_from_tx tx) /\ members (Cluster_from_tx tx) = [id tx].
Proof.
  intros [Hi Hc]. assert (members (Cluster_from_tx tx) = [id tx]) as Hm by apply iter_ones_set_default.
  split; [|done]. split; rewrite ?Hm; simpl.
  - apply bitset_ok_set, bitset_ok_default.
  - done.
  - lia.
  - intros j. rewrite Hc. by rewrite orb_false_r.
Qed.

(** Merging clusters that share no transaction. *)
Lemma cluster_merge_ok c d : cluster_ok c -> cluster_ok d ->
  (forall i, i ∈ members c -> i ∉ members d) -> cluster_instructions c + cluster_instructions d <= u64_max ->
  exists m, Cluster_merge d c = Ok m /\ cluster_ok m /\ members m ≡ₚ members c ++ members d /\
            cluster_instructions m = cluster_instructions c + cluster_instructions d.
Proof.
  intros Hc Hd Hdisj Hle. pose proof (cluster_nonneg c Hc). pose proof (cluster_nonneg d Hd).
  unfold Cluster_merge, expect, checked_u64, checked.
  destruct (Z.leb_spec 0 (cluster_instructions c + cluster_instructions d)); [|lia].
  destruct (Z.leb_spec (cluster_instructions c + cluster_instructions d) u64_max); [|lia].
  simpl. eexists. split; [done|].
  match goal with |- cluster_ok ?m /\ _ => set (m0 := m) end.
  assert (members m0 ≡ₚ members c ++ members d) as Hm by by apply iter_ones_union.
  split; [|done]. split.
  - apply bitset_ok_union; by apply cluster_words.
  - intros E. rewrite E in Hm. apply Permutation_nil_l in Hm. symmetry in Hm. apply app_nil in Hm as [Hm _]. by apply (cluster_inhabited c Hc).
  - rewrite Hm, zsum_app. simpl. by rewrite (cluster_sum c Hc), (cluster_sum d Hd).
  - intros j. simpl. rewrite get_union, (cluster_conflict c Hc), (cluster_conflict d Hd), <- existsb_app. by rewrite Hm.
Qed.

(** The transactions of a list of clusters. *)
Definition all_members (cs : list Cluster) : list nat := concat (members <$> cs).

Lemma elem_of_all_members cs i : i ∈ all_members cs <-> exists c, c ∈ cs /\ i ∈ members c.
Proof.
  unfold all_members. rewrite list_elem_of_In, in_concat. setoid_rewrite <- list_elem_of_In. split.
  - intros (l & Hl & Hi). apply list_elem_of_fmap in Hl as (c & -> & Hc). by exists c.
  - intros (c & Hc & Hi). exists (members c). split; [|done]. apply list_elem_of_fmap. by exists c.
Qed.

Lemma all_members_cons c cs : all_members (c :: cs) = members c ++ all_members cs.
Proof. done. Qed.

Lemma all_members_app cs ds : all_members (cs ++ ds) = all_members cs ++ all_members ds.
Proof. unfold all_members. by rewrite fmap_app, concat_app. Qed.

#[global] Instance all_members_perm : Proper ((≡ₚ) ==> (≡ₚ)) all_members.
Proof. intros cs ds H. apply concat_perm. by rewrite H. Qed.

Lemma all_members_sum cs : Forall cluster_ok cs -> zsum instr (all_members cs) = zsum cluster_instructions cs.
Proof.
  intros H. unfold all_members. rewrite zsum_concat, zsum_fmap. apply zsum_ext_in.
  intros c Hc. rewrite Forall_forall in H. symmetry. by apply cluster_sum, H.
Qed.

(** No transaction is in two clusters; the classes are closed under conflicts. *)
Record clusters_ok (ids : list nat) (cs : list Cluster) : Prop := {
  each_ok : Forall cluster_ok cs;
  partition : all_members cs ≡ₚ ids;
  closed : forall c i j, c ∈ cs -> i ∈ members c -> j ∈ ids -> i <> j -> confl i j = true -> j ∈ members c
}.

Lemma clusters_ok_nil : clusters_ok [] [].
Proof. split; [constructor|done|]. intros c i j Hc. by apply elem_of_nil in Hc. Qed.

(** ** Merging the clusters a transaction conflicts with *)

Lemma merge_all_ok tx (s : Stage) ids : good_tx tx -> id tx ∉ ids -> clusters_ok ids (clusters s) -> NoDup ids ->
  instr (id tx) + zsum instr ids <= u64_max ->
  exists m, try_fold (merge_at s) (conflicting_indices tx s) (Cluster_from_tx tx) = Ok m /\
    cluster_ok m /\
    members m ≡ₚ id tx :: all_members (filter (fun c => get_bit (cluster_conflicts c) (id tx) = true) (clusters s)).
Proof.
  intros Htx Hnew Hcs Hnd Hsum.
  set (p := fun c => get_bit (cluster_conflicts c) (id tx)).
  change (conflicting_indices tx s) with (indices_where p (clusters s)).
  rewrite <- (lookup_indices_where p).
  set (look := fun i => clusters s !! i).
  assert (NoDup (all_members (clusters s))) as Hndm by by rewrite (partition _ _ Hcs).
  edestruct (try_fold_invariant (merge_at s) (fun before m => cluster_ok m /\
      members m ≡ₚ id tx :: all_members (omap look before)))
    as (m & Em & Hm); [| |exists m; split; [exact Em|exact Hm]].
  { destruct (cluster_from_tx_ok tx Htx) as [? ->]. done. }
  intros before idx after m Hl [Hm Hmem].
  assert (idx ∈ indices_where p (clusters s)) as Hin by (rewrite Hl, elem_of_app; right; left).
  apply elem_of_indices_where in Hin as (c & Hc & Hp).
  assert (cluster_ok c) as Hcok by by apply (Forall_lookup_1 _ _ _ _ (each_ok _ _ Hcs) Hc).
  assert (all_members (omap look (before ++ idx :: after)) ⊆+ all_members (clusters s)) as Hsub.
  { rewrite <- Hl. unfold look. rewrite lookup_indices_where.
    rewrite <- (filter_app_complement (fun c => p c = true) (clusters s)) at 2.
    rewrite all_members_app. by apply submseteq_inserts_r. }
  rewrite omap_app in Hsub. cbn [omap list_omap] in Hsub. unfold look at 2 in Hsub. rewrite Hc in Hsub.
  rewrite all_members_app, all_members_cons in Hsub.
  assert (NoDup (all_members (omap look before) ++ members c ++ all_members (omap look after))) as Hnd2.
  { destruct (submseteq_Permutation _ _ Hsub) as (k & Hk). rewrite Hk in Hndm. by apply NoDup_app in Hndm as [? _]. }
  unfold merge_at. fold (look idx). unfold look at 1. rewrite Hc. simpl.
  destruct (cluster_merge_ok m c) as (m' & -> & Hm' & Hmem' & _); [done..| | |].
  - intros i Hi Hic. rewrite Hmem in Hi. apply elem_of_cons in Hi as [->|Hi].
    + apply Hnew. rewrite <- (partition _ _ Hcs), elem_of_all_members. exists c. split; [|done].
      by apply list_elem_of_lookup_2 in Hc.
    + apply NoDup_app in Hnd2 as (_ & Hd & _). apply (Hd i Hi). apply elem_of_app. by left.
  - rewrite (cluster_sum m Hm), (cluster_sum c Hcok), Hmem. simpl.
    assert (zsum instr (all_members (omap look before)) + zsum instr (members c) <= zsum instr ids); [|lia].
    rewrite <- (zsum_perm instr _ _ (partition _ _ Hcs)).
    destruct (submseteq_Permutation _ _ Hsub) as (k & Hk). rewrite (zsum_perm instr _ _ Hk), !zsum_app.
    pose proof (zsum_nonneg instr k instr_nonneg).
    pose proof (zsum_nonneg instr (all_members (omap look after)) instr_nonneg). lia.
  - exists m'. split; [done|]. split; [done|]. rewrite Hmem', Hmem, omap_app. cbn [omap list_omap].
    unfold look at 3. rewrite Hc, all_members_app, all_members_cons. simpl. by rewrite app_nil_r.
Qed.

(** The clusters after a transaction is added. *)
Lemma new_clusters_ok tx ids cs m : good_tx tx -> id tx ∉ ids -> clusters_ok ids cs -> cluster_ok m ->
  members m ≡ₚ id tx :: all_members (filter (fun c => get_bit (cluster_conflicts c) (id tx) = true) cs) ->
  clusters_ok (id tx :: ids) (filter (fun c => get_bit (cluster_conflicts c) (id tx) = false) cs ++ [m]).
Proof.
  intros Htx Hnew Hcs Hm Hmem. set (p := fun c => get_bit (cluster_conflicts c) (id tx)) in *.
  assert (cs ≡ₚ filter (fun c => p c = true) cs ++ filter (fun c => p c = false) cs) as Hsplit.
  { rewrite <- (filter_app_complement (fun c => p c = true) cs) at 1. f_equiv. apply reflexive_eq.
    apply list_filter_iff. intros c. destruct (p c); split; congruence. }
  assert (forall c, c ∈ cs -> p c = existsb (fun i => confl i (id tx)) (members c)) as Hpc.
  { intros c Hc. pose proof (each_ok _ _ Hcs) as Hall. rewrite Forall_forall in Hall.
    apply (cluster_conflict c (Hall c Hc)). }
  split.
  - apply Forall_app. split; [|by apply Forall_singleton]. 
    pose proof (each_ok _ _ Hcs) as Hall. rewrite Forall_forall in Hall |- *.
    intros c [_ Hc]%list_elem_of_filter. by apply Hall.
  - rewrite all_members_app. unfold all_members at 2. simpl. rewrite app_nil_r, Hmem.
    rewrite <- Permutation_middle. constructor.
    rewrite <- (partition _ _ Hcs), Permutation_app_comm, <- all_members_app. symmetry. by apply all_members_perm.
  - intros c i j Hc Hi Hj Hij Hconf.
    apply elem_of_app in Hc as [Hc|Hc%list_elem_of_singleton].
    + apply list_elem_of_filter in Hc as [Hpf Hc]. apply elem_of_cons in Hj as [->|Hj].
      * exfalso. change (p c = false) in Hpf. rewrite (Hpc c Hc) in Hpf. assert (existsb (fun i => confl i (id tx)) (members c) = true); [|congruence].
        apply existsb_exists. exists i. split; [by apply list_elem_of_In|done].
      * by apply (closed _ _ Hcs c i j).
    + subst c. rewrite Hmem in Hi |- *. apply elem_of_cons in Hi as [->|Hi].
      * apply elem_of_cons in Hj as [->|Hj]; [by left|right].
        rewrite <- (partition _ _ Hcs) in Hj. apply elem_of_all_members in Hj as (c & Hc & Hjc).
        apply elem_of_all_members. exists c. split; [|done]. apply list_elem_of_filter. split; [|done].
        change (p c = true). rewrite (Hpc c Hc). apply existsb_exists. exists j. split; [by apply list_elem_of_In|].
        by rewrite confl_sym by done.
      * apply elem_of_cons in Hj as [->|Hj]; [by left|right].
        apply elem_of_all_members in Hi as (c & Hc & Hic). apply elem_of_all_members. exists c. split; [done|].
        apply list_elem_of_filter in Hc as [_ Hc]. by apply (closed _ _ Hcs c i j).
Qed.
End stage.

(** ** bins hold the clusters packed into them

    A packing is described by the list of its clusters with their bins: the bit set of
    a bin holds the transactions of its clusters, its count their instructions. Taking
    clusters out, placing them and undoing both keep the description. *)

(** The instructions packed into a bin. *)
Definition load (k : nat) (l : list (nat * Cluster)) : Z :=
  zsum (fun p => if decide (p.1 = k) then cluster_instructions p.2 else 0) l.

Definition fits_limit (limit : Z) (l : list (nat * Cluster)) : Prop := forall k, load k l <= limit.

Record packed (n : nat) (b : list BitSet * list Z) (l : list (nat * Cluster)) : Prop := {
  packed_bin_count : length b.1 = n;
  packed_load_count : length b.2 = n;
  packed_range : forall p, p ∈ l -> (p.1 < n)%nat;
  packed_words : Forall bitset_ok b.1;
  packed_load : forall k, (k < n)%nat -> b.2 !! k = Some (load k l);
  packed_bits : forall k B, b.1 !! k = Some B ->
    forall i, get_bit B i = true <-> exists c, (k, c) ∈ l /\ i ∈ members c
}.

Lemma load_cons k p l : load k (p :: l) = (if decide (p.1 = k) then cluster_instructions p.2 else 0) + load k l.
Proof. done. Qed.

Lemma load_app k l l' : load k (l ++ l') = load k l + load k l'.
Proof. apply zsum_app. Qed.

#[global] Instance load_perm k : Proper ((≡ₚ) ==> (=)) (load k).
Proof. intros l l' H. by apply zsum_perm. Qed.

#[global] Instance fits_limit_perm limit : Proper ((≡ₚ) ==> iff) (fits_limit limit).
Proof. intros l l' H. unfold fits_limit. by setoid_rewrite H. Qed.

#[global] Instance packed_perm n b : Proper ((≡ₚ) ==> iff) (packed n b).
Proof.
  intros l l' H. split; intros [? ? Hr ? Hl Hb].
  - split; try done; [intros p; rewrite <- H; apply Hr|intros k Hk; rewrite <- H; by apply Hl|].
    intros k B HB i. rewrite (Hb k B HB i). by setoid_rewrite H.
  - split; try done; [intros p; rewrite H; apply Hr|intros k Hk; rewrite H; by apply Hl|].
    intros k B HB i. rewrite (Hb k B HB i). by setoid_rewrite H.
Qed.

Lemma packed_empty n : packed n (replicate n BitSet_default, replicate n 0) [].
Proof.
  split; simpl.
  - apply length_replicate.
  - apply length_replicate.
  - intros p Hp. by apply elem_of_nil in Hp.
  - apply Forall_replicate, bitset_ok_default.
  - intros k Hk. by apply lookup_replicate_2.
  - intros k B [-> _]%lookup_replicate i. rewrite get_default. split; [done|].
    intros (c & Hc & _). by apply elem_of_nil in Hc.
Qed.

Lemma fits_empty limit : 0 <= limit -> fits_limit limit [].
Proof. intros H k. done. Qed.

Lemma packed_bin n b l k : packed n b l -> (k < n)%nat -> exists B, b.1 !! k = Some B.
Proof. intros Hp Hk. apply lookup_lt_is_Some. by rewrite (packed_bin_count _ _ _ Hp). Qed.

Lemma expect_some {A} (x : A) : expect (Some x) = Ok x.
Proof. done. Qed.

Lemma checked_u64_some v : 0 <= v <= u64_max -> checked_u64 v = Some v.
Proof.
  intros H. unfold checked_u64, checked. destruct (Z.leb_spec 0 v); [|lia]. by destruct (Z.leb_spec v u64_max); [|lia].
Qed.

Lemma place_ok n b l k c : packed n b l -> (k < n)%nat -> bitset_ok (tx_ids c) ->
  0 <= load k l + cluster_instructions c <= u64_max ->
  exists b', place k (cluster_instructions c) (tx_ids c) b = Ok b' /\ packed n b' ((k, c) :: l).
Proof.
  intros Hp Hk Hw Hle. destruct (packed_bin n b l k Hp Hk) as [B HB].
  unfold place. rewrite (packed_load _ _ _ Hp k Hk), expect_some. simpl.
  rewrite checked_u64_some by done. simpl. rewrite HB. simpl. eexists. split; [done|]. split; simpl.
  - rewrite length_insert. apply (packed_bin_count _ _ _ Hp).
  - rewrite length_insert. apply (packed_load_count _ _ _ Hp).
  - intros p [-> | Hin]%elem_of_cons; [done|]. by apply (packed_range _ _ _ Hp).
  - apply Forall_insert; [apply (packed_words _ _ _ Hp)|]. apply bitset_ok_union; [done|].
    apply (Forall_lookup_1 _ _ _ _ (packed_words _ _ _ Hp) HB).
  - intros j Hj. rewrite load_cons. simpl. destruct (decide (k = j)) as [->|Hne].
    + rewrite list_lookup_insert_eq by (rewrite (packed_load_count _ _ _ Hp); lia). f_equal. lia.
    + rewrite list_lookup_insert_ne by done. rewrite (packed_load _ _ _ Hp j Hj). f_equal.
  - intros j B' HB' i. destruct (decide (k = j)) as [<-|Hne].
    + rewrite list_lookup_insert_eq in HB' by (rewrite (packed_bin_count _ _ _ Hp); lia). injection HB' as <-.
      rewrite get_union, orb_true_iff, (packed_bits _ _ _ Hp k B HB i). split.
      * intros [(d & Hd & Hi)|Hi]; [exists d; split; [by right|done]|]. exists c. split; [left|]. by apply elem_of_members.
      * intros (d & Hd & Hi). apply elem_of_cons in Hd as [[= ->]|Hd]; [right; by apply elem_of_members|left; by exists d].
    + rewrite list_lookup_insert_ne in HB' by done. rewrite (packed_bits _ _ _ Hp j B' HB' i). split.
      * intros (d & Hd & Hi). exists d. split; [by right|done].
      * intros (d & Hd & Hi). apply elem_of_cons in Hd as [[= -> ->]|Hd]; [done|by exists d].
Qed.

(** The transactions of the clusters packed. *)
Definition packed_members (l : list (nat * Cluster)) : list nat := all_members l.*2.

#[global] Instance packed_members_perm : Proper ((≡ₚ) ==> (≡ₚ)) packed_members.
Proof. intros l l' H. unfold packed_members. by rewrite H. Qed.

Lemma elem_of_packed l k c : (k, c) ∈ l -> forall i, i ∈ members c -> i ∈ packed_members l.
Proof.
  intros Hl i Hi. apply elem_of_all_members. exists c. split; [|done]. apply list_elem_of_fmap. by exists (k, c).
Qed.

Lemma take_out_ok n b l k c : packed n b ((k, c) :: l) -> NoDup (packed_members ((k, c) :: l)) ->
  (forall p, p ∈ l -> 0 <= cluster_instructions p.2) -> load k l <= u64_max ->
  exists b', take_out k c b = Ok b' /\ packed n b' l.
Proof.
  intros Hp Hnd Hpos Hle. assert ((k < n)%nat) as Hk by (apply (packed_range _ _ _ Hp (k, c)); left).
  destruct (packed_bin n b _ k Hp Hk) as [B HB].
  assert (0 <= load k l) as Hl0.
  { clear -Hpos. induction l as [|p l IH]; [done|]. rewrite load_cons.
    assert (0 <= load k l) by (apply IH; intros; apply Hpos; by right).
    assert (0 <= cluster_instructions p.2) by (apply Hpos; left). case_decide; lia. }
  unfold take_out. rewrite (packed_load _ _ _ Hp k Hk), expect_some. simpl.
  rewrite load_cons. simpl. rewrite decide_True by done.
  replace (cluster_instructions c + load k l - cluster_instructions c) with (load k l) by lia.
  rewrite checked_u64_some by done. simpl. rewrite HB. simpl. eexists. split; [done|].
  apply NoDup_app in Hnd as (_ & Hdisj & _). split; simpl.
  - rewrite length_insert. apply (packed_bin_count _ _ _ Hp).
  - rewrite length_insert. apply (packed_load_count _ _ _ Hp).
  - intros p Hin. apply (packed_range _ _ _ Hp). by right.
  - apply Forall_insert; [apply (packed_words _ _ _ Hp)|]. apply bitset_ok_difference.
    apply (Forall_lookup_1 _ _ _ _ (packed_words _ _ _ Hp) HB).
  - intros j Hj. destruct (decide (k = j)) as [->|Hne].
    + by rewrite list_lookup_insert_eq by (rewrite (packed_load_count _ _ _ Hp); lia).
    + rewrite list_lookup_insert_ne by done. rewrite (packed_load _ _ _ Hp j Hj), load_cons. simpl.
      by rewrite decide_False by done.
  - intros j B' HB' i. destruct (decide (k = j)) as [<-|Hne].
    + rewrite list_lookup_insert_eq in HB' by (rewrite (packed_bin_count _ _ _ Hp); lia). injection HB' as <-.
      rewrite get_difference, andb_true_iff, negb_true_iff, (packed_bits _ _ _ Hp k B HB i). split.
      * intros [(d & Hd & Hi) Hnot]. apply elem_of_cons in Hd as [[= ->]|Hd]; [|by exists d].
        apply elem_of_members in Hi. congruence.
      * intros (d & Hd & Hi). split; [exists d; split; [by right|done]|].
        apply not_true_is_false. intros Hin. apply (Hdisj i); [by apply elem_of_members|].
        by apply (elem_of_packed l k d).
    + rewrite list_lookup_insert_ne in HB' by done. rewrite (packed_bits _ _ _ Hp j B' HB' i). split.
      * intros (d & Hd & Hi). apply elem_of_cons in Hd as [[= -> ->]|Hd]; [done|by exists d].
      * intros (d & Hd & Hi). exists d. split; [by right|done].
Qed.

(** The assertion "exactly one bin" of the removal. *)
Lemma matching_bins_ok n b l k c : packed n b l -> (k, c) ∈ l -> NoDup (packed_members l) -> members c <> [] ->
  indices_where (fun bin => intersects bin (tx_ids c)) b.1 = [k].
Proof.
  intros Hp Hin Hnd Hne. assert ((k < n)%nat) as Hk by by apply (packed_range _ _ _ Hp (k, c)).
  destruct (packed_bin n b _ k Hp Hk) as [B HB].
  assert (forall j B', b.1 !! j = Some B' -> bitset_ok B') as Hw.
  { intros j B' HB'. apply (Forall_lookup_1 _ _ _ _ (packed_words _ _ _ Hp) HB'). }
  apply (indices_where_single _ _ _ B); [done| |].
  - apply intersects_spec; [by eapply Hw|]. destruct (members c) as [|i ms] eqn:E; [done|].
    assert (i ∈ members c) as Hi by (rewrite E; left). exists i. split; [|by apply elem_of_members].
    apply (packed_bits _ _ _ Hp k B HB). by exists c.
  - intros j B' HB' Hint. apply intersects_spec in Hint as (i & Hi & Hc); [|by eapply Hw].
    apply elem_of_members in Hc. apply (packed_bits _ _ _ Hp j B' HB') in Hi as (d & Hd & Hid).
    destruct (decide (j = k)) as [|Hjk]; [done|exfalso].
    apply elem_of_Permutation in Hin as (l' & Hl). rewrite Hl in Hnd, Hd. clear Hl.
    apply elem_of_cons in Hd as [[= -> ->]|Hd]; [done|].
    apply NoDup_app in Hnd as (_ & Hdisj & _). apply (Hdisj i Hc). by apply (elem_of_packed l' j d).
Qed.

(** ** First fit *)

Lemma first_fit_seq n b l limit v : packed n b l -> limit <= u64_max -> 0 <= v -> (forall k, 0 <= load k l) ->
  exists r, first_fit limit v (seq 0 n) b.2 = Ok r /\
    match r with
    | Some k => (k < n)%nat /\ load k l + v <= limit
    | None => forall k, (k < n)%nat -> limit < load k l + v
    end.
Proof.
  intros Hp Hlim Hv Hpos.
  assert (forall m s, (s + m = n)%nat ->
    exists r, first_fit limit v (seq s m) b.2 = Ok r /\
    match r with
    | Some k => (k < n)%nat /\ load k l + v <= limit
    | None => forall k, (s <= k < n)%nat -> limit < load k l + v
    end) as H.
  { induction m as [|m IH]; intros s Hs; simpl.
    - exists None. split; [done|]. intros k. lia.
    - rewrite (packed_load _ _ _ Hp s) by lia. simpl. destruct (IH (S s)) as (r & Er & Hr); [lia|].
      assert ((forall k, (S s <= k < n)%nat -> limit < load k l + v) -> limit < load s l + v ->
        forall k, (s <= k < n)%nat -> limit < load k l + v) as Hext.
      { intros Hk Hs0 k Hsk. destruct (decide (k = s)) as [->|]; [done|]. apply Hk. lia. }
      unfold checked_u64, checked. specialize (Hpos s).
      destruct (Z.leb_spec 0 (load s l + v)); [|lia]. simpl.
      destruct (Z.leb_spec (load s l + v) u64_max); simpl.
      + destruct (Z.leb_spec (load s l + v) limit); [exists (Some s); split; [done|lia]|].
        exists r. split; [done|]. destruct r; [done|]. by apply Hext.
      + exists r. split; [done|]. destruct r; [done|]. apply Hext; [done|lia]. }
  destruct (H n 0%nat eq_refl) as (r & Er & Hr). exists r. split; [done|]. destruct r; [done|].
  intros k Hk. apply Hr. lia.
Qed.

Lemma fits_cons limit k c l : fits_limit limit l -> load k l + cluster_instructions c <= limit ->
  fits_limit limit ((k, c) :: l).
Proof.
  intros Hf Hle j. rewrite load_cons. simpl. case_decide as E; [subst; lia|]. specialize (Hf j). lia.
Qed.

Definition nonneg_packed (l : list (nat * Cluster)) : Prop := forall p, p ∈ l -> 0 <= cluster_instructions p.2.

Lemma nonneg_load l k : nonneg_packed l -> 0 <= load k l.
Proof.
  intros Hn. induction l as [|p l IH]; [done|]. rewrite load_cons.
  assert (0 <= load k l) by (apply IH; intros q Hq; apply Hn; by right).
  assert (0 <= cluster_instructions p.2) by (apply Hn; left). case_decide; lia.
Qed.

Lemma nonneg_cons k c l : 0 <= cluster_instructions c -> nonneg_packed l -> nonneg_packed ((k, c) :: l).
Proof. intros Hc Hl p [-> | Hp]%elem_of_cons; [done|by apply Hl]. Qed.

(** ** Packing from scratch *)

Lemma bin_pack_ok cs max_bins limit :
  (forall c, c ∈ cs -> bitset_ok (tx_ids c) /\ 0 <= cluster_instructions c) -> 0 <= limit <= u64_max ->
  exists r, bin_pack_clusters cs max_bins limit = Ok r /\
    match r with
    | None => True
    | Some b => exists l, l.*2 ≡ₚ cs /\ packed (Z.to_nat max_bins) b l /\ fits_limit limit l /\ nonneg_packed l
    end.
Proof.
  intros Hcs Hlim. unfold bin_pack_clusters. set (n := Z.to_nat max_bins).
  edestruct (try_fold_invariant (pack_cluster n limit) (fun before r =>
    match r with
    | None => True
    | Some b => exists l, l.*2 ≡ₚ before /\ packed n b l /\ fits_limit limit l /\ nonneg_packed l
    end)) as (r & Er & Hr); [| |exists r; split; [exact Er|]].
  - exists []. split; [done|]. split; [apply packed_empty|]. split; [apply fits_empty; lia|]. by intros p Hp%elem_of_nil.
  - intros before c after r Hl Hr. destruct r as [b|]; [|by exists None].
    destruct Hr as (l & Hperm & Hp & Hf & Hn).
    assert (c ∈ sort_clusters cs) as Hc by (rewrite Hl; apply elem_of_app; right; left).
    apply elem_of_sort_by in Hc.
    destruct (Hcs c Hc) as [Hw Hpos]. unfold pack_cluster.
    destruct (first_fit_seq n b l limit (cluster_instructions c)) as (k & -> & Hk); [done|lia|done| |].
    { intros k. by apply nonneg_load. }
    destruct k as [k|]; [|by exists None]. destruct Hk as [Hk Hle]. simpl.
    destruct (place_ok n b l k c) as (b' & -> & Hp'); [done..| |].
    { pose proof (nonneg_load l k Hn). lia. }
    simpl. exists (Some b'). split; [done|]. exists ((k, c) :: l). split; [csimpl; by rewrite Hperm, Permutation_cons_append|].
    split; [done|]. split; [by apply fits_cons|by apply nonneg_cons].
  - destruct r as [b|]; [|done]. destruct Hr as (l & Hperm & H). exists l. split; [|done].
    rewrite Hperm. apply sort_by_perm.
Qed.
