(* ===== verification/TxSetAdd.v ===== *)
(** * TxSetAdd: adding a transaction keeps the invariant of a stage

    [try_add] never panics; it adds the transaction or leaves the transactions of the
    stage as they are. *)

From S2P Require Import Prelude Bucket Ledger Lists BitSet Resource Envelope TxSetBuilder TxSetConflicts TxSetStage.

Lemma indices_where_split {A} (p : A -> bool) (l : list A) before idx after :
  indices_where p l = before ++ idx :: after ->
  exists x, l !! idx = Some x /\ p x = true /\
    filter (fun x => p x = true) l = omap (fun i => l !! i) before ++ x :: omap (fun i => l !! i) after.
Proof.
  intros H. assert (idx ∈ indices_where p l) as Hin by (rewrite H; apply elem_of_app; right; left).
  apply elem_of_indices_where in Hin as (x & Hx & Hp). exists x. split; [done|]. split; [done|].
  rewrite <- lookup_indices_where, H, omap_app. cbn [omap list_omap]. by rewrite Hx.
Qed.

Lemma filter_split {A} (p : A -> bool) (l : list A) :
  l ≡ₚ filter (fun x => p x = true) l ++ filter (fun x => p x = false) l.
Proof.
  rewrite <- (filter_app_complement (fun x => p x = true) l) at 1. f_equiv. apply reflexive_eq, list_filter_iff.
  intros x. destruct (p x); split; congruence.
Qed.

Definition removed_of (p : nat * Cluster) : nat * Z * BitSet := (p.1, cluster_instructions p.2, tx_ids p.2).

Lemma revert_ok n limit lr : limit <= u64_max -> forall lrem b,
  packed n b lrem -> nonneg_packed (lr ++ lrem) -> fits_limit limit (lr ++ lrem) ->
  (forall p, p ∈ lr -> (p.1 < n)%nat /\ bitset_ok (tx_ids p.2)) ->
  exists b', try_fold revert_removal (removed_of <$> lr) b = Ok b' /\ packed n b' (lr ++ lrem).
Proof.
  intros Hlim. induction lr as [|[k c] lr IH]; intros lrem b Hp Hn Hf Hr; [by exists b|].
  destruct (Hr (k, c)) as [Hk Hw]; [left|].
  assert (((k, c) :: lr) ++ lrem ≡ₚ lr ++ (k, c) :: lrem) as Hmid by (simpl; apply Permutation_middle).
  assert (nonneg_packed (lr ++ (k, c) :: lrem)) as Hn' by (intros p; rewrite <- Hmid; apply Hn).
  assert (nonneg_packed lr) as Hnlr by (intros p Hin; apply Hn'; apply elem_of_app; by left).
  assert (nonneg_packed lrem) as Hnrem by (intros p Hin; apply Hn'; apply elem_of_app; right; by right).
  assert (0 <= cluster_instructions c) by (apply (Hn (k, c)); left).
  destruct (place_ok n b lrem k c) as (b1 & E1 & Hp1); [done..| |].
  { specialize (Hf k). rewrite Hmid, load_app, load_cons in Hf. simpl in Hf. rewrite decide_True in Hf by done.
    pose proof (nonneg_load lr k Hnlr). pose proof (nonneg_load lrem k Hnrem). lia. }
  cbn [fmap list_fmap try_fold]. unfold revert_removal at 1, removed_of at 1 2 3. simpl. rewrite E1.
  destruct (IH ((k, c) :: lrem) b1) as (b2 & E2 & Hp2); [done|done| | |].
  - by rewrite <- Hmid.
  - intros p Hin. apply Hr. by right.
  - exists b2. split; [exact E2|]. by rewrite <- Hmid in Hp2.
Qed.

Section add.
Context (instr : nat -> Z) (confl : nat -> nat -> bool).
Context (instr_nonneg : forall i, 0 <= instr i).
Context (confl_sym : forall i j, i <> j -> confl i j = confl j i).

Notation cluster_ok := (TxSetStage.cluster_ok instr confl).
Notation clusters_ok := (TxSetStage.clusters_ok instr confl).

Lemma clusters_nonneg l : Forall cluster_ok l.*2 -> nonneg_packed l.
Proof.
  rewrite Forall_forall. intros H p Hp. apply (cluster_nonneg instr confl instr_nonneg), H.
  apply list_elem_of_fmap. by exists p.
Qed.

(** Taking the clusters with a property out of their bins. *)
Lemma remove_all_ok (s : Stage) (p : Cluster -> bool) n b0 l0 limit :
  Forall cluster_ok (clusters s) -> NoDup (all_members (clusters s)) ->
  l0.*2 ≡ₚ clusters s -> packed n b0 l0 -> fits_limit limit l0 -> limit <= u64_max ->
  exists lr lrem b, try_fold (remove_cluster s) (indices_where p (clusters s)) ([], b0) = Ok (removed_of <$> lr, b) /\
    l0 ≡ₚ lr ++ lrem /\ lr.*2 = filter (fun c => p c = true) (clusters s) /\ packed n b lrem.
Proof.
  intros Hok Hnd Hl0 Hp0 Hf0 Hlim. set (look := fun i => clusters s !! i).
  edestruct (try_fold_invariant (remove_cluster s) (fun before acc =>
    exists lr lrem, l0 ≡ₚ lr ++ lrem /\ lr.*2 = omap look before /\ acc.1 = removed_of <$> lr /\ packed n acc.2 lrem)
    (indices_where p (clusters s)) ([], b0))
    as ([rs b] & E & lr & lrem & Hl & Hlr & Hrs & Hp); [| |].
  { exists [], l0. split_and!; [done|reflexivity|reflexivity|exact Hp0]. }
  2:{ exists lr, lrem, b. simpl in Hrs, Hp. subst rs. split; [exact E|]. split; [done|].
      split; [|done]. rewrite Hlr. apply lookup_indices_where. }
  intros before idx after [rs b] Hidx (lr & lrem & Hl & Hlr & Hrs & Hp). simpl in Hrs, Hp. subst rs.
  destruct (indices_where_split p (clusters s) before idx after Hidx) as (c & Hc & _ & Hsplit).
  change (fun i => clusters s !! i) with look in Hsplit.
  assert (cluster_ok c) as Hcok by apply (Forall_lookup_1 _ _ _ _ Hok Hc).
  assert (l0.*2 ≡ₚ lr.*2 ++ lrem.*2) as Hl2 by (rewrite <- fmap_app; by apply fmap_Permutation).
  assert (exists k, (k, c) ∈ lrem) as [k Hin].
  { assert (c ∈ lr.*2 ++ lrem.*2) as Hcin by (rewrite <- Hl2, Hl0; by apply list_elem_of_lookup_2 in Hc).
    apply elem_of_app in Hcin as [Hcin|Hcin].
    - exfalso. rewrite (filter_split p (clusters s)), Hsplit, <- Hlr in Hnd.
      rewrite !all_members_app, all_members_cons in Hnd.
      apply NoDup_app in Hnd as [Hnd _]. apply NoDup_app in Hnd as (_ & Hdisj & _).
      destruct (members c) as [|i ms] eqn:Em; [by apply (cluster_inhabited _ _ c Hcok)|].
      apply (Hdisj i); [|left]. apply elem_of_all_members. exists c. split; [done|]. rewrite Em. left.
    - apply list_elem_of_fmap in Hcin as ([k d] & -> & Hin). by exists k. }
  assert (NoDup (packed_members l0)) as Hndl0 by (unfold packed_members; by rewrite Hl0).
  assert (nonneg_packed l0) as Hn0 by (apply clusters_nonneg; by rewrite Hl0).
  assert (NoDup (packed_members lrem)) as Hndr.
  { rewrite Hl in Hndl0. unfold packed_members in *. rewrite fmap_app, all_members_app in Hndl0.
    by apply NoDup_app in Hndl0 as (_ & _ & ?). }
  unfold remove_cluster. rewrite Hc, expect_some. simpl.
  rewrite (matching_bins_ok n b lrem k c) by (try done; by apply (cluster_inhabited _ _ c Hcok)). simpl.
  apply elem_of_Permutation in Hin as (lrem' & Hlrem). rewrite Hlrem in Hp, Hndr.
  assert (l0 ≡ₚ lr ++ (k, c) :: lrem') as Hl' by by rewrite Hl, Hlrem.
  assert (nonneg_packed lrem') as Hnrem.
  { intros q Hq. apply Hn0. rewrite Hl'. apply elem_of_app. right. by right. }
  destruct (take_out_ok n b lrem' k c) as (b' & -> & Hp'); [done..| |].
  { specialize (Hf0 k). rewrite Hl', load_app, load_cons in Hf0. simpl in Hf0. rewrite decide_True in Hf0 by done.
    assert (nonneg_packed lr) as Hnlr by (intros q Hq; apply Hn0; rewrite Hl; apply elem_of_app; by left).
    pose proof (nonneg_load lr k Hnlr). pose proof (cluster_nonneg _ _ instr_nonneg c Hcok). lia. }
  simpl. eexists. split; [done|]. exists (lr ++ [(k, c)]), lrem'. split; [|split; [|split; [|done]]].
  - by rewrite Hl', <- app_assoc.
  - rewrite fmap_app, Hlr, omap_app. simpl. change (look idx) with (clusters s !! idx). by rewrite Hc.
  - simpl. by rewrite fmap_app.
Qed.

(** ** The invariant of a stage *)

Definition config_ok (c : ParallelPartitionConfig) : Prop :=
  0 <= instructions_per_cluster c <= u64_max /\ 0 <= clusters_per_stage c /\
  instructions_per_cluster c * clusters_per_stage c <= u64_max.

Definition stage_packed (s : Stage) (cs : list Cluster) : Prop :=
  exists l, l.*2 ≡ₚ cs /\ packed (n_bins (config s)) (bin_packing s, bin_instructions s) l /\
    fits_limit (instructions_per_cluster (config s)) l.

Record stage_ok (ids : list nat) (s : Stage) : Prop := {
  stage_config : config_ok (config s);
  stage_clusters : clusters_ok ids (clusters s);
  stage_bins_ok : stage_packed s (clusters s);
  stage_total : total_instructions s = zsum instr ids;
  stage_ids : NoDup ids
}.

Lemma stage_new_ok c : config_ok c -> stage_ok [] (Stage_new c).
Proof.
  intros Hc. split; simpl; try done.
  - apply clusters_ok_nil.
  - exists []. split; [done|]. split; [apply packed_empty|]. apply fits_empty. apply Hc.
  - constructor.
Qed.

(** What a part of [try_add] leaves alone. *)
Definition same_but_bins (s s' : Stage) : Prop :=
  clusters s' = clusters s /\ total_instructions s' = total_instructions s /\ config s' = config s /\
  tried_compacting_bin_packing s' = tried_compacting_bin_packing s.

Lemma in_place_ok ids s (p : Cluster -> bool) m : stage_ok ids s -> cluster_ok m ->
  exists r s', try_in_place_bin_packing m (indices_where p (clusters s)) s = Ok (r, s') /\ same_but_bins s s' /\
    stage_packed s' (if r : bool then filter (fun c => p c = false) (clusters s) ++ [m] else clusters s).
Proof.
  intros Hs Hm. destruct (stage_bins_ok _ _ Hs) as (l0 & Hl0 & Hp0 & Hf0).
  destruct (stage_config _ _ Hs) as ((Hlim0 & Hlim) & _).
  pose proof (each_ok _ _ _ _ (stage_clusters _ _ Hs)) as Hall.
  assert (NoDup (all_members (clusters s))) as Hndm.
  { rewrite (partition _ _ _ _ (stage_clusters _ _ Hs)). apply (stage_ids _ _ Hs). }
  destruct (remove_all_ok s p _ _ l0 _ Hall Hndm Hl0 Hp0 Hf0 Hlim) as (lr & lrem & b & E & Hl & Hlr & Hp).
  assert (nonneg_packed l0) as Hn0 by (apply clusters_nonneg; by rewrite Hl0).
  assert (nonneg_packed lrem) as Hnrem by (intros q Hq; apply Hn0; rewrite Hl; apply elem_of_app; by right).
  assert (lrem.*2 ≡ₚ filter (fun c => p c = false) (clusters s)) as Hrem.
  { apply (Permutation_app_inv_l lr.*2). rewrite Hlr at 2. rewrite <- filter_split, <- Hl0, <- fmap_app.
    by apply fmap_Permutation. }
  unfold try_in_place_bin_packing. rewrite E. simpl.
  pose proof (cluster_nonneg _ _ instr_nonneg m Hm) as Hmpos.
  destruct (first_fit_seq (n_bins (config s)) b lrem (instructions_per_cluster (config s)) (cluster_instructions m))
    as ([k|] & -> & Hk); [done|done|done|intros; by apply nonneg_load| |]; simpl.
  - destruct Hk as [Hk Hle]. destruct (place_ok _ b lrem k m Hp Hk) as (b' & -> & Hp').
    { apply (cluster_words _ _ m Hm). }
    { pose proof (nonneg_load lrem k Hnrem). lia. }
    simpl. eexists true, _. split; [done|]. split; [done|]. exists ((k, m) :: lrem).
    split; [csimpl; by rewrite Hrem, Permutation_cons_append|]. destruct b'. split; [done|]. simpl.
    apply fits_cons; [|done]. intros j. specialize (Hf0 j). rewrite Hl, load_app in Hf0.
    assert (nonneg_packed lr) as Hnlr by (intros q Hq; apply Hn0; rewrite Hl; apply elem_of_app; by left).
    pose proof (nonneg_load lr j Hnlr). simpl in *. lia.
  - destruct (revert_ok (n_bins (config s)) (instructions_per_cluster (config s)) lr Hlim lrem b) as (b' & -> & Hp');
      [done|intros q; rewrite <- Hl; apply Hn0|by rewrite <- Hl| |].
    { intros q Hq. split; [apply (packed_range _ _ _ Hp0); rewrite Hl; apply elem_of_app; by left|].
      rewrite Forall_forall in Hall. apply (cluster_words instr confl), Hall. rewrite <- Hl0.
      apply list_elem_of_fmap. exists q. split; [done|]. rewrite Hl. apply elem_of_app. by left. }
    simpl. eexists false, _. split; [done|]. split; [done|]. exists l0. split; [done|]. destruct b'.
    split; [simpl; by rewrite Hl|done].
Qed.

(** ** Adding a transaction *)

Lemma exceeds_stage_ok tx ids s : stage_ok ids s -> good_tx instr confl tx ->
  exists e, exceeds_stage tx s = Ok e /\ (e = false -> zsum instr ids + instr (id tx) <= u64_max).
Proof.
  intros Hs [Hi _]. destruct (stage_config _ _ Hs) as ((H0 & Hlim) & Hc0 & Hmul).
  unfold exceeds_stage. rewrite (stage_total _ _ Hs), Hi. unfold checked_u64, checked.
  pose proof (zsum_nonneg instr ids instr_nonneg). specialize (instr_nonneg (id tx)).
  destruct (Z.leb_spec 0 (zsum instr ids + instr (id tx))); [|lia]. simpl.
  destruct (Z.leb_spec (zsum instr ids + instr (id tx)) u64_max); [|by exists true].
  unfold instructions_per_stage. rewrite checked_u64_some by nia. simpl. eexists. split; [done|]. done.
Qed.

Lemma create_new_clusters_ok tx ids s : stage_ok ids s -> good_tx instr confl tx -> id tx ∉ ids ->
  zsum instr ids + instr (id tx) <= u64_max ->
  exists r, create_new_clusters tx (conflicting_indices tx s) s = Ok r /\
    match r with
    | None => True
    | Some cs => exists m, cluster_ok m /\ clusters_ok (id tx :: ids) cs /\
        cs = filter (fun c => get_bit (cluster_conflicts c) (id tx) = false) (clusters s) ++ [m]
    end.
Proof.
  intros Hs Htx Hnew Hsum. unfold create_new_clusters.
  destruct (merge_all_ok instr confl instr_nonneg tx s ids) as (m & -> & Hm & Hmem);
    [done|done|apply (stage_clusters _ _ Hs)|apply (stage_ids _ _ Hs)|lia|]. simpl.
  destruct (_ <? _); [by exists None|]. eexists. split; [done|]. exists m. split; [done|].
  unfold conflicting_indices. rewrite (omap_not_where (fun c => get_bit (cluster_conflicts c) (id tx))).
  split; [|done]. apply (new_clusters_ok instr confl confl_sym); try done. apply (stage_clusters _ _ Hs).
Qed.

Lemma total_ok tx ids s : stage_ok ids s -> good_tx instr confl tx -> zsum instr ids + instr (id tx) <= u64_max ->
  expect (checked_u64 (total_instructions s + tx_instructions tx)) = Ok (zsum instr (id tx :: ids)).
Proof.
  intros Hs [Hi _] Hle. rewrite (stage_total _ _ Hs), Hi. pose proof (zsum_nonneg instr ids instr_nonneg).
  specialize (instr_nonneg (id tx)). rewrite checked_u64_some by lia. simpl. f_equal. lia.
Qed.

(** [try_add] adds the transaction or keeps those of the stage; it never panics. *)
Lemma try_add_ok tx ids s : stage_ok ids s -> good_tx instr confl tx -> id tx ∉ ids ->
  exists r s', try_add tx s = Ok (r, s') /\ config s' = config s /\ stage_ok (if r : bool then id tx :: ids else ids) s'.
Proof.
  intros Hs Htx Hnew. destruct (exceeds_stage_ok tx ids s Hs Htx) as ([] & Ee & Hsum).
  { exists false, s. unfold try_add. by rewrite Ee. }
  specialize (Hsum eq_refl). unfold try_add. rewrite Ee. simpl.
  destruct (create_new_clusters_ok tx ids s Hs Htx Hnew Hsum) as ([cs|] & -> & Hcs); simpl; [|by exists false, s].
  destruct Hcs as (m & Hm & Hcs & ->). rewrite list.last_snoc. simpl.
  destruct (in_place_ok ids s (fun c => get_bit (cluster_conflicts c) (id tx)) m Hs Hm)
    as ([] & s' & E & (Hcl & Htot & Hcfg & Htried) & Hpk);
    unfold conflicting_indices; rewrite E; simpl.
  - rewrite Htot, (total_ok tx ids s) by done. simpl. eexists true, _. split; [done|]. split; [done|].
    split; simpl; [by rewrite Hcfg; apply (stage_config _ _ Hs)|done|done|done|].
    constructor; [done|apply (stage_ids _ _ Hs)].
  - assert (stage_ok ids s') as Hs'.
    { split; [rewrite Hcfg; apply (stage_config _ _ Hs)|rewrite Hcl; apply (stage_clusters _ _ Hs)|by rewrite Hcl| |].
      - rewrite Htot. apply (stage_total _ _ Hs).
      - apply (stage_ids _ _ Hs). }
    destruct (_ && _); [by exists false, s'|]. unfold repack. rewrite Hcfg.
    edestruct bin_pack_ok as ([b|] & -> & Hb).
    { intros c Hc. pose proof (each_ok _ _ _ _ Hcs) as Hall. rewrite Forall_forall in Hall. specialize (Hall c Hc).
      split; [apply (cluster_words _ _ c Hall)|by apply (cluster_nonneg instr confl)]. }
    { apply (stage_config _ _ Hs). }
    + destruct b as [bins insns]. destruct Hb as (l & Hl & Hp & Hf & _). simpl.
      rewrite (total_ok tx ids s') by done. simpl. eexists true, _. split; [done|]. split; [done|].
      split; simpl; [rewrite Hcfg; apply (stage_config _ _ Hs)|done| |done|].
      * exists l. split; [done|]. simpl. by rewrite Hcfg.
      * constructor; [done|apply (stage_ids _ _ Hs)].
    + simpl. destruct (bool_decide _).
      * exists false, (put_tried s'). split; [done|]. split; [done|]. by destruct Hs'.
      * by exists false, s'.
Qed.
End add.
