(* ===== verification/TxSetBuild.v ===== *)
(** * TxSetBuild: the stages built for a fixed number of stages

    [build_with_stage_count] never panics on transactions of non-negative inclusion
    fee; every transaction is in at most one bin, the bins of a stage do not conflict
    with each other and keep within the instructions of a cluster. *)

From S2P Require Import Prelude Bucket Ledger Lists BitSet Resource Envelope TxSetBuilder TxSetConflicts TxSetStage TxSetAdd.

(** ** Lists of lists *)

Lemma StronglySorted_from_lookup {A} (R : A -> A -> Prop) l :
  (forall p q x y, (p < q)%nat -> l !! p = Some x -> l !! q = Some y -> R x y) -> StronglySorted R l.
Proof.
  induction l as [|x l IH]; intros H; constructor.
  - apply IH. intros p q y z Hpq Hy Hz. by apply (H (S p) (S q) y z); [lia|..].
  - apply Forall_forall. intros y [q Hq]%list_elem_of_lookup. apply (H 0%nat (S q)); [lia|done..].
Qed.

(** ** The bins of a stage *)

Section bins.
Context (instr : nat -> Z) (confl : nat -> nat -> bool).
Context (instr_nonneg : forall i, 0 <= instr i).
Context (confl_sym : forall i j, i <> j -> confl i j = confl j i).

(** Two bins of different transactions, none of which conflict. *)
Definition separate (b c : list nat) : Prop := forall i j, i ∈ b -> j ∈ c -> i <> j /\ confl i j = false.

Lemma separate_sym b c : separate b c -> separate c b.
Proof. intros H i j Hi Hj. destruct (H j i Hj Hi) as [Hne Hc]. split; [done|]. by rewrite confl_sym. Qed.

Lemma same_cluster l k k' c d i : NoDup (packed_members l) -> (k, c) ∈ l -> (k', d) ∈ l ->
  i ∈ members c -> i ∈ members d -> k = k' /\ c = d.
Proof.
  intros Hnd Hc Hd Hic Hid. apply elem_of_Permutation in Hc as (l' & Hl). rewrite Hl in Hnd, Hd.
  apply elem_of_cons in Hd as [[= -> ->]|Hd]; [done|]. exfalso.
  apply NoDup_app in Hnd as (_ & Hdisj & _). apply (Hdisj i Hic). by apply (elem_of_packed l' k' d).
Qed.

Lemma stage_bins_facts ids s : stage_ok instr confl ids s ->
  let bins := iter_ones <$> bin_packing s in
  concat bins ≡ₚ ids /\ StronglySorted separate bins /\ length bins = n_bins (config s) /\
  (forall b, b ∈ bins -> zsum instr b <= instructions_per_cluster (config s)).
Proof.
  intros Hs bins. destruct (stage_bins_ok _ _ _ _ Hs) as (l & Hl & Hp & Hf).
  pose proof (stage_clusters _ _ _ _ Hs) as Hcs.
  assert (packed_members l ≡ₚ ids) as Hmem by (unfold packed_members; rewrite Hl; apply (partition _ _ _ _ Hcs)).
  assert (NoDup (packed_members l)) as Hnd by (rewrite Hmem; apply (stage_ids _ _ _ _ Hs)).
  assert (forall k b, bins !! k = Some b -> exists B, bin_packing s !! k = Some B /\ b = iter_ones B) as Hlook.
  { intros k b Hb. apply list_lookup_fmap_Some in Hb as (B & HB & ->). by exists B. }
  assert (forall k b i, bins !! k = Some b -> i ∈ b <-> exists c, (k, c) ∈ l /\ i ∈ members c) as Hbits.
  { intros k b i Hb. destruct (Hlook k b Hb) as (B & HB & ->). rewrite elem_of_iter_ones. apply (packed_bits _ _ _ Hp k B HB). }
  assert (StronglySorted separate bins) as Hsep.
  { apply StronglySorted_from_lookup. intros p q x y Hpq Hx Hy i j Hi Hj.
    apply (Hbits p x i Hx) in Hi as (c & Hc & Hic). apply (Hbits q y j Hy) in Hj as (d & Hd & Hjd).
    assert (forall k, k ∈ members c -> k ∈ members d -> False) as Hdiff.
    { intros k Hkc Hkd. destruct (same_cluster l p q c d k Hnd Hc Hd Hkc Hkd). lia. }
    split; [intros <-; by apply (Hdiff i)|]. apply not_true_is_false. intros Hconf. apply (Hdiff j); [|done].
    apply (closed _ _ _ _ Hcs c i j); [|done| | |done].
    - rewrite <- Hl. apply list_elem_of_fmap. by exists (p, c).
    - rewrite <- Hmem. by apply (elem_of_packed l q d).
    - intros <-. by apply (Hdiff i). }
  split; [|split; [done|split]].
  - apply NoDup_Permutation; [|apply (stage_ids _ _ _ _ Hs)|].
    + apply NoDup_concat_disjoint.
      * apply Forall_forall. intros b (B & -> & _)%list_elem_of_fmap. apply iter_ones_NoDup.
      * apply (StronglySorted_weaken separate); [|done]. intros b c H i Hi Hic. by destruct (H i i Hi Hic).
    + intros i. rewrite elem_of_concat, <- Hmem. unfold packed_members. rewrite elem_of_all_members. split.
      * intros (b & [k Hb]%list_elem_of_lookup & Hi). apply (Hbits k b i Hb) in Hi as (c & Hc & Hi).
        exists c. split; [|done]. apply list_elem_of_fmap. by exists (k, c).
      * intros (c & Hc & Hi). apply list_elem_of_fmap in Hc as ([k c'] & -> & Hc). simpl in Hi.
        pose proof (packed_range _ _ _ Hp _ Hc) as Hk. simpl in Hk.
        destruct (packed_bin _ _ _ k Hp Hk) as [B HB]. simpl in HB. exists (iter_ones B). split.
        -- apply list_elem_of_fmap. exists B. split; [done|]. by apply list_elem_of_lookup_2 in HB.
        -- rewrite elem_of_iter_ones. apply (packed_bits _ _ _ Hp k B HB). by exists c'.
  - unfold bins. rewrite length_fmap. apply (packed_bin_count _ _ _ Hp).
  - intros b [k Hb]%list_elem_of_lookup.
    transitivity (load k l); [|apply Hf].
    assert (b ≡ₚ packed_members (filter (fun p => p.1 = k) l)) as Hb'.
    { apply NoDup_Permutation.
      - destruct (Hlook k b Hb) as (B & _ & ->). apply iter_ones_NoDup.
      - unfold packed_members in *. rewrite (filter_split (fun p => bool_decide (p.1 = k)) l) in Hnd.
        rewrite fmap_app, all_members_app in Hnd. apply NoDup_app in Hnd as [Hnd _].
        erewrite list_filter_iff; [exact Hnd|]. intros p. simpl. by rewrite bool_decide_eq_true.
      - intros i. rewrite (Hbits k b i Hb). unfold packed_members. rewrite elem_of_all_members. split.
        + intros (c & Hc & Hi). exists c. split; [|done]. apply list_elem_of_fmap. exists (k, c). split; [done|].
          by apply list_elem_of_filter.
        + intros (c & Hc & Hi). apply list_elem_of_fmap in Hc as ([k' c'] & -> & [E Hc]%list_elem_of_filter).
          simpl in E. subst k'. by exists c'. }
    rewrite Hb'. unfold packed_members. rewrite (all_members_sum instr confl).
    + apply Z.eq_le_incl. clear. unfold load. induction l as [|[k' c] l IH]; [done|]. rewrite filter_cons. simpl.
      case_decide; csimpl; by rewrite IH.
    + rewrite Forall_forall. intros c Hc. apply list_elem_of_fmap in Hc as (p & -> & [_ Hc]%list_elem_of_filter).
      pose proof (each_ok _ _ _ _ Hcs) as Hall. rewrite Forall_forall in Hall. apply Hall. rewrite <- Hl.
      apply list_elem_of_fmap. by exists p.
Qed.

(** ** The stages *)

Lemma add_to_stages_ok tx idss stages : Forall2 (stage_ok instr confl) idss stages -> good_tx instr confl tx ->
  id tx ∉ concat idss ->
  exists r stages' idss', add_to_stages tx stages = Ok (r, stages') /\ Forall2 (stage_ok instr confl) idss' stages' /\
    config <$> stages' = config <$> stages /\
    concat idss' ≡ₚ (if r : bool then id tx :: concat idss else concat idss).
Proof.
  intros Hs Htx. induction Hs as [|ids s idss stages Hs Hrest IH]; intros Hnew.
  { by exists false, [], []. }
  simpl in Hnew. rewrite elem_of_app in Hnew. simpl.
  destruct (try_add_ok instr confl instr_nonneg confl_sym tx ids s) as ([] & s' & -> & Hcfg & Hs'); [done|done|tauto| |]; simpl.
  - eexists true, _, ((id tx :: ids) :: idss). split; [done|]. split; [by constructor|].
    csimpl. by rewrite Hcfg.
  - destruct IH as (r & stages' & idss' & -> & Hok & Hcfgs & Hperm); [tauto|]. simpl.
    eexists r, _, (ids :: idss'). split; [done|]. split; [by constructor|]. csimpl. rewrite Hcfg, Hcfgs. split; [done|].
    rewrite Hperm. destruct r; [|done]. by rewrite <- Permutation_middle.
Qed.
End bins.

(** ** The build for a fixed number of stages *)

Section build.
Context `{EnvelopeXdr} `{HashIteration}.

(** A transaction of the queue: [instructions] is a [u32] and the fee pays for
    inclusion. *)
Definition tx_ok (t : HashedTx) : Prop :=
  is_u32 (envelope_instructions (envelope t)) /\ 0 <= tx_inclusion_fee (envelope t).

Definition instr_of (txs : list HashedTx) (i : nat) : Z :=
  match txs !! i with Some t => envelope_instructions (envelope t) | None => 0 end.
Definition fee_of (txs : list HashedTx) (i : nat) : Z :=
  match txs !! i with Some t => tx_inclusion_fee (envelope t) | None => 0 end.
Definition confl_of (txs : list HashedTx) : nat -> nat -> bool := conflict_bit (detect_conflicts txs).

Definition per_cluster (ledger_max_instructions stage_count : Z) : Z :=
  if 0 <? stage_count then ledger_max_instructions / stage_count else ledger_max_instructions.

(** No transaction of [b] conflicts with one of [c]. *)
Definition independent (txs : list HashedTx) (b c : list nat) : Prop :=
  forall i j t u, i ∈ b -> j ∈ c -> txs !! i = Some t -> txs !! j = Some u -> ~ txs_conflict t u.

(** What a partition promises: the limits of the ledger for [stage_count] stages. *)
Record partition_ok (txs : list HashedTx) (max_instructions max_clusters stage_count : Z)
    (stages : list (list (list nat))) : Prop := {
  ids_once : NoDup (concat (concat stages));
  ids_known : forall i, i ∈ concat (concat stages) -> (i < length txs)%nat;
  stages_bound : len stages <= stage_count;
  clusters_bound : forall stage, stage ∈ stages -> stage <> [] /\ len stage <= max_clusters;
  bins_bound : forall stage bin, stage ∈ stages -> bin ∈ stage ->
    bin <> [] /\ zsum (instr_of txs) bin <= per_cluster max_instructions stage_count;
  bins_separate : forall stage, stage ∈ stages -> StronglySorted (independent txs) stage
}.

Lemma instr_of_nonneg txs i : Forall tx_ok txs -> 0 <= instr_of txs i.
Proof.
  intros Hok. unfold instr_of. destruct (txs !! i) as [t|] eqn:E; [|done].
  destruct (Forall_lookup_1 _ _ _ _ Hok E) as [Hi _]. apply Hi.
Qed.

Lemma fee_of_nonneg txs i : Forall tx_ok txs -> 0 <= fee_of txs i.
Proof.
  intros Hok. unfold fee_of. destruct (txs !! i) as [t|] eqn:E; [|done].
  by destruct (Forall_lookup_1 _ _ _ _ Hok E) as [_ Hi].
Qed.

Lemma inclusion_fee_range env : is_i64 (tx_inclusion_fee env).
Proof.
  unfold tx_inclusion_fee, envelope_inclusion_fee, saturating_sub_resource, i64_saturating_sub, saturating.
  unfold is_i64, i64_min, i64_max. lia.
Qed.

Lemma saturating_sum a b : 0 <= a -> 0 <= b -> i64_saturating_add (Z.min i64_max a) b = Z.min i64_max (a + b).
Proof. intros Ha Hb. unfold i64_saturating_add, saturating, i64_min, i64_max. lia. Qed.

Lemma separate_independent txs b c : separate (confl_of txs) b c -> independent txs b c.
Proof.
  intros H' i j t u Hi Hj Ht Hu Hc. destruct (H' i j Hi Hj) as [Hne Hno].
  assert (confl_of txs i j = true); [|congruence]. apply detect_conflicts_spec; [done|]. by exists t, u.
Qed.

(** The builder's view of the transactions. *)
Lemma builder_txs_ok txs :
  exists bts, try_map (make_builder_tx (detect_conflicts txs)) (enumerate txs) = Ok bts /\
    forall i, (i < length txs)%nat -> exists tx, bts !! i = Some tx /\ id tx = i /\ good_tx (instr_of txs) (confl_of txs) tx.
Proof.
  set (f := fun x : nat * HashedTx => MkBuilderTx x.1 (envelope_instructions (envelope x.2))
              (default BitSet_default (detect_conflicts txs !! x.1))).
  exists (f <$> enumerate txs). split.
  - apply try_map_ok. intros [i t] Ht. apply elem_of_enumerate in Ht as Hi. apply lookup_lt_Some in Hi.
    rewrite <- length_detect_conflicts in Hi. apply lookup_lt_is_Some in Hi as [s Hs].
    unfold make_builder_tx, f. simpl. by rewrite Hs.
  - intros i Hi. apply lookup_lt_is_Some in Hi as [t Ht]. exists (f (i, t)).
    rewrite list_lookup_fmap, lookup_enumerate, Ht. split; [done|]. split; [done|]. split.
    + unfold instr_of, f. simpl. by rewrite Ht.
    + intros j. unfold confl_of, conflict_bit, f. simpl. by destruct (detect_conflicts txs !! i).
Qed.

(** The order of the greedy loop: no comparison panics. *)
Definition build_compare (a b : nat * HashedTx) : comparison :=
  match rate_compare (tx_fee_rate b.2) (tx_fee_rate a.2) with
  | Eq => hash_compare (tx_hash a.2) (tx_hash b.2)
  | o => o
  end.

Lemma build_sort_ok txs : Forall tx_ok txs ->
  try_sort_by build_order (enumerate txs) = Ok (sort_by build_compare (enumerate txs)).
Proof.
  intros Hok. apply try_sort_by_ok. intros [i t] [j u] Hi Hj.
  apply elem_of_enumerate in Hi, Hj. destruct (Forall_lookup_1 _ _ _ _ Hok Hi) as [_ Ht].
  destruct (Forall_lookup_1 _ _ _ _ Hok Hj) as [_ Hu].
  unfold build_order, build_compare, cmp_rate. simpl.
  destruct (Z.leb_spec 0 (tx_inclusion_fee (envelope u))); [|lia].
  destruct (Z.leb_spec 0 (tx_inclusion_fee (envelope t))); [|lia]. simpl. by destruct (rate_compare _ _).
Qed.

Lemma greedy_loop_ok txs bts c0 n : Forall tx_ok txs -> config_ok c0 ->
  (forall i, (i < length txs)%nat -> exists tx, bts !! i = Some tx /\ id tx = i /\ good_tx (instr_of txs) (confl_of txs) tx) ->
  exists stages fee idss, try_fold (build_step bts) (sort_by build_compare (enumerate txs)) (replicate n (Stage_new c0), 0)
      = Ok (stages, fee) /\
    Forall2 (stage_ok (instr_of txs) (confl_of txs)) idss stages /\ config <$> stages = replicate n c0 /\
    NoDup (concat idss) /\ (forall i, i ∈ concat idss -> (i < length txs)%nat) /\
    fee = Z.min i64_max (zsum (fee_of txs) (concat idss)).
Proof.
  intros Hok Hc0 Hbts. set (sorted := sort_by build_compare (enumerate txs)).
  assert (NoDup sorted.*1) as Hnd.
  { unfold sorted. rewrite sort_by_perm, fst_enumerate. apply NoDup_seq. }
  edestruct (try_fold_invariant (build_step bts) (fun before acc =>
    exists idss, Forall2 (stage_ok (instr_of txs) (confl_of txs)) idss acc.1 /\ config <$> acc.1 = replicate n c0 /\
      NoDup (concat idss) /\ (forall i, i ∈ concat idss -> i ∈ before.*1) /\
      acc.2 = Z.min i64_max (zsum (fee_of txs) (concat idss)))
    sorted (replicate n (Stage_new c0), 0)) as ([stages fee] & E & idss & Hs & Hcfg & Hndc & Hin & Hfee).
  - exists (replicate n []). split_and!; simpl.
    + apply Forall2_replicate. by apply stage_new_ok.
    + by rewrite fmap_replicate.
    + clear. induction n; [constructor|done].
    + clear. intros i Hi. induction n; [by apply elem_of_nil in Hi|auto].
    + clear. induction n; [done|]. done.
  - intros before [i t] after [stages fee] Hsorted (idss & Hs & Hcfg & Hndc & Hin & Hfee). simpl in Hs, Hcfg, Hfee.
    assert (txs !! i = Some t) as Hit.
    { apply elem_of_enumerate. rewrite <- (elem_of_sort_by build_compare). fold sorted. rewrite Hsorted.
      apply elem_of_app. right. left. }
    apply lookup_lt_Some in Hit as Hlt. destruct (Hbts i Hlt) as (tx & Htx & Hid & Hgood).
    assert (i ∉ concat idss) as Hnew.
    { intros Hi. apply Hin in Hi. rewrite Hsorted, fmap_app in Hnd. apply NoDup_app in Hnd as (_ & Hd & _).
      apply (Hd i Hi). left. }
    unfold build_step. simpl. rewrite Htx. simpl.
    destruct (add_to_stages_ok (instr_of txs) (confl_of txs)) with (tx := tx) (idss := idss) (stages := stages)
      as (r & stages' & idss' & -> & Hs' & Hcfg' & Hperm); [..|simpl].
    { intros j. by apply instr_of_nonneg. }
    { intros j k Hjk. by apply detect_conflicts_sym. }
    { done. } { done. } { by rewrite Hid. }
    eexists. split; [done|]. exists idss'. rewrite Hid in Hperm. simpl. split; [done|]. split; [by rewrite Hcfg'|].
    assert (0 <= zsum (fee_of txs) (concat idss)) as Hz by (apply zsum_nonneg; intros; by apply fee_of_nonneg).
    destruct r; rewrite Hperm.
    + split; [by constructor|]. split.
      * intros j. rewrite Hperm, fmap_app, elem_of_app. intros [-> | Hj]%elem_of_cons; [right; left|left; by apply Hin].
      * rewrite Hfee. simpl. unfold fee_of at 2. rewrite Hit. rewrite saturating_sum; [f_equal; lia|done|].
        pose proof (fee_of_nonneg txs i Hok) as Hf. unfold fee_of in Hf. by rewrite Hit in Hf.
    + split; [done|]. split; [|done]. intros j. rewrite Hperm, fmap_app, elem_of_app. intros Hj. left. by apply Hin.
  - exists stages, fee, idss. split; [done|]. split_and!; try done.
    intros i Hi. apply Hin in Hi. apply list_elem_of_fmap in Hi as ([j t] & -> & Hj).
    apply elem_of_sort_by, elem_of_enumerate, lookup_lt_Some in Hj. done.
Qed.

Lemma config_new_ok sc max mc : 0 <= max <= i64_max -> 0 <= mc -> 0 <= sc -> per_cluster max sc * mc <= u64_max ->
  exists c, ParallelPartitionConfig_new sc max mc = Ok c /\ config_ok c /\
    instructions_per_cluster c = per_cluster max sc /\ clusters_per_stage c = mc.
Proof.
  intros Hmax Hmc Hsc Hmul. unfold ParallelPartitionConfig_new. destruct (Z.leb_spec 0 max); [|lia]. simpl.
  eexists. split; [done|]. split; [|done]. fold (per_cluster max sc). split; [|done]. simpl.
  assert (0 <= per_cluster max sc <= max) as Hp.
  { unfold per_cluster. destruct (Z.ltb_spec 0 sc); [|lia]. split; [apply Z.div_pos; lia|].
    apply Z.div_le_upper_bound; [lia|]. nia. }
  unfold u64_max, i64_max in *. lia.
Qed.

(** The partition the stages of the loop describe. *)
Lemma result_stages_ok txs idss stages c0 n max mc sc : Forall tx_ok txs ->
  Forall2 (stage_ok (instr_of txs) (confl_of txs)) idss stages -> config <$> stages = replicate n c0 ->
  NoDup (concat idss) -> (forall i, i ∈ concat idss -> (i < length txs)%nat) ->
  Z.of_nat n <= sc -> instructions_per_cluster c0 = per_cluster max sc -> clusters_per_stage c0 = mc -> 0 <= mc ->
  concat (concat (result_stages stages)) ≡ₚ concat idss /\ partition_ok txs max mc sc (result_stages stages).
Proof.
  intros Hok Hs Hcfg Hnd Hin Hn Hper Hmc Hmc0.
  assert (forall s, s ∈ stages -> exists ids, stage_ok (instr_of txs) (confl_of txs) ids s /\ config s = c0) as Hall.
  { intros s Hsin. destruct (forall2_elem _ _ _ _ Hs Hsin) as (ids & _ & Hids). exists ids. split; [done|].
    assert (config s ∈ replicate n c0) as Hc by (rewrite <- Hcfg; apply list_elem_of_fmap; by exists s).
    by apply elem_of_replicate in Hc as [-> _]. }
  assert (forall i, 0 <= instr_of txs i) as Hpos by (intros; by apply instr_of_nonneg).
  assert (forall i j, i <> j -> confl_of txs i j = confl_of txs j i) as Hsym by (intros; by apply detect_conflicts_sym).
  assert (concat (concat (result_stages stages)) ≡ₚ concat idss) as Hperm.
  { unfold result_stages. rewrite concat_filter_nonempty. clear Hcfg Hnd Hin Hall.
    induction Hs as [|ids s idss stages Hst _ IH]; [done|]. csimpl. rewrite concat_app, IH. f_equiv.
    unfold stage_bins. rewrite concat_filter_nonempty.
    apply (stage_bins_facts (instr_of txs) (confl_of txs) ids s Hst). }
  split; [done|].
  assert (forall stage, stage ∈ result_stages stages -> stage <> [] /\ exists s, s ∈ stages /\ stage = stage_bins s) as Hst.
  { intros stage Hstage. unfold result_stages in Hstage. apply list_elem_of_filter in Hstage as [Hne Hstage].
    split; [done|]. apply list_elem_of_fmap in Hstage as (s & -> & Hsin). by exists s. }
  split.
  - by rewrite Hperm.
  - intros i. rewrite Hperm. apply Hin.
  - unfold result_stages, len. pose proof (length_filter (fun stage : list (list nat) => stage <> []) (stage_bins <$> stages)) as Hf.
    rewrite length_fmap in Hf. apply (f_equal length) in Hcfg. rewrite length_fmap, length_replicate in Hcfg. lia.
  - intros stage Hstage. destruct (Hst stage Hstage) as (Hne & s & Hsin & ->). split; [done|].
    destruct (Hall s Hsin) as (ids & Hids & Hcs).
    destruct (stage_bins_facts _ _ _ _ Hids) as (_ & _ & Hlen & _).
    pose proof (length_filter (fun bin : list nat => bin <> []) (iter_ones <$> bin_packing s)) as Hf.
    rewrite Hlen, Hcs in Hf. unfold n_bins in Hf. rewrite Hmc in Hf. unfold len, stage_bins. lia.
  - intros stage bin Hstage Hbin. destruct (Hst stage Hstage) as (Hne & s & Hsin & ->).
    apply list_elem_of_filter in Hbin as [Hbne Hbin]. split; [done|].
    destruct (Hall s Hsin) as (ids & Hids & Hcs). destruct (stage_bins_facts _ _ _ _ Hids) as (_ & _ & _ & Hb).
    rewrite <- Hper, <- Hcs. by apply Hb.
  - intros stage Hstage. destruct (Hst stage Hstage) as (Hne & s & Hsin & ->).
    destruct (Hall s Hsin) as (ids & Hids & Hcs). destruct (stage_bins_facts _ _ _ _ Hids) as (_ & Hsep & _ & _).
    apply StronglySorted_filter_list. eapply StronglySorted_weaken; [|exact Hsep]. apply separate_independent.
Qed.

Lemma build_with_stage_count_ok txs max mc sc : Forall tx_ok txs -> 0 <= max <= i64_max -> 0 <= mc -> 0 <= sc ->
  per_cluster max sc * mc <= u64_max ->
  exists stages fee, build_with_stage_count txs max mc sc = Ok (stages, fee) /\ partition_ok txs max mc sc stages /\
    fee = Z.min i64_max (zsum (fee_of txs) (concat (concat stages))).
Proof.
  intros Hok Hmax Hmc Hsc Hmul. unfold build_with_stage_count.
  destruct (builder_txs_ok txs) as (bts & -> & Hbts). simpl. rewrite build_sort_ok by done. simpl.
  destruct (config_new_ok sc max mc) as (c0 & Ec & Hc0 & Hper & Hcl); [done..|].
  rewrite (try_map_ok _ (fun _ => Stage_new c0)) by (intros; by rewrite Ec). simpl.
  assert ((fun _ => Stage_new c0) <$> seqZ 0 sc = replicate (Z.to_nat sc) (Stage_new c0)) as ->.
  { rewrite <- (length_seqZ 0 sc). generalize (seqZ 0 sc) as l. induction l as [|x l IH]; [done|]. csimpl. by rewrite IH. }
  destruct (greedy_loop_ok txs bts c0 (Z.to_nat sc)) as (stages & fee & idss & -> & Hs & Hcfg & Hnd & Hin & Hfee); [done..|].
  simpl. exists (result_stages stages), fee. split; [done|].
  destruct (result_stages_ok txs idss stages c0 (Z.to_nat sc) max mc sc) as [Hperm Hpart]; [done..|lia|done|done|lia|].
  split; [done|]. by rewrite Hfee, Hperm.
Qed.
End build.
