(* ===== verification/FeeThreshold.v ===== *)
(** * FeeThreshold: the fee a partition must reach

    [fee_threshold] multiplies the highest total fee by 0.999 in double precision.
    Rounding to 53 bits errs by one part in 2^52, so the threshold never exceeds the
    highest fee and is never below 998 thousandths of it, less the fraction cut off. *)

From Stdlib Require Import SpecFloat.
From S2P Require Import Prelude TxSetBuilder.

(** ** Shifts of a mantissa *)

Definition nonneg_record (r : shr_record) : Prop := 0 <= shr_m r.

Lemma shr_1_div r : nonneg_record r -> shr_m (shr_1 r) = shr_m r / 2 /\ nonneg_record (shr_1 r).
Proof.
  destruct r as [m a b]. unfold nonneg_record at 1. simpl. intros Hm.
  assert (shr_m (shr_1 {| shr_m := m; shr_r := a; shr_s := b |}) = m / 2) as E.
  { destruct m as [|[p|p|]|p]; simpl; try done; try lia.
    - rewrite Pos2Z.inj_xI. apply (Z.div_unique _ 2 _ 1); lia.
    - rewrite Pos2Z.inj_xO. apply (Z.div_unique _ 2 _ 0); lia. }
  split; [exact E|]. change (0 <= shr_m (shr_1 {| shr_m := m; shr_r := a; shr_s := b |})).
  rewrite E. apply Z.div_pos; lia.
Qed.

Lemma iter_shr_div p r : nonneg_record r ->
  shr_m (SpecFloat.iter_pos shr_1 p r) = shr_m r / 2 ^ Z.pos p /\ nonneg_record (SpecFloat.iter_pos shr_1 p r).
Proof.
  revert r. induction p as [p IH|p IH|]; intros r Hr; cbn [SpecFloat.iter_pos].
  - destruct (shr_1_div r Hr) as [E0 H0]. destruct (IH _ H0) as [E1 H1]. destruct (IH _ H1) as [E2 H2].
    split; [|done]. rewrite E2, E1, E0, !Z.div_div by lia. f_equal.
    rewrite (Pos2Z.inj_xI p), Z.pow_add_r, (Z.mul_comm 2 (Z.pos p)), Z.pow_mul_r by lia.
    rewrite Z.pow_2_r. lia.
  - destruct (IH _ Hr) as [E1 H1]. destruct (IH _ H1) as [E2 H2].
    split; [|done]. rewrite E2, E1, !Z.div_div by lia. f_equal.
    rewrite (Pos2Z.inj_xO p), (Z.mul_comm 2 (Z.pos p)), Z.pow_mul_r by lia. by rewrite Z.pow_2_r.
  - by apply shr_1_div.
Qed.

Lemma shr_div m l e n : 0 <= m -> 0 <= n ->
  shr_m (shr (shr_record_of_loc m l) e n).1 = m / 2 ^ n /\ (shr (shr_record_of_loc m l) e n).2 = e + n.
Proof.
  intros Hm Hn. assert (shr_m (shr_record_of_loc m l) = m) as E by by destruct l as [|[]].
  destruct n as [|p|p]; simpl; [|split|lia].
  - rewrite E. split; [by rewrite Z.div_1_r|lia].
  - destruct (iter_shr_div p (shr_record_of_loc m l)) as [-> _]; [unfold nonneg_record; by rewrite E|]. by rewrite E.
  - done.
Qed.

Lemma shr_none mrs e n : n <= 0 -> shr mrs e n = (mrs, e).
Proof. by destruct n. Qed.

(** ** Digits *)

Lemma digits2_bounds p : 2 ^ (Z.pos (digits2_pos p) - 1) <= Z.pos p < 2 ^ Z.pos (digits2_pos p).
Proof.
  induction p as [p IH|p IH|]; cbn [digits2_pos]; [| |done];
    rewrite Pos2Z.inj_succ; replace (Z.succ (Z.pos (digits2_pos p)) - 1) with (Z.succ (Z.pos (digits2_pos p) - 1)) by lia;
    rewrite !Z.pow_succ_r by lia; lia.
Qed.

Lemma digits2_unique p d : 0 < d -> 2 ^ (d - 1) <= Z.pos p < 2 ^ d -> Z.pos (digits2_pos p) = d.
Proof.
  intros Hd Hp. pose proof (digits2_bounds p) as Hb.
  destruct (Z.lt_trichotomy (Z.pos (digits2_pos p)) d) as [H|[H|H]]; [|done|]; exfalso.
  - assert (2 ^ Z.pos (digits2_pos p) <= 2 ^ (d - 1)) by (apply Z.pow_le_mono_r; lia). lia.
  - assert (2 ^ d <= 2 ^ (Z.pos (digits2_pos p) - 1)) by (apply Z.pow_le_mono_r; lia). lia.
Qed.

(** Away from the subnormal numbers 53 digits are kept. *)
Definition normal (m : positive) (e : Z) : Prop := -1021 <= Z.pos (digits2_pos m) + e.

Lemma fexp_normal m e : normal m e -> fexp 53 1024 (Z.pos (digits2_pos m) + e) - e = Z.pos (digits2_pos m) - 53.
Proof. intros Hn. unfold normal in Hn. unfold fexp, SpecFloat.emin. lia. Qed.

(** ** Rounding to 53 digits *)

(** The rounded significand, before it is normalised. *)
Lemma round_bounds m l : 0 <= m -> m <= round_nearest_even m l <= m + 1.
Proof.
  intros Hm. destruct l as [|[| |]]; simpl; try lia. destruct (Z.even m); lia.
Qed.

Definition rounds_to (m : positive) (e : Z) (r : spec_float) : Prop :=
  exists m' k, r = S754_finite false m' (e + k) /\ 0 <= k /\
    2 ^ 52 * (Z.pos m' * 2 ^ k - Z.pos m) <= Z.pos m /\ 2 ^ 52 * (Z.pos m - Z.pos m' * 2 ^ k) <= Z.pos m.

Lemma round_small m e : normal m e -> Z.pos (digits2_pos m) <= 53 -> e <= 971 ->
  binary_round_aux 53 1024 false (Z.pos m) e loc_Exact = S754_finite false m e.
Proof.
  intros Hn Hd He. unfold binary_round_aux, shr_fexp. cbn [Zdigits2]. rewrite (fexp_normal m e Hn).
  rewrite shr_none by lia. simpl. rewrite (fexp_normal m e Hn), shr_none by lia. simpl.
  destruct (Z.leb_spec e (1024 - 53)); [done|lia].
Qed.

Lemma pow_sum a b : 0 <= a -> 0 <= b -> 2 ^ (a + b) = 2 ^ a * 2 ^ b.
Proof. intros. by apply Z.pow_add_r. Qed.

Lemma shr_power e :
  shr (shr_record_of_loc 9007199254740992 loc_Exact) e 1 = (Build_shr_record 4503599627370496 false false, e + 1).
Proof. done. Qed.

Lemma round_aux_spec m e : normal m e -> Z.pos (digits2_pos m) + e <= 900 ->
  rounds_to m e (binary_round_aux 53 1024 false (Z.pos m) e loc_Exact).
Proof.
  intros Hn He. set (d := Z.pos (digits2_pos m)) in *. assert (0 < d) by (unfold d; lia).
  destruct (Z.le_gt_cases d 53) as [Hd|Hd].
  { rewrite round_small by (done || lia). exists m, 0. rewrite Z.add_0_r. split; [done|]. rewrite Z.pow_0_r. lia. }
  pose proof (digits2_bounds m) as Hb. fold d in Hb. set (n := d - 53).
  assert (2 ^ 52 * 2 ^ n <= Z.pos m < 2 ^ 53 * 2 ^ n) as Hm.
  { rewrite <- !pow_sum by (unfold n; lia). replace (52 + n) with (d - 1) by (unfold n; lia).
    by replace (53 + n) with d by (unfold n; lia). }
  assert (0 < 2 ^ n) as Hpn by (apply Z.pow_pos_nonneg; unfold n; lia).
  set (q := Z.pos m / 2 ^ n).
  assert (2 ^ 52 <= q < 2 ^ 53) as Hq.
  { split; [apply Z.div_le_lower_bound; lia|apply Z.div_lt_upper_bound; lia]. }
  assert (q * 2 ^ n <= Z.pos m < q * 2 ^ n + 2 ^ n) as Hfloor by by apply floor_spec.
  unfold binary_round_aux, shr_fexp. cbn [Zdigits2]. rewrite (fexp_normal m e Hn). fold d. fold n.
  destruct (shr_div (Z.pos m) loc_Exact e n) as [E1 E2]; [lia|unfold n; lia|].
  destruct (shr (shr_record_of_loc (Z.pos m) loc_Exact) e n) as [mrs e1]. simpl in E1, E2. subst e1.
  rewrite E1. fold q. pose proof (round_bounds q (loc_of_shr_record mrs)) as Hr.
  set (r := round_nearest_even q (loc_of_shr_record mrs)) in *.
  assert (q <= r <= q + 1) as Hr' by (apply Hr; lia). clear Hr.
  assert (0 < r) as Hr0 by lia. destruct r as [|rp|rp] eqn:Er; [lia| |lia].
  assert (forall m' k, Z.pos m' * 2 ^ k = Z.pos rp -> 0 <= k ->
    rounds_to m e (S754_finite false m' (e + n + k))) as Hfin.
  { intros m' k Hmk Hk. exists m', (n + k). split; [f_equal; lia|]. split; [unfold n; lia|].
    rewrite (Z.add_comm n k), pow_sum by (unfold n; lia). rewrite Z.mul_assoc, Hmk. nia. }
  destruct (Z.eq_dec (Z.pos rp) (2 ^ 53)) as [H53|H53].
  - assert (rp = 9007199254740992%positive) as -> by lia. clear H53 Hr' Hr0 Er r. cbn [Zdigits2].
    change (digits2_pos 9007199254740992) with 54%positive.
    assert (fexp 53 1024 (54 + (e + n)) - (e + n) = 1) as ->.
    { unfold fexp, SpecFloat.emin. unfold normal in Hn. fold d in Hn. unfold n. lia. }
    rewrite shr_power. cbn [shr_m]. destruct (Z.leb_spec (e + n + 1) (1024 - 53)); [|unfold n in *; lia].
    apply (Hfin _ 1); [done|lia].
  - assert (Z.pos (digits2_pos rp) = 53) as Hdr by (apply digits2_unique; lia).
    cbn [Zdigits2]. rewrite fexp_normal by (unfold normal in *; fold d in Hn; rewrite Hdr; unfold n; lia).
    rewrite Hdr, shr_none by lia. simpl. destruct (Z.leb_spec (e + n) (1024 - 53)); [|unfold n in *; lia].
    rewrite <- (Z.add_0_r (e + n)). apply (Hfin rp 0); [lia|lia].
Qed.

(** ** Integers as doubles *)

Lemma digits2_le m k : 0 <= k -> Z.pos m < 2 ^ k -> Z.pos (digits2_pos m) <= k.
Proof.
  intros Hk Hm. pose proof (digits2_bounds m) as Hb.
  destruct (Z.le_gt_cases (Z.pos (digits2_pos m)) k) as [|Hgt]; [done|exfalso].
  assert (2 ^ k <= 2 ^ (Z.pos (digits2_pos m) - 1)) by (apply Z.pow_le_mono_r; lia). lia.
Qed.

Lemma iter_xO_mul m k : Z.pos (Pos.iter xO m k) = Z.pos m * 2 ^ Z.pos k.
Proof.
  induction k as [|k IH] using Pos.peano_ind; simpl; [lia|].
  rewrite Pos.iter_succ, (Pos2Z.inj_xO (Pos.iter _ _ _)), IH, Pos2Z.inj_succ, Z.pow_succ_r by lia. lia.
Qed.

(** [x as f64] is within one part in 2^52 of [x]. *)
Lemma i64_to_f64_spec x : 0 < x <= i64_max ->
  exists m e, i64_to_f64 x = S754_finite false m e /\ -52 <= e /\
    2 ^ 52 * (Z.pos m * 2 ^ (e + 53) - x * 2 ^ 53) <= x * 2 ^ 53 /\
    2 ^ 52 * (x * 2 ^ 53 - Z.pos m * 2 ^ (e + 53)) <= x * 2 ^ 53.
Proof.
  unfold i64_max. intros [H0 Hx]. destruct x as [|p|p]; [lia| |lia].
  set (d := Z.pos (digits2_pos p)). pose proof (digits2_bounds p) as Hb. fold d in Hb.
  assert (1 <= d) as Hd1 by (unfold d; lia). assert (d <= 63) as Hd by (apply digits2_le; lia).
  unfold i64_to_f64, binary_normalize, binary_round. fold d.
  assert (fexp 53 1024 (d + 0) = d - 53) as -> by (unfold fexp, SpecFloat.emin; lia).
  unfold shl_align. rewrite Z.sub_0_r.
  destruct (d - 53) as [|k|k] eqn:Ek.
  1,2: destruct (round_aux_spec p 0) as (m & k' & -> & Hk & Hup & Hlow);
    [unfold normal; fold d; lia|fold d; lia|]; exists m, (0 + k'); split; [done|]; split; [lia|];
    replace (0 + k' + 53) with (k' + 53) by lia; rewrite pow_sum, Z.mul_assoc by lia;
    generalize dependent (Z.pos m * 2 ^ k'); intros; lia.
  assert (Z.pos (digits2_pos (Pos.iter xO p k)) = 53) as H53.
  { apply digits2_unique; [lia|]. rewrite iter_xO_mul. replace (Z.pos k) with (53 - d) by lia.
    replace (53 - 1) with (d - 1 + (53 - d)) by lia.
    replace (2 ^ 53) with (2 ^ d * 2 ^ (53 - d)) by (rewrite <- pow_sum by lia; f_equal; lia).
    rewrite pow_sum by lia. assert (0 < 2 ^ (53 - d)) by (apply Z.pow_pos_nonneg; lia). nia. }
  rewrite round_small; [|unfold normal; lia|lia|lia].
  eexists _, _. split; [done|]. split; [lia|]. rewrite iter_xO_mul, <- Z.mul_assoc, <- pow_sum by lia.
  replace (Z.pos k + (Z.neg k + 53)) with 53 by lia. lia.
Qed.

Lemma div_pow_scaled m k : 0 <= k -> m / 2 ^ k * 2 ^ k <= m < m / 2 ^ k * 2 ^ k + 2 ^ k.
Proof. intros Hk. apply floor_spec. by apply Z.pow_pos_nonneg. Qed.

(** Truncation, on a scale of [2 ^ 106] parts. *)
Lemma f64_to_i64_spec m e : -106 <= e -> Z.pos m * 2 ^ (e + 106) <= i64_max * 2 ^ 106 ->
  f64_to_i64 (S754_finite false m e) * 2 ^ 106 <= Z.pos m * 2 ^ (e + 106) /\
  Z.pos m * 2 ^ (e + 106) < (f64_to_i64 (S754_finite false m e) + 1) * 2 ^ 106 /\
  0 <= f64_to_i64 (S754_finite false m e).
Proof.
  intros He Hm. unfold f64_to_i64. set (g := if 0 <=? e then Z.pos m * 2 ^ e else Z.pos m / 2 ^ (- e)).
  assert (0 <= g /\ g * 2 ^ 106 <= Z.pos m * 2 ^ (e + 106) < (g + 1) * 2 ^ 106) as [Hg0 Hg].
  { unfold g. destruct (Z.leb_spec 0 e).
    - rewrite pow_sum by lia. split; [|nia]. apply Z.mul_nonneg_nonneg; [lia|by apply Z.pow_nonneg].
    - split; [apply Z.div_pos; [lia|apply Z.pow_pos_nonneg; lia]|].
      pose proof (div_pow_scaled (Z.pos m) (- e)) as Hdiv. set (q := Z.pos m / 2 ^ (- e)) in *.
      replace (2 ^ 106) with (2 ^ (- e) * 2 ^ (e + 106)) by (rewrite <- pow_sum by lia; f_equal; lia).
      assert (0 < 2 ^ (e + 106)) by (apply Z.pow_pos_nonneg; lia). nia. }
  assert (saturating i64_min i64_max g = g) as ->; [|lia].
  unfold saturating, i64_min, i64_max in *. lia.
Qed.

(** ** The threshold *)

Lemma fee_threshold_zero : fee_threshold 0 = 0.
Proof. vm_compute. done. Qed.

(** The threshold lies between 998 and 1000 thousandths of the highest fee. *)
Lemma fee_threshold_bounds x : 0 <= x <= i64_max ->
  0 <= fee_threshold x <= x /\ 998 * x < 1000 * (fee_threshold x + 1).
Proof.
  intros Hx. destruct (decide (x = 0)) as [->|Hne]; [rewrite fee_threshold_zero; lia|].
  unfold fee_threshold. destruct (i64_to_f64_spec x) as (m & e & -> & He & Hup & Hlow); [lia|].
  unfold SFmul, MAX_INCLUSION_FEE_TOLERANCE. simpl xorb.
  set (t := 8998192055486251%positive). assert (Z.pos t = 8998192055486251) as Ht by done.
  assert (0 < 2 ^ (e + 53)) as Hpe by (apply Z.pow_pos_nonneg; lia).
  assert (Z.pos m * 2 ^ (e + 53) <= 2 ^ 118) as Hme by (unfold i64_max in Hx; lia).
  assert (Z.pos m < 2 ^ 118 + 1) as Hm118 by nia.
  assert (2 ^ (e + 53) <= 2 ^ 118) as Hpe' by nia.
  assert (e + 53 <= 118) as He2 by (apply (Z.pow_le_mono_r_iff 2); lia).
  assert (Z.pos (digits2_pos (m * t)) <= 180) as Hd.
  { apply digits2_le; [lia|]. rewrite Pos2Z.inj_mul, Ht. lia. }
  destruct (round_aux_spec (m * t) (e + -53)) as (m' & k & -> & Hk & Hup' & Hlow'); [unfold normal; lia|lia|].
  rewrite Pos2Z.inj_mul, Ht in Hup', Hlow'.
  assert (2 ^ (e + -53 + k + 106) = 2 ^ k * 2 ^ (e + 53)) as Ep by (rewrite <- pow_sum by lia; f_equal; lia).
  set (P := Z.pos m * 2 ^ (e + 53)) in *.
  assert (2 ^ 52 * (Z.pos m' * 2 ^ k * 2 ^ (e + 53) - P * 8998192055486251) <= P * 8998192055486251) as H1.
  { unfold P. nia. }
  assert (2 ^ 52 * (P * 8998192055486251 - Z.pos m' * 2 ^ k * 2 ^ (e + 53)) <= P * 8998192055486251) as H2.
  { unfold P. nia. }
  rewrite <- Z.mul_assoc, <- Ep in H1, H2. clearbody P. clear Ep Hup' Hlow'.
  set (Q := Z.pos m' * 2 ^ (e + -53 + k + 106)) in *.
  destruct (f64_to_i64_spec m' (e + -53 + k)) as (Hf1 & Hf2 & Hf3); [lia| |].
  { fold Q. clearbody Q. unfold i64_max in *. lia. }
  fold Q in Hf1, Hf2. clearbody Q. unfold i64_max in Hx. lia.
Qed.
