(* ===== verification/TxSetCheck.v ===== *)
(** * TxSetCheck: what a node requires of a transaction set
      (herder/src/tx_queue/tx_set.rs, herder/src/tx_set_utils.rs)

    The checks a received set must pass: the structure and canonical order of its XDR
    form ([prepare_for_apply]) and the fees, types, resources and parallel schedule of
    its phases. The validation of single transactions against accounts is not part. *)

From S2P Require Import Prelude Bucket Ledger Lists Resource Envelope TxSetBuilder.

Section check.
Context `{EnvelopeXdr}.

(** ** Structure and order (tx_set.rs) *)

Inductive TxSetStructureError :=
| WrongPhaseCount (actual : nat)
| NonSorobanParallelPhase (phase_index : nat)
| EmptyComponent
| IncorrectComponentOrder
| NegativeBaseFee
| EmptyStage
| EmptyCluster
| ClusterOrderViolation
| StageOrderViolation.

(** The errors of [prepare_for_apply], which are strings in the source. *)
Inductive PrepareError :=
| Structure (e : TxSetStructureError)
| SorobanInTxV0
| MissingSorobanData
| MissingSorobanDataInFeeBump
| ResourceFeeOutOfRange (resource_fee : Z)
| ClassicInSorobanPhase
| SorobanInClassicPhase
| NotSorted
| DuplicateSourceAccount
| PreparePanic.

(** Leaving a check with an error unless a condition holds. *)
Definition ensure {E} (c : bool) (e : E) : result unit E := if c then Ok tt else Err e.

Definition hash_of {T} (key : T -> result TransactionEnvelope Panic) (item : T) : result (list Z) Panic :=
  let? env := key item in Ok (hash_xdr env).

(** The loop with the rolling previous hash. *)
Fixpoint nondecreasing_from {T} (key : T -> result TransactionEnvelope Panic) (prev : option (list Z)) (items : list T) :
    result bool Panic :=
  match items with
  | [] => Ok true
  | item :: rest =>
      let? hash := hash_of key item in
      if map_or false (fun p => match hash_compare hash p with Lt => true | _ => false end) prev then Ok false
      else nondecreasing_from key (Some hash) rest
  end.
Definition is_nondecreasing_by_xdr_hash {T} (key : T -> result TransactionEnvelope Panic) (items : list T) :=
  nondecreasing_from key None items.

Definition first_tx (cluster : list TransactionEnvelope) : result TransactionEnvelope Panic := expect (cluster !! 0%nat).
Definition first_tx_of_stage (stage : list (list TransactionEnvelope)) : result TransactionEnvelope Panic :=
  let? cluster := expect (stage !! 0%nat) in first_tx cluster.

Definition is_sorted_by_hash (txs : list TransactionEnvelope) : result bool Panic := is_nondecreasing_by_xdr_hash Ok txs.

(** A panic inside a check, and the outcome of a boolean one. *)
Definition or_panic {A} (r : result A Panic) : result A PrepareError := map_err (fun _ => PreparePanic) r.
Definition require (r : result bool Panic) (e : TxSetStructureError) : result unit PrepareError :=
  let? b := or_panic r in ensure b (Structure e).

Definition check_cluster_nonempty (_ : unit) (cluster : list TransactionEnvelope) : result unit PrepareError :=
  ensure (negb (bool_decide (cluster = []))) (Structure EmptyCluster).
Definition check_stage_nonempty (_ : unit) (stage : list (list TransactionEnvelope)) : result unit PrepareError :=
  let? _ := ensure (negb (bool_decide (stage = []))) (Structure EmptyStage) in
  try_fold check_cluster_nonempty stage tt.
Definition check_cluster_order (_ : unit) (stage : list (list TransactionEnvelope)) : result unit PrepareError :=
  require (is_nondecreasing_by_xdr_hash first_tx stage) ClusterOrderViolation.

Definition check_base_fee (fee : option Z) : result unit PrepareError :=
  ensure (negb (map_or false (fun fee => fee <? 0) fee)) (Structure NegativeBaseFee).

Definition validate_parallel_component (parallel : ParallelTxsComponent) : result unit PrepareError :=
  let? _ := check_base_fee (base_fee parallel) in
  let? _ := try_fold check_stage_nonempty (execution_stages parallel) tt in
  let? _ := try_fold check_cluster_order (execution_stages parallel) tt in
  require (is_nondecreasing_by_xdr_hash first_tx_of_stage (execution_stages parallel)) StageOrderViolation.

(** [components.windows(2).all(..)]. *)
Fixpoint components_sorted (components : list TxSetComponent) : bool :=
  match components with
  | a :: ((b :: _) as rest) =>
      match comp_base_fee a, comp_base_fee b with
      | None, Some _ => true
      | None, None => false
      | Some _, None => false
      | Some a, Some b => a <? b
      end && components_sorted rest
  | _ => true
  end.

Definition check_component (_ : unit) (comp : TxSetComponent) : result unit PrepareError :=
  let? _ := ensure (negb (bool_decide (comp_txs comp = []))) (Structure EmptyComponent) in
  check_base_fee (comp_base_fee comp).

Definition validate_sequential_phase_xdr_structure (components : list TxSetComponent) : result unit PrepareError :=
  let? _ := ensure (components_sorted components) (Structure IncorrectComponentOrder) in
  try_fold check_component components tt.

Definition check_phase_structure (_ : unit) (x : nat * TransactionPhase) : result unit PrepareError :=
  match x.2 with
  | PhaseV0 components => validate_sequential_phase_xdr_structure components
  | PhaseV1 parallel =>
      let? _ := ensure (x.1 =? 1)%nat (Structure (NonSorobanParallelPhase x.1)) in
      validate_parallel_component parallel
  end.

Definition validate_generalized_tx_set_xdr_structure (gen : GeneralizedTransactionSet) : result unit PrepareError :=
  let? _ := ensure (length (phases gen) =? 2)%nat (Structure (WrongPhaseCount (length (phases gen)))) in
  try_fold check_phase_structure (enumerate (phases gen)) tt.

(** [MAX_RESOURCE_FEE]. *)
Definition MAX_RESOURCE_FEE : Z := 2 ^ 50.

Definition check_resource_fee (x : TransactionExt) (missing : PrepareError) : result unit PrepareError :=
  match x with
  | TransactionExtV0 => Err missing
  | TransactionExtV1 data =>
      ensure (negb ((resource_fee data <? 0) || (MAX_RESOURCE_FEE <? resource_fee data)))
        (ResourceFeeOutOfRange (resource_fee data))
  end.

Definition validate_tx_fee (env : TransactionEnvelope) : result unit PrepareError :=
  if is_soroban_envelope env then
    match env with
    | TxV0 _ _ => Err SorobanInTxV0
    | Tx e _ => check_resource_fee (ext e) MissingSorobanData
    | TxFeeBump e _ => check_resource_fee (ext (inner_tx e)) MissingSorobanDataInFeeBump
    end
  else Ok tt.

Definition validate_wire_tx (expect_soroban : bool) (_ : unit) (env : TransactionEnvelope) : result unit PrepareError :=
  let? _ := validate_tx_fee env in
  if Bool.eqb (is_soroban_envelope env) expect_soroban then Ok tt
  else Err (if expect_soroban then ClassicInSorobanPhase else SorobanInClassicPhase).

Definition validate_wire_txs (expect_soroban : bool) (_ : unit) (txs : list TransactionEnvelope) : result unit PrepareError :=
  let? _ := try_fold (validate_wire_tx expect_soroban) txs tt in
  let? sorted := or_panic (is_sorted_by_hash txs) in
  ensure sorted NotSorted.

Definition validate_phase_txs (_ : unit) (x : nat * TransactionPhase) : result unit PrepareError :=
  let expect_soroban := (x.1 =? 1)%nat in
  match x.2 with
  | PhaseV0 components => try_fold (validate_wire_txs expect_soroban) (comp_txs <$> components) tt
  | PhaseV1 parallel =>
      try_fold (fun _ stage => try_fold (validate_wire_txs expect_soroban) stage tt) (execution_stages parallel) tt
  end.

(** [collect_phase_txs]; [extract_transactions_from_generalized] collects both phases. *)
Definition collect_phase_txs (phase : TransactionPhase) : list TransactionEnvelope :=
  match phase with
  | PhaseV0 components => concat (comp_txs <$> components)
  | PhaseV1 parallel => concat (concat (execution_stages parallel))
  end.
Definition extract_transactions_from_generalized (gen : GeneralizedTransactionSet) : list TransactionEnvelope :=
  concat (collect_phase_txs <$> phases gen).

(** [seen.insert(..)] answers whether the key is new. *)
Definition check_source (seen : gset Uint256) (env : TransactionEnvelope) : result (gset Uint256) PrepareError :=
  let source_key := source_account_ed25519 env in
  if bool_decide (source_key ∈ seen) then Err DuplicateSourceAccount else Ok ({[source_key]} ∪ seen).

Definition check_no_duplicate_source_accounts (txs : list TransactionEnvelope) : result unit PrepareError :=
  let? _ := try_fold check_source txs ∅ in Ok tt.

Definition prepare_generalized_for_apply (gen : GeneralizedTransactionSet) : result GeneralizedTransactionSet PrepareError :=
  let? _ := validate_generalized_tx_set_xdr_structure gen in
  let? _ := try_fold validate_phase_txs (enumerate (phases gen)) tt in
  let? _ := check_no_duplicate_source_accounts (extract_transactions_from_generalized gen) in
  Ok gen.

(** ** Contents (tx_set_utils.rs) *)

Inductive TxSetValidationResult :=
| Valid
| GeneralizedTxsetMismatch
| WrongNumberOfPhases
| ClassicPhaseParallelNotAllowed
| TooManyClassicTxs
| SorobanParallelSupportMismatch
| SorobanResourcesOverflow
| SorobanResourcesExceedLimit
| TooManySorobanClusters
| SorobanInstructionsOverflow
| SorobanInstructionsExceedLimit
| SorobanSequentialInstructionsOverflow
| SorobanConfigUnavailable
| InvalidPhaseTxType
| TxOrderingInvalid
| ComponentBaseFeeTooLow
| TxFeeBidTooLow
| TxValidationFailed
| PreviousLedgerHashMismatch
| MultipleTxsPerSourceAccount.

Definition get_min_inclusion_fee (env : TransactionEnvelope) (lcl_base_fee component_base_fee : Z) : InclusionFee :=
  let effective_base_fee := Z.max lcl_base_fee component_base_fee in
  let num_ops := Z.max 1 (envelope_operation_count env) in
  i64_saturating_mul effective_base_fee num_ops.

Definition validate_fee_component (fee : option Z) (txs : list TransactionEnvelope) (lcl_base_fee : Z) :
    TxSetValidationResult :=
  match fee with
  | None => Valid
  | Some fee =>
      if fee <? lcl_base_fee then ComponentBaseFeeTooLow
      else if existsb (fun tx => envelope_inclusion_fee tx <? get_min_inclusion_fee tx lcl_base_fee fee) txs
      then TxFeeBidTooLow
      else Valid
  end.

(** The first result of the components that is not [Valid]. *)
Fixpoint first_invalid {T} (f : T -> TxSetValidationResult) (l : list T) : TxSetValidationResult :=
  match l with
  | [] => Valid
  | x :: l => match f x with Valid => first_invalid f l | r => r end
  end.

Definition check_fee_map (phase : TransactionPhase) (lcl_base_fee : Z) : TxSetValidationResult :=
  match phase with
  | PhaseV0 components =>
      first_invalid (fun comp => validate_fee_component (comp_base_fee comp) (comp_txs comp) lcl_base_fee) components
  | PhaseV1 parallel =>
      validate_fee_component (base_fee parallel) (concat (concat (execution_stages parallel))) lcl_base_fee
  end.

(** [total_ops] is a [u64]: [+=] wraps. *)
Definition count_ops (total_ops : Z) (env : TransactionEnvelope) : result Z TxSetValidationResult :=
  if is_soroban_envelope env then Err InvalidPhaseTxType
  else Ok (as_u64 (total_ops + envelope_operation_count env)).

Definition check_valid_classic (phase : TransactionPhase) (max_tx_set_size : Z) : TxSetValidationResult :=
  match phase with
  | PhaseV1 _ => ClassicPhaseParallelNotAllowed
  | PhaseV0 components =>
      match try_fold count_ops (concat (comp_txs <$> components)) 0 with
      | Err e => e
      | Ok total_ops => if max_tx_set_size <? total_ops then TooManyClassicTxs else Valid
      end
  end.

(** The fields of [SorobanNetworkInfo] that are read. *)
Record SorobanNetworkInfo := MkSorobanInfo {
  ledger_max_instructions : Z;
  ledger_max_read_ledger_entries : Z;
  ledger_max_read_bytes : Z;
  ledger_max_write_ledger_entries : Z;
  ledger_max_write_bytes : Z;
  ledger_max_tx_size_bytes : Z;
  ledger_max_tx_count : Z;
  ledger_max_dependent_tx_clusters : Z
}.

(** An early return of a check, or a panic. *)
Inductive Stop := Return (r : TxSetValidationResult) | StopPanic.
Definition stop_panic {A} (r : result A Panic) : result A Stop := map_err (fun _ => StopPanic) r.
Definition reject_if (c : bool) (r : TxSetValidationResult) : result unit Stop := ensure (negb c) (Return r).

(** [unreachable!] for a size mismatch. *)
Definition accumulate_resources (total addition : Resource) : result Resource Stop :=
  map_err (fun e => match e with Overflow _ => Return SorobanResourcesOverflow | _ => StopPanic end)
    (resource_checked_add total addition).

Definition checked_add_cluster_instructions (current addition : Z) : result Z Stop :=
  let? _ := reject_if (i64_max - addition <? current) SorobanSequentialInstructionsOverflow in
  Ok (current + addition).

Definition checked_add_sequential_instructions (sequential stage_max : Z) : result Z Stop :=
  let? _ := reject_if (i64_max - stage_max <? sequential) SorobanInstructionsOverflow in
  Ok (sequential + stage_max).

(** The body of the aggregation loop. *)
Definition add_resources (protocol : Z) (total : Resource) (env : TransactionEnvelope) : result Resource Stop :=
  let? _ := reject_if (negb (is_soroban_envelope env)) InvalidPhaseTxType in
  let? res := stop_panic (resources_from_envelope env false protocol) in
  accumulate_resources total res.

Definition add_cluster_tx (cluster_instructions : Z) (env : TransactionEnvelope) : result Z Stop :=
  match envelope_soroban_resources env with
  | Some resources => checked_add_cluster_instructions cluster_instructions (instructions resources)
  | None => Ok cluster_instructions
  end.

Definition stage_max (acc : Z) (cluster : list TransactionEnvelope) : result Z Stop :=
  let? cluster_instructions := try_fold add_cluster_tx cluster 0 in Ok (Z.max acc cluster_instructions).

Definition add_stage (sequential : Z) (stage : list (list TransactionEnvelope)) : result Z Stop :=
  let? stage_max_instructions := try_fold stage_max stage 0 in
  checked_add_sequential_instructions sequential stage_max_instructions.

(** The keys of the clusters already visited, and of the current one. *)
Record footprint_keys := MkKeys {
  stage_read_only_keys : gset (list Z);
  stage_read_write_keys : gset (list Z);
  cluster_read_only_keys : list (list Z);
  cluster_read_write_keys : list (list Z)
}.

Definition visit_read_only (ks : footprint_keys) (key : LedgerKey) : result footprint_keys Stop :=
  let key_bytes := ledger_key_bytes key in
  let? _ := reject_if (bool_decide (key_bytes ∈ stage_read_write_keys ks)) TxOrderingInvalid in
  Ok (MkKeys (stage_read_only_keys ks) (stage_read_write_keys ks)
        (cluster_read_only_keys ks ++ [key_bytes]) (cluster_read_write_keys ks)).

Definition visit_read_write (ks : footprint_keys) (key : LedgerKey) : result footprint_keys Stop :=
  let key_bytes := ledger_key_bytes key in
  let? _ := reject_if (bool_decide (key_bytes ∈ stage_read_only_keys ks) || bool_decide (key_bytes ∈ stage_read_write_keys ks))
              TxOrderingInvalid in
  Ok (MkKeys (stage_read_only_keys ks) (stage_read_write_keys ks)
        (cluster_read_only_keys ks) (cluster_read_write_keys ks ++ [key_bytes])).

Definition visit_tx (ks : footprint_keys) (env : TransactionEnvelope) : result footprint_keys Stop :=
  match envelope_soroban_resources env with
  | None => Ok ks
  | Some resources =>
      let? ks := try_fold visit_read_only (read_only (footprint resources)) ks in
      try_fold visit_read_write (read_write (footprint resources)) ks
  end.

Definition visit_cluster (ks : footprint_keys) (cluster : list TransactionEnvelope) : result footprint_keys Stop :=
  let? ks := try_fold visit_tx cluster (MkKeys (stage_read_only_keys ks) (stage_read_write_keys ks) [] []) in
  Ok (MkKeys (stage_read_only_keys ks ∪ list_to_set (cluster_read_only_keys ks))
        (stage_read_write_keys ks ∪ list_to_set (cluster_read_write_keys ks)) [] []).

Definition check_stage_footprint_conflicts (_ : unit) (stage : list (list TransactionEnvelope)) : result unit Stop :=
  let? _ := try_fold visit_cluster stage (MkKeys ∅ ∅ [] []) in Ok tt.

Definition check_cluster_count (info : SorobanNetworkInfo) (_ : unit) (stage : list (list TransactionEnvelope)) : result unit Stop :=
  reject_if (ledger_max_dependent_tx_clusters info <? as_u32 (len stage)) TooManySorobanClusters.

(** The checks of a parallel phase only. *)
Definition check_parallel_limits (info : SorobanNetworkInfo) (parallel : ParallelTxsComponent) : result unit Stop :=
  let? _ := try_fold (check_cluster_count info) (execution_stages parallel) tt in
  let? sequential_instructions := try_fold add_stage (execution_stages parallel) 0 in
  let? _ := reject_if (ledger_max_instructions info <? sequential_instructions) SorobanInstructionsExceedLimit in
  try_fold check_stage_footprint_conflicts (execution_stages parallel) tt.

(** The limits on the totals of a phase. *)
Definition check_totals (info : SorobanNetworkInfo) (is_parallel : bool) (total : Resource) : result unit Stop :=
  let? total_instructions := stop_panic (get_val Instructions total) in
  let? total_read_entries := stop_panic (get_val ReadLedgerEntries total) in
  let? total_read_bytes := stop_panic (get_val DiskReadBytes total) in
  let? total_write_entries := stop_panic (get_val WriteLedgerEntries total) in
  let? total_write_bytes := stop_panic (get_val WriteBytes total) in
  let? total_tx_size_bytes := stop_panic (get_val TxByteSize total) in
  let? total_ops := stop_panic (get_val Operations total) in
  let? _ := reject_if (negb is_parallel && (ledger_max_instructions info <? total_instructions)) SorobanResourcesExceedLimit in
  let? _ := reject_if (ledger_max_read_ledger_entries info <? total_read_entries) SorobanResourcesExceedLimit in
  let? _ := reject_if (ledger_max_read_bytes info <? total_read_bytes) SorobanResourcesExceedLimit in
  let? _ := reject_if (ledger_max_write_ledger_entries info <? total_write_entries) SorobanResourcesExceedLimit in
  let? _ := reject_if (ledger_max_write_bytes info <? total_write_bytes) SorobanResourcesExceedLimit in
  let? _ := reject_if (ledger_max_tx_size_bytes info <? total_tx_size_bytes) SorobanResourcesExceedLimit in
  reject_if (ledger_max_tx_count info <? total_ops) SorobanResourcesExceedLimit.

Definition is_parallel_phase (phase : TransactionPhase) : bool :=
  match phase with PhaseV1 _ => true | PhaseV0 _ => false end.

Definition soroban_checks (phase : TransactionPhase) (protocol : Z) (info : SorobanNetworkInfo) : result unit Stop :=
  let need_parallel := protocol_version_starts_from protocol V23 in
  let is_parallel := is_parallel_phase phase in
  let? _ := reject_if (negb (Bool.eqb is_parallel need_parallel)) SorobanParallelSupportMismatch in
  let? empty := stop_panic make_empty_soroban in
  let? total := try_fold (add_resources protocol) (collect_phase_txs phase) empty in
  let? _ := check_totals info is_parallel total in
  match phase with
  | PhaseV0 _ => Ok tt
  | PhaseV1 parallel => check_parallel_limits info parallel
  end.

Definition check_valid_soroban (phase : TransactionPhase) (protocol : Z) (info : SorobanNetworkInfo) :
    result TxSetValidationResult Panic :=
  match soroban_checks phase protocol info with
  | Ok _ => Ok Valid
  | Err (Return r) => Ok r
  | Err StopPanic => Err Panicking
  end.
End check.
