(* ===== verification/TxSetPhase.v ===== *)
(** * TxSetPhase: the chosen partition as clusters of transactions

    [build_parallel_soroban_phase] tries several numbers of stages and keeps the
    partition with the fewest stages among those that reach the fee threshold. It never
    panics; its clusters hold transactions of the input, each at most once, and keep the
    limits of the ledger. *)

From S2P Require Import Prelude Bucket Ledger Lists BitSet Resource Envelope TxSetBuilder TxSetConflicts TxSetStage TxSetAdd TxSetBuild FeeThreshold.

(** ** The best result *)

Lemma max_of_spec l : match max_of l with Some m => m ∈ l /\ (forall x, x ∈ l -> x <= m) | None => l = [] end.
Proof.
  induction l as [|x l IH]; simpl; [done|]. destruct (max_of l) as [m|].
  - destruct IH as [Hm Hmax]. split.
    + destruct (Z.max_spec x m) as [[_ ->]|[_ ->]]; [by right|left].
    + intros y [-> | Hy]%elem_of_cons; [lia|]. specialize (Hmax y Hy). lia.
  - subst l. split; [left|]. intros y ->%list_elem_of_singleton. lia.
Qed.

Definition qualifies (threshold : Z) (r : list (list (list nat)) * Z) : Prop := threshold <= r.2.

Lemma choose_best_spec threshold results :
  match foldl (choose_best threshold) None results with
  | Some b => (exists fee, (b, fee) ∈ results /\ threshold <= fee) /\
      (forall r, r ∈ results -> qualifies threshold r -> (length b <= length r.1)%nat)
  | None => forall r, r ∈ results -> ~ qualifies threshold r
  end.
Proof.
  unfold qualifies. induction results as [|r rs IH] using rev_ind; [intros r Hr; by apply elem_of_nil in Hr|].
  rewrite foldl_snoc. simpl. unfold choose_best at 1. destruct (Z.leb_spec threshold r.2) as [Hle|Hgt].
  - destruct (foldl (choose_best threshold) None rs) as [b|].
    + destruct IH as [(fee & Hin & Hfee) Hmin]. destruct (Nat.ltb_spec (length r.1) (length b)) as [Hlt|Hge].
      * split; [exists r.2; rewrite elem_of_app, list_elem_of_singleton; destruct r; auto|].
        intros r' [Hr'| ->%list_elem_of_singleton]%elem_of_app Hq; [|done]. specialize (Hmin r' Hr' Hq). lia.
      * split; [exists fee; rewrite elem_of_app; auto|].
        intros r' [Hr'| ->%list_elem_of_singleton]%elem_of_app Hq; [by apply Hmin|done].
    + split; [exists r.2; rewrite elem_of_app, list_elem_of_singleton; destruct r; auto|].
      intros r' [Hr'| ->%list_elem_of_singleton]%elem_of_app Hq; [by destruct (IH r' Hr')|done].
  - destruct (foldl (choose_best threshold) None rs) as [b|].
    + destruct IH as [(fee & Hin & Hfee) Hmin]. split; [exists fee; rewrite elem_of_app; auto|].
      intros r' [Hr'| ->%list_elem_of_singleton]%elem_of_app Hq; [by apply Hmin|lia].
    + intros r' [Hr'| ->%list_elem_of_singleton]%elem_of_app Hq; [by apply (IH r')|lia].
Qed.

(** ** Taking the transactions *)

Section take.
Context `{EnvelopeXdr} `{HashIteration}.

(** The slots still hold the transactions of [ids]. *)
Definition holds (txs : list HashedTx) (ids : list nat) (slots : list (option HashedTx)) : Prop :=
  forall i, i ∈ ids -> exists t, txs !! i = Some t /\ slots !! i = Some (Some t).

Definition same_outside (ids : list nat) (slots slots' : list (option HashedTx)) : Prop :=
  forall i, i ∉ ids -> slots' !! i = slots !! i.

Lemma holds_outside txs ids ids' slots slots' : holds txs ids slots -> same_outside ids' slots slots' ->
  (forall i, i ∈ ids -> i ∉ ids') -> holds txs ids slots'.
Proof. intros Hh Hs Hd i Hi. destruct (Hh i Hi) as (t & Ht & Hsl). exists t. split; [done|]. by rewrite Hs by auto. Qed.

Lemma same_outside_trans a b s1 s2 s3 : same_outside a s1 s2 -> same_outside b s2 s3 -> same_outside (a ++ b) s1 s3.
Proof. intros Ha Hb i Hi. rewrite elem_of_app in Hi. rewrite Hb, Ha; tauto. Qed.

Definition tx_at (txs : list HashedTx) (i : nat) (t : HashedTx) : Prop := txs !! i = Some t.

Lemma take_slots_ok txs ids : forall slots acc, NoDup ids -> holds txs ids slots ->
  exists c slots', try_fold take_slot ids (acc, slots) = Ok (acc ++ c, slots') /\
    Forall2 (tx_at txs) ids c /\ same_outside ids slots slots'.
Proof.
  induction ids as [|i ids IH]; intros slots acc Hnd Hh.
  { exists [], slots. rewrite app_nil_r. split; [done|]. split; [constructor|done]. }
  apply NoDup_cons in Hnd as [Hi Hnd]. destruct (Hh i) as (t & Ht & Hsl); [left|].
  cbn [try_fold]. unfold take_slot at 1. simpl. rewrite Hsl. simpl.
  destruct (IH (<[i := None]> slots) (acc ++ [t])) as (c & slots' & -> & Hc & Hout); [done| |].
  - apply (holds_outside txs ids [i] slots); [intros j Hj; apply Hh; by right| |].
    + intros j Hj. apply list_lookup_insert_ne. intros <-. apply Hj. left.
    + intros j Hj ->%list_elem_of_singleton. done.
  - exists (t :: c), slots'. split; [by rewrite <- app_assoc|]. split; [by constructor|].
    intros j Hj. rewrite not_elem_of_cons in Hj. destruct Hj as [Hji Hj].
    rewrite Hout by done. by apply list_lookup_insert_ne.
Qed.

Lemma take_clusters_ok txs bins : forall slots acc, NoDup (concat bins) -> holds txs (concat bins) slots ->
  exists cs slots', try_fold take_cluster bins (acc, slots) = Ok (acc ++ cs, slots') /\
    Forall2 (Forall2 (tx_at txs)) bins cs /\ same_outside (concat bins) slots slots'.
Proof.
  induction bins as [|b bins IH]; intros slots acc Hnd Hh.
  { exists [], slots. rewrite app_nil_r. split; [done|]. split; [constructor|done]. }
  simpl in Hnd, Hh. apply NoDup_app in Hnd as (Hb & Hd & Hnd).
  cbn [try_fold]. unfold take_cluster at 1. simpl.
  destruct (take_slots_ok txs b slots []) as (c & s1 & -> & Hc & Hout1); [done| |].
  { intros i Hi. apply Hh. apply elem_of_app. by left. }
  simpl. destruct (IH s1 (acc ++ [c])) as (cs & s2 & -> & Hcs & Hout2); [done| |].
  { apply (holds_outside txs _ b slots); [intros i Hi; apply Hh, elem_of_app; by right|done|].
    intros i Hi Hib. by apply (Hd i Hib). }
  exists (c :: cs), s2. split; [by rewrite <- app_assoc|]. split; [by constructor|]. simpl.
  by apply (same_outside_trans b (concat bins) slots s1 s2).
Qed.

Lemma take_stages_ok txs stages : forall slots acc, NoDup (concat (concat stages)) ->
  holds txs (concat (concat stages)) slots ->
  exists ss slots', try_fold take_stage stages (acc, slots) = Ok (acc ++ ss, slots') /\
    Forall2 (Forall2 (Forall2 (tx_at txs))) stages ss.
Proof.
  induction stages as [|st stages IH]; intros slots acc Hnd Hh.
  { exists [], slots. rewrite app_nil_r. split; [done|constructor]. }
  simpl in Hnd, Hh. rewrite concat_app in Hnd, Hh. apply NoDup_app in Hnd as (Hb & Hd & Hnd).
  cbn [try_fold]. unfold take_stage at 1. simpl.
  destruct (take_clusters_ok txs st slots []) as (c & s1 & -> & Hc & Hout1); [done| |].
  { intros i Hi. apply Hh. apply elem_of_app. by left. }
  simpl. destruct (IH s1 (acc ++ [c])) as (cs & s2 & -> & Hcs); [done| |].
  { apply (holds_outside txs _ (concat st) slots); [intros i Hi; apply Hh, elem_of_app; by right|done|].
    intros i Hi Hib. by apply (Hd i Hib). }
  exists (c :: cs), s2. split; [by rewrite <- app_assoc|by constructor].
Qed.

(** ** Schedules of transactions *)

Definition cluster_cost (c : list HashedTx) : Z := zsum (fun t => envelope_instructions (envelope t)) c.

Definition clusters_independent (c d : list HashedTx) : Prop := forall t u, t ∈ c -> u ∈ d -> ~ txs_conflict t u.

(** A schedule keeps the limits of the ledger: [cost] bounds the instructions of the
    threads of a stage. *)
Record schedule_ok (max_instructions max_clusters : Z) (stages : list (list (list HashedTx))) : Prop := {
  schedule_stages : forall stage, stage ∈ stages -> stage <> [] /\ len stage <= max_clusters;
  schedule_clusters : forall stage cluster, stage ∈ stages -> cluster ∈ stage -> cluster <> [];
  schedule_cost : exists cost, 0 <= cost /\ cost * len stages <= max_instructions /\
    forall stage cluster, stage ∈ stages -> cluster ∈ stage -> cluster_cost cluster <= cost;
  schedule_independent : forall stage, stage ∈ stages -> StronglySorted clusters_independent stage
}.

Lemma clusters_independent_sym c d : clusters_independent c d -> clusters_independent d c.
Proof. intros Hi t u Ht Hu Hc. apply (Hi u t Hu Ht). by apply txs_conflict_sym. Qed.

Lemma forall2_tx_at_cost txs bin c : Forall2 (tx_at txs) bin c -> zsum (instr_of txs) bin = cluster_cost c.
Proof.
  induction 1 as [|i t bin c Ht _ IH]; [done|]. unfold cluster_cost in *. simpl. rewrite IH. f_equal.
  unfold instr_of. by rewrite Ht.
Qed.

Lemma forall2_independent txs b c cb cc : Forall2 (tx_at txs) b cb -> Forall2 (tx_at txs) c cc ->
  independent txs b c -> clusters_independent cb cc.
Proof.
  intros Hb Hc Hi t u Ht Hu. apply list_elem_of_lookup in Ht as [p Hp]. apply list_elem_of_lookup in Hu as [q Hq].
  destruct (Forall2_lookup_r _ _ _ _ _ Hb Hp) as (i & Hip & Hit).
  destruct (Forall2_lookup_r _ _ _ _ _ Hc Hq) as (j & Hjq & Hju).
  apply (Hi i j); [by apply list_elem_of_lookup_2 in Hip|by apply list_elem_of_lookup_2 in Hjq|done|done].
Qed.

Lemma forall2_sorted_independent txs stage cs : Forall2 (Forall2 (tx_at txs)) stage cs ->
  StronglySorted (independent txs) stage -> StronglySorted clusters_independent cs.
Proof.
  intros Hf Hs. revert cs Hf. induction Hs as [|b stage Hs IH Hb]; intros cs Hf.
  { apply Forall2_nil_inv_l in Hf as ->. constructor. }
  apply Forall2_cons_inv_l in Hf as (c & cs' & Hc & Hf & ->). constructor; [by apply IH|].
  apply Forall_forall. intros d [q Hd]%list_elem_of_lookup.
  destruct (Forall2_lookup_r _ _ _ _ _ Hf Hd) as (b' & Hb' & Hbd).
  apply (forall2_independent txs b b'); [done|done|]. rewrite Forall_forall in Hb. apply Hb.
  by apply list_elem_of_lookup_2 in Hb'.
Qed.

Lemma forall2_nonempty {A B} (R : A -> B -> Prop) l k : Forall2 R l k -> l <> [] -> k <> [].
Proof. intros [] Hne; congruence. Qed.

(** Partitions of indices become schedules of transactions. *)
Lemma partition_schedule txs max mc sc stages ss : partition_ok txs max mc sc stages -> 0 <= max -> 0 <= sc ->
  Forall2 (Forall2 (Forall2 (tx_at txs))) stages ss -> schedule_ok max mc ss.
Proof.
  intros Hp Hmax Hsc Hf. split.
  - intros stage Hst. destruct (forall2_elem _ _ _ _ Hf Hst) as (st & Hin & Hrel).
    destruct (clusters_bound _ _ _ _ _ Hp st Hin) as [Hne Hle]. split; [by apply (forall2_nonempty _ _ _ Hrel)|].
    by rewrite <- (forall2_len _ _ _ Hrel).
  - intros stage cluster Hst Hcl. destruct (forall2_elem _ _ _ _ Hf Hst) as (st & Hin & Hrel).
    destruct (forall2_elem _ _ _ _ Hrel Hcl) as (b & Hb & Hrelb).
    apply (forall2_nonempty _ _ _ Hrelb). by apply (bins_bound _ _ _ _ _ Hp st b).
  - pose proof (stages_bound _ _ _ _ _ Hp) as Hlen. rewrite (forall2_len _ _ _ Hf) in Hlen.
    exists (per_cluster max sc). unfold per_cluster in *. pose proof (len_nonneg ss).
    destruct (Z.ltb_spec 0 sc) as [Hpos|Hz].
    + assert (0 <= max / sc) by (apply Z.div_pos; lia). pose proof (floor_spec max sc Hpos). split; [done|].
      split; [nia|]. intros stage cluster Hst Hcl. destruct (forall2_elem _ _ _ _ Hf Hst) as (st & Hin & Hrel).
      destruct (forall2_elem _ _ _ _ Hrel Hcl) as (b & Hb & Hrelb). rewrite <- (forall2_tx_at_cost _ _ _ Hrelb).
      destruct (bins_bound _ _ _ _ _ Hp st b Hin Hb) as [_ Hle]. unfold per_cluster in Hle.
      destruct (Z.ltb_spec 0 sc); [done|lia].
    + destruct ss as [|s ss]; [|rewrite len_cons in Hlen; pose proof (len_nonneg ss); lia].
      split; [done|]. split; [unfold len; simpl; lia|]. intros stage cluster Hst. by apply elem_of_nil in Hst.
  - intros stage Hst. destruct (forall2_elem _ _ _ _ Hf Hst) as (st & Hin & Hrel).
    apply (forall2_sorted_independent txs st); [done|]. by apply (bins_separate _ _ _ _ _ Hp).
Qed.

Lemma tx_at_submseteq txs ids ts : NoDup ids -> Forall2 (tx_at txs) ids ts -> ts ⊆+ txs.
Proof.
  intros Hnd Hf.
  assert (ts = omap (M:=list) (fun i => txs !! i) ids) as ->.
  { clear Hnd. induction Hf as [|i t ids ts Ht _ IH]; [done|]. cbn [omap list_omap]. by rewrite Ht, <- IH. }
  clear Hf. assert (forall (txs' : list HashedTx) off ids', NoDup ids' -> (forall i, i ∈ ids' -> (off <= i)%nat) ->
    omap (M:=list) (fun i => txs' !! (i - off)%nat) ids' ⊆+ txs') as Hgen.
  { clear. induction txs' as [|t txs' IH]; intros off ids Hnd Hoff.
    - assert (omap (M:=list) (fun i => ([] : list HashedTx) !! (i - off)%nat) ids = []) as ->; [|done].
      clear. induction ids as [|i ids IH]; [done|]. cbn [omap list_omap]. by rewrite lookup_nil.
    - assert (forall ids, (forall i, i ∈ ids -> (S off <= i)%nat) ->
        omap (M:=list) (fun i => (t :: txs') !! (i - off)%nat) ids = omap (M:=list) (fun i => txs' !! (i - S off)%nat) ids) as Hshift.
      { clear. induction ids as [|i ids IH]; intros Hle; [done|]. cbn [omap list_omap].
        rewrite IH by (intros j Hj; apply Hle; by right).
        replace (i - off)%nat with (S (i - S off))%nat by (specialize (Hle i ltac:(left)); lia). done. }
      destruct (decide (off ∈ ids)) as [Hin|Hnot].
      + apply elem_of_Permutation in Hin as (ids' & Hids). rewrite Hids in Hnd. rewrite Hids.
        cbn [omap list_omap]. rewrite Nat.sub_diag. cbn [lookup list_lookup].
        apply NoDup_cons in Hnd as [Hoffn Hnd].
        assert (forall i, i ∈ ids' -> (S off <= i)%nat) as Hle.
        { intros i Hi. assert (off <= i)%nat by (apply Hoff; rewrite Hids; by right).
          assert (i <> off) by (intros ->; done). lia. }
        rewrite Hshift by done. apply submseteq_skip. by apply IH.
      + assert (forall i, i ∈ ids -> (S off <= i)%nat) as Hle.
        { intros i Hi. specialize (Hoff i Hi). assert (i <> off) by (intros ->; done). lia. }
        rewrite Hshift by done. apply submseteq_cons. by apply IH. }
  specialize (Hgen txs 0%nat ids Hnd). erewrite (list_omap_ext _ (fun i => txs !! (i - 0)%nat)); [apply Hgen; lia|].
  apply Forall_Forall2_diag, Forall_true. intros i. by rewrite Nat.sub_0_r.
Qed.
End take.

(** ** The chosen partition *)

Section choice.
Context `{EnvelopeXdr} `{HashIteration}.

Lemma per_cluster_le max sc : 0 <= max -> 0 <= sc -> 0 <= per_cluster max sc <= max.
Proof.
  intros Hmax Hsc. unfold per_cluster. destruct (Z.ltb_spec 0 sc); [|lia].
  split; [apply Z.div_pos; lia|]. apply Z.div_le_upper_bound; [lia|nia].
Qed.

(** The builds for all numbers of stages, and their fees. *)
Lemma all_builds_ok txs max mc mn mx : Forall tx_ok txs -> 0 <= max <= i64_max -> 0 <= mc -> 0 <= mn -> max * mc <= u64_max ->
  exists results, try_map (build_with_stage_count txs max mc) (seqZ mn (mx + 1 - mn)) = Ok results /\
    (forall r, r ∈ results -> exists sc, mn <= sc <= mx /\ build_with_stage_count txs max mc sc = Ok r) /\
    (forall sc, mn <= sc <= mx -> exists r, r ∈ results /\ build_with_stage_count txs max mc sc = Ok r) /\
    (forall r, r ∈ results -> exists sc, 0 <= sc /\ partition_ok txs max mc sc r.1 /\
       r.2 = Z.min i64_max (zsum (fee_of txs) (concat (concat r.1)))).
Proof.
  intros Hok Hmax Hmc Hmn Hmul.
  assert (forall sc, mn <= sc -> exists r, build_with_stage_count txs max mc sc = Ok r /\ partition_ok txs max mc sc r.1 /\
    r.2 = Z.min i64_max (zsum (fee_of txs) (concat (concat r.1)))) as Hone.
  { intros sc Hsc. destruct (per_cluster_le max sc) as [Hp0 Hp1]; [lia..|].
    destruct (build_with_stage_count_ok txs max mc sc) as (st & fee & E & Hp & Hf); [done|done|done|lia|nia|].
    by exists (st, fee). }
  assert (exists results, Forall2 (fun sc r => build_with_stage_count txs max mc sc = Ok r) (seqZ mn (mx + 1 - mn)) results)
    as (results & Hf).
  { assert (Forall (fun sc => mn <= sc) (seqZ mn (mx + 1 - mn))) as Hall.
    { apply Forall_forall. intros sc Hsc%elem_of_seqZ. lia. }
    induction Hall as [|sc l Hsc _ (rs & IH)]; [by exists []|].
    destruct (Hone sc Hsc) as (r & E & _). exists (r :: rs). by constructor. }
  exists results. split; [by apply try_map_forall2|].
  assert (forall r, r ∈ results -> exists sc, mn <= sc <= mx /\ build_with_stage_count txs max mc sc = Ok r) as Hback.
  { intros r Hr. destruct (forall2_elem _ _ _ _ Hf Hr) as (sc & Hsc%elem_of_seqZ & E). exists sc. split; [lia|done]. }
  split; [done|]. split.
  - intros sc Hsc. assert (sc ∈ seqZ mn (mx + 1 - mn)) as Hin by (apply elem_of_seqZ; lia).
    apply list_elem_of_lookup in Hin as [p Hp]. destruct (Forall2_lookup_l _ _ _ _ _ Hf Hp) as (r & Hr & E).
    exists r. split; [by apply list_elem_of_lookup_2 in Hr|done].
  - intros r Hr. destruct (Hback r Hr) as (sc & Hsc & E). exists sc. split; [lia|].
    destruct (Hone sc) as (r' & E' & Hp & Hfee); [lia|]. rewrite E in E'. by injection E' as <-.
Qed.

(** The outcome of the builder: the partition it chose and its transactions. *)
Lemma build_parallel_ok txs max mc mn mx : Forall tx_ok txs -> txs <> [] -> 0 <= max <= i64_max -> 0 < mc -> 0 <= mn <= mx ->
  max * mc <= u64_max ->
  exists sc ids fee stages dropped, build_parallel_soroban_phase txs max mc mn mx = Ok (stages, dropped) /\
    mn <= sc <= mx /\ build_with_stage_count txs max mc sc = Ok (ids, fee) /\
    Forall2 (Forall2 (Forall2 (tx_at txs))) ids stages /\ schedule_ok max mc stages /\
    concat (concat stages) ⊆+ txs /\ (dropped = false <-> concat (concat stages) ≡ₚ txs) /\
    (forall sc' ids' fee', mn <= sc' <= mx -> build_with_stage_count txs max mc sc' = Ok (ids', fee') ->
       998 * fee' < 1000 * (fee + 1) /\ ((length ids' < length ids)%nat -> fee' < fee)).
Proof.
  intros Hok Hne Hmax Hmc Hmn Hmul. unfold build_parallel_soroban_phase. rewrite bool_decide_false by done.
  destruct (Z.eqb_spec mc 0); [lia|].
  destruct (all_builds_ok txs max mc mn mx) as (results & -> & Hback & Hto & Hpart); [done|done|lia|lia|done|].
  simpl. pose proof (max_of_spec results.*2) as Hmo.
  destruct (Hto mn) as (r0 & Hr0 & _); [lia|].
  destruct (max_of results.*2) as [m|]; [|by destruct results; [apply elem_of_nil in Hr0|]].
  destruct Hmo as [Hm Hmaxm]. simpl.
  assert (0 <= m <= i64_max) as Hmr.
  { apply list_elem_of_fmap in Hm as (r & -> & Hr). destruct (Hpart r Hr) as (sc & _ & _ & ->).
    assert (0 <= zsum (fee_of txs) (concat (concat r.1))) by (apply zsum_nonneg; intros; by apply fee_of_nonneg).
    unfold i64_max. lia. }
  destruct (fee_threshold_bounds m Hmr) as [Hth Hth2].
  pose proof (choose_best_spec (fee_threshold m) results) as Hbest.
  destruct (foldl (choose_best (fee_threshold m)) None results) as [ids|].
  2:{ exfalso. apply list_elem_of_fmap in Hm as (r & -> & Hr). apply (Hbest r Hr). unfold qualifies. lia. }
  destruct Hbest as [(fee & Hin & Hfee) Hmin]. simpl.
  destruct (Hpart _ Hin) as (sc1 & Hsc1 & Hp & _). simpl in Hp.
  destruct (Hback _ Hin) as (sc & Hsc & E).
  destruct (take_stages_ok txs ids (Some <$> txs) []) as (stages & slots & -> & Hst).
  { apply (ids_once _ _ _ _ _ Hp). }
  { intros i Hi. apply (ids_known _ _ _ _ _ Hp) in Hi. apply lookup_lt_is_Some in Hi as [t Ht]. exists t.
    split; [done|]. by rewrite list_lookup_fmap, Ht. }
  exists sc, ids, fee, stages, (surviving_count ids <? len txs). split; [done|]. split; [done|]. split; [done|].
  split; [done|]. split; [apply (partition_schedule txs max mc sc1 ids); [done|lia|lia|done]|].
  assert (Forall2 (tx_at txs) (concat (concat ids)) (concat (concat stages))) as Hflat by by apply forall2_concat, forall2_concat.
  assert (concat (concat stages) ⊆+ txs) as Hsub.
  { apply (tx_at_submseteq txs (concat (concat ids))); [|done]. apply (ids_once _ _ _ _ _ Hp). }
  split; [done|]. split.
  - unfold surviving_count. rewrite (forall2_len _ _ _ Hflat). rewrite Z.ltb_ge. split.
    + intros Hle. apply submseteq_length_Permutation; [done|]. unfold len in Hle. lia.
    + intros Hperm. by rewrite (len_perm _ _ Hperm).
  - intros sc' ids' fee' Hsc' E'. destruct (Hto sc' Hsc') as (r & Hr & E2). rewrite E' in E2. injection E2 as <-.
    assert (fee' <= m) as Hle by (apply Hmaxm, list_elem_of_fmap; by exists (ids', fee')).
    split; [lia|]. intros Hlt. destruct (Z.le_gt_cases (fee_threshold m) fee') as [Hq|Hq]; [|lia].
    specialize (Hmin _ Hr Hq). simpl in Hmin. lia.
Qed.
End choice.
