(* ===== verification/TxSetXdr.v ===== *)
(** * TxSetXdr: the canonical form of a schedule

    [stages_to_xdr_phase] sorts the transactions of a cluster, the clusters of a stage
    and the stages by hash. Its result does not depend on the order of its input, keeps
    the limits of the schedule, and passes the structural check of a received set. *)

From S2P Require Import Prelude Bucket Ledger Lists BitSet Resource Envelope TxSetBuilder TxSetConflicts TxSetStage TxSetBuild TxSetCheck TxSetPhase.

(** ** Lists of lists up to order *)

Definition same_stage {A} (s s' : list (list A)) : Prop := exists s1, Forall2 (≡ₚ) s s1 /\ s1 ≡ₚ s'.
Definition same_schedule {A} (ss ss' : list (list (list A))) : Prop := exists ss1, Forall2 same_stage ss ss1 /\ ss1 ≡ₚ ss'.

Lemma same_stage_elem {A} (s s' : list (list A)) c' : same_stage s s' -> c' ∈ s' -> exists c, c ∈ s /\ c ≡ₚ c'.
Proof. intros (s1 & Hf & Hp) Hc. rewrite <- Hp in Hc. by apply (forall2_elem _ _ _ _ Hf). Qed.

Lemma same_schedule_elem {A} (ss ss' : list (list (list A))) s' :
  same_schedule ss ss' -> s' ∈ ss' -> exists s, s ∈ ss /\ same_stage s s'.
Proof. intros (ss1 & Hf & Hp) Hs. rewrite <- Hp in Hs. by apply (forall2_elem _ _ _ _ Hf). Qed.

Lemma same_stage_len {A} (s s' : list (list A)) : same_stage s s' -> len s = len s'.
Proof. intros (s1 & Hf & Hp). by rewrite (forall2_len _ _ _ Hf), (len_perm _ _ Hp). Qed.

Lemma same_schedule_len {A} (ss ss' : list (list (list A))) : same_schedule ss ss' -> len ss = len ss'.
Proof. intros (ss1 & Hf & Hp). by rewrite (forall2_len _ _ _ Hf), (len_perm _ _ Hp). Qed.

Lemma forall2_perm_concat {A} (s s' : list (list A)) : Forall2 (≡ₚ) s s' -> concat s ≡ₚ concat s'.
Proof. induction 1 as [|c c' s s' Hc _ IH]; simpl; [done|]. by rewrite Hc, IH. Qed.

Lemma same_stage_concat {A} (s s' : list (list A)) : same_stage s s' -> concat s ≡ₚ concat s'.
Proof. intros (s1 & Hf & Hp). rewrite (forall2_perm_concat _ _ Hf). by apply concat_perm. Qed.

Lemma same_schedule_concat {A} (ss ss' : list (list (list A))) :
  same_schedule ss ss' -> concat (concat ss) ≡ₚ concat (concat ss').
Proof.
  intros (ss1 & Hf & Hp). rewrite <- (concat_perm _ _ (concat_perm _ _ Hp)).
  clear Hp ss'. induction Hf as [|s s' ss ss1 Hs _ IH]; [done|]. simpl. rewrite !concat_app, IH.
  f_equiv. by apply same_stage_concat.
Qed.

Lemma nil_perm_ne {A} (l k : list A) : l ≡ₚ k -> l <> [] -> k <> [].
Proof. intros Hp Hne ->. by apply Permutation_nil_r in Hp. Qed.

Lemma len_pos_ne {A} (l k : list A) : len l = len k -> l <> [] -> k <> [].
Proof. intros Hl Hne ->. destruct l; [done|]. unfold len in Hl. simpl in Hl. lia. Qed.

(** All clusters and stages hold something. *)
Definition inhabited {A} (ss : list (list (list A))) : Prop :=
  forall s, s ∈ ss -> s <> [] /\ forall c, c ∈ s -> c <> [].

Lemma same_schedule_inhabited {A} (ss ss' : list (list (list A))) : same_schedule ss ss' -> inhabited ss -> inhabited ss'.
Proof.
  intros Hsame Hin s' Hs'. destruct (same_schedule_elem _ _ _ Hsame Hs') as (s & Hs & Hss).
  destruct (Hin s Hs) as [Hne Hcl]. split; [by apply (len_pos_ne s), Hne; apply same_stage_len|].
  intros c' Hc'. destruct (same_stage_elem _ _ _ Hss Hc') as (c & Hc & Hp). by apply (nil_perm_ne c), Hcl.
Qed.

Lemma canonicalize_inhabited {A} (ss : list (list (list A))) : inhabited (canonicalize_stages ss).
Proof.
  intros s Hs. unfold canonicalize_stages in Hs. apply list_elem_of_filter in Hs as [Hne Hs]. split; [done|].
  apply list_elem_of_fmap in Hs as (s0 & -> & _). intros c Hc. by apply list_elem_of_filter in Hc as [? _].
Qed.

Lemma canonicalize_id {A} (ss : list (list (list A))) : inhabited ss -> canonicalize_stages ss = ss.
Proof.
  intros Hin. unfold canonicalize_stages.
  assert ((fun stage => filter (fun cluster => cluster <> []) stage) <$> ss = ss) as ->.
  { rewrite <- (list_fmap_id ss) at 2. apply list_fmap_ext. intros i s Hs. apply list_elem_of_lookup_2 in Hs.
    apply filter_all. by apply (Hin s Hs). }
  apply filter_all. intros s Hs. by apply (Hin s Hs).
Qed.

(** Elements of two lists of a list whose concatenation has distinct keys. *)
Lemma NoDup_concat_same {A B} (f : A -> B) (ls : list (list A)) l k x y :
  NoDup (f <$> concat ls) -> l ∈ ls -> k ∈ ls -> x ∈ l -> y ∈ k -> f x = f y -> l = k.
Proof.
  intros Hnd Hl Hk Hx Hy E. apply elem_of_Permutation in Hl as (rest & Hr).
  rewrite (concat_perm _ _ Hr) in Hnd. rewrite Hr in Hk. apply elem_of_cons in Hk as [->|Hk]; [done|]. exfalso.
  simpl in Hnd. rewrite fmap_app in Hnd. apply NoDup_app in Hnd as (_ & Hd & _).
  apply (Hd (f x)); [apply list_elem_of_fmap; by exists x|]. rewrite E. apply list_elem_of_fmap. exists y.
  split; [done|]. by apply (elem_of_concat_map _ k).
Qed.

Lemma NoDup_sub_concat {A B} (f : A -> B) (ls : list (list A)) l : NoDup (f <$> concat ls) -> l ∈ ls -> NoDup (f <$> l).
Proof.
  intros Hnd Hl. apply elem_of_Permutation in Hl as (rest & Hr). rewrite (concat_perm _ _ Hr) in Hnd.
  simpl in Hnd. rewrite fmap_app in Hnd. by apply NoDup_app in Hnd as [? _].
Qed.

(** The same two levels down. *)
Lemma NoDup_concat_lists {A B} (f : A -> B) (ss : list (list (list A))) s s' x y :
  NoDup (f <$> concat (concat ss)) -> s ∈ ss -> s' ∈ ss -> x ∈ concat s -> y ∈ concat s' -> f x = f y -> s = s'.
Proof.
  intros Hnd Hs Hs' Hx Hy E. apply elem_of_Permutation in Hs as (rest & Hr).
  rewrite (concat_perm _ _ (concat_perm _ _ Hr)) in Hnd. rewrite Hr in Hs'.
  apply elem_of_cons in Hs' as [->|Hs']; [done|]. exfalso.
  simpl in Hnd. rewrite concat_app, fmap_app in Hnd. apply NoDup_app in Hnd as (_ & Hd & _).
  apply (Hd (f x)); [apply list_elem_of_fmap; by exists x|]. rewrite E. apply list_elem_of_fmap. exists y.
  split; [done|]. apply elem_of_concat in Hy as (c & Hc & Hy). apply (elem_of_concat_map _ c); [|done].
  by apply (elem_of_concat_map _ s').
Qed.

Lemma NoDup_stage {A B} (f : A -> B) (ss : list (list (list A))) s :
  NoDup (f <$> concat (concat ss)) -> s ∈ ss -> NoDup (f <$> concat s).
Proof.
  intros Hnd Hs. apply elem_of_Permutation in Hs as (rest & Hr).
  rewrite (concat_perm _ _ (concat_perm _ _ Hr)) in Hnd.
  simpl in Hnd. rewrite concat_app, fmap_app in Hnd. by apply NoDup_app in Hnd as [? _].
Qed.

Section xdr.
Context `{EnvelopeXdr} `{HashIteration}.

(** ** The sorted stages *)

Definition cluster_key (c : list HashedTx) : list Z := match c !! 0%nat with Some t => tx_hash t | None => [] end.
Definition stage_key (s : list (list HashedTx)) : list Z := match s !! 0%nat with Some c => cluster_key c | None => [] end.

Definition sorted_stage (s : list (list HashedTx)) : list (list HashedTx) :=
  sort_by_key hash_compare cluster_key (sort_cluster <$> s).
Definition sorted_stages (ss : list (list (list HashedTx))) : list (list (list HashedTx)) :=
  sort_by_key hash_compare stage_key (sorted_stage <$> ss).

Lemma sort_cluster_perm c : sort_cluster c ≡ₚ c.
Proof. apply sort_by_perm. Qed.

Lemma sorted_stage_same s : same_stage s (sorted_stage s).
Proof.
  exists (sort_cluster <$> s). split; [|symmetry; apply sort_by_perm].
  induction s as [|c s IH]; csimpl; constructor; [symmetry; apply sort_cluster_perm|done].
Qed.

Lemma sorted_stages_same ss : same_schedule ss (sorted_stages ss).
Proof.
  exists (sorted_stage <$> ss). split; [|symmetry; apply sort_by_perm].
  induction ss as [|s ss IH]; csimpl; constructor; [apply sorted_stage_same|done].
Qed.

Lemma cluster_hash_ok c : c <> [] -> cluster_hash c = Ok (cluster_key c).
Proof. by destruct c. Qed.

Lemma stage_hash_ok s : s <> [] -> (forall c, c ∈ s -> c <> []) -> stage_hash s = Ok (stage_key s).
Proof. destruct s as [|c s]; [done|]. intros _ Hc. apply cluster_hash_ok, Hc. left. Qed.

Lemma by_key_ok {A} (key : A -> result (list Z) Panic) (k : A -> list Z) a b :
  key a = Ok (k a) -> key b = Ok (k b) -> by_key key a b = Ok (hash_compare (k a) (k b)).
Proof. intros Ha Hb. unfold by_key. by rewrite Ha, Hb. Qed.

(** No index of the sort keys is out of range. *)
Lemma sort_stages_ok ss : inhabited ss -> sort_stages ss = Ok (sorted_stages ss).
Proof.
  intros Hin. unfold sort_stages.
  rewrite (try_map_ok _ sorted_stage).
  - simpl. apply try_sort_by_ok. intros a b Ha Hb.
    assert (forall s, s ∈ sorted_stage <$> ss -> stage_hash s = Ok (stage_key s)) as Hkey; [|apply by_key_ok; auto].
    intros s Hs. apply list_elem_of_fmap in Hs as (s0 & -> & Hs0). destruct (Hin s0 Hs0) as [Hne Hcl].
    apply stage_hash_ok.
    + by apply (len_pos_ne s0), Hne; apply same_stage_len, sorted_stage_same.
    + intros c Hc. destruct (same_stage_elem _ _ _ (sorted_stage_same s0) Hc) as (c0 & Hc0 & Hp).
      by apply (nil_perm_ne c0), Hcl.
  - intros s Hs. unfold sort_stage. apply try_sort_by_ok. intros a b Ha Hb.
    assert (forall c, c ∈ sort_cluster <$> s -> cluster_hash c = Ok (cluster_key c)) as Hkey; [|apply by_key_ok; auto].
    intros c Hc. apply list_elem_of_fmap in Hc as (c0 & -> & Hc0). apply cluster_hash_ok.
    apply (nil_perm_ne c0); [symmetry; apply sort_cluster_perm|]. by apply (Hin s Hs).
Qed.

(** ** The order of the input does not matter *)

Lemma cluster_key_elem c : c <> [] -> exists t, t ∈ c /\ cluster_key c = tx_hash t.
Proof. destruct c as [|t c]; [done|]. intros _. exists t. split; [left|done]. Qed.

Lemma stage_key_elem s : s <> [] -> (forall c, c ∈ s -> c <> []) -> exists t, t ∈ concat s /\ stage_key s = tx_hash t.
Proof.
  destruct s as [|c s]; [done|]. intros _ Hc. destruct (cluster_key_elem c) as (t & Ht & E); [apply Hc; left|].
  exists t. split; [apply elem_of_app; by left|done].
Qed.

Lemma sort_cluster_canonical c c' : c ≡ₚ c' -> NoDup (tx_hash <$> c) -> sort_cluster c = sort_cluster c'.
Proof.
  intros Hp Hnd. apply sort_by_perm_eq; [apply _|done|]. intros a b Ha Hb E.
  apply (compare_eq hash_compare) in E. by apply (NoDup_fmap_inj_on tx_hash c).
Qed.

Lemma sorted_stage_canonical s s' : same_stage s s' -> (forall c, c ∈ s -> c <> []) -> NoDup (tx_hash <$> concat s) ->
  sorted_stage s = sorted_stage s'.
Proof.
  intros (s1 & Hf & Hp) Hne Hnd. unfold sorted_stage.
  assert (sort_cluster <$> s = sort_cluster <$> s1) as Heq.
  { assert (forall c, c ∈ s -> NoDup (tx_hash <$> c)) as Hndc by (intros; by eapply NoDup_sub_concat).
    clear Hp Hne Hnd. induction Hf as [|c c' s s1 Hc _ IH]; [done|]. csimpl. f_equal.
    - apply sort_cluster_canonical; [done|]. apply Hndc. left.
    - apply IH. intros d Hd. apply Hndc. by right. }
  rewrite Heq. apply sort_by_perm_eq; [apply _|by rewrite Hp|]. rewrite <- Heq.
  intros a b Ha Hb E. apply (compare_eq hash_compare) in E.
  apply list_elem_of_fmap in Ha as (ca & -> & Ha). apply list_elem_of_fmap in Hb as (cb & -> & Hb). f_equal.
  destruct (cluster_key_elem (sort_cluster ca)) as (t & Ht & Et).
  { apply (nil_perm_ne ca); [symmetry; apply sort_cluster_perm|by apply Hne]. }
  destruct (cluster_key_elem (sort_cluster cb)) as (u & Hu & Eu).
  { apply (nil_perm_ne cb); [symmetry; apply sort_cluster_perm|by apply Hne]. }
  rewrite sort_cluster_perm in Ht, Hu. apply (NoDup_concat_same tx_hash s ca cb t u); congruence || done.
Qed.

Lemma sorted_stages_canonical ss ss' : same_schedule ss ss' -> inhabited ss -> NoDup (tx_hash <$> concat (concat ss)) ->
  sorted_stages ss = sorted_stages ss'.
Proof.
  intros (ss1 & Hf & Hp) Hin Hnd. unfold sorted_stages.
  assert (forall s, s ∈ ss -> NoDup (tx_hash <$> concat s)) as Hnds.
  { intros s Hs. by apply (NoDup_stage tx_hash ss). }
  assert (sorted_stage <$> ss = sorted_stage <$> ss1) as Heq.
  { clear Hp Hnd. induction Hf as [|s s' ss ss1 Hs _ IH]; [done|]. csimpl. f_equal.
    - apply sorted_stage_canonical; [done|apply (Hin s); left|apply Hnds; left].
    - apply IH; intros d Hd; [apply Hin|apply Hnds]; by right. }
  rewrite Heq. apply sort_by_perm_eq; [apply _|by rewrite Hp|]. rewrite <- Heq.
  intros a b Ha Hb E. apply (compare_eq hash_compare) in E.
  apply list_elem_of_fmap in Ha as (sa & -> & Ha). apply list_elem_of_fmap in Hb as (sb & -> & Hb).
  assert (forall s, s ∈ ss -> exists t, t ∈ concat s /\ stage_key (sorted_stage s) = tx_hash t) as Hkey.
  { intros s Hs. destruct (Hin s Hs) as [Hne Hcl].
    destruct (stage_key_elem (sorted_stage s)) as (t & Ht & Et).
    - by apply (len_pos_ne s), Hne; apply same_stage_len, sorted_stage_same.
    - intros c Hc. destruct (same_stage_elem _ _ _ (sorted_stage_same s) Hc) as (c0 & Hc0 & Hp0). by apply (nil_perm_ne c0), Hcl.
    - exists t. split; [|done]. by rewrite (same_stage_concat _ _ (sorted_stage_same s)). }
  destruct (Hkey sa Ha) as (t & Ht & Et). destruct (Hkey sb Hb) as (u & Hu & Eu).
  f_equal. apply (NoDup_concat_lists tx_hash ss sa sb t u); congruence || done.
Qed.
End xdr.
