(* ===== verification/TxSetTotals.v ===== *)
(** * TxSetTotals: the schedules a node builds pass its own checks

    Canonical phases pass the structural check, and schedules within the limits of the
    ledger pass the checks of parallel phases. The conflict check between clusters is
    exact: it accepts the stages whose clusters do not conflict and no others. The sums
    of resources over a phase neither overflow nor exceed the limits. *)



From S2P Require Import Prelude Bucket Ledger Lists BitSet Resource Envelope TxSetBuilder TxSetConflicts TxSetStage TxSetBuild TxSetCheck TxSetPhase TxSetXdr.

Section accept.
Context `{EnvelopeXdr} `{HashIteration}.

Definition envelopes (ss : list (list (list HashedTx))) : list (list (list TransactionEnvelope)) :=
  fmap (M:=list) (fmap (M:=list) (fmap (M:=list) envelope)) ss.

(** ** The XDR form *)

Lemma inhabited_length {A} (s : list (list A)) : (forall c, c ∈ s -> c <> []) -> (length s <= length (concat s))%nat.
Proof.
  induction s as [|c s IH]; intros Hc; [done|]. simpl. rewrite length_app.
  assert (length s <= length (concat s))%nat by (apply IH; intros d Hd; apply Hc; by right).
  destruct c as [|x c]; [exfalso; by apply (Hc []); [left|]|]. simpl. lia.
Qed.

Lemma vecm_ok {A} (l : list A) : len l <= u32_max -> vecm l = Ok l.
Proof. intros Hl. unfold vecm. by destruct (Z.leb_spec (len l) u32_max); [|lia]. Qed.

Lemma vecm_stages_ok (ss : list (list (list TransactionEnvelope))) : inhabited ss -> len (concat (concat ss)) <= u32_max -> vecm_stages ss = Ok ss.
Proof.
  intros Hin Hlen. unfold vecm_stages.
  assert (forall s, s ∈ ss -> len (concat s) <= len (concat (concat ss))) as Hs.
  { intros s Hs. apply elem_of_Permutation in Hs as (rest & Hr).
    rewrite (len_perm _ _ (concat_perm _ _ (concat_perm _ _ Hr))). simpl. rewrite concat_app, len_app.
    pose proof (len_nonneg (concat (concat rest))). lia. }
  rewrite (try_map_id vecm_stage).
  - simpl. apply vecm_ok. assert (len ss <= len (concat ss)) as H3.
    { pose proof (inhabited_length ss) as Hl. unfold len. specialize (Hl ltac:(intros c Hc; by apply (Hin c))). lia. }
    assert (len (concat ss) <= len (concat (concat ss))) as H4.
    { pose proof (inhabited_length (concat ss)) as Hl. unfold len.
      specialize (Hl ltac:(intros c (s & Hs1 & Hc)%elem_of_concat; by apply (Hin s))). lia. }
    lia.
  - intros s Hsin. unfold vecm_stage. destruct (Hin s Hsin) as [_ Hc]. specialize (Hs s Hsin).
    rewrite (try_map_id vecm).
    + simpl. apply vecm_ok. pose proof (inhabited_length s Hc). unfold len in *. lia.
    + intros c Hcin. apply vecm_ok. pose proof (elem_concat_len s c Hcin). lia.
Qed.

Lemma inhabited_envelopes ss : inhabited ss -> inhabited (envelopes ss).
Proof.
  intros Hin s Hs. apply list_elem_of_fmap in Hs as (s0 & -> & Hs0). destruct (Hin s0 Hs0) as [Hne Hcl]. split.
  - intros E. apply fmap_nil_inv in E. done.
  - intros c Hc. apply list_elem_of_fmap in Hc as (c0 & -> & Hc0). intros E. apply fmap_nil_inv in E. by apply (Hcl c0).
Qed.

Lemma concat_envelopes ss : concat (concat (envelopes ss)) = envelope <$> concat (concat ss).
Proof. unfold envelopes. by rewrite concat_fmap, concat_fmap. Qed.

Lemma stages_to_xdr_phase_ok ss fee : inhabited ss -> ss <> [] -> len (concat (concat ss)) <= u32_max ->
  stages_to_xdr_phase ss fee = Ok (PhaseV1 (MkParallel fee (envelopes (sorted_stages ss)))).
Proof.
  intros Hin Hne Hlen. pose proof (sorted_stages_same ss) as Hsame.
  pose proof (same_schedule_inhabited _ _ Hsame Hin) as Hin'.
  unfold stages_to_xdr_phase. rewrite canonicalize_id by done. rewrite bool_decide_false by done.
  rewrite sort_stages_ok by done. simpl. fold (envelopes (sorted_stages ss)).
  rewrite vecm_stages_ok; [|by apply inhabited_envelopes|].
  2:{ rewrite concat_envelopes, len_fmap. by rewrite <- (len_perm _ _ (same_schedule_concat _ _ Hsame)). }
  simpl. unfold soroban_phase_with_stages, new_parallel_txs_component.
  assert (envelopes (sorted_stages ss) <> []) as Hne'.
  { intros E. apply fmap_nil_inv in E. apply (len_pos_ne ss (sorted_stages ss)); [by apply same_schedule_len|done|done]. }
  rewrite !bool_decide_false by done. done.
Qed.

(** ** The structural check *)

Lemma sorted_nondecreasing {A T} (key : T -> result TransactionEnvelope Panic) (f : A -> T) (k : A -> list Z) (l : list A) :
  (forall x, x ∈ l -> hash_of key (f x) = Ok (k x)) -> StronglySorted (fun a b => cmp_le hash_compare (k a) (k b)) l ->
  is_nondecreasing_by_xdr_hash key (f <$> l) = Ok true.
Proof.
  intros Hk Hs. unfold is_nondecreasing_by_xdr_hash.
  assert (forall prev, (forall p x, prev = Some p -> x ∈ l -> cmp_le hash_compare p (k x)) ->
    nondecreasing_from key prev (f <$> l) = Ok true) as Hgen; [|by apply Hgen].
  induction Hs as [|x l Hs IH Hx]; intros prev Hp; [done|]. csimpl. rewrite Hk by left. simpl.
  assert (map_or false (fun p => match hash_compare (k x) p with Lt => true | _ => false end) prev = false) as ->.
  { destruct prev as [p|]; [|done]. simpl. specialize (Hp p x eq_refl ltac:(left)). unfold cmp_le in Hp.
    rewrite (compare_antisym hash_compare p (k x)). by destruct (hash_compare p (k x)). }
  apply IH; [intros y Hy; apply Hk; by right|]. intros p y [= <-] Hy. rewrite Forall_forall in Hx. by apply Hx.
Qed.

Lemma sort_by_key_sorted {A} (f : A -> list Z) l :
  StronglySorted (fun a b => cmp_le hash_compare (f a) (f b)) (sort_by_key hash_compare f l).
Proof. unfold sort_by_key. apply sort_by_sorted. apply _. Qed.

(** The hashes of the queue are those of the envelopes. *)
Definition all_hashed (ss : list (list (list HashedTx))) : Prop :=
  forall t, t ∈ concat (concat ss) -> hashed_ok t.

Lemma all_hashed_same ss ss' : same_schedule ss ss' -> all_hashed ss -> all_hashed ss'.
Proof. intros Hs Ha t Ht. apply Ha. by rewrite (same_schedule_concat _ _ Hs). Qed.

Lemma cluster_of_schedule {A} (ss : list (list (list A))) s c (t : A) : s ∈ ss -> c ∈ s -> t ∈ c -> t ∈ concat (concat ss).
Proof. intros Hs Hc Ht. apply (elem_of_concat_map _ c); [|done]. by apply (elem_of_concat_map _ s). Qed.

Lemma first_tx_hash c : c <> [] -> (forall t, t ∈ c -> hashed_ok t) -> hash_of first_tx (envelope <$> c) = Ok (cluster_key c).
Proof. destruct c as [|t c]; [done|]. intros _ Hh. unfold hash_of. simpl. f_equal. symmetry. apply Hh. left. Qed.

Lemma first_stage_hash s : s <> [] -> (forall c, c ∈ s -> c <> []) -> (forall t, t ∈ concat s -> hashed_ok t) ->
  hash_of first_tx_of_stage (fmap (M:=list) envelope <$> s) = Ok (stage_key s).
Proof.
  destruct s as [|c s]; [done|]. intros _ Hc Hh. unfold hash_of, first_tx_of_stage. csimpl.
  apply (first_tx_hash c); [apply Hc; left|]. intros t Ht. apply Hh. simpl. apply elem_of_app. by left.
Qed.

(** Every stage of [sorted_stages] is a sorted stage, every cluster a sorted cluster. *)
Lemma sorted_stages_elem ss s : s ∈ sorted_stages ss -> exists s0, s0 ∈ ss /\ s = sorted_stage s0.
Proof. intros Hs. apply elem_of_sort_by in Hs. apply list_elem_of_fmap in Hs as (s0 & -> & Hs0). by exists s0. Qed.

Lemma sorted_stage_elem s c : c ∈ sorted_stage s -> exists c0, c0 ∈ s /\ c = sort_cluster c0.
Proof. intros Hs. apply elem_of_sort_by in Hs. apply list_elem_of_fmap in Hs as (c0 & -> & Hc0). by exists c0. Qed.

Definition fee_ok (fee : option Z) : Prop := match fee with Some f => 0 <= f | None => True end.

Lemma parallel_component_ok ss fee : inhabited ss -> all_hashed ss -> fee_ok fee ->
  validate_parallel_component (MkParallel fee (envelopes (sorted_stages ss))) = Ok tt.
Proof.
  intros Hin Hh Hfee. pose proof (sorted_stages_same ss) as Hsame.
  pose proof (same_schedule_inhabited _ _ Hsame Hin) as Hin'. pose proof (all_hashed_same _ _ Hsame Hh) as Hh'.
  unfold validate_parallel_component. simpl.
  assert (check_base_fee fee = Ok tt) as ->.
  { unfold check_base_fee. destruct fee as [f|]; [|done]. simpl in *. by destruct (Z.ltb_spec f 0); [lia|]. }
  simpl. pose proof (inhabited_envelopes _ Hin') as Hie.
  rewrite try_fold_unit.
  2:{ intros s Hs. destruct (Hie s Hs) as [Hne Hcl]. unfold check_stage_nonempty. rewrite bool_decide_false by done. simpl.
      apply try_fold_unit. intros c Hc. unfold check_cluster_nonempty. rewrite bool_decide_false; [done|]. by apply Hcl. }
  simpl. rewrite try_fold_unit.
  2:{ intros s Hs. apply list_elem_of_fmap in Hs as (s1 & -> & Hs1). destruct (Hin' s1 Hs1) as [Hne Hcl].
      destruct (sorted_stages_elem ss s1 Hs1) as (s0 & Hs0 & ->).
      unfold check_cluster_order, require. rewrite (sorted_nondecreasing first_tx (fmap envelope) cluster_key); [done| |].
      - intros c Hc. apply first_tx_hash; [by apply Hcl|]. intros t Ht. apply Hh'. by apply (cluster_of_schedule _ _ c _ Hs1).
      - apply sort_by_key_sorted. }
  simpl. unfold require, envelopes. rewrite (sorted_nondecreasing first_tx_of_stage (fmap (fmap envelope)) stage_key); [done| |].
  - intros s Hs. destruct (Hin' s Hs) as [Hne Hcl]. apply first_stage_hash; [done|done|].
    intros t (c & Hc & Ht)%elem_of_concat. apply Hh'. by apply (cluster_of_schedule _ s c).
  - apply sort_by_key_sorted.
Qed.

(** ** The transactions of a phase *)

(** What the wire form requires of a Soroban transaction. *)
Definition wire_soroban (env : TransactionEnvelope) : Prop :=
  is_soroban_envelope env = true /\ validate_tx_fee env = Ok tt.

Lemma phase_txs_ok ss fee : inhabited ss -> all_hashed ss ->
  (forall t, t ∈ concat (concat ss) -> wire_soroban (envelope t)) ->
  validate_phase_txs tt (1%nat, PhaseV1 (MkParallel fee (envelopes (sorted_stages ss)))) = Ok tt.
Proof.
  intros Hin Hh Hw. pose proof (sorted_stages_same ss) as Hsame.
  unfold validate_phase_txs. simpl. apply try_fold_unit. intros s Hs. apply list_elem_of_fmap in Hs as (s1 & -> & Hs1).
  destruct (sorted_stages_elem ss s1 Hs1) as (s0 & Hs0 & ->).
  apply try_fold_unit. intros c Hc. apply list_elem_of_fmap in Hc as (c1 & -> & Hc1).
  destruct (sorted_stage_elem s0 c1 Hc1) as (c0 & Hc0 & ->).
  assert (forall t, t ∈ sort_cluster c0 -> t ∈ concat (concat ss)) as Hin0.
  { intros t Ht. rewrite sort_cluster_perm in Ht. by apply (cluster_of_schedule ss s0 c0). }
  unfold validate_wire_txs. rewrite try_fold_unit.
  2:{ intros env Henv. apply list_elem_of_fmap in Henv as (t & -> & Ht). destruct (Hw t (Hin0 t Ht)) as [Hsor Hfee].
      unfold validate_wire_tx. rewrite Hfee, Hsor. done. }
  simpl. unfold is_sorted_by_hash. rewrite (sorted_nondecreasing Ok envelope tx_hash); [done| |].
  - intros t Ht. unfold hash_of. simpl. f_equal. symmetry. by apply Hh, Hin0.
  - apply sort_by_key_sorted.
Qed.

(** ** Schedules up to order *)

Lemma cluster_cost_perm c c' : c ≡ₚ c' -> cluster_cost c = cluster_cost c'.
Proof. apply zsum_perm. Qed.

Lemma independent_perm c c' d d' : c ≡ₚ c' -> d ≡ₚ d' -> clusters_independent c d -> clusters_independent c' d'.
Proof. intros Hc Hd Hi t u Ht Hu. apply Hi; [by rewrite Hc|by rewrite Hd]. Qed.

Lemma independent_same_stage s s' : same_stage s s' -> StronglySorted clusters_independent s -> StronglySorted clusters_independent s'.
Proof.
  intros (s1 & Hf & Hp) Hs. apply (StronglySorted_sym_perm _ s1); [apply clusters_independent_sym|done|].
  clear Hp. revert s1 Hf. induction Hs as [|c s Hs IH Hc]; intros s1 Hf.
  { apply Forall2_nil_inv_l in Hf as ->. constructor. }
  apply Forall2_cons_inv_l in Hf as (c' & s1' & Hcc & Hf & ->). constructor; [by apply IH|].
  apply Forall_forall. intros d' Hd'. destruct (forall2_elem _ _ _ _ Hf Hd') as (d & Hd & Hdd).
  rewrite Forall_forall in Hc. by apply (independent_perm c c' d d'), Hc.
Qed.

Lemma schedule_ok_same max mc ss ss' : same_schedule ss ss' -> schedule_ok max mc ss -> schedule_ok max mc ss'.
Proof.
  intros Hsame [Hst Hcl (cost & Hc0 & Hclen & Hcost) Hind]. split.
  - intros s' Hs'. destruct (same_schedule_elem _ _ _ Hsame Hs') as (s & Hs & Hss). destruct (Hst s Hs) as [Hne Hle].
    rewrite <- (same_stage_len _ _ Hss). split; [|done]. by apply (len_pos_ne s), Hne; apply same_stage_len.
  - intros s' c' Hs' Hc'. destruct (same_schedule_elem _ _ _ Hsame Hs') as (s & Hs & Hss).
    destruct (same_stage_elem _ _ _ Hss Hc') as (c & Hc & Hp). apply (nil_perm_ne c); [done|]. by apply (Hcl s).
  - exists cost. rewrite <- (same_schedule_len _ _ Hsame). split; [done|]. split; [done|].
    intros s' c' Hs' Hc'. destruct (same_schedule_elem _ _ _ Hsame Hs') as (s & Hs & Hss).
    destruct (same_stage_elem _ _ _ Hss Hc') as (c & Hc & Hp). rewrite <- (cluster_cost_perm _ _ Hp). by apply (Hcost s).
  - intros s' Hs'. destruct (same_schedule_elem _ _ _ Hsame Hs') as (s & Hs & Hss).
    apply (independent_same_stage s); [done|]. by apply Hind.
Qed.

Lemma schedule_inhabited max mc ss : schedule_ok max mc ss -> inhabited ss.
Proof.
  intros Hs s Hin. split; [by apply (schedule_stages _ _ _ Hs)|]. intros c Hc. by apply (schedule_clusters _ _ _ Hs s).
Qed.
End accept.

(** ** the totals of a phase of transactions

    The resources of the transactions of a Soroban phase are added up with overflow
    checks and compared with the limits of the ledger. Whatever is chosen from
    transactions whose totals pass, in whatever order, passes too. *)

Section totals.
Context `{EnvelopeXdr} (protocol : Z).

(** Resource fields are unsigned in the XDR types; so are encoded lengths. *)
Definition usage_ok (env : TransactionEnvelope) : Prop :=
  0 <= envelope_tx_size_bytes env /\
  match envelope_soroban_resources env with
  | Some r => 0 <= instructions r /\ 0 <= disk_read_bytes r /\ 0 <= write_bytes r
  | None => True
  end.

(** The seven dimensions of a Soroban transaction. *)
Definition usage (env : TransactionEnvelope) : list Z :=
  match resources_from_envelope env false protocol with Ok r => values r | Err _ => [] end.

Lemma resources_usage env : is_soroban_envelope env = true -> resources_from_envelope env false protocol = Ok (MkResource (usage env)).
Proof. intros Hs. unfold usage, resources_from_envelope. by rewrite Hs. Qed.

Lemma disk_read_entries_nonneg r x restore v : 0 <= soroban_disk_read_entries r x restore v.
Proof.
  unfold soroban_disk_read_entries. pose proof (len_nonneg (read_only (footprint r))). pose proof (len_nonneg (read_write (footprint r))).
  destruct restore; [done|]. destruct (negb _); [lia|].
  pose proof (count_if_nonneg (fun key => negb (is_soroban_key key)) (read_only (footprint r))).
  pose proof (count_if_nonneg (fun key => negb (is_soroban_key key)) (read_write (footprint r))).
  destruct x as [[|archived]|]; [lia| |lia]. pose proof (len_nonneg archived). lia.
Qed.

Lemma operation_count_nonneg env : 0 <= envelope_operation_count env.
Proof. unfold envelope_operation_count. pose proof (len_nonneg (envelope_operations env)). destruct (is_fee_bump_envelope env); lia. Qed.

Lemma usage_facts env : is_soroban_envelope env = true -> usage_ok env -> length (usage env) = 7%nat /\ Forall (Z.le 0) (usage env).
Proof.
  intros Hs [Hsize Hr]. unfold usage, resources_from_envelope. rewrite Hs. cbn zeta.
  unfold envelope_soroban_resources in Hr. pose proof (operation_count_nonneg env) as Hops.
  assert (0 <= instructions (default fallback_resources (resources <$> envelope_soroban_data env)) /\
    0 <= disk_read_bytes (default fallback_resources (resources <$> envelope_soroban_data env)) /\
    0 <= write_bytes (default fallback_resources (resources <$> envelope_soroban_data env))) as (Hi & Hd & Hw).
  { destruct (envelope_soroban_data env); simpl in *; [done|lia]. }
  split; [done|]. simpl. repeat apply Forall_cons_2; try done.
  - by destruct (is_fee_bump_envelope env).
  - apply disk_read_entries_nonneg.
  - apply len_nonneg.
Qed.

(** ** Adding vectors *)

Definition adds (l k : list Z) : Prop := Forall2 (fun a b => is_i64 (a + b)) l k.

Lemma checked_add_from_spec l k : forall i, length l = length k ->
  match checked_add_from i l k with
  | Ok vs => adds l k /\ vs = zip_with Z.add l k
  | Err e => ~ adds l k /\ exists d, e = Overflow d
  end.
Proof.
  revert k. induction l as [|a l IH]; intros [|b k] i Hlen; try done; simpl.
  { split; [constructor|done]. }
  unfold checked_i64, checked.
  destruct (decide (is_i64 (a + b))) as [Hin|Hout].
  - destruct Hin as [Hlo Hhi]. destruct (Z.leb_spec i64_min (a + b)); [|lia]. destruct (Z.leb_spec (a + b) i64_max); [|lia]. simpl.
    specialize (IH k (S i) ltac:(simpl in Hlen; lia)). destruct (checked_add_from (S i) l k) as [vs|e]; simpl.
    + destruct IH as [Hl ->]. split; [by constructor|done].
    + destruct IH as [Hno Hd]. split; [|done]. intros Ha. apply Hno. by inversion Ha.
  - assert ((i64_min <=? a + b) && (a + b <=? i64_max) = false) as ->.
    { unfold is_i64 in Hout. apply andb_false_iff. rewrite !Z.leb_gt. lia. }
    simpl. split; [|by eexists]. intros Ha. apply Hout. by inversion Ha.
Qed.

Lemma add_resources_spec l env : length l = 7%nat -> is_soroban_envelope env = true -> usage_ok env ->
  (add_resources protocol (MkResource l) env = Ok (MkResource (zip_with Z.add l (usage env))) /\ adds l (usage env)) \/
  (exists e, add_resources protocol (MkResource l) env = Err e /\ ~ adds l (usage env)).
Proof.
  intros Hl Hs Hu. destruct (usage_facts env Hs Hu) as [Hlen _].
  unfold add_resources, reject_if, ensure. rewrite Hs, resources_usage by done. simpl.
  unfold accumulate_resources, resource_checked_add, same_size. simpl. rewrite Hl, Hlen. simpl.
  pose proof (checked_add_from_spec l (usage env) 0 ltac:(lia)) as Hc.
  destruct (checked_add_from 0 l (usage env)) as [vs|e]; simpl.
  - left. by destruct Hc as [? ->].
  - right. eexists. split; [done|]. apply Hc.
Qed.

(** ** Totals of what is chosen *)

Definition below (l k : list Z) : Prop := Forall2 (fun a b => 0 <= a <= b) l k.

Lemma adds_below l l' k : below l' l -> Forall (Z.le 0) k -> adds l k -> adds l' k.
Proof.
  intros Hb Hk Ha. revert l' Hb Hk. induction Ha as [|a b l k Hab Ha IH]; intros l' Hb Hk; inversion Hb; subst; constructor.
  - inversion Hk; subst. unfold is_i64, i64_min in *. lia.
  - apply IH; [done|]. by inversion Hk.
Qed.

Lemma add_below l l' k : below l' l -> Forall (Z.le 0) k -> length l = length k -> below (zip_with Z.add l' k) (zip_with Z.add l k).
Proof.
  intros Hb. revert k. induction Hb as [|a' a l' l Ha Hb IH]; intros [|b k] Hk Hlen; try done; simpl; constructor.
  - inversion Hk; subst. lia.
  - apply IH; [by inversion Hk|simpl in Hlen; lia].
Qed.

Lemma below_add l l' k : below l' l -> Forall (Z.le 0) k -> length l = length k -> below l' (zip_with Z.add l k).
Proof.
  intros Hb. revert k. induction Hb as [|a' a l' l Ha Hb IH]; intros [|b k] Hk Hlen; try done; simpl; constructor.
  - inversion Hk; subst. lia.
  - apply IH; [by inversion Hk|simpl in Hlen; lia].
Qed.

Lemma adds_swap l k m : Forall (Z.le 0) l -> Forall (Z.le 0) k -> Forall (Z.le 0) m ->
  adds l k -> adds (zip_with Z.add l k) m -> adds l m /\ adds (zip_with Z.add l m) k.
Proof.
  intros Hl Hk Hm Ha. revert m Hm. induction Ha as [|a b l k Hab Ha IH]; intros m Hm Hs; inversion Hs; subst.
  { split; constructor. }
  apply Forall_cons in Hl as [Hla Hl], Hk as [Hkb Hk], Hm as [Hmc Hm].
  unfold is_i64, i64_min in *.
  match goal with Hrest : Forall2 _ (zip_with _ _ _) ?m' |- _ => destruct (IH Hl Hk m' Hm Hrest) as [Hone Htwo] end.
  split; simpl; constructor; try done; unfold is_i64, i64_min in *; lia.
Qed.

Lemma zip_add_swap l k m : zip_with Z.add (zip_with Z.add l k) m = zip_with Z.add (zip_with Z.add l m) k.
Proof. revert k m. induction l as [|a l IH]; intros [|b k] [|c m]; simpl; try done. rewrite IH. f_equal. lia. Qed.

Definition fits_from (l : list Z) (envs : list TransactionEnvelope) (total : list Z) : Prop :=
  try_fold (add_resources protocol) envs (MkResource l) = Ok (MkResource total).

Definition soroban_usage (env : TransactionEnvelope) : Prop := is_soroban_envelope env = true /\ usage_ok env.

Lemma fits_from_cons l env envs total : length l = 7%nat -> soroban_usage env -> fits_from l (env :: envs) total <->
  adds l (usage env) /\ fits_from (zip_with Z.add l (usage env)) envs total.
Proof.
  intros Hl [Hs Hu]. unfold fits_from. simpl.
  destruct (add_resources_spec l env Hl Hs Hu) as [[-> Ha]|(e & -> & Hno)]; [tauto|]. split; [done|]. by intros [? _].
Qed.

Lemma zip_add_length l env : length l = 7%nat -> soroban_usage env -> length (zip_with Z.add l (usage env)) = 7%nat.
Proof. intros Hl [Hs Hu]. rewrite length_zip_with. destruct (usage_facts env Hs Hu) as [-> _]. lia. Qed.

Lemma zip_add_nonneg l k : Forall (Z.le 0) l -> Forall (Z.le 0) k -> Forall (Z.le 0) (zip_with Z.add l k).
Proof. intros Hl. revert k. induction Hl as [|a l Ha Hl IH]; intros k [|b k' Hb Hk]; simpl; constructor; [lia|by apply IH]. Qed.

Lemma below_length l l' n : below l' l -> length l = n -> length l' = n.
Proof. intros Hb <-. by apply Forall2_length in Hb. Qed.

Lemma below_refl l : Forall (Z.le 0) l -> below l l.
Proof. induction 1; constructor; [lia|done]. Qed.

Lemma below_trans l k m : below l k -> below k m -> below l m.
Proof. intros Hl. revert m. induction Hl as [|a b l k Hab Hl IH]; intros m Hk; inversion Hk; subst; constructor; [lia|by apply IH]. Qed.

Lemma below_nonneg l k : below l k -> Forall (Z.le 0) l.
Proof. induction 1; constructor; [lia|done]. Qed.

Lemma fits_mono envs : forall l l' total, (forall e, e ∈ envs -> soroban_usage e) -> length l = 7%nat -> below l' l ->
  fits_from l envs total -> exists total', fits_from l' envs total' /\ below total' total.
Proof.
  induction envs as [|e envs IH]; intros l l' total Hall Hl Hb Hf; [exists l'; by injection Hf as <-|].
  assert (soroban_usage e) as He by (apply Hall; left). pose proof (usage_facts e (proj1 He) (proj2 He)) as [Hul Hun].
  apply fits_from_cons in Hf as [Ha Hf]; [|done..].
  destruct (IH (zip_with Z.add l (usage e)) (zip_with Z.add l' (usage e)) total) as (total' & Hf' & Hb').
  - intros f Hf'. apply Hall. by right.
  - by apply zip_add_length.
  - apply add_below; [done|done|lia].
  - done.
  - exists total'. split; [|done]. apply fits_from_cons; [by apply (below_length l)|done|]. split; [by apply (adds_below l)|done].
Qed.

(** The totals of a part, and of the same in another order. *)
Lemma fits_submseteq envs envs' : envs' ⊆+ envs -> (forall e, e ∈ envs -> soroban_usage e) ->
  forall l l' total, length l = 7%nat -> below l' l -> fits_from l envs total ->
  exists total', fits_from l' envs' total' /\ below total' total.
Proof.
  induction 1 as [|e envs' envs Hsub IH|f e envs|e envs' envs Hsub IH|envs1 envs2 envs3 Hsub12 IH12 Hsub23 IH23];
    intros Hall l l' total Hl Hb Hf.
  - exists l'. injection Hf as <-. done.
  - assert (soroban_usage e) as He by (apply Hall; left). pose proof (usage_facts e (proj1 He) (proj2 He)) as [Hul Hun].
    apply fits_from_cons in Hf as [Ha Hf]; [|done..].
    destruct (IH) with (l := zip_with Z.add l (usage e)) (l' := zip_with Z.add l' (usage e)) (total := total) as (total' & Hf' & Hb').
    + intros f Hf'. apply Hall. by right.
    + by apply zip_add_length.
    + apply add_below; [done|done|lia].
    + done.
    + exists total'. split; [|done]. apply fits_from_cons; [by apply (below_length l)|done|]. split; [by apply (adds_below l)|done].
  - assert (soroban_usage e) as He by (apply Hall; right; left). assert (soroban_usage f) as Hg by (apply Hall; left).
    pose proof (usage_facts e (proj1 He) (proj2 He)) as [Hul Hun]. pose proof (usage_facts f (proj1 Hg) (proj2 Hg)) as [Hvl Hvn].
    pose proof (below_length _ _ _ Hb Hl) as Hl'. pose proof (below_nonneg _ _ Hb) as Hn'.
    apply fits_from_cons in Hf as [Ha Hf]; [|done..]. apply fits_from_cons in Hf as [Ha2 Hf]; [|by apply zip_add_length|done].
    assert (adds l' (usage f)) as Hb1 by by apply (adds_below l).
    assert (adds (zip_with Z.add l' (usage f)) (usage e)) as Hb2.
    { apply (adds_below (zip_with Z.add l (usage f))); [|done|done]. apply add_below; [done|done|lia]. }
    destruct (adds_swap l' (usage f) (usage e)) as [Hc1 Hc2]; [done..|].
    assert (exists total', fits_from (zip_with Z.add (zip_with Z.add l' (usage f)) (usage e)) envs total' /\ below total' total) as (total' & Hf' & Hbt).
    { assert (below (zip_with Z.add (zip_with Z.add l' (usage f)) (usage e)) (zip_with Z.add (zip_with Z.add l (usage f)) (usage e))) as Hbb.
      { assert (length (zip_with Z.add l (usage f)) = 7%nat) by by apply zip_add_length.
        apply add_below; [apply add_below; [done|done|lia]|done|lia]. }
      apply (fits_mono _ (zip_with Z.add (zip_with Z.add l (usage f)) (usage e))); [|by apply zip_add_length; [apply zip_add_length|]|done|done].
      intros g Hgin. apply Hall. right. by right. }
    exists total'. split; [|done]. apply fits_from_cons; [done|done|]. split; [done|].
    apply fits_from_cons; [by apply zip_add_length|done|]. split; [done|]. by rewrite <- zip_add_swap.
  - assert (soroban_usage e) as He by (apply Hall; left). pose proof (usage_facts e (proj1 He) (proj2 He)) as [Hul Hun].
    apply fits_from_cons in Hf as [Ha Hf]; [|done..].
    apply (IH) with (l := zip_with Z.add l (usage e)); [intros f Hf'; apply Hall; by right|by apply zip_add_length| |done].
    apply below_add; [done|done|lia].
  - destruct (IH23 Hall l l' total Hl Hb Hf) as (t2 & Hf2 & Hb2).
    destruct (IH12) with (l := l') (l' := l') (total := t2) as (t1 & Hf1 & Hb1).
    + intros e He. apply Hall. by apply (elem_of_submseteq envs2).
    + by apply (below_length l).
    + apply below_refl, (below_nonneg _ _ Hb).
    + done.
    + exists t1. split; [done|]. by apply (below_trans _ t2).
Qed.

Lemma fits_length envs : forall l total, (forall e, e ∈ envs -> soroban_usage e) -> length l = 7%nat ->
  fits_from l envs total -> length total = 7%nat.
Proof.
  induction envs as [|e envs IH]; intros l total Hall Hl Hf; [by injection Hf as <-|].
  assert (soroban_usage e) as He by (apply Hall; left). apply fits_from_cons in Hf as [_ Hf]; [|done..].
  apply (IH (zip_with Z.add l (usage e))); [intros f Hf'; apply Hall; by right|by apply zip_add_length|done].
Qed.

(** ** The limits on totals *)

Lemma check_totals_below info l l' : length l = 7%nat -> below l' l ->
  check_totals info true (MkResource l) = Ok tt -> check_totals info true (MkResource l') = Ok tt.
Proof.
  intros Hl Hb. pose proof (below_length _ _ _ Hb Hl) as Hl'.
  do 7 (destruct l as [|? l]; [done|]). destruct l; [|done]. do 7 (destruct l' as [|? l']; [done|]). destruct l'; [|done].
  unfold below in Hb. rewrite !Forall2_cons in Hb. destruct Hb as (Hb0 & Hb1 & Hb2 & Hb3 & Hb4 & Hb5 & Hb6 & _).
  unfold check_totals, get_val, reject_if, ensure. simpl.
  repeat match goal with |- context [?a <? ?b] => destruct (Z.ltb_spec a b); simpl; try (by intros); try lia end.
Qed.
End totals.

(** ** the conflict check between clusters is exact

    Walking through the clusters of a stage with the keys seen so far finds a conflict
    exactly when two clusters of the stage conflict. *)

Section footprints.
Context `{EnvelopeXdr}.

Definition unhashed (env : TransactionEnvelope) : HashedTx := MkHashedTx [] env.
Definition env_reads (env : TransactionEnvelope) : list LedgerKey := tx_reads (unhashed env).
Definition env_writes (env : TransactionEnvelope) : list LedgerKey := tx_writes (unhashed env).
Definition env_conflict (e f : TransactionEnvelope) : Prop := txs_conflict (unhashed e) (unhashed f).

Definition cluster_reads (c : list TransactionEnvelope) : list LedgerKey := concat (env_reads <$> c).
Definition cluster_writes (c : list TransactionEnvelope) : list LedgerKey := concat (env_writes <$> c).

(** No transaction of one cluster conflicts with one of the other. *)
Definition envs_independent (c d : list TransactionEnvelope) : Prop := forall e f, e ∈ c -> f ∈ d -> ~ env_conflict e f.

Definition keys_bytes (keys : list LedgerKey) : list (list Z) := ledger_key_bytes <$> keys.

(** ** One transaction *)

Definition read_clash (ks : footprint_keys) (key : LedgerKey) : bool :=
  bool_decide (ledger_key_bytes key ∈ stage_read_write_keys ks).
Definition write_clash (ks : footprint_keys) (key : LedgerKey) : bool :=
  bool_decide (ledger_key_bytes key ∈ stage_read_only_keys ks) || bool_decide (ledger_key_bytes key ∈ stage_read_write_keys ks).

Definition with_reads (keys : list LedgerKey) (ks : footprint_keys) : footprint_keys :=
  MkKeys (stage_read_only_keys ks) (stage_read_write_keys ks) (cluster_read_only_keys ks ++ keys_bytes keys) (cluster_read_write_keys ks).
Definition with_writes (keys : list LedgerKey) (ks : footprint_keys) : footprint_keys :=
  MkKeys (stage_read_only_keys ks) (stage_read_write_keys ks) (cluster_read_only_keys ks) (cluster_read_write_keys ks ++ keys_bytes keys).

Lemma visit_reads_eq keys : forall ks, try_fold visit_read_only keys ks =
  if existsb (read_clash ks) keys then Err (Return TxOrderingInvalid) else Ok (with_reads keys ks).
Proof.
  induction keys as [|key keys IH]; intros ks; simpl.
  { unfold with_reads. destruct ks. simpl. by rewrite app_nil_r. }
  unfold visit_read_only at 1, reject_if. fold (read_clash ks key).
  destruct (read_clash ks key); simpl; [done|]. rewrite IH.
  change (read_clash (MkKeys _ _ _ _)) with (read_clash ks). destruct (existsb _ _); [done|].
  unfold with_reads, keys_bytes. csimpl. by rewrite <- app_assoc.
Qed.

Lemma visit_writes_eq keys : forall ks, try_fold visit_read_write keys ks =
  if existsb (write_clash ks) keys then Err (Return TxOrderingInvalid) else Ok (with_writes keys ks).
Proof.
  induction keys as [|key keys IH]; intros ks; simpl.
  { unfold with_writes. destruct ks. simpl. by rewrite app_nil_r. }
  unfold visit_read_write at 1, reject_if. fold (write_clash ks key).
  destruct (write_clash ks key); simpl; [done|]. rewrite IH.
  change (write_clash (MkKeys _ _ _ _)) with (write_clash ks). destruct (existsb _ _); [done|].
  unfold with_writes, keys_bytes. csimpl. by rewrite <- app_assoc.
Qed.

Definition tx_clash (ks : footprint_keys) (env : TransactionEnvelope) : bool :=
  existsb (read_clash ks) (env_reads env) || existsb (write_clash ks) (env_writes env).

Definition with_tx (env : TransactionEnvelope) (ks : footprint_keys) : footprint_keys :=
  with_writes (env_writes env) (with_reads (env_reads env) ks).

Lemma visit_tx_eq ks env : visit_tx ks env =
  if tx_clash ks env then Err (Return TxOrderingInvalid) else Ok (with_tx env ks).
Proof.
  unfold visit_tx, envelope_soroban_resources, tx_clash, with_tx, env_reads, env_writes, tx_reads, tx_writes. simpl.
  destruct (envelope_soroban_data env) as [data|]; simpl.
  - rewrite visit_reads_eq. destruct (existsb (read_clash ks) _); simpl; [done|]. rewrite visit_writes_eq.
    change (write_clash (with_reads _ ks)) with (write_clash ks). done.
  - unfold with_writes, with_reads. destruct ks. simpl. by rewrite !app_nil_r.
Qed.

(** ** One cluster *)

Lemma visit_txs_eq c : forall ks, try_fold visit_tx c ks =
  if existsb (tx_clash ks) c then Err (Return TxOrderingInvalid)
  else Ok (with_writes (cluster_writes c) (with_reads (cluster_reads c) ks)).
Proof.
  induction c as [|env c IH]; intros ks; simpl.
  { unfold with_writes, with_reads. destruct ks. simpl. by rewrite !app_nil_r. }
  rewrite visit_tx_eq. destruct (tx_clash ks env); simpl; [done|]. rewrite IH.
  change (tx_clash (with_tx env ks)) with (tx_clash ks). destruct (existsb _ _); [done|].
  unfold with_tx, with_writes, with_reads, keys_bytes, cluster_reads, cluster_writes. csimpl.
  by rewrite !fmap_app, <- !app_assoc.
Qed.

Definition cluster_visited (c : list TransactionEnvelope) (ks : footprint_keys) : footprint_keys :=
  MkKeys (stage_read_only_keys ks ∪ list_to_set (keys_bytes (cluster_reads c)))
    (stage_read_write_keys ks ∪ list_to_set (keys_bytes (cluster_writes c))) [] [].

Lemma visit_cluster_eq ks c : visit_cluster ks c =
  if existsb (tx_clash ks) c then Err (Return TxOrderingInvalid) else Ok (cluster_visited c ks).
Proof.
  unfold visit_cluster. rewrite visit_txs_eq. change (tx_clash (MkKeys _ _ [] [])) with (tx_clash ks).
  by destruct (existsb _ _).
Qed.

(** ** A stage *)

(** The keys of the clusters [pre] already visited. *)
Definition keys_of (pre : list (list TransactionEnvelope)) (ks : footprint_keys) : Prop :=
  (forall kb, kb ∈ stage_read_only_keys ks <-> exists c, c ∈ pre /\ kb ∈ keys_bytes (cluster_reads c)) /\
  (forall kb, kb ∈ stage_read_write_keys ks <-> exists c, c ∈ pre /\ kb ∈ keys_bytes (cluster_writes c)).

Lemma keys_of_snoc pre ks c : keys_of pre ks -> keys_of (pre ++ [c]) (cluster_visited c ks).
Proof.
  intros [Hr Hw]. split; intros kb; simpl; rewrite elem_of_union, elem_of_list_to_set; [rewrite Hr|rewrite Hw].
  all: split.
  1,3: intros [(d & Hd & Hk)|Hk]; [exists d|exists c]; rewrite elem_of_app, list_elem_of_singleton; auto.
  all: intros (d & [Hd| ->%list_elem_of_singleton]%elem_of_app & Hk); [left; by exists d|by right].
Qed.

Lemma elem_of_cluster_reads c k : k ∈ cluster_reads c <-> exists e, e ∈ c /\ k ∈ env_reads e.
Proof.
  unfold cluster_reads. rewrite elem_of_concat. split.
  - intros (l & Hl & Hk). apply list_elem_of_fmap in Hl as (e & -> & He). by exists e.
  - intros (e & He & Hk). exists (env_reads e). split; [|done]. apply list_elem_of_fmap. by exists e.
Qed.

Lemma elem_of_cluster_writes c k : k ∈ cluster_writes c <-> exists e, e ∈ c /\ k ∈ env_writes e.
Proof.
  unfold cluster_writes. rewrite elem_of_concat. split.
  - intros (l & Hl & Hk). apply list_elem_of_fmap in Hl as (e & -> & He). by exists e.
  - intros (e & He & Hk). exists (env_writes e). split; [|done]. apply list_elem_of_fmap. by exists e.
Qed.

Lemma elem_of_keys_bytes keys k : ledger_key_bytes k ∈ keys_bytes keys <-> k ∈ keys.
Proof.
  unfold keys_bytes. rewrite list_elem_of_fmap. split.
  - intros (k' & E & Hk). by apply (inj ledger_key_bytes) in E as ->.
  - intros Hk. by exists k.
Qed.

(** A clash with the keys seen so far is a conflict with an earlier cluster. *)
Lemma tx_clash_spec pre ks e : keys_of pre ks ->
  tx_clash ks e = true <-> exists d f, d ∈ pre /\ f ∈ d /\ env_conflict f e.
Proof.
  intros [Hr Hw]. unfold tx_clash, read_clash, write_clash. rewrite orb_true_iff, !existsb_exists.
  assert (forall k, ledger_key_bytes k ∈ stage_read_only_keys ks <-> exists d f, d ∈ pre /\ f ∈ d /\ k ∈ env_reads f) as Hr'.
  { intros k. rewrite Hr. split.
    - intros (d & Hd & Hk). apply elem_of_keys_bytes, elem_of_cluster_reads in Hk as (f & Hf & Hk). by exists d, f.
    - intros (d & f & Hd & Hf & Hk). exists d. split; [done|]. apply elem_of_keys_bytes, elem_of_cluster_reads. by exists f. }
  assert (forall k, ledger_key_bytes k ∈ stage_read_write_keys ks <-> exists d f, d ∈ pre /\ f ∈ d /\ k ∈ env_writes f) as Hw'.
  { intros k. rewrite Hw. split.
    - intros (d & Hd & Hk). apply elem_of_keys_bytes, elem_of_cluster_writes in Hk as (f & Hf & Hk). by exists d, f.
    - intros (d & f & Hd & Hf & Hk). exists d. split; [done|]. apply elem_of_keys_bytes, elem_of_cluster_writes. by exists f. }
  split.
  - intros [(k & Hk%list_elem_of_In & Hc)|(k & Hk%list_elem_of_In & Hc)].
    + apply bool_decide_eq_true, Hw' in Hc as (d & f & Hd & Hf & Hkf). exists d, f. split; [done|]. split; [done|].
      exists k. tauto.
    + rewrite orb_true_iff, !bool_decide_eq_true in Hc. destruct Hc as [Hc|Hc].
      * apply Hr' in Hc as (d & f & Hd & Hf & Hkf). exists d, f. split; [done|]. split; [done|]. exists k. tauto.
      * apply Hw' in Hc as (d & f & Hd & Hf & Hkf). exists d, f. split; [done|]. split; [done|]. exists k. tauto.
  - intros (d & f & Hd & Hf & k & [[Hkf Hke]|[[Hkf Hke]|[Hkf Hke]]]).
    + right. exists k. split; [by apply list_elem_of_In|]. rewrite orb_true_iff, !bool_decide_eq_true. right.
      apply Hw'. by exists d, f.
    + right. exists k. split; [by apply list_elem_of_In|]. rewrite orb_true_iff, !bool_decide_eq_true. left.
      apply Hr'. by exists d, f.
    + left. exists k. split; [by apply list_elem_of_In|]. rewrite bool_decide_eq_true. apply Hw'. by exists d, f.
Qed.

Lemma cluster_clash_spec pre ks c : keys_of pre ks ->
  existsb (tx_clash ks) c = false <-> forall d, d ∈ pre -> envs_independent d c.
Proof.
  intros Hk. rewrite <- not_true_iff_false, existsb_exists. split.
  - intros Hno d Hd f e Hf He Hc. apply Hno. exists e. split; [by apply list_elem_of_In|].
    apply (tx_clash_spec pre); [done|]. by exists d, f.
  - intros Hi (e & He%list_elem_of_In & Hc). apply (tx_clash_spec pre) in Hc as (d & f & Hd & Hf & Hc); [|done].
    by apply (Hi d Hd f e).
Qed.

Lemma visit_stage_spec stage : forall pre ks, keys_of pre ks ->
  (exists ks', try_fold visit_cluster stage ks = Ok ks' /\
     (forall d c, d ∈ pre -> c ∈ stage -> envs_independent d c) /\ StronglySorted envs_independent stage) \/
  (try_fold visit_cluster stage ks = Err (Return TxOrderingInvalid) /\
     ~ ((forall d c, d ∈ pre -> c ∈ stage -> envs_independent d c) /\ StronglySorted envs_independent stage)).
Proof.
  induction stage as [|c stage IH]; intros pre ks Hk; simpl.
  { left. exists ks. split; [done|]. split; [|constructor]. intros d c _ Hc. by apply elem_of_nil in Hc. }
  rewrite visit_cluster_eq. destruct (existsb (tx_clash ks) c) eqn:Ec.
  - right. split; [done|]. intros [Hpre _]. assert (existsb (tx_clash ks) c = false); [|congruence].
    apply (cluster_clash_spec pre); [done|]. intros d Hd. apply Hpre; [done|left].
  - pose proof (proj1 (cluster_clash_spec pre ks c Hk) Ec) as Hc.
    destruct (IH (pre ++ [c]) (cluster_visited c ks)) as [(ks' & E & Hpre & Hs)|[E Hno]]; [by apply keys_of_snoc| |].
    + left. exists ks'. split; [done|]. split.
      * intros d c' Hd [-> | Hc']%elem_of_cons; [by apply Hc|]. apply Hpre; [|done]. apply elem_of_app. by left.
      * constructor; [done|]. apply Forall_forall. intros c' Hc'. apply Hpre; [|done]. apply elem_of_app. right. left.
    + right. split; [done|]. intros [Hpre Hs]. apply Hno. apply StronglySorted_inv in Hs as [Hs Hall]. split; [|done].
      intros d c' [Hd| ->%list_elem_of_singleton]%elem_of_app Hc'; [apply Hpre; [done|by right]|].
      rewrite Forall_forall in Hall. by apply Hall.
Qed.

(** The check of a stage. *)
Lemma check_stage_spec stage :
  (check_stage_footprint_conflicts tt stage = Ok tt /\ StronglySorted envs_independent stage) \/
  (check_stage_footprint_conflicts tt stage = Err (Return TxOrderingInvalid) /\ ~ StronglySorted envs_independent stage).
Proof.
  unfold check_stage_footprint_conflicts.
  destruct (visit_stage_spec stage [] (MkKeys ∅ ∅ [] [])) as [(ks & -> & _ & Hs)|[-> Hno]].
  - split; intros kb; simpl; (split; [by intros ?%elem_of_empty|intros (c & Hc & _); by apply elem_of_nil in Hc]).
  - by left.
  - right. split; [done|]. intros Hs. apply Hno. split; [|done]. intros d c Hd. by apply elem_of_nil in Hd.
Qed.

(** ** Instructions *)

Lemma add_cluster_tx_ok acc c limit : (forall t, t ∈ c -> 0 <= envelope_instructions (envelope t)) -> 0 <= acc ->
  acc + cluster_cost c <= limit -> limit <= i64_max -> try_fold add_cluster_tx (envelope <$> c) acc = Ok (acc + cluster_cost c).
Proof.
  intros Hpos. revert acc. induction c as [|t c IH]; intros acc Hacc Hle Hlim.
  { simpl. unfold cluster_cost. simpl. f_equal. lia. }
  assert (0 <= envelope_instructions (envelope t)) as Ht by (apply Hpos; left).
  assert (0 <= cluster_cost c) as Hc.
  { clear -Hpos. induction c as [|u c IH]; [done|]. unfold cluster_cost in *. simpl.
    assert (0 <= envelope_instructions (envelope u)) by (apply Hpos; right; left).
    assert (0 <= zsum (fun t => envelope_instructions (envelope t)) c); [|lia].
    apply IH. intros v Hv. apply Hpos. apply elem_of_cons in Hv as [->|Hv]; [left|right; by right]. }
  unfold cluster_cost in Hle |- *. simpl in Hle |- *. fold (cluster_cost c) in Hle |- *.
  assert (add_cluster_tx acc (envelope t) = Ok (acc + envelope_instructions (envelope t))) as ->.
  { unfold add_cluster_tx, envelope_instructions, envelope_soroban_resources in *.
    destruct (envelope_soroban_data (envelope t)) as [d|]; simpl in *; [|f_equal; lia].
    unfold checked_add_cluster_instructions, reject_if. destruct (Z.ltb_spec (i64_max - instructions (resources d)) acc); [lia|].
    done. }
  rewrite IH; [f_equal; lia|intros u Hu; apply Hpos; by right|lia|lia|done].
Qed.

Lemma stage_max_ok acc s cost : (forall c t, c ∈ s -> t ∈ c -> 0 <= envelope_instructions (envelope t)) ->
  (forall c, c ∈ s -> cluster_cost c <= cost) -> 0 <= acc <= cost -> cost <= i64_max ->
  exists m, try_fold stage_max (fmap (M:=list) envelope <$> s) acc = Ok m /\ 0 <= m <= cost.
Proof.
  intros Hpos Hcost. revert acc. induction s as [|c s IH]; intros acc Hacc Hlim; [by exists acc|].
  csimpl. unfold stage_max at 1. rewrite (add_cluster_tx_ok 0 c cost); [|intros t Ht; apply (Hpos c t); [left|done]|done| |done].
  2:{ specialize (Hcost c ltac:(left)). lia. }
  simpl. specialize (Hcost c ltac:(left)) as Hc.
  destruct (IH) with (acc := Z.max acc (cluster_cost c)) as (m & E & Hm).
  - intros d t Hd. apply Hpos. by right.
  - intros d Hd. apply Hcost. by right.
  - lia.
  - done.
  - exists m. split; [exact E|done].
Qed.

Lemma add_stages_ok ss cost : (forall t, t ∈ concat (concat ss) -> 0 <= envelope_instructions (envelope t)) ->
  (forall s c, s ∈ ss -> c ∈ s -> cluster_cost c <= cost) -> 0 <= cost <= i64_max -> forall acc,
  0 <= acc -> acc + cost * len ss <= i64_max ->
  exists total, try_fold add_stage (envelopes ss) acc = Ok total /\ total <= acc + cost * len ss.
Proof.
  intros Hpos Hcost Hlim. induction ss as [|s ss IH]; intros acc Hacc Hle.
  { exists acc. split; [done|]. unfold len. simpl. lia. }
  rewrite len_cons in Hle |- *. pose proof (len_nonneg ss). unfold envelopes. csimpl. fold (envelopes ss).
  unfold add_stage at 1.
  destruct (stage_max_ok 0 s cost) as (m & -> & Hm); [| |lia|lia|].
  { intros c t Hc Ht. apply Hpos. apply (cluster_of_schedule _ s c); [left|done|done]. }
  { intros c Hc. apply (Hcost s); [left|done]. }
  simpl. unfold checked_add_sequential_instructions, reject_if.
  destruct (Z.ltb_spec (i64_max - m) acc); [nia|]. simpl.
  destruct (IH) with (acc := acc + m) as (total & E & Ht).
  - intros t Ht. apply Hpos. simpl. rewrite concat_app. apply elem_of_app. by right.
  - intros s' c Hs'. apply Hcost. by right.
  - lia.
  - nia.
  - exists total. split; [exact E|]. nia.
Qed.

(** ** The parallel checks accept what keeps the limits *)

Lemma independent_envelopes s : StronglySorted clusters_independent s -> StronglySorted envs_independent (fmap (M:=list) envelope <$> s).
Proof.
  induction 1 as [|c s Hs IH Hc]; csimpl; constructor; [done|]. apply Forall_forall.
  intros d Hd. apply list_elem_of_fmap in Hd as (d0 & -> & Hd0). rewrite Forall_forall in Hc. specialize (Hc d0 Hd0).
  intros e f He Hf Hconf. apply list_elem_of_fmap in He as (t & -> & Ht). apply list_elem_of_fmap in Hf as (u & -> & Hu).
  by apply (Hc t u Ht Hu).
Qed.

Lemma parallel_limits_ok info fee ss : schedule_ok (ledger_max_instructions info) (ledger_max_dependent_tx_clusters info) ss ->
  (forall t, t ∈ concat (concat ss) -> 0 <= envelope_instructions (envelope t)) ->
  ledger_max_instructions info <= i64_max -> ledger_max_dependent_tx_clusters info <= u32_max ->
  check_parallel_limits info (MkParallel fee (envelopes ss)) = Ok tt.
Proof.
  intros [Hst Hcl (cost & Hc0 & Hclen & Hcost) Hind] Hpos Hmax Hmc. unfold check_parallel_limits. simpl.
  rewrite try_fold_unit.
  2:{ intros s Hs. apply list_elem_of_fmap in Hs as (s0 & -> & Hs0). destruct (Hst s0 Hs0) as [_ Hle].
      unfold check_cluster_count, reject_if. rewrite len_fmap. unfold as_u32. rewrite Z.mod_small.
      - by destruct (Z.ltb_spec (ledger_max_dependent_tx_clusters info) (len s0)); [lia|].
      - pose proof (len_nonneg s0). unfold u32_max in Hmc. lia. }
  simpl. pose proof (len_nonneg ss) as Hlen.
  assert (exists total, try_fold add_stage (envelopes ss) 0 = Ok total /\ total <= ledger_max_instructions info) as (total & -> & Ht).
  { destruct ss as [|s ss]; [exists 0; split; [done|]; unfold len in Hclen; simpl in Hclen; lia|].
    assert (cost <= i64_max) as Hci by (rewrite len_cons in Hclen; pose proof (len_nonneg ss); nia).
    destruct (add_stages_ok (s :: ss) cost Hpos Hcost) with (acc := 0) as (total & E & Ht); [lia|lia|lia|].
    exists total. split; [exact E|lia]. }
  simpl. unfold reject_if. destruct (Z.ltb_spec (ledger_max_instructions info) total); [lia|]. simpl.
  apply try_fold_unit. intros s Hs. apply list_elem_of_fmap in Hs as (s0 & -> & Hs0).
  destruct (check_stage_spec (fmap (M:=list) envelope <$> s0)) as [[-> _]|[_ Hno]]; [done|].
  exfalso. by apply Hno, independent_envelopes, Hind.
Qed.
End footprints.
