(* ===== verification/TxSetSafety.v ===== *)
(** * TxSetSafety: properties of the transaction sets a node proposes

    What the builder chooses is a schedule within the limits of the ledger; in its
    canonical form it passes every check of a received set. *)

From S2P Require Import Prelude Bucket Ledger Lists BitSet Resource Envelope TxSetBuilder TxSetConflicts TxSetStage TxSetAdd TxSetBuild FeeThreshold TxSetCheck TxSetPhase TxSetXdr TxSetTotals.

Section helpers.
Context `{EnvelopeXdr} `{HashIteration}.

(** ** Parts of a set *)

Lemma check_sources_ok l : forall seen, (forall e, e ∈ l -> source_account_ed25519 e ∉ seen) -> NoDup (source_account_ed25519 <$> l) ->
  exists seen', try_fold check_source l seen = Ok seen'.
Proof.
  induction l as [|e l IH]; intros seen Hout Hnd; [by exists seen|]. csimpl. apply NoDup_cons in Hnd as [He Hnd].
  unfold check_source at 1. rewrite bool_decide_false by (apply Hout; left). simpl. apply IH; [|done].
  intros f Hf. rewrite elem_of_union, elem_of_singleton. intros [E|Hin]; [|by apply (Hout f); [right|]].
  apply He. apply list_elem_of_fmap. by exists f.
Qed.

Lemma check_sources_nodup l : forall seen seen', try_fold check_source l seen = Ok seen' ->
  (forall e, e ∈ l -> source_account_ed25519 e ∉ seen) /\ NoDup (source_account_ed25519 <$> l).
Proof.
  induction l as [|e l IH]; intros seen seen' E; [split; [by intros ? ?%elem_of_nil|constructor]|]. simpl in E.
  unfold check_source in E at 1. destruct (decide (source_account_ed25519 e ∈ seen)) as [Hin|Hout].
  { by rewrite bool_decide_true in E. }
  rewrite bool_decide_false in E by done. simpl in E. apply IH in E as [Hl Hnd]. split.
  - intros f [->|Hf]%elem_of_cons; [done|]. specialize (Hl f Hf). set_solver.
  - csimpl. apply NoDup_cons. split; [|done]. intros (f & E & Hf)%list_elem_of_fmap. specialize (Hl f Hf). set_solver.
Qed.

Lemma no_duplicates_iff l : check_no_duplicate_source_accounts l = Ok tt <-> NoDup (source_account_ed25519 <$> l).
Proof.
  unfold check_no_duplicate_source_accounts. split.
  - destruct (try_fold check_source l ∅) as [seen|e] eqn:E; [|done]. intros _. by apply check_sources_nodup in E as [_ ?].
  - intros Hnd. destruct (check_sources_ok l ∅) as (seen & ->); [set_solver|done|done].
Qed.

Lemma fee_component_part fee txs txs' lcl : txs' ⊆+ txs -> validate_fee_component fee txs lcl = Valid ->
  validate_fee_component fee txs' lcl = Valid.
Proof.
  intros Hs. unfold validate_fee_component. destruct fee as [f|]; [|done]. destruct (f <? lcl); [done|].
  destruct (existsb _ txs) eqn:E; [done|]. intros _.
  assert (existsb (fun tx => envelope_inclusion_fee tx <? get_min_inclusion_fee tx lcl f) txs' = false) as ->; [|done].
  rewrite <- not_true_iff_false, existsb_exists in E |- *. intros (t & Ht & Hlt). apply E. exists t. split; [|done].
  apply list_elem_of_In. apply list_elem_of_In in Ht. by apply (elem_of_submseteq txs').
Qed.

(** ** Empty clusters and stages are stripped alike *)

Lemma filter_nonempty_perm {A} (s s1 : list (list A)) : Forall2 (≡ₚ) s s1 ->
  Forall2 (≡ₚ) (filter (fun c => c <> []) s) (filter (fun c => c <> []) s1).
Proof.
  induction 1 as [|c c' s s1 Hc _ IH]; [constructor|]. rewrite !filter_cons.
  destruct (decide (c <> [])) as [Hne|He].
  - rewrite decide_True; [by constructor|]. by apply (nil_perm_ne c).
  - rewrite decide_False; [done|]. intros Hne. apply He. by apply (nil_perm_ne c').
Qed.

Lemma same_stage_filter {A} (s s' : list (list A)) : same_stage s s' ->
  same_stage (filter (fun c => c <> []) s) (filter (fun c => c <> []) s').
Proof. intros (s1 & Hf & Hp). exists (filter (fun c => c <> []) s1). split; [by apply filter_nonempty_perm|by rewrite Hp]. Qed.

Lemma same_stage_ne {A} (s s' : list (list A)) : same_stage s s' -> s <> [] <-> s' <> [].
Proof. intros Hs%same_stage_len. split; intros; [by apply (len_pos_ne s)|by apply (len_pos_ne s')]. Qed.

Lemma canonicalize_same {A} (ss ss' : list (list (list A))) : same_schedule ss ss' ->
  same_schedule (canonicalize_stages ss) (canonicalize_stages ss').
Proof.
  intros (ss1 & Hf & Hp). exists (canonicalize_stages ss1). unfold canonicalize_stages. split; [|by rewrite Hp].
  clear Hp. induction Hf as [|s s' ss ss1 Hs _ IH]; [constructor|]. csimpl. rewrite !filter_cons.
  pose proof (same_stage_filter _ _ Hs) as Hfs. pose proof (same_stage_ne _ _ Hfs) as Hne.
  destruct (decide (filter (fun c => c <> []) s <> [])).
  - rewrite decide_True by by apply Hne. by constructor.
  - rewrite decide_False; [done|]. by rewrite <- Hne.
Qed.

Lemma concat_canonicalize {A} (ss : list (list (list A))) : concat (concat (canonicalize_stages ss)) = concat (concat ss).
Proof.
  unfold canonicalize_stages. rewrite concat_filter_nonempty. induction ss as [|s ss IH]; csimpl; [done|].
  by rewrite !concat_app, concat_filter_nonempty, IH.
Qed.

(** The phase made of any stages. *)
Lemma xdr_phase_cases ss fee : len (concat (concat ss)) <= u32_max ->
  (canonicalize_stages ss = [] /\ stages_to_xdr_phase ss fee = Ok (PhaseV1 (MkParallel None []))) \/
  (canonicalize_stages ss <> [] /\
   stages_to_xdr_phase ss fee = Ok (PhaseV1 (MkParallel fee (envelopes (sorted_stages (canonicalize_stages ss)))))).
Proof.
  intros Hlen. destruct (decide (canonicalize_stages ss = [])) as [He|Hne].
  - left. split; [done|]. unfold stages_to_xdr_phase. by rewrite He.
  - right. split; [done|]. pose proof (canonicalize_inhabited ss) as Hin.
    rewrite <- (stages_to_xdr_phase_ok (canonicalize_stages ss) fee); [|done|done|by rewrite concat_canonicalize].
    unfold stages_to_xdr_phase. by rewrite (canonicalize_id (canonicalize_stages ss)).
Qed.
(** ** The phase of a schedule *)

Lemma phase_of_schedule ss fee : inhabited ss -> len (concat (concat ss)) <= u32_max ->
  exists fee', (fee' = fee \/ fee' = None) /\ stages_to_xdr_phase ss fee = Ok (PhaseV1 (MkParallel fee' (envelopes (sorted_stages ss)))).
Proof.
  intros Hin Hlen. pose proof (xdr_phase_cases ss fee Hlen) as Hx. rewrite (canonicalize_id ss Hin) in Hx.
  destruct Hx as [[-> E]|[_ E]]; [exists None|exists fee]; auto.
Qed.

Lemma built_schedule txs info mn mx : Forall tx_ok txs -> 0 <= ledger_max_instructions info <= i64_max ->
  0 < ledger_max_dependent_tx_clusters info -> 0 <= mn <= mx ->
  ledger_max_instructions info * ledger_max_dependent_tx_clusters info <= u64_max ->
  exists stages dropped,
    build_parallel_soroban_phase txs (ledger_max_instructions info) (ledger_max_dependent_tx_clusters info) mn mx = Ok (stages, dropped) /\
    schedule_ok (ledger_max_instructions info) (ledger_max_dependent_tx_clusters info) stages /\
    concat (concat stages) ⊆+ txs /\ (dropped = false -> concat (concat stages) ≡ₚ txs).
Proof.
  intros Hok Hmax Hmc Hst Hmul. destruct (decide (txs = [])) as [->|Hne].
  - exists [], false. split; [done|]. split; [|done]. split; try (intros ? Hs; by apply elem_of_nil in Hs).
    + intros ? ? Hs. by apply elem_of_nil in Hs.
    + exists 0. split; [done|]. split; [lia|]. intros ? ? Hs. by apply elem_of_nil in Hs.
  - destruct (build_parallel_ok txs (ledger_max_instructions info) (ledger_max_dependent_tx_clusters info) mn mx)
      as (sc & ids & f & stages & dropped & E & _ & _ & _ & Hs & Hsub & Hd & _); [done..|].
    exists stages, dropped. split; [done|]. split; [done|]. split; [done|]. apply Hd.
Qed.

(** What the transactions of a phase, and of the canonical form of its schedule, are. *)
Lemma collect_sorted ss fee : collect_phase_txs (PhaseV1 (MkParallel fee (envelopes (sorted_stages ss)))) ≡ₚ envelope <$> concat (concat ss).
Proof. simpl. rewrite concat_envelopes. by rewrite <- (same_schedule_concat _ _ (sorted_stages_same ss)). Qed.

Lemma prepared_ok classic hash ss fee : inhabited ss -> all_hashed ss -> fee_ok fee ->
  (forall t, t ∈ concat (concat ss) -> wire_soroban (envelope t)) ->
  validate_sequential_phase_xdr_structure classic = Ok tt -> validate_phase_txs tt (0%nat, PhaseV0 classic) = Ok tt ->
  NoDup (source_account_ed25519 <$> concat (comp_txs <$> classic) ++ (envelope <$> concat (concat ss))) ->
  prepare_generalized_for_apply (MkTxSet hash [PhaseV0 classic; PhaseV1 (MkParallel fee (envelopes (sorted_stages ss)))]) =
    Ok (MkTxSet hash [PhaseV0 classic; PhaseV1 (MkParallel fee (envelopes (sorted_stages ss)))]).
Proof.
  intros Hin Hh Hfee Hw Hc Hct Hnd. unfold prepare_generalized_for_apply, validate_generalized_tx_set_xdr_structure.
  simpl phases. change (enumerate _) with [(0%nat, PhaseV0 classic); (1%nat, PhaseV1 (MkParallel fee (envelopes (sorted_stages ss))))].
  rewrite (try_fold_unit check_phase_structure).
  2:{ intros x [-> | ->%list_elem_of_singleton]%elem_of_cons; [done|]. unfold check_phase_structure. simpl.
      by apply parallel_component_ok. }
  cbn [result_bind ensure length Nat.eqb]. rewrite (try_fold_unit validate_phase_txs).
  2:{ intros x [-> | ->%list_elem_of_singleton]%elem_of_cons; [done|]. by apply phase_txs_ok. }
  pose proof (no_duplicates_iff (concat (comp_txs <$> classic) ++ concat (concat (envelopes (sorted_stages ss))))) as [_ Hd].
  unfold extract_transactions_from_generalized. simpl. rewrite app_nil_r, Hd; [done|].
  pose proof (collect_sorted ss fee) as Hcs. simpl in Hcs. by rewrite Hcs.
Qed.

Lemma soroban_valid ss fee protocol info empty total txs :
  schedule_ok (ledger_max_instructions info) (ledger_max_dependent_tx_clusters info) ss -> concat (concat ss) ⊆+ txs ->
  (forall t, t ∈ txs -> soroban_usage (envelope t)) -> Forall tx_ok txs -> make_empty_soroban = Ok empty ->
  try_fold (add_resources protocol) (envelope <$> txs) empty = Ok total -> check_totals info true total = Ok tt ->
  protocol_version_starts_from protocol V23 = true ->
  ledger_max_instructions info <= i64_max -> ledger_max_dependent_tx_clusters info <= u32_max ->
  check_valid_soroban (PhaseV1 (MkParallel fee (envelopes (sorted_stages ss)))) protocol info = Ok Valid.
Proof.
  intros Hs Hsub Hu Hok Hempty Htot Hlim Hv Hmax Hmc. unfold check_valid_soroban, soroban_checks. rewrite Hv, Hempty. simpl.
  injection Hempty as <-. destruct total as [total].
  destruct (fits_submseteq protocol (envelope <$> txs) (concat (concat (envelopes (sorted_stages ss)))))
    with (l := [0; 0; 0; 0; 0; 0; 0]) (l' := [0; 0; 0; 0; 0; 0; 0]) (total := total) as (total' & Ht & Hb).
  - pose proof (collect_sorted ss fee) as Hcs. simpl in Hcs. rewrite Hcs. by apply fmap_submseteq_of.
  - intros e He. apply list_elem_of_fmap in He as (t & -> & Htin). by apply Hu.
  - done.
  - by repeat constructor.
  - exact Htot.
  - unfold fits_from in Ht. rewrite Ht. simpl. unfold is_parallel_phase.
    assert (length total = 7%nat) as Hlt.
    { apply (fits_length protocol (envelope <$> txs) [0; 0; 0; 0; 0; 0; 0] total); [|done|exact Htot].
      intros e He. apply list_elem_of_fmap in He as (t & -> & Htin). by apply Hu. }
    rewrite (check_totals_below info total total') by done. simpl. rewrite parallel_limits_ok; [done| | |done|done].
    + by apply (schedule_ok_same _ _ ss), Hs; apply sorted_stages_same.
    + intros t Htin. rewrite <- (same_schedule_concat _ _ (sorted_stages_same ss)) in Htin.
      apply (elem_of_submseteq _ _ _ Htin) in Hsub. apply list_elem_of_lookup in Hsub as [i Hi].
      destruct (Forall_lookup_1 _ _ _ _ Hok Hi) as [Hi2 _]. apply Hi2.
Qed.
End helpers.

Section properties.
Context `{EnvelopeXdr} `{HashIteration}.

(** ** Conflicts *)

(** Two transactions conflict when one writes a key the other reads or writes. The
    conflict sets of the builder hold exactly these pairs, whatever order the hash map
    of keys is visited in; they are symmetric. *)
Theorem conflicts_detected_exactly txs i j (Hne : i <> j) :
  (conflict_bit (detect_conflicts txs) i j = true <->
     exists t u, txs !! i = Some t /\ txs !! j = Some u /\ txs_conflict t u) /\
  conflict_bit (detect_conflicts txs) i j = conflict_bit (detect_conflicts txs) j i.
Proof. split; [by apply detect_conflicts_spec|by apply detect_conflicts_sym]. Qed.

(** C19: The walk through a received stage with the sets of keys seen so far accepts
    the stages whose clusters do not conflict, and rejects all others as wrongly
    ordered; it never panics. *)
Theorem footprint_check_exact stage :
  (check_stage_footprint_conflicts tt stage = Ok tt <-> StronglySorted envs_independent stage) /\
  (check_stage_footprint_conflicts tt stage = Err (Return TxOrderingInvalid) <-> ~ StronglySorted envs_independent stage).
Proof. destruct (check_stage_spec stage) as [[-> Hs]|[-> Hs]]; split; split; try done; intros Hc; by destruct (Hc Hs). Qed.

(** ** The builder *)

(** For every number of stages the greedy pass ends without a panic. Every
    transaction is put into at most one place; there are no more stages than asked
    for and no more clusters in a stage than there are threads, none of them empty;
    the instructions of a thread stay within its share of the ledger's; and no two
    threads of a stage conflict. The reported fee is the saturated sum of the
    inclusion fees of what was placed. *)
Theorem greedy_partition_correct txs max_instructions max_clusters stage_count
    (Hok : Forall tx_ok txs) (Hmax : 0 <= max_instructions <= i64_max) (Hmc : 0 <= max_clusters) (Hsc : 0 <= stage_count)
    (Hmul : per_cluster max_instructions stage_count * max_clusters <= u64_max) :
  exists stages fee, build_with_stage_count txs max_instructions max_clusters stage_count = Ok (stages, fee) /\
    partition_ok txs max_instructions max_clusters stage_count stages /\
    fee = Z.min i64_max (zsum (fee_of txs) (concat (concat stages))).
Proof. by apply build_with_stage_count_ok. Qed.

(** Putting one more transaction into a stage keeps the invariant of the stage: the
    clusters partition the transactions it holds, no two clusters conflict, the bins
    hold each cluster once within the limits, and the total is that of the clusters. A
    transaction that is refused leaves all this as it is. It never panics. *)
Theorem try_add_keeps_stage txs ids s tx (Hok : Forall tx_ok txs) (Hs : stage_ok (instr_of txs) (confl_of txs) ids s)
    (Htx : good_tx (instr_of txs) (confl_of txs) tx) (Hnew : id tx ∉ ids) :
  exists added s', try_add tx s = Ok (added, s') /\ config s' = config s /\
    stage_ok (instr_of txs) (confl_of txs) (if added : bool then id tx :: ids else ids) s'.
Proof.
  apply try_add_ok; [intros i; by apply instr_of_nonneg|intros i j; apply detect_conflicts_sym|done|done|done].
Qed.

(** C17: The pass over all numbers of stages never panics. It keeps the stages of one of
    them: each transaction of the input at most once, within the limits of the ledger
    and without conflicts between the threads of a stage; it says that something was
    dropped exactly when not all transactions are there. No other number of stages
    collects noticeably more fees (at most one in 500 and one stroop more), and those
    with fewer stages collect less. *)
Theorem chosen_schedule_correct txs max_instructions max_clusters min_stages max_stages
    (Hok : Forall tx_ok txs) (Hne : txs <> []) (Hmax : 0 <= max_instructions <= i64_max) (Hmc : 0 < max_clusters)
    (Hst : 0 <= min_stages <= max_stages) (Hmul : max_instructions * max_clusters <= u64_max) :
  exists count ids fee stages dropped,
    build_parallel_soroban_phase txs max_instructions max_clusters min_stages max_stages = Ok (stages, dropped) /\
    min_stages <= count <= max_stages /\ build_with_stage_count txs max_instructions max_clusters count = Ok (ids, fee) /\
    Forall2 (Forall2 (Forall2 (tx_at txs))) ids stages /\ schedule_ok max_instructions max_clusters stages /\
    concat (concat stages) ⊆+ txs /\ (dropped = false <-> concat (concat stages) ≡ₚ txs) /\
    (forall count' ids' fee', min_stages <= count' <= max_stages ->
       build_with_stage_count txs max_instructions max_clusters count' = Ok (ids', fee') ->
       998 * fee' < 1000 * (fee + 1) /\ ((length ids' < length ids)%nat -> fee' < fee)).
Proof. by apply build_parallel_ok. Qed.


(** ** The XDR form *)

(** C18: Stages that differ in the order of stages, of clusters or of transactions have
    one XDR form, which exists and is in canonical order; it holds the same
    transactions. *)
Theorem xdr_form_canonical stages stages' fee (Hsame : same_schedule stages stages')
    (Hhash : all_hashed stages) (Hnd : NoDup (tx_hash <$> concat (concat stages)))
    (Hlen : len (concat (concat stages)) <= u32_max) (Hfee : fee_ok fee) :
  exists parallel, stages_to_xdr_phase stages fee = Ok (PhaseV1 parallel) /\ stages_to_xdr_phase stages' fee = Ok (PhaseV1 parallel) /\
    validate_parallel_component parallel = Ok tt /\
    concat (concat (execution_stages parallel)) ≡ₚ envelope <$> concat (concat stages).
Proof.
  pose proof (same_schedule_concat _ _ Hsame) as Hp. pose proof (canonicalize_same _ _ Hsame) as Hcan.
  destruct (xdr_phase_cases stages fee Hlen) as [[E ->]|[E ->]].
  - assert (canonicalize_stages stages' = []) as E'.
    { apply nil_length_inv. pose proof (same_schedule_len _ _ Hcan) as Hl. rewrite E in Hl. unfold len in Hl. simpl in Hl. lia. }
    exists (MkParallel None []). split; [done|]. split; [unfold stages_to_xdr_phase; by rewrite E'|]. split; [done|].
    by rewrite <- (concat_canonicalize stages), E.
  - assert (canonicalize_stages stages' <> []) as E' by (by apply (len_pos_ne (canonicalize_stages stages)); [apply same_schedule_len|]).
    destruct (xdr_phase_cases stages' fee) as [[? _]|[_ ->]]; [by rewrite <- (len_perm _ _ Hp)|done|].
    pose proof (canonicalize_inhabited stages) as Hin.
    rewrite <- (sorted_stages_canonical (canonicalize_stages stages) (canonicalize_stages stages')); [|done|done|by rewrite concat_canonicalize].
    eexists. split; [done|]. split; [done|]. split; [apply parallel_component_ok; [done| |done]|].
    + intros t. rewrite concat_canonicalize. apply Hhash.
    + simpl. rewrite concat_envelopes, <- (same_schedule_concat _ _ (sorted_stages_same _)), concat_canonicalize. done.
Qed.
(** ** What a node proposes it would accept *)

(** C4: Whatever is built from transactions that are well formed one by one, have distinct
    sources and whose totals are within the limits of the ledger, is accepted: with a
    classic phase that passes the structural checks, the set made of the canonical form
    of the chosen schedule is prepared for apply, and the Soroban phase passes the
    checks of resources, parallel limits and conflicts, and of fees when what was
    considered could pay. The phase holds what was chosen, and all of it unless the
    builder reports drops. *)
Theorem proposed_set_accepted txs classic hash fee lcl_base_fee protocol info empty total min_stages max_stages
    (Hok : Forall tx_ok txs) (Hhash : forall t, t ∈ txs -> hashed_ok t)
    (Hwire : forall t, t ∈ txs -> wire_soroban (envelope t) /\ usage_ok (envelope t))
    (Hclassic : validate_sequential_phase_xdr_structure classic = Ok tt)
    (Hctxs : validate_phase_txs tt (0%nat, PhaseV0 classic) = Ok tt)
    (Hsources : NoDup (source_account_ed25519 <$> concat (comp_txs <$> classic) ++ (envelope <$> txs)))
    (Hempty : make_empty_soroban = Ok empty)
    (Htotal : try_fold (add_resources protocol) (envelope <$> txs) empty = Ok total)
    (Hlimits : check_totals info true total = Ok tt)
    (Hpaid : validate_fee_component fee (envelope <$> txs) lcl_base_fee = Valid)
    (Hversion : protocol_version_starts_from protocol V23 = true)
    (Hmax : 0 <= ledger_max_instructions info <= i64_max) (Hmc : 0 < ledger_max_dependent_tx_clusters info <= u32_max)
    (Hmul : ledger_max_instructions info * ledger_max_dependent_tx_clusters info <= u64_max)
    (Hst : 0 <= min_stages <= max_stages) (Hlen : len txs <= u32_max) (Hfee : fee_ok fee) :
  exists stages dropped phase,
    build_parallel_soroban_phase txs (ledger_max_instructions info) (ledger_max_dependent_tx_clusters info) min_stages max_stages
      = Ok (stages, dropped) /\
    stages_to_xdr_phase stages fee = Ok phase /\
    prepare_generalized_for_apply (MkTxSet hash [PhaseV0 classic; phase]) = Ok (MkTxSet hash [PhaseV0 classic; phase]) /\
    check_valid_soroban phase protocol info = Ok Valid /\ check_fee_map phase lcl_base_fee = Valid /\
    collect_phase_txs phase ⊆+ envelope <$> txs /\ (dropped = false -> collect_phase_txs phase ≡ₚ envelope <$> txs).
Proof.
  destruct (built_schedule txs info min_stages max_stages) as (stages & dropped & E & Hs & Hsub & Hdrop); [done|done|lia|done|done|].
  assert (inhabited stages) as Hin by by apply (schedule_inhabited _ _ _ Hs).
  assert (forall t, t ∈ concat (concat stages) -> t ∈ txs) as Hsubset by (intros t Ht; by apply (elem_of_submseteq _ _ _ Ht)).
  destruct (phase_of_schedule stages fee Hin) as (fee' & Hfee' & Ex); [pose proof (submseteq_len _ _ Hsub); lia|].
  pose proof (collect_sorted stages fee') as Hcs.
  exists stages, dropped, (PhaseV1 (MkParallel fee' (envelopes (sorted_stages stages)))).
  split; [done|]. split; [done|]. split; [|split; [|split; [|split]]].
  - apply prepared_ok; [done| | | |done|done|].
    + intros t Ht. by apply Hhash, Hsubset.
    + by destruct Hfee' as [->| ->].
    + intros t Ht. by apply Hwire, Hsubset.
    + apply (NoDup_submseteq_down _ _ (fmap_submseteq_of _ _ _ (submseteq_app _ _ _ _ (reflexivity _) (fmap_submseteq_of envelope _ _ Hsub))) Hsources).
  - apply (soroban_valid stages fee' protocol info empty total txs); try done; [|lia|lia].
    intros t Ht. destruct (Hwire t Ht) as [[Hsor _] Hu]. done.
  - simpl in Hcs |- *. destruct Hfee' as [->| ->]; [|done]. apply (fee_component_part fee (envelope <$> txs)); [|done].
    rewrite Hcs. by apply fmap_submseteq_of.
  - rewrite Hcs. by apply fmap_submseteq_of.
  - intros Hd. rewrite Hcs. by rewrite (Hdrop Hd).
Qed.
End properties.

(** ** Witnesses

    Three transactions: the first writes a key the second reads, the third writes another. *)

Section witnesses.
#[local] Existing Instance demo_types.
#[local] Instance demo_envelopes : EnvelopeTypes := {| Uint256 := z_xdr |}.

Lemma demo_key_bytes_inj : Inj (=) (=) (fun k : LedgerKey => [Z.pos (encode k)]).
Proof. intros k k' E. injection E as E. by apply (inj encode). Qed.

#[local] Instance demo_xdr : EnvelopeXdr :=
  {| hash_xdr := fun env => [envelope_fee env; source_account_ed25519 env : Z]; xdr_encoded_len_u32 := fun _ => 200;
     ledger_key_bytes := fun k => [Z.pos (encode k)]; ledger_key_bytes_inj := demo_key_bytes_inj |}.
#[local] Instance demo_iteration : HashIteration :=
  {| iterate := fun _ _ _ _ m => map_to_list m; iterate_perm := fun _ _ _ _ _ => reflexivity _ |}.

Definition demo_soroban (source fee instructions : Z) (reads writes : list LedgerKey) : HashedTx :=
  HashedTx_new (Tx (MkTransaction (Ed25519 (source : Uint256)) fee 1 [MkOperation InvokeHostFunction (0 : Payload)]
    (TransactionExtV1 (MkSorobanData DataExtV0 (MkSorobanResources (MkFootprint reads writes) instructions 10 10) 50)) (0 : Payload)) (0 : Payload)).

Definition demo_code (h : Z) : LedgerKey := KeyContractCode (h : Hash).
Definition demo_txs : list HashedTx :=
  [demo_soroban 1 150 30 [] [demo_code 5]; demo_soroban 2 250 40 [demo_code 5] []; demo_soroban 3 350 20 [] [demo_code 6]].
Definition demo_info : SorobanNetworkInfo := MkSorobanInfo 80 40 1000 40 1000 2000 10 2.
Definition demo_classic : list TxSetComponent :=
  [MkComponent (Some 100) [Tx (MkTransaction (Ed25519 (9 : Uint256)) 100 1 [MkOperation Payment (0 : Payload)] TransactionExtV0 (0 : Payload)) (0 : Payload)]].

Lemma conflicts_detected_exactly_witness :
  (conflict_bit (detect_conflicts demo_txs) 0 1 = true <->
     exists t u, demo_txs !! 0%nat = Some t /\ demo_txs !! 1%nat = Some u /\ txs_conflict t u) /\
  conflict_bit (detect_conflicts demo_txs) 0 1 = conflict_bit (detect_conflicts demo_txs) 1 0.
Proof. apply (conflicts_detected_exactly demo_txs 0 1). done. Defined.

Lemma demo_txs_ok : Forall tx_ok demo_txs.
Proof. repeat constructor; by vm_compute. Qed.

Example demo_conflicts : (conflict_bit (detect_conflicts demo_txs) 0 1, conflict_bit (detect_conflicts demo_txs) 1 2) = (true, false).
Proof. by vm_compute. Qed.

(** Two threads: the conflicting transactions are in one. *)
Definition demo_schedule : list (list (list HashedTx)) :=
  [[[demo_soroban 3 350 20 [] [demo_code 6]]; [demo_soroban 1 150 30 [] [demo_code 5]; demo_soroban 2 250 40 [demo_code 5] []]]].

Example demo_built : build_parallel_soroban_phase demo_txs 80 2 1 2 = Ok (demo_schedule, false).
Proof. by vm_compute. Qed.

Lemma greedy_partition_correct_witness :
  exists stages fee, build_with_stage_count demo_txs 80 2 1 = Ok (stages, fee) /\
    partition_ok demo_txs 80 2 1 stages /\ fee = Z.min i64_max (zsum (fee_of demo_txs) (concat (concat stages))).
Proof. apply (greedy_partition_correct demo_txs 80 2 1 demo_txs_ok); by vm_compute. Defined.

Definition demo_builder_tx : BuilderTx := MkBuilderTx 1 40 (default BitSet_default (detect_conflicts demo_txs !! 1%nat)).

Lemma demo_builder_tx_good : good_tx (instr_of demo_txs) (confl_of demo_txs) demo_builder_tx.
Proof.
  destruct (builder_txs_ok demo_txs) as (bts & E & Hb). destruct (Hb 1%nat) as (tx & Htx & _ & Hg); [simpl; lia|].
  vm_compute in E. injection E as <-. injection Htx as <-. done.
Qed.

Definition demo_config : ParallelPartitionConfig := MkConfig 2 80.

Lemma try_add_keeps_stage_witness :
  exists added s', try_add demo_builder_tx (Stage_new demo_config) = Ok (added, s') /\ config s' = config (Stage_new demo_config) /\
    stage_ok (instr_of demo_txs) (confl_of demo_txs) (if added : bool then [1%nat] else []) s'.
Proof.
  apply (try_add_keeps_stage demo_txs [] (Stage_new demo_config) demo_builder_tx demo_txs_ok).
  - apply stage_new_ok. by vm_compute.
  - apply demo_builder_tx_good.
  - apply not_elem_of_nil.
Defined.

Lemma chosen_schedule_correct_witness :
  exists count ids fee stages dropped,
    build_parallel_soroban_phase demo_txs 80 2 1 2 = Ok (stages, dropped) /\
    1 <= count <= 2 /\ build_with_stage_count demo_txs 80 2 count = Ok (ids, fee) /\
    Forall2 (Forall2 (Forall2 (tx_at demo_txs))) ids stages /\ schedule_ok 80 2 stages /\
    concat (concat stages) ⊆+ demo_txs /\ (dropped = false <-> concat (concat stages) ≡ₚ demo_txs) /\
    (forall count' ids' fee', 1 <= count' <= 2 -> build_with_stage_count demo_txs 80 2 count' = Ok (ids', fee') ->
       998 * fee' < 1000 * (fee + 1) /\ ((length ids' < length ids)%nat -> fee' < fee)).
Proof. refine (chosen_schedule_correct demo_txs 80 2 1 2 demo_txs_ok _ _ _ _ _); [done|by vm_compute|done|done|by vm_compute]. Defined.


(** The same schedule, its two threads swapped. *)
Definition demo_swapped : list (list (list HashedTx)) := [reverse (default [] (head demo_schedule))].

Lemma demo_same_schedule : same_schedule demo_schedule demo_swapped.
Proof.
  exists demo_swapped. split; [|done]. constructor; [|constructor]. exists (default [] (head demo_schedule)).
  split; [by repeat constructor|]. simpl. unfold reverse. simpl. apply Permutation_swap.
Qed.

Lemma xdr_form_canonical_witness :
  exists parallel, stages_to_xdr_phase demo_schedule (Some 100) = Ok (PhaseV1 parallel) /\
    stages_to_xdr_phase demo_swapped (Some 100) = Ok (PhaseV1 parallel) /\
    validate_parallel_component parallel = Ok tt /\
    concat (concat (execution_stages parallel)) ≡ₚ envelope <$> concat (concat demo_schedule).
Proof.
  apply (xdr_form_canonical demo_schedule demo_swapped (Some 100) demo_same_schedule).
  - intros t Ht. simpl in Ht. set_solver.
  - apply (bool_decide_unpack _). by vm_compute.
  - by vm_compute.
  - by vm_compute.
Defined.

Lemma demo_txs_elem (P : HashedTx -> Prop) : Forall P demo_txs -> forall t, t ∈ demo_txs -> P t.
Proof. by rewrite Forall_forall. Qed.

Lemma proposed_set_accepted_witness :
  exists stages dropped phase,
    build_parallel_soroban_phase demo_txs (ledger_max_instructions demo_info) (ledger_max_dependent_tx_clusters demo_info) 1 2
      = Ok (stages, dropped) /\
    stages_to_xdr_phase stages (Some 100) = Ok phase /\
    prepare_generalized_for_apply (MkTxSet [] [PhaseV0 demo_classic; phase]) = Ok (MkTxSet [] [PhaseV0 demo_classic; phase]) /\
    check_valid_soroban phase 23 demo_info = Ok Valid /\ check_fee_map phase 100 = Valid /\
    collect_phase_txs phase ⊆+ envelope <$> demo_txs /\ (dropped = false -> collect_phase_txs phase ≡ₚ envelope <$> demo_txs).
Proof.
  refine (proposed_set_accepted demo_txs demo_classic [] (Some 100) 100 23 demo_info (MkResource [0; 0; 0; 0; 0; 0; 0])
           (MkResource [3; 90; 600; 30; 30; 0; 2]) 1 2 demo_txs_ok _ _ _ _ _ _ _ _ _ _ _ _ _ _ _ _).
  - apply demo_txs_elem. by repeat constructor.
  - apply demo_txs_elem. repeat constructor; by vm_compute.
  - by vm_compute.
  - by vm_compute.
  - apply (bool_decide_unpack _). by vm_compute.
  - done.
  - by vm_compute.
  - by vm_compute.
  - by vm_compute.
  - done.
  - by vm_compute.
  - by vm_compute.
  - by vm_compute.
  - done.
  - by vm_compute.
  - by vm_compute.
Defined.
End witnesses.
