(* ===== verification/SurgePricing.v ===== *)
(** * SurgePricing: queues of transactions ordered by fee rate
      (herder/src/surge_pricing.rs, the queued transaction of herder/src/tx_queue/mod.rs)

    A priority queue keeps its transactions in lanes, each a [BTreeSet] ordered by fee
    rate, with the resources used per lane. A lane configuration is one of the four
    implementations of the trait. What panics in the source is the error [Panicking];
    sums of resources panic when they overflow. *)

From S2P Require Import Prelude Bucket Ledger Lists Resource Envelope.

(** ** Ordered sets ([BTreeSet])

    A set is the list of its elements in ascending order. A search compares the element
    sought with those of the set, from the first; the comparator may panic. *)

Section btree.
Context {A : Type} (cmp : A -> A -> result comparison Panic).

Fixpoint bt_get (x : A) (l : list A) : result (option A) Panic :=
  match l with
  | [] => Ok None
  | y :: l => let? c := cmp x y in match c with Gt => bt_get x l | Eq => Ok (Some y) | Lt => Ok None end
  end.

(** A set that has an equal element stays as it is. *)
Fixpoint bt_insert (x : A) (l : list A) : result (list A * bool) Panic :=
  match l with
  | [] => Ok ([x], true)
  | y :: k =>
      let? c := cmp x y in
      match c with
      | Gt => let? (k, inserted) := bt_insert x k in Ok (y :: k, inserted)
      | Eq => Ok (y :: k, false)
      | Lt => Ok (x :: y :: k, true)
      end
  end.

Fixpoint bt_remove (x : A) (l : list A) : result (list A) Panic :=
  match l with
  | [] => Ok []
  | y :: k =>
      let? c := cmp x y in
      match c with Gt => let? k := bt_remove x k in Ok (y :: k) | Eq => Ok k | Lt => Ok (y :: k) end
  end.
End btree.

(** An index out of range panics; a write is at an index just read. *)
Definition at_index {A} (l : list A) (i : nat) : result A Panic := expect (l !! i).
Definition put_at {A} (i : nat) (x : A) (l : list A) : list A := <[i := x]> l.

Section surge.
Context `{EnvelopeXdr}.

(** ** Queued transactions (tx_queue/mod.rs) *)

(** The time of arrival is in nanoseconds of a monotonic clock. *)
Record QueuedTransaction := MkQueued {
  q_envelope : TransactionEnvelope;
  q_hash : list Z;
  received_at : Z;
  fee_per_op : Z;
  fee_rate : FeeRate;
  total_fee : Z;
  is_dex : bool
}.

(** The two errors of [extract_fees_and_ops], which are strings in the source. *)
Inductive FeeError := NegativeDeclaredFee (fee : Z) | NegativeInclusionFee (fee : Z).

Definition extract_fees_and_ops (env : TransactionEnvelope) : result (Z * FeeRate) FeeError :=
  let fee := envelope_fee env in
  if fee <? 0 then Err (NegativeDeclaredFee fee)
  else
    let inclusion_fee := envelope_inclusion_fee env in
    if inclusion_fee <? 0 then Err (NegativeInclusionFee inclusion_fee)
    else
      let ops := as_u32 (envelope_operation_count env) in
      Ok (as_u64 fee, MkFeeRate inclusion_fee ops).

(** [inclusion_fee as u64 / op_count as u64]. *)
Definition rate_per_op (r : FeeRate) : Z :=
  if 0 <? op_count r then as_u64 (inclusion_fee r) / op_count r else 0.

Definition QueuedTransaction_new (now : Z) (env : TransactionEnvelope) : result QueuedTransaction FeeError :=
  let? (total_fee, fee_rate) := extract_fees_and_ops env in
  Ok (MkQueued env (hash_xdr env) now (rate_per_op fee_rate) fee_rate total_fee (has_dex_operations_envelope env)).

Definition envelope_fee_per_op (env : TransactionEnvelope) : option (Z * FeeRate) :=
  match extract_fees_and_ops env with
  | Ok (_, fee_rate) => Some (rate_per_op fee_rate, fee_rate)
  | Err _ => None
  end.

(** The encoding of the source account; encodings of accounts are ordered as the keys. *)
Definition account_key (env : TransactionEnvelope) : Uint256 := source_account_ed25519 env.

(** ** Lane configurations *)

Definition GENERIC_LANE : nat := 0.
Definition DEX_LANE : nat := 1.

Inductive LaneConfig :=
| DexLimitingLaneConfig (limits : list Resource) (use_byte_limit : bool)
| SorobanGenericLaneConfig (limits : list Resource)
| OpsOnlyLaneConfig (limits : list Resource)
| FloodLaneConfig (limits : list Resource) (has_dex_lane : bool).

Definition option_list {A} (o : option A) : list A := match o with Some x => [x] | None => [] end.

Definition DexLimitingLaneConfig_new (limit : Resource) (dex_limit : option Resource) : LaneConfig :=
  DexLimitingLaneConfig (limit :: option_list dex_limit) (resource_size limit =? NUM_CLASSIC_TX_BYTES_RESOURCES)%nat.
Definition SorobanGenericLaneConfig_new (limit : Resource) : LaneConfig := SorobanGenericLaneConfig [limit].
Definition OpsOnlyLaneConfig_new (limit : Resource) : LaneConfig := OpsOnlyLaneConfig [limit].
Definition FloodLaneConfig_new (has_dex_lane : bool) : result LaneConfig Panic :=
  let? limit := Resource_new [i64_max] in
  Ok (FloodLaneConfig (limit :: if has_dex_lane then [limit] else []) has_dex_lane).

Definition config_lane (c : LaneConfig) (env : TransactionEnvelope) : result nat Panic :=
  match c with
  | DexLimitingLaneConfig limits _ =>
      Ok (if (DEX_LANE <? length limits)%nat && has_dex_operations_envelope env then DEX_LANE else GENERIC_LANE)
  | SorobanGenericLaneConfig _ => let! is_soroban_envelope env in Ok GENERIC_LANE
  | OpsOnlyLaneConfig _ => Ok GENERIC_LANE
  | FloodLaneConfig _ has_dex_lane => Ok (if has_dex_lane && has_dex_operations_envelope env then DEX_LANE else GENERIC_LANE)
  end.

Definition config_limits (c : LaneConfig) : list Resource :=
  match c with
  | DexLimitingLaneConfig limits _ | SorobanGenericLaneConfig limits | OpsOnlyLaneConfig limits | FloodLaneConfig limits _ => limits
  end.

Definition config_resources (c : LaneConfig) (env : TransactionEnvelope) (ledger_version : Z) : result Resource Panic :=
  match c with
  | DexLimitingLaneConfig _ use_byte_limit =>
      let! negb (is_soroban_envelope env) in resources_from_envelope env use_byte_limit ledger_version
  | SorobanGenericLaneConfig _ => let! is_soroban_envelope env in resources_from_envelope env false ledger_version
  | OpsOnlyLaneConfig _ => Resource_new [Z.min i64_max (envelope_operation_count env)]
  | FloodLaneConfig _ _ =>
      let! envelope_operation_count env <=? i64_max in Resource_new [Z.max (envelope_operation_count env) 1]
  end.

(** [limits[GENERIC_LANE] = limit]. *)
Definition put_generic (limit : Resource) (limits : list Resource) : result (list Resource) Panic :=
  let? _ := at_index limits GENERIC_LANE in Ok (put_at GENERIC_LANE limit limits).

Definition config_update_generic (limit : Resource) (c : LaneConfig) : result LaneConfig Panic :=
  match c with
  | DexLimitingLaneConfig limits b => let? limits := put_generic limit limits in Ok (DexLimitingLaneConfig limits b)
  | SorobanGenericLaneConfig limits => let? limits := put_generic limit limits in Ok (SorobanGenericLaneConfig limits)
  | OpsOnlyLaneConfig limits => let? limits := put_generic limit limits in Ok (OpsOnlyLaneConfig limits)
  | FloodLaneConfig limits b =>
      let? current := at_index limits GENERIC_LANE in
      let! (resource_size limit =? resource_size current)%nat in
      let? limits := put_generic limit limits in Ok (FloodLaneConfig limits b)
  end.

(** ** Entries *)

Record QueueEntry := MkQueueEntry {
  entry_fee_rate : FeeRate;
  tie_breaker : list Z;
  entry_hash : list Z;
  entry_tx : QueuedTransaction
}.

(** [u64::to_be_bytes]. *)
Definition to_be_bytes (n : Z) : list Z := (fun i => Z.land (Z.shiftr n (8 * (7 - i))) 255) <$> seqZ 0 8.

(** [tie_breaker[idx] ^= byte] for the first bytes. *)
Fixpoint xor_bytes (bytes tie : list Z) : list Z :=
  match bytes, tie with
  | b :: bytes, t :: tie => Z.lxor t b :: xor_bytes bytes tie
  | _, _ => tie
  end.

Definition QueueEntry_new (tx : QueuedTransaction) (seed : Z) : QueueEntry :=
  let tie := if seed =? 0 then q_hash tx else xor_bytes (to_be_bytes seed) (q_hash tx) in
  MkQueueEntry (fee_rate tx) tie (q_hash tx) tx.

(** [impl Ord for QueueEntry]. *)
Definition entry_cmp (a b : QueueEntry) : result comparison Panic :=
  let? ord := cmp_rate (entry_fee_rate a) (entry_fee_rate b) in
  match ord with
  | Eq =>
      Ok (match hash_compare (tie_breaker b) (tie_breaker a) with
          | Eq => hash_compare (entry_hash b) (entry_hash a)
          | c => c
          end)
  | c => Ok c
  end.

(** ** The queue *)

Record SurgePricingPriorityQueue := MkSurgeQueue {
  lane_config : LaneConfig;
  lane_limits : list Resource;
  lane_current_count : list Resource;
  lanes : list (list QueueEntry);
  seed : Z
}.

Definition put_count (lane : nat) (r : Resource) (q : SurgePricingPriorityQueue) : SurgePricingPriorityQueue :=
  MkSurgeQueue (lane_config q) (lane_limits q) (put_at lane r (lane_current_count q)) (lanes q) (seed q).
Definition put_lane (lane : nat) (l : list QueueEntry) (q : SurgePricingPriorityQueue) : SurgePricingPriorityQueue :=
  MkSurgeQueue (lane_config q) (lane_limits q) (lane_current_count q) (put_at lane l (lanes q)) (seed q).

Definition resource_dim (q : SurgePricingPriorityQueue) : nat :=
  match lane_limits q with limit :: _ => resource_size limit | [] => NUM_CLASSIC_TX_RESOURCES end.

Definition SurgePricingPriorityQueue_new (config : LaneConfig) (seed : Z) : result SurgePricingPriorityQueue Panic :=
  let limits := config_limits config in
  let resource_len := match limits with limit :: _ => resource_size limit | [] => NUM_CLASSIC_TX_RESOURCES end in
  let? counts := try_map (fun _ => make_empty resource_len) limits in
  Ok (MkSurgeQueue config limits counts ((fun _ => []) <$> limits) seed).

Definition get_num_lanes (q : SurgePricingPriorityQueue) : nat := length (lane_limits q).

Definition queue_update_generic (limit : Resource) (q : SurgePricingPriorityQueue) : result SurgePricingPriorityQueue Panic :=
  let? config := config_update_generic limit (lane_config q) in
  let? limits := put_generic limit (lane_limits q) in
  Ok (MkSurgeQueue config limits (lane_current_count q) (lanes q) (seed q)).

(** The sum of the counts of lanes. *)
Definition sum_counts (q : SurgePricingPriorityQueue) (counts : list Resource) : result Resource Panic :=
  let? first := at_index (lane_limits q) 0 in
  let? empty := make_empty (resource_size first) in
  try_fold resource_add counts empty.
Definition total_resources (q : SurgePricingPriorityQueue) : result Resource Panic := sum_counts q (lane_current_count q).
Definition lane_resources (q : SurgePricingPriorityQueue) (lane : nat) : result Resource Panic := at_index (lane_current_count q) lane.

Definition queue_resources (q : SurgePricingPriorityQueue) (env : TransactionEnvelope) (ledger_version : Z) : result Resource Panic :=
  config_resources (lane_config q) env ledger_version.
Definition get_lane (q : SurgePricingPriorityQueue) (env : TransactionEnvelope) : result nat Panic := config_lane (lane_config q) env.

Definition add (tx : QueuedTransaction) (ledger_version : Z) (q : SurgePricingPriorityQueue) : result SurgePricingPriorityQueue Panic :=
  let? lane := get_lane q (q_envelope tx) in
  let? resources := queue_resources q (q_envelope tx) ledger_version in
  let? entries := at_index (lanes q) lane in
  let? (entries, inserted) := bt_insert entry_cmp (QueueEntry_new tx (seed q)) entries in
  let q := put_lane lane entries q in
  if inserted : bool then
    let? count := at_index (lane_current_count q) lane in
    let? count := resource_add count resources in
    Ok (put_count lane count q)
  else Ok q.

Definition erase (lane : nat) (entry : QueueEntry) (ledger_version : Z) (q : SurgePricingPriorityQueue) : result SurgePricingPriorityQueue Panic :=
  let? entries := at_index (lanes q) lane in
  let? stored := bt_get entry_cmp entry entries in
  match stored with
  | None => Ok q
  | Some stored =>
      let? resources := queue_resources q (q_envelope (entry_tx stored)) ledger_version in
      let? count := at_index (lane_current_count q) lane in
      let? fits := leq resources count in
      let! fits in
      let? count := resource_sub count resources in
      let? entries := bt_remove entry_cmp entry entries in
      Ok (put_lane lane entries (put_count lane count q))
  end.
Definition remove_entry := erase.

Definition top_entry (q : SurgePricingPriorityQueue) (lane : nat) : result (option QueueEntry) Panic :=
  let? entries := at_index (lanes q) lane in Ok (last entries).

(** One lane of the search for the highest top entry. *)
Definition better_top (q : SurgePricingPriorityQueue) (active : nat -> bool) (best : option (nat * QueueEntry)) (lane : nat) :
    result (option (nat * QueueEntry)) Panic :=
  if negb (active lane) then Ok best
  else
    let? top := top_entry q lane in
    match top with
    | None => Ok best
    | Some entry =>
        match best with
        | None => Ok (Some (lane, entry))
        | Some (_, best_entry) =>
            let? c := entry_cmp entry best_entry in
            Ok (match c with Gt => Some (lane, entry) | _ => best end)
        end
    end.
Definition best_top (q : SurgePricingPriorityQueue) (active : nat -> bool) : result (option (nat * QueueEntry)) Panic :=
  try_fold (better_top q active) (seq 0 (length (lane_limits q))) None.
Definition peek_top (q : SurgePricingPriorityQueue) : result (option (nat * QueueEntry)) Panic := best_top q (fun _ => true).
(** ** Popping *)

Inductive VisitTxResult := Skipped | Rejected | Processed.

(** [lane_left_until_limit[GENERIC_LANE] -= ..], and the same for another lane. *)
Definition charge_at (lane : nat) (resources : Resource) (room : list Resource) : result (list Resource) Panic :=
  let? r := at_index room lane in let? r := resource_sub r resources in Ok (put_at lane r room).
Definition charge (lane : nat) (resources : Resource) (room : list Resource) : result (list Resource) Panic :=
  let? room := charge_at GENERIC_LANE resources room in
  if (lane =? GENERIC_LANE)%nat then Ok room else charge_at lane resources room.

Definition lane_active (active : list bool) (lane : nat) : bool := default false (active !! lane).

(** The limits a pop starts from. *)
Definition pop_limits (q : SurgePricingPriorityQueue) (custom_limits : option (list Resource)) : result (list Resource) Panic :=
  match custom_limits with
  | Some limits =>
      let! (length limits =? length (lane_limits q))%nat in
      let! forallb (fun p : Resource * Resource => (resource_size p.1 =? resource_size p.2)%nat) (zip limits (lane_limits q)) in
      Ok limits
  | None => Ok (lane_limits q)
  end.

Section pop.
Context {S : Type} (visitor : S -> QueuedTransaction -> VisitTxResult * S) (allow_gaps : bool) (ledger_version : Z).

(** Every pass erases an entry, leaves a lane, or is the last. *)
Fixpoint pop_loop (fuel : nat) (q : SurgePricingPriorityQueue) (s : S) (room : list Resource) (active : list bool) :
    result (SurgePricingPriorityQueue * S * list Resource) Panic :=
  match fuel with
  | O => Err Panicking
  | Datatypes.S fuel =>
      let? best := best_top q (lane_active active) in
      match best with
      | None => Ok (q, s, room)
      | Some (lane, entry) =>
          let? resources := queue_resources q (q_envelope (entry_tx entry)) ledger_version in
          let? left_lane := at_index room lane in
          let? exceeds_lane := any_greater resources left_lane in
          let? left_generic := at_index room GENERIC_LANE in
          let? exceeds_generic := any_greater resources left_generic in
          if exceeds_lane || exceeds_generic then
            if allow_gaps then
              let? q := erase lane entry ledger_version q in pop_loop fuel q s room active
            else if negb (lane =? GENERIC_LANE)%nat && exceeds_lane then pop_loop fuel q s room (put_at lane false active)
            else Ok (q, s, room)
          else
            let (visit_res, s) := visitor s (entry_tx entry) in
            let? room := match visit_res with Processed => charge lane resources room | _ => Ok room end in
            let? q := erase lane entry ledger_version q in
            pop_loop fuel q s room active
      end
  end.

Definition pop_fuel (q : SurgePricingPriorityQueue) : nat := (length (concat (lanes q)) + length (lane_limits q) + 1)%nat.

Definition pop_top_txs (custom_limits : option (list Resource)) (q : SurgePricingPriorityQueue) (s : S) :
    result (SurgePricingPriorityQueue * S * list Resource) Panic :=
  let? room := pop_limits q custom_limits in
  pop_loop (pop_fuel q) q s room (replicate (length (lane_limits q)) true).
End pop.

(** ** Eviction *)

Record EvictionExclusion := MkExclusion { hashes : gset (list Z); lane_resource_discount : list Resource }.

Definition EvictionExclusion_new (num_lanes resource_dim : nat) : result EvictionExclusion Panic :=
  let? empty := make_empty resource_dim in Ok (MkExclusion ∅ (replicate num_lanes empty)).
Definition exclusion_is_empty (e : EvictionExclusion) : bool := bool_decide (hashes e = ∅).

Record LaneCursor := MkCursor { cursor_lane : nat; cursor_entries : list QueueEntry; cursor_index : nat; cursor_active : bool }.

Definition current (c : LaneCursor) : option QueueEntry :=
  if cursor_active c then cursor_entries c !! cursor_index c else None.
Definition advance (c : LaneCursor) : LaneCursor :=
  let index := S (cursor_index c) in
  MkCursor (cursor_lane c) (cursor_entries c) index (cursor_active c && (index <? length (cursor_entries c))%nat).
Definition drop_lane (c : LaneCursor) : LaneCursor := MkCursor (cursor_lane c) (cursor_entries c) (cursor_index c) false.

Definition make_cursor (exclusion : option EvictionExclusion) (lane : nat) (set : list QueueEntry) : LaneCursor :=
  let entries :=
    match exclusion with
    | Some excl => filter (fun e => entry_hash e ∉ hashes excl) set
    | None => set
    end in
  MkCursor lane entries 0 (negb (bool_decide (entries = []))).

Definition lesser_current (best : option (nat * QueueEntry)) (c : LaneCursor) : result (option (nat * QueueEntry)) Panic :=
  match current c with
  | None => Ok best
  | Some entry =>
      match best with
      | None => Ok (Some (cursor_lane c, entry))
      | Some (_, best_entry) =>
          let? o := entry_cmp entry best_entry in
          Ok (match o with Lt => Some (cursor_lane c, entry) | _ => best end)
      end
  end.

(** The inner loop: the entry to evict next; lanes that may not be evicted from are
    dropped, one each pass. *)
Fixpoint next_eviction (fuel : nat) (lane : nat) (needed_total needed_lane : Resource) (due_to_lane_limit : bool)
    (cursors : list LaneCursor) : result (option (nat * QueueEntry * bool * list LaneCursor)) Panic :=
  match fuel with
  | O => Err Panicking
  | S fuel =>
      let? best := try_fold lesser_current cursors None in
      match best with
      | None => Ok None
      | Some (evict_lane, entry) =>
          let? can_evict :=
            if (lane =? GENERIC_LANE)%nat || (lane =? evict_lane)%nat then Ok true else any_greater needed_total needed_lane in
          if negb can_evict then next_eviction fuel lane needed_total needed_lane true (alter drop_lane evict_lane cursors)
          else Ok (Some (evict_lane, entry, due_to_lane_limit, cursors))
      end
  end.

Section fit.
Context (q : SurgePricingPriorityQueue) (tx : QueuedTransaction) (lane : nat) (ledger_version : Z).

(** The outer loop: every pass evicts an entry. *)
Fixpoint evict_loop (fuel : nat) (needed_total needed_lane : Resource) (cursors : list LaneCursor)
    (evictions : list (QueuedTransaction * bool)) : result (option (list (QueuedTransaction * bool))) Panic :=
  if any_positive needed_total || any_positive needed_lane then
    match fuel with
    | O => Err Panicking
    | S fuel =>
        let? next := next_eviction (S (length cursors)) lane needed_total needed_lane false cursors in
        match next with
        | None => Ok None
        | Some (evict_lane, entry, evicted_due_to_lane_limit, cursors) =>
            let? order := cmp_rate (entry_fee_rate entry) (fee_rate tx) in
            if bool_decide (order <> Lt) then Ok None
            else if bool_decide (account_key (q_envelope (entry_tx entry)) = account_key (q_envelope tx)) then Ok None
            else
              let? evict_resources := queue_resources q (q_envelope (entry_tx entry)) ledger_version in
              let evictions := evictions ++ [(entry_tx entry, evicted_due_to_lane_limit)] in
              let? needed_total := subtract_non_negative needed_total evict_resources in
              let? needed_lane :=
                if (lane =? GENERIC_LANE)%nat || (lane =? evict_lane)%nat then subtract_non_negative needed_lane evict_resources
                else Ok needed_lane in
              evict_loop fuel needed_total needed_lane (alter advance evict_lane cursors) evictions
        end
    end
  else Ok (Some evictions).
End fit.

(** The counts less what is excluded. *)
Definition discounted (excl : EvictionExclusion) (x : nat * Resource) : result Resource Panic :=
  match lane_resource_discount excl !! x.1 with
  | Some discount => subtract_non_negative x.2 discount
  | None => Ok x.2
  end.
Definition effective_counts (q : SurgePricingPriorityQueue) (exclusion : option EvictionExclusion) : result (list Resource) Panic :=
  match exclusion with
  | Some excl => try_map (discounted excl) (imap pair (lane_current_count q))
  | None => Ok (lane_current_count q)
  end.

Definition can_fit_with_eviction (tx : QueuedTransaction) (tx_discount : option Resource) (ledger_version : Z)
    (exclusion : option EvictionExclusion) (q : SurgePricingPriorityQueue) : result (option (list (QueuedTransaction * bool))) Panic :=
  let? lane := get_lane q (q_envelope tx) in
  let? tx_resources := queue_resources q (q_envelope tx) ledger_version in
  let? tx_resources := match tx_discount with Some discount => subtract_non_negative tx_resources discount | None => Ok tx_resources end in
  let? effective_lane_count := effective_counts q exclusion in
  let? effective_total := sum_counts q effective_lane_count in
  let? limit_generic := at_index (lane_limits q) GENERIC_LANE in
  let? over_generic := any_greater tx_resources limit_generic in
  let? limit_lane := at_index (lane_limits q) lane in
  let? over_lane := if over_generic : bool then Ok false else any_greater tx_resources limit_lane in
  if over_generic || over_lane then Ok None
  else
    let? fits_total := can_add effective_total tx_resources in
    let? lane_count := at_index effective_lane_count lane in
    let? fits_lane := if fits_total : bool then can_add lane_count tx_resources else Ok false in
    if negb fits_total || negb fits_lane then Ok None
    else
      let? new_total := resource_add effective_total tx_resources in
      let? new_lane := resource_add lane_count tx_resources in
      let? total_ok := leq new_total limit_generic in
      let? lane_ok := if total_ok : bool then leq new_lane limit_lane else Ok false in
      if total_ok && lane_ok then Ok (Some [])
      else
        let? needed_total := subtract_non_negative new_total limit_generic in
        let? needed_lane := subtract_non_negative new_lane limit_lane in
        let cursors := imap (make_cursor exclusion) (lanes q) in
        evict_loop q tx lane ledger_version (S (length (concat (lanes q)))) needed_total needed_lane cursors [].
End surge.
