(* ===== verification/SurgePricingFacts.v ===== *)
(** * SurgePricingFacts: facts on the sets of the priority queue

    On elements the comparator does not panic on and orders as a total preorder, a list
    in strictly ascending order is searched, extended and reduced as a set up to ties.
    The invariant of the queue: its lanes are such sets, its counts the sums of their
    resources; adding and erasing keep it. *)


From S2P Require Import Prelude Bucket Ledger Lists Resource Envelope SurgePricing.

Section ordset.
Context {A : Type} (cmp : A -> A -> result comparison Panic) (c : A -> A -> comparison) (good : A -> Prop).
Context (cmp_ok : forall a b, good a -> good b -> cmp a b = Ok (c a b)).
Context (c_antisym : forall a b, c b a = CompOpp (c a b)).
Context (c_trans : forall x y z, good x -> good y -> good z -> cmp_le c x y -> cmp_le c y z -> cmp_le c x z).

Definition below_strictly (a b : A) : Prop := c a b = Lt.
Definition set_ok (l : list A) : Prop := StronglySorted below_strictly l /\ forall x, x ∈ l -> good x.

Lemma le_lt x y z : good x -> good y -> good z -> cmp_le c x y -> c y z = Lt -> c x z = Lt.
Proof.
  intros Hx Hy Hz Hle Hlt. assert (cmp_le c x z) as Hxz by (apply (c_trans x y z); try done; unfold cmp_le; congruence).
  destruct (c x z) eqn:E; try done; exfalso.
  assert (cmp_le c z y) as Hzy.
  { apply (c_trans z x y); [done..| |done]. unfold cmp_le. rewrite c_antisym, E. done. }
  unfold cmp_le in Hzy. by rewrite c_antisym, Hlt in Hzy.
Qed.

Lemma lt_le_lt x y z : good x -> good y -> good z -> c x y = Lt -> cmp_le c y z -> c x z = Lt.
Proof.
  intros Hx Hy Hz Hlt Hle. assert (cmp_le c x z) as Hxz by (apply (c_trans x y z); try done; unfold cmp_le; congruence).
  destruct (c x z) eqn:E; try done; exfalso.
  assert (cmp_le c y x) as Hyx.
  { apply (c_trans y z x); [done..|]. unfold cmp_le. rewrite c_antisym, E. done. }
  unfold cmp_le in Hyx. by rewrite c_antisym, Hlt in Hyx.
Qed.

Lemma set_ok_inv x l : set_ok (x :: l) -> set_ok l /\ good x /\ (forall y, y ∈ l -> c x y = Lt).
Proof.
  intros [Hs Hg]. apply StronglySorted_inv in Hs as [Hs Hx]. rewrite Forall_forall in Hx.
  split; [split; [done|]; intros y Hy; apply Hg; by right|]. split; [apply Hg; left|done].
Qed.

Lemma set_ok_cons x l : set_ok l -> good x -> (forall y, y ∈ l -> c x y = Lt) -> set_ok (x :: l).
Proof.
  intros [Hs Hg] Hx Hlt. split; [constructor; [done|by apply Forall_forall]|].
  intros y [->|Hy]%elem_of_cons; [done|by apply Hg].
Qed.

Lemma set_ok_nil : set_ok [].
Proof. split; [constructor|]. by intros x Hx%elem_of_nil. Qed.

(** What is above the first element of a set is above nothing before it. *)
Lemma search_ends x y l : set_ok (y :: l) -> good x -> c x y = Lt -> forall z, z ∈ l -> c x z = Lt.
Proof.
  intros Hs Hx Hlt z Hz. apply set_ok_inv in Hs as ([_ Hg] & Hy & Hyl).
  apply (lt_le_lt x y z); auto. unfold cmp_le. by rewrite Hyl.
Qed.

Lemma search_ends_eq x y l : set_ok (y :: l) -> good x -> c x y = Eq -> forall z, z ∈ l -> c x z = Lt.
Proof.
  intros Hs Hx Heq z Hz. apply set_ok_inv in Hs as ([_ Hg] & Hy & Hyl).
  apply (le_lt x y z); auto. unfold cmp_le. by rewrite Heq.
Qed.

Lemma bt_get_spec x l : set_ok l -> good x ->
  (exists y, bt_get cmp x l = Ok (Some y) /\ y ∈ l /\ c x y = Eq) \/
  (bt_get cmp x l = Ok None /\ forall y, y ∈ l -> c x y <> Eq).
Proof.
  intros Hs Hx. induction l as [|y l IH]; [right; split; [done|]; by intros y Hy%elem_of_nil|].
  pose proof (set_ok_inv y l Hs) as (Hs' & Hy & Hyl). simpl. rewrite cmp_ok by done. simpl.
  destruct (c x y) eqn:E.
  - left. exists y. split; [done|]. split; [left|done].
  - right. split; [done|]. intros z [->|Hz]%elem_of_cons; [congruence|].
    rewrite (search_ends x y l); done.
  - destruct (IH Hs') as [(z & Ez & Hz & Hc)|[Ez Hno]].
    + left. exists z. split; [done|]. split; [by right|done].
    + right. split; [done|]. intros z [->|Hz]%elem_of_cons; [congruence|by apply Hno].
Qed.

Lemma bt_insert_spec x l : set_ok l -> good x ->
  (bt_insert cmp x l = Ok (l, false) /\ exists y, y ∈ l /\ c x y = Eq) \/
  (exists l', bt_insert cmp x l = Ok (l', true) /\ l' ≡ₚ x :: l /\ set_ok l' /\ forall y, y ∈ l -> c x y <> Eq).
Proof.
  intros Hs Hx. induction l as [|y l IH].
  { right. exists [x]. split; [done|]. split; [done|]. split; [apply set_ok_cons; [apply set_ok_nil|done|]|]; by intros y Hy%elem_of_nil. }
  pose proof (set_ok_inv y l Hs) as (Hs' & Hy & Hyl). simpl. rewrite cmp_ok by done. simpl.
  destruct (c x y) eqn:E.
  - left. split; [done|]. exists y. split; [left|done].
  - right. exists (x :: y :: l). split; [done|]. split; [done|]. split.
    + apply set_ok_cons; [done|done|]. intros z [->|Hz]%elem_of_cons; [done|]. by apply (search_ends x y l).
    + intros z [->|Hz]%elem_of_cons; [congruence|]. by rewrite (search_ends x y l).
  - destruct (IH Hs') as [[-> (z & Hz & Hc)]|(l' & -> & Hp & Hs2 & Hno)]; simpl.
    + left. split; [done|]. exists z. split; [by right|done].
    + right. exists (y :: l'). split; [done|]. split; [rewrite Hp; apply Permutation_swap|]. split.
      * apply set_ok_cons; [done|done|]. intros z Hz. rewrite Hp in Hz. apply elem_of_cons in Hz as [->|Hz]; [|by apply Hyl].
        by rewrite c_antisym, E.
      * intros z [->|Hz]%elem_of_cons; [congruence|by apply Hno].
Qed.

(** Removing what [bt_get] finds. *)
Lemma bt_remove_spec x l y : set_ok l -> good x -> y ∈ l -> c x y = Eq ->
  exists l', bt_remove cmp x l = Ok l' /\ l ≡ₚ y :: l' /\ set_ok l' /\ l' `sublist_of` l.
Proof.
  intros Hs Hx Hy Hc. induction l as [|z l IH]; [by apply elem_of_nil in Hy|].
  pose proof (set_ok_inv z l Hs) as (Hs' & Hz & Hzl). simpl. rewrite cmp_ok by done. simpl.
  apply elem_of_cons in Hy as [->|Hy].
  - rewrite Hc. exists l. split; [done|]. split; [done|]. split; [done|]. by apply sublist_cons.
  - destruct (c x z) eqn:E.
    + exfalso. rewrite (search_ends_eq x z l) in Hc; done.
    + exfalso. rewrite (search_ends x z l) in Hc; done.
    + destruct (IH Hs' Hy) as (l' & -> & Hp & Hs2 & Hsub). simpl. exists (z :: l'). split; [done|].
      split; [rewrite Hp; apply Permutation_swap|]. split; [|by apply sublist_skip].
      apply set_ok_cons; [done|done|]. intros w Hw. apply Hzl. rewrite Hp. by right.
Qed.

(** An element is found as itself. *)
Lemma set_ok_eq l x y : set_ok l -> x ∈ l -> y ∈ l -> c x y = Eq -> x = y.
Proof.
  intros Hs Hx Hy E. induction l as [|z l IH]; [by apply elem_of_nil in Hx|].
  pose proof (set_ok_inv z l Hs) as (Hs' & Hz & Hzl). apply elem_of_cons in Hx as [->|Hx], Hy as [->|Hy].
  - done.
  - rewrite (Hzl y Hy) in E. done.
  - rewrite c_antisym, (Hzl x Hx) in E. done.
  - by apply IH.
Qed.

(** The greatest element is the last. *)
Lemma last_greatest l x : set_ok l -> last l = Some x -> x ∈ l /\ forall y, y ∈ l -> cmp_le c y x.
Proof.
  intros Hs Hl. induction l as [|z l IH]; [done|]. pose proof (set_ok_inv z l Hs) as (Hs' & Hz & Hzl).
  assert (c z z = Eq) as Hrefl.
  { pose proof (c_antisym z z) as Ha. destruct (c z z); done. }
  destruct l as [|w l].
  - injection Hl as ->. split; [left|]. intros y ->%list_elem_of_singleton. unfold cmp_le. congruence.
  - assert (last (w :: l) = Some x) as Hl' by done. destruct (IH Hs' Hl') as [Hx Hmax]. split; [by right|].
    intros y [->|Hy]%elem_of_cons; [|by apply Hmax]. unfold cmp_le. rewrite Hzl by done. done.
Qed.
End ordset.

(** ** the invariant of the priority queue

    Every lane is a set in the order of entries, and its count is the sum of what its
    transactions use. Adding, erasing and looking for the top keep this and never
    panic while the sums stay in range. *)

(** ** The order of entries

    By rate, then backwards by the tie breaker and the hash. *)

Definition rank : Type := FeeRate * list Z * list Z.

Definition rank_compare (a b : rank) : comparison :=
  match rate_compare a.1.1 b.1.1 with
  | Eq => match hash_compare b.1.2 a.1.2 with Eq => hash_compare b.2 a.2 | c => c end
  | c => c
  end.

(** Rates that compare: fees are not negative, and there are operations. *)
Definition rate_ok (r : FeeRate) : Prop := 0 <= inclusion_fee r /\ 0 < op_count r.

Lemma cmp_rate_ok a b : rate_ok a -> rate_ok b -> cmp_rate a b = Ok (rate_compare a b).
Proof.
  intros [Ha _] [Hb _]. unfold cmp_rate. destruct (Z.leb_spec 0 (inclusion_fee a)); [|lia].
  destruct (Z.leb_spec 0 (inclusion_fee b)); [|lia]. done.
Qed.

Lemma rank_antisym a b : rank_compare b a = CompOpp (rank_compare a b).
Proof.
  unfold rank_compare. rewrite (rate_compare_antisym a.1.1). destruct (rate_compare a.1.1 b.1.1); simpl; try done.
  rewrite (compare_antisym hash_compare b.1.2). destruct (hash_compare b.1.2 a.1.2); simpl; try done.
  by rewrite (compare_antisym hash_compare b.2).
Qed.

Lemma rate_eq_iff a b : rate_compare a b = Eq <-> cmp_le rate_compare a b /\ cmp_le rate_compare b a.
Proof.
  unfold cmp_le. rewrite (rate_compare_antisym a b). destruct (rate_compare a b); simpl; split; try done; by intros [??].
Qed.

(** The fields in the order they are compared. *)
Lemma rank_le_iff a b : cmp_le rank_compare a b <->
  rate_compare a.1.1 b.1.1 = Lt \/
  (rate_compare a.1.1 b.1.1 = Eq /\ (hash_compare b.1.2 a.1.2 = Lt \/ (a.1.2 = b.1.2 /\ cmp_le hash_compare b.2 a.2))).
Proof.
  unfold cmp_le, rank_compare. destruct (rate_compare _ _); [|split; [intros _; by left|done]|split; [done|]; by intros [?|[? _]]].
  destruct (hash_compare b.1.2 a.1.2) eqn:E.
  - apply (compare_eq hash_compare) in E. split; [intros Hc; right; split; [done|]; right; by split|].
    by intros [?|[_ [?|[_ ?]]]].
  - split; [intros _; right; split; [done|]; by left|done].
  - split; [done|]. intros [?|[_ [?|[Et _]]]]; try done. rewrite Et, (compare_refl hash_compare) in E. done.
Qed.

Lemma rank_trans a b c : rate_ok a.1.1 -> rate_ok b.1.1 -> rate_ok c.1.1 ->
  cmp_le rank_compare a b -> cmp_le rank_compare b c -> cmp_le rank_compare a c.
Proof.
  intros [_ Ha] [_ Hb] [_ Hc] Hab Hbc. rewrite rank_le_iff in Hab, Hbc |- *.
  assert (cmp_le rate_compare a.1.1 b.1.1) as Rab by (unfold cmp_le; destruct Hab as [->|[-> _]]; done).
  assert (cmp_le rate_compare b.1.1 c.1.1) as Rbc by (unfold cmp_le; destruct Hbc as [->|[-> _]]; done).
  pose proof (rate_le_trans _ _ _ Ha Hb Hc Rab Rbc) as Rac.
  destruct (rate_compare a.1.1 c.1.1) eqn:E; [|by left|done].
  apply rate_eq_iff in E as [_ Rca].
  assert (rate_compare a.1.1 b.1.1 = Eq) as Eab.
  { apply rate_eq_iff. split; [done|]. by apply (rate_le_trans _ c.1.1). }
  assert (rate_compare b.1.1 c.1.1 = Eq) as Ebc.
  { apply rate_eq_iff. split; [done|]. by apply (rate_le_trans _ a.1.1). }
  destruct Hab as [?|[_ Hab]]; [congruence|]. destruct Hbc as [?|[_ Hbc]]; [congruence|].
  right. split; [done|]. destruct Hab as [Tab|[Tab Gab]], Hbc as [Tbc|[Tbc Gbc]].
  - left. by apply (compare_lt_trans hash_compare _ b.1.2).
  - left. by rewrite <- Tbc.
  - left. by rewrite Tab.
  - right. split; [congruence|]. by transitivity b.2.
Qed.

Lemma rank_eq_hash a b : rank_compare a b = Eq -> a.1.2 = b.1.2 /\ a.2 = b.2.
Proof.
  unfold rank_compare. destruct (rate_compare _ _); try done. destruct (hash_compare b.1.2 a.1.2) eqn:E1; try done. intros E2.
  apply (compare_eq hash_compare) in E1, E2. done.
Qed.

Section entries.
Context `{EnvelopeXdr}.

Definition entry_rank (e : QueueEntry) : rank := (entry_fee_rate e, tie_breaker e, entry_hash e).
Definition entry_compare (a b : QueueEntry) : comparison := rank_compare (entry_rank a) (entry_rank b).
Definition good_entry (e : QueueEntry) : Prop := rate_ok (entry_fee_rate e).

Lemma entry_cmp_ok a b : good_entry a -> good_entry b -> entry_cmp a b = Ok (entry_compare a b).
Proof.
  intros Ha Hb. unfold entry_cmp, entry_compare, rank_compare. rewrite cmp_rate_ok by done. simpl. by destruct (rate_compare _ _).
Qed.

Lemma entry_antisym a b : entry_compare b a = CompOpp (entry_compare a b).
Proof. apply rank_antisym. Qed.

Lemma entry_trans a b c : good_entry a -> good_entry b -> good_entry c ->
  cmp_le entry_compare a b -> cmp_le entry_compare b c -> cmp_le entry_compare a c.
Proof. apply (rank_trans (entry_rank a) (entry_rank b) (entry_rank c)). Qed.

Lemma entry_eq_hash a b : entry_compare a b = Eq -> tie_breaker a = tie_breaker b /\ entry_hash a = entry_hash b.
Proof. apply (rank_eq_hash (entry_rank a) (entry_rank b)). Qed.

Lemma entry_refl a : entry_compare a a = Eq.
Proof. pose proof (entry_antisym a a) as Ha. by destruct (entry_compare a a). Qed.
End entries.

(** ** The invariant of the queue *)

Section queue.
Context `{EnvelopeXdr} (n : nat) (version : Z).

Notation lane_set := (set_ok entry_compare good_entry).

(** What a transaction uses, as the configuration says. *)
Definition uses (c : LaneConfig) (env : TransactionEnvelope) : Resource :=
  match config_resources c env version with Ok r => r | Err _ => rzero n end.
Definition entry_uses (c : LaneConfig) (i : nat) (e : QueueEntry) : Z := dim (uses c (q_envelope (entry_tx e))) i.

(** A transaction the queue of configuration [c] with [k] lanes takes, into [lane]. *)
Record admissible (c : LaneConfig) (k : nat) (tx : QueuedTransaction) (lane : nat) : Prop := {
  adm_rate : rate_ok (fee_rate tx);
  adm_lane : config_lane c (q_envelope tx) = Ok lane;
  adm_range : (lane < k)%nat;
  adm_uses : config_resources c (q_envelope tx) version = Ok (uses c (q_envelope tx));
  adm_vec : vec_ok n (uses c (q_envelope tx))
}.

Definition in_lane (c : LaneConfig) (lane : nat) (e : QueueEntry) : bool :=
  match config_lane c (q_envelope (entry_tx e)) with Ok l => (l =? lane)%nat | Err _ => false end.

(** An entry of [lane]: made from its transaction with the seed of the queue. *)
Definition entry_of (c : LaneConfig) (k : nat) (s : Z) (lane : nat) (e : QueueEntry) : Prop :=
  e = QueueEntry_new (entry_tx e) s /\ admissible c k (entry_tx e) lane.

Record queue_ok (q : SurgePricingPriorityQueue) : Prop := {
  queue_dims : dims_ok n;
  queue_nonempty : lane_limits q <> [];
  queue_lanes : length (lanes q) = length (lane_limits q);
  queue_counts : length (lane_current_count q) = length (lane_limits q);
  queue_limits : forall r, r ∈ lane_limits q -> vec_ok n r;
  queue_sets : forall lane l, lanes q !! lane = Some l ->
    lane_set l /\ forall e, e ∈ l -> entry_of (lane_config q) (length (lane_limits q)) (seed q) lane e;
  queue_sums : forall lane l, lanes q !! lane = Some l -> exists r, lane_current_count q !! lane = Some r /\ vec_ok n r /\
    forall i, dim r i = zsum (entry_uses (lane_config q) i) l
}.

(** What stays the same when transactions come and go. *)
Definition same_queue (q q' : SurgePricingPriorityQueue) : Prop :=
  lane_config q' = lane_config q /\ lane_limits q' = lane_limits q /\ seed q' = seed q.

Lemma same_queue_trans q q' q'' : same_queue q q' -> same_queue q' q'' -> same_queue q q''.
Proof. intros (Ha & Hb & Hc) (Ha' & Hb' & Hc'). split; [congruence|]. split; congruence. Qed.

Lemma QueueEntry_new_tx tx s : entry_tx (QueueEntry_new tx s) = tx.
Proof. done. Qed.

Lemma entry_of_good c k s lane e : entry_of c k s lane e -> good_entry e.
Proof. intros [-> Hadm]. apply (adm_rate _ _ _ _ Hadm). Qed.

Lemma new_entry_of c k s lane tx : admissible c k tx lane -> entry_of c k s lane (QueueEntry_new tx s).
Proof. intros Ha. split; [done|exact Ha]. Qed.

Lemma lookup_at {A} (l : list A) i x : l !! i = Some x -> at_index l i = Ok x.
Proof. intros E. unfold at_index. by rewrite E. Qed.

Lemma lane_at q lane : queue_ok q -> (lane < length (lane_limits q))%nat ->
  exists l r limit, lanes q !! lane = Some l /\ lane_current_count q !! lane = Some r /\ lane_limits q !! lane = Some limit /\
    vec_ok n limit /\ vec_ok n r.
Proof.
  intros Hq Hlane. destruct (lookup_lt_is_Some_2 (lanes q) lane) as [l Hl]; [by rewrite (queue_lanes q Hq)|].
  destruct (lookup_lt_is_Some_2 (lane_limits q) lane) as [limit Hlim]; [done|].
  destruct (queue_sums q Hq lane l Hl) as (r & Hr & Hv & _). exists l, r, limit. split; [done|]. split; [done|]. split; [done|].
  split; [|done]. apply (queue_limits q Hq). by apply list_elem_of_lookup_2 in Hlim.
Qed.

(** Replacing one lane and its count. *)
Lemma queue_ok_put q lane l l' r' : queue_ok q -> lanes q !! lane = Some l -> lane_set l' ->
  (forall e, e ∈ l' -> entry_of (lane_config q) (length (lane_limits q)) (seed q) lane e) ->
  vec_ok n r' -> (forall i, dim r' i = zsum (entry_uses (lane_config q) i) l') ->
  queue_ok (put_count lane r' (put_lane lane l' q)) /\ same_queue q (put_count lane r' (put_lane lane l' q)).
Proof.
  intros Hq Hl Hs He Hv Hd. split; [|done]. pose proof (lookup_lt_Some _ _ _ Hl) as Hlt. destruct Hq as [Hn Hne Hla Hco Hli Hse Hsu].
  split; simpl; try done.
  - unfold put_at. by rewrite length_insert.
  - unfold put_at. by rewrite length_insert.
  - intros lane' k Hk. unfold put_at in Hk. destruct (decide (lane = lane')) as [<-|Hne'].
    + rewrite list_lookup_insert_eq in Hk by done. injection Hk as <-. done.
    + rewrite list_lookup_insert_ne in Hk by done. by apply Hse.
  - intros lane' k Hk. unfold put_at in Hk |- *. destruct (decide (lane = lane')) as [<-|Hne'].
    + rewrite list_lookup_insert_eq in Hk by done. injection Hk as <-. exists r'.
      rewrite list_lookup_insert_eq by lia. done.
    + rewrite list_lookup_insert_ne in Hk by done. rewrite list_lookup_insert_ne by done. by apply Hsu.
Qed.

Lemma lanes_put_perm (ls : list (list QueueEntry)) lane l l' e : ls !! lane = Some l -> l' ≡ₚ e :: l ->
  concat (put_at lane l' ls) ≡ₚ e :: concat ls.
Proof.
  intros Hl Hp. unfold put_at. rewrite insert_take_drop by (by apply lookup_lt_Some in Hl).
  rewrite <- (take_drop_middle ls lane l Hl) at 3. rewrite !concat_app. simpl. rewrite Hp. simpl.
  symmetry. apply Permutation_middle.
Qed.

Lemma queue_entry q e : queue_ok q -> e ∈ concat (lanes q) ->
  exists lane l, lanes q !! lane = Some l /\ e ∈ l /\ entry_of (lane_config q) (length (lane_limits q)) (seed q) lane e.
Proof.
  intros Hq He. apply elem_of_concat in He as (l & Hl & He). apply list_elem_of_lookup in Hl as [lane Hl].
  exists lane, l. split; [done|]. split; [done|]. destruct (queue_sets q Hq lane l Hl) as [_ Hs]. by apply Hs.
Qed.

Lemma queue_uses_nonneg q e i : queue_ok q -> e ∈ concat (lanes q) -> 0 <= entry_uses (lane_config q) i e.
Proof.
  intros Hq He. destruct (queue_entry q e Hq He) as (lane & l & _ & _ & [_ Ha]). unfold entry_uses. apply Ha.
Qed.

(** ** Adding *)

Lemma add_ok q tx lane : queue_ok q -> admissible (lane_config q) (length (lane_limits q)) tx lane ->
  (forall i, zsum (entry_uses (lane_config q) i) (concat (lanes q)) + dim (uses (lane_config q) (q_envelope tx)) i <= i64_max) ->
  exists q', add tx version q = Ok q' /\ queue_ok q' /\ same_queue q q' /\
    ((lanes q' = lanes q /\ exists e, e ∈ concat (lanes q) /\ entry_compare (QueueEntry_new tx (seed q)) e = Eq) \/
     (concat (lanes q') ≡ₚ QueueEntry_new tx (seed q) :: concat (lanes q) /\
      forall l e, lanes q !! lane = Some l -> e ∈ l -> entry_compare (QueueEntry_new tx (seed q)) e <> Eq)).
Proof.
  intros Hq Ha Hroom. unfold add, get_lane, queue_resources. rewrite (adm_lane _ _ _ _ Ha), (adm_uses _ _ _ _ Ha). simpl.
  destruct (lane_at q lane Hq (adm_range _ _ _ _ Ha)) as (l & r & limit & Hl & Hr & Hlim & Hvl & Hvr).
  rewrite (lookup_at _ _ _ Hl). simpl. destruct (queue_sets q Hq lane l Hl) as [Hs He].
  set (e := QueueEntry_new tx (seed q)).
  assert (entry_of (lane_config q) (length (lane_limits q)) (seed q) lane e) as Hnew by by apply new_entry_of.
  destruct (bt_insert_spec entry_cmp entry_compare good_entry entry_cmp_ok entry_antisym entry_trans e l Hs
    (entry_of_good _ _ _ _ _ Hnew)) as [[-> (y & Hy & Hc)]|(l' & -> & Hp & Hs' & Hno)]; simpl.
  - exists (put_lane lane l q). assert (put_lane lane l q = q) as ->.
    { unfold put_lane, put_at. rewrite list_insert_id by done. by destruct q. }
    split; [done|]. split; [done|]. split; [done|]. left. split; [done|]. exists y. split; [|done].
    apply elem_of_concat. exists l. split; [by apply list_elem_of_lookup_2 in Hl|done].
  - rewrite (lookup_at _ _ _ Hr). simpl.
    destruct (queue_sums q Hq lane l Hl) as (r2 & Hr2 & _ & Hd). assert (r2 = r) as -> by congruence.
    assert (forall i, zsum (entry_uses (lane_config q) i) l <= zsum (entry_uses (lane_config q) i) (concat (lanes q))) as Hle.
    { intros i. apply zsum_le_concat; [by apply list_elem_of_lookup_2 in Hl|]. intros d. by apply queue_uses_nonneg. }
    assert (forall i, dim r i + dim (uses (lane_config q) (q_envelope tx)) i <= i64_max) as Hadd.
    { intros i. rewrite Hd. specialize (Hle i). specialize (Hroom i). lia. }
    rewrite (resource_add_dims n) by (done || apply Ha). simpl. destruct (queue_ok_put q lane l l' (radd r (uses (lane_config q) (q_envelope tx)))) as [Hq' Hsame]; try done.
    + intros d Hd'. rewrite Hp in Hd'. apply elem_of_cons in Hd' as [->|Hd']; [done|by apply He].
    + by apply radd_ok; [|apply Ha|].
    + intros i. rewrite (dim_radd n) by (apply Hvr || apply Ha). rewrite Hp, Hd.
      change (zsum _ (e :: l)) with (dim (uses (lane_config q) (q_envelope tx)) i + zsum (entry_uses (lane_config q) i) l). lia.
    + eexists. split; [done|]. split; [done|]. split; [done|]. right. split; [simpl; by apply (lanes_put_perm _ lane l)|].
      intros l2 e2 Hl2. assert (l2 = l) as -> by congruence. apply Hno.
Qed.
(** ** Erasing *)

Lemma put_lane_count_comm lane l r q : put_lane lane l (put_count lane r q) = put_count lane r (put_lane lane l q).
Proof. done. Qed.

Lemma erase_ok q lane l e : queue_ok q -> lanes q !! lane = Some l -> good_entry e ->
  (exists y q' l', y ∈ l /\ entry_compare e y = Eq /\ erase lane e version q = Ok q' /\ queue_ok q' /\ same_queue q q' /\
     lanes q' = put_at lane l' (lanes q) /\ l ≡ₚ y :: l' /\ l' `sublist_of` l) \/
  (erase lane e version q = Ok q /\ forall y, y ∈ l -> entry_compare e y <> Eq).
Proof.
  intros Hq Hl Hg. unfold erase. rewrite (lookup_at _ _ _ Hl). simpl. destruct (queue_sets q Hq lane l Hl) as [Hs He].
  destruct (bt_get_spec entry_cmp entry_compare good_entry entry_cmp_ok entry_antisym entry_trans e l Hs Hg)
    as [(y & -> & Hy & Hc)|[-> Hno]]; simpl; [left|by right].
  destruct (He y Hy) as [_ Ha]. unfold queue_resources. rewrite (adm_uses _ _ _ _ Ha). simpl.
  destruct (queue_sums q Hq lane l Hl) as (r & Hr & Hv & Hd). rewrite (lookup_at _ _ _ Hr). simpl.
  destruct (bt_remove_spec entry_cmp entry_compare good_entry entry_cmp_ok entry_antisym entry_trans e l y Hs Hg Hy Hc)
    as (l' & Erem & Hp & Hs' & Hsub).
  assert (forall i, dim r i = entry_uses (lane_config q) i y + zsum (entry_uses (lane_config q) i) l') as Hd'.
  { intros i. by rewrite Hd, Hp. }
  assert (forall x, x ∈ l' -> x ∈ l) as Hin by (intros x Hx; rewrite Hp; by right).
  assert (le_dims (uses (lane_config q) (q_envelope (entry_tx y))) r) as Hle.
  { intros i. rewrite Hd'. unfold entry_uses at 1.
    assert (0 <= zsum (entry_uses (lane_config q) i) l'); [|lia]. apply zsum_nonneg_in. intros x Hx.
    destruct (He x (Hin x Hx)) as [_ Hax]. apply Hax. }
  destruct (leq_dims n (uses (lane_config q) (q_envelope (entry_tx y))) r) as (b & -> & Hb); [apply Ha|done|].
  rewrite (proj2 Hb Hle). simpl. rewrite (resource_sub_dims n) by (done || apply Ha). simpl. rewrite Erem. simpl.
  rewrite put_lane_count_comm.
  destruct (queue_ok_put q lane l l' (rsub r (uses (lane_config q) (q_envelope (entry_tx y))))) as [Hq' Hsame]; try done.
  - intros x Hx. by apply He, Hin.
  - by apply rsub_ok; [|apply Ha|].
  - intros i. rewrite (dim_rsub n) by (apply Hv || apply Ha). rewrite Hd'. unfold entry_uses at 1. lia.
  - exists y. eexists. exists l'. split; [done|]. split; [done|]. split; [done|]. split; [done|]. split; [done|]. by split.
Qed.

(** Erasing an entry of the queue. *)
Lemma erase_in q lane l e : queue_ok q -> lanes q !! lane = Some l -> e ∈ l ->
  exists q' l', erase lane e version q = Ok q' /\ queue_ok q' /\ same_queue q q' /\
    lanes q' = put_at lane l' (lanes q) /\ l ≡ₚ e :: l' /\ l' `sublist_of` l.
Proof.
  intros Hq Hl Hin. destruct (queue_sets q Hq lane l Hl) as [Hs He].
  destruct (erase_ok q lane l e Hq Hl) as [(y & q' & l' & Hy & Hc & E & Hq' & Hsame & Hla & Hp & Hsub)|[_ Hno]].
  - by apply (entry_of_good _ _ _ _ _ (He e Hin)).
  - assert (e = y) as <- by by apply (set_ok_eq entry_compare good_entry entry_antisym l). by exists q', l'.
  - exfalso. apply (Hno e Hin), entry_refl.
Qed.

Lemma lanes_taken_perm (ls : list (list QueueEntry)) lane l l' e : ls !! lane = Some l -> l ≡ₚ e :: l' ->
  concat ls ≡ₚ e :: concat (put_at lane l' ls).
Proof.
  intros Hl Hp. rewrite <- (lanes_put_perm (put_at lane l' ls) lane l' l e).
  - unfold put_at. by rewrite list_insert_insert_eq, list_insert_id.
  - unfold put_at. apply list_lookup_insert_eq. by apply lookup_lt_Some in Hl.
  - done.
Qed.

(** ** The top *)

(** [e] is the highest entry of the active lanes. *)
Definition top_of (q : SurgePricingPriorityQueue) (active : nat -> bool) (lane : nat) (e : QueueEntry) : Prop :=
  active lane = true /\ (exists l, lanes q !! lane = Some l /\ e ∈ l) /\
  forall lane' l' e', active lane' = true -> lanes q !! lane' = Some l' -> e' ∈ l' -> cmp_le entry_compare e' e.

Lemma best_top_ok q active : queue_ok q ->
  (best_top q active = Ok None /\ forall lane l, active lane = true -> lanes q !! lane = Some l -> l = []) \/
  (exists lane e, best_top q active = Ok (Some (lane, e)) /\ top_of q active lane e).
Proof.
  intros Hq. unfold best_top.
  pose (P := fun (before : list nat) (best : option (nat * QueueEntry)) =>
    match best with
    | None => forall lane l, lane ∈ before -> active lane = true -> lanes q !! lane = Some l -> l = []
    | Some (lane, e) => active lane = true /\ (exists l, lanes q !! lane = Some l /\ e ∈ l) /\
        forall lane' l' e', lane' ∈ before -> active lane' = true -> lanes q !! lane' = Some l' -> e' ∈ l' -> cmp_le entry_compare e' e
    end).
  destruct (try_fold_invariant (better_top q active) P (seq 0 (length (lane_limits q))) None) as (best & -> & HP).
  - intros lane l Hn. by apply elem_of_nil in Hn.
  - intros before lane after best E HP. unfold better_top.
    assert (lane < length (lane_limits q))%nat as Hlt.
    { assert (lane ∈ seq 0 (length (lane_limits q))) as Hin by (rewrite E; apply elem_of_app; right; left).
      apply elem_of_seq in Hin. lia. }
    destruct (lane_at q lane Hq Hlt) as (l & r & limit & Hl & _). destruct (queue_sets q Hq lane l Hl) as [Hs He].
    destruct (active lane) eqn:Ea; simpl.
    2:{ exists best. split; [done|]. unfold P in *. destruct best as [[lane2 e2]|].
        - destruct HP as (Ha2 & Hex & Hmax). split; [done|]. split; [done|]. intros lane' l' e' Hin' Ha'.
          apply elem_of_app in Hin' as [Hin'| ->%list_elem_of_singleton]; [by apply Hmax|congruence].
        - intros lane' l' Hin' Ha'. apply elem_of_app in Hin' as [Hin'| ->%list_elem_of_singleton]; [by apply HP|congruence]. }
    unfold top_entry. rewrite (lookup_at _ _ _ Hl). simpl. destruct (last l) as [e|] eqn:El; simpl.
    2:{ apply last_None in El as ->. exists best. split; [done|]. unfold P in *. destruct best as [[lane2 e2]|].
        - destruct HP as (Ha2 & Hex & Hmax). split; [done|]. split; [done|]. intros lane' l' e' Hin' Ha' Hl' He'.
          apply elem_of_app in Hin' as [Hin'| ->%list_elem_of_singleton]; [by apply (Hmax lane' l')|].
          rewrite Hl in Hl'. injection Hl' as <-. by apply elem_of_nil in He'.
        - intros lane' l' Hin' Ha' Hl'. apply elem_of_app in Hin' as [Hin'| ->%list_elem_of_singleton]; [by apply (HP lane')|congruence]. }
    destruct (last_greatest entry_compare good_entry entry_antisym l e Hs El) as [Hel Hmaxl].
    assert (good_entry e) as Hge by by apply Hs.
    assert (forall lane' l' e', lane' = lane -> lanes q !! lane' = Some l' -> e' ∈ l' -> cmp_le entry_compare e' e) as Hthis.
    { intros lane' l' e' -> Hl' He'. rewrite Hl in Hl'. injection Hl' as <-. by apply Hmaxl. }
    unfold P in *. destruct best as [[lane2 e2]|].
    2:{ exists (Some (lane, e)). split; [done|]. split; [done|]. split; [by exists l|]. intros lane' l' e' Hin' Ha' Hl' He'.
        apply elem_of_app in Hin' as [Hin'| ->%list_elem_of_singleton]; [|by apply (Hthis lane l')].
        rewrite (HP lane' l') in He' by done. by apply elem_of_nil in He'. }
    destruct HP as (Ha2 & (l2 & Hl2 & He2) & Hmax). destruct (queue_sets q Hq lane2 l2 Hl2) as [[_ Hg2] _].
    assert (good_entry e2) as Hge2 by by apply Hg2.
    rewrite entry_cmp_ok by done. simpl. destruct (entry_compare e e2) eqn:Ec; eexists; (split; [done|]); simpl.
    1,2: split; [done|]; split; [by exists l2|]; intros lane' l' e' Hin' Ha' Hl' He';
      apply elem_of_app in Hin' as [Hin'| ->%list_elem_of_singleton]; [by apply (Hmax lane' l')|];
      apply (entry_trans e' e e2); [|done|done|by apply (Hthis lane l')|unfold cmp_le; congruence];
      rewrite Hl in Hl'; injection Hl' as <-; by apply Hs.
    split; [done|]. split; [by exists l|]. intros lane' l' e' Hin' Ha' Hl' He'.
    apply elem_of_app in Hin' as [Hin'| ->%list_elem_of_singleton]; [|by apply (Hthis lane l')].
    apply (entry_trans e' e2 e); [|done|done|by apply (Hmax lane' l')|].
    + destruct (queue_sets q Hq lane' l' Hl') as [[_ Hg'] _]. by apply Hg'.
    + unfold cmp_le. rewrite entry_antisym, Ec. done.
  - assert (forall lane l, lanes q !! lane = Some l -> lane ∈ seq 0 (length (lane_limits q))) as Hseq.
    { intros lane l Hl. apply elem_of_seq. apply lookup_lt_Some in Hl. rewrite (queue_lanes q Hq) in Hl. lia. }
    unfold P in HP. destruct best as [[lane e]|].
    + right. exists lane, e. split; [done|]. destruct HP as (Ha & Hex & Hmax). split; [done|]. split; [done|].
      intros lane' l' e' Ha' Hl'. apply (Hmax lane' l'); [by apply (Hseq lane' l')|done|done].
    + left. split; [done|]. intros lane l Ha Hl. apply (HP lane); [by apply (Hseq lane l)|done|done].
Qed.
End queue.
