(* ===== verification/SurgePricingEvict.v ===== *)
(** * SurgePricingEvict: making room for a transaction

    Evictions take the lowest entries of lanes, all of lower rates and other accounts
    than the transaction, and leave room for it in its lane and in total. *)

From S2P Require Import Prelude Bucket Ledger Lists Resource Envelope SurgePricing SurgePricingFacts.

Section evict.
Context `{EnvelopeXdr} (n : nat) (version : Z).

Notation lane_set := (set_ok entry_compare good_entry).
Notation entry_uses := (entry_uses n version).

(** ** Cursors *)

Definition taken (c : LaneCursor) : list QueueEntry := take (cursor_index c) (cursor_entries c).

Record cursor_ok (lane : nat) (c : LaneCursor) : Prop := {
  cursor_at : cursor_lane c = lane;
  cursor_range : (cursor_index c <= length (cursor_entries c))%nat;
  cursor_good : forall e, e ∈ cursor_entries c -> good_entry e
}.

Definition cursors_ok (cs : list LaneCursor) : Prop := forall lane c, cs !! lane = Some c -> cursor_ok lane c.

(** Dropping lanes keeps the rest of a cursor. *)
Definition dropped (c c' : LaneCursor) : Prop :=
  cursor_lane c' = cursor_lane c /\ cursor_entries c' = cursor_entries c /\ cursor_index c' = cursor_index c.

Lemma dropped_taken c c' : dropped c c' -> taken c' = taken c.
Proof. intros (_ & He & Hi). unfold taken. by rewrite He, Hi. Qed.

Lemma dropped_all_taken cs cs' : Forall2 dropped cs cs' -> taken <$> cs' = taken <$> cs.
Proof. induction 1 as [|c c' cs cs' Hc _ IH]; csimpl; [done|]. by rewrite IH, (dropped_taken c c' Hc). Qed.

Lemma dropped_ok cs cs' : Forall2 dropped cs cs' -> cursors_ok cs -> cursors_ok cs'.
Proof.
  intros Hd Hok lane c' Hc'. destruct (Forall2_lookup_r _ _ _ _ _ Hd Hc') as (c & Hc & Hl & He & Hi).
  destruct (Hok lane c Hc) as [Ha Hr Hg]. split; [congruence|by rewrite He, Hi|by rewrite He].
Qed.

Lemma current_taken c e : current c = Some e -> e ∈ cursor_entries c /\ taken (advance c) = taken c ++ [e] /\
  (cursor_index (advance c) <= length (cursor_entries (advance c)))%nat.
Proof.
  unfold current. destruct (cursor_active c); [|done]. intros E. pose proof (lookup_lt_Some _ _ _ E) as Hlt. split; [by apply list_elem_of_lookup_2 in E|].
  unfold taken, advance. simpl. split; [|lia]. by apply take_S_r.
Qed.

(** The least of the current entries. *)
Definition least_of (cs : list LaneCursor) (lane : nat) (e : QueueEntry) : Prop :=
  (exists c, cs !! lane = Some c /\ current c = Some e) /\
  forall c' e', c' ∈ cs -> current c' = Some e' -> cmp_le entry_compare e e'.

Lemma current_good cs c e : cursors_ok cs -> c ∈ cs -> current c = Some e -> good_entry e.
Proof.
  intros Hok [lane Hc]%list_elem_of_lookup He. apply (cursor_good _ _ (Hok lane c Hc)). by apply current_taken.
Qed.

Lemma lesser_current_ok cs : cursors_ok cs ->
  (try_fold lesser_current cs None = Ok None /\ forall c, c ∈ cs -> current c = None) \/
  (exists lane e, try_fold lesser_current cs None = Ok (Some (lane, e)) /\ least_of cs lane e).
Proof.
  intros Hok.
  pose (P := fun (before : list LaneCursor) (best : option (nat * QueueEntry)) =>
    match best with
    | None => forall c, c ∈ before -> current c = None
    | Some (lane, e) => (exists c, cs !! lane = Some c /\ current c = Some e) /\
        forall c' e', c' ∈ before -> current c' = Some e' -> cmp_le entry_compare e e'
    end).
  destruct (try_fold_invariant lesser_current P cs None) as (best & -> & HP).
  - by intros c Hn%elem_of_nil.
  - intros before c after best E HP. unfold lesser_current.
    assert (cs !! length before = Some c) as Hc by (rewrite E; by apply list_lookup_middle).
    assert (c ∈ cs) as Hin by by apply list_elem_of_lookup_2 in Hc.
    destruct (current c) as [e|] eqn:Ec.
    2:{ exists best. split; [done|]. unfold P in *. destruct best as [[lane2 e2]|].
        - destruct HP as [Hex Hmin]. split; [done|]. intros c' e' [Hc'| ->%list_elem_of_singleton]%elem_of_app He'; [by apply (Hmin c')|congruence].
        - intros c' [Hc'| ->%list_elem_of_singleton]%elem_of_app; [by apply HP|done]. }
    pose proof (current_good cs c e Hok Hin Ec) as Hge. rewrite (cursor_at _ _ (Hok _ _ Hc)).
    unfold P in *. destruct best as [[lane2 e2]|].
    2:{ exists (Some (length before, e)). split; [done|]. split; [by exists c|].
        intros c' e' [Hc'| ->%list_elem_of_singleton]%elem_of_app He'; [rewrite HP in He' by done; done|].
        assert (e' = e) as -> by congruence. unfold cmp_le. by rewrite entry_refl. }
    destruct HP as [(c2 & Hc2 & Ec2) Hmin].
    assert (good_entry e2) as Hge2 by (apply (current_good cs c2 e2 Hok); [by apply list_elem_of_lookup_2 in Hc2|done]).
    assert (forall c', c' ∈ before -> c' ∈ cs) as Hbefore by (intros c' Hc'; rewrite E; apply elem_of_app; by left).
    rewrite entry_cmp_ok by done. simpl. destruct (entry_compare e e2) eqn:Ecmp; eexists; (split; [done|]); simpl.
    2:{ split; [by exists c|]. intros c' e' [Hc'| ->%list_elem_of_singleton]%elem_of_app He'.
        - apply (entry_trans e e2 e'); [done|done|by apply (current_good cs c'); auto|unfold cmp_le; congruence|by apply (Hmin c')].
        - assert (e' = e) as -> by congruence. unfold cmp_le. by rewrite entry_refl. }
    all: split; [by exists c2|]; intros c' e' [Hc'| ->%list_elem_of_singleton]%elem_of_app He'; [by apply (Hmin c')|];
      assert (e' = e) as -> by congruence; unfold cmp_le; rewrite entry_antisym, Ecmp; done.
  - unfold P in HP. destruct best as [[lane e]|]; [right; by exists lane, e|by left].
Qed.

Definition active_count (cs : list LaneCursor) : nat := length (filter (fun c => is_Some (current c)) cs).

(** Every pass of the inner loop that goes on drops a lane that has a current entry. *)
Lemma drop_decreases cs lane c e : cs !! lane = Some c -> current c = Some e ->
  (active_count (alter drop_lane lane cs) < active_count cs)%nat /\ Forall2 dropped cs (alter drop_lane lane cs).
Proof.
  revert lane. induction cs as [|d cs IH]; intros [|lane] Hc He; try done; simpl in Hc.
  - injection Hc as ->. change (alter drop_lane 0%nat (c :: cs)) with (drop_lane c :: cs). unfold active_count. rewrite !filter_cons.
    destruct (decide (is_Some (current (drop_lane c)))) as [[? Hx]|_]; [done|].
    destruct (decide (is_Some (current c))) as [_|Hn]; [|exfalso; apply Hn; by exists e]. split; [simpl; lia|].
    constructor; [done|]. by apply Forall_Forall2_diag, Forall_true.
  - destruct (IH lane Hc He) as [Hlt Hd]. change (alter drop_lane (S lane) (d :: cs)) with (d :: alter drop_lane lane cs).
    unfold active_count in *. rewrite !filter_cons. split.
    + destruct (decide (is_Some (current d))); simpl; lia.
    + by constructor.
Qed.

Lemma dropped_trans cs cs' cs'' : Forall2 dropped cs cs' -> Forall2 dropped cs' cs'' -> Forall2 dropped cs cs''.
Proof.
  intros H1'. revert cs''. induction H1' as [|c c' cs cs' (Ha & Hb & Hc) _ IH]; intros cs'' H2'; inversion H2' as [|? c'' ? ? (Ha' & Hb' & Hc')]; subst; constructor.
  - split; [congruence|]. split; congruence.
  - by apply IH.
Qed.

Lemma next_eviction_ok lane needed_total needed_lane : vec_ok n needed_total -> vec_ok n needed_lane ->
  forall fuel due cs, cursors_ok cs -> (active_count cs < fuel)%nat ->
  next_eviction fuel lane needed_total needed_lane due cs = Ok None \/
  exists evict_lane e due' cs', next_eviction fuel lane needed_total needed_lane due cs = Ok (Some (evict_lane, e, due', cs')) /\
    Forall2 dropped cs cs' /\ least_of cs' evict_lane e.
Proof.
  intros Hnt Hnl. induction fuel as [|fuel IH]; intros due cs Hok Hf; [lia|]. simpl.
  destruct (lesser_current_ok cs Hok) as [[-> _]|(evict_lane & e & -> & Hleast)]; simpl; [by left|].
  assert (exists b, (if (lane =? GENERIC_LANE)%nat || (lane =? evict_lane)%nat then Ok true else any_greater needed_total needed_lane) = Ok b) as (b & ->).
  { destruct (_ || _); [by exists true|]. destruct (any_greater_dims n needed_total needed_lane) as (b & -> & _); [done..|]. by exists b. }
  destruct b; simpl.
  - right. exists evict_lane, e, due, cs. split; [done|]. split; [|done]. by apply Forall_Forall2_diag, Forall_true.
  - destruct Hleast as [(c & Hc & He) _]. destruct (drop_decreases cs evict_lane c e Hc He) as [Hlt Hd].
    destruct (IH true (alter drop_lane evict_lane cs)) as [?|(l' & e' & due' & cs' & E & Hd' & Hl')]; [by apply (dropped_ok cs)|lia|by left|].
    right. exists l', e', due', cs'. split; [done|]. split; [|done]. by apply (dropped_trans _ (alter drop_lane evict_lane cs)).
Qed.
(** ** The loop *)

Lemma alter_advance_perm cs lane c e : cs !! lane = Some c -> current c = Some e ->
  concat (taken <$> alter advance lane cs) ≡ₚ e :: concat (taken <$> cs).
Proof.
  intros Hc He. destruct (current_taken c e He) as (_ & Ht & _). revert lane Hc.
  induction cs as [|d cs IH]; intros [|lane] Hc; try done; simpl in Hc.
  - injection Hc as ->. change (alter advance 0%nat (c :: cs)) with (advance c :: cs). csimpl. simpl.
    rewrite Ht, <- app_assoc. simpl. symmetry. apply Permutation_middle.
  - change (alter advance (S lane) (d :: cs)) with (d :: alter advance lane cs). csimpl. simpl. rewrite (IH lane Hc).
    symmetry. apply Permutation_middle.
Qed.

Lemma alter_advance_ok cs lane c e : cursors_ok cs -> cs !! lane = Some c -> current c = Some e -> cursors_ok (alter advance lane cs).
Proof.
  intros Hok Hc He lane' d Hd. destruct (decide (lane = lane')) as [<-|Hne].
  - rewrite list_lookup_alter_eq, Hc in Hd. injection Hd as <-. destruct (Hok lane c Hc) as [Ha _ Hg].
    split; [exact Ha|by apply (current_taken c e)|exact Hg].
  - rewrite list_lookup_alter_ne in Hd by done. by apply Hok.
Qed.

Lemma alter_advance_entries (cs : list LaneCursor) (lane : nat) : cursor_entries <$> alter advance lane cs = cursor_entries <$> cs.
Proof.
  revert lane. induction cs as [|c cs IH]; intros [|lane]; try done.
  change (alter advance (S lane) (c :: cs)) with (c :: alter advance lane cs). csimpl. by rewrite IH.
Qed.

Lemma dropped_entries cs cs' : Forall2 dropped cs cs' -> cursor_entries <$> cs' = cursor_entries <$> cs.
Proof. induction 1 as [|c c' cs cs' (_ & Hc & _) _ IH]; csimpl; [done|]. by rewrite Hc, IH. Qed.

Lemma taken_length cs : (length (concat (taken <$> cs)) <= length (concat (cursor_entries <$> cs)))%nat.
Proof.
  induction cs as [|c cs IH]; [done|]. csimpl. simpl. rewrite !length_app. unfold taken at 1. rewrite length_take. lia.
Qed.

Section loop.
Context (q : SurgePricingPriorityQueue) (tx : QueuedTransaction) (lane : nat).
Context (Hq : queue_ok n version q) (Hrate : rate_ok (fee_rate tx)).

Notation uses_i i := (entry_uses (lane_config q) i).

(** The entries whose eviction frees the lane. *)
Definition freeing (cs : list LaneCursor) : list QueueEntry :=
  if (lane =? GENERIC_LANE)%nat then concat (taken <$> cs) else match cs !! lane with Some c => taken c | None => [] end.

(** Who may be evicted for [tx]. *)
Definition evictable (t : QueuedTransaction) : Prop :=
  rate_compare (fee_rate t) (fee_rate tx) = Lt /\ account_key (q_envelope t) <> account_key (q_envelope tx).

(** What is still needed of an excess, and what was evicted. *)
Record loop_ok (excess_total excess_lane : nat -> Z) (cs : list LaneCursor) (nt nl : Resource) (evs : list (QueuedTransaction * bool)) : Prop := {
  loop_cursors : cursors_ok cs;
  loop_entries : forall e, e ∈ concat (cursor_entries <$> cs) -> e ∈ concat (lanes q);
  loop_total : vec_ok n nt /\ forall i, dim nt i = Z.max (excess_total i - zsum (uses_i i) (concat (taken <$> cs))) 0;
  loop_lane : vec_ok n nl /\ forall i, dim nl i = Z.max (excess_lane i - zsum (uses_i i) (freeing cs)) 0;
  loop_evicted : evs.*1 ≡ₚ entry_tx <$> concat (taken <$> cs);
  loop_evictable : forall t, t ∈ evs.*1 -> evictable t
}.

Lemma dropped_freeing cs cs' : Forall2 dropped cs cs' -> freeing cs' = freeing cs.
Proof.
  intros Hd. unfold freeing. rewrite (dropped_all_taken cs cs' Hd). destruct (lane =? GENERIC_LANE)%nat; [done|].
  destruct (cs' !! lane) as [c'|] eqn:E.
  - destruct (Forall2_lookup_r _ _ _ _ _ Hd E) as (c & -> & Hc). by apply dropped_taken.
  - apply lookup_ge_None_1 in E. rewrite <- (Forall2_length _ _ _ Hd) in E. by rewrite lookup_ge_None_2.
Qed.

Lemma loop_dropped xt xl cs cs' nt nl evs : Forall2 dropped cs cs' -> loop_ok xt xl cs nt nl evs -> loop_ok xt xl cs' nt nl evs.
Proof.
  intros Hd [Ha Hb Hc Hl He Hf]. split.
  - by apply (dropped_ok cs).
  - by rewrite (dropped_entries cs cs').
  - by rewrite (dropped_all_taken cs cs').
  - by rewrite (dropped_freeing cs cs').
  - by rewrite (dropped_all_taken cs cs').
  - done.
Qed.

Lemma freeing_advance cs evict_lane c e : cs !! evict_lane = Some c -> current c = Some e ->
  freeing (alter advance evict_lane cs) ≡ₚ
    if (lane =? GENERIC_LANE)%nat || (lane =? evict_lane)%nat then e :: freeing cs else freeing cs.
Proof.
  intros Hc He. unfold freeing. destruct (lane =? GENERIC_LANE)%nat; simpl; [by apply (alter_advance_perm cs evict_lane c)|].
  destruct (Nat.eqb_spec lane evict_lane) as [<-|Hne].
  - rewrite list_lookup_alter_eq, Hc. simpl. destruct (current_taken c e He) as (_ & -> & _). symmetry. apply Permutation_cons_append.
  - by rewrite list_lookup_alter_ne by done.
Qed.

(** Evicting one more entry. *)
Lemma loop_step xt xl cs nt nl evs evict_lane c e b : loop_ok xt xl cs nt nl evs -> cs !! evict_lane = Some c -> current c = Some e ->
  evictable (entry_tx e) ->
  exists r nt' nl', queue_resources q (q_envelope (entry_tx e)) version = Ok r /\
    subtract_non_negative nt r = Ok nt' /\
    (if (lane =? GENERIC_LANE)%nat || (lane =? evict_lane)%nat then subtract_non_negative nl r else Ok nl) = Ok nl' /\
    loop_ok xt xl (alter advance evict_lane cs) nt' nl' (evs ++ [(entry_tx e, b)]).
Proof.
  intros [Ha Hb [Hnt Hntd] [Hnl Hnld] He Hf] Hc Hcur Hev.
  assert (e ∈ concat (lanes q)) as Hin.
  { apply Hb. apply elem_of_concat. exists (cursor_entries c). split; [|by apply current_taken].
    apply list_elem_of_fmap. exists c. split; [done|]. by apply list_elem_of_lookup_2 in Hc. }
  destruct (queue_entry n version q e Hq Hin) as (l0 & lst & _ & _ & [_ Hadm]).
  exists (uses n version (lane_config q) (q_envelope (entry_tx e))). unfold queue_resources. rewrite (adm_uses _ _ _ _ _ _ Hadm).
  set (r := uses n version (lane_config q) (q_envelope (entry_tx e))).
  assert (vec_ok n r) as Hr by apply Hadm.
  exists (rmonus nt r), (if (lane =? GENERIC_LANE)%nat || (lane =? evict_lane)%nat then rmonus nl r else nl).
  split; [done|]. split; [apply (subtract_dims n); [apply Hq|done|done]|].
  split; [destruct (_ || _); [apply (subtract_dims n); [apply Hq|done|done]|done]|]. split.
  - by apply (alter_advance_ok cs evict_lane c e).
  - by rewrite alter_advance_entries.
  - split; [by apply rmonus_ok|]. intros i. rewrite (dim_rmonus n) by (apply Hnt || apply Hr).
    rewrite (alter_advance_perm cs evict_lane c e Hc Hcur), Hntd. simpl. change (entry_uses (lane_config q) i e) with (dim r i).
    pose proof (proj2 Hr i). lia.
  - pose proof (freeing_advance cs evict_lane c e Hc Hcur) as Hfr. destruct (_ || _).
    + split; [by apply rmonus_ok|]. intros i. rewrite (dim_rmonus n) by (apply Hnl || apply Hr). rewrite Hfr, Hnld. simpl.
      change (entry_uses (lane_config q) i e) with (dim r i).
    pose proof (proj2 Hr i). lia.
    + split; [done|]. intros i. by rewrite Hfr, Hnld.
  - rewrite fmap_app, (alter_advance_perm cs evict_lane c e Hc Hcur). csimpl. rewrite He. symmetry. apply Permutation_cons_append.
  - intros t. rewrite fmap_app. csimpl. intros [Ht| ->%list_elem_of_singleton]%elem_of_app; [by apply Hf|done].
Qed.

Lemma evict_loop_ok xt xl fuel : forall cs nt nl evs, loop_ok xt xl cs nt nl evs ->
  (length (concat (cursor_entries <$> cs)) < fuel + length (concat (taken <$> cs)))%nat ->
  evict_loop q tx lane version fuel nt nl cs evs = Ok None \/
  exists evs' cs', evict_loop q tx lane version fuel nt nl cs evs = Ok (Some evs') /\
    cursor_entries <$> cs' = cursor_entries <$> cs /\ evs'.*1 ≡ₚ entry_tx <$> concat (taken <$> cs') /\
    (forall t, t ∈ evs'.*1 -> evictable t) /\
    (forall i, xt i <= zsum (uses_i i) (concat (taken <$> cs'))) /\ forall i, xl i <= zsum (uses_i i) (freeing cs').
Proof.
  induction fuel as [|fuel IH]; intros cs nt nl evs Hl Hfuel; [pose proof (taken_length cs); lia|]. cbn [evict_loop].
  pose proof Hl as [Ha Hb [Hnt Hntd] [Hnl Hnld] He Hf]. destruct (any_positive nt || any_positive nl) eqn:Epos.
  2:{ right. apply orb_false_iff in Epos as [Et El]. rewrite (any_positive_dims n) in Et, El by done.
      exists evs, cs. split; [done|]. split; [done|]. split; [done|]. split; [done|]. split; intros i.
      - specialize (Et i). rewrite Hntd in Et. lia.
      - specialize (El i). rewrite Hnld in El. lia. }
  destruct (next_eviction_ok lane nt nl Hnt Hnl (S (length cs)) false cs Ha) as [->|(el & e & due & cs' & -> & Hd & (c & Hc & Hcur) & _)].
  { unfold active_count. pose proof (length_filter (fun c => is_Some (current c)) cs). lia. }
  { by left. }
  simpl. pose proof (loop_dropped _ _ _ _ _ _ _ Hd Hl) as Hl'.
  assert (good_entry e) as Hge by (apply (current_good cs' c e); [apply Hl'|by apply list_elem_of_lookup_2 in Hc|done]).
  assert (entry_fee_rate e = fee_rate (entry_tx e)) as Erate.
  { destruct (queue_entry n version q e Hq) as (l0 & lst & _ & _ & [-> _]); [|done].
    apply (loop_entries _ _ _ _ _ _ Hl'). apply elem_of_concat. exists (cursor_entries c). split; [|by apply current_taken].
    apply list_elem_of_fmap. exists c. split; [done|]. by apply list_elem_of_lookup_2 in Hc. }
  rewrite cmp_rate_ok by done. simpl. destruct (decide (rate_compare (entry_fee_rate e) (fee_rate tx) = Lt)) as [Hlt|Hge2].
  2:{ rewrite bool_decide_true by done. by left. }
  rewrite bool_decide_false by (intros Hx; by apply Hx).
  destruct (decide (account_key (q_envelope (entry_tx e)) = account_key (q_envelope tx))) as [Hacc|Hacc].
  { rewrite bool_decide_true by done. by left. }
  rewrite bool_decide_false by done. rewrite Erate in Hlt.
  destruct (loop_step xt xl cs' nt nl evs el c e due Hl' Hc Hcur) as (r & nt' & nl' & -> & E1 & E2 & Hl2); [by split|].
  simpl. rewrite E1. simpl. rewrite E2. simpl.
  destruct (IH _ _ _ _ Hl2) as [->|(evs' & cs2 & E & Hen & Hrest)].
  - rewrite alter_advance_entries, (dropped_entries cs cs' Hd).
    rewrite (Permutation_length (alter_advance_perm cs' el c e Hc Hcur)), (dropped_all_taken cs cs' Hd). simpl. lia.
  - by left.
  - right. exists evs', cs2. split; [exact E|]. split; [|done]. by rewrite Hen, alter_advance_entries, (dropped_entries cs cs' Hd).
Qed.
End loop.
(** ** Fitting *)

(** The entries that are not excluded. *)
Definition kept (exclusion : option EvictionExclusion) (l : list QueueEntry) : list QueueEntry :=
  match exclusion with
  | Some excl => filter (fun e => entry_hash e ∉ hashes excl) l
  | None => l
  end.

(** The discount of a lane is what its excluded entries use. *)
Definition exclusion_ok (q : SurgePricingPriorityQueue) (exclusion : option EvictionExclusion) : Prop :=
  match exclusion with
  | None => True
  | Some excl => Forall2 (fun d l => vec_ok n d /\ forall i, dim d i = zsum (entry_uses (lane_config q) i) (filter (fun e => entry_hash e ∈ hashes excl) l))
      (lane_resource_discount excl) (lanes q)
  end.

Definition counts_of (q : SurgePricingPriorityQueue) (r : Resource) (l : list QueueEntry) : Prop :=
  vec_ok n r /\ forall i, dim r i = zsum (entry_uses (lane_config q) i) l.

Lemma current_counts q : queue_ok n version q -> Forall2 (counts_of q) (lane_current_count q) (lanes q).
Proof.
  intros Hq. apply Forall2_same_length_lookup_2; [by rewrite (queue_counts _ _ _ Hq), (queue_lanes _ _ _ Hq)|].
  intros lane r l Hr Hl. destruct (queue_sums _ _ _ Hq lane l Hl) as (r' & Hr' & Hv & Hd). assert (r' = r) as -> by congruence. by split.
Qed.

Lemma discounted_ok q excl : forall k counts discounts ls,
  Forall2 (counts_of q) counts ls ->
  Forall2 (fun d l => vec_ok n d /\ forall i, dim d i = zsum (entry_uses (lane_config q) i) (filter (fun e => entry_hash e ∈ hashes excl) l)) discounts ls ->
  (forall j, discounts !! j = lane_resource_discount excl !! (k + j)%nat) -> dims_ok n ->
  (forall e l i, l ∈ ls -> e ∈ l -> 0 <= entry_uses (lane_config q) i e) ->
  exists counts', try_map (discounted excl) (imap (fun i r => ((k + i)%nat, r)) counts) = Ok counts' /\
    Forall2 (counts_of q) counts' (kept (Some excl) <$> ls).
Proof.
  intros k counts discounts ls Hc. revert k discounts. induction Hc as [|r l counts ls [Hr Hrd] Hc IH]; intros k discounts Hd Hat Hn Hpos.
  { exists []. split; [done|constructor]. }
  apply Forall2_cons_inv_r in Hd as (d & ds & [Hdv Hdd] & Hd & ->).
  pose proof (Hat 0%nat) as H0'. rewrite Nat.add_0_r in H0'. simpl in H0'.
  cbn [imap try_map]. unfold discounted at 1. cbn [fst snd]. rewrite Nat.add_0_r, <- H0'.
  assert (subtract_non_negative r d = Ok (rmonus r d)) as -> by (apply (subtract_dims n); done). simpl.
  destruct (IH (S k) ds) as (counts' & E & Hcs); [done| |done| |].
  - intros j. specialize (Hat (S j)). simpl in Hat. rewrite Hat. f_equal. lia.
  - intros e l' i Hl'. apply Hpos. by right.
  - exists (rmonus r d :: counts'). erewrite imap_ext; [rewrite E; simpl|].
    2:{ intros i x Hx. simpl. f_equal. lia. }
    split; [done|]. csimpl. constructor; [|exact Hcs]. split; [by apply rmonus_ok|]. intros i.
    rewrite (dim_rmonus n) by (apply Hr || apply Hdv). rewrite Hrd, Hdd. unfold kept.
    rewrite (zsum_filter _ (fun e => entry_hash e ∈ hashes excl) l).
    assert (0 <= zsum (entry_uses (lane_config q) i) (filter (fun e => entry_hash e ∉ hashes excl) l)); [|lia].
    apply zsum_nonneg_in. intros e He. apply list_elem_of_filter in He as [_ He]. apply (Hpos e l i); [left|done].
Qed.

Lemma effective_counts_ok q exclusion : queue_ok n version q -> exclusion_ok q exclusion ->
  exists counts, effective_counts q exclusion = Ok counts /\ Forall2 (counts_of q) counts (kept exclusion <$> lanes q).
Proof.
  intros Hq Hex. pose proof (current_counts q Hq) as Hc. destruct exclusion as [excl|].
  - apply (discounted_ok q excl 0 (lane_current_count q) (lane_resource_discount excl) (lanes q) Hc Hex); [done|apply Hq|].
    intros e l i Hl He. apply (queue_uses_nonneg n version q e i Hq). apply elem_of_concat. by exists l.
  - exists (lane_current_count q). split; [done|]. unfold kept. by rewrite list_fmap_id.
Qed.

Lemma sum_counts_ok q counts ls : queue_ok n version q -> Forall2 (counts_of q) counts ls ->
  (forall i, zsum (entry_uses (lane_config q) i) (concat ls) <= i64_max) ->
  exists total, sum_counts q counts = Ok total /\ counts_of q total (concat ls).
Proof.
  intros Hq Hc Hle. unfold sum_counts.
  assert (exists limit, lane_limits q !! 0%nat = Some limit) as (limit & Hlim).
  { pose proof (queue_nonempty _ _ _ Hq). destruct (lane_limits q) as [|limit ?]; [done|]. by exists limit. }
  rewrite (lookup_at _ _ _ Hlim). simpl.
  assert (resource_size limit = n) as ->.
  { apply (queue_limits _ _ _ Hq). by apply list_elem_of_lookup_2 in Hlim. }
  rewrite make_empty_ok by apply Hq. simpl.
  assert (forall i, zsum (fun r => dim r i) counts = zsum (entry_uses (lane_config q) i) (concat ls)) as Hs.
  { intros i. clear -Hc. induction Hc as [|r l counts ls [_ Hr] _ IH]; [done|]. simpl. by rewrite IH, Hr, zsum_app. }
  destruct (try_fold_add n counts (rzero n)) as (total & -> & Ht & Hd).
  - apply rzero_ok.
  - intros r Hr. apply list_elem_of_lookup in Hr as [j Hj]. destruct (Forall2_lookup_l _ _ _ _ _ Hc Hj) as (l & _ & Hv & _). done.
  - intros i. rewrite dim_rzero, Hs. specialize (Hle i). lia.
  - exists total. split; [done|]. split; [done|]. intros i. rewrite Hd, dim_rzero, Hs. lia.
Qed.
Lemma cursors_entries exclusion ls : cursor_entries <$> imap (make_cursor exclusion) ls = kept exclusion <$> ls.
Proof. rewrite fmap_imap. unfold make_cursor. simpl. by apply imap_const. Qed.

Lemma cursors_taken exclusion ls : concat (taken <$> imap (make_cursor exclusion) ls) = [].
Proof.
  assert (forall f : nat -> list QueueEntry -> LaneCursor, (forall i l, taken (f i l) = []) -> concat (taken <$> imap f ls) = []) as Hgen.
  { induction ls as [|l ls IH]; intros f Hf; [done|]. csimpl. simpl. rewrite Hf. simpl. apply IH. intros i k. apply Hf. }
  by apply Hgen.
Qed.

Lemma kept_elem exclusion l e : e ∈ kept exclusion l -> e ∈ l.
Proof. unfold kept. destruct exclusion; [|done]. by intros [_ ?]%list_elem_of_filter. Qed.

Lemma kept_concat exclusion ls e : e ∈ concat (kept exclusion <$> ls) -> e ∈ concat ls.
Proof.
  intros (l & Hl & He)%elem_of_concat. apply list_elem_of_fmap in Hl as (l0 & -> & Hl). apply elem_of_concat.
  exists l0. split; [done|]. by apply kept_elem in He.
Qed.

Lemma kept_length exclusion ls : (length (concat (kept exclusion <$> ls)) <= length (concat ls))%nat.
Proof.
  induction ls as [|l ls IH]; [done|]. csimpl. simpl. rewrite !length_app. unfold kept at 1. destruct exclusion as [excl|]; [|lia].
  pose proof (length_filter (fun e => entry_hash e ∉ hashes excl) l). lia.
Qed.

Lemma kept_sum exclusion q i : queue_ok n version q ->
  zsum (entry_uses (lane_config q) i) (concat (kept exclusion <$> lanes q)) <= zsum (entry_uses (lane_config q) i) (concat (lanes q)).
Proof.
  intros Hq. assert (forall e, e ∈ concat (lanes q) -> 0 <= entry_uses (lane_config q) i e) as Hpos by (intros e; by apply queue_uses_nonneg).
  clear Hq. induction (lanes q) as [|l ls IH]; [done|]. csimpl. simpl. rewrite !zsum_app.
  assert (zsum (entry_uses (lane_config q) i) (kept exclusion l) <= zsum (entry_uses (lane_config q) i) l).
  { unfold kept. destruct exclusion as [excl|]; [|done]. rewrite (zsum_filter _ (fun e => entry_hash e ∈ hashes excl) l).
    assert (0 <= zsum (entry_uses (lane_config q) i) (filter (fun e => entry_hash e ∈ hashes excl) l)); [|lia].
    apply zsum_nonneg_in. intros e He. apply list_elem_of_filter in He as [_ He]. apply Hpos. simpl. apply elem_of_app. by left. }
  assert (zsum (entry_uses (lane_config q) i) (concat (kept exclusion <$> ls)) <= zsum (entry_uses (lane_config q) i) (concat ls)); [|lia].
  apply IH. intros e He. apply Hpos. simpl. apply elem_of_app. by right.
Qed.

(** What the transaction needs, less the discount for the one it replaces. *)
Definition need (q : SurgePricingPriorityQueue) (tx : QueuedTransaction) (discount : option Resource) : Resource :=
  let r := uses n version (lane_config q) (q_envelope tx) in
  match discount with Some d => rmonus r d | None => r end.
Definition discount_ok (discount : option Resource) : Prop := match discount with Some d => vec_ok n d | None => True end.

(** The entries [ks] of the lowest of each lane. *)
Definition lowest (ks : list nat) (ls : list (list QueueEntry)) : list (list QueueEntry) := zip_with take ks ls.

Lemma taken_lowest cs : taken <$> cs = lowest (cursor_index <$> cs) (cursor_entries <$> cs).
Proof. induction cs as [|c cs IH]; csimpl; [done|]. by rewrite IH. Qed.

(** [gone] leaves room for [r] below [limit] in what [ls] uses. *)
Definition room_for (q : SurgePricingPriorityQueue) (l gone : list QueueEntry) (r limit : Resource) : Prop :=
  forall i, zsum (entry_uses (lane_config q) i) l - zsum (entry_uses (lane_config q) i) gone + dim r i <= dim limit i.

(** The cursors before anything is evicted. *)
Lemma initial_loop q tx lane exclusion limit limit0 nt nl : queue_ok n version q -> vec_ok n limit -> vec_ok n limit0 -> vec_ok n nt -> vec_ok n nl ->
  loop_ok q tx lane (fun i => dim nt i - dim limit0 i) (fun i => dim nl i - dim limit i) (imap (make_cursor exclusion) (lanes q))
    (rmonus nt limit0) (rmonus nl limit) [].
Proof.
  intros Hq Hv Hv0 Hnt Hnl. split.
  - intros i c Hc. rewrite list_lookup_imap in Hc. destruct (lanes q !! i) as [l|] eqn:El; [|done]. injection Hc as <-.
    split; [done|simpl; lia|]. intros e He. apply (queue_sets _ _ _ Hq i l El). by apply (kept_elem exclusion).
  - intros e. rewrite cursors_entries. apply kept_concat.
  - split; [by apply rmonus_ok|]. intros i. rewrite cursors_taken, (dim_rmonus n) by (apply Hnt || apply Hv0). simpl. lia.
  - split; [by apply rmonus_ok|]. intros i. rewrite (dim_rmonus n) by (apply Hnl || apply Hv).
    assert (freeing lane (imap (make_cursor exclusion) (lanes q)) = []) as ->; [|simpl; lia].
    unfold freeing. rewrite cursors_taken. destruct (_ =? _)%nat; [done|]. rewrite list_lookup_imap. by destruct (lanes q !! lane).
  - by rewrite cursors_taken.
  - intros t Ht. by apply elem_of_nil in Ht.
Qed.

(** The decision, from the totals with the transaction. *)
Lemma fit_decision q tx lane exclusion limit limit0 l nt nl discount :
  queue_ok n version q -> rate_ok (fee_rate tx) -> vec_ok n limit -> vec_ok n limit0 -> vec_ok n nt -> vec_ok n nl -> lanes q !! lane = Some l ->
  (forall i, dim nt i = zsum (entry_uses (lane_config q) i) (concat (kept exclusion <$> lanes q)) + dim (need q tx discount) i) ->
  (forall i, dim nl i = zsum (entry_uses (lane_config q) i) (kept exclusion l) + dim (need q tx discount) i) ->
  let decision :=
    let? total_ok := leq nt limit0 in
    let? lane_ok := if total_ok : bool then leq nl limit else Ok false in
    if total_ok && lane_ok then Ok (Some [])
    else
      let? needed_total := subtract_non_negative nt limit0 in
      let? needed_lane := subtract_non_negative nl limit in
      evict_loop q tx lane version (S (length (concat (lanes q)))) needed_total needed_lane (imap (make_cursor exclusion) (lanes q)) [] in
  decision = Ok None \/
  exists evs ks, decision = Ok (Some evs) /\
    length ks = length (lanes q) /\
    evs.*1 ≡ₚ entry_tx <$> concat (lowest ks (kept exclusion <$> lanes q)) /\ (forall t, t ∈ evs.*1 -> evictable tx t) /\
    room_for q (concat (kept exclusion <$> lanes q)) (concat (lowest ks (kept exclusion <$> lanes q))) (need q tx discount) limit0 /\
    (lane <> GENERIC_LANE -> forall l k, lanes q !! lane = Some l -> ks !! lane = Some k ->
       room_for q (kept exclusion l) (take k (kept exclusion l)) (need q tx discount) limit).
Proof.
  intros Hq Hrate Hv Hv0 Hnt Hnl Hl Hntd Hnld. cbv zeta.
  destruct (leq_dims n nt limit0 Hnt Hv0) as (b & -> & Hb). simpl.
  assert (exists b', (if b then leq nl limit else Ok false) = Ok b' /\ (b = true -> b' = true -> le_dims nl limit)) as (b' & -> & Hb').
  { destruct b; [|by exists false]. destruct (leq_dims n nl limit Hnl Hv) as (b' & -> & Hb'). exists b'. split; [done|]. intros _. apply Hb'. }
  simpl. destruct (b && b') eqn:Ebb.
  - apply andb_true_iff in Ebb as [-> ->]. right. exists [], (replicate (length (lanes q)) 0%nat).
    assert (forall ls, concat (lowest (replicate (length ls) 0%nat) ls) = []) as Hnone by (induction ls; simpl; [done|done]).
    split; [done|]. split; [apply length_replicate|].
    assert (concat (lowest (replicate (length (lanes q)) 0%nat) (kept exclusion <$> lanes q)) = []) as ->.
    { rewrite <- (length_fmap (kept exclusion)). apply Hnone. }
    split; [done|]. split; [intros t Ht; by apply elem_of_nil in Ht|]. split.
    + intros i. simpl. pose proof (proj1 Hb eq_refl i) as Hi. rewrite Hntd in Hi. lia.
    + intros _ l' k Hl' Hk. apply lookup_replicate in Hk as [-> _]. assert (l' = l) as -> by congruence. intros i. simpl.
      pose proof (Hb' eq_refl eq_refl i) as Hi. rewrite Hnld in Hi. lia.
  - rewrite !(subtract_dims n) by (done || apply Hq). simpl.
    destruct (evict_loop_ok q tx lane Hq Hrate (fun i => dim nt i - dim limit0 i) (fun i => dim nl i - dim limit i)
                (S (length (concat (lanes q)))) (imap (make_cursor exclusion) (lanes q)) (rmonus nt limit0) (rmonus nl limit) [])
      as [E|(evs & cs & E & Hen & Hevs & Hev & Ht & Hla)].
    + apply (initial_loop q tx lane exclusion); done.
    + rewrite cursors_entries, cursors_taken. pose proof (kept_length exclusion (lanes q)). simpl. lia.
    + left. exact E.
    + right. rewrite cursors_entries in Hen. rewrite taken_lowest, Hen in Hevs, Ht. exists evs, (cursor_index <$> cs).
      assert (length cs = length (lanes q)) as Hlen by (by rewrite <- (length_fmap cursor_entries), Hen, length_fmap).
      split; [exact E|]. split; [by rewrite length_fmap|]. split; [done|]. split; [done|]. split.
      * intros i. specialize (Ht i). simpl in Ht. rewrite Hntd in Ht. lia.
      * intros Hlane l' k Hl' Hk i. assert (l' = l) as -> by congruence. specialize (Hla i). simpl in Hla. rewrite Hnld in Hla.
        unfold freeing in Hla. destruct (Nat.eqb_spec lane GENERIC_LANE); [done|].
        rewrite list_lookup_fmap in Hk. destruct (cs !! lane) as [c|] eqn:Ec; [|done]. injection Hk as <-.
        assert (cursor_entries c = kept exclusion l) as Ecl.
        { assert ((cursor_entries <$> cs) !! lane = Some (cursor_entries c)) as Hx by by rewrite list_lookup_fmap, Ec.
          rewrite Hen, list_lookup_fmap, Hl in Hx. injection Hx as Hx. done. }
        unfold taken in Hla. rewrite Ecl in Hla. lia.
Qed.

Lemma can_fit_ok q tx lane discount exclusion limit limit0 :
  queue_ok n version q -> admissible n version (lane_config q) (length (lane_limits q)) tx lane -> discount_ok discount ->
  exclusion_ok q exclusion -> lane_limits q !! lane = Some limit -> lane_limits q !! GENERIC_LANE = Some limit0 ->
  (forall i, zsum (entry_uses (lane_config q) i) (concat (lanes q)) <= i64_max) ->
  can_fit_with_eviction tx discount version exclusion q = Ok None \/
  exists evs ks, can_fit_with_eviction tx discount version exclusion q = Ok (Some evs) /\
    length ks = length (lanes q) /\
    evs.*1 ≡ₚ entry_tx <$> concat (lowest ks (kept exclusion <$> lanes q)) /\ (forall t, t ∈ evs.*1 -> evictable tx t) /\
    room_for q (concat (kept exclusion <$> lanes q)) (concat (lowest ks (kept exclusion <$> lanes q))) (need q tx discount) limit0 /\
    (lane <> GENERIC_LANE -> forall l k, lanes q !! lane = Some l -> ks !! lane = Some k ->
       room_for q (kept exclusion l) (take k (kept exclusion l)) (need q tx discount) limit).
Proof.
  intros Hq Ha Hd Hex Hlim Hlim0 Hroom. unfold can_fit_with_eviction, get_lane, queue_resources.
  rewrite (adm_lane _ _ _ _ _ _ Ha), (adm_uses _ _ _ _ _ _ Ha). simpl.
  assert (vec_ok n (need q tx discount)) as Hneed.
  { unfold need. destruct discount; [apply rmonus_ok; [apply Ha|done]|apply Ha]. }
  assert ((match discount with Some d => subtract_non_negative (uses n version (lane_config q) (q_envelope tx)) d
           | None => Ok (uses n version (lane_config q) (q_envelope tx)) end) = Ok (need q tx discount)) as ->.
  { unfold need. destruct discount; [apply (subtract_dims n); [apply Hq|apply Ha|done]|done]. }
  simpl. destruct (effective_counts_ok q exclusion Hq Hex) as (counts & -> & Hcounts). simpl.
  destruct (sum_counts_ok q counts (kept exclusion <$> lanes q) Hq Hcounts) as (total & -> & Htv & Htd).
  { intros i. pose proof (kept_sum exclusion q i Hq). specialize (Hroom i). lia. }
  simpl. rewrite (lookup_at _ _ _ Hlim0). simpl.
  assert (vec_ok n limit0 /\ vec_ok n limit) as [Hv0 Hv].
  { split; apply (queue_limits _ _ _ Hq); by eapply list_elem_of_lookup_2. }
  destruct (any_greater_dims n (need q tx discount) limit0 Hneed Hv0) as (b0 & -> & _). simpl.
  rewrite (lookup_at _ _ _ Hlim). simpl. destruct b0; simpl; [by left|].
  destruct (any_greater_dims n (need q tx discount) limit Hneed Hv) as (b1 & -> & _). simpl. destruct b1; simpl; [by left|].
  destruct (can_add_dims n total (need q tx discount) Htv Hneed) as (b2 & -> & Hb2). simpl.
  pose proof (adm_range _ _ _ _ _ _ Ha) as Hrange. destruct (lane_at n version q lane Hq Hrange) as (l & r0 & lim' & Hl & _).
  assert (exists r, counts !! lane = Some r /\ counts_of q r (kept exclusion l)) as (r & Hr & Hrv & Hrd).
  { destruct (Forall2_lookup_r _ _ _ lane (kept exclusion l) Hcounts) as (r & Hr & Hc); [by rewrite list_lookup_fmap, Hl|]. by exists r. }
  rewrite (lookup_at _ _ _ Hr). simpl. destruct b2; simpl; [|by left].
  destruct (can_add_dims n r (need q tx discount) Hrv Hneed) as (b3 & -> & Hb3). simpl. destruct b3; simpl; [|by left].
  specialize (proj1 Hb2 eq_refl) as Hadd2. specialize (proj1 Hb3 eq_refl) as Hadd3.
  rewrite !(resource_add_dims n) by done. simpl.
  set (nt := radd total (need q tx discount)). set (nl := radd r (need q tx discount)).
  assert (vec_ok n nt) as Hnt by by apply radd_ok. assert (vec_ok n nl) as Hnl by by apply radd_ok.
  assert (forall i, dim nt i = zsum (entry_uses (lane_config q) i) (concat (kept exclusion <$> lanes q)) + dim (need q tx discount) i) as Hntd.
  { intros i. unfold nt. rewrite (dim_radd n) by (apply Htv || apply Hneed). by rewrite Htd. }
  assert (forall i, dim nl i = zsum (entry_uses (lane_config q) i) (kept exclusion l) + dim (need q tx discount) i) as Hnld.
  { intros i. unfold nl. rewrite (dim_radd n) by (apply Hrv || apply Hneed). by rewrite Hrd. }
  apply (fit_decision q tx lane exclusion limit limit0 l nt nl); try done. apply Ha.
Qed.
End evict.
