(* ===== verification/SurgePricingPop.v ===== *)
(** * SurgePricingPop: visiting the transactions of a queue from the highest rate down

    Whatever the visitor answers, transactions are visited in descending order, what is
    processed stays within the limits of its lane and of the generic lane, and what is
    passed over did not fit. *)

From S2P Require Import Prelude Bucket Ledger Lists Resource Envelope SurgePricing SurgePricingFacts.

Section pop.
Context `{EnvelopeXdr} (n : nat) (version : Z) {S : Type} (visitor : S -> QueuedTransaction -> VisitTxResult * S).

Notation entry_uses := (entry_uses n version).

(** The state of the visitor after some visits, and what it processed. *)
Definition visit_all (s : S) (es : list QueueEntry) : S := foldl (fun s e => (visitor s (entry_tx e)).2) s es.
Fixpoint processed (s : S) (es : list QueueEntry) : list QueueEntry :=
  match es with
  | [] => []
  | e :: es =>
      let (r, s) := visitor s (entry_tx e) in
      match r with Processed => e :: processed s es | _ => processed s es end
  end.

(** The entries charged to a lane: all to the generic one. *)
Definition charged_to (c : LaneConfig) (lane : nat) (es : list QueueEntry) : list QueueEntry :=
  if (lane =? GENERIC_LANE)%nat then es
  else filter (fun e => in_lane c lane e = true) es.

Definition room_ok (k : nat) (room : list Resource) : Prop := length room = k /\ forall r, r ∈ room -> vec_ok n r.

(** [room'] is what [es] leave of [room]. *)
Definition charged (c : LaneConfig) (es : list QueueEntry) (room room' : list Resource) : Prop :=
  forall lane r r', room !! lane = Some r -> room' !! lane = Some r' ->
    forall i, dim r' i = dim r i - zsum (entry_uses c i) (charged_to c lane es).

(** The entry does not fit in its lane or in the generic one. *)
Definition does_not_fit (c : LaneConfig) (room : list Resource) (e : QueueEntry) : Prop :=
  exists lane r, config_lane c (q_envelope (entry_tx e)) = Ok lane /\ (room !! lane = Some r \/ room !! GENERIC_LANE = Some r) /\
    exists i, dim r i < entry_uses c i e.

Definition descending : list QueueEntry -> Prop := StronglySorted (fun a b => cmp_le entry_compare b a).

Definition in_active (q : SurgePricingPriorityQueue) (active : list bool) (e : QueueEntry) : Prop :=
  exists lane l, lane_active active lane = true /\ lanes q !! lane = Some l /\ e ∈ l.

Lemma charged_nil c room : charged c [] room room.
Proof. intros lane r r' Hr Hr' i. assert (r' = r) as -> by congruence. unfold charged_to. destruct (_ =? _)%nat; simpl; lia. Qed.

Lemma not_le_dims r s : ~ le_dims r s -> length (values r) = n -> length (values s) = n -> exists i, dim s i < dim r i.
Proof.
  intros Hno Hr Hs. assert (exists i, (i < n)%nat /\ dim s i < dim r i) as (i & _ & Hi); [|by exists i].
  assert (~ forall i, (i < n)%nat -> dim r i <= dim s i) as Hno'.
  { intros Hle. apply Hno. intros i. destruct (decide (i < n)%nat); [by apply Hle|]. rewrite !(dim_out n); try done; lia. }
  clear Hno Hr Hs. induction n as [|m IH]; [exfalso; apply Hno'; lia|].
  destruct (decide (dim s m < dim r m)); [exists m; split; [lia|done]|].
  destruct IH as (i & Hi & Hlt); [|exists i; split; [lia|done]].
  intros Hle. apply Hno'. intros i Hi. destruct (decide (i = m)) as [->|]; [lia|apply Hle; lia].
Qed.

(** ** One charge *)

Lemma charge_at_ok k lane r room : room_ok k room -> (lane < k)%nat -> vec_ok n r ->
  (forall x, room !! lane = Some x -> le_dims r x) ->
  exists x, room !! lane = Some x /\ charge_at lane r room = Ok (put_at lane (rsub x r) room) /\ room_ok k (put_at lane (rsub x r) room).
Proof.
  intros [Hk Hv] Hlane Hr Hle. destruct (lookup_lt_is_Some_2 room lane) as [x Hx]; [lia|]. exists x. split; [done|].
  assert (vec_ok n x) as Hvx by (apply Hv; by apply list_elem_of_lookup_2 in Hx).
  unfold charge_at, at_index. rewrite Hx. simpl. rewrite (resource_sub_dims n) by auto. simpl. split; [done|].
  split; [unfold put_at; by rewrite length_insert|]. intros y [j Hj]%list_elem_of_lookup. unfold put_at in Hj.
  destruct (decide (lane = j)) as [<-|Hne].
  - rewrite list_lookup_insert_eq in Hj by lia. injection Hj as <-. apply rsub_ok; auto.
  - rewrite list_lookup_insert_ne in Hj by done. apply Hv. by apply list_elem_of_lookup_2 in Hj.
Qed.

Lemma charge_ok k c lane e room : room_ok k room -> (lane < k)%nat -> config_lane c (q_envelope (entry_tx e)) = Ok lane ->
  vec_ok n (uses n version c (q_envelope (entry_tx e))) ->
  (forall x, room !! lane = Some x -> le_dims (uses n version c (q_envelope (entry_tx e))) x) ->
  (forall x, room !! GENERIC_LANE = Some x -> le_dims (uses n version c (q_envelope (entry_tx e))) x) ->
  exists room', charge lane (uses n version c (q_envelope (entry_tx e))) room = Ok room' /\ room_ok k room' /\ charged c [e] room room'.
Proof.
  intros Hroom Hlane Hc Hv Hl Hg. unfold charge. set (r := uses n version c (q_envelope (entry_tx e))) in *.
  destruct (charge_at_ok k GENERIC_LANE r room Hroom) as (x & Hx & -> & Hroom1); [unfold GENERIC_LANE; lia|done|done|]. simpl.
  assert (vec_ok n x) as Hvx by (apply Hroom; by apply list_elem_of_lookup_2 in Hx).
  assert (forall i, dim (rsub x r) i = dim x i - entry_uses c i e) as Hdx by (intros i; by rewrite (dim_rsub n) by (apply Hvx || apply Hv)).
  destruct (Nat.eqb_spec lane GENERIC_LANE) as [->|Hne].
  - eexists. split; [done|]. split; [done|]. intros lane' a b Ha Hb i. unfold put_at in Hb.
    destruct (decide (lane' = GENERIC_LANE)) as [->|Hne'].
    + rewrite list_lookup_insert_eq in Hb by (by apply lookup_lt_Some in Hx). injection Hb as <-. assert (a = x) as -> by congruence.
      rewrite Hdx. unfold charged_to. simpl. lia.
    + rewrite list_lookup_insert_ne in Hb by done. assert (a = b) as -> by congruence. unfold charged_to.
      destruct (Nat.eqb_spec lane' GENERIC_LANE); [done|]. rewrite filter_cons, decide_False by (unfold in_lane; rewrite Hc, Nat.eqb_eq; congruence). simpl. lia.
  - destruct (charge_at_ok k lane r (put_at GENERIC_LANE (rsub x r) room) Hroom1 Hlane Hv) as (y & Hy & -> & Hroom2).
    { intros y Hy. unfold put_at in Hy. rewrite list_lookup_insert_ne in Hy by done. by apply Hl. }
    assert (room !! lane = Some y) as Hy0 by (unfold put_at in Hy; by rewrite list_lookup_insert_ne in Hy by done).
    assert (vec_ok n y) as Hvy by (apply Hroom; by apply list_elem_of_lookup_2 in Hy0).
    eexists. split; [done|]. split; [done|]. intros lane' a b Ha Hb i. unfold put_at in Hb.
    destruct (decide (lane' = lane)) as [->|Hne'].
    + rewrite list_lookup_insert_eq in Hb by (by apply lookup_lt_Some in Hy). injection Hb as <-. assert (a = y) as -> by congruence.
      rewrite (dim_rsub n) by (apply Hvy || apply Hv). unfold charged_to. destruct (Nat.eqb_spec lane GENERIC_LANE); [done|].
      rewrite filter_cons, decide_True by (unfold in_lane; by rewrite Hc, Nat.eqb_refl).
      simpl. change (entry_uses c i e) with (dim r i). lia.
    + rewrite list_lookup_insert_ne in Hb by done. destruct (decide (lane' = GENERIC_LANE)) as [->|Hne2].
      * rewrite list_lookup_insert_eq in Hb by (by apply lookup_lt_Some in Hx). injection Hb as <-. assert (a = x) as -> by congruence.
        rewrite Hdx. unfold charged_to. simpl. lia.
      * rewrite list_lookup_insert_ne in Hb by done. assert (a = b) as -> by congruence. unfold charged_to.
        destruct (Nat.eqb_spec lane' GENERIC_LANE); [done|]. rewrite filter_cons, decide_False by (unfold in_lane; rewrite Hc, Nat.eqb_eq; congruence). simpl. lia.
Qed.

Lemma charged_cons c e es k room room1 room2 : room_ok k room -> room_ok k room1 -> charged c [e] room room1 -> charged c es room1 room2 ->
  charged c (e :: es) room room2.
Proof.
  intros [Hk _] [Hk1 _] H1' H2' lane r r' Hr Hr' i.
  destruct (lookup_lt_is_Some_2 room1 lane) as [r1 Hr1]; [apply lookup_lt_Some in Hr; lia|].
  rewrite (H2' lane r1 r' Hr1 Hr' i), (H1' lane r r1 Hr Hr1 i). unfold charged_to. destruct (_ =? _)%nat; simpl; [lia|].
  rewrite !filter_cons. destruct (decide _); simpl; lia.
Qed.

(** What did not fit still does not when more was charged. *)
Lemma does_not_fit_mono c e es k room room' : room_ok k room -> room_ok k room' -> charged c es room room' ->
  (forall e' i, e' ∈ es -> 0 <= entry_uses c i e') -> does_not_fit c room e -> does_not_fit c room' e.
Proof.
  intros [Hk _] [Hk' _] Hch Hpos (lane & r & Hc & Hr & i & Hi).
  assert (forall lane2 r2, room !! lane2 = Some r2 -> exists r2', room' !! lane2 = Some r2' /\ dim r2' i <= dim r2 i) as Hstep.
  { intros lane2 r2 Hr2. destruct (lookup_lt_is_Some_2 room' lane2) as [r2' Hr2']; [apply lookup_lt_Some in Hr2; lia|].
    exists r2'. split; [done|]. rewrite (Hch lane2 r2 r2' Hr2 Hr2' i).
    assert (0 <= zsum (entry_uses c i) (charged_to c lane2 es)); [|lia]. apply zsum_nonneg_in. intros x Hx. apply Hpos.
    unfold charged_to in Hx. destruct (_ =? _)%nat; [done|]. by apply list_elem_of_filter in Hx as [_ ?]. }
  destruct Hr as [Hr|Hr]; destruct (Hstep _ _ Hr) as (r' & Hr' & Hle); exists lane, r'; (split; [done|]); (split; [by auto|]); exists i; lia.
Qed.
(** ** The loop *)

Section loop.
Context (allow_gaps : bool).

Notation loop := (pop_loop visitor allow_gaps version).

Definition actives (active : list bool) : nat := length (filter (fun b => b = true) active).

Definition all_active (q : SurgePricingPriorityQueue) (active : list bool) : Prop :=
  forall lane l, lanes q !! lane = Some l -> lane_active active lane = true.

(** Lanes that were left have an entry that does not fit. *)
Definition stuck (q : SurgePricingPriorityQueue) (room : list Resource) (active : list bool) : Prop :=
  forall lane l, lane_active active lane = false -> lanes q !! lane = Some l -> l = [] \/ exists e, e ∈ l /\ does_not_fit (lane_config q) room e.

(** What a run from [q], [s] and [room] comes to. *)
Record run_ok (q : SurgePricingPriorityQueue) (s : S) (room : list Resource) (active : list bool)
    (q' : SurgePricingPriorityQueue) (s' : S) (room' : list Resource) (visited skipped : list QueueEntry) : Prop := {
  run_queue : queue_ok n version q';
  run_same : same_queue q q';
  run_state : s' = visit_all s visited;
  run_order : descending visited;
  run_active : forall e, e ∈ visited -> in_active q active e;
  run_parts : concat (lanes q) ≡ₚ visited ++ skipped ++ concat (lanes q');
  run_room : room_ok (length (lane_limits q)) room';
  run_charged : charged (lane_config q) (processed s visited) room room';
  run_skipped : forall e, e ∈ skipped -> does_not_fit (lane_config q) room' e;
  run_gaps : if allow_gaps then all_active q active -> concat (lanes q') = []
             else skipped = [] /\ (stuck q room active -> concat (lanes q') = [] \/
                    exists e, e ∈ concat (lanes q') /\ does_not_fit (lane_config q) room' e)
}.

Lemma processed_sub s es e : e ∈ processed s es -> e ∈ es.
Proof.
  revert s. induction es as [|d es IH]; intros s; simpl; [done|]. destruct (visitor s (entry_tx d)) as [[] s1].
  3: intros [->|He]%elem_of_cons; [left|right; by apply (IH s1)].
  all: intros He; right; by apply (IH s1).
Qed.

(** The lanes after an erasure. *)
Lemma erased_active q q1 lane l l' e active e' : lanes q !! lane = Some l -> lanes q1 = put_at lane l' (lanes q) -> l ≡ₚ e :: l' ->
  in_active q1 active e' -> in_active q active e'.
Proof.
  intros Hl Hla Hp (j & k & Ha & Hk & He'). rewrite Hla in Hk. unfold put_at in Hk. destruct (decide (lane = j)) as [<-|Hne].
  - rewrite list_lookup_insert_eq in Hk by (by apply lookup_lt_Some in Hl). injection Hk as <-. exists lane, l.
    split; [done|]. split; [done|]. rewrite Hp. by right.
  - rewrite list_lookup_insert_ne in Hk by done. by exists j, k.
Qed.

Lemma in_active_bound q active lane e e' : top_of q (lane_active active) lane e -> in_active q active e' -> cmp_le entry_compare e' e.
Proof. intros (_ & _ & Hmax) (j & k & Ha & Hk & He'). by apply (Hmax j k). Qed.

Lemma concat_nil {A} (ls : list (list A)) : (forall l, l ∈ ls -> l = []) -> concat ls = [].
Proof. induction ls as [|l ls IH]; intros Hn; [done|]. simpl. rewrite (Hn l) by left. apply IH. intros k Hk. apply Hn. by right. Qed.

(** No active lane has an entry. *)
Lemma run_done q s room active : queue_ok n version q -> room_ok (length (lane_limits q)) room ->
  (forall lane l, lane_active active lane = true -> lanes q !! lane = Some l -> l = []) -> run_ok q s room active q s room [] [].
Proof.
  intros Hq Hroom Hempty. split; try done.
  - constructor.
  - intros e He. by apply elem_of_nil in He.
  - apply charged_nil.
  - intros e He. by apply elem_of_nil in He.
  - destruct allow_gaps.
    + intros Hall. apply concat_nil. intros l [lane Hl]%list_elem_of_lookup. by apply (Hempty lane l), Hl; apply (Hall lane l).
    + split; [done|]. intros Hstuck. destruct (concat (lanes q)) as [|e es] eqn:E; [by left|right].
      assert (e ∈ concat (lanes q)) as He by (rewrite E; left). apply elem_of_concat in He as (l & Hl & He).
      apply list_elem_of_lookup in Hl as [lane Hl]. destruct (lane_active active lane) eqn:Ea.
      { rewrite (Hempty lane l Ea Hl) in He. by apply elem_of_nil in He. }
      destruct (Hstuck lane l Ea Hl) as [->|(x & Hx & Hno)]; [by apply elem_of_nil in He|]. exists x. split; [|done].
      rewrite <- E. apply elem_of_concat. exists l. split; [by apply list_elem_of_lookup_2 in Hl|done].
Qed.

(** What is left after an erasure in an active lane. *)
Lemma erased_stuck q q1 room room1 active lane l l' es k : lanes q !! lane = Some l -> lanes q1 = put_at lane l' (lanes q) ->
  lane_config q1 = lane_config q -> lane_active active lane = true -> room_ok k room -> room_ok k room1 ->
  charged (lane_config q) es room room1 -> (forall e' i, e' ∈ es -> 0 <= entry_uses (lane_config q) i e') ->
  stuck q room active -> stuck q1 room1 active.
Proof.
  intros Hl Hla Hcfg Ha Hr Hr1 Hch Hpos Hst j m Hj Hm. rewrite Hla in Hm. unfold put_at in Hm.
  rewrite list_lookup_insert_ne in Hm by congruence. rewrite Hcfg. destruct (Hst j m Hj Hm) as [->|(e & He & Hno)]; [by left|right].
  exists e. split; [done|]. by apply (does_not_fit_mono _ e es k room room1).
Qed.

Lemma erased_all_active q q1 active lane l' : lanes q1 = put_at lane l' (lanes q) -> all_active q active -> all_active q1 active.
Proof.
  intros Hla Hall j m Hm. rewrite Hla in Hm. apply lookup_lt_Some in Hm. unfold put_at in Hm. rewrite length_insert in Hm.
  apply lookup_lt_is_Some_2 in Hm as [m' Hm']. by apply (Hall j m').
Qed.

(** A run after an entry was visited, or passed over. *)
Lemma run_visit q s room active q1 room1 lane l l' e q' s' room' visited skipped :
  queue_ok n version q -> room_ok (length (lane_limits q)) room -> room_ok (length (lane_limits q)) room1 ->
  top_of q (lane_active active) lane e -> lanes q !! lane = Some l ->
  same_queue q q1 -> lanes q1 = put_at lane l' (lanes q) -> l ≡ₚ e :: l' ->
  charged (lane_config q) (processed s [e]) room room1 ->
  run_ok q1 (visitor s (entry_tx e)).2 room1 active q' s' room' visited skipped ->
  run_ok q s room active q' s' room' (e :: visited) skipped.
Proof.
  intros Hq Hroom Hroom1 Htop Hl Hsame Hla Hp Hch [Rq Rs Rst Ro Ra Rp Rr Rc Rk Rg].
  assert (e ∈ concat (lanes q)) as Hinq by (apply elem_of_concat; exists l; split; [by apply list_elem_of_lookup_2 in Hl|rewrite Hp; left]).
  pose proof Hsame as (Hcfg & Hlim & _). rewrite Hcfg in Rc, Rk, Rg. rewrite Hlim in Rr.
  assert (forall e', in_active q1 active e' -> in_active q active e') as Hback by (intros e'; by apply (erased_active q q1 lane l l' e)).
  split; try done.
  - by apply (same_queue_trans q q1).
  - constructor; [done|]. apply Forall_forall. intros e' He'. apply (in_active_bound q active lane); [done|]. by apply Hback, Ra.
  - intros e' [->|He']%elem_of_cons; [|by apply Hback, Ra]. destruct Htop as (Ha & (k & Hk & Hin) & _). by exists lane, k.
  - rewrite (lanes_taken_perm (lanes q) lane l l' e Hl Hp), <- Hla, Rp. done.
  - simpl in Hch |- *. destruct (visitor s (entry_tx e)) as [r s1]. destruct r.
    3: by apply (charged_cons _ _ _ (length (lane_limits q)) room room1 room').
    all: intros j a b Ha Hb i; destruct (lookup_lt_is_Some_2 room1 j) as [c Hc];
      [destruct Hroom1 as [-> _]; apply lookup_lt_Some in Ha; by destruct Hroom as [<- _]|];
      rewrite (Rc j c b Hc Hb i), (Hch j a c Ha Hc i); unfold charged_to; destruct (_ =? _)%nat; simpl; lia.
  - destruct allow_gaps.
    + intros Hall. by apply Rg, (erased_all_active q q1 active lane l').
    + destruct Rg as [-> Rg]. split; [done|]. intros Hst. apply Rg.
      apply (erased_stuck q q1 room room1 active lane l l' (processed s [e]) (length (lane_limits q))); try done; [apply Htop|].
      intros e' i He'. apply processed_sub, list_elem_of_singleton in He' as ->. by apply (queue_uses_nonneg n version q e i Hq).
Qed.

Lemma top_in q active lane e : top_of q active lane e -> e ∈ concat (lanes q).
Proof. intros (_ & (l & Hl & He) & _). apply elem_of_concat. exists l. split; [by apply list_elem_of_lookup_2 in Hl|done]. Qed.

Lemma run_skip q s room active q1 lane l l' e q' s' room' visited skipped : allow_gaps = true ->
  queue_ok n version q -> room_ok (length (lane_limits q)) room -> top_of q (lane_active active) lane e -> lanes q !! lane = Some l ->
  same_queue q q1 -> lanes q1 = put_at lane l' (lanes q) -> l ≡ₚ e :: l' -> does_not_fit (lane_config q) room e ->
  run_ok q1 s room active q' s' room' visited skipped -> run_ok q s room active q' s' room' visited (e :: skipped).
Proof.
  intros Hgaps Hq Hroom Htop Hl Hsame Hla Hp Hno [Rq Rs Rst Ro Ra Rp Rr Rc Rk Rg].
  pose proof Hsame as (Hcfg & Hlim & _). rewrite Hcfg in Rc, Rk, Rg. rewrite Hlim in Rr.
  assert (concat (lanes q) ≡ₚ visited ++ (e :: skipped) ++ concat (lanes q')) as Hparts.
  { rewrite (lanes_taken_perm (lanes q) lane l l' e Hl Hp), <- Hla, Rp. simpl. by rewrite Permutation_middle. }
  split; try done.
  - by apply (same_queue_trans q q1).
  - intros e' He'. apply (erased_active q q1 lane l l' e); try done. by apply Ra.
  - intros e' [->|He']%elem_of_cons; [|by apply Rk].
    apply (does_not_fit_mono _ e (processed s visited) (length (lane_limits q)) room room'); try done.
    intros e' i He'. apply (queue_uses_nonneg n version q e' i Hq). rewrite Hparts. apply elem_of_app. left. by apply (processed_sub s).
  - rewrite Hgaps in Rg |- *. intros Hall. by apply Rg, (erased_all_active q q1 active lane l').
Qed.

Lemma lane_active_put active lane j : lane_active (put_at lane false active) j = true -> lane_active active j = true.
Proof.
  unfold lane_active, put_at. destruct (decide (lane = j)) as [<-|Hne]; [|by rewrite list_lookup_insert_ne by done].
  destruct (active !! lane) as [b|] eqn:E; [|by rewrite list_insert_ge, E by (by apply lookup_ge_None)].
  rewrite list_lookup_insert_eq by (by apply lookup_lt_Some in E). done.
Qed.

Lemma actives_put active lane : lane_active active lane = true -> (actives (put_at lane false active) < actives active)%nat.
Proof.
  unfold lane_active, put_at, actives. intros Ha. destruct (active !! lane) as [b|] eqn:E; [|done]. simpl in Ha. subst b.
  pose proof (lookup_lt_Some _ _ _ E) as Hlt. rewrite insert_take_drop by done. rewrite <- (take_drop_middle active lane true E) at 3.
  rewrite !filter_app, !length_app, (filter_cons_False _ false), (filter_cons_True _ true) by done. simpl. lia.
Qed.

(** A lane is left: its top does not fit. *)
Lemma run_drop q s room active lane e q' s' room' visited skipped : allow_gaps = false ->
  top_of q (lane_active active) lane e -> does_not_fit (lane_config q) room e ->
  run_ok q s room (put_at lane false active) q' s' room' visited skipped -> run_ok q s room active q' s' room' visited skipped.
Proof.
  intros Hgaps (_ & (l & Hl & He) & _) Hno [Rq Rs Rst Ro Ra Rp Rr Rc Rk Rg]. split; try done.
  - intros e' He'. destruct (Ra e' He') as (j & k & Hj & Hk & Hin). exists j, k. split; [by apply (lane_active_put active lane)|done].
  - rewrite Hgaps in Rg |- *. destruct Rg as [-> Rg]. split; [done|]. intros Hst. apply Rg. intros j k Hj Hk.
    destruct (decide (lane = j)) as [<-|Hne].
    + right. exists e. split; [congruence|done].
    + apply (Hst j k); [|done]. unfold lane_active, put_at in Hj |- *. by rewrite list_lookup_insert_ne in Hj.
Qed.

Lemma run_stop q s room active lane e : allow_gaps = false -> queue_ok n version q -> room_ok (length (lane_limits q)) room ->
  top_of q (lane_active active) lane e -> does_not_fit (lane_config q) room e -> run_ok q s room active q s room [] [].
Proof.
  intros Hgaps Hq Hroom Htop Hno. split; try done.
  - constructor.
  - intros e' He'. by apply elem_of_nil in He'.
  - apply charged_nil.
  - intros e' He'. by apply elem_of_nil in He'.
  - rewrite Hgaps. split; [done|]. intros _. right. exists e. split; [by apply (top_in q (lane_active active) lane)|done].
Qed.

(** Whether the top fits is decided as the loop decides it. *)
Lemma fits_decision q room lane e : queue_ok n version q -> room_ok (length (lane_limits q)) room ->
  admissible n version (lane_config q) (length (lane_limits q)) (entry_tx e) lane ->
  exists x y bx by_, room !! lane = Some x /\ room !! GENERIC_LANE = Some y /\
    any_greater (uses n version (lane_config q) (q_envelope (entry_tx e))) x = Ok bx /\
    any_greater (uses n version (lane_config q) (q_envelope (entry_tx e))) y = Ok by_ /\
    (if bx || by_ then does_not_fit (lane_config q) room e
     else le_dims (uses n version (lane_config q) (q_envelope (entry_tx e))) x /\ le_dims (uses n version (lane_config q) (q_envelope (entry_tx e))) y).
Proof.
  intros Hq [Hk Hv] Ha. set (r := uses n version (lane_config q) (q_envelope (entry_tx e))) in *.
  assert (0 < length (lane_limits q))%nat as Hpos by (pose proof (queue_nonempty n version q Hq); destruct (lane_limits q); simpl; [done|lia]).
  destruct (lookup_lt_is_Some_2 room lane) as [x Hx]; [rewrite Hk; apply Ha|].
  destruct (lookup_lt_is_Some_2 room GENERIC_LANE) as [y Hy]; [unfold GENERIC_LANE; lia|].
  assert (vec_ok n x /\ vec_ok n y) as [Hvx Hvy] by (split; apply Hv, list_elem_of_lookup; eauto).
  destruct (any_greater_dims n r x) as (bx & Ebx & Hbx); [apply Ha|apply Hvx|].
  destruct (any_greater_dims n r y) as (b & Eb & Hb); [apply Ha|apply Hvy|].
  exists x, y, bx, b. split; [done|]. split; [done|]. split; [done|]. split; [done|].
  assert (forall z, vec_ok n z -> ~ le_dims r z -> exists i, dim z i < entry_uses (lane_config q) i e) as Hlt.
  { intros z Hz Hnz. apply not_le_dims in Hnz; [done|apply Ha|apply Hz]. }
  destruct bx.
  { simpl. exists lane, x. split; [apply Ha|]. split; [by left|]. apply Hlt; [done|]. by intros Hle%Hbx. }
  destruct b; simpl.
  { exists lane, y. split; [apply Ha|]. split; [by right|]. apply Hlt; [done|]. by intros Hle%Hb. }
  split; [by apply Hbx|by apply Hb].
Qed.

(** ** Every pop ends, within the limits *)

Lemma visited_charge q room lane e s : queue_ok n version q -> room_ok (length (lane_limits q)) room ->
  admissible n version (lane_config q) (length (lane_limits q)) (entry_tx e) lane ->
  (forall x, room !! lane = Some x -> le_dims (uses n version (lane_config q) (q_envelope (entry_tx e))) x) ->
  (forall x, room !! GENERIC_LANE = Some x -> le_dims (uses n version (lane_config q) (q_envelope (entry_tx e))) x) ->
  exists room1, match (visitor s (entry_tx e)).1 with
      | Processed => charge lane (uses n version (lane_config q) (q_envelope (entry_tx e))) room
      | _ => Ok room
      end = Ok room1 /\
    room_ok (length (lane_limits q)) room1 /\ charged (lane_config q) (processed s [e]) room room1.
Proof.
  intros Hq Hroom Ha Hl Hg. simpl. destruct (visitor s (entry_tx e)) as [[] s1]; simpl.
  3: by apply charge_ok; try done; apply Ha.
  all: exists room; split; [done|]; split; [done|]; apply charged_nil.
Qed.

Lemma pop_loop_ok fuel q s room active : queue_ok n version q -> room_ok (length (lane_limits q)) room ->
  (length (concat (lanes q)) + actives active < fuel)%nat ->
  exists q' s' room' visited skipped, loop fuel q s room active = Ok (q', s', room') /\
    run_ok q s room active q' s' room' visited skipped.
Proof.
  revert q s room active. induction fuel as [|fuel IH]; intros q s room active Hq Hroom Hfuel; [lia|]. cbn [pop_loop].
  destruct (best_top_ok n version q (lane_active active) Hq) as [[-> Hempty]|(lane & e & -> & Htop)]; simpl.
  { exists q, s, room, [], []. split; [done|]. by apply run_done. }
  pose proof Htop as (Hact & (l & Hl & He) & _).
  destruct (queue_sets n version q Hq lane l Hl) as [_ Hof]. destruct (Hof e He) as [_ Ha].
  unfold queue_resources at 1. rewrite (adm_uses _ _ _ _ _ _ Ha). simpl.
  destruct (fits_decision q room lane e Hq Hroom Ha) as (x & y & bx & b & Hx & Hy & Hbx & Hb & Hdec).
  rewrite (lookup_at _ _ _ Hx). simpl. rewrite Hbx. simpl. rewrite (lookup_at _ _ _ Hy). simpl. rewrite Hb. simpl.
  destruct (erase_in n version q lane l e Hq Hl He) as (q1 & l' & Eer & Hq1 & Hsame & Hla & Hp & _).
  assert (length (concat (lanes q)) = Datatypes.S (length (concat (lanes q1)))) as Hlen.
  { rewrite Hla. pose proof (lanes_taken_perm (lanes q) lane l l' e Hl Hp) as Hlp. by apply Permutation_length in Hlp. }
  pose proof Hsame as (_ & Hlim & _).
  destruct (bx || b) eqn:Efit.
  - destruct allow_gaps eqn:Egaps.
    + rewrite Eer. simpl. rewrite <- Hlim in Hroom. destruct (IH q1 s room active Hq1 Hroom) as (q' & s' & room' & visited & skipped & -> & Hrun); [lia|].
      exists q', s', room', visited, (e :: skipped). split; [done|]. rewrite Hlim in Hroom. by apply (run_skip q s room active q1 lane l l' e).
    + destruct (negb (lane =? GENERIC_LANE)%nat && bx).
      * pose proof (actives_put active lane Hact) as Hless.
        destruct (IH q s room (put_at lane false active) Hq Hroom) as (q' & s' & room' & visited & skipped & -> & Hrun); [lia|].
        exists q', s', room', visited, skipped. split; [done|]. by apply (run_drop q s room active lane e).
      * exists q, s, room, [], []. split; [done|]. by apply (run_stop q s room active lane e).
  - destruct Hdec as [Hfl Hfg]. destruct (visited_charge q room lane e s Hq Hroom Ha) as (room1 & Echarge & Hroom1 & Hch);
      [congruence|congruence|].
    pose proof (run_visit q s room active q1 room1 lane l l' e) as Hrun. destruct (visitor s (entry_tx e)) as [res s1] eqn:Ev. simpl in Echarge.
    rewrite Echarge. simpl. rewrite Eer. simpl. 
    destruct (IH q1 s1 room1 active Hq1) as (q' & s' & room' & visited & skipped & -> & Hrun1); [by rewrite Hlim|lia|].
    exists q', s', room', (e :: visited), skipped. split; [done|]. by apply Hrun.
Qed.
End loop.
End pop.
