(* ===== verification/TxQueueStore.v ===== *)
(** * TxQueueStore: the store of the transaction queue
      (herder/src/tx_queue/mod.rs, tx_queue/flood_queue.rs)

    Transactions by hash, an index by fee, up to three eviction queues built when they
    are first needed, and the queue of what is to be flooded. The seeds of the queues are
    random in the source: each is an argument here. *)

From S2P Require Import Prelude Bucket Ledger Lists Resource Envelope SurgePricing.

Section store.
Context `{EnvelopeXdr} `{HashIteration}.

(** The account a transaction takes its fee from; accounts are their ed25519 keys. *)
Definition fee_source_key (env : TransactionEnvelope) : Uint256 :=
  match env with
  | TxV0 e _ => source_account_ed25519_v0 e
  | Tx e _ => muxed_to_ed25519 (source_account e)
  | TxFeeBump e _ => muxed_to_ed25519 (fee_source e)
  end.

(** ** The flood queue (flood_queue.rs) *)

Record FloodQueue := MkFlood { flood_surge : SurgePricingPriorityQueue; flood_seed : Z; has_dex_lane : bool }.

Definition flood_empty (has_dex_lane : bool) (seed : Z) : result SurgePricingPriorityQueue Panic :=
  let? config := FloodLaneConfig_new has_dex_lane in SurgePricingPriorityQueue_new config seed.

Definition FloodQueue_new (has_dex_lane : bool) (seed : Z) : result FloodQueue Panic :=
  let? queue := flood_empty has_dex_lane seed in Ok (MkFlood queue seed has_dex_lane).

Definition mark_for_flood (tx : QueuedTransaction) (ledger_version : Z) (f : FloodQueue) : result FloodQueue Panic :=
  let? queue := add tx ledger_version (flood_surge f) in Ok (MkFlood queue (flood_seed f) (has_dex_lane f)).

Definition flood_remove (tx : QueuedTransaction) (ledger_version : Z) (f : FloodQueue) : result FloodQueue Panic :=
  let entry := QueueEntry_new tx (flood_seed f) in
  let? lane := get_lane (flood_surge f) (q_envelope tx) in
  let? queue := remove_entry lane entry ledger_version (flood_surge f) in Ok (MkFlood queue (flood_seed f) (has_dex_lane f)).

(** The room left per lane is what the out-parameter is set to. *)
Definition flood_visit {S} (visitor : S -> QueuedTransaction -> VisitTxResult * S) (ledger_version : Z)
    (custom_limits : list Resource) (f : FloodQueue) (s : S) : result (FloodQueue * S * list Resource) Panic :=
  let? (queue, s, room) := pop_top_txs visitor false ledger_version (Some custom_limits) (flood_surge f) s in
  Ok (MkFlood queue (flood_seed f) (has_dex_lane f), s, room).

Definition add_all (txs : list QueuedTransaction) (ledger_version : Z) (queue : SurgePricingPriorityQueue) :
    result SurgePricingPriorityQueue Panic :=
  try_fold (fun queue tx => add tx ledger_version queue) txs queue.

Definition reset_and_repopulate (new_seed : Z) (txs : list QueuedTransaction) (ledger_version : Z) (f : FloodQueue) :
    result FloodQueue Panic :=
  let? queue := flood_empty (has_dex_lane f) new_seed in
  let? queue := add_all txs ledger_version queue in Ok (MkFlood queue new_seed (has_dex_lane f)).

Definition flood_clear (new_seed : Z) (f : FloodQueue) : result FloodQueue Panic :=
  let? queue := flood_empty (has_dex_lane f) new_seed in Ok (MkFlood queue new_seed (has_dex_lane f)).

Definition num_lanes (f : FloodQueue) : nat := get_num_lanes (flood_surge f).

(** ** The index by fee *)

Record FeeEntry := MkFeeEntry { fe_fee_rate : FeeRate; fe_hash : list Z; fe_is_dex : bool }.

Definition FeeEntry_from_queued (tx : QueuedTransaction) : FeeEntry := MkFeeEntry (fee_rate tx) (q_hash tx) (is_dex tx).

Definition fee_entry_cmp (a b : FeeEntry) : result comparison Panic :=
  let? ord := cmp_rate (fe_fee_rate a) (fe_fee_rate b) in
  Ok (match ord with Eq => hash_compare (fe_hash b) (fe_hash a) | c => c end).

Definition is_better_than_entry (tx : QueuedTransaction) (entry : FeeEntry) : result bool Panic :=
  let? ord := cmp_rate (fee_rate tx) (fe_fee_rate entry) in
  Ok (match ord with Gt => true | Lt => false | Eq => bool_decide (hash_compare (q_hash tx) (fe_hash entry) = Lt) end).

(** ** The store *)

Record QueueStore := MkStore {
  by_hash : gmap (list Z) QueuedTransaction;
  fee_index : list FeeEntry;
  classic_eviction_queue : option SurgePricingPriorityQueue;
  soroban_eviction_queue : option SurgePricingPriorityQueue;
  global_ops_queue : option SurgePricingPriorityQueue;
  eviction_seed : Z;
  flood_queue : FloodQueue
}.

Definition QueueStore_new (has_dex_lane : bool) (seed flood_seed : Z) : result QueueStore Panic :=
  let? flood := FloodQueue_new has_dex_lane flood_seed in Ok (MkStore ∅ [] None None None seed flood).

Definition store_values (s : QueueStore) : list QueuedTransaction := (iterate (by_hash s)).*2.
Definition store_len (s : QueueStore) : nat := size (by_hash s).

(** A change of a queue, when it is there. *)
Definition if_some {A} (f : A -> result A Panic) (o : option A) : result (option A) Panic :=
  match o with Some x => let? y := f x in Ok (Some y) | None => Ok None end.

Definition store_insert (tx : QueuedTransaction) (ledger_version : Z) (s : QueueStore) : result QueueStore Panic :=
  let entry := FeeEntry_from_queued tx in
  let is_soroban := is_soroban_envelope (q_envelope tx) in
  let add_tx := if_some (add tx ledger_version) in
  let? soroban := if is_soroban then add_tx (soroban_eviction_queue s) else Ok (soroban_eviction_queue s) in
  let? classic := if is_soroban then Ok (classic_eviction_queue s) else add_tx (classic_eviction_queue s) in
  let? global := add_tx (global_ops_queue s) in
  let? flood := mark_for_flood tx ledger_version (flood_queue s) in
  let? (index, _) := bt_insert fee_entry_cmp entry (fee_index s) in
  Ok (MkStore (<[q_hash tx := tx]> (by_hash s)) index classic soroban global (eviction_seed s) flood).

Definition remove_from (entry : QueueEntry) (ledger_version : Z) (queue : SurgePricingPriorityQueue) :
    result SurgePricingPriorityQueue Panic :=
  let? lane := get_lane queue (q_envelope (entry_tx entry)) in remove_entry lane entry ledger_version queue.

Definition store_remove (hash : list Z) (ledger_version : Z) (s : QueueStore) : result (QueueStore * option QueuedTransaction) Panic :=
  match by_hash s !! hash with
  | Some tx =>
      let? index := bt_remove fee_entry_cmp (FeeEntry_from_queued tx) (fee_index s) in
      let entry := QueueEntry_new tx (eviction_seed s) in
      let is_soroban := is_soroban_envelope (q_envelope tx) in
      let remove_tx := if_some (remove_from entry ledger_version) in
      let? soroban := if is_soroban then remove_tx (soroban_eviction_queue s) else Ok (soroban_eviction_queue s) in
      let? classic := if is_soroban then Ok (classic_eviction_queue s) else remove_tx (classic_eviction_queue s) in
      let? global := remove_tx (global_ops_queue s) in
      let? flood := flood_remove tx ledger_version (flood_queue s) in
      Ok (MkStore (delete hash (by_hash s)) index classic soroban global (eviction_seed s) flood, Some tx)
  | None => Ok (s, None)
  end.

Definition clear_data (new_flood_seed : Z) (s : QueueStore) : result QueueStore Panic :=
  let? flood := flood_clear new_flood_seed (flood_queue s) in
  Ok (MkStore ∅ [] (classic_eviction_queue s) (soroban_eviction_queue s) (global_ops_queue s) (eviction_seed s) flood).

Definition regenerate_eviction_seed (new_seed : Z) (s : QueueStore) : QueueStore :=
  MkStore (by_hash s) (fee_index s) None None None new_seed (flood_queue s).

(** The lowest fee comes first. *)
Definition lowest_fee (s : QueueStore) : option FeeEntry := head (fee_index s).

(** A queue of the transactions of the store that [wanted] picks. *)
Definition build_queue (config : LaneConfig) (wanted : QueuedTransaction -> bool) (ledger_version : Z) (s : QueueStore) :
    result SurgePricingPriorityQueue Panic :=
  let? queue := SurgePricingPriorityQueue_new config (eviction_seed s) in
  add_all (filter (fun tx => wanted tx = true) (store_values s)) ledger_version queue.

Definition is_classic (tx : QueuedTransaction) : bool := negb (is_soroban_envelope (q_envelope tx)).
Definition is_soroban (tx : QueuedTransaction) : bool := is_soroban_envelope (q_envelope tx).
Definition every_tx (tx : QueuedTransaction) : bool := true.

Definition ensure_classic_queue (config : LaneConfig) (ledger_version : Z) (s : QueueStore) :
    result (QueueStore * SurgePricingPriorityQueue) Panic :=
  match classic_eviction_queue s with
  | Some queue => Ok (s, queue)
  | None =>
      let? queue := build_queue config is_classic ledger_version s in
      Ok (MkStore (by_hash s) (fee_index s) (Some queue) (soroban_eviction_queue s) (global_ops_queue s) (eviction_seed s) (flood_queue s), queue)
  end.

Definition ensure_soroban_queue (limit : Resource) (ledger_version : Z) (s : QueueStore) :
    result (QueueStore * SurgePricingPriorityQueue) Panic :=
  match soroban_eviction_queue s with
  | Some queue => Ok (s, queue)
  | None =>
      let? queue := build_queue (SorobanGenericLaneConfig_new limit) is_soroban ledger_version s in
      Ok (MkStore (by_hash s) (fee_index s) (classic_eviction_queue s) (Some queue) (global_ops_queue s) (eviction_seed s) (flood_queue s), queue)
  end.

Definition ensure_global_ops_queue (limit ledger_version : Z) (s : QueueStore) :
    result (QueueStore * SurgePricingPriorityQueue) Panic :=
  match global_ops_queue s with
  | Some queue => Ok (s, queue)
  | None =>
      let? limit := Resource_new [limit] in
      let? queue := build_queue (OpsOnlyLaneConfig_new limit) every_tx ledger_version s in
      Ok (MkStore (by_hash s) (fee_index s) (classic_eviction_queue s) (soroban_eviction_queue s) (Some queue) (eviction_seed s) (flood_queue s), queue)
  end.

Definition drop_soroban_queue (s : QueueStore) : QueueStore :=
  MkStore (by_hash s) (fee_index s) (classic_eviction_queue s) None (global_ops_queue s) (eviction_seed s) (flood_queue s).
Definition drop_global_ops_queue (s : QueueStore) : QueueStore :=
  MkStore (by_hash s) (fee_index s) (classic_eviction_queue s) (soroban_eviction_queue s) None (eviction_seed s) (flood_queue s).
Definition put_flood (flood : FloodQueue) (s : QueueStore) : QueueStore :=
  MkStore (by_hash s) (fee_index s) (classic_eviction_queue s) (soroban_eviction_queue s) (global_ops_queue s) (eviction_seed s) flood.

(** ** What an eviction query leaves out *)

(** [excl.lane_resource_discount[lane] += resources]. *)
Definition discount_tx (queue : SurgePricingPriorityQueue) (tx : QueuedTransaction) (ledger_version : Z) (discounts : list Resource) :
    result (list Resource) Panic :=
  let? lane := get_lane queue (q_envelope tx) in
  let? resources := queue_resources queue (q_envelope tx) ledger_version in
  let? discount := at_index discounts lane in
  let? discount := resource_add discount resources in Ok (put_at lane discount discounts).

Definition exclude_evicted (queue : SurgePricingPriorityQueue) (txs : gmap (list Z) QueuedTransaction) (ledger_version : Z)
    (excl : EvictionExclusion) (hash : list Z) : result EvictionExclusion Panic :=
  if bool_decide (hash ∈ hashes excl) then Ok excl
  else
    let hs := {[hash]} ∪ hashes excl in
    match txs !! hash with
    | Some tx => let? ds := discount_tx queue tx ledger_version (lane_resource_discount excl) in Ok (MkExclusion hs ds)
    | None => Ok (MkExclusion hs (lane_resource_discount excl))
    end.

Definition build_eviction_exclusion (queue : SurgePricingPriorityQueue) (txs : gmap (list Z) QueuedTransaction)
    (replaced_tx : option QueuedTransaction) (cross_queue_evictions : gset (list Z)) (ledger_version : Z) :
    result EvictionExclusion Panic :=
  let? excl := EvictionExclusion_new (get_num_lanes queue) (resource_dim queue) in
  let? excl :=
    match replaced_tx with
    | Some old_tx =>
        let? ds := discount_tx queue old_tx ledger_version (lane_resource_discount excl) in
        Ok (MkExclusion ({[q_hash old_tx]} ∪ hashes excl) ds)
    | None => Ok excl
    end in
  try_fold (exclude_evicted queue txs ledger_version) (iterate (gset_to_gmap tt cross_queue_evictions)).*1 excl.
End store.
