(* ===== verification/TxQueue.v ===== *)
(** * TxQueue: the transaction queue of a node (herder/src/tx_queue/mod.rs)

    The store of transactions with, per account, the fees it owes for queued
    transactions and the one pending transaction it may have; what was banned during
    the last ledgers; and the fees a newcomer has to beat. Every method is one step:
    the locks they take make them atomic. The clock, the seeds of queues, the balances
    of accounts and the validation of a transaction are arguments. *)

From S2P Require Import Prelude Bucket Ledger Lists Resource Envelope SurgePricing TxQueueStore.

Definition is_some {A} (o : option A) : bool := match o with Some _ => true | None => false end.

(** ** Results *)

(** [TransactionResultCode] of the crate stellar_xdr. *)
Inductive TxResultCode :=
| TxFeeBumpInnerSuccess | TxSuccess | TxFailed | TxTooEarly | TxTooLate | TxMissingOperation | TxBadSeq | TxBadAuth
| TxInsufficientBalance | TxNoAccount | TxInsufficientFee | TxBadAuthExtra | TxInternalError | TxNotSupported
| TxFeeBumpInnerFailed | TxBadSponsorship | TxBadMinSeqAgeOrGap | TxMalformed | TxSorobanInvalid | TxFrozenKeyAccessed.

Inductive TxQueueResult :=
| Added | Duplicate | QueueFull | FeeTooLow | Invalid (code : option TxResultCode) | Banned | Filtered | TryAgainLater.

(** ** Constants *)

Definition MAX_TX_SET_ALLOWANCE_BYTES : Z := 10 * 1024 * 1024.
Definition MAX_CLASSIC_BYTE_ALLOWANCE : Z := MAX_TX_SET_ALLOWANCE_BYTES / 2.
Definition FEE_MULTIPLIER : Z := 10.
Definition TRANSACTION_QUEUE_TIMEOUT_LEDGERS : Z := 4.
Definition TRANSACTION_QUEUE_BAN_LEDGERS : nat := 10.
Definition NANOS_PER_SEC : Z := 1000000000.
Definition i128_saturating_mul (a b : Z) : Z := saturating i128_min i128_max (a * b).

(** ** Fees to beat *)

(** [i64::try_from(n).unwrap_or(i64::MAX)]. *)
Definition i64_or_max (n : Z) : Z := if (i64_min <=? n) && (n <=? i64_max) then n else i64_max.

(** The division of [i128]s truncates. *)
Definition compute_better_fee (evicted : FeeRate) (tx_ops : Z) : Z :=
  if op_count evicted =? 0 then 0
  else
    let numerator := i128_saturating_mul (inclusion_fee evicted) tx_ops in
    let base := Z.quot numerator (op_count evicted) in
    i64_or_max (saturating i128_min i128_max (base + 1)).

Definition min_inclusion_fee_to_beat (evicted : option FeeRate) (tx_fee_rate : FeeRate) : result Z Panic :=
  match evicted with
  | None => Ok 0
  | Some evicted =>
      if op_count evicted =? 0 then Ok 0
      else
        let? ord := cmp_rate evicted tx_fee_rate in
        Ok (match ord with Lt => 0 | _ => compute_better_fee evicted (op_count tx_fee_rate) end)
  end.

Definition can_replace_by_fee (new old : FeeRate) : result unit Z :=
  let left_side := i128_saturating_mul (inclusion_fee new) (op_count old) in
  let right_side := i128_saturating_mul (i128_saturating_mul FEE_MULTIPLIER (inclusion_fee old)) (op_count new) in
  if left_side <? right_side then
    let min_fee :=
      if 0 <? op_count old then
        let quotient := Z.quot right_side (op_count old) in
        let remainder := Z.rem right_side (op_count old) in
        i64_or_max (if 0 <? remainder then quotient + 1 else quotient)
      else 0 in
    Err min_fee
  else Ok tt.

(** ** Configuration and context *)

(** The fields the queue reads after it was built. *)
Record TxQueueConfig := MkTxQueueConfig {
  max_size : nat;
  max_age_secs : Z;
  min_fee_per_op : Z;
  max_dex_ops : option Z;
  max_classic_bytes : option Z;
  max_dex_bytes : option Z;
  max_soroban_resources : option Resource;
  max_soroban_bytes : option Z;
  max_queue_dex_ops : option Z;
  max_queue_soroban_resources : option Resource;
  max_queue_ops : option Z;
  max_queue_classic_bytes : option Z;
  filtered_operation_types : list OperationBody;
  ledger_max_instructions : Z;
  ledger_max_dependent_tx_clusters : Z;
  soroban_phase_min_stage_count : Z;
  soroban_phase_max_stage_count : Z
}.

Record SorobanTxLimits := MkSorobanTxLimits {
  tx_max_instructions : Z;
  tx_max_read_bytes : Z;
  tx_max_write_bytes : Z;
  tx_max_read_ledger_entries : Z;
  tx_max_write_ledger_entries : Z;
  tx_max_size_bytes : Z
}.

(** What the validation of transactions alone reads is left out. *)
Record ValidationContext := MkValidationContext {
  protocol_version : Z;
  base_fee : Z;
  soroban_limits : option SorobanTxLimits
}.

Record EvictionThresholds := MkThresholds {
  classic_lane_fees : list (option FeeRate);
  soroban_lane_fees : list (option FeeRate);
  global_fees : option FeeRate
}.
Definition EvictionThresholds_new : EvictionThresholds := MkThresholds [] [] None.
Definition reset_all (t : EvictionThresholds) : EvictionThresholds := EvictionThresholds_new.
Definition reset_soroban (t : EvictionThresholds) : EvictionThresholds := MkThresholds (classic_lane_fees t) [] (global_fees t).
Definition reset_global_ops (t : EvictionThresholds) : EvictionThresholds := MkThresholds (classic_lane_fees t) (soroban_lane_fees t) None.

(** ** Bans: one set for each of the last ledgers, the newest last *)

Notation Bans := (list (gset (list Z))).

(** [banned.back_mut()]. *)
Definition ban_newest (new : gset (list Z)) (banned : Bans) : Bans := alter (fun s => new ∪ s) (length banned - 1)%nat banned.
Definition in_bans (hash : list Z) (banned : Bans) : bool := existsb (fun s => bool_decide (hash ∈ s)) banned.
Definition shift_bans (banned : Bans) : Bans := tail banned ++ [∅].

Section queue.
Context `{EnvelopeXdr} `{HashIteration}.

(** ** Accounts *)

Record AccountState := MkAccountState {
  total_fees : Z;
  age : Z;
  transaction : option QueuedTransaction;
  soroban_fee_tx_count : Z;
  classic_fee_tx_count : Z
}.
Definition AccountState_default : AccountState := MkAccountState 0 0 None 0 0.

Definition is_empty (s : AccountState) : bool :=
  negb (is_some (transaction s)) && (total_fees s =? 0) && (soroban_fee_tx_count s =? 0) && (classic_fee_tx_count s =? 0).

Definition put_fees (fees : Z) (s : AccountState) : AccountState :=
  MkAccountState fees (age s) (transaction s) (soroban_fee_tx_count s) (classic_fee_tx_count s).
Definition put_transaction (tx : option QueuedTransaction) (s : AccountState) : AccountState :=
  MkAccountState (total_fees s) (age s) tx (soroban_fee_tx_count s) (classic_fee_tx_count s).
Definition put_age (a : Z) (s : AccountState) : AccountState :=
  MkAccountState (total_fees s) a (transaction s) (soroban_fee_tx_count s) (classic_fee_tx_count s).

(** [n.saturating_sub(1)] and [n += 1] on the counter of the type. *)
Definition count_down (soroban : bool) (s : AccountState) : AccountState :=
  if soroban then MkAccountState (total_fees s) (age s) (transaction s) (Z.max 0 (soroban_fee_tx_count s - 1)) (classic_fee_tx_count s)
  else MkAccountState (total_fees s) (age s) (transaction s) (soroban_fee_tx_count s) (Z.max 0 (classic_fee_tx_count s - 1)).
Definition count_up (soroban : bool) (s : AccountState) : AccountState :=
  if soroban then MkAccountState (total_fees s) (age s) (transaction s) (as_u32 (soroban_fee_tx_count s + 1)) (classic_fee_tx_count s)
  else MkAccountState (total_fees s) (age s) (transaction s) (soroban_fee_tx_count s) (as_u32 (classic_fee_tx_count s + 1)).

Notation AccountStates := (gmap Uint256 AccountState).

(** The release of the fee of a transaction. *)
Definition release_fee (fee : Z) (soroban : bool) (s : AccountState) : AccountState :=
  count_down soroban (put_fees (i64_saturating_sub (total_fees s) fee) s).

Definition remove_if_empty (key : Uint256) (states : AccountStates) : AccountStates :=
  match states !! key with
  | Some s => if is_empty s then delete key states else states
  | None => states
  end.

Definition clear_pending (s : AccountState) : AccountState := put_age 0 (put_transaction None s).

Definition drop_transaction (queued : QueuedTransaction) (states : AccountStates) : AccountStates :=
  let seq_source := account_key (q_envelope queued) in
  let fee_source := fee_source_key (q_envelope queued) in
  let states := alter (fun s => if bool_decide (q_hash <$> transaction s = Some (q_hash queued)) then clear_pending s else s) seq_source states in
  let states := alter (release_fee (as_i64 (total_fee queued)) (is_soroban_envelope (q_envelope queued))) fee_source states in
  let states := remove_if_empty seq_source states in
  if bool_decide (seq_source = fee_source) then states else remove_if_empty fee_source states.

(** ** The queue *)

(** A provider of balances answers with a balance, that there is no account, or fails. *)
Definition FeeBalanceProvider : Type := Uint256 -> result (option Z) unit.

Record TransactionQueue := MkTransactionQueue {
  config : TxQueueConfig;
  store : QueueStore;
  seen : gset (list Z);
  validation_context : ValidationContext;
  eviction_thresholds : EvictionThresholds;
  banned_transactions : Bans;
  account_states : AccountStates;
  pending_depth : Z;
  fee_balance_provider : option FeeBalanceProvider;
  dynamic_queue_soroban_resources : option Resource;
  dynamic_selection_soroban_resources : option Resource;
  dynamic_ledger_max_instructions : option Z;
  dynamic_ledger_max_dependent_tx_clusters : option Z;
  dynamic_max_queue_ops : option Z
}.

(** The part that admission and removal change. *)
Definition update (q : TransactionQueue) (st : QueueStore) (sn : gset (list Z)) (t : EvictionThresholds) (b : Bans) (a : AccountStates) :
    TransactionQueue :=
  MkTransactionQueue (config q) st sn (validation_context q) t b a (pending_depth q) (fee_balance_provider q)
    (dynamic_queue_soroban_resources q) (dynamic_selection_soroban_resources q) (dynamic_ledger_max_instructions q)
    (dynamic_ledger_max_dependent_tx_clusters q) (dynamic_max_queue_ops q).

Definition put_store (st : QueueStore) (q : TransactionQueue) : TransactionQueue :=
  update q st (seen q) (eviction_thresholds q) (banned_transactions q) (account_states q).
Definition put_thresholds (t : EvictionThresholds) (q : TransactionQueue) : TransactionQueue :=
  update q (store q) (seen q) t (banned_transactions q) (account_states q).

Definition with_depths (cfg : TxQueueConfig) (context : ValidationContext) (ban_depth : nat) (depth seed flood_seed : Z) :
    result TransactionQueue Panic :=
  let? st := QueueStore_new (is_some (max_dex_ops cfg)) seed flood_seed in
  Ok (MkTransactionQueue cfg st ∅ context EvictionThresholds_new (replicate ban_depth ∅) ∅ depth None None None None None None).

Definition TransactionQueue_new (cfg : TxQueueConfig) (context : ValidationContext) (seed flood_seed : Z) : result TransactionQueue Panic :=
  with_depths cfg context TRANSACTION_QUEUE_BAN_LEDGERS TRANSACTION_QUEUE_TIMEOUT_LEDGERS seed flood_seed.

(** ** Limits in force *)

Definition effective_queue_soroban_resources (q : TransactionQueue) : option Resource :=
  match dynamic_queue_soroban_resources q with Some r => Some r | None => max_queue_soroban_resources (config q) end.
Definition effective_selection_soroban_resources (q : TransactionQueue) : option Resource :=
  match dynamic_selection_soroban_resources q with Some r => Some r | None => max_soroban_resources (config q) end.
Definition effective_ledger_max_instructions (q : TransactionQueue) : Z :=
  default (ledger_max_instructions (config q)) (dynamic_ledger_max_instructions q).
Definition effective_ledger_max_dependent_tx_clusters (q : TransactionQueue) : Z :=
  default (ledger_max_dependent_tx_clusters (config q)) (dynamic_ledger_max_dependent_tx_clusters q).
Definition effective_max_queue_ops (q : TransactionQueue) : option Z :=
  match dynamic_max_queue_ops q with Some ops => Some ops | None => max_queue_ops (config q) end.
Definition effective_max_size (q : TransactionQueue) : nat :=
  match dynamic_max_queue_ops q with Some ops => Z.to_nat ops | None => max_size (config q) end.

Definition update_soroban_resource_limits (resources : Resource) (q : TransactionQueue) : TransactionQueue :=
  MkTransactionQueue (config q) (drop_soroban_queue (store q)) (seen q) (validation_context q) (reset_soroban (eviction_thresholds q))
    (banned_transactions q) (account_states q) (pending_depth q) (fee_balance_provider q) (Some resources)
    (dynamic_selection_soroban_resources q) (dynamic_ledger_max_instructions q) (dynamic_ledger_max_dependent_tx_clusters q)
    (dynamic_max_queue_ops q).
Definition update_soroban_selection_limits (resources : Resource) (q : TransactionQueue) : TransactionQueue :=
  MkTransactionQueue (config q) (store q) (seen q) (validation_context q) (eviction_thresholds q) (banned_transactions q)
    (account_states q) (pending_depth q) (fee_balance_provider q) (dynamic_queue_soroban_resources q) (Some resources)
    (dynamic_ledger_max_instructions q) (dynamic_ledger_max_dependent_tx_clusters q) (dynamic_max_queue_ops q).
Definition update_soroban_parallel_limits (max_instructions clusters : Z) (q : TransactionQueue) : TransactionQueue :=
  MkTransactionQueue (config q) (store q) (seen q) (validation_context q) (eviction_thresholds q) (banned_transactions q)
    (account_states q) (pending_depth q) (fee_balance_provider q) (dynamic_queue_soroban_resources q)
    (dynamic_selection_soroban_resources q) (Some max_instructions) (Some clusters) (dynamic_max_queue_ops q).
Definition update_classic_queue_capacity (scaled_max_queue_ops : Z) (q : TransactionQueue) : TransactionQueue :=
  MkTransactionQueue (config q) (drop_global_ops_queue (store q)) (seen q) (validation_context q) (reset_global_ops (eviction_thresholds q))
    (banned_transactions q) (account_states q) (pending_depth q) (fee_balance_provider q) (dynamic_queue_soroban_resources q)
    (dynamic_selection_soroban_resources q) (dynamic_ledger_max_instructions q) (dynamic_ledger_max_dependent_tx_clusters q)
    (Some scaled_max_queue_ops).
Definition put_context (context : ValidationContext) (q : TransactionQueue) : TransactionQueue :=
  MkTransactionQueue (config q) (store q) (seen q) context (eviction_thresholds q) (banned_transactions q)
    (account_states q) (pending_depth q) (fee_balance_provider q) (dynamic_queue_soroban_resources q)
    (dynamic_selection_soroban_resources q) (dynamic_ledger_max_instructions q) (dynamic_ledger_max_dependent_tx_clusters q)
    (dynamic_max_queue_ops q).
Definition update_validation_context (version fee : Z) (q : TransactionQueue) : TransactionQueue :=
  put_context (MkValidationContext version fee (soroban_limits (validation_context q))) q.
Definition set_soroban_limits (limits : SorobanTxLimits) (q : TransactionQueue) : TransactionQueue :=
  put_context (MkValidationContext (protocol_version (validation_context q)) (base_fee (validation_context q)) (Some limits)) q.
Definition put_provider (provider : option FeeBalanceProvider) (q : TransactionQueue) : TransactionQueue :=
  MkTransactionQueue (config q) (store q) (seen q) (validation_context q) (eviction_thresholds q) (banned_transactions q)
    (account_states q) (pending_depth q) provider (dynamic_queue_soroban_resources q)
    (dynamic_selection_soroban_resources q) (dynamic_ledger_max_instructions q) (dynamic_ledger_max_dependent_tx_clusters q)
    (dynamic_max_queue_ops q).

(** ** Checks of admission *)

Definition check_cross_type_conflict_with (seq_source : Uint256) (candidate_is_soroban : bool) (states : AccountStates) : option TxQueueResult :=
  match states !! seq_source with
  | Some state =>
      let opposite := match transaction state with
                      | Some tx => negb (Bool.eqb (is_soroban_envelope (q_envelope tx)) candidate_is_soroban)
                      | None => false
                      end in
      if opposite then Some TryAgainLater
      else if candidate_is_soroban && (0 <? classic_fee_tx_count state) then Some TryAgainLater
      else if negb candidate_is_soroban && (0 <? soroban_fee_tx_count state) then Some TryAgainLater
      else None
  | None => None
  end.

Definition is_banned (hash : list Z) (q : TransactionQueue) : bool := in_bans hash (banned_transactions q).

Definition is_filtered (env : TransactionEnvelope) (q : TransactionQueue) : bool :=
  existsb (fun op => bool_decide (body op ∈ filtered_operation_types (config q))) (envelope_operations env).

(** Whether the declared resources are within the limits of a transaction; the reason
    for a refusal is only logged. *)
Definition check_soroban_resources (env : TransactionEnvelope) (context : ValidationContext) : bool :=
  match soroban_limits context with
  | None => true
  | Some limits =>
      match envelope_soroban_data env with
      | None => false
      | Some data =>
          let r := resources data in
          let read_entries := len (read_only (footprint r)) in
          let write_entries := len (read_write (footprint r)) in
          (instructions r <=? tx_max_instructions limits) && (disk_read_bytes r <=? tx_max_read_bytes limits) &&
          (write_bytes r <=? tx_max_write_bytes limits) && (write_entries <=? tx_max_write_ledger_entries limits) &&
          (read_entries + write_entries <=? tx_max_read_ledger_entries limits) &&
          (envelope_tx_size_bytes env <=? tx_max_size_bytes limits)
      end
  end.

(** One pending transaction per account; [Ok (Some tx)] when [tx] may be replaced. *)
Definition check_account_limit (queued : QueuedTransaction) (seq_source : Uint256) (new_seq : Z) (is_fee_bump candidate_is_soroban : bool)
    (states : AccountStates) : result (option QueuedTransaction) TxQueueResult :=
  match states !! seq_source with
  | None => Ok None
  | Some state =>
      match transaction state with
      | Some current_tx =>
          if bool_decide (q_hash current_tx = q_hash queued) then Err Duplicate
          else if negb (Bool.eqb (is_soroban_envelope (q_envelope current_tx)) candidate_is_soroban) then Err TryAgainLater
          else
            let current_seq := envelope_sequence_number (q_envelope current_tx) in
            if new_seq <? current_seq then Err (Invalid (Some TxBadSeq))
            else if negb is_fee_bump then Err TryAgainLater
            else if negb (new_seq =? current_seq) then Err TryAgainLater
            else match can_replace_by_fee (fee_rate queued) (fee_rate current_tx) with
                 | Err _ => Err FeeTooLow
                 | Ok _ => Ok (Some current_tx)
                 end
      | None =>
          if candidate_is_soroban && (0 <? classic_fee_tx_count state) then Err TryAgainLater
          else if negb candidate_is_soroban && (0 <? soroban_fee_tx_count state) then Err TryAgainLater
          else Ok None
      end
  end.

Definition build_classic_lane_config (cfg : TxQueueConfig) : result (option LaneConfig) Panic :=
  if negb (is_some (max_queue_classic_bytes cfg)) && negb (is_some (max_queue_dex_ops cfg)) then Ok None
  else
    let use_bytes := is_some (max_queue_classic_bytes cfg) in
    let? generic_limit :=
      if use_bytes then Resource_new [i64_max; default u32_max (max_queue_classic_bytes cfg)] else Resource_new [i64_max] in
    let? dex_limit :=
      match max_queue_dex_ops cfg with
      | Some dex_ops =>
          let? limit := if use_bytes then Resource_new [dex_ops; MAX_CLASSIC_BYTE_ALLOWANCE] else Resource_new [dex_ops] in Ok (Some limit)
      | None => Ok None
      end in
    Ok (Some (DexLimitingLaneConfig_new generic_limit dex_limit)).

(** [if fees.len() != limits.len() { fees.resize(limits.len(), None) }]. *)
Definition resize_fees (cfg : LaneConfig) (fees : list (option FeeRate)) : list (option FeeRate) :=
  resize (length (config_limits cfg)) None fees.

Definition fee_below_lane_threshold (cfg : LaneConfig) (fees : list (option FeeRate)) (global_fee : option FeeRate) (max_ops : option Z)
    (queued : QueuedTransaction) : result (list (option FeeRate) * bool) Panic :=
  let? lane := config_lane cfg (q_envelope queued) in
  let fees := resize_fees cfg fees in
  let? lane_fee := at_index fees lane in
  let? min_lane := min_inclusion_fee_to_beat lane_fee (fee_rate queued) in
  let? generic_fee := at_index fees GENERIC_LANE in
  let? min_generic := min_inclusion_fee_to_beat generic_fee (fee_rate queued) in
  let min_fee := Z.max min_lane min_generic in
  let? min_fee :=
    match max_ops with
    | Some _ => let? min_global := min_inclusion_fee_to_beat global_fee (fee_rate queued) in Ok (Z.max min_fee min_global)
    | None => Ok min_fee
    end in
  Ok (fees, 0 <? min_fee).

(** ** Evictions *)

(** What is pending: the hashes and the transactions in order. *)
Notation Pending := (gset (list Z) * list QueuedTransaction)%type.

Definition record_lane_eviction (cfg : LaneConfig) (acc : list (option FeeRate) * Pending) (eviction : QueuedTransaction * bool) :
    result (list (option FeeRate) * Pending) Panic :=
  let '(fees, (pending, evicted_list)) := acc in
  let '(evicted, evicted_due_to_lane_limit) := eviction in
  if bool_decide (q_hash evicted ∈ pending) then Ok acc
  else
    let pending := {[q_hash evicted]} ∪ pending in
    let? lane := config_lane cfg (q_envelope evicted) in
    let fees := resize_fees cfg fees in
    let at_lane := if evicted_due_to_lane_limit : bool then lane else GENERIC_LANE in
    let? _ := at_index fees at_lane in
    Ok (put_at at_lane (Some (fee_rate evicted)) fees, (pending, evicted_list ++ [evicted])).

Definition record_lane_evictions (cfg : LaneConfig) (fees : list (option FeeRate)) (evictions : list (QueuedTransaction * bool)) (p : Pending) :
    result (list (option FeeRate) * Pending) Panic :=
  try_fold (record_lane_eviction cfg) evictions (fees, p).

(** The same for the limit of operations over all transactions. *)
Definition record_global_eviction (acc : option FeeRate * Pending) (eviction : QueuedTransaction * bool) : option FeeRate * Pending :=
  let '(fee, (pending, evicted_list)) := acc in
  if bool_decide (q_hash eviction.1 ∈ pending) then acc
  else (Some (fee_rate eviction.1), ({[q_hash eviction.1]} ∪ pending, evicted_list ++ [eviction.1])).

Section candidate.
Context (queued : QueuedTransaction) (candidate_is_soroban : bool) (ledger_version : Z) (replaced_tx : option QueuedTransaction).

(** Whether the candidate fits into a queue, and what has to go. *)
Definition evictions_for (queue : SurgePricingPriorityQueue) (p : Pending) (q : TransactionQueue) :
    result (option (list (QueuedTransaction * bool))) Panic :=
  let? exclusion := build_eviction_exclusion queue (by_hash (store q)) replaced_tx p.1 ledger_version in
  can_fit_with_eviction queued None ledger_version (if exclusion_is_empty exclusion then None else Some exclusion) queue.

(** The fees cached from the last evictions reject a candidate that cannot beat them. *)
Definition classic_threshold (q : TransactionQueue) : result (TransactionQueue * bool) Panic :=
  let t := eviction_thresholds q in
  if candidate_is_soroban then Ok (q, false)
  else
    let? cfg := build_classic_lane_config (config q) in
    match cfg with
    | None => Ok (q, false)
    | Some cfg =>
        let? (fees, below) := fee_below_lane_threshold cfg (classic_lane_fees t) (global_fees t) (effective_max_queue_ops q) queued in
        Ok (put_thresholds (MkThresholds fees (soroban_lane_fees t) (global_fees t)) q, below)
    end.

Definition soroban_threshold (q : TransactionQueue) : result (TransactionQueue * bool) Panic :=
  let t := eviction_thresholds q in
  if negb candidate_is_soroban then Ok (q, false)
  else
    match effective_queue_soroban_resources q with
    | None => Ok (q, false)
    | Some limit =>
        let? (fees, below) :=
          fee_below_lane_threshold (SorobanGenericLaneConfig_new limit) (soroban_lane_fees t) (global_fees t) (effective_max_queue_ops q) queued in
        Ok (put_thresholds (MkThresholds (classic_lane_fees t) fees (global_fees t)) q, below)
    end.

Definition global_threshold (q : TransactionQueue) : result bool Panic :=
  match effective_max_queue_ops q with
  | None => Ok false
  | Some _ => let? min_fee := min_inclusion_fee_to_beat (global_fees (eviction_thresholds q)) (fee_rate queued) in Ok (0 <? min_fee)
  end.

(** A pass over one queue: [None] when the candidate does not fit. *)
Definition Pass : Type := TransactionQueue -> Pending -> result (TransactionQueue * option Pending) Panic.

Definition same_type (soroban : bool) : bool :=
  match replaced_tx with Some tx => Bool.eqb (is_soroban_envelope (q_envelope tx)) soroban | None => true end.

Definition classic_pass : Pass := fun q p =>
  if candidate_is_soroban then Ok (q, Some p)
  else
    let! same_type false in
    let? cfg := build_classic_lane_config (config q) in
    match cfg with
    | None => Ok (q, Some p)
    | Some cfg =>
        let? (st, queue) := ensure_classic_queue cfg ledger_version (store q) in
        let q := put_store st q in
        let? evictions := evictions_for queue p q in
        match evictions with
        | None => Ok (q, None)
        | Some evictions =>
            let t := eviction_thresholds q in
            let? (fees, p) := record_lane_evictions cfg (classic_lane_fees t) evictions p in
            Ok (put_thresholds (MkThresholds fees (soroban_lane_fees t) (global_fees t)) q, Some p)
        end
    end.

Definition soroban_pass : Pass := fun q p =>
  if negb candidate_is_soroban then Ok (q, Some p)
  else
    let! same_type true in
    match effective_queue_soroban_resources q with
    | None => Ok (q, Some p)
    | Some limit =>
        let? (st, queue) := ensure_soroban_queue limit ledger_version (store q) in
        let q := put_store st q in
        let? evictions := evictions_for queue p q in
        match evictions with
        | None => Ok (q, None)
        | Some evictions =>
            let t := eviction_thresholds q in
            let? (fees, p) := record_lane_evictions (SorobanGenericLaneConfig_new limit) (soroban_lane_fees t) evictions p in
            Ok (put_thresholds (MkThresholds (classic_lane_fees t) fees (global_fees t)) q, Some p)
        end
    end.

Definition global_pass : Pass := fun q p =>
  match effective_max_queue_ops q with
  | None => Ok (q, Some p)
  | Some limit =>
      let? (st, queue) := ensure_global_ops_queue limit ledger_version (store q) in
      let q := put_store st q in
      let? evictions := evictions_for queue p q in
      match evictions with
      | None => Ok (q, None)
      | Some evictions =>
          let t := eviction_thresholds q in
          let '(fee, p) := foldl record_global_eviction (global_fees t, p) evictions in
          Ok (put_thresholds (MkThresholds (classic_lane_fees t) (soroban_lane_fees t) fee) q, Some p)
      end
  end.

(** A pass that finds no room ends the collection. *)
Definition then_pass (r : result (TransactionQueue * option Pending) Panic) (pass : Pass) : result (TransactionQueue * option Pending) Panic :=
  let? (q, p) := r in match p with Some p => pass q p | None => Ok (q, None) end.

Definition check_and_collect_evictions (q : TransactionQueue) : result (TransactionQueue * result (list QueuedTransaction) TxQueueResult) Panic :=
  let? (q, below) := classic_threshold q in
  if below : bool then Ok (q, Err FeeTooLow)
  else
    let? (q, below) := soroban_threshold q in
    if below : bool then Ok (q, Err FeeTooLow)
    else
      let? below := global_threshold q in
      if below : bool then Ok (q, Err FeeTooLow)
      else
        let? (q, p) := then_pass (then_pass (classic_pass q (∅, [])) soroban_pass) global_pass in
        Ok (q, match p with Some p => Ok p.2 | None => Err QueueFull end).

(** ** Balances and capacity *)

Definition net_new_fee : Z :=
  match replaced_tx with
  | Some old_tx =>
      if bool_decide (fee_source_key (q_envelope old_tx) = fee_source_key (q_envelope queued))
      then i64_saturating_sub (as_i64 (total_fee queued)) (as_i64 (total_fee old_tx))
      else as_i64 (total_fee queued)
  | None => as_i64 (total_fee queued)
  end.

Definition validate_fee_balance (q : TransactionQueue) : result unit TxQueueResult :=
  let key := fee_source_key (q_envelope queued) in
  match fee_balance_provider q with
  | None => Ok tt
  | Some provider =>
      let current_total_fees := default 0 (total_fees <$> account_states q !! key) in
      match provider key with
      | Ok (Some available) =>
          if i64_saturating_sub available net_new_fee <? current_total_fees then Err (Invalid (Some TxInsufficientBalance)) else Ok tt
      | Ok None => Err (Invalid (Some TxNoAccount))
      | Err _ => Err (Invalid None)
      end
  end.
End candidate.

(** [elapsed().as_secs() > max_age_secs]. *)
Definition is_expired (now max_age : Z) (tx : QueuedTransaction) : bool := max_age <? Z.max 0 (now - received_at tx) / NANOS_PER_SEC.

(** One transaction leaves the store, its account and the seen hashes. *)
Definition evict_one (hash : list Z) (ledger_version : Z) (q : TransactionQueue) : result TransactionQueue Panic :=
  let? (st, removed) := store_remove hash ledger_version (store q) in
  let? evicted := expect removed in
  Ok (update q st (seen q ∖ {[hash]}) (eviction_thresholds q) (banned_transactions q) (drop_transaction evicted (account_states q))).

Definition ensure_queue_capacity (now : Z) (pending_eviction_count : nat) (queued : QueuedTransaction) (ledger_version : Z)
    (q : TransactionQueue) : result (TransactionQueue * result unit TxQueueResult) Panic :=
  let effective_len := (store_len (store q) - pending_eviction_count)%nat in
  if (effective_len <? effective_max_size q)%nat then Ok (q, Ok tt)
  else
    match head (filter (fun p : list Z * QueuedTransaction => is_expired now (max_age_secs (config q)) p.2 = true) (iterate (by_hash (store q)))) with
    | Some (hash, _) => let? q := evict_one hash ledger_version q in Ok (q, Ok tt)
    | None =>
        match lowest_fee (store q) with
        | Some min_entry =>
            let? better := is_better_than_entry queued min_entry in
            if better : bool then let? q := evict_one (fe_hash min_entry) ledger_version q in Ok (q, Ok tt)
            else Ok (q, Err QueueFull)
        | None => Ok (q, Err QueueFull)
        end
    end.

(** ** Admission *)

(** The pending evictions are carried out, and their transactions banned. *)
Definition commit_evictions (evictions : list QueuedTransaction) (ledger_version : Z) (q : TransactionQueue) : result TransactionQueue Panic :=
  let? st := try_fold (fun st tx => let? (st, _) := store_remove (q_hash tx) ledger_version st in Ok st) evictions (store q) in
  let hs := list_to_set (q_hash <$> evictions) in
  Ok (update q st (seen q ∖ hs) (eviction_thresholds q) (ban_newest hs (banned_transactions q))
        (foldl (fun states tx => drop_transaction tx states) (account_states q) evictions)).

(** A replaced transaction goes; a fee source that differs from the new one is released. *)
Definition remove_replaced (old_tx : QueuedTransaction) (new_fee_source : Uint256) (ledger_version : Z) (q : TransactionQueue) :
    result TransactionQueue Panic :=
  let? (st, _) := store_remove (q_hash old_tx) ledger_version (store q) in
  let old_fee_source := fee_source_key (q_envelope old_tx) in
  let states :=
    if bool_decide (old_fee_source = new_fee_source) then account_states q
    else
      remove_if_empty old_fee_source
        (alter (release_fee (as_i64 (total_fee old_tx)) (is_soroban_envelope (q_envelope old_tx))) old_fee_source (account_states q)) in
  Ok (update q st (seen q ∖ {[q_hash old_tx]}) (eviction_thresholds q) (banned_transactions q) states).

(** [states.entry(key).or_default()]. *)
Definition entry_or_default (key : Uint256) (f : AccountState -> AccountState) (states : AccountStates) : AccountStates :=
  <[key := f (default AccountState_default (states !! key))]> states.

Definition add_fee (fee : Z) (s : AccountState) : AccountState := put_fees (i64_saturating_add (total_fees s) fee) s.

(** The state of the fee source after the transaction was added; a replacement with the
    same fee source is not counted again. *)
Definition take_fee (queued : QueuedTransaction) (replaced_tx : option QueuedTransaction) (s : AccountState) : AccountState :=
  let s := add_fee (net_new_fee queued replaced_tx) s in
  let same_source := match replaced_tx with
                     | Some old => bool_decide (fee_source_key (q_envelope old) = fee_source_key (q_envelope queued))
                     | None => false
                     end in
  if same_source then s else count_up (is_soroban_envelope (q_envelope queued)) s.

Definition add_to_accounts (queued : QueuedTransaction) (replaced_tx : option QueuedTransaction) (states : AccountStates) : AccountStates :=
  let states := entry_or_default (account_key (q_envelope queued)) (put_transaction (Some queued)) states in
  entry_or_default (fee_source_key (q_envelope queued)) (take_fee queued replaced_tx) states.

Definition complete_add (queued : QueuedTransaction) (replaced_tx : option QueuedTransaction) (ledger_version : Z) (q : TransactionQueue) :
    result TransactionQueue Panic :=
  let? q := match replaced_tx with
            | Some old_tx => remove_replaced old_tx (fee_source_key (q_envelope queued)) ledger_version q
            | None => Ok q
            end in
  let? st := store_insert queued ledger_version (store q) in
  Ok (update q st ({[q_hash queued]} ∪ seen q) (eviction_thresholds q) (banned_transactions q)
        (add_to_accounts queued replaced_tx (account_states q))).

(** From the checks of the account on. *)
Definition try_admit (now : Z) (queued : QueuedTransaction) (ledger_version : Z) (q : TransactionQueue) : result (TransactionQueue * TxQueueResult) Panic :=
  let env := q_envelope queued in
  let soroban := is_soroban_envelope env in
  match check_account_limit queued (account_key env) (envelope_sequence_number env) (is_fee_bump_envelope env) soroban (account_states q) with
  | Err r => Ok (q, r)
  | Ok replaced_tx =>
      let? (q, evictions) := check_and_collect_evictions queued soroban ledger_version replaced_tx q in
      match evictions with
      | Err r => Ok (q, r)
      | Ok evictions =>
          match validate_fee_balance queued replaced_tx q with
          | Err r => Ok (q, r)
          | Ok _ =>
              let? (q, capacity) := ensure_queue_capacity now (length evictions) queued ledger_version q in
              match capacity with
              | Err r => Ok (q, r)
              | Ok _ =>
                  let? q := commit_evictions evictions ledger_version q in
                  let? q := complete_add queued replaced_tx ledger_version q in
                  Ok (q, Added)
              end
          end
      end
  end.

(** The inclusion fee a transaction needs at least. *)
Definition required_inclusion_fee (queued : QueuedTransaction) (q : TransactionQueue) : Z :=
  let lcl_base_fee := Z.max (base_fee (validation_context q)) (min_fee_per_op (config q)) in
  i64_saturating_mul lcl_base_fee (Z.max 1 (op_count (fee_rate queued))).

(** [validation] is what the validation of the envelope alone comes to. The check for a
    ban that is repeated under the lock has the same answer. *)
Definition try_add (now : Z) (validation : result unit TxResultCode) (env : TransactionEnvelope) (q : TransactionQueue) :
    result (TransactionQueue * TxQueueResult) Panic :=
  let soroban := is_soroban_envelope env in
  match check_cross_type_conflict_with (account_key env) soroban (account_states q) with
  | Some r => Ok (q, r)
  | None =>
      match validation with
      | Err code => Ok (q, Invalid (Some code))
      | Ok _ =>
          match QueuedTransaction_new now env with
          | Err _ => Ok (q, Invalid (Some TxMalformed))
          | Ok queued =>
              if bool_decide (q_hash queued ∈ seen q) then Ok (q, Duplicate)
              else if is_banned (q_hash queued) q then Ok (q, Banned)
              else if is_filtered (q_envelope queued) q then Ok (q, Filtered)
              else if inclusion_fee (fee_rate queued) <? required_inclusion_fee queued q then Ok (q, FeeTooLow)
              else if soroban && negb (check_soroban_resources (q_envelope queued) (validation_context q)) then Ok (q, Invalid (Some TxSorobanInvalid))
              else if bool_decide (is_Some (by_hash (store q) !! q_hash queued)) then Ok (q, Duplicate)
              else try_admit now queued (protocol_version (validation_context q)) q
          end
      end
  end.

(** ** Removal *)

(** Removal of a list of hashes; whether any was there. *)
Definition remove_hash (ledger_version : Z) (acc : QueueStore * AccountStates * bool) (hash : list Z) :
    result (QueueStore * AccountStates * bool) Panic :=
  let '(st, states, did_remove) := acc in
  let? (st, removed) := store_remove hash ledger_version st in
  Ok (match removed with Some tx => (st, drop_transaction tx states, true) | None => (st, states, did_remove) end).

Definition remove_hashes (hs : list (list Z)) (b : Bans) (q : TransactionQueue) : result TransactionQueue Panic :=
  let? (st, states, did_remove) :=
    try_fold (remove_hash (protocol_version (validation_context q))) hs (store q, account_states q, false) in
  Ok (update q st (seen q ∖ list_to_set hs) (if did_remove : bool then reset_all (eviction_thresholds q) else eviction_thresholds q) b states).

Definition evict_expired (now : Z) (q : TransactionQueue) : result TransactionQueue Panic :=
  let expired := filter (fun p : list Z * QueuedTransaction => is_expired now (max_age_secs (config q)) p.2 = true) (iterate (by_hash (store q))) in
  remove_hashes expired.*1 (banned_transactions q) q.

Definition ban (tx_hashes : list (list Z)) (q : TransactionQueue) : result TransactionQueue Panic :=
  if bool_decide (tx_hashes = []) then Ok q
  else remove_hashes tx_hashes (ban_newest (list_to_set tx_hashes) (banned_transactions q)) q.

Definition invalidate_all_eviction_state (new_seed : Z) (q : TransactionQueue) : TransactionQueue :=
  put_thresholds (reset_all (eviction_thresholds q)) (put_store (regenerate_eviction_seed new_seed (store q)) q).

Definition clear (new_seed new_flood_seed : Z) (q : TransactionQueue) : result TransactionQueue Panic :=
  let? st := clear_data new_flood_seed (store q) in
  let q := invalidate_all_eviction_state new_seed (put_store st q) in
  Ok (update q (store q) (seen q) (eviction_thresholds q) (banned_transactions q) ∅).

Definition clear_seen (q : TransactionQueue) : TransactionQueue :=
  update q (store q) ∅ (eviction_thresholds q) (banned_transactions q) (account_states q).

(** ** After a ledger: applied transactions *)

(** What the pass over the applied transactions gathers. *)
Record Applied := MkApplied {
  ap_store : QueueStore;
  ap_states : AccountStates;
  ap_banned : Bans;
  ap_releases : list (Uint256 * Z * bool);
  ap_cleanup : list Uint256;
  ap_removed : list (list Z)
}.

Definition apply_one (ledger_version : Z) (acc : Applied) (applied : TransactionEnvelope * Z) : result Applied Panic :=
  let '(env, applied_seq) := applied in
  let seq_source := account_key env in
  let fee_source := fee_source_key env in
  let? acc :=
    match ap_states acc !! seq_source ≫= transaction with
    | Some queued_tx =>
        if envelope_sequence_number (q_envelope queued_tx) <=? applied_seq then
          let? (st, _) := store_remove (q_hash queued_tx) ledger_version (ap_store acc) in
          let release := (fee_source_key (q_envelope queued_tx), as_i64 (total_fee queued_tx), is_soroban_envelope (q_envelope queued_tx)) in
          Ok (MkApplied st (alter clear_pending seq_source (ap_states acc)) (ap_banned acc) (ap_releases acc ++ [release])
                (ap_cleanup acc) (ap_removed acc ++ [q_hash queued_tx]))
        else Ok acc
    | None => Ok acc
    end in
  let cleanup := ap_cleanup acc ++ (if bool_decide (fee_source = seq_source) then [seq_source] else [seq_source; fee_source]) in
  Ok (MkApplied (ap_store acc) (ap_states acc) (ban_newest {[hash_xdr env]} (ap_banned acc)) (ap_releases acc) cleanup (ap_removed acc)).

Definition apply_release (states : AccountStates) (release : Uint256 * Z * bool) : AccountStates :=
  let '(fee_source, fee, soroban) := release in alter (release_fee fee soroban) fee_source states.

Definition remove_applied (applied_txs : list (TransactionEnvelope * Z)) (q : TransactionQueue) : result TransactionQueue Panic :=
  if bool_decide (length applied_txs = 0%nat) then Ok q
  else
    let? acc := try_fold (apply_one (protocol_version (validation_context q))) applied_txs
                  (MkApplied (store q) (account_states q) (banned_transactions q) [] [] []) in
    let states := foldl apply_release (ap_states acc) (ap_releases acc) in
    let states := foldl (fun states key => remove_if_empty key states) states (ap_cleanup acc) in
    let thresholds := if bool_decide (ap_removed acc = []) then eviction_thresholds q else reset_all (eviction_thresholds q) in
    Ok (update q (ap_store acc) (seen q ∖ list_to_set (ap_removed acc)) thresholds (ap_banned acc) states).

(** ** After a ledger: ageing *)

Record ShiftResult := MkShiftResult { unbanned_count : Z; evicted_due_to_age : Z; reflooded_txs : list TransactionEnvelope }.

Record Aged := MkAged {
  ag_store : QueueStore;
  ag_states : AccountStates;
  ag_banned : Bans;
  ag_evicted : list (list Z);
  ag_remove : list Uint256;
  ag_releases : list (Uint256 * Z * bool);
  ag_reflooded : list TransactionEnvelope
}.

(** One account: its pending transaction ages, is flooded again, or banned. *)
Definition age_account (depth ledger_version : Z) (acc : Aged) (x : Uint256 * AccountState) : result Aged Panic :=
  let '(key, state) := x in
  match transaction state with
  | None => Ok acc
  | Some queued_tx =>
      let new_age := as_u32 (age state + 1) in
      let? (st, reflooded) :=
        if (new_age =? 2) || (new_age =? 3) then
          let? flood := mark_for_flood queued_tx ledger_version (flood_queue (ag_store acc)) in
          Ok (put_flood flood (ag_store acc), ag_reflooded acc ++ [q_envelope queued_tx])
        else Ok (ag_store acc, ag_reflooded acc) in
      if depth <=? new_age then
        let? (st, _) := store_remove (q_hash queued_tx) ledger_version st in
        let release := (fee_source_key (q_envelope queued_tx), as_i64 (total_fee queued_tx), is_soroban_envelope (q_envelope queued_tx)) in
        let no_fees := total_fees state =? 0 in
        let state := put_age (if no_fees then new_age else 0) (put_transaction None state) in
        Ok (MkAged st (<[key := state]> (ag_states acc)) (ban_newest {[q_hash queued_tx]} (ag_banned acc))
              (ag_evicted acc ++ [q_hash queued_tx]) (if no_fees then ag_remove acc ++ [key] else ag_remove acc)
              (ag_releases acc ++ [release]) reflooded)
      else
        Ok (MkAged st (<[key := put_age new_age state]> (ag_states acc)) (ag_banned acc) (ag_evicted acc) (ag_remove acc)
              (ag_releases acc) reflooded)
  end.

(** A fee source that is empty after the release is marked for removal, once. *)
Definition release_and_mark (acc : AccountStates * list Uint256) (release : Uint256 * Z * bool) : AccountStates * list Uint256 :=
  let '(states, marked) := acc in
  let states := apply_release states release in
  match states !! release.1.1 with
  | Some s => (states, if is_empty s && negb (bool_decide (release.1.1 ∈ marked)) then marked ++ [release.1.1] else marked)
  | None => (states, marked)
  end.

Definition shift (new_seed : Z) (q : TransactionQueue) : result (TransactionQueue * ShiftResult) Panic :=
  let unbanned := match head (banned_transactions q) with Some s => Z.of_nat (size s) | None => 0 end in
  let? acc := try_fold (age_account (pending_depth q) (protocol_version (validation_context q))) (iterate (account_states q))
                (MkAged (store q) (account_states q) (shift_bans (banned_transactions q)) [] [] [] []) in
  let '(states, marked) := foldl release_and_mark (ag_states acc, ag_remove acc) (ag_releases acc) in
  let states := foldl (fun states key => delete key states) states marked in
  let q := update q (ag_store acc) (seen q ∖ list_to_set (ag_evicted acc)) (eviction_thresholds q) (ag_banned acc) states in
  Ok (invalidate_all_eviction_state new_seed q, MkShiftResult unbanned (len (ag_evicted acc)) (ag_reflooded acc)).

(** ** The rest *)

(** A pending transaction whose sequence number the ledger has passed. *)
Definition drop_stale_pending (account : Uint256) (on_ledger_seq : Z) (q : TransactionQueue) : result (TransactionQueue * bool) Panic :=
  match account_states q !! account ≫= transaction with
  | None => Ok (q, false)
  | Some queued_tx =>
      if on_ledger_seq <? envelope_sequence_number (q_envelope queued_tx) then Ok (q, false)
      else
        let? (st, _) := store_remove (q_hash queued_tx) (protocol_version (validation_context q)) (store q) in
        let fee_source := fee_source_key (q_envelope queued_tx) in
        let states := remove_if_empty account (alter clear_pending account (account_states q)) in
        let states := remove_if_empty fee_source
          (alter (release_fee (as_i64 (total_fee queued_tx)) (is_soroban_envelope (q_envelope queued_tx))) fee_source states) in
        Ok (update q st (seen q ∖ {[q_hash queued_tx]}) (reset_all (eviction_thresholds q)) (banned_transactions q) states, true)
  end.

(** Every transaction is offered again to an emptied queue. *)
Definition re_add (now : Z) (validation : TransactionEnvelope -> result unit TxResultCode) (acc : TransactionQueue * Z) (env : TransactionEnvelope) :
    result (TransactionQueue * Z) Panic :=
  let? (q, r) := try_add now (validation env) env acc.1 in Ok (q, match r with Added => acc.2 + 1 | _ => acc.2 end).

Definition reset_and_rebuild (now new_seed new_flood_seed : Z) (validation : TransactionEnvelope -> result unit TxResultCode)
    (q : TransactionQueue) : result (TransactionQueue * Z) Panic :=
  let existing := q_envelope <$> store_values (store q) in
  let? st := clear_data new_flood_seed (store q) in
  let q := invalidate_all_eviction_state new_seed (put_store st q) in
  let q := update q (store q) ∅ (eviction_thresholds q) (banned_transactions q) ∅ in
  try_fold (re_add now validation) existing (q, 0).

Definition rebroadcast (new_flood_seed : Z) (q : TransactionQueue) : result TransactionQueue Panic :=
  let? flood := reset_and_repopulate new_flood_seed (store_values (store q)) (protocol_version (validation_context q)) (flood_queue (store q)) in
  Ok (put_store (put_flood flood (store q)) q).

Definition account_pending_info (account : Uint256) (q : TransactionQueue) : option (list Z * Z * Z) :=
  match account_states q !! account with
  | Some s => (fun tx => (q_hash tx, envelope_sequence_number (q_envelope tx), age s)) <$> transaction s
  | None => None
  end.

Definition banned_count (q : TransactionQueue) : Z := zsum (fun s : gset (list Z) => Z.of_nat (size s)) (banned_transactions q).
Definition queue_get (hash : list Z) (q : TransactionQueue) : option QueuedTransaction := by_hash (store q) !! hash.
Definition queue_contains (hash : list Z) (q : TransactionQueue) : bool := is_some (by_hash (store q) !! hash).
Definition pending_envelopes (q : TransactionQueue) : list TransactionEnvelope := q_envelope <$> store_values (store q).
End queue.
