(* ===== verification/TxQueueHeld.v ===== *)
(** * TxQueueHeld: a priority queue that holds given transactions

    A queue holds the transactions it has entries of, each made with the seed of the
    queue. Adding and removing transactions adds and removes exactly these, for every
    lane configuration and the transactions it takes. *)

From S2P Require Import Prelude Bucket Ledger Lists Resource Envelope SurgePricing SurgePricingFacts TxQueueStore.

Section held.
Context `{EnvelopeXdr}.

(** What the XDR types and the validation of a transaction make sure of: fees that are
    not negative, operations also inside a fee bump, and resources of 32 bits. *)
Record env_ok (env : TransactionEnvelope) : Prop := {
  env_fee : 0 <= envelope_fee env <= i64_max;
  env_inclusion : 0 <= envelope_inclusion_fee env <= envelope_fee env;
  env_ops : 0 < envelope_operation_count env <= u32_max;
  env_bump : is_fee_bump_envelope env = true -> 1 < envelope_operation_count env;
  env_size : is_u32 (envelope_tx_size_bytes env);
  env_resources : forall r, envelope_soroban_resources env = Some r ->
    is_u32 (instructions r) /\ is_u32 (disk_read_bytes r) /\ is_u32 (write_bytes r);
  env_keys : forall data, envelope_soroban_data env = Some data ->
    len (read_only (footprint (resources data))) + len (read_write (footprint (resources data))) +
    match soroban_ext data with DataExtV1 archived => len archived | DataExtV0 => 0 end <= u32_max
}.

(** A transaction as the queue makes it. *)
Definition queued_ok (tx : QueuedTransaction) : Prop :=
  env_ok (q_envelope tx) /\ exists now, QueuedTransaction_new now (q_envelope tx) = Ok tx.

Lemma as_u64_small n : 0 <= n <= i64_max -> as_u64 n = n.
Proof. intros Hn. unfold as_u64. apply Z.mod_small. unfold i64_max in Hn. lia. Qed.

Lemma as_u32_id n : 0 <= n <= u32_max -> as_u32 n = n.
Proof. intros Hn. unfold as_u32. apply Z.mod_small. unfold u32_max in Hn. lia. Qed.

Lemma queued_new now env : env_ok env ->
  QueuedTransaction_new now env = Ok (MkQueued env (hash_xdr env) now
    (rate_per_op (MkFeeRate (envelope_inclusion_fee env) (envelope_operation_count env)))
    (MkFeeRate (envelope_inclusion_fee env) (envelope_operation_count env)) (envelope_fee env) (has_dex_operations_envelope env)).
Proof.
  intros He. unfold QueuedTransaction_new, extract_fees_and_ops. pose proof (env_fee env He). pose proof (env_inclusion env He).
  destruct (Z.ltb_spec (envelope_fee env) 0); [lia|]. destruct (Z.ltb_spec (envelope_inclusion_fee env) 0); [lia|]. simpl.
  rewrite as_u64_small by done. rewrite as_u32_id by (pose proof (env_ops env He); lia). done.
Qed.

Lemma queued_fields tx : queued_ok tx ->
  q_hash tx = hash_xdr (q_envelope tx) /\
  fee_rate tx = MkFeeRate (envelope_inclusion_fee (q_envelope tx)) (envelope_operation_count (q_envelope tx)) /\
  total_fee tx = envelope_fee (q_envelope tx).
Proof. intros [He [now Hn]]. rewrite queued_new in Hn by done. injection Hn as Hn. rewrite <- Hn. done. Qed.

Lemma queued_rate tx : queued_ok tx -> rate_ok (fee_rate tx).
Proof.
  intros Hq. destruct (queued_fields tx Hq) as (_ & -> & _). destruct Hq as [He _]. split; simpl; [apply (env_inclusion _ He)|apply (env_ops _ He)].
Qed.

Lemma queued_fee tx : queued_ok tx -> 0 <= total_fee tx <= i64_max.
Proof. intros Hq. destruct (queued_fields tx Hq) as (_ & _ & ->). apply Hq. Qed.

Lemma queued_new_ok now env tx : env_ok env -> QueuedTransaction_new now env = Ok tx -> queued_ok tx /\ q_envelope tx = env.
Proof.
  intros He E. assert (q_envelope tx = env) as Henv by (rewrite queued_new in E by done; by injection E as <-).
  split; [|done]. split; rewrite Henv; [done|by exists now].
Qed.

(** ** What the configurations take *)

Definition takes (n : nat) (v : Z) (c : LaneConfig) (k : nat) (wanted : QueuedTransaction -> bool) : Prop :=
  forall tx, queued_ok tx -> wanted tx = true ->
    exists lane, admissible n v c k tx lane /\ forall i, dim (uses n v c (q_envelope tx)) i <= u32_max.

(** The resources of a transaction, when they are in range. *)
Lemma takes_intro n v c k tx lane r : queued_ok tx -> config_lane c (q_envelope tx) = Ok lane -> (lane < k)%nat ->
  config_resources c (q_envelope tx) v = Ok r -> length (values r) = n -> (forall x, x ∈ values r -> is_u32 x) ->
  admissible n v c k tx lane /\ forall i, dim (uses n v c (q_envelope tx)) i <= u32_max.
Proof.
  intros Hq Hl Hk Hr Hn Hb. unfold uses. rewrite Hr.
  assert (forall i, is_u32 (dim r i)) as Hd.
  { intros i. unfold dim. destruct (values r !! i) as [x|] eqn:E; simpl; [by apply Hb; apply list_elem_of_lookup_2 in E|].
    unfold is_u32, u32_max. lia. }
  split; [|intros i; apply Hd]. split; try done.
  - by apply queued_rate.
  - unfold uses. by rewrite Hr.
  - unfold uses. rewrite Hr. split; [done|]. intros i. specialize (Hd i). unfold is_u32, u32_max, i64_max in *. lia.
Qed.

Lemma resource_new_one x : Resource_new [x] = Ok (MkResource [x]).
Proof. done. Qed.

Lemma classic_resources env b v : env_ok env -> is_soroban_envelope env = false ->
  exists r, resources_from_envelope env b v = Ok r /\ length (values r) = (if b then 2 else 1)%nat /\ forall x, x ∈ values r -> is_u32 x.
Proof.
  intros He Hs. unfold resources_from_envelope. rewrite Hs. pose proof (env_ops env He). pose proof (env_size env He).
  destruct b; eexists; (split; [done|]); (split; [done|]); simpl; intros x Hx.
  - apply elem_of_cons in Hx as [->|Hx]; [unfold is_u32; lia|]. by apply list_elem_of_singleton in Hx as ->.
  - apply list_elem_of_singleton in Hx as ->. unfold is_u32. lia.
Qed.

Lemma disk_read_bound data is_restore v : len (read_only (footprint (resources data))) + len (read_write (footprint (resources data))) +
    match soroban_ext data with DataExtV1 archived => len archived | DataExtV0 => 0 end <= u32_max ->
  is_u32 (soroban_disk_read_entries (resources data) (Some (soroban_ext data)) is_restore v).
Proof.
  intros Hb. unfold soroban_disk_read_entries, is_u32.
  pose proof (len_nonneg (read_only (footprint (resources data)))). pose proof (len_nonneg (read_write (footprint (resources data)))).
  assert (forall (f : LedgerKey -> bool) l, 0 <= count_if f l <= len l) as Hc by (intros f l; split; [apply count_if_nonneg|apply count_if_le_len]).
  pose proof (Hc (fun key => negb (is_soroban_key key)) (read_only (footprint (resources data)))).
  pose proof (Hc (fun key => negb (is_soroban_key key)) (read_write (footprint (resources data)))).
  destruct (soroban_ext data) as [|archived].
  - destruct is_restore; [lia|]. destruct (negb _); lia.
  - pose proof (len_nonneg archived). destruct is_restore; [lia|]. destruct (negb _); lia.
Qed.

Lemma soroban_resources env v : env_ok env -> is_soroban_envelope env = true ->
  exists r, resources_from_envelope env false v = Ok r /\ length (values r) = 7%nat /\ forall x, x ∈ values r -> is_u32 x.
Proof.
  intros He Hs. unfold resources_from_envelope. rewrite Hs. eexists. split; [done|]. split; [done|]. simpl.
  pose proof (env_ops env He) as Hops. pose proof (env_size env He) as Hsize. pose proof (env_resources env He) as Hres. pose proof (env_keys env He) as Hkeys.
  assert (is_u32 0) as H0u by (unfold is_u32, u32_max; lia).
  assert (is_u32 (if is_fee_bump_envelope env then envelope_operation_count env else 1)) as Hcount.
  { destruct (is_fee_bump_envelope env); unfold is_u32, u32_max in *; lia. }
  unfold envelope_soroban_resources in Hres.
  intros x Hx. repeat (apply elem_of_cons in Hx as [->|Hx]); [done| |done| | | | |by apply elem_of_nil in Hx];
    destruct (envelope_soroban_data env) as [data|]; simpl; try done; try (by apply (Hres (resources data))).
  - by apply disk_read_bound, Hkeys.
  - unfold soroban_disk_read_entries. simpl. destruct (existsb _ _); [done|]. by destruct (negb _).
  - specialize (Hkeys data eq_refl). pose proof (len_nonneg (read_only (footprint (resources data)))).
    pose proof (len_nonneg (read_write (footprint (resources data)))). unfold is_u32. destruct (soroban_ext data) as [|archived]; [lia|].
    pose proof (len_nonneg archived). lia.
Qed.

Lemma dex_takes v limit dex_limit : takes (if (resource_size limit =? NUM_CLASSIC_TX_BYTES_RESOURCES)%nat then 2 else 1) v
  (DexLimitingLaneConfig_new limit dex_limit) (length (config_limits (DexLimitingLaneConfig_new limit dex_limit))) is_classic.
Proof.
  intros tx Hq Hc. unfold is_classic in Hc. apply negb_true_iff in Hc. pose proof Hq as [He _].
  destruct (classic_resources _ (resource_size limit =? NUM_CLASSIC_TX_BYTES_RESOURCES)%nat v He Hc) as (r & Er & Hl & Hb).
  eexists. apply (takes_intro _ _ _ _ _ _ r); try done; simpl.
  - unfold DEX_LANE, GENERIC_LANE. destruct (1 <? _)%nat eqn:E; simpl; [|lia]. apply Nat.ltb_lt in E. by destruct (has_dex_operations_envelope _); simpl; lia.
  - by rewrite Hc.
Qed.

Lemma soroban_takes v limit : takes 7 v (SorobanGenericLaneConfig_new limit) 1 is_soroban.
Proof.
  intros tx Hq Hs. unfold is_soroban in Hs. pose proof Hq as [He _]. destruct (soroban_resources _ v He Hs) as (r & Er & Hl & Hb).
  exists GENERIC_LANE. apply (takes_intro _ _ _ _ _ _ r); try done; simpl.
  - by rewrite Hs.
  - unfold GENERIC_LANE. lia.
  - by rewrite Hs.
Qed.

Lemma one_resource tx n : queued_ok tx -> n = Z.min i64_max (envelope_operation_count (q_envelope tx)) \/ n = Z.max (envelope_operation_count (q_envelope tx)) 1 ->
  forall x, x ∈ values (MkResource [n]) -> is_u32 x.
Proof.
  intros [He _] Hn x Hx. apply list_elem_of_singleton in Hx as ->. pose proof (env_ops _ He). unfold is_u32, u32_max, i64_max in *. lia.
Qed.

Lemma ops_takes v limit : takes 1 v (OpsOnlyLaneConfig_new limit) 1 every_tx.
Proof.
  intros tx Hq _. exists GENERIC_LANE. apply (takes_intro _ _ _ _ _ _ (MkResource [Z.min i64_max (envelope_operation_count (q_envelope tx))])); try done.
  - unfold GENERIC_LANE. lia.
  - by apply (one_resource tx); [|left].
Qed.

Lemma flood_takes v limits (b : bool) : length limits = (if b then 2 else 1)%nat -> takes 1 v (FloodLaneConfig limits b) (length limits) every_tx.
Proof.
  intros Hl tx Hq _. pose proof Hq as [He _]. pose proof (env_ops _ He).
  eexists. apply (takes_intro _ _ _ _ _ _ (MkResource [Z.max (envelope_operation_count (q_envelope tx)) 1])); try done; simpl.
  - unfold DEX_LANE, GENERIC_LANE. rewrite Hl. destruct b; simpl; [|lia]. destruct (has_dex_operations_envelope _); simpl; lia.
  - destruct (Z.leb_spec (envelope_operation_count (q_envelope tx)) i64_max); [done|]. unfold u32_max, i64_max in *. lia.
  - by apply (one_resource tx); [|right].
Qed.

(** ** Holding transactions *)

Section queue.
Context (n : nat) (v : Z) (wanted : QueuedTransaction -> bool).

Record held (s : Z) (q : SurgePricingPriorityQueue) (txs : list QueuedTransaction) : Prop := {
  held_queue : queue_ok n v q;
  held_seed : seed q = s;
  held_takes : takes n v (lane_config q) (length (lane_limits q)) wanted;
  held_entries : concat (lanes q) ≡ₚ (fun tx => QueueEntry_new tx s) <$> txs;
  held_txs : forall tx, tx ∈ txs -> queued_ok tx /\ wanted tx = true;
  held_hashes : NoDup (q_hash <$> txs)
}.

Notation uses_at q i := (fun tx : QueuedTransaction => dim (uses n v (lane_config q) (q_envelope tx)) i).

Lemma held_sum s q txs i : held s q txs -> zsum (entry_uses n v (lane_config q) i) (concat (lanes q)) = zsum (uses_at q i) txs.
Proof. intros Hh. rewrite (held_entries _ _ _ Hh). by rewrite zsum_fmap. Qed.

Lemma held_uses s q txs tx i : held s q txs -> queued_ok tx -> wanted tx = true -> 0 <= uses_at q i tx <= u32_max.
Proof.
  intros Hh Hq Hw. destruct (held_takes _ _ _ Hh tx Hq Hw) as (lane & Ha & Hb). split; [apply Ha|apply Hb].
Qed.

Lemma held_sum_bound s q txs i : held s q txs -> 0 <= zsum (uses_at q i) txs <= u32_max * len txs.
Proof.
  intros Hh. split.
  - apply zsum_nonneg_in. intros tx Htx. destruct (held_txs _ _ _ Hh tx Htx). by apply (held_uses s q txs).
  - apply zsum_bound. intros tx Htx. destruct (held_txs _ _ _ Hh tx Htx). by apply (held_uses s q txs).
Qed.

Lemma held_perm s q txs txs' : txs ≡ₚ txs' -> held s q txs -> held s q txs'.
Proof.
  intros Hp [Hq Hs Ht He Htx Hn]. split; try done.
  - by rewrite <- Hp.
  - intros tx. rewrite <- Hp. apply Htx.
  - by rewrite <- Hp.
Qed.

Lemma held_same s q q' txs txs' : held s q txs -> same_queue q q' -> queue_ok n v q' ->
  concat (lanes q') ≡ₚ (fun tx => QueueEntry_new tx s) <$> txs' -> (forall tx, tx ∈ txs' -> queued_ok tx /\ wanted tx = true) ->
  NoDup (q_hash <$> txs') -> held s q' txs'.
Proof.
  intros Hh (Hc & Hl & Hs) Hq He Htx Hn. split; try done.
  - rewrite Hs. apply Hh.
  - rewrite Hc, Hl. apply Hh.
Qed.

(** The bound on the number of transactions keeps the sums in range. *)
Definition count_ok (k : Z) : Prop := k * u32_max <= i64_max.

(** A transaction is added once. *)
Lemma held_add s q txs tx : held s q txs -> queued_ok tx -> wanted tx = true -> count_ok (len txs + 1) ->
  tx ∈ txs \/ q_hash tx ∉ q_hash <$> txs ->
  exists q', add tx v q = Ok q' /\ same_queue q q' /\ held s q' (if bool_decide (q_hash tx ∈ q_hash <$> txs) then txs else tx :: txs).
Proof.
  intros Hh Hq Hw Hcount Hor. destruct (held_takes _ _ _ Hh tx Hq Hw) as (lane & Ha & Hb). pose proof (held_queue _ _ _ Hh) as Hqq.
  destruct (add_ok n v q tx lane Hqq Ha) as (q' & E & Hq' & Hsame & Hcase).
  { intros i. rewrite (held_sum s q txs) by done. pose proof (held_sum_bound s q txs i Hh). specialize (Hb i). unfold count_ok in Hcount. lia. }
  exists q'. split; [done|]. split; [done|]. rewrite (held_seed _ _ _ Hh) in Hcase. destruct Hcase as [[Hla (e & He & Heq)]|[Hp Hno]].
  - rewrite (held_entries _ _ _ Hh) in He. apply list_elem_of_fmap in He as (t & -> & Ht). apply entry_eq_hash in Heq as [_ Heq]. simpl in Heq.
    rewrite bool_decide_true by (rewrite Heq; by apply list_elem_of_fmap_2).
    apply (held_same s q q' txs); try done; [rewrite Hla; apply Hh|apply Hh|apply Hh].
  - destruct Hor as [Hin|Hnew].
    { exfalso. destruct (queue_entry n v q (QueueEntry_new tx s)) as (lane2 & l & Hl & He & [_ Ha2]); [done| |].
      { rewrite (held_entries _ _ _ Hh). by apply (list_elem_of_fmap_2 (fun tx => QueueEntry_new tx s)). }
      assert (lane2 = lane) as ->.
      { pose proof (adm_lane _ _ _ _ _ _ Ha) as El. pose proof (adm_lane _ _ _ _ _ _ Ha2) as El2. simpl in El2. congruence. }
      apply (Hno l _ Hl He), entry_refl. }
    rewrite bool_decide_false by done. apply (held_same s q q' txs); try done.
    + rewrite Hp. csimpl. by rewrite (held_entries _ _ _ Hh).
    + intros t [->|Ht]%elem_of_cons; [done|by apply Hh].
    + csimpl. constructor; [done|apply Hh].
Qed.

(** A transaction is removed. *)
Lemma held_remove s q txs tx txs' : held s q txs -> txs ≡ₚ tx :: txs' ->
  exists q', remove_from (QueueEntry_new tx s) v q = Ok q' /\ same_queue q q' /\ held s q' txs'.
Proof.
  intros Hh Hp. apply (held_perm s q txs (tx :: txs') Hp) in Hh. pose proof (held_queue _ _ _ Hh) as Hqq.
  destruct (queue_entry n v q (QueueEntry_new tx s)) as (lane & l & Hl & He & [_ Ha]); [done| |].
  { rewrite (held_entries _ _ _ Hh). csimpl. left. }
  destruct (erase_in n v q lane l _ Hqq Hl He) as (q' & l' & E & Hq' & Hsame & Hla & Hpl & _).
  exists q'. unfold remove_from, get_lane, remove_entry. pose proof (adm_lane _ _ _ _ _ _ Ha) as El. simpl in El |- *. rewrite El. simpl.
  split; [done|]. split; [done|]. apply (held_same s q q' (tx :: txs')); try done.
  - pose proof (lanes_taken_perm (lanes q) lane l l' _ Hl Hpl) as Hc. rewrite (held_entries _ _ _ Hh), <- Hla in Hc. csimpl in Hc.
    by apply Permutation_cons_inv in Hc.
  - intros t Ht. apply (held_txs _ _ _ Hh). by right.
  - pose proof (held_hashes _ _ _ Hh) as Hnd. csimpl in Hnd. by apply NoDup_cons in Hnd as [_ ?].
Qed.

(** One that is not there is not. *)
Lemma held_remove_absent s q txs tx : held s q txs -> queued_ok tx -> wanted tx = true -> q_hash tx ∉ q_hash <$> txs ->
  remove_from (QueueEntry_new tx s) v q = Ok q.
Proof.
  intros Hh Hq Hw Hno. destruct (held_takes _ _ _ Hh tx Hq Hw) as (lane & Ha & _). pose proof (held_queue _ _ _ Hh) as Hqq.
  unfold remove_from, get_lane, remove_entry. simpl. rewrite (adm_lane _ _ _ _ _ _ Ha). simpl.
  destruct (lane_at n v q lane Hqq (adm_range _ _ _ _ _ _ Ha)) as (l & r & limit & Hl & _).
  destruct (erase_ok n v q lane l (QueueEntry_new tx s) Hqq Hl) as [(y & q' & l' & Hy & Hc & _)|[E _]]; [by apply queued_rate| |done].
  exfalso. apply Hno. apply entry_eq_hash in Hc as [_ Hc]. simpl in Hc. rewrite Hc.
  assert (y ∈ concat (lanes q)) as Hin by (apply elem_of_concat; exists l; split; [by apply list_elem_of_lookup_2 in Hl|done]).
  rewrite (held_entries _ _ _ Hh) in Hin. apply list_elem_of_fmap in Hin as (t & -> & Ht). simpl. by apply list_elem_of_fmap_2.
Qed.

(** ** New queues *)

Lemma held_new c s : dims_ok n -> config_limits c <> [] -> (forall r, r ∈ config_limits c -> vec_ok n r) ->
  takes n v c (length (config_limits c)) wanted ->
  exists q, SurgePricingPriorityQueue_new c s = Ok q /\ lane_config q = c /\ lane_limits q = config_limits c /\ held s q [].
Proof.
  intros Hn Hne Hv Ht. unfold SurgePricingPriorityQueue_new.
  assert (match config_limits c with limit :: _ => resource_size limit | [] => NUM_CLASSIC_TX_RESOURCES end = n) as ->.
  { destruct (config_limits c) as [|r l]; [done|]. apply (Hv r). left. }
  rewrite (try_map_ok _ (fun _ => rzero n)) by (intros r _; by apply make_empty_ok). simpl.
  eexists. split; [done|]. split; [done|]. split; [done|].
  assert (concat ((fun _ : Resource => @nil QueueEntry) <$> config_limits c) = []) as Hnil.
  { clear. induction (config_limits c) as [|r l IH]; csimpl; [done|exact IH]. }
  split; simpl; try done.
  - split; simpl; try done.
    + by rewrite length_fmap.
    + by rewrite length_fmap.
    + intros lane l Hl. rewrite list_lookup_fmap in Hl. destruct (config_limits c !! lane); [|done]. injection Hl as <-.
      split; [apply set_ok_nil|]. intros e He. by apply elem_of_nil in He.
    + intros lane l Hl. rewrite list_lookup_fmap in Hl. destruct (config_limits c !! lane) eqn:E; [|done]. injection Hl as <-.
      exists (rzero n). rewrite list_lookup_fmap, E. split; [done|]. split; [apply rzero_ok|]. intros i. by rewrite dim_rzero.
  - by rewrite Hnil.
  - intros tx Htx. by apply elem_of_nil in Htx.
  - constructor.
Qed.

Lemma held_add_all s txs0 : forall q txs, held s q txs -> (forall tx, tx ∈ txs0 -> queued_ok tx /\ wanted tx = true) ->
  NoDup (q_hash <$> txs0 ++ txs) -> count_ok (len txs0 + len txs) ->
  exists q', add_all txs0 v q = Ok q' /\ same_queue q q' /\ held s q' (txs0 ++ txs).
Proof.
  induction txs0 as [|tx txs0 IH]; intros q txs Hh Hok Hnd Hcount.
  - exists q. split; [done|]. by split.
  - rewrite len_cons in Hcount. pose proof (len_nonneg txs0). destruct (Hok tx) as [Hq Hw]; [left|].
    csimpl in Hnd. apply NoDup_cons in Hnd as [Hno Hnd]. rewrite fmap_app in Hno. apply not_elem_of_app in Hno as [Hno1 Hno].
    destruct (held_add s q txs tx Hh Hq Hw) as (q1 & E & Hsame & Hh1); [unfold count_ok, u32_max in *; lia|by right|].
    rewrite bool_decide_false in Hh1 by done.
    destruct (IH q1 (tx :: txs) Hh1) as (q' & E' & Hsame' & Hh').
    + intros t Ht. apply Hok. by right.
    + rewrite <- (Permutation_middle txs0 txs tx). csimpl. constructor; [|done]. rewrite fmap_app. by apply not_elem_of_app.
    + rewrite len_cons. unfold count_ok in *. lia.
    + exists q'. unfold add_all. simpl. rewrite E. simpl. split; [done|]. split; [by apply (same_queue_trans q q1)|].
      apply (held_perm s q' (txs0 ++ tx :: txs)); [|done]. simpl. by rewrite Permutation_middle.
Qed.
End queue.
End held.
