(* ===== verification/TxQueueStoreFacts.v ===== *)
(** * TxQueueStoreFacts: the invariant of the store

    The index by fee and the eviction queues are those of the transactions of the
    store, as if built anew from them; the flood queue holds some of them. *)

From S2P Require Import Prelude Bucket Ledger Lists Resource Envelope SurgePricing SurgePricingFacts TxQueueStore TxQueueHeld.

Section facts.
Context `{EnvelopeXdr} `{HashIteration}.

(** ** The transactions of a map *)

Notation Txs := (gmap (list Z) QueuedTransaction).
Implicit Types m : Txs.
Definition vals (m : Txs) : list QueuedTransaction := (map_to_list m).*2.
Definition picked (w : QueuedTransaction -> bool) (m : Txs) : list QueuedTransaction := filter (fun tx => w tx = true) (vals m).

(** Each at its hash, and as the queue makes it. *)
Definition txs_ok (m : Txs) : Prop := forall h tx, m !! h = Some tx -> q_hash tx = h /\ queued_ok tx.

Lemma elem_of_vals m tx : tx ∈ vals m <-> exists h, m !! h = Some tx.
Proof.
  unfold vals. rewrite list_elem_of_fmap. split.
  - intros ([h t] & -> & Hin). exists h. by apply elem_of_map_to_list.
  - intros [h Hh]. exists (h, tx). split; [done|]. by apply elem_of_map_to_list.
Qed.

Lemma elem_of_vals_at m tx : txs_ok m -> tx ∈ vals m <-> m !! q_hash tx = Some tx.
Proof.
  intros Hm. rewrite elem_of_vals. split; [|intros ?; by eexists]. intros [h Hh]. destruct (Hm h tx Hh) as [-> _]. done.
Qed.

Lemma store_values_perm s : store_values s ≡ₚ vals (by_hash s).
Proof. unfold store_values, vals. by rewrite iterate_perm. Qed.

Lemma vals_insert m tx : m !! q_hash tx = None -> vals (<[q_hash tx := tx]> m) ≡ₚ tx :: vals m.
Proof. intros Hn. unfold vals. by rewrite map_to_list_insert. Qed.

Lemma vals_delete m h tx : m !! h = Some tx -> vals m ≡ₚ tx :: vals (delete h m).
Proof. intros Hh. unfold vals. by rewrite <- (map_to_list_delete m h tx Hh). Qed.

Lemma vals_hashes m : txs_ok m -> q_hash <$> vals m = (map_to_list m).*1.
Proof.
  intros Hm. unfold vals. rewrite <- list_fmap_compose. apply list_fmap_ext. intros i [h tx] Hi. simpl.
  apply list_elem_of_lookup_2, elem_of_map_to_list in Hi. by apply (Hm h tx).
Qed.

Lemma vals_nodup m : txs_ok m -> NoDup (q_hash <$> vals m).
Proof. intros Hm. rewrite vals_hashes by done. apply NoDup_fst_map_to_list. Qed.

Lemma len_vals m : len (vals m) = Z.of_nat (size m).
Proof. unfold vals, len. rewrite length_fmap, length_map_to_list. done. Qed.

Lemma elem_of_picked w m tx : tx ∈ picked w m <-> tx ∈ vals m /\ w tx = true.
Proof. unfold picked. rewrite list_elem_of_filter. tauto. Qed.

Lemma picked_len w m : len (picked w m) <= Z.of_nat (size m).
Proof. rewrite <- len_vals. unfold picked, len. pose proof (length_filter (fun tx => w tx = true) (vals m)). lia. Qed.

Lemma picked_insert w m tx : m !! q_hash tx = None ->
  picked w (<[q_hash tx := tx]> m) ≡ₚ if w tx then tx :: picked w m else picked w m.
Proof.
  intros Hn. unfold picked. rewrite vals_insert by done. rewrite filter_cons. destruct (w tx); [by rewrite decide_True|by rewrite decide_False].
Qed.

Lemma picked_delete w m h tx : m !! h = Some tx -> picked w m ≡ₚ if w tx then tx :: picked w (delete h m) else picked w (delete h m).
Proof.
  intros Hn. unfold picked. rewrite vals_delete by done. rewrite filter_cons. destruct (w tx); [by rewrite decide_True|by rewrite decide_False].
Qed.

Lemma picked_hash_new w m tx : txs_ok m -> m !! q_hash tx = None -> q_hash tx ∉ q_hash <$> picked w m.
Proof.
  intros Hm Hn Hin. apply list_elem_of_fmap in Hin as (t & Ht & Hin). apply elem_of_picked in Hin as [Hin _].
  apply (elem_of_vals_at m t Hm) in Hin. congruence.
Qed.

Lemma txs_ok_insert m tx : txs_ok m -> queued_ok tx -> txs_ok (<[q_hash tx := tx]> m).
Proof. intros Hm Hq h t Ht. apply lookup_insert_Some in Ht as [[<- <-]|[_ Ht]]; [done|by apply Hm]. Qed.

Lemma txs_ok_delete m h : txs_ok m -> txs_ok (delete h m).
Proof. intros Hm h' t Ht. apply lookup_delete_Some in Ht as [_ Ht]. by apply Hm. Qed.

Lemma picked_nodup w m : txs_ok m -> NoDup (q_hash <$> picked w m).
Proof. intros Hm. eapply NoDup_submseteq_down, vals_nodup, Hm. apply fmap_submseteq_of. unfold picked. apply sublist_submseteq, sublist_filter. Qed.

(** ** The index by fee *)

Definition fee_rank (e : FeeEntry) : rank := (fe_fee_rate e, fe_hash e, fe_hash e).
Definition fee_entry_compare (a b : FeeEntry) : comparison := rank_compare (fee_rank a) (fee_rank b).
Definition good_fee (e : FeeEntry) : Prop := rate_ok (fe_fee_rate e).

Lemma fee_entry_cmp_ok a b : good_fee a -> good_fee b -> fee_entry_cmp a b = Ok (fee_entry_compare a b).
Proof.
  intros Ha Hb. unfold fee_entry_cmp, fee_entry_compare, rank_compare. rewrite cmp_rate_ok by done. simpl.
  destruct (rate_compare _ _); try done. by destruct (hash_compare _ _) eqn:E.
Qed.

Lemma fee_entry_antisym a b : fee_entry_compare b a = CompOpp (fee_entry_compare a b).
Proof. apply rank_antisym. Qed.

Lemma fee_entry_trans a b c : good_fee a -> good_fee b -> good_fee c ->
  cmp_le fee_entry_compare a b -> cmp_le fee_entry_compare b c -> cmp_le fee_entry_compare a c.
Proof. apply (rank_trans (fee_rank a) (fee_rank b) (fee_rank c)). Qed.

Definition index_ok (m : Txs) (index : list FeeEntry) : Prop :=
  set_ok fee_entry_compare good_fee index /\ index ≡ₚ FeeEntry_from_queued <$> vals m.

Lemma fee_entry_hash a b : fee_entry_compare a b = Eq -> fe_hash a = fe_hash b.
Proof. intros E. by apply (rank_eq_hash (fee_rank a) (fee_rank b)) in E as [_ E]. Qed.

Lemma index_insert m index tx : txs_ok m -> index_ok m index -> queued_ok tx -> m !! q_hash tx = None ->
  exists index', bt_insert fee_entry_cmp (FeeEntry_from_queued tx) index = Ok (index', true) /\ index_ok (<[q_hash tx := tx]> m) index'.
Proof.
  intros Hm [Hs Hp] Hq Hn.
  destruct (bt_insert_spec fee_entry_cmp fee_entry_compare good_fee fee_entry_cmp_ok fee_entry_antisym fee_entry_trans
    (FeeEntry_from_queued tx) index Hs (queued_rate tx Hq)) as [[_ (y & Hy & Hc)]|(l' & -> & Hp' & Hs' & _)].
  - exfalso. rewrite Hp in Hy. apply list_elem_of_fmap in Hy as (t & -> & Ht). apply fee_entry_hash in Hc. simpl in Hc.
    apply (elem_of_vals_at m t Hm) in Ht. congruence.
  - exists l'. split; [done|]. split; [done|]. rewrite Hp', vals_insert by done. csimpl. by rewrite Hp.
Qed.

Lemma index_remove m index h tx : txs_ok m -> index_ok m index -> m !! h = Some tx ->
  exists index', bt_remove fee_entry_cmp (FeeEntry_from_queued tx) index = Ok index' /\ index_ok (delete h m) index'.
Proof.
  intros Hm [Hs Hp] Hh. destruct (Hm h tx Hh) as [_ Hq].
  destruct (bt_remove_spec fee_entry_cmp fee_entry_compare good_fee fee_entry_cmp_ok fee_entry_antisym fee_entry_trans
    (FeeEntry_from_queued tx) index (FeeEntry_from_queued tx) Hs (queued_rate tx Hq)) as (l' & -> & Hp' & Hs' & _).
  - rewrite Hp. apply list_elem_of_fmap_2. apply elem_of_vals. by exists h.
  - pose proof (fee_entry_antisym (FeeEntry_from_queued tx) (FeeEntry_from_queued tx)) as Ha. by destruct (fee_entry_compare _ _).
  - exists l'. split; [done|]. split; [done|]. rewrite Hp, (vals_delete m h tx Hh) in Hp'. csimpl in Hp'. by apply Permutation_cons_inv in Hp'.
Qed.

(** ** Eviction queues *)

Section eviction.
Context (v s : Z) (w : QueuedTransaction -> bool).

(** The queue, when there is one, holds the transactions picked. *)
Definition eviction_ok (m : Txs) (o : option SurgePricingPriorityQueue) : Prop :=
  forall q, o = Some q -> exists n, held n v w s q (picked w m).

Definition same_eviction (o o' : option SurgePricingPriorityQueue) : Prop :=
  match o, o' with Some q, Some q' => same_queue q q' | None, None => True | _, _ => False end.

Lemma eviction_perm m m' o : picked w m ≡ₚ picked w m' -> eviction_ok m o -> eviction_ok m' o.
Proof. intros Hp Ho q Hq. destruct (Ho q Hq) as [n Hn]. exists n. by apply (held_perm n v w s q (picked w m)). Qed.

Lemma same_queue_refl q : same_queue q q.
Proof. done. Qed.

Lemma same_eviction_refl o : same_eviction o o.
Proof. by destruct o. Qed.

Lemma eviction_add m o tx : txs_ok m -> eviction_ok m o -> queued_ok tx -> m !! q_hash tx = None -> count_ok (Z.of_nat (size m) + 1) ->
  exists o', (if w tx then if_some (add tx v) o else Ok o) = Ok o' /\ same_eviction o o' /\ eviction_ok (<[q_hash tx := tx]> m) o'.
Proof.
  intros Hm Ho Hq Hn Hcount. pose proof (picked_insert w m tx Hn) as Hp. destruct (w tx) eqn:Ew.
  2:{ exists o. split; [done|]. split; [apply same_eviction_refl|]. by apply (eviction_perm m). }
  destruct o as [q|]; simpl; [|exists None; split; [done|]; split; [done|]; by intros q'].
  destruct (Ho q eq_refl) as [n Hh]. pose proof (picked_hash_new w m tx Hm Hn) as Hnew.
  destruct (held_add n v w s q (picked w m) tx Hh Hq Ew) as (q' & -> & Hsame & Hh'); [|by right|].
  { pose proof (picked_len w m). unfold count_ok, u32_max in *. lia. }
  rewrite bool_decide_false in Hh' by done. exists (Some q'). split; [done|]. split; [done|].
  intros q2 E. injection E as <-. exists n. by apply (held_perm n v w s q' (tx :: picked w m)).
Qed.

Lemma eviction_remove m o h tx : eviction_ok m o -> m !! h = Some tx ->
  exists o', (if w tx then if_some (remove_from (QueueEntry_new tx s) v) o else Ok o) = Ok o' /\ same_eviction o o' /\ eviction_ok (delete h m) o'.
Proof.
  intros Ho Hn. pose proof (picked_delete w m h tx Hn) as Hp. destruct (w tx) eqn:Ew.
  2:{ exists o. split; [done|]. split; [apply same_eviction_refl|]. by apply (eviction_perm m). }
  destruct o as [q|]; simpl; [|exists None; split; [done|]; split; [done|]; by intros q'].
  destruct (Ho q eq_refl) as [n Hh]. destruct (held_remove n v w s q (picked w m) tx _ Hh Hp) as (q' & -> & Hsame & Hh').
  exists (Some q'). split; [done|]. split; [done|]. intros q2 E. injection E as <-. by exists n.
Qed.
End eviction.

(** ** The store *)

Definition flood_limits (b : bool) : list Resource := MkResource [i64_max] :: if b then [MkResource [i64_max]] else [].
Definition flood_config (b : bool) : LaneConfig := FloodLaneConfig (flood_limits b) b.

(** What is to be flooded is in the store. *)
Definition flood_ok (v : Z) (m : Txs) (f : FloodQueue) : Prop :=
  exists txs, held 1 v every_tx (flood_seed f) (flood_surge f) txs /\ (forall tx, tx ∈ txs -> m !! q_hash tx = Some tx) /\
    lane_config (flood_surge f) = flood_config (has_dex_lane f) /\ lane_limits (flood_surge f) = flood_limits (has_dex_lane f).

Record store_ok (v : Z) (s : QueueStore) : Prop := {
  store_txs : txs_ok (by_hash s);
  store_index : index_ok (by_hash s) (fee_index s);
  store_classic : eviction_ok v (eviction_seed s) is_classic (by_hash s) (classic_eviction_queue s);
  store_soroban : eviction_ok v (eviction_seed s) is_soroban (by_hash s) (soroban_eviction_queue s);
  store_global : eviction_ok v (eviction_seed s) every_tx (by_hash s) (global_ops_queue s);
  store_flood : flood_ok v (by_hash s) (flood_queue s)
}.

(** The queues of two stores differ in their transactions only. *)
Definition same_queues (s s' : QueueStore) : Prop :=
  same_eviction (classic_eviction_queue s) (classic_eviction_queue s') /\
  same_eviction (soroban_eviction_queue s) (soroban_eviction_queue s') /\
  same_eviction (global_ops_queue s) (global_ops_queue s').

Lemma same_queues_refl s : same_queues s s.
Proof. split; [|split]; apply same_eviction_refl. Qed.

Lemma same_eviction_trans o o' o'' : same_eviction o o' -> same_eviction o' o'' -> same_eviction o o''.
Proof. destruct o, o', o''; simpl; try done. apply same_queue_trans. Qed.

Lemma same_queues_trans s s' s'' : same_queues s s' -> same_queues s' s'' -> same_queues s s''.
Proof.
  intros (Ha & Hb & Hc) (Ha' & Hb' & Hc').
  split; [by apply (same_eviction_trans _ (classic_eviction_queue s'))|].
  split; [by apply (same_eviction_trans _ (soroban_eviction_queue s'))|by apply (same_eviction_trans _ (global_ops_queue s'))].
Qed.

Lemma every_wanted tx : every_tx tx = true.
Proof. done. Qed.

(** *** The flood queue *)

Lemma flood_len v m f txs : held 1 v every_tx (flood_seed f) (flood_surge f) txs -> (forall tx, tx ∈ txs -> m !! q_hash tx = Some tx) ->
  len txs <= Z.of_nat (size m).
Proof.
  intros Hh Hin. rewrite <- len_vals. apply submseteq_len. apply NoDup_submseteq.
  - apply (NoDup_fmap_1 q_hash), Hh.
  - intros tx Htx. apply elem_of_vals. exists (q_hash tx). by apply Hin.
Qed.

Lemma flood_lanes v m f q' : flood_ok v m f -> same_queue (flood_surge f) q' ->
  lane_config q' = flood_config (has_dex_lane f) /\ lane_limits q' = flood_limits (has_dex_lane f).
Proof. intros (txs & _ & _ & Hc & Hl) (Hc' & Hl' & _). by rewrite Hc', Hl'. Qed.

(** A transaction of the store may be marked again. *)
Lemma flood_mark v m m' f tx : flood_ok v m f -> (forall h t, m !! h = Some t -> m' !! h = Some t) -> m' !! q_hash tx = Some tx ->
  queued_ok tx -> count_ok (Z.of_nat (size m) + 1) -> exists f', mark_for_flood tx v f = Ok f' /\ flood_ok v m' f'.
Proof.
  intros Hf Hmm Hm Hq Hcount. pose proof Hf as (txs & Hh & Hin & _). pose proof (flood_len v m f txs Hh Hin) as Hlen.
  assert (tx ∈ txs \/ q_hash tx ∉ q_hash <$> txs) as Hor.
  { destruct (decide (q_hash tx ∈ q_hash <$> txs)) as [Hd|]; [left|by right]. apply list_elem_of_fmap in Hd as (t & Ht & Htx).
    pose proof (Hmm _ _ (Hin t Htx)) as Hmt. rewrite <- Ht in Hmt. congruence. }
  destruct (held_add 1 v every_tx _ _ txs tx Hh Hq (every_wanted tx)) as (q' & E & Hsame & Hh'); [unfold count_ok, u32_max in *; lia|done|].
  unfold mark_for_flood. rewrite E. simpl. eexists. split; [done|]. eexists. split; [exact Hh'|]. split; [|by apply (flood_lanes v m f)].
  intros t. destruct (bool_decide _); [intros Ht; by apply Hmm, Hin|]. intros [->|Ht]%elem_of_cons; [done|by apply Hmm, Hin].
Qed.

Lemma flood_more v m m' f : (forall h tx, m !! h = Some tx -> m' !! h = Some tx) -> flood_ok v m f -> flood_ok v m' f.
Proof. intros Hmm (txs & Hh & Hin & Hl). exists txs. split; [done|]. split; [|done]. intros tx Htx. apply Hmm, Hin, Htx. Qed.

(** A transaction leaves the flood queue with the store. *)
Lemma flood_drop v m f h tx : txs_ok m -> flood_ok v m f -> m !! h = Some tx -> exists f', flood_remove tx v f = Ok f' /\ flood_ok v (delete h m) f'.
Proof.
  intros Hm Hf Hh. destruct (Hm h tx Hh) as [<- Hq]. pose proof Hf as (txs & Hheld & Hin & Hl).
  assert (flood_remove tx v f = (let? queue := remove_from (QueueEntry_new tx (flood_seed f)) v (flood_surge f) in
    Ok (MkFlood queue (flood_seed f) (has_dex_lane f)))) as ->.
  { unfold flood_remove, remove_from. simpl. by destruct (get_lane _ _). }
  destruct (decide (q_hash tx ∈ q_hash <$> txs)) as [Hd|Hd].
  - apply list_elem_of_fmap in Hd as (t & Ht & Htx). pose proof (Hin t Htx) as Hmt. rewrite <- Ht in Hmt.
    assert (t = tx) as -> by congruence. apply elem_of_Permutation in Htx as (txs' & Hp).
    destruct (held_remove 1 v every_tx _ _ txs tx txs' Hheld Hp) as (q' & -> & Hsame & Hh'). simpl. eexists. split; [done|].
    exists txs'. split; [done|]. split; [|by apply (flood_lanes v m f)].
    intros u Hu. rewrite lookup_delete_ne; [apply Hin; rewrite Hp; by right|].
    intros E. apply (held_perm _ _ _ _ _ _ _ Hp) in Hheld. pose proof (held_hashes _ _ _ _ _ _ Hheld) as Hnd. csimpl in Hnd.
    apply NoDup_cons in Hnd as [Hno _]. apply Hno. rewrite E. by apply list_elem_of_fmap_2.
  - rewrite (held_remove_absent 1 v every_tx _ _ txs tx) by done. simpl. eexists. split; [done|]. exists txs. split; [done|]. split; [|done].
    intros u Hu. rewrite lookup_delete_ne; [by apply Hin|]. intros E. apply Hd. rewrite E. by apply list_elem_of_fmap_2.
Qed.

Lemma flood_start v b seed : exists q, flood_empty b seed = Ok q /\ held 1 v every_tx seed q [] /\
  lane_config q = flood_config b /\ lane_limits q = flood_limits b.
Proof.
  unfold flood_empty, FloodLaneConfig_new. rewrite resource_new_one. simpl. change (FloodLaneConfig _ _) with (flood_config b).
  assert (length (config_limits (flood_config b)) = if b then 2 else 1)%nat as Hlen by by destruct b.
  destruct (held_new 1 v every_tx (flood_config b) seed) as (q & -> & Hc & Hl & Hh); [by left|done| |by apply flood_takes|by exists q].
  intros r Hr. assert (r = MkResource [i64_max]) as ->.
  { destruct b; simpl in Hr; repeat (apply elem_of_cons in Hr as [->|Hr]; [done|]); by apply elem_of_nil in Hr. }
  split; [done|]. intros i. unfold dim. destruct i as [|i]; simpl; unfold i64_max; lia.
Qed.

Lemma flood_fresh v b seed : exists f, FloodQueue_new b seed = Ok f /\ forall m, flood_ok v m f.
Proof.
  unfold FloodQueue_new. destruct (flood_start v b seed) as (q & -> & Hh & Hl). simpl. eexists. split; [done|]. intros m. exists [].
  split; [done|]. split; [|done]. intros tx Htx. by apply elem_of_nil in Htx.
Qed.

(** *** Operations of the store *)

Lemma store_new_ok v b seed flood_seed : exists s, QueueStore_new b seed flood_seed = Ok s /\ store_ok v s /\ by_hash s = ∅.
Proof.
  unfold QueueStore_new. destruct (flood_fresh v b flood_seed) as (f & -> & Hf). simpl. eexists. split; [done|]. split; [|done].
  split; simpl; try done.
  split; [apply set_ok_nil|]. unfold vals. by rewrite map_to_list_empty.
Qed.

Lemma store_insert_ok v s tx : store_ok v s -> queued_ok tx -> by_hash s !! q_hash tx = None -> count_ok (Z.of_nat (size (by_hash s)) + 1) ->
  exists s', store_insert tx v s = Ok s' /\ store_ok v s' /\ by_hash s' = <[q_hash tx := tx]> (by_hash s) /\
    eviction_seed s' = eviction_seed s /\ same_queues s s'.
Proof.
  intros [Hm Hi Hc Hs Hg Hf] Hq Hn Hcount. unfold store_insert.
  destruct (eviction_add v _ is_soroban _ _ tx Hm Hs Hq Hn Hcount) as (so & Eso & Sso & Oso).
  destruct (eviction_add v _ is_classic _ _ tx Hm Hc Hq Hn Hcount) as (cl & Ecl & Scl & Ocl).
  destruct (eviction_add v _ every_tx _ _ tx Hm Hg Hq Hn Hcount) as (gl & Egl & Sgl & Ogl). simpl in Egl.
  unfold is_soroban at 1 in Eso. rewrite Eso. simpl.
  assert ((if is_soroban_envelope (q_envelope tx) then Ok (classic_eviction_queue s) else if_some (add tx v) (classic_eviction_queue s)) = Ok cl) as ->.
  { unfold is_classic at 1 in Ecl. by destruct (is_soroban_envelope _). }
  simpl. rewrite Egl. simpl.
  destruct (flood_mark v (by_hash s) (<[q_hash tx := tx]> (by_hash s)) (flood_queue s) tx) as (f' & -> & Hf'); try done.
  { intros h t Ht. rewrite lookup_insert_ne by congruence. done. }
  { by rewrite lookup_insert_eq. }
  simpl. destruct (index_insert _ _ tx Hm Hi Hq Hn) as (ix & -> & Hix). simpl. eexists. split; [done|].
  split; [|done]. split; try done. simpl. by apply txs_ok_insert.
Qed.

Lemma store_remove_ok v s h : store_ok v s ->
  exists s', store_remove h v s = Ok (s', by_hash s !! h) /\ store_ok v s' /\ by_hash s' = delete h (by_hash s) /\
    eviction_seed s' = eviction_seed s /\ same_queues s s'.
Proof.
  intros Hok. pose proof Hok as [Hm Hi Hc Hs Hg Hf]. unfold store_remove. destruct (by_hash s !! h) as [tx|] eqn:Eh.
  2:{ exists s. split; [done|]. split; [done|]. split; [by rewrite delete_id|]. split; [done|]. apply same_queues_refl. }
  destruct (index_remove _ _ h tx Hm Hi Eh) as (ix & -> & Hix). simpl.
  destruct (eviction_remove v _ is_soroban _ _ h tx Hs Eh) as (so & Eso & Sso & Oso).
  destruct (eviction_remove v _ is_classic _ _ h tx Hc Eh) as (cl & Ecl & Scl & Ocl).
  destruct (eviction_remove v _ every_tx _ _ h tx Hg Eh) as (gl & Egl & Sgl & Ogl). simpl in Egl.
  unfold is_soroban at 1 in Eso. rewrite Eso. simpl.
  assert ((if is_soroban_envelope (q_envelope tx) then Ok (classic_eviction_queue s)
           else if_some (remove_from (QueueEntry_new tx (eviction_seed s)) v) (classic_eviction_queue s)) = Ok cl) as ->.
  { unfold is_classic at 1 in Ecl. by destruct (is_soroban_envelope _). }
  simpl. rewrite Egl. simpl. destruct (flood_drop v _ _ h tx Hm Hf Eh) as (f' & -> & Hf'). simpl.
  eexists. split; [done|]. split; [|done]. split; try done. simpl. by apply txs_ok_delete.
Qed.

(** The data is cleared before the queues go. *)
Lemma clear_regenerate_ok v s seed seed' : exists s', clear_data seed s = Ok s' /\
  store_ok v (regenerate_eviction_seed seed' s') /\ by_hash s' = ∅.
Proof.
  unfold clear_data, flood_clear. destruct (flood_start v (has_dex_lane (flood_queue s)) seed) as (q & -> & Hh & Hc & Hl). simpl.
  eexists. split; [done|]. split; [|done]. split; simpl; try done.
  - split; [apply set_ok_nil|]. unfold vals. by rewrite map_to_list_empty.
  - exists []. split; [done|]. split; [|done]. intros tx Htx. by apply elem_of_nil in Htx.
Qed.

Lemma regenerate_ok v s seed : store_ok v s -> store_ok v (regenerate_eviction_seed seed s).
Proof. intros [Hm Hi Hc Hs Hg Hf]. split; simpl; try done. Qed.

(** *** Queues that are built when first needed *)

Lemma build_ok n v w c s : store_ok v s -> dims_ok n -> config_limits c <> [] -> (forall r, r ∈ config_limits c -> vec_ok n r) ->
  takes n v c (length (config_limits c)) w -> count_ok (Z.of_nat (size (by_hash s))) ->
  exists q, build_queue c w v s = Ok q /\ lane_config q = c /\ lane_limits q = config_limits c /\ held n v w (eviction_seed s) q (picked w (by_hash s)).
Proof.
  intros Hok Hn Hne Hv Ht Hcount. unfold build_queue. destruct (held_new n v w c (eviction_seed s) Hn Hne Hv Ht) as (q0 & -> & Hc & Hl & Hh). simpl.
  pose proof (store_txs _ _ Hok) as Hm.
  assert (filter (fun tx => w tx = true) (store_values s) ≡ₚ picked w (by_hash s)) as Hp by (unfold picked; by rewrite store_values_perm).
  destruct (held_add_all n v w (eviction_seed s) (filter (fun tx => w tx = true) (store_values s)) q0 [] Hh) as (q & -> & Hsame & Hh').
  - intros tx Htx. rewrite Hp in Htx. apply elem_of_picked in Htx as [Htx Hw]. apply elem_of_vals in Htx as [h Hh0]. by destruct (Hm h tx Hh0).
  - rewrite app_nil_r, Hp. by apply picked_nodup.
  - rewrite (len_perm _ _ Hp). change (len []) with 0. pose proof (picked_len w (by_hash s)). unfold count_ok, u32_max in *. lia.
  - exists q. destruct Hsame as (Hc' & Hl' & _). split; [done|]. split; [congruence|]. split; [congruence|]. rewrite app_nil_r in Hh'.
    by apply (held_perm n v w _ q _ _ Hp).
Qed.

(** A configuration of [n] dimensions for the transactions [w] picks. *)
Record config_fits (n : nat) (v : Z) (w : QueuedTransaction -> bool) (c : LaneConfig) : Prop := {
  fits_dims : dims_ok n;
  fits_lanes : config_limits c <> [];
  fits_limits : forall r, r ∈ config_limits c -> vec_ok n r;
  fits_takes : takes n v c (length (config_limits c)) w
}.

(** [q] is the queue of the transactions [w] picks, and nothing else of the store changed. *)
Record ensured (v : Z) (w : QueuedTransaction -> bool) (c : LaneConfig) (s s' : QueueStore) (q : SurgePricingPriorityQueue) : Prop := {
  ensured_ok : store_ok v s';
  ensured_txs : by_hash s' = by_hash s;
  ensured_seed : eviction_seed s' = eviction_seed s;
  ensured_config : lane_config q = c;
  ensured_limits : lane_limits q = config_limits c;
  ensured_held : exists n, held n v w (eviction_seed s) q (picked w (by_hash s))
}.

Definition matches (c : LaneConfig) (o : option SurgePricingPriorityQueue) : Prop :=
  forall q, o = Some q -> lane_config q = c /\ lane_limits q = config_limits c.

Lemma ensure_ok n v w c s o (put : SurgePricingPriorityQueue -> QueueStore) :
  store_ok v s -> eviction_ok v (eviction_seed s) w (by_hash s) o -> config_fits n v w c -> matches c o -> count_ok (Z.of_nat (size (by_hash s))) ->
  (forall q, held n v w (eviction_seed s) q (picked w (by_hash s)) -> store_ok v (put q) /\ by_hash (put q) = by_hash s /\ eviction_seed (put q) = eviction_seed s) ->
  exists s' q, match o with Some q => Ok (s, q) | None => let? q := build_queue c w v s in Ok (put q, q) end = Ok (s', q) /\
    ensured v w c s s' q /\ ((o = Some q /\ s' = s) \/ (o = None /\ s' = put q)).
Proof.
  intros Hok Ho [Hn Hne Hv Ht] Hmat Hcount Hput. destruct o as [q|].
  - exists s, q. destruct (Hmat q eq_refl). destruct (Ho q eq_refl) as [n2 Hn2]. split; [done|]. split; [|by left]. split; try done. by exists n2.
  - destruct (build_ok n v w c s Hok Hn Hne Hv Ht Hcount) as (q & -> & Hc & Hl & Hh). simpl. exists (put q), q. destruct (Hput q Hh) as (? & ? & ?).
    split; [done|]. split; [|by right]. split; try done. by exists n.
Qed.

Lemma ensure_classic_ok n v c s : store_ok v s -> config_fits n v is_classic c -> matches c (classic_eviction_queue s) ->
  count_ok (Z.of_nat (size (by_hash s))) ->
  exists s' q, ensure_classic_queue c v s = Ok (s', q) /\ ensured v is_classic c s s' q /\ classic_eviction_queue s' = Some q /\
    soroban_eviction_queue s' = soroban_eviction_queue s /\ global_ops_queue s' = global_ops_queue s.
Proof.
  intros Hok Hc Hmat Hcount. destruct (ensure_ok n v is_classic c s (classic_eviction_queue s)
    (fun q => MkStore (by_hash s) (fee_index s) (Some q) (soroban_eviction_queue s) (global_ops_queue s) (eviction_seed s) (flood_queue s)))
    as (s' & q & E & Hens & Hcase); try done; [apply Hok| |].
  - intros q Hh. split; [|done]. destruct Hok. split; try done. intros q' [= <-]. by exists n.
  - exists s', q. split; [exact E|]. split; [done|]. by destruct Hcase as [[? ->]|[_ ->]].
Qed.

Lemma ensure_soroban_ok v limit s : store_ok v s -> vec_ok 7 limit -> matches (SorobanGenericLaneConfig_new limit) (soroban_eviction_queue s) ->
  count_ok (Z.of_nat (size (by_hash s))) ->
  exists s' q, ensure_soroban_queue limit v s = Ok (s', q) /\ ensured v is_soroban (SorobanGenericLaneConfig_new limit) s s' q /\
    soroban_eviction_queue s' = Some q /\ classic_eviction_queue s' = classic_eviction_queue s /\ global_ops_queue s' = global_ops_queue s.
Proof.
  intros Hok Hv Hmat Hcount. destruct (ensure_ok 7 v is_soroban (SorobanGenericLaneConfig_new limit) s (soroban_eviction_queue s)
    (fun q => MkStore (by_hash s) (fee_index s) (classic_eviction_queue s) (Some q) (global_ops_queue s) (eviction_seed s) (flood_queue s)))
    as (s' & q & E & Hens & Hcase); try done; [apply Hok| | |].
  - split; [by right; right|done| |apply soroban_takes]. intros r Hr. by apply list_elem_of_singleton in Hr as ->.
  - intros q Hh. split; [|done]. destruct Hok. split; try done. intros q' [= <-]. by exists 7%nat.
  - exists s', q. split; [exact E|]. split; [done|]. by destruct Hcase as [[? ->]|[_ ->]].
Qed.

Definition ops_config (limit : Z) : LaneConfig := OpsOnlyLaneConfig_new (MkResource [limit]).

Lemma ensure_global_ok v limit s : store_ok v s -> 0 <= limit <= i64_max -> matches (ops_config limit) (global_ops_queue s) ->
  count_ok (Z.of_nat (size (by_hash s))) ->
  exists s' q, ensure_global_ops_queue limit v s = Ok (s', q) /\ ensured v every_tx (ops_config limit) s s' q /\
    global_ops_queue s' = Some q /\ classic_eviction_queue s' = classic_eviction_queue s /\ soroban_eviction_queue s' = soroban_eviction_queue s.
Proof.
  intros Hok Hv Hmat Hcount. destruct (ensure_ok 1 v every_tx (ops_config limit) s (global_ops_queue s)
    (fun q => MkStore (by_hash s) (fee_index s) (classic_eviction_queue s) (soroban_eviction_queue s) (Some q) (eviction_seed s) (flood_queue s)))
    as (s' & q & E & Hens & Hcase); try done; [apply Hok| | |].
  - split; [by left|done| |apply ops_takes]. intros r Hr. apply list_elem_of_singleton in Hr as ->. split; [done|].
    intros i. unfold dim. destruct i as [|i]; simpl; [done|]. unfold i64_max. lia.
  - intros q Hh. split; [|done]. destruct Hok. split; try done. intros q' [= <-]. by exists 1%nat.
  - exists s', q. unfold ensure_global_ops_queue. rewrite resource_new_one. simpl. split; [exact E|]. split; [done|].
    by destruct Hcase as [[? ->]|[_ ->]].
Qed.
End facts.
