(* ===== verification/TxQueueFits.v ===== *)
(** * TxQueueFits: evictions for a newcomer

    The exclusion passed to a query names the replaced transaction and those that are
    to be evicted already, and its discounts are what they use. The answer then leaves
    room for the newcomer beside the transactions that stay. *)

From S2P Require Import Prelude Bucket Ledger Lists Resource Envelope SurgePricing SurgePricingFacts SurgePricingEvict TxQueueStore TxQueue TxQueueHeld TxQueueStoreFacts.

Section exclusion.
Context `{EnvelopeXdr} (n : nat) (v : Z) (w : QueuedTransaction -> bool).

Notation held := (held n v w).
Notation exclusion_ok := (exclusion_ok n v).
Notation entry_uses := (entry_uses n v).

(** One more hash: the sum grows by what its entry uses. *)
Lemma filter_one_more (f : QueueEntry -> Z) (hs : gset (list Z)) h l : h ∉ hs ->
  zsum f (filter (fun e => entry_hash e ∈ {[h]} ∪ hs) l) =
  zsum f (filter (fun e => entry_hash e ∈ hs) l) + zsum f (filter (fun e => entry_hash e = h) l).
Proof.
  intros Hh. induction l as [|e l IH]; [done|]. rewrite !filter_cons.
  destruct (decide (entry_hash e = h)) as [Heq|Hne].
  - rewrite (decide_True (P := entry_hash e ∈ {[h]} ∪ hs)) by set_solver. rewrite (decide_False (P := entry_hash e ∈ hs)) by set_solver. simpl. lia.
  - destruct (decide (entry_hash e ∈ hs)).
    + rewrite (decide_True (P := entry_hash e ∈ {[h]} ∪ hs)) by set_solver. simpl. lia.
    + rewrite (decide_False (P := entry_hash e ∈ {[h]} ∪ hs)) by set_solver. done.
Qed.

Lemma filter_hash_none h (l : list QueueEntry) : h ∉ entry_hash <$> l -> filter (fun e => entry_hash e = h) l = [].
Proof. intros Hno. apply filter_none. intros e He E. apply Hno. rewrite <- E. by apply list_elem_of_fmap_2. Qed.

Lemma filter_hash_one e l : NoDup (entry_hash <$> l) -> e ∈ l -> filter (fun x => entry_hash x = entry_hash e) l = [e].
Proof.
  induction l as [|x l IH]; [by intros _ ?%elem_of_nil|]. csimpl. intros [Hno Hnd]%NoDup_cons He. rewrite filter_cons.
  apply elem_of_cons in He as [->|He].
  - rewrite decide_True by done. by rewrite filter_hash_none.
  - rewrite decide_False; [by apply IH|]. intros E. apply Hno. rewrite E. by apply list_elem_of_fmap_2.
Qed.

Lemma held_entry_hashes s q txs : held s q txs -> NoDup (entry_hash <$> concat (lanes q)).
Proof.
  intros Hh. rewrite (held_entries _ _ _ _ _ _ Hh). rewrite <- list_fmap_compose. apply (held_hashes _ _ _ _ _ _ Hh).
Qed.

Lemma NoDup_concat_in {A} (ls : list (list A)) l : l ∈ ls -> NoDup (concat ls) -> NoDup l.
Proof.
  intros Hl Hnd. apply elem_of_Permutation in Hl as (ls' & Hp). rewrite (concat_perm _ _ Hp) in Hnd. simpl in Hnd.
  by apply NoDup_app in Hnd as [? _].
Qed.

Lemma NoDup_concat_hash (ls : list (list QueueEntry)) l : l ∈ ls -> NoDup (entry_hash <$> concat ls) -> NoDup (entry_hash <$> l).
Proof.
  intros Hl Hnd. rewrite <- (concat_fmap entry_hash) in Hnd. apply (NoDup_concat_in _ (entry_hash <$> l)) in Hnd; [done|].
  by apply (list_elem_of_fmap_2 (fmap entry_hash)).
Qed.

(** The entry of a transaction is in its lane, and its hash in no other. *)
Lemma held_lane s q txs tx : held s q txs -> tx ∈ txs ->
  exists lane l, admissible n v (lane_config q) (length (lane_limits q)) tx lane /\ lanes q !! lane = Some l /\ QueueEntry_new tx s ∈ l /\
    forall j k, lanes q !! j = Some k -> j <> lane -> q_hash tx ∉ entry_hash <$> k.
Proof.
  intros Hh Htx. pose proof (held_queue _ _ _ _ _ _ Hh) as Hq. pose proof (held_entry_hashes s q txs Hh) as Hnd.
  destruct (queue_entry n v q (QueueEntry_new tx s) Hq) as (lane & l & Hl & He & [_ Ha]).
  { rewrite (held_entries _ _ _ _ _ _ Hh). by apply (list_elem_of_fmap_2 (fun tx => QueueEntry_new tx s)). }
  exists lane, l. split; [exact Ha|]. split; [done|]. split; [done|]. intros j k Hk Hne Hin.
  apply list_elem_of_fmap in Hin as (e & Ee & Hin).
  assert (e = QueueEntry_new tx s) as ->.
  { apply (NoDup_fmap_inj_on entry_hash (concat (lanes q))); [done| | |done].
    - apply elem_of_concat. exists k. split; [by apply list_elem_of_lookup_2 in Hk|done].
    - apply elem_of_concat. exists l. split; [by apply list_elem_of_lookup_2 in Hl|done]. }
  destruct (queue_sets n v q Hq j k Hk) as [_ Hs]. destruct (Hs _ Hin) as [_ Ha'].
  pose proof (adm_lane _ _ _ _ _ _ Ha). pose proof (adm_lane _ _ _ _ _ _ Ha'). simpl in *. congruence.
Qed.

(** One more excluded transaction. *)
Lemma discount_ok s q txs tx hs ds : held s q txs -> tx ∈ txs -> q_hash tx ∉ hs -> count_ok (len txs) ->
  exclusion_ok q (Some (MkExclusion hs ds)) ->
  exists ds', discount_tx q tx v ds = Ok ds' /\ exclusion_ok q (Some (MkExclusion ({[q_hash tx]} ∪ hs) ds')).
Proof.
  intros Hh Htx Hnew Hcount Hex. simpl in Hex. pose proof (held_queue _ _ _ _ _ _ Hh) as Hq.
  destruct (held_lane s q txs tx Hh Htx) as (lane & l & Ha & Hl & He & Hother).
  destruct (Forall2_lookup_r _ _ _ _ _ Hex Hl) as (d & Hd & Hdv & Hdd).
  unfold discount_tx, get_lane, queue_resources. rewrite (adm_lane _ _ _ _ _ _ Ha). simpl. rewrite (adm_uses _ _ _ _ _ _ Ha). simpl.
  rewrite (lookup_at _ _ _ Hd). simpl.
  assert (NoDup (entry_hash <$> l)) as Hnl.
  { apply (NoDup_concat_hash (lanes q)); [by apply list_elem_of_lookup_2 in Hl|by apply (held_entry_hashes s q txs)]. }
  assert (forall i, zsum (entry_uses (lane_config q) i) (filter (fun e => entry_hash e ∈ {[q_hash tx]} ∪ hs) l) =
                    dim d i + dim (uses n v (lane_config q) (q_envelope tx)) i) as Hsum.
  { intros i. rewrite filter_one_more by done. rewrite Hdd. f_equal. change (q_hash tx) with (entry_hash (QueueEntry_new tx s)).
    rewrite filter_hash_one by done. simpl. change (entry_uses (lane_config q) i (QueueEntry_new tx s)) with (dim (uses n v (lane_config q) (q_envelope tx)) i). lia. }
  assert (forall i, dim d i + dim (uses n v (lane_config q) (q_envelope tx)) i <= i64_max) as Hfit.
  { intros i. rewrite <- Hsum. pose proof (held_sum_bound n v w s q txs i Hh) as Hb. rewrite <- (held_sum n v w s q txs i Hh) in Hb.
    assert (forall e, e ∈ concat (lanes q) -> 0 <= entry_uses (lane_config q) i e) as Hpos by (intros e; by apply queue_uses_nonneg).
    assert (forall e, e ∈ l -> 0 <= entry_uses (lane_config q) i e) as Hposl.
    { intros e Hin. apply Hpos, elem_of_concat. exists l. split; [by apply list_elem_of_lookup_2 in Hl|done]. }
    pose proof (zsum_le_concat (entry_uses (lane_config q) i) (lanes q) l) as Hle.
    rewrite (zsum_filter (entry_uses (lane_config q) i) (fun e => entry_hash e ∈ {[q_hash tx]} ∪ hs) l) in Hle.
    assert (0 <= zsum (entry_uses (lane_config q) i) (filter (fun e => ~ entry_hash e ∈ {[q_hash tx]} ∪ hs) l)).
    { apply zsum_nonneg_in. intros e Hin. apply list_elem_of_filter in Hin as [_ Hin]. by apply Hposl. }
    specialize (Hle (list_elem_of_lookup_2 _ _ _ Hl) Hpos). unfold count_ok in Hcount. lia. }
  rewrite (resource_add_dims n) by (done || apply Ha). simpl. eexists. split; [done|]. simpl.
  apply Forall2_same_length_lookup_2.
  { unfold put_at. rewrite length_insert. apply (Forall2_length _ _ _ Hex). }
  intros j d' k Hd' Hk. unfold put_at in Hd'. destruct (decide (j = lane)) as [->|Hne].
  - rewrite list_lookup_insert_eq in Hd' by (by apply lookup_lt_Some in Hd). injection Hd' as <-. assert (k = l) as -> by congruence.
    split; [apply radd_ok; [done|apply Ha|done]|]. intros i. rewrite (dim_radd n) by (apply Hdv || apply Ha). by rewrite Hsum.
  - rewrite list_lookup_insert_ne in Hd' by done. destruct (Forall2_lookup_lr _ _ _ _ _ _ Hex Hd' Hk) as [Hv Hdim]. split; [done|].
    intros i. rewrite filter_one_more by done. rewrite (filter_hash_none (q_hash tx) k) by (by apply (Hother j)). rewrite Hdim. simpl. lia.
Qed.
End exclusion.

(** ** What a query leaves out *)

Section evictions.
Context `{EnvelopeXdr} `{HashIteration} (n : nat) (v : Z) (w : QueuedTransaction -> bool).
Implicit Types m : gmap (list Z) QueuedTransaction.

Notation held := (held n v w).
Notation exclusion_ok := (exclusion_ok n v).
Notation uses_at q i := (fun tx : QueuedTransaction => dim (uses n v (lane_config q) (q_envelope tx)) i).

Definition option_hash (o : option QueuedTransaction) : gset (list Z) := match o with Some tx => {[q_hash tx]} | None => ∅ end.

(** The hashes are of transactions that the queue holds. *)
Definition known m (hs : gset (list Z)) : Prop := forall h, h ∈ hs -> exists tx, m !! h = Some tx /\ w tx = true.

Lemma exclusion_start s q txs : held s q txs -> exists excl, EvictionExclusion_new (get_num_lanes q) (resource_dim q) = Ok excl /\
  hashes excl = ∅ /\ exclusion_ok q (Some excl).
Proof.
  intros Hh. pose proof (held_queue _ _ _ _ _ _ Hh) as Hq. unfold EvictionExclusion_new.
  assert (resource_dim q = n) as ->.
  { unfold resource_dim. pose proof (queue_nonempty n v q Hq). pose proof (queue_limits n v q Hq) as Hl.
    destruct (lane_limits q) as [|r l]; [done|]. apply (Hl r). left. }
  rewrite make_empty_ok by apply Hq. simpl. eexists. split; [done|]. split; [done|]. simpl.
  apply Forall2_same_length_lookup_2; [by rewrite length_replicate, (queue_lanes n v q Hq)|].
  intros j d l Hd Hl. apply lookup_replicate in Hd as [-> _]. split; [apply rzero_ok|]. intros i. rewrite dim_rzero.
  rewrite filter_none; [done|]. intros e _. set_solver.
Qed.

Lemma exclude_ok s q m hs : forall l excl, held s q (picked w m) -> txs_ok m -> count_ok (Z.of_nat (size m)) ->
  (forall h, h ∈ l -> h ∈ hs) -> known m hs -> exclusion_ok q (Some excl) ->
  exists excl', try_fold (exclude_evicted q m v) l excl = Ok excl' /\ hashes excl' = hashes excl ∪ list_to_set l /\ exclusion_ok q (Some excl').
Proof.
  induction l as [|h l IH]; intros excl Hh Hm Hcount Hin Hk Hex.
  { exists excl. split; [done|]. split; [simpl; by rewrite (right_id_L ∅ (∪))|done]. }
  assert (forall h', h' ∈ l -> h' ∈ hs) as Hin' by (intros h' Hh'; apply Hin; by right).
  assert (exists excl1, exclude_evicted q m v excl h = Ok excl1 /\ hashes excl1 = hashes excl ∪ {[h]} /\ exclusion_ok q (Some excl1)) as (excl1 & E1 & Hhs & Hex1).
  { unfold exclude_evicted. case_bool_decide as Hd; [exists excl; split; [done|]; split; [set_solver|done]|].
    destruct (Hk h) as (tx & Htx & Hw); [apply Hin; left|]. rewrite Htx. destruct (Hm h tx Htx) as [<- _].
    destruct excl as [hs0 ds]. simpl in *. destruct (discount_ok n v w s q (picked w m) tx hs0 ds) as (ds' & -> & Hex'); try done.
    - apply elem_of_picked. split; [|done]. apply elem_of_vals. by eexists.
    - pose proof (picked_len w m). unfold count_ok, u32_max in *. lia.
    - simpl. eexists. split; [done|]. split; [simpl; by rewrite (comm_L (∪))|done]. }
  simpl. rewrite E1. simpl. destruct (IH excl1 Hh Hm Hcount Hin' Hk Hex1) as (excl' & -> & Hhs' & Hex').
  exists excl'. split; [done|]. split; [|done]. rewrite Hhs', Hhs. set_solver.
Qed.

Lemma build_exclusion_ok s q m replaced cross : held s q (picked w m) -> txs_ok m -> count_ok (Z.of_nat (size m)) ->
  known m (option_hash replaced ∪ cross) -> (forall tx, replaced = Some tx -> m !! q_hash tx = Some tx) ->
  exists excl, build_eviction_exclusion q m replaced cross v = Ok excl /\ hashes excl = option_hash replaced ∪ cross /\ exclusion_ok q (Some excl).
Proof.
  intros Hh Hm Hcount Hk Hr. unfold build_eviction_exclusion. destruct (exclusion_start s q _ Hh) as (excl & -> & Hhs & Hex). simpl.
  assert (exists excl1, match replaced with
      | Some old_tx => let? ds := discount_tx q old_tx v (lane_resource_discount excl) in Ok (MkExclusion ({[q_hash old_tx]} ∪ hashes excl) ds)
      | None => Ok excl end = Ok excl1 /\ hashes excl1 = option_hash replaced /\ exclusion_ok q (Some excl1)) as (excl1 & -> & Hhs1 & Hex1).
  { destruct replaced as [tx|]; [|by exists excl]. destruct excl as [hs ds]. simpl in *. subst hs.
    destruct (Hk (q_hash tx)) as (tx' & Htx & Hw); [set_solver|]. rewrite (Hr tx eq_refl) in Htx. injection Htx as <-.
    destruct (discount_ok n v w s q (picked w m) tx ∅ ds) as (ds' & -> & Hex'); try done.
    - apply elem_of_picked. split; [|done]. apply elem_of_vals. eexists. by apply Hr.
    - pose proof (picked_len w m). unfold count_ok, u32_max in *. lia.
    - simpl. eexists. split; [done|]. split; [simpl; by rewrite (right_id_L ∅ (∪))|done]. }
  simpl. destruct (exclude_ok s q m (option_hash replaced ∪ cross) (iterate (gset_to_gmap tt cross)).*1 excl1) as (excl' & -> & Hhs' & Hex'); try done.
  - intros h Hin. apply list_elem_of_fmap in Hin as ([h' []] & -> & Hin). apply elem_of_iterate, lookup_gset_to_gmap_Some in Hin as [Hin _]. set_solver.
  - exists excl'. split; [done|]. split; [|done]. rewrite Hhs', Hhs1. f_equal. apply set_eq. intros h. rewrite elem_of_list_to_set.
    rewrite list_elem_of_fmap. split.
    + intros ([h' []] & -> & Hin). by apply elem_of_iterate, lookup_gset_to_gmap_Some in Hin as [Hin _].
    + intros Hin. exists (h, tt). split; [done|]. apply elem_of_iterate. by apply lookup_gset_to_gmap_Some.
Qed.

(** ** The answer of a query *)

(** The transactions that are not excluded. *)
Definition others m (gone : gset (list Z)) : list QueuedTransaction := filter (fun tx => q_hash tx ∉ gone) (picked w m).

(** [tx] fits beside [stay], within [limit]. *)
Definition fits_beside (q : SurgePricingPriorityQueue) (tx : QueuedTransaction) (stay : list QueuedTransaction) (limit : Resource) : Prop :=
  forall i, zsum (uses_at q i) stay + uses_at q i tx <= dim limit i.

Lemma kept_none_empty excl l : hashes excl = ∅ -> kept None l = kept (Some excl) l.
Proof. intros Hh. unfold kept. rewrite Hh. rewrite filter_all; [done|]. intros e _. set_solver. Qed.

Lemma kept_others s q m excl : held s q (picked w m) ->
  concat (kept (Some excl) <$> lanes q) ≡ₚ (fun tx => QueueEntry_new tx s) <$> others m (hashes excl).
Proof.
  intros Hh. unfold kept.
  rewrite concat_filter, (held_entries _ _ _ _ _ _ Hh). unfold others.
  rewrite (filter_fmap (fun tx => QueueEntry_new tx s) (fun e => entry_hash e ∉ hashes excl)). done.
Qed.

Lemma others_entries s q m excl : held s q (picked w m) -> others m (hashes excl) ≡ₚ entry_tx <$> concat (kept (Some excl) <$> lanes q).
Proof. intros Hh. rewrite (kept_others s q m excl Hh). rewrite <- list_fmap_compose. by rewrite list_fmap_id. Qed.

Definition tx_in_lane (c : LaneConfig) (lane : nat) (tx : QueuedTransaction) : bool :=
  match config_lane c (q_envelope tx) with Ok l => (l =? lane)%nat | Err _ => false end.

Lemma lane_of_entries q ls lane : queue_ok n v q -> (forall j l e, ls !! j = Some l -> e ∈ l -> exists k, lanes q !! j = Some k /\ e ∈ k) ->
  filter (fun tx => tx_in_lane (lane_config q) lane tx = true) (entry_tx <$> concat ls) = entry_tx <$> default [] (ls !! lane).
Proof.
  intros Hq Hin. rewrite filter_fmap. f_equal.
  rewrite <- (filter_place (fun e j => tx_in_lane (lane_config q) j (entry_tx e)) ls 0); [done| |].
  - intros e i j. unfold tx_in_lane. destruct (config_lane _ _); [|done]. rewrite !Nat.eqb_eq. congruence.
  - intros j l e Hl He. destruct (Hin j l e Hl He) as (k & Hk & Hek). destruct (queue_sets n v q Hq j k Hk) as [_ Hs].
    destruct (Hs e Hek) as [_ Ha]. unfold tx_in_lane. rewrite (adm_lane _ _ _ _ _ _ Ha). by rewrite Nat.eqb_refl.
Qed.

(** What an answer [evs] makes sure of, when the transactions of [gone] are left out:
    the evicted have lower rates and other accounts, and what stays leaves room. *)
Record answer_ok (q : SurgePricingPriorityQueue) (tx : QueuedTransaction) m (gone : gset (list Z)) (evicted : list QueuedTransaction) : Prop := {
  answer_part : evicted ⊆+ others m gone;
  answer_lower : forall t, t ∈ evicted -> evictable tx t;
  answer_total : forall stay limit, others m gone ≡ₚ evicted ++ stay -> lane_limits q !! GENERIC_LANE = Some limit -> fits_beside q tx stay limit;
  answer_lane : forall stay lane limit, others m gone ≡ₚ evicted ++ stay -> lane <> GENERIC_LANE ->
    config_lane (lane_config q) (q_envelope tx) = Ok lane -> lane_limits q !! lane = Some limit ->
    fits_beside q tx (filter (fun t => tx_in_lane (lane_config q) lane t = true) stay) limit
}.

Lemma concat_lowest_sub ks ls : concat (lowest ks ls) ⊆+ concat ls.
Proof.
  unfold lowest. revert ks. induction ls as [|l ls IH]; intros [|k ks]; simpl; try done; [apply submseteq_nil_l|].
  apply submseteq_app; [|apply IH]. apply sublist_submseteq, sublist_take.
Qed.

Lemma entry_uses_tx c i (l : list QueueEntry) : zsum (entry_uses n v c i) l = zsum (fun tx => dim (uses n v c (q_envelope tx)) i) (entry_tx <$> l).
Proof. by rewrite zsum_fmap. Qed.

Lemma can_fit_answer s q m tx excl : held s q (picked w m) -> queued_ok tx -> w tx = true -> exclusion_ok q (Some excl) ->
  count_ok (Z.of_nat (size m)) ->
  exists r, can_fit_with_eviction tx None v (if exclusion_is_empty excl then None else Some excl) q = Ok r /\
    match r with Some evs => answer_ok q tx m (hashes excl) evs.*1 | None => True end.
Proof.
  intros Hh Hq Hw Hex Hcount. pose proof (held_queue _ _ _ _ _ _ Hh) as Hqq.
  destruct (held_takes _ _ _ _ _ _ Hh tx Hq Hw) as (lane & Ha & _).
  destruct (lane_at n v q lane Hqq (adm_range _ _ _ _ _ _ Ha)) as (l & r & limit & Hl & Hr & Hlim & _).
  assert (0 < length (lane_limits q))%nat as Hpos by (pose proof (queue_nonempty n v q Hqq); destruct (lane_limits q); simpl; [done|lia]).
  destruct (lane_at n v q GENERIC_LANE Hqq Hpos) as (l0 & r0 & limit0 & Hl0 & Hr0 & Hlim0 & _).
  set (o := if exclusion_is_empty excl then None else Some excl).
  assert (forall k, kept o k = kept (Some excl) k) as Hkept.
  { intros k. unfold o, exclusion_is_empty. case_bool_decide as E; [|done]. by apply kept_none_empty. }
  assert (kept o <$> lanes q = kept (Some excl) <$> lanes q) as Hkl by (apply list_fmap_ext; intros; apply Hkept).
  destruct (can_fit_ok n v q tx lane None o limit limit0 Hqq Ha) as [E|(evs & ks & E & Hks & Hp & Hev & Hroom & Hlane)]; try done.
  - unfold o. by destruct (exclusion_is_empty excl).
  - intros i. rewrite (held_sum n v w s q _ i Hh). pose proof (held_sum_bound n v w s q _ i Hh). pose proof (picked_len w m).
    unfold count_ok, u32_max in *. lia.
  - exists None. by split.
  - exists (Some evs). split; [exact E|]. rewrite Hkl in Hp, Hroom. pose proof (others_entries s q m excl Hh) as Hoth.
    assert (evs.*1 ⊆+ others m (hashes excl)) as Hpart by (rewrite Hp, Hoth; apply fmap_submseteq_of, concat_lowest_sub).
    split; [done|done| |].
    + intros stay lim Hst Hlim'. assert (lim = limit0) as -> by congruence. intros i. specialize (Hroom i). rewrite !entry_uses_tx, <- Hoth, <- Hp, Hst, zsum_app in Hroom.
      unfold need in Hroom. lia.
    + intros stay lane' lim Hst Hne Hc Hlim'. pose proof (adm_lane _ _ _ _ _ _ Ha) as Hla. assert (lane' = lane) as -> by congruence.
      assert (lim = limit) as -> by congruence. destruct (lookup_lt_is_Some_2 ks lane) as [k Hk]; [rewrite Hks; by apply lookup_lt_Some in Hl|].
      intros i. specialize (Hlane Hne l k Hl Hk i). rewrite !entry_uses_tx, Hkept in Hlane. unfold need in Hlane.
      set (P := fun t => tx_in_lane (lane_config q) lane t = true).
      assert (filter P (others m (hashes excl)) ≡ₚ entry_tx <$> kept (Some excl) l) as E1.
      { rewrite Hoth. unfold P. rewrite lane_of_entries; [by rewrite list_lookup_fmap, Hl|done|].
        intros j k' e Hk' He. rewrite list_lookup_fmap in Hk'. destruct (lanes q !! j) as [k2|] eqn:Ek; [|done]. injection Hk' as <-.
        exists k2. split; [done|]. by apply list_elem_of_filter in He as [_ ?]. }
      assert (filter P evs.*1 ≡ₚ entry_tx <$> take k (kept (Some excl) l)) as E2.
      { rewrite Hp. unfold P. rewrite lane_of_entries; [|done|].
        - unfold lowest. by rewrite lookup_zip_with, Hk, list_lookup_fmap, Hl.
        - intros j k' e Hk' He. unfold lowest in Hk'. rewrite lookup_zip_with in Hk'. destruct (ks !! j) as [kj|]; [|done]. simpl in Hk'.
          rewrite list_lookup_fmap in Hk'. destruct (lanes q !! j) as [k2|] eqn:Ek; [|done]. injection Hk' as <-.
          exists k2. split; [done|]. apply elem_of_take in He as (? & He%list_elem_of_lookup_2 & _). by apply list_elem_of_filter in He as [_ ?]. }
      rewrite <- E1, <- E2, Hst, filter_app, zsum_app in Hlane. unfold P in *. lia.
Qed.
End evictions.
