(* ===== verification/TxQueueAccounts.v ===== *)
(** * TxQueueAccounts: what accounts owe and have pending

    Per account, the fees it owes are the sum over the queued transactions it pays
    for, the counters count them by type, and the pending transaction is the queued one
    it is the source of: at most one. *)

From S2P Require Import Prelude Bucket Ledger Lists Resource Envelope SurgePricing SurgePricingFacts TxQueueStore TxQueue TxQueueHeld TxQueueStoreFacts.

Section accounts.
Context `{EnvelopeXdr} `{HashIteration}.
Implicit Types m : gmap (list Z) QueuedTransaction.
Implicit Types st : gmap Uint256 AccountState.

Notation payer tx := (fee_source_key (q_envelope tx)).
Notation source tx := (account_key (q_envelope tx)).

(** ** The reference *)

Definition owed (k : Uint256) (tx : QueuedTransaction) : Z := if bool_decide (payer tx = k) then total_fee tx else 0.
Definition counted (b : bool) (k : Uint256) (tx : QueuedTransaction) : Z :=
  if bool_decide (payer tx = k) && Bool.eqb (is_soroban_envelope (q_envelope tx)) b then 1 else 0.

Definition state_of st (k : Uint256) : AccountState := default AccountState_default (st !! k).

Record account_ok m (k : Uint256) (s : AccountState) : Prop := {
  acc_fees : total_fees s = zsum (owed k) (vals m);
  acc_soroban : soroban_fee_tx_count s = zsum (counted true k) (vals m);
  acc_classic : classic_fee_tx_count s = zsum (counted false k) (vals m);
  acc_pending : forall tx, transaction s = Some tx <-> tx ∈ vals m /\ source tx = k
}.
Definition accounts_ok m st : Prop := forall k, account_ok m k (state_of st k).

(** The fees are positive, and their sums are [i64]s. *)
Definition fees_ok m : Prop := (forall tx, tx ∈ vals m -> 0 < total_fee tx) /\ forall k, zsum (owed k) (vals m) <= i64_max.

Lemma owed_nonneg m k tx : fees_ok m -> tx ∈ vals m -> 0 <= owed k tx.
Proof. intros [Hp _] Htx. specialize (Hp tx Htx). unfold owed. case_bool_decide; lia. Qed.

Lemma counted_nonneg b k tx : 0 <= counted b k tx <= 1.
Proof. unfold counted. destruct (_ && _); lia. Qed.

Lemma fees_nonneg m k : fees_ok m -> 0 <= zsum (owed k) (vals m).
Proof. intros Hf. apply zsum_nonneg_in. intros tx Htx. by apply (owed_nonneg m). Qed.

Lemma counts_nonneg b k l : 0 <= zsum (counted b k) l <= len l.
Proof.
  split; [apply zsum_nonneg; intros; apply counted_nonneg|]. rewrite <- (Z.mul_1_l (len l)). apply zsum_bound. intros; apply counted_nonneg.
Qed.

Lemma fees_ok_delete m h : fees_ok m -> fees_ok (delete h m).
Proof.
  intros Hf. destruct (m !! h) as [tx|] eqn:Eh; [|by rewrite delete_id]. pose proof (vals_delete m h tx Eh) as Hp. destruct Hf as [Hpos Hb].
  assert (forall t, t ∈ vals (delete h m) -> t ∈ vals m) as Hin by (intros t Ht; rewrite Hp; by right).
  split; [intros t Ht; by apply Hpos, Hin|]. intros k. specialize (Hb k). rewrite Hp in Hb. simpl in Hb.
  assert (0 <= owed k tx); [|lia]. unfold owed. case_bool_decide; [|lia]. assert (0 < total_fee tx) by (apply Hpos; rewrite Hp; left). lia.
Qed.

(** ** Views *)

Lemma state_of_alter f k st j : state_of (alter f k st) j = if bool_decide (j = k /\ is_Some (st !! k)) then f (state_of st k) else state_of st j.
Proof.
  unfold state_of. case_bool_decide as E.
  - destruct E as [-> [s Hs]]. by rewrite lookup_alter_eq, Hs.
  - destruct (decide (k = j)) as [->|Hne]; [|by rewrite lookup_alter_ne].
    destruct (st !! j) as [s|] eqn:Es; [exfalso; apply E; by split|]. by rewrite lookup_alter_eq, Es.
Qed.

(** An account that owes a fee or has a transaction is there. *)
Lemma payer_there m st tx : accounts_ok m st -> tx ∈ vals m -> is_Some (st !! payer tx).
Proof.
  intros Ha Htx. destruct (st !! payer tx) as [s|] eqn:E; [done|]. exfalso. pose proof (Ha (payer tx)) as [_ Hs Hc _].
  unfold state_of in Hs, Hc. rewrite E in Hs, Hc. simpl in Hs, Hc. apply elem_of_Permutation in Htx as (l & Hp). rewrite Hp in Hs, Hc. simpl in Hs, Hc.
  pose proof (counts_nonneg true (payer tx) l). pose proof (counts_nonneg false (payer tx) l). unfold counted at 1 in Hs. unfold counted at 1 in Hc.
  rewrite bool_decide_true in Hs, Hc by done. destruct (is_soroban_envelope _); simpl in Hs, Hc; lia.
Qed.

Lemma source_there m st tx : accounts_ok m st -> tx ∈ vals m -> is_Some (st !! source tx).
Proof.
  intros Ha Htx. destruct (st !! source tx) as [s|] eqn:E; [done|]. exfalso. pose proof (Ha (source tx)) as [_ _ _ Hp].
  unfold state_of in Hp. rewrite E in Hp. simpl in Hp. pose proof (proj2 (Hp tx) (conj Htx eq_refl)). done.
Qed.

(** ** A transaction leaves *)

Lemma release_account m h tx k s : account_ok m k s -> fees_ok m -> m !! h = Some tx -> payer tx = k -> 0 <= total_fee tx <= i64_max ->
  let s' := release_fee (as_i64 (total_fee tx)) (is_soroban_envelope (q_envelope tx)) s in
  total_fees s' = zsum (owed k) (vals (delete h m)) /\ soroban_fee_tx_count s' = zsum (counted true k) (vals (delete h m)) /\
  classic_fee_tx_count s' = zsum (counted false k) (vals (delete h m)) /\ transaction s' = transaction s /\ age s' = age s.
Proof.
  intros [Hf Hs Hc _] Hfees Hh Hk Hrange s'. pose proof (vals_delete m h tx Hh) as Hp. pose proof (fees_nonneg _ k (fees_ok_delete m h Hfees)) as Hnn.
  destruct Hfees as [_ Hb]. specialize (Hb k). rewrite Hp in Hf, Hs, Hc, Hb. simpl in Hf, Hs, Hc, Hb.
  unfold owed at 1 in Hf. unfold owed at 1 in Hb. unfold counted at 1 in Hs. unfold counted at 1 in Hc. rewrite Hk, bool_decide_true in Hf, Hs, Hc, Hb by done.
  pose proof (counts_nonneg true k (vals (delete h m))). pose proof (counts_nonneg false k (vals (delete h m))).
  assert (as_i64 (total_fee tx) = total_fee tx) as Eas by (apply as_i64_id; unfold is_i64, i64_min, i64_max in *; lia).
  unfold s', release_fee, count_down, put_fees. rewrite Eas.
  assert (i64_saturating_sub (total_fees s) (total_fee tx) = zsum (owed k) (vals (delete h m))) as Esub.
  { unfold i64_saturating_sub, saturating. rewrite Hf. unfold i64_min, i64_max in *. lia. }
  destruct (is_soroban_envelope (q_envelope tx)); simpl in *; split; try done; repeat split; lia.
Qed.

Lemma owed_delete_other m h tx k : m !! h = Some tx -> payer tx <> k -> zsum (owed k) (vals (delete h m)) = zsum (owed k) (vals m).
Proof. intros Hh Hne. rewrite (vals_delete m h tx Hh). simpl. unfold owed at 2. by rewrite bool_decide_false by done. Qed.

Lemma counted_delete_other m h tx b k : m !! h = Some tx -> payer tx <> k -> zsum (counted b k) (vals (delete h m)) = zsum (counted b k) (vals m).
Proof. intros Hh Hne. rewrite (vals_delete m h tx Hh). simpl. unfold counted at 2. by rewrite bool_decide_false by done. Qed.

Lemma elem_of_vals_delete m h tx t : txs_ok m -> m !! h = Some tx -> t ∈ vals (delete h m) <-> t ∈ vals m /\ t <> tx.
Proof.
  intros Hm Hh. rewrite !elem_of_vals. split.
  - intros [j Hj]. apply lookup_delete_Some in Hj as [Hne Hj]. split; [by exists j|]. intros ->. destruct (Hm h tx Hh), (Hm j tx Hj). congruence.
  - intros [[j Hj] Hne]. exists j. apply lookup_delete_Some. split; [|done]. intros ->. congruence.
Qed.

(** The effect of dropping a transaction on the accounts: its source has nothing
    pending, its fee source owes less. *)
Definition released (tx : QueuedTransaction) st : gmap Uint256 AccountState :=
  alter (release_fee (as_i64 (total_fee tx)) (is_soroban_envelope (q_envelope tx))) (payer tx) st.
Definition dropped (tx : QueuedTransaction) st : gmap Uint256 AccountState := released tx (alter clear_pending (source tx) st).

Lemma leave_ok m st h tx : txs_ok m -> accounts_ok m st -> fees_ok m -> m !! h = Some tx -> accounts_ok (delete h m) (dropped tx st).
Proof.
  intros Hm Ha Hf Hh k. destruct (Hm h tx Hh) as [_ Hq]. assert (tx ∈ vals m) as Htx by (apply elem_of_vals; by exists h).
  pose proof (payer_there m st tx Ha Htx) as Hpay. pose proof (source_there m st tx Ha Htx) as Hsrc.
  assert (is_Some (alter clear_pending (source tx) st !! payer tx)) as Hpay'.
  { destruct (decide (source tx = payer tx)) as [->|Hne]; [|by rewrite lookup_alter_ne]. rewrite lookup_alter_eq. destruct Hpay as [s ->]. by eexists. }
  unfold dropped, released. rewrite state_of_alter.
  assert (forall tx', transaction (state_of (alter clear_pending (source tx) st) k) = Some tx' <-> tx' ∈ vals (delete h m) /\ source tx' = k) as Hpend.
  { intros t. rewrite state_of_alter, (elem_of_vals_delete m h tx) by done. case_bool_decide as E.
    - destruct E as [-> _]. split; [done|]. intros [[Ht Hne] Hs]. exfalso. apply Hne.
      pose proof (proj2 (acc_pending _ _ _ (Ha (source tx)) t) (conj Ht Hs)). pose proof (proj2 (acc_pending _ _ _ (Ha (source tx)) tx) (conj Htx eq_refl)). congruence.
    - rewrite (acc_pending _ _ _ (Ha k)). split; [|by intros [[??]?]]. intros [Ht Hs]. split; [|done]. split; [done|]. intros ->. by apply E. }
  assert (account_ok m (payer tx) (state_of st (payer tx))) as Hpa by apply Ha.
  assert (forall j, total_fees (state_of (alter clear_pending (source tx) st) j) = total_fees (state_of st j) /\
     soroban_fee_tx_count (state_of (alter clear_pending (source tx) st) j) = soroban_fee_tx_count (state_of st j) /\
     classic_fee_tx_count (state_of (alter clear_pending (source tx) st) j) = classic_fee_tx_count (state_of st j)) as Hsame.
  { intros j. rewrite state_of_alter. case_bool_decide as E; [|done]. by destruct E as [-> _]. }
  case_bool_decide as E.
  - destruct E as [-> _]. destruct (Hsame (payer tx)) as (E1 & E2 & E3).
    set (s1 := state_of (alter clear_pending (source tx) st) (payer tx)) in *.
    destruct Hpa as [P1 P2 P3 P4].
    assert (account_ok m (payer tx) (MkAccountState (total_fees s1) (age s1) (transaction (state_of st (payer tx))) (soroban_fee_tx_count s1) (classic_fee_tx_count s1))) as Hmix.
    { split; simpl; [by rewrite E1|by rewrite E2|by rewrite E3|done]. }
    destruct (release_account m h tx (payer tx) _ Hmix Hf Hh eq_refl) as (R1 & R2 & R3 & _); [by apply queued_fee|].
    unfold release_fee, count_down, put_fees in *. destruct (is_soroban_envelope (q_envelope tx)); split; simpl in *; done.
  - assert (payer tx <> k) as Hne by (intros <-; by apply E). destruct (Hsame k) as (E1 & E2 & E3). destruct (Ha k) as [A1 A2 A3 _].
    split; [|..|done].
    + rewrite E1, A1. by rewrite (owed_delete_other m h tx).
    + rewrite E2, A2. by rewrite (counted_delete_other m h tx).
    + rewrite E3, A3. by rewrite (counted_delete_other m h tx).
Qed.

(** ** Empty accounts may go *)

Lemma empty_account m k s : account_ok m k s -> is_empty s = true -> account_ok m k AccountState_default.
Proof.
  intros [Hf Hs Hc Hp] He. unfold is_empty in He. apply andb_true_iff in He as [He Ecl]. apply andb_true_iff in He as [He Eso].
  apply andb_true_iff in He as [Et Ef]. apply Z.eqb_eq in Ef, Eso, Ecl. apply negb_true_iff in Et.
  split; simpl; [congruence..|]. intros tx. rewrite <- Hp. by destruct (transaction s).
Qed.

Lemma state_of_delete k st j : state_of (delete k st) j = if bool_decide (j = k) then AccountState_default else state_of st j.
Proof.
  unfold state_of. case_bool_decide as E; [subst; by rewrite lookup_delete_eq|by rewrite lookup_delete_ne].
Qed.

Lemma delete_account_ok m st k : accounts_ok m st -> account_ok m k AccountState_default -> accounts_ok m (delete k st).
Proof. intros Ha Hk j. rewrite state_of_delete. case_bool_decide as E; [by subst|apply Ha]. Qed.

Lemma remove_if_empty_ok m st k : accounts_ok m st -> accounts_ok m (remove_if_empty k st).
Proof.
  intros Ha. unfold remove_if_empty. destruct (st !! k) as [s|] eqn:E; [|done]. destruct (TxQueue.is_empty s) eqn:Ee; [|done].
  apply delete_account_ok; [done|]. apply (empty_account m k s); [|done]. specialize (Ha k). unfold state_of in Ha. by rewrite E in Ha.
Qed.

Lemma drop_transaction_ok m st h tx : txs_ok m -> accounts_ok m st -> fees_ok m -> m !! h = Some tx -> accounts_ok (delete h m) (drop_transaction tx st).
Proof.
  intros Hm Ha Hf Hh. assert (tx ∈ vals m) as Htx by (apply elem_of_vals; by exists h). unfold drop_transaction.
  assert (alter (fun s => if bool_decide (q_hash <$> transaction s = Some (q_hash tx)) then clear_pending s else s) (source tx) st
          = alter clear_pending (source tx) st) as ->.
  { apply alter_ext. intros s Hs. rewrite bool_decide_true; [done|].
    pose proof (proj2 (acc_pending _ _ _ (Ha (source tx)) tx) (conj Htx eq_refl)) as E. unfold state_of in E. rewrite Hs in E. simpl in E. by rewrite E. }
  pose proof (leave_ok m st h tx Hm Ha Hf Hh) as Hd. unfold dropped, released in Hd.
  destruct (bool_decide _); repeat apply remove_if_empty_ok; done.
Qed.

(** ** A transaction arrives *)

Lemma state_of_entry k f st j : state_of (entry_or_default k f st) j = if bool_decide (j = k) then f (state_of st k) else state_of st j.
Proof.
  unfold state_of, entry_or_default. case_bool_decide as E; [subst; by rewrite lookup_insert_eq|by rewrite lookup_insert_ne].
Qed.

(** The age plays no role. *)
Definition but_age (s s' : AccountState) : Prop :=
  total_fees s = total_fees s' /\ transaction s = transaction s' /\ soroban_fee_tx_count s = soroban_fee_tx_count s' /\
  classic_fee_tx_count s = classic_fee_tx_count s'.

Lemma account_but_age m k s s' : but_age s s' -> account_ok m k s -> account_ok m k s'.
Proof. intros (E1 & E2 & E3 & E4) [A1 A2 A3 A4]. split; [congruence..|]. intros tx. rewrite <- E2. apply A4. Qed.

(** With one pending transaction per account. *)
Lemma add_to_accounts_ok m st tx : txs_ok m -> accounts_ok m st -> queued_ok tx -> m !! q_hash tx = None ->
  (forall t, t ∈ vals m -> source t <> source tx) -> fees_ok (<[q_hash tx := tx]> m) -> Z.of_nat (size m) < u32_max ->
  accounts_ok (<[q_hash tx := tx]> m) (add_to_accounts tx None st).
Proof.
  intros Hm Ha Hq Hn Hone Hf Hsize k. pose proof (vals_insert m tx Hn) as Hp. pose proof (queued_fee tx Hq) as Hfee.
  assert (as_i64 (total_fee tx) = total_fee tx) as Eas by (apply as_i64_id; unfold is_i64, i64_min, i64_max in *; lia).
  unfold add_to_accounts. rewrite state_of_entry.
  set (st1 := entry_or_default (source tx) (put_transaction (Some tx)) st).
  assert (forall j, total_fees (state_of st1 j) = total_fees (state_of st j) /\
     soroban_fee_tx_count (state_of st1 j) = soroban_fee_tx_count (state_of st j) /\
     classic_fee_tx_count (state_of st1 j) = classic_fee_tx_count (state_of st j)) as Hsame.
  { intros j. unfold st1. rewrite state_of_entry. case_bool_decide as E; [|done]. by subst. }
  assert (forall t, transaction (state_of st1 k) = Some t <-> t ∈ vals (<[q_hash tx := tx]> m) /\ source t = k) as Hpend.
  { intros t. unfold st1. rewrite state_of_entry, Hp, elem_of_cons. case_bool_decide as E; simpl.
    - subst k. split; [intros [= <-]; split; [by left|done]|]. intros [[->|Ht] Hs]; [done|]. by destruct (Hone t Ht).
    - rewrite (acc_pending _ _ _ (Ha k)). split; [intros [Ht Hs]; split; [by right|done]|]. intros [[->|Ht] Hs]; [by destruct E|done]. }
  destruct (Hsame k) as (E1 & E2 & E3). destruct (Ha k) as [A1 A2 A3 _].
  pose proof (counts_nonneg true k (vals m)). pose proof (counts_nonneg false k (vals m)). rewrite len_vals in *.
  case_bool_decide as E.
  - subst k. unfold take_fee, net_new_fee. rewrite Eas.
    assert (i64_saturating_add (total_fees (state_of st1 (payer tx))) (total_fee tx) = zsum (owed (payer tx)) (vals (<[q_hash tx := tx]> m))) as Eadd.
    { pose proof (proj2 Hf (payer tx)) as Hb. rewrite Hp in Hb |- *. simpl in Hb |- *. unfold owed at 1 in Hb. unfold owed at 1.
      rewrite bool_decide_true in Hb |- * by done. rewrite E1, A1. unfold i64_saturating_add, saturating.
      assert (0 <= zsum (owed (payer tx)) (vals m)); [|unfold i64_min, i64_max in *; lia]. apply zsum_nonneg_in. intros t Ht.
      apply (owed_nonneg (<[q_hash tx := tx]> m)); [done|]. rewrite Hp. by right. }
    assert (forall b, zsum (counted b (payer tx)) (vals (<[q_hash tx := tx]> m)) =
       (if Bool.eqb (is_soroban_envelope (q_envelope tx)) b then 1 else 0) + zsum (counted b (payer tx)) (vals m)) as Hcnt.
    { intros b. rewrite Hp. simpl. unfold counted at 1. by rewrite bool_decide_true. }
    unfold count_up, add_fee, put_fees. rewrite Eadd. destruct (is_soroban_envelope (q_envelope tx)) eqn:Es; (split; simpl; [done| | |done]);
      rewrite ?Hcnt, ?E2, ?E3, ?A2, ?A3; simpl; rewrite ?as_u32_id by lia; lia.
  - split; [| | |done].
    + rewrite E1, A1, Hp. simpl. unfold owed at 2. by rewrite bool_decide_false by congruence.
    + rewrite E2, A2, Hp. simpl. unfold counted at 2. by rewrite bool_decide_false by congruence.
    + rewrite E3, A3, Hp. simpl. unfold counted at 2. by rewrite bool_decide_false by congruence.
Qed.

(** ** A transaction replaces another of its account *)

Lemma remove_if_empty_but_age k st j : but_age (state_of st j) (state_of (remove_if_empty k st) j).
Proof.
  unfold remove_if_empty. destruct (st !! k) as [s|] eqn:E; [|done]. destruct (TxQueue.is_empty s) eqn:Ee; [|done].
  rewrite state_of_delete. case_bool_decide as Ej; [|done]. subst j. unfold state_of. rewrite E. simpl.
  unfold TxQueue.is_empty in Ee. rewrite !andb_true_iff, negb_true_iff, !Z.eqb_eq in Ee. destruct Ee as [[[Et Ef] Es] Ec].
  split; [done|]. split; [by destruct (transaction s)|]. by split.
Qed.

Lemma but_age_trans s s' s'' : but_age s s' -> but_age s' s'' -> but_age s s''.
Proof. intros (E1 & E2 & E3 & E4) (F1 & F2 & F3 & F4). split; [congruence|]. split; [congruence|]. split; congruence. Qed.

(** The states without the replaced transaction, as [remove_replaced] leaves them. *)
Definition without_replaced (old : QueuedTransaction) (new_fee_source : Uint256) st : gmap Uint256 AccountState :=
  if bool_decide (payer old = new_fee_source) then st else remove_if_empty (payer old) (released old st).

Lemma release_clear_comm fee b k k' st :
  alter (release_fee fee b) k (alter clear_pending k' st) = alter clear_pending k' (alter (release_fee fee b) k st).
Proof.
  apply map_eq. intros j. rewrite !lookup_alter. repeat case_decide; subst; rewrite ?lookup_alter_eq, ?lookup_alter_ne by done; try done.
  destruct (st !! j); simpl; [|done]. by destruct b.
Qed.

Lemma put_over_clear k tx st j :
  but_age (state_of (entry_or_default k (put_transaction (Some tx)) (alter clear_pending k st)) j) (state_of (entry_or_default k (put_transaction (Some tx)) st) j).
Proof.
  rewrite !state_of_entry, !state_of_alter. case_bool_decide as E.
  - case_bool_decide; done.
  - rewrite bool_decide_false by (intros [? _]; done). done.
Qed.

Lemma take_fee_but_age tx o s s' : but_age s s' -> but_age (take_fee tx o s) (take_fee tx o s').
Proof.
  intros (E1 & E2 & E3 & E4). unfold take_fee, add_fee, count_up, put_fees. destruct o; repeat case_bool_decide; destruct (is_soroban_envelope (q_envelope tx));
    split; simpl; (congruence || (split; [congruence|split; congruence])).
Qed.

Lemma entry_but_age k f st st' j : (forall s s', but_age s s' -> but_age (f s) (f s')) -> (forall i, but_age (state_of st i) (state_of st' i)) ->
  but_age (state_of (entry_or_default k f st) j) (state_of (entry_or_default k f st') j).
Proof. intros Hf Hs. rewrite !state_of_entry. case_bool_decide; [by apply Hf|apply Hs]. Qed.

Lemma put_transaction_but_age o s s' : but_age s s' -> but_age (put_transaction o s) (put_transaction o s').
Proof. intros (E1 & E2 & E3 & E4). by split. Qed.

Lemma add_over_dropped tx old st k : source old = source tx ->
  but_age (state_of (add_to_accounts tx None (dropped old st)) k) (state_of (add_to_accounts tx None (released old st)) k).
Proof.
  intros Hs. unfold add_to_accounts. apply entry_but_age; [apply take_fee_but_age|]. intros i. unfold dropped, released.
  rewrite release_clear_comm, Hs. apply put_over_clear.
Qed.

(** With the fee source changed, the old one was released. *)
Lemma add_other_payer tx old st k : payer old <> payer tx ->
  but_age (state_of (add_to_accounts tx None (released old st)) k) (state_of (add_to_accounts tx (Some old) (without_replaced old (payer tx) st)) k).
Proof.
  intros Hpay. unfold without_replaced. rewrite bool_decide_false by done. unfold add_to_accounts.
  assert (forall s, take_fee tx (Some old) s = take_fee tx None s) as Htake.
  { intros s. unfold take_fee, net_new_fee. by rewrite bool_decide_false by done. }
  rewrite !(state_of_entry (payer tx)), Htake. case_bool_decide; [apply take_fee_but_age|];
    (apply entry_but_age; [apply put_transaction_but_age|intros i; apply remove_if_empty_but_age]).
Qed.

(** With the same fee source, the difference is added. *)
Lemma add_same_payer m tx old st k : txs_ok m -> accounts_ok m st -> fees_ok m -> m !! q_hash old = Some old -> queued_ok tx ->
  payer old = payer tx -> is_soroban_envelope (q_envelope old) = is_soroban_envelope (q_envelope tx) ->
  zsum (owed (payer tx)) (vals (delete (q_hash old) m)) + total_fee tx <= i64_max -> Z.of_nat (size m) < u32_max ->
  but_age (state_of (add_to_accounts tx None (released old st)) k) (state_of (add_to_accounts tx (Some old) (without_replaced old (payer tx) st)) k).
Proof.
  intros Hm Ha Hf Ho Hq Hpay Hty Hsum Hsize. unfold without_replaced. rewrite bool_decide_true by done. unfold add_to_accounts.
  assert (old ∈ vals m) as Hold by (apply elem_of_vals; by eexists). destruct (Hm _ _ Ho) as [_ Hqo].
  pose proof (payer_there m st old Ha Hold) as Hthere.
  assert (forall j, j <> payer tx -> state_of (released old st) j = state_of st j) as Hother.
  { intros j Hj. unfold released. rewrite state_of_alter, bool_decide_false; [done|]. intros [-> _]. by rewrite Hpay in Hj. }
  rewrite !(state_of_entry (payer tx)). case_bool_decide as E.
  2:{ rewrite !state_of_entry. case_bool_decide as E2; [subst k|]; rewrite Hother by done; done. }
  subst k. destruct (release_account m (q_hash old) old (payer old) _ (Ha _) Hf Ho eq_refl (queued_fee old Hqo)) as (R1 & R2 & R3 & _ & _).
  pose proof (queued_fee tx Hq) as Hfee. pose proof (queued_fee old Hqo) as Hfeeo.
  assert (as_i64 (total_fee tx) = total_fee tx) as Etx by (apply as_i64_id; unfold is_i64, i64_min, i64_max in *; lia).
  assert (as_i64 (total_fee old) = total_fee old) as Eold by (apply as_i64_id; unfold is_i64, i64_min, i64_max in *; lia).
  assert (state_of (released old st) (payer tx) = release_fee (as_i64 (total_fee old)) (is_soroban_envelope (q_envelope old)) (state_of st (payer tx))) as Erel.
  { unfold released. rewrite state_of_alter, Hpay, bool_decide_true; [done|]. split; [done|]. by rewrite <- Hpay. }
  rewrite <- Hpay in Erel. set (s0 := state_of st (payer old)) in *. rewrite <- Hpay in Hsum.
  destruct (Ha (payer old)) as [A1 A2 A3 _]. fold s0 in A1, A2, A3.
  pose proof (vals_delete m _ old Ho) as Hp. rewrite Hp in A1, A2, A3. simpl in A1, A2, A3. unfold owed at 1 in A1. unfold counted at 1 in A2. unfold counted at 1 in A3.
  rewrite bool_decide_true in A1, A2, A3 by done. rewrite Hty in A2, A3.
  set (l := vals (delete (q_hash old) m)) in *.
  assert (0 <= zsum (owed (payer old)) l) as Hnn by (apply (fees_nonneg _ _ (fees_ok_delete m (q_hash old) Hf))).
  pose proof (counts_nonneg true (payer old) l). pose proof (counts_nonneg false (payer old) l).
  assert (len l < u32_max) as Hl. { pose proof (len_vals m) as Hv. rewrite (len_perm _ _ Hp), len_cons in Hv. fold l in Hv. lia. }
  assert (i64_saturating_add (total_fees (release_fee (as_i64 (total_fee old)) (is_soroban_envelope (q_envelope old)) s0)) (total_fee tx)
          = i64_saturating_add (total_fees s0) (i64_saturating_sub (total_fee tx) (total_fee old))) as Etot.
  { rewrite R1. fold l. rewrite A1. unfold i64_saturating_add, i64_saturating_sub, saturating. unfold i64_min, i64_max in *. lia. }
  rewrite !state_of_entry, <- Hpay. unfold take_fee, net_new_fee. rewrite !(bool_decide_true (payer old = payer tx)) by done. rewrite Etx, Eold.
  assert (forall f : AccountState -> AccountState, (if bool_decide (payer old = source tx) then f (state_of (released old st) (source tx)) else state_of (released old st) (payer old))
     = if bool_decide (payer old = source tx) then f (state_of (released old st) (payer old)) else state_of (released old st) (payer old)) as Hsrc.
  { intros f. case_bool_decide as Es; [by rewrite Es|done]. }
  rewrite Hsrc, Erel. assert (forall f : AccountState -> AccountState, (if bool_decide (payer old = source tx) then f (state_of st (source tx)) else s0)
     = if bool_decide (payer old = source tx) then f s0 else s0) as Hsrc0.
  { intros f. case_bool_decide as Es; [unfold s0; by rewrite Es|done]. }
  rewrite Hsrc0. unfold count_up, add_fee, put_fees, put_transaction. rewrite Hty in *.
  case_bool_decide as Es; simpl; rewrite Etot; unfold release_fee, count_down, put_fees in *; destruct (is_soroban_envelope (q_envelope tx)); simpl in *;
    (split; [done|]; split; [done|]; split; simpl; rewrite ?as_u32_id by lia; lia).
Qed.

Lemma replace_ok m tx old st : txs_ok m -> accounts_ok m st -> fees_ok m -> m !! q_hash old = Some old -> queued_ok tx ->
  source old = source tx -> is_soroban_envelope (q_envelope old) = is_soroban_envelope (q_envelope tx) ->
  delete (q_hash old) m !! q_hash tx = None -> fees_ok (<[q_hash tx := tx]> (delete (q_hash old) m)) -> Z.of_nat (size m) < u32_max ->
  accounts_ok (<[q_hash tx := tx]> (delete (q_hash old) m)) (add_to_accounts tx (Some old) (without_replaced old (payer tx) st)).
Proof.
  intros Hm Ha Hf Ho Hq Hs Hty Hnew Hf' Hsize k. assert (old ∈ vals m) as Hold by (apply elem_of_vals; by eexists).
  pose proof (leave_ok m st (q_hash old) old Hm Ha Hf Ho) as Hd.
  assert (Z.of_nat (size (delete (q_hash old) m)) < u32_max) as Hsize'.
  { pose proof (len_vals m) as Hv. pose proof (len_vals (delete (q_hash old) m)) as Hv'. rewrite (len_perm _ _ (vals_delete m _ old Ho)), len_cons in Hv. lia. }
  assert (forall t, t ∈ vals (delete (q_hash old) m) -> source t <> source tx) as Hone.
  { intros t Ht Hst. apply (elem_of_vals_delete m (q_hash old) old) in Ht as [Ht Hne]; [|done|done]. apply Hne.
    pose proof (proj2 (acc_pending _ _ _ (Ha (source tx)) t) (conj Ht Hst)). pose proof (proj2 (acc_pending _ _ _ (Ha (source tx)) old) (conj Hold Hs)). congruence. }
  pose proof (add_to_accounts_ok _ _ tx (txs_ok_delete m _ Hm) Hd Hq Hnew Hone Hf' Hsize' k) as Hadd.
  apply (account_but_age _ _ _ _ (add_over_dropped tx old st k Hs)) in Hadd. revert Hadd. apply account_but_age.
  destruct (decide (payer old = payer tx)) as [Hpay|Hpay]; [|by apply add_other_payer].
  apply (add_same_payer m); try done. destruct Hf' as [_ Hb]. specialize (Hb (payer tx)). rewrite vals_insert in Hb by done. simpl in Hb.
  unfold owed at 1 in Hb. rewrite bool_decide_true in Hb by done. lia.
Qed.
End accounts.
