(* ===== verification/TxQueuePasses.v ===== *)
(** * TxQueuePasses: the passes over the eviction queues

    A candidate that every pass finds room for fits, after the evictions, within the
    limits of each queue; the passes change neither the transactions nor the accounts. *)


From S2P Require Import Prelude Bucket Ledger Lists Resource Envelope SurgePricing SurgePricingFacts SurgePricingEvict TxQueueStore TxQueue TxQueueHeld TxQueueStoreFacts TxQueueFits TxQueueAccounts.

Section passes.
Context `{EnvelopeXdr} `{HashIteration}.
Implicit Types m : gmap (list Z) QueuedTransaction.
Implicit Types st : gmap Uint256 AccountState.
Implicit Types p : gset (list Z) * list QueuedTransaction.
Implicit Types replaced : option QueuedTransaction.
Implicit Types w : QueuedTransaction -> bool.
Implicit Types tx : QueuedTransaction.

(** ** Configurations *)

Definition option_ok {A} (P : A -> Prop) (o : option A) : Prop := match o with Some x => P x | None => True end.

Definition MAX_QUEUED : Z := 2 ^ 31 - 1.

Definition cfg_ok (cfg : TxQueueConfig) : Prop :=
  1 <= min_fee_per_op cfg /\ option_ok is_u32 (max_queue_classic_bytes cfg) /\ option_ok is_u32 (max_queue_dex_ops cfg).

Lemma one_vec x : 0 <= x <= i64_max -> vec_ok 1 (MkResource [x]).
Proof. intros Hx. split; [done|]. intros i. unfold dim. destruct i as [|i]; simpl; [done|]. unfold i64_max. lia. Qed.

Lemma two_vec x y : 0 <= x <= i64_max -> 0 <= y <= i64_max -> vec_ok 2 (MkResource [x; y]).
Proof. intros Hx Hy. split; [done|]. intros i. unfold dim. destruct i as [|[|i]]; simpl; [done|done|]. unfold i64_max. lia. Qed.

Lemma classic_config_ok cfg v : cfg_ok cfg ->
  build_classic_lane_config cfg = Ok None \/
  exists n c, build_classic_lane_config cfg = Ok (Some c) /\ config_fits n v is_classic c.
Proof.
  intros (_ & Hb & Hd). unfold build_classic_lane_config.
  assert (forall x, is_u32 x -> 0 <= x <= i64_max) as Hu by (intros x; unfold is_u32, u32_max, i64_max; lia).
  assert (0 <= MAX_CLASSIC_BYTE_ALLOWANCE <= i64_max) as Hc by done.
  assert (0 <= i64_max <= i64_max) as Hm by (unfold i64_max; lia).
  destruct (max_queue_classic_bytes cfg) as [b|], (max_queue_dex_ops cfg) as [d|]; simpl in *; [right; exists 2%nat|right; exists 2%nat|right; exists 1%nat|by left].
  all: eexists; (split; [done|]).
  all: split; [by (left + (right; left))|done| |match goal with |- takes _ _ (DexLimitingLaneConfig_new ?l ?x) _ _ => exact (dex_takes v l x) end].
  all: intros r Hr; simpl in Hr; repeat (apply elem_of_cons in Hr as [->|Hr]; [first [apply one_vec|apply two_vec]; auto|]); by apply elem_of_nil in Hr.
Qed.

(** What a configuration counts may not depend on the version of the protocol. *)
Definition version_free (c : LaneConfig) : Prop := forall env v v', config_resources c env v = config_resources c env v'.
Definition free_queue (o : option SurgePricingPriorityQueue) : Prop := forall q, o = Some q -> version_free (lane_config q).

Lemma classic_free cfg c : build_classic_lane_config cfg = Ok (Some c) -> version_free c.
Proof.
  intros E env v v'. assert (exists l b, c = DexLimitingLaneConfig l b) as (l & b & ->).
  { unfold build_classic_lane_config in E. destruct (max_queue_classic_bytes cfg), (max_queue_dex_ops cfg); simpl in E; try done; injection E as <-; by eexists _, _. }
  simpl. unfold resources_from_envelope. by destruct (is_soroban_envelope env).
Qed.

Lemma free_some c q : lane_config q = c -> version_free c -> free_queue (Some q).
Proof. by intros <- Hc q' [= <-]. Qed.

Lemma free_same o o' : free_queue o -> same_eviction o o' -> free_queue o'.
Proof. intros Hf Hs q' ->. destruct o as [q|]; [|done]. destruct Hs as (-> & _). by apply Hf. Qed.

(** The queues in use have the limits in force. *)
Record matching (q : TransactionQueue) : Prop := {
  match_classic : forall c, build_classic_lane_config (config q) = Ok (Some c) -> matches c (classic_eviction_queue (store q));
  match_soroban : forall limit, effective_queue_soroban_resources q = Some limit ->
    matches (SorobanGenericLaneConfig_new limit) (soroban_eviction_queue (store q));
  match_global : forall limit, effective_max_queue_ops q = Some limit -> matches (ops_config limit) (global_ops_queue (store q));
  match_free_classic : free_queue (classic_eviction_queue (store q));
  match_free_global : free_queue (global_ops_queue (store q))
}.

Record limits_ok (q : TransactionQueue) : Prop := {
  lim_config : cfg_ok (config q);
  lim_soroban : option_ok (vec_ok 7) (effective_queue_soroban_resources q);
  lim_ops : option_ok (fun ops => 0 <= ops <= i64_max) (effective_max_queue_ops q)
}.

Lemma matches_same c o o' : matches c o -> same_eviction o o' -> matches c o'.
Proof.
  intros Hm Hs q' ->. destruct o as [q|]; [|done]. destruct (Hm q eq_refl) as [Hc Hl]. destruct Hs as (Hc' & Hl' & _). split; congruence.
Qed.

(** Rates that can be compared. *)
Definition fees_known (fees : list (option FeeRate)) : Prop := forall r, Some r ∈ fees -> rate_ok r.
Record thresholds_ok (t : EvictionThresholds) : Prop := {
  th_classic : fees_known (classic_lane_fees t);
  th_soroban : fees_known (soroban_lane_fees t);
  th_global : option_ok rate_ok (global_fees t)
}.

(** Nothing but thresholds and eviction queues changed. *)
Record quiet (q q' : TransactionQueue) : Prop := {
  quiet_update : q' = update q (store q') (seen q) (eviction_thresholds q') (banned_transactions q) (account_states q);
  quiet_txs : by_hash (store q') = by_hash (store q)
}.

Lemma quiet_refl q : quiet q q.
Proof. split; [by destruct q|done]. Qed.

Lemma quiet_trans q q1 q2 : quiet q q1 -> quiet q1 q2 -> quiet q q2.
Proof.
  intros [E1 T1] [E2 T2]. split; [|congruence]. rewrite E2. rewrite E1. done.
Qed.

Lemma quiet_store q stq : by_hash stq = by_hash (store q) -> quiet q (put_store stq q).
Proof. intros E. by split. Qed.

Lemma quiet_thresholds q t : quiet q (put_thresholds t q).
Proof. by split. Qed.

(** ** Fees to beat *)

Lemma min_fee_ok o r : option_ok rate_ok o -> rate_ok r -> exists n, min_inclusion_fee_to_beat o r = Ok n.
Proof.
  intros Ho Hr. unfold min_inclusion_fee_to_beat. destruct o as [e|]; [|by eexists]. destruct (_ =? 0); [by eexists|].
  rewrite cmp_rate_ok by done. simpl. by eexists.
Qed.

Lemma resize_known k fees : fees_known fees -> fees_known (resize k None fees).
Proof.
  intros Hf r Hr. apply Hf. rewrite resize_spec, elem_of_app in Hr. destruct Hr as [Hr|Hr].
  - apply elem_of_take in Hr as (i & Hi%list_elem_of_lookup_2 & _). done.
  - apply elem_of_replicate in Hr as [Hr _]. done.
Qed.

Lemma fees_at fees i : fees_known fees -> (i < length fees)%nat -> exists o, at_index fees i = Ok o /\ option_ok rate_ok o.
Proof.
  intros Hf Hi. apply lookup_lt_is_Some_2 in Hi as [o Ho]. exists o. split; [by apply lookup_at|]. destruct o as [r|]; [|done].
  apply Hf. by apply list_elem_of_lookup_2 in Ho.
Qed.

Lemma below_ok c fees g ops tx lane : fees_known fees -> option_ok rate_ok g -> queued_ok tx -> config_lane c (q_envelope tx) = Ok lane ->
  (lane < length (config_limits c))%nat ->
  exists fees' b, fee_below_lane_threshold c fees g ops tx = Ok (fees', b) /\ fees_known fees'.
Proof.
  intros Hf Hg Hq Hl Hlane. pose proof (queued_rate tx Hq) as Hr. unfold fee_below_lane_threshold. rewrite Hl. simpl.
  pose proof (resize_known (length (config_limits c)) fees Hf) as Hf'. fold (resize_fees c fees) in Hf'.
  assert (length (resize_fees c fees) = length (config_limits c)) as Hlen by (unfold resize_fees; apply length_resize).
  destruct (fees_at (resize_fees c fees) lane Hf') as (o1 & -> & Ho1); [lia|]. simpl. destruct (min_fee_ok o1 _ Ho1 Hr) as [n1 ->]. simpl.
  destruct (fees_at (resize_fees c fees) GENERIC_LANE Hf') as (o2 & -> & Ho2); [unfold GENERIC_LANE; lia|]. simpl. destruct (min_fee_ok o2 _ Ho2 Hr) as [n2 ->]. simpl.
  destruct ops; [destruct (min_fee_ok g _ Hg Hr) as [n3 ->]|]; simpl; eexists; eexists; (split; [done|done]).
Qed.

(** ** Pending evictions *)

Record pending_ok (tx : QueuedTransaction) m (g : gset (list Z)) (p : gset (list Z) * list QueuedTransaction) : Prop := {
  pend_hashes : p.1 = list_to_set (q_hash <$> p.2);
  pend_nodup : NoDup (q_hash <$> p.2);
  pend_in : forall t, t ∈ p.2 -> m !! q_hash t = Some t /\ q_hash t ∉ g /\ evictable tx t
}.

Definition extend (p : gset (list Z) * list QueuedTransaction) (evs : list QueuedTransaction) : gset (list Z) * list QueuedTransaction :=
  (list_to_set (q_hash <$> evs) ∪ p.1, p.2 ++ evs).

Lemma extend_nil p : extend p [] = p.
Proof. unfold extend. destruct p as [hs l]. simpl. by rewrite app_nil_r, (left_id_L ∅ (∪)). Qed.

Lemma pending_nil tx m g : pending_ok tx m g (∅, []).
Proof. split; simpl; [done|constructor|]. intros t Ht. by apply elem_of_nil in Ht. Qed.

Lemma elem_of_others w m gone tx : tx ∈ others w m gone <-> tx ∈ picked w m /\ q_hash tx ∉ gone.
Proof. unfold others. rewrite list_elem_of_filter. tauto. Qed.

(** Evictions of a part of the others are new, and of different transactions. *)
Lemma evictions_new w m gone evs : txs_ok m -> evs ⊆+ others w m gone ->
  NoDup (q_hash <$> evs) /\ forall t, t ∈ evs -> m !! q_hash t = Some t /\ w t = true /\ q_hash t ∉ gone.
Proof.
  intros Hm Hsub. split.
  - eapply NoDup_submseteq_down; [apply fmap_submseteq_of, Hsub|]. eapply NoDup_submseteq_down, (picked_nodup w m Hm).
    apply fmap_submseteq_of. unfold others. apply sublist_submseteq, sublist_filter.
  - intros t Ht. apply (elem_of_submseteq _ _ _ Ht) in Hsub. apply elem_of_others in Hsub as [Hp Hg]. apply elem_of_picked in Hp as [Hv Hw].
    split; [by apply elem_of_vals_at|done].
Qed.

Lemma pending_extend n v w q tx m g p evs : txs_ok m -> pending_ok tx m g p -> answer_ok n v w q tx m (g ∪ p.1) evs -> pending_ok tx m g (extend p evs).
Proof.
  intros Hm [Hh Hnd Hin] Ha. destruct (evictions_new w m _ evs Hm (answer_part _ _ _ _ _ _ _ _ Ha)) as [Hnd' Hin'].
  assert (forall t, t ∈ evs -> q_hash t ∉ q_hash <$> p.2) as Hdis.
  { intros t Ht Hd. destruct (Hin' t Ht) as (_ & _ & Hno). apply Hno, elem_of_union. right. rewrite Hh. by apply elem_of_list_to_set. }
  split; simpl.
  - rewrite fmap_app, list_to_set_app_L, Hh. by rewrite (comm_L (∪)).
  - rewrite fmap_app. apply NoDup_app. split; [done|]. split; [|done]. intros h Hd Hd'. apply list_elem_of_fmap in Hd' as (t & -> & Ht). by apply (Hdis t).
  - intros t [Ht|Ht]%elem_of_app; [by apply Hin|]. destruct (Hin' t Ht) as (Hmt & _ & Hno). split; [done|]. split; [set_solver|].
    by apply (answer_lower _ _ _ _ _ _ _ _ Ha).
Qed.

Lemma put_fee_known fees i r : fees_known fees -> rate_ok r -> fees_known (put_at i (Some r) fees).
Proof.
  intros Hf Hr x Hx. unfold put_at in Hx. apply list_elem_of_lookup in Hx as [j Hj]. destruct (decide (i = j)) as [<-|Hne].
  - destruct (decide (i < length fees)%nat); [rewrite list_lookup_insert_eq in Hj by done; congruence|].
    rewrite list_insert_ge in Hj by lia. apply Hf. by apply list_elem_of_lookup_2 in Hj.
  - rewrite list_lookup_insert_ne in Hj by done. apply Hf. by apply list_elem_of_lookup_2 in Hj.
Qed.

(** Every eviction is new, so every one is recorded. *)
Lemma record_ok c evs : forall fees p, fees_known fees ->
  (forall t, t ∈ evs.*1 -> rate_ok (fee_rate t) /\ exists lane, config_lane c (q_envelope t) = Ok lane /\ (lane < length (config_limits c))%nat) ->
  NoDup (q_hash <$> evs.*1) -> (forall t, t ∈ evs.*1 -> q_hash t ∉ p.1) ->
  exists fees', record_lane_evictions c fees evs p = Ok (fees', extend p evs.*1) /\ fees_known fees'.
Proof.
  induction evs as [|[t b] evs IH]; intros fees [hs l] Hf Hok Hnd Hnew.
  { exists fees. unfold record_lane_evictions. simpl. by rewrite extend_nil. }
  csimpl in *. apply NoDup_cons in Hnd as [Hno Hnd]. destruct (Hok t) as [Hr (lane & Hl & Hlane)]; [left|].
  unfold record_lane_evictions. simpl. rewrite bool_decide_false by (apply Hnew; left). rewrite Hl. simpl.
  set (at_lane := if b then lane else GENERIC_LANE).
  assert (at_lane < length (resize_fees c fees))%nat as Hat.
  { unfold resize_fees. rewrite length_resize. unfold at_lane, GENERIC_LANE. destruct b; lia. }
  pose proof (resize_known (length (config_limits c)) fees Hf) as Hf'. fold (resize_fees c fees) in Hf'.
  destruct (fees_at _ at_lane Hf' Hat) as (o & -> & _). simpl.
  destruct (IH (put_at at_lane (Some (fee_rate t)) (resize_fees c fees)) ({[q_hash t]} ∪ hs, l ++ [t])) as (fees' & E & Hk).
  - by apply put_fee_known.
  - intros u Hu. apply Hok. by right.
  - done.
  - intros u Hu. simpl. rewrite not_elem_of_union, elem_of_singleton. split; [|apply Hnew; by right].
    intros Heq. apply Hno. rewrite <- Heq. by apply list_elem_of_fmap_2.
  - exists fees'. unfold record_lane_evictions in E. rewrite E. split; [|done]. unfold extend. simpl.
    rewrite <- app_assoc. simpl.
    assert (list_to_set (q_hash <$> evs.*1) ∪ ({[q_hash t]} ∪ hs) = {[q_hash t]} ∪ list_to_set (q_hash <$> evs.*1) ∪ hs) as -> by set_solver. done.
Qed.

Lemma record_global_ok evs : forall o p, option_ok rate_ok o -> (forall t, t ∈ evs.*1 -> rate_ok (fee_rate t)) ->
  NoDup (q_hash <$> evs.*1) -> (forall t, t ∈ evs.*1 -> q_hash t ∉ p.1) ->
  exists o', foldl record_global_eviction (o, p) evs = (o', extend p evs.*1) /\ option_ok rate_ok o'.
Proof.
  induction evs as [|[t b] evs IH]; intros o [hs l] Ho Hok Hnd Hnew.
  { exists o. simpl. by rewrite extend_nil. }
  csimpl in *. apply NoDup_cons in Hnd as [Hno Hnd]. rewrite bool_decide_false by (apply Hnew; left).
  destruct (IH (Some (fee_rate t)) ({[q_hash t]} ∪ hs, l ++ [t])) as (o' & E & Hk).
  - apply Hok. left.
  - intros u Hu. apply Hok. by right.
  - done.
  - intros u Hu. simpl. rewrite not_elem_of_union, elem_of_singleton. split; [|apply Hnew; by right].
    intros Heq. apply Hno. rewrite <- Heq. by apply list_elem_of_fmap_2.
  - exists o'. rewrite E. split; [|done]. unfold extend. simpl.
    rewrite <- app_assoc. simpl.
    assert (list_to_set (q_hash <$> evs.*1) ∪ ({[q_hash t]} ∪ hs) = {[q_hash t]} ∪ list_to_set (q_hash <$> evs.*1) ∪ hs) as -> by set_solver. done.
Qed.

(** ** What fits *)

(** What a transaction uses of dimension [i], as configuration [c] counts it. *)
Definition use (c : LaneConfig) (v : Z) (i : nat) tx : Z :=
  match config_resources c (q_envelope tx) v with Ok r => dim r i | Err _ => 0 end.

Lemma use_uses n c v i tx : dim (uses n v c (q_envelope tx)) i = use c v i tx.
Proof. unfold uses, use. destruct (config_resources _ _ _); [done|]. by rewrite dim_rzero. Qed.

(** Beside [l] and within the limits of [c]: in all, and for the lane of the candidate. *)
Record beside (c : LaneConfig) (v : Z) tx (l : list QueuedTransaction) : Prop := {
  beside_total : forall limit i, config_limits c !! GENERIC_LANE = Some limit -> zsum (use c v i) l + use c v i tx <= dim limit i;
  beside_lane : forall limit lane i, lane <> GENERIC_LANE -> config_lane c (q_envelope tx) = Ok lane -> config_limits c !! lane = Some limit ->
    zsum (use c v i) (filter (fun t => tx_in_lane c lane t = true) l) + use c v i tx <= dim limit i
}.

(** When at least [gone] goes. *)
Definition fits_with (v : Z) w (c : LaneConfig) tx m (gone : gset (list Z)) : Prop :=
  forall gone', gone ⊆ gone' -> beside c v tx (others w m gone').

Lemma take_nonneg n v c k w i tx : takes n v c k w -> queued_ok tx -> w tx = true -> 0 <= use c v i tx.
Proof. intros Ht Hq Hw. destruct (Ht tx Hq Hw) as (lane & Ha & _). rewrite <- (use_uses n). apply Ha. Qed.

Lemma others_nil w m : others w m ∅ = picked w m.
Proof. unfold others. apply filter_all. intros t _. set_solver. Qed.

(** Of the others, those that go too. *)
Lemma others_split w m gone evs : txs_ok m -> evs ⊆+ others w m gone ->
  others w m gone ≡ₚ evs ++ others w m (list_to_set (q_hash <$> evs) ∪ gone).
Proof.
  intros Hm Hsub. pose proof Hsub as [k Hk]%submseteq_Permutation. rewrite Hk. apply Permutation_app_head.
  assert (others w m (list_to_set (q_hash <$> evs) ∪ gone) = filter (fun t => q_hash t ∉ q_hash <$> evs) (others w m gone)) as ->.
  { unfold others. rewrite list_filter_filter. apply list_filter_iff. intros t. rewrite not_elem_of_union, elem_of_list_to_set. tauto. }
  rewrite Hk, filter_app, filter_none by (intros t Ht Hno; apply Hno; by apply list_elem_of_fmap_2). simpl.
  rewrite filter_all; [done|]. intros t Ht Hin.
  assert (NoDup (q_hash <$> evs ++ k)) as Hnd.
  { rewrite <- Hk. eapply NoDup_submseteq_down, (picked_nodup w m Hm). apply fmap_submseteq_of. unfold others. apply sublist_submseteq, sublist_filter. }
  rewrite fmap_app in Hnd. apply NoDup_app in Hnd as (_ & Hnd & _). apply (Hnd _ Hin). by apply list_elem_of_fmap_2.
Qed.

Lemma others_mono w m gone gone' : gone ⊆ gone' -> others w m gone' `sublist_of` others w m gone.
Proof.
  intros Hg. assert (others w m gone' = filter (fun t => q_hash t ∉ gone') (others w m gone)) as ->; [|apply sublist_filter].
  unfold others. rewrite list_filter_filter. apply list_filter_iff. intros t. set_solver.
Qed.

Lemma zsum_sublist {A} (f : A -> Z) l l' : l `sublist_of` l' -> (forall x, x ∈ l' -> 0 <= f x) -> zsum f l <= zsum f l'.
Proof.
  induction 1 as [|x l l' _ IH|x l l' _ IH]; intros Hf; simpl; [lia| |].
  - specialize (IH (fun y Hy => Hf y (proj2 (elem_of_cons _ _ _) (or_intror Hy)))). lia.
  - specialize (IH (fun y Hy => Hf y (proj2 (elem_of_cons _ _ _) (or_intror Hy)))). specialize (Hf x (proj2 (elem_of_cons _ _ _) (or_introl eq_refl))). lia.
Qed.

Lemma filter_sublist {A} (P : A -> Prop) `{!forall x, Decision (P x)} l l' : l `sublist_of` l' -> filter P l `sublist_of` filter P l'.
Proof.
  induction 1 as [|x l l' _ IH|x l l' _ IH]; [done| |]; rewrite !filter_cons; destruct (decide (P x)); try done; by constructor.
Qed.

Lemma beside_mono n k c v w tx m gone gone' : txs_ok m -> takes n v c k w -> gone ⊆ gone' -> beside c v tx (others w m gone) -> beside c v tx (others w m gone').
Proof.
  intros Hm Ht Hg [Htot Hlane]. pose proof (others_mono w m gone gone' Hg) as Hs.
  assert (forall i t, t ∈ others w m gone -> 0 <= use c v i t) as Hpos.
  { intros i t Hin. apply elem_of_others in Hin as [Hin _]. apply elem_of_picked in Hin as [Hv Hw]. apply elem_of_vals in Hv as [h Hh].
    destruct (Hm h t Hh) as [_ Hq]. by apply (take_nonneg n v c k w). }
  split.
  - intros limit i Hl. specialize (Htot limit i Hl). pose proof (zsum_sublist (use c v i) _ _ Hs (Hpos i)). lia.
  - intros limit lane i Hne Hcl Hl. specialize (Hlane limit lane i Hne Hcl Hl).
    pose proof (zsum_sublist (use c v i) _ _ (filter_sublist (fun t => tx_in_lane c lane t = true) _ _ Hs)) as Hz.
    assert (forall t, t ∈ filter (fun t => tx_in_lane c lane t = true) (others w m gone) -> 0 <= use c v i t) as Hp.
    { intros t Hin. apply list_elem_of_filter in Hin as [_ Hin]. by apply Hpos. }
    specialize (Hz Hp). lia.
Qed.

(** An answer makes room. *)
Lemma answer_fits n n0 v w s q tx m gone evs c : txs_ok m -> held n0 v w s q (picked w m) -> lane_config q = c -> lane_limits q = config_limits c ->
  answer_ok n v w q tx m gone evs -> fits_with v w c tx m (list_to_set (q_hash <$> evs) ∪ gone).
Proof.
  intros Hm Hh Hc Hl Ha gone' Hg. pose proof (held_takes _ _ _ _ _ _ Hh) as Ht. rewrite Hc in Ht.
  apply (beside_mono n0 (length (lane_limits q)) c v w tx m _ gone' Hm Ht Hg).
  pose proof (others_split w m gone evs Hm (answer_part _ _ _ _ _ _ _ _ Ha)) as Hsplit.
  assert (forall i t, dim (uses n v (lane_config q) (q_envelope t)) i = use c v i t) as Hu by (intros i t; by rewrite use_uses, Hc).
  split.
  - intros limit i Hlim. rewrite <- Hl in Hlim. pose proof (answer_total _ _ _ _ _ _ _ _ Ha _ limit Hsplit Hlim i) as Hf. simpl in Hf.
    rewrite Hu in Hf. rewrite (zsum_ext_in (use c v i) (fun t => dim (uses n v (lane_config q) (q_envelope t)) i)); [done|]. intros t _. symmetry. apply Hu.
  - intros limit lane i Hne Hcl Hlim. rewrite <- Hl in Hlim. rewrite <- Hc in Hcl.
    pose proof (answer_lane _ _ _ _ _ _ _ _ Ha _ lane limit Hsplit Hne Hcl Hlim i) as Hf. simpl in Hf. rewrite Hu, Hc in Hf.
    rewrite (zsum_ext_in (use c v i) (fun t => dim (uses n v (lane_config q) (q_envelope t)) i)); [by rewrite Hc|]. intros t _. symmetry. apply Hu.
Qed.

(** ** One pass *)

(** What the passes rely on. *)
Record ready (v : Z) (q : TransactionQueue) : Prop := {
  ready_store : store_ok v (store q);
  ready_matching : matching q;
  ready_limits : limits_ok q;
  ready_thresholds : thresholds_ok (eviction_thresholds q);
  ready_count : count_ok (Z.of_nat (size (by_hash (store q))))
}.

Lemma quiet_limits q q' : quiet q q' -> limits_ok q -> limits_ok q'.
Proof. intros [-> _] [Hc Hs Ho]. by split. Qed.

(** The transaction that is replaced is queued, and of the same type. *)
Definition replaced_ok (tx : QueuedTransaction) m (o : option QueuedTransaction) : Prop :=
  forall old, o = Some old -> m !! q_hash old = Some old /\ is_soroban old = is_soroban tx.

Lemma known_of w tx m replaced p : pending_ok tx m (option_hash replaced) p -> replaced_ok tx m replaced ->
  (forall old, replaced = Some old -> w old = true) -> (forall t, t ∈ p.2 -> w t = true) -> known w m (option_hash replaced ∪ p.1).
Proof.
  intros Hp Hr Hwr Hwp h Hh. apply elem_of_union in Hh as [Hh|Hh].
  - destruct replaced as [old|]; simpl in Hh; [|by apply elem_of_empty in Hh]. apply elem_of_singleton in Hh as ->.
    exists old. split; [by apply Hr|by apply Hwr].
  - rewrite (pend_hashes _ _ _ _ Hp) in Hh. apply elem_of_list_to_set, list_elem_of_fmap in Hh as (t & -> & Ht).
    exists t. split; [by apply (pend_in _ _ _ _ Hp)|by apply Hwp].
Qed.

Lemma query_ok v w c q stq queue tx replaced p : ready v q -> ensured v w c (store q) stq queue -> queued_ok tx -> w tx = true ->
  known w (by_hash (store q)) (option_hash replaced ∪ p.1) -> replaced_ok tx (by_hash (store q)) replaced ->
  exists r, evictions_for tx v replaced queue p (put_store stq q) = Ok r /\
    match r with
    | Some evs => exists n, answer_ok n v w queue tx (by_hash (store q)) (option_hash replaced ∪ p.1) evs.*1
    | None => True
    end.
Proof.
  intros [Hok _ _ _ Hcount] [_ Htxs Hseed Hc Hl [n Hh]] Hq Hw Hk Hr. unfold evictions_for. simpl. rewrite Htxs.
  destruct (build_exclusion_ok n v w (eviction_seed (store q)) queue (by_hash (store q)) replaced p.1) as (excl & -> & Hhs & Hex); try done.
  - apply Hok.
  - intros t Ht. by apply Hr.
  - simpl. destruct (can_fit_answer n v w (eviction_seed (store q)) queue (by_hash (store q)) tx excl) as (r & -> & Ha); try done.
    exists r. split; [done|]. destruct r as [evs|]; [|done]. exists n. by rewrite <- Hhs.
Qed.

(** An answer taken over, with the lanes of what is evicted. *)
Lemma answer_lanes n v w s q m gone evs c : held n v w s q (picked w m) -> lane_config q = c -> lane_limits q = config_limits c ->
  txs_ok m -> evs ⊆+ others w m gone ->
  forall t, t ∈ evs -> rate_ok (fee_rate t) /\ exists lane, config_lane c (q_envelope t) = Ok lane /\ (lane < length (config_limits c))%nat.
Proof.
  intros Hh Hc Hl Hm Ha t Ht. destruct (evictions_new w m gone evs Hm Ha) as [_ Hin].
  destruct (Hin t Ht) as (Hmt & Hw & _). destruct (Hm _ _ Hmt) as [_ Hq]. split; [by apply queued_rate|].
  destruct (held_takes _ _ _ _ _ _ Hh t Hq Hw) as (lane & Hadm & _). exists lane. rewrite <- Hc. split; [apply Hadm|].
  pose proof (adm_range _ _ _ _ _ _ Hadm) as Hlt. rewrite Hl in Hlt. by rewrite Hc.
Qed.

(** What holds after a pass: the candidate fits, if the pass found room. *)
Definition passed (v : Z) (w : QueuedTransaction -> bool) (o : option LaneConfig) (tx : QueuedTransaction) (replaced : option QueuedTransaction)
    (q : TransactionQueue) (p : gset (list Z) * list QueuedTransaction) (q' : TransactionQueue) (r : option (gset (list Z) * list QueuedTransaction)) : Prop :=
  quiet q q' /\ ready v q' /\
  match r with
  | None => True
  | Some p' => p.1 ⊆ p'.1 /\ pending_ok tx (by_hash (store q)) (option_hash replaced) p' /\
      forall c, o = Some c -> fits_with v w c tx (by_hash (store q)) (option_hash replaced ∪ p'.1)
  end.

Lemma passed_skip v w tx replaced q p : ready v q -> pending_ok tx (by_hash (store q)) (option_hash replaced) p ->
  passed v w None tx replaced q p q (Some p).
Proof. intros Hr Hp. split; [apply quiet_refl|]. by split. Qed.

(** The part of a pass after its queue is there: [record] takes over an answer. *)
Lemma pass_ok (v : Z) w (c : LaneConfig) (q : TransactionQueue) (stq : QueueStore) (queue : SurgePricingPriorityQueue) tx replaced p (record : list (QueuedTransaction * bool) -> TransactionQueue -> result (TransactionQueue * option (gset (list Z) * list QueuedTransaction)) Panic) :
  ready v q -> ensured v w c (store q) stq queue -> matching (put_store stq q) -> queued_ok tx -> w tx = true ->
  pending_ok tx (by_hash (store q)) (option_hash replaced) p -> replaced_ok tx (by_hash (store q)) replaced ->
  known w (by_hash (store q)) (option_hash replaced ∪ p.1) ->
  (forall evs, (forall t, t ∈ evs.*1 -> rate_ok (fee_rate t) /\ exists lane, config_lane c (q_envelope t) = Ok lane /\ (lane < length (config_limits c))%nat) ->
     NoDup (q_hash <$> evs.*1) -> (forall t, t ∈ evs.*1 -> q_hash t ∉ p.1) ->
     exists t, record evs (put_store stq q) = Ok (put_thresholds t (put_store stq q), Some (extend p evs.*1)) /\ thresholds_ok t) ->
  exists q' r, (let? evictions := evictions_for tx v replaced queue p (put_store stq q) in
      match evictions with None => Ok (put_store stq q, None) | Some evs => record evs (put_store stq q) end) = Ok (q', r) /\
    passed v w (Some c) tx replaced q p q' r.
Proof.
  intros Hready Hens Hmat Hq Hw Hp Hrep Hk Hrec. pose proof Hens as [Hok Htxs Hseed Hc Hl [n0 Hh]]. pose proof Hready as [Hok0 _ Hlim Hth Hcount].
  assert (quiet q (put_store stq q)) as Hquiet by by apply quiet_store.
  assert (ready v (put_store stq q)) as Hready' by (split; [done|done|by apply (quiet_limits q)|done|by rewrite (quiet_txs _ _ Hquiet)]).
  destruct (query_ok v w c q stq queue tx replaced p Hready Hens Hq Hw Hk Hrep) as (r & -> & Ha). simpl. destruct r as [evs|].
  2:{ exists (put_store stq q), None. by split. }
  destruct Ha as [n Ha]. pose proof (store_txs _ _ Hok0) as Hm.
  destruct (evictions_new w _ _ _ Hm (answer_part _ _ _ _ _ _ _ _ Ha)) as [Hnd Hin].
  destruct (Hrec evs) as (t & -> & Ht).
  - apply (answer_lanes n0 v w (eviction_seed (store q)) queue (by_hash (store q)) (option_hash replaced ∪ p.1) evs.*1 c Hh Hc Hl Hm). apply Ha.
  - done.
  - intros u Hu. destruct (Hin u Hu) as (_ & _ & Hno). set_solver.
  - eexists. eexists. split; [done|]. split; [apply (quiet_trans _ _ _ Hquiet), quiet_thresholds|]. split.
    { destruct Hready' as [? [] [] _ ?]. by split. }
    split; [simpl; set_solver|]. split; [by apply (pending_extend n v w queue)|].
    intros c' [= <-]. pose proof (answer_fits n n0 v w _ queue tx _ _ _ c Hm Hh Hc Hl Ha) as Hfit.
    intros gone' Hg. apply Hfit. simpl in Hg. set_solver.
Qed.

(** ** The three passes *)

Definition classic_config (q : TransactionQueue) : option LaneConfig :=
  match build_classic_lane_config (config q) with Ok o => o | Err _ => None end.

Lemma is_classic_iff tx : is_classic tx = negb (is_soroban tx).
Proof. done. Qed.

Lemma same_type_ok tx m replaced b : replaced_ok tx m replaced -> is_soroban tx = b -> same_type replaced b = true.
Proof.
  intros Hr Hb. unfold same_type. destruct replaced as [old|]; [|done]. destruct (Hr old eq_refl) as [_ Ht].
  unfold is_soroban in *. rewrite Ht, Hb. apply Bool.eqb_reflx.
Qed.

Lemma put_matching q stq : matching q ->
  (forall c, build_classic_lane_config (config q) = Ok (Some c) -> matches c (classic_eviction_queue stq)) ->
  (forall limit, effective_queue_soroban_resources q = Some limit -> matches (SorobanGenericLaneConfig_new limit) (soroban_eviction_queue stq)) ->
  (forall limit, effective_max_queue_ops q = Some limit -> matches (ops_config limit) (global_ops_queue stq)) ->
  free_queue (classic_eviction_queue stq) -> free_queue (global_ops_queue stq) -> matching (put_store stq q).
Proof. intros _ Hc Hs Hg Fc Fg. by split. Qed.

Lemma matches_some c queue : lane_config queue = c -> lane_limits queue = config_limits c -> matches c (Some queue).
Proof. intros Hc Hl q [= <-]. by split. Qed.

Lemma classic_pass_ok v q tx replaced : ready v q -> queued_ok tx -> replaced_ok tx (by_hash (store q)) replaced ->
  exists q' r, classic_pass tx (is_soroban tx) v replaced q (∅, []) = Ok (q', r) /\
    passed v is_classic (if is_soroban tx then None else classic_config q) tx replaced q (∅, []) q' r.
Proof.
  intros Hready Hq Hrep. pose proof (pending_nil tx (by_hash (store q)) (option_hash replaced)) as Hp.
  unfold classic_pass, classic_config. destruct (is_soroban tx) eqn:Es; [exists q, (Some (∅, [])); split; [done|]; by apply passed_skip|].
  rewrite (same_type_ok tx _ replaced false Hrep Es). simpl.
  destruct (classic_config_ok (config q) v (lim_config _ (ready_limits _ _ Hready))) as [->|(n & c & E & Hfit)]; simpl.
  { exists q, (Some (∅, [])). split; [done|]. by apply passed_skip. }
  rewrite E. simpl. pose proof Hready as [Hok Hmat _ Hth Hcount].
  destruct (ensure_classic_ok n v c (store q) Hok Hfit (match_classic _ Hmat c E) Hcount) as (stq & queue & -> & Hens & Hcl & Hso & Hgl). simpl.
  apply (pass_ok v is_classic c q stq queue tx replaced (∅, []) (fun evictions q0 =>
    let? (fees, p) := record_lane_evictions c (classic_lane_fees (eviction_thresholds q0)) evictions (∅, []) in
    Ok (put_thresholds (MkThresholds fees (soroban_lane_fees (eviction_thresholds q0)) (global_fees (eviction_thresholds q0))) q0, Some p))); try done.
  - apply put_matching; [done| | | | |]; rewrite ?Hso, ?Hgl; try apply Hmat; rewrite Hcl; [rewrite E; intros c' [= <-]; apply matches_some; apply Hens|].
    apply (free_some c); [apply Hens|by apply (classic_free (config q))].
  - unfold is_classic, is_soroban in *. by rewrite Es.
  - apply (known_of is_classic tx); [done|done| |].
    + intros old Ho. destruct (Hrep old Ho) as [_ Ht]. by rewrite is_classic_iff, Ht, Es.
    + intros t Ht. by apply elem_of_nil in Ht.
  - intros evs Hl Hnd Hnew. destruct (record_ok c evs (classic_lane_fees (eviction_thresholds q)) (∅, []) (th_classic _ Hth) Hl Hnd Hnew) as (fees & E' & Hf).
    simpl. rewrite E'. simpl. eexists. split; [done|]. split; [done|apply Hth|apply Hth].
Qed.

Lemma soroban_pass_ok v q tx replaced p : ready v q -> queued_ok tx -> replaced_ok tx (by_hash (store q)) replaced ->
  pending_ok tx (by_hash (store q)) (option_hash replaced) p -> (is_soroban tx = true -> p = (∅, [])) ->
  exists q' r, soroban_pass tx (is_soroban tx) v replaced q p = Ok (q', r) /\
    passed v is_soroban (if is_soroban tx then SorobanGenericLaneConfig_new <$> effective_queue_soroban_resources q else None) tx replaced q p q' r.
Proof.
  intros Hready Hq Hrep Hp Hemp. unfold soroban_pass. destruct (is_soroban tx) eqn:Es; simpl; [|exists q, (Some p); split; [done|]; by apply passed_skip].
  rewrite (Hemp eq_refl) in *. clear Hemp. rewrite (same_type_ok tx _ replaced true Hrep Es). simpl. pose proof Hready as [Hok Hmat Hlim Hth Hcount].
  pose proof (lim_soroban _ Hlim) as Hls. pose proof (match_soroban _ Hmat) as Hms.
  destruct (effective_queue_soroban_resources q) as [limit|] eqn:El; simpl; [|exists q, (Some (∅, [])); split; [done|]; by apply passed_skip].
  destruct (ensure_soroban_ok v limit (store q) Hok Hls (Hms limit eq_refl) Hcount) as (stq & queue & -> & Hens & Hso & Hcl & Hgl). simpl.
  apply (pass_ok v is_soroban (SorobanGenericLaneConfig_new limit) q stq queue tx replaced (∅, []) (fun evictions q0 =>
    let? (fees, p) := record_lane_evictions (SorobanGenericLaneConfig_new limit) (soroban_lane_fees (eviction_thresholds q0)) evictions (∅, []) in
    Ok (put_thresholds (MkThresholds (classic_lane_fees (eviction_thresholds q0)) fees (global_fees (eviction_thresholds q0))) q0, Some p))); try done.
  - apply put_matching; [done| | | | |]; rewrite ?Hcl, ?Hgl; try apply Hmat. rewrite Hso, El. intros c' [= <-]. apply matches_some; apply Hens.
  - apply (known_of is_soroban tx); [done|done| |].
    + intros old Ho. destruct (Hrep old Ho) as [_ Ht]. by rewrite Ht.
    + intros t Ht. by apply elem_of_nil in Ht.
  - intros evs Hl Hnd Hnew. destruct (record_ok _ evs (soroban_lane_fees (eviction_thresholds q)) (∅, []) (th_soroban _ Hth) Hl Hnd Hnew) as (fees & E' & Hf).
    simpl. rewrite E'. simpl. eexists. split; [done|]. split; [apply Hth|done|apply Hth].
Qed.

Lemma global_pass_ok v q tx replaced p : ready v q -> queued_ok tx -> replaced_ok tx (by_hash (store q)) replaced ->
  pending_ok tx (by_hash (store q)) (option_hash replaced) p ->
  exists q' r, global_pass tx v replaced q p = Ok (q', r) /\
    passed v every_tx (ops_config <$> effective_max_queue_ops q) tx replaced q p q' r.
Proof.
  intros Hready Hq Hrep Hp. unfold global_pass. pose proof Hready as [Hok Hmat Hlim Hth Hcount].
  pose proof (lim_ops _ Hlim) as Hls. pose proof (match_global _ Hmat) as Hms.
  destruct (effective_max_queue_ops q) as [limit|] eqn:El; simpl; [|exists q, (Some p); split; [done|]; by apply passed_skip].
  destruct (ensure_global_ok v limit (store q) Hok Hls (Hms limit eq_refl) Hcount) as (stq & queue & -> & Hens & Hgl & Hcl & Hso). simpl.
  apply (pass_ok v every_tx (ops_config limit) q stq queue tx replaced p (fun evictions q0 =>
    let '(fee, p) := foldl record_global_eviction (global_fees (eviction_thresholds q0), p) evictions in
    Ok (put_thresholds (MkThresholds (classic_lane_fees (eviction_thresholds q0)) (soroban_lane_fees (eviction_thresholds q0)) fee) q0, Some p))); try done.
  - apply put_matching; [done| | | | |]; rewrite ?Hcl, ?Hso; try apply Hmat; rewrite Hgl; [rewrite El; intros c' [= <-]; apply matches_some; apply Hens|].
    apply (free_some (ops_config limit)); [apply Hens|done].
  - by apply (known_of every_tx tx).
  - intros evs Hl Hnd Hnew. destruct (record_global_ok evs (global_fees (eviction_thresholds q)) p (th_global _ Hth)) as (fee & E' & Hf); [by intros t Ht; apply Hl|done|done|].
    simpl. rewrite E'. eexists. split; [done|]. split; [apply Hth|apply Hth|done].
Qed.
End passes.

(** ** the evictions a newcomer needs

    The checks against cached fees and the passes over the eviction queues end without
    a panic; what they collect may go, and leaves room within every limit in force. *)

Section collect.
Context `{EnvelopeXdr} `{HashIteration}.
Implicit Types m : gmap (list Z) QueuedTransaction.
Implicit Types replaced : option QueuedTransaction.
Implicit Types w : QueuedTransaction -> bool.
Implicit Types tx : QueuedTransaction.
Implicit Types q : TransactionQueue.
Implicit Types v : Z.

(** ** The cached fees *)

Lemma ready_put v q t : ready v q -> thresholds_ok t -> ready v (put_thresholds t q).
Proof. intros [Hs [Mc Ms Mg Mf Mh] [Lc Ls Lo] _ Hn] Ht. by split. Qed.

Lemma known_lane n v w c tx : config_fits n v w c -> queued_ok tx -> w tx = true ->
  exists lane, config_lane c (q_envelope tx) = Ok lane /\ (lane < length (config_limits c))%nat.
Proof. intros Hf Hq Hw. destruct (fits_takes _ _ _ _ Hf tx Hq Hw) as (lane & Ha & _). exists lane. split; [by apply (adm_lane n v c (length (config_limits c)))|by apply (adm_range n v c _ tx)]. Qed.

Lemma classic_threshold_ok v q tx : ready v q -> queued_ok tx ->
  exists q' b, classic_threshold tx (is_soroban tx) q = Ok (q', b) /\ quiet q q' /\ ready v q'.
Proof.
  intros Hready Hq. unfold classic_threshold. destruct (is_soroban tx) eqn:Es; [exists q, false; split; [done|]; split; [apply quiet_refl|done]|].
  pose proof Hready as [_ _ Hlim Hth _]. destruct (classic_config_ok (config q) v (lim_config _ Hlim)) as [->|(n & c & -> & Hfit)]; simpl.
  { exists q, false. split; [done|]. split; [apply quiet_refl|done]. }
  destruct (known_lane n v is_classic c tx Hfit Hq) as (lane & Hl & Hlane); [by rewrite is_classic_iff, Es|].
  destruct (below_ok c _ (global_fees (eviction_thresholds q)) (effective_max_queue_ops q) tx lane (th_classic _ Hth) (th_global _ Hth) Hq Hl Hlane) as (fees & b & -> & Hf).
  simpl. eexists. eexists. split; [done|]. split; [apply quiet_thresholds|]. apply ready_put; [done|]. split; [done|apply Hth|apply Hth].
Qed.

Lemma soroban_threshold_ok v q tx : ready v q -> queued_ok tx ->
  exists q' b, soroban_threshold tx (is_soroban tx) q = Ok (q', b) /\ quiet q q' /\ ready v q'.
Proof.
  intros Hready Hq. unfold soroban_threshold. destruct (is_soroban tx) eqn:Es; simpl; [|exists q, false; split; [done|]; split; [apply quiet_refl|done]].
  pose proof Hready as [_ _ _ Hth _]. destruct (effective_queue_soroban_resources q) as [limit|]; [|exists q, false; split; [done|]; split; [apply quiet_refl|done]].
  destruct (below_ok (SorobanGenericLaneConfig_new limit) _ (global_fees (eviction_thresholds q)) (effective_max_queue_ops q) tx GENERIC_LANE (th_soroban _ Hth) (th_global _ Hth) Hq)
    as (fees & b & -> & Hf); [unfold is_soroban in Es; simpl; by rewrite Es|unfold GENERIC_LANE; simpl; lia|].
  simpl. eexists. eexists. split; [done|]. split; [apply quiet_thresholds|]. apply ready_put; [done|]. split; [apply Hth|done|apply Hth].
Qed.

Lemma global_threshold_ok v q tx : ready v q -> queued_ok tx -> exists b, global_threshold tx q = Ok b.
Proof.
  intros Hready Hq. unfold global_threshold. destruct (effective_max_queue_ops q); [|by eexists].
  destruct (min_fee_ok (global_fees (eviction_thresholds q)) (fee_rate tx)) as [n ->]; [apply (ready_thresholds _ _ Hready)|by apply queued_rate|].
  simpl. by eexists.
Qed.

(** ** The collection *)

(** What goes for the candidate: the replaced transaction and the evicted ones. *)
Definition gone_of replaced (evs : list QueuedTransaction) : gset (list Z) := option_hash replaced ∪ list_to_set (q_hash <$> evs).

Record collected (v : Z) (q : TransactionQueue) tx replaced (evs : list QueuedTransaction) : Prop := {
  col_pending : pending_ok tx (by_hash (store q)) (option_hash replaced) (list_to_set (q_hash <$> evs), evs);
  col_classic : forall c, is_soroban tx = false -> classic_config q = Some c -> fits_with v is_classic c tx (by_hash (store q)) (gone_of replaced evs);
  col_soroban : forall limit, is_soroban tx = true -> effective_queue_soroban_resources q = Some limit ->
    fits_with v is_soroban (SorobanGenericLaneConfig_new limit) tx (by_hash (store q)) (gone_of replaced evs);
  col_ops : forall limit, effective_max_queue_ops q = Some limit -> fits_with v every_tx (ops_config limit) tx (by_hash (store q)) (gone_of replaced evs)
}.

Lemma fits_more v w c tx m gone gone' : gone ⊆ gone' -> fits_with v w c tx m gone -> fits_with v w c tx m gone'.
Proof. intros Hg Hf g Hg'. apply Hf. set_solver. Qed.

Lemma collected_intro v q tx replaced (p : gset (list Z) * list QueuedTransaction) : pending_ok tx (by_hash (store q)) (option_hash replaced) p ->
  (forall c, is_soroban tx = false -> classic_config q = Some c -> fits_with v is_classic c tx (by_hash (store q)) (option_hash replaced ∪ p.1)) ->
  (forall limit, is_soroban tx = true -> effective_queue_soroban_resources q = Some limit ->
    fits_with v is_soroban (SorobanGenericLaneConfig_new limit) tx (by_hash (store q)) (option_hash replaced ∪ p.1)) ->
  (forall limit, effective_max_queue_ops q = Some limit -> fits_with v every_tx (ops_config limit) tx (by_hash (store q)) (option_hash replaced ∪ p.1)) ->
  collected v q tx replaced p.2.
Proof.
  intros Hp. pose proof (pend_hashes _ _ _ _ Hp) as E. destruct p as [hs l]. simpl in *. subst hs. intros. by split.
Qed.

Lemma passes_ok v q tx replaced : ready v q -> queued_ok tx -> replaced_ok tx (by_hash (store q)) replaced ->
  exists q' r, then_pass (then_pass (classic_pass tx (is_soroban tx) v replaced q (∅, [])) (soroban_pass tx (is_soroban tx) v replaced)) (global_pass tx v replaced) = Ok (q', r) /\
    quiet q q' /\ ready v q' /\ match r with Some p => collected v q tx replaced p.2 | None => True end.
Proof.
  intros Hready Hq Hrep. destruct (classic_pass_ok v q tx replaced Hready Hq Hrep) as (q1 & r1 & E1 & Q1 & R1 & P1). rewrite E1. unfold then_pass at 2. simpl.
  destruct r1 as [p1|]; [|exists q1, None; by split]. destruct P1 as (_ & Hp1 & F1).
  pose proof (quiet_txs _ _ Q1) as T1.
  assert (is_soroban tx = true -> p1 = (∅, [])) as Hemp by (intros Es; rewrite Es in E1; by injection E1 as _ <-).
  destruct (soroban_pass_ok v q1 tx replaced p1 R1 Hq) as (q2 & r2 & -> & Q2 & R2 & P2); [by rewrite T1|by rewrite T1|done|]. unfold then_pass. simpl.
  pose proof (quiet_trans _ _ _ Q1 Q2) as Q12. destruct r2 as [p2|]; [|exists q2, None; by split]. rewrite T1 in P2. destruct P2 as (S2 & Hp2 & F2).
  pose proof (quiet_txs _ _ Q12) as T2.
  destruct (global_pass_ok v q2 tx replaced p2 R2 Hq) as (q3 & r3 & -> & Q3 & R3 & P3); [by rewrite T2|by rewrite T2|].
  pose proof (quiet_trans _ _ _ Q12 Q3) as Q13. exists q3, r3. split; [done|]. split; [done|]. split; [done|]. destruct r3 as [p3|]; [|done].
  rewrite T2 in P3. destruct P3 as (S3 & Hp3 & F3). apply collected_intro; [done| | |].
  - intros c Es Hc. rewrite Es, Hc in F1. apply (fits_more v is_classic c tx _ (option_hash replaced ∪ p1.1)); [set_solver|]. by apply F1.
  - intros limit Es Hl. rewrite Es in F2. apply (fits_more v is_soroban _ tx _ (option_hash replaced ∪ p2.1)); [set_solver|]. apply F2.
    destruct Q1 as [-> _]. change (effective_queue_soroban_resources _) with (effective_queue_soroban_resources q). by rewrite Hl.
  - intros limit Hl. apply F3. destruct Q12 as [-> _]. change (effective_max_queue_ops _) with (effective_max_queue_ops q). by rewrite Hl.
Qed.

Lemma collected_quiet v q q' tx replaced evs : quiet q q' -> collected v q' tx replaced evs -> collected v q tx replaced evs.
Proof. intros [E T] [Hp Hc Hs Ho]. rewrite T in *. rewrite E in Hc, Hs, Ho. by split. Qed.

Lemma collect_ok v q tx replaced : ready v q -> queued_ok tx -> replaced_ok tx (by_hash (store q)) replaced ->
  exists q' r, check_and_collect_evictions tx (is_soroban tx) v replaced q = Ok (q', r) /\ quiet q q' /\ ready v q' /\
    match r with Ok evs => collected v q tx replaced evs | Err e => e <> Added end.
Proof.
  intros Hready Hq Hrep. unfold check_and_collect_evictions.
  destruct (classic_threshold_ok v q tx Hready Hq) as (q1 & b1 & -> & Q1 & R1). simpl. destruct b1; [exists q1, (Err FeeTooLow); split; [done|]; split; [done|]; by split|].
  destruct (soroban_threshold_ok v q1 tx R1 Hq) as (q2 & b2 & -> & Q2 & R2). simpl. pose proof (quiet_trans _ _ _ Q1 Q2) as Q12.
  destruct b2; [exists q2, (Err FeeTooLow); split; [done|]; split; [done|]; by split|].
  destruct (global_threshold_ok v q2 tx R2 Hq) as (b3 & ->). simpl. destruct b3; [exists q2, (Err FeeTooLow); split; [done|]; split; [done|]; by split|].
  destruct (passes_ok v q2 tx replaced R2 Hq) as (q3 & r & -> & Q3 & R3 & Hr); [by rewrite (quiet_txs _ _ Q12)|]. simpl.
  eexists. eexists. split; [done|]. split; [by apply (quiet_trans _ q2)|]. split; [done|]. destruct r as [p|]; [|done].
  by apply (collected_quiet v q q2).
Qed.

(** ** Counting *)

Lemma len_le_zsum {A} (f : A -> Z) l : (forall x, x ∈ l -> 1 <= f x) -> len l <= zsum f l.
Proof.
  induction l as [|x l IH]; intros Hf; [done|]. rewrite len_cons. simpl. specialize (IH (fun y Hy => Hf y (proj2 (elem_of_cons _ _ _) (or_intror Hy)))).
  specialize (Hf x (proj2 (elem_of_cons _ _ _) (or_introl eq_refl))). lia.
Qed.

Lemma use_ops v limit tx i : queued_ok tx -> use (ops_config limit) v i tx = if decide (i = 0%nat) then envelope_operation_count (q_envelope tx) else 0.
Proof.
  intros [He _]. pose proof (env_ops _ He). unfold use. simpl. unfold dim. destruct i; simpl; [|done].
  rewrite Z.min_r; [done|]. unfold u32_max, i64_max in *. lia.
Qed.

Lemma ops_fit v q tx replaced evs limit : txs_ok (by_hash (store q)) -> collected v q tx replaced evs -> effective_max_queue_ops q = Some limit -> queued_ok tx ->
  zsum (fun t => envelope_operation_count (q_envelope t)) (others every_tx (by_hash (store q)) (gone_of replaced evs)) + envelope_operation_count (q_envelope tx) <= limit.
Proof.
  intros Hm Hc Hl Hq. pose proof (col_ops _ _ _ _ _ Hc limit Hl (gone_of replaced evs)) as Hb.
  pose proof (beside_total _ _ _ _ (Hb ltac:(done)) (MkResource [limit]) 0%nat eq_refl) as Ht. rewrite use_ops in Ht by done. simpl in Ht.
  rewrite (zsum_ext_in _ (fun t => envelope_operation_count (q_envelope t))) in Ht; [exact Ht|]. intros t Hin. rewrite use_ops; [done|].
  apply elem_of_others in Hin as [Hin _]. apply elem_of_picked in Hin as [Hin _]. apply elem_of_vals in Hin as [h Hh]. by apply (Hm h).
Qed.

Definition option_len {A} (o : option A) : Z := match o with Some _ => 1 | None => 0 end.

(** Every transaction stays, is evicted or is replaced. *)
Lemma count_gone m tx replaced evs : txs_ok m -> pending_ok tx m (option_hash replaced) (list_to_set (q_hash <$> evs), evs) ->
  (forall old, replaced = Some old -> m !! q_hash old = Some old) ->
  Z.of_nat (size m) = len (others every_tx m (gone_of replaced evs)) + len evs + option_len replaced.
Proof.
  intros Hm Hp Hr.
  assert (vals m ≡ₚ option_list replaced ++ others every_tx m (option_hash replaced)) as E1.
  { assert (picked every_tx m = vals m) as <- by (apply filter_all; done). rewrite <- others_nil. destruct replaced as [old|]; [|done].
    rewrite (others_split every_tx m ∅ [old] Hm) at 1.
    - simpl. by rewrite !(right_id_L ∅ (∪)).
    - rewrite others_nil. apply singleton_submseteq_l, elem_of_picked. split; [|done]. apply (elem_of_vals_at m old Hm). by apply Hr. }
  assert (others every_tx m (option_hash replaced) ≡ₚ evs ++ others every_tx m (gone_of replaced evs)) as E2.
  { unfold gone_of. rewrite (comm_L (∪)). apply others_split; [done|]. apply NoDup_submseteq; [by apply (NoDup_fmap_1 q_hash), (pend_nodup _ _ _ _ Hp)|].
    intros t Ht. destruct (pend_in _ _ _ _ Hp t Ht) as (Hmt & Hno & _). apply elem_of_others. split; [|done]. apply elem_of_picked. split; [|done]. by apply (elem_of_vals_at m t Hm). }
  rewrite <- len_vals, (len_perm _ _ E1), len_app, (len_perm _ _ E2), len_app. destruct replaced; simpl; unfold len; simpl; lia.
Qed.

(** With the limit of operations in force, a place is free for the candidate. *)
Lemma capacity_free v q tx replaced evs limit : txs_ok (by_hash (store q)) -> collected v q tx replaced evs -> effective_max_queue_ops q = Some limit ->
  queued_ok tx -> (forall old, replaced = Some old -> by_hash (store q) !! q_hash old = Some old) -> (is_Some replaced -> is_fee_bump_envelope (q_envelope tx) = true) ->
  Z.of_nat (size (by_hash (store q))) - len evs < limit.
Proof.
  intros Hm Hc Hl Hq Hr Hbump. pose proof (ops_fit v q tx replaced evs limit Hm Hc Hl Hq) as Hops. rewrite (count_gone _ tx replaced evs Hm (col_pending _ _ _ _ _ Hc) Hr).
  assert (len (others every_tx (by_hash (store q)) (gone_of replaced evs)) <=
          zsum (fun t => envelope_operation_count (q_envelope t)) (others every_tx (by_hash (store q)) (gone_of replaced evs))) as Hlen.
  { apply len_le_zsum. intros t Hin. apply elem_of_others in Hin as [Hin _]. apply elem_of_picked in Hin as [Hin _].
    apply elem_of_vals in Hin as [h Hh]. destruct (Hm h t Hh) as [_ [He _]]. pose proof (env_ops _ He). lia. }
  destruct Hq as [He _]. pose proof (env_ops _ He). pose proof (env_bump _ He) as Hb. destruct replaced as [old|]; simpl.
  - specialize (Hb (Hbump ltac:(by eexists))). lia.
  - lia.
Qed.
End collect.
