(* ===== verification/TxQueueAdmission.v ===== *)
(** * TxQueueAdmission: transactions leave the queue

    However transactions are removed, the store is that of the rest, the accounts owe
    and count for the rest, and the age of an account whose transaction stays is kept.
    Then a transaction enters: one per account, affordable, replacing the one before. *)


From S2P Require Import Prelude Bucket Ledger Lists Resource Envelope SurgePricing SurgePricingFacts SurgePricingEvict TxQueueStore TxQueue TxQueueHeld TxQueueStoreFacts TxQueueFits TxQueueAccounts TxQueuePasses.

Section removal.
Context `{EnvelopeXdr} `{HashIteration}.
Implicit Types m : gmap (list Z) QueuedTransaction.
Implicit Types st : gmap Uint256 AccountState.
Implicit Types tx : QueuedTransaction.
Implicit Types hs : list (list Z).

Notation payer tx := (fee_source_key (q_envelope tx)).
Notation source tx := (account_key (q_envelope tx)).

(** ** The transactions that stay *)

Definition without m hs : gmap (list Z) QueuedTransaction := foldl (fun m h => delete h m) m hs.

Lemma lookup_without m hs h : without m hs !! h = if bool_decide (h ∈ hs) then None else m !! h.
Proof.
  revert m. induction hs as [|x hs IH]; intros m; simpl; [done|]. rewrite IH. case_bool_decide as E.
  - by rewrite bool_decide_true by (by right).
  - case_bool_decide as E2; [|by rewrite lookup_delete_ne by (intros ->; apply E2; left)].
    apply elem_of_cons in E2 as [->|]; [by rewrite lookup_delete_eq|done].
Qed.

Lemma without_txs_ok m hs : txs_ok m -> txs_ok (without m hs).
Proof. intros Hm h tx Hh. rewrite lookup_without in Hh. case_bool_decide; [done|]. by apply Hm. Qed.

Lemma without_fees_ok m hs : fees_ok m -> fees_ok (without m hs).
Proof. revert m. induction hs as [|h hs IH]; intros m Hf; [done|]. simpl. apply IH, fees_ok_delete, Hf. Qed.

Lemma owed_delete m h k : fees_ok m -> zsum (owed k) (vals (delete h m)) <= zsum (owed k) (vals m).
Proof.
  intros Hf. destruct (m !! h) as [tx|] eqn:Eh; [|by rewrite delete_id]. rewrite (vals_delete m h tx Eh). simpl.
  assert (0 <= owed k tx); [|lia]. apply (owed_nonneg m); [done|]. apply elem_of_vals. by exists h.
Qed.

Lemma owed_without m hs k : fees_ok m -> zsum (owed k) (vals (without m hs)) <= zsum (owed k) (vals m).
Proof.
  revert m. induction hs as [|h hs IH]; intros m Hf; [done|]. simpl. pose proof (owed_delete m h k Hf). specialize (IH _ (fees_ok_delete m h Hf)). unfold without in *. lia.
Qed.

Lemma size_without m hs : (size (without m hs) <= size m)%nat.
Proof.
  revert m. induction hs as [|h hs IH]; intros m; [done|]. simpl. etrans; [apply IH|]. apply map_subseteq_size, delete_subseteq.
Qed.

(** ** Accounts whose transaction stays *)

Definition untouched tx st st' : Prop :=
  transaction (state_of st (source tx)) = Some tx ->
  transaction (state_of st' (source tx)) = Some tx /\ age (state_of st' (source tx)) = age (state_of st (source tx)).

Lemma untouched_refl tx st : untouched tx st st.
Proof. by intros Ht. Qed.

Lemma untouched_trans tx st st' st'' : untouched tx st st' -> untouched tx st' st'' -> untouched tx st st''.
Proof. intros U1 U2 Ht. destruct (U1 Ht) as [Ht' E]. destruct (U2 Ht') as [Ht2 E2]. split; [done|congruence]. Qed.

Lemma untouched_release tx fee b k st : untouched tx st (alter (release_fee fee b) k st).
Proof. intros Ht. rewrite state_of_alter. case_bool_decide as E; [|done]. destruct E as [<- _]. unfold release_fee, count_down. by destruct b. Qed.

Lemma untouched_remove tx k st : untouched tx st (remove_if_empty k st).
Proof.
  intros Ht. unfold remove_if_empty. destruct (st !! k) as [s|] eqn:E; [|done]. destruct (TxQueue.is_empty s) eqn:Ee; [|done].
  rewrite state_of_delete, bool_decide_false; [done|]. intros <-. unfold state_of in Ht. rewrite E in Ht. simpl in Ht.
  unfold TxQueue.is_empty in Ee. by rewrite Ht in Ee.
Qed.

Lemma untouched_clear tx k st : source tx <> k -> untouched tx st (alter clear_pending k st).
Proof. intros Hne Ht. rewrite state_of_alter, bool_decide_false by (intros [? _]; done). done. Qed.

Lemma untouched_delete tx k st : transaction (state_of st k) <> Some tx -> untouched tx st (delete k st).
Proof. intros Hne Ht. rewrite state_of_delete, bool_decide_false; [done|]. by intros <-. Qed.

Lemma untouched_drop tx old st : q_hash tx <> q_hash old -> untouched tx st (drop_transaction old st).
Proof.
  intros Hne. unfold drop_transaction.
  set (st1 := alter (fun s => if bool_decide (q_hash <$> transaction s = Some (q_hash old)) then clear_pending s else s) (source old) st).
  assert (untouched tx st st1) as Hst1.
  { intros Ht. unfold st1. rewrite state_of_alter. case_bool_decide as E; [|done]. destruct E as [<- _]. rewrite Ht. simpl.
    rewrite bool_decide_false by congruence. by rewrite Ht. }
  set (st2 := alter (release_fee (as_i64 (total_fee old)) (is_soroban_envelope (q_envelope old))) (payer old) st1).
  assert (untouched tx st st2) as Hst2 by (apply (untouched_trans _ _ st1); [done|apply untouched_release]).
  assert (untouched tx st (remove_if_empty (source old) st2)) as Hst3 by (apply (untouched_trans _ _ st2); [done|apply untouched_remove]).
  case_bool_decide; [done|]. apply (untouched_trans _ _ _ _ Hst3), untouched_remove.
Qed.

(** ** Ages *)

(** Only an account with a pending transaction ages, and less than to the depth [d]. *)
Definition ages_ok (d : Z) st : Prop := forall k, 0 <= age (state_of st k) < Z.max 1 d /\ (transaction (state_of st k) = None -> age (state_of st k) = 0).
Definition keeps_ages st st' : Prop := forall d, ages_ok d st -> ages_ok d st'.

Lemma keeps_refl st : keeps_ages st st.
Proof. by intros d. Qed.

Lemma keeps_trans st st' st'' : keeps_ages st st' -> keeps_ages st' st'' -> keeps_ages st st''.
Proof. intros K1 K2 d Hd. by apply K2, K1. Qed.

Lemma keeps_alter f k st : (forall s, age (f s) = 0 \/ (age (f s) = age s /\ (transaction (f s) = None -> transaction s = None))) -> keeps_ages st (alter f k st).
Proof.
  intros Hf d Hd j. rewrite state_of_alter. case_bool_decide as E; [|apply Hd]. destruct E as [-> _]. destruct (Hd k) as [Hr Hn].
  destruct (Hf (state_of st k)) as [-> | [-> Ht]]; [split; [lia|done]|]. split; [done|]. intros E. by apply Hn, Ht.
Qed.

Lemma keeps_entry f k st : (forall s, age (f s) = age s /\ (transaction (f s) = None -> transaction s = None)) -> keeps_ages st (entry_or_default k f st).
Proof.
  intros Hf d Hd j. rewrite state_of_entry. case_bool_decide as E; [|apply Hd]. destruct (Hd k) as [Hr Hn]. destruct (Hf (state_of st k)) as [-> Ht].
  split; [done|]. intros E'. by apply Hn, Ht.
Qed.

Lemma keeps_delete k st : keeps_ages st (delete k st).
Proof. intros d Hd j. rewrite state_of_delete. case_bool_decide; [split; [simpl; lia|done]|apply Hd]. Qed.

Lemma keeps_remove k st : keeps_ages st (remove_if_empty k st).
Proof. unfold remove_if_empty. destruct (st !! k) as [s|]; [|apply keeps_refl]. destruct (TxQueue.is_empty s); [apply keeps_delete|apply keeps_refl]. Qed.

Lemma keeps_release fee b k st : keeps_ages st (alter (release_fee fee b) k st).
Proof. apply keeps_alter. intros s. right. unfold release_fee, count_down. by destruct b. Qed.

Lemma keeps_clear k st : keeps_ages st (alter clear_pending k st).
Proof. apply keeps_alter. intros s. by left. Qed.

Lemma keeps_drop old st : keeps_ages st (drop_transaction old st).
Proof.
  unfold drop_transaction.
  assert (keeps_ages st (alter (fun s => if bool_decide (q_hash <$> transaction s = Some (q_hash old)) then clear_pending s else s) (source old) st)) as K1.
  { apply keeps_alter. intros s. case_bool_decide; [by left|by right]. }
  assert (keeps_ages st (alter (release_fee (as_i64 (total_fee old)) (is_soroban_envelope (q_envelope old))) (payer old)
    (alter (fun s => if bool_decide (q_hash <$> transaction s = Some (q_hash old)) then clear_pending s else s) (source old) st))) as K2.
  { eapply keeps_trans; [exact K1|apply keeps_release]. }
  case_bool_decide; repeat (eapply keeps_trans; [|apply keeps_remove]); done.
Qed.

(** ** What a removal makes sure of *)

Record shrunk (v : Z) (s : QueueStore) st (s' : QueueStore) (st' : gmap Uint256 AccountState) hs : Prop := {
  shr_store : store_ok v s';
  shr_txs : by_hash s' = without (by_hash s) hs;
  shr_accounts : accounts_ok (by_hash s') st';
  shr_fees : fees_ok (by_hash s');
  shr_queues : same_queues s s';
  shr_seed : eviction_seed s' = eviction_seed s;
  shr_untouched : forall t, q_hash t ∉ hs -> untouched t st st';
  shr_ages : keeps_ages st st'
}.

(** Where a removal starts. *)
Record sound (v : Z) (s : QueueStore) st : Prop := {
  snd_store : store_ok v s;
  snd_accounts : accounts_ok (by_hash s) st;
  snd_fees : fees_ok (by_hash s)
}.

Lemma shrunk_sound v s st s' st' hs : shrunk v s st s' st' hs -> sound v s' st'.
Proof. by intros []. Qed.

Lemma shrunk_nil v s st : sound v s st -> shrunk v s st s st [].
Proof. intros []. split; try done; [apply same_queues_refl|apply keeps_refl]. Qed.

Lemma shrunk_trans v s st s1 st1 s2 st2 hs hs' : shrunk v s st s1 st1 hs -> shrunk v s1 st1 s2 st2 hs' -> shrunk v s st s2 st2 (hs ++ hs').
Proof.
  intros [A1 A2 A3 A4 A5 A6 A7 A8] [B1 B2 B3 B4 B5 B6 B7 B8]. split; try done.
  - rewrite B2, A2. unfold without. by rewrite foldl_app.
  - by apply (same_queues_trans _ s1).
  - congruence.
  - intros t [Hn1 Hn2]%not_elem_of_app. apply (untouched_trans _ _ st1); [by apply A7|by apply B7].
  - by apply (keeps_trans _ st1).
Qed.

Lemma remove_hash_ok v s st b h : sound v s st -> exists s' st' b', remove_hash v (s, st, b) h = Ok (s', st', b') /\ shrunk v s st s' st' [h] /\
  (b' = false -> b = false /\ by_hash s !! h = None).
Proof.
  intros [Hs Ha Hf]. unfold remove_hash. destruct (store_remove_ok v s h Hs) as (s' & -> & Hs' & Et & Es & Hq). simpl.
  pose proof (store_txs _ _ Hs) as Hm. destruct (by_hash s !! h) as [tx|] eqn:Eh.
  - exists s', (drop_transaction tx st), true. split; [done|]. split; [|done]. split; try done.
    + rewrite Et. by apply (drop_transaction_ok (by_hash s)).
    + rewrite Et. by apply fees_ok_delete.
    + intros t Ht. apply untouched_drop. destruct (Hm h tx Eh) as [-> _]. intros E. apply Ht. rewrite E. left.
    + apply keeps_drop.
  - exists s', st, b. split; [done|]. split; [|by intros ->]. assert (delete h (by_hash s) = by_hash s) as Ed by by apply delete_id. rewrite Ed in Et.
    split; rewrite ?Et; try done. apply keeps_refl.
Qed.

Lemma remove_hash_list_ok v hs : forall s st b, sound v s st ->
  exists s' st' b', try_fold (remove_hash v) hs (s, st, b) = Ok (s', st', b') /\ shrunk v s st s' st' hs.
Proof.
  induction hs as [|h hs IH]; intros s st b Hok; [exists s, st, b; split; [done|by apply shrunk_nil]|]. cbn [try_fold].
  destruct (remove_hash_ok v s st b h Hok) as (s1 & st1 & b1 & -> & H1' & _). simpl.
  destruct (IH s1 st1 b1 (shrunk_sound _ _ _ _ _ _ H1')) as (s2 & st2 & b2 & -> & H2'). exists s2, st2, b2. split; [done|].
  by apply (shrunk_trans v s st s1 st1 s2 st2 [h] hs).
Qed.

(** Evictions that are carried out: the store first, then the accounts. *)
Lemma store_remove_all_ok v evs : forall s, store_ok v s ->
  exists s', try_fold (fun s0 tx => let? (s1, _) := store_remove (q_hash tx) v s0 in Ok s1) evs s = Ok s' /\ store_ok v s' /\
    by_hash s' = without (by_hash s) (q_hash <$> evs) /\ same_queues s s' /\ eviction_seed s' = eviction_seed s.
Proof.
  induction evs as [|tx evs IH]; intros s Hok; [exists s; split; [done|]; split; [done|]; split; [done|]; split; [apply same_queues_refl|done]|].
  simpl. destruct (store_remove_ok v s (q_hash tx) Hok) as (s1 & -> & Hok1 & Et & Es & Hq). simpl.
  destruct (IH s1 Hok1) as (s' & -> & Hok' & Et' & Hq' & Es'). exists s'. split; [done|]. split; [done|]. split; [by rewrite Et', Et|].
  split; [by apply (same_queues_trans _ s1)|congruence].
Qed.

Lemma drop_all_ok evs : forall m st, txs_ok m -> accounts_ok m st -> fees_ok m -> NoDup (q_hash <$> evs) -> (forall t, t ∈ evs -> m !! q_hash t = Some t) ->
  let st' := foldl (fun states tx => drop_transaction tx states) st evs in
  accounts_ok (without m (q_hash <$> evs)) st' /\ (forall t, q_hash t ∉ q_hash <$> evs -> untouched t st st') /\ keeps_ages st st'.
Proof.
  induction evs as [|tx evs IH]; intros m st Hm Ha Hf Hnd Hin; simpl; [split; [done|]; split; [intros t _; apply untouched_refl|apply keeps_refl]|].
  csimpl in Hnd. apply NoDup_cons in Hnd as [Hno Hnd]. pose proof (Hin tx ltac:(left)) as Htx.
  destruct (IH (delete (q_hash tx) m) (drop_transaction tx st)) as (Ha' & Hu' & Hk').
  - by apply txs_ok_delete.
  - by apply (drop_transaction_ok m).
  - by apply fees_ok_delete.
  - done.
  - intros t Ht. rewrite lookup_delete_ne; [apply Hin; by right|]. intros E. apply Hno. rewrite E. by apply list_elem_of_fmap_2.
  - split; [done|]. split; [|by apply (keeps_trans _ _ _ (keeps_drop tx st))]. intros t [Hne Ht]%not_elem_of_cons. apply (untouched_trans _ _ (drop_transaction tx st)); [by apply untouched_drop|by apply Hu'].
Qed.

Lemma evicted_ok v s st evs : sound v s st -> NoDup (q_hash <$> evs) -> (forall t, t ∈ evs -> by_hash s !! q_hash t = Some t) ->
  exists s', try_fold (fun s0 tx => let? (s1, _) := store_remove (q_hash tx) v s0 in Ok s1) evs s = Ok s' /\
    shrunk v s st s' (foldl (fun states tx => drop_transaction tx states) st evs) (q_hash <$> evs).
Proof.
  intros [Hs Ha Hf] Hnd Hin. destruct (store_remove_all_ok v evs s Hs) as (s' & -> & Hs' & Et & Hq & Es). exists s'. split; [done|].
  destruct (drop_all_ok evs (by_hash s) st (store_txs _ _ Hs) Ha Hf Hnd Hin) as (Ha' & Hu & Hk). split; try done; rewrite Et; [done|by apply without_fees_ok].
Qed.
End removal.

(** ** a transaction enters the queue

    The steps of an admission one by one: the limit of one pending transaction per
    account, the balance of the account that pays, and the replacement and insertion. *)

Section admission.
Context `{EnvelopeXdr} `{HashIteration}.
Implicit Types m : gmap (list Z) QueuedTransaction.
Implicit Types st : gmap Uint256 AccountState.
Implicit Types tx old : QueuedTransaction.
Implicit Types q : TransactionQueue.
Implicit Types v : Z.
Implicit Types replaced : option QueuedTransaction.

Notation payer tx := (fee_source_key (q_envelope tx)).
Notation source tx := (account_key (q_envelope tx)).

Lemma without_ext m hs hs' : (forall h, h ∈ hs <-> h ∈ hs') -> without m hs = without m hs'.
Proof. intros E. apply map_eq. intros h. rewrite !lookup_without. by rewrite (bool_decide_ext _ _ (E h)). Qed.

(** ** One pending transaction per account *)

(** What may be replaced, and that nothing else of the account is pending. *)
Definition replaceable m tx replaced : Prop :=
  match replaced with
  | Some old => m !! q_hash old = Some old /\ source old = source tx /\ is_soroban old = is_soroban tx /\
      is_fee_bump_envelope (q_envelope tx) = true /\ can_replace_by_fee (fee_rate tx) (fee_rate old) = Ok tt /\
      envelope_sequence_number (q_envelope old) = envelope_sequence_number (q_envelope tx)
  | None => forall t, t ∈ vals m -> source t <> source tx
  end.

Definition account_limit_of tx st : result (option QueuedTransaction) TxQueueResult :=
  check_account_limit tx (source tx) (envelope_sequence_number (q_envelope tx)) (is_fee_bump_envelope (q_envelope tx)) (is_soroban tx) st.

Lemma account_limit_ok m st tx : txs_ok m -> accounts_ok m st ->
  match account_limit_of tx st with Ok replaced => replaceable m tx replaced | Err e => e <> Added end.
Proof.
  intros Hm Ha. pose proof (acc_pending _ _ _ (Ha (source tx))) as Hp. unfold account_limit_of, check_account_limit.
  assert (transaction (state_of st (source tx)) = None -> forall t, t ∈ vals m -> source t <> source tx) as Hnone.
  { intros En t Ht Hs. pose proof (proj2 (Hp t) (conj Ht Hs)). congruence. }
  destruct (st !! source tx) as [s|] eqn:Es.
  2:{ assert (transaction (state_of st (source tx)) = None) as En by (unfold state_of; by rewrite Es). exact (Hnone En). }
  assert (state_of st (source tx) = s) as Est by (unfold state_of; by rewrite Es). rewrite Est in Hp, Hnone.
  destruct (transaction s) as [old|] eqn:Et.
  - destruct (proj1 (Hp old) eq_refl) as [Hin Hsrc]. case_bool_decide; [done|].
    destruct (Bool.eqb _ _) eqn:Eb; simpl; [|done]. apply Bool.eqb_prop in Eb. destruct (_ <? _); [done|].
    destruct (is_fee_bump_envelope _) eqn:Ef; simpl; [|done]. destruct (Z.eqb_spec (envelope_sequence_number (q_envelope tx)) (envelope_sequence_number (q_envelope old))) as [Eq|]; simpl; [|done].
    destruct (can_replace_by_fee _ _) as [[]|] eqn:Ec; [|done]. split; [by apply (elem_of_vals_at m old Hm)|].
    split; [done|]. split; [exact Eb|]. split; [done|]. by split.
  - destruct (_ && _); [done|]. destruct (_ && _); [done|]. exact (Hnone eq_refl).
Qed.

Lemma replaceable_ok m tx replaced : replaceable m tx replaced -> replaced_ok tx m replaced.
Proof. destruct replaced as [old|]; [|done]. intros (Ho & _ & Ht & _) o [= <-]. by split. Qed.

(** Evictions leave what may be replaced. *)
Lemma replaceable_without m tx replaced hs : txs_ok m -> replaceable m tx replaced -> (forall old, replaced = Some old -> q_hash old ∉ hs) ->
  replaceable (without m hs) tx replaced.
Proof.
  intros Hm Hr Hno. destruct replaced as [old|]; simpl in *.
  - destruct Hr as (Ho & Hr). split; [|done]. rewrite lookup_without, bool_decide_false by auto. done.
  - intros t Ht. apply elem_of_vals in Ht as [h Hh]. rewrite lookup_without in Hh. case_bool_decide; [done|]. apply Hr, elem_of_vals. by exists h.
Qed.

(** ** Balances *)

Record admitting q : Prop := {
  adm_ops : exists ops, dynamic_max_queue_ops q = Some ops /\ 0 <= ops <= MAX_QUEUED;
  adm_balances : exists provider, fee_balance_provider q = Some provider /\ forall k b, provider k = Ok (Some b) -> b <= i64_max
}.

Definition net_of tx replaced : Z := total_fee tx - match replaced with Some old => owed (payer tx) old | None => 0 end.

Lemma net_new_fee_id tx replaced : queued_ok tx -> (forall old, replaced = Some old -> queued_ok old) -> net_new_fee tx replaced = net_of tx replaced.
Proof.
  intros Hq Hr. pose proof (queued_fee tx Hq) as Hf. unfold net_new_fee, net_of.
  assert (as_i64 (total_fee tx) = total_fee tx) as -> by (apply as_i64_id; unfold is_i64, i64_min, i64_max in *; lia).
  destruct replaced as [old|]; [|lia]. pose proof (queued_fee old (Hr old eq_refl)) as Hfo. unfold owed. case_bool_decide; [|lia].
  rewrite as_i64_id by (unfold is_i64, i64_min, i64_max in *; lia). unfold i64_saturating_sub, saturating, i64_min, i64_max in *. lia.
Qed.

(** An accepted fee is covered beside what the account owes already. *)
Lemma balance_ok q tx replaced : txs_ok (by_hash (store q)) -> accounts_ok (by_hash (store q)) (account_states q) -> fees_ok (by_hash (store q)) -> admitting q -> queued_ok tx ->
  replaceable (by_hash (store q)) tx replaced ->
  match validate_fee_balance tx replaced q with
  | Ok _ => zsum (owed (payer tx)) (vals (by_hash (store q))) + net_of tx replaced <= i64_max /\
      exists provider available, fee_balance_provider q = Some provider /\ provider (payer tx) = Ok (Some available) /\
        zsum (owed (payer tx)) (vals (by_hash (store q))) + net_of tx replaced <= available
  | Err e => e <> Added
  end.
Proof.
  intros Hm Ha Hf [_ (provider & Hprov & Hbound)] Hq Hr. unfold validate_fee_balance. rewrite Hprov.
  destruct (provider (payer tx)) as [[available|]|] eqn:Ep; [|done|done]. specialize (Hbound _ _ Ep).
  rewrite net_new_fee_id; [|done|intros old ->; destruct Hr as (Ho & _); by destruct (Hm _ _ Ho)].
  assert (default 0 (total_fees <$> account_states q !! payer tx) = zsum (owed (payer tx)) (vals (by_hash (store q)))) as ->.
  { rewrite <- (acc_fees _ _ _ (Ha (payer tx))). unfold state_of. by destruct (account_states q !! payer tx). }
  destruct (Z.ltb_spec (i64_saturating_sub available (net_of tx replaced)) (zsum (owed (payer tx)) (vals (by_hash (store q))))) as [|Hle]; [done|].
  pose proof (fees_nonneg _ (payer tx) Hf) as Hnn. pose proof (proj2 Hf (payer tx)) as Hmax. unfold i64_saturating_sub, saturating in Hle.
  assert (zsum (owed (payer tx)) (vals (by_hash (store q))) + net_of tx replaced <= available).
  { unfold i64_min, i64_max in *. lia. }
  split; [lia|]. exists provider, available. done.
Qed.

Definition replaced_hashes replaced : list (list Z) := q_hash <$> option_list replaced.

Lemma owed_replaced m tx replaced k : fees_ok m -> replaceable m tx replaced ->
  zsum (owed k) (vals (without m (replaced_hashes replaced))) = zsum (owed k) (vals m) - match replaced with Some old => owed k old | None => 0 end.
Proof.
  intros Hf Hr. destruct replaced as [old|]; [|simpl; lia]. destruct Hr as (Ho & _). unfold replaced_hashes. simpl.
  rewrite (vals_delete m _ old Ho). simpl. lia.
Qed.

(** The fees stay in range. *)
Lemma funded_ok m tx replaced hs : fees_ok m -> queued_ok tx -> replaceable m tx replaced -> 0 < total_fee tx -> m !! q_hash tx = None ->
  zsum (owed (payer tx)) (vals m) + net_of tx replaced <= i64_max ->
  fees_ok (<[q_hash tx := tx]> (without (without m hs) (replaced_hashes replaced))).
Proof.
  intros Hf Hq Hr Hpos Hnew Hb.
  assert (without (without m hs) (replaced_hashes replaced) = without (without m (replaced_hashes replaced)) hs) as ->.
  { apply map_eq. intros h. rewrite !lookup_without. repeat case_bool_decide; done. }
  set (m1 := without m (replaced_hashes replaced)). pose proof (without_fees_ok m (replaced_hashes replaced) Hf) as Hf1. fold m1 in Hf1.
  pose proof (without_fees_ok m1 hs Hf1) as Hf2.
  assert (without m1 hs !! q_hash tx = None) as Hnew2. { unfold m1. rewrite !lookup_without, Hnew. by repeat case_bool_decide. }
  split.
  - intros t Ht. rewrite vals_insert in Ht by done. apply elem_of_cons in Ht as [->|Ht]; [done|]. by apply Hf2.
  - intros k. rewrite vals_insert by done. simpl. pose proof (owed_without m1 hs k Hf1) as Hw. pose proof (owed_replaced m tx replaced k Hf Hr) as Hrep.
    fold m1 in Hrep. pose proof (proj2 Hf1 k). unfold owed at 1. case_bool_decide as E; [subst k; unfold net_of in Hb; lia|]. pose proof (proj2 Hf2 k). lia.
Qed.

(** ** Replacement and insertion *)

Lemma untouched_entry t k f st : (forall s, transaction (f s) = transaction s /\ age (f s) = age s) -> untouched t st (entry_or_default k f st).
Proof. intros Hf Ht. rewrite state_of_entry. case_bool_decide as E; [|done]. subst. destruct (Hf (state_of st (source t))) as [-> ->]. done. Qed.

Lemma untouched_put t tx st : source t <> source tx -> untouched t st (entry_or_default (source tx) (put_transaction (Some tx)) st).
Proof. intros Hne Ht. rewrite state_of_entry, bool_decide_false by done. done. Qed.

Lemma untouched_add t tx replaced st : source t <> source tx -> untouched t st (add_to_accounts tx replaced st).
Proof.
  intros Hne. unfold add_to_accounts. eapply untouched_trans; [by apply (untouched_put t tx)|]. apply untouched_entry. intros s.
  unfold take_fee, count_up, add_fee, put_fees. destruct replaced; repeat case_bool_decide; try done; by destruct (is_soroban_envelope (q_envelope tx)).
Qed.

Lemma untouched_without t old k st : untouched t st (without_replaced old k st).
Proof.
  unfold without_replaced, released. case_bool_decide; [apply untouched_refl|].
  eapply untouched_trans; [apply untouched_release|apply untouched_remove].
Qed.

Lemma keeps_add tx replaced st : keeps_ages st (add_to_accounts tx replaced st).
Proof.
  unfold add_to_accounts. eapply keeps_trans; [apply (keeps_entry (put_transaction (Some tx)) (source tx)); done|]. apply keeps_entry. intros s.
  unfold take_fee, count_up, add_fee, put_fees. destruct replaced; repeat case_bool_decide; try done; by destruct (is_soroban_envelope (q_envelope tx)).
Qed.

Lemma keeps_without old k st : keeps_ages st (without_replaced old k st).
Proof. unfold without_replaced, released. case_bool_decide; [apply keeps_refl|]. eapply keeps_trans; [apply keeps_release|apply keeps_remove]. Qed.

(** The rest of the queue is as it was. *)
Definition framed q q' : Prop := exists s sn t b st, q' = update q s sn t b st.

Lemma remove_replaced_ok v q old k : store_ok v (store q) -> exists s, remove_replaced old k v q =
    Ok (update q s (seen q ∖ {[q_hash old]}) (eviction_thresholds q) (banned_transactions q) (without_replaced old k (account_states q))) /\
  store_ok v s /\ by_hash s = delete (q_hash old) (by_hash (store q)) /\ same_queues (store q) s.
Proof.
  intros Hs. unfold remove_replaced. destruct (store_remove_ok v (store q) (q_hash old) Hs) as (s & -> & Hs' & Et & _ & Hq). simpl.
  exists s. split; [done|]. by split.
Qed.

Lemma complete_add_ok v q tx replaced : sound v (store q) (account_states q) -> queued_ok tx -> by_hash (store q) !! q_hash tx = None ->
  replaceable (by_hash (store q)) tx replaced -> fees_ok (<[q_hash tx := tx]> (without (by_hash (store q)) (replaced_hashes replaced))) ->
  Z.of_nat (size (by_hash (store q))) < MAX_QUEUED ->
  exists s sn st, complete_add tx replaced v q = Ok (update q s sn (eviction_thresholds q) (banned_transactions q) st) /\ sound v s st /\
    by_hash s = <[q_hash tx := tx]> (without (by_hash (store q)) (replaced_hashes replaced)) /\ same_queues (store q) s /\
    (forall t, source t <> source tx -> untouched t (account_states q) st) /\ keeps_ages (account_states q) st.
Proof.
  intros [Hs Ha Hf] Hq Hnew Hr Hfees Hsize. set (m := by_hash (store q)) in *. set (m1 := without m (replaced_hashes replaced)) in *.
  pose proof (size_without m (replaced_hashes replaced)) as Hsz. fold m1 in Hsz. pose proof (store_txs _ _ Hs) as Hm. fold m in Hm.
  assert (m1 !! q_hash tx = None) as Hnew1 by (unfold m1; rewrite lookup_without, Hnew; by case_bool_decide).
  unfold complete_add.
  assert (exists q1 sn, match replaced with Some old => remove_replaced old (payer tx) v q | None => Ok q end = Ok q1 /\
    q1 = update q (store q1) sn (eviction_thresholds q) (banned_transactions q) (match replaced with Some old => without_replaced old (payer tx) (account_states q) | None => account_states q end) /\
    store_ok v (store q1) /\ by_hash (store q1) = m1 /\ same_queues (store q) (store q1)) as (q1 & sn & -> & Eq1 & Hs1 & Et1 & Hq1).
  { destruct replaced as [old|].
    - destruct (remove_replaced_ok v q old (payer tx) Hs) as (s & -> & Hs' & Et & Hsq). eexists. eexists. split; [done|]. split; [done|]. by split.
    - exists q, (seen q). split; [done|]. split; [by destruct q|]. split; [done|]. split; [done|apply same_queues_refl]. }
  simpl. destruct (store_insert_ok v (store q1) tx Hs1 Hq) as (s & -> & Hs2 & Et2 & _ & Hq2); [by rewrite Et1| |].
  { rewrite Et1. unfold count_ok, MAX_QUEUED, u32_max, i64_max in *. lia. }
  simpl. rewrite Eq1. simpl. rewrite Et1 in Et2. eexists. eexists. eexists. split; [done|]. split.
  { split; [done| |by rewrite Et2]. rewrite Et2. destruct replaced as [old|]; simpl in *.
    - destruct Hr as (Ho & Hsrc & Hty & _). apply (replace_ok m tx old (account_states q)); try done. unfold MAX_QUEUED, u32_max in *. lia.
    - apply (add_to_accounts_ok m); try done. unfold MAX_QUEUED, u32_max in *. lia. }
  split; [done|]. split; [by apply (same_queues_trans _ (store q1))|]. split.
  - intros t Hne. eapply untouched_trans; [|by apply untouched_add]. destruct replaced; [apply untouched_without|apply untouched_refl].
  - eapply keeps_trans; [|apply keeps_add]. destruct replaced; [apply keeps_without|apply keeps_refl].
Qed.
End admission.
