(* ===== verification/TxQueueAdd.v ===== *)
(** * TxQueueAdd: the invariant of the transaction queue, and admission

    The invariant ties the store, the accounts and the bans together. An admission
    keeps it, and a transaction that was added is within every limit in force. *)


From S2P Require Import Prelude Bucket Ledger Lists Resource Envelope SurgePricing SurgePricingFacts SurgePricingEvict TxQueueStore TxQueue TxQueueHeld TxQueueStoreFacts TxQueueFits TxQueueAccounts TxQueuePasses TxQueueAdmission.

Section facts.
Context `{EnvelopeXdr} `{HashIteration}.
Implicit Types m : gmap (list Z) QueuedTransaction.
Implicit Types st : gmap Uint256 AccountState.
Implicit Types tx old : QueuedTransaction.
Implicit Types q : TransactionQueue.
Implicit Types v : Z.
Implicit Types h : list Z.
Implicit Types replaced : option QueuedTransaction.

Notation payer tx := (fee_source_key (q_envelope tx)).
Notation source tx := (account_key (q_envelope tx)).
Notation version q := (protocol_version (validation_context q)).

(** ** The invariant *)

Record txqueue_ok q : Prop := {
  tq_ready : ready (version q) q;
  tq_accounts : accounts_ok (by_hash (store q)) (account_states q);
  tq_fees : fees_ok (by_hash (store q));
  tq_bans : forall h, is_Some (by_hash (store q) !! h) -> is_banned h q = false;
  tq_size : Z.of_nat (size (by_hash (store q))) <= MAX_QUEUED;
  tq_ages : ages_ok (pending_depth q) (account_states q);
  tq_depth : 0 <= pending_depth q <= u32_max;
  tq_ban_depth : banned_transactions q <> []
}.

Lemma count_queued k : k <= MAX_QUEUED -> count_ok k.
Proof. unfold count_ok, MAX_QUEUED, u32_max, i64_max. lia. Qed.

Lemma tq_txs q : txqueue_ok q -> txs_ok (by_hash (store q)).
Proof. intros Hq. apply (store_txs _ _ (ready_store _ _ (tq_ready _ Hq))). Qed.

Lemma tq_sound q : txqueue_ok q -> sound (version q) (store q) (account_states q).
Proof. intros Hq. split; [apply (ready_store _ _ (tq_ready _ Hq))|apply Hq|apply Hq]. Qed.

(** The queues of the store have the limits in force as long as they are the same queues. *)
Lemma ready_update v q s sn t b st : ready v q -> store_ok v s -> same_queues (store q) s -> thresholds_ok t ->
  Z.of_nat (size (by_hash s)) <= MAX_QUEUED -> ready v (update q s sn t b st).
Proof.
  intros [_ [Mc Ms Mg Mf Mh] [Lc Ls Lo] _ _] Hs (Qc & Qs & Qg) Ht Hn. split; [done| |by split|done|by apply count_queued].
  split; simpl.
  - intros c Hc. by apply (matches_same c (classic_eviction_queue (store q))); [apply Mc|].
  - intros limit Hl. by apply (matches_same _ (soroban_eviction_queue (store q))); [apply Ms|].
  - intros limit Hl. by apply (matches_same _ (global_ops_queue (store q))); [apply Mg|].
  - by apply (free_same (classic_eviction_queue (store q))).
  - by apply (free_same (global_ops_queue (store q))).
Qed.

Lemma reset_ok : thresholds_ok EvictionThresholds_new.
Proof. split; simpl; try done; intros r Hr; by apply elem_of_nil in Hr. Qed.

Lemma quiet_ok q q' : quiet q q' -> ready (version q) q' -> txqueue_ok q -> txqueue_ok q'.
Proof. intros [E T] Hr [_ Ha Hf Hb Hn Hg Hd Hne]. rewrite E in Hr |- *. rewrite <- T in Ha, Hf, Hb, Hn. by split. Qed.

Lemma admitting_update q s sn t b st : admitting q -> admitting (update q s sn t b st).
Proof. by intros [? ?]. Qed.

Lemma admitting_quiet q q' : quiet q q' -> admitting q -> admitting q'.
Proof. intros [-> _]. apply admitting_update. Qed.

(** ** Bans *)

Lemma in_bans_newest h (new : gset (list Z)) (b : list (gset (list Z))) : in_bans h (ban_newest new b) = true -> in_bans h b = true \/ h ∈ new.
Proof.
  unfold in_bans, ban_newest. rewrite !existsb_exists. intros (s & Hs & Hh). apply bool_decide_eq_true in Hh. apply list_elem_of_In, list_elem_of_lookup in Hs as [i Hi].
  rewrite list_lookup_alter in Hi. case_decide as E; [|left; exists s; split; [apply list_elem_of_In; by apply list_elem_of_lookup_2 in Hi|by apply bool_decide_eq_true]].
  rewrite E in Hi. destruct (b !! i) as [s0|] eqn:E0; [|done]. injection Hi as <-. apply elem_of_union in Hh as [Hh|Hh]; [by right|]. left. exists s0.
  split; [apply list_elem_of_In; by apply list_elem_of_lookup_2 in E0|by apply bool_decide_eq_true].
Qed.

Lemma newest_in_bans h (new : gset (list Z)) (b : list (gset (list Z))) : b <> [] -> in_bans h b = true \/ h ∈ new -> in_bans h (ban_newest new b) = true.
Proof.
  intros Hne Hor. unfold in_bans, ban_newest. rewrite existsb_exists.
  destruct (lookup_lt_is_Some_2 b (length b - 1)) as [s0 E0]; [destruct b; [done|simpl; lia]|]. destruct Hor as [Hb|Hn].
  - unfold in_bans in Hb. apply existsb_exists in Hb as (s & Hs & Hh). apply bool_decide_eq_true in Hh. apply list_elem_of_In, list_elem_of_lookup in Hs as [i Hi].
    destruct (decide (i = (length b - 1)%nat)) as [->|Hne'].
    + exists (new ∪ s). split; [|apply bool_decide_eq_true; set_solver]. apply list_elem_of_In, (list_elem_of_lookup_2 _ (length b - 1)). by rewrite list_lookup_alter_eq, Hi.
    + exists s. split; [|by apply bool_decide_eq_true]. apply list_elem_of_In, (list_elem_of_lookup_2 _ i). by rewrite list_lookup_alter_ne.
  - exists (new ∪ s0). split; [|apply bool_decide_eq_true; set_solver]. apply list_elem_of_In, (list_elem_of_lookup_2 _ (length b - 1)). by rewrite list_lookup_alter_eq, E0.
Qed.

Lemma newest_nonempty (new : gset (list Z)) (b : list (gset (list Z))) : b <> [] -> ban_newest new b <> [].
Proof. intros Hb E. apply Hb, length_zero_iff_nil. rewrite <- (length_alter (fun s => new ∪ s) b (length b - 1)). unfold ban_newest in E. by rewrite E. Qed.

(** ** Limits *)

(** The transactions are within the limits of [c], in all and in the lane of [tx]. *)
Record within (c : LaneConfig) v tx (l : list QueuedTransaction) : Prop := {
  within_total : forall limit i, config_limits c !! GENERIC_LANE = Some limit -> zsum (use c v i) l <= dim limit i;
  within_lane : forall limit lane i, lane <> GENERIC_LANE -> config_lane c (q_envelope tx) = Ok lane -> config_limits c !! lane = Some limit ->
    zsum (use c v i) (filter (fun t => tx_in_lane c lane t = true) l) <= dim limit i
}.

Lemma within_perm c v tx l l' : l ≡ₚ l' -> within c v tx l -> within c v tx l'.
Proof.
  intros Hp [Ht Hl]. split.
  - intros limit i Hi. rewrite <- Hp. by apply Ht.
  - intros limit lane i Hne Hc Hi. rewrite <- Hp. by apply Hl.
Qed.

#[global] Instance within_proper c v tx : Proper (Permutation ==> iff) (within c v tx).
Proof. intros l l' Hp. split; apply within_perm; [done|by symmetry]. Qed.

Lemma beside_within c v tx l : beside c v tx l -> within c v tx (tx :: l).
Proof.
  intros [Ht Hl]. split.
  - intros limit i Hi. specialize (Ht limit i Hi). simpl. lia.
  - intros limit lane i Hne Hc Hi. specialize (Hl limit lane i Hne Hc Hi). rewrite filter_cons_True; [simpl; lia|]. unfold tx_in_lane. rewrite Hc. by apply Nat.eqb_refl.
Qed.

Record limits_respected v q tx : Prop := {
  resp_classic : forall c, is_soroban tx = false -> classic_config q = Some c -> within c v tx (picked is_classic (by_hash (store q)));
  resp_soroban : forall limit, is_soroban tx = true -> effective_queue_soroban_resources q = Some limit ->
    within (SorobanGenericLaneConfig_new limit) v tx (picked is_soroban (by_hash (store q)));
  resp_ops : forall limit, effective_max_queue_ops q = Some limit -> zsum (fun t => envelope_operation_count (q_envelope t)) (vals (by_hash (store q))) <= limit
}.

(** The transactions after an admission. *)
Definition after_add m tx replaced (evs : list QueuedTransaction) : gmap (list Z) QueuedTransaction :=
  <[q_hash tx := tx]> (without (without m (q_hash <$> evs)) (replaced_hashes replaced)).

Lemma vals_filter (P : QueuedTransaction -> Prop) `{!forall t, Decision (P t)} m m' :
  (forall h, m' !! h = (match m !! h with Some t => if decide (P t) then Some t else None | None => None end)) -> vals m' ≡ₚ filter P (vals m).
Proof.
  intros E. assert (m' = filter (fun p => P p.2) m) as ->.
  { apply map_eq. intros h. rewrite E, map_lookup_filter. destruct (m !! h) as [t|]; simpl; [|done]. by destruct (decide (P t)); [rewrite option_guard_True|rewrite option_guard_False]. }
  assert (map_to_list (filter (fun p => P p.2) m) ≡ₚ filter (fun p => P p.2) (map_to_list m)) as Hp.
  { apply NoDup_Permutation; [apply NoDup_map_to_list|apply NoDup_filter, NoDup_map_to_list|]. intros [h t].
    rewrite elem_of_map_to_list, list_elem_of_filter, elem_of_map_to_list, map_lookup_filter_Some. tauto. }
  unfold vals. by rewrite Hp, filter_fmap.
Qed.

Lemma without_others w m hs : txs_ok m -> picked w (without m hs) ≡ₚ others w m (list_to_set hs).
Proof.
  intros Hm. unfold others, picked. rewrite (vals_filter (fun t => q_hash t ∉ hs) m (without m hs)).
  - rewrite !list_filter_filter. rewrite (list_filter_iff _ (fun t => q_hash t ∉ (list_to_set hs : gset (list Z)) /\ w t = true)); [done|].
    intros t. rewrite elem_of_list_to_set. tauto.
  - intros h. rewrite lookup_without. destruct (m !! h) as [t|] eqn:Eh; [|by case_bool_decide]. destruct (Hm h t Eh) as [-> _].
    case_bool_decide; destruct (decide (h ∉ hs)); done.
Qed.

Lemma picked_after w m tx replaced evs : txs_ok m -> m !! q_hash tx = None -> w tx = true ->
  picked w (after_add m tx replaced evs) ≡ₚ tx :: others w m (gone_of replaced evs).
Proof.
  intros Hm Hn Hw. unfold after_add.
  assert (without (without m (q_hash <$> evs)) (replaced_hashes replaced) = without m ((q_hash <$> evs) ++ replaced_hashes replaced)) as ->.
  { unfold without. by rewrite foldl_app. }
  rewrite picked_insert by (rewrite lookup_without, Hn; by case_bool_decide). rewrite Hw, without_others by done.
  assert (list_to_set ((q_hash <$> evs) ++ replaced_hashes replaced) = gone_of replaced evs) as ->; [|done].
  unfold gone_of. rewrite list_to_set_app_L, (comm_L (∪)). f_equal. destruct replaced; [|done]. unfold replaced_hashes. simpl. by rewrite (right_id_L ∅ (∪)).
Qed.

(** What was collected makes the room that is needed. *)
Lemma collected_respected v q q' tx replaced evs : txs_ok (by_hash (store q)) -> collected v q tx replaced evs -> queued_ok tx -> by_hash (store q) !! q_hash tx = None ->
  framed q q' -> by_hash (store q') = after_add (by_hash (store q)) tx replaced evs -> limits_respected v q' tx.
Proof.
  intros Hm Hc Hq Hn (s & sn & t & b & st & ->) E. simpl in E. split; simpl; rewrite E.
  - intros c Es Hcfg. rewrite picked_after; [|done|done|by rewrite is_classic_iff, Es]. apply beside_within.
    by apply (col_classic _ _ _ _ _ Hc c Es Hcfg).
  - intros limit Es Hl. rewrite picked_after by done. apply beside_within. by apply (col_soroban _ _ _ _ _ Hc limit Es Hl).
  - intros limit Hl. assert (forall m', picked every_tx m' = vals m') as Hall by (intros m'; by apply filter_all).
    rewrite <- Hall, picked_after by done. simpl. pose proof (ops_fit v q tx replaced evs limit Hm Hc Hl Hq). lia.
Qed.
End facts.

(** ** an admission as a whole

    Offering a transaction never panics and keeps the invariant. Either it is added, with
    what it replaces and evicts gone, or neither the transactions, the accounts nor the
    bans change. *)

Section add.
Context `{EnvelopeXdr} `{HashIteration}.
Implicit Types m : gmap (list Z) QueuedTransaction.
Implicit Types tx old : QueuedTransaction.
Implicit Types q : TransactionQueue.
Implicit Types v : Z.
Implicit Types h : list Z.
Implicit Types replaced : option QueuedTransaction.

Notation payer tx := (fee_source_key (q_envelope tx)).
Notation source tx := (account_key (q_envelope tx)).
Notation version q := (protocol_version (validation_context q)).

(** ** What is committed *)

Record admission q q' tx replaced (evs : list QueuedTransaction) : Prop := {
  adn_framed : framed q q';
  adn_txs : by_hash (store q') = after_add (by_hash (store q)) tx replaced evs;
  adn_collected : collected (version q) q tx replaced evs;
  adn_replaced : replaceable (by_hash (store q)) tx replaced;
  adn_bans : banned_transactions q' = ban_newest (list_to_set (q_hash <$> evs)) (banned_transactions q);
  adn_untouched : forall t, t ∈ vals (by_hash (store q')) -> t <> tx -> untouched t (account_states q) (account_states q')
}.

Lemma evictions_in v q tx replaced evs : collected v q tx replaced evs ->
  NoDup (q_hash <$> evs) /\ (forall t, t ∈ evs -> by_hash (store q) !! q_hash t = Some t) /\ forall old, replaced = Some old -> q_hash old ∉ q_hash <$> evs.
Proof.
  intros Hc. pose proof (col_pending _ _ _ _ _ Hc) as Hp. split; [apply Hp|]. split; [intros t Ht; by apply (pend_in _ _ _ _ Hp)|].
  intros old -> Hin. apply list_elem_of_fmap in Hin as (t & E & Ht). destruct (pend_in _ _ _ _ Hp t Ht) as (_ & Hno & _). simpl in Hno. set_solver.
Qed.

Lemma commit_ok v q evs : sound v (store q) (account_states q) -> NoDup (q_hash <$> evs) -> (forall t, t ∈ evs -> by_hash (store q) !! q_hash t = Some t) ->
  exists s st, commit_evictions evs v q = Ok (update q s (seen q ∖ list_to_set (q_hash <$> evs)) (eviction_thresholds q)
      (ban_newest (list_to_set (q_hash <$> evs)) (banned_transactions q)) st) /\ shrunk v (store q) (account_states q) s st (q_hash <$> evs).
Proof.
  intros Hs Hnd Hin. unfold commit_evictions. destruct (evicted_ok v (store q) (account_states q) evs Hs Hnd Hin) as (s & -> & Hsh). simpl.
  eexists. eexists. split; [done|exact Hsh].
Qed.

Lemma len_hashes m evs : NoDup (q_hash <$> evs) -> (forall t, t ∈ evs -> m !! q_hash t = Some t) -> Z.of_nat (size (without m (q_hash <$> evs))) = Z.of_nat (size m) - len evs.
Proof.
  revert m. induction evs as [|t evs IH]; intros m Hnd Hin; [unfold len; simpl; lia|]. csimpl in *. apply NoDup_cons in Hnd as [Hno Hnd].
  rewrite IH; [|done|].
  - assert (size (delete (q_hash t) m) = Nat.pred (size m)) as E by (apply map_size_delete_Some; exists t; apply Hin; left). rewrite E, len_cons.
    assert (0 < size m)%nat; [|lia]. assert (size m <> 0%nat); [|lia]. intros E0%map_size_empty_inv. pose proof (Hin t ltac:(left)) as Hl. by rewrite E0 in Hl.
  - intros u Hu. rewrite lookup_delete_ne; [apply Hin; by right|]. intros E. apply Hno. rewrite E. by apply list_elem_of_fmap_2.
Qed.

Lemma capacity_ok v q tx replaced evs now : txs_ok (by_hash (store q)) -> admitting q -> collected v q tx replaced evs -> queued_ok tx ->
  replaceable (by_hash (store q)) tx replaced ->
  ensure_queue_capacity now (length evs) tx v q = Ok (q, Ok tt) /\ Z.of_nat (size (by_hash (store q))) - len evs < MAX_QUEUED.
Proof.
  intros Hm [(ops & Hops & Hb) _] Hc Hq Hr.
  assert (Z.of_nat (size (by_hash (store q))) - len evs < ops) as Hlt.
  { apply (capacity_free v q tx replaced); try done; [unfold effective_max_queue_ops; by rewrite Hops|intros old ->; apply Hr|].
    intros [old ->]. by destruct Hr as (_ & _ & _ & ? & _). }
  split; [|lia]. unfold ensure_queue_capacity, effective_max_size, store_len. rewrite Hops.
  assert ((size (by_hash (store q)) - length evs <? Z.to_nat ops)%nat = true) as ->; [|done]. apply Nat.ltb_lt.
  destruct (evictions_in _ _ _ _ _ Hc) as (Hnd & Hin & _). pose proof (len_hashes _ evs Hnd Hin). unfold len in *. lia.
Qed.

Lemma after_bans q tx replaced evs : txs_ok (by_hash (store q)) -> (forall h, is_Some (by_hash (store q) !! h) -> is_banned h q = false) -> is_banned (q_hash tx) q = false ->
  by_hash (store q) !! q_hash tx = None -> (forall t, t ∈ evs -> by_hash (store q) !! q_hash t = Some t) ->
  forall h, is_Some (after_add (by_hash (store q)) tx replaced evs !! h) -> in_bans h (ban_newest (list_to_set (q_hash <$> evs)) (banned_transactions q)) = false.
Proof.
  intros Hm Hb Hbtx Hn Hin h [t Ht]. apply not_true_is_false. intros Hban. apply in_bans_newest in Hban. rewrite elem_of_list_to_set in Hban.
  unfold after_add in Ht. apply lookup_insert_Some in Ht as [[<- <-]|[Hne Ht]].
  - destruct Hban as [Hban|Hban]; [unfold is_banned in Hbtx; congruence|]. apply list_elem_of_fmap in Hban as (t & E & Ht). pose proof (Hin t Ht). congruence.
  - rewrite !lookup_without in Ht. case_bool_decide; [done|]. case_bool_decide; [done|]. destruct Hban as [Hban|Hban]; [|done].
    pose proof (Hb h ltac:(by eexists)) as Hb'. unfold is_banned in Hb'. congruence.
Qed.

(** From the collection of the evictions on, when nothing objects. *)
Lemma finish_ok q tx replaced evs : txqueue_ok q -> admitting q -> queued_ok tx -> by_hash (store q) !! q_hash tx = None -> is_banned (q_hash tx) q = false ->
  0 < total_fee tx -> replaceable (by_hash (store q)) tx replaced -> collected (version q) q tx replaced evs ->
  zsum (owed (payer tx)) (vals (by_hash (store q))) + net_of tx replaced <= i64_max -> Z.of_nat (size (by_hash (store q))) - len evs < MAX_QUEUED ->
  exists q', (let? q0 := commit_evictions evs (version q) q in let? q0 := complete_add tx replaced (version q) q0 in Ok (q0, Added)) = Ok (q', Added) /\
    txqueue_ok q' /\ admission q q' tx replaced evs.
Proof.
  intros Hok Hadm Hq Hn Hban Hfee Hr Hc Hbal Hsize. pose proof (tq_txs q Hok) as Hm. destruct (evictions_in _ _ _ _ _ Hc) as (Hnd & Hin & Hno).
  destruct (commit_ok (version q) q evs (tq_sound q Hok) Hnd Hin) as (s1 & st1 & -> & Hsh). cbn [result_bind]. destruct Hsh as [S1 T1 A1 F1 Q1 _ U1 K1].
  match goal with |- context [complete_add tx replaced _ ?x] => set (q1 := x) end.
  destruct (complete_add_ok (version q) q1 tx replaced) as (s2 & sn2 & st2 & -> & [S2 A2 F2] & T2 & Q2 & U2 & K2).
  - by split.
  - done.
  - simpl. rewrite T1, lookup_without, Hn. by case_bool_decide.
  - simpl. rewrite T1. by apply replaceable_without.
  - simpl. rewrite T1. apply funded_ok; try done. apply Hok.
  - simpl. rewrite T1, len_hashes by done. lia.
  - cbn [result_bind]. simpl in T2. rewrite T1 in T2. eexists. split; [done|].
    assert (by_hash s2 = after_add (by_hash (store q)) tx replaced evs) as E by done.
    assert (forall t, t ∈ vals (by_hash s2) -> t <> tx -> untouched t (account_states q) st2) as Hun.
    { intros t Ht Hne. apply (untouched_trans _ _ st1).
      - apply U1. intros Hev. apply elem_of_vals in Ht as [h Hh]. destruct (store_txs _ _ S2 h t Hh) as [<- _]. rewrite T2 in Hh.
        apply lookup_insert_Some in Hh as [[Eh <-]|[_ Hh]]; [done|]. rewrite !lookup_without in Hh. case_bool_decide; [done|]. by rewrite bool_decide_true in Hh by done.
      - apply U2. intros Hs. apply Hne. pose proof (proj2 (acc_pending _ _ _ (A2 (source tx)) t) (conj Ht Hs)) as P1.
        assert (tx ∈ vals (by_hash s2)) as Htx by (apply elem_of_vals; exists (q_hash tx); rewrite T2; by apply lookup_insert_eq).
        pose proof (proj2 (acc_pending _ _ _ (A2 (source tx)) tx) (conj Htx eq_refl)). congruence. }
    assert (Z.of_nat (size (by_hash s2)) <= MAX_QUEUED) as Hsize2.
    { rewrite T2, map_size_insert. pose proof (size_without (without (by_hash (store q)) (q_hash <$> evs)) (replaced_hashes replaced)).
      pose proof (len_hashes _ evs Hnd Hin). unfold id; destruct (without _ _ !! _); lia. }
    split.
    + split; try done.
      * apply (ready_update (version q) q1); try done. apply (ready_update (version q) q); try done; [apply Hok|apply (ready_thresholds _ _ (tq_ready _ Hok))|].
        rewrite T1. pose proof (size_without (by_hash (store q)) (q_hash <$> evs)). pose proof (tq_size q Hok). lia.
        apply (ready_thresholds _ _ (tq_ready _ Hok)).
      * intros h Hh. simpl in Hh. rewrite E in Hh. unfold is_banned. simpl. apply (after_bans q tx replaced evs); try done. apply Hok.
      * apply K2, K1, Hok.
      * apply Hok.
      * apply newest_nonempty, Hok.
    + split; try done. by eexists _, _, _, _, _.
Qed.

(** ** The result *)

(** How a transaction was received: added, or turned away. *)
Definition outcome_ok q tx q' (r : TxQueueResult) : Prop :=
  (r = Added /\ exists replaced evs, admission q q' tx replaced evs) \/ (r <> Added /\ quiet q q').

Lemma added_quiet q q1 q' tx replaced evs : quiet q q1 -> admission q1 q' tx replaced evs -> admission q q' tx replaced evs.
Proof.
  intros Hq [Fr T C R B U]. destruct Hq as [E Et]. rewrite Et in T, R. rewrite E in C, B, U. split; try done.
  - destruct Fr as (s & sn & t & b & st & ->). rewrite E. by eexists _, _, _, _, _.
  - apply (collected_quiet _ q q1 tx); [by split|]. by rewrite E.
Qed.

Lemma try_admit_ok q tx now : txqueue_ok q -> admitting q -> queued_ok tx -> by_hash (store q) !! q_hash tx = None -> is_banned (q_hash tx) q = false -> 0 < total_fee tx ->
  exists q' r, try_admit now tx (version q) q = Ok (q', r) /\ txqueue_ok q' /\ outcome_ok q tx q' r.
Proof.
  intros Hok Hadm Hq Hn Hban Hfee. unfold try_admit. change (check_account_limit _ _ _ _ _ _) with (account_limit_of tx (account_states q)).
  assert (forall r, r <> Added -> exists q' r', Ok (q, r) = Ok (q', r') :> result _ Panic /\ txqueue_ok q' /\ outcome_ok q tx q' r') as Hstay.
  { intros r Hne. exists q, r. split; [done|]. split; [done|]. right. split; [done|apply quiet_refl]. }
  pose proof (account_limit_ok (by_hash (store q)) (account_states q) tx (tq_txs q Hok) (tq_accounts q Hok)) as Hr.
  destruct (account_limit_of tx (account_states q)) as [replaced|e]; [|by apply Hstay].
  change (is_soroban_envelope (q_envelope tx)) with (is_soroban tx).
  destruct (collect_ok (version q) q tx replaced (tq_ready q Hok) Hq (replaceable_ok _ _ _ Hr)) as (q1 & r1 & -> & Q1 & R1 & C1). cbn [result_bind].
  pose proof (quiet_ok q q1 Q1 R1 Hok) as Hok1. pose proof (admitting_quiet q q1 Q1 Hadm) as Hadm1.
  assert (version q1 = version q) as Ev by (by destruct Q1 as [-> _]).
  assert (forall r, r <> Added -> exists q' r', Ok (q1, r) = Ok (q', r') :> result _ Panic /\ txqueue_ok q' /\ outcome_ok q tx q' r') as Hstay1.
  { intros r Hne. exists q1, r. split; [done|]. split; [done|]. by right. }
  destruct r1 as [evs|e]; [|by apply Hstay1].
  pose proof (quiet_txs _ _ Q1) as T1. rewrite <- T1 in Hr, Hn.
  pose proof (balance_ok q1 tx replaced (tq_txs q1 Hok1) (tq_accounts q1 Hok1) (tq_fees q1 Hok1) Hadm1 Hq Hr) as Hbal.
  destruct (validate_fee_balance tx replaced q1) as [u|e]; [|by apply Hstay1]. destruct Hbal as [Hbal _].
  assert (collected (version q1) q1 tx replaced evs) as C1'.
  { destruct C1 as [P1 Pc Ps Po]. rewrite Ev. destruct Q1 as [E1 _]. rewrite <- T1 in P1, Pc, Ps, Po. rewrite E1.
    split; simpl in *; done. }
  destruct (capacity_ok (version q) q1 tx replaced evs now (tq_txs q1 Hok1) Hadm1) as [-> Hsize]; [by rewrite <- Ev|done|done|]. cbn [result_bind].
  destruct (finish_ok q1 tx replaced evs) as (q' & E & Hok' & Had); try done.
  { destruct Q1 as [-> _]. done. }
  rewrite Ev in E. rewrite E. exists q', Added. split; [done|]. split; [done|]. left. split; [done|]. exists replaced, evs. by apply (added_quiet q q1).
Qed.

(** ** Offering an envelope *)

Lemma required_positive q tx : cfg_ok (config q) -> queued_ok tx -> required_inclusion_fee tx q <= inclusion_fee (fee_rate tx) -> 0 < total_fee tx.
Proof.
  intros (Hmin & _) Hq Hle. destruct (queued_fields tx Hq) as (_ & Er & ->). destruct Hq as [He _]. pose proof (env_inclusion _ He).
  unfold required_inclusion_fee in Hle. rewrite Er in Hle. simpl in Hle. unfold i64_saturating_mul, saturating in Hle.
  assert (1 <= Z.max (base_fee (validation_context q)) (min_fee_per_op (config q)) * Z.max 1 (envelope_operation_count (q_envelope tx))) by nia.
  unfold i64_min, i64_max in *. lia.
Qed.

(** What is known of a transaction that was added. *)
Record received (now : Z) (validation : result unit TxResultCode) (env : TransactionEnvelope) q tx : Prop := {
  rcv_valid : validation = Ok tt;
  rcv_made : QueuedTransaction_new now env = Ok tx;
  rcv_ok : queued_ok tx;
  rcv_envelope : q_envelope tx = env;
  rcv_unseen : q_hash tx ∉ seen q;
  rcv_not_banned : is_banned (q_hash tx) q = false;
  rcv_fee : required_inclusion_fee tx q <= inclusion_fee (fee_rate tx);
  rcv_new : by_hash (store q) !! q_hash tx = None
}.

Lemma cross_type_not_added key b (st : gmap Uint256 AccountState) r : check_cross_type_conflict_with key b st = Some r -> r <> Added.
Proof.
  unfold check_cross_type_conflict_with. destruct (st !! key) as [s|]; [|done]. repeat (match goal with |- context [if ?c then _ else _] => destruct c end); by intros [= <-].
Qed.

Lemma offer_ok q env now validation : txqueue_ok q -> admitting q -> (validation = Ok tt -> env_ok env) ->
  exists q' r, TxQueue.try_add now validation env q = Ok (q', r) /\ txqueue_ok q' /\
    ((r = Added /\ exists tx replaced evs, received now validation env q tx /\ admission q q' tx replaced evs) \/ (r <> Added /\ quiet q q')).
Proof.
  intros Hok Hadm Henv. unfold TxQueue.try_add.
  assert (forall r, r <> Added -> exists q' r', Ok (q, r) = Ok (q', r') :> result _ Panic /\ txqueue_ok q' /\
    ((r' = Added /\ exists tx replaced evs, received now validation env q tx /\ admission q q' tx replaced evs) \/ (r' <> Added /\ quiet q q'))) as Hstay.
  { intros r Hne. exists q, r. split; [done|]. split; [done|]. right. split; [done|apply quiet_refl]. }
  destruct (check_cross_type_conflict_with _ _ _) as [r|] eqn:Ec; [by apply Hstay, (cross_type_not_added _ _ _ _ Ec)|].
  destruct validation as [[]|code]; [|by apply Hstay]. specialize (Henv eq_refl).
  destruct (QueuedTransaction_new now env) as [tx|] eqn:En; [|by apply Hstay]. destruct (queued_new_ok now env tx Henv En) as [Hq He].
  case_bool_decide as Hseen; [by apply Hstay|]. destruct (is_banned (q_hash tx) q) eqn:Eb; [by apply Hstay|]. destruct (is_filtered _ _); [by apply Hstay|].
  destruct (Z.ltb_spec (inclusion_fee (fee_rate tx)) (required_inclusion_fee tx q)) as [|Hle]; [by apply Hstay|]. destruct (_ && _); [by apply Hstay|].
  case_bool_decide as Hin; [by apply Hstay|]. apply eq_None_not_Some in Hin.
  destruct (try_admit_ok q tx now Hok Hadm Hq Hin Eb) as (q' & r & E & Hok' & Hout).
  - apply (required_positive q tx); try done. apply (lim_config _ (ready_limits _ _ (tq_ready q Hok))).
  - exists q', r. split; [exact E|]. split; [done|]. destruct Hout as [(-> & replaced & evs & Had)|Hout]; [left|by right].
    split; [done|]. exists tx, replaced, evs. split; [|done]. by split.
Qed.
End add.
