(* ===== verification/TxQueueOps.v ===== *)
(** * TxQueueOps: removal from the queue and its other operations

    Bans, expiry, removal of what a ledger applied, of a stale transaction, clearing and
    the changes of limits keep the invariant of the queue. *)


From S2P Require Import Prelude Bucket Ledger Lists Resource Envelope SurgePricing SurgePricingFacts SurgePricingEvict TxQueueStore TxQueue TxQueueHeld TxQueueStoreFacts TxQueueFits TxQueueAccounts TxQueuePasses TxQueueAdmission TxQueueAdd.

Section ops.
Context `{EnvelopeXdr} `{HashIteration}.
Implicit Types m : gmap (list Z) QueuedTransaction.
Implicit Types st : gmap Uint256 AccountState.
Implicit Types tx old : QueuedTransaction.
Implicit Types q : TransactionQueue.
Implicit Types v : Z.
Implicit Types h : list Z.
Implicit Types hs : list (list Z).

Notation payer tx := (fee_source_key (q_envelope tx)).
Notation source tx := (account_key (q_envelope tx)).
Notation version q := (protocol_version (validation_context q)).

(** ** Removal of hashes *)

(** A removal leaves the invariant, when the bans name none of what stays. *)
Lemma shrunk_ok q (s : QueueStore) (sn : gset (list Z)) (t : EvictionThresholds) (b : list (gset (list Z))) st hs : txqueue_ok q -> shrunk (version q) (store q) (account_states q) s st hs -> thresholds_ok t -> b <> [] ->
  (forall h, h ∉ hs -> is_Some (by_hash (store q) !! h) -> in_bans h b = false) -> txqueue_ok (update q s sn t b st).
Proof.
  intros Hok [S T A F Q _ U K] Ht Hne Hb. pose proof (tq_size q Hok) as Hn. pose proof (size_without (by_hash (store q)) hs) as Hs. rewrite <- T in Hs. split; simpl; try done.
  - apply (ready_update (version q) q); try done; [apply Hok|]. lia.
  - intros h [t' Hh]. rewrite T, lookup_without in Hh. case_bool_decide; [done|]. apply Hb; [done|]. by exists t'.
  - lia.
  - apply K, Hok.
  - apply Hok.
Qed.

Definition gone_from q q' hs : Prop :=
  framed q q' /\ shrunk (version q) (store q) (account_states q) (store q') (account_states q') hs.

Lemma remove_hashes_ok q hs b : txqueue_ok q -> b <> [] -> (forall h, h ∉ hs -> is_Some (by_hash (store q) !! h) -> in_bans h b = false) ->
  exists q', remove_hashes hs b q = Ok q' /\ txqueue_ok q' /\ gone_from q q' hs /\ banned_transactions q' = b.
Proof.
  intros Hok Hne Hb. unfold remove_hashes.
  destruct (remove_hash_list_ok (version q) hs (store q) (account_states q) false (tq_sound q Hok)) as (s & st & b' & -> & Hsh). simpl.
  eexists. split; [done|]. split; [|split; [|done]].
  - apply (shrunk_ok q s _ _ b st hs Hok Hsh); [|done|done]. destruct b'; [apply reset_ok|apply (ready_thresholds _ _ (tq_ready q Hok))].
  - split; [by eexists _, _, _, _, _|done].
Qed.

Lemma ban_ok q hs : txqueue_ok q ->
  exists q', ban hs q = Ok q' /\ txqueue_ok q' /\ gone_from q q' hs /\ forall h, is_banned h q' = true <-> is_banned h q = true \/ h ∈ hs.
Proof.
  intros Hok. unfold ban. case_bool_decide as E.
  - subst hs. exists q. split; [done|]. split; [done|]. split.
    + split; [by exists (store q), (seen q), (eviction_thresholds q), (banned_transactions q), (account_states q); destruct q|by apply shrunk_nil, tq_sound].
    + intros h. split; [by left|]. intros [?|?%elem_of_nil]; done.
  - destruct (remove_hashes_ok q hs (ban_newest (list_to_set hs) (banned_transactions q)) Hok) as (q' & -> & Hok' & Hg & Eb).
    + apply newest_nonempty, Hok.
    + intros h Hh Hin. apply not_true_is_false. intros Hb. apply in_bans_newest in Hb. rewrite elem_of_list_to_set in Hb.
      destruct Hb as [Hb|Hb]; [|done]. pose proof (tq_bans q Hok h Hin) as Hn. unfold is_banned in Hn. congruence.
    + exists q'. split; [done|]. split; [done|]. split; [done|]. intros h. unfold is_banned. rewrite Eb. split.
      * intros Hb%in_bans_newest. by rewrite elem_of_list_to_set in Hb.
      * intros Hor. apply newest_in_bans; [apply Hok|]. by rewrite elem_of_list_to_set.
Qed.

Lemma evict_expired_ok q now : txqueue_ok q -> exists q' hs, evict_expired now q = Ok q' /\ txqueue_ok q' /\ gone_from q q' hs /\
  banned_transactions q' = banned_transactions q /\ forall h, h ∈ hs <-> exists tx, by_hash (store q) !! h = Some tx /\ is_expired now (max_age_secs (config q)) tx = true.
Proof.
  intros Hok. unfold evict_expired. set (expired := filter _ _).
  destruct (remove_hashes_ok q expired.*1 (banned_transactions q) Hok) as (q' & E & Hok' & Hg & Eb); [apply Hok|intros h _; apply Hok|].
  exists q', expired.*1. split; [exact E|]. split; [done|]. split; [done|]. split; [done|]. intros h. unfold expired. rewrite list_elem_of_fmap. split.
  - intros ([h' tx] & -> & Hin). apply list_elem_of_filter in Hin as [He Hin]. apply elem_of_iterate in Hin. by exists tx.
  - intros (tx & Hh & He). exists (h, tx). split; [done|]. apply list_elem_of_filter. split; [done|]. by apply elem_of_iterate.
Qed.

(** ** A pending transaction leaves its account, its fee is released later *)

Lemma release_clear_all k rels : forall st, foldl apply_release (alter clear_pending k st) rels = alter clear_pending k (foldl apply_release st rels).
Proof.
  induction rels as [|[[k' fee] b] rels IH]; intros st; [done|]. simpl. by rewrite release_clear_comm, IH.
Qed.

Lemma release_transaction rels k : forall st, transaction (state_of (foldl apply_release st rels) k) = transaction (state_of st k) /\
  age (state_of (foldl apply_release st rels) k) = age (state_of st k).
Proof.
  induction rels as [|[[k' fee] b] rels IH]; intros st; [done|]. simpl. destruct (IH (alter (release_fee fee b) k' st)) as [-> ->].
  rewrite state_of_alter. case_bool_decide as E; [|done]. destruct E as [-> _]. unfold release_fee, count_down. by destruct b.
Qed.

Definition release_of tx : Uint256 * Z * bool := (payer tx, as_i64 (total_fee tx), is_soroban_envelope (q_envelope tx)).

Lemma release_later st rels tx : foldl apply_release (alter clear_pending (source tx) st) (rels ++ [release_of tx]) = dropped tx (foldl apply_release st rels).
Proof. rewrite foldl_app, release_clear_all. done. Qed.

(** One such transaction. *)
Lemma shrunk_dropped v s st tx s' : sound v s st -> by_hash s !! q_hash tx = Some tx -> store_ok v s' -> by_hash s' = delete (q_hash tx) (by_hash s) ->
  same_queues s s' -> eviction_seed s' = eviction_seed s -> shrunk v s st s' (dropped tx st) [q_hash tx].
Proof.
  intros [Hs Ha Hf] Htx Hs' Et Hq Es. pose proof (store_txs _ _ Hs) as Hm.
  pose proof (leave_ok (by_hash s) st (q_hash tx) tx Hm Ha Hf Htx) as Ha'. split; try done.
  - by rewrite Et.
  - rewrite Et. by apply fees_ok_delete.
  - intros t Hne. unfold dropped, released. eapply untouched_trans; [|apply untouched_release]. intros Ht. apply untouched_clear; [|done].
    intros Es'. rewrite Es' in Ht. pose proof (proj2 (acc_pending _ _ _ (Ha (source tx)) tx)) as Hp. rewrite Hp in Ht.
    + injection Ht as ->. apply Hne. left.
    + split; [|done]. by apply (elem_of_vals_at _ tx Hm).
  - unfold dropped, released. eapply keeps_trans; [apply keeps_clear|apply keeps_release].
Qed.

Lemma shrunk_cleanup v s st s' st' hs keys : shrunk v s st s' st' hs -> shrunk v s st s' (foldl (fun a key => remove_if_empty key a) st' keys) hs.
Proof.
  revert st'. induction keys as [|k keys IH]; intros st' Hsh; [done|]. simpl. apply IH. destruct Hsh as [S T A F Q E U K]. split; try done.
  - by apply remove_if_empty_ok.
  - intros t Ht. eapply untouched_trans; [by apply U|apply untouched_remove].
  - eapply keeps_trans; [exact K|apply keeps_remove].
Qed.

(** ** Applied transactions *)

(** What the ledger says of an applied transaction: were it queued, it would be the
    pending transaction of its account, at a sequence number that was reached. *)
Definition applied_ok q (applied : TransactionEnvelope * Z) : Prop :=
  forall t, t ∈ vals (by_hash (store q)) -> q_hash t = hash_xdr applied.1 -> source t = account_key applied.1 /\ envelope_sequence_number (q_envelope t) <= applied.2.

(** The states as they are after the pending releases. *)
Notation settled acc := (foldl apply_release (ap_states acc) (ap_releases acc)).

Record applying q (acc : Applied) : Prop := {
  apl_shrunk : shrunk (version q) (store q) (account_states q) (ap_store acc) (settled acc) (ap_removed acc);
  apl_bans : forall h, is_Some (by_hash (ap_store acc) !! h) -> in_bans h (ap_banned acc) = false;
  apl_nonempty : ap_banned acc <> []
}.

(** A queued transaction that was applied is what its account has pending. *)
Lemma applied_pending q acc x t : shrunk (version q) (store q) (account_states q) (ap_store acc) (settled acc) (ap_removed acc) -> applied_ok q x ->
  by_hash (ap_store acc) !! hash_xdr x.1 = Some t ->
  transaction (state_of (settled acc) (account_key x.1)) = Some t /\ envelope_sequence_number (q_envelope t) <= x.2.
Proof.
  intros Hsh Hx Eh. pose proof (shrunk_sound _ _ _ _ _ _ Hsh) as [Hs Ha _]. destruct (store_txs _ _ Hs _ _ Eh) as [Ehash _].
  assert (t ∈ vals (by_hash (store q))) as Ht0.
  { pose proof Eh as Eh'. rewrite (shr_txs _ _ _ _ _ _ Hsh), lookup_without in Eh'. case_bool_decide; [done|]. apply elem_of_vals. by eexists. }
  destruct (Hx t Ht0 Ehash) as [Hsrc Hseq]. split; [|done]. apply (acc_pending _ _ _ (Ha (account_key x.1))). split; [|done]. apply elem_of_vals. by eexists.
Qed.

Lemma apply_one_ok q acc x : applying q acc -> applied_ok q x -> exists acc', apply_one (version q) acc x = Ok acc' /\ applying q acc' /\
  forall h, in_bans h (ap_banned acc') = true <-> in_bans h (ap_banned acc) = true \/ h = hash_xdr x.1.
Proof.
  intros [Hsh Hb Hne] Hx. destruct x as [env seq]. unfold apply_one. pose proof (shrunk_sound _ _ _ _ _ _ Hsh) as Hsound. pose proof Hsound as [Hs Ha Hf].
  pose proof (store_txs _ _ Hs) as Hm.
  assert (ap_states acc !! account_key env ≫= transaction = transaction (state_of (settled acc) (account_key env))) as Elook.
  { destruct (release_transaction (ap_releases acc) (account_key env) (ap_states acc)) as [-> _]. unfold state_of. by destruct (ap_states acc !! account_key env). }
  assert (exists acc1, match ap_states acc !! account_key env ≫= transaction with
    | Some queued_tx =>
        if envelope_sequence_number (q_envelope queued_tx) <=? seq then
          let? (st, _) := store_remove (q_hash queued_tx) (version q) (ap_store acc) in
          Ok (MkApplied st (alter clear_pending (account_key env) (ap_states acc)) (ap_banned acc) (ap_releases acc ++ [release_of queued_tx])
                (ap_cleanup acc) (ap_removed acc ++ [q_hash queued_tx]))
        else Ok acc
    | None => Ok acc end = Ok acc1 /\
    shrunk (version q) (store q) (account_states q) (ap_store acc1) (settled acc1) (ap_removed acc1) /\ ap_banned acc1 = ap_banned acc /\
    (forall h, is_Some (by_hash (ap_store acc1) !! h) -> is_Some (by_hash (ap_store acc) !! h)) /\ by_hash (ap_store acc1) !! hash_xdr env = None) as (acc1 & E1 & Hsh1 & Eb & Hsub & Hgone).
  { rewrite Elook. destruct (transaction _) as [tx|] eqn:Et.
    - destruct (proj1 (acc_pending _ _ _ (Ha (account_key env)) tx) Et) as [Hin Hsrc]. pose proof (proj1 (elem_of_vals_at _ tx Hm) Hin) as Hh.
      destruct (Z.leb_spec (envelope_sequence_number (q_envelope tx)) seq) as [Hle|Hgt].
      + destruct (store_remove_ok (version q) (ap_store acc) (q_hash tx) Hs) as (s' & -> & Hs' & Ed & Es & Hq). simpl. eexists. split; [done|]. simpl.
        rewrite <- Hsrc, release_later. split; [|split; [done|split]].
        * eapply shrunk_trans; [exact Hsh|]. by apply shrunk_dropped.
        * intros h. rewrite Ed. intros [t Ht]. apply lookup_delete_Some in Ht as [_ Ht]. by exists t.
        * rewrite Ed. destruct (delete (q_hash tx) (by_hash (ap_store acc)) !! hash_xdr env) as [t|] eqn:Eh; [|done]. exfalso.
          apply lookup_delete_Some in Eh as [Hne' Eh]. destruct (applied_pending q acc (env, seq) t Hsh Hx Eh) as [Hp _]. simpl in Hp.
          rewrite Et in Hp. injection Hp as ->. destruct (Hm _ _ Eh). congruence.
      + exists acc. split; [done|]. split; [done|]. split; [done|]. split; [done|]. apply eq_None_not_Some. intros [t Eh].
        destruct (applied_pending q acc (env, seq) t Hsh Hx Eh) as [Hp Hle]. simpl in Hp, Hle. rewrite Et in Hp. injection Hp as ->. lia.
    - exists acc. split; [done|]. split; [done|]. split; [done|]. split; [done|]. apply eq_None_not_Some. intros [t Eh].
      destruct (applied_pending q acc (env, seq) t Hsh Hx Eh) as [Hp _]. simpl in Hp. congruence. }
  match goal with |- context [result_bind ?M _] => assert (M = Ok acc1) as -> by exact E1 end.
  simpl. eexists. split; [done|]. rewrite Eb. split.
  - split; simpl; [done| |by apply newest_nonempty]. intros h Hh. apply not_true_is_false. intros [Hban|Hban]%in_bans_newest.
    + rewrite (Hb h (Hsub h Hh)) in Hban. done.
    + apply elem_of_singleton in Hban as ->. rewrite Hgone in Hh. by destruct Hh.
  - intros h. simpl. split; [intros [?|?%elem_of_singleton]%in_bans_newest; tauto|]. intros Hor. apply newest_in_bans; [done|]. by rewrite elem_of_singleton.
Qed.

Lemma framed_refl q : framed q q.
Proof. exists (store q), (seen q), (eviction_thresholds q), (banned_transactions q), (account_states q). by destruct q. Qed.

Lemma gone_nil q : txqueue_ok q -> gone_from q q [].
Proof. intros Hok. split; [apply framed_refl|by apply shrunk_nil, tq_sound]. Qed.

Lemma apply_all_ok q applied : forall acc, applying q acc -> (forall x, x ∈ applied -> applied_ok q x) ->
  exists acc', try_fold (apply_one (version q)) applied acc = Ok acc' /\ applying q acc' /\
    forall h, in_bans h (ap_banned acc') = true <-> in_bans h (ap_banned acc) = true \/ h ∈ (fun x => hash_xdr x.1) <$> applied.
Proof.
  induction applied as [|x applied IH]; intros acc Hacc Hx.
  { exists acc. split; [done|]. split; [done|]. intros h. split; [by left|]. intros [?|?%elem_of_nil]; done. }
  cbn [try_fold]. destruct (apply_one_ok q acc x Hacc (Hx x ltac:(left))) as (acc1 & -> & Hacc1 & Hb1). cbn [result_bind].
  destruct (IH acc1 Hacc1 (fun y Hy => Hx y (proj2 (elem_of_cons _ _ _) (or_intror Hy)))) as (acc' & -> & Hacc' & Hb').
  exists acc'. split; [done|]. split; [done|]. intros h. rewrite Hb', Hb1. csimpl. rewrite elem_of_cons. tauto.
Qed.

Lemma remove_applied_ok q applied : txqueue_ok q -> (forall x, x ∈ applied -> applied_ok q x) ->
  exists q' hs, remove_applied applied q = Ok q' /\ txqueue_ok q' /\ gone_from q q' hs /\
    forall h, is_banned h q' = true <-> is_banned h q = true \/ h ∈ (fun x => hash_xdr x.1) <$> applied.
Proof.
  intros Hok Hx. unfold remove_applied. case_bool_decide as E.
  { exists q, []. split; [done|]. split; [done|]. split; [by apply gone_nil|]. apply length_zero_iff_nil in E as ->.
    intros h. split; [by left|]. intros [?|?%elem_of_nil]; done. }
  destruct (apply_all_ok q applied (MkApplied (store q) (account_states q) (banned_transactions q) [] [] [])) as (acc & -> & [Hsh Hb Hne] & Hbans); [|done|].
  { split; simpl; [by apply shrunk_nil, tq_sound|apply Hok|apply Hok]. }
  cbn [result_bind]. eexists. exists (ap_removed acc). split; [done|].
  apply (shrunk_cleanup _ _ _ _ _ _ (ap_cleanup acc)) in Hsh. split; [|split].
  - apply (shrunk_ok q _ _ _ _ _ (ap_removed acc) Hok Hsh); [|done|].
    + case_bool_decide; [apply (ready_thresholds _ _ (tq_ready q Hok))|apply reset_ok].
    + intros h Hh [t Ht]. apply Hb. rewrite (shr_txs _ _ _ _ _ _ Hsh), lookup_without, bool_decide_false by done. by exists t.
  - split; [by eexists _, _, _, _, _|done].
  - intros h. apply Hbans.
Qed.

(** ** A stale transaction *)

Lemma release_removed k p fee b st j : ~ (k = p /\ TxQueue.is_empty (state_of st p) = true) ->
  but_age (state_of (alter (release_fee fee b) p st) j) (state_of (alter (release_fee fee b) p (remove_if_empty k st)) j).
Proof.
  intros Hne. rewrite !state_of_alter.
  assert (is_Some (remove_if_empty k st !! p) <-> is_Some (st !! p)) as Hsome.
  { unfold remove_if_empty. destruct (st !! k) as [s|] eqn:E; [|done]. destruct (TxQueue.is_empty s) eqn:Ee; [|done].
    rewrite lookup_delete_ne; [done|]. intros ->. apply Hne. split; [done|]. unfold state_of. by rewrite E. }
  rewrite (bool_decide_ext (j = p /\ is_Some (remove_if_empty k st !! p)) (j = p /\ is_Some (st !! p))) by (by rewrite Hsome).
  pose proof (remove_if_empty_but_age k st) as Hb. case_bool_decide; [|apply Hb]. destruct (Hb p) as (B1 & B2 & B3 & B4).
  unfold release_fee, count_down, put_fees. destruct b; repeat split; simpl; congruence.
Qed.

Lemma drop_stale_ok q account seq : txqueue_ok q -> exists q' b hs, drop_stale_pending account seq q = Ok (q', b) /\ txqueue_ok q' /\ gone_from q q' hs /\
  banned_transactions q' = banned_transactions q.
Proof.
  intros Hok. pose proof (tq_sound q Hok) as Hsound. pose proof Hsound as [Hs Ha Hf]. pose proof (tq_txs q Hok) as Hm. unfold drop_stale_pending.
  assert (exists q' b hs, Ok (q, false) = Ok (q', b) :> result _ Panic /\ txqueue_ok q' /\ gone_from q q' hs /\ banned_transactions q' = banned_transactions q) as Hstay.
  { exists q, false, []. split; [done|]. split; [done|]. split; [by apply gone_nil|done]. }
  assert (account_states q !! account ≫= transaction = transaction (state_of (account_states q) account)) as -> by (unfold state_of; by destruct (account_states q !! account)).
  destruct (transaction _) as [tx|] eqn:Et; [|exact Hstay]. destruct (_ <? _); [exact Hstay|].
  destruct (proj1 (acc_pending _ _ _ (Ha account) tx) Et) as [Hin Hsrc]. pose proof (proj1 (elem_of_vals_at _ tx Hm) Hin) as Hh.
  destruct (store_remove_ok (version q) (store q) (q_hash tx) Hs) as (s' & -> & Hs' & Ed & Es & Hq). cbn [result_bind]. subst account.
  pose proof (shrunk_dropped _ _ _ tx s' Hsound Hh Hs' Ed Hq Es) as Hsh.
  eexists. exists true, [q_hash tx]. split; [done|].
  match goal with |- txqueue_ok (update q s' _ _ _ ?X) /\ _ => set (st' := X) end.
  assert (shrunk (version q) (store q) (account_states q) s' st' [q_hash tx]) as Hsh'.
  { destruct Hsh as [S T A F Q E U K]. split; try done.
    - unfold st'. apply remove_if_empty_ok. intros k. specialize (A k). revert A. apply account_but_age. unfold dropped, released. apply release_removed.
      intros [Esp Hemp]. unfold TxQueue.is_empty in Hemp. rewrite !andb_true_iff, !Z.eqb_eq in Hemp. destruct Hemp as [[[_ Hfee] _] _].
      assert (total_fees (state_of (account_states q) (payer tx)) = 0) as H0'.
      { rewrite <- Hfee, state_of_alter. case_bool_decide as E'; [|done]. by destruct E' as [-> _]. }
      rewrite (acc_fees _ _ _ (Ha (payer tx))), (vals_delete _ _ tx Hh) in H0'. simpl in H0'. unfold owed at 1 in H0'. rewrite bool_decide_true in H0' by done.
      pose proof (proj1 Hf tx Hin). pose proof (fees_nonneg _ (payer tx) (fees_ok_delete _ (q_hash tx) Hf)). lia.
    - intros t Hne. unfold st'. eapply untouched_trans; [|apply untouched_remove]. eapply untouched_trans; [|apply untouched_release].
      eapply untouched_trans; [|apply untouched_remove]. intros Ht. apply untouched_clear; [|done]. intros Es'. rewrite Es', Et in Ht. injection Ht as ->. apply Hne. left.
    - unfold st'. eapply keeps_trans; [|apply keeps_remove]. eapply keeps_trans; [|apply keeps_release]. eapply keeps_trans; [|apply keeps_remove]. apply keeps_clear. }
  split; [|split; [split; [by eexists _, _, _, _, _|done]|done]].
  apply (shrunk_ok q s' _ _ _ st' [q_hash tx] Hok Hsh'); [apply reset_ok|apply Hok|]. intros h _. apply Hok.
Qed.
End ops.

(** ** ageing after a ledger

    Each account with a pending transaction ages by one; at the depth of the queue the
    transaction leaves and is banned, and the oldest bans are lifted. *)

Section shift.
Context `{EnvelopeXdr} `{HashIteration}.
Implicit Types m : gmap (list Z) QueuedTransaction.
Implicit Types st : gmap Uint256 AccountState.
Implicit Types tx : QueuedTransaction.
Implicit Types q : TransactionQueue.
Implicit Types h : list Z.
Implicit Types k : Uint256.

Notation payer tx := (fee_source_key (q_envelope tx)).
Notation source tx := (account_key (q_envelope tx)).
Notation version q := (protocol_version (validation_context q)).

(** ** States that differ in ages only *)

Definition near st st' : Prop := forall k, (is_Some (st !! k) <-> is_Some (st' !! k)) /\ but_age (state_of st k) (state_of st' k).

Lemma near_release fee b p st st' : near st st' -> near (alter (release_fee fee b) p st) (alter (release_fee fee b) p st').
Proof.
  intros Hn k. destruct (Hn k) as [Hi Hb]. split.
  - destruct (decide (p = k)) as [->|Hne]; [|by rewrite !lookup_alter_ne]. by rewrite !lookup_alter_eq, !fmap_is_Some.
  - rewrite !state_of_alter. destruct (Hn p) as [Hip Hbp].
    rewrite (bool_decide_ext (k = p /\ is_Some (st' !! p)) (k = p /\ is_Some (st !! p))) by (by rewrite Hip).
    case_bool_decide; [|done]. destruct Hbp as (B1 & B2 & B3 & B4). unfold release_fee, count_down, put_fees. destruct b; repeat split; simpl; congruence.
Qed.

Lemma near_releases rels : forall st st', near st st' -> near (foldl apply_release st rels) (foldl apply_release st' rels).
Proof. induction rels as [|[[p fee] b] rels IH]; intros st st' Hn; [done|]. simpl. apply IH. by apply near_release. Qed.

Lemma near_accounts m st st' : near st st' -> accounts_ok m st -> accounts_ok m st'.
Proof. intros Hn Ha k. specialize (Ha k). revert Ha. apply account_but_age, Hn. Qed.

Lemma state_of_insert k s st j : state_of (<[k := s]> st) j = if bool_decide (j = k) then s else state_of st j.
Proof. unfold state_of. case_bool_decide as E; [subst; by rewrite lookup_insert_eq|by rewrite lookup_insert_ne]. Qed.

Lemma near_insert k s s' st : st !! k = Some s -> but_age s s' -> near st (<[k := s']> st).
Proof.
  intros Hk Hb j. split.
  - destruct (decide (k = j)) as [->|Hne]; [|by rewrite lookup_insert_ne]. by rewrite lookup_insert_eq, Hk.
  - rewrite state_of_insert. case_bool_decide as E; [|done]. subst. unfold state_of. by rewrite Hk.
Qed.

Lemma near_clear k s a st : st !! k = Some s -> near (alter clear_pending k st) (<[k := put_age a (put_transaction None s)]> st).
Proof.
  intros Hk j. split.
  - destruct (decide (k = j)) as [->|Hne]; [|by rewrite lookup_insert_ne, lookup_alter_ne]. by rewrite lookup_insert_eq, lookup_alter_eq, Hk.
  - rewrite state_of_insert, state_of_alter, Hk. case_bool_decide as E; case_bool_decide as E2.
    + unfold state_of. by rewrite Hk.
    + destruct E2. destruct E. done.
    + exfalso. apply E. by split.
    + done.
Qed.

(** ** One account after another *)

Notation settled acc := (foldl apply_release (ag_states acc) (ag_releases acc)).

(** After the accounts of [visited]. *)
Record aging q (visited : list Uint256) (acc : Aged) : Prop := {
  age_store : store_ok (version q) (ag_store acc);
  age_txs : by_hash (ag_store acc) = without (by_hash (store q)) (ag_evicted acc);
  age_accounts : accounts_ok (by_hash (ag_store acc)) (settled acc);
  age_rest : forall k, k ∉ visited -> ag_states acc !! k = account_states q !! k;
  age_idle : forall k, k ∈ visited -> k ∉ ag_remove acc -> transaction (state_of (ag_states acc) k) = None -> age (state_of (ag_states acc) k) = 0;
  age_pending : forall k t, k ∈ visited -> transaction (state_of (ag_states acc) k) = Some t ->
    age (state_of (ag_states acc) k) = age (state_of (account_states q) k) + 1 /\ age (state_of (ag_states acc) k) < pending_depth q;
  age_remove : forall k, k ∈ ag_remove acc -> transaction (state_of (ag_states acc) k) = None /\ zsum (owed k) (vals (by_hash (store q))) = 0;
  age_bans : forall h, in_bans h (ag_banned acc) = true <-> in_bans h (shift_bans (banned_transactions q)) = true \/ h ∈ ag_evicted acc;
  age_nonempty : ag_banned acc <> [];
  age_releases : forall r, r ∈ ag_releases acc -> 0 <= r.1.2;
  age_evicted : forall h, h ∈ ag_evicted acc -> exists t, by_hash (store q) !! h = Some t /\ pending_depth q <= age (state_of (account_states q) (source t)) + 1
}.

Lemma shift_bans_sub h (b : list (gset (list Z))) : in_bans h (shift_bans b) = true -> in_bans h b = true.
Proof.
  unfold in_bans, shift_bans. rewrite !existsb_exists. intros (s & Hs & Hh). exists s. split; [|done]. apply in_app_or in Hs as [Hs|[<-|[]]].
  - destruct b; [done|]. by right.
  - apply bool_decide_eq_true in Hh. by apply elem_of_empty in Hh.
Qed.

Lemma aging_start q : txqueue_ok q -> aging q [] (MkAged (store q) (account_states q) (shift_bans (banned_transactions q)) [] [] [] []).
Proof.
  intros Hok. pose proof (tq_sound q Hok) as [Hs Ha Hf]. split; simpl; try done; try (by intros ? ?%elem_of_nil); try (by intros ? ? ?%elem_of_nil).
  - intros h. split; [by left|]. intros [?|?%elem_of_nil]; done.
  - unfold shift_bans. by destruct (tail _).
Qed.

(** The store while transactions are flooded again. *)
Lemma flood_again v s tx : store_ok v s -> by_hash s !! q_hash tx = Some tx -> Z.of_nat (size (by_hash s)) <= MAX_QUEUED -> queued_ok tx ->
  exists f, mark_for_flood tx v (flood_queue s) = Ok f /\ store_ok v (put_flood f s).
Proof.
  intros Hs Hh Hn Hq. destruct (flood_mark v (by_hash s) (by_hash s) (flood_queue s) tx (store_flood _ _ Hs)) as (f & -> & Hf); try done.
  { unfold count_ok, MAX_QUEUED, u32_max, i64_max in *. lia. }
  exists f. split; [done|]. destruct Hs. by split.
Qed.

Lemma size_aging q visited acc : txqueue_ok q -> aging q visited acc -> Z.of_nat (size (by_hash (ag_store acc))) <= MAX_QUEUED.
Proof. intros Hok Hag. rewrite (age_txs _ _ _ Hag). pose proof (size_without (by_hash (store q)) (ag_evicted acc)). pose proof (tq_size q Hok). lia. Qed.

(** The pending transaction of an account that was not visited yet. *)
Lemma aging_pending q visited acc k s tx : aging q visited acc -> k ∉ visited -> account_states q !! k = Some s -> transaction s = Some tx ->
  ag_states acc !! k = Some s /\ source tx = k /\ by_hash (ag_store acc) !! q_hash tx = Some tx /\ queued_ok tx.
Proof.
  intros Hag Hk Hs Ht. pose proof (age_rest _ _ _ Hag k Hk) as E. rewrite Hs in E. pose proof (store_txs _ _ (age_store _ _ _ Hag)) as Hm.
  assert (transaction (state_of (settled acc) k) = Some tx) as Et.
  { destruct (release_transaction (ag_releases acc) k (ag_states acc)) as [-> _]. unfold state_of. by rewrite E. }
  destruct (proj1 (acc_pending _ _ _ (age_accounts _ _ _ Hag k) tx) Et) as [Hin Hsrc].
  pose proof (proj1 (elem_of_vals_at _ tx Hm) Hin) as Hh. split; [done|]. split; [done|]. split; [done|]. by apply (Hm _ _ Hh).
Qed.

(** An account without a pending transaction is passed over. *)
Lemma aging_skip q visited acc k s : txqueue_ok q -> aging q visited acc -> k ∉ visited -> account_states q !! k = Some s -> transaction s = None -> aging q (visited ++ [k]) acc.
Proof.
  intros Hok Hag Hk Hs Ht. pose proof (age_rest _ _ _ Hag k Hk) as E. rewrite Hs in E. destruct Hag as [A1 A2 A3 A4 A5 A6 A7 A8 A9 A10 A11].
  split; try done.
  - intros j [Hj _]%not_elem_of_app. by apply A4.
  - intros j [Hj | ->%list_elem_of_singleton]%elem_of_app Hr Hn; [by apply A5|]. unfold state_of. rewrite E. simpl.
    destruct (tq_ages q Hok k) as [_ Hz]. unfold state_of in Hz. rewrite Hs in Hz. by apply Hz.
  - intros j t [Hj | ->%list_elem_of_singleton]%elem_of_app Htr; [by apply (A6 j t)|]. unfold state_of in Htr. rewrite E in Htr. simpl in Htr. congruence.
Qed.

(** A transaction that stays ages. *)
Lemma aging_stay q visited acc k s tx s1 reflooded : txqueue_ok q -> aging q visited acc -> k ∉ visited -> account_states q !! k = Some s -> transaction s = Some tx ->
  store_ok (version q) s1 -> by_hash s1 = by_hash (ag_store acc) -> age s + 1 < pending_depth q ->
  aging q (visited ++ [k]) (MkAged s1 (<[k := put_age (age s + 1) s]> (ag_states acc)) (ag_banned acc) (ag_evicted acc) (ag_remove acc) (ag_releases acc) reflooded).
Proof.
  intros Hok Hag Hk Hs Ht Hs1 Et Hd. destruct (aging_pending q visited acc k s tx Hag Hk Hs Ht) as (E & _). destruct Hag as [A1 A2 A3 A4 A5 A6 A7 A8 A9 A10 A11].
  assert (forall j, j <> k -> state_of (<[k := put_age (age s + 1) s]> (ag_states acc)) j = state_of (ag_states acc) j) as Hother.
  { intros j Hne. by rewrite state_of_insert, bool_decide_false. }
  assert (state_of (<[k := put_age (age s + 1) s]> (ag_states acc)) k = put_age (age s + 1) s) as Hself by by rewrite state_of_insert, bool_decide_true.
  split; simpl; try done; rewrite ?Et; try done.
  - apply (near_accounts _ (settled acc)); [|done]. apply near_releases. by apply (near_insert k s).
  - intros j [Hj Hjk]%not_elem_of_app. rewrite lookup_insert_ne; [by apply A4|]. intros <-. apply Hjk. left.
  - intros j Hj Hr Hn. destruct (decide (j = k)) as [->|Hne]; [rewrite Hself in Hn; simpl in Hn; congruence|]. rewrite Hother in Hn |- * by done.
    apply A5; [|done|done]. apply elem_of_app in Hj as [?|?%list_elem_of_singleton]; done.
  - intros j t Hj Hn. destruct (decide (j = k)) as [->|Hne].
    + rewrite Hself. simpl. unfold state_of. by rewrite Hs.
    + rewrite Hother in Hn |- * by done. apply (A6 j t); [|done]. apply elem_of_app in Hj as [?|?%list_elem_of_singleton]; done.
  - intros j Hj. destruct (A7 j Hj) as [Hn Hz]. split; [|done]. destruct (decide (j = k)) as [->|Hne]; [|by rewrite Hother].
    unfold state_of in Hn. rewrite E in Hn. simpl in Hn. congruence.
Qed.

(** At the depth of the queue it leaves, and is banned. *)
Lemma aging_leave q visited acc k s tx s1 s2 reflooded : txqueue_ok q -> aging q visited acc -> k ∉ visited -> account_states q !! k = Some s -> transaction s = Some tx ->
  store_ok (version q) s2 -> by_hash s1 = by_hash (ag_store acc) -> by_hash s2 = delete (q_hash tx) (by_hash s1) -> pending_depth q <= age s + 1 ->
  aging q (visited ++ [k]) (MkAged s2 (<[k := put_age (if total_fees s =? 0 then age s + 1 else 0) (put_transaction None s)]> (ag_states acc))
    (ban_newest {[q_hash tx]} (ag_banned acc)) (ag_evicted acc ++ [q_hash tx]) (if total_fees s =? 0 then ag_remove acc ++ [k] else ag_remove acc)
    (ag_releases acc ++ [release_of tx]) reflooded).
Proof.
  intros Hok Hag Hk Hs Ht Hs2 Et Et2 Hd. destruct (aging_pending q visited acc k s tx Hag Hk Hs Ht) as (E & Hsrc & Hh & Hq). pose proof (store_txs _ _ (age_store _ _ _ Hag)) as Hm.
  destruct Hag as [A1 A2 A3 A4 A5 A6 A7 A8 A9 A10 A11]. set (s' := put_age _ (put_transaction None s)).
  assert (forall j, j <> k -> state_of (<[k := s']> (ag_states acc)) j = state_of (ag_states acc) j) as Hother by (intros j Hne; by rewrite state_of_insert, bool_decide_false).
  assert (state_of (<[k := s']> (ag_states acc)) k = s') as Hself by by rewrite state_of_insert, bool_decide_true.
  assert (fees_ok (by_hash (ag_store acc))) as Hf by (rewrite A2; apply without_fees_ok, Hok).
  assert (forall j, j ∈ visited ++ [k] -> j <> k -> j ∈ visited) as Hold by (intros j [?|?%list_elem_of_singleton]%elem_of_app; done).
  split; simpl; try done; rewrite ?Et2, ?Et.
  - rewrite A2. unfold without. by rewrite foldl_app.
  - apply (near_accounts _ (foldl apply_release (alter clear_pending k (ag_states acc)) (ag_releases acc ++ [release_of tx]))).
    + apply near_releases. by apply near_clear.
    + rewrite <- Hsrc, release_later. by apply (leave_ok (by_hash (ag_store acc))).
  - intros j [Hj Hjk]%not_elem_of_app. rewrite lookup_insert_ne; [by apply A4|]. intros <-. apply Hjk. left.
  - intros j Hj Hr Hn. destruct (decide (j = k)) as [->|Hne].
    + rewrite Hself. unfold s'. simpl. destruct (total_fees s =? 0); [|done]. exfalso. apply Hr, elem_of_app. right. left.
    + rewrite Hother in Hn |- * by done. apply A5; [by apply Hold| |done]. intros Hin. apply Hr. destruct (total_fees s =? 0); [apply elem_of_app; by left|done].
  - intros j t Hj Hn. destruct (decide (j = k)) as [->|Hne]; [by rewrite Hself in Hn|]. rewrite Hother in Hn |- * by done. apply (A6 j t); [by apply Hold|done].
  - assert (forall j, j ∈ ag_remove acc -> transaction (state_of (<[k := s']> (ag_states acc)) j) = None /\ zsum (owed j) (vals (by_hash (store q))) = 0) as Hrm.
    { intros j Hj. destruct (A7 j Hj) as [Hn Hz]. split; [|done]. destruct (decide (j = k)) as [->|Hne]; [by rewrite Hself|by rewrite Hother]. }
    intros j Hj. destruct (Z.eqb_spec (total_fees s) 0) as [Ez|]; [|by apply Hrm]. apply elem_of_app in Hj as [Hj | ->%list_elem_of_singleton]; [by apply Hrm|].
    rewrite Hself. split; [done|]. rewrite <- (acc_fees _ _ _ (tq_accounts q Hok k)). unfold state_of. by rewrite Hs.
  - intros h. rewrite elem_of_app, list_elem_of_singleton. split.
    + intros [Hb|Hb%elem_of_singleton]%in_bans_newest; [apply A8 in Hb; tauto|by right; right].
    + intros Hor. apply newest_in_bans; [done|]. rewrite elem_of_singleton, A8. tauto.
  - by apply newest_nonempty.
  - intros r [Hr | ->%list_elem_of_singleton]%elem_of_app; [by apply A10|]. unfold release_of. simpl. pose proof (queued_fee tx Hq).
    rewrite as_i64_id; [lia|]. unfold is_i64, i64_min, i64_max in *. lia.
  - intros h [Hin | ->%list_elem_of_singleton]%elem_of_app; [by apply A11|]. exists tx. split.
    + rewrite A2, lookup_without in Hh. by case_bool_decide.
    + rewrite Hsrc. unfold state_of. by rewrite Hs.
Qed.

Lemma age_account_ok q visited acc k s : txqueue_ok q -> aging q visited acc -> k ∉ visited -> account_states q !! k = Some s ->
  exists acc', age_account (pending_depth q) (version q) acc (k, s) = Ok acc' /\ aging q (visited ++ [k]) acc'.
Proof.
  intros Hok Hag Hk Hs. unfold age_account. destruct (transaction s) as [tx|] eqn:Ht; [|exists acc; split; [done|by apply (aging_skip q visited acc k s)]].
  destruct (aging_pending q visited acc k s tx Hag Hk Hs Ht) as (E & Hsrc & Hh & Hq). pose proof (size_aging q visited acc Hok Hag) as Hsize.
  assert (as_u32 (age s + 1) = age s + 1) as ->.
  { apply as_u32_id. destruct (tq_ages q Hok k) as [Hr _]. unfold state_of in Hr. rewrite Hs in Hr. simpl in Hr. pose proof (tq_depth q Hok). unfold u32_max in *. lia. }
  assert (exists s1 reflooded, (if (age s + 1 =? 2) || (age s + 1 =? 3) then
      let? flood := mark_for_flood tx (version q) (flood_queue (ag_store acc)) in Ok (put_flood flood (ag_store acc), ag_reflooded acc ++ [q_envelope tx])
    else Ok (ag_store acc, ag_reflooded acc)) = Ok (s1, reflooded) /\ store_ok (version q) s1 /\ by_hash s1 = by_hash (ag_store acc)) as (s1 & reflooded & -> & Hs1 & Et).
  { destruct (_ || _); [|exists (ag_store acc), (ag_reflooded acc); split; [done|]; split; [apply Hag|done]].
    destruct (flood_again (version q) (ag_store acc) tx (age_store _ _ _ Hag) Hh Hsize Hq) as (f & -> & Hf). simpl. eexists. eexists. split; [done|]. by split. }
  simpl. destruct (Z.leb_spec (pending_depth q) (age s + 1)) as [Hd|Hd].
  - destruct (store_remove_ok (version q) s1 (q_hash tx) Hs1) as (s2 & -> & Hs2 & Et2 & _). simpl. eexists. split; [done|].
    by apply (aging_leave q visited acc k s tx s1 s2).
  - eexists. split; [done|]. by apply (aging_stay q visited acc k s tx s1).
Qed.

Lemma age_all_ok q l : forall visited acc, txqueue_ok q -> aging q visited acc -> NoDup (visited ++ l.*1) -> (forall k s, (k, s) ∈ l -> account_states q !! k = Some s) ->
  exists acc', try_fold (age_account (pending_depth q) (version q)) l acc = Ok acc' /\ aging q (visited ++ l.*1) acc'.
Proof.
  induction l as [|[k s] l IH]; intros visited acc Hok Hag Hnd Hl; [exists acc; split; [done|]; by rewrite app_nil_r|]. cbn [try_fold].
  csimpl in Hnd. destruct (age_account_ok q visited acc k s Hok Hag) as (acc1 & -> & Hag1).
  - apply NoDup_app in Hnd as (_ & Hdis & _). intros Hin. apply (Hdis k Hin). left.
  - apply Hl. left.
  - cbn [result_bind]. csimpl. assert (visited ++ k :: l.*1 = (visited ++ [k]) ++ l.*1) as E by by rewrite <- app_assoc.
    rewrite E in Hnd |- *. apply IH; try done. intros k' s' Hin. apply Hl. by right.
Qed.

(** ** Releases, and accounts that go *)

Lemma release_nonpositive rels k : forall st, (forall r, r ∈ rels -> 0 <= r.1.2) -> total_fees (state_of st k) <= 0 ->
  total_fees (state_of (foldl apply_release st rels) k) <= 0.
Proof.
  induction rels as [|[[p fee] b] rels IH]; intros st Hr Hz; [done|]. simpl. apply IH; [intros r Hin; apply Hr; by right|].
  pose proof (Hr _ ltac:(left)) as Hfee. simpl in Hfee. rewrite state_of_alter. case_bool_decide as E; [|done]. destruct E as [-> _].
  unfold release_fee, count_down, put_fees. destruct b; simpl; unfold i64_saturating_sub, saturating, i64_min, i64_max; lia.
Qed.

(** Every account that is marked was marked before or owes nothing after all releases. *)
Lemma release_and_mark_ok rels : forall st marked, (forall r, r ∈ rels -> 0 <= r.1.2) ->
  exists marked', foldl release_and_mark (st, marked) rels = (foldl apply_release st rels, marked') /\
    (forall k, k ∈ marked -> k ∈ marked') /\
    forall k, k ∈ marked' -> k ∈ marked \/ (total_fees (state_of (foldl apply_release st rels) k) <= 0 /\ transaction (state_of (foldl apply_release st rels) k) = None).
Proof.
  induction rels as [|r rels IH]; intros st marked Hr; [exists marked; split; [done|]; split; [done|]; by left|].
  assert (forall r', r' ∈ rels -> 0 <= r'.1.2) as Hr' by (intros r' Hin; apply Hr; by right).
  cbn [foldl]. unfold release_and_mark at 2. cbv zeta. destruct (apply_release st r !! r.1.1) as [s|] eqn:Es.
  2:{ by apply IH. }
  destruct (IH (apply_release st r) (if TxQueue.is_empty s && negb (bool_decide (r.1.1 ∈ marked)) then marked ++ [r.1.1] else marked) Hr') as (marked' & -> & Hsub & Hm).
  exists marked'. split; [done|]. split.
  - intros k Hk. apply Hsub. destruct (_ && _); [apply elem_of_app; by left|done].
  - intros k Hk. destruct (Hm k Hk) as [Hin|?]; [|by right]. destruct (TxQueue.is_empty s && negb (bool_decide (r.1.1 ∈ marked))) eqn:Ee; [|by left].
    apply elem_of_app in Hin as [?| ->%list_elem_of_singleton]; [by left|]. right. apply andb_true_iff in Ee as [Ee _].
    assert (state_of (apply_release st r) r.1.1 = s) as Est by (unfold state_of; by rewrite Es).
    unfold TxQueue.is_empty in Ee. rewrite !andb_true_iff, Z.eqb_eq, negb_true_iff in Ee. destruct Ee as [[[Et Ef] _] _]. split.
    + apply release_nonpositive; [done|]. rewrite Est. lia.
    + destruct (release_transaction rels r.1.1 (apply_release st r)) as [-> _]. rewrite Est. by destruct (transaction s).
Qed.

(** Nothing is left of an account that owes nothing and has nothing pending. *)
Lemma counted_none m k b : fees_ok m -> zsum (owed k) (vals m) = 0 -> zsum (counted b k) (vals m) = 0.
Proof.
  intros Hf Hz. assert (forall l, (forall t, t ∈ l -> 0 < total_fee t) -> zsum (owed k) l = 0 -> zsum (counted b k) l = 0) as Hl.
  { induction l as [|t l IH]; intros Hp E; [done|]. simpl in *. pose proof (Hp t ltac:(left)) as Ht.
    assert (0 <= zsum (owed k) l) as Hnn.
    { apply zsum_nonneg_in. intros u Hu. unfold owed. case_bool_decide; [|lia]. specialize (Hp u ltac:(by right)). lia. }
    unfold owed at 1 in E. unfold counted at 1. case_bool_decide; [lia|]. simpl. apply IH; [intros u Hu; apply Hp; by right|lia]. }
  apply Hl; [apply Hf|done].
Qed.

Lemma account_gone m st k : fees_ok m -> accounts_ok m st -> zsum (owed k) (vals m) = 0 -> transaction (state_of st k) = None -> account_ok m k AccountState_default.
Proof.
  intros Hf Ha Hz Ht. split; simpl; [by rewrite Hz|by rewrite counted_none|by rewrite counted_none|].
  intros t. rewrite <- (acc_pending _ _ _ (Ha k) t), Ht. done.
Qed.

Lemma delete_marked m marked : forall st, accounts_ok m st -> (forall k, k ∈ marked -> account_ok m k AccountState_default) ->
  accounts_ok m (foldl (fun a k => delete k a) st marked).
Proof.
  induction marked as [|k marked IH]; intros st Ha Hk; [done|]. simpl. apply IH; [|intros j Hj; apply Hk; by right].
  apply delete_account_ok; [done|]. apply Hk. left.
Qed.

Lemma state_of_deletes marked k : forall st, state_of (foldl (fun a k => delete k a) st marked) k = if bool_decide (k ∈ marked) then AccountState_default else state_of st k.
Proof.
  induction marked as [|j marked IH]; intros st; [done|]. simpl. rewrite IH, state_of_delete. repeat case_bool_decide; try done; exfalso; set_solver.
Qed.

(** ** The shift *)

Record shifted q q' (r : ShiftResult) (hs : list (list Z)) : Prop := {
  shf_framed : framed q q';
  shf_txs : by_hash (store q') = without (by_hash (store q)) hs;
  shf_old : forall t, t ∈ vals (by_hash (store q)) -> q_hash t ∈ hs <-> pending_depth q <= age (state_of (account_states q) (source t)) + 1;
  shf_ages : forall t, t ∈ vals (by_hash (store q')) -> age (state_of (account_states q') (source t)) = age (state_of (account_states q) (source t)) + 1;
  shf_bans : forall h, is_banned h q' = true <-> in_bans h (shift_bans (banned_transactions q)) = true \/ h ∈ hs;
  shf_count : evicted_due_to_age r = len hs
}.

(** What the pass over the accounts comes to. *)
Record aged q (acc : Aged) (st : gmap Uint256 AccountState) : Prop := {
  agd_accounts : accounts_ok (by_hash (ag_store acc)) st;
  agd_fees : fees_ok (by_hash (ag_store acc));
  agd_ages : ages_ok (pending_depth q) st;
  agd_pending : forall t, t ∈ vals (by_hash (ag_store acc)) ->
    age (state_of st (source t)) = age (state_of (account_states q) (source t)) + 1 /\ age (state_of st (source t)) < pending_depth q
}.

Lemma aged_ok q acc marked visited : txqueue_ok q -> aging q visited acc -> (forall k, is_Some (account_states q !! k) -> k ∈ visited) ->
  (forall k, k ∈ ag_remove acc -> k ∈ marked) ->
  (forall k, k ∈ marked -> k ∈ ag_remove acc \/ (total_fees (state_of (settled acc) k) <= 0 /\ transaction (state_of (settled acc) k) = None)) ->
  aged q acc (foldl (fun a k => delete k a) (settled acc) marked).
Proof.
  intros Hok Hag Hvis Hsub Hm.
  assert (fees_ok (by_hash (ag_store acc))) as Hf by (rewrite (age_txs _ _ _ Hag); apply without_fees_ok, Hok).
  pose proof (age_accounts _ _ _ Hag) as Ha.
  assert (forall k, transaction (state_of (settled acc) k) = transaction (state_of (ag_states acc) k) /\ age (state_of (settled acc) k) = age (state_of (ag_states acc) k)) as Hsame
    by (intros k; apply release_transaction).
  assert (forall k, k ∈ marked -> transaction (state_of (settled acc) k) = None /\ zsum (owed k) (vals (by_hash (ag_store acc))) = 0) as Hgone.
  { intros k Hk. pose proof (fees_nonneg _ k Hf) as Hnn. destruct (Hm k Hk) as [Hr|[Hz Ht]].
    - destruct (age_remove _ _ _ Hag k Hr) as [Ht Hz]. destruct (Hsame k) as [-> _]. split; [done|].
      rewrite (age_txs _ _ _ Hag) in Hnn |- *. pose proof (owed_without (by_hash (store q)) (ag_evicted acc) k (tq_fees q Hok)). lia.
    - split; [done|]. rewrite (acc_fees _ _ _ (Ha k)) in Hz. lia. }
  assert (forall k, k ∉ visited -> state_of (ag_states acc) k = AccountState_default) as Hnew.
  { intros k Hk. unfold state_of. rewrite (age_rest _ _ _ Hag k Hk). destruct (account_states q !! k) eqn:E; [|done]. exfalso. by apply Hk, Hvis. }
  split; [|done| |].
  - apply delete_marked; [done|]. intros k Hk. destruct (Hgone k Hk). by apply (account_gone _ (settled acc)).
  - intros k. rewrite state_of_deletes. case_bool_decide as Hk; [split; [simpl; lia|done]|]. destruct (Hsame k) as [-> ->].
    destruct (decide (k ∈ visited)) as [Hv|Hv]; [|rewrite Hnew by done; split; [simpl; lia|done]].
    pose proof (age_idle _ _ _ Hag k Hv (fun E => Hk (Hsub k E))) as Hidle. split; [|done].
    destruct (transaction (state_of (ag_states acc) k)) as [t|] eqn:Et; [|rewrite Hidle by done; lia].
    destruct (age_pending _ _ _ Hag k t Hv Et) as [E1 E2]. destruct (tq_ages q Hok k) as [Hr _]. lia.
  - intros t Ht. pose proof (proj2 (acc_pending _ _ _ (Ha (source t)) t) (conj Ht eq_refl)) as Et. rewrite state_of_deletes, bool_decide_false.
    2:{ intros Hk. destruct (Hgone _ Hk) as [En _]. congruence. }
    destruct (Hsame (source t)) as [Es ->]. rewrite Es in Et. destruct (decide (source t ∈ visited)) as [Hv|Hv]; [by apply (age_pending _ _ _ Hag _ t)|].
    rewrite Hnew in Et by done. done.
Qed.

Lemma regenerated_ok q (s : QueueStore) (sn : gset (list Z)) (t : EvictionThresholds) (b : list (gset (list Z))) st (seed : Z) : txqueue_ok q -> store_ok (version q) s -> Z.of_nat (size (by_hash s)) <= MAX_QUEUED ->
  accounts_ok (by_hash s) st -> fees_ok (by_hash s) -> ages_ok (pending_depth q) st -> b <> [] -> (forall h, is_Some (by_hash s !! h) -> in_bans h b = false) ->
  txqueue_ok (invalidate_all_eviction_state seed (update q s sn t b st)).
Proof.
  intros Hok Hs Hn Ha Hf Hg Hne Hb. pose proof (tq_ready q Hok) as [_ _ [Lc Ls Lo] _ _]. split; simpl; try done; try apply Hok.
  split; simpl; [by apply regenerate_ok| |by split|apply reset_ok|by apply count_queued]. split; simpl; by intros.
Qed.

Lemma shift_ok q seed : txqueue_ok q -> exists q' r hs, shift seed q = Ok (q', r) /\ txqueue_ok q' /\ shifted q q' r hs.
Proof.
  intros Hok. unfold shift.
  destruct (age_all_ok q (iterate (account_states q)) [] _ Hok (aging_start q Hok)) as (acc & E & Hag).
  { simpl. rewrite (fmap_Permutation fst _ _ (iterate_perm (account_states q))). apply NoDup_fst_map_to_list. }
  { intros k s Hin. by apply elem_of_iterate in Hin. }
  rewrite E. clear E. cbn [result_bind]. simpl in Hag.
  destruct (release_and_mark_ok (ag_releases acc) (ag_states acc) (ag_remove acc) (age_releases _ _ _ Hag)) as (marked & -> & Hsub & Hm).
  destruct (aged_ok q acc marked _ Hok Hag) as [Ha Hf Hg Hp]; [|done|done|].
  { intros k [s Hs]. apply list_elem_of_fmap. exists (k, s). split; [done|]. by apply elem_of_iterate. }
  set (st := foldl (fun a k => delete k a) _ marked) in *. eexists. eexists. exists (ag_evicted acc). split; [done|].
  pose proof (age_txs _ _ _ Hag) as Et. split; [|split; try done].
  - apply regenerated_ok; try done; [apply (age_store _ _ _ Hag)|by apply (size_aging q _ acc Hok Hag)|apply (age_nonempty _ _ _ Hag)|]. intros h [t Hh]. apply not_true_is_false. intros Hb.
    apply (age_bans _ _ _ Hag) in Hb as [Hb|Hb].
    + apply shift_bans_sub in Hb. rewrite Et, lookup_without in Hh. case_bool_decide; [done|]. pose proof (tq_bans q Hok h ltac:(by eexists)) as Hn. unfold is_banned in Hn. congruence.
    + rewrite Et, lookup_without, bool_decide_true in Hh by done. done.
  - by eexists _, _, _, _, _.
  - intros t Ht. pose proof (proj1 (elem_of_vals_at _ t (tq_txs q Hok)) Ht) as Hh. split.
    + intros Hin. destruct (age_evicted _ _ _ Hag _ Hin) as (t' & Hh' & Hd). rewrite Hh in Hh'. by injection Hh' as <-.
    + intros Hd. destruct (decide (q_hash t ∈ ag_evicted acc)) as [|Hno]; [done|]. exfalso.
      assert (t ∈ vals (by_hash (ag_store acc))) as Ht' by (apply elem_of_vals; exists (q_hash t); by rewrite Et, lookup_without, bool_decide_false).
      destruct (Hp t Ht'). lia.
  - intros t Ht. by apply Hp.
  - intros h. apply (age_bans _ _ _ Hag).
Qed.
End shift.
