(* ===== verification/TxQueueClose.v ===== *)
(** * TxQueueClose: the queue when a ledger closes
      (app/src/app/ledger_close.rs with the methods of herder/src/tx_queue/mod.rs)

    What the node does with its queue after each ledger: applied and failed transactions
    go, the limits follow the new header, pending transactions age, those that became
    invalid are banned, the rest is flooded again. *)

From S2P Require Import Prelude Bucket Ledger Lists Resource Envelope TxSetCheck SurgePricing SurgePricingFacts SurgePricingEvict TxQueueStore TxQueue TxQueueHeld TxQueueStoreFacts TxQueueFits TxQueueAccounts TxQueuePasses TxQueueAdmission TxQueueAdd TxQueueOps.

Definition POOL_LEDGER_MULTIPLIER : Z := 2.
Definition u32_saturating_mul (a b : Z) : Z := saturating 0 u32_max (a * b).

(** The limits of the queue and of the selection; the products of [i64]s wrap. *)
Definition queue_limit_of (info : SorobanNetworkInfo) : result Resource Panic :=
  let m := POOL_LEDGER_MULTIPLIER in
  soroban_ledger_limits (ledger_max_tx_count info * m) (as_i64 (TxSetCheck.ledger_max_instructions info * m)) (ledger_max_tx_size_bytes info * m)
    (ledger_max_read_bytes info * m) (ledger_max_write_bytes info * m) (ledger_max_read_ledger_entries info * m) (ledger_max_write_ledger_entries info * m).
Definition selection_limit_of (info : SorobanNetworkInfo) : result Resource Panic :=
  soroban_ledger_limits (ledger_max_tx_count info) (TxSetCheck.ledger_max_instructions info) (ledger_max_tx_size_bytes info)
    (ledger_max_read_bytes info) (ledger_max_write_bytes info) (ledger_max_read_ledger_entries info) (ledger_max_write_ledger_entries info).

(** What the queue reads of the header of the closed ledger. *)
Record ClosedHeader := MkClosedHeader { ledger_version : Z; header_base_fee : Z; max_tx_set_size : Z }.

Section close.
Context `{EnvelopeXdr} `{HashIteration}.

Definition follow_info (info : option SorobanNetworkInfo) (q : TransactionQueue) : result TransactionQueue Panic :=
  match info with
  | Some info =>
      let? limit := queue_limit_of info in
      let? selection := selection_limit_of info in
      Ok (update_soroban_parallel_limits (TxSetCheck.ledger_max_instructions info) (TxSetCheck.ledger_max_dependent_tx_clusters info)
            (update_soroban_selection_limits selection (update_soroban_resource_limits limit q)))
  | None => Ok q
  end.

(** [invalid] stands for the validation of what is pending against the new ledger. *)
Definition close_update (header : ClosedHeader) (info : option SorobanNetworkInfo) (applied : list (TransactionEnvelope * Z)) (failed : list (list Z))
    (invalid : list TransactionEnvelope -> list (list Z)) (seed flood_seed : Z) (q : TransactionQueue) : result (TransactionQueue * ShiftResult) Panic :=
  let? q := remove_applied applied q in
  let? q := ban failed q in
  let q := update_validation_context (ledger_version header) (header_base_fee header) q in
  let? q := follow_info info q in
  let q := update_classic_queue_capacity (u32_saturating_mul (max_tx_set_size header) POOL_LEDGER_MULTIPLIER) q in
  let? (q, r) := shift seed q in
  let? q := ban (invalid (pending_envelopes q)) q in
  let? q := rebroadcast flood_seed q in
  Ok (q, r).
End close.

Section facts.
Context `{EnvelopeXdr} `{HashIteration}.
Implicit Types q : TransactionQueue.
Implicit Types v : Z.
Implicit Types w : QueuedTransaction -> bool.
Implicit Types m : gmap (list Z) QueuedTransaction.

Notation version q := (protocol_version (validation_context q)).

(** ** Another version of the protocol *)

Lemma uses_version n v v' c env : version_free c -> uses n v c env = uses n v' c env.
Proof. intros Hc. unfold uses. by rewrite (Hc env v v'). Qed.

Lemma admissible_version n v v' c k tx lane : version_free c -> admissible n v c k tx lane -> admissible n v' c k tx lane.
Proof.
  intros Hc [Ar Al An Au Av]. rewrite (uses_version n v v') in Au, Av by done. rewrite (Hc _ v v') in Au. by split.
Qed.

Lemma queue_version n v v' (q : SurgePricingPriorityQueue) : version_free (lane_config q) -> queue_ok n v q -> queue_ok n v' q.
Proof.
  intros Hc [Hn Hne Hla Hco Hli Hse Hsu]. split; try done.
  - intros lane l Hl. destruct (Hse lane l Hl) as [Hs He]. split; [done|]. intros e Hin. destruct (He e Hin) as [E Ha]. split; [done|]. by apply (admissible_version n v).
  - intros lane l Hl. destruct (Hsu lane l Hl) as (r & Hr & Hv & Hd). exists r. split; [done|]. split; [done|]. intros i. rewrite Hd. apply zsum_ext_in.
    intros e _. unfold entry_uses. by rewrite (uses_version n v v').
Qed.

Lemma held_version n v v' w s (q : SurgePricingPriorityQueue) txs : version_free (lane_config q) -> held n v w s q txs -> held n v' w s q txs.
Proof.
  intros Hc [Hq Hs Ht He Htx Hn]. split; try done; [by apply (queue_version n v)|]. intros tx Htxq Hw. destruct (Ht tx Htxq Hw) as (lane & Ha & Hb).
  exists lane. split; [by apply (admissible_version n v)|]. intros i. by rewrite <- (uses_version n v v').
Qed.

Lemma eviction_version v v' s w m o : free_queue o -> eviction_ok v s w m o -> eviction_ok v' s w m o.
Proof. intros Hf Ho q Hq. destruct (Ho q Hq) as [n Hn]. exists n. apply (held_version n v); [by apply Hf|done]. Qed.

(** Only the queue of Soroban transactions depends on it. *)
Lemma store_version v v' s : store_ok v s -> free_queue (classic_eviction_queue s) -> free_queue (global_ops_queue s) ->
  v' = v \/ soroban_eviction_queue s = None -> store_ok v' s.
Proof.
  intros Hs Fc Fg [->|Hn]; [done|]. destruct Hs as [Hm Hi Hc Hso Hg Hf]. split; try done.
  - by apply (eviction_version v).
  - rewrite Hn. by intros q.
  - by apply (eviction_version v).
  - destruct Hf as (txs & Hh & Hin & Hcfg & Hl). exists txs. split; [|done]. apply (held_version 1 v); [|done]. rewrite Hcfg. by intros env.
Qed.

(** ** Changes of the limits *)

Lemma accounts_same q q' : by_hash (store q') = by_hash (store q) -> account_states q' = account_states q -> banned_transactions q' = banned_transactions q ->
  pending_depth q' = pending_depth q -> ready (version q') q' -> txqueue_ok q -> txqueue_ok q'.
Proof.
  intros Et Ea Eb Ed Hr [_ Ha Hf Hb Hn Hg Hd Hne]. split; rewrite ?Et, ?Ea, ?Eb, ?Ed; try done. intros h. unfold is_banned. rewrite Eb. apply Hb.
Qed.

Lemma drop_soroban_ok v s : store_ok v s -> store_ok v (drop_soroban_queue s).
Proof. intros [Hm Hi Hc Hso Hg Hf]. split; try done. Qed.

Lemma drop_global_ok v s : store_ok v s -> store_ok v (drop_global_ops_queue s).
Proof. intros [Hm Hi Hc Hso Hg Hf]. split; try done. Qed.

Lemma soroban_limits_ok q limit : txqueue_ok q -> vec_ok 7 limit -> txqueue_ok (update_soroban_resource_limits limit q).
Proof.
  intros Hok Hv. apply (accounts_same q); try done. pose proof (tq_ready q Hok) as [Hs [Mc Ms Mg Fc Fg] [Lc Ls Lo] [Tc Ts Tg] Hn].
  split; simpl; [by apply drop_soroban_ok|by split|by split| |done]. split; simpl; try done. intros r Hr. by apply elem_of_nil in Hr.
Qed.

Lemma selection_limits_ok q limit : txqueue_ok q -> txqueue_ok (update_soroban_selection_limits limit q).
Proof. intros Hok. apply (accounts_same q); try done. pose proof (tq_ready q Hok) as [Hs [Mc Ms Mg Fc Fg] [Lc Ls Lo] Ht Hn]. split; simpl; [done|by split|by split|done|done]. Qed.

Lemma parallel_update_ok q a b : txqueue_ok q -> txqueue_ok (update_soroban_parallel_limits a b q).
Proof. intros Hok. apply (accounts_same q); try done. pose proof (tq_ready q Hok) as [Hs [Mc Ms Mg Fc Fg] [Lc Ls Lo] Ht Hn]. split; simpl; [done|by split|by split|done|done]. Qed.

Lemma capacity_limit_ok q ops : txqueue_ok q -> 0 <= ops <= i64_max -> txqueue_ok (update_classic_queue_capacity ops q).
Proof.
  intros Hok Hv. apply (accounts_same q); try done. pose proof (tq_ready q Hok) as [Hs [Mc Ms Mg Fc Fg] [Lc Ls Lo] [Tc Ts Tg] Hn].
  split; simpl; [by apply drop_global_ok|by split|by split|by split|done].
Qed.

Lemma context_ok q v fee : txqueue_ok q -> v = version q \/ soroban_eviction_queue (store q) = None -> txqueue_ok (update_validation_context v fee q).
Proof.
  intros Hok Hv. apply (accounts_same q); try done. pose proof (tq_ready q Hok) as [Hs [Mc Ms Mg Fc Fg] [Lc Ls Lo] Ht Hn].
  split; simpl; [by apply (store_version (version q))|by split|by split|done|done].
Qed.

(** The limits of the queue change with the version: the orders of the two changes agree. *)
Lemma context_limits_ok q v fee limit : txqueue_ok q -> vec_ok 7 limit -> txqueue_ok (update_soroban_resource_limits limit (update_validation_context v fee q)).
Proof.
  intros Hok Hv. pose proof (soroban_limits_ok q limit Hok Hv) as H1'. pose proof (context_ok (update_soroban_resource_limits limit q) v fee H1' ltac:(by right)) as H2'.
  exact H2'.
Qed.

Definition info_ok (info : SorobanNetworkInfo) : Prop :=
  0 <= TxSetCheck.ledger_max_instructions info <= i64_max / 2 /\ is_u32 (ledger_max_tx_count info) /\ is_u32 (ledger_max_tx_size_bytes info) /\
  is_u32 (ledger_max_read_bytes info) /\ is_u32 (ledger_max_write_bytes info) /\ is_u32 (ledger_max_read_ledger_entries info) /\ is_u32 (ledger_max_write_ledger_entries info).

Lemma seven_ok a b c d e f g : (forall x, x ∈ [a; b; c; d; e; f; g] -> 0 <= x <= i64_max) -> vec_ok 7 (MkResource [a; b; c; d; e; f; g]).
Proof.
  intros Hx. split; [done|]. intros i. unfold dim. simpl. destruct ([a; b; c; d; e; f; g] !! i) as [x|] eqn:E; simpl; [|unfold i64_max; lia].
  apply Hx. by apply list_elem_of_lookup_2 in E.
Qed.

Lemma limits_of_info info : info_ok info -> exists l s, queue_limit_of info = Ok l /\ selection_limit_of info = Ok s /\ vec_ok 7 l.
Proof.
  intros (Hi & Hc & Hz & Hr & Hw & Hre & Hwe). change (i64_max / 2) with 4611686018427387903 in Hi. eexists. eexists. split; [done|]. split; [done|]. unfold POOL_LEDGER_MULTIPLIER.
  assert (as_i64 (TxSetCheck.ledger_max_instructions info * 2) = TxSetCheck.ledger_max_instructions info * 2) as ->.
  { apply as_i64_id. unfold is_i64, i64_min, i64_max in *. lia. }
  apply seven_ok. intros x Hx. unfold is_u32, u32_max, i64_max in *. repeat (apply elem_of_cons in Hx as [->|Hx]; [lia|]). by apply elem_of_nil in Hx.
Qed.

(** ** Flooding again *)

Lemma rebroadcast_ok q seed : txqueue_ok q -> exists f, rebroadcast seed q = Ok (put_store (put_flood f (store q)) q) /\ txqueue_ok (put_store (put_flood f (store q)) q).
Proof.
  intros Hok. pose proof (tq_ready q Hok) as [Hs Hmat Hlim Ht Hn]. pose proof (store_txs _ _ Hs) as Hm. unfold rebroadcast, reset_and_repopulate.
  destruct (flood_start (version q) (has_dex_lane (flood_queue (store q))) seed) as (fq & -> & Hh & Hc & Hl). simpl.
  destruct (held_add_all 1 (version q) every_tx seed (store_values (store q)) fq [] Hh) as (fq' & -> & Hsame & Hh').
  - intros tx Htx. rewrite store_values_perm in Htx. apply elem_of_vals in Htx as [h Hh0]. by destruct (Hm h tx Hh0).
  - rewrite app_nil_r, store_values_perm. by apply vals_nodup.
  - rewrite (len_perm _ _ (store_values_perm (store q))), len_vals. change (len []) with 0. rewrite Z.add_0_r. done.
  - simpl. eexists. split; [done|]. destruct Hsame as (Ec & El & _). rewrite app_nil_r in Hh'.
    apply (accounts_same q); try done. destruct Hs as [S1 S2 S3 S4 S5 S6]. split; simpl; try done.
    + split; try done. exists (store_values (store q)). split; [done|]. split; [|simpl; by rewrite Ec, El].
      intros tx Htx. rewrite store_values_perm in Htx. by apply (elem_of_vals_at _ tx Hm).
    + destruct Hmat. by split.
    + destruct Hlim. by split.
Qed.

(** ** Emptying *)

Lemma emptied_ok q sn s seed seed' : txqueue_ok q -> clear_data seed (store q) = Ok s ->
  txqueue_ok (update (invalidate_all_eviction_state seed' (put_store s q)) (regenerate_eviction_seed seed' s) sn EvictionThresholds_new (banned_transactions q) ∅) /\ by_hash s = ∅.
Proof.
  intros Hok Hs. destruct (clear_regenerate_ok (version q) (store q) seed seed') as (s' & E & Hs' & Et). assert (s' = s) as -> by congruence. split; [|done].
  pose proof (tq_ready q Hok) as [_ _ [Lc Ls Lo] _ _]. split; simpl; rewrite ?Et.
  - split; simpl; [done|by split; simpl; intros|by split|apply reset_ok|rewrite Et; by apply count_queued].
  - intros k. split; try done. intros tx. split; [done|]. intros [[h Hh]%elem_of_vals _]. by rewrite lookup_empty in Hh.
  - split; [intros tx [h Hh]%elem_of_vals; by rewrite lookup_empty in Hh|done].
  - intros h [t Hh]. by rewrite lookup_empty in Hh.
  - done.
  - intros k. split; [|done]. change (0 <= 0 < Z.max 1 (pending_depth q)). lia.
  - apply Hok.
  - apply Hok.
Qed.

Lemma queue_clear_ok q seed seed' : txqueue_ok q -> exists q', TxQueue.clear seed' seed q = Ok q' /\ txqueue_ok q' /\ framed q q' /\ by_hash (store q') = ∅ /\
  banned_transactions q' = banned_transactions q.
Proof.
  intros Hok. unfold TxQueue.clear. destruct (clear_regenerate_ok (version q) (store q) seed seed') as (s & E & _ & Et). rewrite E. cbn [result_bind].
  destruct (emptied_ok q (seen q) s seed seed' Hok E) as [Hok' _]. eexists. split; [done|]. split; [exact Hok'|].
  split; [by eexists _, _, _, _, _|]. by split.
Qed.

(** ** Offering everything again *)

Lemma re_add_all_ok now (validation : TransactionEnvelope -> result unit TxResultCode) envs : forall q n, txqueue_ok q -> admitting q -> (forall env, env ∈ envs -> env_ok env) ->
  exists q' n', try_fold (re_add now validation) envs (q, n) = Ok (q', n') /\ txqueue_ok q' /\ admitting q' /\ framed q q'.
Proof.
  induction envs as [|env envs IH]; intros q n Hok Hadm Henv; [exists q, n; split; [done|]; split; [done|]; split; [done|apply framed_refl]|].
  cbn [try_fold]. unfold re_add at 1. simpl.
  destruct (offer_ok q env now (validation env) Hok Hadm) as (q1 & r & -> & Hok1 & Hout); [intros _; apply Henv; left|]. cbn [result_bind].
  assert (framed q q1) as Hf1.
  { destruct Hout as [(_ & tx & replaced & evs & _ & Had)|[_ Hq]]; [apply (adn_framed _ _ _ _ _ Had)|]. destruct Hq as [-> _]. by eexists _, _, _, _, _. }
  destruct Hf1 as (s1 & sn1 & t1 & b1 & st1 & ->).
  destruct (IH _ (match r with Added => n + 1 | _ => n end) Hok1 (admitting_update _ _ _ _ _ _ Hadm)) as (q' & n' & E & Hok' & Hadm' & Hf); [intros e He; apply Henv; by right|].
  exists q', n'. split; [done|]. split; [done|]. split; [done|]. destruct Hf as (s & sn & t & b & st & ->). by eexists _, _, _, _, _.
Qed.

Lemma rebuild_ok q now seed seed' (validation : TransactionEnvelope -> result unit TxResultCode) : txqueue_ok q -> admitting q ->
  exists q' n, reset_and_rebuild now seed seed' validation q = Ok (q', n) /\ txqueue_ok q' /\ admitting q' /\ framed q q'.
Proof.
  intros Hok Hadm. unfold reset_and_rebuild. destruct (clear_regenerate_ok (version q) (store q) seed' seed) as (s & E & _ & Et). rewrite E. cbn [result_bind].
  destruct (emptied_ok q ∅ s seed' seed Hok E) as [Hok' _].
  destruct (re_add_all_ok now validation (q_envelope <$> store_values (store q)) _ 0 Hok') as (q' & n & E' & Hok2 & Hadm' & Hf).
  - by apply admitting_update, (admitting_update (put_store s q)), (admitting_update q).
  - intros env Henv. apply list_elem_of_fmap in Henv as (tx & -> & Htx). rewrite store_values_perm in Htx. apply elem_of_vals in Htx as [h Hh].
    destruct (tq_txs q Hok h tx Hh) as [_ [He _]]. done.
  - exists q', n. split; [exact E'|]. split; [done|]. split; [done|]. destruct Hf as (s0 & sn & t & b & st & ->). by eexists _, _, _, _, _.
Qed.
End facts.
