(* ===== verification/TxQueueRun.v ===== *)
(** * TxQueueRun: everything that happens to a queue

    The methods as events, the states a queue can reach, and what holds in each: no
    event panics, the invariant is kept, and a transaction that stays in the queue ages
    with every ledger. *)

From S2P Require Import Prelude Bucket Ledger Lists Resource Envelope TxSetCheck SurgePricing SurgePricingFacts SurgePricingEvict TxQueueStore TxQueue TxQueueHeld TxQueueStoreFacts TxQueueFits TxQueueAccounts TxQueuePasses TxQueueAdmission TxQueueAdd TxQueueOps TxQueueClose.

Section run.
Context `{EnvelopeXdr} `{HashIteration}.
Implicit Types q : TransactionQueue.
Implicit Types t : QueuedTransaction.

Notation source tx := (account_key (q_envelope tx)).
Notation version q := (protocol_version (validation_context q)).

(** ** Events *)

Inductive QueueEvent :=
| Offer (now : Z) (validation : result unit TxResultCode) (env : TransactionEnvelope)
| BanHashes (tx_hashes : list (list Z))
| Expire (now : Z)
| LedgerClosed (header : ClosedHeader) (info : option SorobanNetworkInfo) (applied : list (TransactionEnvelope * Z)) (failed : list (list Z))
    (invalid : list TransactionEnvelope -> list (list Z)) (seed flood_seed : Z)
| Shift (seed : Z)
| DropStale (account : Uint256) (on_ledger_seq : Z)
| Clear (seed flood_seed : Z)
| ForgetSeen
| Rebuild (now seed flood_seed : Z) (validation : TransactionEnvelope -> result unit TxResultCode)
| Rebroadcast (flood_seed : Z).

Definition step (e : QueueEvent) (q : TransactionQueue) : result TransactionQueue Panic :=
  match e with
  | Offer now validation env => let? (q, _) := TxQueue.try_add now validation env q in Ok q
  | BanHashes hs => ban hs q
  | Expire now => evict_expired now q
  | LedgerClosed header info applied failed invalid seed flood_seed =>
      let? (q, _) := close_update header info applied failed invalid seed flood_seed q in Ok q
  | Shift seed => let? (q, _) := shift seed q in Ok q
  | DropStale account seq => let? (q, _) := drop_stale_pending account seq q in Ok q
  | Clear seed flood_seed => TxQueue.clear seed flood_seed q
  | ForgetSeen => Ok (clear_seen q)
  | Rebuild now seed flood_seed validation => let? (q, _) := reset_and_rebuild now seed flood_seed validation q in Ok q
  | Rebroadcast seed => rebroadcast seed q
  end.

(** A header the queue can follow: its limits are in range, and those of Soroban come
    with a new version. *)
Definition header_ok q (header : ClosedHeader) (info : option SorobanNetworkInfo) : Prop :=
  0 <= max_tx_set_size header <= MAX_QUEUED / POOL_LEDGER_MULTIPLIER /\
  match info with Some info => info_ok info | None => ledger_version header = version q end.

(** What the rest of the node makes sure of. *)
Definition event_ok q (e : QueueEvent) : Prop :=
  match e with
  | Offer _ validation env => validation = Ok tt -> env_ok env
  | LedgerClosed header info applied _ _ _ _ => header_ok q header info /\ forall x, x ∈ applied -> applied_ok q x
  | _ => True
  end.

(** Ledgers that pass with an event. *)
Definition ledgers (e : QueueEvent) : Z := match e with LedgerClosed _ _ _ _ _ _ _ | Shift _ => 1 | _ => 0 end.
Definition rebuilds (e : QueueEvent) : bool := match e with Rebuild _ _ _ _ => true | _ => false end.

(** ** Transactions that stay *)

Definition age_of q t : Z := age (state_of (account_states q) (source t)).

(** What stays aged by [n], and only for the transactions that were there. *)
Definition stays (n : Z) q q' : Prop := forall t, t ∈ vals (by_hash (store q)) -> t ∈ vals (by_hash (store q')) -> age_of q' t = age_of q t + n.

Definition subset q q' : Prop := forall t, t ∈ vals (by_hash (store q')) -> t ∈ vals (by_hash (store q)).

Lemma gone_stays q q' hs : txqueue_ok q -> txqueue_ok q' -> gone_from q q' hs -> stays 0 q q' /\ subset q q'.
Proof.
  intros Hok Hok' [_ Hsh].
  assert (forall t, t ∈ vals (by_hash (store q')) -> t ∈ vals (by_hash (store q)) /\ q_hash t ∉ hs) as Hin.
  { intros t Ht. pose proof (proj1 (elem_of_vals_at _ t (tq_txs q' Hok')) Ht) as Hh. rewrite (shr_txs _ _ _ _ _ _ Hsh), lookup_without in Hh.
    case_bool_decide; [done|]. split; [|done]. apply elem_of_vals. by eexists. }
  split; [|intros t Ht; by apply Hin]. intros t Ht Ht'. destruct (Hin t Ht') as [_ Hno]. unfold age_of.
  destruct (shr_untouched _ _ _ _ _ _ Hsh t Hno) as [_ ->]; [|lia]. by apply (acc_pending _ _ _ (tq_accounts q Hok (source t))).
Qed.

Lemma same_stays q q' : by_hash (store q') = by_hash (store q) -> account_states q' = account_states q -> stays 0 q q' /\ subset q q'.
Proof. intros Et Ea. split; [intros t _ _; unfold age_of; rewrite Ea; lia|intros t; by rewrite Et]. Qed.

Lemma stays_trans n n' q q1 q' : stays n q q1 /\ subset q q1 -> stays n' q1 q' /\ subset q1 q' -> stays (n + n') q q' /\ subset q q'.
Proof.
  intros [S1 B1] [S2 B2]. split; [|intros t Ht; by apply B1, B2]. intros t Ht Ht'. rewrite (S2 t (B2 t Ht') Ht'), (S1 t Ht (B2 t Ht')). lia.
Qed.

Lemma shift_stays q q' r hs : txqueue_ok q' -> shifted q q' r hs -> stays 1 q q' /\ subset q q'.
Proof.
  intros Hok' Hs. split; [intros t _ Ht'; by apply (shf_ages _ _ _ _ Hs)|]. intros t Ht.
  pose proof (proj1 (elem_of_vals_at _ t (tq_txs q' Hok')) Ht) as Hh. rewrite (shf_txs _ _ _ _ Hs), lookup_without in Hh. case_bool_decide; [done|].
  apply elem_of_vals. by eexists.
Qed.

Lemma offer_stays q q' t0 replaced evs : txqueue_ok q -> by_hash (store q) !! q_hash t0 = None -> admission q q' t0 replaced evs -> stays 0 q q'.
Proof.
  intros Hok Hn Had t Ht Ht'. unfold age_of. destruct (adn_untouched _ _ _ _ _ Had t Ht') as [_ ->]; [| |lia].
  - intros ->. pose proof (proj1 (elem_of_vals_at _ t0 (tq_txs q Hok)) Ht). congruence.
  - by apply (acc_pending _ _ _ (tq_accounts q Hok (source t))).
Qed.

(** ** After a ledger *)

Lemma framed_trans q q1 q' : framed q q1 -> framed q1 q' -> framed q q'.
Proof. intros (s & sn & t & b & st & ->) (s' & sn' & t' & b' & st' & ->). by eexists _, _, _, _, _. Qed.

Lemma framed_depth q q' : framed q q' -> pending_depth q' = pending_depth q.
Proof. by intros (s & sn & t & b & st & ->). Qed.

Lemma framed_admitting q q' : framed q q' -> admitting q -> admitting q'.
Proof. intros (s & sn & t & b & st & ->). apply admitting_update. Qed.

Lemma gone_subset q q' hs x : txqueue_ok q -> txqueue_ok q' -> gone_from q q' hs -> applied_ok q x -> applied_ok q' x.
Proof. intros Hok Hok' Hg Hx t Ht. apply Hx. by apply (gone_stays q q' hs). Qed.

Lemma follow_ok q header info : txqueue_ok q -> admitting q -> header_ok q header info ->
  exists q1, follow_info info (update_validation_context (ledger_version header) (header_base_fee header) q) = Ok q1 /\
    let q' := update_classic_queue_capacity (u32_saturating_mul (max_tx_set_size header) POOL_LEDGER_MULTIPLIER) q1 in
    txqueue_ok q' /\ admitting q' /\ by_hash (store q') = by_hash (store q) /\ account_states q' = account_states q /\ pending_depth q' = pending_depth q.
Proof.
  intros Hok [_ Hprov] [Hsize Hinfo]. set (ops := u32_saturating_mul _ _).
  assert (0 <= ops <= MAX_QUEUED) as Hops.
  { unfold ops, u32_saturating_mul, saturating, POOL_LEDGER_MULTIPLIER, MAX_QUEUED, u32_max in *. change ((2 ^ 31 - 1) / 2) with 1073741823 in Hsize. lia. }
  assert (0 <= ops <= i64_max) as Hops' by (unfold MAX_QUEUED, i64_max in *; lia).
  destruct info as [info|]; unfold follow_info.
  - destruct (limits_of_info info Hinfo) as (l & s & -> & -> & Hl). cbn [result_bind]. eexists. split; [done|]. split; [|by split; [split; [by exists ops|done]|]].
    apply capacity_limit_ok; [|done]. by apply parallel_update_ok, selection_limits_ok, context_limits_ok.
  - eexists. split; [done|]. split; [|by split; [split; [by exists ops|done]|]]. apply capacity_limit_ok; [|done]. apply context_ok; [done|]. by left.
Qed.

Lemma close_ok q header info applied failed (invalid : list TransactionEnvelope -> list (list Z)) seed flood_seed :
  txqueue_ok q -> admitting q -> header_ok q header info -> (forall x, x ∈ applied -> applied_ok q x) ->
  exists q' r, close_update header info applied failed invalid seed flood_seed q = Ok (q', r) /\ txqueue_ok q' /\ admitting q' /\ (stays 1 q q' /\ subset q q') /\
    pending_depth q' = pending_depth q.
Proof.
  intros Hok Hadm Hh Hx. unfold close_update.
  destruct (remove_applied_ok q applied Hok Hx) as (q1 & hs1 & -> & Hok1 & Hg1 & _). cbn [result_bind]. pose proof (gone_stays q q1 hs1 Hok Hok1 Hg1) as S1.
  destruct (ban_ok q1 failed Hok1) as (q2 & -> & Hok2 & Hg2 & _). cbn [result_bind]. pose proof (gone_stays q1 q2 failed Hok1 Hok2 Hg2) as S2.
  pose proof (framed_trans _ _ _ (proj1 Hg1) (proj1 Hg2)) as F2.
  destruct (follow_ok q2 header info Hok2 (framed_admitting _ _ F2 Hadm)) as (q3 & -> & Hok3 & Hadm3 & Et3 & Ea3 & Ed3).
  { destruct F2 as (s & sn & t & b & st & ->). exact Hh. }
  cbn [result_bind]. set (q4 := update_classic_queue_capacity _ q3) in *. pose proof (same_stays q2 q4 Et3 Ea3) as S3.
  destruct (shift_ok q4 seed Hok3) as (q5 & r & hs5 & -> & Hok5 & Hs5). cbn [result_bind]. pose proof (shift_stays q4 q5 r hs5 Hok5 Hs5) as S5.
  destruct (ban_ok q5 (invalid (pending_envelopes q5)) Hok5) as (q6 & -> & Hok6 & Hg6 & _). cbn [result_bind]. pose proof (gone_stays q5 q6 _ Hok5 Hok6 Hg6) as S6.
  destruct (rebroadcast_ok q6 flood_seed Hok6) as (f & -> & Hok7). cbn [result_bind]. set (q7 := put_store _ q6) in *.
  pose proof (same_stays q6 q7 eq_refl eq_refl) as S7. exists q7, r. split; [done|]. split; [done|].
  split; [apply admitting_update, (framed_admitting q5), (framed_admitting q4); [apply Hg6|apply Hs5|done]|]. split.
  - pose proof (stays_trans _ _ _ _ _ (stays_trans _ _ _ _ _ (stays_trans _ _ _ _ _ S1 S2) S3) S5) as S. pose proof (stays_trans _ _ _ _ _ (stays_trans _ _ _ _ _ S S6) S7) as S'. exact S'.
  - transitivity (pending_depth q5); [by apply (framed_depth q5 q6), Hg6|]. rewrite (framed_depth q4 q5), Ed3 by apply Hs5. by apply framed_depth.
Qed.

(** ** One event *)

Record stepped (e : QueueEvent) q q' : Prop := {
  stp_ok : txqueue_ok q';
  stp_admitting : admitting q';
  stp_depth : pending_depth q' = pending_depth q;
  stp_stays : rebuilds e = false -> stays (ledgers e) q q'
}.

Lemma stepped_gone e q q' hs : txqueue_ok q -> admitting q -> txqueue_ok q' -> gone_from q q' hs -> ledgers e = 0 -> stepped e q q'.
Proof.
  intros Hok Hadm Hok' Hg He. split; [done|by apply (framed_admitting q); [apply Hg|]|by apply framed_depth, Hg|].
  intros _. rewrite He. by apply (gone_stays q q' hs).
Qed.

Lemma step_ok q e : txqueue_ok q -> admitting q -> event_ok q e -> exists q', step e q = Ok q' /\ stepped e q q'.
Proof.
  intros Hok Hadm He. destruct e as [now validation env|hs|now|header info applied failed invalid seed flood_seed|seed|account seq|seed flood_seed| |now seed flood_seed validation|seed]; simpl in *.
  - destruct (offer_ok q env now validation Hok Hadm He) as (q' & r & -> & Hok' & Hout). exists q'. split; [done|].
    destruct Hout as [(_ & tx & replaced & evs & Hr & Had)|[_ Hq]].
    + split; [done|by apply (framed_admitting q); [apply (adn_framed _ _ _ _ _ Had)|]|by apply framed_depth, (adn_framed _ _ _ _ _ Had)|].
      intros _. apply (offer_stays q q' tx replaced evs); [done|apply Hr|done].
    + split; [done|by apply (admitting_quiet q)|by destruct Hq as [-> _]|]. intros _. apply same_stays; [by apply quiet_txs|by destruct Hq as [-> _]].
  - destruct (ban_ok q hs Hok) as (q' & -> & Hok' & Hg & _). exists q'. split; [done|]. by apply (stepped_gone _ _ _ hs).
  - destruct (evict_expired_ok q now Hok) as (q' & hs & -> & Hok' & Hg & _). exists q'. split; [done|]. by apply (stepped_gone _ _ _ hs).
  - destruct He as [Hh Hx]. destruct (close_ok q header info applied failed invalid seed flood_seed Hok Hadm Hh Hx) as (q' & r & -> & Hok' & Hadm' & Hs & Hd).
    exists q'. split; [done|]. split; try done. intros _. apply Hs.
  - destruct (shift_ok q seed Hok) as (q' & r & hs & -> & Hok' & Hs). exists q'. split; [done|].
    split; [done|by apply (framed_admitting q); [apply Hs|]|by apply framed_depth, Hs|]. intros _. by apply (shift_stays q q' r hs).
  - destruct (drop_stale_ok q account seq Hok) as (q' & b & hs & -> & Hok' & Hg & _). exists q'. split; [done|]. by apply (stepped_gone _ _ _ hs).
  - destruct (queue_clear_ok q flood_seed seed Hok) as (q' & -> & Hok' & Hf & Et & _). exists q'. split; [done|]. split; [done|by apply (framed_admitting q)|by apply framed_depth|].
    intros _ t _ Ht. rewrite Et in Ht. apply elem_of_vals in Ht as [h Hh]. by rewrite lookup_empty in Hh.
  - eexists. split; [done|]. split; [|by apply admitting_update|done|intros _; by apply same_stays].
    apply (accounts_same q); try done. pose proof (tq_ready q Hok) as [Hs [Mc Ms Mg Fc Fg] [Lc Ls Lo] Ht Hn]. split; simpl; [done|by split|by split|done|done].
  - destruct (rebuild_ok q now seed flood_seed validation Hok Hadm) as (q' & n & -> & Hok' & Hadm' & Hf). exists q'. split; [done|]. split; [done|done|by apply framed_depth|done].
  - destruct (rebroadcast_ok q seed Hok) as (f & -> & Hok'). eexists. split; [done|]. split; [done|by apply admitting_update|done|]. intros _. by apply same_stays.
Qed.

(** ** Reachable states *)

(** A node sets the capacity and the provider of balances before its first transaction. *)
Definition prepared (ops : Z) (provider : FeeBalanceProvider) (q : TransactionQueue) : TransactionQueue :=
  put_provider (Some provider) (update_classic_queue_capacity ops q).

Inductive reachable_queue : TransactionQueue -> Prop :=
| reach_start cfg context ban_depth depth seed flood_seed ops provider q :
    with_depths cfg context ban_depth depth seed flood_seed = Ok q ->
    cfg_ok cfg -> option_ok (vec_ok 7) (max_queue_soroban_resources cfg) -> (0 < ban_depth)%nat -> 0 <= depth <= u32_max ->
    0 <= ops <= MAX_QUEUED -> (forall k b, provider k = Ok (Some b) -> b <= i64_max) ->
    reachable_queue (prepared ops provider q)
| reach_step q e q' : reachable_queue q -> event_ok q e -> step e q = Ok q' -> reachable_queue q'.

Lemma start_ok cfg context ban_depth depth seed flood_seed ops provider q :
  with_depths cfg context ban_depth depth seed flood_seed = Ok q -> cfg_ok cfg -> option_ok (vec_ok 7) (max_queue_soroban_resources cfg) ->
  (0 < ban_depth)%nat -> 0 <= depth <= u32_max -> 0 <= ops <= MAX_QUEUED -> (forall k b, provider k = Ok (Some b) -> b <= i64_max) ->
  txqueue_ok (prepared ops provider q) /\ admitting (prepared ops provider q).
Proof.
  intros E Hc Hr Hb Hd Ho Hp. unfold with_depths in E. destruct (store_new_ok (protocol_version context) (is_some (max_dex_ops cfg)) seed flood_seed) as (s & Es & Hs & Et).
  assert (classic_eviction_queue s = None /\ soroban_eviction_queue s = None /\ global_ops_queue s = None) as (Ec & Eso & Eg).
  { unfold QueueStore_new in Es. destruct (FloodQueue_new _ _); [|done]. by injection Es as <-. }
  rewrite Es in E. injection E as <-. split.
  - split; simpl; rewrite ?Et.
    + split; simpl; [by apply drop_global_ok| |split; simpl; [done|done|unfold MAX_QUEUED, i64_max in *; lia]|apply reset_ok|rewrite Et; by apply count_queued].
      split; simpl; rewrite ?Ec, ?Eso; by intros.
    + intros k. split; try done. intros tx. split; [done|]. intros [[h Hh]%elem_of_vals _]. by rewrite lookup_empty in Hh.
    + split; [intros tx [h Hh]%elem_of_vals; by rewrite lookup_empty in Hh|done].
    + intros h [t Hh]. by rewrite lookup_empty in Hh.
    + done.
    + intros k. split; [|done]. change (0 <= 0 < Z.max 1 depth). lia.
    + done.
    + destruct ban_depth; [lia|done].
  - split; [by exists ops|by exists provider].
Qed.

Lemma reachable_ok q : reachable_queue q -> txqueue_ok q /\ admitting q.
Proof.
  induction 1 as [cfg context ban_depth depth seed flood_seed ops provider q E Hc Hr Hb Hd Ho Hp|q e q' _ [Hok Hadm] He Es].
  - by apply (start_ok cfg context ban_depth depth seed flood_seed).
  - destruct (step_ok q e Hok Hadm He) as (q2 & E & [S1 S2 _ _]). rewrite Es in E. by injection E as <-.
Qed.

(** ** Runs during which a transaction stays *)

Inductive kept_run t : Z -> TransactionQueue -> TransactionQueue -> Prop :=
| kept_here q : kept_run t 0 q q
| kept_step n q q1 e q2 : kept_run t n q q1 -> event_ok q1 e -> rebuilds e = false -> step e q1 = Ok q2 -> t ∈ vals (by_hash (store q2)) ->
    kept_run t (n + ledgers e) q q2.

Lemma kept_age t n q q' : txqueue_ok q -> admitting q -> t ∈ vals (by_hash (store q)) -> kept_run t n q q' ->
  txqueue_ok q' /\ admitting q' /\ t ∈ vals (by_hash (store q')) /\ age_of q' t = age_of q t + n /\ pending_depth q' = pending_depth q.
Proof.
  intros Hok Hadm Ht Hrun. induction Hrun as [q|n q q1 e q2 Hrun IH He Hr Es Ht2]; [split; [done|]; split; [done|]; split; [done|]; split; [lia|done]|].
  destruct (IH Hok Hadm Ht) as (Hok1 & Hadm1 & Ht1 & Ea & Ed). destruct (step_ok q1 e Hok1 Hadm1 He) as (q2' & E & [S1 S2 S3 S4]). rewrite Es in E. injection E as <-.
  split; [done|]. split; [done|]. split; [done|]. split; [|congruence]. rewrite (S4 Hr t Ht1 Ht2). lia.
Qed.
End run.
