(* ===== verification/TxQueueLedger.v ===== *)
(** * TxQueueLedger: what a closed ledger leaves in the queue, and how long bans last

    A ban is kept at its place among the sets of the last ledgers, one place nearer to
    the end with every ledger, by everything that happens to a queue. What stays after
    a ledger is known exactly. *)


From S2P Require Import Prelude Bucket Ledger Lists Resource Envelope TxSetCheck SurgePricing SurgePricingFacts SurgePricingEvict TxQueueStore TxQueue TxQueueHeld TxQueueStoreFacts TxQueueFits TxQueueAccounts TxQueuePasses TxQueueAdmission TxQueueAdd TxQueueOps TxQueueClose TxQueueRun.

(** ** Places *)

Definition ban_at (b : list (gset (list Z))) (i : nat) (h : list Z) : Prop := exists s, b !! i = Some s /\ h ∈ s.

(** After [n] ledgers what was at place [i + n] is at place [i]. *)
Definition bans_aged (n : nat) (b b' : list (gset (list Z))) : Prop :=
  length b' = length b /\ forall i h, ban_at b (i + n) h -> ban_at b' i h.

Lemma aged_same b : bans_aged 0 b b.
Proof. split; [done|]. intros i h. by rewrite Nat.add_0_r. Qed.

Lemma aged_trans n n' b b1 b' : bans_aged n b b1 -> bans_aged n' b1 b' -> bans_aged (n + n') b b'.
Proof. intros [L1 A1] [L2 A2]. split; [congruence|]. intros i h Hb. apply A2, A1. by rewrite <- Nat.add_assoc, (Nat.add_comm n'). Qed.

Lemma aged_then n b b1 b' : bans_aged n b b1 -> bans_aged 0 b1 b' -> bans_aged n b b'.
Proof. intros A1 A2. pose proof (aged_trans n 0 b b1 b' A1 A2) as A. by rewrite Nat.add_0_r in A. Qed.

Lemma aged_ban (new : gset (list Z)) (b : list (gset (list Z))) : bans_aged 0 b (ban_newest new b).
Proof.
  split; [apply length_alter|]. intros i h (s & Hs & Hh). rewrite Nat.add_0_r in Hs. unfold ban_newest.
  destruct (decide (i = length b - 1)%nat) as [->|Hne].
  - exists (new ∪ s). rewrite list_lookup_alter_eq, Hs. split; [done|]. by apply elem_of_union_r.
  - exists s. by rewrite list_lookup_alter_ne.
Qed.

Lemma aged_shift (b : list (gset (list Z))) : b <> [] -> bans_aged 1 b (shift_bans b).
Proof.
  intros Hne. destruct b as [|s0 b]; [done|]. unfold shift_bans. split; [simpl; rewrite length_app; simpl; lia|].
  intros i h (s & Hs & Hh). rewrite Nat.add_1_r in Hs. exists s. split; [|done]. simpl in *. by apply lookup_app_l_Some.
Qed.

Lemma newest_at (new : gset (list Z)) (b : list (gset (list Z))) h : b <> [] -> h ∈ new -> ban_at (ban_newest new b) (length b - 1) h.
Proof.
  intros Hne Hh. destruct (lookup_lt_is_Some_2 b (length b - 1)) as [s Hs]; [destruct b; [done|simpl; lia]|].
  exists (new ∪ s). unfold ban_newest. rewrite list_lookup_alter_eq, Hs. split; [done|]. by apply elem_of_union_l.
Qed.

Lemma ban_at_in b i h : ban_at b i h -> in_bans h b = true.
Proof.
  intros (s & Hs & Hh). unfold in_bans. rewrite existsb_exists. exists s. split; [|by apply bool_decide_eq_true].
  apply list_elem_of_In. by apply list_elem_of_lookup_2 in Hs.
Qed.

Section bans.
Context `{EnvelopeXdr} `{HashIteration}.
Implicit Types q : TransactionQueue.

(** ** What each operation does to the bans *)

Lemma remove_hashes_bans hs b q q' : remove_hashes hs b q = Ok q' -> banned_transactions q' = b.
Proof. unfold remove_hashes. destruct (try_fold _ _ _) as [[[s st] d]|]; [|done]. simpl. by intros [= <-]. Qed.

Lemma ban_aged hs q q' : ban hs q = Ok q' -> bans_aged 0 (banned_transactions q) (banned_transactions q').
Proof. unfold ban. case_bool_decide; [intros [= <-]; apply aged_same|]. intros ->%remove_hashes_bans. apply aged_ban. Qed.

Lemma fold_aged {S A E} (f : S -> A -> result S E) (bans : S -> list (gset (list Z))) l : (forall s x s', f s x = Ok s' -> bans_aged 0 (bans s) (bans s')) ->
  forall s s', try_fold f l s = Ok s' -> bans_aged 0 (bans s) (bans s').
Proof.
  intros Hf. induction l as [|x l IH]; intros s s' Es; simpl in Es; [injection Es as ->; apply aged_same|].
  destruct (f s x) as [s1|] eqn:E1; [|done]. by eapply aged_then; [apply (Hf s x)|apply IH].
Qed.

Lemma apply_one_aged v acc x acc' : apply_one v acc x = Ok acc' -> bans_aged 0 (ap_banned acc) (ap_banned acc').
Proof.
  destruct x as [env seq]. unfold apply_one. intros Ea.
  match type of Ea with result_bind ?M _ = _ => destruct M as [acc1|] eqn:E1; [|done] end. simpl in Ea. injection Ea as <-. simpl.
  assert (ap_banned acc1 = ap_banned acc) as ->; [|apply aged_ban]. destruct (_ ≫= transaction) as [t|]; [|by injection E1 as <-].
  destruct (_ <=? _); [|by injection E1 as <-]. destruct (store_remove _ _ _) as [[s o]|]; [|done]. simpl in E1. by injection E1 as <-.
Qed.

Lemma remove_applied_aged applied q q' : remove_applied applied q = Ok q' -> bans_aged 0 (banned_transactions q) (banned_transactions q').
Proof.
  unfold remove_applied. case_bool_decide; [intros [= <-]; apply aged_same|]. destruct (try_fold _ _ _) as [acc|] eqn:Ea; [|done].
  simpl. intros [= <-]. simpl. by apply (fold_aged _ ap_banned _ (apply_one_aged _)) in Ea.
Qed.

Lemma age_account_aged d v acc x acc' : age_account d v acc x = Ok acc' -> bans_aged 0 (ag_banned acc) (ag_banned acc').
Proof.
  destruct x as [k s]. unfold age_account. destruct (transaction s) as [t|]; [|intros [= <-]; apply aged_same]. intros Ea.
  match type of Ea with result_bind ?M _ = _ => destruct M as [[s1 r]|]; [|done] end. cbn [result_bind] in Ea.
  destruct (_ <=? _); [|injection Ea as <-; apply aged_same]. destruct (store_remove _ _ _) as [[s2 o]|]; [|done]. cbn [result_bind] in Ea.
  injection Ea as <-. apply aged_ban.
Qed.

Lemma shift_aged seed q q' r : banned_transactions q <> [] -> shift seed q = Ok (q', r) -> bans_aged 1 (banned_transactions q) (banned_transactions q').
Proof.
  intros Hne. unfold shift. destruct (try_fold _ _ _) as [acc|] eqn:Ea; [|done]. cbn [result_bind]. destruct (foldl release_and_mark _ _) as [st marked].
  intros [= <- _]. simpl. eapply aged_then; [by apply aged_shift|]. by apply (fold_aged _ ag_banned _ (age_account_aged _ _)) in Ea.
Qed.

Lemma offer_aged q env now validation q' r : txqueue_ok q -> admitting q -> (validation = Ok tt -> env_ok env) -> TxQueue.try_add now validation env q = Ok (q', r) ->
  bans_aged 0 (banned_transactions q) (banned_transactions q').
Proof.
  intros Hok Hadm He Ea. destruct (offer_ok q env now validation Hok Hadm He) as (q1 & r1 & E1 & _ & Hout). rewrite Ea in E1. injection E1 as <- <-.
  destruct Hout as [(_ & tx & replaced & evs & _ & Had)|[_ Hq]]; [rewrite (adn_bans _ _ _ _ _ Had); apply aged_ban|]. destruct Hq as [-> _]. apply aged_same.
Qed.

Lemma re_add_aged now (validation : TransactionEnvelope -> result unit TxResultCode) envs : forall q n q' n', txqueue_ok q -> admitting q -> (forall env, env ∈ envs -> env_ok env) ->
  try_fold (re_add now validation) envs (q, n) = Ok (q', n') -> bans_aged 0 (banned_transactions q) (banned_transactions q').
Proof.
  induction envs as [|env envs IH]; intros q n q' n' Hok Hadm Henv Ea; cbn [try_fold] in Ea; [injection Ea as <- <-; apply aged_same|].
  unfold re_add at 1 in Ea. simpl in Ea. assert (validation env = Ok tt -> env_ok env) as He by (intros _; apply Henv; left).
  destruct (offer_ok q env now (validation env) Hok Hadm He) as (q1 & r & E1 & Hok1 & Hout). pose proof (offer_aged _ _ _ _ _ _ Hok Hadm He E1) as A1.
  rewrite E1 in Ea. cbn [result_bind] in Ea. eapply aged_then; [exact A1|]. eapply (IH q1); [done| |intros e Hin; apply Henv; by right|exact Ea].
  destruct Hout as [(_ & tx & replaced & evs & _ & Had)|[_ Hq]]; [by apply (framed_admitting q); [apply (adn_framed _ _ _ _ _ Had)|]|by apply (admitting_quiet q)].
Qed.

Lemma rebuild_aged now seed flood_seed (validation : TransactionEnvelope -> result unit TxResultCode) q q' n : txqueue_ok q -> admitting q ->
  reset_and_rebuild now seed flood_seed validation q = Ok (q', n) -> bans_aged 0 (banned_transactions q) (banned_transactions q').
Proof.
  intros Hok Hadm. unfold reset_and_rebuild. destruct (clear_data flood_seed (store q)) as [s|] eqn:Es; [|done]. cbn [result_bind]. intros Ea.
  destruct (emptied_ok q ∅ s flood_seed seed Hok Es) as [Hok' _]. apply re_add_aged in Ea; [exact Ea|exact Hok'| |].
  - by apply admitting_update, (admitting_update (put_store s q)), (admitting_update q).
  - intros env (tx & -> & Htx)%list_elem_of_fmap. rewrite store_values_perm in Htx. apply elem_of_vals in Htx as [h Hh].
    by destruct (tq_txs q Hok h tx Hh) as [_ [He _]].
Qed.

Lemma follow_bans info q q' : follow_info info q = Ok q' -> banned_transactions q' = banned_transactions q.
Proof.
  unfold follow_info. destruct info as [info|]; [|by intros [= <-]]. destruct (queue_limit_of info); [|done]. cbn [result_bind].
  destruct (selection_limit_of info); [|done]. by intros [= <-].
Qed.

Lemma close_aged header info applied failed (invalid : list TransactionEnvelope -> list (list Z)) seed flood_seed q q' r : txqueue_ok q -> admitting q ->
  header_ok q header info -> (forall x, x ∈ applied -> applied_ok q x) ->
  close_update header info applied failed invalid seed flood_seed q = Ok (q', r) -> bans_aged 1 (banned_transactions q) (banned_transactions q').
Proof.
  intros Hok Hadm Hh Hx. unfold close_update.
  destruct (remove_applied_ok q applied Hok Hx) as (q1 & hs1 & E1 & Hok1 & _). pose proof (remove_applied_aged _ _ _ E1) as A1. rewrite E1. cbn [result_bind].
  destruct (ban_ok q1 failed Hok1) as (q2 & E2 & Hok2 & _). pose proof (ban_aged _ _ _ E2) as A2. rewrite E2. cbn [result_bind].
  destruct (follow_info _ _) as [q3|] eqn:E3; [|done]. apply follow_bans in E3. cbn [result_bind]. set (q4 := update_classic_queue_capacity _ q3).
  destruct (shift seed q4) as [[q5 r5]|] eqn:E5; [|done].
  assert (banned_transactions q4 = banned_transactions q2) as E4 by exact E3.
  apply shift_aged in E5; [|rewrite E4; apply Hok2]. rewrite E4 in E5. cbn [result_bind].
  destruct (ban _ q5) as [q6|] eqn:E6; [|done]. apply ban_aged in E6. cbn [result_bind]. unfold rebroadcast. destruct (reset_and_repopulate _ _ _ _); [|done].
  cbn [result_bind]. intros [= <- _]. simpl. pose proof (aged_trans 0 1 _ _ _ (aged_then _ _ _ _ A1 A2) E5) as A. by eapply aged_then.
Qed.

Lemma step_aged e q q' : txqueue_ok q -> admitting q -> event_ok q e -> step e q = Ok q' ->
  bans_aged (Z.to_nat (ledgers e)) (banned_transactions q) (banned_transactions q').
Proof.
  intros Hok Hadm He. assert (forall b, b = banned_transactions q -> bans_aged 0 (banned_transactions q) b) as Hsame by (intros b ->; apply aged_same).
  destruct e as [now validation env|hs|now|header info applied failed invalid seed flood_seed|seed|account seq|seed flood_seed| |now seed flood_seed validation|seed]; simpl in *.
  - destruct (TxQueue.try_add _ _ _ _) as [[q1 r]|] eqn:E1; [|done]. intros [= <-]. by eapply offer_aged.
  - apply ban_aged.
  - intros E1. apply Hsame. by apply remove_hashes_bans in E1.
  - destruct (close_update _ _ _ _ _ _ _ _) as [[q1 r]|] eqn:E1; [|done]. intros [= <-]. destruct He. by eapply close_aged.
  - destruct (shift _ _) as [[q1 r]|] eqn:E1; [|done]. intros [= <-]. eapply shift_aged; [apply Hok|done].
  - destruct (drop_stale_ok q account seq Hok) as (q1 & b & hs & -> & _ & _ & Eb). intros [= <-]. by apply Hsame.
  - destruct (queue_clear_ok q flood_seed seed Hok) as (q1 & -> & _ & _ & _ & Eb). intros [= <-]. by apply Hsame.
  - intros [= <-]. by apply Hsame.
  - destruct (reset_and_rebuild _ _ _ _ _) as [[q1 n]|] eqn:E1; [|done]. intros [= <-]. by eapply rebuild_aged.
  - unfold rebroadcast. destruct (reset_and_repopulate _ _ _ _); [|done]. intros [= <-]. by apply Hsame.
Qed.

(** ** Runs *)

(** Any events, over which [n] ledgers close. *)
Inductive queue_run : nat -> TransactionQueue -> TransactionQueue -> Prop :=
| run_here q : queue_run 0 q q
| run_step n q q1 e q2 : queue_run n q q1 -> event_ok q1 e -> step e q1 = Ok q2 -> queue_run (n + Z.to_nat (ledgers e)) q q2.

Lemma run_aged n q q' : txqueue_ok q -> admitting q -> queue_run n q q' ->
  txqueue_ok q' /\ admitting q' /\ bans_aged n (banned_transactions q) (banned_transactions q').
Proof.
  intros Hok Hadm Hrun. induction Hrun as [q|n q q1 e q2 Hrun IH He Es]; [split; [done|]; split; [done|apply aged_same]|].
  destruct (IH Hok Hadm) as (Hok1 & Hadm1 & A1). pose proof (step_aged e q1 q2 Hok1 Hadm1 He Es) as A2.
  destruct (step_ok q1 e Hok1 Hadm1 He) as (q2' & E & [S1 S2 _ _]). rewrite Es in E. injection E as <-. split; [done|]. split; [done|]. by eapply aged_trans.
Qed.
End bans.

(** ** what stays in the queue when a ledger closes *)

Section ledger.
Context `{EnvelopeXdr} `{HashIteration}.
Implicit Types q : TransactionQueue.
Implicit Types t : QueuedTransaction.

Notation source tx := (account_key (q_envelope tx)).
Notation version q := (protocol_version (validation_context q)).
Notation settled acc := (foldl apply_release (ap_states acc) (ap_releases acc)).
Notation queued q t := (t ∈ vals (by_hash (store q))).

(** ** Applied transactions *)

(** The ledger applied a transaction of the same account with this or a later number. *)
Definition overtaken t (x : TransactionEnvelope * Z) : Prop := source t = account_key x.1 /\ envelope_sequence_number (q_envelope t) <= x.2.

Lemma apply_one_exact q acc x acc' : applying q acc -> apply_one (version q) acc x = Ok acc' ->
  forall t, t ∈ vals (by_hash (ap_store acc')) <-> t ∈ vals (by_hash (ap_store acc)) /\ ~ overtaken t x.
Proof.
  intros [Hsh _ _] Ea. destruct x as [env seq]. unfold apply_one in Ea. pose proof (shrunk_sound _ _ _ _ _ _ Hsh) as [Hs Ha _]. pose proof (store_txs _ _ Hs) as Hm.
  assert (ap_states acc !! account_key env ≫= transaction = transaction (state_of (settled acc) (account_key env))) as Elook.
  { destruct (release_transaction (ap_releases acc) (account_key env) (ap_states acc)) as [-> _]. unfold state_of. by destruct (ap_states acc !! account_key env). }
  rewrite Elook in Ea. pose proof (acc_pending _ _ _ (Ha (account_key env))) as Hp. destruct (transaction _) as [t0|] eqn:Et.
  - destruct (proj1 (Hp t0) eq_refl) as [Hin Hsrc]. pose proof (proj1 (elem_of_vals_at _ t0 Hm) Hin) as Hh.
    assert (forall t, t ∈ vals (by_hash (ap_store acc)) -> source t = account_key env -> t = t0) as Hone.
    { intros t Ht Es. assert (Some t0 = Some t) as E by (apply Hp; by split). by injection E. }
    destruct (Z.leb_spec (envelope_sequence_number (q_envelope t0)) seq) as [Hle|Hgt].
    + destruct (store_remove_ok (version q) (ap_store acc) (q_hash t0) Hs) as (s' & Er & _ & Ed & _). rewrite Er in Ea. simpl in Ea. injection Ea as <-. simpl.
      intros t. rewrite Ed, (elem_of_vals_delete _ _ t0) by done. split; intros [Ht Hne]; (split; [done|]).
      * intros [Es _]. by apply Hne, Hone.
      * intros ->. by apply Hne.
    + simpl in Ea. injection Ea as <-. simpl. intros t. split; [|by intros []]. intros Ht. split; [done|]. intros [Es Hle]. simpl in *.
      rewrite (Hone t Ht Es) in Hle. lia.
  - simpl in Ea. injection Ea as <-. simpl. intros t. split; [|by intros []]. intros Ht. split; [done|]. intros [Es _].
    assert (None = Some t) by (apply Hp; by split). done.
Qed.

Lemma apply_all_exact q applied : forall acc acc', applying q acc -> (forall x, x ∈ applied -> applied_ok q x) -> try_fold (apply_one (version q)) applied acc = Ok acc' ->
  (forall t, t ∈ vals (by_hash (ap_store acc')) <-> t ∈ vals (by_hash (ap_store acc)) /\ forall x, x ∈ applied -> ~ overtaken t x) /\
  forall x, x ∈ applied -> ban_at (ap_banned acc') (length (ap_banned acc') - 1) (hash_xdr x.1).
Proof.
  induction applied as [|x applied IH]; intros acc acc' Hacc Hx Ea; cbn [try_fold] in Ea.
  { injection Ea as <-. split; [|intros x Hin; by apply elem_of_nil in Hin]. intros t. split; [|by intros []]. intros Ht. split; [done|]. intros x Hin. by apply elem_of_nil in Hin. }
  destruct (apply_one_ok q acc x Hacc (Hx x ltac:(left))) as (acc1 & E1 & Hacc1 & _). pose proof (apply_one_exact q acc x acc1 Hacc E1) as X1.
  rewrite E1 in Ea. cbn [result_bind] in Ea. destruct (IH acc1 acc' Hacc1) as [X2 B2]; [intros y Hy; apply Hx; by right|done|]. split.
  - intros t. rewrite X2, X1. split; [intros [[Ht Hno] Hall]|intros [Ht Hall]].
    + split; [done|]. intros y [-> | Hy]%elem_of_cons; [done|by apply Hall].
    + split; [split; [done|apply Hall; left]|]. intros y Hy. apply Hall. by right.
  - intros y [-> | Hy]%elem_of_cons; [|by apply B2]. pose proof (fold_aged _ ap_banned _ (apply_one_aged _) _ _ Ea) as [Hlen A].
    rewrite Hlen. apply A. rewrite Nat.add_0_r. destruct x as [env seq]. unfold apply_one in E1.
    match type of E1 with result_bind ?M _ = _ => destruct M as [acc0|] eqn:E0; [|done] end. simpl in E1. injection E1 as <-. simpl.
    unfold ban_newest at 2. rewrite length_alter. apply newest_at; [|by apply elem_of_singleton]. intros Hnil.
    pose proof (apl_nonempty _ _ Hacc) as Hne. apply Hne. assert (ap_banned acc0 = ap_banned acc) as Eb; [|by rewrite <- Eb].
    destruct (_ ≫= transaction) as [t|]; [|by injection E0 as <-].
    destruct (_ <=? _); [|by injection E0 as <-]. destruct (store_remove _ _ _) as [[s o]|]; [|done]. simpl in E0. by injection E0 as <-.
Qed.

Lemma remove_applied_exact q applied q' : txqueue_ok q -> (forall x, x ∈ applied -> applied_ok q x) -> remove_applied applied q = Ok q' ->
  (forall t, queued q' t <-> queued q t /\ forall x, x ∈ applied -> ~ overtaken t x) /\
  forall x, x ∈ applied -> ban_at (banned_transactions q') (length (banned_transactions q') - 1) (hash_xdr x.1).
Proof.
  intros Hok Hx. unfold remove_applied. case_bool_decide as E.
  { apply length_zero_iff_nil in E as ->. intros [= <-]. split; [|intros x Hin; by apply elem_of_nil in Hin].
    intros t. split; [|by intros []]. intros Ht. split; [done|]. intros x Hin. by apply elem_of_nil in Hin. }
  destruct (try_fold _ _ _) as [acc|] eqn:Ea; [|done]. cbn [result_bind]. intros [= <-]. simpl. apply apply_all_exact in Ea; [exact Ea| |done].
  split; simpl; [by apply shrunk_nil, tq_sound|apply Hok|apply Hok].
Qed.

(** ** A closed ledger *)

Lemma gone_exact q q' hs : txqueue_ok q -> txqueue_ok q' -> gone_from q q' hs -> forall t, queued q' t <-> queued q t /\ q_hash t ∉ hs.
Proof.
  intros Hok Hok' [_ Hsh] t. rewrite (elem_of_vals_at _ t (tq_txs q' Hok')), (elem_of_vals_at _ t (tq_txs q Hok)), (shr_txs _ _ _ _ _ _ Hsh), lookup_without.
  case_bool_decide; split; try done; by intros [].
Qed.

Lemma shifted_exact q q' r hs : txqueue_ok q -> txqueue_ok q' -> shifted q q' r hs ->
  forall t, queued q' t <-> queued q t /\ age_of q t + 1 < pending_depth q.
Proof.
  intros Hok Hok' Hs t. rewrite (elem_of_vals_at _ t (tq_txs q' Hok')), (shf_txs _ _ _ _ Hs), lookup_without.
  rewrite (elem_of_vals_at _ t (tq_txs q Hok)). case_bool_decide as E.
  - split; [done|]. intros [Hh Hage]. pose proof (proj1 (shf_old _ _ _ _ Hs t (proj2 (elem_of_vals_at _ t (tq_txs q Hok)) Hh)) E). unfold age_of in Hage. lia.
  - split; [|by intros []]. intros Hh. split; [done|]. destruct (decide (pending_depth q <= age_of q t + 1)) as [Hle|]; [|lia].
    exfalso. apply E. by apply (shf_old _ _ _ _ Hs t (proj2 (elem_of_vals_at _ t (tq_txs q Hok)) Hh)).
Qed.

Lemma bans_of_failed q q' failed : txqueue_ok q -> ban failed q = Ok q' -> forall h, h ∈ failed -> ban_at (banned_transactions q') (length (banned_transactions q') - 1) h.
Proof.
  intros Hok. unfold ban. case_bool_decide as E; [intros _ h Hh; subst; by apply elem_of_nil in Hh|]. intros ->%remove_hashes_bans h Hh.
  unfold ban_newest at 2. rewrite length_alter. apply newest_at; [apply Hok|]. by apply elem_of_list_to_set.
Qed.

(** What the pool of the node is after a ledger. *)
Record closed (header : ClosedHeader) (applied : list (TransactionEnvelope * Z)) (failed : list (list Z)) (invalid : list TransactionEnvelope -> list (list Z))
    q q' : Prop := {
  cld_limits : version q' = ledger_version header /\ base_fee (validation_context q') = header_base_fee header /\
    effective_max_queue_ops q' = Some (u32_saturating_mul (max_tx_set_size header) POOL_LEDGER_MULTIPLIER);
  cld_stay : exists survivors : list QueuedTransaction,
    (forall t, t ∈ survivors <-> queued q t /\ (forall x, x ∈ applied -> ~ overtaken t x) /\ q_hash t ∉ failed /\ age_of q t + 1 < pending_depth q) /\
    (forall t, queued q' t <-> t ∈ survivors /\ q_hash t ∉ invalid (q_envelope <$> survivors));
  cld_ages : forall t, queued q' t -> age_of q' t = age_of q t + 1;
  cld_banned : (2 <= length (banned_transactions q))%nat ->
    forall h, h ∈ ((fun x => hash_xdr x.1) <$> applied) ++ failed -> is_banned h q' = true
}.

Lemma aged_place n b b' i h : bans_aged n b b' -> ban_at b (i + n) h -> in_bans h b' = true.
Proof. intros [_ A] Hb. apply (ban_at_in _ i). by apply A. Qed.

Lemma follow_context info v fee q q' : follow_info info (update_validation_context v fee q) = Ok q' ->
  version q' = v /\ base_fee (validation_context q') = fee /\ pending_depth q' = pending_depth q /\ banned_transactions q' = banned_transactions q.
Proof.
  unfold follow_info. destruct info as [info|]; [|by intros [= <-]]. destruct (queue_limit_of info); [|done]. cbn [result_bind].
  destruct (selection_limit_of info); [|done]. by intros [= <-].
Qed.

Lemma closed_ok q header info applied failed (invalid : list TransactionEnvelope -> list (list Z)) seed flood_seed :
  txqueue_ok q -> admitting q -> header_ok q header info -> (forall x, x ∈ applied -> applied_ok q x) ->
  exists q' r, close_update header info applied failed invalid seed flood_seed q = Ok (q', r) /\ txqueue_ok q' /\ closed header applied failed invalid q q'.
Proof.
  intros Hok Hadm Hh Hx. unfold close_update.
  destruct (remove_applied_ok q applied Hok Hx) as (q1 & hs1 & E1 & Hok1 & Hg1 & _). pose proof (gone_stays q q1 hs1 Hok Hok1 Hg1) as [S1 _].
  destruct (remove_applied_exact q applied q1 Hok Hx E1) as [X1 B1]. pose proof (remove_applied_aged _ _ _ E1) as A1. rewrite E1. cbn [result_bind].
  destruct (ban_ok q1 failed Hok1) as (q2 & E2 & Hok2 & Hg2 & _). pose proof (gone_stays q1 q2 failed Hok1 Hok2 Hg2) as [S2 _].
  pose proof (gone_exact q1 q2 failed Hok1 Hok2 Hg2) as X2. pose proof (ban_aged _ _ _ E2) as A2. pose proof (bans_of_failed _ _ _ Hok1 E2) as B2.
  rewrite E2. cbn [result_bind]. pose proof (framed_trans _ _ _ (proj1 Hg1) (proj1 Hg2)) as F2.
  destruct (follow_ok q2 header info Hok2 (framed_admitting _ _ F2 Hadm)) as (q3 & E3 & Hok4 & _ & Et4 & Ea4 & Ed4).
  { destruct F2 as (s & sn & t & b & st & ->). exact Hh. }
  destruct (follow_context _ _ _ _ _ E3) as (Ev & Ef & _ & Eb). rewrite E3. cbn [result_bind]. set (q4 := update_classic_queue_capacity _ q3) in *.
  destruct (shift_ok q4 seed Hok4) as (q5 & r & hs5 & E5 & Hok5 & Hs5). pose proof (shifted_exact q4 q5 r hs5 Hok4 Hok5 Hs5) as X5.
  assert (banned_transactions q4 = banned_transactions q2) as Eb4 by exact Eb. pose proof E5 as A5. apply shift_aged in A5; [|rewrite Eb4; apply Hok2].
  rewrite Eb4 in A5. rewrite E5. cbn [result_bind].
  destruct (ban_ok q5 (invalid (pending_envelopes q5)) Hok5) as (q6 & E6 & Hok6 & Hg6 & _). pose proof (gone_stays q5 q6 _ Hok5 Hok6 Hg6) as [S6 _].
  pose proof (gone_exact q5 q6 _ Hok5 Hok6 Hg6) as X6. pose proof (ban_aged _ _ _ E6) as A6. rewrite E6. cbn [result_bind].
  destruct (rebroadcast_ok q6 flood_seed Hok6) as (f & -> & Hok7). cbn [result_bind]. exists (put_store (put_flood f (store q6)) q6), r.
  split; [done|]. split; [exact Hok7|].
  assert (forall t, queued q5 t <-> queued q t /\ (forall x, x ∈ applied -> ~ overtaken t x) /\ q_hash t ∉ failed /\ age_of q t + 1 < pending_depth q) as X.
  { intros t. rewrite X5, Et4. unfold age_of at 1. rewrite Ea4, Ed4, (framed_depth q q2 F2).
    split; [intros [(Ht1 & Hno)%X2 Hage]|intros (Ht & Hov & Hno & Hage)].
    - pose proof (proj1 (X1 t) Ht1) as [Ht Hov]. pose proof (S1 t Ht Ht1) as G1. pose proof (S2 t Ht1 (proj2 (X2 t) (conj Ht1 Hno))) as G2. unfold age_of in *.
      split; [done|]. split; [done|]. split; [done|lia].
    - pose proof (proj2 (X1 t) (conj Ht Hov)) as Ht1. pose proof (proj2 (X2 t) (conj Ht1 Hno)) as Ht2.
      pose proof (S1 t Ht Ht1) as G1. pose proof (S2 t Ht1 Ht2) as G2. unfold age_of in *. split; [done|lia]. }
  split.
  - pose proof (framed_trans _ _ _ (shf_framed _ _ _ _ Hs5) (proj1 Hg6)) as (s & sn & t & b & st & ->). split; [exact Ev|]. split; [exact Ef|done].
  - assert (forall t, t ∈ store_values (store q5) <-> queued q5 t) as Hvals by (intros t; by rewrite store_values_perm).
    exists (store_values (store q5)). split.
    + intros t. rewrite Hvals. apply X.
    + intros t. rewrite Hvals. apply X6.
  - intros t Ht6. assert (queued q6 t) as Ht6' by exact Ht6. destruct (proj1 (X6 t) Ht6') as [Ht5 _]. pose proof (proj1 (X t) Ht5) as (Ht & Hov & Hno & _).
    pose proof (proj2 (X1 t) (conj Ht Hov)) as Ht1. pose proof (proj2 (X2 t) (conj Ht1 Hno)) as Ht2.
    pose proof (S1 t Ht Ht1). pose proof (S2 t Ht1 Ht2). pose proof (S6 t Ht5 Ht6'). pose proof (shf_ages _ _ _ _ Hs5 t Ht5) as G5. unfold age_of in *. rewrite Ea4 in G5.
    simpl. lia.
  - intros Hlen h Hh'. pose proof A1 as [L1 _]. pose proof A2 as [L2 A2']. pose proof A5 as [L5 A5'].
    assert (ban_at (banned_transactions q2) (length (banned_transactions q2) - 1) h) as B.
    { rewrite L2. apply elem_of_app in Hh' as [(x & -> & Hin)%list_elem_of_fmap | Hin]; [|rewrite <- L2; by apply B2].
      apply A2'. rewrite Nat.add_0_r. by apply B1. }
    change (in_bans h (banned_transactions q6) = true). apply (aged_place 1 (banned_transactions q2) _ (length (banned_transactions q2) - 2)).
    + by eapply aged_then.
    + replace (length (banned_transactions q2) - 2 + 1)%nat with (length (banned_transactions q2) - 1)%nat by lia. done.
Qed.
End ledger.
