(* ===== verification/TxQueueSafety.v ===== *)
(** * TxQueueSafety: properties of the transaction queue

    What holds of every queue a node reaches, whatever is offered to it and whatever
    the ledgers do: its accounts are in order, it respects its limits, pending
    transactions leave in time, and banned ones stay out. *)

From S2P Require Import Prelude Bucket Ledger Lists Resource Envelope TxSetCheck TxSetSafety SurgePricing SurgePricingFacts SurgePricingEvict TxQueueStore TxQueue TxQueueHeld TxQueueStoreFacts TxQueueFits TxQueueAccounts TxQueuePasses TxQueueAdmission TxQueueAdd TxQueueOps TxQueueClose TxQueueRun TxQueueLedger.

Section properties.
Context `{EnvelopeXdr} `{HashIteration}.
Implicit Types q : TransactionQueue.
Implicit Types t : QueuedTransaction.

Notation source tx := (account_key (q_envelope tx)).
Notation payer tx := (fee_source_key (q_envelope tx)).
Notation version q := (protocol_version (validation_context q)).
Notation queued q t := (t ∈ vals (by_hash (store q))).

(** C11: In every state a queue reaches, each account owes exactly the fees of the queued
    transactions it pays for, its counters are their numbers, its pending transaction
    is the one queued transaction it is the source of, no queued transaction is banned,
    and the fees of an account stay in an i64; and whatever happens next happens
    without a panic. *)
Theorem queue_accounts_reachable q : reachable_queue q ->
  (forall k, total_fees (state_of (account_states q) k) = zsum (owed k) (vals (by_hash (store q))) /\
     zsum (owed k) (vals (by_hash (store q))) <= i64_max /\
     soroban_fee_tx_count (state_of (account_states q) k) = zsum (counted true k) (vals (by_hash (store q))) /\
     classic_fee_tx_count (state_of (account_states q) k) = zsum (counted false k) (vals (by_hash (store q)))) /\
  (forall k t, transaction (state_of (account_states q) k) = Some t <-> queued q t /\ source t = k) /\
  (forall t t', queued q t -> queued q t' -> source t = source t' -> t = t') /\
  (forall t, queued q t -> is_banned (q_hash t) q = false) /\
  (forall e, event_ok q e -> exists q', step e q = Ok q').
Proof.
  intros Hr. destruct (reachable_ok q Hr) as [Hok Hadm]. pose proof (tq_accounts q Hok) as Ha. split; [|split; [|split; [|split]]].
  - intros k. destruct (Ha k) as [-> -> -> _]. split; [done|]. split; [|done]. apply (tq_fees q Hok).
  - intros k t. apply (acc_pending _ _ _ (Ha k)).
  - intros t t' Ht Ht' E. apply Some_inj. rewrite <- (proj2 (acc_pending _ _ _ (Ha (source t)) t)) by done.
    by apply (acc_pending _ _ _ (Ha (source t))).
  - intros t Ht. apply (tq_bans q Hok). exists t. by apply elem_of_vals_at, Ht; apply tq_txs.
  - intros e He. destruct (step_ok q e Hok Hadm He) as (q' & E & _). by exists q'.
Qed.


(** C13: A transaction cannot stay pending longer than the pending depth: a run during which
    it stays, without a rebuild of the queue, sees fewer ledgers close. *)
Theorem pending_leaves_in_time q t n q' : reachable_queue q -> queued q t -> kept_run t n q q' -> n < Z.max 1 (pending_depth q).
Proof.
  intros Hr Ht Hrun. destruct (reachable_ok q Hr) as [Hok Hadm]. destruct (kept_age t n q q' Hok Hadm Ht Hrun) as (Hok' & _ & _ & Ea & Ed).
  destruct (tq_ages q Hok (source t)) as [Hage _]. destruct (tq_ages q' Hok' (source t)) as [Hage' _]. unfold age_of in Ea. rewrite Ed in Hage'. lia.
Qed.

(** C12: A transaction that was just banned, for whatever reason, stays banned until as many
    ledgers have closed as there are sets of bans: whatever happens meanwhile, it is not
    in the queue and offering it again does not add it. *)
Theorem ban_keeps_out q n q' h : reachable_queue q -> ban_at (banned_transactions q) (length (banned_transactions q) - 1) h ->
  queue_run n q q' -> (n < length (banned_transactions q))%nat ->
  is_banned h q' = true /\ by_hash (store q') !! h = None /\
  forall now validation env, hash_xdr env = h -> (validation = Ok tt -> env_ok env) ->
    exists q2 r, TxQueue.try_add now validation env q' = Ok (q2, r) /\ r <> Added.
Proof.
  intros Hr Hb Hrun Hn. destruct (reachable_ok q Hr) as [Hok Hadm]. destruct (run_aged n q q' Hok Hadm Hrun) as (Hok' & Hadm' & A).
  assert (is_banned h q' = true) as Hban.
  { apply (aged_place n (banned_transactions q) _ (length (banned_transactions q) - 1 - n)); [done|].
    by replace (length (banned_transactions q) - 1 - n + n)%nat with (length (banned_transactions q) - 1)%nat by lia. }
  split; [done|]. split.
  - apply eq_None_not_Some. intros Hin. by rewrite (tq_bans q' Hok' h Hin) in Hban.
  - intros now validation env <- He. destruct (offer_ok q' env now validation Hok' Hadm' He) as (q2 & r & E & _ & Hout). exists q2, r.
    split; [exact E|]. destruct Hout as [(_ & tx & replaced & evs & [_ _ Hqk <- _ Hno _ _] & _)|[Hne _]]; [|done].
    intros _. destruct (queued_fields tx Hqk) as (Eh & _). congruence.
Qed.

(** C9: When a ledger closes, the update of the queue never panics. What stays are exactly
    the transactions the ledger has not overtaken, that did not fail, are not too old,
    and that the validation against the new ledger does not reject; each is one ledger
    older. The limits are those of the new header, and applied and failed transactions
    are banned. *)
Theorem ledger_close_updates_queue q header info applied failed (invalid : list TransactionEnvelope -> list (list Z)) seed flood_seed : reachable_queue q ->
  header_ok q header info -> (forall x, x ∈ applied -> applied_ok q x) ->
  exists q' r, close_update header info applied failed invalid seed flood_seed q = Ok (q', r) /\ closed header applied failed invalid q q'.
Proof.
  intros Hr Hh Hx. destruct (reachable_ok q Hr) as [Hok Hadm].
  destruct (closed_ok q header info applied failed invalid seed flood_seed Hok Hadm Hh Hx) as (q' & r & E & _ & Hc). by exists q', r.
Qed.
End properties.

(** ** Witnesses

    A queue with room for two operations: three payments are offered, and the cheapest
    makes room for the last. *)

(** Both sides are evaluated by the virtual machine, without writing the values out. *)
Ltac evaluated := match goal with |- ?x = ?y => vm_cast_no_check (@eq_refl _ y) end.

Section witnesses.
#[local] Existing Instance demo_types.
#[local] Existing Instance demo_envelopes.
#[local] Existing Instance demo_xdr.
#[local] Existing Instance demo_iteration.

Notation queued q t := (t ∈ vals (by_hash (store q))).

Definition demo_payment (source fee : Z) : TransactionEnvelope :=
  Tx (MkTransaction (Ed25519 (source : Uint256)) fee 7 [MkOperation Payment (0 : Payload)] TransactionExtV0 (0 : Payload)) (0 : Payload).
Definition demo_queue_config : TxQueueConfig := MkTxQueueConfig 10 300 100 None None None None None None None (Some 4) None [] 80 2 1 2.
Definition demo_provider : FeeBalanceProvider := fun _ => Ok (Some 10000).
Definition demo_start : result TransactionQueue Panic := with_depths demo_queue_config (MkValidationContext 23 100 None) 3 4 0 0.

Definition demo_base : TransactionQueue := Eval vm_compute in match demo_start as r return match r with Ok _ => TransactionQueue | Err _ => unit end with Ok q => q | Err _ => tt end.
Definition demo_empty : TransactionQueue := prepared 2 demo_provider demo_base.
Definition demo_next (e : QueueEvent) (q : TransactionQueue) : TransactionQueue := match step e q with Ok q => q | Err _ => q end.
Definition demo_offer (source fee : Z) : QueueEvent := Offer 0 (Ok tt) (demo_payment source fee).
Definition demo_two : TransactionQueue := demo_next (demo_offer 2 300) (demo_next (demo_offer 1 200) demo_empty).
Definition demo_full : TransactionQueue := demo_next (demo_offer 3 400) demo_two.
Definition demo_queued : QueuedTransaction :=
  MkQueued (demo_payment 3 400) [400; 3] 0 400 (MkFeeRate 400 1) 400 false.

Lemma demo_env_ok source fee : 0 <= fee <= 1000 -> env_ok (demo_payment source fee).
Proof.
  intros Hf. assert (envelope_inclusion_fee (demo_payment source fee) = fee) as E by (cbv -[Z.le Z.lt Z.add Z.sub Z.max Z.min Z.opp]; lia). split; rewrite ?E; simpl; try done; cbv -[Z.le Z.lt]; lia. Qed.

Lemma demo_empty_reachable : reachable_queue demo_empty.
Proof.
  assert (demo_start = Ok demo_base) as E0 by by vm_compute.
  refine (reach_start _ _ _ _ _ _ _ _ demo_base E0 _ _ _ _ _ _); [by split; [|split]|done|lia|done|done|]. intros k b [= <-]. done.
Qed.

Lemma demo_step e q : reachable_queue q -> event_ok q e -> step e q = Ok (demo_next e q) /\ reachable_queue (demo_next e q).
Proof.
  intros Hr He. destruct (reachable_ok q Hr) as [Hok Hadm]. destruct (step_ok q e Hok Hadm He) as (q' & E & _). unfold demo_next. rewrite E.
  split; [done|]. by apply (reach_step q e).
Qed.

Lemma demo_offer_ok q source fee : 0 <= fee <= 1000 -> event_ok q (demo_offer source fee).
Proof. intros Hf _. by apply demo_env_ok. Qed.

Lemma demo_two_reachable : reachable_queue demo_two.
Proof. repeat (apply demo_step; [|by apply demo_offer_ok]). apply demo_empty_reachable. Qed.

Lemma demo_full_reachable : reachable_queue demo_full.
Proof. apply demo_step; [apply demo_two_reachable|by apply demo_offer_ok]. Qed.

Lemma queue_accounts_reachable_witness :
  total_fees (state_of (account_states demo_full) (3 : Uint256)) = 400 /\
  (forall t, queued demo_full t -> is_banned (q_hash t) demo_full = false) /\
  forall e, event_ok demo_full e -> exists q', step e demo_full = Ok q'.
Proof. split; [by vm_compute|]. apply (queue_accounts_reachable demo_full demo_full_reachable). Defined.

Definition demo_answer (r : result (TransactionQueue * TxQueueResult) Panic) : option TxQueueResult :=
  match r with Ok (_, r) => Some r | Err _ => None end.
Example demo_admission : demo_answer (TxQueue.try_add 0 (Ok tt) (demo_payment 3 400) demo_two) = Some Added.
Proof. evaluated. Qed.


(** Three ledgers pass and the payment is still there; with a fourth it goes. *)
Fixpoint demo_shifted (n : nat) : TransactionQueue :=
  match n with O => demo_full | S m => demo_next (Shift (Z.of_nat n)) (demo_shifted m) end.

Lemma demo_shift n : step (Shift (Z.of_nat (S n))) (demo_shifted n) = Ok (demo_shifted (S n)) /\ reachable_queue (demo_shifted n).
Proof.
  induction n as [|n [_ IH]].
  - split; [|apply demo_full_reachable]. by apply (demo_step (Shift 1) demo_full demo_full_reachable).
  - assert (reachable_queue (demo_shifted (S n))) as Hr by by apply (demo_step (Shift (Z.of_nat (S n)))).
    split; [|done]. by apply (demo_step (Shift (Z.of_nat (S (S n))))).
Qed.

Lemma demo_kept : kept_run demo_queued 3 demo_full (demo_shifted 3).
Proof.
  assert (forall n, (n <= 3)%nat -> queued (demo_shifted n) demo_queued) as Hin.
  { intros n Hn. destruct n as [|[|[|[|n]]]]; [apply elem_of_vals; exists [400; 3]; evaluated..|lia]. }
  pose proof (kept_here demo_queued demo_full) as K0.
  pose proof (kept_step _ _ _ _ (Shift 1) (demo_shifted 1) K0 I eq_refl (proj1 (demo_shift 0)) (Hin 1%nat ltac:(lia))) as K1.
  pose proof (kept_step _ _ _ _ (Shift 2) (demo_shifted 2) K1 I eq_refl (proj1 (demo_shift 1)) (Hin 2%nat ltac:(lia))) as K2.
  exact (kept_step _ _ _ _ (Shift 3) (demo_shifted 3) K2 I eq_refl (proj1 (demo_shift 2)) (Hin 3%nat ltac:(lia))).
Qed.

Lemma pending_leaves_in_time_witness : 3 < Z.max 1 (pending_depth demo_full).
Proof.
  refine (pending_leaves_in_time demo_full demo_queued 3 (demo_shifted 3) demo_full_reachable _ demo_kept).
  apply elem_of_vals. exists [400; 3]. evaluated.
Defined.

(** The evicted payment is still banned after two ledgers. *)
Lemma demo_run : queue_run 2 demo_full (demo_shifted 2).
Proof.
  apply (run_step 1 demo_full (demo_shifted 1) (Shift 2)); [|done|apply (demo_shift 1)].
  apply (run_step 0 demo_full demo_full (Shift 1)); [apply run_here|done|apply (demo_shift 0)].
Qed.

Lemma ban_keeps_out_witness : is_banned [200; 1] (demo_shifted 2) = true /\ by_hash (store (demo_shifted 2)) !! [200; 1] = None /\
  forall now validation env, hash_xdr env = [200; 1] -> (validation = Ok tt -> env_ok env) ->
    exists q2 r, TxQueue.try_add now validation env (demo_shifted 2) = Ok (q2, r) /\ r <> Added.
Proof.
  refine (ban_keeps_out demo_full 2 (demo_shifted 2) [200; 1] demo_full_reachable _ demo_run _); [|by vm_compute; lia].
  eexists. split; by vm_compute.
Defined.

(** The ledger applies the payment of account 3; that of account 2 stays. *)
Definition demo_header : ClosedHeader := MkClosedHeader 23 100 1000.

Lemma ledger_close_updates_queue_witness : exists q' r,
  close_update demo_header None [(demo_payment 3 400, 7)] [] (fun _ => []) 1 2 demo_full = Ok (q', r) /\
  closed demo_header [(demo_payment 3 400, 7)] [] (fun _ => []) demo_full q'.
Proof.
  apply (ledger_close_updates_queue demo_full demo_header None); [apply demo_full_reachable|by split; [vm_compute|]|].
  intros x ->%list_elem_of_singleton t Ht Eh. assert (t = demo_queued) as ->; [|by vm_compute].
  apply (elem_of_vals_at _ t (tq_txs _ (proj1 (reachable_ok _ demo_full_reachable)))) in Ht. rewrite Eh in Ht.
  assert (by_hash (store demo_full) !! [400; 3] = Some demo_queued) as Hq by evaluated. apply Some_inj. by rewrite <- Ht, <- Hq.
Defined.

Definition demo_hashes (r : result (TransactionQueue * ShiftResult) Panic) : list (list Z) :=
  match r with Ok (q, _) => q_hash <$> vals (by_hash (store q)) | Err _ => [] end.

Example demo_closed : demo_hashes (close_update demo_header None [(demo_payment 3 400, 7)] [] (fun _ => []) 1 2 demo_full) = [[300; 2]].
Proof. evaluated. Qed.
End witnesses.
