(* ===== verification/TxSetTrim.v ===== *)
(** * TxSetTrim: removing invalid transactions from the phases of a set
      (herder/src/tx_set_utils.rs)

    Each transaction is checked alone, on several threads when there are many; then the
    fees of those that passed are added up per fee source, and who cannot pay all of
    them loses its transactions. What the checks of one transaction come to, and the
    balances, are arguments. *)

From S2P Require Import Prelude Bucket Ledger Lists Resource Envelope TxQueueStore TxQueue.

Section trim.
Context `{EnvelopeXdr}.

Inductive Pass1Outcome := Pass1Invalid | Pass1Valid (fee : option (Uint256 * Z)).

(** The [HashSet]s and [HashMap]s that are passed along. *)
Record Merged := MkMerged {
  account_fee_map : gmap Uint256 Z;
  invalid_txs : list HashedTx;
  seen_invalid : gset (list Z);
  fee_source_cache : gmap (list Z) Uint256
}.

Definition merge_outcome (m : Merged) (x : HashedTx * Pass1Outcome) : Merged :=
  let '(htx, outcome) := x in
  match outcome with
  | Pass1Invalid => MkMerged (account_fee_map m) (invalid_txs m ++ [htx]) ({[tx_hash htx]} ∪ seen_invalid m) (fee_source_cache m)
  | Pass1Valid None => m
  | Pass1Valid (Some (fee_source, full_fee)) =>
      let entry := default 0 (account_fee_map m !! fee_source) in
      MkMerged (<[fee_source := i64_saturating_add entry full_fee]> (account_fee_map m)) (invalid_txs m) (seen_invalid m)
        (<[tx_hash htx := fee_source]> (fee_source_cache m))
  end.
Definition merge_pass1_outcomes (txs : list HashedTx) (outcomes : list Pass1Outcome) (m : Merged) : Merged :=
  foldl merge_outcome m (zip txs outcomes).

(** A failed lookup counts as an empty account. *)
Definition available_balance (provider : FeeBalanceProvider) (key : Uint256) : Z :=
  match provider key with Ok (Some v) => v | _ => 0 end.

Definition check_affordable (provider : FeeBalanceProvider) (m : Merged) (htx : HashedTx) : Merged :=
  if bool_decide (tx_hash htx ∈ seen_invalid m) then m
  else
    match fee_source_cache m !! tx_hash htx with
    | None => m
    | Some fee_source =>
        let total_fee := default 0 (account_fee_map m !! fee_source) in
        if available_balance provider fee_source <? total_fee
        then MkMerged (account_fee_map m) (invalid_txs m ++ [htx]) ({[tx_hash htx]} ∪ seen_invalid m) (fee_source_cache m)
        else m
    end.
Definition run_pass2_fee_affordability (txs : list HashedTx) (provider : option FeeBalanceProvider) (m : Merged) : Merged :=
  match provider with None => m | Some p => foldl (check_affordable p) m txs end.

(** The map of the fees is updated, the invalid transactions are the result. *)
Definition finish_core (txs : list HashedTx) (outcomes : list Pass1Outcome) (provider : option FeeBalanceProvider) (fees : gmap Uint256 Z) :
    gmap Uint256 Z * list HashedTx :=
  let m := merge_pass1_outcomes txs outcomes (MkMerged fees [] ∅ ∅) in
  let m := run_pass2_fee_affordability txs provider m in
  (account_fee_map m, invalid_txs m).

(** [slice::chunks]. *)
Fixpoint chunks_from {A} (fuel chunk_size : nat) (l : list A) : list (list A) :=
  match fuel, l with
  | S fuel, _ :: _ => take chunk_size l :: chunks_from fuel chunk_size (drop chunk_size l)
  | _, _ => []
  end.
Definition chunks {A} (chunk_size : nat) (l : list A) : list (list A) := chunks_from (length l) chunk_size l.
Definition usize_div_ceil (a b : nat) : nat := ((a + b - 1) / b)%nat.

Definition PARALLEL_PASS1_MIN_TXS : nat := 64.

Definition remove_hashed_txs (txs to_remove : list HashedTx) : list HashedTx :=
  let remove_set : gset (list Z) := list_to_set (tx_hash <$> to_remove) in
  filter (fun htx => tx_hash htx ∉ remove_set) txs.
Definition remove_txs (txs txs_to_remove : list TransactionEnvelope) : list TransactionEnvelope :=
  let remove_set : gset (list Z) := list_to_set (hash_xdr <$> txs_to_remove) in
  filter (fun tx => hash_xdr tx ∉ remove_set) txs.

Section checked.
(** [passes] is what the checks of one transaction come to; [cores] are those the
    machine has, if that is known. *)
Context (passes : HashedTx -> bool) (has_accounts : bool) (cores : option nat) (provider : option FeeBalanceProvider).

Definition evaluate_tx_pass1 (htx : HashedTx) : Pass1Outcome :=
  if passes htx
  then Pass1Valid (match provider with Some _ => Some (fee_source_key (envelope htx), envelope_fee (envelope htx)) | None => None end)
  else Pass1Invalid.

Definition get_invalid_hashed_core_serial (txs : list HashedTx) (fees : gmap Uint256 Z) : gmap Uint256 Z * list HashedTx :=
  finish_core txs (evaluate_tx_pass1 <$> txs) provider fees.

(** One worker: the start of its chunk and its outcomes. *)
Definition worker (chunk_size chunk_idx : nat) (chunk : list HashedTx) : nat * list Pass1Outcome :=
  ((chunk_idx * chunk_size)%nat, evaluate_tx_pass1 <$> chunk).

Definition get_invalid_hashed_core_parallel (txs : list HashedTx) (fees : gmap Uint256 Z) : gmap Uint256 Z * list HashedTx :=
  let n := length txs in
  let num_chunks := Nat.max (Nat.min (Nat.max (default 1%nat cores) 1) n) 1 in
  let chunk_size := Nat.max (usize_div_ceil n num_chunks) 1 in
  let chunk_results := imap (worker chunk_size) (chunks chunk_size txs) in
  let outcomes := concat (sort_by_key Nat.compare fst chunk_results).*2 in
  finish_core txs outcomes provider fees.

Definition get_invalid_hashed_core (txs : list HashedTx) (fees : gmap Uint256 Z) : gmap Uint256 Z * list HashedTx :=
  let worth_parallel := (PARALLEL_PASS1_MIN_TXS <=? length txs)%nat && has_accounts && match cores with Some p => (1 <? p)%nat | None => false end in
  if worth_parallel then get_invalid_hashed_core_parallel txs fees else get_invalid_hashed_core_serial txs fees.

Definition get_invalid_hashed_tx_list (txs : list HashedTx) : list HashedTx := (get_invalid_hashed_core txs ∅).2.
Definition get_invalid_tx_list (txs : list TransactionEnvelope) : list TransactionEnvelope :=
  envelope <$> (get_invalid_hashed_core (HashedTx_new <$> txs) ∅).2.

Definition trim_invalid (txs : list TransactionEnvelope) : list TransactionEnvelope * list TransactionEnvelope :=
  let invalid_txs := get_invalid_tx_list txs in
  if bool_decide (invalid_txs = []) then (txs, []) else (remove_txs txs invalid_txs, invalid_txs).

(** Trimming one phase with the fees of the phases before. *)
Definition trim_phase (txs : list HashedTx) (fees : gmap Uint256 Z) : gmap Uint256 Z * list HashedTx :=
  let '(fees, invalid) := get_invalid_hashed_core txs fees in
  (fees, if bool_decide (invalid = []) then txs else remove_hashed_txs txs invalid).

Definition V26 : Z := 26.

Definition trim_invalid_two_phase_hashed (protocol_version : Z) (classic_txs soroban_txs : list HashedTx) : list HashedTx * list HashedTx :=
  let use_cross_phase_fee_map := protocol_version_starts_from protocol_version V26 in
  let '(fees, valid_classic) := trim_phase classic_txs ∅ in
  let fees := if use_cross_phase_fee_map then fees else ∅ in
  let '(_, valid_soroban) := trim_phase soroban_txs fees in
  (valid_classic, valid_soroban).

Definition trim_invalid_two_phase (protocol_version : Z) (classic_txs soroban_txs : list TransactionEnvelope) :
    list TransactionEnvelope * list TransactionEnvelope :=
  let '(c, s) := trim_invalid_two_phase_hashed protocol_version (HashedTx_new <$> classic_txs) (HashedTx_new <$> soroban_txs) in
  (envelope <$> c, envelope <$> s).
End checked.
End trim.

Section facts.
Context `{EnvelopeXdr}.

Notation payer t := (fee_source_key (envelope t)).
Notation cost t := (envelope_fee (envelope t)).

(** ** The parallel path *)

Lemma concat_chunks {A} k (l : list A) : (0 < k)%nat -> forall fuel, (length l <= fuel)%nat -> concat (chunks_from fuel k l) = l.
Proof.
  intros Hk fuel. revert l. induction fuel as [|fuel IH]; intros l Hl; destruct l as [|x l]; try done; [simpl in Hl; lia|].
  cbn [chunks_from concat]. rewrite IH; [apply take_drop|]. rewrite length_drop. simpl in *. lia.
Qed.

Lemma starts_sorted {A} (f : nat -> A -> nat * list Pass1Outcome) k l : (forall i x, (f i x).1 = (i * k)%nat) ->
  forall j, StronglySorted (cmp_le (fun a b : nat * list Pass1Outcome => Nat.compare a.1 b.1)) (imap (fun i => f (j + i)%nat) l).
Proof.
  intros Hf. induction l as [|x l IH]; intros j; [constructor|]. rewrite imap_cons. constructor.
  - assert (imap ((fun i => f (j + i)%nat) ∘ S) l = imap (fun i => f (S j + i)%nat) l) as -> by (apply imap_ext; intros i y _; simpl; by rewrite Nat.add_succ_r).
    apply IH.
  - apply Forall_forall. intros y (i & z & -> & _)%elem_of_lookup_imap. unfold cmp_le. simpl. rewrite !Hf.
    rewrite Nat.compare_gt_iff. nia.
Qed.

Lemma parallel_serial passes cores provider txs fees :
  get_invalid_hashed_core_parallel passes cores provider txs fees = get_invalid_hashed_core_serial passes provider txs fees.
Proof.
  unfold get_invalid_hashed_core_parallel, get_invalid_hashed_core_serial. f_equal. set (k := Nat.max _ 1).
  unfold sort_by_key. rewrite sort_by_id; [|apply (starts_sorted (worker passes provider k) k _ (fun _ _ => eq_refl) 0)].
  transitivity (evaluate_tx_pass1 passes provider <$> concat (chunks k txs)); [|unfold chunks; rewrite concat_chunks; [done|lia|done]].
  assert (forall (cs : list (list HashedTx)) j, concat (imap (fun i => worker passes provider k (j + i)%nat) cs).*2 = evaluate_tx_pass1 passes provider <$> concat cs) as Hall.
  { induction cs as [|c cs IH]; intros j; [done|]. rewrite imap_cons. csimpl. rewrite fmap_app. f_equal. rewrite <- (IH (S j)). f_equal. f_equal.
    apply imap_ext. intros i y _. simpl. by rewrite Nat.add_succ_r. }
  apply (Hall _ 0%nat).
Qed.

Lemma core_serial passes has_accounts cores provider txs fees :
  get_invalid_hashed_core passes has_accounts cores provider txs fees = get_invalid_hashed_core_serial passes provider txs fees.
Proof. unfold get_invalid_hashed_core. destruct (_ && _); [apply parallel_serial|done]. Qed.

(** ** Which transactions stay *)

(** The fees that transactions owe to be paid by an account. *)
Definition owes (k : Uint256) (txs : list HashedTx) : Z := zsum (fun t => if bool_decide (payer t = k) then cost t else 0) txs.
Definition charged_fees (provider : option FeeBalanceProvider) (fees : gmap Uint256 Z) (passed : list HashedTx) (k : Uint256) : Z :=
  match provider with
  | Some _ => Z.min i64_max (default 0 (fees !! k) + owes k passed)
  | None => default 0 (fees !! k)
  end.

(** The transaction passed its checks, and its fee source can pay all that it owes. *)
Definition keeps (passes : HashedTx -> bool) (provider : option FeeBalanceProvider) (fees : gmap Uint256 Z) (t : HashedTx) : bool :=
  passes t && match provider with Some p => default 0 (fees !! payer t) <=? available_balance p (payer t) | None => true end.

Section checked.
Context (passes : HashedTx -> bool) (provider : option FeeBalanceProvider).

Definition fees_fit (fees : gmap Uint256 Z) : Prop := forall k, 0 <= default 0 (fees !! k) <= i64_max.
Definition costs_ok (txs : list HashedTx) : Prop := forall t, t ∈ txs -> 0 <= cost t.

Lemma owes_app k l l' : owes k (l ++ l') = owes k l + owes k l'.
Proof. apply zsum_app. Qed.

Lemma owes_nonneg k l : costs_ok l -> 0 <= owes k l.
Proof. intros Hl. apply zsum_nonneg_in. intros t Ht. case_bool_decide; [by apply Hl|lia]. Qed.

Lemma merge_outcomes txs m : merge_pass1_outcomes txs (evaluate_tx_pass1 passes provider <$> txs) m =
  foldl (fun m t => merge_outcome m (t, evaluate_tx_pass1 passes provider t)) m txs.
Proof. unfold merge_pass1_outcomes. revert m. induction txs as [|t txs IH]; intros m; [done|]. csimpl. apply IH. Qed.

Lemma filter_ext_in (P Q : HashedTx -> Prop) `{!forall x, Decision (P x), !forall x, Decision (Q x)} (l : list HashedTx) : (forall t, t ∈ l -> P t <-> Q t) -> filter P l = filter Q l.
Proof.
  induction l as [|t l IH]; intros Hl; [done|]. rewrite !filter_cons, IH by (intros x Hx; apply Hl; by right).
  destruct (decide (P t)) as [Hp|Hp]; rewrite (Hl t ltac:(left)) in Hp; [by rewrite decide_True|by rewrite decide_False].
Qed.

Lemma filter_snoc (P : HashedTx -> Prop) `{!forall x, Decision (P x)} (l : list HashedTx) t : filter P (l ++ [t]) = filter P l ++ (if decide (P t) then [t] else []).
Proof. rewrite filter_app, filter_cons. simpl. by destruct (decide (P t)). Qed.

(** What the first pass merges. *)
Record merged (fees : gmap Uint256 Z) (txs : list HashedTx) (m : Merged) : Prop := {
  mrg_fees : forall k, default 0 (account_fee_map m !! k) = charged_fees provider fees (filter (fun t => passes t = true) txs) k;
  mrg_invalid : invalid_txs m = filter (fun t => passes t = false) txs;
  mrg_seen : forall h, h ∈ seen_invalid m <-> exists t, t ∈ invalid_txs m /\ tx_hash t = h;
  mrg_cache : forall p t, provider = Some p -> t ∈ txs -> passes t = true -> fee_source_cache m !! tx_hash t = Some (payer t)
}.

Lemma merge_ok fees txs : fees_fit fees -> costs_ok txs -> NoDup (tx_hash <$> txs) ->
  merged fees txs (foldl (fun m t => merge_outcome m (t, evaluate_tx_pass1 passes provider t)) (MkMerged fees [] ∅ ∅) txs).
Proof.
  intros Hfit. induction txs as [|t txs IH] using rev_ind; intros Hc Hnd.
  { split; simpl; [intros k|done|intros h|by intros p t _ ?%elem_of_nil].
    - unfold charged_fees. destruct provider; [|done]. specialize (Hfit k). unfold owes. cbn. lia.
    - split; [by intros ?%elem_of_empty|]. by intros (t & ?%elem_of_nil & _). }
  rewrite fmap_app in Hnd. apply NoDup_app in Hnd as (Hnd & Hout & _).
  assert (costs_ok txs) as Hc' by (intros x Hx; apply Hc, elem_of_app; by left). assert (0 <= cost t) as Hct by (apply Hc, elem_of_app; right; left).
  specialize (IH Hc' Hnd). rewrite foldl_app. cbn [foldl]. set (m := foldl _ _ txs) in *. destruct IH as [Mf Mi Ms Mc].
  assert (forall x, x ∈ txs -> tx_hash x <> tx_hash t) as Hne.
  { intros x Hx E. apply (Hout (tx_hash t)); [rewrite <- E; apply list_elem_of_fmap; by exists x|csimpl; left]. }
  unfold evaluate_tx_pass1. destruct (passes t) eqn:Ep; simpl.
  - destruct provider as [p|] eqn:Epr; simpl.
    + split; simpl.
      * intros k. rewrite filter_snoc, decide_True by done. specialize (Mf k) as Mk. specialize (Mf (payer t)). unfold charged_fees in *. rewrite Epr, owes_app. unfold owes at 2. simpl.
        rewrite lookup_insert. pose proof (owes_nonneg k (filter (fun t => passes t = true) txs)) as Hn. specialize (Hfit k).
        case_decide as Ek; [|rewrite bool_decide_false by done; rewrite Mk; f_equal; lia]. subst k. rewrite bool_decide_true by done. simpl. rewrite Mf.
        assert (0 <= owes (payer t) (filter (fun t => passes t = true) txs)) by (apply Hn; intros x [_ Hx]%list_elem_of_filter; by apply Hc').
        unfold i64_saturating_add, saturating, i64_max, i64_min in *. lia.
      * by rewrite filter_snoc, decide_False, app_nil_r by congruence.
      * done.
      * intros p' x E [Hx | ->%list_elem_of_singleton]%elem_of_app Hpx; [rewrite lookup_insert_ne by (intros E'; by apply (Hne x)); apply (Mc p'); [congruence|done|done]|by rewrite lookup_insert_eq].
    + split; simpl.
      * intros k. rewrite Mf, Epr. done.
      * by rewrite filter_snoc, decide_False, app_nil_r by congruence.
      * done.
      * intros p x E. congruence.
  - split; simpl.
    + intros k. rewrite filter_snoc, decide_False, app_nil_r by congruence. apply Mf.
    + rewrite filter_snoc, decide_True by done. by rewrite Mi.
    + intros h. rewrite elem_of_union, elem_of_singleton, Ms. split.
      * intros [-> | (x & Hx & E)]; [exists t; split; [|done]; apply elem_of_app; right; left|]. exists x. split; [|done]. apply elem_of_app. by left.
      * intros (x & [Hx | ->%list_elem_of_singleton]%elem_of_app & E); [right; by exists x|by left].
    + intros p x Ep' [Hx | ->%list_elem_of_singleton]%elem_of_app Hpx; [by apply (Mc p)|congruence].
Qed.

(** The second pass: who cannot pay joins the invalid ones. *)
Lemma pass2_ok p fees txs m all : provider = Some p -> merged fees all m -> NoDup (tx_hash <$> all) -> (exists rest, all = txs ++ rest) ->
  let m' := foldl (check_affordable p) m txs in
  account_fee_map m' = account_fee_map m /\ fee_source_cache m' = fee_source_cache m /\
  (forall t, t ∈ all -> t ∈ invalid_txs m' <-> passes t = false \/ (t ∈ txs /\ keeps passes provider (account_fee_map m) t = false)) /\
  (forall t, t ∈ invalid_txs m' -> t ∈ all) /\
  (forall h, h ∈ seen_invalid m' <-> exists t, t ∈ invalid_txs m' /\ tx_hash t = h).
Proof.
  intros Ep [Mf Mi Ms Mc] Hnd. assert (forall x y, x ∈ all -> y ∈ all -> tx_hash x = tx_hash y -> x = y) as Hinj.
  { intros x y Hx Hy E. by apply (NoDup_fmap_inj_on tx_hash all). }
  induction txs as [|t txs IH] using rev_ind; intros [rest Hall]; cbn zeta.
  { simpl. split; [done|]. split; [done|]. split; [|split; [|done]].
    - intros t Ht. rewrite Mi, list_elem_of_filter. split; [intros [E _]; by left|]. intros [E|[Hn _]]; [done|]. by apply elem_of_nil in Hn.
    - intros t. rewrite Mi, list_elem_of_filter. by intros []. }
  destruct IH as (If & Ic & Ii & Ia & Is); [exists (t :: rest); by rewrite Hall, <- app_assoc|]. rewrite foldl_app. cbn [foldl].
  set (m1 := foldl _ m txs) in *. assert (t ∈ all) as Ht by (rewrite Hall; apply elem_of_app; left; apply elem_of_app; right; left).
  assert (t ∉ txs) as Hout.
  { intros Hin. rewrite Hall, !fmap_app in Hnd. apply NoDup_app in Hnd as (Hnd & _ & _). apply NoDup_app in Hnd as (_ & Hd & _).
    apply (Hd (tx_hash t)); [by apply list_elem_of_fmap_2|csimpl; left]. }
  assert (tx_hash t ∈ seen_invalid m1 <-> passes t = false) as Hseen.
  { rewrite Is. split; [|intros E; exists t; split; [|done]; apply Ii; [done|by left]].
    intros (x & Hx & E). apply Hinj in E; [|by apply Ia|done]. subst x. apply Ii in Hx as [E|[Hin _]]; [done|done|done]. }
  assert (forall x, x ∈ all -> x ∈ txs ++ [t] <-> x ∈ txs \/ x = t) as Hsn by (intros x _; rewrite elem_of_app, list_elem_of_singleton; done).
  unfold check_affordable. case_bool_decide as Hs.
  { split; [done|]. split; [done|]. split; [|by split]. intros x Hx. rewrite Ii, Hsn by done. apply Hseen in Hs. split; [tauto|].
    intros [E|[[Hin | ->] Hk]]; [by left|by right|by left]. }
  assert (passes t = true) as Hp by (destruct (passes t); [done|by destruct Hs; apply Hseen]).
  rewrite Ic, (Mc p t Ep Ht Hp), If.
  assert (keeps passes provider (account_fee_map m) t = (default 0 (account_fee_map m !! payer t) <=? available_balance p (payer t))) as Ek
    by (unfold keeps; by rewrite Hp, Ep).
  destruct (Z.ltb_spec (available_balance p (payer t)) (default 0 (account_fee_map m !! payer t))) as [Hlt|Hge]; simpl.
  - split; [done|]. split; [done|]. split; [|split].
    + intros x Hx. rewrite elem_of_app, list_elem_of_singleton, Ii, Hsn by done. split; [intros [[E|[Hin E]] | ->]; [by left|right; tauto|right; split; [by right|]]|].
      * rewrite Ek. apply Z.leb_gt. lia.
      * intros [E|[[Hin | ->] E]]; [left; by left|left; by right|by right].
    + intros x [Hx | ->%list_elem_of_singleton]%elem_of_app; [by apply Ia|done].
    + intros h. rewrite elem_of_union, elem_of_singleton, Is. split.
      * intros [-> | (x & Hx & E)]; [exists t; split; [|done]; apply elem_of_app; right; left|]. exists x. split; [|done]. apply elem_of_app. by left.
      * intros (x & [Hx | ->%list_elem_of_singleton]%elem_of_app & E); [right; by exists x|by left].
  - split; [done|]. split; [done|]. split; [|by split]. intros x Hx. rewrite Ii, Hsn by done. split; [tauto|].
    intros [E|[[Hin | ->] E]]; [by left|by right|]. rewrite Ek in E. apply Z.leb_gt in E. lia.
Qed.

Lemma serial_ok txs fees : fees_fit fees -> costs_ok txs -> NoDup (tx_hash <$> txs) ->
  exists fees' invalid, get_invalid_hashed_core_serial passes provider txs fees = (fees', invalid) /\
    (forall k, default 0 (fees' !! k) = charged_fees provider fees (filter (fun t => passes t = true) txs) k) /\
    (forall t, t ∈ invalid -> t ∈ txs) /\ forall t, t ∈ txs -> t ∈ invalid <-> keeps passes provider fees' t = false.
Proof.
  intros Hfit Hc Hnd. unfold get_invalid_hashed_core_serial, finish_core. rewrite merge_outcomes. pose proof (merge_ok fees txs Hfit Hc Hnd) as Hm.
  set (m := foldl _ _ txs) in *. unfold run_pass2_fee_affordability. eexists. eexists. split; [done|]. destruct provider as [p|] eqn:Ep.
  - rewrite <- Ep in *. destruct (pass2_ok p fees txs m txs Ep Hm Hnd) as (-> & _ & Hi & Ha & _); [exists []; by rewrite app_nil_r|].
    split; [apply (mrg_fees _ _ _ Hm)|]. split; [done|]. intros t Ht. rewrite (Hi t Ht). split; [intros [E|[_ E]]; [|done]; unfold keeps; by rewrite E|tauto].
  - split; [rewrite <- Ep; apply (mrg_fees _ _ _ Hm)|]. split; [intros t; rewrite (mrg_invalid _ _ _ Hm), list_elem_of_filter; by intros []|]. intros t Ht. rewrite (mrg_invalid _ _ _ Hm), list_elem_of_filter. unfold keeps. rewrite andb_true_r. tauto.
Qed.

Lemma trim_phase_ok has_accounts cores txs fees : fees_fit fees -> costs_ok txs -> NoDup (tx_hash <$> txs) ->
  exists fees', trim_phase passes has_accounts cores provider txs fees = (fees', filter (fun t => keeps passes provider fees' t = true) txs) /\
    forall k, default 0 (fees' !! k) = charged_fees provider fees (filter (fun t => passes t = true) txs) k.
Proof.
  intros Hfit Hc Hnd. unfold trim_phase. rewrite core_serial. destruct (serial_ok txs fees Hfit Hc Hnd) as (fees' & invalid & -> & Hf & Hsub & Hi).
  exists fees'. split; [|done]. f_equal. case_bool_decide as E.
  - subst invalid. symmetry. apply filter_all. intros t Ht. destruct (keeps passes provider fees' t) eqn:Ek; [done|]. apply (Hi t Ht) in Ek. by apply elem_of_nil in Ek.
  - unfold remove_hashed_txs. apply filter_ext_in. intros t Ht. rewrite elem_of_list_to_set, list_elem_of_fmap.
    rewrite <- (not_false_iff_true (keeps _ _ _ _)), <- (Hi t Ht). split; [intros Hno Hin; apply Hno; by exists t|].
    intros Hno (x & E' & Hx). apply Hno. assert (t = x) as ->; [|done]. apply (NoDup_fmap_inj_on tx_hash txs); [done|done|by apply Hsub|done].
Qed.

(** Whether the fee source of a transaction can pay what [owing] owe, capped at an i64. *)
Definition payable (p : option FeeBalanceProvider) (owing : list HashedTx) (t : HashedTx) : bool :=
  match p with Some p => Z.min i64_max (owes (payer t) owing) <=? available_balance p (payer t) | None => true end.

(** What stays: the transactions that pass and whose fee source can pay for all that
    passed, in both phases from protocol 26 on. *)
Definition stay_classic (classic : list HashedTx) : list HashedTx :=
  filter (fun t => passes t && payable provider (filter (fun t => passes t = true) classic) t = true) classic.
Definition stay_soroban (version : Z) (classic soroban : list HashedTx) : list HashedTx :=
  filter (fun t => passes t && payable provider (filter (fun t => passes t = true) ((if V26 <=? version then classic else []) ++ soroban)) t = true) soroban.

Lemma keeps_payable fees owing t : (forall k, default 0 (fees !! k) = charged_fees provider ∅ owing k) -> keeps passes provider fees t = passes t && payable provider owing t.
Proof. intros Hf. unfold keeps, payable. destruct provider eqn:Ep; [|done]. by rewrite Hf. Qed.

Lemma empty_fit : fees_fit ∅.
Proof. intros k. rewrite lookup_empty. simpl. unfold i64_max. lia. Qed.

Lemma two_phase_ok has_accounts cores version classic soroban : costs_ok classic -> costs_ok soroban -> NoDup (tx_hash <$> classic) -> NoDup (tx_hash <$> soroban) ->
  trim_invalid_two_phase_hashed passes has_accounts cores provider version classic soroban = (stay_classic classic, stay_soroban version classic soroban).
Proof.
  intros Hc1 Hc2 Hn1 Hn2. unfold trim_invalid_two_phase_hashed. destruct (trim_phase_ok has_accounts cores classic ∅ empty_fit Hc1 Hn1) as (f1 & -> & Hf1).
  assert (costs_ok (filter (fun t => passes t = true) classic) /\ costs_ok (filter (fun t => passes t = true) soroban)) as [Hp1 Hp2].
  { split; intros t [_ Ht]%list_elem_of_filter; [by apply Hc1|by apply Hc2]. }
  set (f := if protocol_version_starts_from version V26 then f1 else ∅).
  assert (fees_fit f /\ forall k, charged_fees provider f (filter (fun t => passes t = true) soroban) k =
    charged_fees provider ∅ (filter (fun t => passes t = true) ((if V26 <=? version then classic else []) ++ soroban)) k) as [Hfit Hcharge].
  { unfold f, protocol_version_starts_from. destruct (V26 <=? version); [|split; [apply empty_fit|done]]. split.
    - intros k. rewrite Hf1. unfold charged_fees. pose proof (owes_nonneg k _ Hp1). destruct provider; rewrite lookup_empty; simpl; unfold i64_max in *; lia.
    - intros k. rewrite filter_app. unfold charged_fees at 1. rewrite Hf1. unfold charged_fees. pose proof (owes_nonneg k _ Hp1). pose proof (owes_nonneg k _ Hp2).
      rewrite owes_app. destruct provider; rewrite lookup_empty; simpl; unfold i64_max in *; lia. }
  destruct (trim_phase_ok has_accounts cores soroban f Hfit Hc2 Hn2) as (f2 & -> & Hf2). f_equal.
  - apply filter_ext_in. intros t _. by rewrite (keeps_payable f1 _ t Hf1).
  - apply filter_ext_in. intros t _. rewrite (keeps_payable f2 (filter (fun t => passes t = true) ((if V26 <=? version then classic else []) ++ soroban))); [done|].
    intros k. by rewrite Hf2, Hcharge.
Qed.
End checked.
End facts.
