(* ===== verification/TxSelection.v ===== *)
(** * TxSelection: the transaction set a node nominates
      (herder/src/tx_queue/selection.rs)

    From the queue the transactions of the highest rates are selected that fit in a
    ledger, per account in the order of their sequence numbers; what the validation
    rejects is trimmed; the rest is laid out as a classic phase, whose base fees follow
    from the lanes that were full, and a parallel Soroban phase. *)

From S2P Require Import Prelude Bucket Ledger Lists Resource Envelope TxSetBuilder SurgePricing TxQueueStore TxQueue TxSetTrim.

Section selection.
Context `{EnvelopeXdr} `{HashIteration}.

Notation AccountTransactions := (gmap Uint256 (list QueuedTransaction)).
Notation Positions := (gmap Uint256 nat).

(** ** The transactions of each account *)

Definition seed_one (ledger_version : Z) (acc : SurgePricingPriorityQueue * Positions) (x : Uint256 * list QueuedTransaction) :
    result (SurgePricingPriorityQueue * Positions) Panic :=
  match x.2 with
  | first :: _ => let? queue := add first ledger_version acc.1 in Ok (queue, <[x.1 := 0%nat]> acc.2)
  | [] => Ok acc
  end.
Definition seed_account_queue (accounts : AccountTransactions) (ledger_version : Z) (queue : SurgePricingPriorityQueue) :
    result (SurgePricingPriorityQueue * Positions) Panic :=
  try_fold (seed_one ledger_version) (iterate accounts) (queue, ∅).

Definition push_next_account_tx (accounts : AccountTransactions) (account : Uint256) (ledger_version : Z)
    (queue : SurgePricingPriorityQueue) (positions : Positions) : result (SurgePricingPriorityQueue * Positions) Panic :=
  match accounts !! account with
  | None => Ok (queue, positions)
  | Some txs =>
      let next_index := S (default 0%nat (positions !! account)) in
      match txs !! next_index with
      | Some tx => let? queue := add tx ledger_version queue in Ok (queue, <[account := next_index]> positions)
      | None => Ok (queue, positions)
      end
  end.

(** [entry(account).or_default().push(tx)]. *)
Definition push_tx (account : Uint256) (tx : QueuedTransaction) (m : AccountTransactions) : AccountTransactions :=
  <[account := default [] (m !! account) ++ [tx]]> m.

Definition gather (now max_age : Z) (per_account : AccountTransactions) (tx : QueuedTransaction) : AccountTransactions :=
  if is_expired now max_age tx then per_account else push_tx (account_key (q_envelope tx)) tx per_account.

(** By sequence number, then the higher rate, then the hash. *)
Definition tx_order (a b : QueuedTransaction) : result comparison Panic :=
  match Z.compare (envelope_sequence_number (q_envelope a)) (envelope_sequence_number (q_envelope b)) with
  | Eq =>
      let? c := cmp_rate (fee_rate b) (fee_rate a) in
      Ok (match c with Eq => hash_compare (q_hash a) (q_hash b) | c => c end)
  | c => Ok c
  end.

Definition better_fee_ratio (new_tx old_tx : QueuedTransaction) : result bool Panic :=
  let? c := cmp_rate (fee_rate new_tx) (fee_rate old_tx) in
  Ok (match c with Gt => true | Lt => false | Eq => bool_decide (hash_compare (q_hash new_tx) (q_hash old_tx) = Lt) end).

Definition dedup_one (deduped : gmap Z QueuedTransaction) (tx : QueuedTransaction) : result (gmap Z QueuedTransaction) Panic :=
  let seq := envelope_sequence_number (q_envelope tx) in
  match deduped !! seq with
  | None => Ok (<[seq := tx]> deduped)
  | Some existing => let? replace := better_fee_ratio tx existing in Ok (if replace : bool then <[seq := tx]> deduped else deduped)
  end.

Fixpoint contiguous_from (deduped : gmap Z QueuedTransaction) (expected : option Z) (seqs : list Z) : list QueuedTransaction :=
  match seqs with
  | [] => []
  | seq :: seqs =>
      let take :=
        match deduped !! seq with
        | Some tx => tx :: contiguous_from (delete seq deduped) (Some (i64_saturating_add seq 1)) seqs
        | None => []
        end in
      match expected with
      | Some exp => if seq <? exp then contiguous_from deduped expected seqs else if negb (seq =? exp) then [] else take
      | None => take
      end
  end.

(** One account of the layered map. *)
Definition layer_account (starting_seq : option (gmap Uint256 Z)) (layered : AccountTransactions) (x : Uint256 * list QueuedTransaction) :
    result AccountTransactions Panic :=
  let '(account, txs) := x in
  let? txs := try_sort_by tx_order txs in
  let? deduped := try_fold dedup_one txs ∅ in
  let seqs := sort_by Z.compare (iterate deduped).*1 in
  let expected := (fun seq => i64_saturating_add seq 1) <$> (starting_seq ≫= (fun m => m !! account)) in
  let contiguous := contiguous_from deduped expected seqs in
  Ok (if bool_decide (contiguous = []) then layered else <[account := contiguous]> layered).

Fixpoint split_txs (account : Uint256) (seen_soroban : bool) (txs : list QueuedTransaction) (classic soroban : AccountTransactions) :
    AccountTransactions * AccountTransactions :=
  match txs with
  | [] => (classic, soroban)
  | tx :: txs =>
      let is_soroban := is_soroban_envelope (q_envelope tx) in
      if seen_soroban && negb is_soroban then (classic, soroban)
      else if seen_soroban || is_soroban then split_txs account true txs classic (push_tx account tx soroban)
      else split_txs account seen_soroban txs (push_tx account tx classic) soroban
  end.

Definition split_account (layered : AccountTransactions) (acc : AccountTransactions * AccountTransactions) (account : Uint256) :
    AccountTransactions * AccountTransactions :=
  match layered !! account with Some txs => split_txs account false txs acc.1 acc.2 | None => acc end.
Definition split_layered_accounts_by_phase (layered : AccountTransactions) : AccountTransactions * AccountTransactions :=
  foldl (split_account layered) (∅, ∅) (sort_by xdr_compare (iterate layered).*1).

(** ** Selecting *)

Record Selecting := MkSelecting {
  sel_queue : SurgePricingPriorityQueue;
  sel_positions : Positions;
  sel_txs : list QueuedTransaction;
  sel_left : list Resource;
  had_not_fitting : list bool
}.

(** [had_not_fitting[lane] = true]. *)
Definition set_flag (lane : nat) (flags : list bool) : result (list bool) Panic :=
  let? _ := at_index flags lane in Ok (put_at lane true flags).

Section loops.
Context (accounts : AccountTransactions) (ledger_version : Z).

Definition skip_entry (lane flag : nat) (entry : QueueEntry) (st : Selecting) : result Selecting Panic :=
  let? flags := set_flag flag (had_not_fitting st) in
  let? queue := remove_entry lane entry ledger_version (sel_queue st) in
  Ok (MkSelecting queue (sel_positions st) (sel_txs st) (sel_left st) flags).

Definition take_entry (lane : nat) (entry : QueueEntry) (remaining : list Resource) (st : Selecting) : result Selecting Panic :=
  let? queue := remove_entry lane entry ledger_version (sel_queue st) in
  let account := account_key (q_envelope (entry_tx entry)) in
  let? (queue, positions) := push_next_account_tx accounts account ledger_version queue (sel_positions st) in
  Ok (MkSelecting queue positions (sel_txs st ++ [entry_tx entry]) remaining (had_not_fitting st)).

Definition classic_step (lane : nat) (entry : QueueEntry) (st : Selecting) : result Selecting Panic :=
  let? resources := queue_resources (sel_queue st) (q_envelope (entry_tx entry)) ledger_version in
  let? lane_left := at_index (sel_left st) lane in
  let? exceeds_lane := any_greater resources lane_left in
  let? generic_left := at_index (sel_left st) GENERIC_LANE in
  let? exceeds_generic := any_greater resources generic_left in
  if exceeds_lane || exceeds_generic then skip_entry lane (if exceeds_lane : bool then lane else GENERIC_LANE) entry st
  else let? remaining := charge lane resources (sel_left st) in take_entry lane entry remaining st.

Definition soroban_step (lane : nat) (entry : QueueEntry) (st : Selecting) : result Selecting Panic :=
  let? resources := queue_resources (sel_queue st) (q_envelope (entry_tx entry)) ledger_version in
  let? generic_left := at_index (sel_left st) GENERIC_LANE in
  let? exceeds := any_greater resources generic_left in
  if exceeds : bool then skip_entry lane GENERIC_LANE entry st
  else let? remaining := charge_at GENERIC_LANE resources (sel_left st) in take_entry lane entry remaining st.

(** Every pass takes an entry out of the queue, and puts in at most one that was never
    there. *)
Fixpoint select_loop (step : nat -> QueueEntry -> Selecting -> result Selecting Panic) (fuel : nat) (st : Selecting) : result Selecting Panic :=
  match fuel with
  | O => Err Panicking
  | S fuel =>
      let? top := peek_top (sel_queue st) in
      match top with
      | None => Ok st
      | Some (lane, entry) => let? st := step lane entry st in select_loop step fuel st
      end
  end.
Definition select_fuel : nat := S (length (concat (map_to_list accounts).*2)).
End loops.

Record SelectedTxs := MkSelected {
  selected_transactions : list HashedTx;
  soroban_limited : bool;
  dex_limited : bool;
  classic_limited : bool
}.

(** [HashedTx::from]. *)
Definition hashed_of (tx : QueuedTransaction) : HashedTx := MkHashedTx (q_hash tx) (q_envelope tx).

Definition selection_lane_config (max_ops : Z) (q : TransactionQueue) : result LaneConfig Panic :=
  let max_ops := Z.min u32_max max_ops in
  let use_classic_bytes := is_some (max_classic_bytes (config q)) || is_some (max_dex_bytes (config q)) in
  let classic_bytes := default MAX_CLASSIC_BYTE_ALLOWANCE (max_classic_bytes (config q)) in
  let? classic_limit := Resource_new (max_ops :: if use_classic_bytes then [classic_bytes] else []) in
  let? dex_limit :=
    match max_dex_ops (config q) with
    | Some dex_ops => let? r := Resource_new (dex_ops :: if use_classic_bytes then [MAX_CLASSIC_BYTE_ALLOWANCE] else []) in Ok (Some r)
    | None => Ok None
    end in
  Ok (DexLimitingLaneConfig_new classic_limit dex_limit).

Definition use_parallel (q : TransactionQueue) : bool :=
  (0 <? effective_ledger_max_instructions q) && (0 <? effective_ledger_max_dependent_tx_clusters q) && (0 <? soroban_phase_max_stage_count (config q)).

(** The limit of a ledger, clamped by the configured bytes, and without instructions
    when the builder accounts for these. *)
Definition clamp_bytes (byte_limit : option Z) (limit : option Resource) : result (option Resource) Panic :=
  match limit, byte_limit with
  | Some limit, Some bytes =>
      let? current := get_val TxByteSize limit in
      let? limit := set_val TxByteSize (Z.min bytes current) limit in Ok (Some limit)
  | _, _ => Ok limit
  end.
Definition selection_soroban_limit (q : TransactionQueue) : result (option Resource) Panic :=
  let byte_limit := max_soroban_bytes (config q) in
  let? limit :=
    match effective_selection_soroban_resources q, byte_limit with
    | None, Some bytes =>
        let? r := Resource_new (<[type_index TxByteSize := bytes]> (replicate NUM_SOROBAN_TX_RESOURCES i64_max)) in Ok (Some r)
    | limit, _ => Ok limit
    end in
  let? limit := clamp_bytes byte_limit limit in
  match limit with
  | Some r => if use_parallel q then let? r := set_val Instructions i64_max r in Ok (Some r) else Ok (Some r)
  | None => Ok None
  end.

Definition select_classic (max_ops ledger_version seed : Z) (accounts : AccountTransactions) (q : TransactionQueue) : result Selecting Panic :=
  let? lane_config := selection_lane_config max_ops q in
  let? queue := SurgePricingPriorityQueue_new lane_config seed in
  let? (queue, positions) := seed_account_queue accounts ledger_version queue in
  let st := MkSelecting queue positions [] (lane_limits queue) (replicate (get_num_lanes queue) false) in
  select_loop (classic_step accounts ledger_version) (select_fuel accounts) st.

Definition select_soroban (ledger_version seed : Z) (limit : Resource) (accounts : AccountTransactions) : result Selecting Panic :=
  let? queue := SurgePricingPriorityQueue_new (SorobanGenericLaneConfig_new limit) seed in
  let? (queue, positions) := seed_account_queue accounts ledger_version queue in
  let? generic_limit := at_index (lane_limits queue) GENERIC_LANE in
  let st := MkSelecting queue positions [] [generic_limit] [false] in
  select_loop (soroban_step accounts ledger_version) (select_fuel accounts) st.

(** Without a limit all of them, account by account. *)
Definition all_accounts (accounts : AccountTransactions) : list QueuedTransaction :=
  concat ((fun account => default [] (accounts !! account)) <$> sort_by xdr_compare (iterate accounts).*1).

Definition layered_accounts (now : Z) (starting_seq : option (gmap Uint256 Z)) (q : TransactionQueue) : result AccountTransactions Panic :=
  let per_account := foldl (gather now (max_age_secs (config q))) ∅ (store_values (store q)) in
  try_fold (layer_account starting_seq) (iterate per_account) ∅.

Definition select_transactions_with_starting_seq (max_ops : Z) (starting_seq : option (gmap Uint256 Z)) (ledger_version now seed : Z)
    (q : TransactionQueue) : result SelectedTxs Panic :=
  let? layered := layered_accounts now starting_seq q in
  let '(classic_accounts, soroban_accounts) := split_layered_accounts_by_phase layered in
  let? classic := select_classic max_ops ledger_version seed classic_accounts q in
  let? soroban_limit := selection_soroban_limit q in
  let? (soroban_selected, limited) :=
    match soroban_limit with
    | Some limit =>
        let? st := select_soroban ledger_version seed limit soroban_accounts in
        Ok (sel_txs st, default false (had_not_fitting st !! GENERIC_LANE))
    | None => Ok (all_accounts soroban_accounts, false)
    end in
  Ok (MkSelected ((hashed_of <$> sel_txs classic) ++ (hashed_of <$> soroban_selected)) limited
        (default false (had_not_fitting classic !! DEX_LANE)) (default false (had_not_fitting classic !! GENERIC_LANE))).

(** ** The classic phase *)

Definition sort_hashed_txs (txs : list HashedTx) : list HashedTx := sort_by_key hash_compare tx_hash txs.

(** [try_into().unwrap_or_default()] of a vector of bounded length. *)
Definition vecm_or_default {A} (l : list A) : list A := if len l <=? u32_max then l else [].

(** [iter().min()]. *)
Fixpoint min_of (l : list Z) : option Z :=
  match l with
  | [] => None
  | x :: l => Some match min_of l with Some m => Z.min x m | None => x end
  end.

(** [per_op as i64]. *)
Definition fee_per_op_of (htx : HashedTx) : option Z := (fun x : Z * FeeRate => as_i64 x.1) <$> envelope_fee_per_op (envelope htx).

Definition tx_lane (has_dex_lane : bool) (htx : HashedTx) : nat :=
  if has_dex_lane && has_dex_operations_envelope (envelope htx) then DEX_LANE else GENERIC_LANE.

(** The lowest fee of each lane so far, and the lanes of the transactions. *)
Definition note_lane_fee (has_dex_lane : bool) (acc : list Z * list nat) (htx : HashedTx) : result (list Z * list nat) Panic :=
  let lane := tx_lane has_dex_lane htx in
  let? lowest :=
    match fee_per_op_of htx with
    | Some fee => let? lane_fee := at_index acc.1 lane in Ok (if fee <? lane_fee then put_at lane fee acc.1 else acc.1)
    | None => Ok acc.1
    end in
  Ok (lowest, acc.2 ++ [lane]).

Definition lane_base_fees (has_dex_lane classic_limited dex_limited : bool) (base_fee : Z) (lowest_lane_fee : list Z) : result (list Z) Panic :=
  let lane_count := if has_dex_lane then 2%nat else 1%nat in
  let min_lane_fee := default base_fee (min_of (filter (fun fee => fee <> i64_max) lowest_lane_fee)) in
  let fees := replicate lane_count (if classic_limited then min_lane_fee else base_fee) in
  if has_dex_lane && dex_limited then
    let? dex_fee := at_index lowest_lane_fee DEX_LANE in
    Ok (if dex_fee =? i64_max then fees else put_at DEX_LANE dex_fee fees)
  else Ok fees.

(** [components_by_fee.entry(fee).or_default().push(htx)] of a [BTreeMap]. *)
Fixpoint push_component (fee : Z) (htx : HashedTx) (components : list (Z * list HashedTx)) : list (Z * list HashedTx) :=
  match components with
  | [] => [(fee, [htx])]
  | (f, txs) :: rest =>
      match Z.compare fee f with
      | Lt => (fee, [htx]) :: components
      | Eq => (f, txs ++ [htx]) :: rest
      | Gt => (f, txs) :: push_component fee htx rest
      end
  end.
Definition place_tx (fees : list Z) (components : list (Z * list HashedTx)) (x : HashedTx * nat) : result (list (Z * list HashedTx)) Panic :=
  let? fee := at_index fees x.2 in Ok (push_component fee x.1 components).

Definition component_of (x : Z * list HashedTx) : TxSetComponent :=
  MkComponent (Some x.1) (vecm_or_default (envelope <$> sort_hashed_txs x.2)).

Definition build_classic_phase (classic_txs : list HashedTx) (classic_limited dex_limited : bool) (base_fee : Z) (has_dex_lane : bool) :
    result TransactionPhase Panic :=
  if bool_decide (classic_txs = []) then Ok (PhaseV0 [])
  else
    let lane_count := if has_dex_lane then 2%nat else 1%nat in
    let? (lowest_lane_fee, lane_for_tx) := try_fold (note_lane_fee has_dex_lane) classic_txs (replicate lane_count i64_max, []) in
    let? fees := lane_base_fees has_dex_lane classic_limited dex_limited base_fee lowest_lane_fee in
    let? components := try_fold (place_tx fees) (zip classic_txs lane_for_tx) [] in
    Ok (PhaseV0 (vecm_or_default (component_of <$> components))).

(** ** The Soroban phase *)

Definition compute_soroban_base_fee (stages : list (list (list HashedTx))) (soroban_limited had_tx_not_fitting : bool) (ledger_base_fee : Z) : option Z :=
  if bool_decide (stages = []) then None
  else if soroban_limited || had_tx_not_fitting then
    Some (default ledger_base_fee (min_of (omap fee_per_op_of (concat (concat stages)))))
  else Some ledger_base_fee.

Definition build_soroban_phase_with_base_fee (soroban_txs : list HashedTx) (soroban_limited : bool) (ledger_base_fee : Z) (q : TransactionQueue) :
    result (TransactionPhase * option Z) Panic :=
  if bool_decide (soroban_txs = []) then let? p := empty_soroban_phase in Ok (p, None)
  else if use_parallel q then
    let? (stages, had_tx_not_fitting) :=
      build_parallel_soroban_phase soroban_txs (effective_ledger_max_instructions q) (effective_ledger_max_dependent_tx_clusters q)
        (soroban_phase_min_stage_count (config q)) (soroban_phase_max_stage_count (config q)) in
    let soroban_base_fee := compute_soroban_base_fee stages soroban_limited had_tx_not_fitting ledger_base_fee in
    let? phase := stages_to_xdr_phase stages soroban_base_fee in
    Ok (phase, soroban_base_fee)
  else
    let soroban_base_fee :=
      Some (if soroban_limited then default ledger_base_fee (min_of (omap fee_per_op_of soroban_txs)) else ledger_base_fee) in
    let? phase := soroban_phase_with_stages soroban_base_fee [[vecm_or_default (envelope <$> soroban_txs)]] in
    Ok (phase, soroban_base_fee).

(** ** The set *)

(** Where the inputs come from: the header of a snapshot, or the context of the queue. *)
Inductive BuildContext :=
| Nomination (ctx_base_fee ctx_protocol_version ctx_validation_version : Z)
| FromQueue.

Record BuildInputs := MkInputs { in_base_fee : Z; in_protocol_version : Z; in_validation_version : Z }.
Definition build_inputs (ctx : BuildContext) (q : TransactionQueue) : BuildInputs :=
  match ctx with
  | Nomination f v w => MkInputs f v w
  | FromQueue =>
      let vc := validation_context q in
      MkInputs (TxQueue.base_fee vc) (TxQueue.protocol_version vc) (TxQueue.protocol_version vc)
  end.

(** [passes] is what the checks of one transaction come to, [has_accounts] whether there
    is a provider of accounts, [override] the provider of balances of the caller. *)
Definition build_generalized_tx_set_with_providers (ctx : BuildContext) (previous_ledger_hash : list Z) (max_ops : Z)
    (starting_seq : option (gmap Uint256 Z)) (passes : HashedTx -> bool) (override_fee_provider : option FeeBalanceProvider)
    (has_accounts : bool) (cores : option nat) (now seed : Z) (q : TransactionQueue) : result GeneralizedTransactionSet Panic :=
  let inputs := build_inputs ctx q in
  let? selected := select_transactions_with_starting_seq max_ops starting_seq (in_protocol_version inputs) now seed q in
  let classic_txs := filter (fun htx => is_soroban_envelope (envelope htx) = false) (selected_transactions selected) in
  let soroban_txs := filter (fun htx => is_soroban_envelope (envelope htx) = true) (selected_transactions selected) in
  let fee_ref := match override_fee_provider with Some p => Some p | None => fee_balance_provider q end in
  let '(classic_txs, soroban_txs) :=
    if is_some fee_ref || has_accounts
    then trim_invalid_two_phase_hashed passes has_accounts cores fee_ref (in_validation_version inputs) classic_txs soroban_txs
    else (classic_txs, soroban_txs) in
  let soroban_txs := sort_hashed_txs soroban_txs in
  let? classic_phase :=
    build_classic_phase classic_txs (classic_limited selected) (dex_limited selected) (in_base_fee inputs) (is_some (max_dex_ops (config q))) in
  let? (soroban_phase, _) := build_soroban_phase_with_base_fee soroban_txs (soroban_limited selected) (in_base_fee inputs) q in
  Ok (MkTxSet previous_ledger_hash [classic_phase; soroban_phase]).
End selection.
