(* ===== verification/TxSelectionFacts.v ===== *)
(** * TxSelectionFacts: what is selected from the queue

    Every account has at most one transaction in the queue, so the layers of the
    selection are single transactions. The selection takes them by descending rate as
    long as they fit; what it takes stays within the limits, and what it leaves does not
    fit beside it. *)

From S2P Require Import Prelude Bucket Ledger Lists Resource Envelope TxSetBuilder SurgePricing SurgePricingFacts SurgePricingPop TxQueueStore TxQueue TxQueueHeld TxQueueStoreFacts TxSetTrim TxSelection.

(** ** The transactions of each account *)

Section accounts.
Context `{EnvelopeXdr} `{HashIteration}.

Notation AccountTransactions := (gmap Uint256 (list QueuedTransaction)).
Notation source tx := (account_key (q_envelope tx)).
Notation sources T := ((fun t : QueuedTransaction => account_key (q_envelope t)) <$> T).
Implicit Types m : AccountTransactions.
Implicit Types t u : QueuedTransaction.
Implicit Types T : list QueuedTransaction.
Implicit Types P : QueuedTransaction -> bool.

(** The map has the transactions of [T], each alone under its source. *)
Definition singles (T : list QueuedTransaction) (m : AccountTransactions) : Prop :=
  forall k l, m !! k = Some l <-> exists t, t ∈ T /\ source t = k /\ l = [t].

Lemma source_in T t : t ∈ T -> source t ∈ sources T.
Proof. apply (list_elem_of_fmap_2 (fun t => source t)). Qed.

Lemma singles_perm T T' m : T ≡ₚ T' -> singles T m -> singles T' m.
Proof. intros Hp Hs k l. rewrite (Hs k l). by setoid_rewrite Hp. Qed.

Lemma singles_none T m k : singles T m -> k ∉ sources T -> m !! k = None.
Proof.
  intros Hs Hk. apply eq_None_not_Some. intros [l Hl]. apply Hs in Hl as (t & Ht & <- & _). apply Hk. by apply source_in.
Qed.

Lemma singles_nil : singles [] ∅.
Proof. intros k l. rewrite lookup_empty. split; [done|]. by intros (t & ?%elem_of_nil & _). Qed.

Lemma singles_snoc T m t : singles T m -> source t ∉ sources T -> singles (T ++ [t]) (<[source t := [t]]> m).
Proof.
  intros Hs Ht k l. split.
  - intros [[<- <-]|[Hne Hk]]%lookup_insert_Some.
    + exists t. split; [apply elem_of_app; right; left|done].
    + apply Hs in Hk as (u & Hu & E & ->). exists u. split; [apply elem_of_app; by left|done].
  - intros (u & [Hu | ->%list_elem_of_singleton]%elem_of_app & <- & ->); [|by rewrite lookup_insert_eq].
    rewrite lookup_insert_ne; [apply Hs; by exists u|]. intros E. apply Ht. rewrite E. by apply source_in.
Qed.

Lemma push_single T m t : singles T m -> source t ∉ sources T -> push_tx (source t) t m = <[source t := [t]]> m.
Proof. intros Hs Ht. unfold push_tx. by rewrite (singles_none T). Qed.

(** A loop that puts the transactions it wants under their sources. *)
Lemma singles_fold (step : AccountTransactions -> QueuedTransaction -> AccountTransactions) P T :
  (forall T' m t, singles T' m -> source t ∉ sources T' -> t ∈ T -> step m t = if P t then <[source t := [t]]> m else m) ->
  NoDup (sources T) -> singles (filter (fun t => P t = true) T) (foldl step ∅ T).
Proof.
  intros Hstep. induction T as [|t T IH] using rev_ind; intros Hnd; [apply singles_nil|].
  rewrite fmap_app in Hnd. apply NoDup_app in Hnd as (Hnd & Hout & _). rewrite foldl_app, filter_app. cbn [foldl].
  assert (source t ∉ sources (filter (fun t => P t = true) T)) as Ht.
  { intros (u & E & [_ Hu]%list_elem_of_filter)%list_elem_of_fmap. apply (Hout (source t)); [rewrite E; by apply source_in|csimpl; left]. }
  assert (singles (filter (fun t => P t = true) T) (foldl step ∅ T)) as Hs.
  { apply IH; [|done]. intros T' m u Hm Hu Hin. apply (Hstep T'); [done|done|]. apply elem_of_app. by left. }
  rewrite (Hstep _ _ t Hs Ht) by (apply elem_of_app; right; left). rewrite filter_cons. destruct (P t).
  - rewrite decide_True by done. apply (singles_snoc _ _ t Hs Ht).
  - rewrite decide_False by done. by rewrite app_nil_r.
Qed.

(** The entries of such a map, in the order of an iteration. *)
Lemma singles_iterate T m : singles T m -> NoDup (sources T) ->
  exists T', T' ≡ₚ T /\ iterate m = (fun t => (source t, [t])) <$> T'.
Proof.
  intros Hs Hnd. assert (iterate m ≡ₚ map (fun t => (source t, [t])) T) as Hp.
  { rewrite iterate_perm. apply NoDup_Permutation.
    - apply NoDup_map_to_list.
    - apply (NoDup_fmap_1 fst). rewrite map_map. exact Hnd.
    - intros [k l]. rewrite elem_of_map_to_list, (Hs k l). split.
      + intros (t & Ht & <- & ->). apply list_elem_of_fmap. by exists t.
      + intros (t & [= -> ->] & Ht)%list_elem_of_fmap. by exists t. }
  apply Permutation_map_inv in Hp as (T' & E & Hp). exists T'. by split.
Qed.

Lemma gather_ok now max_age T : NoDup (sources T) ->
  singles (filter (fun t => negb (is_expired now max_age t) = true) T) (foldl (gather now max_age) ∅ T).
Proof.
  apply (singles_fold (gather now max_age) (fun t => negb (is_expired now max_age t))). intros T' m t Hm Ht _. unfold gather.
  destruct (is_expired now max_age t); [done|]. by apply (push_single T').
Qed.

(** The transaction follows the last sequence number of its account, if that is known. *)
Definition in_line (starting_seq : option (gmap Uint256 Z)) t : bool :=
  match starting_seq ≫= (fun seqs : gmap Uint256 Z => seqs !! source t) with
  | Some seq => envelope_sequence_number (q_envelope t) =? i64_saturating_add seq 1
  | None => true
  end.

Lemma layer_single starting_seq m t :
  layer_account starting_seq m (source t, [t]) = Ok (if in_line starting_seq t then <[source t := [t]]> m else m).
Proof.
  unfold layer_account, in_line. cbn [try_sort_by try_insert_by result_bind try_fold]. unfold dedup_one. rewrite lookup_empty. cbn [result_bind].
  set (seq := envelope_sequence_number (q_envelope t)).
  assert ((iterate (<[seq:=t]> (∅ : gmap Z QueuedTransaction))).*1 = [seq]) as ->.
  { pose proof (iterate_perm (<[seq:=t]> (∅ : gmap Z QueuedTransaction))) as Hp. rewrite map_to_list_insert, map_to_list_empty in Hp by apply lookup_empty.
    apply Permutation_singleton_r in Hp. by rewrite Hp. }
  cbn [sort_by insert_by foldr]. destruct (starting_seq ≫= _) as [s|]; cbn [fmap option_fmap option_map contiguous_from].
  - rewrite lookup_insert_eq. destruct (Z.ltb_spec seq (i64_saturating_add s 1)), (Z.eqb_spec seq (i64_saturating_add s 1)); try lia; done.
  - by rewrite lookup_insert_eq.
Qed.

Lemma layered_ok starting_seq T m : singles T m -> NoDup (sources T) ->
  exists layered, try_fold (layer_account starting_seq) (iterate m) ∅ = Ok layered /\ singles (filter (fun t => in_line starting_seq t = true) T) layered.
Proof.
  intros Hs Hnd. destruct (singles_iterate T m Hs Hnd) as (T' & Hp & ->).
  exists (foldl (fun m t => if in_line starting_seq t then <[source t := [t]]> m else m) ∅ T'). split.
  - generalize (∅ : AccountTransactions) as a. clear. induction T' as [|t T' IH]; intros a; [done|]. rewrite fmap_cons. cbn [try_fold foldl].
    rewrite (layer_single starting_seq a t). cbn [result_bind]. apply IH.
  - apply (singles_perm (filter (fun t => in_line starting_seq t = true) T')); [by rewrite Hp|].
    apply (singles_fold _ (in_line starting_seq)); [done|]. by rewrite Hp.
Qed.

(** ** The split into phases *)

Lemma split_single t (acc : AccountTransactions * AccountTransactions) : split_txs (source t) false [t] acc.1 acc.2 =
  if is_soroban_envelope (q_envelope t) then (acc.1, push_tx (source t) t acc.2) else (push_tx (source t) t acc.1, acc.2).
Proof. simpl. by destruct (is_soroban_envelope _). Qed.

Lemma split_fold T layered : singles T layered -> forall T', (forall t, t ∈ T' -> t ∈ T) -> forall acc,
  foldl (split_account layered) acc (sources T') =
  (foldl (fun m t => if is_classic t then push_tx (source t) t m else m) acc.1 T',
   foldl (fun m t => if is_soroban t then push_tx (source t) t m else m) acc.2 T').
Proof.
  intros Hs T'. induction T' as [|t T' IH]; intros Hin acc; [by destruct acc|]. csimpl.
  rewrite IH by (intros u Hu; apply Hin; by right). unfold split_account at 1 2.
  assert (layered !! source t = Some [t]) as -> by (apply Hs; exists t; split; [apply Hin; left|done]).
  rewrite split_single. unfold is_classic, is_soroban. by destruct (is_soroban_envelope _).
Qed.

Lemma split_ok T layered : singles T layered -> NoDup (sources T) ->
  exists c s, split_layered_accounts_by_phase layered = (c, s) /\
    singles (filter (fun t => is_classic t = true) T) c /\ singles (filter (fun t => is_soroban t = true) T) s.
Proof.
  intros Hs Hnd. unfold split_layered_accounts_by_phase. destruct (singles_iterate T layered Hs Hnd) as (T0 & Hp0 & ->).
  assert (((fun t => (source t, [t])) <$> T0).*1 = sources T0) as -> by (rewrite <- list_fmap_compose; done).
  pose proof (sort_by_perm xdr_compare (sources T0)) as Hp. apply (Permutation_map_inv (fun t => source t)) in Hp as (T' & -> & Hp').
  assert (T' ≡ₚ T) as HpT by by rewrite <- Hp'.
  rewrite (split_fold T layered Hs) by (intros t Ht; by rewrite <- HpT). eexists. eexists. split; [done|].
  assert (NoDup (sources T')) as Hnd' by by rewrite HpT. split.
  - apply (singles_perm (filter (fun t => is_classic t = true) T')); [by rewrite HpT|]. apply (singles_fold _ is_classic); [|done].
    intros T2 m t Hm Ht _. destruct (is_classic t); [|done]. by apply (push_single T2).
  - apply (singles_perm (filter (fun t => is_soroban t = true) T')); [by rewrite HpT|]. apply (singles_fold _ is_soroban); [|done].
    intros T2 m t Hm Ht _. destruct (is_soroban t); [|done]. by apply (push_single T2).
Qed.
End accounts.

(** ** The loop *)

Section loop.
Context `{EnvelopeXdr} `{HashIteration} (n : nat) (version : Z).

Notation AccountTransactions := (gmap Uint256 (list QueuedTransaction)).
Notation source tx := (account_key (q_envelope tx)).

(** No account has a second transaction to go on with. *)
Definition alone (accounts : AccountTransactions) : Prop := forall k l, accounts !! k = Some l -> length l = 1%nat.
Definition at_first (positions : gmap Uint256 nat) : Prop := forall k i, positions !! k = Some i -> i = 0%nat.

Lemma singles_alone T (accounts : AccountTransactions) : singles T accounts -> alone accounts.
Proof. intros Hs k l Hl. apply Hs in Hl as (t & _ & _ & ->). done. Qed.

Lemma no_next accounts positions account q : alone accounts -> at_first positions ->
  push_next_account_tx accounts account version q positions = Ok (q, positions).
Proof.
  intros Ha Hf. unfold push_next_account_tx. destruct (accounts !! account) as [txs|] eqn:E; [|done]. apply Ha in E.
  assert (default 0%nat (positions !! account) = 0%nat) as ->.
  { destruct (positions !! account) as [i|] eqn:Ei; [|done]. simpl. by apply (Hf account). }
  rewrite lookup_ge_None_2; [done|]. lia.
Qed.

(** Everything that fits is taken. *)
Definition take_all (s : list QueuedTransaction) (t : QueuedTransaction) : VisitTxResult * list QueuedTransaction := (Processed, s ++ [t]).

Lemma visit_taken s es : visit_all take_all s es = s ++ (entry_tx <$> es).
Proof. revert s. induction es as [|e es IH]; intros s; [by rewrite app_nil_r|]. unfold visit_all in *. csimpl. rewrite IH. by rewrite <- app_assoc. Qed.

Lemma processed_taken s es : processed take_all s es = es.
Proof. revert s. induction es as [|e es IH]; intros s; [done|]. simpl. by rewrite IH. Qed.

Lemma set_flag_ok lane flags : (lane < length flags)%nat -> set_flag lane flags = Ok (put_at lane true flags).
Proof. intros Hl. unfold set_flag, at_index. apply lookup_lt_is_Some_2 in Hl as [b ->]. done. Qed.

Lemma flag_put lane flags j : (lane < length flags)%nat -> put_at lane true flags !! j = Some true <-> j = lane \/ flags !! j = Some true.
Proof.
  intros Hl. unfold put_at. destruct (decide (j = lane)) as [->|Hne].
  - rewrite list_lookup_insert_eq by done. split; [by left|done].
  - rewrite list_lookup_insert_ne by done. tauto.
Qed.

Lemma top_active q k lane e : length (lanes q) = k -> top_of q (fun _ => true) lane e -> top_of q (lane_active (replicate k true)) lane e.
Proof.
  intros Hk (_ & (l & Hl & He) & Hmax). split; [|split].
  - unfold lane_active. rewrite lookup_replicate_2; [done|]. apply lookup_lt_Some in Hl. lia.
  - by exists l.
  - intros lane' l' e' _. by apply Hmax.
Qed.

Section run.
Context (accounts : AccountTransactions) (Halone : alone accounts) (k : nat).
Context (step : nat -> QueueEntry -> Selecting -> result Selecting Panic).
Context (Hstep : forall lane e st, (lane < k)%nat -> step lane e st = classic_step accounts version lane e st).

Record selecting_ok (st : Selecting) : Prop := {
  slo_queue : queue_ok n version (sel_queue st);
  slo_lanes : length (lane_limits (sel_queue st)) = k;
  slo_room : room_ok n k (sel_left st);
  slo_flags : length (had_not_fitting st) = k;
  slo_positions : at_first (sel_positions st)
}.

Definition flagged (st : Selecting) : Prop := exists lane, had_not_fitting st !! lane = Some true.

(** One pass takes the entry of the highest rate, or passes it over. *)
Lemma select_step_ok st lane e : selecting_ok st -> top_of (sel_queue st) (fun _ => true) lane e ->
  exists q1 l l', queue_ok n version q1 /\ same_queue (sel_queue st) q1 /\ lanes (sel_queue st) !! lane = Some l /\
    lanes q1 = put_at lane l' (lanes (sel_queue st)) /\ l ≡ₚ e :: l' /\
    ((exists flags, step lane e st = Ok (MkSelecting q1 (sel_positions st) (sel_txs st) (sel_left st) flags) /\ length flags = k /\
        (exists j, flags !! j = Some true) /\ does_not_fit n version (lane_config (sel_queue st)) (sel_left st) e) \/
     (exists room1, step lane e st = Ok (MkSelecting q1 (sel_positions st) (sel_txs st ++ [entry_tx e]) room1 (had_not_fitting st)) /\
        room_ok n k room1 /\ charged n version (lane_config (sel_queue st)) [e] (sel_left st) room1)).
Proof.
  intros [Hq Hk Hroom Hfl Hpos] (_ & (l & Hl & He) & _). destruct (queue_sets n version _ Hq lane l Hl) as [_ Hof]. destruct (Hof e He) as [_ Ha].
  assert (lane < k)%nat as Hlane by (rewrite <- Hk; apply Ha).
  destruct (erase_in n version _ lane l e Hq Hl He) as (q1 & l' & Eer & Hq1 & Hsame & Hla & Hp & _).
  exists q1, l, l'. split; [done|]. split; [done|]. split; [done|]. split; [done|]. split; [done|].
  rewrite Hstep by done. unfold classic_step, queue_resources. rewrite (adm_uses _ _ _ _ _ _ Ha). cbn [result_bind].
  rewrite <- Hk in Hroom. destruct (fits_decision n version (sel_queue st) (sel_left st) lane e Hq Hroom Ha) as (x & y & bx & b & Hx & Hy & Hbx & Hb & Hdec).
  rewrite (lookup_at _ _ _ Hx). cbn [result_bind]. rewrite Hbx. cbn [result_bind]. rewrite (lookup_at _ _ _ Hy). cbn [result_bind]. rewrite Hb. cbn [result_bind].
  destruct (bx || b).
  - left. exists (put_at (if bx then lane else GENERIC_LANE) true (had_not_fitting st)). unfold skip_entry, remove_entry.
    assert ((if bx then lane else GENERIC_LANE) < length (had_not_fitting st))%nat as Hlt by (rewrite Hfl; destruct bx; unfold GENERIC_LANE; lia).
    rewrite set_flag_ok by done. cbn [result_bind]. rewrite Eer. split; [done|]. split; [unfold put_at; by rewrite length_insert|]. split; [|done].
    eexists. apply flag_put; [done|]. by left.
  - right. destruct Hdec as [Hfl1 Hfg1]. destruct (charge_ok n version (length (lane_limits (sel_queue st))) (lane_config (sel_queue st)) lane e (sel_left st)) as (room1 & Ech & Hroom1 & Hch);
      [done|lia|apply Ha|apply Ha|congruence|congruence|].
    exists room1. rewrite Ech. cbn [result_bind]. unfold take_entry, remove_entry. rewrite Eer. cbn [result_bind]. rewrite no_next by done.
    rewrite Hk in Hroom1. by split.
Qed.

Lemma select_loop_ok fuel : forall st, selecting_ok st -> (length (concat (lanes (sel_queue st))) < fuel)%nat ->
  exists st' visited skipped, select_loop step fuel st = Ok st' /\
    run_ok n version take_all true (sel_queue st) (sel_txs st) (sel_left st) (replicate k true) (sel_queue st') (sel_txs st') (sel_left st') visited skipped /\
    length (had_not_fitting st') = k /\ (flagged st' <-> flagged st \/ skipped <> []).
Proof.
  induction fuel as [|fuel IH]; intros st Hst Hfuel; [lia|]. cbn [select_loop]. unfold peek_top.
  pose proof (slo_queue st Hst) as Hq. pose proof (slo_lanes st Hst) as Hk. pose proof (slo_room st Hst) as Hroom. rewrite <- Hk in Hroom.
  destruct (best_top_ok n version (sel_queue st) (fun _ => true) Hq) as [[-> Hempty]|(lane & e & -> & Htop)]; cbn [result_bind].
  { exists st, [], []. split; [done|]. split; [|split; [apply Hst|]].
    - apply run_done; [done|done|]. intros lane l _. by apply Hempty.
    - split; [by left|]. by intros [Hf|Hn]. }
  destruct (select_step_ok st lane e Hst Htop) as (q1 & l & l' & Hq1 & Hsame & Hl & Hla & Hp & Hcase).
  assert (length (concat (lanes (sel_queue st))) = S (length (concat (lanes q1)))) as Hlen.
  { rewrite Hla. pose proof (lanes_taken_perm (lanes (sel_queue st)) lane l l' e Hl Hp) as Hlp. by apply Permutation_length in Hlp. }
  assert (length (lane_limits q1) = k) as Hk1 by (destruct Hsame as (_ & -> & _); exact Hk).
  apply (top_active _ k) in Htop; [|rewrite <- Hk; apply (queue_lanes n version _ Hq)].
  destruct Hcase as [(flags & -> & Hflags & Hset & Hno)|(room1 & -> & Hroom1 & Hch)]; cbn [result_bind].
  - destruct (IH (MkSelecting q1 (sel_positions st) (sel_txs st) (sel_left st) flags)) as (st' & visited & skipped & -> & Hrun & Hlf & Hfl).
    { split; simpl; try done; apply Hst. } { simpl. lia. }
    exists st', visited, (e :: skipped). split; [done|]. split; [|split; [done|]].
    + by apply (run_skip n version take_all true (sel_queue st) (sel_txs st) (sel_left st) (replicate k true) q1 lane l l' e).
    + split; [intros _; by right|]. intros _. apply Hfl. left. exact Hset.
  - destruct (IH (MkSelecting q1 (sel_positions st) (sel_txs st ++ [entry_tx e]) room1 (had_not_fitting st))) as (st' & visited & skipped & -> & Hrun & Hlf & Hfl).
    { split; simpl; try done; apply Hst. } { simpl. lia. }
    exists st', (e :: visited), skipped. split; [done|]. split; [|split; [done|exact Hfl]].
    rewrite <- Hk in Hroom1. by apply (run_visit n version take_all true (sel_queue st) (sel_txs st) (sel_left st) (replicate k true) q1 room1 lane l l' e).
Qed.
End run.
End loop.

(** ** What a selection comes to *)

Section greedy.
Context `{EnvelopeXdr} `{HashIteration} (n : nat) (version : Z).

Notation AccountTransactions := (gmap Uint256 (list QueuedTransaction)).
Notation source tx := (account_key (q_envelope tx)).
Notation sources T := ((fun t : QueuedTransaction => account_key (q_envelope t)) <$> T).
Implicit Types T : list QueuedTransaction.

Definition tx_uses (c : LaneConfig) (i : nat) (t : QueuedTransaction) : Z := dim (uses n version c (q_envelope t)) i.

Definition tx_in_lane (c : LaneConfig) (lane : nat) (t : QueuedTransaction) : bool :=
  match config_lane c (q_envelope t) with Ok l => (l =? lane)%nat | Err _ => false end.

(** What counts for a lane: for the generic one everything. *)
Definition counted_in (c : LaneConfig) (lane : nat) (l : list QueuedTransaction) : list QueuedTransaction :=
  if (lane =? GENERIC_LANE)%nat then l else filter (fun t => tx_in_lane c lane t = true) l.

(** From [T] the transactions [selected] are taken by descending rate, within the limits
    of each lane; each of the others would exceed a limit. *)
Record greedy (c : LaneConfig) (T selected others : list QueuedTransaction) : Prop := {
  gr_parts : T ≡ₚ selected ++ others;
  gr_order : StronglySorted (fun a b => cmp_le rate_compare (fee_rate b) (fee_rate a)) selected;
  gr_limits : forall lane limit i, config_limits c !! lane = Some limit -> zsum (tx_uses c i) (counted_in c lane selected) <= dim limit i;
  gr_full : forall t, t ∈ others -> exists lane j limit i, config_lane c (q_envelope t) = Ok lane /\ (j = lane \/ j = GENERIC_LANE) /\
    config_limits c !! j = Some limit /\ dim limit i < zsum (tx_uses c i) (counted_in c j selected) + tx_uses c i t
}.

Lemma filter_fmap_in {A B} (f : A -> B) (P : A -> Prop) (Q : B -> Prop) `{!forall x, Decision (P x), !forall x, Decision (Q x)} (l : list A) :
  (forall x, x ∈ l -> P x <-> Q (f x)) -> f <$> filter P l = filter Q (f <$> l).
Proof.
  induction l as [|x l IH]; intros Hl; [done|]. rewrite filter_cons, fmap_cons, filter_cons, <- IH by (intros y Hy; apply Hl; by right).
  destruct (decide (P x)) as [Hp|Hp]; rewrite (Hl x ltac:(left)) in Hp; [by rewrite decide_True|by rewrite decide_False].
Qed.

Lemma charged_sum c lane i es : zsum (entry_uses n version c i) (charged_to c lane es) = zsum (tx_uses c i) (counted_in c lane (entry_tx <$> es)).
Proof.
  unfold charged_to, counted_in. destruct (lane =? GENERIC_LANE)%nat; [by rewrite zsum_fmap|].
  rewrite <- (filter_fmap_in entry_tx (fun e => in_lane c lane e = true) (fun t => tx_in_lane c lane t = true)); [by rewrite zsum_fmap|].
  done.
Qed.

(** What one run comes to. *)
Lemma run_greedy wanted s q T st0 q' st' room' visited skipped : held n version wanted s q T ->
  run_ok n version take_all true q st0 (lane_limits q) (replicate (length (lane_limits q)) true) q' st' room' visited skipped ->
  config_limits (lane_config q) = lane_limits q -> greedy (lane_config q) T (entry_tx <$> visited) (entry_tx <$> skipped).
Proof.
  intros Hh [_ Hsame _ Ho _ Hparts [Hk Hroom] Hch Hskip Hgaps] Hcl. rewrite processed_taken in Hch.
  assert (concat (lanes q') = []) as Hnil.
  { apply Hgaps. intros lane l Hl. unfold lane_active. rewrite lookup_replicate_2; [done|].
    rewrite <- (queue_lanes n version q (held_queue _ _ _ _ _ _ Hh)). by apply lookup_lt_Some in Hl. }
  rewrite Hnil, app_nil_r, (held_entries _ _ _ _ _ _ Hh) in Hparts.
  assert (forall lane limit i, lane_limits q !! lane = Some limit -> exists r', room' !! lane = Some r' /\ 0 <= dim r' i /\
    dim r' i = dim limit i - zsum (tx_uses (lane_config q) i) (counted_in (lane_config q) lane (entry_tx <$> visited))) as Hleft.
  { intros lane limit i Hl. destruct (lookup_lt_is_Some_2 room' lane) as [r' Hr']; [rewrite Hk; by apply lookup_lt_Some in Hl|].
    exists r'. split; [done|]. split; [apply Hroom; by apply list_elem_of_lookup_2 in Hr'|]. by rewrite (Hch lane limit r' Hl Hr' i), charged_sum. }
  split.
  - rewrite <- fmap_app, <- Hparts. clear. induction T as [|t T IH]; csimpl; [done|by rewrite <- IH].
  - assert (forall e, e ∈ visited -> entry_fee_rate e = fee_rate (entry_tx e)) as Hrate.
    { intros e He. assert (e ∈ (fun tx => QueueEntry_new tx s) <$> T) as He' by (rewrite Hparts; apply elem_of_app; by left).
      by apply list_elem_of_fmap in He' as (t & -> & _). }
    clear - Ho Hrate. induction Ho as [|e visited Ho IH He]; [constructor|]. csimpl. constructor; [apply IH; intros e' He'; apply Hrate; by right|].
    apply Forall_forall. intros t (e' & -> & He')%list_elem_of_fmap. rewrite Forall_forall in He. specialize (He e' He').
    rewrite <- !Hrate by (by left || by right). unfold cmp_le in *. intros E. apply He. unfold entry_compare, rank_compare, entry_rank. simpl. by rewrite E.
  - intros lane limit i Hl. rewrite Hcl in Hl. destruct (Hleft lane limit i Hl) as (r' & _ & Hnn & E). lia.
  - intros t (e & -> & He)%list_elem_of_fmap. destruct (Hskip e He) as (lane & r' & Hc & Hr' & i & Hi).
    assert (exists j, (j = lane \/ j = GENERIC_LANE) /\ room' !! j = Some r') as (j & Hj & Hr) by (destruct Hr' as [?|?]; [exists lane|exists GENERIC_LANE]; auto).
    destruct (lookup_lt_is_Some_2 (lane_limits q) j) as [limit Hl]; [rewrite <- Hk; by apply lookup_lt_Some in Hr|].
    destruct (Hleft j limit i Hl) as (r2 & Hr2 & _ & E). assert (r2 = r') as -> by congruence.
    exists lane, j, limit, i. rewrite Hcl. split; [done|]. split; [done|]. split; [done|]. unfold tx_uses at 2. change (dim (uses n version _ _) i) with (entry_uses n version (lane_config q) i e). lia.
Qed.

(** ** Filling the queue *)

Lemma seeded T' (q : SurgePricingPriorityQueue) p q' : add_all T' version q = Ok q' -> at_first p ->
  exists p', try_fold (seed_one version) ((fun t => (source t, [t])) <$> T') (q, p) = Ok (q', p') /\ at_first p'.
Proof.
  unfold add_all. revert q p. induction T' as [|t T' IH]; intros q p E Hp; [injection E as <-; by exists p|].
  rewrite fmap_cons. cbn [try_fold] in E |- *. unfold seed_one at 1. cbn [fst snd]. destruct (add t version q) as [q1|]; [|done]. cbn [result_bind] in E |- *.
  apply IH; [done|]. intros k i [[_ <-]|[_ Hk]]%lookup_insert_Some; [done|by apply (Hp k)].
Qed.

Lemma seed_ok wanted s q T accounts : held n version wanted s q [] -> singles T accounts -> NoDup (sources T) ->
  (forall t, t ∈ T -> queued_ok t /\ wanted t = true) -> NoDup (q_hash <$> T) -> count_ok (len T) ->
  exists q' p, seed_account_queue accounts version q = Ok (q', p) /\ at_first p /\ same_queue q q' /\ held n version wanted s q' T.
Proof.
  intros Hh Hs Hnd Hok Hhash Hc. destruct (singles_iterate T accounts Hs Hnd) as (T' & Hp & Ei). unfold seed_account_queue. rewrite Ei.
  destruct (held_add_all n version wanted s T' q [] Hh) as (q' & E & Hsame & Hh').
  - intros t. rewrite Hp. apply Hok.
  - rewrite app_nil_r. by rewrite Hp.
  - rewrite (len_perm _ _ Hp). unfold len at 2. simpl. by rewrite Z.add_0_r.
  - destruct (seeded T' q ∅ q' E) as (p & -> & Hp0); [intros k i; by rewrite lookup_empty|].
    exists q', p. split; [done|]. split; [done|]. split; [done|]. rewrite app_nil_r in Hh'. by apply (held_perm n version wanted s q' T' T).
Qed.

Lemma fuel_enough T accounts : singles T accounts -> NoDup (sources T) -> (length T < select_fuel accounts)%nat.
Proof.
  intros Hs Hnd. unfold select_fuel. destruct (singles_iterate T accounts Hs Hnd) as (T' & Hp & Ei). pose proof (iterate_perm accounts) as Hi. rewrite Ei in Hi.
  apply (fmap_Permutation snd), concat_perm, Permutation_length in Hi. rewrite <- Hi, <- (Permutation_length Hp). clear.
  induction T' as [|t T' IH]; [simpl; lia|]. rewrite !fmap_cons. cbn [concat]. simpl. lia.
Qed.
End greedy.

(** ** Selecting from each phase *)

Section phases.
Context `{EnvelopeXdr} `{HashIteration}.

Notation AccountTransactions := (gmap Uint256 (list QueuedTransaction)).
Notation sources T := ((fun t : QueuedTransaction => account_key (q_envelope t)) <$> T).
Implicit Types T : list QueuedTransaction.

Lemma soroban_step_lane accounts version lane e st : (lane < 1)%nat -> soroban_step accounts version lane e st = classic_step accounts version lane e st.
Proof.
  intros Hl. assert (lane = GENERIC_LANE) as -> by (unfold GENERIC_LANE; lia). unfold soroban_step, classic_step.
  destruct (queue_resources _ _ _) as [r|]; [|done]. cbn [result_bind]. destruct (at_index (sel_left st) GENERIC_LANE) as [x|]; [|done]. cbn [result_bind].
  destruct (any_greater r x) as [b|]; [|done]. cbn [result_bind]. destruct b; [done|]. cbn [orb].
  unfold charge. simpl. by destruct (charge_at GENERIC_LANE r (sel_left st)).
Qed.

(** What the transactions of a phase are, as the queue holds them. *)
Record phase_txs_ok (wanted : QueuedTransaction -> bool) T : Prop := {
  pht_queued : forall t, t ∈ T -> queued_ok t /\ wanted t = true;
  pht_sources : NoDup (sources T);
  pht_hashes : NoDup (q_hash <$> T);
  pht_count : count_ok (len T)
}.

Lemma limits_room n version wanted s q T : held n version wanted s q T -> room_ok n (length (lane_limits q)) (lane_limits q).
Proof. intros Hh. split; [done|]. apply (queue_limits n version q), Hh. Qed.

(** Seeding, the loop, and what it comes to, for any configuration. *)
Lemma select_ok n version wanted c s step accounts T : dims_ok n -> config_limits c <> [] -> (forall r, r ∈ config_limits c -> vec_ok n r) ->
  takes n version c (length (config_limits c)) wanted -> phase_txs_ok wanted T -> singles T accounts ->
  (forall lane e st, (lane < length (config_limits c))%nat -> step lane e st = classic_step accounts version lane e st) ->
  exists q0 q p st others, SurgePricingPriorityQueue_new c s = Ok q0 /\ seed_account_queue accounts version q0 = Ok (q, p) /\ lane_limits q = config_limits c /\
    get_num_lanes q = length (config_limits c) /\
    select_loop step (select_fuel accounts) (MkSelecting q p [] (lane_limits q) (replicate (length (config_limits c)) false)) = Ok st /\
    greedy n version c T (sel_txs st) others /\ length (had_not_fitting st) = length (config_limits c) /\ (flagged st <-> others <> []).
Proof.
  intros Hn Hne Hv Ht [Hq Hsrc Hhash Hcount] Hs Hstep. destruct (held_new n version wanted c s Hn Hne Hv Ht) as (q0 & E0 & Hc0 & Hl0 & Hh0).
  destruct (seed_ok n version wanted s q0 T accounts Hh0 Hs Hsrc Hq Hhash Hcount) as (q & p & Es & Hp & (Hc & Hl & _) & Hh).
  rewrite Hc0 in Hc. rewrite Hl0 in Hl.
  destruct (select_loop_ok n version accounts (singles_alone T accounts Hs) (length (config_limits c)) step Hstep (select_fuel accounts)
    (MkSelecting q p [] (lane_limits q) (replicate (length (config_limits c)) false))) as (st & visited & skipped & E & Hrun & Hlen & Hfl).
  - split; simpl; [apply Hh|by rewrite Hl| |by rewrite length_replicate|done]. pose proof (limits_room _ _ _ _ _ _ Hh) as Hroom. by rewrite Hl in Hroom |- *.
  - simpl. rewrite (held_entries _ _ _ _ _ _ Hh), length_fmap. by apply fuel_enough.
  - exists q0, q, p, st, (entry_tx <$> skipped). split; [done|]. split; [done|]. split; [done|]. split; [|split; [done|split; [|split; [done|]]]].
    + unfold get_num_lanes. pose proof (queue_lanes n version q (held_queue _ _ _ _ _ _ Hh)). by rewrite <- Hl.
    + simpl in Hrun. rewrite <- Hl in Hrun. pose proof (run_state _ _ _ _ _ _ _ _ _ _ _ _ _ Hrun) as Est. rewrite visit_taken in Est. simpl in Est. rewrite Est.
      pose proof (run_greedy n version wanted s q T [] _ _ _ visited skipped Hh Hrun) as Hg. rewrite Hc in Hg. apply Hg. by rewrite Hl.
    + rewrite Hfl. unfold flagged at 1. simpl. split.
      * intros [[lane Hf]|Hsk]; [by apply lookup_replicate in Hf as [? _]|]. intros E'. apply Hsk. by destruct skipped.
      * intros Hsk. right. by intros ->.
Qed.

Lemma select_soroban_ok version s limit accounts T : vec_ok 7 limit -> phase_txs_ok is_soroban T -> singles T accounts ->
  exists st others, select_soroban version s limit accounts = Ok st /\
    greedy 7 version (SorobanGenericLaneConfig_new limit) T (sel_txs st) others /\ length (had_not_fitting st) = 1%nat /\ (flagged st <-> others <> []).
Proof.
  intros Hl HT Hs. destruct (select_ok 7 version is_soroban (SorobanGenericLaneConfig_new limit) s (soroban_step accounts version) accounts T)
    as (q0 & q & p & st & others & E0 & Es & Elim & _ & El & Hg & Hf & Hfl); try done.
  - by right; right.
  - intros r Hr. by apply list_elem_of_singleton in Hr as ->.
  - apply soroban_takes.
  - intros lane e st Hlane. by apply soroban_step_lane.
  - exists st, others. split; [|done]. unfold select_soroban. rewrite E0. cbn [result_bind]. rewrite Es. cbn [result_bind]. rewrite Elim in El |- *. exact El.
Qed.

(** The configuration of a node: limits are [u32]s. *)
Record selection_config_ok (cfg : TxQueueConfig) : Prop := {
  sc_dex : forall x, max_dex_ops cfg = Some x -> is_u32 x;
  sc_classic_bytes : forall x, max_classic_bytes cfg = Some x -> is_u32 x;
  sc_soroban_bytes : forall x, max_soroban_bytes cfg = Some x -> is_u32 x
}.

Lemma vec_of_values n vs : length vs = n -> (forall x, x ∈ vs -> 0 <= x <= i64_max) -> vec_ok n (MkResource vs).
Proof.
  intros Hl Hv. split; [done|]. intros i. unfold dim. simpl. destruct (vs !! i) as [x|] eqn:E; simpl; [|unfold i64_max; lia].
  apply Hv. by apply list_elem_of_lookup_2 in E.
Qed.

Lemma one_or_two (use : bool) a b : is_u32 a -> is_u32 b -> vec_ok (if use then 2 else 1) (MkResource (a :: if use then [b] else [])).
Proof.
  intros Ha Hb. apply vec_of_values; [by destruct use|]. intros x Hx. unfold is_u32, u32_max, i64_max in *.
  apply elem_of_cons in Hx as [-> | Hx]; [lia|]. destruct use; [apply list_elem_of_singleton in Hx as ->; lia|by apply elem_of_nil in Hx].
Qed.

Lemma lane_config_ok max_ops q : 0 <= max_ops -> selection_config_ok (config q) ->
  exists n limit dex, selection_lane_config max_ops q = Ok (DexLimitingLaneConfig_new limit dex) /\
    n = (if (resource_size limit =? NUM_CLASSIC_TX_BYTES_RESOURCES)%nat then 2 else 1)%nat /\ vec_ok n limit /\
    (forall d, dex = Some d -> vec_ok n d) /\ dim limit 0 = Z.min u32_max max_ops.
Proof.
  intros Hm [Hd Hb _]. unfold selection_lane_config. set (use := is_some _ || is_some _). set (bytes := default _ (max_classic_bytes _)).
  assert (is_u32 (Z.min u32_max max_ops)) as Hops by (unfold is_u32, u32_max; lia).
  assert (is_u32 MAX_CLASSIC_BYTE_ALLOWANCE) as Hall by (by vm_compute).
  assert (is_u32 bytes) as Hbytes by (unfold bytes; destruct (max_classic_bytes (config q)); [by apply Hb|done]).
  exists (if use then 2 else 1)%nat, (MkResource (Z.min u32_max max_ops :: if use then [bytes] else [])),
    ((fun dex_ops => MkResource (dex_ops :: if use then [MAX_CLASSIC_BYTE_ALLOWANCE] else [])) <$> max_dex_ops (config q)).
  split; [by destruct use, (max_dex_ops (config q))|]. split; [by destruct use|]. split; [by apply one_or_two|]. split; [|done].
  intros d E. destruct (max_dex_ops (config q)) as [x|] eqn:Ex; [|done]. injection E as <-. apply one_or_two; [by apply Hd|done].
Qed.

Lemma select_classic_ok max_ops version s accounts q T : 0 <= max_ops -> selection_config_ok (config q) -> phase_txs_ok is_classic T -> singles T accounts ->
  exists n limit dex st others, selection_lane_config max_ops q = Ok (DexLimitingLaneConfig_new limit dex) /\ (n = 1 \/ n = 2)%nat /\
    dim limit 0 = Z.min u32_max max_ops /\ select_classic max_ops version s accounts q = Ok st /\
    greedy n version (DexLimitingLaneConfig_new limit dex) T (sel_txs st) others /\
    (length (had_not_fitting st) <= 2)%nat /\ (flagged st <-> others <> []).
Proof.
  intros Hm Hcfg HT Hs. destruct (lane_config_ok max_ops q Hm Hcfg) as (n & limit & dex & Ec & En & Hl & Hd & Hdim).
  destruct (select_ok n version is_classic (DexLimitingLaneConfig_new limit dex) s (classic_step accounts version) accounts T)
    as (q0 & q1 & p & st & others & E0 & Es & Elim & En1 & El & Hg & Hlen & Hf); try done.
  - rewrite En. destruct (_ =? _)%nat; [by right; left|by left].
  - intros r [-> | Hr]%elem_of_cons; [done|]. destruct dex as [d|]; [|by apply elem_of_nil in Hr]. apply list_elem_of_singleton in Hr as ->. by apply Hd.
  - rewrite En. apply dex_takes.
  - exists n, limit, dex, st, others. split; [done|]. split; [rewrite En; destruct (_ =? _)%nat; auto|]. split; [done|]. split; [|split; [done|split; [|done]]].
    2: rewrite Hlen; by destruct dex; simpl; lia.
    unfold select_classic. rewrite Ec. cbn [result_bind]. rewrite E0. cbn [result_bind]. rewrite Es. cbn [result_bind]. by rewrite En1.
Qed.

(** ** The whole selection *)

Notation source tx := (account_key (q_envelope tx)).

(** What may be selected: not expired, and next in line for its account. *)
Definition candidate (now : Z) (starting_seq : option (gmap Uint256 Z)) (q : TransactionQueue) (t : QueuedTransaction) : bool :=
  negb (is_expired now (max_age_secs (config q)) t) && in_line starting_seq t.
Definition candidates (now : Z) (starting_seq : option (gmap Uint256 Z)) (q : TransactionQueue) : list QueuedTransaction :=
  filter (fun t => candidate now starting_seq q t = true) (vals (by_hash (store q))).

Lemma filter_both (P Q : QueuedTransaction -> bool) (l : list QueuedTransaction) :
  filter (fun t => Q t = true) (filter (fun t => P t = true) l) = filter (fun t => P t && Q t = true) l.
Proof.
  induction l as [|t l IH]; [done|]. rewrite !(filter_cons (fun t => P t = true)), (filter_cons (fun t => P t && Q t = true)). destruct (P t); simpl; [|done].
  rewrite filter_cons, IH. done.
Qed.

Lemma layered_accounts_ok now starting_seq q : NoDup (sources (vals (by_hash (store q)))) ->
  exists layered, layered_accounts now starting_seq q = Ok layered /\ singles (candidates now starting_seq q) layered.
Proof.
  intros Hnd. unfold layered_accounts. pose proof (store_values_perm (store q)) as Hp.
  assert (NoDup (sources (store_values (store q)))) as Hnd' by by rewrite Hp.
  destruct (layered_ok starting_seq _ _ (gather_ok now (max_age_secs (config q)) (store_values (store q)) Hnd')) as (layered & -> & Hs).
  - apply (NoDup_submseteq_down _ (sources (store_values (store q)))); [|done]. apply fmap_submseteq_of, sublist_submseteq, sublist_filter.
  - exists layered. split; [done|]. rewrite filter_both in Hs. unfold candidates, candidate.
    apply (singles_perm (filter (fun t => negb (is_expired now (max_age_secs (config q)) t) && in_line starting_seq t = true) (store_values (store q)))); [by rewrite Hp|done].
Qed.

(** The accounts without a limit. *)
Lemma all_accounts_ok T accounts : singles T accounts -> NoDup (sources T) -> all_accounts accounts ≡ₚ T.
Proof.
  intros Hs Hnd. destruct (singles_iterate T accounts Hs Hnd) as (T0 & Hp0 & Ei). unfold all_accounts. rewrite Ei.
  assert (((fun t => (source t, [t])) <$> T0).*1 = sources T0) as -> by (rewrite <- list_fmap_compose; done).
  rewrite (sort_by_perm xdr_compare (sources T0)). rewrite <- Hp0. rewrite <- list_fmap_compose.
  assert (forall t, t ∈ T0 -> accounts !! source t = Some [t]) as Hin by (intros t Ht; apply Hs; exists t; by rewrite <- Hp0).
  clear - Hin. induction T0 as [|t T0 IH]; [done|]. csimpl. rewrite (Hin t) by left. simpl. constructor. apply IH. intros u Hu. apply Hin. by right.
Qed.

(** ** The limit of the Soroban phase *)

Lemma set_val_ok v ty x : vec_ok 7 v -> 0 <= x <= i64_max ->
  exists v', set_val ty x v = Ok v' /\ vec_ok 7 v' /\ forall i, dim v' i = if decide (i = type_index ty) then x else dim v i.
Proof.
  intros [Hv Hd] Hx. assert (type_index ty < 7)%nat as Hty by (destruct ty; simpl; lia). exists (MkResource (<[type_index ty := x]> (values v))).
  assert (forall i, dim (MkResource (<[type_index ty := x]> (values v))) i = if decide (i = type_index ty) then x else dim v i) as Hdim.
  { intros i. unfold dim. simpl. case_decide as E; [subst i; by rewrite list_lookup_insert_eq by lia|by rewrite list_lookup_insert_ne by done]. }
  split; [unfold set_val; rewrite Hv; by destruct (Nat.ltb_spec (type_index ty) 7); [|lia]|]. split; [|done].
  split; [simpl; by rewrite length_insert|]. intros i. rewrite Hdim. case_decide; [done|apply Hd].
Qed.

Lemma clamp_ok bytes r : vec_ok 7 r -> (forall x, bytes = Some x -> 0 <= x <= i64_max) ->
  exists r', clamp_bytes bytes (Some r) = Ok (Some r') /\ vec_ok 7 r' /\ le_dims r' r.
Proof.
  intros Hr Hb. unfold clamp_bytes. destruct bytes as [x|]; [|exists r; split; [done|]; split; [done|intros i; lia]].
  specialize (Hb x eq_refl). pose proof Hr as [Hlen Hd].
  assert (get_val TxByteSize r = Ok (dim r (type_index TxByteSize))) as ->.
  { unfold get_val, dim. destruct (lookup_lt_is_Some_2 (values r) (type_index TxByteSize)) as [y ->]; [simpl; lia|done]. }
  cbn [result_bind]. destruct (set_val_ok r TxByteSize (Z.min x (dim r (type_index TxByteSize)))) as (r' & -> & Hr' & Hd'); [done|specialize (Hd (type_index TxByteSize)); lia|].
  exists r'. split; [done|]. split; [done|]. intros i. rewrite Hd'. case_decide as E; [subst i; lia|lia].
Qed.

(** The limit is that of the ledger or tighter, but for the instructions when the
    builder accounts for these. *)
Lemma soroban_limit_ok q : selection_config_ok (config q) -> (forall r, effective_selection_soroban_resources q = Some r -> vec_ok 7 r) ->
  exists l, selection_soroban_limit q = Ok l /\ (forall r, l = Some r -> vec_ok 7 r) /\
    forall s, effective_selection_soroban_resources q = Some s -> exists r, l = Some r /\ forall i, i <> type_index Instructions -> dim r i <= dim s i.
Proof.
  intros Hcfg Heff. unfold selection_soroban_limit. set (bytes := max_soroban_bytes (config q)).
  assert (forall x, bytes = Some x -> 0 <= x <= i64_max) as Hb.
  { intros x Hx. pose proof (sc_soroban_bytes _ Hcfg x Hx). unfold is_u32, u32_max, i64_max in *. lia. }
  set (start := match effective_selection_soroban_resources q with None => _ | Some _ => _ end).
  assert (exists l0, start = Ok l0 /\ (forall r, l0 = Some r -> vec_ok 7 r) /\ forall s, effective_selection_soroban_resources q = Some s -> l0 = Some s) as (l0 & -> & Hl0 & Hs0).
  { unfold start. destruct (effective_selection_soroban_resources q) as [s|].
    { exists (Some s). split; [done|]. split; [exact Heff|done]. }
    destruct bytes as [x|]; [|by exists None]. eexists. split; [done|]. split; [|done]. intros r [= <-]. specialize (Hb x eq_refl).
    apply vec_of_values; [done|]. intros y Hy. simpl in Hy. unfold i64_max in *. repeat (apply elem_of_cons in Hy as [-> | Hy]; [lia|]). by apply elem_of_nil in Hy. }
  cbn [result_bind]. destruct l0 as [r0|].
  - destruct (clamp_ok bytes r0 (Hl0 r0 eq_refl) Hb) as (r1 & -> & Hr1 & Hle). cbn [result_bind].
    assert (0 <= i64_max <= i64_max) as Hi by (unfold i64_max; lia).
    destruct (set_val_ok r1 Instructions i64_max Hr1 Hi) as (r2 & -> & Hr2 & Hd2). cbn [result_bind].
    exists (Some (if use_parallel q then r2 else r1)). split; [by destruct (use_parallel q)|]. split; [intros r [= <-]; by destruct (use_parallel q)|].
    intros s Hs. apply Hs0 in Hs. injection Hs as <-. eexists. split; [done|]. intros i Hne. specialize (Hle i). destruct (use_parallel q); [|done].
    rewrite Hd2. by rewrite decide_False.
  - exists None. unfold clamp_bytes. cbn [result_bind]. split; [done|]. split; [done|]. intros s Hs. by specialize (Hs0 s Hs).
Qed.

(** What the selection of a queue comes to. *)
Record selection_ok (max_ops : Z) (starting_seq : option (gmap Uint256 Z)) (version now : Z) (q : TransactionQueue) (sel : SelectedTxs)
    (classic others soroban dropped : list QueuedTransaction) : Prop := {
  sl_txs : selected_transactions sel = (hashed_of <$> classic) ++ (hashed_of <$> soroban);
  sl_classic : exists n limit dex, selection_lane_config max_ops q = Ok (DexLimitingLaneConfig_new limit dex) /\ (n = 1 \/ n = 2)%nat /\
    dim limit 0 = Z.min u32_max max_ops /\
    greedy n version (DexLimitingLaneConfig_new limit dex) (filter (fun t => is_classic t = true) (candidates now starting_seq q)) classic others;
  sl_classic_full : classic_limited sel || dex_limited sel = negb (bool_decide (others = []));
  sl_soroban : exists limit, selection_soroban_limit q = Ok limit /\
    match limit with
    | Some limit => vec_ok 7 limit /\
        greedy 7 version (SorobanGenericLaneConfig_new limit) (filter (fun t => is_soroban t = true) (candidates now starting_seq q)) soroban dropped
    | None => soroban ≡ₚ filter (fun t => is_soroban t = true) (candidates now starting_seq q) /\ dropped = []
    end;
  sl_soroban_full : soroban_limited sel = negb (bool_decide (dropped = []))
}.

Lemma flags_two (flags : list bool) (P : Prop) `{!Decision P} : (length flags <= 2)%nat -> ((exists lane, flags !! lane = Some true) <-> P) ->
  default false (flags !! GENERIC_LANE) || default false (flags !! DEX_LANE) = bool_decide P.
Proof.
  intros Hl Hp. apply eq_true_iff_eq. rewrite bool_decide_eq_true, <- Hp. unfold GENERIC_LANE, DEX_LANE.
  destruct flags as [|a [|b [|c flags]]]; simpl in *; try lia.
  - split; [done|]. by intros [lane E].
  - rewrite orb_false_r. split; [intros ->; by exists 0%nat|]. intros [[|[|]] E]; simpl in E; congruence.
  - rewrite orb_true_iff. split; [intros [-> | ->]; [by exists 0%nat|by exists 1%nat]|]. intros [[|[|[|]]] E]; simpl in E; try congruence; [left|right]; congruence.
Qed.

Lemma phase_candidates wanted T : NoDup (sources T) -> NoDup (q_hash <$> T) -> (forall t, t ∈ T -> queued_ok t) -> count_ok (len T) ->
  phase_txs_ok wanted (filter (fun t => wanted t = true) T).
Proof.
  intros Hs Hh Hq Hc. assert (filter (fun t => wanted t = true) T ⊆+ T) as Hsub by apply sublist_submseteq, sublist_filter. split.
  - intros t [Hw Ht]%list_elem_of_filter. split; [by apply Hq|done].
  - apply (NoDup_submseteq_down _ (sources T)); [by apply fmap_submseteq_of|done].
  - apply (NoDup_submseteq_down _ (q_hash <$> T)); [by apply fmap_submseteq_of|done].
  - pose proof (submseteq_len _ _ Hsub). pose proof (len_nonneg (filter (fun t => wanted t = true) T)). unfold count_ok, u32_max in *. nia.
Qed.

Lemma selected_ok max_ops starting_seq version now s q : 0 <= max_ops -> selection_config_ok (config q) ->
  (forall r, effective_selection_soroban_resources q = Some r -> vec_ok 7 r) ->
  txs_ok (by_hash (store q)) -> NoDup (sources (vals (by_hash (store q)))) -> count_ok (Z.of_nat (size (by_hash (store q)))) ->
  exists sel classic others soroban dropped, select_transactions_with_starting_seq max_ops starting_seq version now s q = Ok sel /\
    selection_ok max_ops starting_seq version now q sel classic others soroban dropped.
Proof.
  intros Hm Hcfg Heff Htxs Hsrc Hcount. set (T := candidates now starting_seq q).
  assert (T ⊆+ vals (by_hash (store q))) as Hsub by apply sublist_submseteq, sublist_filter.
  assert (NoDup (sources T)) as HsT by (apply (NoDup_submseteq_down _ (sources (vals (by_hash (store q))))); [by apply fmap_submseteq_of|done]).
  assert (forall wanted, phase_txs_ok wanted (filter (fun t => wanted t = true) T)) as HT.
  { intros wanted. apply phase_candidates; [done| | |].
    - apply (NoDup_submseteq_down _ (q_hash <$> vals (by_hash (store q)))); [by apply fmap_submseteq_of|by apply vals_nodup].
    - intros t Ht. apply (elem_of_submseteq _ _ _ Ht) in Hsub. apply elem_of_vals in Hsub as [h Hh]. by destruct (Htxs h t Hh).
    - pose proof (submseteq_len _ _ Hsub) as Hle. assert (len (vals (by_hash (store q))) = Z.of_nat (size (by_hash (store q)))) as El.
      { unfold len, vals. by rewrite length_fmap, length_map_to_list. }
      pose proof (len_nonneg T). unfold count_ok, u32_max in *. nia. }
  unfold select_transactions_with_starting_seq. destruct (layered_accounts_ok now starting_seq q Hsrc) as (layered & -> & Hl). cbn [result_bind]. fold T in Hl.
  destruct (split_ok T layered Hl HsT) as (ca & sa & -> & Hca & Hsa).
  destruct (select_classic_ok max_ops version s ca q _ Hm Hcfg (HT is_classic) Hca) as (n & limit & dex & st & others & Ec & Hn & Hdim & -> & Hg & Hlen & Hf).
  cbn [result_bind]. destruct (soroban_limit_ok q Hcfg Heff) as (l & El & Hlv & _). rewrite El. cbn [result_bind].
  assert (forall sel soroban dropped lim, match l with Some limit => greedy 7 version (SorobanGenericLaneConfig_new limit) (filter (fun t => is_soroban t = true) T) soroban dropped
      | None => soroban ≡ₚ filter (fun t => is_soroban t = true) T /\ dropped = [] end -> lim = negb (bool_decide (dropped = [])) ->
    sel = MkSelected ((hashed_of <$> sel_txs st) ++ (hashed_of <$> soroban)) lim (default false (had_not_fitting st !! DEX_LANE)) (default false (had_not_fitting st !! GENERIC_LANE)) ->
    selection_ok max_ops starting_seq version now q sel (sel_txs st) others soroban dropped) as Hfin.
  { intros sel soroban dropped lim Hs Hlim ->. split; simpl; try done.
    - by exists n, limit, dex.
    - rewrite (flags_two _ (others <> [])) by done. by destruct others.
    - exists l. split; [done|]. destruct l as [r|]; [|done]. split; [by apply Hlv|done]. }
  destruct l as [r|].
  - destruct (select_soroban_ok version s r sa _ (Hlv r eq_refl) (HT is_soroban) Hsa) as (ss & dropped & -> & Hgs & Hlens & Hfs). cbn [result_bind].
    eexists. exists (sel_txs st), others, (sel_txs ss), dropped. split; [done|]. eapply Hfin; [exact Hgs| |done].
    unfold flagged in Hfs. destruct (had_not_fitting ss) as [|a [|]]; try done. simpl. destruct a, dropped; try done; exfalso.
    + by destruct (proj1 Hfs (ex_intro _ 0%nat eq_refl)).
    + assert (q0 :: dropped <> []) as Hne by done. apply Hfs in Hne as [lane Hl']. by destruct lane as [|lane]; [|destruct lane].
  - cbn [result_bind]. eexists. exists (sel_txs st), others, (all_accounts sa), []. split; [done|]. eapply Hfin; [|done|done]. split; [|done].
    apply all_accounts_ok; [done|apply (HT is_soroban)].
Qed.
End phases.
