(* ===== verification/TxNomination.v ===== *)
(** * TxNomination: the phases of a nominated set

    The base fees of the lanes are what every transaction of the lane bids at least, and
    not below that of the ledger; the components and the stages made of the
    transactions pass the checks of a received set. *)

From S2P Require Import Prelude Bucket Ledger Lists Resource Envelope TxSetBuilder TxSetBuild TxSetCheck TxSetPhase TxSetXdr TxSetTotals TxSetSafety SurgePricing SurgePricingFacts TxQueueStore TxQueue TxQueueHeld TxQueueClose TxSetTrim TxSelection TxSelectionFacts.

Lemma min_of_spec l : match min_of l with Some m => m ∈ l /\ (forall x, x ∈ l -> m <= x) | None => l = [] end.
Proof.
  induction l as [|x l IH]; simpl; [done|]. destruct (min_of l) as [m|].
  - destruct IH as [Hm Hmin]. split.
    + destruct (Z.min_spec x m) as [[_ ->]|[_ ->]]; [left|by right].
    + intros y [-> | Hy]%elem_of_cons; [lia|]. specialize (Hmin y Hy). lia.
  - subst l. split; [left|]. intros y ->%list_elem_of_singleton. lia.
Qed.

Section classic.
Context `{EnvelopeXdr} (base : Z) (Hbase : 0 <= base <= u32_max).

(** ** Bids *)

Notation ops t := (envelope_operation_count (envelope t)).
Notation bid t := (envelope_inclusion_fee (envelope t)).

(** A transaction of the queue that pays the base fee of the ledger. *)
Record paying (t : HashedTx) : Prop := {
  pay_env : env_ok (envelope t);
  pay_base : base * ops t <= bid t;
  pay_hash : hashed_ok t
}.

(** [fee] per operation is what the transaction bids, or less. *)
Definition bids (fee : Z) (t : HashedTx) : Prop := base <= fee /\ fee * ops t <= bid t.

Lemma per_op_ok t : paying t -> exists x, fee_per_op_of t = Some x /\ x <= i64_max /\ forall fee, base <= fee <= x -> bids fee t.
Proof.
  intros [He Hp _]. pose proof (env_fee _ He) as Hf. pose proof (env_inclusion _ He) as Hi. pose proof (env_ops _ He) as Ho.
  exists (bid t / ops t). assert (bid t / ops t <= bid t) as Hle by (apply Z.div_le_upper_bound; nia).
  assert (0 <= bid t / ops t) as Hnn by (apply Z.div_pos; lia).
  split; [|split; [lia|]].
  - unfold fee_per_op_of, envelope_fee_per_op, extract_fees_and_ops.
    destruct (Z.ltb_spec (envelope_fee (envelope t)) 0); [lia|]. destruct (Z.ltb_spec (bid t) 0); [lia|]. simpl.
    rewrite as_u32_id by lia. unfold rate_per_op. simpl. destruct (Z.ltb_spec 0 (ops t)); [|lia].
    rewrite as_u64_small by lia. f_equal. apply as_i64_id. unfold is_i64, i64_min. lia.
  - intros fee [Hb Hx]. split; [done|]. pose proof (Z.mul_div_le (bid t) (ops t)). nia.
Qed.

Lemma per_op_least t x : paying t -> fee_per_op_of t = Some x -> base <= x <= i64_max /\ bids x t.
Proof.
  intros Ht Ex. destruct (per_op_ok t Ht) as (x' & Ex' & Hm & Hb). assert (x' = x) as -> by congruence.
  assert (base <= x) as Hle; [|split; [done|by apply Hb]].
  destruct Ht as [He Hp _]. pose proof (env_fee _ He) as Hf. pose proof (env_inclusion _ He) as Hi. pose proof (env_ops _ He) as Ho.
  unfold fee_per_op_of, envelope_fee_per_op, extract_fees_and_ops in Ex.
  destruct (Z.ltb_spec (envelope_fee (envelope t)) 0); [lia|]. destruct (Z.ltb_spec (bid t) 0); [lia|]. simpl in Ex.
  rewrite as_u32_id in Ex by lia. unfold rate_per_op in Ex. simpl in Ex. destruct (Z.ltb_spec 0 (ops t)); [|lia].
  rewrite as_u64_small in Ex by lia. injection Ex as Ex.
  assert (as_i64 (bid t / ops t) = bid t / ops t) as Eas.
  { apply as_i64_id. assert (bid t / ops t <= bid t) by (apply Z.div_le_upper_bound; nia). assert (0 <= bid t / ops t) by (apply Z.div_pos; lia). unfold is_i64, i64_min. lia. }
  rewrite <- Ex, Eas. apply Z.div_le_lower_bound; lia.
Qed.

(** Who bids the fee of a component is accepted in it. *)
Lemma bids_component fee l : base <= fee -> (forall t, t ∈ l -> paying t /\ bids fee t) -> validate_fee_component (Some fee) (envelope <$> l) base = Valid.
Proof.
  intros Hb Hl. unfold validate_fee_component. destruct (Z.ltb_spec fee base); [lia|].
  assert (existsb (fun tx => envelope_inclusion_fee tx <? get_min_inclusion_fee tx base fee) (envelope <$> l) = false) as ->; [|done].
  rewrite <- not_true_iff_false, existsb_exists. intros (e & He & Hlt). apply list_elem_of_In, list_elem_of_fmap in He as (t & -> & Ht).
  destruct (Hl t Ht) as [[Hok _ _] [_ Hbid]]. pose proof (env_fee _ Hok). pose proof (env_inclusion _ Hok). pose proof (env_ops _ Hok).
  apply Z.ltb_lt in Hlt. unfold get_min_inclusion_fee, i64_saturating_mul, saturating in Hlt. rewrite (Z.max_r base fee), (Z.max_r 1) in Hlt by lia. unfold i64_min, i64_max in *. lia.
Qed.

(** ** The base fees of the lanes *)

Section lanes.
Context (has_dex : bool) (C : list HashedTx) (HC : forall t, t ∈ C -> paying t).

Notation lane_count := (if has_dex then 2%nat else 1%nat).

(** No more than what any transaction of the lane bids, and no less than the base fee. *)
Definition lane_fee_ok (txs : list HashedTx) (lane : nat) (fee : Z) : Prop :=
  base <= fee <= i64_max /\ forall t x, t ∈ txs -> tx_lane has_dex t = lane -> fee_per_op_of t = Some x -> fee <= x.

Lemma tx_lane_range t : (tx_lane has_dex t < lane_count)%nat.
Proof. unfold tx_lane. destruct has_dex, (has_dex_operations_envelope _); simpl; unfold DEX_LANE, GENERIC_LANE; lia. Qed.

Lemma base_range : base <= i64_max.
Proof. unfold u32_max, i64_max in *. lia. Qed.

Lemma notes_ok : exists lowest, try_fold (note_lane_fee has_dex) C (replicate lane_count i64_max, []) = Ok (lowest, tx_lane has_dex <$> C) /\
  length lowest = lane_count /\ forall lane fee, lowest !! lane = Some fee -> lane_fee_ok C lane fee.
Proof.
  destruct (try_fold_invariant (note_lane_fee has_dex) (fun before acc => acc.2 = tx_lane has_dex <$> before /\ length acc.1 = lane_count /\
    forall lane fee, acc.1 !! lane = Some fee -> lane_fee_ok before lane fee) C (replicate lane_count i64_max, [])) as ([lowest lanes] & E & El & Hl & Hok).
  - split; [done|]. split; [simpl; by rewrite length_replicate|]. intros lane fee [-> _]%lookup_replicate. pose proof base_range. split; [lia|].
    intros t x Ht. by apply elem_of_nil in Ht.
  - intros before t after [lowest lanes] Ein (Elanes & Hlen & Hok). simpl in Elanes, Hlen, Hok. unfold note_lane_fee.
    destruct (HC t) as [He Hp Hh]; [rewrite Ein; apply elem_of_app; right; left|].
    destruct (per_op_ok t (Build_paying t He Hp Hh)) as (x & Ex & _). destruct (per_op_least t x (Build_paying t He Hp Hh) Ex) as [Hx _].
    rewrite Ex. cbn [fst snd]. destruct (lookup_lt_is_Some_2 lowest (tx_lane has_dex t)) as [low Elow]; [rewrite Hlen; apply tx_lane_range|].
    rewrite (lookup_at _ _ _ Elow). cbn [result_bind]. eexists. split; [done|]. cbn [fst snd]. split; [by rewrite Elanes, fmap_app|].
    assert (forall lane fee, lane_fee_ok before lane fee -> (tx_lane has_dex t = lane -> fee <= x) -> lane_fee_ok (before ++ [t]) lane fee) as Hadd.
    { intros lane fee [Hr Hmin] Hf. split; [done|]. intros u y [Hu | ->%list_elem_of_singleton]%elem_of_app Hlane Ey; [by apply (Hmin u)|].
      assert (y = x) as -> by congruence. by apply Hf. }
    destruct (Z.ltb_spec x low) as [Hlt|Hge].
    + unfold put_at. split; [by rewrite length_insert|]. intros lane fee Hf. destruct (decide (tx_lane has_dex t = lane)) as [<-|Hne].
      * rewrite list_lookup_insert_eq in Hf by (by apply lookup_lt_Some in Elow). injection Hf as <-. destruct (Hok _ _ Elow) as [_ Hmin].
        apply Hadd; [|lia]. split; [lia|]. intros u y Hu Hlane Ey. specialize (Hmin u y Hu Hlane Ey). lia.
      * rewrite list_lookup_insert_ne in Hf by done. apply Hadd; [by apply Hok|done].
    + split; [done|]. intros lane fee Hf. apply Hadd; [by apply Hok|]. intros <-. assert (low = fee) as -> by congruence. done.
  - simpl in El, Hl, Hok. subst lanes. by exists lowest.
Qed.

(** The least of the fees of the lanes is right for each of them. *)
Lemma min_lane_ok lowest lane : length lowest = lane_count -> (forall lane fee, lowest !! lane = Some fee -> lane_fee_ok C lane fee) ->
  lane_fee_ok C lane (default base (min_of (filter (fun fee => fee <> i64_max) lowest))).
Proof.
  intros Hlen Hok. pose proof base_range as Hbm. pose proof (min_of_spec (filter (fun fee => fee <> i64_max) lowest)) as Hm.
  destruct (min_of (filter (fun fee => fee <> i64_max) lowest)) as [m|]; simpl.
  - destruct Hm as [[Hne Hin]%list_elem_of_filter Hmin]. apply list_elem_of_lookup in Hin as [j Hj]. destruct (Hok j m Hj) as [Hr _]. split; [done|].
    intros t x Ht Hlane Ex. destruct (lookup_lt_is_Some_2 lowest (tx_lane has_dex t)) as [low Elow]; [rewrite Hlen; apply tx_lane_range|].
    destruct (Hok _ _ Elow) as [_ Hx]. specialize (Hx t x Ht eq_refl Ex). destruct (decide (low = i64_max)) as [->|Hlow]; [lia|].
    assert (m <= low); [|lia]. apply Hmin, list_elem_of_filter. split; [done|]. by apply list_elem_of_lookup_2 in Elow.
  - split; [lia|]. intros t x Ht Hlane Ex. by apply (per_op_least t x (HC t Ht) Ex).
Qed.

Lemma lane_fees_ok lowest classic_limited dex_limited : length lowest = lane_count -> (forall lane fee, lowest !! lane = Some fee -> lane_fee_ok C lane fee) ->
  exists fees, lane_base_fees has_dex classic_limited dex_limited base lowest = Ok fees /\ length fees = lane_count /\
    forall lane fee, fees !! lane = Some fee -> lane_fee_ok C lane fee.
Proof.
  intros Hlen Hok. unfold lane_base_fees. set (fees := replicate lane_count _).
  assert (forall lane, lane_fee_ok C lane (if classic_limited then default base (min_of (filter (fun fee => fee <> i64_max) lowest)) else base)) as Hf.
  { intros lane. destruct classic_limited; [by apply min_lane_ok|]. pose proof base_range. split; [lia|]. intros t x Ht _ Ex. by apply (per_op_least t x (HC t Ht) Ex). }
  assert (length fees = lane_count /\ forall lane fee, fees !! lane = Some fee -> lane_fee_ok C lane fee) as [Hfl Hfees].
  { unfold fees. split; [by rewrite length_replicate|]. intros lane fee [-> _]%lookup_replicate. apply Hf. }
  clearbody fees. destruct has_dex eqn:Ed, dex_limited; cbn [andb]; try by exists fees.
  destruct (lookup_lt_is_Some_2 lowest DEX_LANE) as [dex Edex]; [rewrite Hlen; unfold DEX_LANE; lia|]. rewrite (lookup_at _ _ _ Edex). cbn [result_bind].
  destruct (Z.eqb_spec dex i64_max); [by exists fees|]. eexists. split; [done|]. unfold put_at. split; [by rewrite length_insert|].
  intros lane fee Hl. destruct (decide (DEX_LANE = lane)) as [<-|Hne].
  - rewrite list_lookup_insert_eq in Hl by (rewrite Hfl; unfold DEX_LANE; lia). injection Hl as <-. by apply Hok.
  - rewrite list_lookup_insert_ne in Hl by done. by apply Hfees.
Qed.
End lanes.

(** ** The components *)

Section components.
Context (P : Z -> HashedTx -> Prop).

(** Components ascend by fee, none is empty, and hold transactions that may have their fee. *)
Record components_ok (components : list (Z * list HashedTx)) (placed : list HashedTx) : Prop := {
  cm_sorted : StronglySorted (fun a b : Z * list HashedTx => a.1 < b.1) components;
  cm_inhabited : forall c, c ∈ components -> c.2 <> [];
  cm_fees : forall c t, c ∈ components -> t ∈ c.2 -> P c.1 t;
  cm_parts : concat components.*2 ≡ₚ placed
}.

Lemma push_fees fee t components c : c ∈ push_component fee t components -> c.1 = fee \/ c ∈ components.
Proof.
  induction components as [|[f l] rest IH]; simpl; [intros ->%list_elem_of_singleton; by left|].
  destruct (Z.compare_spec fee f) as [->|_|_].
  - intros [-> | Hc]%elem_of_cons; [by left|right; by right].
  - intros [-> | Hc]%elem_of_cons; [by left|by right].
  - intros [-> | Hc]%elem_of_cons; [right; left|]. destruct (IH Hc); [by left|right; by right].
Qed.

Lemma push_ok fee t components placed : components_ok components placed -> P fee t -> components_ok (push_component fee t components) (t :: placed).
Proof.
  intros [Hs Hi Hf Hp] Ht. revert placed Hp. induction components as [|[f l] rest IH]; intros placed Hp.
  { split; simpl; [by repeat constructor|by intros c ->%list_elem_of_singleton|by intros c u ->%list_elem_of_singleton ->%list_elem_of_singleton|].
    by rewrite <- Hp. }
  apply StronglySorted_inv in Hs as [Hs Hall]. pose proof Hall as Hall'. rewrite Forall_forall in Hall. simpl. destruct (Z.compare_spec fee f) as [->|Hlt|Hgt].
  - split.
    + by constructor.
    + intros c [-> | Hc]%elem_of_cons; [simpl; by destruct l|apply Hi; by right].
    + intros c u [-> | Hc]%elem_of_cons Hu; [|by apply (Hf c u); [right|]]. simpl in Hu |- *.
      apply elem_of_app in Hu as [Hu | ->%list_elem_of_singleton]; [|done]. by apply (Hf (f, l)); [left|].
    + csimpl. rewrite <- Hp. csimpl. rewrite <- app_assoc. simpl. by rewrite Permutation_middle.
  - split.
    + constructor; [by constructor|]. apply Forall_cons_2; [done|]. apply Forall_forall. intros c Hc. specialize (Hall c Hc). simpl in *. lia.
    + intros c [-> | Hc]%elem_of_cons; [done|by apply Hi].
    + intros c u [-> | Hc]%elem_of_cons Hu; [by apply list_elem_of_singleton in Hu as ->|by apply (Hf c u)].
    + csimpl. by rewrite <- Hp.
  - destruct (IH Hs (fun c Hc => Hi c ltac:(by right)) (fun c u Hc => Hf c u ltac:(by right)) (concat rest.*2) ltac:(done)) as [Hs' Hi' Hf' Hp']. split.
    + constructor; [done|]. apply Forall_forall. intros c [-> | Hc]%push_fees; [done|]. by apply Hall.
    + intros c [-> | Hc]%elem_of_cons; [apply (Hi (f, l)); left|by apply Hi'].
    + intros c u [-> | Hc]%elem_of_cons Hu; [by apply (Hf (f, l)); [left|]|by apply Hf'].
    + csimpl. rewrite Hp', <- Hp. csimpl. by rewrite Permutation_middle.
Qed.

Lemma placed_ok fees has_dex C : (forall t, t ∈ C -> exists fee, fees !! tx_lane has_dex t = Some fee /\ P fee t) ->
  exists components, try_fold (place_tx fees) (zip C (tx_lane has_dex <$> C)) [] = Ok components /\ components_ok components C.
Proof.
  assert (forall components placed, components_ok components placed -> (forall t, t ∈ C -> exists fee, fees !! tx_lane has_dex t = Some fee /\ P fee t) ->
    exists components', try_fold (place_tx fees) (zip C (tx_lane has_dex <$> C)) components = Ok components' /\ components_ok components' (C ++ placed)) as Hgen.
  { induction C as [|t l IH]; intros components placed Hc HC; [by exists components|]. csimpl.
    destruct (HC t) as (fee & Efee & Ht); [left|]. unfold place_tx at 1. cbn [fst snd]. rewrite (lookup_at _ _ _ Efee). cbn [result_bind].
    destruct (IH (push_component fee t components) (t :: placed)) as (components' & E & Hc'); [by apply push_ok|intros u Hu; apply HC; by right|].
    exists components'. split; [exact E|]. destruct Hc' as [Hs Hi Hf Hp]. split; try done. rewrite Hp. by rewrite Permutation_middle. }
  intros HC. destruct (Hgen [] []) as (components & E & Hc); [split; try done; [constructor|by intros c ?%elem_of_nil|by intros c u ?%elem_of_nil]|done|].
  exists components. split; [done|]. by rewrite app_nil_r in Hc.
Qed.
End components.

(** ** The classic phase passes *)

Lemma sort_hashed_perm l : sort_hashed_txs l ≡ₚ l.
Proof. apply sort_by_perm. Qed.

Definition component (c : Z * list HashedTx) : TxSetComponent := MkComponent (Some c.1) (envelope <$> sort_hashed_txs c.2).

Lemma elem_part (ls : list (list HashedTx)) l : l ∈ ls -> len l <= len (concat ls).
Proof. intros Hl. by apply elem_concat_len. Qed.

Lemma component_of_small components C : concat components.*2 ≡ₚ C -> len C <= u32_max -> component_of <$> components = component <$> components.
Proof.
  intros Hp Hlen. apply list_fmap_ext. intros i c Hc. unfold component_of, component, vecm_or_default. rewrite len_fmap, (len_perm _ _ (sort_hashed_perm c.2)).
  assert (len c.2 <= len C); [|by destruct (Z.leb_spec (len c.2) u32_max); [|lia]].
  rewrite <- (len_perm _ _ Hp). apply elem_part. apply (list_elem_of_fmap_2 snd). by apply list_elem_of_lookup_2 in Hc.
Qed.

Lemma sorted_components components : StronglySorted (fun a b : Z * list HashedTx => a.1 < b.1) components -> components_sorted (component <$> components) = true.
Proof.
  induction 1 as [|a l Hs IH Ha]; [done|]. destruct l as [|b l]; [done|]. simpl in IH |- *. rewrite IH, andb_true_r.
  inversion_clear Ha. by apply Z.ltb_lt.
Qed.

Lemma component_txs components : concat (comp_txs <$> (component <$> components)) ≡ₚ envelope <$> concat components.*2.
Proof.
  induction components as [|c l IH]; [done|]. csimpl. rewrite fmap_app. apply Permutation_app; [|exact IH]. by rewrite sort_hashed_perm.
Qed.

(** What [build_classic_phase] makes passes the checks on structure, order and fees. *)
Record classic_ok (components : list TxSetComponent) (C : list HashedTx) : Prop := {
  ck_structure : validate_sequential_phase_xdr_structure components = Ok tt;
  ck_txs : validate_phase_txs tt (0%nat, PhaseV0 components) = Ok tt;
  ck_fees : check_fee_map (PhaseV0 components) base = Valid;
  ck_parts : concat (comp_txs <$> components) ≡ₚ envelope <$> C
}.

Lemma first_invalid_valid {T} (f : T -> TxSetValidationResult) l : (forall x, x ∈ l -> f x = Valid) -> first_invalid f l = Valid.
Proof. induction l as [|x l IH]; intros Hl; [done|]. simpl. rewrite Hl by left. apply IH. intros y Hy. apply Hl. by right. Qed.

Lemma components_pass components C : components_ok bids components C -> (forall t, t ∈ C -> paying t /\ is_soroban_envelope (envelope t) = false) ->
  classic_ok (component <$> components) C.
Proof.
  intros [Hs Hi Hf Hp] HC.
  assert (forall c t, c ∈ components -> t ∈ sort_hashed_txs c.2 -> t ∈ c.2 /\ paying t /\ is_soroban_envelope (envelope t) = false) as Hin.
  { intros c t Hc Ht. rewrite sort_hashed_perm in Ht. split; [done|]. apply HC. rewrite <- Hp. apply elem_of_concat. exists c.2. split; [by apply (list_elem_of_fmap_2 snd)|done]. }
  assert (forall c, c ∈ components -> exists t, t ∈ c.2) as Hex.
  { intros c Hc. specialize (Hi c Hc). destruct c.2 as [|t l]; [done|]. exists t. left. }
  split.
  - unfold validate_sequential_phase_xdr_structure. rewrite sorted_components by done. cbn [ensure result_bind]. apply try_fold_unit.
    intros x (c & -> & Hc)%list_elem_of_fmap. unfold check_component. destruct (Hex c Hc) as (t & Ht).
    rewrite bool_decide_false; [|intros E%fmap_nil_inv; rewrite <- (sort_hashed_perm c.2), E in Ht; by apply elem_of_nil in Ht]. cbn [negb ensure result_bind].
    unfold check_base_fee. simpl. destruct (Hf c t Hc Ht) as [Hb _]. by destruct (Z.ltb_spec c.1 0); [lia|].
  - unfold validate_phase_txs. simpl. apply try_fold_unit. intros x (d & -> & Hd)%list_elem_of_fmap. apply list_elem_of_fmap in Hd as (c & -> & Hc). simpl.
    unfold validate_wire_txs. rewrite try_fold_unit.
    2:{ intros e (t & -> & Ht)%list_elem_of_fmap. destruct (Hin c t Hc Ht) as (_ & _ & Hcl). unfold validate_wire_tx, validate_tx_fee. by rewrite Hcl. }
    cbn [result_bind]. unfold is_sorted_by_hash. rewrite (sorted_nondecreasing Ok envelope tx_hash); [done| |apply sort_by_key_sorted].
    intros t Ht. destruct (Hin c t Hc Ht) as (_ & [_ _ Hh] & _). unfold hash_of. simpl. by rewrite Hh.
  - unfold check_fee_map. apply first_invalid_valid. intros x (c & -> & Hc)%list_elem_of_fmap. simpl. destruct (Hex c Hc) as (t & Ht).
    apply bids_component; [by destruct (Hf c t Hc Ht)|]. intros u Hu. destruct (Hin c u Hc Hu) as (Huc & Hpay & _). split; [done|]. by apply (Hf c u).
  - rewrite component_txs. by rewrite Hp.
Qed.

Lemma classic_built C classic_limited dex_limited has_dex : (forall t, t ∈ C -> paying t /\ is_soroban_envelope (envelope t) = false) -> len C <= u32_max ->
  exists components, build_classic_phase C classic_limited dex_limited base has_dex = Ok (PhaseV0 components) /\ classic_ok components C.
Proof.
  intros HC Hlen. unfold build_classic_phase. case_bool_decide as E; [subst C; by exists []|].
  assert (forall t, t ∈ C -> paying t) as Hpay by (intros t Ht; by apply HC).
  destruct (notes_ok has_dex C Hpay) as (lowest & -> & Hl & Hlow). cbn [result_bind].
  destruct (lane_fees_ok has_dex C Hpay lowest classic_limited dex_limited Hl Hlow) as (fees & -> & Hfl & Hfees). cbn [result_bind].
  destruct (placed_ok bids fees has_dex C) as (components & -> & Hc).
  { intros t Ht. destruct (lookup_lt_is_Some_2 fees (tx_lane has_dex t)) as [fee Efee]; [rewrite Hfl; apply tx_lane_range|].
    exists fee. split; [done|]. destruct (Hfees _ _ Efee) as [Hr Hmin]. destruct (per_op_ok t (Hpay t Ht)) as (x & Ex & _ & Hb). apply Hb. split; [lia|by apply (Hmin t)]. }
  cbn [result_bind]. rewrite (component_of_small components C (cm_parts _ _ _ Hc) Hlen). unfold vecm_or_default. rewrite len_fmap.
  assert (len components <= len C) as Hle.
  { rewrite <- (len_perm _ _ (cm_parts _ _ _ Hc)). pose proof (inhabited_length components.*2) as Hil. unfold len in *. rewrite length_fmap in Hil.
    apply inj_le, Hil. intros c (d & -> & Hd)%list_elem_of_fmap. by apply (cm_inhabited _ _ _ Hc). }
  destruct (Z.leb_spec (len components) u32_max); [|lia]. eexists. split; [done|]. by apply components_pass.
Qed.

(** The operations of the phase are counted. *)
Lemma classic_counted components max_ops : (forall e, e ∈ concat (comp_txs <$> components) -> is_soroban_envelope e = false /\ 0 <= envelope_operation_count e) ->
  zsum envelope_operation_count (concat (comp_txs <$> components)) <= Z.min u32_max max_ops -> check_valid_classic (PhaseV0 components) max_ops = Valid.
Proof.
  intros Hl Hsum. unfold check_valid_classic. set (l := concat _) in *.
  assert (forall l' n, (forall e, e ∈ l' -> is_soroban_envelope e = false /\ 0 <= envelope_operation_count e) -> 0 <= n -> n + zsum envelope_operation_count l' <= u64_max ->
    try_fold count_ops l' n = Ok (n + zsum envelope_operation_count l')) as Hgen.
  { clear. induction l' as [|e l' IH]; intros n Hl Hn Hb; [simpl; by rewrite Z.add_0_r|]. destruct (Hl e) as [Hs Ho]; [left|]. simpl in Hb |- *.
    assert (0 <= zsum envelope_operation_count l') as Hnn by (apply zsum_nonneg_in; intros e' He'; apply Hl; by right).
    unfold count_ops at 1. rewrite Hs. cbn [result_bind]. assert (as_u64 (n + envelope_operation_count e) = n + envelope_operation_count e) as ->.
    { unfold as_u64. apply Z.mod_small. unfold u64_max in Hb. lia. }
    rewrite IH; [f_equal; lia|intros e' He'; apply Hl; by right|lia|lia]. }
  rewrite (Hgen l 0 Hl) by (unfold u32_max, u64_max in *; lia). destruct (Z.ltb_spec max_ops (0 + zsum envelope_operation_count l)); [lia|done].
Qed.
End classic.

(** ** The totals of the Soroban phase *)

Section totals.
Context `{EnvelopeXdr} (version : Z).

Lemma env_usage env : env_ok env -> is_soroban_envelope env = true -> soroban_usage env.
Proof.
  intros He Hs. split; [done|]. split; [apply (env_size _ He)|]. pose proof (env_resources _ He) as Hr.
  destruct (envelope_soroban_resources env) as [r|]; [|done]. destruct (Hr r eq_refl) as ((Hi & _) & (Hd & _) & (Hw & _)). done.
Qed.

Lemma uses_usage limit env : is_soroban_envelope env = true -> uses 7 version (SorobanGenericLaneConfig_new limit) env = MkResource (usage version env).
Proof. intros Hs. unfold uses. simpl. by rewrite Hs, resources_usage. Qed.

Lemma adds_dims l k : length l = length k -> (forall i, is_i64 (dim (MkResource l) i + dim (MkResource k) i)) -> adds l k.
Proof.
  intros Hl Hd. apply Forall2_same_length_lookup. split; [done|]. intros i x y Hx Hy. specialize (Hd i). unfold dim in Hd. simpl in Hd. by rewrite Hx, Hy in Hd.
Qed.

Lemma usage_dim env i : soroban_usage env -> 0 <= dim (MkResource (usage version env)) i.
Proof.
  intros [Hs Hu]. destruct (usage_facts version env Hs Hu) as [_ Hn]. unfold dim. simpl. destruct (usage version env !! i) as [x|] eqn:E; simpl; [|lia].
  by apply (Forall_lookup_1 _ _ _ _ Hn E).
Qed.

(** The sums of a phase, added up with checks. *)
Lemma totals_sum envs : forall l, (forall e, e ∈ envs -> soroban_usage e) -> length l = 7%nat -> (forall i, 0 <= dim (MkResource l) i) ->
  (forall i, dim (MkResource l) i + zsum (fun e => dim (MkResource (usage version e)) i) envs <= i64_max) ->
  exists total, try_fold (add_resources version) envs (MkResource l) = Ok (MkResource total) /\ length total = 7%nat /\
    forall i, dim (MkResource total) i = dim (MkResource l) i + zsum (fun e => dim (MkResource (usage version e)) i) envs.
Proof.
  induction envs as [|e envs IH]; intros l Hall Hl Hn Hb.
  { exists l. split; [done|]. split; [done|]. intros i. simpl. lia. }
  assert (soroban_usage e) as He by (apply Hall; left). pose proof (usage_facts version e (proj1 He) (proj2 He)) as [Hul _].
  assert (forall i, 0 <= zsum (fun e => dim (MkResource (usage version e)) i) envs) as Hrest.
  { intros i. apply zsum_nonneg_in. intros f Hf. apply usage_dim, Hall. by right. }
  simpl in Hb. destruct (add_resources_spec version l e Hl (proj1 He) (proj2 He)) as [[E _]|(x & _ & Hno)].
  - simpl. rewrite E. cbn [result_bind]. assert (forall i, dim (MkResource (zip_with Z.add l (usage version e))) i = dim (MkResource l) i + dim (MkResource (usage version e)) i) as Hd.
    { intros i. by apply (dim_radd 7 (MkResource l) (MkResource (usage version e))). }
    destruct (IH (zip_with Z.add l (usage version e))) as (total & Et & Hlt & Hdt).
    + intros f Hf. apply Hall. by right.
    + by apply zip_add_length.
    + intros i. rewrite Hd. specialize (Hn i). pose proof (usage_dim e i He). lia.
    + intros i. rewrite Hd. specialize (Hb i). lia.
    + exists total. split; [done|]. split; [done|]. intros i. rewrite Hdt, Hd. lia.
  - destruct Hno. apply adds_dims; [lia|]. intros i. specialize (Hb i). specialize (Hn i). specialize (Hrest i). pose proof (usage_dim e i He).
    unfold is_i64, i64_min. lia.
Qed.

Lemma totals_pass info limit total : selection_limit_of info = Ok limit -> length total = 7%nat ->
  (forall i, i <> type_index Instructions -> dim (MkResource total) i <= dim limit i) -> check_totals info true (MkResource total) = Ok tt.
Proof.
  intros El Hl Hd. injection El as <-. do 7 (destruct total as [|? total]; [done|]). destruct total; [|done].
  pose proof (Hd 0%nat ltac:(done)) as D0. pose proof (Hd 2%nat ltac:(done)) as D2. pose proof (Hd 3%nat ltac:(done)) as D3. pose proof (Hd 4%nat ltac:(done)) as D4.
  pose proof (Hd 5%nat ltac:(done)) as D5. pose proof (Hd 6%nat ltac:(done)) as D6. unfold dim in D0, D2, D3, D4, D5, D6. simpl in D0, D2, D3, D4, D5, D6.
  unfold check_totals, get_val, reject_if, ensure. simpl.
  repeat match goal with |- context [?a <? ?b] => destruct (Z.ltb_spec a b); simpl; try lia end. done.
Qed.

(** What a selection within the limit of the ledger adds up to. *)
Lemma selection_totals info limit ledger soroban T dropped : selection_limit_of info = Ok ledger -> vec_ok 7 limit ->
  (forall i, i <> type_index Instructions -> dim limit i <= dim ledger i) -> greedy 7 version (SorobanGenericLaneConfig_new limit) T soroban dropped ->
  (forall t, t ∈ soroban -> soroban_usage (q_envelope t)) ->
  exists empty total, make_empty_soroban = Ok empty /\ try_fold (add_resources version) (q_envelope <$> soroban) empty = Ok total /\ check_totals info true total = Ok tt.
Proof.
  intros El [_ Hlim] Hle Hg Hs.
  assert (forall i, zsum (fun e => dim (MkResource (usage version e)) i) (q_envelope <$> soroban) <= dim limit i) as Hsum.
  { intros i. pose proof (gr_limits _ _ _ _ _ _ Hg 0%nat limit i eq_refl) as Hgi. unfold counted_in in Hgi. simpl in Hgi. rewrite zsum_fmap.
    rewrite (zsum_ext_in _ (tx_uses 7 version (SorobanGenericLaneConfig_new limit) i)); [done|]. intros t Ht. unfold tx_uses. by rewrite uses_usage by (by apply Hs). }
  assert (forall i, dim (MkResource [0; 0; 0; 0; 0; 0; 0]) i = 0) as Hz by (intros i; do 7 (destruct i as [|i]; [done|]); done).
  destruct (totals_sum (q_envelope <$> soroban) [0; 0; 0; 0; 0; 0; 0]) as (total & Et & Hlt & Hd).
  - intros e (t & -> & Ht)%list_elem_of_fmap. by apply Hs.
  - done.
  - intros i. by rewrite Hz.
  - intros i. rewrite Hz. specialize (Hsum i). specialize (Hlim i). lia.
  - exists (MkResource [0; 0; 0; 0; 0; 0; 0]), (MkResource total). split; [done|]. split; [done|].
    apply (totals_pass info ledger); [done|done|]. intros i Hi. rewrite Hd, Hz. specialize (Hsum i). specialize (Hle i Hi). lia.
Qed.
End totals.

(** ** The Soroban phase passes *)

Section soroban.
Context `{EnvelopeXdr} `{HashIteration} (base : Z) (Hbase : 0 <= base <= u32_max).

Lemma soroban_fee_ok ss limited dropped : (forall t, t ∈ concat (concat ss) -> paying base t) ->
  fee_ok (compute_soroban_base_fee ss limited dropped base) /\
  validate_fee_component (compute_soroban_base_fee ss limited dropped base) (envelope <$> concat (concat ss)) base = Valid.
Proof.
  intros Hpay. unfold compute_soroban_base_fee. case_bool_decide; [done|]. destruct (limited || dropped).
  - pose proof (min_of_spec (omap fee_per_op_of (concat (concat ss)))) as Hm.
    assert (forall fee, base <= fee -> (forall x, x ∈ omap fee_per_op_of (concat (concat ss)) -> fee <= x) -> fee_ok (Some fee) /\
      validate_fee_component (Some fee) (envelope <$> concat (concat ss)) base = Valid) as Hgen.
    { intros fee Hb Hx. split; [simpl; lia|]. apply bids_component; [done|]. intros t Ht. split; [by apply Hpay|].
      destruct (per_op_ok base t (Hpay t Ht)) as (x & Ex & _ & Hbids). apply Hbids. split; [done|]. apply Hx, list_elem_of_omap. by exists t. }
    destruct (min_of (omap fee_per_op_of (concat (concat ss)))) as [m|]; simpl.
    + destruct Hm as [Hin Hmin]. apply Hgen; [|done]. apply list_elem_of_omap in Hin as (t & Ht & Ex). by apply (per_op_least base Hbase t m (Hpay t Ht) Ex).
    + rewrite Hm in Hgen. apply Hgen; [lia|]. by intros x ?%elem_of_nil.
  - split; [simpl; lia|]. apply bids_component; [lia|]. intros t Ht. split; [by apply Hpay|]. split; [lia|]. apply (Hpay t Ht).
Qed.

Lemma env_tx_ok t : env_ok (envelope t) -> tx_ok t.
Proof.
  intros He. split; [|apply (env_inclusion _ He)]. unfold envelope_instructions. pose proof (env_resources _ He) as Hr. unfold envelope_soroban_resources in Hr.
  destruct (envelope_soroban_data (envelope t)) as [d|]; [by apply (Hr (resources d))|]. unfold is_u32, u32_max. lia.
Qed.

(** The phase is the canonical form of a schedule within the limits. *)
Lemma soroban_built T limited q info : (forall t, t ∈ T -> paying base t /\ is_soroban_envelope (envelope t) = true) -> len T <= u32_max ->
  TxSelection.use_parallel q = true -> effective_ledger_max_instructions q = TxSetCheck.ledger_max_instructions info ->
  effective_ledger_max_dependent_tx_clusters q = TxSetCheck.ledger_max_dependent_tx_clusters info -> TxSetCheck.ledger_max_instructions info <= i64_max ->
  TxSetCheck.ledger_max_instructions info * TxSetCheck.ledger_max_dependent_tx_clusters info <= u64_max ->
  0 <= soroban_phase_min_stage_count (config q) <= soroban_phase_max_stage_count (config q) ->
  exists stages fee answer, build_soroban_phase_with_base_fee T limited base q = Ok (PhaseV1 (MkParallel fee (envelopes (sorted_stages stages))), answer) /\
    schedule_ok (TxSetCheck.ledger_max_instructions info) (TxSetCheck.ledger_max_dependent_tx_clusters info) stages /\ concat (concat stages) ⊆+ T /\ fee_ok fee /\
    validate_fee_component fee (envelope <$> concat (concat stages)) base = Valid.
Proof.
  intros HT Hlen Hpar Ei Ec Hi Hmul Hst. unfold build_soroban_phase_with_base_fee. case_bool_decide as E.
  { subst T. exists [], None, None. split; [done|]. split; [|done]. split; try (intros ? Hs; by apply elem_of_nil in Hs).
    - intros ? ? Hs. by apply elem_of_nil in Hs.
    - unfold TxSelection.use_parallel in Hpar. rewrite !andb_true_iff, !Z.ltb_lt, Ei in Hpar. exists 0. split; [done|]. split; [unfold len; simpl; lia|].
      intros ? ? Hs. by apply elem_of_nil in Hs. }
  rewrite Hpar, Ei, Ec. unfold TxSelection.use_parallel in Hpar. rewrite !andb_true_iff, !Z.ltb_lt, Ei, Ec in Hpar. destruct Hpar as [[Hi0 Hc0] _].
  destruct (built_schedule T info (soroban_phase_min_stage_count (config q)) (soroban_phase_max_stage_count (config q))) as (stages & dropped & -> & Hs & Hsub & _); try done.
  - apply Forall_forall. intros t Ht. by apply env_tx_ok; apply HT.
  - lia.
  - cbn [result_bind]. destruct (soroban_fee_ok stages limited dropped) as [Hfee Hval].
    { intros t Ht. apply HT. by apply (elem_of_submseteq _ _ _ Ht). }
    destruct (phase_of_schedule stages (compute_soroban_base_fee stages limited dropped base)) as (fee & Efee & ->).
    { by apply (schedule_inhabited _ _ _ Hs). } { pose proof (submseteq_len _ _ Hsub). lia. }
    cbn [result_bind]. exists stages, fee. eexists. split; [done|]. split; [done|]. split; [done|].
    by destruct Efee as [-> | ->].
Qed.
End soroban.
