(* ===== verification/TxNominationSafety.v ===== *)
(** * TxNominationSafety: properties of what a node nominates

    The trimming of invalid transactions is exact and does not depend on the number of
    threads; the selection is greedy within the limits; and the set that is built from
    the queue passes the checks every node makes of a received set. *)

From S2P Require Import Prelude Bucket Ledger Lists Resource Envelope TxSetBuilder TxSetBuild TxSetCheck TxSetPhase TxSetXdr TxSetTotals TxSetSafety SurgePricing SurgePricingFacts SurgePricingPop TxQueueStore TxQueue TxQueueHeld TxQueueStoreFacts TxQueueAccounts TxQueuePasses TxQueueAdd TxQueueClose TxQueueRun TxQueueLedger TxQueueSafety TxSetTrim TxSelection TxSelectionFacts TxNomination.

(** ** Paying for what stays *)

Section paying.
Context `{EnvelopeXdr}.

Lemma owes_sub k l l' : l ⊆+ l' -> costs_ok l' -> owes k l <= owes k l'.
Proof.
  intros Hs Hc. destruct (submseteq_Permutation _ _ Hs) as (rest & Hp). unfold owes at 2. rewrite Hp. fold (owes k (l ++ rest)). rewrite owes_app.
  assert (0 <= owes k rest); [|lia]. apply owes_nonneg. intros t Ht. apply Hc. rewrite Hp. apply elem_of_app. by right.
Qed.

Lemma payable_bound p owing l t : l ⊆+ owing -> costs_ok owing -> payable (Some p) owing t = true ->
  available_balance p (fee_source_key (envelope t)) < i64_max -> owes (fee_source_key (envelope t)) l <= available_balance p (fee_source_key (envelope t)).
Proof. intros Hs Hc Hp Hb. unfold payable in Hp. apply Z.leb_le in Hp. pose proof (owes_sub (fee_source_key (envelope t)) l owing Hs Hc). unfold i64_max in *. lia. Qed.

Lemma payer_or_none k l : (exists t, t ∈ l /\ fee_source_key (envelope t) = k) \/ owes k l = 0.
Proof.
  induction l as [|t l IH]; [by right|]. unfold owes. simpl. case_bool_decide as E; [left; exists t; by split; [left|]|].
  destruct IH as [(u & Hu & Eu)|Hz]; [left; exists u; by split; [right|]|right]. unfold owes in Hz. lia.
Qed.

Lemma filter_and_sub (P Q : HashedTx -> bool) l : filter (fun t => P t && Q t = true) l ⊆+ filter (fun t => P t = true) l.
Proof.
  induction l as [|t l IH]; [done|]. rewrite (filter_cons (fun t => P t && Q t = true)), (filter_cons (fun t => P t = true)). destruct (P t), (Q t); simpl; try done.
  - by apply submseteq_skip.
  - by apply submseteq_cons.
Qed.
End paying.

Section helpers.
Context `{EnvelopeXdr} `{HashIteration}.
Implicit Types q : TransactionQueue.
Implicit Types t : QueuedTransaction.

Notation source tx := (account_key (q_envelope tx)).
Notation queued q := (vals (by_hash (store q))).

Notation sources T := ((fun t : QueuedTransaction => account_key (q_envelope t)) <$> T).

Lemma queued_sources q : txqueue_ok q -> NoDup (sources (queued q)).
Proof.
  intros Hok. apply NoDup_fmap_2_strong; [|apply (NoDup_fmap_1 q_hash), vals_nodup, tq_txs, Hok].
  intros t u Ht Hu E. apply Some_inj. pose proof (tq_accounts q Hok (source t)) as Ha.
  rewrite <- (proj2 (acc_pending _ _ _ Ha t)) by done. by apply (acc_pending _ _ _ Ha).
Qed.

Lemma selection_of q max_ops starting_seq version now seed : txqueue_ok q -> 0 <= max_ops -> selection_config_ok (config q) ->
  (forall r, effective_selection_soroban_resources q = Some r -> vec_ok 7 r) ->
  exists sel classic others soroban dropped, select_transactions_with_starting_seq max_ops starting_seq version now seed q = Ok sel /\
    selection_ok max_ops starting_seq version now q sel classic others soroban dropped.
Proof.
  intros Hok Hm Hcfg Hr. apply selected_ok; [done|done|done|by apply tq_txs|by apply queued_sources|apply count_queued, Hok].
Qed.

(** ** What was selected *)

Section selected.
Context (q : TransactionQueue) (Hok : txqueue_ok q) (max_ops : Z) (starting_seq : option (gmap Uint256 Z)) (version now : Z).
Context (sel : SelectedTxs) (classic others soroban dropped : list QueuedTransaction).
Context (Hsel : selection_ok max_ops starting_seq version now q sel classic others soroban dropped).

Lemma selected_parts : classic ⊆+ filter (fun t => is_classic t = true) (candidates now starting_seq q) /\
  soroban ⊆+ filter (fun t => is_soroban t = true) (candidates now starting_seq q).
Proof.
  split.
  - destruct (sl_classic _ _ _ _ _ _ _ _ _ _ Hsel) as (n & limit & dex & _ & _ & _ & Hg). rewrite (gr_parts _ _ _ _ _ _ Hg). by apply submseteq_inserts_r.
  - destruct (sl_soroban _ _ _ _ _ _ _ _ _ _ Hsel) as ([limit|] & _ & Hs).
    + destruct Hs as [_ Hg]. rewrite (gr_parts _ _ _ _ _ _ Hg). by apply submseteq_inserts_r.
    + destruct Hs as [-> _]. done.
Qed.

Lemma selected_classic t : t ∈ classic -> t ∈ queued q /\ queued_ok t /\ is_soroban_envelope (q_envelope t) = false.
Proof.
  intros Ht. pose proof (elem_of_submseteq _ _ _ Ht (proj1 selected_parts)) as Hin. apply list_elem_of_filter in Hin as [Hc [_ Hin]%list_elem_of_filter].
  split; [done|]. split; [|by apply negb_true_iff in Hc]. apply elem_of_vals in Hin as [h Hh]. by destruct (tq_txs q Hok h t Hh).
Qed.
Lemma selected_soroban t : t ∈ soroban -> t ∈ queued q /\ queued_ok t /\ is_soroban_envelope (q_envelope t) = true.
Proof.
  intros Ht. pose proof (elem_of_submseteq _ _ _ Ht (proj2 selected_parts)) as Hin. apply list_elem_of_filter in Hin as [Hc [_ Hin]%list_elem_of_filter].
  split; [done|]. split; [|done]. apply elem_of_vals in Hin as [h Hh]. by destruct (tq_txs q Hok h t Hh).
Qed.

(** The two phases together are transactions of the queue, each once. *)
Lemma selected_queued : classic ++ soroban ⊆+ queued q.
Proof.
  destruct selected_parts as [Hc Hs]. transitivity (candidates now starting_seq q); [|apply sublist_submseteq, sublist_filter].
  transitivity (filter (fun t => is_classic t = true) (candidates now starting_seq q) ++ filter (fun t => is_soroban t = true) (candidates now starting_seq q)); [by apply submseteq_app|].
  clear. induction (candidates now starting_seq q) as [|t l IH]; [done|]. rewrite !filter_cons.
  assert (is_classic t = negb (is_soroban t)) as Et by done. destruct (is_soroban t).
  - rewrite decide_False by by rewrite Et. rewrite decide_True by done. rewrite <- Permutation_middle. by apply submseteq_skip.
  - rewrite decide_True by by rewrite Et. rewrite decide_False by done. by apply submseteq_skip.
Qed.

Lemma selected_phases :
  filter (fun htx => is_soroban_envelope (envelope htx) = false) (selected_transactions sel) = hashed_of <$> classic /\
  filter (fun htx => is_soroban_envelope (envelope htx) = true) (selected_transactions sel) = hashed_of <$> soroban.
Proof.
  rewrite (sl_txs _ _ _ _ _ _ _ _ _ _ Hsel), !filter_app. split.
  - rewrite (filter_all _ (hashed_of <$> classic)), (filter_none _ (hashed_of <$> soroban)); [by rewrite app_nil_r| |].
    + intros h (t & -> & Ht)%list_elem_of_fmap E. apply selected_soroban in Ht as (_ & _ & Hs). simpl in E. congruence.
    + intros h (t & -> & Ht)%list_elem_of_fmap. by apply selected_classic.
  - rewrite (filter_none _ (hashed_of <$> classic)), (filter_all _ (hashed_of <$> soroban)); [done| |].
    + intros h (t & -> & Ht)%list_elem_of_fmap. by apply selected_soroban.
    + intros h (t & -> & Ht)%list_elem_of_fmap E. apply selected_classic in Ht as (_ & _ & Hs). simpl in E. congruence.
Qed.

Lemma hashed_queued t : queued_ok t -> hashed_ok (hashed_of t) /\ env_ok (envelope (hashed_of t)).
Proof. intros Hq. destruct (queued_fields t Hq) as (Hh & _). split; [done|apply Hq]. Qed.

Lemma selected_hashes : NoDup (tx_hash <$> (hashed_of <$> classic ++ soroban)).
Proof.
  rewrite <- list_fmap_compose. apply (NoDup_submseteq_down _ (q_hash <$> queued q)); [|apply vals_nodup, tq_txs, Hok].
  apply (fmap_submseteq_of q_hash), selected_queued.
Qed.

Lemma selected_sources : NoDup (source_account_ed25519 <$> (envelope <$> (hashed_of <$> classic ++ soroban))).
Proof.
  rewrite <- !list_fmap_compose. apply (NoDup_submseteq_down _ (sources (queued q))); [|by apply queued_sources].
  apply (fmap_submseteq_of (fun t => source t)), selected_queued.
Qed.

Lemma selected_count : len (hashed_of <$> classic ++ soroban) <= u32_max.
Proof.
  rewrite len_fmap. pose proof (submseteq_len _ _ selected_queued) as Hl. pose proof (tq_size q Hok) as Hs.
  assert (len (queued q) = Z.of_nat (size (by_hash (store q)))) as E by (unfold len, vals; by rewrite length_fmap, length_map_to_list).
  unfold MAX_QUEUED, u32_max in *. lia.
Qed.

(** The operations of what was selected fit in the set. *)
Lemma selected_ops : zsum envelope_operation_count (q_envelope <$> classic) <= Z.min u32_max max_ops.
Proof.
  destruct (sl_classic _ _ _ _ _ _ _ _ _ _ Hsel) as (n & limit & dex & _ & Hn & Hdim & Hg). rewrite <- Hdim.
  pose proof (gr_limits _ _ _ _ _ _ Hg 0%nat limit 0%nat eq_refl) as Hs. unfold counted_in in Hs. simpl in Hs. rewrite zsum_fmap.
  rewrite (zsum_ext_in _ (tx_uses n version (DexLimitingLaneConfig_new limit dex) 0)); [done|]. intros t Ht. apply selected_classic in Ht as (_ & _ & Hc).
  unfold tx_uses, uses. simpl. rewrite Hc. simpl. unfold resources_from_envelope. rewrite Hc. by destruct (_ =? _)%nat.
Qed.
End selected.

(** ** Following the ledger *)

(** The limits in force are those of the Soroban configuration of the ledger. *)
Record follows (info : SorobanNetworkInfo) q : Prop := {
  fl_limit : selection_limit_of info = ok_or Panicking (effective_selection_soroban_resources q);
  fl_instructions : effective_ledger_max_instructions q = TxSetCheck.ledger_max_instructions info;
  fl_clusters : effective_ledger_max_dependent_tx_clusters q = TxSetCheck.ledger_max_dependent_tx_clusters info
}.

Lemma limit_vec info limit : info_ok info -> selection_limit_of info = Ok limit -> vec_ok 7 limit.
Proof.
  intros (Hi & Hc & Hz & Hr & Hw & Hre & Hwe) E. change (i64_max / 2) with 4611686018427387903 in Hi. injection E as <-. apply vec_of_values; [done|].
  intros x Hx. unfold is_u32, u32_max, i64_max in *. repeat (apply elem_of_cons in Hx as [-> | Hx]; [lia|]). by apply elem_of_nil in Hx.
Qed.

Lemma follows_limit info q : follows info q -> exists limit, selection_limit_of info = Ok limit /\ effective_selection_soroban_resources q = Some limit.
Proof. intros [Hl _ _]. destruct (effective_selection_soroban_resources q) as [limit|]; [by exists limit|done]. Qed.

(** What the checks of single transactions make sure of. *)
Definition checks_fees (base : Z) (passes : HashedTx -> bool) : Prop :=
  forall h, passes h = true -> base * envelope_operation_count (envelope h) <= envelope_inclusion_fee (envelope h) /\ validate_tx_fee (envelope h) = Ok tt.

Section nominated.
Context (q : TransactionQueue) (Hok : txqueue_ok q) (max_ops base : Z) (starting_seq : option (gmap Uint256 Z)) (version now : Z).
Context (sel : SelectedTxs) (classic others soroban dropped : list QueuedTransaction).
Context (Hsel : selection_ok max_ops starting_seq version now q sel classic others soroban dropped).
Context (passes : HashedTx -> bool) (Hpasses : checks_fees base passes) (provider : option FeeBalanceProvider).

Notation C := (stay_classic passes provider (hashed_of <$> classic)).
Notation S := (stay_soroban passes provider version (hashed_of <$> classic) (hashed_of <$> soroban)).

Lemma stay_parts : C ⊆+ hashed_of <$> classic /\ S ⊆+ hashed_of <$> soroban.
Proof. split; apply sublist_submseteq, sublist_filter. Qed.

Lemma stay_passes h : h ∈ C \/ h ∈ S -> passes h = true.
Proof. intros [Hh|Hh]; apply list_elem_of_filter in Hh as [Hp _]; by apply andb_true_iff in Hp as [Hp _]. Qed.

Lemma paying_of t : queued_ok t -> passes (hashed_of t) = true -> paying base (hashed_of t).
Proof. intros Hq Hp. destruct (hashed_queued t Hq) as [Hh He]. destruct (Hpasses _ Hp) as [Hb _]. by split. Qed.

Lemma stay_classic_paying h : h ∈ C -> paying base h /\ is_soroban_envelope (envelope h) = false.
Proof.
  intros Hh. pose proof (stay_passes h (or_introl Hh)) as Hp. pose proof (elem_of_submseteq _ _ _ Hh (proj1 stay_parts)) as Hin.
  apply list_elem_of_fmap in Hin as (t & -> & Ht). destruct (selected_classic q Hok _ _ _ _ _ _ _ _ _ Hsel t Ht) as (_ & Hq & Hc). split; [by apply paying_of|done].
Qed.
Lemma stay_soroban_paying h : h ∈ S -> paying base h /\ is_soroban_envelope (envelope h) = true.
Proof.
  intros Hh. pose proof (stay_passes h (or_intror Hh)) as Hp. pose proof (elem_of_submseteq _ _ _ Hh (proj2 stay_parts)) as Hin.
  apply list_elem_of_fmap in Hin as (t & -> & Ht). destruct (selected_soroban q Hok _ _ _ _ _ _ _ _ _ Hsel t Ht) as (_ & Hq & Hc). split; [by apply paying_of|done].
Qed.

Lemma selected_costs : costs_ok (hashed_of <$> classic) /\ costs_ok (hashed_of <$> soroban).
Proof.
  split; intros h (t & -> & Ht)%list_elem_of_fmap.
  - destruct (selected_classic q Hok _ _ _ _ _ _ _ _ _ Hsel t Ht) as (_ & Hq & _). apply (env_fee _ (proj2 (hashed_queued t Hq))).
  - destruct (selected_soroban q Hok _ _ _ _ _ _ _ _ _ Hsel t Ht) as (_ & Hq & _). apply (env_fee _ (proj2 (hashed_queued t Hq))).
Qed.

Lemma trimmed has_accounts cores : trim_invalid_two_phase_hashed passes has_accounts cores provider version (hashed_of <$> classic) (hashed_of <$> soroban) = (C, S).
Proof.
  destruct selected_costs as [Hcc Hcs]. pose proof (selected_hashes q Hok _ _ _ _ _ _ _ _ _ Hsel) as Hnd. rewrite fmap_app, fmap_app in Hnd.
  apply NoDup_app in Hnd as (Hnc & _ & Hns). by apply two_phase_ok.
Qed.

(** What is left of the sources, the numbers and the operations. *)
Lemma stay_sources stages : concat (concat stages) ⊆+ S -> NoDup (source_account_ed25519 <$> (envelope <$> C) ++ (envelope <$> concat (concat stages))).
Proof.
  intros Hst. pose proof (selected_sources q Hok _ _ _ _ _ _ _ _ _ Hsel) as Hnd. rewrite <- fmap_app in *.
  refine (NoDup_submseteq_down _ _ _ Hnd). apply fmap_submseteq_of, fmap_submseteq_of. rewrite fmap_app. destruct stay_parts as [Hc Hs].
  apply submseteq_app; [done|]. by etrans.
Qed.

Lemma stay_count : len C <= u32_max /\ len S <= u32_max.
Proof.
  pose proof (selected_count q Hok _ _ _ _ _ _ _ _ _ Hsel) as Hl. rewrite fmap_app, len_app in Hl. destruct stay_parts as [Hc Hs].
  pose proof (submseteq_len _ _ Hc). pose proof (submseteq_len _ _ Hs). pose proof (len_nonneg (hashed_of <$> classic)). pose proof (len_nonneg (hashed_of <$> soroban)). lia.
Qed.

Lemma stay_ops : 0 <= max_ops -> zsum envelope_operation_count (envelope <$> C) <= Z.min u32_max max_ops.
Proof.
  intros Hm. pose proof (selected_ops q Hok _ _ _ _ _ _ _ _ _ Hsel) as Hops. transitivity (zsum envelope_operation_count (q_envelope <$> classic)); [|done].
  assert (q_envelope <$> classic = envelope <$> (hashed_of <$> classic)) as -> by by rewrite <- list_fmap_compose.
  destruct stay_parts as [Hc _]. revert Hc. generalize C. intros c (rest & Hr)%submseteq_Permutation. rewrite Hr, fmap_app, zsum_app.
  assert (0 <= zsum envelope_operation_count (envelope <$> rest)); [|lia]. apply zsum_nonneg. intros e. apply operation_count_nonneg.
Qed.

(** Both phases as they are built. *)
Lemma classic_phase_accepted lane_limited dex has_dex : 0 <= base <= u32_max -> 0 <= max_ops ->
  exists components, build_classic_phase C lane_limited dex base has_dex = Ok (PhaseV0 components) /\ classic_ok base components C /\
    check_valid_classic (PhaseV0 components) max_ops = Valid.
Proof.
  intros Hb Hm. destruct (classic_built base Hb C lane_limited dex has_dex stay_classic_paying (proj1 stay_count)) as (components & E & Hck).
  exists components. split; [done|]. split; [done|]. apply classic_counted.
  - intros e He. rewrite (ck_parts _ _ _ Hck) in He. apply list_elem_of_fmap in He as (h & -> & Hh). split; [by apply stay_classic_paying|apply operation_count_nonneg].
  - rewrite (ck_parts _ _ _ Hck). by apply stay_ops.
Qed.

Lemma soroban_phase_accepted info limited : 0 <= base <= u32_max -> follows info q -> info_ok info -> selection_config_ok (config q) -> TxSelection.use_parallel q = true ->
  0 <= soroban_phase_min_stage_count (config q) <= soroban_phase_max_stage_count (config q) -> TxSetCheck.ledger_max_dependent_tx_clusters info <= u32_max ->
  TxSetCheck.ledger_max_instructions info * TxSetCheck.ledger_max_dependent_tx_clusters info <= u64_max -> protocol_version_starts_from version V23 = true ->
  exists stages fee answer, build_soroban_phase_with_base_fee (sort_hashed_txs S) limited base q = Ok (PhaseV1 (MkParallel fee (envelopes (sorted_stages stages))), answer) /\
    inhabited stages /\ concat (concat stages) ⊆+ S /\ fee_ok fee /\ validate_fee_component fee (envelope <$> concat (concat stages)) base = Valid /\
    check_valid_soroban (PhaseV1 (MkParallel fee (envelopes (sorted_stages stages)))) version info = Ok Valid.
Proof.
  intros Hb Hf Hi Hcfg Hpar Hst Hcl Hmul Hv. destruct Hi as (Himax & Hi). change (i64_max / 2) with 4611686018427387903 in Himax.
  assert (TxSetCheck.ledger_max_instructions info <= i64_max) as Himax' by (unfold i64_max; lia).
  destruct (soroban_built base Hb (sort_hashed_txs S) limited q info) as (stages & fee & answer & E & Hs & Hsub & Hfee & Hval); try done; [| |apply Hf|apply Hf|].
  - intros h. rewrite sort_hashed_perm. apply stay_soroban_paying.
  - rewrite (len_perm _ _ (sort_hashed_perm S)). apply stay_count.
  - rewrite sort_hashed_perm in Hsub. exists stages, fee, answer. split; [done|]. split; [by apply (schedule_inhabited _ _ _ Hs)|]. split; [done|]. split; [done|]. split; [done|].
    destruct (follows_limit info q Hf) as (ledger & El & Eq). 
    destruct (soroban_limit_ok q Hcfg) as (l & Esel & Hlv & Hle). { intros r Hr. assert (r = ledger) as -> by congruence. apply (limit_vec info); [|done]. split; [exact Himax|exact Hi]. }
    destruct (Hle ledger Eq) as (limit & -> & Hdims). destruct (sl_soroban _ _ _ _ _ _ _ _ _ _ Hsel) as (l' & Esel' & Hg). assert (l' = Some limit) as -> by congruence.
    destruct Hg as [Hlimit Hg].
    destruct (selection_totals version info limit ledger soroban _ dropped El Hlimit Hdims Hg) as (empty & total & Eempty & Etot & Hcheck).
    { intros t Ht. destruct (selected_soroban q Hok _ _ _ _ _ _ _ _ _ Hsel t Ht) as (_ & Hq & Hc). by apply env_usage; [apply Hq|]. }
    apply (soroban_valid stages fee version info empty total (hashed_of <$> soroban)); try done.
    + by etrans; [|apply stay_parts].
    + intros h (t & -> & Ht)%list_elem_of_fmap. destruct (selected_soroban q Hok _ _ _ _ _ _ _ _ _ Hsel t Ht) as (_ & Hq & Hc). by apply env_usage; [apply Hq|].
    + apply Forall_forall. intros h (t & -> & Ht)%list_elem_of_fmap. destruct (selected_soroban q Hok _ _ _ _ _ _ _ _ _ Hsel t Ht) as (_ & Hq & _). apply env_tx_ok, Hq.
    + by rewrite <- list_fmap_compose.
Qed.
End nominated.
End helpers.

Section properties.
Context `{EnvelopeXdr} `{HashIteration}.

Notation source tx := (account_key (q_envelope tx)).
Notation queued q := (vals (by_hash (store q))).

(** C8: The validation of transactions on several threads has the result of the
    validation one by one: the same transactions are invalid, in the same order, and the
    same fees are summed up, whatever the number of cores and the size of the chunks. *)
Theorem parallel_validation_serial passes has_accounts cores provider txs fees :
  get_invalid_hashed_core passes has_accounts cores provider txs fees = get_invalid_hashed_core_serial passes provider txs fees.
Proof. apply core_serial. Qed.

(** C7: The trimming of the two phases keeps exactly the transactions that pass their
    checks and whose fee source can pay for all that passed, in both phases from
    protocol 26 on; so no fee source owes more than it has for what stays. *)
Theorem trim_leaves_payable passes has_accounts cores provider version classic soroban
    (Hcc : costs_ok classic) (Hcs : costs_ok soroban) (Hnc : NoDup (tx_hash <$> classic)) (Hns : NoDup (tx_hash <$> soroban)) :
  let C := stay_classic passes provider classic in
  let S := stay_soroban passes provider version classic soroban in
  trim_invalid_two_phase_hashed passes has_accounts cores provider version classic soroban = (C, S) /\
  forall p k, provider = Some p -> available_balance p k < i64_max ->
    owes k C <= Z.max 0 (available_balance p k) /\ owes k ((if V26 <=? version then C else []) ++ S) <= Z.max 0 (available_balance p k).
Proof.
  intros C S. split; [by apply two_phase_ok|]. intros p k -> Hb. set (P := fun t => passes t = true).
  assert (costs_ok (filter P classic) /\ costs_ok (filter P soroban)) as [Hpc Hps].
  { split; intros t [_ Ht]%list_elem_of_filter; [by apply Hcc|by apply Hcs]. }
  assert (C ⊆+ filter P classic /\ S ⊆+ filter P soroban) as [HC HS] by (split; apply filter_and_sub).
  assert (owes k C <= Z.max 0 (available_balance p k)) as Hone.
  { destruct (payer_or_none k C) as [(t & Ht & <-)|Hz]; [|lia]. apply list_elem_of_filter in Ht as [[_ Hp]%andb_true_iff _].
    pose proof (payable_bound p (filter P classic) C t HC Hpc Hp Hb). lia. }
  split; [done|]. destruct (payer_or_none k S) as [(t & Ht & <-)|Hz]; [|rewrite owes_app; destruct (V26 <=? version); [lia|]; rewrite Hz; unfold owes; simpl; lia].
  apply list_elem_of_filter in Ht as [[_ Hp]%andb_true_iff _].
  assert (owes (fee_source_key (envelope t)) ((if V26 <=? version then C else []) ++ S) <= available_balance p (fee_source_key (envelope t))); [|lia].
  apply (payable_bound p (filter P ((if V26 <=? version then classic else []) ++ soroban))); [| |exact Hp|done].
  - rewrite filter_app. destruct (V26 <=? version); by apply submseteq_app.
  - rewrite filter_app. intros u [Hu|Hu]%elem_of_app; [|by apply Hps]. destruct (V26 <=? version); [by apply Hpc|by apply elem_of_nil in Hu].
Qed.

(** C6: From the queue those transactions are selected that are not expired and next in
    line for their account: in each phase by descending rate, within the limits of
    every lane, and so that each of the others would exceed a limit; the flags say
    whether there are others. The selection never panics. *)
Theorem selection_takes_best q max_ops starting_seq version now seed : reachable_queue q -> 0 <= max_ops -> selection_config_ok (config q) ->
  (forall r, effective_selection_soroban_resources q = Some r -> vec_ok 7 r) ->
  exists sel classic others soroban dropped, select_transactions_with_starting_seq max_ops starting_seq version now seed q = Ok sel /\
    selection_ok max_ops starting_seq version now q sel classic others soroban dropped.
Proof. intros Hr. destruct (reachable_ok q Hr) as [Hok _]. by apply selection_of. Qed.

(** C5: What a node nominates every node accepts: the set that is built from any queue a
    node reaches, with the limits of the ledger in force, is prepared for apply, and its
    phases pass the checks of operations, resources, parallel schedules, conflicts and
    fees. Its transactions are queued ones that passed the checks of single
    transactions, and the building never panics. *)
Theorem nominated_set_accepted q info base version max_ops hash starting_seq passes provider has_accounts cores now seed :
  reachable_queue q -> selection_config_ok (config q) -> follows info q -> info_ok info -> TxSelection.use_parallel q = true ->
  0 <= soroban_phase_min_stage_count (config q) <= soroban_phase_max_stage_count (config q) ->
  TxSetCheck.ledger_max_dependent_tx_clusters info <= u32_max ->
  TxSetCheck.ledger_max_instructions info * TxSetCheck.ledger_max_dependent_tx_clusters info <= u64_max ->
  0 <= base <= u32_max -> 0 <= max_ops -> protocol_version_starts_from version V23 = true -> checks_fees base passes ->
  exists classic soroban,
    let set := MkTxSet hash [PhaseV0 classic; soroban] in
    build_generalized_tx_set_with_providers (Nomination base version version) hash max_ops starting_seq passes (Some provider) has_accounts cores now seed q = Ok set /\
    prepare_generalized_for_apply set = Ok set /\
    check_valid_classic (PhaseV0 classic) max_ops = Valid /\ check_valid_soroban soroban version info = Ok Valid /\
    check_fee_map (PhaseV0 classic) base = Valid /\ check_fee_map soroban base = Valid /\
    forall env, env ∈ extract_transactions_from_generalized set -> exists t, t ∈ queued q /\ q_envelope t = env /\ passes (hashed_of t) = true.
Proof.
  intros Hr Hcfg Hf Hi Hpar Hst Hcl Hmul Hb Hm Hv Hp. destruct (reachable_ok q Hr) as [Hok _].
  destruct (selection_of q max_ops starting_seq version now seed Hok Hm Hcfg) as (sel & classic & others & soroban & dropped & E & Hsel).
  { intros r Er. destruct (follows_limit info q Hf) as (limit & El & Eq). assert (r = limit) as -> by congruence. by apply (limit_vec info). }
  destruct (selected_phases q Hok _ _ _ _ _ _ _ _ _ Hsel) as [Ec Es].
  destruct (classic_phase_accepted q Hok max_ops base _ _ _ _ _ _ _ _ Hsel passes Hp (Some provider) (classic_limited sel) (dex_limited sel) (is_some (max_dex_ops (config q))) Hb Hm)
    as (components & Ecl & Hck & Hcount).
  destruct (soroban_phase_accepted q Hok max_ops base _ _ _ _ _ _ _ _ Hsel passes Hp (Some provider) info (soroban_limited sel)) as (stages & fee & answer & Eso & Hin & Hsub & Hfee & Hval & Hsor); [done..|].
  exists components, (PhaseV1 (MkParallel fee (envelopes (sorted_stages stages)))). cbn zeta. split; [|split; [|split; [|split; [|split; [|split]]]]].
  - unfold build_generalized_tx_set_with_providers. cbn [build_inputs in_protocol_version in_base_fee in_validation_version]. rewrite E. cbn [result_bind]. rewrite Ec, Es. cbn [is_some orb].
    rewrite (trimmed q Hok _ _ _ _ _ _ _ _ _ Hsel). rewrite Ecl. cbn [result_bind]. rewrite Eso. done.
  - apply prepared_ok; [done| |done| |apply Hck|apply Hck|].
    + intros h Hh. apply (stay_soroban_paying q Hok _ _ _ _ _ _ _ _ _ _ Hsel passes Hp (Some provider) h). by apply (elem_of_submseteq _ _ _ Hh).
    + intros h Hh. pose proof (elem_of_submseteq _ _ _ Hh Hsub) as HhS. split; [by apply (stay_soroban_paying q Hok _ _ _ _ _ _ _ _ _ _ Hsel passes Hp (Some provider) h)|].
      apply Hp. apply (stay_passes version classic soroban passes (Some provider)). by right.
    + rewrite (ck_parts _ _ _ Hck). by apply (stay_sources q Hok _ _ _ _ _ _ _ _ _ Hsel).
  - done.
  - done.
  - apply Hck.
  - pose proof (collect_sorted stages fee) as Hcs. simpl in Hcs |- *. apply (fee_component_part fee (envelope <$> concat (concat stages))); [by rewrite Hcs|done].
  - intros env Henv. unfold extract_transactions_from_generalized in Henv. cbn [phases fmap list_fmap concat] in Henv. rewrite app_nil_r in Henv.
    apply elem_of_app in Henv as [He|He].
    + simpl in He. rewrite (ck_parts _ _ _ Hck) in He. apply list_elem_of_fmap in He as (h & -> & Hh).
      pose proof (elem_of_submseteq _ _ _ Hh (proj1 (stay_parts version classic soroban passes (Some provider)))) as Hq. apply list_elem_of_fmap in Hq as (t & -> & Ht).
      exists t. split; [by apply (selected_classic q Hok _ _ _ _ _ _ _ _ _ Hsel)|]. split; [done|]. apply (stay_passes version classic soroban passes (Some provider)). by left.
    + rewrite (collect_sorted stages fee) in He. apply list_elem_of_fmap in He as (h & -> & Hh). pose proof (elem_of_submseteq _ _ _ Hh Hsub) as HhS.
      pose proof (elem_of_submseteq _ _ _ HhS (proj2 (stay_parts version classic soroban passes (Some provider)))) as Hq. apply list_elem_of_fmap in Hq as (t & -> & Ht).
      exists t. split; [by apply (selected_soroban q Hok _ _ _ _ _ _ _ _ _ Hsel)|]. split; [done|]. apply (stay_passes version classic soroban passes (Some provider)). by right.
Qed.
End properties.

(** ** Witnesses

    A queue that follows the limits of a ledger has a payment and two Soroban
    transactions that conflict. *)

Section witnesses.
#[local] Existing Instance demo_types.
#[local] Existing Instance demo_envelopes.
#[local] Existing Instance demo_xdr.
#[local] Existing Instance demo_iteration.

Definition demo_info_offers : list QueueEvent :=
  [LedgerClosed demo_header (Some demo_info) [] [] (fun _ => []) 1 2; demo_offer 1 200;
   Offer 0 (Ok tt) (envelope (demo_soroban 2 250 40 [demo_code 5] [])); Offer 0 (Ok tt) (envelope (demo_soroban 3 350 20 [] [demo_code 5]))].
Definition demo_mixed : TransactionQueue := foldl (fun q e => demo_next e q) demo_empty demo_info_offers.

Lemma demo_soroban_ok source fee instructions reads writes : 50 <= fee <= 1000 -> 0 <= instructions <= 1000 -> (length reads <= 2)%nat -> (length writes <= 2)%nat ->
  env_ok (envelope (demo_soroban source fee instructions reads writes)).
Proof.
  intros Hf Hi Hr Hw. assert (envelope_inclusion_fee (envelope (demo_soroban source fee instructions reads writes)) = fee - 50) as E.
  { cbv -[Z.le Z.lt Z.add Z.sub Z.max Z.min Z.opp]. lia. }
  split; rewrite ?E; simpl; try done.
  - unfold i64_max. lia.
  - lia.
  - intros r [= <-]. simpl. unfold is_u32, u32_max. lia.
  - intros data [= <-]. simpl. unfold len, u32_max. lia.
Qed.

Lemma demo_mixed_reachable : reachable_queue demo_mixed.
Proof.
  unfold demo_mixed, demo_info_offers. cbn [foldl].
  apply demo_step; [|intros _; by apply demo_soroban_ok; simpl; lia]. apply demo_step; [|intros _; by apply demo_soroban_ok; simpl; lia].
  apply demo_step; [|by apply demo_offer_ok]. apply demo_step; [apply demo_empty_reachable|]. split; [|by intros x ?%elem_of_nil].
  by split; vm_compute.
Qed.

Lemma demo_mixed_config : selection_config_ok (config demo_mixed).
Proof.
  assert (config demo_mixed = demo_queue_config) as -> by evaluated. by split.
Qed.

Lemma demo_mixed_limit : effective_selection_soroban_resources demo_mixed = Some (MkResource [10; 80; 2000; 1000; 1000; 40; 40]).
Proof. evaluated. Qed.

Lemma demo_mixed_follows : follows demo_info demo_mixed.
Proof. split; [rewrite demo_mixed_limit; by vm_compute|evaluated|evaluated]. Qed.

(** Who bids the base fee and has a valid resource fee. *)
Definition demo_passes (h : HashedTx) : bool :=
  (100 * envelope_operation_count (envelope h) <=? envelope_inclusion_fee (envelope h)) && match validate_tx_fee (envelope h) with Ok _ => true | Err _ => false end.

Lemma demo_checks : checks_fees 100 demo_passes.
Proof. intros h [Hb Hv]%andb_true_iff. apply Z.leb_le in Hb. split; [done|]. by destruct (validate_tx_fee (envelope h)) as [[]|]. Qed.

(** Every account has 300; account 2 owes 200 for its payment and 250 for its invocation,
    which goes. *)
Definition demo_poor : FeeBalanceProvider := fun _ => Ok (Some 300).
Definition demo_payments : list HashedTx := HashedTx_new <$> [demo_payment 1 200; demo_payment 2 200].
Definition demo_invocations : list HashedTx := [demo_soroban 2 250 40 [demo_code 5] []; demo_soroban 3 200 20 [] [demo_code 5]].

Lemma demo_costs l : Forall (fun h => 0 <= envelope_fee (envelope h)) l -> costs_ok l.
Proof. rewrite Forall_forall. done. Qed.

Example demo_trim : trim_invalid_two_phase_hashed demo_passes true (Some 4%nat) (Some demo_poor) 26 demo_payments demo_invocations =
  (demo_payments, [demo_soroban 3 200 20 [] [demo_code 5]]).
Proof. by vm_compute. Qed.

Lemma trim_leaves_payable_witness :
  let C := stay_classic demo_passes (Some demo_poor) demo_payments in
  let S := stay_soroban demo_passes (Some demo_poor) 26 demo_payments demo_invocations in
  trim_invalid_two_phase_hashed demo_passes true (Some 4%nat) (Some demo_poor) 26 demo_payments demo_invocations = (C, S) /\
  forall p k, Some demo_poor = Some p -> available_balance p k < i64_max ->
    owes k C <= Z.max 0 (available_balance p k) /\ owes k ((if V26 <=? 26 then C else []) ++ S) <= Z.max 0 (available_balance p k).
Proof.
  apply (trim_leaves_payable demo_passes true (Some 4%nat) (Some demo_poor) 26 demo_payments demo_invocations).
  - apply demo_costs. repeat constructor; by vm_compute.
  - apply demo_costs. repeat constructor; by vm_compute.
  - apply (bool_decide_unpack _). by vm_compute.
  - apply (bool_decide_unpack _). by vm_compute.
Defined.

Lemma selection_takes_best_witness : exists sel classic others soroban dropped,
  select_transactions_with_starting_seq 1000 None 23 0 7 demo_mixed = Ok sel /\ selection_ok 1000 None 23 0 demo_mixed sel classic others soroban dropped.
Proof.
  apply (selection_takes_best demo_mixed 1000 None 23 0 7 demo_mixed_reachable); [done|apply demo_mixed_config|].
  intros r Hr. rewrite demo_mixed_limit in Hr. injection Hr as <-. apply (limit_vec demo_info); by vm_compute.
Defined.

Lemma nominated_set_accepted_witness : exists classic soroban,
  let set := MkTxSet [] [PhaseV0 classic; soroban] in
  build_generalized_tx_set_with_providers (Nomination 100 23 23) [] 1000 None demo_passes (Some demo_provider) true None 0 7 demo_mixed = Ok set /\
  prepare_generalized_for_apply set = Ok set /\
  check_valid_classic (PhaseV0 classic) 1000 = Valid /\ check_valid_soroban soroban 23 demo_info = Ok Valid /\
  check_fee_map (PhaseV0 classic) 100 = Valid /\ check_fee_map soroban 100 = Valid /\
  forall env, env ∈ extract_transactions_from_generalized set -> exists t, t ∈ vals (by_hash (store demo_mixed)) /\ q_envelope t = env /\ demo_passes (hashed_of t) = true.
Proof.
  apply (nominated_set_accepted demo_mixed demo_info 100 23 1000 [] None demo_passes demo_provider true None 0 7 demo_mixed_reachable demo_mixed_config demo_mixed_follows).
  - by vm_compute.
  - evaluated.
  - assert (config demo_mixed = demo_queue_config) as -> by evaluated. by vm_compute.
  - by vm_compute.
  - by vm_compute.
  - by vm_compute.
  - done.
  - by vm_compute.
  - apply demo_checks.
Defined.

Definition demo_phases (r : result GeneralizedTransactionSet Panic) : list nat :=
  match r with Ok set => length <$> (collect_phase_txs <$> phases set) | Err _ => [] end.
Example demo_nominated : demo_phases (build_generalized_tx_set_with_providers (Nomination 100 23 23) [] 1000 None demo_passes (Some demo_provider) true None 0 7 demo_mixed) = [1; 2]%nat.
Proof. evaluated. Qed.
End witnesses.
